(* ===== verification/_CoqProject ===== *)
-Q . S2P
Prelude.v
LambdaSig.v
LambdaSigFacts.v
LambdaSigTheorems.v
Bitmapset.v
BitmapsetFacts.v
BitmapsetTheorems.v
Nodes.v
NodesFacts.v
Serialize.v
Inject.v
InjectFacts.v
Typing.v
Eval.v
EvalFacts.v
Semantics.v
HoistFacts.v
NodeText.v
Demo.v
HoistTheorems.v
Safety.v
SafetyTheorems.v
PartialFacts.v
PartialTheorems.v
L3Theorems.v
RowTheorems.v
ParseLambda.v
ParseFacts.v
ParseTyping.v
ParseTheorems.v
Steps.v
StepsFacts.v
StepsRun.v
StepsTheorems.v
SimpleHash.v
SimpleHashFacts.v
SimpleHashTheorems.v
Cache.v
CacheFacts.v
CacheTheorems.v
LambdaPrint.v
JobQueue.v
ThreadPool.v
ThreadPoolFacts.v
ThreadPoolTheorems.v
ApplyMt.v
ApplyMtFacts.v
ApplyMtTheorems.v
HeapTuple.v
HeapTupleTheorems.v
ApplyPw.v
ApplyPwFacts.v
ApplyPwRun.v
ApplyPwResult.v
ApplyPwTheorems.v
Hashfn.v
HashfnTheorems.v
Float8.v
Kmeans.v
KmeansFacts.v
KmeansTheorems.v
TempFile.v
Buffile.v
BuffileTheorems.v
Tuplestore.v
TuplestoreSpec.v
TuplestoreFile.v
TuplestoreSim.v
TuplestorePut.v
TuplestorePtr.v
TuplestoreTheorems.v
FloatFunc.v
Matrix.v
MatrixFacts.v
Derive.v
DeriveFacts.v
DeriveTheorems.v
FloatReal.v
DeriveGradient.v
MatrixTheorems.v
