(* ===== verification/Prelude.v ===== *)
(** * Verification of the lambda extension of PostgreSQL 17.4

    The program is a fork of PostgreSQL in which functions are data: a lambda
    expression is a value of type [lambda] that can be stored in a column,
    passed to a function, called in plain SQL and applied partially.  Paths
    below are relative to [src/hol-lambdas/src/].

    ** Parts of the program

    - A lambda column's typmod refers to a row of the catalog [pg_lambdasig],
      which interns signatures ([backend/catalog/pg_lambdasig.c]).
    - Parse analysis turns the lambda literals of a VALUES list, and those
      passed to a table function, into typed bodies, and calls of lambda
      columns into call nodes ([backend/parser/parse_expr.c],
      [parse_func.c], [parse_target.c]).
    - A lambda value is a varlena that contains the text of its [LambdaExpr]
      ([backend/utils/adt/lambda_serialize.c]).
    - A call evaluates the lambda and its arguments, gets a body for them,
      and runs it with the arguments in the PARAM_EXEC array
      ([backend/executor/execExpr.c], [execExprInterp.c]).
    - A higher-order lambda is flattened before it runs: the lambdas passed to
      it are inlined at the places where it calls them
      ([backend/utils/adt/lambda_injector.c]).  Partial application inlines
      the arguments that are given and returns a residual lambda.
    - Built bodies are kept in a cache per call site
      ([backend/utils/adt/lambda_cache.c]), in a hash table with linear
      probing ([include/lib/simplehash.h]).
    - An expression is compiled once into a list of steps, which an
      interpreter runs for every row ([execExpr.c], [execExprInterp.c]).
    - Held argument positions are a [Bitmapset] ([backend/nodes/bitmapset.c]).
    - The table function [apply_mt] ([ext/apply_mt_ext.c]) applies a relation
      of lambdas to a relation of rows on a pool of threads
      ([ext/threadpool.c]); [apply_mt_pw] and [apply_mt_agg_pw]
      ([ext/apply_mt_pw_ext.c]) do so on parallel worker processes, which
      share memory with the leader.  Both return their rows in a tuplestore
      ([backend/utils/sort/tuplestore.c], on [storage/file/buffile.c]).  [kmeans_v2] ([ext/kmeans_v2_ext.c])
      clusters points by a distance lambda on threads of its own.
    - A lambda over rows can be differentiated: the steps are run, and then
      walked back with the derivative of every float function
      ([ExecDeriveLambdaExpr] of [execExpr.c]; [backend/utils/adt/float.c]), also
      where the values are matrices ([backend/utils/adt/matrix_ops.c]).

    ** Files

    This file: outcomes of C code ([Ok], [Err] for ereport and elog, [UB] for
    undefined behaviour, [OutOfFuel]), C strings, decimal printing and
    [strtoul], fixed-width integers.

    - [LambdaSig.v] models [pg_lambdasig.c], one definition per function, with
      the catalog as the list of its rows.  [LambdaSigFacts.v],
      [LambdaSigTheorems.v]: the canonical key and its parser are inverse to
      each other and the parser ends on every input ([key_roundtrip],
      [parse_key_total]); a created signature is read back from its typmod and
      equal signatures share one row ([create_get_roundtrip],
      [create_interns]); typmods are allocated in range and without reuse
      ([allocate_typmod_spec]); narrowing keeps the held arguments
      ([narrow_typmod_spec]).
    - [Bitmapset.v] models [bitmapset.c] on lists of 64-bit words.
      [BitmapsetFacts.v], [BitmapsetTheorems.v]: it implements finite sets
      ([bms_set_operations], [bms_member_operations], [bms_predicates],
      [bms_enumeration]).
    - [Nodes.v] has the expression nodes of [include/nodes/primnodes.h], the
      walker and the mutator of [backend/nodes/nodeFuncs.c], and the analyses
      of [backend/utils/adt/lambda_helpers.c]; [NodesFacts.v] induction over
      trees.
    - [Serialize.v] models [lambda_serialize.c] over the class [NodeIO] of
      node readers and writers ([serialize_roundtrip]); [NodeText.v] is a
      concrete text format that satisfies its law.
    - [Inject.v] models [lambda_injector.c]: [lambda_injector_scalar],
      [lambda_partial_apply], [lambda_injector] and their helpers;
      [InjectFacts.v].
    - [Typing.v]: the types that signatures express, the judgement [check] of
      well-typed bodies, and a reducibility argument that inlining ends under
      it.
    - [Eval.v]: the value of an expression, following [ExecInitExprRec] and
      the interpreter's steps; calls ([ExecEvalCallLambdaExpr]), bodies
      ([lambda_body], the part of [lambda_cache_build] behind the cache) and
      partial applications.  [EvalFacts.v] shows that more fuel never changes
      a value.  [Semantics.v] has the reference semantics, in which function
      inputs are called and never inlined, and the simulation between it and
      inlining.
    - [HoistFacts.v], [HoistTheorems.v]: injection ends and leaves no call of
      an input behind ([injection_total]); the flattened call returns the
      value of the reference semantics ([hoisted_call_sound]).
    - [Safety.v]: types with the OIDs of values and of the arguments and results
      of functions, and the judgement [has_ty], which injection preserves.
      [SafetyTheorems.v]: a well-typed call always comes back with a value of the
      type of its body or an error, with hoisting on ([typed_call_safe]) or off
      ([unhoisted_call_safe]).
    - [PartialFacts.v], [PartialTheorems.v]: calling the residual on the
      missing arguments returns what the original returns on all of them
      ([partial_application_sound]); an example shows that a residual with an
      embedded lambda needs hoisting ([embedded_lambda_needs_hoisting]).
    - [L3Theorems.v]: what the L3 analysis accepts ([l3_verdict]), and that
      flattening keeps it ([l3_flatten]).  [RowTheorems.v]: argument lookup
      of row-context lambdas ([find_arg_flat]), and an example of a nested call
      that injection leaves behind ([nested_call_left_behind]).
    - [ParseLambda.v] models parse analysis as a state and error monad over the
      catalog of signatures and the flags of the query: expressions
      ([transformExprRecurse]), references to inputs (the two column hooks),
      calls ([ParseFuncOrColumn]) and lambda literals ([transformLambdaExpr],
      [transformExpressionList], [transform_udf_lambdas]).  [ParseFacts.v],
      [ParseTyping.v], [ParseTheorems.v]: a literal that is
      accepted and uses its inputs at the types of its column's signature
      becomes a lambda that is well typed in the sense of [Safety.v]
      ([values_lambda_typed]), which can be called without going wrong
      ([inserted_lambda_safe]); which calls of a lambda
      column are accepted and what node they become, partial applications
      included ([lambda_call_analysed]); the input rows of lambdas passed to a
      table function ([udf_lambda_rows]); and that the analysis does not look
      at the declared return type ([return_type_unchecked]) nor at the number
      of arguments of a call of an input ([input_call_too_few]).
    - [Steps.v] models the compilation of [execExpr.c] and the dispatch loop
      of [execExprInterp.c]: steps, jump targets that are set when the end of
      a construct is known, and the cells the steps read and write.
      [StepsFacts.v] shows what compiling a node adds to a state,
      [StepsRun.v] that the code of a node computes its value wherever it
      stands.  [StepsTheorems.v]: the steps compute the values and raise the
      errors of [Eval.v], row after row ([compiled_rows_correct]), also behind
      hoisting ([compiled_call_sound]).
    - [SimpleHash.v] models the table of [simplehash.h] as [lambda_cache.c]
      instantiates it: growing, insertion that moves elements away, deletion
      that moves them back, iteration.  [SimpleHashFacts.v],
      [SimpleHashTheorems.v]: it implements a finite set
      of keys ([simplehash_is_a_set]), and an iteration visits every element
      once, even when it deletes the elements it visits
      ([simplehash_iterates_once]).
    - [Cache.v] models [lambda_cache.c] with its entries in a heap, over the
      class [LCacheTable] of hash tables; [CacheTheorems.v] shows that the table
      of [SimpleHash.v] is one.  [CacheFacts.v], [CacheTheorems.v]:
      for every sequence of rows the cache returns the bodies that would be
      built afresh and stays within its size ([cache_transparent]); it
      replaces the least recently used entry ([cache_lru_policy]).
    - [Hashfn.v] models [common/hashfn.c] and [include/common/hashfn.h] on the
      bytes of a key, and the hash of bitmap sets.  [HashfnTheorems.v]: all
      code paths compute one reference function and read only the key
      ([hash_bytes_reference]); the shortcuts agree with the general functions
      ([hash_shortcuts]); keys that a table takes for equal have equal hashes
      ([table_keys_hash]); [mix] is reversible ([mix_reversible]).
    - [LambdaPrint.v] models the display names of [lambda_print.c]
      ([decorate_roundtrip]).
    - [JobQueue.v] models the linked list of [threadpool.c] and proves that it
      implements the class [JobQueue]; [ThreadPool.v] models the workers and
      the submitting thread as a transition system over that class, and
      [run_schedule] runs it.  [ThreadPoolFacts.v], [ThreadPoolTheorems.v]:
      mutual exclusion, freedom from deadlock, termination, and that every job
      runs exactly once ([pool_mutex], [pool_progress], [pool_terminates],
      [pool_runs_every_job]).
    - [ApplyMt.v] models [apply_mt_internal] on that pool.  [ApplyMtFacts.v],
      [ApplyMtTheorems.v]: for every interleaving the output is the one of a
      sequential loop ([apply_mt_correct]), and every result has one writer
      ([apply_mt_one_writer]).
    - [ApplyPw.v] models [apply_mt_pw_internal] and
      [apply_mt_pw_worker_main]: the bytes of the packed lambdas, the jobs, and
      leader and workers as a transition system over the shared memory, with
      the wait list of the condition variable.  [ApplyPwFacts.v] has the round
      trip of the pack and the jobs, [ApplyPwRun.v] the invariant of the
      transition system, progress and the measure,
      [ApplyPwResult.v] the contents of the output region.
      [ApplyPwTheorems.v]: every outcome of a call is that of a sequential
      loop or an error with a cause ([apply_pw_correct]), and the run ends
      within a number of steps given by the sizes ([apply_pw_terminates]).
    - [HeapTuple.v] models the tuples of [backend/access/common/heaptuple.c], with
      the null bitmap, alignment, the headers of varlenas and the cache of
      offsets in the descriptor, and the slots of [execTuples.c] that take them
      apart step by step.  [HeapTupleTheorems.v]: taking a tuple apart gives back
      the columns it was formed from ([tuple_roundtrip]).
    - [Float8.v]: double precision (the standard library's [SpecFloat]) and the
      order of floats.
    - [Kmeans.v] models [kmeans_v2] and [kmeans_v2_worker]: the threads of an
      iteration as a transition system that interleaves at every memory access,
      and the calls as a relation to their outcomes.  [KmeansFacts.v] has the
      reference for the nearest centroid, which the loop of the code finds, the
      invariant of the threads, and Lloyd's iteration.  [KmeansTheorems.v]: every
      outcome is that of Lloyd's iteration ([kmeans_correct]), which is at a
      fixed point when it stops early ([kmeans_stable]); without centroids a
      call writes outside its arrays ([kmeans_no_centroids]).
    - [TempFile.v] is the class of temporary files that tuplestores need.
      [Buffile.v] models [backend/storage/file/buffile.c]: the segments of a
      temporary file, the block buffer, reading, writing and seeking, on
      physical files that transfer fewer bytes than asked for.
      [BuffileTheorems.v]: it behaves as an array of bytes with
      a position ([buffile_refines]), and is an instance of the class.
    - [Tuplestore.v] models [backend/utils/sort/tuplestore.c], in which the table
      functions return their results: the array of tuples, the temporary file,
      the read pointers, trimming, and the account of memory.
      [TuplestoreSpec.v] is the abstract store and the sequences of operations,
      [TuplestoreFile.v] the invariant, reading and writing at the boundaries of
      tuples, [TuplestoreSim.v] the relation between the two stores.
      [TuplestorePut.v] and [TuplestorePtr.v] show that every operation keeps it.
      [TuplestoreTheorems.v]: a tuplestore returns what the abstract store
      returns, with any amount of memory ([tuplestore_correct],
      [tuplestore_roundtrip]), for the sequences of operations that are
      [admissible].  A read pointer that is allocated while pointer 0 is reading
      is not: in a file it gets an old position ([stale_read_pointer]).
    - [FloatFunc.v] models the float functions of [float.c], over the interface
      [Float8Ops] of C arithmetic and the mathematical library; [FloatReal.v] is
      its instance with real numbers.
    - [Matrix.v] models [matrix_ops.c], with every index of its loops checked.
      [MatrixFacts.v], [MatrixTheorems.v]: both
      multiplications compute the same product or refuse two vectors
      ([matrix_product_correct]), and the
      functions of a scalar and a matrix do not read the matrix
      ([scalar_functions_ignore_matrix]).
    - [Derive.v] models the differentiation of lambdas in [execExpr.c].
      [DeriveFacts.v] shows that the walk over the steps is a walk over the tree
      of the body, and that running the steps leaves the values of the
      arguments for it, [DeriveTheorems.v] that together they are reverse mode
      differentiation of the body ([derive_compiled]).  [DeriveGradient.v] has the
      derivative of every float function, and shows that with exact arithmetic
      the walk computes the gradient ([gradient_correct]).  The rules of matrices are right as well ([matrix_rule_gradient],
      [elementwise_rule_gradient]), up to the sign of the one for the cross
      entropy ([softmax_cce_derive_sign]).
    - [Demo.v] instantiates all parameters; the witnesses of the theorems run
      on it.

    ** Parameters

    Code that is generated or belongs to other parts of the server is a
    parameter with the laws that are used of it: [NodeIO] and [NodeIOLaws]
    (the generated node text functions and detoasting), [TypeCache]
    ([get_typlenbyval]), [ExecParams] (built-in functions, as functions of
    their arguments, and the constant folder), [FoldLaws] (folding preserves
    values and types), [Catalog] and [TypedParams] (the types of values and of
    built-in functions, which return a value of their result type or raise an
    error on arguments of the types they accept), [EOH_flatten] (the flat form of an
    expanded object), the
    hash of a varlena in the cache (the cache is correct for every function;
    the code passes the bytes to [hash_bytes]), [pg_type], [format_type_be] and the OID generator, the
    functions that the JIT compiles for [apply_mt] and for k-means, and [PwParams]
    (compilation and evaluation of a lambda in a worker, float8 arithmetic),
    [ParseParams] and [ParseLaws] (lookup of functions, operators, casts and
    columns in the system catalogs; casts give an expression of the target type,
    functions and operators that are found have the types of the catalog), [Disk] and
    [DiskLaws] (how many bytes of a transfer the operating system makes),
    [Float8Ops] (double precision arithmetic and libm, without laws: what is
    exact is stated for real numbers), [DeriveValue] (how a Datum holds a number
    or a pointer to an array), and the space of memory chunks with the law [ArraySpace] that the comments in
    [grow_memtuples] state.

    ** Fuel

    The key parser passes fuel linear in the length of the key, which
    [parse_key_total] shows to be enough.  Injection and evaluation recurse
    into the bodies of lambda values; their fuel is an argument, and the
    theorems state that there is an amount from which on the result is the
    same.  That amount exists for well-typed lambdas because of their types,
    not because of the code, which would also diverge on a lambda applied to
    itself.  The fuel of [ExecInterpExpr] bounds steps and nested calls;
    [compiled_rows_correct] gives an amount for every evaluation that returns.
    The probing loops of the hash table pass the number of buckets.
    [lambda_cache_make_room] passes the number of entries; the loops of
    [buffile.c] pass the number of bytes to transfer; loops over arrays,
    and [hash_loop] over the blocks of a key, have the number of their
    iterations as fuel.  The walk of a differentiation needs the depth of the
    body.

    ** Not modelled

    The grammar; of parse analysis sublinks, named, variadic and default
    arguments, aggregates and the expressions that lambda bodies have no nodes
    for; the planner, the steps that fetch attributes from tuples, the
    checks of [ExecInitFunc] for permissions and for functions that return sets, the
    lookup of a comparison function for GREATEST and LEAST, CASE with a test
    argument, the JIT compiler with its own derivative
    rules, rounding errors of gradients, the float functions that cannot be
    differentiated, the debugging helpers of [matrix_ops.c], deparsing, the other table functions
    ([apply_ext.c], [lambda_ext.c]),
    memory contexts except where an entry's lifetime matters, I/O errors, files
    of a FileSet, failure of [pthread_create], and the parts of PostgreSQL that the extension does not
    change. *)

From Stdlib Require Export ZArith Lia Ascii String.
From stdpp Require Export base tactics list gmap strings.
Set Default Goal Selector "!".
#[export] Set Default Goal Selector "!".
Open Scope Z_scope.

(** ** Outcomes of backend code

    [ereport(ERROR, ...)] and [elog(ERROR, ...)] leave a function by a long
    jump: the caller sees no result.  [UB] is a C-level crash (dereference of
    a NULL pointer, access outside an array); [OutOfFuel] only appears where
    a model recurses on fuel, and every such definition comes with a theorem
    that the fuel its entry point passes is enough. *)

Definition cstr := list ascii.

Definition lit (s : string) : cstr := list_ascii_of_string s.
Arguments lit : simpl never.

Inductive errcode :=
| ERRCODE_INTERNAL_ERROR
| ERRCODE_SYNTAX_ERROR
| ERRCODE_UNDEFINED_OBJECT
| ERRCODE_INVALID_TABLE_DEFINITION
| ERRCODE_INVALID_PARAMETER_VALUE
| ERRCODE_PROGRAM_LIMIT_EXCEEDED
| ERRCODE_DATATYPE_MISMATCH
| ERRCODE_DIVISION_BY_ZERO
| ERRCODE_FEATURE_NOT_SUPPORTED
| ERRCODE_TOO_MANY_ARGUMENTS
| ERRCODE_NULL_VALUE_NOT_ALLOWED
| ERRCODE_INSUFFICIENT_RESOURCES
| ERRCODE_SYSTEM_ERROR
| ERRCODE_INVALID_COLUMN_REFERENCE
| ERRCODE_UNDEFINED_FUNCTION
| ERRCODE_AMBIGUOUS_FUNCTION
| ERRCODE_DUPLICATE_ALIAS
| ERRCODE_CANNOT_COERCE
| ERRCODE_NUMERIC_VALUE_OUT_OF_RANGE
| ERRCODE_INVALID_ARGUMENT_FOR_LOG
| ERRCODE_INVALID_ARGUMENT_FOR_POWER_FUNCTION
| ERRCODE_TOO_MANY_COLUMNS.

#[export] Instance errcode_eq_dec : EqDecision errcode.
Proof. solve_decision. Defined.

Record pg_error := PgError { err_code : errcode; err_msg : cstr }.

Inductive outcome (A : Type) :=
| Ok (a : A)
| Err (e : pg_error)
| UB
| OutOfFuel.
Arguments Ok {A} _.
Arguments Err {A} _.
Arguments UB {A}.
Arguments OutOfFuel {A}.

#[export] Instance outcome_ret : MRet outcome := fun A a => Ok a.

#[export] Instance outcome_bind : MBind outcome := fun A B k m =>
  match m with
  | Ok a => k a
  | Err e => Err e
  | UB => UB
  | OutOfFuel => OutOfFuel
  end.

#[export] Instance outcome_fmap : FMap outcome := fun A B f m =>
  match m with
  | Ok a => Ok (f a)
  | Err e => Err e
  | UB => UB
  | OutOfFuel => OutOfFuel
  end.

Definition ereport {A} (c : errcode) (msg : cstr) : outcome A := Err (PgError c msg).
Definition elog {A} (msg : cstr) : outcome A := ereport ERRCODE_INTERNAL_ERROR msg.

Definition is_Ok {A} (m : outcome A) : bool :=
  match m with Ok _ => true | _ => false end.

Definition is_OutOfFuel {A} (m : outcome A) : bool :=
  match m with OutOfFuel => true | _ => false end.

(** dereferencing a possibly NULL pointer *)
Definition deref {A} (p : option A) : outcome A :=
  match p with Some a => Ok a | None => UB end.

Lemma bind_Ok_inv {A B} (m : outcome A) (k : A → outcome B) b :
  (m ≫= k) = Ok b → ∃ a, m = Ok a ∧ k a = Ok b.
Proof. destruct m; naive_solver. Qed.

Lemma bind_fuel_inv {A B} (m : outcome A) (k : A → outcome B) :
  (m ≫= k) = OutOfFuel → m = OutOfFuel ∨ ∃ a, m = Ok a ∧ k a = OutOfFuel.
Proof. destruct m; naive_solver. Qed.

Lemma fmap_Ok_inv {A B} (f : A → B) (m : outcome A) b :
  (f <$> m) = Ok b → ∃ a, m = Ok a ∧ b = f a.
Proof. destruct m; naive_solver. Qed.

(** [mapM] over outcomes, left to right, stopping at the first failure: the
    shape of a [foreach] loop whose body may raise. *)
Fixpoint omapM {A B} (f : A → outcome B) (l : list A) : outcome (list B) :=
  match l with
  | [] => Ok []
  | x :: l => y ← f x; ys ← omapM f l; Ok (y :: ys)
  end.

Lemma omapM_Forall2 {A B} (f : A → outcome B) l ys :
  omapM f l = Ok ys ↔ Forall2 (fun x y => f x = Ok y) l ys.
Proof.
  revert ys; induction l as [|x l IH]; intros ys; simpl.
  { split; [intros [= <-]; constructor | by inversion 1]. }
  split.
  - intros (y & Hy & (ys' & Hys & [= <-])%bind_Ok_inv)%bind_Ok_inv.
    constructor; [done|]. by apply IH.
  - inversion 1 as [|? y ? ys' Hy Hys]; subst. apply IH in Hys.
    by rewrite Hy; simpl; rewrite Hys.
Qed.

Lemma omapM_length {A B} (f : A → outcome B) l ys :
  omapM f l = Ok ys → length ys = length l.
Proof. intros H%omapM_Forall2. symmetry. by eapply Forall2_length. Qed.

(** ** More fuel

    A definition that recurses on fuel may only answer [OutOfFuel] where more
    fuel gives an answer. *)

Definition fuel_le {A} (a b : outcome A) : Prop := a = OutOfFuel ∨ a = b.

Lemma fuel_le_refl {A} (a : outcome A) : fuel_le a a.
Proof. by right. Qed.

Lemma fuel_le_bind {A B} (a b : outcome A) (f g : A → outcome B) :
  fuel_le a b → (∀ x, fuel_le (f x) (g x)) → fuel_le (a ≫= f) (b ≫= g).
Proof. intros [->| ->] Hf; [by left|]. destruct b; simpl; [apply Hf|by right..]. Qed.

Lemma fuel_le_fmap {A B} (a b : outcome A) (f : A → B) : fuel_le a b → fuel_le (f <$> a) (f <$> b).
Proof. intros [->| ->]; [by left|by right]. Qed.

Lemma fuel_le_omapM {A B} (f g : A → outcome B) l :
  (∀ x, fuel_le (f x) (g x)) → fuel_le (omapM f l) (omapM g l).
Proof.
  intros Hf. induction l as [|x l IH]; [by right|]. simpl. apply fuel_le_bind; [apply Hf|]. intros y.
  apply fuel_le_bind; [exact IH|]. intros ys. by right.
Qed.

Lemma fuel_le_eq {A} (a b : outcome A) r : fuel_le a b → a = r → r ≠ OutOfFuel → b = r.
Proof. by intros [->| ->] <-. Qed.

(** compare two bodies that differ in the fuel of their calls *)
Ltac fuel_mono :=
  repeat first
    [ assumption
    | match goal with H : ∀ _, _ |- fuel_le _ _ => simple apply H end
    | apply fuel_le_refl
    | apply fuel_le_bind; [|intros ?]
    | apply fuel_le_fmap
    | apply fuel_le_omapM; intros ?
    | match goal with |- fuel_le (match ?x with _ => _ end) _ => destruct x end ].

(** run an outcome computation backwards: split every successful bind *)
Ltac outcome_inv :=
  repeat match goal with
  | H : (_ ≫= _) = Ok _ |- _ =>
      let a := fresh "a" in let Ha := fresh "Hok" in
      apply bind_Ok_inv in H as (a & Ha & H); simpl in H
  | H : fmap _ _ = Ok _ |- _ =>
      let a := fresh "a" in let Ha := fresh "Hok" in
      apply fmap_Ok_inv in H as (a & Ha & H); try subst
  | H : Ok _ = Ok _ |- _ => injection H as H; subst
  | H : ereport _ _ = Ok _ |- _ => discriminate H
  | H : elog _ = Ok _ |- _ => discriminate H
  | H : UB = Ok _ |- _ => discriminate H
  | H : Err _ = Ok _ |- _ => discriminate H
  | H : OutOfFuel = Ok _ |- _ => discriminate H
  | x : prod _ _ |- _ => destruct x
  end.

Lemma forallb_Forall {A} (f : A → bool) l : forallb f l = true ↔ Forall (fun x => f x = true) l.
Proof.
  rewrite forallb_forall, Forall_forall.
  split; intros H x Hx; apply H; by apply list_elem_of_In.
Qed.

(** right-nest appends, computing through literals *)
Ltac napp := simpl; repeat (rewrite <- app_assoc; simpl); try done.

Create HintDb lambda.
Create Rewrite HintDb lambda_rw.
#[export] Hint Rewrite @length_app @length_fmap @length_seq : lambda_rw.

(** ** Machine integers *)

Definition PG_INT32_MAX : Z := 2147483647.
Definition PG_UINT32_MAX : Z := 4294967295.
Definition ULONG_MAX : Z := 18446744073709551615.

Definition uint32 (z : Z) : Z := z mod 2 ^ 32.
Definition uint64 (z : Z) : Z := z mod 2 ^ 64.
Definition int32 (z : Z) : Z := (z + 2 ^ 31) mod 2 ^ 32 - 2 ^ 31.

Lemma uint32_small z : 0 ≤ z ≤ PG_UINT32_MAX → uint32 z = z.
Proof. unfold uint32, PG_UINT32_MAX. intros. apply Z.mod_small. lia. Qed.

Lemma uint64_small z : 0 ≤ z ≤ ULONG_MAX → uint64 z = z.
Proof. unfold uint64, ULONG_MAX. intros. apply Z.mod_small. lia. Qed.

(** ** Integers in memory, lowest byte first *)

Fixpoint le_bytes (n : nat) (w : Z) : list Z := match n with O => [] | S n => w mod 256 :: le_bytes n (w / 256) end.

Fixpoint le_value (bs : list Z) : Z := match bs with [] => 0 | b :: bs => b + 256 * le_value bs end.

Lemma length_le_bytes n w : length (le_bytes n w) = n.
Proof. revert w. induction n as [|n IH]; intros w; [done|]. simpl. by rewrite IH. Qed.

Lemma value_le_bytes n w : 0 ≤ w < 256 ^ Z.of_nat n → le_value (le_bytes n w) = w.
Proof.
  revert w. induction n as [|n IH]; intros w Hw; [simpl in *; lia|]. cbn [le_bytes le_value]. rewrite IH.
  - pose proof (Z.div_mod w 256). lia.
  - rewrite Nat2Z.inj_succ, Z.pow_succ_r in Hw by lia. split; [apply Z.div_pos; lia|apply Z.div_lt_upper_bound; lia].
Qed.

(** ** Decimal numbers of the C library: printf's [%u] and strtoul *)

Definition ch (n : Z) : ascii := ascii_of_N (Z.to_N n).
Definition code (c : ascii) : Z := Z.of_N (N_of_ascii c).

Definition is_digit (c : ascii) : bool := (48 <=? code c) && (code c <=? 57).
Definition digit_val (c : ascii) : Z := code c - 48.
Definition digit_char (d : Z) : ascii := ch (48 + d).

Fixpoint dec_aux (fuel : nat) (n : Z) : cstr :=
  match fuel with
  | O => []
  | S f => (if n / 10 =? 0 then [] else dec_aux f (n / 10)) ++ [digit_char (n mod 10)]
  end.

(** [%u]/[%lu]: 20 digits are enough for 64 bits *)
Definition fmt_u (n : Z) : cstr := dec_aux 20 n.

(** [%d] *)
Definition fmt_d (n : Z) : cstr :=
  if n <? 0 then "-"%char :: fmt_u (- n) else fmt_u n.

(** the digit loop of strtoul: value of the longest prefix of digits (not yet
    saturated) and the position behind it *)
Fixpoint scan_digits (acc : Z) (s : cstr) : Z * cstr :=
  match s with
  | c :: s' => if is_digit c then scan_digits (acc * 10 + digit_val c) s' else (acc, s)
  | [] => (acc, [])
  end.

(** strtoul in base 10 on an input that starts with a digit: value saturated
    at ULONG_MAX, end pointer, errno == ERANGE *)
Definition strtoul (s : cstr) : Z * cstr * bool :=
  let '(v, rest) := scan_digits 0 s in
  if v <=? ULONG_MAX then (v, rest, false) else (ULONG_MAX, rest, true).

Lemma code_ch n : 0 ≤ n < 256 → code (ch n) = n.
Proof. intros. unfold code, ch. rewrite N_ascii_embedding by lia. lia. Qed.

Lemma digit_char_ok d : 0 ≤ d < 10 → is_digit (digit_char d) = true ∧ digit_val (digit_char d) = d.
Proof.
  intros. unfold is_digit, digit_val, digit_char. rewrite code_ch by lia.
  split; [|lia]. apply andb_true_intro. split; lia.
Qed.

Definition no_digit_head (s : cstr) : Prop :=
  match s with c :: _ => is_digit c = false | [] => True end.

Lemma scan_digits_app fuel n acc rest :
  0 ≤ n < 10 ^ Z.of_nat fuel → (0 < fuel)%nat →
  scan_digits acc (dec_aux fuel n ++ rest)
  = scan_digits (acc * 10 ^ Z.of_nat (length (dec_aux fuel n)) + n) rest.
Proof.
  revert n acc rest; induction fuel as [|f IH]; intros n acc rest Hn Hf; [lia|].
  simpl dec_aux.
  assert (0 ≤ n mod 10 < 10) as Hm by (apply Z.mod_pos_bound; lia).
  destruct (digit_char_ok _ Hm) as [Hd Hv].
  destruct (Z.eqb_spec (n / 10) 0) as [Hq|Hq]; simpl.
  { rewrite Hd, Hv. f_equal. change (10 ^ Z.of_nat 1) with 10.
    pose proof (Z.div_mod n 10 ltac:(lia)). lia. }
  assert (Hpow : 10 ^ Z.of_nat (S f) = 10 * 10 ^ Z.of_nat f).
  { rewrite Nat2Z.inj_succ, Z.pow_succ_r by lia. done. }
  assert (0 ≤ n / 10 < 10 ^ Z.of_nat f) as Hr.
  { split; [apply Z.div_pos; lia|]. apply Z.div_lt_upper_bound; lia. }
  assert (0 < f)%nat as Hf0.
  { destruct f; [|lia]. change (10 ^ Z.of_nat 0) with 1 in Hr. lia. }
  rewrite <- app_assoc, IH by done. simpl. rewrite Hd, Hv.
  rewrite length_app. simpl length. f_equal.
  rewrite Nat2Z.inj_add, Z.pow_add_r by lia. change (10 ^ Z.of_nat 1) with 10.
  pose proof (Z.div_mod n 10 ltac:(lia)). nia.
Qed.

Lemma dec_aux_head fuel n :
  0 ≤ n → (0 < fuel)%nat → ∃ c s, dec_aux fuel n = c :: s ∧ is_digit c = true.
Proof.
  revert n; induction fuel as [|f IH]; intros n Hn Hf; [lia|]. simpl.
  assert (0 ≤ n mod 10 < 10) as Hm by (apply Z.mod_pos_bound; lia).
  destruct (Z.eqb_spec (n / 10) 0) as [Hq|Hq]; simpl.
  { eexists _, _. split; [done|]. by apply digit_char_ok. }
  destruct f as [|f]; [simpl; eexists _, _; split; [done|]; by apply digit_char_ok|].
  destruct (IH (n / 10)) as (c & s & -> & ?); [apply Z.div_pos; lia | lia |].
  eexists _, _. split; [done|done].
Qed.

Lemma fmt_u_head n : 0 ≤ n → ∃ c s, fmt_u n = c :: s ∧ is_digit c = true.
Proof. intros. apply dec_aux_head; [done|lia]. Qed.

(** printing a number and scanning it back *)
Lemma scan_fmt_u n rest :
  0 ≤ n ≤ ULONG_MAX → no_digit_head rest → scan_digits 0 (fmt_u n ++ rest) = (n, rest).
Proof.
  intros Hn Hrest. unfold fmt_u. rewrite scan_digits_app.
  - rewrite Z.mul_0_l, Z.add_0_l. destruct rest as [|c rest]; [done|].
    simpl in *. by rewrite Hrest.
  - unfold ULONG_MAX in Hn. change (10 ^ Z.of_nat 20) with 100000000000000000000. lia.
  - lia.
Qed.

Lemma strtoul_fmt_u n rest :
  0 ≤ n ≤ ULONG_MAX → no_digit_head rest → strtoul (fmt_u n ++ rest) = (n, rest, false).
Proof.
  intros Hn Hrest. unfold strtoul. rewrite scan_fmt_u by done.
  by rewrite (proj2 (Z.leb_le n ULONG_MAX)) by lia.
Qed.

Lemma scan_digits_length acc s : (length (scan_digits acc s).2 ≤ length s)%nat.
Proof.
  revert acc; induction s as [|c s IH]; intros acc; simpl; [done|].
  destruct (is_digit c); simpl; [|done]. specialize (IH (acc * 10 + digit_val c)). lia.
Qed.

Lemma fmt_u_inj m n :
  0 ≤ m ≤ ULONG_MAX → 0 ≤ n ≤ ULONG_MAX → fmt_u m = fmt_u n → m = n.
Proof.
  intros Hm Hn E.
  pose proof (scan_fmt_u m [] Hm I) as H1. pose proof (scan_fmt_u n [] Hn I) as H2.
  rewrite E in H1. congruence.
Qed.
