(* ===== verification/LambdaSig.v ===== *)
(** * Lambda signatures and their catalog

    Models [src/hol-lambdas/src/backend/catalog/pg_lambdasig.c]: the signature
    trees of [primnodes.h], their validation, the canonical key and its parser,
    the display form, the catalog [pg_lambdasig] with its allocation of typmods,
    and the narrowing used by partial application.

    The catalog is the list of its rows in heap order.  What the C code reads
    from other catalogs is a parameter: [pg_type] (the TYPEOID system cache),
    [format_type_be], and the OID generator [GetNewOidWithIndex].  Inserting a
    row succeeds: another transaction that inserts the same key at the same
    time, which the unique index would refuse, is not modelled. *)

From S2P Require Import Prelude.

(** ** Signature trees (primnodes.h)

    Pointers that may be NULL are options; list elements never are. *)

Inductive LambdaSignature :=
| mkSignature (argtypes : list LambdaSigType) (rettype : option LambdaSigType) (location : Z)
with LambdaSigType :=
| mkSigType (is_function : bool) (typeoid : Z) (signature : option LambdaSignature) (location : Z).

Definition argtypes (s : LambdaSignature) := let 'mkSignature a _ _ := s in a.
Definition rettype (s : LambdaSignature) := let 'mkSignature _ r _ := s in r.

Definition InvalidOid : Z := 0.

(** one row of the TYPEOID cache, as far as the validation reads it *)
Record pg_type_form := { typname : cstr; typisdefined : bool; typtype : ascii }.

Definition TYPTYPE_PSEUDO : ascii := "p".

(** ** Induction over signatures *)

Section Induction.
Context (P : LambdaSignature → Prop) (Q : LambdaSigType → Prop).
Context (Hsig : ∀ args ret loc,
  Forall Q args → (∀ t, ret = Some t → Q t) → P (mkSignature args ret loc)).
Context (Htyp : ∀ f oid s loc, (∀ g, s = Some g → P g) → Q (mkSigType f oid s loc)).

Fixpoint sig_ind_nested (s : LambdaSignature) : P s :=
  match s with
  | mkSignature args ret loc =>
      Hsig args ret loc
        ((fix go (l : list LambdaSigType) : Forall Q l :=
            match l with
            | [] => Forall_nil_2 Q
            | t :: l => Forall_cons_2 Q t l (typ_ind_nested t) (go l)
            end) args)
        (match ret with
         | Some t => fun t' E => eq_ind t Q (typ_ind_nested t) t' (Some_inj _ _ E)
         | None => fun t' E => match eq_ind None (fun o => match o with None => True | _ => False end) I _ E with end
         end)
  end
with typ_ind_nested (t : LambdaSigType) : Q t :=
  match t with
  | mkSigType f oid s loc =>
      Htyp f oid s loc
        (match s with
         | Some g => fun g' E => eq_ind g P (sig_ind_nested g) g' (Some_inj _ _ E)
         | None => fun g' E => match eq_ind None (fun o => match o with None => True | _ => False end) I _ E with end
         end)
  end.
End Induction.

Lemma sig_typ_ind (P : LambdaSignature → Prop) (Q : LambdaSigType → Prop) :
  (∀ args ret loc, Forall Q args → (∀ t, ret = Some t → Q t) → P (mkSignature args ret loc)) →
  (∀ f oid s loc, (∀ g, s = Some g → P g) → Q (mkSigType f oid s loc)) →
  (∀ s, P s) ∧ (∀ t, Q t).
Proof.
  intros Hs Ht. split; [exact (sig_ind_nested P Q Hs Ht) | exact (typ_ind_nested P Q Hs Ht)].
Qed.

(** ** Validation *)

Section Validate.
Context (pg_type : Z → option pg_type_form).

Definition LambdaSigCheckScalarOid (typeoid : Z) : outcome () :=
  if typeoid =? InvalidOid then
    ereport ERRCODE_UNDEFINED_OBJECT (lit "invalid type in lambda signature")
  else
    match pg_type typeoid with
    | None =>
        ereport ERRCODE_UNDEFINED_OBJECT (lit "cache lookup failed for type " ++ fmt_u typeoid)
    | Some typform =>
        if negb (typisdefined typform) then
          ereport ERRCODE_UNDEFINED_OBJECT
            (lit "type " ++ typname typform ++ lit " is only a shell")
        else if decide (typtype typform = TYPTYPE_PSEUDO) then
          ereport ERRCODE_INVALID_TABLE_DEFINITION
            (lit "pseudo-type " ++ typname typform
             ++ lit " is not allowed in a stored lambda signature")
        else Ok ()
    end.

Fixpoint LambdaSigValidateSignature (sig : LambdaSignature) : outcome () :=
  match sig with
  | mkSignature args ret _ =>
      match ret with
      | None => ereport ERRCODE_SYNTAX_ERROR (lit "lambda signature has no return type")
      | Some r =>
          _ ← (fix each (l : list LambdaSigType) : outcome () :=
                 match l with
                 | [] => Ok ()
                 | t :: l => _ ← LambdaSigValidateType t; each l
                 end) args;
          LambdaSigValidateType r
      end
  end
with LambdaSigValidateType (typ : LambdaSigType) : outcome () :=
  match typ with
  | mkSigType is_function typeoid signature _ =>
      if is_function then
        match signature with
        | None => ereport ERRCODE_SYNTAX_ERROR (lit "nested lambda signature has no signature")
        | Some s => LambdaSigValidateSignature s
        end
      else LambdaSigCheckScalarOid typeoid
  end.
End Validate.

(** ** Canonical key and display form

    The buffer is threaded through like the [StringInfo] of the C code.
    [castNode] of a NULL return type or nested signature is a NULL
    dereference. *)

(** the comma-separated loop over the argument types *)
Fixpoint append_args {T : Type} (sep : cstr) (f : cstr → T → outcome cstr)
    (buf : cstr) (first : bool) (args : list T) : outcome cstr :=
  match args with
  | [] => Ok buf
  | a :: args =>
      buf ← f (if first then buf else buf ++ sep) a;
      append_args sep f buf false args
  end.

Fixpoint LambdaSigAppendKey (buf : cstr) (sig : LambdaSignature) : outcome cstr :=
  match sig with
  | mkSignature args ret _ =>
      let buf := buf ++ lit "(" in
      buf ← append_args (lit ",") LambdaSigTypeAppendKey buf true args;
      let buf := buf ++ lit ")->" in
      match ret with Some r => LambdaSigTypeAppendKey buf r | None => UB end
  end
with LambdaSigTypeAppendKey (buf : cstr) (typ : LambdaSigType) : outcome cstr :=
  match typ with
  | mkSigType is_function typeoid signature _ =>
      if is_function then
        match signature with Some s => LambdaSigAppendKey buf s | None => UB end
      else Ok (buf ++ fmt_u typeoid)
  end.

Section Source.
Context (format_type_be : Z → cstr).

Fixpoint LambdaSigAppendSource (buf : cstr) (sig : LambdaSignature) : outcome cstr :=
  match sig with
  | mkSignature args ret _ =>
      let buf := buf ++ lit "(" in
      buf ← append_args (lit ", ") LambdaSigTypeAppendSource buf true args;
      let buf := buf ++ lit ") -> " in
      match ret with Some r => LambdaSigTypeAppendSource buf r | None => UB end
  end
with LambdaSigTypeAppendSource (buf : cstr) (typ : LambdaSigType) : outcome cstr :=
  match typ with
  | mkSigType is_function typeoid signature _ =>
      if is_function then
        match signature with Some s => LambdaSigAppendSource buf s | None => UB end
      else Ok (buf ++ format_type_be typeoid)
  end.
End Source.

(** ** Parsing a key *)

Record LambdaSigParser := mkParser { p_start : cstr; p_ptr : cstr; p_src : option cstr }.

Definition NUL : ascii := "000".

(** [*parser->ptr]: the terminating NUL behind the last character *)
Definition cur (p : LambdaSigParser) : ascii :=
  match p_ptr p with c :: _ => c | [] => NUL end.

Definition set_ptr (p : LambdaSigParser) (s : cstr) : LambdaSigParser :=
  mkParser (p_start p) s (p_src p).

Definition LambdaSigParseError {A} (p : LambdaSigParser) (msg : cstr) : outcome A :=
  let offset := Z.of_nat (length (p_start p)) - Z.of_nat (length (p_ptr p)) in
  ereport ERRCODE_INVALID_PARAMETER_VALUE
    (lit "invalid lambda signature key " ++ p_start p ++ lit ": " ++ msg
     ++ lit " at byte offset " ++ fmt_d offset
     ++ match p_src p with
        | Some src => lit "; source signature is " ++ src
        | None => []
        end).

Definition LambdaSigConsume (p : LambdaSigParser) (ch : ascii) : bool * LambdaSigParser :=
  match p_ptr p with
  | c :: rest => if decide (c = ch) then (true, set_ptr p rest) else (false, p)
  | [] => (false, p)
  end.

Definition LambdaSigExpect (p : LambdaSigParser) (ch : ascii) : outcome LambdaSigParser :=
  let '(ok, p') := LambdaSigConsume p ch in
  if ok then Ok p'
  else LambdaSigParseError p (lit "expected '" ++ [ch] ++ lit "' in lambda signature key").

Definition LambdaSigParseOid (p : LambdaSigParser) : outcome (Z * LambdaSigParser) :=
  if negb (is_digit (cur p)) then
    LambdaSigParseError p (lit "expected type OID in lambda signature key")
  else
    let '(value, endptr, erange) := strtoul (p_ptr p) in
    if erange || (PG_UINT32_MAX <? value) then
      LambdaSigParseError p (lit "invalid type OID in lambda signature key")
    else Ok (value, set_ptr p endptr).

Fixpoint LambdaSigParseSignature (fuel : nat) (p : LambdaSigParser)
    : outcome (LambdaSignature * LambdaSigParser) :=
  match fuel with
  | O => OutOfFuel
  | S fuel =>
      p ← LambdaSigExpect p "(";
      '(args, p) ← (let '(empty, p') := LambdaSigConsume p ")" in
                    if empty then Ok ([], p') else LambdaSigParseArgs fuel p []);
      p ← LambdaSigExpect p "-";
      p ← LambdaSigExpect p ">";
      '(ret, p) ← LambdaSigParseType fuel p;
      Ok (mkSignature args (Some ret) (-1), p)
  end
with LambdaSigParseType (fuel : nat) (p : LambdaSigParser)
    : outcome (LambdaSigType * LambdaSigParser) :=
  match fuel with
  | O => OutOfFuel
  | S fuel =>
      if decide (cur p = "("%char) then
        '(s, p) ← LambdaSigParseSignature fuel p;
        Ok (mkSigType true InvalidOid (Some s) (-1), p)
      else
        '(oid, p) ← LambdaSigParseOid p;
        Ok (mkSigType false oid None (-1), p)
  end
with LambdaSigParseArgs (fuel : nat) (p : LambdaSigParser) (args : list LambdaSigType)
    : outcome (list LambdaSigType * LambdaSigParser) :=
  match fuel with
  | O => OutOfFuel
  | S fuel =>
      '(t, p) ← LambdaSigParseType fuel p;
      let args := args ++ [t] in
      let '(comma, p) := LambdaSigConsume p "," in
      if comma then LambdaSigParseArgs fuel p args
      else p ← LambdaSigExpect p ")"; Ok (args, p)
  end.

(** every recursive step but two consumes a character *)
Definition parse_fuel (s : cstr) : nat := (3 * length s + 3)%nat.

Definition LambdaSigParseKey (pg_type : Z → option pg_type_form) (sigkey : cstr)
    (sigsrc : option cstr) : outcome LambdaSignature :=
  let p := mkParser sigkey sigkey sigsrc in
  '(sig, p) ← LambdaSigParseSignature (parse_fuel sigkey) p;
  match p_ptr p with
  | _ :: _ => LambdaSigParseError p (lit "trailing junk after lambda signature key")
  | [] => _ ← LambdaSigValidateSignature pg_type sig; Ok sig
  end.

(** ** Narrowing *)

Fixpoint narrow_args (args : list LambdaSigType) (keep : list bool) : list LambdaSigType :=
  match args, keep with
  | t :: args, k :: keep => if k then t :: narrow_args args keep else narrow_args args keep
  | _, _ => []
  end.

(** [keep] is the mask array; reading it at [i] stays in bounds because its
    length is checked against the signature first *)
Definition LambdaSigNarrow (sig : LambdaSignature) (keep : list bool) : outcome LambdaSignature :=
  if negb (Z.of_nat (length keep) =? Z.of_nat (length (argtypes sig))) then
    elog (lit "lambda signature has " ++ fmt_d (Z.of_nat (length (argtypes sig)))
          ++ lit " arguments, narrow mask has " ++ fmt_d (Z.of_nat (length keep)))
  else Ok (mkSignature (narrow_args (argtypes sig) keep) (rettype sig) (-1)).

(** ** The catalog pg_lambdasig *)

Record FormData_pg_lambdasig := mkRow {
  oid : Z;
  lamsigid : Z;
  lamsigkey : cstr;
  lamsigsrc : cstr
}.

Abbreviation pg_lambdasig := (list FormData_pg_lambdasig).

Fixpoint max_lamsigid (maxid : Z) (rel : pg_lambdasig) : Z :=
  match rel with
  | [] => maxid
  | form :: rel => max_lamsigid (if maxid <? lamsigid form then lamsigid form else maxid) rel
  end.

Definition LambdaSigAllocateTypmod (rel : pg_lambdasig) : outcome Z :=
  let maxid := max_lamsigid (-1) rel in
  if maxid =? PG_INT32_MAX then
    ereport ERRCODE_PROGRAM_LIMIT_EXCEEDED (lit "too many lambda signatures")
  else Ok (maxid + 1).

Fixpoint LambdaSigLookupTypmodByKeyInRelation (rel : pg_lambdasig) (sigkey : cstr) : Z :=
  match rel with
  | [] => -1
  | tup :: rel =>
      if decide (lamsigkey tup = sigkey) then lamsigid tup
      else LambdaSigLookupTypmodByKeyInRelation rel sigkey
  end.

(** [SearchSysCache1(LAMBDASIGID, typmod)]: the row with that id *)
Definition SearchSysCache1_LAMBDASIGID (rel : pg_lambdasig) (typmod : Z)
    : option FormData_pg_lambdasig :=
  List.find (fun r => lamsigid r =? typmod) rel.

Definition cache_lookup_failed {A} (typmod : Z) : outcome A :=
  elog (lit "cache lookup failed for lambda signature typmod " ++ fmt_d typmod).

Definition LambdaSigGetOidByTypmod (rel : pg_lambdasig) (typmod : Z) (missing_ok : bool)
    : outcome Z :=
  match SearchSysCache1_LAMBDASIGID rel typmod with
  | None => if missing_ok then Ok InvalidOid else cache_lookup_failed typmod
  | Some tup => Ok (oid tup)
  end.

Definition LambdaSigGetSource (rel : pg_lambdasig) (typmod : Z) : outcome cstr :=
  match SearchSysCache1_LAMBDASIGID rel typmod with
  | None => cache_lookup_failed typmod
  | Some tup => Ok (lamsigsrc tup)
  end.

Definition LambdaSigGetKey (rel : pg_lambdasig) (typmod : Z) : outcome cstr :=
  match SearchSysCache1_LAMBDASIGID rel typmod with
  | None => cache_lookup_failed typmod
  | Some tup => Ok (lamsigkey tup)
  end.

Definition LambdaSigGetTypmodByKey (rel : pg_lambdasig) (sigkey : cstr) (missing_ok : bool)
    : outcome Z :=
  let result := LambdaSigLookupTypmodByKeyInRelation rel sigkey in
  if (result <? 0) && negb missing_ok then
    elog (lit "cache lookup failed for lambda signature key " ++ sigkey)
  else Ok result.

Section Catalog.
Context (pg_type : Z → option pg_type_form).
Context (format_type_be : Z → cstr).
Context (GetNewOidWithIndex : pg_lambdasig → Z).

Definition LambdaSigCreate (rel : pg_lambdasig) (sigkey sigsrc : cstr)
    : outcome (Z * pg_lambdasig) :=
  let id := LambdaSigLookupTypmodByKeyInRelation rel sigkey in
  if 0 <=? id then Ok (id, rel)
  else
    id ← LambdaSigAllocateTypmod rel;
    let row := mkRow (GetNewOidWithIndex rel) id sigkey sigsrc in
    Ok (id, rel ++ [row]).

Definition LambdaSigCreateFromSignature (rel : pg_lambdasig) (sig : option LambdaSignature)
    : outcome (Z * pg_lambdasig) :=
  match sig with
  | None => elog (lit "cannot create lambda typmod from null signature")
  | Some sig =>
      _ ← LambdaSigValidateSignature pg_type sig;
      keybuf ← LambdaSigAppendKey [] sig;
      srcbuf ← LambdaSigAppendSource format_type_be [] sig;
      LambdaSigCreate rel keybuf srcbuf
  end.

Definition LambdaSigGetSignature (rel : pg_lambdasig) (typmod : Z) : outcome LambdaSignature :=
  if typmod <? 0 then
    ereport ERRCODE_DATATYPE_MISMATCH
      (lit "lambda typmod " ++ fmt_d typmod ++ lit " does not reference a stored lambda signature")
  else
    sigkey ← LambdaSigGetKey rel typmod;
    sigsrc ← LambdaSigGetSource rel typmod;
    LambdaSigParseKey pg_type sigkey (Some sigsrc).

Definition LambdaSigNarrowTypmod (rel : pg_lambdasig) (typmod : Z) (keep : list bool)
    : outcome (Z * pg_lambdasig) :=
  sig ← LambdaSigGetSignature rel typmod;
  narrowed ← LambdaSigNarrow sig keep;
  LambdaSigCreateFromSignature rel (Some narrowed).
End Catalog.
