(* ===== verification/LambdaSigFacts.v ===== *)
(** * Properties of lambda signatures and of pg_lambdasig

    The canonical key determines a signature (print/parse round trip, key
    injectivity), the parser terminates on every input, and the catalog keeps
    its invariant under every operation, so that a stored signature is read
    back from its typmod. *)

From S2P Require Import Prelude LambdaSig.

(** ** Canonical form

    What survives a round trip through the key: locations are dropped, a
    function type has no OID, a scalar type no nested signature. *)

Fixpoint norm_sig (s : LambdaSignature) : LambdaSignature :=
  match s with
  | mkSignature args ret _ => mkSignature (map norm_typ args) (option_map norm_typ ret) (-1)
  end
with norm_typ (t : LambdaSigType) : LambdaSigType :=
  match t with
  | mkSigType true _ s _ => mkSigType true InvalidOid (option_map norm_sig s) (-1)
  | mkSigType false oid _ _ => mkSigType false oid None (-1)
  end.

(** every scalar OID of the tree fits the C type [Oid] *)
Fixpoint oids_u32_sig (s : LambdaSignature) : bool :=
  match s with
  | mkSignature args ret _ =>
      forallb oids_u32_typ args && match ret with Some r => oids_u32_typ r | None => true end
  end
with oids_u32_typ (t : LambdaSigType) : bool :=
  match t with
  | mkSigType true _ s _ => match s with Some s => oids_u32_sig s | None => true end
  | mkSigType false oid _ _ => (0 <=? oid) && (oid <=? PG_UINT32_MAX)
  end.

(** complete trees: no NULL where the printers dereference, OIDs in range *)
Fixpoint wf_sig (s : LambdaSignature) : bool :=
  match s with
  | mkSignature args ret _ =>
      forallb wf_typ args && match ret with Some r => wf_typ r | None => false end
  end
with wf_typ (t : LambdaSigType) : bool :=
  match t with
  | mkSigType true _ s _ => match s with Some s => wf_sig s | None => false end
  | mkSigType false oid _ _ => (0 <=? oid) && (oid <=? PG_UINT32_MAX)
  end.

(** the text of a key *)
Definition join_keys (ks : list cstr) : cstr :=
  match ks with
  | [] => []
  | k :: ks => k ++ concat (map (fun k => lit "," ++ k) ks)
  end.

Fixpoint key_sig (s : LambdaSignature) : cstr :=
  match s with
  | mkSignature args ret _ =>
      lit "(" ++ join_keys (map key_typ args) ++ lit ")->"
      ++ match ret with Some r => key_typ r | None => [] end
  end
with key_typ (t : LambdaSigType) : cstr :=
  match t with
  | mkSigType true _ s _ => match s with Some s => key_sig s | None => [] end
  | mkSigType false oid _ _ => fmt_u oid
  end.

(** ** Validation implies completeness *)

Lemma validate_each_inv pt (args : list LambdaSigType) :
  (fix each (l : list LambdaSigType) : outcome () :=
     match l with
     | [] => Ok ()
     | t :: l => _ ← LambdaSigValidateType pt t; each l
     end) args = Ok () →
  Forall (fun t => LambdaSigValidateType pt t = Ok ()) args.
Proof.
  induction args as [|t args IH]; [constructor|]. intros H. outcome_inv.
  destruct a. constructor; auto.
Qed.

Lemma validate_wf pt :
  (∀ s, oids_u32_sig s = true → LambdaSigValidateSignature pt s = Ok () → wf_sig s = true) ∧
  (∀ t, oids_u32_typ t = true → LambdaSigValidateType pt t = Ok () → wf_typ t = true).
Proof.
  apply sig_typ_ind.
  - intros args ret loc Hargs Hret Hu Hv. simpl in *. destruct ret as [r|]; [|discriminate].
    outcome_inv. destruct a. apply andb_prop in Hu as [Hu1 Hu2].
    apply andb_true_intro. split; [|by apply Hret].
    apply validate_each_inv in Hok. rewrite forallb_Forall in *.
    rewrite Forall_forall in *. eauto.
  - intros [] oid [s|] loc Hs Hu Hv; simpl in *; try done. by apply Hs.
Qed.

(** ** Printing *)

Lemma append_args_join {T} (f : cstr → T → outcome cstr) (key : T → cstr) args buf :
  Forall (fun t => ∀ b, f b t = Ok (b ++ key t)) args →
  append_args (lit ",") f buf true args = Ok (buf ++ join_keys (map key args)) ∧
  append_args (lit ",") f buf false args = Ok (buf ++ concat (map (fun k => lit "," ++ k) (map key args))).
Proof.
  intros H. revert buf. induction H as [|t args Ht _ IH]; intros buf; simpl.
  { by rewrite app_nil_r. }
  rewrite !Ht. simpl. destruct (IH (buf ++ key t)) as [_ ->].
  destruct (IH ((buf ++ lit ",") ++ key t)) as [_ E2].
  split; [by rewrite <- app_assoc|].
  rewrite E2. f_equal. by rewrite <- !app_assoc.
Qed.

Lemma append_key_spec :
  (∀ s, wf_sig s = true → ∀ buf, LambdaSigAppendKey buf s = Ok (buf ++ key_sig s)) ∧
  (∀ t, wf_typ t = true → ∀ buf, LambdaSigTypeAppendKey buf t = Ok (buf ++ key_typ t)).
Proof.
  apply sig_typ_ind.
  - intros args ret loc Hargs Hret Hwf buf. simpl in Hwf.
    apply andb_prop in Hwf as [Hwf1 Hwf2]. destruct ret as [r|]; [|done].
    assert (Forall (fun t => ∀ b, LambdaSigTypeAppendKey b t = Ok (b ++ key_typ t)) args) as HF.
    { rewrite forallb_Forall, Forall_forall in *. eauto. }
    cbn [LambdaSigAppendKey key_sig].
    rewrite (proj1 (append_args_join _ _ _ _ HF)). simpl.
    rewrite (Hret r eq_refl Hwf2). by rewrite <- !app_assoc.
  - intros [] oid [s|] loc Hs Hwf buf; simpl in *; try done. by apply Hs.
Qed.

(** ** Parsing *)

Lemma consume_hit p c rest :
  p_ptr p = c :: rest → LambdaSigConsume p c = (true, set_ptr p rest).
Proof. intros E. unfold LambdaSigConsume. rewrite E. by rewrite decide_True. Qed.

Lemma consume_miss p c d rest :
  p_ptr p = d :: rest → d ≠ c → LambdaSigConsume p c = (false, p).
Proof. intros E Hd. unfold LambdaSigConsume. rewrite E. by rewrite decide_False. Qed.

Lemma expect_hit p c rest : p_ptr p = c :: rest → LambdaSigExpect p c = Ok (set_ptr p rest).
Proof. intros E. unfold LambdaSigExpect. by rewrite (consume_hit p c rest E). Qed.

Lemma digit_not c : is_digit c = true → c ≠ "("%char ∧ c ≠ ")"%char.
Proof. intros H. split; intros ->; vm_compute in H; discriminate. Qed.

(** a printed type starts with a digit or a parenthesis, never with ")" *)
Lemma key_typ_head t : wf_typ t = true →
  ∃ c s, key_typ t = c :: s ∧ c ≠ ")"%char ∧
         (c = "("%char ∧ (∃ oid g loc, t = mkSigType true oid (Some g) loc)
          ∨ is_digit c = true ∧ ∃ oid g loc, t = mkSigType false oid g loc).
Proof.
  destruct t as [[] oid [g|] loc]; simpl; try done.
  - intros _. destruct g as [args ret loc']. simpl. eexists _, _. split; [done|].
    split; [done|]. left. naive_solver.
  - intros [Hr%Z.leb_le _]%andb_prop. destruct (fmt_u_head oid Hr) as (c & s & E & Hc).
    exists c, s. split; [done|]. split; [by apply digit_not|]. right. naive_solver.
  - intros [Hr%Z.leb_le _]%andb_prop. destruct (fmt_u_head oid Hr) as (c & s & E & Hc).
    exists c, s. split; [done|]. split; [by apply digit_not|]. right. naive_solver.
Qed.

Definition parses_typ (t : LambdaSigType) : Prop :=
  wf_typ t = true → ∀ fuel p rest,
    p_ptr p = key_typ t ++ rest → no_digit_head rest →
    (3 * length (p_ptr p) + 2 ≤ fuel)%nat →
    LambdaSigParseType fuel p = Ok (norm_typ t, set_ptr p rest).

Definition parses_sig (s : LambdaSignature) : Prop :=
  wf_sig s = true → ∀ fuel p rest,
    p_ptr p = key_sig s ++ rest → no_digit_head rest →
    (3 * length (p_ptr p) + 1 ≤ fuel)%nat →
    LambdaSigParseSignature fuel p = Ok (norm_sig s, set_ptr p rest).

Lemma parse_args_spec t args :
  parses_typ t → Forall parses_typ args → wf_typ t = true → forallb wf_typ args = true →
  ∀ fuel p acc rest,
    p_ptr p = join_keys (map key_typ (t :: args)) ++ ")"%char :: rest →
    (3 * length (p_ptr p) + 3 ≤ fuel)%nat →
    LambdaSigParseArgs fuel p acc = Ok (acc ++ map norm_typ (t :: args), set_ptr p rest).
Proof.
  intros Ht Hargs Hwt Hwargs. revert t Ht Hwt Hwargs.
  induction Hargs as [|u args Hu Hargs IH]; intros t Ht Hwt Hwargs fuel p acc rest Hp Hfuel;
    (destruct fuel as [|fuel]; [lia|]); cbn [LambdaSigParseArgs].
  - simpl in Hp. rewrite app_nil_r in Hp.
    rewrite (Ht Hwt fuel p (")"%char :: rest)); [done|done..|lia].
  - simpl in Hwargs. apply andb_prop in Hwargs as [Hwu Hwargs].
    set (tail := join_keys (map key_typ (u :: args)) ++ ")"%char :: rest).
    assert (Hp' : p_ptr p = key_typ t ++ ","%char :: tail).
    { rewrite Hp. unfold tail. napp. }
    rewrite (Ht Hwt fuel p (","%char :: tail)); [|done..|lia].
    change (LambdaSigParseArgs fuel (set_ptr p tail) (acc ++ [norm_typ t])
            = Ok (acc ++ map norm_typ (t :: u :: args), set_ptr p rest)).
    rewrite (IH u Hu Hwu Hwargs fuel _ _ rest); [|done|].
    + simpl. by rewrite <- app_assoc.
    + rewrite Hp', length_app in Hfuel. simpl in *. lia.
Qed.

Lemma parse_spec : (∀ s, parses_sig s) ∧ (∀ t, parses_typ t).
Proof.
  apply sig_typ_ind.
  - intros args ret loc Hargs Hret Hwf fuel p rest Hp Hrest Hfuel.
    cbn [wf_sig] in Hwf. apply andb_prop in Hwf as [Hwargs Hwret].
    destruct ret as [r|]; [|done]. destruct fuel as [|fuel]; [lia|].
    cbn [LambdaSigParseSignature key_sig] in *.
    set (tail := lit "->" ++ key_typ r ++ rest).
    assert (Hp' : p_ptr p = "("%char :: join_keys (map key_typ args) ++ ")"%char :: tail).
    { rewrite Hp. unfold tail. napp. }
    rewrite (expect_hit _ _ _ Hp'). simpl.
    match goal with |- context [(LambdaSigConsume ?q ")")] =>
      assert (Hargs' : (let '(empty, p') := LambdaSigConsume q ")" in
                if empty then Ok ([], p') else LambdaSigParseArgs fuel q [])
                = Ok (map norm_typ args, set_ptr q tail)) end.
    { destruct args as [|t args]; [by rewrite (consume_hit _ ")"%char tail)|].
      inversion Hargs as [|? ? Ht Hargs']; subst. simpl in Hwargs.
      apply andb_prop in Hwargs as [Hwt Hwargs].
      destruct (key_typ_head t Hwt) as (c & s & Hk & Hc & _).
      rewrite (consume_miss _ _ c (s ++ concat (map (fun k => lit "," ++ k) (map key_typ args))
                 ++ ")"%char :: tail)); [| |done].
      - rewrite (parse_args_spec t args Ht Hargs' Hwt Hwargs fuel _ [] tail); [done|done|].
        rewrite Hp' in Hfuel. simpl in *. lia.
      - simpl. rewrite Hk. napp. }
    rewrite Hargs'. simpl.
    rewrite (Hret r eq_refl Hwret fuel _ rest); [done|done|done|].
    apply (f_equal length) in Hp'. unfold tail in Hp'. simpl in *. autorewrite with lambda_rw in *.
    simpl in *. autorewrite with lambda_rw in *. lia.
  - intros f oid s loc Hs Hwf fuel p rest Hp Hrest Hfuel.
    destruct fuel as [|fuel]; [lia|]. cbn [LambdaSigParseType].
    destruct f; simpl in Hwf, Hp.
    + destruct s as [g|]; [|done].
      assert (cur p = "("%char) as ->.
      { unfold cur. rewrite Hp. by destruct g as [? ? ?]. }
      rewrite decide_True by done. rewrite (Hs g eq_refl Hwf fuel p rest); [done|done|done|lia].
    + apply andb_prop in Hwf as [H1%Z.leb_le H2%Z.leb_le].
      destruct (fmt_u_head oid H1) as (c & t & E & Hc).
      assert (cur p = c) as Hcur by (unfold cur; by rewrite Hp, E).
      rewrite Hcur, decide_False by (by apply digit_not).
      unfold LambdaSigParseOid. rewrite Hcur, Hc. simpl.
      rewrite Hp, strtoul_fmt_u; [|unfold PG_UINT32_MAX, ULONG_MAX in *; lia|done].
      simpl. rewrite (proj2 (Z.ltb_ge _ _)) by done. done.
Qed.

(** validation does not look at what normalisation drops *)
Lemma validate_norm pt :
  (∀ s, LambdaSigValidateSignature pt (norm_sig s) = LambdaSigValidateSignature pt s) ∧
  (∀ t, LambdaSigValidateType pt (norm_typ t) = LambdaSigValidateType pt t).
Proof.
  apply sig_typ_ind.
  - intros args [r|] loc Hargs Hret; [|done]. simpl. rewrite (Hret r eq_refl). f_equal.
    induction Hargs as [|t args Ht _ IH]; [done|]. simpl. by rewrite Ht, IH.
  - intros [] oid [s|] loc Hs; simpl; try done. by apply Hs.
Qed.

Lemma parse_key_spec pt s src :
  wf_sig s = true → LambdaSigValidateSignature pt s = Ok () →
  LambdaSigParseKey pt (key_sig s) src = Ok (norm_sig s).
Proof.
  intros Hwf Hv. unfold LambdaSigParseKey.
  rewrite (proj1 parse_spec s Hwf _ _ []); simpl.
  - by rewrite (proj1 (validate_norm pt)), Hv.
  - by rewrite app_nil_r.
  - done.
  - unfold parse_fuel. lia.
Qed.

(** keys identify canonical forms *)
Lemma key_sig_inj s s' :
  wf_sig s = true → wf_sig s' = true → key_sig s = key_sig s' → norm_sig s = norm_sig s'.
Proof.
  intros Hs Hs' E.
  pose proof (proj1 parse_spec s Hs (parse_fuel (key_sig s)) (mkParser [] (key_sig s) None) []) as H1.
  pose proof (proj1 parse_spec s' Hs' (parse_fuel (key_sig s)) (mkParser [] (key_sig s) None) []) as H2.
  unfold parse_fuel in *. simpl in *. rewrite app_nil_r in *.
  specialize (H1 eq_refl I ltac:(lia)). specialize (H2 E I ltac:(lia)). congruence.
Qed.

Lemma key_norm : (∀ s, key_sig (norm_sig s) = key_sig s) ∧ (∀ t, key_typ (norm_typ t) = key_typ t).
Proof.
  apply sig_typ_ind.
  - intros args ret loc Hargs Hret. cbn [norm_sig key_sig].
    assert (map key_typ (map norm_typ args) = map key_typ args) as ->.
    { induction Hargs as [|t args Ht _ IH]; [done|]. cbn [map]. by rewrite Ht, IH. }
    destruct ret as [r|]; [|done]. simpl. by rewrite (Hret r eq_refl).
  - intros [] oid [s|] loc Hs; simpl; try done. by apply Hs.
Qed.

(** ** Termination of the parser *)

Definition shrinks {A} (p : LambdaSigParser) (r : outcome (A * LambdaSigParser)) : Prop :=
  match r with
  | Ok (_, p') => (length (p_ptr p') < length (p_ptr p))%nat
  | Err _ => True
  | UB | OutOfFuel => False
  end.

Lemma consume_cases p c :
  (∃ rest, p_ptr p = c :: rest ∧ LambdaSigConsume p c = (true, set_ptr p rest))
  ∨ LambdaSigConsume p c = (false, p).
Proof.
  unfold LambdaSigConsume. destruct (p_ptr p) as [|d rest] eqn:E; [by right|].
  destruct (decide (d = c)) as [->|]; [left; eauto|by right].
Qed.

Lemma expect_cases p c :
  (∃ rest, p_ptr p = c :: rest ∧ LambdaSigExpect p c = Ok (set_ptr p rest))
  ∨ ∃ e, LambdaSigExpect p c = Err e.
Proof.
  unfold LambdaSigExpect. destruct (consume_cases p c) as [(rest & E & ->)| ->].
  - left. eauto.
  - right. unfold LambdaSigParseError, ereport. eauto.
Qed.

Lemma scan_digits_shrinks c s acc :
  is_digit c = true → (length (scan_digits acc (c :: s)).2 < length (c :: s))%nat.
Proof. intros Hc. simpl. rewrite Hc. pose proof (scan_digits_length (acc * 10 + digit_val c) s). lia. Qed.

Lemma parse_oid_shrinks p : shrinks p (LambdaSigParseOid p).
Proof.
  unfold LambdaSigParseOid, cur. destruct (p_ptr p) as [|c s] eqn:E; [done|].
  destruct (is_digit c) eqn:Hc; [|done]. cbn [negb].
  pose proof (scan_digits_shrinks c s 0 Hc) as Hlen. unfold strtoul.
  destruct (scan_digits 0 (c :: s)) as [v rest].
  destruct (v <=? ULONG_MAX); cbn [orb]; [|done].
  destruct (PG_UINT32_MAX <? v); [done|]. simpl in *. rewrite E. done.
Qed.

(** step over the next computation of a parser, whatever its outcome *)
Ltac expect_step c :=
  match goal with |- context [LambdaSigExpect ?p c] =>
    let rest := fresh "rest" in let Hr := fresh "Hr" in let E := fresh "E" in
    destruct (expect_cases p c) as [(rest & Hr & E)|(? & E)];
    rewrite E; simpl; [|done]
  end.

Lemma shrinks_bind {A B} p (m : outcome (A * LambdaSigParser)) (k : A * LambdaSigParser → outcome (B * LambdaSigParser)) :
  shrinks p m →
  (∀ a p', (length (p_ptr p') < length (p_ptr p))%nat → shrinks p (k (a, p'))) →
  shrinks p (m ≫= k).
Proof. destruct m as [[a p']| | |]; simpl; auto. Qed.

Lemma shrinks_weaken {A} p q (m : outcome (A * LambdaSigParser)) :
  (length (p_ptr q) ≤ length (p_ptr p))%nat → shrinks q m → shrinks p m.
Proof. destruct m as [[a p']| | |]; simpl; lia. Qed.

Lemma parse_shrinks fuel :
  (∀ p, (3 * length (p_ptr p) + 1 ≤ fuel)%nat → shrinks p (LambdaSigParseSignature fuel p)) ∧
  (∀ p, (3 * length (p_ptr p) + 2 ≤ fuel)%nat → shrinks p (LambdaSigParseType fuel p)) ∧
  (∀ p acc, (3 * length (p_ptr p) + 3 ≤ fuel)%nat → shrinks p (LambdaSigParseArgs fuel p acc)).
Proof.
  induction fuel as [|fuel (IHs & IHt & IHa)]; [repeat split; intros; lia|].
  repeat split; intros p; [|..]; [intros Hf|intros Hf|intros acc Hf];
    cbn [LambdaSigParseSignature LambdaSigParseType LambdaSigParseArgs].
  - expect_step "("%char. rewrite Hr in *. simpl in *.
    apply (shrinks_weaken _ (set_ptr p ("("%char :: rest))); [simpl; rewrite Hr; done|].
    apply shrinks_bind.
    + destruct (consume_cases (set_ptr p rest) ")") as [(r2 & Hr2 & ->)| ->]; simpl in *.
      * subst. simpl. lia.
      * apply (shrinks_weaken _ (set_ptr p rest)); [simpl; lia|]. apply IHa. simpl. lia.
    + intros args q Hq. simpl in Hq. expect_step "-"%char. expect_step ">"%char. simpl in *.
      subst. rewrite Hr0 in Hq. simpl in Hq.
      apply shrinks_bind; [|intros; simpl in *; lia].
      apply (shrinks_weaken _ (set_ptr (set_ptr q (">"%char :: rest1)) rest1)); [simpl; lia|].
      apply IHt. simpl. lia.
  - destruct (decide (cur p = "("%char)).
    + apply shrinks_bind; [apply IHs; lia|]. intros; simpl; lia.
    + apply shrinks_bind; [apply parse_oid_shrinks|]. intros; simpl; lia.
  - apply shrinks_bind; [apply IHt; lia|]. intros t q Hq.
    destruct (consume_cases q ",") as [(r2 & Hr2 & ->)| ->]; simpl in *.
    + apply (shrinks_weaken _ (set_ptr q r2)); [simpl; rewrite Hr2 in Hq; simpl in Hq; lia|].
      apply IHa. rewrite Hr2 in Hq. simpl in *. lia.
    + expect_step ")"%char. rewrite Hr in Hq. simpl in *. lia.
Qed.

(** ** The catalog *)

Section CatalogFacts.
Context (pt : Z → option pg_type_form) (fmt : Z → cstr) (newoid : pg_lambdasig → Z).

(** a row whose key is the printed form of a valid signature *)
Definition row_ok (r : FormData_pg_lambdasig) : Prop :=
  ∃ sig, wf_sig sig = true ∧ LambdaSigValidateSignature pt sig = Ok () ∧ lamsigkey r = key_sig sig.

(** ids are the row positions, keys and OIDs are unique (the three unique
    indexes of pg_lambdasig.h), every key is canonical *)
Record catalog_ok (rel : pg_lambdasig) : Prop := {
  cat_dense : ∀ i r, rel !! i = Some r → lamsigid r = Z.of_nat i;
  cat_keys : NoDup (lamsigkey <$> rel);
  cat_oids : NoDup (oid <$> rel);
  cat_rows : Forall row_ok rel
}.

Lemma catalog_ok_nil : catalog_ok [].
Proof. split; [done|constructor..]. Qed.

Lemma max_lamsigid_dense rel m k :
  (∀ i r, rel !! i = Some r → lamsigid r = k + Z.of_nat i) → m = k - 1 →
  max_lamsigid m rel = k + Z.of_nat (length rel) - 1.
Proof.
  revert m k; induction rel as [|r rel IH]; intros m k Hd ->; simpl; [lia|].
  pose proof (Hd 0%nat r eq_refl) as H0.
  rewrite (proj2 (Z.ltb_lt _ _)) by lia.
  rewrite (IH _ (k + 1)); [lia| |lia].
  intros i r' Hi. pose proof (Hd (S i) r' Hi). lia.
Qed.

Lemma max_lamsigid_ok rel :
  catalog_ok rel → max_lamsigid (-1) rel = Z.of_nat (length rel) - 1.
Proof.
  intros [Hd _ _ _]. rewrite (max_lamsigid_dense rel (-1) 0); [lia| |lia].
  intros i r Hi. by rewrite (Hd i r Hi).
Qed.

Lemma lookup_key_spec rel key :
  catalog_ok rel →
  (∃ i r, rel !! i = Some r ∧ lamsigkey r = key ∧
          LambdaSigLookupTypmodByKeyInRelation rel key = Z.of_nat i)
  ∨ (key ∉ (lamsigkey <$> rel)) ∧ LambdaSigLookupTypmodByKeyInRelation rel key = -1.
Proof.
  intros [Hd _ _ _]. assert (H : ∀ k, (∀ i r, rel !! i = Some r → lamsigid r = k + Z.of_nat i) →
    (∃ i r, rel !! i = Some r ∧ lamsigkey r = key ∧
            LambdaSigLookupTypmodByKeyInRelation rel key = k + Z.of_nat i)
    ∨ (key ∉ (lamsigkey <$> rel)) ∧ LambdaSigLookupTypmodByKeyInRelation rel key = -1).
  { clear Hd. induction rel as [|r rel IH]; intros k Hd; simpl.
    { right. split; [apply not_elem_of_nil|done]. }
    destruct (decide (lamsigkey r = key)) as [Hk|Hk].
    { left. exists 0%nat, r. pose proof (Hd 0%nat r eq_refl). naive_solver lia. }
    destruct (IH (k + 1)) as [(i & r' & H1 & H2 & H3)|[H1 H2]].
    - intros i r' Hi. pose proof (Hd (S i) r' Hi). lia.
    - left. exists (S i), r'. rewrite H3. naive_solver lia.
    - right. split; [|done]. rewrite not_elem_of_cons. naive_solver. }
  destruct (H 0) as [(i & r & ? & ? & E)|?]; [intros i r Hi; by rewrite (Hd i r Hi)| |by right].
  left. exists i, r. repeat split; done.
Qed.

Lemma find_typmod rel i r :
  catalog_ok rel → rel !! i = Some r → SearchSysCache1_LAMBDASIGID rel (Z.of_nat i) = Some r.
Proof.
  intros [Hd _ _ _]. unfold SearchSysCache1_LAMBDASIGID.
  assert (H : ∀ k, (∀ j r, rel !! j = Some r → lamsigid r = k + Z.of_nat j) →
    ∀ i, rel !! i = Some r → List.find (fun r => lamsigid r =? k + Z.of_nat i) rel = Some r).
  { clear Hd i. induction rel as [|r0 rel IH]; intros k Hd i Hi; [done|]. simpl.
    pose proof (Hd 0%nat r0 eq_refl) as H0. destruct i as [|i]; simpl in Hi.
    { injection Hi as ->. by rewrite (proj2 (Z.eqb_eq _ _)) by lia. }
    rewrite (proj2 (Z.eqb_neq _ _)) by lia.
    replace (k + Z.of_nat (S i)) with (k + 1 + Z.of_nat i) by lia.
    apply IH; [|done]. intros j r' Hj. pose proof (Hd (S j) r' Hj). lia. }
  intros Hi. rewrite <- (H 0 ltac:(intros j r' Hj; by rewrite (Hd j r' Hj)) i Hi).
  by rewrite Z.add_0_l.
Qed.

Lemma get_signature_row rel i r :
  catalog_ok rel → rel !! i = Some r →
  ∃ sig, wf_sig sig = true ∧ lamsigkey r = key_sig sig ∧
         LambdaSigGetSignature pt rel (Z.of_nat i) = Ok (norm_sig sig).
Proof.
  intros Hok Hi. pose proof (cat_rows _ Hok) as HF. rewrite Forall_forall in HF.
  destruct (HF r) as (sig & Hwf & Hv & Hk); [by apply list_elem_of_lookup_2 with i|].
  exists sig. split; [done|]. split; [done|]. unfold LambdaSigGetSignature, LambdaSigGetKey,
    LambdaSigGetSource. rewrite (proj2 (Z.ltb_ge _ _)) by lia.
  rewrite (find_typmod rel i r Hok Hi). simpl. rewrite Hk. by apply parse_key_spec.
Qed.

Hypothesis newoid_fresh : ∀ rel, newoid rel ∉ (oid <$> rel).

(** appending the row that LambdaSigCreate builds *)
Lemma catalog_ok_snoc rel sig src :
  catalog_ok rel → wf_sig sig = true → LambdaSigValidateSignature pt sig = Ok () →
  key_sig sig ∉ (lamsigkey <$> rel) →
  catalog_ok (rel ++ [mkRow (newoid rel) (Z.of_nat (length rel)) (key_sig sig) src]).
Proof.
  intros [Hd Hk Ho Hr] Hwf Hv Hnew. split.
  - intros i r [Hi|[Hlen Hi]]%lookup_app_Some; [by apply Hd|].
    destruct (i - length rel)%nat as [|j] eqn:E; simpl in Hi; [|by rewrite lookup_nil in Hi].
    injection Hi as <-. simpl. lia.
  - rewrite fmap_app. apply NoDup_app. split; [done|]. split; [|apply NoDup_singleton].
    intros x Hx Hx2%list_elem_of_singleton. simpl in Hx2. by subst.
  - rewrite fmap_app. apply NoDup_app. split; [done|]. split; [|apply NoDup_singleton].
    intros x Hx Hx2%list_elem_of_singleton. simpl in Hx2. subst. by apply (newoid_fresh rel).
  - apply Forall_app. split; [done|]. apply Forall_singleton. by exists sig.
Qed.

(** the display form is total on complete signatures *)
Lemma append_args_total {T} sep (f : cstr → T → outcome cstr) args :
  Forall (fun t => ∀ b, ∃ b', f b t = Ok b') args →
  ∀ buf first, ∃ b', append_args sep f buf first args = Ok b'.
Proof.
  induction 1 as [|t args Ht _ IH]; intros buf first; simpl; [eauto|].
  destruct (Ht (if first then buf else buf ++ sep)) as [b' ->]. simpl. apply IH.
Qed.

Lemma append_source_total :
  (∀ s, wf_sig s = true → ∀ buf, ∃ b, LambdaSigAppendSource fmt buf s = Ok b) ∧
  (∀ t, wf_typ t = true → ∀ buf, ∃ b, LambdaSigTypeAppendSource fmt buf t = Ok b).
Proof.
  apply sig_typ_ind.
  - intros args ret loc Hargs Hret Hwf buf. simpl in Hwf. apply andb_prop in Hwf as [H1 H2].
    destruct ret as [r|]; [|done]. cbn [LambdaSigAppendSource].
    destruct (append_args_total (lit ", ") (LambdaSigTypeAppendSource fmt) args) with
      (buf := buf ++ lit "(") (first := true) as [b ->].
    { rewrite forallb_Forall, Forall_forall in *. eauto. }
    simpl. by apply Hret.
  - intros [] oid [s|] loc Hs Hwf buf; simpl in *; eauto; done.
Qed.

(** what LambdaSigCreateFromSignature does to a catalog that is not full *)
Lemma create_spec rel sig :
  catalog_ok rel → oids_u32_sig sig = true → LambdaSigValidateSignature pt sig = Ok () →
  Z.of_nat (length rel) ≤ PG_INT32_MAX →
  ∃ i r rel',
    LambdaSigCreateFromSignature pt fmt newoid rel (Some sig) = Ok (Z.of_nat i, rel') ∧
    catalog_ok rel' ∧ rel' !! i = Some r ∧ lamsigkey r = key_sig sig ∧
    (rel' = rel ∨ i = length rel ∧ rel' = rel ++ [r] ∧ key_sig sig ∉ (lamsigkey <$> rel)).
Proof.
  intros Hok Hu Hv Hlen. pose proof (proj1 (validate_wf pt) sig Hu Hv) as Hwf.
  simpl. rewrite Hv. simpl. rewrite (proj1 append_key_spec sig Hwf []). simpl.
  destruct (proj1 append_source_total sig Hwf []) as [src ->]. simpl.
  unfold LambdaSigCreate.
  destruct (lookup_key_spec rel (key_sig sig) Hok) as [(i & r & Hi & Hk & ->)|[Hnew ->]].
  - rewrite (proj2 (Z.leb_le _ _)) by lia. exists i, r, rel. naive_solver.
  - simpl. unfold LambdaSigAllocateTypmod. rewrite max_lamsigid_ok by done.
    rewrite (proj2 (Z.eqb_neq _ _)) by lia. simpl.
    replace (Z.of_nat (length rel) - 1 + 1) with (Z.of_nat (length rel)) by lia.
    eexists (length rel), _, _. split; [done|]. split; [by apply catalog_ok_snoc|].
    split; [by apply list_lookup_middle|]. split; [done|]. right. done.
Qed.
End CatalogFacts.

(** ** Lemmas for the theorems *)

Lemma validate_outcome pt :
  (∀ s, LambdaSigValidateSignature pt s = Ok () ∨ ∃ e, LambdaSigValidateSignature pt s = Err e) ∧
  (∀ t, LambdaSigValidateType pt t = Ok () ∨ ∃ e, LambdaSigValidateType pt t = Err e).
Proof.
  apply sig_typ_ind.
  - intros args [r|] loc Hargs Hret; simpl; [|unfold ereport; eauto].
    induction Hargs as [|t args [Ht|[e Ht]] _ IH]; simpl; [by apply Hret| |]; rewrite Ht; simpl; eauto.
  - intros [] oid [s|] loc Hs; simpl; unfold LambdaSigCheckScalarOid, ereport; eauto;
      repeat case_match; eauto.
Qed.

Lemma norm_idem : (∀ s, norm_sig (norm_sig s) = norm_sig s) ∧ (∀ t, norm_typ (norm_typ t) = norm_typ t).
Proof.
  apply sig_typ_ind.
  - intros args ret loc Hargs Hret. simpl. f_equal.
    + induction Hargs as [|t args Ht _ IH]; [done|]. simpl. by rewrite Ht, IH.
    + destruct ret as [r|]; [|done]. simpl. by rewrite (Hret r eq_refl).
  - intros [] oid [s|] loc Hs; simpl; try done. by rewrite (Hs s eq_refl).
Qed.

Lemma oids_norm : (∀ s, oids_u32_sig (norm_sig s) = oids_u32_sig s) ∧
                  (∀ t, oids_u32_typ (norm_typ t) = oids_u32_typ t).
Proof.
  apply sig_typ_ind.
  - intros args ret loc Hargs Hret. simpl. f_equal.
    + induction Hargs as [|t args Ht _ IH]; [done|]. simpl. by rewrite Ht, IH.
    + destruct ret as [r|]; [|done]. simpl. by rewrite (Hret r eq_refl).
  - intros [] oid [s|] loc Hs; simpl; try done. by rewrite (Hs s eq_refl).
Qed.

Lemma wf_oids : (∀ s, wf_sig s = true → oids_u32_sig s = true) ∧
                (∀ t, wf_typ t = true → oids_u32_typ t = true).
Proof.
  apply sig_typ_ind.
  - intros args [r|] loc Hargs Hret [H1 H2]%andb_prop; simpl; [|done].
    rewrite (Hret r eq_refl H2), andb_true_r.
    rewrite forallb_Forall, Forall_forall in *. eauto.
  - intros [] oid [s|] loc Hs; simpl; try done. by apply Hs.
Qed.

(** a sublist of the argument types, as narrowing selects it *)
Lemma narrow_args_sub args keep t : t ∈ narrow_args args keep → t ∈ args.
Proof.
  revert keep; induction args as [|a args IH]; intros [|[] keep]; simpl; set_solver.
Qed.

Lemma narrow_args_map (f : LambdaSigType → LambdaSigType) args keep :
  narrow_args (map f args) keep = map f (narrow_args args keep).
Proof.
  revert keep; induction args as [|a args IH]; intros [|[] keep]; simpl; try done; by rewrite IH.
Qed.

Lemma validate_args_iff pt args r loc :
  LambdaSigValidateSignature pt (mkSignature args (Some r) loc) = Ok () ↔
  Forall (fun t => LambdaSigValidateType pt t = Ok ()) args ∧ LambdaSigValidateType pt r = Ok ().
Proof.
  split.
  - simpl. intros H. outcome_inv. destruct a. by apply validate_each_inv in Hok.
  - intros [Hargs Hr]. simpl. induction Hargs as [|t args Ht _ IH]; simpl; [done|].
    by rewrite Ht.
Qed.

Lemma narrow_valid pt args r loc keep :
  wf_sig (mkSignature args (Some r) loc) = true →
  LambdaSigValidateSignature pt (mkSignature args (Some r) loc) = Ok () →
  wf_sig (mkSignature (narrow_args args keep) (Some r) loc) = true ∧
  LambdaSigValidateSignature pt (mkSignature (narrow_args args keep) (Some r) loc) = Ok ().
Proof.
  rewrite !validate_args_iff. simpl. rewrite !andb_true_iff, !forallb_Forall, !Forall_forall.
  intros [H1 H2] [H3 H4]. repeat split; try done; intros t Ht%narrow_args_sub; auto.
Qed.

(** a signature read from a catalog is the canonical form of a stored row *)
Lemma get_signature_inv pt rel typmod sig :
  catalog_ok pt rel → LambdaSigGetSignature pt rel typmod = Ok sig →
  ∃ i r s, typmod = Z.of_nat i ∧ rel !! i = Some r ∧ lamsigkey r = key_sig s ∧
           wf_sig s = true ∧ LambdaSigValidateSignature pt s = Ok () ∧ sig = norm_sig s.
Proof.
  intros Hok H. unfold LambdaSigGetSignature in H. destruct (typmod <? 0) eqn:Ht; [done|].
  apply Z.ltb_ge in Ht. destruct (SearchSysCache1_LAMBDASIGID rel typmod) as [r|] eqn:E;
    unfold LambdaSigGetKey in H; rewrite E in H; [|done].
  unfold SearchSysCache1_LAMBDASIGID in E.
  apply List.find_some in E as [Hin%list_elem_of_In Hid%Z.eqb_eq].
  apply list_elem_of_lookup in Hin as [i Hi].
  pose proof (cat_dense _ _ Hok i r Hi) as Hd. assert (typmod = Z.of_nat i) by lia. subst typmod.
  pose proof (cat_rows _ _ Hok) as HF. rewrite Forall_forall in HF.
  destruct (HF r) as (s & Hwf & Hv & Hk); [by apply list_elem_of_lookup_2 with i|].
  exists i, r, s. repeat split; try done.
  unfold LambdaSigGetSource in H. rewrite Hd in H. rewrite (find_typmod pt rel i r Hok Hi) in H.
  simpl in H. rewrite Hk, (parse_key_spec pt s _ Hwf Hv) in H. congruence.
Qed.

Lemma catalog_extends pt rel rel' i r :
  catalog_ok pt rel' → (rel' = rel ∨ rel' = rel ++ [r]) →
  ∀ sig, catalog_ok pt rel → LambdaSigGetSignature pt rel i = Ok sig →
  LambdaSigGetSignature pt rel' i = Ok sig.
Proof.
  intros Hok' [->| ->] sig Hok H; [done|].
  destruct (get_signature_inv pt rel i sig Hok H) as (k & r' & s & -> & Hk & E & Hwf & Hv & ->).
  destruct (get_signature_row pt (rel ++ [r]) k r' Hok') as (s' & Hwf' & E' & ->).
  { by apply lookup_app_l_Some. }
  f_equal. apply key_sig_inj; congruence.
Qed.

(** storing the part of a stored signature that a mask keeps *)
Lemma create_narrowed pt fmt newoid rel typmod sig keep loc :
  (∀ rel, newoid rel ∉ (oid <$> rel)) → catalog_ok pt rel → Z.of_nat (length rel) ≤ PG_INT32_MAX →
  LambdaSigGetSignature pt rel typmod = Ok sig →
  ∃ t rel', LambdaSigCreateFromSignature pt fmt newoid rel (Some (mkSignature (narrow_args (argtypes sig) keep) (rettype sig) loc)) = Ok (t, rel')
    ∧ catalog_ok pt rel'
    ∧ LambdaSigGetSignature pt rel' t = Ok (mkSignature (narrow_args (argtypes sig) keep) (rettype sig) (-1)).
Proof.
  intros Hfresh Hok Hlen Hsig.
  destruct (get_signature_inv pt rel typmod sig Hok Hsig) as (i & r & s & -> & Hi & Hk & Hwf & Hv & ->).
  destruct s as [args [ret|] l0]; [|by simpl in Hwf; rewrite andb_false_r in Hwf].
  destruct (narrow_valid pt args ret l0 keep Hwf Hv) as [Hwf' Hv'].
  set (nsig := mkSignature (narrow_args args keep) (Some ret) l0) in *. cbn [norm_sig argtypes rettype option_map].
  rewrite narrow_args_map. set (csig := mkSignature (map norm_typ (narrow_args args keep)) (Some (norm_typ ret)) loc).
  assert (Hloc : oids_u32_sig csig = true ∧ LambdaSigValidateSignature pt csig = Ok () ∧ key_sig csig = key_sig nsig).
  { change (oids_u32_sig (norm_sig nsig) = true ∧ LambdaSigValidateSignature pt (norm_sig nsig) = Ok () ∧ key_sig (norm_sig nsig) = key_sig nsig).
    rewrite (proj1 oids_norm), (proj1 (validate_norm pt)), (proj1 key_norm). split_and!; [by apply wf_oids|done|done]. }
  destruct Hloc as (Ho & Hv2 & Hkey).
  destruct (create_spec pt fmt newoid Hfresh rel csig Hok Ho Hv2 Hlen) as (j & r' & rel' & Hc & Hok' & Hj & Hk' & _).
  exists (Z.of_nat j), rel'. split_and!; [done|done|].
  destruct (get_signature_row pt rel' j r' Hok' Hj) as (s' & Hs' & Hks' & ->). f_equal.
  rewrite (key_sig_inj s' nsig); [done|done|done|congruence].
Qed.

(** ** A concrete type catalog and OID generator, for the witnesses *)

Definition demo_pg_type (o : Z) : option pg_type_form :=
  if o =? 23 then Some {| typname := lit "int4"; typisdefined := true; typtype := "b" |}
  else if o =? 701 then Some {| typname := lit "float8"; typisdefined := true; typtype := "b" |}
  else if o =? 2249 then Some {| typname := lit "record"; typisdefined := true; typtype := "p" |}
  else None.

Definition demo_format_type (o : Z) : cstr :=
  if o =? 23 then lit "integer" else if o =? 701 then lit "double precision" else lit "???".

Definition demo_newoid (rel : pg_lambdasig) : Z := 16384 + foldr Z.max 0 (oid <$> rel).

Lemma demo_newoid_fresh rel : demo_newoid rel ∉ (oid <$> rel).
Proof.
  unfold demo_newoid. intros H.
  assert (∀ l x, x ∈ l → x ≤ foldr Z.max 0 l) as Hmax.
  { induction l as [|y l IH]; [by intros x ?%not_elem_of_nil|].
    intros x [->|Hx]%elem_of_cons; simpl; [lia|]. specialize (IH x Hx). lia. }
  apply Hmax in H. lia.
Qed.

(** ((integer, float8) -> float8, integer) -> float8 *)
Definition demo_sig : LambdaSignature :=
  let i4 := mkSigType false 23 None 5 in
  let f8 := mkSigType false 701 None 9 in
  mkSignature [mkSigType true 0 (Some (mkSignature [i4; f8] (Some f8) 1)) 0; i4] (Some f8) 0.
