(* ===== verification/LambdaSigTheorems.v ===== *)
(** * Theorems about lambda signatures and pg_lambdasig *)

From S2P Require Import Prelude LambdaSig LambdaSigFacts.

(** C22. Print/parse round trip: for every signature that passes validation,
    LambdaSigAppendKey produces a key, and LambdaSigParseKey reads that key
    back as the same signature up to source locations and the fields the
    signature kind leaves unused. *)
Theorem key_roundtrip pt sig src :
  oids_u32_sig sig = true → LambdaSigValidateSignature pt sig = Ok () →
  ∃ key, LambdaSigAppendKey [] sig = Ok key ∧ LambdaSigParseKey pt key src = Ok (norm_sig sig).
Proof.
  intros Hu Hv. pose proof (proj1 (validate_wf pt) sig Hu Hv) as Hwf.
  exists (key_sig sig). rewrite (proj1 append_key_spec sig Hwf).
  split; [done|]. by apply parse_key_spec.
Qed.

Lemma key_roundtrip_witness :
  ∃ key, LambdaSigAppendKey [] demo_sig = Ok key ∧
         LambdaSigParseKey demo_pg_type key None = Ok (norm_sig demo_sig).
Proof. apply (key_roundtrip demo_pg_type demo_sig None); vm_compute; reflexivity. Defined.

(** C28. The parser terminates without a crash on every byte string, well
    formed or not: the fuel of LambdaSigParseKey is never exhausted and no
    NULL pointer is dereferenced; a bad key is an error. *)
Theorem parse_key_total pt key src :
  (∃ sig, LambdaSigParseKey pt key src = Ok sig) ∨ (∃ e, LambdaSigParseKey pt key src = Err e).
Proof.
  unfold LambdaSigParseKey.
  pose proof (proj1 (parse_shrinks (parse_fuel key)) (mkParser key key src)) as H.
  unfold parse_fuel, shrinks in *. simpl in *. specialize (H ltac:(lia)).
  destruct (LambdaSigParseSignature _ _) as [[sig p]|e| |]; simpl; [|eauto|done..].
  destruct (p_ptr p); [|right; unfold LambdaSigParseError, ereport; eauto].
  destruct (proj1 (validate_outcome pt) sig) as [->|[e ->]]; simpl; eauto.
Qed.

(** C29. A stored signature is read back from its typmod: on a consistent,
    not yet full catalog, LambdaSigCreateFromSignature accepts every valid
    signature, returns an int32 typmod >= 0, keeps the catalog consistent and
    every older typmod unchanged, and LambdaSigGetSignature on the new typmod
    returns the canonical form of the signature. *)
Theorem create_get_roundtrip pt fmt newoid rel sig :
  (∀ rel, newoid rel ∉ (oid <$> rel)) →
  catalog_ok pt rel → oids_u32_sig sig = true → LambdaSigValidateSignature pt sig = Ok () →
  Z.of_nat (length rel) ≤ PG_INT32_MAX →
  ∃ typmod rel',
    LambdaSigCreateFromSignature pt fmt newoid rel (Some sig) = Ok (typmod, rel') ∧
    0 ≤ typmod ≤ PG_INT32_MAX ∧ catalog_ok pt rel' ∧
    LambdaSigGetSignature pt rel' typmod = Ok (norm_sig sig) ∧
    ∀ t s, LambdaSigGetSignature pt rel t = Ok s → LambdaSigGetSignature pt rel' t = Ok s.
Proof.
  intros Hfresh Hok Hu Hv Hlen.
  destruct (create_spec pt fmt newoid Hfresh rel sig Hok Hu Hv Hlen)
    as (i & r & rel' & Hc & Hok' & Hi & Hk & Hrel).
  exists (Z.of_nat i), rel'. split; [done|].
  split; [apply lookup_lt_Some in Hi; destruct Hrel as [->|(-> & -> & _)];
          rewrite ?length_app in Hi; simpl in Hi; lia|].
  split; [done|]. split.
  - destruct (get_signature_row pt rel' i r Hok' Hi) as (s & Hwf & E & ->). f_equal.
    apply key_sig_inj; [done|by apply (proj1 (validate_wf pt) sig Hu Hv)|congruence].
  - intros t s Hs. apply (catalog_extends pt rel rel' t r); [done|naive_solver|done|done].
Qed.

Lemma create_get_roundtrip_witness :
  ∃ typmod rel',
    LambdaSigCreateFromSignature demo_pg_type demo_format_type demo_newoid [] (Some demo_sig)
      = Ok (typmod, rel') ∧
    0 ≤ typmod ≤ PG_INT32_MAX ∧ catalog_ok demo_pg_type rel' ∧
    LambdaSigGetSignature demo_pg_type rel' typmod = Ok (norm_sig demo_sig) ∧
    ∀ t s, LambdaSigGetSignature demo_pg_type [] t = Ok s →
           LambdaSigGetSignature demo_pg_type rel' t = Ok s.
Proof.
  apply (create_get_roundtrip demo_pg_type demo_format_type demo_newoid [] demo_sig).
  - exact demo_newoid_fresh.
  - apply catalog_ok_nil.
  - vm_compute; reflexivity.
  - vm_compute; reflexivity.
  - vm_compute; discriminate.
Defined.

(** C31. Signatures are interned: on a consistent catalog with room for two more
    rows, storing two valid signatures one after the other succeeds and gives
    the same typmod exactly when their canonical forms agree, so that equality
    of lambda column types is equality of typmods. *)
Theorem create_interns pt fmt newoid rel sig1 sig2 :
  (∀ rel, newoid rel ∉ (oid <$> rel)) →
  catalog_ok pt rel → Z.of_nat (length rel) < PG_INT32_MAX →
  oids_u32_sig sig1 = true → oids_u32_sig sig2 = true →
  LambdaSigValidateSignature pt sig1 = Ok () → LambdaSigValidateSignature pt sig2 = Ok () →
  ∃ t1 t2 rel1 rel2,
    LambdaSigCreateFromSignature pt fmt newoid rel (Some sig1) = Ok (t1, rel1) ∧
    LambdaSigCreateFromSignature pt fmt newoid rel1 (Some sig2) = Ok (t2, rel2) ∧
    (t1 = t2 ↔ norm_sig sig1 = norm_sig sig2).
Proof.
  intros Hfresh Hok Hlen Hu1 Hu2 Hv1 Hv2.
  pose proof (proj1 (validate_wf pt) sig1 Hu1 Hv1) as Hwf1.
  pose proof (proj1 (validate_wf pt) sig2 Hu2 Hv2) as Hwf2.
  destruct (create_spec pt fmt newoid Hfresh rel sig1 Hok Hu1 Hv1 ltac:(lia))
    as (i & r & rel1 & Hc & Hok1 & Hi & Hk & Hrel).
  assert (Hlen1 : Z.of_nat (length rel1) ≤ PG_INT32_MAX).
  { destruct Hrel as [->|(_ & -> & _)]; [lia|]. rewrite length_app. simpl. lia. }
  destruct (create_spec pt fmt newoid Hfresh rel1 sig2 Hok1 Hu2 Hv2 Hlen1)
    as (j & r2 & rel2 & Hc2 & Hok2 & Hj & Hk2 & Hrel2).
  exists (Z.of_nat i), (Z.of_nat j), rel1, rel2. split_and!; [done..|].
  assert (Hi2 : rel2 !! i = Some r).
  { destruct Hrel2 as [->|(_ & -> & _)]; [done|]. by apply lookup_app_l_Some. }
  split.
  - intros E%Nat2Z.inj. apply key_sig_inj; [done|done|]. rewrite <- Hk, <- Hk2. congruence.
  - intros E. f_equal. apply (f_equal key_sig) in E. rewrite !(proj1 key_norm) in E.
    apply (NoDup_lookup (lamsigkey <$> rel2) i j (key_sig sig1)); [apply (cat_keys _ _ Hok2)|..];
      rewrite list_lookup_fmap, ?Hi2, ?Hj; simpl; congruence.
Qed.

Lemma create_interns_witness :
  let sig2 := mkSignature [] (Some (mkSigType false 23 None 0)) 0 in
  let create := LambdaSigCreateFromSignature demo_pg_type demo_format_type demo_newoid in
  ∃ t1 t2 r1 r2,
    create [] (Some demo_sig) = Ok (t1, r1) ∧ create r1 (Some sig2) = Ok (t2, r2) ∧
    (t1 = t2 ↔ norm_sig demo_sig = norm_sig sig2).
Proof.
  apply (create_interns demo_pg_type demo_format_type demo_newoid [] demo_sig);
    [exact demo_newoid_fresh|apply catalog_ok_nil|vm_compute; reflexivity..].
Defined.

(** C32. Typmod allocation never overflows and never reuses an id: on a table
    whose ids are int32 values >= 0, LambdaSigAllocateTypmod returns a fresh
    int32 value >= 0, or fails with PROGRAM_LIMIT_EXCEEDED exactly when the
    largest id is PG_INT32_MAX. *)
Theorem allocate_typmod_spec rel :
  Forall (fun r => 0 ≤ lamsigid r ≤ PG_INT32_MAX) rel →
  (∃ id, LambdaSigAllocateTypmod rel = Ok id ∧ 0 ≤ id ≤ PG_INT32_MAX ∧
         Forall (fun r => lamsigid r < id) rel)
  ∨ (∃ e, LambdaSigAllocateTypmod rel = Err e ∧ err_code e = ERRCODE_PROGRAM_LIMIT_EXCEEDED ∧
          PG_INT32_MAX ∈ (lamsigid <$> rel)).
Proof.
  intros HF.
  assert (H : ∀ m, -1 ≤ m ≤ PG_INT32_MAX →
    m ≤ max_lamsigid m rel ≤ PG_INT32_MAX ∧ Forall (fun r => lamsigid r ≤ max_lamsigid m rel) rel ∧
    (max_lamsigid m rel = m ∨ max_lamsigid m rel ∈ (lamsigid <$> rel))).
  { induction HF as [|r rel Hr _ IH]; intros m Hm; simpl.
    { split; [lia|]. split; [constructor|by left]. }
    destruct (IH (if m <? lamsigid r then lamsigid r else m)) as (H1 & H2 & H3).
    { destruct (Z.ltb_spec m (lamsigid r)); lia. }
    split; [destruct (Z.ltb_spec m (lamsigid r)); lia|]. split.
    - constructor; [destruct (Z.ltb_spec m (lamsigid r)); lia|done].
    - rewrite elem_of_cons. destruct (Z.ltb_spec m (lamsigid r)); naive_solver. }
  destruct (H (-1)) as (H1 & H2 & H3); [unfold PG_INT32_MAX; lia|].
  unfold LambdaSigAllocateTypmod.
  destruct (Z.eqb_spec (max_lamsigid (-1) rel) PG_INT32_MAX) as [E|E].
  - right. eexists. split; [done|]. split; [done|]. rewrite E in H3.
    destruct H3 as [H3|H3]; [discriminate H3|done].
  - left. eexists. split; [done|]. split; [lia|].
    eapply Forall_impl; [exact H2|]. simpl. lia.
Qed.

Lemma allocate_typmod_spec_witness :
  let rel := [mkRow 16384 7 (lit "()->23") []; mkRow 16385 3 (lit "(23)->23") []] in
  (∃ id, LambdaSigAllocateTypmod rel = Ok id ∧ 0 ≤ id ≤ PG_INT32_MAX ∧
         Forall (fun r => lamsigid r < id) rel)
  ∨ (∃ e, LambdaSigAllocateTypmod rel = Err e ∧ err_code e = ERRCODE_PROGRAM_LIMIT_EXCEEDED ∧
          PG_INT32_MAX ∈ (lamsigid <$> rel)).
Proof.
  intros rel. apply (allocate_typmod_spec rel).
  repeat constructor; vm_compute; discriminate.
Defined.

(** Narrowing for partial application: on a consistent catalog with room,
    LambdaSigNarrowTypmod with a mask of the right length returns the typmod
    of the signature that keeps exactly the flagged argument types, in order,
    and the return type. *)
Theorem narrow_typmod_spec pt fmt newoid rel typmod sig keep :
  (∀ rel, newoid rel ∉ (oid <$> rel)) →
  catalog_ok pt rel → Z.of_nat (length rel) ≤ PG_INT32_MAX →
  LambdaSigGetSignature pt rel typmod = Ok sig → length keep = length (argtypes sig) →
  ∃ t rel', LambdaSigNarrowTypmod pt fmt newoid rel typmod keep = Ok (t, rel') ∧
    catalog_ok pt rel' ∧
    LambdaSigGetSignature pt rel' t
      = Ok (mkSignature (map snd (filter (fun kt => kt.1 = true) (zip keep (argtypes sig))))
                        (rettype sig) (-1)).
Proof.
  intros Hfresh Hok Hlen Hsig Hkeep. unfold LambdaSigNarrowTypmod. rewrite Hsig. cbn [mbind outcome_bind].
  unfold LambdaSigNarrow. rewrite Hkeep, Z.eqb_refl. cbn [negb mbind outcome_bind].
  destruct (create_narrowed pt fmt newoid rel typmod sig keep (-1) Hfresh Hok Hlen Hsig) as (t & rel' & Hc & Hok' & Hg).
  exists t, rel'. split_and!; [done|done|]. rewrite Hg. do 2 f_equal. clear -Hkeep. revert keep Hkeep.
  induction (argtypes sig) as [|a args IH]; intros [|[] keep] Hk; simplify_eq/=; [done|..];
    rewrite ?filter_cons_True, ?filter_cons_False by done; simpl; by rewrite IH.
Qed.

Lemma narrow_typmod_spec_witness :
  ∃ rel0, (∃ t0, LambdaSigCreateFromSignature demo_pg_type demo_format_type demo_newoid []
                   (Some demo_sig) = Ok (t0, rel0)) ∧
  ∃ t rel', LambdaSigNarrowTypmod demo_pg_type demo_format_type demo_newoid rel0 0 [false; true]
              = Ok (t, rel') ∧
    catalog_ok demo_pg_type rel' ∧
    LambdaSigGetSignature demo_pg_type rel' t
      = Ok (mkSignature
              (map snd (filter (fun kt => kt.1 = true)
                          (zip [false; true] (argtypes (norm_sig demo_sig)))))
              (rettype (norm_sig demo_sig)) (-1)).
Proof.
  eexists. split; [eexists; vm_compute; reflexivity|].
  apply (narrow_typmod_spec demo_pg_type demo_format_type demo_newoid _ 0 (norm_sig demo_sig)
           [false; true]).
  - exact demo_newoid_fresh.
  - split.
    + intros [|[|i]] r H; [|discriminate..]. injection H as <-. reflexivity.
    + apply NoDup_singleton.
    + apply NoDup_singleton.
    + apply Forall_singleton. exists demo_sig. vm_compute. auto.
  - vm_compute; discriminate.
  - vm_compute; reflexivity.
  - reflexivity.
Defined.
