(* ===== verification/Bitmapset.v ===== *)
(** * Sets of small integers as arrays of 64-bit words

    [backend/nodes/bitmapset.c], the representation of the held argument
    positions of a partial application ([CallLambdaExpr.heldargs]).  A
    [Bitmapset *] is [None] for NULL (the empty set) or the array of its
    words.  The loops over the words are structural recursions over the
    arrays; the routines that recycle an input are modelled by their result,
    since no modelled caller keeps the old pointer.

    A set is abstracted to the integer [big] whose binary digits are the
    concatenation of its words, so that membership is [Z.testbit] and the set
    operations are the bitwise operations of [Z]. *)

From S2P Require Import Prelude.

Definition BITS_PER_BITMAPWORD : Z := 64.

Abbreviation Bitmapset := (option (list Z)).

Definition WORDNUM (x : Z) : Z := x / BITS_PER_BITMAPWORD.
Definition BITNUM (x : Z) : Z := x mod BITS_PER_BITMAPWORD.

(** [~w] on a bitmapword *)
Definition wnot (w : Z) : Z := uint64 (Z.lnot w).

Definition RIGHTMOST_ONE (x : Z) : Z := Z.land x (uint64 (- x)).
Definition HAS_MULTIPLE_ONES (x : Z) : bool := negb (RIGHTMOST_ONE x =? x).

Inductive BMS_Comparison := BMS_EQUAL | BMS_SUBSET1 | BMS_SUBSET2 | BMS_DIFFERENT.
Inductive BMS_Membership := BMS_EMPTY_SET | BMS_SINGLETON | BMS_MULTIPLE.

(** the bit-counting intrinsics behind [bmw_popcount] and
    [bmw_rightmost_one_pos] *)
Fixpoint popcount_pos (p : positive) : Z :=
  match p with
  | xH => 1
  | xO p => popcount_pos p
  | xI p => 1 + popcount_pos p
  end.

Definition bmw_popcount (w : Z) : Z :=
  match w with Zpos p => popcount_pos p | _ => 0 end.

Fixpoint ctz_pos (p : positive) : Z :=
  match p with xO p => 1 + ctz_pos p | _ => 0 end.

Definition bmw_rightmost_one_pos (w : Z) : Z :=
  match w with Zpos p => ctz_pos p | _ => 0 end.

Definition bmw_leftmost_one_pos (w : Z) : Z := Z.log2 w.

(** ** Operations *)

Definition nwords (ws : list Z) : Z := Z.of_nat (length ws).

Definition word (ws : list Z) (i : Z) : Z := nth (Z.to_nat i) ws 0.

Definition bms_is_valid_set (a : Bitmapset) : bool :=
  match a with
  | None => true
  | Some ws => negb (word ws (nwords ws - 1) =? 0)
  end.

Definition bms_copy (a : Bitmapset) : Bitmapset := a.

Fixpoint words_equal (a b : list Z) : bool :=
  match a, b with
  | x :: a, y :: b => if negb (x =? y) then false else words_equal a b
  | _, _ => true
  end.

Definition bms_equal (a b : Bitmapset) : bool :=
  match a, b with
  | None, None => true
  | None, Some _ => false
  | Some _, None => false
  | Some a, Some b =>
      if negb (nwords a =? nwords b) then false else words_equal a b
  end.

(** from the last word down *)
Fixpoint words_compare (a b : list Z) : Z :=
  match a, b with
  | x :: a, y :: b =>
      let c := words_compare a b in
      if negb (c =? 0) then c
      else if negb (x =? y) then (if x >? y then 1 else -1) else 0
  | _, _ => 0
  end.

Definition bms_compare (a b : Bitmapset) : Z :=
  match a, b with
  | None, None => 0
  | None, Some _ => -1
  | Some _, None => 1
  | Some a, Some b =>
      if negb (nwords a =? nwords b) then (if nwords a >? nwords b then 1 else -1)
      else words_compare a b
  end.

Definition bms_make_singleton (x : Z) : outcome Bitmapset :=
  if x <? 0 then elog (lit "negative bitmapset member not allowed")
  else Ok (Some (repeat 0 (Z.to_nat (WORDNUM x)) ++ [Z.shiftl 1 (BITNUM x)])).

(** [for (i = 0; i < otherlen; i++) result->words[i] |= other->words[i]] *)
Fixpoint words_or (result other : list Z) : list Z :=
  match result, other with
  | r :: rs, o :: os => Z.lor r o :: words_or rs os
  | rs, _ => rs
  end.

(** the same loop with [&=]; it stops with the shorter array *)
Fixpoint words_and (result other : list Z) : list Z :=
  match result, other with
  | r :: rs, o :: os => Z.land r o :: words_and rs os
  | _, _ => []
  end.

(** [result->words[i] &= ~b->words[i]]; words beyond [b] stay *)
Fixpoint words_andnot (result b : list Z) : list Z :=
  match result, b with
  | r :: rs, o :: os => Z.land r (wnot o) :: words_andnot rs os
  | rs, _ => rs
  end.

(** index of the last non-zero word, -1 if there is none; [i] is the index of
    the first word of [ws] *)
Fixpoint lastnonzero_from (i : Z) (last : Z) (ws : list Z) : Z :=
  match ws with
  | [] => last
  | w :: ws => lastnonzero_from (i + 1) (if negb (w =? 0) then i else last) ws
  end.

Definition lastnonzero (ws : list Z) : Z := lastnonzero_from 0 (-1) ws.

(** [nwords = lastnonzero + 1] *)
Definition trim (ws : list Z) : list Z := take (Z.to_nat (lastnonzero ws + 1)) ws.

Definition trim_or_null (ws : list Z) : Bitmapset :=
  if lastnonzero ws =? -1 then None else Some (trim ws).

Definition bms_union (a b : Bitmapset) : Bitmapset :=
  match a, b with
  | None, _ => bms_copy b
  | _, None => bms_copy a
  | Some a, Some b =>
      if nwords a <=? nwords b then Some (words_or b a) else Some (words_or a b)
  end.

Definition bms_intersect (a b : Bitmapset) : Bitmapset :=
  match a, b with
  | Some a, Some b =>
      trim_or_null (if nwords a <=? nwords b then words_and a b else words_and b a)
  | _, _ => None
  end.

(** does some word of [a] have a bit outside [b]?  [a] is not longer *)
Fixpoint words_nonempty_difference (a b : list Z) : bool :=
  match a, b with
  | x :: a, y :: b =>
      if negb (Z.land x (wnot y) =? 0) then true else words_nonempty_difference a b
  | _, _ => false
  end.

Definition bms_nonempty_difference (a b : Bitmapset) : bool :=
  match a, b with
  | None, _ => false
  | _, None => true
  | Some a, Some b =>
      if nwords a >? nwords b then true else words_nonempty_difference a b
  end.

Definition bms_difference (a b : Bitmapset) : Bitmapset :=
  match a, b with
  | None, _ => None
  | Some _, None => bms_copy a
  | Some aw, Some bw =>
      if negb (bms_nonempty_difference a b) then None
      else if nwords aw >? nwords bw then Some (words_andnot aw bw)
      else Some (trim (words_andnot aw bw))
  end.

Definition bms_is_subset (a b : Bitmapset) : bool :=
  match a, b with
  | None, _ => true
  | _, None => false
  | Some a, Some b =>
      if nwords a >? nwords b then false else negb (words_nonempty_difference a b)
  end.

(** the loop over the common words, with the status so far; [None] is the
    early return of [BMS_DIFFERENT] *)
Fixpoint words_subset_compare (result : BMS_Comparison) (a b : list Z) : option BMS_Comparison :=
  match a, b with
  | aword :: a, bword :: b =>
      let r1 :=
        if negb (Z.land aword (wnot bword) =? 0) then
          match result with BMS_SUBSET1 => None | _ => Some BMS_SUBSET2 end
        else Some result in
      let r2 :=
        match r1 with
        | None => None
        | Some result =>
            if negb (Z.land bword (wnot aword) =? 0) then
              match result with BMS_SUBSET2 => None | _ => Some BMS_SUBSET1 end
            else Some result
        end in
      match r2 with
      | None => None
      | Some result => words_subset_compare result a b
      end
  | _, _ => Some result
  end.

Definition bms_subset_compare (a b : Bitmapset) : BMS_Comparison :=
  match a, b with
  | None, None => BMS_EQUAL
  | None, Some _ => BMS_SUBSET1
  | Some _, None => BMS_SUBSET2
  | Some a, Some b =>
      match words_subset_compare BMS_EQUAL a b with
      | None => BMS_DIFFERENT
      | Some result =>
          if nwords a >? nwords b then
            match result with BMS_SUBSET1 => BMS_DIFFERENT | _ => BMS_SUBSET2 end
          else if nwords a <? nwords b then
            match result with BMS_SUBSET2 => BMS_DIFFERENT | _ => BMS_SUBSET1 end
          else result
      end
  end.

Definition word_has (ws : list Z) (x : Z) : bool :=
  if WORDNUM x >=? nwords ws then false
  else negb (Z.land (word ws (WORDNUM x)) (Z.shiftl 1 (BITNUM x)) =? 0).

Definition bms_is_member (x : Z) (a : Bitmapset) : outcome bool :=
  if x <? 0 then elog (lit "negative bitmapset member not allowed")
  else match a with
       | None => Ok false
       | Some ws => Ok (word_has ws x)
       end.

(** the accumulating loop [if (w != 0) result += bmw_popcount(w)] *)
Definition words_popcount (ws : list Z) : Z :=
  foldl (fun result w => if negb (w =? 0) then result + bmw_popcount w else result) 0 ws.

Definition bms_member_index (a : Bitmapset) (x : Z) : outcome Z :=
  m ← bms_is_member x a;
  if negb m then Ok (-1)
  else match a with
       | None => Ok (-1)
       | Some ws =>
           let mask := Z.shiftl 1 (BITNUM x) - 1 in
           Ok (words_popcount (take (Z.to_nat (WORDNUM x)) ws)
               + bmw_popcount (Z.land (word ws (WORDNUM x)) mask))
       end.

Fixpoint words_overlap (a b : list Z) : bool :=
  match a, b with
  | x :: a, y :: b => if negb (Z.land x y =? 0) then true else words_overlap a b
  | _, _ => false
  end.

Definition bms_overlap (a b : Bitmapset) : bool :=
  match a, b with
  | Some a, Some b => words_overlap a b
  | _, _ => false
  end.

Fixpoint words_overlap_list (ws : list Z) (b : list Z) : outcome bool :=
  match b with
  | [] => Ok false
  | x :: b =>
      if x <? 0 then elog (lit "negative bitmapset member not allowed")
      else if word_has ws x then Ok true else words_overlap_list ws b
  end.

Definition bms_overlap_list (a : Bitmapset) (b : list Z) : outcome bool :=
  match a with
  | None => Ok false
  | Some ws => words_overlap_list ws b
  end.

(** the scan shared by the two singleton tests: [None] as soon as a second
    member is seen *)
Fixpoint words_singleton (wordnum result : Z) (ws : list Z) : option Z :=
  match ws with
  | [] => Some result
  | w :: ws =>
      if negb (w =? 0) then
        if (result >=? 0) || HAS_MULTIPLE_ONES w then None
        else words_singleton (wordnum + 1)
               (wordnum * BITS_PER_BITMAPWORD + bmw_rightmost_one_pos w) ws
      else words_singleton (wordnum + 1) result ws
  end.

Definition bms_singleton_member (a : Bitmapset) : outcome Z :=
  match a with
  | None => elog (lit "bitmapset is empty")
  | Some ws =>
      match words_singleton 0 (-1) ws with
      | None => elog (lit "bitmapset has multiple members")
      | Some r => Ok r
      end
  end.

(** the result and the value stored through [member] *)
Definition bms_get_singleton_member (a : Bitmapset) : option Z :=
  match a with
  | None => None
  | Some ws => words_singleton 0 (-1) ws
  end.

Definition bms_num_members (a : Bitmapset) : Z :=
  match a with None => 0 | Some ws => words_popcount ws end.

Fixpoint words_membership (result : BMS_Membership) (ws : list Z) : BMS_Membership :=
  match ws with
  | [] => result
  | w :: ws =>
      if negb (w =? 0) then
        match result with
        | BMS_EMPTY_SET =>
            if HAS_MULTIPLE_ONES w then BMS_MULTIPLE else words_membership BMS_SINGLETON ws
        | _ => BMS_MULTIPLE
        end
      else words_membership result ws
  end.

Definition bms_membership (a : Bitmapset) : BMS_Membership :=
  match a with None => BMS_EMPTY_SET | Some ws => words_membership BMS_EMPTY_SET ws end.

(** [repalloc] to [n] words, zeroing the enlarged portion *)
Definition enlarge (ws : list Z) (n : Z) : list Z :=
  if n >? nwords ws then ws ++ repeat 0 (Z.to_nat (n - nwords ws)) else ws.

(** [a->words[i] = v], [i] in range *)
Definition word_set (ws : list Z) (i v : Z) : list Z := <[Z.to_nat i := v]> ws.

Definition bms_add_member (a : Bitmapset) (x : Z) : outcome Bitmapset :=
  if x <? 0 then elog (lit "negative bitmapset member not allowed")
  else match a with
       | None => bms_make_singleton x
       | Some ws =>
           let ws := enlarge ws (WORDNUM x + 1) in
           Ok (Some (word_set ws (WORDNUM x)
                       (Z.lor (word ws (WORDNUM x)) (Z.shiftl 1 (BITNUM x)))))
       end.

(** [for (i = wordnum - 1; i >= 0; i--) if (a->words[i] != 0) ...] over the
    words below the last one *)
Definition bms_del_member (a : Bitmapset) (x : Z) : outcome Bitmapset :=
  if x <? 0 then elog (lit "negative bitmapset member not allowed")
  else match a with
       | None => Ok None
       | Some ws =>
           if WORDNUM x >=? nwords ws then Ok (Some ws)
           else
             let ws' := word_set ws (WORDNUM x)
                          (Z.land (word ws (WORDNUM x)) (wnot (Z.shiftl 1 (BITNUM x)))) in
             if (word ws' (WORDNUM x) =? 0) && (WORDNUM x =? nwords ws' - 1) then
               Ok (trim_or_null (take (Z.to_nat (WORDNUM x)) ws'))
             else Ok (Some ws')
       end.

Definition bms_add_members (a b : Bitmapset) : Bitmapset :=
  match a, b with
  | None, _ => bms_copy b
  | _, None => a
  | Some a, Some b =>
      if nwords a <? nwords b then Some (words_or b a) else Some (words_or a b)
  end.

Definition bms_replace_members (a b : Bitmapset) : Bitmapset :=
  match a, b with
  | None, _ => bms_copy b
  | Some _, None => None
  | Some a, Some b =>
      let a := enlarge a (nwords b) in
      Some (take (length b) (b ++ drop (length b) a))
  end.

Definition UINT64_ONES : Z := wnot 0.

(** the masks of [bms_add_range] *)
Definition range_lmask (lower : Z) : Z := wnot (Z.shiftl 1 (BITNUM lower) - 1).
Definition range_umask (upper : Z) : Z :=
  Z.shiftr UINT64_ONES (BITS_PER_BITMAPWORD - (BITNUM upper + 1)).

(** setting the bits of a range in an array that is long enough *)
Definition words_add_range (ws : list Z) (lower upper : Z) : list Z :=
  let uwordnum := WORDNUM upper in
  let lwordnum := WORDNUM lower in
  if lwordnum =? uwordnum then
    word_set ws lwordnum
      (Z.lor (word ws lwordnum) (Z.land (range_lmask lower) (range_umask upper)))
  else
    let ws := word_set ws lwordnum (Z.lor (word ws lwordnum) (range_lmask lower)) in
    let ws := foldl (fun ws i => word_set ws i UINT64_ONES) ws
                (seqZ (lwordnum + 1) (uwordnum - (lwordnum + 1))) in
    word_set ws uwordnum (Z.lor (word ws uwordnum) (range_umask upper)).

Definition bms_add_range (a : Bitmapset) (lower upper : Z) : outcome Bitmapset :=
  if upper <? lower then Ok a
  else if lower <? 0 then elog (lit "negative bitmapset member not allowed")
  else
    let uwordnum := WORDNUM upper in
    let ws := match a with
              | None => repeat 0 (Z.to_nat (uwordnum + 1))
              | Some ws => enlarge ws (uwordnum + 1)
              end in
    Ok (Some (words_add_range ws lower upper)).

Definition bms_int_members (a b : Bitmapset) : Bitmapset :=
  match a, b with
  | Some a, Some b => trim_or_null (words_and a b)
  | _, _ => None
  end.

Definition bms_del_members (a b : Bitmapset) : Bitmapset :=
  match a, b with
  | None, _ => None
  | _, None => a
  | Some a, Some b =>
      if nwords a >? nwords b then Some (words_andnot a b)
      else trim_or_null (words_andnot a b)
  end.

Definition bms_join (a b : Bitmapset) : Bitmapset :=
  match a, b with
  | None, _ => b
  | _, None => a
  | Some a, Some b =>
      if nwords a <? nwords b then Some (words_or b a) else Some (words_or a b)
  end.

(** the scan of [bms_next_member] from word [wordnum] on *)
Fixpoint words_next (wordnum mask : Z) (ws : list Z) : Z :=
  match ws with
  | [] => -2
  | w :: ws =>
      let w := Z.land w mask in
      if negb (w =? 0) then wordnum * BITS_PER_BITMAPWORD + bmw_rightmost_one_pos w
      else words_next (wordnum + 1) UINT64_ONES ws
  end.

Definition bms_next_member (a : Bitmapset) (prevbit : Z) : Z :=
  match a with
  | None => -2
  | Some ws =>
      let prevbit := prevbit + 1 in
      let mask := uint64 (Z.shiftl UINT64_ONES (BITNUM prevbit)) in
      words_next (WORDNUM prevbit) mask (drop (Z.to_nat (WORDNUM prevbit)) ws)
  end.

(** the downward scan of [bms_prev_member]; the words come last first *)
Fixpoint words_prev (wordnum mask : Z) (ws : list Z) : Z :=
  match ws with
  | [] => -2
  | w :: ws =>
      let w := Z.land w mask in
      if negb (w =? 0) then wordnum * BITS_PER_BITMAPWORD + bmw_leftmost_one_pos w
      else words_prev (wordnum - 1) UINT64_ONES ws
  end.

Definition bms_prev_member (a : Bitmapset) (prevbit : Z) : Z :=
  match a with
  | None => -2
  | Some ws =>
      if prevbit =? 0 then -2
      else
        let prevbit := if prevbit =? -1 then nwords ws * BITS_PER_BITMAPWORD - 1
                       else prevbit - 1 in
        let mask := Z.shiftr UINT64_ONES (BITS_PER_BITMAPWORD - (BITNUM prevbit + 1)) in
        words_prev (WORDNUM prevbit) mask (rev (take (Z.to_nat (WORDNUM prevbit + 1)) ws))
  end.
