(* ===== verification/BitmapsetFacts.v ===== *)
(** * Facts about bitmap sets

    The abstraction [big] of a word array to the integer with the same binary
    digits, and how every loop of [Bitmapset.v] acts on it. *)

From S2P Require Import Prelude Bitmapset.

Definition word_ok (w : Z) : Prop := 0 ≤ w < 2 ^ 64.

Fixpoint big (ws : list Z) : Z :=
  match ws with [] => 0 | w :: ws => w + 2 ^ 64 * big ws end.

(** the set as an integer *)
Definition bms_big (a : Bitmapset) : Z :=
  match a with None => 0 | Some ws => big ws end.

Definition bms_wf (a : Bitmapset) : Prop :=
  match a with None => True | Some ws => Forall word_ok ws end ∧ bms_is_valid_set a = true.

(** membership, the abstract view of a set *)
Definition bms_in (x : Z) (a : Bitmapset) : bool := Z.testbit (bms_big a) x.

(** ** Bits of a word array *)

Lemma big_nonneg ws : Forall word_ok ws → 0 ≤ big ws.
Proof. induction 1 as [|w ws [? ?] _ IH]; simpl; lia. Qed.

Lemma testbit_cons w B i :
  word_ok w → 0 ≤ i →
  Z.testbit (w + 2 ^ 64 * B) i = if i <? 64 then Z.testbit w i else Z.testbit B (i - 64).
Proof.
  intros [Hw0 Hw1] Hi. destruct (Z.ltb_spec i 64).
  - rewrite <- (Z.mod_pow2_bits_low (w + 2 ^ 64 * B) 64 i) by lia.
    rewrite Z.mul_comm, Z_mod_plus_full, Z.mod_small by lia. done.
  - replace i with (i - 64 + 64) at 1 by lia. rewrite <- Z.div_pow2_bits by lia.
    rewrite Z.mul_comm, Z.div_add, (Z.div_small w) by lia. done.
Qed.

Lemma word_ok_bits w : 0 ≤ w → (∀ i, 64 ≤ i → Z.testbit w i = false) → word_ok w.
Proof.
  intros Hw Hb. split; [done|]. destruct (Z.eq_dec w 0) as [->|]; [lia|].
  apply Z.log2_lt_pow2; [lia|].
  destruct (Z.lt_ge_cases (Z.log2 w) 64) as [|Hge]; [done|].
  specialize (Hb _ Hge). rewrite Z.bit_log2 in Hb by lia. done.
Qed.

Lemma word_bits_high w i : word_ok w → 64 ≤ i → Z.testbit w i = false.
Proof.
  intros [? ?] ?. destruct (Z.eq_dec w 0) as [->|]; [by rewrite Z.bits_0|].
  apply Z.bits_above_log2; [lia|]. enough (Z.log2 w < 64) by lia. apply Z.log2_lt_pow2; lia.
Qed.

Lemma word_ok_lor w v : word_ok w → word_ok v → word_ok (Z.lor w v).
Proof.
  intros Hw Hv. apply word_ok_bits; [apply Z.lor_nonneg; unfold word_ok in *; lia|].
  intros i Hi. rewrite Z.lor_spec, !word_bits_high; done.
Qed.

Lemma word_ok_land w v : word_ok w → 0 ≤ v → word_ok (Z.land w v).
Proof.
  intros Hw Hv. apply word_ok_bits; [apply Z.land_nonneg; lia|].
  intros i Hi. rewrite Z.land_spec, word_bits_high; done.
Qed.

Lemma word_ok_ldiff w v : word_ok w → word_ok (Z.ldiff w v).
Proof.
  intros Hw. apply word_ok_bits; [apply Z.ldiff_nonneg; unfold word_ok in *; lia|].
  intros i Hi. rewrite Z.ldiff_spec, word_bits_high; done.
Qed.

Lemma wnot_ok w : word_ok (wnot w).
Proof. unfold word_ok, wnot, uint64. apply Z.mod_pos_bound. lia. Qed.

Lemma wnot_spec w i : 0 ≤ i → Z.testbit (wnot w) i = (i <? 64) && negb (Z.testbit w i).
Proof.
  intros Hi. unfold wnot, uint64. destruct (Z.ltb_spec i 64).
  - rewrite Z.mod_pow2_bits_low, Z.lnot_spec by lia. done.
  - rewrite Z.mod_pow2_bits_high by lia. done.
Qed.

Lemma land_wnot w v : word_ok w → Z.land w (wnot v) = Z.ldiff w v.
Proof.
  intros Hw. apply Z.bits_inj'. intros i Hi.
  rewrite Z.land_spec, Z.ldiff_spec, wnot_spec by done.
  destruct (Z.ltb_spec i 64); [done|]. rewrite (word_bits_high w); done.
Qed.

Lemma singleton_word_ok b : 0 ≤ b < 64 → word_ok (Z.shiftl 1 b).
Proof.
  intros. rewrite Z.shiftl_1_l. split; [apply Z.pow_nonneg; lia|]. apply Z.pow_lt_mono_r; lia.
Qed.

Lemma shiftl1_spec b i : 0 ≤ b → 0 ≤ i → Z.testbit (Z.shiftl 1 b) i = (i =? b).
Proof.
  intros. rewrite Z.shiftl_1_l. destruct (Z.eqb_spec i b) as [->|].
  - by apply Z.pow2_bits_true.
  - apply Z.pow2_bits_false. lia.
Qed.

#[export] Hint Resolve word_ok_lor word_ok_ldiff wnot_ok : lambda.

(** ** The loops *)

Ltac big_bits :=
  apply Z.bits_inj'; intros i Hi;
  rewrite ?Z.lor_spec, ?Z.land_spec, ?Z.ldiff_spec, ?testbit_cons by (eauto using word_ok_land with lambda);
  destruct (Z.ltb_spec i 64); rewrite ?Z.lor_spec, ?Z.land_spec, ?Z.ldiff_spec; done.

Lemma lor_cons w v a b :
  word_ok w → word_ok v → Z.lor (w + 2 ^ 64 * a) (v + 2 ^ 64 * b) = Z.lor w v + 2 ^ 64 * Z.lor a b.
Proof. intros. big_bits. Qed.

Lemma land_cons w v a b :
  word_ok w → word_ok v → Z.land (w + 2 ^ 64 * a) (v + 2 ^ 64 * b) = Z.land w v + 2 ^ 64 * Z.land a b.
Proof.
  intros. assert (word_ok (Z.land w v)) by (apply word_ok_land; [done|unfold word_ok in *; lia]).
  big_bits.
Qed.

Lemma ldiff_cons w v a b :
  word_ok w → word_ok v → Z.ldiff (w + 2 ^ 64 * a) (v + 2 ^ 64 * b) = Z.ldiff w v + 2 ^ 64 * Z.ldiff a b.
Proof. intros. big_bits. Qed.

Lemma words_or_ok a b : Forall word_ok a → Forall word_ok b → Forall word_ok (words_or a b).
Proof.
  intros Ha; revert b; induction Ha as [|x a Hx Ha IH]; intros b Hb; simpl; [done|].
  destruct Hb as [|y b Hy Hb]; [by constructor|]. constructor; eauto with lambda.
Qed.

Lemma words_or_big a b :
  Forall word_ok a → Forall word_ok b → (length b ≤ length a)%nat →
  big (words_or a b) = Z.lor (big a) (big b).
Proof.
  intros Ha; revert b; induction Ha as [|x a Hx Ha IH]; intros b Hb Hl; simpl in *.
  { destruct b; [done | simpl in *; lia]. }
  destruct Hb as [|y b Hy Hb]; simpl in *; [by rewrite Z.lor_0_r|].
  rewrite IH by (done || lia). by rewrite lor_cons.
Qed.

Lemma words_and_ok a b : Forall word_ok a → Forall word_ok b → Forall word_ok (words_and a b).
Proof.
  intros Ha; revert b; induction Ha as [|x a Hx Ha IH]; intros b Hb; simpl; [constructor|].
  destruct Hb as [|y b [Hy ?] Hb]; constructor; eauto using word_ok_land.
Qed.

Lemma words_and_big a b :
  Forall word_ok a → Forall word_ok b → big (words_and a b) = Z.land (big a) (big b).
Proof.
  intros Ha; revert b; induction Ha as [|x a Hx Ha IH]; intros b Hb; simpl.
  { by rewrite Z.land_0_l. }
  destruct Hb as [|y b Hy Hb]; simpl in *; [by rewrite Z.land_0_r|].
  rewrite IH by done. by rewrite land_cons.
Qed.

Lemma words_and_comm a b : words_and a b = words_and b a.
Proof.
  revert b; induction a as [|x a IH]; intros [|y b]; simpl; try done.
  by rewrite Z.land_comm, IH.
Qed.

Lemma words_andnot_ok a b : Forall word_ok a → Forall word_ok (words_andnot a b).
Proof.
  intros Ha; revert b; induction Ha as [|x a Hx Ha IH]; intros [|y b]; simpl; try by constructor.
  constructor; [|by apply IH]. rewrite land_wnot; eauto with lambda.
Qed.

Lemma words_andnot_big a b :
  Forall word_ok a → Forall word_ok b →
  big (words_andnot a b) = Z.ldiff (big a) (big b).
Proof.
  intros Ha; revert b; induction Ha as [|x a Hx Ha IH]; intros b Hb; simpl.
  { by destruct b. }
  destruct Hb as [|y b Hy Hb]; simpl in *; [by rewrite Z.ldiff_0_r|].
  rewrite IH by done. rewrite land_wnot by done. by rewrite ldiff_cons.
Qed.

(** ** Trimming trailing zero words *)

Lemma lastnonzero_from_spec i last ws :
  lastnonzero_from i last ws = last ∧ Forall (eq 0) ws
  ∨ ∃ pre w post, ws = pre ++ w :: post ∧ w ≠ 0 ∧ Forall (eq 0) post
      ∧ lastnonzero_from i last ws = i + Z.of_nat (length pre).
Proof.
  revert i last; induction ws as [|w ws IH]; intros i last; simpl; [by left|].
  destruct (IH (i + 1) (if negb (w =? 0) then i else last)) as [[-> Hz]|Hex].
  - destruct (Z.eqb_spec w 0) as [->|Hw]; simpl; [left; by repeat constructor|].
    right. exists [], w, ws. repeat split; try done. simpl; lia.
  - destruct Hex as (pre & v & post & -> & Hv & Hp & ->). right.
    exists (w :: pre), v, post. repeat split; try done. simpl length; lia.
Qed.

Lemma big_zeros ws : Forall (eq 0) ws → big ws = 0.
Proof. induction 1 as [|w ws <- _ IH]; simpl; lia. Qed.

Lemma big_app a b : big (a ++ b) = big a + 2 ^ (64 * nwords a) * big b.
Proof.
  unfold nwords. induction a as [|x a IH]; cbn [big app length].
  { change (64 * Z.of_nat 0) with 0. lia. }
  rewrite IH, Nat2Z.inj_succ.
  replace (64 * Z.succ (Z.of_nat (length a))) with (64 + 64 * Z.of_nat (length a)) by lia.
  rewrite Z.pow_add_r by lia. ring.
Qed.

Lemma big_app_zeros a z : Forall (eq 0) z → big (a ++ z) = big a.
Proof. intros Hz. rewrite big_app, (big_zeros z Hz). lia. Qed.

(** an array trimmed to its last non-zero word *)
Lemma lastnonzero_spec ws :
  lastnonzero ws = -1 ∧ big ws = 0
  ∨ ∃ pre w post, ws = (pre ++ [w]) ++ post ∧ w ≠ 0 ∧ Forall (eq 0) post
      ∧ lastnonzero ws = Z.of_nat (length pre) ∧ trim ws = pre ++ [w].
Proof.
  destruct (lastnonzero_from_spec 0 (-1) ws) as [[H Hz]|(pre & w & post & -> & Hw & Hp & H)].
  - left. split; [done|]. by apply big_zeros.
  - right. exists pre, w, post. rewrite Z.add_0_l in H. fold (lastnonzero (pre ++ w :: post)) in H.
    unfold trim. rewrite H. split; [by rewrite <- app_assoc|]. split_and!; try done.
    replace (Z.to_nat (Z.of_nat (length pre) + 1)) with (length (pre ++ [w]))
      by (rewrite length_app; simpl; lia).
    change (w :: post) with ([w] ++ post). rewrite app_assoc. by rewrite take_app_length.
Qed.

Lemma word_last pre w : word (pre ++ [w]) (nwords (pre ++ [w]) - 1) = w.
Proof.
  unfold word, nwords. rewrite length_app. simpl.
  replace (Z.to_nat (Z.of_nat (length pre + 1) - 1)) with (length pre) by lia.
  rewrite app_nth2, Nat.sub_diag by lia. done.
Qed.

Lemma valid_last ws :
  bms_is_valid_set (Some ws) = true ↔ ∃ pre w, ws = pre ++ [w] ∧ w ≠ 0.
Proof.
  destruct ws as [|w pre _] using rev_ind.
  - split; [done|]. intros (pre & w & H & _). by destruct pre.
  - cbn [bms_is_valid_set]. rewrite word_last. split.
    + intros H. exists pre, w. split; [done|]. intros ->. done.
    + intros (pre' & w' & E & Hw). apply app_inj_tail in E as [_ ->]. by apply Z.eqb_neq in Hw as ->.
Qed.

Lemma wf_last ws :
  bms_wf (Some ws) ↔ ∃ pre w, ws = pre ++ [w] ∧ w ≠ 0 ∧ Forall word_ok pre ∧ word_ok w.
Proof.
  unfold bms_wf. rewrite valid_last. split.
  - intros [Hok (pre & w & -> & Hw)]. apply Forall_app in Hok as [? H]. inversion H. naive_solver.
  - intros (pre & w & -> & Hw & Hp & Hk). split; [|naive_solver].
    apply Forall_app. split; [done|]. by apply Forall_singleton.
Qed.

Lemma trim_or_null_spec ws :
  Forall word_ok ws → bms_wf (trim_or_null ws) ∧ bms_big (trim_or_null ws) = big ws.
Proof.
  intros Hok. unfold trim_or_null.
  destruct (lastnonzero_spec ws) as [[-> Hb]|(pre & w & post & -> & Hw & Hp & -> & ->)].
  { simpl. by rewrite Hb. }
  replace (Z.of_nat (length pre) =? -1) with false by (symmetry; apply Z.eqb_neq; lia).
  apply Forall_app in Hok as [[? Hwok]%Forall_app _]. inversion Hwok. split.
  - apply wf_last. by exists pre, w.
  - symmetry. by apply big_app_zeros.
Qed.

Lemma trim_spec ws :
  Forall word_ok ws → big ws ≠ 0 → bms_wf (Some (trim ws)) ∧ big (trim ws) = big ws.
Proof.
  intros Hok Hnz.
  destruct (lastnonzero_spec ws) as [[_ Hb]|(pre & w & post & -> & Hw & Hp & _ & ->)]; [done|].
  apply Forall_app in Hok as [[? Hwok]%Forall_app _]. inversion Hwok. split.
  - apply wf_last. by exists pre, w.
  - symmetry. by apply big_app_zeros.
Qed.

(** ** Size of a well-formed set *)

Lemma big_lt ws : Forall word_ok ws → big ws < 2 ^ (64 * nwords ws).
Proof.
  unfold nwords. induction 1 as [|w ws [? ?] _ IH]; cbn [big length]; [done|].
  rewrite Nat2Z.inj_succ.
  replace (64 * Z.succ (Z.of_nat (length ws))) with (64 + 64 * Z.of_nat (length ws)) by lia.
  rewrite Z.pow_add_r by lia. nia.
Qed.

Lemma wf_big_ge ws : bms_wf (Some ws) → 2 ^ (64 * (nwords ws - 1)) ≤ big ws.
Proof.
  intros (pre & w & -> & Hw & Hp & Hk)%wf_last. rewrite big_app.
  pose proof (big_nonneg _ Hp). unfold nwords at 1. rewrite length_app.
  replace (64 * (Z.of_nat (length pre + length [w]) - 1)) with (64 * nwords pre)
    by (unfold nwords; simpl; lia).
  unfold word_ok in Hk. cbn [big]. assert (0 < 2 ^ (64 * nwords pre)).
  { apply Z.pow_pos_nonneg; unfold nwords; lia. } nia.
Qed.

Lemma wf_big_pos ws : bms_wf (Some ws) → 0 < big ws.
Proof.
  intros H. pose proof (wf_big_ge _ H). apply wf_last in H as (pre & w & -> & _).
  assert (0 < 2 ^ (64 * (nwords (pre ++ [w]) - 1))); [|lia].
  apply Z.pow_pos_nonneg; [lia|]. unfold nwords. rewrite length_app. simpl. lia.
Qed.

Lemma bms_big_nonneg a : bms_wf a → 0 ≤ bms_big a.
Proof. destruct a as [ws|]; [|done]. intros [H _]. by apply big_nonneg. Qed.

(** more words, larger integer *)
Lemma nwords_lt_big a b : bms_wf (Some a) → bms_wf (Some b) → nwords a < nwords b → big a < big b.
Proof.
  intros [Ha _] Hb Hl. pose proof (big_lt _ Ha). pose proof (wf_big_ge _ Hb).
  assert (2 ^ (64 * nwords a) ≤ 2 ^ (64 * (nwords b - 1))); [|lia].
  apply Z.pow_le_mono_r; lia.
Qed.

(** ** Bits by word and position *)

Lemma word_ok_nth ws i : Forall word_ok ws → word_ok (word ws i).
Proof.
  intros H. unfold word. destruct (Nat.lt_ge_cases (Z.to_nat i) (length ws)).
  - rewrite Forall_forall in H. apply H. apply list_elem_of_In. by apply nth_In.
  - rewrite nth_overflow by done. unfold word_ok; lia.
Qed.

Lemma big_testbit ws x :
  Forall word_ok ws → 0 ≤ x → Z.testbit (big ws) x = Z.testbit (word ws (WORDNUM x)) (BITNUM x).
Proof.
  unfold word, WORDNUM, BITNUM, BITS_PER_BITMAPWORD.
  intros H; revert x; induction H as [|w ws Hw Hws IH]; intros x Hx; cbn [big].
  { rewrite !Z.bits_0. destruct (Z.to_nat (x / 64)); by rewrite Z.bits_0. }
  rewrite testbit_cons by done. destruct (Z.ltb_spec x 64).
  - rewrite Z.div_small, Z.mod_small by lia. done.
  - rewrite IH by lia. replace x with (x - 64 + 1 * 64) at 3 4 by lia.
    rewrite Z.div_add, Z.mod_add by lia.
    rewrite Z2Nat.inj_add; [|apply Z.div_pos; lia|lia]. by rewrite Nat.add_1_r.
Qed.

Lemma WORDNUM_nonneg x : 0 ≤ x → 0 ≤ WORDNUM x.
Proof. intros. apply Z.div_pos; unfold BITS_PER_BITMAPWORD; lia. Qed.

Lemma BITNUM_range x : 0 ≤ BITNUM x < 64.
Proof. apply Z.mod_pos_bound. unfold BITS_PER_BITMAPWORD. lia. Qed.

Lemma WORD_BIT x : x = 64 * WORDNUM x + BITNUM x.
Proof. unfold WORDNUM, BITNUM, BITS_PER_BITMAPWORD. apply Z.div_mod. lia. Qed.

#[export] Hint Resolve WORDNUM_nonneg BITNUM_range : lambda.

Lemma word_set_ok ws i v : Forall word_ok ws → word_ok v → Forall word_ok (word_set ws i v).
Proof. intros. unfold word_set. by apply Forall_insert. Qed.

Lemma word_set_word ws i v j :
  0 ≤ i < nwords ws → 0 ≤ j → word (word_set ws i v) j = if j =? i then v else word ws j.
Proof.
  unfold word, word_set, nwords. intros Hi Hj. rewrite !nth_lookup.
  destruct (Z.eqb_spec j i) as [->|].
  - rewrite list_lookup_insert_eq by lia. done.
  - rewrite list_lookup_insert_ne by lia. done.
Qed.

Lemma word_set_nwords ws i v : nwords (word_set ws i v) = nwords ws.
Proof. unfold nwords, word_set. by rewrite length_insert. Qed.

Lemma word_out ws i : nwords ws ≤ i → word ws i = 0.
Proof. unfold nwords, word. intros. apply nth_overflow. lia. Qed.

Lemma repeat_zero_ok n : Forall word_ok (repeat 0 n).
Proof. induction n; simpl; constructor; [unfold word_ok; lia | done]. Qed.

Lemma repeat_zero_eq n : Forall (eq 0) (repeat 0 n).
Proof. induction n; simpl; by constructor. Qed.

Lemma enlarge_spec ws n :
  Forall word_ok ws →
  Forall word_ok (enlarge ws n) ∧ big (enlarge ws n) = big ws
  ∧ nwords (enlarge ws n) = Z.max n (nwords ws).
Proof.
  intros H. unfold enlarge. destruct (Z.gtb_spec n (nwords ws)).
  - split_and!.
    + apply Forall_app. split; [done|]. apply repeat_zero_ok.
    + apply big_app_zeros, repeat_zero_eq.
    + unfold nwords in *. rewrite length_app, repeat_length. lia.
  - split_and!; try done. lia.
Qed.

(** writing one word of an array *)
Lemma word_set_bits ws i v x :
  Forall word_ok ws → word_ok v → 0 ≤ i < nwords ws → 0 ≤ x →
  Z.testbit (big (word_set ws i v)) x
  = if WORDNUM x =? i then Z.testbit v (BITNUM x) else Z.testbit (big ws) x.
Proof.
  intros Hws Hv Hi Hx. rewrite !big_testbit by eauto using word_set_ok.
  rewrite word_set_word by eauto with lambda. by destruct (WORDNUM x =? i).
Qed.

Lemma word_has_testbit ws x :
  Forall word_ok ws → 0 ≤ x → word_has ws x = Z.testbit (big ws) x.
Proof.
  intros Hws Hx. unfold word_has. rewrite big_testbit, Z.geb_leb by done.
  destruct (Z.leb_spec (nwords ws) (WORDNUM x)).
  { rewrite word_out by done. by rewrite Z.bits_0. }
  pose proof (BITNUM_range x).
  destruct (Z.testbit (word ws (WORDNUM x)) (BITNUM x)) eqn:E.
  - apply negb_true_iff, Z.eqb_neq. intros Hz.
    assert (Z.testbit (Z.land (word ws (WORDNUM x)) (Z.shiftl 1 (BITNUM x))) (BITNUM x) = true) as H1.
    { rewrite Z.land_spec, E, shiftl1_spec, Z.eqb_refl by lia. done. }
    by rewrite Hz, Z.bits_0 in H1.
  - apply negb_false_iff, Z.eqb_eq. apply Z.bits_inj'. intros i Hi.
    rewrite Z.land_spec, shiftl1_spec, Z.bits_0 by lia.
    destruct (Z.eqb_spec i (BITNUM x)) as [->|]; [by rewrite E|]. by rewrite andb_false_r.
Qed.

(** ** Comparisons *)

Lemma big_inj a b :
  Forall word_ok a → Forall word_ok b → length a = length b → big a = big b → a = b.
Proof.
  intros Ha; revert b; induction Ha as [|x a [? ?] Ha IH]; intros b Hb Hl E.
  { by destruct b. }
  destruct Hb as [|y b [? ?] Hb]; [done|]. simpl in *.
  assert (big a = big b) by lia. assert (x = y) by lia. subst. f_equal. apply IH; auto.
Qed.

Lemma words_equal_eq a b : length a = length b → words_equal a b = true ↔ a = b.
Proof.
  revert b; induction a as [|x a IH]; intros [|y b] Hl; simpl in *; try done.
  destruct (Z.eqb_spec x y) as [->|]; simpl; [|naive_solver].
  rewrite IH by lia. naive_solver.
Qed.

Definition cmp_sign (c : comparison) : Z := match c with Lt => -1 | Eq => 0 | Gt => 1 end.

Lemma words_compare_big a b :
  Forall word_ok a → Forall word_ok b → length a = length b →
  words_compare a b = cmp_sign (big a ?= big b).
Proof.
  intros Ha; revert b; induction Ha as [|x a [? ?] Ha IH]; intros b Hb Hl.
  { by destruct b. }
  destruct Hb as [|y b [? ?] Hb]; [done|]. simpl in *. rewrite IH by (done || lia).
  destruct (Z.compare_spec (big a) (big b)) as [E| |]; simpl.
  - rewrite E. destruct (Z.eqb_spec x y) as [->|]; simpl; [by rewrite Z.compare_refl|].
    destruct (Z.compare_spec (x + 2 ^ 64 * big b) (y + 2 ^ 64 * big b)); [lia| |].
    + destruct (Z.gtb_spec x y); simpl; lia.
    + destruct (Z.gtb_spec x y); simpl; lia.
  - destruct (Z.compare_spec (x + 2 ^ 64 * big a) (y + 2 ^ 64 * big b)); simpl; lia.
  - destruct (Z.compare_spec (x + 2 ^ 64 * big a) (y + 2 ^ 64 * big b)); simpl; lia.
Qed.

Lemma word_diff_zero w v : word_ok w → (Z.land w (wnot v) =? 0) = (Z.ldiff w v =? 0).
Proof. intros. by rewrite land_wnot. Qed.

Lemma ldiff_cons_zero x y a b :
  word_ok x → word_ok y → 0 ≤ a →
  Z.ldiff (x + 2 ^ 64 * a) (y + 2 ^ 64 * b) = 0 ↔ Z.ldiff x y = 0 ∧ Z.ldiff a b = 0.
Proof.
  intros Hx Hy Ha. rewrite ldiff_cons by done.
  pose proof (word_ok_ldiff x y Hx) as [? ?].
  assert (0 ≤ Z.ldiff a b) by (apply Z.ldiff_nonneg; auto). lia.
Qed.

Lemma words_nonempty_difference_spec a b :
  Forall word_ok a → Forall word_ok b → (length a ≤ length b)%nat →
  words_nonempty_difference a b = negb (Z.ldiff (big a) (big b) =? 0).
Proof.
  intros Ha; revert b; induction Ha as [|x a Hx Ha IH]; intros b Hb Hl; [done|].
  destruct Hb as [|y b Hy Hb]; cbn [words_nonempty_difference big length] in *; [lia|].
  rewrite word_diff_zero, IH by (done || lia). pose proof (big_nonneg _ Ha).
  pose proof (ldiff_cons_zero x y (big a) (big b) Hx Hy ltac:(done)).
  destruct (Z.eqb_spec (Z.ldiff x y) 0), (Z.eqb_spec (Z.ldiff (big a) (big b)) 0),
    (Z.eqb_spec (Z.ldiff (x + 2 ^ 64 * big a) (y + 2 ^ 64 * big b)) 0); simpl; tauto.
Qed.

Lemma words_overlap_spec a b :
  Forall word_ok a → Forall word_ok b → words_overlap a b = negb (Z.land (big a) (big b) =? 0).
Proof.
  intros Ha; revert b; induction Ha as [|x a Hx Ha IH]; intros b Hb; [done|].
  destruct Hb as [|y b Hy Hb]; cbn [words_overlap big]; [by rewrite Z.land_0_r|].
  rewrite IH, land_cons by done.
  assert (0 ≤ Z.land x y) by (apply Z.land_nonneg; unfold word_ok in *; lia).
  assert (0 ≤ Z.land (big a) (big b)) by (apply Z.land_nonneg; left; by apply big_nonneg).
  destruct (Z.eqb_spec (Z.land x y) 0), (Z.eqb_spec (Z.land (big a) (big b)) 0),
    (Z.eqb_spec (Z.land x y + 2 ^ 64 * Z.land (big a) (big b)) 0); simpl; lia.
Qed.

(** a set with more words is not contained in one with fewer *)
Lemma more_words_not_subset a b :
  bms_wf (Some a) → bms_wf (Some b) → nwords b < nwords a → Z.ldiff (big a) (big b) ≠ 0.
Proof.
  intros Ha [Hb _] Hl Hz. pose proof (wf_big_ge _ Ha). pose proof (big_lt _ Hb).
  apply Z.ldiff_le in Hz; [|by apply big_nonneg].
  assert (2 ^ (64 * nwords b) ≤ 2 ^ (64 * (nwords a - 1))); [|lia].
  apply Z.pow_le_mono_r; lia.
Qed.

(** the verdict of [bms_subset_compare] for two bit sets *)
Definition subset_verdict (d1 d2 : bool) : BMS_Comparison :=
  match d1, d2 with
  | false, false => BMS_EQUAL
  | false, true => BMS_SUBSET1
  | true, false => BMS_SUBSET2
  | true, true => BMS_DIFFERENT
  end.

Definition has_diff (x y : Z) : bool := negb (Z.ldiff x y =? 0).

Lemma has_diff_cons x y a b :
  word_ok x → word_ok y → 0 ≤ a →
  has_diff (x + 2 ^ 64 * a) (y + 2 ^ 64 * b) = has_diff x y || has_diff a b.
Proof.
  intros Hx Hy Ha. unfold has_diff. pose proof (ldiff_cons_zero x y a b Hx Hy Ha).
  destruct (Z.eqb_spec (Z.ldiff x y) 0), (Z.eqb_spec (Z.ldiff a b) 0),
    (Z.eqb_spec (Z.ldiff (x + 2 ^ 64 * a) (y + 2 ^ 64 * b)) 0); simpl; tauto.
Qed.

(** common words: the verdict accumulated over them *)
Lemma words_subset_compare_spec d1 d2 a b :
  Forall word_ok a → Forall word_ok b → d1 && d2 = false →
  words_subset_compare (subset_verdict d1 d2) a b
  = match subset_verdict (d1 || has_diff (big (take (length b) a)) (big b))
          (d2 || has_diff (big (take (length a) b)) (big a)) with
    | BMS_DIFFERENT => None
    | v => Some v
    end.
Proof.
  intros Ha; revert b d1 d2; induction Ha as [|x a Hx Ha IH]; intros b d1 d2 Hb Hd.
  { rewrite take_nil. destruct b, d1, d2; done. }
  destruct Hb as [|y b Hy Hb]; [destruct d1, d2; done|].
  assert (Forall word_ok (take (length b) a)) by (by apply Forall_take).
  assert (Forall word_ok (take (length a) b)) by (by apply Forall_take).
  cbn [length take big]. rewrite !has_diff_cons by auto using big_nonneg.
  cbn [words_subset_compare]. rewrite !word_diff_zero by done.
  fold (has_diff x y) (has_diff y x).
  destruct d1, d2, (has_diff x y), (has_diff y x); try done;
    first [ exact (IH b true false Hb eq_refl) | exact (IH b false true Hb eq_refl)
          | exact (IH b false false Hb eq_refl) ].
Qed.

(** ** Counting members *)

Lemma popcount_step z : 0 ≤ z → bmw_popcount z = Z.b2z (Z.odd z) + bmw_popcount (Z.div2 z).
Proof. intros. destruct z as [|[p|p|]|p]; simpl; lia. Qed.

Lemma popcount_split (k : nat) z :
  0 ≤ z → bmw_popcount z = bmw_popcount (z mod 2 ^ Z.of_nat k) + bmw_popcount (z / 2 ^ Z.of_nat k).
Proof.
  revert z; induction k as [|k IH]; intros z Hz.
  { change (2 ^ Z.of_nat 0) with 1. by rewrite Z.mod_1_r, Z.div_1_r. }
  rewrite (popcount_step z Hz), (IH (Z.div2 z)) by (by apply Z.div2_nonneg).
  rewrite Nat2Z.inj_succ, Z.pow_succ_r by lia.
  assert (0 < 2 ^ Z.of_nat k) by (apply Z.pow_pos_nonneg; lia).
  rewrite (popcount_step (z mod (2 * 2 ^ Z.of_nat k))) by (apply Z.mod_pos_bound; lia).
  rewrite !Z.div2_div, Z.div_div by lia.
  replace (z mod (2 * 2 ^ Z.of_nat k) / 2) with (z / 2 mod 2 ^ Z.of_nat k);
    [replace (Z.odd (z mod (2 * 2 ^ Z.of_nat k))) with (Z.odd z); [lia|]|].
  - rewrite Z.rem_mul_r by lia. rewrite Z.odd_add_mul_2.
    rewrite Zmod_odd. by destruct (Z.odd z).
  - rewrite Z.rem_mul_r by lia. rewrite Z.add_comm, Z.mul_comm, Z.div_add_l by lia.
    rewrite (Z.div_small (z mod 2)); [lia|]. apply Z.mod_pos_bound. lia.
Qed.

(** the members below [n], ascending *)
Definition bits_below (z n : Z) : list Z := filter (fun x => Z.testbit z x = true) (seqZ 0 n).

Lemma popcount_bits_below z (n : nat) :
  0 ≤ z → bmw_popcount (z mod 2 ^ Z.of_nat n) = Z.of_nat (length (bits_below z (Z.of_nat n))).
Proof.
  intros Hz. unfold bits_below. induction n as [|n IH].
  { change (2 ^ Z.of_nat 0) with 1. by rewrite Z.mod_1_r. }
  assert (0 < 2 ^ Z.of_nat n) by (apply Z.pow_pos_nonneg; lia).
  rewrite Nat2Z.inj_succ, Z.pow_succ_r, (Z.mul_comm 2) by lia.
  rewrite <- Z.add_1_r, seqZ_app, filter_app, length_app, Nat2Z.inj_add, <- IH by lia.
  rewrite (popcount_split n) by (apply Z.mod_pos_bound; lia).
  rewrite Z.rem_mul_r, (Z.mul_comm (2 ^ Z.of_nat n)), Z_mod_plus_full, Z.mod_mod by lia.
  rewrite Z.div_add, Z.div_small, Z.add_0_l by (lia || (apply Z.mod_pos_bound; lia)).
  rewrite <- Z.testbit_spec' by lia. f_equal. rewrite Z.add_0_l.
  change (seqZ (Z.of_nat n) 1) with [0 + Z.of_nat n]. rewrite Z.add_0_l.
  rewrite filter_cons, filter_nil. by destruct (Z.testbit z (Z.of_nat n)).
Qed.

Lemma words_popcount_big ws : Forall word_ok ws → words_popcount ws = bmw_popcount (big ws).
Proof.
  intros H. unfold words_popcount.
  enough (∀ acc, foldl (fun r w => if negb (w =? 0) then r + bmw_popcount w else r) acc ws
                 = acc + bmw_popcount (big ws)) as E by apply (E 0).
  induction H as [|w ws Hw Hws IH]; intros acc; [simpl; lia|]. cbn [foldl big].
  rewrite IH, (popcount_split 64 (w + 2 ^ 64 * big ws))
    by (pose proof (big_nonneg _ Hws); unfold word_ok in Hw; lia).
  change (Z.of_nat 64) with 64. rewrite (Z.mul_comm (2 ^ 64)), Z_mod_plus_full, Z.div_add by lia.
  unfold word_ok in Hw. rewrite Z.mod_small, Z.div_small, Z.add_0_l by lia.
  destruct (Z.eqb_spec w 0) as [->|]; simpl; lia.
Qed.

Lemma big_take_mod ws (k : nat) :
  Forall word_ok ws → big (take k ws) = big ws mod 2 ^ (64 * Z.of_nat k).
Proof.
  intros H. apply Z.bits_inj'. intros x Hx.
  destruct (Z.lt_ge_cases x (64 * Z.of_nat k)).
  - rewrite Z.mod_pow2_bits_low, !big_testbit by (auto using Forall_take; lia). f_equal.
    unfold word. rewrite !nth_lookup, lookup_take_lt; [done|].
    pose proof (WORD_BIT x). pose proof (BITNUM_range x). pose proof (WORDNUM_nonneg x Hx). lia.
  - rewrite Z.mod_pow2_bits_high, big_testbit by (auto using Forall_take; lia).
    rewrite word_out, Z.bits_0; [done|]. unfold nwords. rewrite length_take.
    pose proof (WORD_BIT x). pose proof (BITNUM_range x). lia.
Qed.

(** ** Lowest and highest members *)

Lemma ctz_pos_spec p :
  0 ≤ ctz_pos p ∧ Z.testbit (Zpos p) (ctz_pos p) = true
  ∧ ∀ i, 0 ≤ i < ctz_pos p → Z.testbit (Zpos p) i = false.
Proof.
  induction p as [p _|p (Hp & Hb & Hl)|]; simpl ctz_pos; [split_and!; auto; lia| |split_and!; auto; lia].
  change (Zpos p~0) with (2 * Zpos p). split_and!; [lia| |].
  - by rewrite Z.add_1_l, Z.double_bits_succ.
  - intros i Hi. destruct (Z.eq_dec i 0) as [->|]; [by rewrite Z.testbit_even_0|].
    replace i with (Z.succ (i - 1)) by lia. rewrite Z.double_bits_succ. apply Hl. lia.
Qed.

Lemma rightmost_one_pos_spec z :
  0 < z → 0 ≤ bmw_rightmost_one_pos z ∧ Z.testbit z (bmw_rightmost_one_pos z) = true
  ∧ ∀ i, 0 ≤ i < bmw_rightmost_one_pos z → Z.testbit z i = false.
Proof. destruct z; [lia| |lia]. intros _. apply ctz_pos_spec. Qed.

Lemma rightmost_unique z i :
  0 < z → 0 ≤ i → Z.testbit z i = true → (∀ j, 0 ≤ j < i → Z.testbit z j = false) →
  bmw_rightmost_one_pos z = i.
Proof.
  intros Hz Hi Hb Hl. destruct (rightmost_one_pos_spec z Hz) as (H0 & H1 & H2).
  destruct (Z.lt_trichotomy (bmw_rightmost_one_pos z) i) as [H|[H|H]]; [|done|].
  - by rewrite Hl in H1 by lia.
  - by rewrite H2 in Hb by lia.
Qed.

Lemma UINT64_ONES_spec i : 0 ≤ i → Z.testbit UINT64_ONES i = (i <? 64).
Proof. intros. unfold UINT64_ONES. by rewrite wnot_spec, Z.bits_0, andb_true_r. Qed.

Lemma land_ones w : word_ok w → Z.land w UINT64_ONES = w.
Proof.
  intros Hw. apply Z.bits_inj'. intros i Hi. rewrite Z.land_spec, UINT64_ONES_spec by done.
  destruct (Z.ltb_spec i 64); [by rewrite andb_true_r|].
  by rewrite (word_bits_high w) by done.
Qed.

(** the first one bit of an integer, if there is one *)
Definition lowest (z r : Z) : Prop :=
  0 ≤ r ∧ Z.testbit z r = true ∧ ∀ i, 0 ≤ i < r → Z.testbit z i = false.

Lemma lowest_shift B r : lowest B r → lowest (0 + 2 ^ 64 * B) (64 + r).
Proof.
  intros (H0 & Hb & Hl). assert (word_ok 0) by (unfold word_ok; lia). split_and!; [lia| |].
  - rewrite testbit_cons, (proj2 (Z.ltb_ge (64 + r) 64)) by (done || lia).
    by replace (64 + r - 64) with r by lia.
  - intros i Hi. rewrite testbit_cons by (done || lia).
    destruct (Z.ltb_spec i 64); [apply Z.bits_0|]. apply Hl. lia.
Qed.

Lemma lowest_word w B : word_ok w → w ≠ 0 → lowest (w + 2 ^ 64 * B) (bmw_rightmost_one_pos w).
Proof.
  intros Hw Hnz. destruct (rightmost_one_pos_spec w) as (H0 & Hb & Hl); [destruct Hw; lia|].
  assert (bmw_rightmost_one_pos w < 64) as Hlt.
  { destruct (Z.lt_ge_cases (bmw_rightmost_one_pos w) 64) as [|Hge]; [done|].
    by rewrite word_bits_high in Hb. }
  split_and!; [done| |].
  - rewrite testbit_cons by done. by apply Z.ltb_lt in Hlt as ->.
  - intros i Hi. rewrite testbit_cons by (done || lia).
    destruct (Z.ltb_spec i 64); [|lia]. by apply Hl.
Qed.

Lemma words_next_spec k ws :
  Forall word_ok ws →
  words_next k UINT64_ONES ws = -2 ∧ big ws = 0
  ∨ ∃ r, words_next k UINT64_ONES ws = 64 * k + r ∧ lowest (big ws) r.
Proof.
  intros H; revert k; induction H as [|w ws Hw Hws IH]; intros k; [by left|].
  cbn [words_next big]. rewrite land_ones by done.
  destruct (Z.eqb_spec w 0) as [->|Hnz]; simpl negb; cbv iota.
  - destruct (IH (k + 1)) as [[-> ->]|(r & -> & Hr)]; [left; split; lia|].
    right. exists (64 + r). split; [lia|]. by apply lowest_shift.
  - right. exists (bmw_rightmost_one_pos w).
    split; [unfold BITS_PER_BITMAPWORD; lia | by apply lowest_word].
Qed.

Lemma words_next_mask k mask w ws :
  word_ok w → 0 ≤ mask →
  words_next k mask (w :: ws) = words_next k UINT64_ONES (Z.land w mask :: ws).
Proof. intros. cbn [words_next]. rewrite (land_ones (Z.land w mask)); [done|]. by apply word_ok_land. Qed.

Lemma big_drop_testbit ws (k : nat) i :
  Forall word_ok ws → 0 ≤ i →
  Z.testbit (big (drop k ws)) i = Z.testbit (big ws) (i + 64 * Z.of_nat k).
Proof.
  intros H Hi. rewrite !big_testbit by (auto using Forall_drop; lia).
  replace (WORDNUM (i + 64 * Z.of_nat k)) with (WORDNUM i + Z.of_nat k).
  2:{ unfold WORDNUM, BITS_PER_BITMAPWORD. rewrite Z.mul_comm, Z.div_add by lia. done. }
  replace (BITNUM (i + 64 * Z.of_nat k)) with (BITNUM i).
  2:{ unfold BITNUM, BITS_PER_BITMAPWORD. rewrite Z.mul_comm, Z.mod_add by lia. done. }
  f_equal. unfold word. rewrite !nth_lookup, lookup_drop. repeat f_equal.
  pose proof (WORDNUM_nonneg i Hi). lia.
Qed.

Lemma next_mask_spec b i :
  0 ≤ b < 64 → 0 ≤ i →
  Z.testbit (uint64 (Z.shiftl UINT64_ONES b)) i = (b <=? i) && (i <? 64).
Proof.
  intros Hb Hi. unfold uint64. destruct (Z.ltb_spec i 64).
  - rewrite Z.mod_pow2_bits_low, Z.shiftl_spec, andb_true_r by lia.
    destruct (Z.leb_spec b i).
    + rewrite UINT64_ONES_spec by lia. apply Z.ltb_lt. lia.
    + apply Z.testbit_neg_r. lia.
  - rewrite Z.mod_pow2_bits_high by lia. by rewrite andb_false_r.
Qed.

(** clearing the bits of the first word below [b] *)
Lemma next_mask_bits w rest b i :
  word_ok w → 0 ≤ b < 64 → 0 ≤ i →
  Z.testbit (big (Z.land w (uint64 (Z.shiftl UINT64_ONES b)) :: rest)) i
  = (b <=? i) && Z.testbit (big (w :: rest)) i.
Proof.
  intros Hw Hb Hi. set (mask := uint64 _).
  assert (0 ≤ mask) by (apply Z.mod_pos_bound; lia).
  cbn [big]. rewrite !testbit_cons by (auto using word_ok_land).
  destruct (Z.ltb_spec i 64) as [Hlt|Hge].
  - unfold mask. rewrite Z.land_spec, next_mask_spec by done.
    apply Z.ltb_lt in Hlt as ->. rewrite andb_true_r. apply andb_comm.
  - rewrite (proj2 (Z.leb_le b i)) by lia. done.
Qed.

(** the scan from position [p] on finds the lowest member not below [p] *)
Lemma words_next_from ws p :
  Forall word_ok ws → 0 ≤ p →
  let r := words_next (WORDNUM p) (uint64 (Z.shiftl UINT64_ONES (BITNUM p)))
             (drop (Z.to_nat (WORDNUM p)) ws) in
  r = -2 ∧ (∀ x, p ≤ x → Z.testbit (big ws) x = false)
  ∨ p ≤ r ∧ Z.testbit (big ws) r = true ∧ ∀ x, p ≤ x < r → Z.testbit (big ws) x = false.
Proof.
  intros Hok Hp r. pose proof (WORD_BIT p) as Hpb. pose proof (BITNUM_range p) as Hb.
  pose proof (WORDNUM_nonneg p Hp) as Hk.
  assert (∀ x, p ≤ x → Z.testbit (big (drop (Z.to_nat (WORDNUM p)) ws)) (x - 64 * WORDNUM p)
                       = Z.testbit (big ws) x) as Hdrop.
  { intros x Hx. rewrite big_drop_testbit by (done || lia). f_equal. lia. }
  pose proof (Forall_drop _ (Z.to_nat (WORDNUM p)) _ Hok) as Hdok. subst r.
  destruct (drop (Z.to_nat (WORDNUM p)) ws) as [|w rest].
  { left. split; [done|]. intros x Hx. rewrite <- Hdrop by done. apply Z.bits_0. }
  inversion Hdok as [|? ? Hw Hrest]; subst.
  assert (0 ≤ uint64 (Z.shiftl UINT64_ONES (BITNUM p))) by (apply Z.mod_pos_bound; lia).
  rewrite words_next_mask by done. pose proof (fun i => next_mask_bits w rest _ i Hw Hb) as Hbits.
  destruct (words_next_spec (WORDNUM p) (Z.land w (uint64 (Z.shiftl UINT64_ONES (BITNUM p))) :: rest))
    as [[-> Hz]|(r & -> & Hr & Hrb & Hrl)].
  { constructor; [by apply word_ok_land|done]. }
  - left. split; [done|]. intros x Hx. rewrite <- Hdrop by done.
    specialize (Hbits (x - 64 * WORDNUM p) ltac:(lia)).
    by rewrite Hz, Z.bits_0, (proj2 (Z.leb_le _ _)) in Hbits by lia.
  - right. rewrite Hbits in Hrb by done. apply andb_prop in Hrb as [Hbr%Z.leb_le Hrb].
    split_and!; [lia | rewrite <- Hdrop by lia; by rewrite Z.add_simpl_l |].
    intros x Hx. rewrite <- Hdrop by lia. specialize (Hrl (x - 64 * WORDNUM p) ltac:(lia)).
    by rewrite Hbits, (proj2 (Z.leb_le _ _)) in Hrl by lia.
Qed.

(** the next member is the least one above the previous *)
Lemma next_member_spec a prev :
  bms_wf a → -1 ≤ prev →
  bms_next_member a prev = -2 ∧ (∀ x, prev < x → bms_in x a = false)
  ∨ prev < bms_next_member a prev ∧ bms_in (bms_next_member a prev) a = true
    ∧ ∀ x, prev < x < bms_next_member a prev → bms_in x a = false.
Proof.
  intros [Hok _] Hp. destruct a as [ws|]; [|left; split; [done|]; intros; apply Z.bits_0].
  unfold bms_in. cbn [bms_next_member bms_big].
  destruct (words_next_from ws (prev + 1)) as [[-> H]|(H1 & H2 & H3)]; [done|lia| |].
  - left. split; [done|]. intros x Hx. apply H. lia.
  - right. split; [lia|]. split; [done|]. intros x Hx. apply H3. lia.
Qed.

(** ** Downward scan *)

Definition highest (z r : Z) : Prop :=
  0 ≤ r ∧ Z.testbit z r = true ∧ ∀ i, r < i → Z.testbit z i = false.

Lemma highest_log2 z : 0 < z → highest z (Z.log2 z).
Proof.
  intros. split_and!; [apply Z.log2_nonneg | by apply Z.bit_log2 |].
  intros. apply Z.bits_above_log2; lia.
Qed.

Lemma words_prev_spec ws :
  Forall word_ok ws →
  words_prev (nwords ws - 1) UINT64_ONES (rev ws) = -2 ∧ big ws = 0
  ∨ highest (big ws) (words_prev (nwords ws - 1) UINT64_ONES (rev ws)).
Proof.
  induction ws as [|w pre IH] using rev_ind; intros H; [by left|].
  apply Forall_app in H as [Hpre Hw]. rewrite Forall_singleton in Hw. rewrite rev_app_distr. cbn [rev app words_prev].
  rewrite land_ones by done. pose proof (big_nonneg _ Hpre). pose proof Hw as [Hw0 Hw1].
  replace (nwords (pre ++ [w]) - 1) with (nwords pre) by (unfold nwords; rewrite length_app; simpl; lia).
  rewrite big_app. cbn [big]. destruct (Z.eqb_spec w 0) as [->|Hnz]; simpl negb; cbv iota.
  - replace (big pre + 2 ^ (64 * nwords pre) * (0 + 2 ^ 64 * 0)) with (big pre) by lia. by apply IH.
  - right. set (n := nwords pre). assert (0 ≤ n) by (unfold n, nwords; lia).
    pose proof (big_lt _ Hpre) as Hlt. fold n in Hlt.
    replace (n * BITS_PER_BITMAPWORD + bmw_leftmost_one_pos w)
      with (Z.log2 (big pre + 2 ^ (64 * n) * (w + 2 ^ 64 * 0))).
    { apply highest_log2. nia. }
    unfold bmw_leftmost_one_pos, BITS_PER_BITMAPWORD. rewrite Z.mul_0_r, Z.add_0_r, (Z.mul_comm n).
    apply Z.log2_unique; [pose proof (Z.log2_nonneg w); lia|].
    destruct (Z.log2_spec w) as [Hl Hu]; [lia|]. split.
    + rewrite Z.pow_add_r by (lia || apply Z.log2_nonneg). nia.
    + rewrite <- Z.add_succ_r, Z.pow_add_r by (lia || (pose proof (Z.log2_nonneg w); lia)). nia.
Qed.

Lemma words_prev_mask k mask w l :
  word_ok w → 0 ≤ mask →
  words_prev k mask (w :: l) = words_prev k UINT64_ONES (Z.land w mask :: l).
Proof. intros. cbn [words_prev]. rewrite (land_ones (Z.land w mask)); [done|]. by apply word_ok_land. Qed.

Lemma prev_mask_spec b i :
  0 ≤ b < 64 → 0 ≤ i →
  Z.testbit (Z.shiftr UINT64_ONES (BITS_PER_BITMAPWORD - (b + 1))) i = (i <=? b).
Proof.
  intros Hb Hi. unfold BITS_PER_BITMAPWORD.
  rewrite Z.shiftr_spec, UINT64_ONES_spec by lia.
  destruct (Z.leb_spec i b); [apply Z.ltb_lt | apply Z.ltb_ge]; lia.
Qed.

Lemma word_snoc pre w j :
  0 ≤ j → word (pre ++ [w]) j
  = if j <? nwords pre then word pre j else if j =? nwords pre then w else 0.
Proof.
  unfold word, nwords. intros Hj. destruct (Z.ltb_spec j (Z.of_nat (length pre))).
  - apply app_nth1. lia.
  - rewrite app_nth2 by lia. destruct (Z.eqb_spec j (Z.of_nat (length pre))) as [->|].
    + by rewrite Nat2Z.id, Nat.sub_diag.
    + apply nth_overflow. simpl. lia.
Qed.

(** clearing the bits of the last word above [b] *)
Lemma prev_mask_bits pre w b x :
  Forall word_ok pre → word_ok w → 0 ≤ b < 64 → 0 ≤ x →
  Z.testbit (big (pre ++ [Z.land w (Z.shiftr UINT64_ONES (BITS_PER_BITMAPWORD - (b + 1)))])) x
  = (x <=? 64 * nwords pre + b) && Z.testbit (big (pre ++ [w])) x.
Proof.
  intros Hpre Hw Hb Hx. set (mask := Z.shiftr _ _).
  assert (word_ok (Z.land w mask)).
  { apply word_ok_land; [done|]. apply Z.shiftr_nonneg. by destruct (wnot_ok 0). }
  assert (∀ v, word_ok v → Forall word_ok (pre ++ [v])) as Hok.
  { intros v Hv. apply Forall_app. by rewrite Forall_singleton. }
  rewrite !big_testbit by auto. rewrite !word_snoc by auto with lambda.
  pose proof (WORD_BIT x). pose proof (BITNUM_range x).
  destruct (Z.ltb_spec (WORDNUM x) (nwords pre)).
  { by rewrite (proj2 (Z.leb_le x _)) by lia. }
  destruct (Z.eqb_spec (WORDNUM x) (nwords pre)) as [Hxk|].
  - unfold mask. rewrite Z.land_spec, prev_mask_spec, andb_comm by lia. f_equal.
    destruct (Z.leb_spec (BITNUM x) b), (Z.leb_spec x (64 * nwords pre + b)); lia.
  - by rewrite Z.bits_0, andb_false_r.
Qed.

Lemma take_word_snoc ws k :
  0 ≤ k < nwords ws → take (Z.to_nat (k + 1)) ws = take (Z.to_nat k) ws ++ [word ws k].
Proof.
  unfold nwords, word. intros Hk. replace (Z.to_nat (k + 1)) with (S (Z.to_nat k)) by lia.
  apply take_S_r. rewrite nth_lookup.
  destruct (lookup_lt_is_Some_2 ws (Z.to_nat k)) as [v Hv]; [lia|]. by rewrite Hv.
Qed.

Lemma prev_mask_nonneg b : 0 ≤ Z.shiftr UINT64_ONES b.
Proof. apply Z.shiftr_nonneg. by destruct (wnot_ok 0). Qed.

Lemma words_prev_masked pre w b :
  Forall word_ok pre → word_ok w → 0 ≤ b < 64 →
  let p := 64 * nwords pre + b in
  let r := words_prev (nwords pre)
             (Z.shiftr UINT64_ONES (BITS_PER_BITMAPWORD - (b + 1))) (w :: rev pre) in
  let z := big (pre ++ [w]) in
  r = -2 ∧ (∀ x, 0 ≤ x ≤ p → Z.testbit z x = false)
  ∨ 0 ≤ r ≤ p ∧ Z.testbit z r = true ∧ ∀ x, r < x ≤ p → Z.testbit z x = false.
Proof.
  intros Hpre Hw Hb p r z. pose proof (prev_mask_bits pre w b) as Hbits. subst r.
  pose proof (prev_mask_nonneg (BITS_PER_BITMAPWORD - (b + 1))) as Hm0.
  set (mask := Z.shiftr _ _) in *. rewrite words_prev_mask by done.
  pose proof (words_prev_spec (pre ++ [Z.land w mask])) as Hspec.
  rewrite rev_app_distr in Hspec.
  replace (nwords (pre ++ [Z.land w mask]) - 1) with (nwords pre) in Hspec
    by (unfold nwords; rewrite length_app; simpl; lia).
  change (rev [Z.land w mask] ++ rev pre) with (Z.land w mask :: rev pre) in Hspec.
  set (r := words_prev _ _ _) in *.
  destruct Hspec as [[-> Hz]|(Hr & Hrb & Hrl)].
  { apply Forall_app. rewrite Forall_singleton. auto using word_ok_land. }
  - left. split; [done|]. intros x Hx. specialize (Hbits x Hpre Hw Hb ltac:(lia)).
    by rewrite Hz, Z.bits_0, (proj2 (Z.leb_le _ _)) in Hbits by lia.
  - right. rewrite Hbits in Hrb by done. apply andb_prop in Hrb as [Hle%Z.leb_le Hrb].
    split_and!; [lia|lia|done|]. intros x Hx. specialize (Hrl x ltac:(lia)).
    by rewrite Hbits, (proj2 (Z.leb_le _ _)) in Hrl by (done || lia).
Qed.

(** the downward scan from position [p] finds the highest member not above [p] *)
Lemma words_prev_from ws p :
  Forall word_ok ws → 0 ≤ p < 64 * nwords ws →
  let r := words_prev (WORDNUM p)
             (Z.shiftr UINT64_ONES (BITS_PER_BITMAPWORD - (BITNUM p + 1)))
             (rev (take (Z.to_nat (WORDNUM p + 1)) ws)) in
  r = -2 ∧ (∀ x, 0 ≤ x ≤ p → Z.testbit (big ws) x = false)
  ∨ 0 ≤ r ≤ p ∧ Z.testbit (big ws) r = true ∧ ∀ x, r < x ≤ p → Z.testbit (big ws) x = false.
Proof.
  intros Hok Hp. pose proof (WORD_BIT p) as Hpb. pose proof (BITNUM_range p) as Hb.
  pose proof (WORDNUM_nonneg p ltac:(lia)) as Hk. cbv zeta.
  assert (∀ x, 0 ≤ x ≤ p → Z.testbit (big (take (Z.to_nat (WORDNUM p + 1)) ws)) x
                           = Z.testbit (big ws) x) as Hlow.
  { intros x Hx. rewrite big_take_mod by done. apply Z.mod_pow2_bits_low. lia. }
  rewrite take_word_snoc in * by lia. set (pre := take (Z.to_nat (WORDNUM p)) ws) in *.
  assert (nwords pre = WORDNUM p) as Hn.
  { unfold pre, nwords in *. rewrite length_take. lia. }
  pose proof (words_prev_masked pre (word ws (WORDNUM p)) (BITNUM p)) as H.
  rewrite Hn, <- Hpb in H. rewrite rev_app_distr. cbn [rev app].
  destruct H as [[-> H]|(H1 & H2 & H3)];
    [by apply Forall_take | by apply word_ok_nth | done | left | right].
  - split; [done|]. intros x Hx. rewrite <- Hlow by done. by apply H.
  - split_and!; [lia|lia| by rewrite <- Hlow by lia |].
    intros x Hx. rewrite <- Hlow by lia. by apply H3.
Qed.

(** the previous member is the greatest one below the next *)
Lemma prev_member_spec ws prev :
  bms_wf (Some ws) → prev = -1 ∨ 0 ≤ prev ≤ 64 * nwords ws →
  let above x := prev = -1 ∨ x < prev in
  let r := bms_prev_member (Some ws) prev in
  r = -2 ∧ (∀ x, 0 ≤ x → above x → bms_in x (Some ws) = false)
  ∨ 0 ≤ r ∧ above r ∧ bms_in r (Some ws) = true
    ∧ ∀ x, r < x → above x → bms_in x (Some ws) = false.
Proof.
  intros Hwf Hp above r. unfold bms_in; cbn [bms_big]. subst r. cbn [bms_prev_member].
  destruct (Z.eqb_spec prev 0) as [->|]; [left; split; [done|]; unfold above; lia|].
  pose proof Hwf as [Hok _]. pose proof (big_lt _ Hok). pose proof (wf_big_pos _ Hwf).
  assert (0 < nwords ws) as Hn0.
  { apply wf_last in Hwf as (pre & w & -> & _). unfold nwords. rewrite length_app. simpl. lia. }
  assert (∀ x, 64 * nwords ws ≤ x → Z.testbit (big ws) x = false) as Hhigh.
  { intros x Hx. rewrite big_testbit by (done || lia). rewrite word_out; [apply Z.bits_0|].
    pose proof (WORD_BIT x). pose proof (BITNUM_range x). lia. }
  set (q := if prev =? -1 then nwords ws * BITS_PER_BITMAPWORD - 1 else prev - 1).
  assert (0 ≤ q < 64 * nwords ws ∧ (∀ x, x < 64 * nwords ws → above x ↔ x ≤ q)) as [Hq Hab].
  { unfold q, above, BITS_PER_BITMAPWORD. destruct (Z.eqb_spec prev (-1)); split; intros; lia. }
  destruct (words_prev_from ws q Hok Hq) as [[-> H1]|(H1 & H2 & H3)]; [left|right].
  - split; [done|]. intros x Hx Ha. destruct (Z.lt_ge_cases x (64 * nwords ws)); [|by apply Hhigh].
    apply H1. split; [done|]. by apply Hab.
  - split_and!; [lia | apply Hab; lia | done |]. intros x Hx Ha.
    destruct (Z.lt_ge_cases x (64 * nwords ws)); [|by apply Hhigh].
    apply H3. split; [done|]. by apply Hab.
Qed.

(** ** Well-formedness of results *)

Lemma nwords_app a b : nwords (a ++ b) = nwords a + nwords b.
Proof. unfold nwords. rewrite length_app. lia. Qed.

(** an array whose last word has a bit *)
Lemma wf_intro ws x :
  Forall word_ok ws → 0 ≤ x → WORDNUM x = nwords ws - 1 → Z.testbit (big ws) x = true →
  bms_wf (Some ws).
Proof.
  intros Hok Hx Hl Hb. rewrite big_testbit in Hb by done. split; [done|].
  cbn [bms_is_valid_set]. rewrite <- Hl. apply negb_true_iff, Z.eqb_neq. intros Hz.
  by rewrite Hz, Z.bits_0 in Hb.
Qed.

(** the highest member of a well-formed set lies in its last word *)
Lemma wf_top ws :
  bms_wf (Some ws) → ∃ x, 0 ≤ x ∧ WORDNUM x = nwords ws - 1 ∧ Z.testbit (big ws) x = true.
Proof.
  intros Hwf. pose proof (wf_big_pos _ Hwf) as Hpos. pose proof (wf_big_ge _ Hwf) as Hge.
  pose proof Hwf as [Hok _]. pose proof (big_lt _ Hok) as Hlt.
  apply wf_last in Hwf as (pre & w & -> & _). set (ws := pre ++ [w]) in *.
  assert (0 < nwords ws) by (unfold ws, nwords; rewrite length_app; simpl; lia).
  apply Z.log2_le_pow2 in Hge; [|done]. apply Z.log2_lt_pow2 in Hlt; [|done].
  exists (Z.log2 (big ws)). split_and!; [apply Z.log2_nonneg| |by apply Z.bit_log2].
  unfold WORDNUM, BITS_PER_BITMAPWORD. symmetry. apply (Z.div_unique_pos _ _ _ (Z.log2 (big ws) - 64 * (nwords ws - 1))); lia.
Qed.

(** setting bits keeps the last word non-zero *)
Lemma wf_grow ws ws' :
  bms_wf (Some ws) → Forall word_ok ws' → nwords ws' = nwords ws →
  (∀ x, 0 ≤ x → Z.testbit (big ws) x = true → Z.testbit (big ws') x = true) →
  bms_wf (Some ws').
Proof.
  intros (x & Hx & Hl & Hb)%wf_top Hok Hn Hi. apply (wf_intro ws' x); auto. by rewrite Hn.
Qed.

Lemma words_or_nwords a b : nwords (words_or a b) = nwords a.
Proof.
  unfold nwords. f_equal. revert b; induction a as [|x a IH]; intros [|y b]; simpl; auto.
Qed.

Lemma words_andnot_nwords a b : nwords (words_andnot a b) = nwords a.
Proof.
  unfold nwords. f_equal. revert b; induction a as [|x a IH]; intros [|y b]; simpl; auto.
Qed.

Lemma words_or_wf a b :
  bms_wf (Some a) → bms_wf (Some b) → nwords b ≤ nwords a →
  bms_wf (Some (words_or a b)) ∧ big (words_or a b) = Z.lor (big a) (big b).
Proof.
  intros Ha [Hb _] Hn. pose proof Ha as [Hao _].
  assert (big (words_or a b) = Z.lor (big a) (big b)) as E.
  { apply words_or_big; try done. unfold nwords in Hn. lia. }
  split; [|done]. apply (wf_grow a); auto using words_or_ok, words_or_nwords.
  intros x Hx Hb'. by rewrite E, Z.lor_spec, Hb'.
Qed.

(** removing the bits of a shorter set keeps the last word *)
Lemma words_andnot_wf a b :
  bms_wf (Some a) → bms_wf (Some b) → nwords b < nwords a →
  bms_wf (Some (words_andnot a b)) ∧ big (words_andnot a b) = Z.ldiff (big a) (big b).
Proof.
  intros Ha [Hb _] Hn. pose proof Ha as [Hao _].
  pose proof (words_andnot_big a b Hao Hb) as E. split; [|done].
  apply wf_top in Ha as (x & Hx & Hl & Hbit).
  apply (wf_intro _ x); auto using words_andnot_ok.
  { by rewrite words_andnot_nwords. }
  rewrite E, Z.ldiff_spec, Hbit. simpl. apply negb_true_iff.
  rewrite big_testbit, word_out by (done || lia). apply Z.bits_0.
Qed.

(** ** Single members *)

Lemma make_singleton_spec x :
  0 ≤ x → ∃ a, bms_make_singleton x = Ok a ∧ bms_wf a ∧ ∀ y, 0 ≤ y → bms_in y a = (y =? x).
Proof.
  intros Hx. unfold bms_make_singleton. destruct (Z.ltb_spec x 0); [lia|].
  eexists. split; [done|]. pose proof (BITNUM_range x) as Hb. pose proof (WORDNUM_nonneg x Hx).
  set (ws := repeat 0 _ ++ _).
  assert (nwords (repeat 0 (Z.to_nat (WORDNUM x))) = WORDNUM x) as Hn.
  { unfold nwords. rewrite repeat_length. lia. }
  assert (Forall word_ok ws) as Hok.
  { apply Forall_app. rewrite Forall_singleton. split; [apply repeat_zero_ok|].
    by apply singleton_word_ok. }
  assert (∀ y, 0 ≤ y → Z.testbit (big ws) y = (y =? x)) as Hbits.
  { intros y Hy. rewrite big_testbit by done. unfold ws. rewrite word_snoc, Hn by auto with lambda.
    pose proof (WORD_BIT x). pose proof (WORD_BIT y). pose proof (BITNUM_range y).
    destruct (Z.ltb_spec (WORDNUM y) (WORDNUM x)).
    { unfold word. rewrite nth_repeat, Z.bits_0. symmetry. apply Z.eqb_neq. nia. }
    destruct (Z.eqb_spec (WORDNUM y) (WORDNUM x)) as [E|].
    - rewrite shiftl1_spec by lia. destruct (Z.eqb_spec (BITNUM y) (BITNUM x)), (Z.eqb_spec y x); lia.
    - rewrite Z.bits_0. symmetry. apply Z.eqb_neq. nia. }
  split; [|done]. apply (wf_intro ws x); try done.
  - unfold ws. rewrite nwords_app, Hn. unfold nwords. simpl. lia.
  - rewrite Hbits by done. apply Z.eqb_refl.
Qed.

(** or-ing a mask into one word *)
Lemma word_or_bits ws i m y :
  Forall word_ok ws → word_ok m → 0 ≤ i < nwords ws → 0 ≤ y →
  Z.testbit (big (word_set ws i (Z.lor (word ws i) m))) y
  = Z.testbit (big ws) y || ((WORDNUM y =? i) && Z.testbit m (BITNUM y)).
Proof.
  intros Hok Hm Hi Hy. rewrite word_set_bits by (eauto using word_ok_nth with lambda).
  destruct (Z.eqb_spec (WORDNUM y) i) as [<-|]; simpl; [|by rewrite orb_false_r].
  by rewrite Z.lor_spec, (big_testbit ws y).
Qed.

Lemma bit_in_word x y :
  0 ≤ x → 0 ≤ y → (WORDNUM y =? WORDNUM x) && (BITNUM y =? BITNUM x) = (y =? x).
Proof.
  intros. pose proof (WORD_BIT x). pose proof (WORD_BIT y).
  destruct (Z.eqb_spec (WORDNUM y) (WORDNUM x)) as [E|E], (Z.eqb_spec (BITNUM y) (BITNUM x)) as [F|F],
    (Z.eqb_spec y x); simpl; try done; try lia; subst; congruence.
Qed.

Lemma add_member_spec a x :
  bms_wf a → 0 ≤ x →
  ∃ a', bms_add_member a x = Ok a' ∧ bms_wf a' ∧ ∀ y, 0 ≤ y → bms_in y a' = bms_in y a || (y =? x).
Proof.
  intros Hwf Hx. unfold bms_add_member. destruct (Z.ltb_spec x 0); [lia|].
  destruct a as [ws|].
  2:{ destruct (make_singleton_spec x Hx) as (a' & -> & Hwf' & Hin). exists a'.
      split_and!; try done. intros y Hy. rewrite Hin by done.
      unfold bms_in. simpl. by rewrite Z.bits_0. }
  eexists. split; [done|]. pose proof Hwf as [Hok _].
  pose proof (BITNUM_range x) as Hb. pose proof (WORDNUM_nonneg x Hx) as Hk.
  destruct (enlarge_spec ws (WORDNUM x + 1) Hok) as (Heok & Heb & Hen).
  set (es := enlarge _ _) in *. set (r := word_set _ _ _).
  assert (∀ y, 0 ≤ y → Z.testbit (big r) y = Z.testbit (big ws) y || (y =? x)) as Hbits.
  { intros y Hy. unfold r. rewrite word_or_bits by (auto using singleton_word_ok; lia).
    rewrite shiftl1_spec, bit_in_word, Heb by (auto with lambda; apply BITNUM_range). done. }
  split; [|done].
  assert (Forall word_ok r) as Hrok.
  { apply word_set_ok; [done|]. apply word_ok_lor; [by apply word_ok_nth|by apply singleton_word_ok]. }
  assert (nwords r = nwords es) as Hrn by apply word_set_nwords.
  destruct (Z.lt_ge_cases (WORDNUM x) (nwords ws)).
  - apply (wf_grow ws); try done; [lia|]. intros y Hy Hyb. by rewrite Hbits, Hyb.
  - apply (wf_intro r x); try done; [lia|]. by rewrite Hbits, Z.eqb_refl, orb_true_r.
Qed.

(** clearing the bits of a mask in one word *)
Lemma word_andnot_bits ws i m y :
  Forall word_ok ws → 0 ≤ i < nwords ws → 0 ≤ y →
  Z.testbit (big (word_set ws i (Z.land (word ws i) (wnot m)))) y
  = Z.testbit (big ws) y && negb ((WORDNUM y =? i) && Z.testbit m (BITNUM y)).
Proof.
  intros Hok Hi Hy. pose proof (word_ok_nth ws i Hok). rewrite land_wnot by done.
  rewrite word_set_bits by (eauto with lambda).
  destruct (Z.eqb_spec (WORDNUM y) i) as [<-|]; simpl; [|by rewrite andb_true_r].
  by rewrite Z.ldiff_spec, (big_testbit ws y).
Qed.

Lemma word_andnot_ok ws i m : Forall word_ok ws → Forall word_ok (word_set ws i (Z.land (word ws i) (wnot m))).
Proof.
  intros Hok. apply word_set_ok; [done|]. rewrite land_wnot by (by apply word_ok_nth).
  apply word_ok_ldiff. by apply word_ok_nth.
Qed.

(** dropping a last word that has become zero *)
Lemma drop_zero_word ws k :
  0 ≤ k → k = nwords ws - 1 → word ws k = 0 → big (take (Z.to_nat k) ws) = big ws.
Proof.
  intros Hk Hl Hz. rewrite <- (take_drop (Z.to_nat k) ws) at 2.
  rewrite big_app_zeros; [done|].
  assert (ws = take (Z.to_nat (k + 1)) ws) as E by (rewrite take_ge; [done|unfold nwords in *; lia]).
  rewrite E, take_word_snoc, drop_app_length' by
    (lia || (rewrite length_take; unfold nwords in *; lia)).
  rewrite Hz. by repeat constructor.
Qed.

Lemma del_member_spec a x :
  bms_wf a → 0 ≤ x →
  ∃ a', bms_del_member a x = Ok a' ∧ bms_wf a'
        ∧ ∀ y, 0 ≤ y → bms_in y a' = bms_in y a && negb (y =? x).
Proof.
  intros Hwf Hx. unfold bms_del_member. destruct (Z.ltb_spec x 0); [lia|].
  destruct a as [ws|].
  2:{ exists None. split_and!; try done. intros y Hy. unfold bms_in; simpl. by rewrite Z.bits_0. }
  pose proof Hwf as [Hok _]. pose proof (WORDNUM_nonneg x Hx) as Hk. unfold bms_in; cbn [bms_big].
  rewrite Z.geb_leb. destruct (Z.leb_spec (nwords ws) (WORDNUM x)) as [Hout|Hin].
  { exists (Some ws). split_and!; try done. intros y Hy. cbn [bms_big].
    destruct (Z.eqb_spec y x) as [->|]; [|by rewrite andb_true_r].
    rewrite andb_false_r, big_testbit, word_out by done. apply Z.bits_0. }
  pose proof (word_andnot_ok ws (WORDNUM x) (Z.shiftl 1 (BITNUM x)) Hok) as Hrok.
  pose proof (fun y => word_andnot_bits ws (WORDNUM x) (Z.shiftl 1 (BITNUM x)) y Hok (conj Hk Hin)) as Hbits.
  set (r := word_set _ _ _) in *. assert (nwords r = nwords ws) as Hrn by apply word_set_nwords.
  assert (∀ y, 0 ≤ y → Z.testbit (big r) y = Z.testbit (big ws) y && negb (y =? x)) as Hb.
  { intros y Hy. rewrite Hbits, shiftl1_spec, bit_in_word by (done || apply BITNUM_range). done. }
  destruct ((word r (WORDNUM x) =? 0) && (WORDNUM x =? nwords r - 1)) eqn:E.
  - apply andb_prop in E as [Hz%Z.eqb_eq Hl%Z.eqb_eq]. eexists. split; [done|].
    destruct (trim_or_null_spec (take (Z.to_nat (WORDNUM x)) r)) as [Hw ->];
      [by apply Forall_take|]. split; [done|]. by rewrite drop_zero_word.
  - exists (Some r). split; [done|]. split; [|done]. split; [done|].
    cbn [bms_is_valid_set]. apply negb_true_iff.
    destruct (Z.eqb_spec (WORDNUM x) (nwords r - 1)) as [<-|Hne]; [by rewrite andb_true_r in E|].
    destruct (wf_top ws Hwf) as (t & Ht & Htl & Htb).
    apply Z.eqb_neq. intros Hz. rewrite Hrn, <- Htl in Hz. specialize (Hb t Ht).
    rewrite Htb, big_testbit, Hz, Z.bits_0 in Hb by done.
    destruct (Z.eqb_spec t x) as [Htx|]; [rewrite Htx in Htl; congruence|done].
Qed.

(** ** Ranges *)

Lemma range_lmask_spec lower i :
  0 ≤ i → Z.testbit (range_lmask lower) i = (i <? 64) && (BITNUM lower <=? i).
Proof.
  intros Hi. pose proof (BITNUM_range lower). unfold range_lmask.
  rewrite wnot_spec by done. f_equal.
  change (Z.shiftl 1 (BITNUM lower) - 1) with (Z.ones (BITNUM lower)).
  rewrite Z.testbit_ones_nonneg by lia. destruct (Z.ltb_spec i (BITNUM lower)), (Z.leb_spec (BITNUM lower) i); lia.
Qed.

Lemma range_umask_spec upper i : 0 ≤ i → Z.testbit (range_umask upper) i = (i <=? BITNUM upper).
Proof. intros Hi. apply prev_mask_spec; [apply BITNUM_range|done]. Qed.

Lemma range_umask_ok upper : word_ok (range_umask upper).
Proof.
  apply word_ok_bits; [apply prev_mask_nonneg|]. intros i Hi.
  rewrite range_umask_spec by lia. pose proof (BITNUM_range upper). apply Z.leb_gt. lia.
Qed.

(** the loop that sets whole words *)
Definition fill_words (ws : list Z) (js : list Z) : list Z :=
  foldl (fun ws i => word_set ws i UINT64_ONES) ws js.

Lemma fill_words_spec ws js :
  Forall word_ok ws → Forall (fun j => 0 ≤ j < nwords ws) js →
  Forall word_ok (fill_words ws js) ∧ nwords (fill_words ws js) = nwords ws
  ∧ ∀ y, 0 ≤ y → Z.testbit (big (fill_words ws js)) y
                 = Z.testbit (big ws) y || bool_decide (WORDNUM y ∈ js).
Proof.
  intros Hok Hjs; revert ws Hok Hjs; induction js as [|j js IH]; intros ws Hok Hjs.
  { split_and!; try done. intros y Hy. by rewrite orb_false_r. }
  inversion Hjs as [|? ? Hj Hjs']; subst. cbn [fill_words foldl]. fold (fill_words (word_set ws j UINT64_ONES) js).
  pose proof (wnot_ok 0 : word_ok UINT64_ONES) as Hones.
  destruct (IH (word_set ws j UINT64_ONES)) as (H1 & H2 & H3).
  { by apply word_set_ok. } { by rewrite word_set_nwords. }
  rewrite word_set_nwords in H2. split_and!; try done. intros y Hy.
  rewrite H3, word_set_bits, UINT64_ONES_spec by (done || apply BITNUM_range).
  pose proof (BITNUM_range y). rewrite (proj2 (Z.ltb_lt _ _)) by lia.
  destruct (Z.eqb_spec (WORDNUM y) j) as [E|Hne].
  - rewrite (bool_decide_eq_true_2 (WORDNUM y ∈ j :: js)) by set_solver. by rewrite orb_true_r.
  - f_equal. apply bool_decide_ext. set_solver.
Qed.

(** the bits the three masks of [bms_add_range] set *)
Lemma range_bits lower upper y :
  0 ≤ lower → lower ≤ upper → 0 ≤ y →
  (if WORDNUM lower =? WORDNUM upper
   then (WORDNUM y =? WORDNUM lower)
        && Z.testbit (Z.land (range_lmask lower) (range_umask upper)) (BITNUM y)
   else ((WORDNUM y =? WORDNUM lower) && Z.testbit (range_lmask lower) (BITNUM y))
        || bool_decide (WORDNUM lower + 1 ≤ WORDNUM y < WORDNUM upper)
        || ((WORDNUM y =? WORDNUM upper) && Z.testbit (range_umask upper) (BITNUM y)))
  = (lower <=? y) && (y <=? upper).
Proof.
  intros Hl Hlu Hy. pose proof (BITNUM_range y) as Hby.
  pose proof (BITNUM_range lower). pose proof (BITNUM_range upper).
  pose proof (WORD_BIT y). pose proof (WORD_BIT lower). pose proof (WORD_BIT upper).
  rewrite Z.land_spec, range_lmask_spec, range_umask_spec by lia.
  rewrite (proj2 (Z.ltb_lt (BITNUM y) 64)) by lia. simpl andb.
  destruct (Z.leb_spec (BITNUM lower) (BITNUM y)), (Z.leb_spec (BITNUM y) (BITNUM upper)),
    (Z.leb_spec lower y), (Z.leb_spec y upper),
    (Z.eqb_spec (WORDNUM lower) (WORDNUM upper)), (Z.eqb_spec (WORDNUM y) (WORDNUM lower)),
    (Z.eqb_spec (WORDNUM y) (WORDNUM upper)),
    (bool_decide_reflect (WORDNUM lower + 1 ≤ WORDNUM y < WORDNUM upper)); simpl; (done || lia).
Qed.

Lemma words_add_range_spec ws lower upper :
  Forall word_ok ws → 0 ≤ lower ≤ upper → WORDNUM upper < nwords ws →
  Forall word_ok (words_add_range ws lower upper)
  ∧ nwords (words_add_range ws lower upper) = nwords ws
  ∧ ∀ y, 0 ≤ y → Z.testbit (big (words_add_range ws lower upper)) y
                 = Z.testbit (big ws) y || ((lower <=? y) && (y <=? upper)).
Proof.
  intros Hok [Hl Hlu] Hn. unfold words_add_range. pose proof (WORDNUM_nonneg lower Hl) as Hlw.
  assert (WORDNUM lower ≤ WORDNUM upper) as Hlw'
    by (apply Z.div_le_mono; unfold BITS_PER_BITMAPWORD; lia).
  pose proof (range_umask_ok upper) as Hu.
  pose proof (wnot_ok (Z.shiftl 1 (BITNUM lower) - 1) : word_ok (range_lmask lower)) as Hm.
  assert (word_ok (Z.land (range_lmask lower) (range_umask upper)))
    by (apply word_ok_land; [done|by destruct Hu]).
  pose proof (fun y => range_bits lower upper y Hl Hlu) as Hr.
  assert (∀ ws i m, Forall word_ok ws → word_ok m → Forall word_ok (word_set ws i (Z.lor (word ws i) m))) as Hset.
  { intros. apply word_set_ok; [done|]. apply word_ok_lor; [by apply word_ok_nth|done]. }
  destruct (WORDNUM lower =? WORDNUM upper) eqn:E.
  { split_and!; [by apply Hset | apply word_set_nwords |].
    intros y Hy. rewrite word_or_bits, Hr by (done || lia). done. }
  apply Z.eqb_neq in E. set (ws1 := word_set ws (WORDNUM lower) _).
  assert (nwords ws1 = nwords ws) as Hn1 by apply word_set_nwords.
  destruct (fill_words_spec ws1 (seqZ (WORDNUM lower + 1) (WORDNUM upper - (WORDNUM lower + 1))))
    as (H2 & Hn2 & Hb2).
  { by apply Hset. } { apply Forall_forall. intros j [? ?]%elem_of_seqZ. lia. }
  unfold fill_words in *. set (ws2 := foldl _ _ _) in *.
  split_and!; [by apply Hset | rewrite word_set_nwords; congruence |].
  intros y Hy. rewrite word_or_bits, Hb2 by (done || lia).
  unfold ws1. rewrite word_or_bits, <- Hr by (done || lia).
  rewrite <- !orb_assoc. do 2 f_equal. f_equal. apply bool_decide_ext. rewrite elem_of_seqZ. lia.
Qed.

Lemma add_range_spec a lower upper :
  bms_wf a → 0 ≤ lower ≤ upper →
  ∃ a', bms_add_range a lower upper = Ok a' ∧ bms_wf a'
        ∧ ∀ y, 0 ≤ y → bms_in y a' = bms_in y a || ((lower <=? y) && (y <=? upper)).
Proof.
  intros Hwf Hlu. unfold bms_add_range.
  destruct (Z.ltb_spec upper lower); [lia|]. destruct (Z.ltb_spec lower 0); [lia|].
  set (ws := match a with None => _ | Some ws => _ end).
  assert (Forall word_ok ws ∧ big ws = bms_big a
          ∧ nwords ws = Z.max (WORDNUM upper + 1) (match a with None => 0 | Some w => nwords w end))
    as (Hok & Hbig & Hn).
  { destruct a as [w|]; [apply enlarge_spec; apply Hwf|]. unfold ws.
    pose proof (WORDNUM_nonneg upper ltac:(lia)). split_and!.
    - apply repeat_zero_ok. - apply big_zeros, repeat_zero_eq.
    - unfold nwords. rewrite repeat_length. lia. }
  destruct (words_add_range_spec ws lower upper Hok Hlu) as (Hrok & Hrn & Hbits); [lia|].
  set (r := words_add_range ws lower upper) in *. exists (Some r). split; [done|].
  unfold bms_in. rewrite <- Hbig. split; [|done].
  assert (nwords ws = WORDNUM upper + 1 → bms_wf (Some r)) as Htop.
  { intros Hw. apply (wf_intro r upper); [done|lia|lia|]. rewrite Hbits by lia.
    by rewrite (proj2 (Z.leb_le lower upper)), Z.leb_refl, orb_true_r by lia. }
  destruct a as [w|]; [destruct (Z.lt_ge_cases (WORDNUM upper) (nwords w))|]; [|apply Htop; lia|apply Htop].
  - apply (wf_grow w); try done; [lia|]. intros y Hy Hb. rewrite Hbits, Hbig by done. simpl. by rewrite Hb.
  - pose proof (WORDNUM_nonneg upper ltac:(lia)). lia.
Qed.

(** ** One member or several *)

Lemma popcount_pos_ge p : 1 ≤ popcount_pos p.
Proof. induction p; simpl; lia. Qed.

Lemma popcount_one_iff p : popcount_pos p = 1 ↔ Zpos p = 2 ^ ctz_pos p.
Proof.
  pose proof (ctz_pos_spec p) as [Hc _]. induction p as [p IH|p IH|]; simpl popcount_pos; simpl ctz_pos.
  - pose proof (popcount_pos_ge p). split; [lia|]. change (2 ^ 0) with 1. lia.
  - pose proof (ctz_pos_spec p) as [Hc' _]. rewrite IH by done.
    rewrite Z.pow_add_r by lia. change (Zpos p~0) with (2 * Zpos p). lia.
  - done.
Qed.

Lemma land_opp_pos p : Z.land (Zpos p) (- Zpos p) = 2 ^ ctz_pos p.
Proof.
  induction p as [p IH|p IH|]; [| |done].
  - simpl ctz_pos. change (Zpos p~1) with (2 * Zpos p + 1).
    replace (- (2 * Zpos p + 1)) with (2 * Z.lnot (Zpos p) + 1) by (unfold Z.lnot; lia).
    apply Z.bits_inj'. intros i Hi. rewrite Z.land_spec.
    destruct (Z.eq_dec i 0) as [->|]; [by rewrite !Z.testbit_odd_0|].
    replace i with (Z.succ (i - 1)) by lia. rewrite !Z.testbit_odd_succ, Z.lnot_spec by lia.
    change (2 ^ 0) with 1. rewrite andb_negb_r, (Z.bits_above_log2 1); simpl; lia.
  - simpl ctz_pos. change (Zpos p~0) with (2 * Zpos p).
    replace (- (2 * Zpos p)) with (2 * - Zpos p) by lia.
    rewrite Z.pow_add_r, <- IH by (pose proof (ctz_pos_spec p); lia).
    change (2 ^ 1) with 2. apply Z.bits_inj'. intros i Hi. rewrite Z.land_spec.
    destruct (Z.eq_dec i 0) as [->|]; [by rewrite !Z.testbit_even_0|].
    replace i with (Z.succ (i - 1)) by lia. by rewrite !Z.testbit_even_succ, Z.land_spec by lia.
Qed.

(** the trick of [RIGHTMOST_ONE] detects a second bit *)
Lemma has_multiple_ones_spec w :
  word_ok w → w ≠ 0 → HAS_MULTIPLE_ONES w = negb (bmw_popcount w =? 1).
Proof.
  intros Hw Hnz. destruct w as [|p|p]; [done| |by destruct Hw]. unfold HAS_MULTIPLE_ONES. f_equal.
  assert (RIGHTMOST_ONE (Zpos p) = 2 ^ ctz_pos p) as ->.
  { rewrite <- land_opp_pos. unfold RIGHTMOST_ONE, uint64. apply Z.bits_inj'. intros i Hi.
    rewrite !Z.land_spec. destruct (Z.lt_ge_cases i 64).
    - by rewrite Z.mod_pow2_bits_low by lia.
    - by rewrite (word_bits_high (Zpos p)) by done. }
  simpl bmw_popcount. destruct (Z.eqb_spec (popcount_pos p) 1) as [E|E].
  - apply popcount_one_iff in E. apply Z.eqb_eq. done.
  - apply Z.eqb_neq. intros Hp. apply E. apply popcount_one_iff. done.
Qed.

Lemma popcount_cons w ws :
  word_ok w → Forall word_ok ws →
  bmw_popcount (big (w :: ws)) = bmw_popcount w + bmw_popcount (big ws).
Proof.
  intros Hw Hws.
  rewrite (popcount_split 64 (big (w :: ws))) by (apply big_nonneg; by constructor).
  change (Z.of_nat 64) with 64. cbn [big]. unfold word_ok in Hw.
  rewrite (Z.mul_comm (2 ^ 64)), Z_mod_plus_full, Z.div_add by lia.
  by rewrite Z.mod_small, Z.div_small, Z.add_0_l by lia.
Qed.

Lemma popcount_nonneg z : 0 ≤ bmw_popcount z.
Proof. destruct z as [|p|p]; simpl; [lia| |lia]. pose proof (popcount_pos_ge p). lia. Qed.

Lemma popcount_zero z : 0 ≤ z → bmw_popcount z = 0 → z = 0.
Proof. destruct z as [|p|p]; [done| |lia]. simpl. pose proof (popcount_pos_ge p). lia. Qed.

Lemma popcount_pos_of z : 0 < z → 1 ≤ bmw_popcount z.
Proof. destruct z as [|p|p]; [lia| |lia]. intros _. apply popcount_pos_ge. Qed.

(** the classification of a set by its number of members *)
Definition membership_of (n : Z) : BMS_Membership :=
  if n =? 0 then BMS_EMPTY_SET else if n =? 1 then BMS_SINGLETON else BMS_MULTIPLE.

Lemma words_membership_spec ws r :
  Forall word_ok ws →
  words_membership r ws
  = match r with
    | BMS_EMPTY_SET => membership_of (bmw_popcount (big ws))
    | BMS_SINGLETON => membership_of (1 + bmw_popcount (big ws))
    | BMS_MULTIPLE => BMS_MULTIPLE
    end.
Proof.
  intros H; revert r; induction H as [|w ws Hw Hws IH]; intros r; [by destruct r|].
  cbn [words_membership]. rewrite popcount_cons by done.
  pose proof (popcount_nonneg (big ws)).
  destruct (Z.eqb_spec w 0) as [->|Hnz]; simpl negb; cbv iota.
  { rewrite IH. by destruct r. }
  assert (1 ≤ bmw_popcount w) by (apply popcount_pos_of; destruct Hw; lia).
  rewrite has_multiple_ones_spec by done. unfold membership_of in *. destruct r.
  - destruct (Z.eqb_spec (bmw_popcount w) 1) as [->|]; simpl negb; cbv iota; [by rewrite IH|].
    rewrite !(proj2 (Z.eqb_neq _ _)) by lia. done.
  - rewrite !(proj2 (Z.eqb_neq _ _)) by lia. done.
  - done.
Qed.

Lemma words_singleton_done k r ws :
  0 ≤ r → Forall word_ok ws →
  words_singleton k r ws = if big ws =? 0 then Some r else None.
Proof.
  intros Hr H; revert k; induction H as [|w ws Hw Hws IH]; intros k; [done|].
  cbn [words_singleton big]. pose proof (big_nonneg _ Hws). pose proof Hw as [? ?].
  destruct (Z.eqb_spec w 0) as [->|]; simpl negb; cbv iota.
  - rewrite IH. destruct (Z.eqb_spec (big ws) 0), (Z.eqb_spec (0 + 2 ^ 64 * big ws) 0); (done || lia).
  - rewrite Z.geb_leb, (proj2 (Z.leb_le 0 r)) by done. simpl.
    by rewrite (proj2 (Z.eqb_neq (w + _) 0)) by lia.
Qed.

(** the position of a singleton's member *)
Lemma words_singleton_spec k ws :
  0 ≤ k → Forall word_ok ws →
  match words_singleton k (-1) ws with
  | Some r => big ws = 0 ∧ r = -1 ∨ bmw_popcount (big ws) = 1 ∧ lowest (big ws) (r - 64 * k)
  | None => 1 < bmw_popcount (big ws)
  end.
Proof.
  intros Hk H; revert k Hk; induction H as [|w ws Hw Hws IH]; intros k Hk; [by left|].
  cbn [words_singleton]. rewrite popcount_cons by done. pose proof (big_nonneg _ Hws) as Hb0.
  pose proof (popcount_nonneg (big ws)).
  destruct (Z.eqb_spec w 0) as [->|Hnz]; simpl negb; cbv iota.
  { specialize (IH (k + 1) ltac:(lia)). destruct (words_singleton (k + 1) (-1) ws) as [r|]; [|done].
    destruct IH as [[Hz ->]|[Hp Hr%lowest_shift]]; [left; cbn [big]; lia|].
    right. split; [done|]. cbn [big]. by replace (r - 64 * k) with (64 + (r - 64 * (k + 1))) by lia. }
  assert (1 ≤ bmw_popcount w) by (apply popcount_pos_of; destruct Hw; lia).
  rewrite has_multiple_ones_spec by done. change (-1 >=? 0) with false. simpl orb.
  destruct (Z.eqb_spec (bmw_popcount w) 1) as [Hp|]; simpl negb; cbv iota; [|lia].
  pose proof (lowest_word w (big ws) Hw Hnz) as Hlow. pose proof Hlow as [? _].
  rewrite words_singleton_done by (done || unfold BITS_PER_BITMAPWORD; lia).
  destruct (Z.eqb_spec (big ws) 0) as [Hz|Hz].
  - right. split; [by rewrite Hp, Hz|]. cbn [big].
    unfold BITS_PER_BITMAPWORD. by replace (k * 64 + bmw_rightmost_one_pos w - 64 * k)
      with (bmw_rightmost_one_pos w) by lia.
  - pose proof (popcount_pos_of (big ws)). lia.
Qed.
