(* ===== verification/BitmapsetTheorems.v ===== *)
(** * Correctness of the bitmap sets

    The word arrays of [Bitmapset.v] implement finite sets of non-negative
    integers: the membership function [bms_in] commutes with every operation,
    the predicates decide the set relations, and the scans enumerate the
    members in order. *)

From S2P Require Import Prelude Bitmapset BitmapsetFacts.

(** [r] is a well-formed set whose members are given by [op] *)
Definition set_is (r : Bitmapset) (op : Z → bool) : Prop :=
  bms_wf r ∧ ∀ x, 0 ≤ x → bms_in x r = op x.

Definition result_is (r : outcome Bitmapset) (op : Z → bool) : Prop :=
  ∃ a, r = Ok a ∧ set_is a op.

(** a result whose integer is a bitwise combination *)
Lemma set_is_big r z op :
  bms_wf r → bms_big r = z → (∀ x, 0 ≤ x → Z.testbit z x = op x) → set_is r op.
Proof. intros Hwf <- H. split; [done|]. intros x Hx. by apply H. Qed.

Lemma union_spec a b :
  bms_wf (Some a) → bms_wf (Some b) →
  ∀ r, (nwords b ≤ nwords a ∧ r = words_or a b ∨ nwords a ≤ nwords b ∧ r = words_or b a) →
  set_is (Some r) (fun x => bms_in x (Some a) || bms_in x (Some b)).
Proof.
  intros Ha Hb r [[Hn ->]|[Hn ->]].
  - destruct (words_or_wf a b Ha Hb Hn) as [Hwf E].
    apply (set_is_big _ _ _ Hwf E). intros. apply Z.lor_spec.
  - destruct (words_or_wf b a Hb Ha Hn) as [Hwf E].
    apply (set_is_big _ _ _ Hwf E). intros. rewrite Z.lor_spec. apply orb_comm.
Qed.

Lemma intersect_spec a b :
  bms_wf (Some a) → bms_wf (Some b) →
  set_is (trim_or_null (words_and a b)) (fun x => bms_in x (Some a) && bms_in x (Some b)).
Proof.
  intros [Ha _] [Hb _]. destruct (trim_or_null_spec _ (words_and_ok a b Ha Hb)) as [Hwf E].
  rewrite words_and_big in E by done. apply (set_is_big _ _ _ Hwf E). intros. apply Z.land_spec.
Qed.

Lemma difference_spec a b r :
  bms_wf r → bms_big r = Z.ldiff (big a) (big b) →
  set_is r (fun x => bms_in x (Some a) && negb (bms_in x (Some b))).
Proof. intros Hwf E. apply (set_is_big _ _ _ Hwf E). intros. apply Z.ldiff_spec. Qed.

Lemma nonempty_difference_big a b :
  bms_wf (Some a) → bms_wf (Some b) →
  bms_nonempty_difference (Some a) (Some b) = has_diff (big a) (big b).
Proof.
  intros Ha Hb. cbn [bms_nonempty_difference]. destruct (Z.gtb_spec (nwords a) (nwords b)).
  - symmetry. apply negb_true_iff, Z.eqb_neq. by apply more_words_not_subset.
  - apply words_nonempty_difference_spec; [apply Ha|apply Hb|unfold nwords in *; lia].
Qed.

Lemma empty_set_is a : bms_wf a → set_is a (fun x => bms_in x a).
Proof. by split. Qed.

Lemma set_is_ext r op op' : set_is r op → (∀ x, 0 ≤ x → op x = op' x) → set_is r op'.
Proof. intros [Hwf H] E. split; [done|]. intros x Hx. rewrite H by done. by apply E. Qed.

Lemma in_none x : bms_in x None = false.
Proof. apply Z.bits_0. Qed.

(** a NULL operand *)
Ltac null_case :=
  first [ eapply set_is_ext; [apply empty_set_is; assumption|];
          intros; by rewrite ?in_none, ?orb_false_r, ?andb_true_r
        | split; [done|]; intros; by rewrite ?in_none, ?andb_false_r ].

Lemma union_is a b : bms_wf a → bms_wf b → set_is (bms_union a b) (fun x => bms_in x a || bms_in x b).
Proof.
  intros Ha Hb. destruct a as [a|], b as [b|]; cbn [bms_union bms_copy]; try null_case.
  destruct (Z.leb_spec (nwords a) (nwords b)); apply (union_spec a b Ha Hb); [right|left]; split; (done || lia).
Qed.

Lemma add_members_is a b :
  bms_wf a → bms_wf b → set_is (bms_add_members a b) (fun x => bms_in x a || bms_in x b).
Proof.
  intros Ha Hb. destruct a as [a|], b as [b|]; cbn [bms_add_members bms_copy]; try null_case.
  destruct (Z.ltb_spec (nwords a) (nwords b)); apply (union_spec a b Ha Hb); [right|left]; split; (done || lia).
Qed.

Lemma intersect_is a b :
  bms_wf a → bms_wf b → set_is (bms_intersect a b) (fun x => bms_in x a && bms_in x b).
Proof.
  intros Ha Hb. destruct a as [a|], b as [b|]; cbn [bms_intersect]; try null_case.
  destruct (nwords a <=? nwords b); [|rewrite words_and_comm]; by apply intersect_spec.
Qed.

Lemma difference_is a b :
  bms_wf a → bms_wf b → set_is (bms_difference a b) (fun x => bms_in x a && negb (bms_in x b)).
Proof.
  intros Ha Hb. destruct a as [a|], b as [b|]; cbn [bms_difference bms_copy]; try null_case.
  rewrite nonempty_difference_big by done. unfold has_diff. rewrite negb_involutive.
  pose proof Ha as [Hao _]. pose proof Hb as [Hbo _].
  destruct (Z.eqb_spec (Z.ldiff (big a) (big b)) 0) as [Hz|Hz]; [by apply difference_spec|].
  destruct (Z.gtb_spec (nwords a) (nwords b)).
  - destruct (words_andnot_wf a b) as [? ?]; try done. by apply difference_spec.
  - pose proof (words_andnot_big a b Hao Hbo) as E.
    destruct (trim_spec (words_andnot a b)) as [? E']; [by apply words_andnot_ok|congruence|].
    apply difference_spec; [done|]. by rewrite <- E, <- E'.
Qed.

Lemma del_members_is a b :
  bms_wf a → bms_wf b → set_is (bms_del_members a b) (fun x => bms_in x a && negb (bms_in x b)).
Proof.
  intros Ha Hb. destruct a as [a|], b as [b|]; cbn [bms_del_members]; try null_case.
  pose proof Ha as [Hao _]. pose proof Hb as [Hbo _].
  destruct (Z.gtb_spec (nwords a) (nwords b)).
  - destruct (words_andnot_wf a b) as [? ?]; try done. by apply difference_spec.
  - destruct (trim_or_null_spec (words_andnot a b)) as [? E']; [by apply words_andnot_ok|].
    apply difference_spec; [done|]. rewrite E'. by apply words_andnot_big.
Qed.

Lemma replace_members_is a b : bms_wf b → set_is (bms_replace_members a b) (fun x => bms_in x b).
Proof.
  intros Hb. destruct a as [a|], b as [b|]; cbn [bms_replace_members bms_copy]; try null_case.
  rewrite take_app_length. by apply empty_set_is.
Qed.

(** C33. Union, intersection and difference of bitmap sets, in their copying
    and their recycling variants, are the set operations: for well-formed
    inputs the result is well-formed (no trailing zero words, NULL for the
    empty set) and a non-negative integer is a member of it exactly if the
    Boolean combination of the input memberships says so. *)
Theorem bms_set_operations a b :
  bms_wf a → bms_wf b →
  set_is (bms_union a b) (fun x => bms_in x a || bms_in x b)
  ∧ set_is (bms_add_members a b) (fun x => bms_in x a || bms_in x b)
  ∧ set_is (bms_join a b) (fun x => bms_in x a || bms_in x b)
  ∧ set_is (bms_intersect a b) (fun x => bms_in x a && bms_in x b)
  ∧ set_is (bms_int_members a b) (fun x => bms_in x a && bms_in x b)
  ∧ set_is (bms_difference a b) (fun x => bms_in x a && negb (bms_in x b))
  ∧ set_is (bms_del_members a b) (fun x => bms_in x a && negb (bms_in x b))
  ∧ set_is (bms_replace_members a b) (fun x => bms_in x b).
Proof.
  intros Ha Hb. split_and!; auto using union_is, add_members_is, intersect_is, difference_is,
    del_members_is, replace_members_is.
  destruct a as [a|], b as [b|]; cbn [bms_int_members]; try null_case. by apply intersect_spec.
Qed.

Lemma bms_set_operations_witness :
  bms_in 70 (bms_difference (Some [5; 64]) (Some [4])) = true.
Proof.
  assert (bms_wf (Some [5; 64])) as Ha by (split; [by repeat constructor|done]).
  assert (bms_wf (Some [4])) as Hb by (split; [by repeat constructor|done]).
  destruct (bms_set_operations _ _ Ha Hb) as (_ & _ & _ & _ & _ & [_ H] & _).
  rewrite H by lia. vm_compute. reflexivity.
Defined.

(** Adding and removing single members and ranges: a negative member is
    an error, an empty range changes nothing, and otherwise the operation
    succeeds on every well-formed set and changes exactly the membership of
    the given integers. *)
Theorem bms_member_operations a x upper :
  bms_wf a →
  if x <? 0 then
    is_Ok (bms_add_member a x) = false ∧ is_Ok (bms_del_member a x) = false
    ∧ is_Ok (bms_make_singleton x) = false
    ∧ (x ≤ upper → is_Ok (bms_add_range a x upper) = false)
  else
    result_is (bms_make_singleton x) (fun y => y =? x)
    ∧ result_is (bms_add_member a x) (fun y => bms_in y a || (y =? x))
    ∧ result_is (bms_del_member a x) (fun y => bms_in y a && negb (y =? x))
    ∧ result_is (bms_add_range a x upper)
        (fun y => bms_in y a || ((x <=? y) && (y <=? upper))).
Proof.
  intros Ha. destruct (Z.ltb_spec x 0) as [Hx|Hx].
  - unfold bms_add_member, bms_del_member, bms_make_singleton, bms_add_range.
    rewrite (proj2 (Z.ltb_lt x 0)) by done. split_and!; try done. intros Hu.
    by rewrite (proj2 (Z.ltb_ge upper x)) by done.
  - split_and!.
    + destruct (make_singleton_spec x Hx) as (r & ? & ?). by exists r.
    + destruct (add_member_spec a x Ha Hx) as (r & ? & ?). by exists r.
    + destruct (del_member_spec a x Ha Hx) as (r & ? & ?). by exists r.
    + destruct (Z.le_gt_cases x upper) as [Hu|Hu].
      * destruct (add_range_spec a x upper Ha (conj Hx Hu)) as (r & ? & ?). by exists r.
      * exists a. unfold bms_add_range. rewrite (proj2 (Z.ltb_lt upper x)) by lia.
        split; [done|]. split; [done|]. intros y Hy.
        destruct (Z.leb_spec x y), (Z.leb_spec y upper); simpl; rewrite ?orb_false_r; (done || lia).
Qed.

Lemma bms_member_operations_witness :
  result_is (bms_del_member (Some [5; 64]) 70) (fun y => bms_in y (Some [5; 64]) && negb (y =? 70)).
Proof.
  assert (bms_wf (Some [5; 64])) as Ha by (split; [by repeat constructor|done]).
  exact (proj1 (proj2 (proj2 (bms_member_operations _ 70 0 Ha)))).
Defined.

(** the set relations, on membership *)
Definition bms_sub (a b : Bitmapset) : Prop := ∀ x, 0 ≤ x → bms_in x a = true → bms_in x b = true.

Lemma ldiff_zero_sub a b : bms_sub a b ↔ Z.ldiff (bms_big a) (bms_big b) = 0.
Proof.
  unfold bms_sub, bms_in. split.
  - intros H. apply Z.bits_inj'. intros x Hx. rewrite Z.ldiff_spec, Z.bits_0.
    specialize (H x Hx). destruct (Z.testbit (bms_big a) x); [by rewrite H|done].
  - intros H x Hx Ha. assert (Z.testbit (Z.ldiff (bms_big a) (bms_big b)) x = false) as Hd
      by (rewrite H; apply Z.bits_0).
    rewrite Z.ldiff_spec, Ha in Hd. by destruct (Z.testbit (bms_big b) x).
Qed.

Lemma has_diff_false a b : has_diff (bms_big a) (bms_big b) = false ↔ bms_sub a b.
Proof. rewrite ldiff_zero_sub. unfold has_diff. rewrite negb_false_iff. apply Z.eqb_eq. Qed.

Lemma wf_big_eq a b : bms_wf a → bms_wf b → bms_big a = bms_big b → a = b.
Proof.
  destruct a as [a|], b as [b|]; cbn [bms_big]; intros Ha Hb E.
  - destruct (Z.lt_trichotomy (nwords a) (nwords b)) as [H|[H|H]].
    + pose proof (nwords_lt_big a b Ha Hb H). lia.
    + f_equal. apply big_inj; [apply Ha|apply Hb|unfold nwords in H; lia|done].
    + pose proof (nwords_lt_big b a Hb Ha H). lia.
  - pose proof (wf_big_pos a Ha). lia.
  - pose proof (wf_big_pos b Hb). lia.
  - done.
Qed.

Lemma big_eq_ext a b :
  bms_wf a → bms_wf b → bms_big a = bms_big b ↔ ∀ x, 0 ≤ x → bms_in x a = bms_in x b.
Proof. intros. split; [intros E x Hx; unfold bms_in; by rewrite E|]. intros H'. apply Z.bits_inj'. apply H'. Qed.

Lemma compare_spec a b : bms_wf a → bms_wf b → bms_compare a b = cmp_sign (bms_big a ?= bms_big b).
Proof.
  intros Ha Hb. destruct a as [a|], b as [b|]; cbn [bms_compare bms_big].
  - destruct (Z.eqb_spec (nwords a) (nwords b)) as [Hn|Hn]; simpl negb; cbv iota.
    + apply words_compare_big; [apply Ha|apply Hb|unfold nwords in Hn; lia].
    + destruct (Z.gtb_spec (nwords a) (nwords b)).
      * pose proof (nwords_lt_big b a Hb Ha ltac:(lia)). by rewrite (proj2 (Z.compare_gt_iff _ _)).
      * pose proof (nwords_lt_big a b Ha Hb ltac:(lia)). by rewrite (proj2 (Z.compare_lt_iff _ _)).
  - pose proof (wf_big_pos a Ha). by rewrite (proj2 (Z.compare_gt_iff _ _)).
  - pose proof (wf_big_pos b Hb). by rewrite (proj2 (Z.compare_lt_iff _ _)).
  - done.
Qed.

Lemma nonempty_difference_spec a b :
  bms_wf a → bms_wf b → bms_nonempty_difference a b = has_diff (bms_big a) (bms_big b).
Proof.
  intros Ha Hb. destruct a as [a|], b as [b|]; [by apply nonempty_difference_big| |done|done].
  cbn [bms_nonempty_difference bms_big]. unfold has_diff. rewrite Z.ldiff_0_r.
  pose proof (wf_big_pos a Ha). symmetry. apply negb_true_iff, Z.eqb_neq. lia.
Qed.

Lemma subset_compare_spec a b :
  bms_wf a → bms_wf b →
  bms_subset_compare a b
  = subset_verdict (has_diff (bms_big a) (bms_big b)) (has_diff (bms_big b) (bms_big a)).
Proof.
  intros Ha Hb. rewrite <- !nonempty_difference_spec by done.
  destruct a as [a|], b as [b|]; try done. rewrite !nonempty_difference_big by done.
  cbn [bms_subset_compare].
  pose proof (words_subset_compare_spec false false a b (proj1 Ha) (proj1 Hb) eq_refl) as E.
  change (subset_verdict false false) with BMS_EQUAL in E. rewrite E. simpl orb.
  destruct (Z.gtb_spec (nwords a) (nwords b)) as [Hn|Hn].
  - rewrite (take_ge b) by (unfold nwords in Hn; lia).
    assert (has_diff (big a) (big b) = true) as ->.
    { apply negb_true_iff, Z.eqb_neq. by apply more_words_not_subset. }
    by destruct (has_diff (big (take (length b) a)) (big b)), (has_diff (big b) (big a)).
  - rewrite (take_ge a) by (unfold nwords in Hn; lia).
    destruct (Z.ltb_spec (nwords a) (nwords b)) as [Hl|Hl].
    + assert (has_diff (big b) (big a) = true) as ->.
      { apply negb_true_iff, Z.eqb_neq. by apply more_words_not_subset. }
      by destruct (has_diff (big (take (length a) b)) (big a)), (has_diff (big a) (big b)).
    + rewrite (take_ge b) by (unfold nwords in *; lia).
      by destruct (has_diff (big a) (big b)), (has_diff (big b) (big a)).
Qed.

Lemma overlap_spec a b :
  bms_wf a → bms_wf b → bms_overlap a b = negb (Z.land (bms_big a) (bms_big b) =? 0).
Proof.
  intros Ha Hb. destruct a as [a|], b as [b|]; cbn [bms_overlap bms_big].
  - apply words_overlap_spec; [apply Ha|apply Hb].
  - by rewrite Z.land_0_r. - by rewrite Z.land_0_l. - done.
Qed.

Lemma land_nonzero a b :
  bms_wf a → Z.land (bms_big a) (bms_big b) ≠ 0 ↔ ∃ x, 0 ≤ x ∧ bms_in x a = true ∧ bms_in x b = true.
Proof.
  intros Ha. split.
  - intros Hz. set (z := Z.land (bms_big a) (bms_big b)) in *.
    assert (0 < z).
    { assert (0 ≤ z); [|lia]. apply Z.land_nonneg. left. by apply bms_big_nonneg. }
    exists (Z.log2 z). split; [apply Z.log2_nonneg|].
    pose proof (Z.bit_log2 z ltac:(lia)) as Hb. unfold z at 1 in Hb. rewrite Z.land_spec in Hb.
    by apply andb_prop in Hb.
  - intros (x & Hx & H1 & H2) Hz. unfold bms_in in *.
    assert (Z.testbit (Z.land (bms_big a) (bms_big b)) x = true) as H.
    { by rewrite Z.land_spec, H1, H2. }
    by rewrite Hz, Z.bits_0 in H.
Qed.

Lemma equal_spec a b : bms_wf a → bms_wf b → bms_equal a b = true ↔ a = b.
Proof.
  intros Ha Hb. destruct a as [a|], b as [b|]; cbn [bms_equal]; [|naive_solver..].
  destruct (Z.eqb_spec (nwords a) (nwords b)) as [Hn|Hn]; simpl negb; cbv iota.
  - rewrite words_equal_eq by (unfold nwords in Hn; lia). naive_solver.
  - split; [done|]. by intros [= ->].
Qed.

Lemma is_subset_spec a b : bms_is_subset a b = negb (bms_nonempty_difference a b).
Proof.
  destruct a as [a|], b as [b|]; try done. cbn [bms_is_subset bms_nonempty_difference].
  by destruct (nwords a >? nwords b).
Qed.

Lemma is_member_spec x a :
  bms_wf a → if x <? 0 then is_Ok (bms_is_member x a) = false else bms_is_member x a = Ok (bms_in x a).
Proof.
  intros Ha. unfold bms_is_member. destruct (Z.ltb_spec x 0); [done|].
  destruct a as [ws|]; [|by rewrite in_none]. f_equal. apply word_has_testbit; [apply Ha|done].
Qed.

(** The predicates decide the relations between sets.  Two well-formed
    sets are [bms_equal] exactly if they are the same object, which is exactly
    if they have the same members; [bms_compare] is the order of the sets read
    as binary numbers, and so 0 only for equal sets; [bms_is_subset] and
    [bms_nonempty_difference] decide inclusion; the verdict of
    [bms_subset_compare] says which of the two inclusions hold; [bms_overlap]
    finds a common member if there is one; and [bms_is_member] decides
    membership, refusing negative integers. *)
Theorem bms_predicates a b x :
  bms_wf a → bms_wf b →
  (bms_equal a b = true ↔ ∀ x, 0 ≤ x → bms_in x a = bms_in x b)
  ∧ (bms_equal a b = true ↔ a = b)
  ∧ bms_compare a b = cmp_sign (bms_big a ?= bms_big b)
  ∧ (bms_is_subset a b = true ↔ bms_sub a b)
  ∧ (bms_nonempty_difference a b = false ↔ bms_sub a b)
  ∧ (match bms_subset_compare a b with
     | BMS_EQUAL => bms_sub a b ∧ bms_sub b a
     | BMS_SUBSET1 => bms_sub a b ∧ ¬ bms_sub b a
     | BMS_SUBSET2 => ¬ bms_sub a b ∧ bms_sub b a
     | BMS_DIFFERENT => ¬ bms_sub a b ∧ ¬ bms_sub b a
     end)
  ∧ (bms_overlap a b = true ↔ ∃ x, 0 ≤ x ∧ bms_in x a = true ∧ bms_in x b = true)
  ∧ (if x <? 0 then is_Ok (bms_is_member x a) = false else bms_is_member x a = Ok (bms_in x a)).
Proof.
  intros Ha Hb. pose proof (has_diff_false a b) as Hab. pose proof (has_diff_false b a) as Hba.
  split_and!.
  - rewrite equal_spec, <- big_eq_ext by done. split; [by intros -> | by apply wf_big_eq].
  - by apply equal_spec.
  - by apply compare_spec.
  - rewrite is_subset_spec, nonempty_difference_spec by done. by rewrite negb_true_iff.
  - by rewrite nonempty_difference_spec.
  - rewrite subset_compare_spec by done.
    destruct (has_diff (bms_big a) (bms_big b)), (has_diff (bms_big b) (bms_big a)); simpl; naive_solver.
  - rewrite overlap_spec, negb_true_iff, Z.eqb_neq by done. by apply land_nonzero.
  - by apply is_member_spec.
Qed.

Lemma bms_predicates_witness : bms_sub (Some [5]) (Some [7; 1]).
Proof.
  assert (bms_wf (Some [5])) as Ha by (split; [by repeat constructor|done]).
  assert (bms_wf (Some [7; 1])) as Hb by (split; [by repeat constructor|done]).
  destruct (bms_predicates _ _ 0 Ha Hb) as (_ & _ & _ & [H _] & _). by apply H.
Defined.

(** the bits of one word below a position *)
Lemma word_low_bits ws x :
  Forall word_ok ws → 0 ≤ x →
  (big ws mod 2 ^ x) / 2 ^ (64 * WORDNUM x) = Z.land (word ws (WORDNUM x)) (Z.ones (BITNUM x)).
Proof.
  intros Hok Hx. pose proof (WORD_BIT x) as Hxb. pose proof (BITNUM_range x).
  pose proof (WORDNUM_nonneg x Hx). apply Z.bits_inj'. intros i Hi.
  rewrite Z.div_pow2_bits, Z.land_spec, Z.testbit_ones_nonneg by lia.
  destruct (Z.ltb_spec i (BITNUM x)).
  - rewrite Z.mod_pow2_bits_low, andb_true_r, big_testbit by (done || lia).
    f_equal; unfold WORDNUM, BITNUM, BITS_PER_BITMAPWORD in *.
    + f_equal. rewrite Z.mul_comm, Z.div_add, Z.div_small by lia. done.
    + rewrite Z.mul_comm, Z.mod_add by lia. apply Z.mod_small. lia.
  - rewrite Z.mod_pow2_bits_high, andb_false_r by lia. done.
Qed.

Lemma member_index_spec ws x :
  bms_wf (Some ws) → 0 ≤ x →
  bms_member_index (Some ws) x
  = Ok (if bms_in x (Some ws) then Z.of_nat (length (bits_below (big ws) x)) else -1).
Proof.
  intros [Hok Hv] Hx. unfold bms_member_index.
  pose proof (is_member_spec x (Some ws) (conj Hok Hv)) as Hm.
  rewrite (proj2 (Z.ltb_ge x 0)) in Hm by done. rewrite Hm. simpl mbind. cbv iota beta.
  destruct (bms_in x (Some ws)); [|done]. simpl negb. cbv iota. f_equal.
  pose proof (WORDNUM_nonneg x Hx). pose proof (big_nonneg _ Hok).
  pose proof (popcount_bits_below (big ws) (Z.to_nat x)) as Hpb.
  rewrite Z2Nat.id in Hpb by done. rewrite <- Hpb by done.
  rewrite (popcount_split (Z.to_nat (64 * WORDNUM x)) (big ws mod 2 ^ x)) by (apply Z.mod_pos_bound; lia).
  rewrite Z2Nat.id, word_low_bits, words_popcount_big by (lia || auto using Forall_take).
  rewrite big_take_mod, Z2Nat.id by done.
  change (Z.shiftl 1 (BITNUM x) - 1) with (Z.ones (BITNUM x)). do 2 f_equal.
  pose proof (WORD_BIT x). pose proof (BITNUM_range x). symmetry.
  apply Z.bits_inj'. intros i Hi. destruct (Z.lt_ge_cases i (64 * WORDNUM x)).
  - by rewrite !Z.mod_pow2_bits_low by lia.
  - by rewrite !Z.mod_pow2_bits_high by lia.
Qed.

Lemma num_members_spec ws :
  bms_wf (Some ws) →
  bms_num_members (Some ws) = bmw_popcount (big ws)
  ∧ bms_num_members (Some ws) = Z.of_nat (length (bits_below (big ws) (64 * nwords ws))).
Proof.
  intros [Hok _]. cbn [bms_num_members]. rewrite words_popcount_big by done. split; [done|].
  pose proof (big_lt _ Hok). pose proof (big_nonneg _ Hok).
  rewrite <- (Z2Nat.id (64 * nwords ws)) by (unfold nwords; lia).
  rewrite <- popcount_bits_below, Z2Nat.id, Z.mod_small by (done || unfold nwords; lia). done.
Qed.

(** The scans enumerate a set in order.  [bms_next_member] returns the
    least member above the previous one and -2 when there is none;
    [bms_prev_member] the greatest member below the given bound (from the top
    for -1); [bms_num_members] counts the members, [bms_member_index] the
    members below a member; [bms_membership] classifies the set by that count,
    and the singleton tests return the member of a one-member set and refuse
    every other one. *)
Theorem bms_enumeration ws prev x :
  bms_wf (Some ws) →
  let a := Some ws in
  let n := 64 * nwords ws in
  (-1 ≤ prev →
   let r := bms_next_member a prev in
   r = -2 ∧ (∀ x, prev < x → bms_in x a = false)
   ∨ prev < r ∧ bms_in r a = true ∧ ∀ x, prev < x < r → bms_in x a = false)
  ∧ (prev = -1 ∨ 0 ≤ prev ≤ n →
     let r := bms_prev_member a prev in
     r = -2 ∧ (∀ x, 0 ≤ x → prev = -1 ∨ x < prev → bms_in x a = false)
     ∨ 0 ≤ r ∧ (prev = -1 ∨ r < prev) ∧ bms_in r a = true
       ∧ ∀ x, r < x → prev = -1 ∨ x < prev → bms_in x a = false)
  ∧ bms_num_members a = Z.of_nat (length (bits_below (big ws) n))
  ∧ (0 ≤ x → bms_member_index a x
     = Ok (if bms_in x a then Z.of_nat (length (bits_below (big ws) x)) else -1))
  ∧ bms_membership a = membership_of (bms_num_members a)
  ∧ match bms_get_singleton_member a with
    | Some r => bms_num_members a = 1 ∧ bms_in r a = true ∧ bms_singleton_member a = Ok r
    | None => 1 < bms_num_members a ∧ is_Ok (bms_singleton_member a) = false
    end.
Proof.
  intros Hwf a n. pose proof Hwf as [Hok _]. pose proof (wf_big_pos _ Hwf).
  destruct (num_members_spec ws Hwf) as [Hpc Hnm]. split_and!; try done.
  - by apply next_member_spec.
  - intros Hp. by apply prev_member_spec.
  - by apply member_index_spec.
  - unfold a. cbn [bms_membership]. rewrite words_membership_spec, Hpc by done. done.
  - unfold a. rewrite Hpc. cbn [bms_get_singleton_member bms_singleton_member].
    pose proof (words_singleton_spec 0 ws ltac:(lia) Hok) as Hs.
    destruct (words_singleton 0 (-1) ws) as [r|]; [|done].
    destruct Hs as [[? _]|[Hp (_ & Hb & _)]]; [lia|].
    split_and!; try done. unfold bms_in. cbn [bms_big]. by replace r with (r - 64 * 0) by lia.
Qed.

Lemma bms_enumeration_witness :
  bms_next_member (Some [5; 64]) 2 = 70
  ∧ (bms_next_member (Some [5; 64]) 2 = -2
       ∧ (∀ x, 2 < x → bms_in x (Some [5; 64]) = false)
     ∨ 2 < bms_next_member (Some [5; 64]) 2
       ∧ bms_in (bms_next_member (Some [5; 64]) 2) (Some [5; 64]) = true
       ∧ ∀ x, 2 < x < bms_next_member (Some [5; 64]) 2 → bms_in x (Some [5; 64]) = false).
Proof.
  split; [reflexivity|].
  assert (bms_wf (Some [5; 64])) as Ha by (split; [by repeat constructor|done]).
  exact (proj1 (bms_enumeration _ 2 0 Ha) ltac:(lia)).
Defined.
