(* ===== verification/Nodes.v ===== *)
(** * Expression nodes

    The part of [include/nodes/primnodes.h] that can occur in a lambda body,
    the two tree traversals of [backend/nodes/nodeFuncs.c] over it, and the
    lambda helpers of [backend/utils/adt/lambda_helpers.c] that only read the
    tree: the L3 safety analysis and the input-parameter lookups.

    A [Node *] that may be NULL is an [option Node]; every callback of the
    sources answers NULL with "do nothing", so the traversals skip [None].
    Node fields that only serve parsing (source locations, display hints) are
    kept only where the code copies or reports them.  A CASE is the searched
    form, [CASE WHEN c THEN r ...]; the form with a test argument, which needs
    the placeholder [CaseTestExpr], is not modelled. *)

From S2P Require Import Prelude Bitmapset.

(** ** Values *)

Abbreviation Oid := Z (only parsing).

Definition InvalidOid : Oid := 0.
Definition BOOLOID : Oid := 16.
Definition LAMBDAOID : Oid := 8501.

(** a lambda value as the executor passes it around; [sl_data] is everything
    after the header, alignment padding included *)
Record SerializedLambda := mkSerializedLambda {
  sl_nargs : Z;
  sl_magic : Z;
  sl_data : cstr
}.

(** a varlena datum: a serialized lambda in plain form, or any other variable
    length value by its raw bytes (text, arrays, compressed or out-of-line
    lambdas) *)
Inductive varlena :=
| VPlain (sl : SerializedLambda)
| VRaw (bytes : cstr).

(** [DNodePtr] is the address of an in-memory [LambdaExpr]: what
    [ExecInitExprRec] stores in the constant step of a [LambdaExpr] node. *)
Inductive Datum :=
| DByVal (z : Z)
| DVarlena (v : varlena)
| DNodePtr.

#[export] Instance SerializedLambda_eq_dec : EqDecision SerializedLambda.
Proof. solve_decision. Defined.
#[export] Instance varlena_eq_dec : EqDecision varlena.
Proof. solve_decision. Defined.
#[export] Instance Datum_eq_dec : EqDecision Datum.
Proof. solve_decision. Defined.

(** ** Node types *)

Inductive ParamKind := PARAM_EXTERN | PARAM_EXEC | PARAM_SUBLINK | PARAM_MULTIEXPR.

Inductive LambdaKind := LAMBDA_ROW_CONTEXT | LAMBDA_SCALAR_CONTEXT.

Inductive BoolExprType := AND_EXPR | OR_EXPR | NOT_EXPR.

Inductive MinMaxOp := IS_GREATEST | IS_LEAST.

Inductive NullTestType := IS_NULL | IS_NOT_NULL.

Inductive BoolTestType :=
| IS_TRUE | IS_NOT_TRUE | IS_FALSE | IS_NOT_FALSE | IS_UNKNOWN | IS_NOT_UNKNOWN.

Record Var := mkVar {
  varno : Z; varattno : Z; vartype : Oid; vartypmod : Z
}.

Record Const := mkConst {
  consttype : Oid; consttypmod : Z; constcollid : Oid; constlen : Z;
  constvalue : Datum; constisnull : bool; constbyval : bool
}.

Record Param := mkParam {
  paramkind : ParamKind; paramid : Z; paramtype : Oid; paramtypmod : Z;
  paramcollid : Oid; param_lambda : bool
}.

Record FuncHdr := mkFuncHdr {
  funcid : Oid; funcresulttype : Oid; func_inputcollid : Oid
}.

Record OpHdr := mkOpHdr {
  opno : Oid; opfuncid : Oid; opresulttype : Oid; op_inputcollid : Oid
}.

#[local] Unset Elimination Schemes.

(** one column of a lambda's input row; function columns carry the columns
    of the functions they accept *)
Inductive LambdaInputParam := mkLambdaInputParam {
  lip_name : list cstr;
  lip_type : Oid;
  lip_isAtomic : bool;
  lip_input_types : list LambdaInputParam;
  lip_idx : Z
}.

(** everything of a [LambdaExpr] but its body; the executor-only pointers are
    not serialized and never read by the modelled code *)
Record LambdaHdr := mkLambdaHdr {
  lambdakind : LambdaKind;
  argnames : list cstr;
  argtypes : list (list LambdaInputParam);
  rettype : Oid;
  rettypmod : Z;
  lambdatypmod : Z;
  is_strict : bool;
  l3_safe : bool
}.

Record LfaHdr := mkLfaHdr {
  lfa_name : list cstr;
  lfa_rettype : Oid;
  lfa_param_id : Z;
  lfa_fieldSelect_id : Z;
  lfa_uniqueness : Z
}.

Record CallHdr := mkCallHdr {
  heldargs : Bitmapset;
  cle_rettype : Oid;
  cle_rettypmod : Z;
  cle_retcollid : Oid;
  cle_lambdatypmod : Z
}.

Inductive Node :=
| NVar (v : Var)
| NConst (c : Const)
| NParam (p : Param)
| NHolePlaceholder
| NFuncExpr (f : FuncHdr) (args : list Node)
| NOpExpr (o : OpHdr) (args : list Node)
| NDistinctExpr (o : OpHdr) (args : list Node)
| NNullIfExpr (o : OpHdr) (args : list Node)
| NBoolExpr (boolop : BoolExprType) (args : list Node)
| NFieldSelect (fieldnum resulttype : Z) (arg : Node)
| NRelabelType (resulttype : Oid) (arg : Node)
| NCaseExpr (casetype : Oid) (whens : list (Node * Node)) (defresult : option Node)
| NArrayExpr (array_typeid : Oid) (elements : list Node)
| NCoalesceExpr (coalescetype : Oid) (args : list Node)
| NMinMaxExpr (minmaxtype inputcollid : Oid) (op : MinMaxOp) (args : list Node)
| NNullTest (nulltesttype : NullTestType) (arg : Node)
| NBooleanTest (booltesttype : BoolTestType) (arg : Node)
| NLambdaExpr (h : LambdaHdr) (expr : option Node)
| NLambdaFuncAliasExpr (h : LfaHdr) (args : list Node)
| NCallLambdaExpr (h : CallHdr) (lambda_expr : Node) (args : list Node).

(** a [LambdaExpr *] that is known to point to a [LambdaExpr] *)
Record LambdaExpr := mkLambdaExpr { le_hdr : LambdaHdr; le_expr : option Node }.

Definition LambdaNode (l : LambdaExpr) : Node := NLambdaExpr (le_hdr l) (le_expr l).

#[local] Set Elimination Schemes.

(** ** The traversals of nodeFuncs.c *)

(** A walker callback threads its context and answers [true] to stop the
    walk. *)
Section Walker.
Context {S : Type} (walker : Node → S → bool * S).

(** [LIST_WALK], and [WALK] on a list *)
Fixpoint list_walk (l : list Node) (s : S) : bool * S :=
  match l with
  | [] => (false, s)
  | n :: l =>
      let '(stop, s) := walker n s in
      if stop then (true, s) else list_walk l s
  end.

Fixpoint whens_walk (l : list (Node * Node)) (s : S) : bool * S :=
  match l with
  | [] => (false, s)
  | (e, r) :: l =>
      let '(stop, s) := walker e s in
      if stop then (true, s)
      else
        let '(stop, s) := walker r s in
        if stop then (true, s) else whens_walk l s
  end.

Definition opt_walk (o : option Node) (s : S) : bool * S :=
  match o with None => (false, s) | Some n => walker n s end.

Definition expression_tree_walker (node : Node) (s : S) : bool * S :=
  match node with
  | NVar _ | NConst _ | NParam _ | NHolePlaceholder => (false, s)
  | NLambdaExpr _ e => opt_walk e s
  | NLambdaFuncAliasExpr _ args => list_walk args s
  | NCallLambdaExpr _ l args =>
      let '(stop, s) := walker l s in
      if stop then (true, s) else list_walk args s
  | NFuncExpr _ args => list_walk args s
  | NOpExpr _ args | NDistinctExpr _ args | NNullIfExpr _ args => list_walk args s
  | NBoolExpr _ args => list_walk args s
  | NFieldSelect _ _ arg => walker arg s
  | NRelabelType _ arg => walker arg s
  | NCaseExpr _ whens def =>
      let '(stop, s) := whens_walk whens s in
      if stop then (true, s) else opt_walk def s
  | NArrayExpr _ elements => list_walk elements s
  | NCoalesceExpr _ args => list_walk args s
  | NMinMaxExpr _ _ _ args => list_walk args s
  | NNullTest _ arg => walker arg s
  | NBooleanTest _ arg => walker arg s
  end.
End Walker.

(** A mutator callback returns the replacement of a node, or raises. *)
Section Mutator.
Context (mutator : Node → outcome Node).

Definition opt_mutate (o : option Node) : outcome (option Node) :=
  match o with None => Ok None | Some n => Some <$> mutator n end.

(** the [CaseWhen] nodes of a list: no callback treats them specially, so
    they are rebuilt from their mutated parts *)
Definition when_mutate (w : Node * Node) : outcome (Node * Node) :=
  e ← mutator (fst w); r ← mutator (snd w); Ok (e, r).

Definition expression_tree_mutator (node : Node) : outcome Node :=
  match node with
  | NVar _ | NConst _ | NParam _ | NHolePlaceholder => Ok node
  | NLambdaExpr h e => NLambdaExpr h <$> opt_mutate e
  | NLambdaFuncAliasExpr h args => NLambdaFuncAliasExpr h <$> omapM mutator args
  | NCallLambdaExpr h l args =>
      l' ← mutator l; args' ← omapM mutator args; Ok (NCallLambdaExpr h l' args')
  | NFuncExpr f args => NFuncExpr f <$> omapM mutator args
  | NOpExpr o args => NOpExpr o <$> omapM mutator args
  | NDistinctExpr o args => NDistinctExpr o <$> omapM mutator args
  | NNullIfExpr o args => NNullIfExpr o <$> omapM mutator args
  | NBoolExpr o args => NBoolExpr o <$> omapM mutator args
  | NFieldSelect k t arg => NFieldSelect k t <$> mutator arg
  | NRelabelType t arg => NRelabelType t <$> mutator arg
  | NCaseExpr t whens def =>
      whens' ← omapM when_mutate whens; def' ← opt_mutate def; Ok (NCaseExpr t whens' def')
  | NArrayExpr t elements => NArrayExpr t <$> omapM mutator elements
  | NCoalesceExpr t args => NCoalesceExpr t <$> omapM mutator args
  | NMinMaxExpr t c o args => NMinMaxExpr t c o <$> omapM mutator args
  | NNullTest t arg => NNullTest t <$> mutator arg
  | NBooleanTest t arg => NBooleanTest t <$> mutator arg
  end.
End Mutator.

(** ** Types of expressions *)

Definition exprType (expr : Node) : outcome Oid :=
  match expr with
  | NVar v => Ok (vartype v)
  | NConst c => Ok (consttype c)
  | NLambdaExpr _ _ => Ok LAMBDAOID
  | NLambdaFuncAliasExpr h _ => Ok (lfa_rettype h)
  | NCallLambdaExpr h _ _ => Ok (cle_rettype h)
  | NParam p => Ok (paramtype p)
  | NFuncExpr f _ => Ok (funcresulttype f)
  | NOpExpr o _ | NDistinctExpr o _ | NNullIfExpr o _ => Ok (opresulttype o)
  | NBoolExpr _ _ => Ok BOOLOID
  | NFieldSelect _ t _ => Ok t
  | NRelabelType t _ => Ok t
  | NCaseExpr t _ _ => Ok t
  | NArrayExpr t _ => Ok t
  | NCoalesceExpr t _ => Ok t
  | NMinMaxExpr t _ _ _ => Ok t
  | NNullTest _ _ | NBooleanTest _ _ => Ok BOOLOID
  | NHolePlaceholder => elog (lit "unrecognized node type")
  end.

(** ** Nodes the executor accepts *)

Definition FUNC_MAX_ARGS : Z := 100.

(** the shapes the parser builds: at most [FUNC_MAX_ARGS] arguments of a
    function, two of the binary constructs, one of NOT, some of AND, OR and
    COALESCE, and a CASE with an ELSE *)
Definition node_shape (e : Node) : bool :=
  match e with
  | NFuncExpr _ args | NOpExpr _ args => negb (Z.of_nat (length args) >? FUNC_MAX_ARGS)
  | NDistinctExpr _ args | NNullIfExpr _ args => (length args =? 2)%nat
  | NBoolExpr NOT_EXPR args => (length args =? 1)%nat
  | NBoolExpr _ args | NCoalesceExpr _ args => negb (length args =? 0)%nat
  | NCaseExpr _ _ None => false
  | _ => true
  end.

(** ** L3 safety analysis (lambda_helpers.c) *)

(** [LAMBDA_L3_FUNC_LIST]: the function OIDs with a hand-written fast path *)
Definition LAMBDA_L3_FUNC_LIST : list Oid :=
  [ 216; 1726; 217; 1727; 218; 1724; 219; 1725; 220; 221; 1395;
    232; 1346; 1368; 230; 1344; 1347; 1341; 1339;
    1604; 1605; 1606; 1607; 1600; 1601; 1602; 1603;
    7801; 7802; 7803; 7804; 7805;
    9000; 9001; 9002; 9003; 9004; 9005 ].

Definition lambda_op_has_l3_impl (funcid : Oid) : bool :=
  existsb (Z.eqb funcid) LAMBDA_L3_FUNC_LIST.

Fixpoint lambda_l3_unsafe_walker (node : Node) (ctx : unit) {struct node} : bool * unit :=
  match node with
  | NConst _ => (false, ctx)
  | NParam p => (match paramkind p with PARAM_EXEC => false | _ => true end, ctx)
  | NFuncExpr f _ =>
      if negb (lambda_op_has_l3_impl (funcid f)) then (true, ctx)
      else expression_tree_walker lambda_l3_unsafe_walker node ctx
  | NOpExpr o _ | NDistinctExpr o _ | NNullIfExpr o _ =>
      if negb (lambda_op_has_l3_impl (opfuncid o)) then (true, ctx)
      else expression_tree_walker lambda_l3_unsafe_walker node ctx
  | NLambdaFuncAliasExpr _ args => list_walk lambda_l3_unsafe_walker args ctx
  | NCallLambdaExpr _ _ args => list_walk lambda_l3_unsafe_walker args ctx
  | _ => (true, ctx)
  end.

Definition lambda_expr_is_l3_safe (lambda : option LambdaExpr) : bool :=
  match lambda with
  | None => false
  | Some l =>
      match le_expr l with
      | None => false
      | Some e => negb (fst (lambda_l3_unsafe_walker e tt))
      end
  end.

(** ** Input parameters by position and by name (lambda_helpers.c)

    The results are pointers into the lambda, [None] for NULL. *)

Definition get_input_param_from_index (lambda : option LambdaExpr) (rowIndex colIndex : Z)
  : option LambdaInputParam :=
  match lambda with
  | None => None
  | Some l =>
      let rows := argtypes (le_hdr l) in
      if (rowIndex <? 0) || (rowIndex >=? Z.of_nat (length rows)) then None
      else
        rowList ← rows !! Z.to_nat rowIndex;
        if (colIndex <? 0) || (colIndex >=? Z.of_nat (length rowList)) then None
        else rowList !! Z.to_nat colIndex
  end.

(** [list_nth(argnames, rowIndex)] past the end reads outside the list *)
Fixpoint search_row (rowname : option cstr) (rowAlias colName : cstr)
    (rowList : list LambdaInputParam) : outcome (option LambdaInputParam) :=
  match rowList with
  | [] => Ok None
  | param :: rowList =>
      match lip_name param with
      | [paramColName] =>
          paramRowAlias ← deref rowname;
          if bool_decide (rowAlias = paramRowAlias) && bool_decide (colName = paramColName)
          then Ok (Some param)
          else search_row rowname rowAlias colName rowList
      | _ => search_row rowname rowAlias colName rowList
      end
  end.

Fixpoint search_rows (names : list cstr) (rowAlias colName : cstr)
    (rows : list (list LambdaInputParam)) : outcome (option LambdaInputParam) :=
  match rows with
  | [] => Ok None
  | rowList :: rows =>
      found ← search_row (head names) rowAlias colName rowList;
      match found with
      | Some param => Ok (Some param)
      | None => search_rows (tail names) rowAlias colName rows
      end
  end.

Definition get_input_param_from_name (lambda : option LambdaExpr) (name : list cstr)
  : outcome (option LambdaInputParam) :=
  match lambda with
  | None => Ok None
  | Some l =>
      if bool_decide (argtypes (le_hdr l) = []) then Ok None
      else match name with
           | [rowAlias; colName] =>
               search_rows (argnames (le_hdr l)) rowAlias colName (argtypes (le_hdr l))
           | _ => Ok None
           end
  end.
