(* ===== verification/NodesFacts.v ===== *)
(** * Facts about expression trees

    The sub-nodes of a node as one list, induction over trees by it, and what
    the two traversals do in terms of it. *)

From S2P Require Import Prelude Bitmapset Nodes.

(** the sub-nodes a traversal visits, in the order of the visit *)
Definition opt_list {A} (o : option A) : list A :=
  match o with Some a => [a] | None => [] end.

Fixpoint when_nodes (l : list (Node * Node)) : list Node :=
  match l with [] => [] | (e, r) :: l => e :: r :: when_nodes l end.

Definition children (n : Node) : list Node :=
  match n with
  | NVar _ | NConst _ | NParam _ | NHolePlaceholder => []
  | NFuncExpr _ args | NOpExpr _ args | NDistinctExpr _ args | NNullIfExpr _ args
  | NBoolExpr _ args | NArrayExpr _ args | NCoalesceExpr _ args
  | NMinMaxExpr _ _ _ args | NLambdaFuncAliasExpr _ args => args
  | NFieldSelect _ _ arg | NRelabelType _ arg
  | NNullTest _ arg | NBooleanTest _ arg => [arg]
  | NCaseExpr _ whens def => when_nodes whens ++ opt_list def
  | NLambdaExpr _ e => opt_list e
  | NCallLambdaExpr _ l args => l :: args
  end.

(** induction on expression trees *)
Section NodeInd.
Context (P : Node → Prop) (step : ∀ n, Forall P (children n) → P n).

Fixpoint node_ind' (n : Node) : P n :=
  let list_all := fix list_all (l : list Node) : Forall P l :=
    match l with
    | [] => Forall_nil_2 P
    | m :: l => Forall_cons_2 P m l (node_ind' m) (list_all l)
    end in
  let opt_all := fun o : option Node =>
    match o return Forall P (opt_list o) with
    | None => Forall_nil_2 P
    | Some m => Forall_cons_2 P m [] (node_ind' m) (Forall_nil_2 P)
    end in
  let whens_all := fix whens_all (l : list (Node * Node)) : Forall P (when_nodes l) :=
    match l return Forall P (when_nodes l) with
    | [] => Forall_nil_2 P
    | (e, r) :: l =>
        Forall_cons_2 P e _ (node_ind' e) (Forall_cons_2 P r _ (node_ind' r) (whens_all l))
    end in
  step n
    (match n return Forall P (children n) with
     | NVar _ | NConst _ | NParam _ | NHolePlaceholder => Forall_nil_2 P
     | NFuncExpr _ args => list_all args
     | NOpExpr _ args => list_all args
     | NDistinctExpr _ args => list_all args
     | NNullIfExpr _ args => list_all args
     | NBoolExpr _ args => list_all args
     | NArrayExpr _ args => list_all args
     | NCoalesceExpr _ args => list_all args
     | NMinMaxExpr _ _ _ args => list_all args
     | NLambdaFuncAliasExpr _ args => list_all args
     | NFieldSelect _ _ arg => Forall_cons_2 P arg [] (node_ind' arg) (Forall_nil_2 P)
     | NRelabelType _ arg => Forall_cons_2 P arg [] (node_ind' arg) (Forall_nil_2 P)
     | NNullTest _ arg => Forall_cons_2 P arg [] (node_ind' arg) (Forall_nil_2 P)
     | NBooleanTest _ arg => Forall_cons_2 P arg [] (node_ind' arg) (Forall_nil_2 P)
     | NCaseExpr _ whens def =>
         Forall_app_2 P (when_nodes whens) _ (whens_all whens) (opt_all def)
     | NLambdaExpr _ e => opt_all e
     | NCallLambdaExpr _ l args => Forall_cons_2 P l args (node_ind' l) (list_all args)
     end).
End NodeInd.

(** ** Walkers *)

Section WalkerFacts.
Context {S : Type} (walker : Node → S → bool * S).

Lemma list_walk_app l1 l2 s :
  list_walk walker (l1 ++ l2) s
  = let '(stop, s) := list_walk walker l1 s in
    if stop then (true, s) else list_walk walker l2 s.
Proof.
  revert s; induction l1 as [|n l1 IH]; intros s; simpl; [done|].
  destruct (walker n s) as [[] s']; [done|]. apply IH.
Qed.

Lemma list_walk_one n s : list_walk walker [n] s = walker n s.
Proof. simpl. by destruct (walker n s) as [[] s']. Qed.

Lemma whens_walk_nodes l s : whens_walk walker l s = list_walk walker (when_nodes l) s.
Proof.
  revert s; induction l as [|[e r] l IH]; intros s; simpl; [done|].
  destruct (walker e s) as [[] s1]; [done|]. destruct (walker r s1) as [[] s2]; [done|]. apply IH.
Qed.

Lemma opt_walk_list o s : opt_walk walker o s = list_walk walker (opt_list o) s.
Proof. destruct o; [|done]. symmetry. apply list_walk_one. Qed.

(** a walk visits the children in order *)
Lemma walker_children n s :
  expression_tree_walker walker n s = list_walk walker (children n) s.
Proof.
  destruct n; cbn [expression_tree_walker children];
    rewrite ?list_walk_app, ?whens_walk_nodes, ?opt_walk_list, ?list_walk_one; try done.
  destruct (list_walk walker (when_nodes whens) s) as [[] s']; [done|]. apply opt_walk_list.
Qed.
End WalkerFacts.

(** a walker that only tests: the walk stops iff some child satisfies it *)
Lemma list_walk_existsb (p : Node → bool) (w : Node → unit → bool * unit) l :
  Forall (fun n => w n tt = (p n, tt)) l → list_walk w l tt = (existsb p l, tt).
Proof.
  induction 1 as [|n l Hn _ IH]; simpl; [done|]. rewrite Hn. by destruct (p n).
Qed.

(** ** Mutators *)

Inductive NodeTag :=
| T_Var | T_Const | T_Param | T_HolePlaceholder | T_FuncExpr | T_OpExpr | T_DistinctExpr
| T_NullIfExpr | T_BoolExpr | T_FieldSelect | T_RelabelType | T_CaseExpr
| T_ArrayExpr | T_CoalesceExpr | T_MinMaxExpr | T_NullTest | T_BooleanTest
| T_LambdaExpr | T_LambdaFuncAliasExpr | T_CallLambdaExpr.

Definition nodeTag (n : Node) : NodeTag :=
  match n with
  | NVar _ => T_Var | NConst _ => T_Const | NParam _ => T_Param
  | NHolePlaceholder => T_HolePlaceholder | NFuncExpr _ _ => T_FuncExpr
  | NOpExpr _ _ => T_OpExpr | NDistinctExpr _ _ => T_DistinctExpr
  | NNullIfExpr _ _ => T_NullIfExpr | NBoolExpr _ _ => T_BoolExpr
  | NFieldSelect _ _ _ => T_FieldSelect | NRelabelType _ _ => T_RelabelType
  | NCaseExpr _ _ _ => T_CaseExpr
  | NArrayExpr _ _ => T_ArrayExpr | NCoalesceExpr _ _ => T_CoalesceExpr
  | NMinMaxExpr _ _ _ _ => T_MinMaxExpr | NNullTest _ _ => T_NullTest
  | NBooleanTest _ _ => T_BooleanTest | NLambdaExpr _ _ => T_LambdaExpr
  | NLambdaFuncAliasExpr _ _ => T_LambdaFuncAliasExpr
  | NCallLambdaExpr _ _ _ => T_CallLambdaExpr
  end.

#[export] Instance NodeTag_eq_dec : EqDecision NodeTag.
Proof. solve_decision. Defined.

Section MutatorFacts.
Context (mutator : Node → outcome Node).

Lemma whens_mutate_nodes whens whens' :
  omapM (when_mutate mutator) whens = Ok whens' →
  Forall2 (fun c c' => mutator c = Ok c') (when_nodes whens) (when_nodes whens').
Proof.
  intros H%omapM_Forall2. induction H as [|[e r] [e' r'] l l' Hw _ IH]; simpl; [constructor|].
  unfold when_mutate in Hw. simpl in Hw. outcome_inv. by repeat constructor.
Qed.

Lemma opt_mutate_list o o' :
  opt_mutate mutator o = Ok o' → Forall2 (fun c c' => mutator c = Ok c') (opt_list o) (opt_list o').
Proof. destruct o; simpl; intros H; outcome_inv; simpl; by repeat constructor. Qed.

(** a mutated node keeps its tag; its children are the mutated children *)
Lemma mutator_children n n' :
  expression_tree_mutator mutator n = Ok n' →
  nodeTag n' = nodeTag n ∧ Forall2 (fun c c' => mutator c = Ok c') (children n) (children n').
Proof.
  destruct n; cbn [expression_tree_mutator]; intros H; outcome_inv; simpl; (split; [done|]);
    repeat match goal with
    | H : omapM mutator _ = Ok _ |- _ => apply omapM_Forall2 in H
    | H : omapM (when_mutate mutator) _ = Ok _ |- _ => apply whens_mutate_nodes in H
    | H : opt_mutate mutator _ = Ok _ |- _ => apply opt_mutate_list in H
    end; try done; try (by repeat constructor).
  by apply Forall2_app.
Qed.

Lemma mutator_shape n n' : expression_tree_mutator mutator n = Ok n' → node_shape n' = node_shape n.
Proof.
  destruct n as [| | | | | | | | | | |t whens [d|]| | | | | | | |]; cbn [expression_tree_mutator opt_mutate]; intros H; outcome_inv; try done;
    cbn [node_shape]; repeat match goal with H : omapM mutator _ = Ok _ |- _ => apply omapM_length in H; rewrite H end; try done.
Qed.

Lemma omapM_total {A B} (f : A → outcome B) l :
  Forall (fun x => ∃ y, f x = Ok y) l → ∃ ys, omapM f l = Ok ys.
Proof.
  induction 1 as [|x l [y Hy] _ [ys IH]]; [by exists []|]. exists (y :: ys). simpl. by rewrite Hy; simpl; rewrite IH.
Qed.

Lemma opt_mutate_total o :
  Forall (fun c => ∃ c', mutator c = Ok c') (opt_list o) → ∃ o', opt_mutate mutator o = Ok o'.
Proof.
  destruct o as [n|]; simpl; [|by exists None]. intros [[c' Hc] _]%Forall_cons_1.
  rewrite Hc. by eexists.
Qed.

Lemma whens_mutate_total whens :
  Forall (fun c => ∃ c', mutator c = Ok c') (when_nodes whens) →
  ∃ whens', omapM (when_mutate mutator) whens = Ok whens'.
Proof.
  intros H. apply omapM_total. induction whens as [|[e r] l IH]; [constructor|]. simpl in H.
  apply Forall_cons_1 in H as [[e' He] [[r' Hr] H]%Forall_cons_1]. constructor; [|by apply IH].
  exists (e', r'). unfold when_mutate. simpl. by rewrite He; simpl; rewrite Hr.
Qed.

(** a mutation succeeds if it succeeds on every child *)
Lemma mutator_total n :
  Forall (fun c => ∃ c', mutator c = Ok c') (children n) →
  ∃ n', expression_tree_mutator mutator n = Ok n'.
Proof.
  destruct n; cbn [expression_tree_mutator children]; intros H; try (by eexists);
    try (apply omapM_total in H as [ys ->]; by eexists);
    try (apply Forall_cons_1 in H as [[c' ->] _]; by eexists).
  - apply Forall_app in H as [Hw Ho]. apply whens_mutate_total in Hw as [ws ->].
    apply opt_mutate_total in Ho as [o' Ho]. simpl. rewrite Ho. by eexists.
  - apply opt_mutate_total in H as [o' ->]. by eexists.
  - apply Forall_cons_1 in H as [[c' ->] H]. apply omapM_total in H as [ys H]. simpl.
    rewrite H. by eexists.
Qed.
End MutatorFacts.

(** nodes that only combine the values of their sub-nodes *)
Definition plain (n : Node) : bool :=
  match n with
  | NParam _ | NHolePlaceholder | NLambdaExpr _ _ | NLambdaFuncAliasExpr _ _
  | NCallLambdaExpr _ _ _ => false
  | _ => true
  end.

Lemma plain_tag n n' : nodeTag n' = nodeTag n → plain n' = plain n.
Proof. by destruct n, n'. Qed.

(** ** Monotone callbacks *)

Lemma omapM_mono {A B} (f g : A → outcome B) l ys :
  (∀ x y, x ∈ l → f x = Ok y → g x = Ok y) → omapM f l = Ok ys → omapM g l = Ok ys.
Proof.
  intros Hfg H%omapM_Forall2. apply omapM_Forall2.
  induction H as [|x y l ys Hxy _ IH]; constructor; [apply Hfg; [set_solver|done]|].
  apply IH. intros. apply Hfg; [set_solver|done].
Qed.

Section MutatorMono.
Context (f g : Node → outcome Node) (Hfg : ∀ c c', f c = Ok c' → g c = Ok c').

Lemma list_mutate_mono l l' : omapM f l = Ok l' → omapM g l = Ok l'.
Proof. apply omapM_mono. auto. Qed.
End MutatorMono.
