(* ===== verification/Serialize.v ===== *)
(** * Serialized lambdas

    [backend/utils/adt/lambda_serialize.c]: a lambda value is stored and
    passed around as a varlena whose payload is the [nodeToString] text of the
    [LambdaExpr], padded to a multiple of four bytes.

    The text format itself ([nodeToString], [stringToNode]) is produced by
    generated code, and detoasting belongs to the storage layer: both are
    parameters, bundled in the class [NodeIO]. *)

From S2P Require Import Prelude Bitmapset Nodes NodesFacts.

Definition SERIAL_LAMBDA_MAGIC : Z := 0x1a1a1a1a.

(** [sizeof(SerializedLambda)]: [vl_len_], [nargs] and [magic] *)
Definition SIZEOF_SERIALIZED_LAMBDA : Z := 12.

(** [((len) + 3) & ~3] *)
Definition ALIGN_TO_4 (len : Z) : Z := Z.land (len + 3) (Z.lnot 3).

Class NodeIO := {
  nodeToString : Node → cstr;
  (** reads one node from the front of the text; [None] is a NULL node *)
  stringToNode : cstr → outcome (option Node);
  (** decompress or fetch a varlena that is not in plain form *)
  detoast_attr : cstr → outcome SerializedLambda
}.

Section Serialize.
Context `{NodeIO}.

Definition NUL : ascii := ch 0.

Definition lambdaExprToSerialLambda (expr : LambdaExpr) : SerializedLambda :=
  let s := nodeToString (LambdaNode expr) in
  let len := Z.of_nat (length s) in
  let size := ALIGN_TO_4 (SIZEOF_SERIALIZED_LAMBDA + len) in
  {| sl_nargs := int32 (Z.of_nat (length (argnames (le_hdr expr))));
     sl_magic := SERIAL_LAMBDA_MAGIC;
     sl_data := s ++ repeat NUL (Z.to_nat (size - SIZEOF_SERIALIZED_LAMBDA - len)) |}.

(** the cast of another node to [LambdaExpr *] is undefined *)
Definition lambda_deserialize (sl : SerializedLambda) : outcome (option LambdaExpr) :=
  if negb (sl_magic sl =? SERIAL_LAMBDA_MAGIC) then
    elog (lit "Memory is not aligned properly! Was this lambda created in an older version of Postgres or on a different system?")
  else
    n ← stringToNode (sl_data sl);
    match n with
    | None => Ok None
    | Some (NLambdaExpr h e) => Ok (Some (mkLambdaExpr h e))
    | Some _ => UB
    end.

(** a by-value datum or the address of a node is no varlena *)
Definition PG_DETOAST_DATUM (d : Datum) : outcome SerializedLambda :=
  match d with
  | DVarlena (VPlain sl) => Ok sl
  | DVarlena (VRaw bytes) => detoast_attr bytes
  | DByVal _ | DNodePtr => UB
  end.

(** detoast a datum and deserialize it *)
Definition datum_lambda (d : Datum) : outcome (option LambdaExpr) :=
  sl ← PG_DETOAST_DATUM d; lambda_deserialize sl.

(** [PointerGetDatum(lambdaExprToSerialLambda(le))] *)
Definition lambda_datum (le : LambdaExpr) : Datum := DVarlena (VPlain (lambdaExprToSerialLambda le)).

(** ** Round trip *)

(** the reader consumes exactly what the writer produced and never looks at
    what follows *)
Definition reads_back (le : LambdaExpr) : Prop :=
  ∀ rest, stringToNode (nodeToString (LambdaNode le) ++ rest) = Ok (Some (LambdaNode le)).

Lemma datum_lambda_datum le : reads_back le → datum_lambda (lambda_datum le) = Ok (Some le).
Proof.
  intros Hr. unfold datum_lambda, lambda_datum, lambda_deserialize. simpl.
  rewrite Hr. simpl. by destruct le.
Qed.
End Serialize.

(** the aligned size: a multiple of four, at most three bytes longer *)
Lemma ALIGN_TO_4_spec len : ALIGN_TO_4 len mod 4 = 0 ∧ len ≤ ALIGN_TO_4 len < len + 4.
Proof.
  unfold ALIGN_TO_4. change (Z.lnot 3) with (Z.lnot (Z.ones 2)).
  rewrite <- Z.ldiff_land, Z.ldiff_ones_r, Z.shiftl_mul_pow2, Z.shiftr_div_pow2 by lia.
  change (2 ^ 2) with 4. split; [apply Z.mod_mul; lia|].
  pose proof (Z.div_mod (len + 3) 4 ltac:(lia)). pose proof (Z.mod_pos_bound (len + 3) 4 ltac:(lia)). lia.
Qed.

(** ** A concrete reader and writer for one lambda *)

Definition demo_hdr : LambdaHdr :=
  {| lambdakind := LAMBDA_SCALAR_CONTEXT; argnames := [lit "x"]; argtypes := []; rettype := 701;
     rettypmod := -1; lambdatypmod := 0; is_strict := false; l3_safe := true |}.

Definition demo_param (i : Z) (t : Oid) : Param :=
  {| paramkind := PARAM_EXEC; paramid := i; paramtype := t; paramtypmod := -1;
     paramcollid := 0; param_lambda := true |}.

Definition demo_lambda : LambdaExpr := mkLambdaExpr demo_hdr (Some (NParam (demo_param 0 701))).

Definition demo_io : NodeIO :=
  {| nodeToString _ := lit "{LAMBDAEXPR}";
     stringToNode s := if bool_decide (take 12 s = lit "{LAMBDAEXPR}")
                       then Ok (Some (LambdaNode demo_lambda)) else Ok None;
     detoast_attr _ := UB |}.

(** C34. A lambda survives serialization: if the node reader reads back what
    the node writer wrote (whatever follows in memory), then deserializing the
    serialized form returns the same lambda.  The stored size is a multiple of
    four, the payload is the text padded with fewer than four NUL bytes, and a
    value whose magic number differs is refused. *)
Theorem serialize_roundtrip `{NodeIO} (le : LambdaExpr) :
  reads_back le →
  let sl := lambdaExprToSerialLambda le in
  lambda_deserialize sl = Ok (Some le)
  ∧ (SIZEOF_SERIALIZED_LAMBDA + Z.of_nat (length (sl_data sl))) mod 4 = 0
  ∧ (∃ k, sl_data sl = nodeToString (LambdaNode le) ++ repeat NUL k ∧ (k < 4)%nat)
  ∧ ∀ m, m ≠ SERIAL_LAMBDA_MAGIC →
         is_Ok (lambda_deserialize (mkSerializedLambda (sl_nargs sl) m (sl_data sl))) = false.
Proof.
  intros Hr sl. pose proof (datum_lambda_datum le Hr) as Hd.
  destruct (ALIGN_TO_4_spec (SIZEOF_SERIALIZED_LAMBDA + Z.of_nat (length (nodeToString (LambdaNode le)))))
    as [Hmod Hsize].
  split_and!; [done| | |].
  - unfold sl, lambdaExprToSerialLambda. cbn [sl_data]. rewrite length_app, repeat_length, Nat2Z.inj_add, Z2Nat.id by lia.
    etransitivity; [|exact Hmod]. f_equal. lia.
  - eexists. split; [done|]. lia.
  - intros m Hm. unfold lambda_deserialize. simpl. by rewrite (proj2 (Z.eqb_neq m _)).
Qed.

Lemma serialize_roundtrip_witness :
  @lambda_deserialize demo_io (@lambdaExprToSerialLambda demo_io demo_lambda) = Ok (Some demo_lambda).
Proof.
  refine (proj1 (@serialize_roundtrip demo_io demo_lambda _)). intros rest. reflexivity.
Defined.
