(* ===== verification/Inject.v ===== *)
(** * The lambda injector

    [backend/utils/adt/lambda_injector.c]: inlining of lambda values into the
    body of a higher-order lambda, for column-stored (scalar) lambdas, for
    table-function (row) lambdas, and for partial application.

    [scalar_inject_walk] recurses into the bodies of the lambdas it inlines,
    so it runs on fuel that counts nested calls; [Typing.v] shows that enough
    fuel exists for every lambda that is well typed.  [copyObject] and
    [PG_DETOAST_DATUM_COPY] are the identity on values: the value of a varlena is
    its detoasted contents. *)

From S2P Require Import Prelude Bitmapset Nodes NodesFacts Serialize.

(** what [lsyscache] answers about a type *)
Class TypeCache := get_typlenbyval : Oid → outcome (Z * bool).

(** ** Prescan of a scalar body *)

(** [proto] is [None] when the caller passes NULL *)
Record ScalarPrescan := mkScalarPrescan {
  isFunc : list bool;
  proto : option (list (option Param));
  sp_nargs : Z
}.

Definition set_isFunc (s : ScalarPrescan) (i : Z) : ScalarPrescan :=
  mkScalarPrescan (<[Z.to_nat i := true]> (isFunc s)) (proto s) (sp_nargs s).

(** keep the first Param seen for an input *)
Definition set_proto (s : ScalarPrescan) (p : Param) : ScalarPrescan :=
  match proto s with
  | None => s
  | Some pr =>
      match pr !! Z.to_nat (paramid p) with
      | Some None =>
          mkScalarPrescan (isFunc s) (Some (<[Z.to_nat (paramid p) := Some p]> pr)) (sp_nargs s)
      | _ => s
      end
  end.

Definition is_PARAM_EXEC (p : Param) : bool :=
  match paramkind p with PARAM_EXEC => true | _ => false end.

(** a Param that denotes one of the [nargs] inputs *)
Definition is_input_param (p : Param) (nargs : Z) : bool :=
  is_PARAM_EXEC p && param_lambda p && (0 <=? paramid p) && (paramid p <? nargs).

Fixpoint scalar_prescan_walker (node : Node) (s : ScalarPrescan) {struct node} : bool * ScalarPrescan :=
  match node with
  | NLambdaExpr _ _ => (false, s)
  | NParam p =>
      if is_input_param p (sp_nargs s) then
        let s := if paramtype p =? LAMBDAOID then set_isFunc s (paramid p) else s in
        (false, set_proto s p)
      else (false, s)
  | NLambdaFuncAliasExpr h _ =>
      let k := lfa_fieldSelect_id h in
      let s := if (0 <=? k) && (k <? sp_nargs s) then set_isFunc s k else s in
      expression_tree_walker scalar_prescan_walker node s
  | _ => expression_tree_walker scalar_prescan_walker node s
  end.

(** the arrays as [scalar_prescan] leaves them *)
Definition scalar_prescan (mother : option LambdaExpr) (s : ScalarPrescan) : ScalarPrescan :=
  match mother with
  | Some m =>
      match le_expr m with
      | Some e => if sp_nargs s >? 0 then snd (scalar_prescan_walker e s) else s
      | None => s
      end
  | None => s
  end.

(** [palloc0(sizeof(bool) * nargs)], and likewise for the pointer arrays *)
Definition palloc0_bools (nargs : Z) : list bool := repeat false (Z.to_nat nargs).

Fixpoint has_lfa_walker (node : Node) (found : bool) {struct node} : bool * bool :=
  match node with
  | NLambdaFuncAliasExpr _ _ => (true, true)
  | _ => expression_tree_walker has_lfa_walker node found
  end.

Definition lambda_body_has_lfa (lambda : option LambdaExpr) : bool :=
  match lambda with
  | Some l =>
      match le_expr l with
      | Some e => snd (has_lfa_walker e false)
      | None => false
      end
  | None => false
  end.

(** the indices whose entry is set, ascending; [i] is the index of the head *)
Fixpoint true_indices (i : Z) (l : list bool) : list Z :=
  match l with
  | [] => []
  | b :: l => if b then i :: true_indices (i + 1) l else true_indices (i + 1) l
  end.

(** the indices written to [out]; their number is the result of the C code *)
Definition lambda_scalar_func_inputs (mother : option LambdaExpr) (nargs : Z) : list Z :=
  match mother with
  | Some m =>
      match le_expr m with
      | Some _ =>
          if nargs <=? 0 then []
          else
            let s := scalar_prescan mother (mkScalarPrescan (palloc0_bools nargs) None nargs) in
            true_indices 0 (isFunc s)
      | None => []
      end
  | None => []
  end.

(** ** The scalar inliner *)

Record ScalarBind := mkScalarBind {
  binding : list (option Node);
  sb_nargs : Z;
  slotnames : option (list (option (list cstr)));
  nslots : Z
}.

(** the binding of a Param, if it denotes a bound input *)
Definition bound_param (ctx : ScalarBind) (p : Param) : option Node :=
  if is_input_param p (sb_nargs ctx) then
    match binding ctx !! Z.to_nat (paramid p) with
    | Some (Some b) => Some b
    | _ => None
    end
  else None.

(** a kept call, retargeted to the residual slot [id] *)
Definition retarget_lfa (ctx : ScalarBind) (h : LfaHdr) (id : Z) : LfaHdr :=
  let name :=
    match slotnames ctx with
    | Some names =>
        if (0 <=? id) && (id <? nslots ctx) then
          match names !! Z.to_nat id with
          | Some (Some n) => n
          | _ => lfa_name h
          end
        else lfa_name h
    | None => lfa_name h
    end in
  mkLfaHdr name (lfa_rettype h) (lfa_param_id h) id (lfa_uniqueness h).

(** A child without a body would leave a NULL node in the tree. *)
Fixpoint scalar_inject_walk (fuel : nat) (ctx : ScalarBind) (node : Node) {struct fuel} : outcome Node :=
  match fuel with
  | O => OutOfFuel
  | S fuel =>
      match node with
      | NLambdaExpr _ _ => Ok node
      | NParam p =>
          match bound_param ctx p with
          | Some b => Ok b
          | None => Ok node
          end
      | NLambdaFuncAliasExpr h args =>
          let k := lfa_fieldSelect_id h in
          if (k <? 0) || (k >=? sb_nargs ctx) then
            elog (lit "scalar injector: function input " ++ fmt_d k ++ lit " out of range")
          else
            b ← deref (binding ctx !! Z.to_nat k);
            match b with
            | Some (NLambdaExpr ch ce) =>
                let child_nargs := Z.of_nat (length (argnames ch)) in
                if negb (Z.of_nat (length args) =? child_nargs) then
                  elog (lit "scalar injector: call to input " ++ fmt_d k ++ lit " passes "
                        ++ fmt_d (Z.of_nat (length args)) ++ lit " args, expected " ++ fmt_d child_nargs)
                else
                  child_binding ← omapM (scalar_inject_walk fuel ctx) args;
                  body ← deref ce;
                  scalar_inject_walk fuel
                    (mkScalarBind (Some <$> child_binding) child_nargs (slotnames ctx) (nslots ctx)) body
            | Some (NParam p) =>
                newargs ← omapM (scalar_inject_walk fuel ctx) args;
                Ok (NLambdaFuncAliasExpr (retarget_lfa ctx h (paramid p)) newargs)
            | _ => elog (lit "scalar injector: input " ++ fmt_d k ++ lit " is not a function")
            end
      | _ => expression_tree_mutator (scalar_inject_walk fuel ctx) node
      end
  end.

(** ** Full application of a scalar lambda *)

Section ScalarInjector.
Context `{NodeIO} `{TypeCache}.

Definition LambdaNode_opt (l : option LambdaExpr) : option Node := LambdaNode <$> l.

(** the bindings of [lambda_injector_scalar]: function inputs to their lambda
    values, other inputs unbound *)
Fixpoint bind_func_inputs (i : Z) (isfunc : list bool) (argvalues : list Datum) (argnulls : list bool)
  : outcome (list (option Node)) :=
  match isfunc with
  | [] => Ok []
  | f :: isfunc =>
      b ← (if negb f then Ok None
           else
             isnull ← deref (head argnulls);
             if isnull : bool then
               elog (lit "scalar injector: function input " ++ fmt_d i ++ lit " is NULL")
             else
               v ← deref (head argvalues);
               le ← datum_lambda v;
               Ok (LambdaNode_opt le));
      bs ← bind_func_inputs (i + 1) isfunc (tail argvalues) (tail argnulls);
      Ok (b :: bs)
  end.

(** [NULL] for a mother is an error, a mother without a body keeps none *)
Definition lambda_injector_scalar (fuel : nat) (mother : option LambdaExpr) (argvalues : list Datum)
    (argnulls : list bool) (nargs : Z) : outcome LambdaExpr :=
  match mother with
  | None => elog (lit "expected a LambdaExpr in scalar injector")
  | Some m =>
      let s := scalar_prescan mother (mkScalarPrescan (palloc0_bools nargs) None nargs) in
      bs ← bind_func_inputs 0 (isFunc s) argvalues argnulls;
      let ctx := mkScalarBind bs nargs None 0 in
      e ← match le_expr m with
          | None => Ok None
          | Some e => Some <$> scalar_inject_walk fuel ctx e
          end;
      Ok (mkLambdaExpr (le_hdr m) e)
  end.

(** ** Partial application *)

(** [rp = makeNode(Param)] with the fields the code sets *)
Definition synth_param : Param :=
  mkParam PARAM_EXEC 0 LAMBDAOID (-1) InvalidOid true.

Definition with_paramid (p : Param) (i : Z) : Param :=
  mkParam (paramkind p) i (paramtype p) (paramtypmod p) (paramcollid p) (param_lambda p).

(** dense residual indices of the held positions among the first [n],
    in mother order; positions that are not held get 0 *)
Fixpoint residual_indices (held : Bitmapset) (ps : list Z) (hidx : Z) : outcome (list Z) :=
  match ps with
  | [] => Ok []
  | p :: ps =>
      h ← bms_is_member p held;
      if h : bool then
        l ← residual_indices held ps (hidx + 1); Ok (hidx :: l)
      else
        l ← residual_indices held ps hidx; Ok (0 :: l)
  end.

(** what the binding loop accumulates: the binding of each position, the
    residual argument names and the slot names *)
Record PartialState := mkPartialState {
  ps_binding : list (option Node);
  ps_argnames : list cstr;
  ps_slotnames : list (option (list cstr))
}.

(** one iteration for position [p] with residual index [newidx] *)
Definition partial_bind (mother : LambdaExpr) (s : ScalarPrescan) (held : Bitmapset)
    (vals : list Datum) (nulls : list bool) (p newidx : Z) (st : PartialState) : outcome PartialState :=
  h ← bms_is_member p held;
  pr ← deref (match proto s with Some l => l !! Z.to_nat p | None => None end);
  if h : bool then
    let rp := match pr with Some q => q | None => synth_param end in
    name ← deref (argnames (le_hdr mother) !! Z.to_nat p);
    Ok (mkPartialState (ps_binding st ++ [Some (NParam (with_paramid rp newidx))])
          (ps_argnames st ++ [name])
          (<[Z.to_nat newidx := Some [name]]> (ps_slotnames st)))
  else
    isf ← deref (isFunc s !! Z.to_nat p);
    b ← (if isf : bool then
           isnull ← deref (nulls !! Z.to_nat p);
           if isnull : bool then
             elog (lit "partial apply: filled function input " ++ fmt_d p ++ lit " is NULL")
           else
             v ← deref (vals !! Z.to_nat p);
             le ← datum_lambda v;
             Ok (LambdaNode_opt le)
         else
           match pr with
           | Some pp =>
               '(typlen, typbyval) ← get_typlenbyval (paramtype pp);
               isnull ← deref (nulls !! Z.to_nat p);
               v ← deref (vals !! Z.to_nat p);
               Ok (Some (NConst (mkConst (paramtype pp) (paramtypmod pp) (paramcollid pp) typlen
                                   (if isnull : bool then DByVal 0 else v) isnull typbyval)))
           | None => Ok None
           end);
    Ok (mkPartialState (ps_binding st ++ [b]) (ps_argnames st) (ps_slotnames st)).

Fixpoint partial_bind_loop (mother : LambdaExpr) (s : ScalarPrescan) (held : Bitmapset)
    (vals : list Datum) (nulls : list bool) (ps newidx : list Z) (st : PartialState)
  : outcome PartialState :=
  match ps, newidx with
  | p :: ps, i :: newidx =>
      st ← partial_bind mother s held vals nulls p i st;
      partial_bind_loop mother s held vals nulls ps newidx st
  | _, _ => Ok st
  end.

(** the header of the residual lambda, after [makeNode(LambdaExpr)] *)
Definition residual_hdr (mother : LambdaExpr) (new_argnames : list cstr) : LambdaHdr :=
  {| lambdakind := LAMBDA_SCALAR_CONTEXT; argnames := new_argnames; argtypes := [];
     rettype := rettype (le_hdr mother); rettypmod := rettypmod (le_hdr mother);
     lambdatypmod := -1; is_strict := is_strict (le_hdr mother); l3_safe := false |}.

Definition lambda_partial_apply (fuel : nat) (mother : option LambdaExpr) (held : Bitmapset)
    (vals : list Datum) (nulls : list bool) (nargs : Z) : outcome LambdaExpr :=
  match mother with
  | None => elog (lit "partial apply: empty mother lambda")
  | Some m =>
      match le_expr m with
      | None => elog (lit "partial apply: empty mother lambda")
      | Some body =>
          let n := Z.to_nat nargs in
          let s := scalar_prescan mother
                     (mkScalarPrescan (palloc0_bools nargs) (Some (repeat None n)) nargs) in
          newidx ← residual_indices held (seqZ 0 nargs) 0;
          st ← partial_bind_loop m s held vals nulls (seqZ 0 nargs) newidx
                 (mkPartialState [] [] (repeat None n));
          let ctx := mkScalarBind (ps_binding st) nargs (Some (ps_slotnames st)) nargs in
          e ← scalar_inject_walk fuel ctx body;
          Ok (mkLambdaExpr (residual_hdr m (ps_argnames st)) (Some e))
      end
  end.
End ScalarInjector.

(** ** Injection into a row-context lambda *)

(** flat position of column [colIdx] of row [rowIdx]; [idx1] and [tmp_res] are
    the loop's counters *)
Fixpoint find_arg_loop (rows : list (list LambdaInputParam)) (rowIdx colIdx idx1 tmp_res : Z) : outcome Z :=
  match rows with
  | [] => elog (lit "attempting to access row out of range: " ++ fmt_d rowIdx ++ lit " in injection!")
  | row :: rows =>
      if rowIdx =? idx1 then
        if (colIdx >=? Z.of_nat (length row)) || (colIdx <? 0) then
          elog (lit "attempting to access column out of range: " ++ fmt_d colIdx ++ lit " in injection!")
        else Ok (tmp_res + colIdx)
      else find_arg_loop rows rowIdx colIdx (idx1 + 1) (tmp_res + Z.of_nat (length row))
  end.

Definition find_arg_from_rowAlias_colId (lambda : LambdaExpr) (rowIdx colIdx : Z) : outcome Z :=
  find_arg_loop (argtypes (le_hdr lambda)) rowIdx colIdx 0 0.

(** [list_nth(l, i)] *)
Definition list_nth {A} (l : list A) (i : Z) : outcome A :=
  if i <? 0 then UB else deref (l !! Z.to_nat i).

(** The input accesses of an injected row-context body, redirected to the
    arguments of the call.  Overwriting [args] of an argument that is no
    [LambdaFuncAliasExpr], or reading a [FieldSelect] that is not over a
    [Param], is undefined. *)
Fixpoint adjust_input_nodes_walker_callback (current_lambda : LambdaExpr) (cargs : list Node)
    (node : Node) {struct node} : outcome Node :=
  match node with
  | NLambdaFuncAliasExpr cur args =>
      idx ← find_arg_from_rowAlias_colId current_lambda (lfa_param_id cur - 1) (lfa_fieldSelect_id cur - 1);
      correct ← list_nth cargs idx;
      match correct with
      | NLambdaFuncAliasExpr correct_lfa _ =>
          NLambdaFuncAliasExpr correct_lfa
            <$> omapM (adjust_input_nodes_walker_callback current_lambda cargs) args
      | _ => UB
      end
  | NFieldSelect fieldnum _ arg =>
      match arg with
      | NParam cur_param =>
          idx ← find_arg_from_rowAlias_colId current_lambda (paramid cur_param - 1) (fieldnum - 1);
          correct_arg ← list_nth cargs idx;
          match correct_arg with
          | NLambdaFuncAliasExpr _ _ =>
              elog (lit "Lambda tried to access passed lambda-arg as fieldSelect input!")
          | _ => Ok correct_arg
          end
      | _ => UB
      end
  | _ => expression_tree_mutator (adjust_input_nodes_walker_callback current_lambda cargs) node
  end.

Fixpoint NameListToString (names : list cstr) : cstr :=
  match names with
  | [] => []
  | [n] => n
  | n :: names => n ++ lit "." ++ NameListToString names
  end.

(** the mother's deserialized arguments: per row, per column; NULL for an
    atomic column *)
Abbreviation MotherArgs := (list (list (option Node))).

(** the lambda a row-context name refers to *)
Definition mother_arg (margs : MotherArgs) (param_id fieldSelect_id : Z) (what : cstr) : outcome (option Node) :=
  if (param_id <=? 0) || (param_id >? Z.of_nat (length margs)) then
    elog (what ++ lit "param_id " ++ fmt_d param_id ++ lit " out of bounds")
  else
    tuple ← list_nth margs (param_id - 1);
    if (fieldSelect_id <=? 0) || (fieldSelect_id >? Z.of_nat (length tuple)) then
      elog (what ++ lit "fieldSelect_id " ++ fmt_d fieldSelect_id ++ lit " out of bounds")
    else list_nth tuple (fieldSelect_id - 1).

(** a call argument as the binding of the child's input *)
Definition row_call_binding (margs : MotherArgs) (arg : Node) : outcome (option Node) :=
  match arg with
  | NLambdaFuncAliasExpr fa [] =>
      mother_arg margs (lfa_param_id fa) (lfa_fieldSelect_id fa) (lit "scalar child arg ")
  | _ => Ok (Some arg)
  end.

Definition inject_scalar_child_from_row_context (fuel : nat) (child : LambdaExpr) (callArgs : list Node)
    (margs : MotherArgs) : outcome Node :=
  let child_nargs := Z.of_nat (length (argnames (le_hdr child))) in
  if negb (Z.of_nat (length callArgs) =? child_nargs) then
    elog (lit "scalar child called with " ++ fmt_d (Z.of_nat (length callArgs)) ++ lit " args, expected "
          ++ fmt_d child_nargs)
  else
    bs ← omapM (row_call_binding margs) callArgs;
    body ← deref (le_expr child);
    scalar_inject_walk fuel (mkScalarBind bs child_nargs None 0) body.

Fixpoint mother_mutator_callback (fuel : nat) (margs : MotherArgs) (node : Node) {struct fuel} : outcome Node :=
  match fuel with
  | O => OutOfFuel
  | S fuel =>
      match node with
      | NLambdaFuncAliasExpr lfa args =>
          target ← mother_arg margs (lfa_param_id lfa) (lfa_fieldSelect_id lfa) (lit "LFA ");
          match target with
          | Some (NLambdaExpr th te) =>
              let targetLambda := mkLambdaExpr th te in
              match lambdakind th with
              | LAMBDA_SCALAR_CONTEXT =>
                  inject_scalar_child_from_row_context fuel targetLambda args margs
              | LAMBDA_ROW_CONTEXT =>
                  body ← deref te;
                  adjusted ← expression_tree_mutator
                    (adjust_input_nodes_walker_callback targetLambda args) body;
                  expression_tree_mutator (mother_mutator_callback fuel margs) adjusted
              end
          | _ => elog (lit "No valid lambda found for LFA " ++ NameListToString (lfa_name lfa))
          end
      | _ => expression_tree_mutator (mother_mutator_callback fuel margs) node
      end
  end.

Section RowInjector.
Context `{NodeIO}.

(** the lambdas of one input row; a NULL result of the deserializer is
    dereferenced by the kind test *)
Fixpoint collect_row (row : list LambdaInputParam) (data : list Datum) : outcome (list (option Node)) :=
  match row with
  | [] => Ok []
  | input :: row =>
      a ← (if lip_isAtomic input then Ok None
           else
             d ← deref (head data);
             le ← datum_lambda d;
             inner ← deref le;
             match lambdakind (le_hdr inner) with
             | LAMBDA_SCALAR_CONTEXT => Ok (Some (LambdaNode inner))
             | LAMBDA_ROW_CONTEXT => elog (lit "Non-column-stored Lambda function passed to injector!")
             end);
      rest ← collect_row row (tail data);
      Ok (a :: rest)
  end.

(** [innerLambdas[tupleIdx]] is only read for a row that has a function column *)
Fixpoint collect_args (rows : list (list LambdaInputParam)) (innerLambdas : list (list Datum))
  : outcome MotherArgs :=
  match rows with
  | [] => Ok []
  | row :: rows =>
      r ← collect_row row (default [] (head innerLambdas));
      rs ← collect_args rows (tail innerLambdas);
      Ok (r :: rs)
  end.

Definition lambda_injector (fuel : nat) (lambda : option LambdaExpr) (innerLambdas : list (list Datum))
  : outcome LambdaExpr :=
  match lambda with
  | None => elog (lit "expected a LambdaExpr in injector")
  | Some l =>
      margs ← collect_args (argtypes (le_hdr l)) innerLambdas;
      e ← opt_mutate (mother_mutator_callback fuel margs) (le_expr l);
      Ok (mkLambdaExpr (le_hdr l) e)
  end.
End RowInjector.
