(* ===== verification/InjectFacts.v ===== *)
(** * Facts about the injector

    More fuel never changes a result; what the prescan records; a plain node
    is rewritten child by child. *)

From S2P Require Import Prelude Bitmapset Nodes NodesFacts Serialize Inject.

Lemma mutator_fuel_le f g n :
  (∀ c, fuel_le (f c) (g c)) → fuel_le (expression_tree_mutator f n) (expression_tree_mutator g n).
Proof. intros Hf. destruct n; cbn [expression_tree_mutator]; unfold when_mutate, opt_mutate; fuel_mono. Qed.

Lemma inject_fuel_le fuel : ∀ fuel' ctx e,
  (fuel ≤ fuel')%nat → fuel_le (scalar_inject_walk fuel ctx e) (scalar_inject_walk fuel' ctx e).
Proof.
  induction fuel as [|fuel IH]; intros [|fuel'] ctx e Hf; [by left|by left|lia|].
  assert (∀ ctx c, fuel_le (scalar_inject_walk fuel ctx c) (scalar_inject_walk fuel' ctx c)) as Hc by (intros; apply IH; lia).
  destruct e; cbn [scalar_inject_walk]; try (apply mutator_fuel_le; intros; apply Hc); fuel_mono.
Qed.

Lemma inject_mono fuel fuel' ctx e e' :
  (fuel ≤ fuel')%nat → scalar_inject_walk fuel ctx e = Ok e' → scalar_inject_walk fuel' ctx e = Ok e'.
Proof. intros Hf He. by eapply fuel_le_eq; [apply inject_fuel_le|..]. Qed.

(** one fuel for a list of arguments *)
Lemma inject_list_fuel {T} ctx (Q : T → Node → Prop) l ts :
  Forall2 (fun e t => ∃ fuel e', scalar_inject_walk fuel ctx e = Ok e' ∧ Q t e') l ts →
  ∃ fuel l', omapM (scalar_inject_walk fuel ctx) l = Ok l' ∧ Forall2 Q ts l'.
Proof.
  induction 1 as [|e t l ts (f1 & e' & He & Hq) _ (f2 & l' & Hl & Hqs)].
  { exists O, []. by split. }
  exists (max f1 f2), (e' :: l'). split; [|by constructor]. simpl.
  rewrite (inject_mono f1 _ _ _ _ (Nat.le_max_l _ _) He). simpl.
  rewrite (list_mutate_mono _ _ (fun c c' => inject_mono f2 _ ctx c c' (Nat.le_max_r _ _)) _ _ Hl). done.
Qed.

(** plain nodes are rewritten child by child *)
Lemma inject_plain fuel ctx e :
  plain e = true →
  scalar_inject_walk (S fuel) ctx e = expression_tree_mutator (scalar_inject_walk fuel ctx) e.
Proof. by destruct e. Qed.

Lemma inject_plain_inv fuel ctx e e' :
  plain e = true → scalar_inject_walk (S fuel) ctx e = Ok e' →
  nodeTag e' = nodeTag e ∧ plain e' = true
  ∧ Forall2 (fun c c' => scalar_inject_walk fuel ctx c = Ok c') (children e) (children e').
Proof.
  intros Hp H. rewrite inject_plain in H by done. apply mutator_children in H as [Ht Hc].
  by rewrite (plain_tag _ _ Ht).
Qed.

(** the scope of an inlined child *)
Definition child_ctx (ctx : ScalarBind) (es : list Node) : ScalarBind :=
  mkScalarBind (Some <$> es) (Z.of_nat (length es)) (slotnames ctx) (nslots ctx).

(** a call of an open input is kept, a call of a bound lambda is inlined *)
Lemma inject_lfa_param fuel ctx h args p es :
  0 ≤ lfa_fieldSelect_id h < sb_nargs ctx →
  binding ctx !! Z.to_nat (lfa_fieldSelect_id h) = Some (Some (NParam p)) →
  omapM (scalar_inject_walk fuel ctx) args = Ok es →
  scalar_inject_walk (S fuel) ctx (NLambdaFuncAliasExpr h args)
  = Ok (NLambdaFuncAliasExpr (retarget_lfa ctx h (paramid p)) es).
Proof.
  intros [H0 H1] Hb He. simpl. rewrite (proj2 (Z.ltb_ge _ 0)), Z.geb_leb, (proj2 (Z.leb_gt _ _)) by done.
  simpl. rewrite Hb. simpl. by rewrite He.
Qed.

Lemma inject_lfa_lambda fuel ctx h args ch body es e' :
  0 ≤ lfa_fieldSelect_id h < sb_nargs ctx →
  binding ctx !! Z.to_nat (lfa_fieldSelect_id h) = Some (Some (NLambdaExpr ch (Some body))) →
  length args = length (argnames ch) →
  omapM (scalar_inject_walk fuel ctx) args = Ok es →
  scalar_inject_walk fuel (child_ctx ctx es) body = Ok e' →
  scalar_inject_walk (S fuel) ctx (NLambdaFuncAliasExpr h args) = Ok e'.
Proof.
  intros [H0 H1] Hb Hl He Hbody. simpl.
  rewrite (proj2 (Z.ltb_ge _ 0)), Z.geb_leb, (proj2 (Z.leb_gt _ _)) by done.
  simpl. rewrite Hb. simpl. rewrite Hl, Z.eqb_refl. simpl. rewrite He. simpl.
  rewrite <- Hbody. unfold child_ctx. by rewrite (omapM_length _ _ _ He), Hl.
Qed.

Lemma inject_lfa_inv fuel ctx h args e' :
  scalar_inject_walk (S fuel) ctx (NLambdaFuncAliasExpr h args) = Ok e' →
  0 ≤ lfa_fieldSelect_id h < sb_nargs ctx
  ∧ ∃ es, omapM (scalar_inject_walk fuel ctx) args = Ok es
    ∧ ((∃ p, binding ctx !! Z.to_nat (lfa_fieldSelect_id h) = Some (Some (NParam p))
             ∧ e' = NLambdaFuncAliasExpr (retarget_lfa ctx h (paramid p)) es)
       ∨ ∃ ch body, binding ctx !! Z.to_nat (lfa_fieldSelect_id h) = Some (Some (NLambdaExpr ch (Some body)))
             ∧ length args = length (argnames ch)
             ∧ scalar_inject_walk fuel (child_ctx ctx es) body = Ok e').
Proof.
  simpl. destruct (_ || _) eqn:Hk; [done|].
  apply orb_false_iff in Hk as [H0%Z.ltb_ge H1]. rewrite Z.geb_leb in H1. apply Z.leb_gt in H1.
  intros H. split; [done|]. destruct (binding ctx !! _) as [b|] eqn:Hb; [simpl in H|done].
  destruct b as [b|]; [|done]. destruct b; try done.
  - outcome_inv. eauto 8.
  - destruct (negb _) eqn:Hl; [done|]. outcome_inv.
    apply negb_false_iff, Z.eqb_eq in Hl. eexists. split; [done|]. right.
    destruct expr as [body|]; [|done]. simpl in Hok0. injection Hok0 as ->.
    exists h0, a0. split_and!; [done|lia|]. unfold child_ctx.
    rewrite (omapM_length _ _ _ Hok). by rewrite Hl.
Qed.

(** ** Inputs a body refers to *)

(** a reference to an input: a Param, or the callee of a call *)
Inductive ref := RParam (p : Param) | RCall (k : Z).

(** the references of a body, outside embedded lambdas, in the order of a walk *)
Fixpoint refs_of (e : Node) : list ref :=
  match e with
  | NLambdaExpr _ _ => []
  | NParam p => [RParam p]
  | NLambdaFuncAliasExpr h args => RCall (lfa_fieldSelect_id h) :: flat_map refs_of args
  | NFuncExpr _ args | NOpExpr _ args | NDistinctExpr _ args | NNullIfExpr _ args
  | NBoolExpr _ args | NArrayExpr _ args | NCoalesceExpr _ args
  | NMinMaxExpr _ _ _ args => flat_map refs_of args
  | NFieldSelect _ _ arg | NRelabelType _ arg
  | NNullTest _ arg | NBooleanTest _ arg => refs_of arg
  | NCaseExpr _ whens def =>
      flat_map (fun w => refs_of (fst w) ++ refs_of (snd w)) whens
      ++ match def with Some d => refs_of d | None => [] end
  | NCallLambdaExpr _ l args => refs_of l ++ flat_map refs_of args
  | NVar _ | NConst _ | NHolePlaceholder => []
  end.

Definition ref_index (nargs : Z) (r : ref) : option nat :=
  match r with
  | RParam p => if is_input_param p nargs then Some (Z.to_nat (paramid p)) else None
  | RCall k => if (0 <=? k) && (k <? nargs) then Some (Z.to_nat k) else None
  end.

(** input [i] is referenced *)
Definition refs (nargs : Z) (i : nat) (e : Node) : Prop := i ∈ omap (ref_index nargs) (refs_of e).

Lemma refs_of_whens whens :
  flat_map (fun w => refs_of (fst w) ++ refs_of (snd w)) whens = flat_map refs_of (when_nodes whens).
Proof. induction whens as [|[e r] l IH]; simpl; [done|]. by rewrite IH, <- app_assoc. Qed.

Lemma refs_of_children e :
  nodeTag e ≠ T_LambdaExpr → nodeTag e ≠ T_Param →
  refs_of e = match e with
              | NLambdaFuncAliasExpr h _ => [RCall (lfa_fieldSelect_id h)]
              | _ => []
              end ++ flat_map refs_of (children e).
Proof.
  intros H1 H2. destruct e; try done; simpl; rewrite ?app_nil_r; try done.
  rewrite flat_map_app, refs_of_whens. f_equal. destruct defresult; simpl; by rewrite ?app_nil_r.
Qed.

Lemma refs_child nargs i e c :
  nodeTag e ≠ T_LambdaExpr → c ∈ children e → refs nargs i c → refs nargs i e.
Proof.
  intros Ht Hc. unfold refs. destruct (decide (nodeTag e = T_Param)) as [Hp|Hp].
  { destruct e; try done. set_solver. }
  rewrite (refs_of_children e Ht Hp), omap_app. intros Hi. apply elem_of_app. right.
  apply list_elem_of_omap in Hi as (r & Hr & Hi). apply list_elem_of_omap. exists r. split; [|done].
  apply list_elem_of_In, in_flat_map. exists c. by rewrite <- !list_elem_of_In.
Qed.

(** ** The prescan *)

Definition prescan_ref (s : ScalarPrescan) (r : ref) : ScalarPrescan :=
  match r with
  | RParam p =>
      if is_input_param p (sp_nargs s) then
        set_proto (if paramtype p =? LAMBDAOID then set_isFunc s (paramid p) else s) p
      else s
  | RCall k => if (0 <=? k) && (k <? sp_nargs s) then set_isFunc s k else s
  end.

Lemma prescan_list_walk (w : Node → ScalarPrescan → bool * ScalarPrescan) l s :
  Forall (fun c => ∀ s, w c s = (false, foldl prescan_ref s (refs_of c))) l →
  list_walk w l s = (false, foldl prescan_ref s (flat_map refs_of l)).
Proof.
  intros H; revert s; induction H as [|c l Hc _ IH]; intros s; simpl; [done|].
  rewrite Hc, IH, foldl_app. done.
Qed.

(** the prescan folds over the references and never stops early *)
Lemma prescan_walker_spec e s :
  scalar_prescan_walker e s = (false, foldl prescan_ref s (refs_of e)).
Proof.
  revert s. induction e as [e IH] using node_ind'. intros s.
  destruct (decide (nodeTag e = T_LambdaExpr)); [by destruct e|].
  destruct (decide (nodeTag e = T_Param)) as [Hp|Hp].
  { destruct e; try done. simpl. by destruct (is_input_param p (sp_nargs s)). }
  rewrite refs_of_children, foldl_app by done.
  pose proof (fun s => prescan_list_walk scalar_prescan_walker (children e) s IH) as Hw.
  rewrite <- Hw, <- walker_children. by destruct e.
Qed.

(** a reference that marks its input as function-valued *)
Definition func_ref (r : ref) : bool :=
  match r with RParam p => paramtype p =? LAMBDAOID | RCall _ => true end.

Lemma input_param_range p nargs :
  is_input_param p nargs = true → paramkind p = PARAM_EXEC ∧ param_lambda p = true ∧ 0 ≤ paramid p < nargs.
Proof.
  unfold is_input_param, is_PARAM_EXEC.
  intros [[[Hk Hl]%andb_prop H0%Z.leb_le]%andb_prop H1%Z.ltb_lt]%andb_prop.
  destruct (paramkind p); done.
Qed.

Lemma set_isFunc_lookup s k i :
  (Z.to_nat k < length (isFunc s))%nat →
  isFunc (set_isFunc s k) !! i = if decide (i = Z.to_nat k) then Some true else isFunc s !! i.
Proof.
  intros Hk. simpl. destruct (decide (i = Z.to_nat k)) as [->|].
  - by apply list_lookup_insert_eq.
  - by apply list_lookup_insert_ne.
Qed.

Lemma set_proto_isFunc s p : isFunc (set_proto s p) = isFunc s.
Proof. unfold set_proto. destruct (proto s) as [pr|]; [|done]. by destruct (pr !! _) as [[]|]. Qed.

Lemma set_proto_nargs s p : sp_nargs (set_proto s p) = sp_nargs s.
Proof. unfold set_proto. destruct (proto s) as [pr|]; [|done]. by destruct (pr !! _) as [[]|]. Qed.

Lemma prescan_ref_nargs s r : sp_nargs (prescan_ref s r) = sp_nargs s.
Proof.
  destruct r as [p|k]; simpl; [|by destruct (_ && _)].
  destruct (is_input_param p (sp_nargs s)); [|done]. rewrite set_proto_nargs.
  by destruct (paramtype p =? LAMBDAOID).
Qed.

Lemma prescan_ref_isFunc s r i :
  sp_nargs s = Z.of_nat (length (isFunc s)) →
  length (isFunc (prescan_ref s r)) = length (isFunc s)
  ∧ (isFunc (prescan_ref s r) !! i = Some true
     ↔ isFunc s !! i = Some true ∨ ref_index (sp_nargs s) r = Some i ∧ func_ref r = true).
Proof.
  intros Hn. destruct r as [p|k]; simpl.
  - destruct (is_input_param p (sp_nargs s)) eqn:Hp; [|naive_solver].
    rewrite set_proto_isFunc. apply input_param_range in Hp as (_ & _ & Hp).
    destruct (paramtype p =? LAMBDAOID); [|naive_solver].
    split; [simpl; by rewrite length_insert|]. rewrite set_isFunc_lookup by lia.
    destruct (decide (i = Z.to_nat (paramid p))); naive_solver.
  - destruct ((0 <=? k) && (k <? sp_nargs s)) eqn:Hk; [|naive_solver].
    apply andb_prop in Hk as [H0%Z.leb_le H1%Z.ltb_lt].
    split; [simpl; by rewrite length_insert|]. rewrite set_isFunc_lookup by lia.
    destruct (decide (i = Z.to_nat k)); naive_solver.
Qed.

(** the inputs marked after a prescan *)
Lemma prescan_isFunc rs s i :
  sp_nargs s = Z.of_nat (length (isFunc s)) →
  let s' := foldl prescan_ref s rs in
  sp_nargs s' = sp_nargs s ∧ length (isFunc s') = length (isFunc s)
  ∧ (isFunc s' !! i = Some true
     ↔ isFunc s !! i = Some true
       ∨ ∃ r, r ∈ rs ∧ ref_index (sp_nargs s) r = Some i ∧ func_ref r = true).
Proof.
  revert s; induction rs as [|r rs IH]; intros s Hn; simpl.
  { split_and!; try done. set_solver. }
  destruct (prescan_ref_isFunc s r i Hn) as [Hl Hi]. pose proof (prescan_ref_nargs s r) as Hsn.
  destruct (IH (prescan_ref s r)) as (Hn' & Hl' & Hi'); [congruence|].
  split_and!; [congruence|congruence|]. rewrite Hi', Hi, Hsn. set_solver.
Qed.

Lemma prescan_ref_proto s r pr :
  proto s = Some pr → sp_nargs s = Z.of_nat (length pr) →
  ∃ pr', proto (prescan_ref s r) = Some pr' ∧ length pr' = length pr
  ∧ ∀ i, (∀ p, pr' !! i = Some (Some p) →
               pr !! i = Some (Some p) ∨ r = RParam p ∧ ref_index (sp_nargs s) r = Some i)
         ∧ (pr' !! i = Some None →
            pr !! i = Some None ∧ ∀ p, r = RParam p → ref_index (sp_nargs s) r ≠ Some i).
Proof.
  intros Hpr Hn. destruct r as [p|k]; simpl.
  2:{ exists pr. split_and!; [by destruct (_ && _)|done|naive_solver]. }
  destruct (is_input_param p (sp_nargs s)) eqn:Hp; [|exists pr; naive_solver].
  apply input_param_range in Hp as (_ & _ & Hp).
  set (s1 := if paramtype p =? LAMBDAOID then _ else s).
  assert (proto s1 = Some pr) as Hs1 by (unfold s1; by destruct (_ =? _)).
  unfold set_proto. rewrite Hs1.
  destruct (pr !! Z.to_nat (paramid p)) as [[q|]|] eqn:Hq.
  - exists pr. split_and!; [done|done|]. intros i. split; [naive_solver|]. intros Hi.
    split; [done|]. intros p' [= <-] [= Hi']. congruence.
  - eexists. split; [done|]. split; [by rewrite length_insert|]. intros i.
    apply lookup_lt_Some in Hq as Hlt.
    destruct (decide (i = Z.to_nat (paramid p))) as [->|].
    + rewrite list_lookup_insert_eq by done. split; [|done]. intros p' [= <-]. by right.
    + rewrite list_lookup_insert_ne by done. split; [naive_solver|]. intros Hi. split; [done|].
      intros p' [= <-]. naive_solver.
  - apply lookup_ge_None in Hq. lia.
Qed.

(** the representative Params after a prescan *)
Lemma prescan_proto rs s pr :
  proto s = Some pr → sp_nargs s = Z.of_nat (length pr) →
  ∃ pr', proto (foldl prescan_ref s rs) = Some pr' ∧ length pr' = length pr
  ∧ ∀ i, (∀ p, pr' !! i = Some (Some p) →
               pr !! i = Some (Some p) ∨ RParam p ∈ rs ∧ ref_index (sp_nargs s) (RParam p) = Some i)
         ∧ (pr' !! i = Some None →
            pr !! i = Some None
            ∧ ∀ p, RParam p ∈ rs → ref_index (sp_nargs s) (RParam p) ≠ Some i).
Proof.
  revert s pr; induction rs as [|r rs IH]; intros s pr Hpr Hn; simpl.
  { exists pr. split_and!; try done. intros i. split; [naive_solver|]. set_solver. }
  destruct (prescan_ref_proto s r pr Hpr Hn) as (pr1 & Hpr1 & Hl1 & H1).
  pose proof (prescan_ref_nargs s r) as Hsn.
  destruct (IH _ pr1 Hpr1) as (pr' & Hpr' & Hl' & H'); [congruence|].
  exists pr'. split_and!; [done|congruence|]. intros i. rewrite Hsn in H'.
  destruct (H1 i) as [Ha Hb], (H' i) as [Ha' Hb']. split.
  - intros p Hp. destruct (Ha' p Hp) as [Hq|[Hin Hi]]; [|set_solver].
    destruct (Ha p Hq) as [?|[-> ?]]; set_solver.
  - intros Hnone. destruct (Hb' Hnone) as [Hn1 Hno]. destruct (Hb Hn1) as [Hn0 Hr].
    split; [done|]. intros p Hin. apply elem_of_cons in Hin as [<-|Hin]; [|by apply Hno].
    by apply (Hr p).
Qed.
