(* ===== verification/Typing.v ===== *)
(** * Lambda types and totality of the injector

    The types a lambda signature can express: atomic inputs and function
    inputs with atomic result.  The injector itself never looks at types; that
    bodies are well typed is what keeps it from diverging or from meeting a
    non-function in call position.  This file states that discipline
    ([check]) and proves that under it inlining always terminates, keeps
    bodies well typed and removes every call of a bound function input. *)

From S2P Require Import Prelude Bitmapset Nodes NodesFacts Serialize Inject InjectFacts.

#[local] Unset Elimination Schemes.
Inductive sty := TAtom | TFun (args : list sty).
#[local] Set Elimination Schemes.

Definition is_fun (t : sty) : bool := match t with TAtom => false | TFun _ => true end.

(** pointwise relation on two lists of the same length, by recursion on the
    first *)
Fixpoint all2 {A B} (P : A → B → Prop) (l : list A) (k : list B) : Prop :=
  match l, k with
  | [], [] => True
  | x :: l, y :: k => P x y ∧ all2 P l k
  | _, _ => False
  end.

(** every member of a list and of the parts of a CASE *)
Fixpoint all {A} (P : A → Prop) (l : list A) : Prop :=
  match l with [] => True | x :: l => P x ∧ all P l end.

Definition all_opt {A} (P : A → Prop) (o : option A) : Prop :=
  match o with None => True | Some x => P x end.

Fixpoint all_whens (P : Node → Prop) (l : list (Node * Node)) : Prop :=
  match l with [] => True | (e, r) :: l => P e ∧ P r ∧ all_whens P l end.

(** [check Γ e t]: in a body whose inputs have the types [Γ], the expression
    [e] can be used at type [t] *)
Fixpoint check (Γ : list sty) (e : Node) (t : sty) {struct e} : Prop :=
  match e with
  | NParam p =>
      is_input_param p (Z.of_nat (length Γ)) = true
      ∧ Γ !! Z.to_nat (paramid p) = Some t
      ∧ (paramtype p =? LAMBDAOID) = is_fun t
  | NHolePlaceholder => False
  | NLambdaExpr h e =>
      match t, e with
      | TFun ts, Some b => length (argnames h) = length ts ∧ check ts b TAtom
      | _, _ => False
      end
  | NLambdaFuncAliasExpr h args =>
      t = TAtom ∧ 0 ≤ lfa_fieldSelect_id h
      ∧ match Γ !! Z.to_nat (lfa_fieldSelect_id h) with
        | Some (TFun ts) => all2 (fun a t => check Γ a t) args ts
        | _ => False
        end
  | NCallLambdaExpr _ _ _ => False
  | NVar _ | NConst _ => t = TAtom
  | NFuncExpr _ args | NOpExpr _ args | NDistinctExpr _ args | NNullIfExpr _ args | NBoolExpr _ args | NCoalesceExpr _ args =>
      t = TAtom ∧ node_shape e = true ∧ all (fun a => check Γ a TAtom) args
  | NArrayExpr _ args | NMinMaxExpr _ _ _ args => t = TAtom ∧ all (fun a => check Γ a TAtom) args
  | NFieldSelect _ _ arg | NRelabelType _ arg
  | NNullTest _ arg | NBooleanTest _ arg => t = TAtom ∧ check Γ arg TAtom
  | NCaseExpr _ whens def =>
      t = TAtom ∧ node_shape e = true ∧ all_whens (fun a => check Γ a TAtom) whens
      ∧ all_opt (fun a => check Γ a TAtom) def
  end.

Lemma all_Forall {A} (P : A → Prop) l : all P l ↔ Forall P l.
Proof.
  induction l as [|x l IH]; simpl; [by split; [constructor|]|]. by rewrite Forall_cons, IH.
Qed.

Lemma all_whens_Forall P l : all_whens P l ↔ Forall P (when_nodes l).
Proof.
  induction l as [|[e r] l IH]; simpl; [by split; [constructor|]|]. by rewrite !Forall_cons, IH.
Qed.

Lemma all_opt_Forall {A} (P : A → Prop) o : all_opt P o ↔ Forall P (opt_list o).
Proof.
  destruct o; simpl; [by rewrite Forall_singleton|]. by split; [constructor|].
Qed.

Lemma all2_Forall2 {A B} (P : A → B → Prop) l k : all2 P l k ↔ Forall2 P l k.
Proof.
  revert k; induction l as [|x l IH]; intros [|y k]; simpl.
  - by split; [constructor|].
  - split; [done|by inversion 1].
  - split; [done|by inversion 1].
  - by rewrite Forall2_cons, IH.
Qed.

(** the rule of the plain nodes, uniformly *)
Lemma check_plain Γ e t :
  plain e = true →
  check Γ e t ↔ t = TAtom ∧ node_shape e = true ∧ Forall (fun c => check Γ c TAtom) (children e).
Proof.
  intros Hp. destruct e; try done; cbn [check children];
    rewrite ?all_Forall, ?all_whens_Forall, ?all_opt_Forall, ?Forall_app, ?Forall_singleton; try done.
  all: split; [first [intros [-> H]|intros ->]; by split_and!|by intros (-> & _ & H)].
Qed.

(** ** Reducibility

    A node is reducible at an atomic type if it is well typed in the outer
    context [Γo]; it is reducible at a function type if it is an open function
    input of the outer context, or a lambda whose body can be inlined for all
    reducible arguments. *)
Section Reducible.
Context (Γo : list sty) (names : option (list (option (list cstr)))) (ns : Z).

Definition inlines (Q : Node → Prop) (bs : list (option Node)) (e : Node) : Prop :=
  ∃ fuel e', scalar_inject_walk fuel (mkScalarBind bs (Z.of_nat (length bs)) names ns) e = Ok e' ∧ Q e'.

Fixpoint Red (t : sty) (b : Node) {struct t} : Prop :=
  match t with
  | TAtom => check Γo b TAtom
  | TFun ts =>
      check Γo b (TFun ts)
      ∧ match b with
        | NLambdaExpr _ (Some body) =>
            ∀ bs, all2 (fun t b => Red t b) ts bs →
                  inlines (fun e' => check Γo e' TAtom) (Some <$> bs) body
        | NParam _ => True
        | _ => False
        end
  end.

Lemma Red_check t b : Red t b → check Γo b t.
Proof. destruct t; [done|]. by intros [? _]. Qed.

(** what a binding must satisfy; an unbound input is passed through *)
Definition bind_ok (i : nat) (t : sty) (b : option Node) : Prop :=
  match b with
  | Some b => Red t b
  | None => t = TAtom ∧ Γo !! i = Some TAtom
  end.

Definition binds_ok (Γ : list sty) (bs : list (option Node)) (e : Node) : Prop :=
  length bs = length Γ
  ∧ ∀ i t, Γ !! i = Some t → refs (Z.of_nat (length Γ)) i e →
           ∃ b, bs !! i = Some b ∧ bind_ok i t b.

Lemma binds_ok_child Γ bs e c :
  nodeTag e ≠ T_LambdaExpr → c ∈ children e → binds_ok Γ bs e → binds_ok Γ bs c.
Proof.
  intros Ht Hc [Hl Hb]. split; [done|]. intros i t Hi Hr. apply Hb; [done|]. by eapply refs_child.
Qed.

Lemma binds_ok_all Γ bs e : Forall2 Red Γ bs → binds_ok Γ (Some <$> bs) e.
Proof.
  intros H. split; [rewrite length_fmap; symmetry; by eapply Forall2_length|].
  intros i t Hi _. destruct (Forall2_lookup_l _ _ _ _ _ H Hi) as (b & Hb & Hr).
  exists (Some b). by rewrite list_lookup_fmap, Hb.
Qed.

Definition reduces (Γ : list sty) (bs : list (option Node)) (e : Node) (t : sty) : Prop :=
  inlines (Red t) bs e.

Lemma reduces_param Γ bs p t :
  check Γ (NParam p) t → binds_ok Γ bs (NParam p) → reduces Γ bs (NParam p) t.
Proof.
  intros (Hp & Hi & Hf) [Hl Hb]. exists 1%nat. unfold reduces. simpl.
  assert (refs (Z.of_nat (length Γ)) (Z.to_nat (paramid p)) (NParam p)) as Hr.
  { unfold refs. simpl. rewrite Hp. set_solver. }
  destruct (Hb _ _ Hi Hr) as (b & Hbi & Hok). unfold bound_param. simpl. rewrite Hl, Hp, Hbi.
  destruct b as [b|]; [by exists b|]. eexists. split; [done|].
  destruct Hok as [-> Ho]. simpl. apply input_param_range in Hp as (Hk & Hlam & H0 & H1).
  split_and!; [|done|done]. unfold is_input_param, is_PARAM_EXEC. rewrite Hk, Hlam. simpl.
  apply lookup_lt_Some in Ho. apply andb_true_intro. split; [apply Z.leb_le|apply Z.ltb_lt]; lia.
Qed.

Lemma reduces_plain Γ bs e t :
  plain e = true → check Γ e t →
  Forall (fun c => reduces Γ bs c TAtom) (children e) → reduces Γ bs e t.
Proof.
  intros Hp Hc IH. apply check_plain in Hc as (-> & Hshape & Hc); [|done].
  set (ctx := mkScalarBind bs (Z.of_nat (length bs)) names ns).
  destruct (inject_list_fuel ctx (fun _ c' => check Γo c' TAtom) (children e) (children e))
    as (fuel & cs & Hcs%omapM_Forall2 & Hall).
  { apply Forall_Forall2_diag. eapply Forall_impl; [exact IH|]. done. }
  destruct (mutator_total (scalar_inject_walk fuel ctx) e) as [e' He'].
  { clear -Hcs. induction Hcs; constructor; eauto. }
  exists (S fuel), e'. split; [by rewrite inject_plain|].
  apply mutator_shape in He' as Hsh. apply mutator_children in He' as [Htag Hch]. simpl. apply check_plain; [by rewrite (plain_tag _ _ Htag)|].
  split_and!; [done|by rewrite Hsh|]. assert (children e' = cs) as ->.
  { clear -Hcs Hch. revert cs Hcs. induction Hch as [|c c' l l' Hc _ IH]; intros cs Hcs;
      inversion Hcs as [|? c2 ? cs2 Hc2 Hcs2]; subst; [done|]. f_equal; [congruence|by apply IH]. }
  by eapply Forall2_Forall_r; [exact Hall|]; apply Forall_true.
Qed.

Lemma reduces_lfa Γ bs h args t :
  check Γ (NLambdaFuncAliasExpr h args) t → binds_ok Γ bs (NLambdaFuncAliasExpr h args) →
  Forall (fun c => ∀ t, check Γ c t → reduces Γ bs c t) args →
  reduces Γ bs (NLambdaFuncAliasExpr h args) t.
Proof.
  intros (-> & Hk0 & Hc) [Hl Hb] IH.
  destruct (Γ !! Z.to_nat (lfa_fieldSelect_id h)) as [[|ts]|] eqn:Hk; try done.
  apply all2_Forall2 in Hc. apply lookup_lt_Some in Hk as Hlt.
  set (k := lfa_fieldSelect_id h) in *. set (ctx := mkScalarBind bs (Z.of_nat (length bs)) names ns).
  destruct (inject_list_fuel ctx Red args ts) as (f1 & es & Hes & Hred).
  { clear -Hc IH. induction Hc; inversion IH; subst; constructor; [|by auto].
    match goal with H : ∀ t, _ → reduces _ _ _ t |- _ => by apply H end. }
  assert (refs (Z.of_nat (length Γ)) (Z.to_nat k) (NLambdaFuncAliasExpr h args)) as Hr.
  { unfold refs. simpl. fold k. rewrite (proj2 (Z.leb_le 0 k)), (proj2 (Z.ltb_lt k _)) by lia. set_solver. }
  destruct (Hb _ _ Hk Hr) as (b & Hbk & Hok).
  assert (0 ≤ k < sb_nargs ctx) as Hrange by (simpl; lia).
  destruct b as [b|]; [|by destruct Hok]. destruct Hok as [Hbc Hbody].
  assert (length args = length ts) as Hlen by (by eapply Forall2_length).
  destruct b; try done.
  - exists (S f1), (NLambdaFuncAliasExpr (retarget_lfa ctx h (paramid p)) es).
    split; [by apply inject_lfa_param|]. destruct Hbc as (Hp & Hpi & _).
    apply input_param_range in Hp as (_ & _ & Hp). simpl. split_and!; [done|lia|].
    rewrite Hpi. apply all2_Forall2. apply Forall2_flip. eapply Forall2_impl; [exact Hred|].
    intros. by apply Red_check.
  - destruct expr as [body|]; [|done]. destruct Hbc as [Hargn _].
    destruct (Hbody es) as (f2 & e' & He' & Hc'); [by apply all2_Forall2|].
    exists (S (max f1 f2)), e'. split; [|done].
    eapply (inject_lfa_lambda _ ctx h args _ body es); try done.
    + congruence.
    + eapply list_mutate_mono; [|exact Hes]. intros ? ?. apply inject_mono. lia.
    + eapply inject_mono; [|unfold child_ctx; rewrite length_fmap in He'; exact He']. lia.
Qed.

(** every well-typed expression can be inlined *)
Theorem inline_total Γ bs e t :
  check Γ e t → binds_ok Γ bs e → reduces Γ bs e t.
Proof.
  revert Γ bs t. induction e as [e IH] using node_ind'. intros Γ bs t Hc Hb.
  destruct (plain e) eqn:Hp.
  - apply reduces_plain; [done|done|]. apply check_plain in Hc as (-> & _ & Hc); [|done].
    apply Forall_forall. intros c Hin. rewrite Forall_forall in IH, Hc.
    apply IH; auto. apply (binds_ok_child Γ bs e); [by destruct e|done|done].
  - destruct e; try done.
    + by apply reduces_param.
    + destruct t as [|ts]; [done|]. destruct expr as [body|]; [|done]. destruct Hc as [Hl Hc].
      exists 1%nat, (NLambdaExpr h (Some body)). split; [done|]. split; [done|].
      intros bs' Hbs'. inversion IH as [|? ? Hbody _]; subst.
      destruct (Hbody ts (Some <$> bs') TAtom Hc) as (f & e' & He' & Hr').
      { apply binds_ok_all. by apply all2_Forall2. }
      by exists f, e'.
    + apply reduces_lfa; [done|done|]. simpl in IH. apply Forall_forall. intros c Hin t' Hct.
      rewrite Forall_forall in IH. apply IH; [done|done|].
      by apply (binds_ok_child Γ bs (NLambdaFuncAliasExpr h args)).
Qed.
End Reducible.
