(* ===== verification/Eval.v ===== *)
(** * Evaluation of expressions and lambda calls

    The value of an expression as [backend/executor/execExpr.c] compiles it
    and [backend/executor/execExprInterp.c] runs it: one definition per step
    kind, and [eval_node], which composes them the way [ExecInitExprRec] lines
    the steps up.  [ExecEvalCallLambdaExpr] calls a lambda value;
    [lambda_body] is the construction of the body it runs
    ([lambda_cache_build] in [backend/utils/adt/lambda_cache.c]; [Cache.v]
    shows that the cache in front of it is transparent).

    A nullable datum is an [option Datum]; the PARAM_EXEC array of the running
    body is the frame, a list of nullable data.  Built-in functions, row types,
    arrays and the constant folder are parameters ([ExecParams]); they are
    functions of their arguments, that is, the model covers functions without
    side effects.  The fuel of [eval_node] bounds the nesting of nodes and
    calls. *)

From S2P Require Import Prelude Bitmapset Nodes NodesFacts Serialize Inject.

Definition LAMBDA_MAX_ARGS : Z := 512.

Class ExecParams := {
  (** [pg_proc.proisstrict] and the function manager *)
  fn_strict : Oid → bool;
  fn_call : Oid → Oid → list (option Datum) → outcome (option Datum);
  (** the btree comparison of a type, [None] for a NULL result *)
  cmp_proc : Oid → Oid → Datum → Datum → outcome (option Z);
  field_select : Z → Z → option Datum → outcome (option Datum);
  make_array : Oid → list (option Datum) → outcome (option Datum);
  (** attributes of the current tuple, external parameters *)
  var_value : Var → outcome (option Datum);
  param_extern : Param → outcome (option Datum);
  eval_const_expressions : Node → outcome Node
}.

(** the enumeration's values *)
Definition ParamKind_num (k : ParamKind) : Z :=
  match k with PARAM_EXTERN => 0 | PARAM_EXEC => 1 | PARAM_SUBLINK => 2 | PARAM_MULTIEXPR => 3 end.

Definition DatumGetBool (d : Datum) : bool :=
  match d with DByVal z => negb (z =? 0) | _ => true end.

Definition BoolGetDatum (b : bool) : Datum := DByVal (if b then 1 else 0).

(** [BoolGetDatum(!DatumGetBool(v))], NULL staying NULL *)
Definition invert_bool (v : option Datum) : option Datum :=
  match v with Some d => Some (BoolGetDatum (negb (DatumGetBool d))) | None => None end.

(** ** Steps *)

Section Steps.
Context `{ExecParams}.
(** evaluation of a sub-expression *)
Context (ev : Node → outcome (option Datum)).

(** reading outside the array is undefined *)
Definition ExecEvalParamExec (frame : list (option Datum)) (paramid : Z) : outcome (option Datum) :=
  if paramid <? 0 then UB else deref (frame !! Z.to_nat paramid).

(** EEOP_FUNCEXPR and EEOP_FUNCEXPR_STRICT on evaluated arguments *)
Definition eval_func (fid coll : Oid) (vs : list (option Datum)) : outcome (option Datum) :=
  if fn_strict fid && negb (bool_decide (vs = [])) && negb (bool_decide (Forall is_Some vs))
  then Ok None
  else fn_call fid coll vs.

(** EEOP_BOOL_AND_STEP_FIRST, _STEP and _STEP_LAST *)
Fixpoint eval_and (anynull : bool) (args : list Node) : outcome (option Datum) :=
  match args with
  | [] => UB
  | [a] =>
      v ← ev a;
      match v with
      | None => Ok None
      | Some d => if negb (DatumGetBool d) then Ok v else if anynull then Ok None else Ok v
      end
  | a :: args =>
      v ← ev a;
      match v with
      | None => eval_and true args
      | Some d => if negb (DatumGetBool d) then Ok v else eval_and anynull args
      end
  end.

(** EEOP_BOOL_OR_STEP_FIRST, _STEP and _STEP_LAST *)
Fixpoint eval_or (anynull : bool) (args : list Node) : outcome (option Datum) :=
  match args with
  | [] => UB
  | [a] =>
      v ← ev a;
      match v with
      | None => Ok None
      | Some d => if DatumGetBool d then Ok v else if anynull then Ok None else Ok v
      end
  | a :: args =>
      v ← ev a;
      match v with
      | None => eval_or true args
      | Some d => if DatumGetBool d then Ok v else eval_or anynull args
      end
  end.

(** EEOP_BOOL_NOT_STEP *)
Definition eval_not (args : list Node) : outcome (option Datum) :=
  match args with
  | [a] => v ← ev a; Ok (invert_bool v)
  | _ => UB
  end.

Definition eval_bool (boolop : BoolExprType) (args : list Node) : outcome (option Datum) :=
  match boolop with
  | AND_EXPR => eval_and false args
  | OR_EXPR => eval_or false args
  | NOT_EXPR => eval_not args
  end.

(** EEOP_DISTINCT *)
Definition eval_distinct (fid coll : Oid) (vs : list (option Datum)) : outcome (option Datum) :=
  match vs with
  | [None; None] => Ok (Some (BoolGetDatum false))
  | [None; Some _] | [Some _; None] => Ok (Some (BoolGetDatum true))
  | [Some _; Some _] =>
      r ← fn_call fid coll vs;
      Ok (invert_bool r)
  | _ => UB
  end.

(** EEOP_NULLIF *)
Definition eval_nullif (fid coll : Oid) (vs : list (option Datum)) : outcome (option Datum) :=
  match vs with
  | [Some a; Some b] =>
      r ← fn_call fid coll vs;
      match r with
      | Some d => if DatumGetBool d then Ok None else Ok (Some a)
      | None => Ok (Some a)
      end
  | [a; _] => Ok a
  | _ => UB
  end.

(** searched CASE: EEOP_JUMP_IF_NOT_TRUE after every condition *)
Fixpoint eval_case (whens : list (Node * Node)) (def : option Node) : outcome (option Datum) :=
  match whens with
  | [] => d ← deref def; ev d
  | (c, r) :: whens =>
      v ← ev c;
      match v with
      | Some d => if DatumGetBool d then ev r else eval_case whens def
      | None => eval_case whens def
      end
  end.

(** EEOP_JUMP_IF_NOT_NULL after every argument *)
Fixpoint eval_coalesce (args : list Node) : outcome (option Datum) :=
  match args with
  | [] => UB
  | [a] => ev a
  | a :: args =>
      v ← ev a;
      match v with Some d => Ok v | None => eval_coalesce args end
  end.

(** the loop of ExecEvalMinMax; [res] is the result so far *)
Fixpoint ExecEvalMinMax (op : MinMaxOp) (t coll : Oid) (res : option Datum) (vs : list (option Datum))
  : outcome (option Datum) :=
  match vs with
  | [] => Ok res
  | None :: vs => ExecEvalMinMax op t coll res vs
  | Some v :: vs =>
      match res with
      | None => ExecEvalMinMax op t coll (Some v) vs
      | Some r =>
          c ← cmp_proc t coll r v;
          match c with
          | None => ExecEvalMinMax op t coll res vs
          | Some c =>
              let take := match op with IS_LEAST => c >? 0 | IS_GREATEST => c <? 0 end in
              ExecEvalMinMax op t coll (Some (if take then v else r)) vs
          end
      end
  end.

(** EEOP_NULLTEST_* *)
Definition eval_nulltest (t : NullTestType) (v : option Datum) : option Datum :=
  Some (BoolGetDatum
    (match t, v with
     | IS_NULL, None | IS_NOT_NULL, Some _ => true
     | _, _ => false
     end)).

(** EEOP_BOOLTEST_*; the two IS UNKNOWN tests are compiled to null tests *)
Definition eval_booltest (t : BoolTestType) (v : option Datum) : option Datum :=
  match t, v with
  | IS_TRUE, None => Some (BoolGetDatum false)
  | IS_TRUE, Some d => Some d
  | IS_NOT_TRUE, None => Some (BoolGetDatum true)
  | IS_NOT_TRUE, Some d => Some (BoolGetDatum (negb (DatumGetBool d)))
  | IS_FALSE, None => Some (BoolGetDatum false)
  | IS_FALSE, Some d => Some (BoolGetDatum (negb (DatumGetBool d)))
  | IS_NOT_FALSE, None => Some (BoolGetDatum true)
  | IS_NOT_FALSE, Some d => Some d
  | IS_UNKNOWN, _ => eval_nulltest IS_NULL v
  | IS_NOT_UNKNOWN, _ => eval_nulltest IS_NOT_NULL v
  end.
End Steps.

(** ** Lambda calls *)

Definition too_many_args {A} (args : list Node) : outcome A :=
  ereport ERRCODE_TOO_MANY_ARGUMENTS
    (lit "too many lambda arguments: " ++ fmt_d (Z.of_nat (length args))).

Definition func_max_args {A} : outcome A :=
  ereport ERRCODE_TOO_MANY_ARGUMENTS
    (lit "cannot pass more than " ++ fmt_d FUNC_MAX_ARGS ++ lit " arguments to a function").

(** What fails when a body is compiled, before any of it runs: a call with too
    many arguments, a Param of another kind, a leftover hole, a CASE without
    ELSE.  An embedded [LambdaExpr] is a constant, its body is not compiled.
    This is a specification and no function of the code: the compilation itself
    is [ExecInitExpr] in [Steps.v], and [compile_errors] shows that it fails for
    these reasons.  Errors that depend on the catalog are left out, see
    [Steps.v]. *)
Fixpoint exec_init_walker (node : Node) (s : outcome unit) {struct node} : bool * outcome unit :=
  match node with
  | NLambdaExpr _ _ => (false, s)
  | NParam p =>
      match paramkind p with
      | PARAM_EXEC | PARAM_EXTERN => (false, s)
      | _ => (true, elog (lit "unrecognized paramkind: " ++ fmt_d (ParamKind_num (paramkind p))))
      end
  | NHolePlaceholder => (true, elog (lit "unrecognized node type"))
  | NFuncExpr _ args | NOpExpr _ args | NDistinctExpr _ args | NNullIfExpr _ args =>
      if Z.of_nat (length args) >? FUNC_MAX_ARGS then (true, func_max_args)
      else expression_tree_walker exec_init_walker node s
  | NCaseExpr _ whens None =>
      let '(stop, s) := whens_walk exec_init_walker whens s in
      if stop then (true, s) else (true, UB)
  | NLambdaFuncAliasExpr _ args | NCallLambdaExpr _ _ args =>
      if Z.of_nat (length args) >? LAMBDA_MAX_ARGS then (true, too_many_args args)
      else expression_tree_walker exec_init_walker node s
  | _ => expression_tree_walker exec_init_walker node s
  end.

Definition exec_init_check (node : Node) : outcome unit := snd (exec_init_walker node (Ok tt)).

Section Calls.
Context `{NodeIO} `{TypeCache} `{ExecParams}.

(** positions of the lambda-typed arguments *)
Fixpoint cache_key_idx (i : Z) (args : list Node) : outcome (list Z) :=
  match args with
  | [] => Ok []
  | arg :: args =>
      rest ← cache_key_idx (i + 1) args;
      match arg with
      | NHolePlaceholder => Ok rest
      | _ => t ← exprType arg; Ok (if t =? LAMBDAOID then i :: rest else rest)
      end
  end.

Definition ExecInitCallLambdaCacheKey (args : list Node) : outcome (list Z) := cache_key_idx 0 args.

Definition datum_or_zero (v : option Datum) : Datum := default (DByVal 0) v.
Definition is_null (v : option Datum) : bool := negb (bool_decide (is_Some v)).

(** every argument the injector embeds must be part of the cache key *)
Fixpoint check_embedded (idxbuf key_idx : list Z) : outcome unit :=
  match idxbuf with
  | [] => Ok tt
  | i :: idxbuf =>
      if existsb (Z.eqb i) key_idx then check_embedded idxbuf key_idx
      else elog (lit "lambda argument " ++ fmt_d (i + 1)
                 ++ lit " is embedded into the body, but is not lambda-typed")
  end.

(** the tree of the body for a lambda value and its arguments *)
Definition lambda_body (hoist : bool) (fuel : nat) (key_idx : list Z) (lambda_value : Datum)
    (vs : list (option Datum)) : outcome Node :=
  le ← datum_lambda lambda_value;
  match le with
  | Some l =>
      match le_expr l with
      | Some e =>
          let nargs := Z.of_nat (length vs) in
          if Z.of_nat (length (argnames (le_hdr l))) >? nargs then
            elog (lit "lambda takes " ++ fmt_d (Z.of_nat (length (argnames (le_hdr l))))
                  ++ lit " arguments, call passes " ++ fmt_d nargs)
          else
            tree ← (if hoist && lambda_body_has_lfa le then
                      _ ← check_embedded (lambda_scalar_func_inputs le nargs) key_idx;
                      injected ← lambda_injector_scalar fuel le (datum_or_zero <$> vs) (is_null <$> vs) nargs;
                      ie ← deref (le_expr injected);
                      eval_const_expressions ie
                    else Ok e);
            _ ← exec_init_check tree;
            Ok tree
      | None => elog (lit "deserialized lambda has no expression body")
      end
  | None => elog (lit "deserialized lambda has no expression body")
  end.

(** the filled arguments over the full set of positions; held positions are NULL *)
Fixpoint spread_args (held : Bitmapset) (ps : list Z) (vs : list (option Datum))
  : outcome (list (option Datum)) :=
  match ps with
  | [] => Ok []
  | p :: ps =>
      h ← bms_is_member p held;
      if h : bool then rest ← spread_args held ps vs; Ok (None :: rest)
      else match vs with
           | [] => elog (lit "partial apply: fewer filled args than expected")
           | v :: vs => rest ← spread_args held ps vs; Ok (v :: rest)
           end
  end.

Definition partial_application (fuel : nat) (held : Bitmapset) (lambda_value : Datum)
    (vs : list (option Datum)) : outcome (option Datum) :=
  mother ← datum_lambda lambda_value;
  match mother with
  | Some m =>
      match le_expr m with
      | Some _ =>
          let N := Z.of_nat (length (argnames (le_hdr m))) in
          full ← spread_args held (seqZ 0 N) vs;
          residual ← lambda_partial_apply fuel mother held (datum_or_zero <$> full) (is_null <$> full) N;
          re ← deref (le_expr residual);
          e ← eval_const_expressions re;
          Ok (Some (lambda_datum (mkLambdaExpr (le_hdr residual) (Some e))))
      | None => elog (lit "deserialized lambda has no expression body")
      end
  | None => elog (lit "deserialized lambda has no expression body")
  end.

(** the frame of a call: one slot per argument, at least one slot *)
Definition lambda_params (vs : list (option Datum)) : list (option Datum) :=
  match vs with [] => [Some (DByVal 0)] | _ => vs end.

(** [run] evaluates a body in a frame *)
Definition ExecEvalCallLambdaExpr (run : list (option Datum) → Node → outcome (option Datum))
    (hoist : bool) (fuel : nat) (held : Bitmapset) (args : list Node)
    (lambda_value : option Datum) (vs : list (option Datum)) : outcome (option Datum) :=
  match lambda_value with
  | None => Ok None
  | Some d =>
      match held with
      | Some _ => partial_application fuel held d vs
      | None =>
          key_idx ← ExecInitCallLambdaCacheKey args;
          body ← lambda_body hoist fuel key_idx d vs;
          run (lambda_params vs) body
      end
  end.

(** ** Expressions

    [lamval] is the value of an embedded [LambdaExpr] node. *)
Context (lamval : LambdaExpr → Datum) (hoist : bool).

Fixpoint eval_node (fuel : nat) (frame : list (option Datum)) (node : Node) {struct fuel}
  : outcome (option Datum) :=
  match fuel with
  | O => OutOfFuel
  | S fuel =>
      let ev := eval_node fuel frame in
      match node with
      | NVar v => var_value v
      | NConst c => Ok (if constisnull c then None else Some (constvalue c))
      | NParam p =>
          match paramkind p with
          | PARAM_EXEC => ExecEvalParamExec frame (paramid p)
          | PARAM_EXTERN => param_extern p
          | _ => elog (lit "unrecognized paramkind: " ++ fmt_d (ParamKind_num (paramkind p)))
          end
      | NHolePlaceholder => elog (lit "unrecognized node type")
      | NFuncExpr f args => vs ← omapM ev args; eval_func (funcid f) (func_inputcollid f) vs
      | NOpExpr o args => vs ← omapM ev args; eval_func (opfuncid o) (op_inputcollid o) vs
      | NDistinctExpr o args => vs ← omapM ev args; eval_distinct (opfuncid o) (op_inputcollid o) vs
      | NNullIfExpr o args => vs ← omapM ev args; eval_nullif (opfuncid o) (op_inputcollid o) vs
      | NBoolExpr op args => eval_bool ev op args
      | NFieldSelect k t arg => v ← ev arg; field_select k t v
      | NRelabelType _ arg => ev arg
      | NCaseExpr _ whens def => eval_case ev whens def
      | NArrayExpr t elements => vs ← omapM ev elements; make_array t vs
      | NCoalesceExpr _ args => eval_coalesce ev args
      | NMinMaxExpr t coll op args => vs ← omapM ev args; ExecEvalMinMax op t coll None vs
      | NNullTest t arg => v ← ev arg; Ok (eval_nulltest t v)
      | NBooleanTest t arg => v ← ev arg; Ok (eval_booltest t v)
      | NLambdaExpr h e => Ok (Some (lamval (mkLambdaExpr h e)))
      | NLambdaFuncAliasExpr h args =>
          lv ← ExecEvalParamExec frame (lfa_fieldSelect_id h);
          vs ← omapM ev args;
          ExecEvalCallLambdaExpr (eval_node fuel) hoist fuel None args lv vs
      | NCallLambdaExpr h l args =>
          lv ← ev l;
          vs ← omapM ev args;
          ExecEvalCallLambdaExpr (eval_node fuel) hoist fuel (heldargs h) args lv vs
      end
  end.
End Calls.

(** the executor: an embedded lambda is the address of its node *)
Definition ExecEvalExpr `{NodeIO} `{TypeCache} `{ExecParams} (hoist : bool) :=
  eval_node (fun _ => DNodePtr) hoist.

(** the reference semantics: an embedded lambda is a lambda value like any
    other, and calls are never hoisted *)
Definition reference_eval `{NodeIO} `{TypeCache} `{ExecParams} :=
  eval_node lambda_datum false.
