(* ===== verification/EvalFacts.v ===== *)
(** * Facts about evaluation

    A plain node's value is a function of the values of its children; more
    fuel never changes a value. *)

From S2P Require Import Prelude Bitmapset Nodes NodesFacts Serialize Inject InjectFacts Eval.

Section EvalFacts.
Context `{NodeIO} `{TypeCache} `{ExecParams}.

(** the value of a plain node from the values of its children *)
Definition eval_step (ev : Node → outcome (option Datum)) (node : Node) : outcome (option Datum) :=
  match node with
  | NVar v => var_value v
  | NConst c => Ok (if constisnull c then None else Some (constvalue c))
  | NFuncExpr f args => vs ← omapM ev args; eval_func (funcid f) (func_inputcollid f) vs
  | NOpExpr o args => vs ← omapM ev args; eval_func (opfuncid o) (op_inputcollid o) vs
  | NDistinctExpr o args => vs ← omapM ev args; eval_distinct (opfuncid o) (op_inputcollid o) vs
  | NNullIfExpr o args => vs ← omapM ev args; eval_nullif (opfuncid o) (op_inputcollid o) vs
  | NBoolExpr op args => eval_bool ev op args
  | NFieldSelect k t arg => v ← ev arg; field_select k t v
  | NRelabelType _ arg => ev arg
  | NCaseExpr _ whens def => eval_case ev whens def
  | NArrayExpr t elements => vs ← omapM ev elements; make_array t vs
  | NCoalesceExpr _ args => eval_coalesce ev args
  | NMinMaxExpr t coll op args => vs ← omapM ev args; ExecEvalMinMax op t coll None vs
  | NNullTest t arg => v ← ev arg; Ok (eval_nulltest t v)
  | NBooleanTest t arg => v ← ev arg; Ok (eval_booltest t v)
  | _ => UB
  end.

Lemma eval_plain lamval hoist fuel frame e :
  plain e = true →
  eval_node lamval hoist (S fuel) frame e = eval_step (eval_node lamval hoist fuel frame) e.
Proof. by destruct e. Qed.

(** ** Simulation of one evaluation by another *)

Section Simulation.
Context (ev ev' : Node → outcome (option Datum)).

(** whenever the first node has a value, the second has the same one *)
Definition sim (c c' : Node) : Prop := ∀ v, ev c = Ok v → ev' c' = Ok v.

Lemma sim_list l l' vs : Forall2 sim l l' → omapM ev l = Ok vs → omapM ev' l' = Ok vs.
Proof.
  intros Hs; revert vs; induction Hs as [|c c' l l' Hc _ IH]; intros vs Hv; [done|].
  simpl in *. outcome_inv. rewrite (Hc _ Hok). simpl. by rewrite (IH _ Hok0).
Qed.

Lemma sim_and anynull l l' v : Forall2 sim l l' → eval_and ev anynull l = Ok v → eval_and ev' anynull l' = Ok v.
Proof.
  intros Hs; revert anynull; induction Hs as [|c c' l l' Hc Hl IH]; intros anynull Hv; [done|].
  simpl in *. destruct l as [|c2 l].
  - inversion Hl; subst. apply bind_Ok_inv in Hv as (w & Hw & Hv). by rewrite (Hc _ Hw).
  - inversion Hl as [|? c2' ? l2' ]; subst. apply bind_Ok_inv in Hv as (w & Hw & Hv).
    rewrite (Hc _ Hw). cbn [mbind outcome_bind]. destruct w as [d|]; [|exact (IH _ Hv)].
    destruct (negb _); [done|exact (IH _ Hv)].
Qed.

Lemma sim_or anynull l l' v : Forall2 sim l l' → eval_or ev anynull l = Ok v → eval_or ev' anynull l' = Ok v.
Proof.
  intros Hs; revert anynull; induction Hs as [|c c' l l' Hc Hl IH]; intros anynull Hv; [done|].
  simpl in *. destruct l as [|c2 l].
  - inversion Hl; subst. apply bind_Ok_inv in Hv as (w & Hw & Hv). by rewrite (Hc _ Hw).
  - inversion Hl as [|? c2' ? l2' ]; subst. apply bind_Ok_inv in Hv as (w & Hw & Hv).
    rewrite (Hc _ Hw). cbn [mbind outcome_bind]. destruct w as [d|]; [|exact (IH _ Hv)].
    destruct (DatumGetBool d); [done|exact (IH _ Hv)].
Qed.

Lemma sim_bool op l l' v : Forall2 sim l l' → eval_bool ev op l = Ok v → eval_bool ev' op l' = Ok v.
Proof.
  destruct op; simpl; [apply sim_and|apply sim_or|].
  intros Hs Hv. destruct Hs as [|c c' l l' Hc Hl]; [done|]. destruct Hl; [|done].
  simpl in *. apply bind_Ok_inv in Hv as (w & Hw & Hv). by rewrite (Hc _ Hw).
Qed.

Lemma sim_coalesce l l' v : Forall2 sim l l' → eval_coalesce ev l = Ok v → eval_coalesce ev' l' = Ok v.
Proof.
  intros Hs; induction Hs as [|c c' l l' Hc Hl IH]; intros Hv; [done|]. simpl in *. destruct l as [|c2 l].
  - inversion Hl; subst. by apply Hc.
  - inversion Hl as [|? c2' ? l2']; subst. apply bind_Ok_inv in Hv as (w & Hw & Hv). rewrite (Hc _ Hw).
    cbn [mbind outcome_bind]. destruct w; [done|exact (IH Hv)].
Qed.

Lemma sim_case whens whens' def def' v :
  Forall2 (fun w w' => sim (fst w) (fst w') ∧ sim (snd w) (snd w')) whens whens' →
  Forall2 sim (opt_list def) (opt_list def') →
  eval_case ev whens def = Ok v → eval_case ev' whens' def' = Ok v.
Proof.
  intros Hs Hd. induction Hs as [|[c r] [c' r'] l l' [Hc Hr] _ IH]; intros Hv; simpl in *.
  - apply bind_Ok_inv in Hv as (d & Hdef & Hv). destruct def as [d0|]; [|done].
    destruct def' as [d'|]; inversion Hd; subst. simpl in *. injection Hdef as ->. auto.
  - apply bind_Ok_inv in Hv as (w & Hw & Hv). rewrite (Hc _ Hw). simpl.
    destruct w as [d|]; [|by apply IH]. destruct (DatumGetBool d); [by apply Hr|by apply IH].
Qed.
End Simulation.

Lemma whens_mutate_sim g (P : Node → Node → Prop) whens whens' :
  (∀ c c', c ∈ when_nodes whens → g c = Ok c' → P c c') →
  omapM (when_mutate g) whens = Ok whens' →
  Forall2 (fun w w' => P (fst w) (fst w') ∧ P (snd w) (snd w')) whens whens'.
Proof.
  intros HP Hm%omapM_Forall2. induction Hm as [|[e r] [e' r'] l l' Hw _ IH]; constructor.
  - unfold when_mutate in Hw. simpl in Hw. outcome_inv. simpl in *. split; apply HP; (done || set_solver).
  - apply IH. intros c c' Hc. apply HP. simpl. set_solver.
Qed.

Lemma list_mutate_sim g (P : Node → Node → Prop) l l' :
  (∀ c c', c ∈ l → g c = Ok c' → P c c') → omapM g l = Ok l' → Forall2 P l l'.
Proof.
  intros HP Hm%omapM_Forall2. induction Hm as [|c c' l l' Hc _ IH]; constructor.
  - apply HP; [set_solver|done].
  - apply IH. intros ? ? Hin. apply HP. set_solver.
Qed.

Lemma opt_mutate_sim g (P : Node → Node → Prop) o o' :
  (∀ c c', c ∈ opt_list o → g c = Ok c' → P c c') → opt_mutate g o = Ok o' →
  Forall2 P (opt_list o) (opt_list o').
Proof.
  intros HP Hm%opt_mutate_list. destruct o, o'; inversion Hm; subst; constructor; [|done].
  apply HP; [set_solver|done].
Qed.

(** rewriting the children of a plain node by simulating ones *)
Lemma eval_step_sim g ev ev' e e' v :
  plain e = true → expression_tree_mutator g e = Ok e' →
  (∀ c c', c ∈ children e → g c = Ok c' → sim ev ev' c c') →
  eval_step ev e = Ok v → eval_step ev' e' = Ok v.
Proof.
  intros Hp Hm Hs. assert (∀ l l', (∀ c, c ∈ l → c ∈ children e) → omapM g l = Ok l' →
                                   Forall2 (sim ev ev') l l') as Hl.
  { intros l l' Hin. apply list_mutate_sim. intros c c' Hc. apply Hs. auto. }
  assert (∀ c c' (k : option Datum → outcome (option Datum)), c ∈ children e → g c = Ok c' →
            ev c ≫= k = Ok v → ev' c' ≫= k = Ok v) as Hb.
  { intros c c' k Hc Hg (w & Hw & Hk)%bind_Ok_inv. by rewrite (Hs _ _ Hc Hg _ Hw). }
  destruct e; try done; cbn [expression_tree_mutator] in Hm; outcome_inv; cbn [eval_step];
    try (intros Hv; outcome_inv;
         (rewrite (sim_list _ _ _ _ _ (Hl _ _ (fun c Hc => Hc) Hok)) by done); done);
    try (apply Hb; [set_solver|done]); try done.
  - apply sim_bool. by apply Hl.
  - apply Hs; [set_solver|done].
  - apply sim_case.
    + apply (whens_mutate_sim g); [|done]. intros c c' Hc. apply Hs. simpl. set_solver.
    + apply (opt_mutate_sim g); [|done]. intros c c' Hc. apply Hs. simpl. set_solver.
  - apply sim_coalesce. by apply Hl.
Qed.

(** ** More fuel *)

Lemma mutator_id n : expression_tree_mutator Ok n = Ok n.
Proof.
  assert (∀ l : list Node, omapM Ok l = Ok l) as Hl.
  { induction l as [|x l IH]; simpl; [done|]. by rewrite IH. }
  assert (∀ l, omapM (when_mutate Ok) l = Ok l) as Hw.
  { induction l as [|[e r] l IH]; simpl; [done|]. by rewrite IH. }
  assert (∀ o, opt_mutate Ok o = Ok o) as Ho by (by intros []).
  destruct n; cbn [expression_tree_mutator]; rewrite ?Hl, ?Hw, ?Ho; done.
Qed.

(** every call has a key: holes have no type, but are skipped *)
Lemma cache_key_total args : ∃ key, ExecInitCallLambdaCacheKey args = Ok key.
Proof.
  unfold ExecInitCallLambdaCacheKey. generalize 0. induction args as [|a args IH]; intros i; simpl; [eauto|].
  destruct (IH (i + 1)) as [key ->]. destruct a; simpl; eauto.
Qed.

(** with more fuel a body is built, or fails, in the same way *)
Lemma lambda_body_fuel_le hoist fuel fuel' key d vs :
  (fuel ≤ fuel')%nat → fuel_le (lambda_body hoist fuel key d vs) (lambda_body hoist fuel' key d vs).
Proof.
  intros Hf. pose proof (fun ctx e => inject_fuel_le fuel fuel' ctx e Hf) as Hi.
  unfold lambda_body, lambda_injector_scalar. fuel_mono.
Qed.

Lemma partial_application_fuel_le fuel fuel' held d vs :
  (fuel ≤ fuel')%nat → fuel_le (partial_application fuel held d vs) (partial_application fuel' held d vs).
Proof.
  intros Hf. pose proof (fun ctx e => inject_fuel_le fuel fuel' ctx e Hf) as Hi.
  unfold partial_application, lambda_partial_apply. fuel_mono.
Qed.

Lemma lambda_body_mono hoist fuel fuel' key d vs b :
  (fuel ≤ fuel')%nat → lambda_body hoist fuel key d vs = Ok b → lambda_body hoist fuel' key d vs = Ok b.
Proof. intros Hf Hb. by eapply fuel_le_eq; [apply lambda_body_fuel_le|..]. Qed.

Lemma call_fuel_le run run' hoist fuel fuel' held args lv vs :
  (fuel ≤ fuel')%nat → (∀ frame e, fuel_le (run frame e) (run' frame e)) →
  fuel_le (ExecEvalCallLambdaExpr run hoist fuel held args lv vs) (ExecEvalCallLambdaExpr run' hoist fuel' held args lv vs).
Proof.
  intros Hf Hrun. pose proof (fun key d => lambda_body_fuel_le hoist fuel fuel' key d vs Hf) as Hb.
  pose proof (fun d => partial_application_fuel_le fuel fuel' held d vs Hf) as Hp. unfold ExecEvalCallLambdaExpr. fuel_mono.
Qed.

Lemma eval_lfa lamval hoist fuel frame h args :
  eval_node lamval hoist (S fuel) frame (NLambdaFuncAliasExpr h args)
  = (lv ← ExecEvalParamExec frame (lfa_fieldSelect_id h);
     vs ← omapM (eval_node lamval hoist fuel frame) args;
     ExecEvalCallLambdaExpr (eval_node lamval hoist fuel) hoist fuel None args lv vs).
Proof. done. Qed.

Lemma eval_call lamval hoist fuel frame h l args :
  eval_node lamval hoist (S fuel) frame (NCallLambdaExpr h l args)
  = (lv ← eval_node lamval hoist fuel frame l;
     vs ← omapM (eval_node lamval hoist fuel frame) args;
     ExecEvalCallLambdaExpr (eval_node lamval hoist fuel) hoist fuel (heldargs h) args lv vs).
Proof. done. Qed.

Lemma eval_and_cons ev b a a' l :
  eval_and ev b (a :: a' :: l) =
    (v ← ev a;
     match v with
     | None => eval_and ev true (a' :: l)
     | Some d => if negb (DatumGetBool d) then Ok v else eval_and ev b (a' :: l)
     end).
Proof. done. Qed.

Lemma eval_or_cons ev b a a' l :
  eval_or ev b (a :: a' :: l) =
    (v ← ev a;
     match v with
     | None => eval_or ev true (a' :: l)
     | Some d => if DatumGetBool d then Ok v else eval_or ev b (a' :: l)
     end).
Proof. done. Qed.

Lemma eval_coalesce_cons ev a a' l :
  eval_coalesce ev (a :: a' :: l) =
    (v ← ev a; match v with Some d => Ok v | None => eval_coalesce ev (a' :: l) end).
Proof. done. Qed.

(** evaluation of the parts of an expression with more fuel *)
Lemma eval_parts_fuel_le (ev ev' : Node → outcome (option Datum)) :
  (∀ c, fuel_le (ev c) (ev' c)) →
  (∀ b l, fuel_le (eval_and ev b l) (eval_and ev' b l)) ∧ (∀ b l, fuel_le (eval_or ev b l) (eval_or ev' b l))
  ∧ (∀ l, fuel_le (eval_coalesce ev l) (eval_coalesce ev' l))
  ∧ (∀ l d, fuel_le (eval_case ev l d) (eval_case ev' l d)).
Proof.
  intros Hev. split_and!.
  - intros b l. revert b. induction l as [|a [|a' l] IH]; intros b; [by right|cbn [eval_and]; fuel_mono|].
    rewrite !eval_and_cons. fuel_mono.
  - intros b l. revert b. induction l as [|a [|a' l] IH]; intros b; [by right|cbn [eval_or]; fuel_mono|].
    rewrite !eval_or_cons. fuel_mono.
  - intros l. induction l as [|a [|a' l] IH]; [by right|cbn [eval_coalesce]; fuel_mono|].
    rewrite !eval_coalesce_cons. fuel_mono.
  - intros l d. induction l as [|[c r] l IH]; cbn [eval_case]; fuel_mono.
Qed.

Lemma eval_fuel_le lamval hoist fuel : ∀ fuel' frame e,
  (fuel ≤ fuel')%nat → fuel_le (eval_node lamval hoist fuel frame e) (eval_node lamval hoist fuel' frame e).
Proof.
  induction fuel as [|fuel IH]; intros [|fuel'] frame e Hf; [by left|by left|lia|]. apply le_S_n in Hf.
  assert (∀ frame c, fuel_le (eval_node lamval hoist fuel frame c) (eval_node lamval hoist fuel' frame c)) as Hc by (intros; by apply IH).
  destruct (eval_parts_fuel_le _ _ (Hc frame)) as (Ha & Ho & Hco & Hca).
  pose proof (fun held args lv vs => call_fuel_le _ _ hoist fuel fuel' held args lv vs Hf Hc) as Hcall.
  destruct e; cbn [eval_node]; unfold eval_bool, eval_not; fuel_mono.
Qed.

Lemma eval_mono lamval hoist fuel fuel' frame e v :
  (fuel ≤ fuel')%nat →
  eval_node lamval hoist fuel frame e = Ok v → eval_node lamval hoist fuel' frame e = Ok v.
Proof. intros Hf Hv. by eapply fuel_le_eq; [apply eval_fuel_le|..]. Qed.
End EvalFacts.
