(* ===== verification/Semantics.v ===== *)
(** * Meaning of well-typed lambdas

    In the reference semantics a function-valued input holds a serialized
    lambda and a call runs its body in a frame of argument values.  The file
    shows that the value of a well-typed expression only depends on which
    lambdas its inputs hold, not on how they are stored, and that inlining
    ([scalar_inject_walk]) preserves the values. *)

From S2P Require Import Prelude Bitmapset Nodes NodesFacts Serialize Inject InjectFacts Typing Eval EvalFacts.

(** the node reader reads back everything the node writer writes *)
Class NodeIOLaws `{NodeIO} : Prop := reads_back_all : ∀ le, reads_back le.

Section Semantics.
Context `{NIO : NodeIO} `{!NodeIOLaws} `{TC : TypeCache} `{EP : ExecParams}.

Definition typed_lambda (le : LambdaExpr) (ts : list sty) : Prop :=
  length (argnames (le_hdr le)) = length ts ∧ ∃ b, le_expr le = Some b ∧ check ts b TAtom.

(** the value [v] is a serialized form of the lambda [le] *)
Definition val_lambda (v : option Datum) (le : LambdaExpr) : Prop :=
  ∃ d, v = Some d ∧ datum_lambda d = Ok (Some le).

(** two values that an expression of type [t] cannot tell apart *)
Definition val_rel (t : sty) (v v' : option Datum) : Prop :=
  match t with
  | TAtom => v = v'
  | TFun ts => ∃ le, typed_lambda le ts ∧ val_lambda v le ∧ val_lambda v' le
  end.

(** [v] is a value of type [t] *)
Definition val_ok (t : sty) (v : option Datum) : Prop := val_rel t v v.

Definition frame_rel (Γ : list sty) (fr fr' : list (option Datum)) : Prop :=
  ∀ i t, Γ !! i = Some t → ∃ v v', fr !! i = Some v ∧ fr' !! i = Some v' ∧ val_rel t v v'.

Lemma lambda_params_lookup vs i v : vs !! i = Some v → lambda_params vs !! i = Some v.
Proof. by destruct vs. Qed.

Lemma frame_rel_params ts vs vs' :
  Forall2 (fun t p => val_rel t p.1 p.2) ts (zip vs vs') → length vs = length vs' →
  frame_rel ts (lambda_params vs) (lambda_params vs').
Proof.
  intros Hr Hl i t Hi. destruct (Forall2_lookup_l _ _ _ _ _ Hr Hi) as ([v v'] & Hz & Hv).
  apply lookup_zip_Some in Hz as [Hz Hz']. exists v, v'. split_and!; [..|done]; by apply lambda_params_lookup.
Qed.

Lemma val_lambda_datum le : val_lambda (Some (lambda_datum le)) le.
Proof. exists (lambda_datum le). split; [done|]. apply datum_lambda_datum, reads_back_all. Qed.

(** ** Calls *)

(** a call that passes as many arguments as the lambda takes *)
Lemma call_typed run fuel args lv vs le ts b :
  val_lambda lv le → typed_lambda le ts → length vs = length ts → le_expr le = Some b →
  ExecEvalCallLambdaExpr run false fuel None args lv vs
  = (_ ← ExecInitCallLambdaCacheKey args; _ ← exec_init_check b; run (lambda_params vs) b).
Proof.
  intros (d & -> & Hd) [Hl _] Hvs Hb. unfold ExecEvalCallLambdaExpr, lambda_body.
  destruct (ExecInitCallLambdaCacheKey args); try done. rewrite Hd. cbn [mbind outcome_bind].
  rewrite Hb, Hl, Hvs, Z.gtb_ltb, Z.ltb_irrefl. simpl. by destruct (exec_init_check b).
Qed.

(** ** The value of a typed expression depends on the lambdas of its inputs *)

Lemma eval_param_rel Γ p t fr fr' v lamval hoist fuel :
  check Γ (NParam p) t → frame_rel Γ fr fr' →
  eval_node lamval hoist (S fuel) fr (NParam p) = Ok v →
  ∃ v', eval_node lamval hoist (S fuel) fr' (NParam p) = Ok v' ∧ val_rel t v v'.
Proof.
  intros (Hp & Hi & _) Hf. apply input_param_range in Hp as (Hk & _ & Hp). cbn [eval_node]. rewrite Hk.
  destruct (Hf _ _ Hi) as (w & w' & Hw & Hw' & Hr). unfold ExecEvalParamExec.
  rewrite (proj2 (Z.ltb_ge _ 0)), Hw, Hw' by lia. intros [= ->]. by exists w'.
Qed.

Lemma omapM_rel {A B T} (P : A → T → Prop) (Q : T → B → B → Prop) (f g : A → outcome B) l ts ys :
  Forall2 P l ts → (∀ x t y, x ∈ l → P x t → f x = Ok y → ∃ z, g x = Ok z ∧ Q t y z) →
  omapM f l = Ok ys →
  ∃ zs, omapM g l = Ok zs ∧ length ys = length zs ∧ Forall2 (fun t p => Q t p.1 p.2) ts (zip ys zs).
Proof.
  intros HP; revert ys; induction HP as [|x t l ts Hx _ IH]; intros ys Hf Hm; simpl in Hm; outcome_inv.
  - by exists [].
  - destruct (Hf x t _ ltac:(set_solver) Hx Hok) as (z & Hz & Hq).
    destruct (IH _ ltac:(set_solver) Hok0) as (zs & Hzs & Hl & Hqs).
    exists (z :: zs). simpl. rewrite Hz. simpl. rewrite Hzs. split_and!; [done|simpl; congruence|by constructor].
Qed.

Theorem eval_rel fuel Γ e t fr fr' v :
  check Γ e t → frame_rel Γ fr fr' → reference_eval fuel fr e = Ok v →
  ∃ v', reference_eval fuel fr' e = Ok v' ∧ val_rel t v v'.
Proof.
  unfold reference_eval. revert Γ e t fr fr' v.
  induction fuel as [|fuel IH]; intros Γ e t fr fr' v Hc Hf Hv; [done|].
  destruct (plain e) eqn:Hp.
  { apply check_plain in Hc as (-> & _ & Hc); [|done]. rewrite Forall_forall in Hc.
    rewrite eval_plain in Hv |- * by done. exists v. split; [|done]. revert Hv.
    apply (eval_step_sim Ok); [done|apply mutator_id|]. intros c c' Hin [= <-] w Hw.
    destruct (IH _ _ _ _ _ _ (Hc c Hin) Hf Hw) as (w' & Hw' & Heq). simpl in Heq. by subst. }
  destruct e; try done.
  - by eapply eval_param_rel.
  - destruct t as [|ts], expr as [b|]; try done. injection Hv as <-. eexists. split; [done|].
    eexists. split; [|split; apply val_lambda_datum]. destruct Hc. split; [done|]. by exists b.
  - destruct Hc as (-> & Hk & Hc). rewrite eval_lfa in Hv |- *.
    destruct (Γ !! Z.to_nat (lfa_fieldSelect_id h)) as [[|ts]|] eqn:HΓ; try done.
    apply all2_Forall2 in Hc. destruct (Hf _ _ HΓ) as (lv & lv' & Hlv & Hlv' & le & Hle & Hvl & Hvl').
    unfold ExecEvalParamExec in *. rewrite (proj2 (Z.ltb_ge _ 0)), Hlv in Hv by lia.
    rewrite (proj2 (Z.ltb_ge _ 0)), Hlv' by lia. cbn [deref mbind outcome_bind] in Hv |- *.
    apply bind_Ok_inv in Hv as (vs & Hvs & Hv).
    destruct (omapM_rel _ val_rel _ (eval_node lambda_datum false fuel fr') _ _ _ Hc (fun c t' w _ Hct Hw => IH _ _ _ _ _ _ Hct Hf Hw) Hvs)
      as (vs' & Hvs' & Hlen & Hrel).
    rewrite Hvs'. cbn [mbind outcome_bind]. destruct Hle as [Hl (b & Hb & Hcb)].
    assert (length vs = length ts) as Hn.
    { rewrite (omapM_length _ _ _ Hvs). by eapply Forall2_length. }
    rewrite (call_typed _ _ _ _ _ le ts b) in Hv by (done || (split; eauto)).
    rewrite (call_typed _ _ _ _ _ le ts b) by (done || (split; eauto) || congruence).
    destruct (ExecInitCallLambdaCacheKey args); try done. cbn [mbind outcome_bind] in *.
    destruct (exec_init_check b); try done. cbn [mbind outcome_bind] in *.
    eapply IH; [exact Hcb| |exact Hv]. by apply frame_rel_params.
Qed.

(** ** Inlining preserves values *)

Section Inlining.
Context (fout : list (option Datum)).

(** the node [b] stands, in the frame [fout], for the input value [v] *)
Definition bsem (t : sty) (b : Node) (v : option Datum) : Prop :=
  match t with
  | TAtom => ∃ fuel, reference_eval fuel fout b = Ok v
  | TFun ts =>
      ∃ le, typed_lambda le ts ∧ val_lambda v le
      ∧ (b = LambdaNode le
         ∨ ∃ p, b = NParam p ∧ paramkind p = PARAM_EXEC ∧ 0 ≤ paramid p
                ∧ fout !! Z.to_nat (paramid p) = Some v)
  end.

Definition bind_sem (i : nat) (t : sty) (b : option Node) (v : option Datum) : Prop :=
  match b with
  | Some b => bsem t b v
  | None => t = TAtom ∧ fout !! i = Some v
  end.

Definition binds_sem (Γ : list sty) (bs : list (option Node)) (fin : list (option Datum)) (e : Node) : Prop :=
  ∀ i t, Γ !! i = Some t → refs (Z.of_nat (length Γ)) i e →
         ∃ b v, bs !! i = Some b ∧ fin !! i = Some v ∧ bind_sem i t b v.

Lemma binds_sem_child Γ bs fin e c :
  nodeTag e ≠ T_LambdaExpr → c ∈ children e → binds_sem Γ bs fin e → binds_sem Γ bs fin c.
Proof. intros Ht Hc Hb i t Hi Hr. apply Hb; [done|]. by eapply refs_child. Qed.

(** a binding evaluates to a value related to the input's *)
Lemma bsem_eval t b v : bsem t b v → ∃ fuel v', reference_eval fuel fout b = Ok v' ∧ val_rel t v v'.
Proof.
  destruct t as [|ts]; [intros [f Hf]; by exists f, v|]. intros (le & Ht & Hv & Hb). exists 1%nat.
  destruct Hb as [->|(p & -> & Hk & H0 & Hl)].
  - exists (Some (lambda_datum le)). split; [by destruct le|]. exists le. split_and!; [done..|]. apply val_lambda_datum.
  - exists v. unfold reference_eval. simpl. rewrite Hk. unfold ExecEvalParamExec.
    rewrite (proj2 (Z.ltb_ge _ 0)), Hl by lia. split; [done|]. by exists le.
Qed.

(** one fuel for all the rewritten children that have to have a value *)
Lemma uniform_fuel g ev (l : list Node) :
  (∀ c c' v, c ∈ l → g c = Ok c' → ev c = Ok v → ∃ fuel, reference_eval fuel fout c' = Ok v) →
  ∃ fuel, ∀ c c', c ∈ l → g c = Ok c' → sim ev (reference_eval fuel fout) c c'.
Proof.
  induction l as [|x l IH]; intros Hl; [exists O; set_solver|].
  destruct IH as [f1 Hf1]; [intros; eapply Hl; set_solver|].
  assert (∃ f2, ∀ x', g x = Ok x' → sim ev (reference_eval f2 fout) x x') as [f2 Hf2].
  { destruct (g x) as [x'| | |] eqn:Hg; try (by exists O). destruct (ev x) as [v| | |] eqn:Hv.
    2-4: exists O; intros x'' _ w Hw; congruence.
    destruct (Hl x x' v) as [f2 Hf2]; [set_solver|done..|]. exists f2. intros x'' [= <-] w Hw. congruence. }
  exists (max f1 f2). intros c c' Hc Hg v Hv. apply elem_of_cons in Hc as [->|Hc].
  - eapply eval_mono; [|by eapply Hf2]. lia.
  - eapply eval_mono; [|by eapply Hf1]. lia.
Qed.

(** all the arguments of a call *)
Lemma args_sem g ev (args : list Node) ts es vs :
  Forall2 (fun a t => ∀ a' v, g a = Ok a' → ev a = Ok v → bsem t a' v) args ts →
  omapM g args = Ok es → omapM ev args = Ok vs →
  Forall2 (fun t p => bsem t p.1 p.2) ts (zip es vs) ∧ length es = length ts ∧ length vs = length ts.
Proof.
  intros HF; revert es vs; induction HF as [|a t args ts Ha _ IH]; intros es vs He Hv; simpl in He, Hv; outcome_inv.
  - by split_and!.
  - destruct (IH _ _ Hok2 Hok0) as (IH1 & IH2 & IH3).
    split_and!; [constructor; [by apply Ha|done]|simpl; congruence..].
Qed.

Lemma binds_sem_args ts es vs e :
  Forall2 (fun t p => bsem t p.1 p.2) ts (zip es vs) →
  binds_sem ts (Some <$> es) (lambda_params vs) e.
Proof.
  intros HF i t Hi _. destruct (Forall2_lookup_l _ _ _ _ _ HF Hi) as ([b v] & Hz & Hs).
  apply lookup_zip_Some in Hz as [He Hv]. exists (Some b), v.
  split_and!; [by rewrite list_lookup_fmap, He|by apply lambda_params_lookup|done].
Qed.

(** the values of the inlined arguments *)
Lemma args_eval ts es vs :
  Forall2 (fun t p => bsem t p.1 p.2) ts (zip es vs) → length es = length ts → length vs = length ts →
  ∃ fuel vs', omapM (reference_eval fuel fout) es = Ok vs' ∧ length vs = length vs'
  ∧ Forall2 (fun t p => val_rel t p.1 p.2) ts (zip vs vs').
Proof.
  revert es vs; induction ts as [|t ts IH]; intros [|b es] [|v vs] HF He Hv; try done.
  { exists O, []. by split_and!. }
  simpl in HF. inversion HF as [|? ? ? ? Hb HF']; subst.
  simpl in Hb. destruct (bsem_eval _ _ _ Hb) as (f1 & w & Hw & Hrel). destruct (IH es vs HF') as (f2 & ws & Hws & Hl & Hr).
  1,2: simpl in *; lia.
  exists (max f1 f2), (w :: ws). simpl.
  rewrite (eval_mono _ _ f1 (max f1 f2) _ _ _ ltac:(lia) Hw : reference_eval _ _ _ = _). simpl.
  rewrite (omapM_mono _ (reference_eval (max f1 f2) fout) _ _ (fun c y _ Hy => eval_mono _ _ f2 (max f1 f2) _ _ _ ltac:(lia) Hy) Hws).
  split_and!; [done|simpl; congruence|by constructor].
Qed.

Lemma inject_sound_lfa fuel ctx Γ h args fin e' f v :
  (∀ ctx Γ e t fin e' f v, check Γ e t → binds_sem Γ (binding ctx) fin e → sb_nargs ctx = Z.of_nat (length Γ) →
     scalar_inject_walk fuel ctx e = Ok e' → reference_eval f fin e = Ok v → bsem t e' v) →
  check Γ (NLambdaFuncAliasExpr h args) TAtom → binds_sem Γ (binding ctx) fin (NLambdaFuncAliasExpr h args) →
  sb_nargs ctx = Z.of_nat (length Γ) →
  scalar_inject_walk (S fuel) ctx (NLambdaFuncAliasExpr h args) = Ok e' →
  reference_eval (S f) fin (NLambdaFuncAliasExpr h args) = Ok v → bsem TAtom e' v.
Proof.
  intros IH (_ & Hk & Hc) Hb Hn He Hv.
  destruct (Γ !! Z.to_nat (lfa_fieldSelect_id h)) as [[|ts]|] eqn:HΓ; try done. apply all2_Forall2 in Hc.
  apply inject_lfa_inv in He as (Hr & es & Hes & He). rewrite Hn in Hr.
  destruct (Hb _ _ HΓ) as (b & lv & Hbk & Hlv & Hsem).
  { unfold refs. simpl. rewrite (proj2 (Z.leb_le 0 _)), (proj2 (Z.ltb_lt _ _)) by lia. set_solver. }
  unfold reference_eval in Hv. rewrite eval_lfa in Hv. unfold ExecEvalParamExec in Hv.
  rewrite (proj2 (Z.ltb_ge _ 0)), Hlv in Hv by lia. cbn [deref mbind outcome_bind] in Hv.
  apply bind_Ok_inv in Hv as (vs & Hvs & Hv).
  destruct (args_sem (scalar_inject_walk fuel ctx) (reference_eval f fin) args ts es vs) as (Hargs & Hle & Hlv'); [|done|done|].
  { clear -IH Hc Hb Hn. assert (∀ c, c ∈ args → binds_sem Γ (binding ctx) fin c) as Hb'.
    { intros c Hin. by eapply binds_sem_child; [| |exact Hb]. }
    clear Hb. induction Hc as [|a t args ts Ha _ IHc]; constructor; [|apply IHc; set_solver].
    intros a' w Ha' Hw. eapply IH; [exact Ha| |done|exact Ha'|exact Hw]. apply Hb'. set_solver. }
  destruct b as [b|]; [|by destruct Hsem]. destruct Hsem as (le & Hle' & Hvl & Hnode).
  destruct Hle' as [Hlen (body & Hbody & Hcb)].
  rewrite (call_typed _ _ _ _ _ le ts body) in Hv by (done || (split; eauto)).
  apply bind_Ok_inv in Hv as (key & Hkey & ([] & Hinit & Hv)%bind_Ok_inv).
  destruct He as [(p & Hp & ->)|(ch & cb & Hp & Hla & He)]; rewrite Hbk in Hp; injection Hp as ->.
  - destruct Hnode as [Hnode|(q & [= <-] & Hpk & Hp0 & Hpl)]; [by destruct le|].
    destruct (args_eval _ _ _ Hargs Hle Hlv') as (f2 & vs' & Hvs' & Hll & Hrel).
    destruct (eval_rel f ts body TAtom (lambda_params vs) (lambda_params vs') v Hcb) as (v' & Hv' & Heq); [by apply frame_rel_params|done|].
    simpl in Heq; subst v'. exists (S (max f f2)). unfold reference_eval. rewrite eval_lfa.
    unfold ExecEvalParamExec. cbn [lfa_fieldSelect_id retarget_lfa].
    rewrite (proj2 (Z.ltb_ge _ 0)), Hpl by lia. cbn [deref mbind outcome_bind].
    rewrite (omapM_mono _ (eval_node lambda_datum false (max f f2) fout) _ _ (fun c y _ Hy => eval_mono _ _ f2 (max f f2) _ _ _ ltac:(lia) Hy) Hvs').
    cbn [mbind outcome_bind].
    rewrite (call_typed _ _ _ _ _ le ts body) by (done || (split; eauto) || congruence).
    destruct (cache_key_total es) as [key' ->]. cbn [mbind outcome_bind]. rewrite Hinit. cbn [mbind outcome_bind].
    eapply eval_mono; [|exact Hv']. lia.
  - destruct Hnode as [Hnode|(q & [=] & _)]. destruct le as [lh lex]. injection Hnode as -> <-. injection Hbody as <-.
    eapply (IH (child_ctx ctx es) ts cb TAtom); [done| | |exact He|exact Hv].
    + by apply binds_sem_args.
    + simpl. by rewrite Hle.
Qed.

(** an inlined expression has the value of the original *)
Theorem inject_sound fuel ctx Γ e t fin e' f v :
  check Γ e t → binds_sem Γ (binding ctx) fin e → sb_nargs ctx = Z.of_nat (length Γ) →
  scalar_inject_walk fuel ctx e = Ok e' → reference_eval f fin e = Ok v → bsem t e' v.
Proof.
  revert ctx Γ e t fin e' f v. induction fuel as [|fuel IH]; intros ctx Γ e t fin e' f v Hc Hb Hn He Hv; [done|].
  destruct f as [|f]; [done|]. destruct (plain e) eqn:Hp.
  { apply check_plain in Hc as (-> & _ & Hc); [|done]. rewrite Forall_forall in Hc. rewrite inject_plain in He by done.
    destruct (uniform_fuel (scalar_inject_walk fuel ctx) (reference_eval f fin) (children e)) as [F HF].
    { intros c c' w Hin Hg Hw. eapply (IH ctx Γ c TAtom); eauto.
      eapply binds_sem_child; [|exact Hin|exact Hb]. by destruct e. }
    exists (S F). apply mutator_children in He as Hm. unfold reference_eval in *.
    rewrite eval_plain in Hv by done. rewrite eval_plain by (by rewrite (plain_tag _ _ (proj1 Hm))).
    by eapply eval_step_sim. }
  destruct e; try done.
  - destruct Hc as (Hpar & Hi & Hf). unfold reference_eval in Hv. cbn [eval_node scalar_inject_walk] in Hv, He.
    destruct (Hb _ _ Hi) as (b & w & Hbi & Hw & Hsem).
    { unfold refs. simpl. rewrite Hpar. set_solver. }
    unfold bound_param in He. rewrite Hn, Hpar, Hbi in He.
    apply input_param_range in Hpar as (Hk & _ & Hr). rewrite Hk in Hv. unfold ExecEvalParamExec in Hv.
    rewrite (proj2 (Z.ltb_ge _ 0)), Hw in Hv by lia. injection Hv as ->.
    destruct b as [b|]; injection He as <-; [done|]. destruct Hsem as [-> Hfo]. exists 1%nat.
    unfold reference_eval. cbn [eval_node]. rewrite Hk. unfold ExecEvalParamExec.
    by rewrite (proj2 (Z.ltb_ge _ 0)), Hfo by lia.
  - destruct t as [|ts], expr as [b|]; try done. injection He as <-. injection Hv as <-. destruct Hc as [Hl Hc].
    exists (mkLambdaExpr h (Some b)). split_and!; [split; [done|by exists b]|apply val_lambda_datum|by left].
  - assert (t = TAtom) as -> by (by destruct Hc). by eapply inject_sound_lfa.
Qed.
End Inlining.
End Semantics.
