(* ===== verification/HoistFacts.v ===== *)
(** * Facts about hoisting

    What the prescan of a well-typed body finds, which bindings the injector
    makes from typed arguments, and why a body without function-valued inputs
    runs the same way under every executor setting. *)

From S2P Require Import Prelude Bitmapset BitmapsetFacts Nodes NodesFacts Serialize Inject InjectFacts Typing Eval.
From S2P Require Import EvalFacts Semantics.

(** the context in which every input is atomic *)
Definition atoms (Γ : list sty) : list sty := (fun _ => TAtom) <$> Γ.

Lemma atoms_lookup Γ i : atoms Γ !! i = (fun _ => TAtom) <$> Γ !! i.
Proof. apply list_lookup_fmap. Qed.

Lemma atoms_length Γ : length (atoms Γ) = length Γ.
Proof. apply length_fmap. Qed.

(** ** References of a well-typed body *)

Lemma check_child Γ e t c :
  check Γ e t → nodeTag e ≠ T_LambdaExpr → c ∈ children e → ∃ t', check Γ c t'.
Proof.
  intros Hc Ht Hin. destruct (plain e) eqn:Hp.
  { apply check_plain in Hc as (_ & _ & Hc); [|done]. rewrite Forall_forall in Hc. eauto. }
  destruct e; try done; simpl in Hin; [set_solver|]. destruct Hc as (_ & _ & Hc).
  destruct (Γ !! _) as [[|ts]|]; try done. apply all2_Forall2 in Hc.
  apply list_elem_of_lookup in Hin as [i Hi]. destruct (Forall2_lookup_l _ _ _ _ _ Hc Hi) as (t' & _ & Hct). eauto.
Qed.

(** every reference is to an input, and marks it as a function exactly if its
    type is a function type *)
Lemma check_refs Γ e t r :
  check Γ e t → r ∈ refs_of e →
  ∃ i t', ref_index (Z.of_nat (length Γ)) r = Some i ∧ Γ !! i = Some t' ∧ func_ref r = is_fun t'.
Proof.
  revert t. induction e as [e IH] using node_ind'. intros t Hc Hr.
  destruct (decide (nodeTag e = T_LambdaExpr)); [destruct e; set_solver|].
  destruct (decide (nodeTag e = T_Param)) as [Hp|Hp].
  { destruct e; try done. simpl in Hr. apply list_elem_of_singleton in Hr as ->.
    destruct Hc as (Hi & HΓ & Hf). exists (Z.to_nat (paramid p)), t. simpl. by rewrite Hi. }
  rewrite refs_of_children in Hr by done. apply elem_of_app in Hr as [Hr|Hr].
  - destruct e; try set_solver. apply list_elem_of_singleton in Hr as ->. destruct Hc as (_ & Hk & Hc).
    destruct (Γ !! _) as [[|ts]|] eqn:HΓ; try done. eexists _, _. split_and!; [|exact HΓ|done]. simpl.
    apply lookup_lt_Some in HΓ. by rewrite (proj2 (Z.leb_le 0 _)), (proj2 (Z.ltb_lt _ _)) by lia.
  - apply list_elem_of_In, in_flat_map in Hr as (c & Hc1 & Hc2). apply list_elem_of_In in Hc1, Hc2.
    destruct (check_child _ _ _ _ Hc ltac:(done) Hc1) as [t' Hct]. rewrite Forall_forall in IH. by eapply IH.
Qed.

Lemma refs_elem n i e : refs n i e ↔ ∃ r, r ∈ refs_of e ∧ ref_index n r = Some i.
Proof. apply list_elem_of_omap. Qed.

Lemma palloc0_bools_length n : length (palloc0_bools n) = Z.to_nat n.
Proof. apply repeat_length. Qed.

Lemma palloc0_bools_true n i : palloc0_bools n !! i ≠ Some true.
Proof.
  unfold palloc0_bools. intros Hi%list_elem_of_lookup_2. apply list_elem_of_In, repeat_spec in Hi. done.
Qed.

Lemma scalar_prescan_refs m b s :
  le_expr m = Some b → sp_nargs s > 0 → scalar_prescan (Some m) s = foldl prescan_ref s (refs_of b).
Proof.
  intros Hb Hn. unfold scalar_prescan. rewrite Hb, Z.gtb_ltb, (proj2 (Z.ltb_lt _ _)) by lia.
  by rewrite prescan_walker_spec.
Qed.

(** the inputs a prescan marks: the function-typed ones the body refers to *)
Lemma prescan_typed m b Γ pr :
  le_expr m = Some b → check Γ b TAtom →
  let n := Z.of_nat (length Γ) in
  let fs := isFunc (scalar_prescan (Some m) (mkScalarPrescan (palloc0_bools n) pr n)) in
  length fs = length Γ
  ∧ ∀ i t, Γ !! i = Some t →
     (fs !! i = Some true ↔ is_fun t = true ∧ refs n i b).
Proof.
  intros Hb Hc n fs. destruct (decide (Γ = [])) as [->|Hne].
  { unfold fs, scalar_prescan. by rewrite Hb. }
  assert (n > 0) as Hn by (unfold n; destruct Γ; [done|simpl; lia]).
  unfold fs. rewrite (scalar_prescan_refs _ _ _ Hb) by done.
  set (s0 := mkScalarPrescan (palloc0_bools n) pr n).
  assert (sp_nargs s0 = Z.of_nat (length (isFunc s0))) as Hs0 by (simpl; rewrite palloc0_bools_length; lia).
  split.
  { destruct (prescan_isFunc (refs_of b) s0 0 Hs0) as (_ & -> & _). simpl. rewrite palloc0_bools_length. lia. }
  intros i t Hi. destruct (prescan_isFunc (refs_of b) s0 i Hs0) as (_ & _ & ->). simpl.
  rewrite refs_elem. split.
  - intros [Hf|(r & Hr & Hri & Hf)]; [by destruct (palloc0_bools_true _ _ Hf)|].
    destruct (check_refs _ _ _ _ Hc Hr) as (j & t' & Hj & Hjt & Hft). fold n in Hj.
    assert (j = i) as -> by congruence. split; [congruence|eauto].
  - intros (Hf & r & Hr & Hri). right. exists r. split_and!; [done..|].
    destruct (check_refs _ _ _ _ Hc Hr) as (j & t' & Hj & Hjt & Hft). fold n in Hj.
    assert (j = i) as -> by congruence. congruence.
Qed.

(** ** Bodies without function-valued inputs *)

(** how [has_lfa_walker] walks a body, and what it means for a typed one *)
Lemma has_lfa_atoms e :
  ∃ b, has_lfa_walker e false = (b, b)
  ∧ (b = false → ∀ Γ, check Γ e TAtom → check (atoms Γ) e TAtom)
  ∧ ∀ Γ, check (atoms Γ) e TAtom → b = false.
Proof.
  induction e as [e IH] using node_ind'.
  destruct (decide (nodeTag e = T_LambdaFuncAliasExpr)) as [Ht|Ht].
  { destruct e; try done. exists true. split_and!; [done..|]. intros Γ (_ & _ & Hc).
    rewrite atoms_lookup in Hc. by destruct (Γ !! _). }
  assert (∃ b, list_walk has_lfa_walker (children e) false = (b, b)
    ∧ (b = false → ∀ Γ, Forall (fun c => check Γ c TAtom) (children e) → Forall (fun c => check (atoms Γ) c TAtom) (children e))
    ∧ ∀ Γ, Forall (fun c => check (atoms Γ) c TAtom) (children e) → b = false) as (b & Hw & Hb1 & Hb2).
  { clear Ht. induction IH as [|c l (b & Hc & Hb1 & Hb2) _ (b' & Hl & Hl1 & Hl2)]; simpl; [by exists false|].
    rewrite Hc. destruct b.
    - exists true. split_and!; [done..|]. intros Γ HF. inversion HF; subst. by eapply Hb2.
    - exists b'. split_and!; [done| |].
      + intros Hb' Γ HF. inversion HF; subst. constructor; auto.
      + intros Γ HF. inversion HF; subst. by eapply Hl2. }
  exists b. split_and!.
  - rewrite <- Hw, <- walker_children. by destruct e.
  - intros -> Γ Hc. destruct (plain e) eqn:Hp.
    { apply check_plain in Hc as (_ & Hsh & Hc); [|done]. apply check_plain; auto. }
    destruct e; try done. destruct Hc as (Hi & HΓ & Hf). cbn [check].
    rewrite atoms_length, atoms_lookup, HΓ. done.
  - intros Γ Hc. destruct (plain e) eqn:Hp.
    { apply check_plain in Hc as (_ & _ & Hc); [|done]. by eapply Hb2. }
    destruct e; try done. simpl in Hw. congruence.
Qed.

Lemma has_lfa_no le b : le_expr le = Some b → lambda_body_has_lfa (Some le) = false →
  ∀ Γ, check Γ b TAtom → check (atoms Γ) b TAtom.
Proof.
  intros Hb. simpl. rewrite Hb. destruct (has_lfa_atoms b) as (x & -> & Hx & _). simpl. intros ->. by apply Hx.
Qed.

Lemma atoms_no_lfa le b Γ :
  le_expr le = Some b → check (atoms Γ) b TAtom → lambda_body_has_lfa (Some le) = false.
Proof.
  intros Hb Hc. simpl. rewrite Hb. destruct (has_lfa_atoms b) as (x & -> & _ & Hx). simpl. by eapply Hx.
Qed.

(** a node of the right shape is compiled by compiling its children *)
Lemma init_walk_plain e s :
  plain e = true → node_shape e = true → exec_init_walker e s = expression_tree_walker exec_init_walker e s.
Proof.
  intros Hp Hsh. destruct e as [| | | | | | | | | | |t whens [d|]| | | | | | | |]; try done; cbn [node_shape] in Hsh; cbn [exec_init_walker];
    first [by destruct (_ >? _)|apply Nat.eqb_eq in Hsh; by rewrite Hsh].
Qed.

(** compiling such a body raises no error *)
Lemma atoms_init Γ e s : check (atoms Γ) e TAtom → exec_init_walker e s = (false, s).
Proof.
  revert s. induction e as [e IH] using node_ind'. intros s Hc. destruct (plain e) eqn:Hp.
  - apply check_plain in Hc as (_ & Hsh & Hc); [|done].
    assert (∀ s, list_walk exec_init_walker (children e) s = (false, s)) as Hl.
    { clear s. induction IH as [|c l Hcw _ IHl]; intros s; simpl; [done|]. inversion Hc; subst.
      rewrite Hcw by done. by apply IHl. }
    by rewrite init_walk_plain, walker_children.
  - destruct e; try done.
    + destruct Hc as [(Hk & _)%input_param_range _]. simpl. by rewrite Hk.
    + destruct Hc as (_ & _ & Hc). rewrite atoms_lookup in Hc. by destruct (Γ !! _).
Qed.

Lemma atoms_init_check Γ e : check (atoms Γ) e TAtom → exec_init_check e = Ok tt.
Proof. intros Hc. unfold exec_init_check. by rewrite (atoms_init Γ). Qed.

Section HoistFacts.
Context `{NIO : NodeIO} `{!NodeIOLaws} `{TC : TypeCache} `{EP : ExecParams}.

(** the executor's settings do not matter to it *)
Lemma atoms_eval lamval hoist lamval' hoist' Γ fuel frame e v :
  check (atoms Γ) e TAtom → eval_node lamval hoist fuel frame e = Ok v →
  eval_node lamval' hoist' fuel frame e = Ok v.
Proof.
  revert e v. induction fuel as [|fuel IH]; intros e v Hc Hv; [done|]. destruct (plain e) eqn:Hp.
  - rewrite eval_plain in Hv |- * by done. apply check_plain in Hc as (_ & _ & Hc); [|done].
    rewrite Forall_forall in Hc. revert Hv. apply (eval_step_sim Ok); [done|apply mutator_id|].
    intros c c' Hin [= <-] w. apply IH. by apply Hc.
  - destruct e; try done. destruct Hc as (_ & _ & Hc). rewrite atoms_lookup in Hc. by destruct (Γ !! _).
Qed.

(** ** The bindings of a full application *)

Lemma bind_func_inputs_spec i fs vs :
  length fs = length vs →
  (∀ j v, fs !! j = Some true → vs !! j = Some v → ∃ le, val_lambda v le) →
  ∃ bs, bind_func_inputs i fs (datum_or_zero <$> vs) (is_null <$> vs) = Ok bs ∧ length bs = length vs
  ∧ ∀ j v, vs !! j = Some v →
      (fs !! j = Some true → ∃ le, val_lambda v le ∧ bs !! j = Some (Some (LambdaNode le)))
      ∧ (fs !! j ≠ Some true → bs !! j = Some None).
Proof.
  revert i vs; induction fs as [|f fs IH]; intros i [|v vs] Hl Hv; try done.
  { exists []. split_and!; done. }
  destruct (IH (i + 1) vs) as (bs & Hbs & Hlen & Hspec); [simpl in Hl; lia| |].
  { intros j w. apply (Hv (S j)). }
  rewrite !fmap_cons. cbn [bind_func_inputs head tail]. destruct f; cbn [negb].
  - destruct (Hv O v) as (le & d & -> & Hd); [done..|]. cbn [deref mbind outcome_bind].
    change (is_null (Some d)) with false. change (datum_or_zero (Some d)) with d. cbn iota. rewrite Hd.
    cbn [mbind outcome_bind]. rewrite Hbs. cbn [mbind outcome_bind].
    eexists. split; [done|]. split; [simpl; congruence|]. intros [|j] w Hw; [|by apply Hspec].
    injection Hw as <-. split; [|done]. intros _. exists le. split; [by exists d|done].
  - cbn [mbind outcome_bind]. rewrite Hbs. eexists. split; [done|]. split; [simpl; congruence|].
    intros [|j] w Hw; [|by apply Hspec]. by split.
Qed.

Lemma Red_lambda Γo names ns le ts : typed_lambda le ts → Red Γo names ns (TFun ts) (LambdaNode le).
Proof.
  intros [Hl (b & Hb & Hc)]. destruct le as [h e]. simpl in *; subst e.
  destruct (inline_total Γo names ns [] [] (NLambdaExpr h (Some b)) (TFun ts)) as ([|f] & e' & He & Hr); [done| |done|].
  - split; [done|]. intros i t Hi. by rewrite lookup_nil in Hi.
  - by injection He as <-.
Qed.

(** the typed values of a list of inputs *)
Definition vals_ok (ts : list sty) (vs : list (option Datum)) : Prop := Forall2 val_ok ts vs.

Lemma vals_ok_frame ts vs : vals_ok ts vs → frame_rel ts (lambda_params vs) (lambda_params vs).
Proof.
  intros Hv i t Hi. destruct (Forall2_lookup_l _ _ _ _ _ Hv Hi) as (v & Hvi & Hr).
  exists v, v. split_and!; [..|done]; by apply lambda_params_lookup.
Qed.

(** how a referenced input is bound: an atomic one is left open, a function
    input is bound to the lambda it holds *)
Definition bound_full (t : sty) (v : option Datum) (b : option Node) : Prop :=
  t = TAtom ∧ b = None
  ∨ ∃ ts le, t = TFun ts ∧ typed_lambda le ts ∧ val_lambda v le ∧ b = Some (LambdaNode le).

Lemma full_bindings m b ts vs :
  le_expr m = Some b → check ts b TAtom → vals_ok ts vs →
  let n := Z.of_nat (length vs) in
  ∃ bs, bind_func_inputs 0 (isFunc (scalar_prescan (Some m) (mkScalarPrescan (palloc0_bools n) None n)))
          (datum_or_zero <$> vs) (is_null <$> vs) = Ok bs ∧ length bs = length vs
  ∧ ∀ i t, ts !! i = Some t → refs (Z.of_nat (length ts)) i b →
      ∃ v x, vs !! i = Some v ∧ bs !! i = Some x ∧ bound_full t v x.
Proof.
  intros Hb Hc Hv n. assert (length vs = length ts) as Hlen by (symmetry; by eapply Forall2_length).
  destruct (prescan_typed m b ts None Hb Hc) as [Hfl Hfs]. rewrite <- Hlen in Hfl, Hfs. fold n in Hfl, Hfs.
  set (fs := isFunc _) in *.
  destruct (bind_func_inputs_spec 0 fs vs Hfl) as (bs & Hbs & Hbl & Hspec).
  { intros j v Hj Hvj. destruct (Forall2_lookup_r _ _ _ _ _ Hv Hvj) as (t & Ht & Hok).
    apply (Hfs _ _ Ht) in Hj as [Hf _]. destruct t; [done|]. destruct Hok as (le & _ & Hvl & _). eauto. }
  exists bs. split_and!; [done..|]. intros i t Hi Hr.
  destruct (Forall2_lookup_l _ _ _ _ _ Hv Hi) as (v & Hvi & Hok). rewrite <- Hlen in Hr.
  destruct (Hspec i v Hvi) as [Hs1 Hs2]. specialize (Hfs i t Hi). destruct t as [|ts'].
  - exists v, None. split_and!; [done| |by left]. apply Hs2. intros Hf%Hfs. by destruct Hf.
  - destruct Hs1 as (le & Hvl & Hbi); [by apply Hfs|]. destruct Hok as (le' & Hty & Hvl' & _).
    exists v, (Some (LambdaNode le)). split_and!; [done..|]. right.
    destruct Hvl as (d & -> & Hd), Hvl' as (d' & [= <-] & Hd'). assert (le' = le) as -> by congruence.
    exists ts', le. split_and!; [done..| |done]. by exists d.
Qed.

(** injecting typed arguments into a typed mother: the bindings are made, the
    inlining ends, and the result has only atomic inputs and the value of the
    mother's body *)
Lemma injector_scalar_typed m b ts vs :
  le_expr m = Some b → check ts b TAtom → vals_ok ts vs →
  ∃ fuel e', check (atoms ts) e' TAtom
  ∧ (∀ fuel', (fuel ≤ fuel')%nat →
       lambda_injector_scalar fuel' (Some m) (datum_or_zero <$> vs) (is_null <$> vs) (Z.of_nat (length vs))
       = Ok (mkLambdaExpr (le_hdr m) (Some e')))
  ∧ ∀ f v, reference_eval f (lambda_params vs) b = Ok v →
           ∃ f', reference_eval f' (lambda_params vs) e' = Ok v.
Proof.
  intros Hb Hc Hv. assert (length vs = length ts) as Hlen by (symmetry; by eapply Forall2_length).
  destruct (full_bindings m b ts vs Hb Hc Hv) as (bs & Hbs & Hbl & Hbind).
  set (ctx := mkScalarBind bs (Z.of_nat (length vs)) None 0).
  destruct (inline_total (atoms ts) None 0 ts bs b TAtom Hc) as (fuel & e' & He & Hred).
  { split; [congruence|]. intros i t Hi Hr.
    destruct (Hbind i t Hi Hr) as (v & x & _ & Hbi & [[-> ->]|(ts' & le & -> & Hty & _ & ->)]); eexists.
    - split; [exact Hbi|]. split; [done|]. by rewrite atoms_lookup, Hi.
    - split; [exact Hbi|]. by apply Red_lambda. }
  rewrite Hbl in He. exists fuel, e'. split_and!; [done| |].
  - intros fuel' Hf. unfold lambda_injector_scalar. rewrite Hbs. cbn [mbind outcome_bind].
    rewrite Hb. by rewrite (inject_mono _ _ _ _ _ Hf He).
  - intros f v Hev.
    apply (inject_sound (lambda_params vs) fuel ctx ts b TAtom (lambda_params vs) e' f v Hc); [|simpl; congruence|done|done].
    intros i t Hi Hr. destruct (Hbind i t Hi Hr) as (w & x & Hw & Hbi & Hx). exists x, w.
    split_and!; [done|by apply lambda_params_lookup|].
    destruct Hx as [[-> ->]|(ts' & le & -> & Hty & Hvl & ->)].
    + split; [done|by apply lambda_params_lookup].
    + exists le. eauto.
Qed.
End HoistFacts.
