(* ===== verification/NodeText.v ===== *)
(** * A node text format

    The theorems about serialized lambdas assume of [nodeToString] and
    [stringToNode] only that the reader reads back what the writer wrote
    ([NodeIOLaws]).  This file shows that the assumption can hold: it gives
    one concrete text format for all nodes of [Nodes.v] and proves the law. *)

From stdpp Require Import countable.
From S2P Require Import Prelude Bitmapset Nodes NodesFacts Serialize Inject InjectFacts Typing Eval EvalFacts.
From S2P Require Import Semantics.

(** ** Codes of the node fields *)

(** self-delimiting codes: the decoder returns what follows the code *)
Class Code A := {
  enc : A → list Z;
  dec : list Z → option (A * list Z);
  dec_enc x k : dec (enc x ++ k) = Some (x, k)
}.

#[local] Instance code_Z : Code Z.
Proof. refine {| enc z := [z]; dec l := match l with z :: l => Some (z, l) | [] => None end |}. done. Defined.

#[local] Instance code_prod {A B} `{Code A} `{Code B} : Code (A * B).
Proof.
  refine {| enc p := enc p.1 ++ enc p.2;
            dec l := '(a, l) ← dec l; '(b, l) ← dec l; Some ((a, b), l) |}.
  intros [a b] k. simpl. rewrite <- app_assoc, dec_enc. simpl. by rewrite dec_enc.
Defined.

Fixpoint dec_n {A} `{Code A} (n : nat) (l : list Z) : option (list A * list Z) :=
  match n with
  | O => Some ([], l)
  | S n => '(a, l) ← dec l; '(r, l) ← dec_n n l; Some (a :: r, l)
  end.

Lemma dec_n_enc {A} `{Code A} (xs : list A) k : dec_n (length xs) (flat_map enc xs ++ k) = Some (xs, k).
Proof.
  induction xs as [|x xs IH]; simpl; [done|]. rewrite <- app_assoc, dec_enc. simpl. by rewrite IH.
Qed.

#[local] Instance code_list {A} `{Code A} : Code (list A).
Proof.
  refine {| enc l := Z.of_nat (length l) :: flat_map enc l;
            dec l := match l with n :: l => dec_n (Z.to_nat n) l | [] => None end |}.
  intros x k. simpl. rewrite Nat2Z.id. apply dec_n_enc.
Defined.

(** a type that embeds into a coded one *)
Definition code_iso {A B} `{Code B} (f : A → B) (g : B → A) (Hgf : ∀ x, g (f x) = x) : Code A.
Proof.
  refine {| enc x := enc (f x); dec l := '(b, l) ← dec l; Some (g b, l) |}.
  intros x k. rewrite dec_enc. simpl. by rewrite Hgf.
Defined.

(** an enumeration, by the position of its constructors *)
Definition code_enum {A} (f : A → Z) (g : Z → A) (Hgf : ∀ x, g (f x) = x) : Code A := code_iso f g Hgf.

#[local] Instance code_ascii : Code ascii :=
  code_iso (A := ascii) (fun c => Z.of_N (N_of_ascii c)) (fun z => ascii_of_N (Z.to_N z))
    (fun c => ltac:(cbv beta; by rewrite N2Z.id, ascii_N_embedding)).
#[local] Instance code_cstr : Code cstr := code_list.
#[local] Instance code_bool : Code bool :=
  code_enum (A := bool) (fun b => if b then 1 else 0) (fun z => z =? 1) (fun b => ltac:(by destruct b)).
#[local] Instance code_ParamKind : Code ParamKind :=
  code_enum (A := ParamKind) (fun x => match x with PARAM_EXTERN => 0 | PARAM_EXEC => 1 | PARAM_SUBLINK => 2 | PARAM_MULTIEXPR => 3 end)
    (fun z => if z =? 0 then PARAM_EXTERN else if z =? 1 then PARAM_EXEC else if z =? 2 then PARAM_SUBLINK else PARAM_MULTIEXPR)
    (fun x => ltac:(by destruct x)).
#[local] Instance code_LambdaKind : Code LambdaKind :=
  code_enum (A := LambdaKind) (fun x => match x with LAMBDA_ROW_CONTEXT => 0 | LAMBDA_SCALAR_CONTEXT => 1 end)
    (fun z => if z =? 0 then LAMBDA_ROW_CONTEXT else LAMBDA_SCALAR_CONTEXT) (fun x => ltac:(by destruct x)).
#[local] Instance code_BoolExprType : Code BoolExprType :=
  code_enum (A := BoolExprType) (fun x => match x with AND_EXPR => 0 | OR_EXPR => 1 | NOT_EXPR => 2 end)
    (fun z => if z =? 0 then AND_EXPR else if z =? 1 then OR_EXPR else NOT_EXPR) (fun x => ltac:(by destruct x)).
#[local] Instance code_MinMaxOp : Code MinMaxOp :=
  code_enum (A := MinMaxOp) (fun x => match x with IS_GREATEST => 0 | IS_LEAST => 1 end)
    (fun z => if z =? 0 then IS_GREATEST else IS_LEAST) (fun x => ltac:(by destruct x)).
#[local] Instance code_NullTestType : Code NullTestType :=
  code_enum (A := NullTestType) (fun x => match x with IS_NULL => 0 | IS_NOT_NULL => 1 end)
    (fun z => if z =? 0 then IS_NULL else IS_NOT_NULL) (fun x => ltac:(by destruct x)).
#[local] Instance code_BoolTestType : Code BoolTestType :=
  code_enum (A := BoolTestType) (fun x => match x with IS_TRUE => 0 | IS_NOT_TRUE => 1 | IS_FALSE => 2 | IS_NOT_FALSE => 3
                      | IS_UNKNOWN => 4 | IS_NOT_UNKNOWN => 5 end)
    (fun z => if z =? 0 then IS_TRUE else if z =? 1 then IS_NOT_TRUE else if z =? 2 then IS_FALSE
              else if z =? 3 then IS_NOT_FALSE else if z =? 4 then IS_UNKNOWN else IS_NOT_UNKNOWN)
    (fun x => ltac:(by destruct x)).

#[local] Instance code_Datum : Code Datum :=
  code_iso (A := Datum) (B := Z * Z * Z * cstr)
    (fun d => match d with
              | DByVal z => (0, z, 0, [])
              | DVarlena (VPlain sl) => (1, sl_nargs sl, sl_magic sl, sl_data sl)
              | DVarlena (VRaw bytes) => (2, 0, 0, bytes)
              | DNodePtr => (3, 0, 0, [])
              end)
    (fun '(t, a, b, s) => if t =? 0 then DByVal a
                          else if t =? 1 then DVarlena (VPlain (mkSerializedLambda a b s))
                          else if t =? 2 then DVarlena (VRaw s) else DNodePtr)
    (fun d => ltac:(by destruct d as [|[[]|]|])).
#[local] Instance code_Bitmapset : Code Bitmapset :=
  code_iso (A := Bitmapset) (B := bool * list Z) (fun b => match b with None => (false, []) | Some l => (true, l) end)
    (fun '(t, l) => if t : bool then Some l else None) (fun b => ltac:(by destruct b)).
#[local] Instance code_Var : Code Var :=
  code_iso (A := Var) (fun v => (varno v, varattno v, vartype v, vartypmod v)) (fun '(a, b, c, d) => mkVar a b c d)
    (fun x => ltac:(by destruct x)).
#[local] Instance code_Const : Code Const :=
  code_iso (A := Const) (fun c => (consttype c, consttypmod c, constcollid c, constlen c, constvalue c, constisnull c, constbyval c))
    (fun '(a, b, c, d, e, f, g) => mkConst a b c d e f g) (fun x => ltac:(by destruct x)).
#[local] Instance code_Param : Code Param :=
  code_iso (A := Param) (fun p => (paramkind p, paramid p, paramtype p, paramtypmod p, paramcollid p, param_lambda p))
    (fun '(a, b, c, d, e, f) => mkParam a b c d e f) (fun x => ltac:(by destruct x)).
#[local] Instance code_FuncHdr : Code FuncHdr :=
  code_iso (A := FuncHdr) (fun f => (funcid f, funcresulttype f, func_inputcollid f)) (fun '(a, b, c) => mkFuncHdr a b c)
    (fun x => ltac:(by destruct x)).
#[local] Instance code_OpHdr : Code OpHdr :=
  code_iso (A := OpHdr) (fun o => (opno o, opfuncid o, opresulttype o, op_inputcollid o)) (fun '(a, b, c, d) => mkOpHdr a b c d)
    (fun x => ltac:(by destruct x)).
#[local] Instance code_LfaHdr : Code LfaHdr :=
  code_iso (A := LfaHdr) (fun h => (lfa_name h, lfa_rettype h, lfa_param_id h, lfa_fieldSelect_id h, lfa_uniqueness h))
    (fun '(a, b, c, d, e) => mkLfaHdr a b c d e) (fun x => ltac:(by destruct x)).
#[local] Instance code_CallHdr : Code CallHdr :=
  code_iso (A := CallHdr) (fun h => (heldargs h, cle_rettype h, cle_rettypmod h, cle_retcollid h, cle_lambdatypmod h))
    (fun '(a, b, c, d, e) => mkCallHdr a b c d e) (fun x => ltac:(by destruct x)).

(** ** Nodes as trees *)

Abbreviation tree := (gen_tree (list Z)).

Definition leaf {A} `{Code A} (a : A) : tree := GenLeaf (enc a).

Definition unleaf {A} `{Code A} (t : tree) : option A :=
  match t with
  | GenLeaf l => match dec l with Some (a, _) => Some a | None => None end
  | GenNode _ _ => None
  end.

Lemma unleaf_leaf {A} `{Code A} (a : A) : unleaf (leaf a) = Some a.
Proof. unfold unleaf, leaf. rewrite <- (app_nil_r (enc a)). by rewrite dec_enc. Qed.

Section Traverse.
Context {A B} (f : A → option B).
Fixpoint traverse (l : list A) : option (list B) :=
  match l with
  | [] => Some []
  | a :: l => match f a, traverse l with Some b, Some l => Some (b :: l) | _, _ => None end
  end.
End Traverse.

Lemma traverse_map {A B} (f : A → option B) (g : B → A) l :
  Forall (fun b => f (g b) = Some b) l → traverse f (map g l) = Some l.
Proof. induction 1 as [|b l Hb _ IH]; simpl; [done|]. by rewrite Hb, IH. Qed.

Fixpoint pairs {A} (l : list A) : list (A * A) :=
  match l with a :: b :: l => (a, b) :: pairs l | _ => [] end.

Fixpoint enc_lip (p : LambdaInputParam) : tree :=
  GenNode 0 (leaf (lip_name p, lip_type p, lip_isAtomic p, lip_idx p) :: map enc_lip (lip_input_types p)).

Fixpoint dec_lip (t : tree) : option LambdaInputParam :=
  match t with
  | GenNode _ (h :: l) =>
      match unleaf h, traverse dec_lip l with
      | Some (name, ty, atomic, idx), Some l => Some (mkLambdaInputParam name ty atomic l idx)
      | _, _ => None
      end
  | _ => None
  end.

Lemma dec_enc_lip : ∀ p, dec_lip (enc_lip p) = Some p.
Proof.
  fix IH 1. intros [name ty atomic l idx].
  cbn [enc_lip dec_lip lip_name lip_type lip_isAtomic lip_input_types lip_idx].
  rewrite unleaf_leaf, traverse_map; [done|].
  induction l as [|p l IHl]; constructor; [apply IH|apply IHl].
Qed.

Definition enc_rows (rows : list (list LambdaInputParam)) : tree :=
  GenNode 0 (map (fun row => GenNode 0 (map enc_lip row)) rows).

Definition dec_rows (t : tree) : option (list (list LambdaInputParam)) :=
  match t with
  | GenNode _ rows =>
      traverse (fun t => match t with GenNode _ row => traverse dec_lip row | GenLeaf _ => None end) rows
  | GenLeaf _ => None
  end.

Lemma dec_enc_rows rows : dec_rows (enc_rows rows) = Some rows.
Proof.
  unfold dec_rows, enc_rows. apply (traverse_map _ (fun row => GenNode 0 (map enc_lip row))).
  apply Forall_true. intros row. apply traverse_map, Forall_true, dec_enc_lip.
Qed.

Definition hdr_fields (h : LambdaHdr) :=
  (lambdakind h, argnames h, rettype h, rettypmod h, lambdatypmod h, is_strict h, l3_safe h).

Fixpoint enc_node (e : Node) : tree :=
  match e with
  | NVar v => GenNode 0 [leaf v]
  | NConst c => GenNode 1 [leaf c]
  | NParam p => GenNode 2 [leaf p]
  | NHolePlaceholder => GenNode 3 []
  | NFuncExpr f args => GenNode 4 (leaf f :: map enc_node args)
  | NOpExpr o args => GenNode 5 (leaf o :: map enc_node args)
  | NDistinctExpr o args => GenNode 6 (leaf o :: map enc_node args)
  | NNullIfExpr o args => GenNode 7 (leaf o :: map enc_node args)
  | NBoolExpr op args => GenNode 8 (leaf op :: map enc_node args)
  | NFieldSelect k t arg => GenNode 9 [leaf (k, t); enc_node arg]
  | NRelabelType t arg => GenNode 10 [leaf t; enc_node arg]
  | NCaseExpr t whens def =>
      GenNode 11 (leaf t :: GenNode 0 (match def with Some d => [enc_node d] | None => [] end)
                  :: flat_map (fun w => [enc_node (fst w); enc_node (snd w)]) whens)
  | NArrayExpr t args => GenNode 12 (leaf t :: map enc_node args)
  | NCoalesceExpr t args => GenNode 13 (leaf t :: map enc_node args)
  | NMinMaxExpr t coll op args => GenNode 14 (leaf (t, coll, op) :: map enc_node args)
  | NNullTest k arg => GenNode 15 [leaf k; enc_node arg]
  | NBooleanTest k arg => GenNode 16 [leaf k; enc_node arg]
  | NLambdaExpr h e =>
      GenNode 17 (leaf (hdr_fields h) :: enc_rows (argtypes h)
                  :: match e with Some b => [enc_node b] | None => [] end)
  | NLambdaFuncAliasExpr h args => GenNode 18 (leaf h :: map enc_node args)
  | NCallLambdaExpr h l args => GenNode 19 (leaf h :: enc_node l :: map enc_node args)
  end.

(** a header and a list of nodes *)
Definition with_list {A} `{Code A} (h : tree) (l : option (list Node)) (k : A → list Node → Node) : option Node :=
  match unleaf h, l with Some a, Some l => Some (k a l) | _, _ => None end.

Definition with_one {A} `{Code A} (h : tree) (n : option Node) (k : A → Node → Node) : option Node :=
  match unleaf h, n with Some a, Some n => Some (k a n) | _, _ => None end.

Fixpoint dec_node (t : tree) : option Node :=
  match t with
  | GenNode 0 [h] => match unleaf h with Some v => Some (NVar v) | None => None end
  | GenNode 1 [h] => match unleaf h with Some v => Some (NConst v) | None => None end
  | GenNode 2 [h] => match unleaf h with Some v => Some (NParam v) | None => None end
  | GenNode 3 [] => Some NHolePlaceholder
  | GenNode 4 (h :: l) => with_list h (traverse dec_node l) NFuncExpr
  | GenNode 5 (h :: l) => with_list h (traverse dec_node l) NOpExpr
  | GenNode 6 (h :: l) => with_list h (traverse dec_node l) NDistinctExpr
  | GenNode 7 (h :: l) => with_list h (traverse dec_node l) NNullIfExpr
  | GenNode 8 (h :: l) => with_list h (traverse dec_node l) NBoolExpr
  | GenNode 9 [h; n] => with_one h (dec_node n) (fun '(k, t) => NFieldSelect k t)
  | GenNode 10 [h; n] => with_one h (dec_node n) NRelabelType
  | GenNode 11 (h :: GenNode _ d :: l) =>
      match traverse dec_node d with
      | Some d => with_list h (traverse dec_node l) (fun t l => NCaseExpr t (pairs l) (head d))
      | None => None
      end
  | GenNode 12 (h :: l) => with_list h (traverse dec_node l) NArrayExpr
  | GenNode 13 (h :: l) => with_list h (traverse dec_node l) NCoalesceExpr
  | GenNode 14 (h :: l) => with_list h (traverse dec_node l) (fun '(t, coll, op) => NMinMaxExpr t coll op)
  | GenNode 15 [h; n] => with_one h (dec_node n) NNullTest
  | GenNode 16 [h; n] => with_one h (dec_node n) NBooleanTest
  | GenNode 17 (h :: rows :: l) =>
      match dec_rows rows with
      | Some rows =>
          with_list h (traverse dec_node l)
            (fun '(kind, names, rt, rtm, ltm, strict, l3) l =>
               NLambdaExpr (mkLambdaHdr kind names rows rt rtm ltm strict l3) (head l))
      | None => None
      end
  | GenNode 18 (h :: l) => with_list h (traverse dec_node l) NLambdaFuncAliasExpr
  | GenNode 19 (h :: n :: l) =>
      match dec_node n with
      | Some n => with_list h (traverse dec_node l) (fun h => NCallLambdaExpr h n)
      | None => None
      end
  | _ => None
  end.

Lemma with_list_enc {A} `{Code A} (a : A) l k :
  Forall (fun e => dec_node (enc_node e) = Some e) l →
  with_list (leaf a) (traverse dec_node (map enc_node l)) k = Some (k a l).
Proof. intros HF. unfold with_list. by rewrite unleaf_leaf, traverse_map. Qed.

Lemma with_one_enc {A} `{Code A} (a : A) n k :
  Forall (fun e => dec_node (enc_node e) = Some e) [n] →
  with_one (leaf a) (dec_node (enc_node n)) k = Some (k a n).
Proof. intros HF. rewrite Forall_singleton in HF. unfold with_one. by rewrite unleaf_leaf, HF. Qed.

Lemma enc_opt (o : option Node) :
  match o with Some d => [enc_node d] | None => [] end = map enc_node (opt_list o).
Proof. by destruct o. Qed.

Lemma enc_whens whens :
  flat_map (fun w => [enc_node (fst w); enc_node (snd w)]) whens = map enc_node (when_nodes whens).
Proof. induction whens as [|[a b] l IH]; simpl; [done|]. by rewrite IH. Qed.

Lemma pairs_when_nodes whens : pairs (when_nodes whens) = whens.
Proof. induction whens as [|[a b] l IH]; simpl; [done|]. by rewrite IH. Qed.

Lemma head_opt_list {A} (o : option A) : head (opt_list o) = o.
Proof. by destruct o. Qed.

Lemma dec_enc_node e : dec_node (enc_node e) = Some e.
Proof.
  induction e as [e IH] using node_ind'.
  destruct e; cbn [enc_node dec_node children] in *;
    rewrite ?unleaf_leaf; try done; try (by rewrite with_list_enc); try (by rewrite with_one_enc).
  - apply Forall_app in IH as [IH1 IH2]. rewrite enc_opt, enc_whens, (traverse_map dec_node enc_node) by done.
    by rewrite with_list_enc, pairs_when_nodes, head_opt_list.
  - rewrite dec_enc_rows, enc_opt, with_list_enc by done. unfold hdr_fields. cbv beta iota. rewrite head_opt_list. by destruct h.
  - inversion IH as [|? ? Hl Hargs]; subst. by rewrite Hl, with_list_enc.
Qed.

(** ** Trees as text *)

(** every bit of the code is preceded by a mark; anything else ends it *)
Fixpoint bits_text (p : positive) : cstr :=
  match p with
  | xH => [ch 46]
  | xO p => ch 43 :: ch 48 :: bits_text p
  | xI p => ch 43 :: ch 49 :: bits_text p
  end.

Fixpoint text_bits (s : cstr) : option positive :=
  match s with
  | m :: s' =>
      if code m =? 46 then Some xH
      else match s' with
           | b :: s'' =>
               match text_bits s'' with
               | Some p => Some (if code b =? 48 then xO p else xI p)
               | None => None
               end
           | [] => None
           end
  | [] => None
  end.

Lemma text_bits_text p rest : text_bits (bits_text p ++ rest) = Some p.
Proof. induction p as [p IH|p IH|]; simpl; rewrite ?IH; done. Qed.

Definition text_of_node (e : Node) : cstr := bits_text (encode (enc_node e)).

Definition node_of_text (s : cstr) : outcome (option Node) :=
  match text_bits s with
  | Some p =>
      match decode p with
      | Some t => match dec_node t with Some e => Ok (Some e) | None => elog (lit "badly formatted node string") end
      | None => elog (lit "badly formatted node string")
      end
  | None => Ok None
  end.

Definition text_io : NodeIO :=
  {| nodeToString := text_of_node; stringToNode := node_of_text; detoast_attr _ := UB |}.

Lemma text_io_laws : @NodeIOLaws text_io.
Proof.
  intros le rest. unfold nodeToString, stringToNode, text_io, text_of_node, node_of_text.
  by rewrite text_bits_text, decode_encode, dec_enc_node.
Qed.
