(* ===== verification/Demo.v ===== *)
(** * A concrete instance

    One instance of everything the theorems are parametric in: the text format
    of [NodeText.v], a two-operator function table on integers, and a constant
    folder that folds nothing.  The higher-order lambda
    [λ(f, x). f(f(x))] and its argument [λ(y). y + 3] serve as the running
    example. *)

From S2P Require Import Prelude Bitmapset Nodes NodesFacts Serialize Inject InjectFacts Typing Eval EvalFacts.
From S2P Require Import Semantics HoistFacts NodeText.

#[export] Instance demo_nodeio : NodeIO := text_io.
#[export] Instance demo_laws : NodeIOLaws := text_io_laws.
#[export] Instance demo_types : TypeCache := fun _ => Ok (8, true).

Definition F_PLUS : Oid := 218.
Definition F_DIV : Oid := 219.

Definition demo_call (fid coll : Oid) (vs : list (option Datum)) : outcome (option Datum) :=
  match vs with
  | [Some (DByVal a); Some (DByVal b)] =>
      if fid =? F_PLUS then Ok (Some (DByVal (a + b)))
      else if fid =? F_DIV then
        if b =? 0 then ereport ERRCODE_DIVISION_BY_ZERO (lit "division by zero") else Ok (Some (DByVal (a / b)))
      else elog (lit "cache lookup failed for function")
  | _ => elog (lit "invalid argument")
  end.

#[export] Instance demo_exec : ExecParams :=
  {| fn_strict _ := true; fn_call := demo_call;
     cmp_proc _ _ a b := match a, b with
                         | DByVal a, DByVal b => Ok (Some (a - b))
                         | _, _ => elog (lit "invalid argument")
                         end;
     field_select _ _ v := Ok v; make_array _ _ := elog (lit "no arrays");
     var_value _ := elog (lit "no tuple"); param_extern _ := elog (lit "no parameters");
     eval_const_expressions := Ok |}.

Definition demo_names (names : list string) : LambdaHdr :=
  {| lambdakind := LAMBDA_SCALAR_CONTEXT; argnames := lit <$> names; argtypes := []; rettype := 701;
     rettypmod := -1; lambdatypmod := 0; is_strict := false; l3_safe := true |}.

Definition demo_int (z : Z) : Node := NConst (mkConst 701 (-1) 0 8 (DByVal z) false true).
Definition demo_plus (a b : Node) : Node := NOpExpr (mkOpHdr 591 F_PLUS 701 0) [a; b].
Definition demo_apply (k : Z) (args : list Node) : Node :=
  NLambdaFuncAliasExpr (mkLfaHdr [lit "f"] 701 0 k 0) args.

(** [λ(f, x). f(f(x))] *)
Definition twice : LambdaExpr :=
  mkLambdaExpr (demo_names ["f"%string; "x"%string])
    (Some (demo_apply 0 [demo_apply 0 [NParam (demo_param 1 701)]])).

Definition twice_types : list sty := [TFun [TAtom]; TAtom].

(** [λ(y). y + 3] *)
Definition add3 : LambdaExpr :=
  mkLambdaExpr (demo_names ["y"%string]) (Some (demo_plus (NParam (demo_param 0 701)) (demo_int 3))).

Definition demo_args : list (option Datum) := [Some (lambda_datum add3); Some (DByVal 4)].

Definition demo_nodes : list Node := [LambdaNode add3; demo_int 4].

Lemma twice_typed : typed_lambda twice twice_types.
Proof. split; [done|]. eexists. split; [done|]. vm_compute. by split_and!. Qed.

Lemma add3_typed : typed_lambda add3 [TAtom].
Proof. split; [done|]. eexists. split; [done|]. vm_compute. by split_and!. Qed.

Lemma demo_args_ok : vals_ok twice_types demo_args.
Proof.
  constructor; [|by constructor]. exists add3. split; [exact add3_typed|]. split; apply val_lambda_datum.
Qed.
