(* ===== verification/HoistTheorems.v ===== *)
(** * Hoisting is sound

    A call of a higher-order lambda is flattened into one first-order body
    before it runs.  For well-typed lambdas the flattening always ends, leaves
    no call of a function input behind, and the flattened body has the value
    of the reference semantics. *)

From S2P Require Import Prelude Bitmapset Nodes NodesFacts Serialize Inject InjectFacts Typing Eval EvalFacts.
From S2P Require Import Semantics HoistFacts NodeText Demo.

(** what the executor relies on from the constant folder: it returns a tree or
    raises an error; the tree has the type of the original, and its values *)
Class FoldLaws `{NodeIO} `{TypeCache} `{ExecParams} : Prop := {
  fold_outcome e : (∃ e', eval_const_expressions e = Ok e') ∨ ∃ err, eval_const_expressions e = Err err;
  fold_check Γ e e' : check Γ e TAtom → eval_const_expressions e = Ok e' → check Γ e' TAtom;
  fold_value e e' frame fuel v :
    reference_eval fuel frame e = Ok v → eval_const_expressions e = Ok e' →
    ∃ fuel', reference_eval fuel' frame e' = Ok v
}.

(** an argument expression that can be passed at type [t]: lambda-typed if
    [t] is a function type *)
Definition call_arg (a : Node) (t : sty) : Prop :=
  ∃ o, exprType a = Ok o ∧ (is_fun t = true → o = LAMBDAOID).

Lemma cache_key_args args ts i0 :
  Forall2 call_arg args ts →
  ∃ key, cache_key_idx i0 args = Ok key
  ∧ ∀ i t, ts !! i = Some t → is_fun t = true → existsb (Z.eqb (i0 + Z.of_nat i)) key = true.
Proof.
  intros HF; revert i0; induction HF as [|a t args ts (o & Ho & Hfun) _ IH]; intros i0; simpl; [by exists []|].
  destruct (IH (i0 + 1)) as (key & Hkey & Hin). rewrite Hkey. cbn [mbind outcome_bind].
  exists (if o =? LAMBDAOID then i0 :: key else key). split.
  { destruct a; try done; rewrite Ho; done. }
  intros [|i] t' Hi Ht'.
  - injection Hi as ->. rewrite (Hfun Ht'). simpl. by rewrite Z.add_0_r, Z.eqb_refl.
  - specialize (Hin i t' Hi Ht'). replace (i0 + Z.of_nat (S i)) with (i0 + 1 + Z.of_nat i) by lia.
    destruct (o =? LAMBDAOID); simpl; [|done]. rewrite Hin. apply orb_true_r.
Qed.

Lemma true_indices_elem i0 fs x :
  x ∈ true_indices i0 fs → ∃ i, x = i0 + Z.of_nat i ∧ fs !! i = Some true.
Proof.
  revert i0; induction fs as [|f fs IH]; intros i0 Hx; simpl in Hx; [set_solver|].
  assert (x ∈ true_indices (i0 + 1) fs → ∃ i, x = i0 + Z.of_nat i ∧ (f :: fs) !! i = Some true) as Hrest.
  { intros (i & -> & Hi)%IH. exists (S i). split; [lia|done]. }
  destruct f; [|auto]. apply elem_of_cons in Hx as [->|Hx]; [|auto]. exists O. split; [lia|done].
Qed.

Lemma check_embedded_ok l key : (∀ x, x ∈ l → existsb (Z.eqb x) key = true) → check_embedded l key = Ok tt.
Proof.
  induction l as [|x l IH]; intros Hl; simpl; [done|]. rewrite Hl by set_solver. apply IH. set_solver.
Qed.

(** every function input the injector embeds is part of the key *)
Lemma embedded_in_key m b ts key :
  le_expr m = Some b → check ts b TAtom →
  (∀ i t, ts !! i = Some t → is_fun t = true → existsb (Z.eqb (0 + Z.of_nat i)) key = true) →
  check_embedded (lambda_scalar_func_inputs (Some m) (Z.of_nat (length ts))) key = Ok tt.
Proof.
  intros Hb Hc Hkey. apply check_embedded_ok. intros x. unfold lambda_scalar_func_inputs. rewrite Hb.
  destruct (_ <=? 0); [set_solver|]. intros (i & -> & Hi)%true_indices_elem.
  destruct (prescan_typed m b ts None Hb Hc) as [Hl Hfs].
  destruct (lookup_lt_is_Some_2 ts i) as [t Ht]; [rewrite <- Hl; by eapply lookup_lt_Some|].
  apply (Hfs i t Ht) in Hi as [Hf _]. by apply (Hkey i t).
Qed.

Section Hoist.
Context `{NIO : NodeIO} `{!NodeIOLaws} `{TC : TypeCache} `{EP : ExecParams} `{!FoldLaws}.

(** the body the cache builds with hoisting on, for typed arguments *)
Lemma hoisted_body le b ts vs args d :
  typed_lambda le ts → datum_lambda d = Ok (Some le) → le_expr le = Some b → vals_ok ts vs → Forall2 call_arg args ts →
  ∃ key fuel0, ExecInitCallLambdaCacheKey args = Ok key ∧
    ((∃ tree, check (atoms ts) tree TAtom
       ∧ (∀ f v, reference_eval f (lambda_params vs) b = Ok v → ∃ f', reference_eval f' (lambda_params vs) tree = Ok v)
       ∧ ∀ fuel, (fuel0 ≤ fuel)%nat → lambda_body true fuel key d vs = Ok tree)
     ∨ ∃ e err, eval_const_expressions e = Err err
       ∧ ∀ fuel, (fuel0 ≤ fuel)%nat → lambda_body true fuel key d vs = Err err).
Proof.
  intros [Hl (b' & Hb' & Hc)] Hd Hb Hv Hargs. rewrite Hb in Hb'; injection Hb' as <-.
  assert (length vs = length ts) as Hlen by (symmetry; by eapply Forall2_length).
  destruct (cache_key_args args ts 0 Hargs) as (key & Hkey & Hin). exists key.
  pose proof (embedded_in_key le b ts key Hb Hc Hin) as Hemb. unfold lambda_body. rewrite Hd.
  cbn [mbind outcome_bind]. rewrite Hb, Hl, Hlen, Z.gtb_ltb, Z.ltb_irrefl. cbn [andb].
  destruct (lambda_body_has_lfa (Some le)) eqn:Hlfa.
  2:{ exists O. split; [done|]. left. exists b. pose proof (has_lfa_no le b Hb Hlfa ts Hc) as Hca. split_and!; [done|eauto|].
      intros. cbn [mbind outcome_bind]. by rewrite (atoms_init_check ts). }
  destruct (injector_scalar_typed le b ts vs Hb Hc Hv) as (fuel & e' & Hce & Hinj & Hsound).
  exists fuel. split; [done|]. rewrite Hlen in Hinj. destruct (fold_outcome e') as [[tree Ht]|[err Herr]]; [left|right].
  - pose proof (fold_check _ _ _ Hce Ht) as Hct. exists tree. split_and!; [done| |].
    { intros f v Hev. destruct (Hsound f v Hev) as [f1 Hf1]. by eapply fold_value. }
    intros fuel' Hf'. rewrite Hemb. cbn [mbind outcome_bind].
    rewrite (Hinj _ Hf'). cbn [mbind outcome_bind le_expr deref]. rewrite Ht. cbn [mbind outcome_bind].
    by rewrite (atoms_init_check ts).
  - exists e', err. split; [done|]. intros fuel' Hf'. rewrite Hemb. cbn [mbind outcome_bind].
    rewrite (Hinj _ Hf'). cbn [mbind outcome_bind le_expr deref]. by rewrite Herr.
Qed.

(** the call runs that body *)
Lemma hoisted_call le ts vs args d f v :
  typed_lambda le ts → datum_lambda d = Ok (Some le) → vals_ok ts vs → Forall2 call_arg args ts →
  ExecEvalCallLambdaExpr (reference_eval f) false f None args (Some d) vs = Ok v →
  ∃ fuel0, ∀ fuel, (fuel0 ≤ fuel)%nat →
    ExecEvalCallLambdaExpr (ExecEvalExpr true fuel) true fuel None args (Some d) vs = Ok v
    ∨ ∃ e err, eval_const_expressions e = Err err
      ∧ ExecEvalCallLambdaExpr (ExecEvalExpr true fuel) true fuel None args (Some d) vs = Err err.
Proof.
  intros Hle Hd Hv Hargs Hr. destruct Hle as [Hl (b & Hb & Hc)].
  rewrite (call_typed _ _ _ _ _ le ts b) in Hr; [|by exists d|split; eauto|symmetry; by eapply Forall2_length|done].
  apply bind_Ok_inv in Hr as (k & _ & (u & _ & Hr)%bind_Ok_inv).
  destruct (hoisted_body le b ts vs args d) as (key & fuel0 & Hkey & Hbody); [split; eauto|done..|].
  unfold ExecEvalCallLambdaExpr. destruct Hbody as [(tree & Hct & Hsound & Ht)|(e & err & He & Herr)].
  - destruct (Hsound f v Hr) as [f' Hf']. exists (max fuel0 f'). intros fuel Hf. left. rewrite Hkey. cbn [mbind outcome_bind].
    rewrite Ht by lia. cbn [mbind outcome_bind]. eapply eval_mono; [|by eapply atoms_eval]. lia.
  - exists fuel0. intros fuel Hf. right. exists e, err. split; [done|]. rewrite Hkey. cbn [mbind outcome_bind].
    by rewrite Herr.
Qed.
End Hoist.

(** ** Bodies without embedded lambdas *)

Fixpoint embedded_walker (node : Node) (s : unit) {struct node} : bool * unit :=
  match node with
  | NLambdaExpr _ _ => (true, s)
  | _ => expression_tree_walker embedded_walker node s
  end.

(** some node of [e] is a [LambdaExpr] *)
Definition embeds_lambda (e : Node) : bool := fst (embedded_walker e tt).

Lemma embeds_children e c : embeds_lambda e = false → c ∈ children e → embeds_lambda c = false.
Proof.
  destruct (decide (nodeTag e = T_LambdaExpr)) as [Ht|Ht]; [by destruct e|].
  assert (embeds_lambda e = existsb embeds_lambda (children e)) as ->.
  { transitivity (fst (expression_tree_walker embedded_walker e tt)); [by destruct e|].
    rewrite walker_children, (list_walk_existsb embeds_lambda); [done|]. apply Forall_true. intros n.
    unfold embeds_lambda. by destruct (embedded_walker n tt) as [? []]. }
  intros Hex Hc. destruct (embeds_lambda c) eqn:He; [|done].
  rewrite (proj2 (existsb_exists embeds_lambda (children e))) in Hex; [done|].
  exists c. split; [by apply list_elem_of_In|done].
Qed.

(** a folder that folds nothing satisfies the laws *)
Lemma demo_fold : FoldLaws.
Proof.
  split.
  - intros e. left. by exists e.
  - by intros Γ e e' Hc [= <-].
  - intros e e' frame fuel v Hv [= <-]. by exists fuel.
Qed.

(** C21. Injecting the function-valued arguments of a call into a well-typed
    lambda always ends: with enough fuel the injector returns a lambda with
    the mother's header, no call of a function input is left in its body, and
    the body is well typed with every input atomic. *)
Theorem injection_total `{NodeIO} `{!NodeIOLaws} `{TypeCache} `{ExecParams} m ts vs :
  typed_lambda m ts → vals_ok ts vs →
  ∃ fuel inj, le_hdr inj = le_hdr m ∧ typed_lambda inj (atoms ts) ∧ lambda_body_has_lfa (Some inj) = false
  ∧ ∀ fuel', (fuel ≤ fuel')%nat →
    lambda_injector_scalar fuel' (Some m) (datum_or_zero <$> vs) (is_null <$> vs) (Z.of_nat (length vs)) = Ok inj.
Proof.
  intros [Hl (b & Hb & Hc)] Hv. destruct (injector_scalar_typed m b ts vs Hb Hc Hv) as (fuel & e' & Hce & Hinj & _).
  exists fuel, (mkLambdaExpr (le_hdr m) (Some e')). split_and!; [done| |by eapply atoms_no_lfa|done].
  split; [by rewrite atoms_length|]. by exists e'.
Qed.

Lemma injection_total_witness :
  ∃ fuel inj, le_hdr inj = le_hdr twice ∧ typed_lambda inj (atoms twice_types)
  ∧ lambda_body_has_lfa (Some inj) = false
  ∧ ∀ fuel', (fuel ≤ fuel')%nat →
    lambda_injector_scalar fuel' (Some twice) (datum_or_zero <$> demo_args) (is_null <$> demo_args)
      (Z.of_nat (length demo_args)) = Ok inj.
Proof. exact (injection_total twice twice_types demo_args twice_typed demo_args_ok). Defined.

(** C1. Hoisting preserves results: if calling a well-typed lambda on typed
    arguments returns a value in the reference semantics (which calls function
    inputs instead of inlining them), then with enough fuel the executor that
    flattens the lambda first returns the same value, unless constant folding
    of the flattened body raises an error, which the call then reports. *)
Theorem hoisted_call_sound `{NodeIO} `{!NodeIOLaws} `{TypeCache} `{ExecParams} `{!FoldLaws} le ts vs args d f v :
  typed_lambda le ts → datum_lambda d = Ok (Some le) → vals_ok ts vs → Forall2 call_arg args ts →
  ExecEvalCallLambdaExpr (reference_eval f) false f None args (Some d) vs = Ok v →
  ∃ fuel0, ∀ fuel, (fuel0 ≤ fuel)%nat →
    ExecEvalCallLambdaExpr (ExecEvalExpr true fuel) true fuel None args (Some d) vs = Ok v
    ∨ ∃ e err, eval_const_expressions e = Err err
      ∧ ExecEvalCallLambdaExpr (ExecEvalExpr true fuel) true fuel None args (Some d) vs = Err err.
Proof. apply hoisted_call. Qed.

Lemma hoisted_call_sound_witness :
  ∃ fuel0, ∀ fuel, (fuel0 ≤ fuel)%nat →
    ExecEvalCallLambdaExpr (ExecEvalExpr true fuel) true fuel None demo_nodes
      (Some (lambda_datum twice)) demo_args = Ok (Some (DByVal 10))
    ∨ ∃ e err, eval_const_expressions e = Err err
      ∧ ExecEvalCallLambdaExpr (ExecEvalExpr true fuel) true fuel None demo_nodes
          (Some (lambda_datum twice)) demo_args = Err err.
Proof.
  refine (@hoisted_call_sound demo_nodeio demo_laws demo_types demo_exec demo_fold twice twice_types demo_args
            demo_nodes (lambda_datum twice) 10 (Some (DByVal 10)) twice_typed _ demo_args_ok _ _).
  - apply datum_lambda_datum, text_io_laws.
  - repeat constructor; by eexists.
  - vm_compute. reflexivity.
Defined.
