(* ===== verification/Safety.v ===== *)
(** * Types of expressions

    [Typing.v] only tells functions from other values.  Here a type is an OID of
    [pg_type] or the type of a lambda, with the types of its arguments and of its
    result: what a signature says.  What the catalogs say about built-in types
    and functions is a parameter.  An expression of this type discipline is well
    typed in the sense of [Typing.v], and inlining the lambdas that a lambda is
    called with keeps the types. *)

From S2P Require Import Prelude Bitmapset Nodes NodesFacts Serialize Inject InjectFacts Typing Eval EvalFacts.
From S2P Require Import Semantics HoistFacts.

#[local] Unset Elimination Schemes.
Inductive rty := RAtom (t : Oid) | RFun (args : list rty) (ret : Oid).
#[local] Set Elimination Schemes.

Fixpoint erase (t : rty) : sty := match t with RAtom _ => TAtom | RFun ts _ => TFun (map erase ts) end.

(** the type of the expression that refers to an input *)
Definition rty_oid (t : rty) : Oid := match t with RAtom t => t | RFun _ _ => LAMBDAOID end.

Class Catalog := {
  (** the values of a type *)
  has_type : Oid → Datum → Prop;
  (** a function can be called with arguments of these types and then returns
      this type *)
  proc_type : Oid → list Oid → Oid → Prop;
  (** field [k] of a row type, the elements of an array type *)
  field_type : Oid → Z → Oid → Prop;
  array_elem : Oid → Oid → Prop;
  (** values of the first type are values of the second *)
  binary_coercible : Oid → Oid → Prop
}.

Section Types.
Context `{Catalog}.

(** [node_type e ts r]: with sub-expressions of the types [ts], [e] has the type
    [r] *)
Definition node_type (e : Node) (ts : list Oid) (r : Oid) : Prop :=
  match e with
  | NVar v => r = vartype v
  | NConst c => r = consttype c ∧ (constisnull c = false → has_type r (constvalue c))
  | NFuncExpr f _ => r = funcresulttype f ∧ proc_type (funcid f) ts r
  | NOpExpr o _ => r = opresulttype o ∧ proc_type (opfuncid o) ts r
  | NDistinctExpr o _ => r = BOOLOID ∧ opresulttype o = BOOLOID ∧ proc_type (opfuncid o) ts BOOLOID
  | NNullIfExpr o _ => r = opresulttype o ∧ head ts = Some r ∧ proc_type (opfuncid o) ts BOOLOID
  | NBoolExpr _ _ => r = BOOLOID ∧ Forall (eq BOOLOID) ts
  | NFieldSelect k t _ => r = t ∧ ∃ row, ts = [row] ∧ field_type row k t
  | NRelabelType t _ => r = t ∧ ∃ s, ts = [s] ∧ binary_coercible s t
  | NCaseExpr t whens _ => r = t ∧ ts = mjoin (repeat [BOOLOID; t] (length whens)) ++ [t]
  | NArrayExpr t _ => r = t ∧ ∃ el, array_elem t el ∧ Forall (eq el) ts
  | NCoalesceExpr t _ | NMinMaxExpr t _ _ _ => r = t ∧ Forall (eq t) ts
  | NNullTest _ _ => r = BOOLOID
  | NBooleanTest _ _ => r = BOOLOID ∧ ts = [BOOLOID]
  | _ => False
  end.

(** [has_ty Γ e t]: in a body with inputs of the types [Γ], [e] has the type [t] *)
Inductive has_ty : list rty → Node → rty → Prop :=
| ty_plain Γ e ts r :
    plain e = true → node_shape e = true → node_type e ts r → r ≠ InvalidOid → Forall2 (fun c t => has_ty Γ c (RAtom t)) (children e) ts →
    has_ty Γ e (RAtom r)
| ty_param Γ p t :
    is_input_param p (Z.of_nat (length Γ)) = true → Γ !! Z.to_nat (paramid p) = Some t →
    paramtype p = rty_oid t → (paramtype p =? LAMBDAOID) = is_fun (erase t) → has_ty Γ (NParam p) t
| ty_lambda Γ h b ts r : length (argnames h) = length ts → has_ty ts b (RAtom r) → has_ty Γ (NLambdaExpr h (Some b)) (RFun ts r)
| ty_call Γ h args ts r :
    0 ≤ lfa_fieldSelect_id h → Γ !! Z.to_nat (lfa_fieldSelect_id h) = Some (RFun ts r) → lfa_rettype h = r →
    Forall2 (has_ty Γ) args ts → has_ty Γ (NLambdaFuncAliasExpr h args) (RAtom r).

Lemma has_ty_plain Γ e t :
  plain e = true → has_ty Γ e t →
  ∃ ts r, t = RAtom r ∧ node_shape e = true ∧ node_type e ts r ∧ r ≠ InvalidOid ∧ Forall2 (fun c t => has_ty Γ c (RAtom t)) (children e) ts.
Proof. intros Hp He. inversion He; subst; try done. by eexists _, _. Qed.

Lemma has_ty_param Γ p t :
  has_ty Γ (NParam p) t → is_input_param p (Z.of_nat (length Γ)) = true ∧ Γ !! Z.to_nat (paramid p) = Some t
  ∧ paramtype p = rty_oid t ∧ (paramtype p =? LAMBDAOID) = is_fun (erase t).
Proof. by inversion 1. Qed.

Lemma has_ty_lambda Γ h e t :
  has_ty Γ (NLambdaExpr h e) t → ∃ b ts r, e = Some b ∧ t = RFun ts r ∧ length (argnames h) = length ts ∧ has_ty ts b (RAtom r).
Proof. inversion 1; subst; [done|]. by eexists _, _, _. Qed.

Lemma has_ty_lfa Γ h args t :
  has_ty Γ (NLambdaFuncAliasExpr h args) t →
  ∃ ts, t = RAtom (lfa_rettype h) ∧ 0 ≤ lfa_fieldSelect_id h
    ∧ Γ !! Z.to_nat (lfa_fieldSelect_id h) = Some (RFun ts (lfa_rettype h)) ∧ Forall2 (has_ty Γ) args ts.
Proof. inversion 1; subst; [done|]. by eexists. Qed.

Lemma Forall2_elem_l {A B} (P : A → B → Prop) l k x : Forall2 P l k → x ∈ l → ∃ y, y ∈ k ∧ P x y.
Proof.
  intros HF [i Hi]%list_elem_of_lookup. destruct (Forall2_lookup_l _ _ _ _ _ HF Hi) as (y & Hy & Hp). exists y. split; [|done].
  by eapply list_elem_of_lookup_2.
Qed.

Lemma Forall2_impl_in {A B} (P Q : A → B → Prop) l k : Forall2 P l k → (∀ x y, x ∈ l → P x y → Q x y) → Forall2 Q l k.
Proof. induction 1 as [|x y l k Hx _ IH]; intros HQ; constructor; [apply HQ; [set_solver|done]|apply IH; intros; apply HQ; [set_solver|done]]. Qed.

Lemma map_lookup {A B} (f : A → B) l i : map f l !! i = f <$> l !! i.
Proof. apply list_lookup_fmap. Qed.

Lemma erase_lookup Γ i t : Γ !! i = Some t → map erase Γ !! i = Some (erase t).
Proof. intros Hi. by rewrite map_lookup, Hi. Qed.

(** the coarser types *)
Lemma has_ty_check e : ∀ Γ t, has_ty Γ e t → check (map erase Γ) e (erase t).
Proof.
  induction e as [e IH] using node_ind'. intros Γ t He. rewrite Forall_forall in IH. destruct (plain e) eqn:Hp.
  { apply has_ty_plain in He as (ts & r & -> & Hsh & _ & _ & HF); [|done]. apply check_plain; [done|]. split_and!; [done..|].
    apply Forall_forall. intros c Hc. destruct (Forall2_elem_l _ _ _ _ HF Hc) as (t & _ & Ht). exact (IH c Hc Γ (RAtom t) Ht). }
  destruct e; try done; try (by inversion He).
  - apply has_ty_param in He as (Hin & Hi & _ & Hf). cbn [check]. rewrite length_map. split_and!; [done|by apply erase_lookup|done].
  - apply has_ty_lambda in He as (b & ts & r & -> & -> & Hl & Hb). cbn [check erase]. rewrite length_map. split; [done|].
    apply (IH b ltac:(set_solver) ts (RAtom r)). done.
  - apply has_ty_lfa in He as (ts & -> & Hk & Hi & HF). cbn [check erase]. split_and!; [done|done|]. rewrite map_lookup, Hi. simpl. apply all2_Forall2.
    apply Forall2_fmap_r. eapply Forall2_impl_in; [exact HF|]. intros a t Ha. by apply IH.
Qed.

(** the type that the parser sees *)
Lemma has_ty_exprType Γ e t : has_ty Γ e t → exprType e = Ok (rty_oid t).
Proof.
  intros He. inversion He; subst; simpl; try congruence. destruct e; try done; cbn [node_type exprType] in *; destruct_and?; simplify_eq; congruence.
Qed.

(** ** Inlining keeps types *)

Lemma mutator_node_type f n n' ts r : expression_tree_mutator f n = Ok n' → node_type n ts r → node_type n' ts r.
Proof.
  destruct n; cbn [expression_tree_mutator]; intros Hm; outcome_inv; try done. cbn [node_type].
  match goal with H : omapM _ _ = Ok _ |- _ => apply omapM_length in H; by rewrite H end.
Qed.

(** the bindings of inputs of the types [Γ], for a body with inputs of the types
    [Γo]; an unbound input stays in place *)
Definition binds_typed (Γ Γo : list rty) (ctx : ScalarBind) : Prop :=
  sb_nargs ctx = Z.of_nat (length Γ) ∧ length (binding ctx) = length Γ
  ∧ ∀ i t b, Γ !! i = Some t → binding ctx !! i = Some b → match b with Some n => has_ty Γo n t | None => Γo !! i = Some t end.

Lemma inject_list_typed (f : Node → outcome Node) Γ Γo args ts es :
  (∀ e t e', e ∈ args → has_ty Γ e t → f e = Ok e' → has_ty Γo e' t) →
  Forall2 (has_ty Γ) args ts → omapM f args = Ok es → Forall2 (has_ty Γo) es ts.
Proof.
  intros Hf HF. revert es. induction HF as [|a t args ts Ha _ IH]; intros es He; simpl in He; outcome_inv; constructor.
  - eapply Hf; [|exact Ha|done]. set_solver.
  - apply IH; [|done]. intros e t' e' Hin. apply Hf. set_solver.
Qed.

Lemma child_binds_typed Γo ctx es ts : Forall2 (has_ty Γo) es ts → binds_typed ts Γo (child_ctx ctx es).
Proof.
  intros HF. pose proof (Forall2_length _ _ _ HF) as Hl. split_and!; [simpl; congruence|simpl; by rewrite length_fmap|]. intros i t b Hi Hb. cbn [binding child_ctx] in Hb. rewrite list_lookup_fmap in Hb.
  destruct (Forall2_lookup_r _ _ _ _ _ HF Hi) as (n & Hn & Hty). rewrite Hn in Hb. by injection Hb as <-.
Qed.

Lemma inject_typed fuel : ∀ ctx Γ Γo e t e',
  has_ty Γ e t → binds_typed Γ Γo ctx → scalar_inject_walk fuel ctx e = Ok e' → has_ty Γo e' t.
Proof.
  induction fuel as [|fuel IH]; intros ctx Γ Γo e t e' He Hb Hi; [done|]. destruct (plain e) eqn:Hp.
  - apply has_ty_plain in He as (ts & r & -> & Hsh & Hnt & Hr & HF); [|done]. rewrite inject_plain in Hi by done.
    pose proof (mutator_shape _ _ _ Hi) as Hsh'. pose proof (mutator_node_type _ _ _ _ _ Hi Hnt) as Hnt'. apply mutator_children in Hi as [Htag Hch].
    apply (ty_plain _ _ ts); [by rewrite (plain_tag _ _ Htag)|by rewrite Hsh'|done|done|]. clear -IH HF Hb Hch. revert ts HF.
    induction Hch as [|c c' l l' Hc _ IHl]; intros ts HF; inversion HF; subst; constructor; [by eapply IH|by apply IHl].
  - pose proof Hb as (Hn & Hlb & Hbind). destruct e; try done; try (by inversion He).
    + apply has_ty_param in He as (Hin & Ht & Hty & Hf). cbn [scalar_inject_walk] in Hi. unfold bound_param in Hi. rewrite Hn, Hin in Hi.
      destruct (lookup_lt_is_Some_2 (binding ctx) (Z.to_nat (paramid p))) as [b Hbi]; [rewrite Hlb; by eapply lookup_lt_Some|].
      pose proof (Hbind _ _ _ Ht Hbi) as Ho. rewrite Hbi in Hi. destruct b as [b|]; injection Hi as <-; [done|]. apply ty_param; [|done..].
      apply input_param_range in Hin as (Hk & Hl & H0 & _). unfold is_input_param, is_PARAM_EXEC. rewrite Hk, Hl. apply lookup_lt_Some in Ho.
      apply andb_true_intro. split; [apply Z.leb_le|apply Z.ltb_lt]; lia.
    + apply has_ty_lambda in He as (b & ts & r & -> & -> & Hl & He). injection Hi as <-. by apply ty_lambda.
    + apply has_ty_lfa in He as (ts & -> & Hk & Ht & HF). apply inject_lfa_inv in Hi as (Hr & es & Hes & Hi).
      pose proof (inject_list_typed _ Γ Γo _ _ _ (fun e t e' _ Hty => IH ctx Γ Γo e t e' Hty Hb) HF Hes) as Hesty.
      destruct Hi as [(q & Hq & ->)|(ch & body & Hq & Hla & Hbody)]; pose proof (Hbind _ _ _ Ht Hq) as Hty.
      * apply has_ty_param in Hty as (Hin & Hi & _). apply input_param_range in Hin as (_ & _ & Hge & _). by apply ty_call with ts.
      * apply has_ty_lambda in Hty as (b & ts' & r & [= <-] & [= <- <-] & _ & Hb'). eapply IH; [done|by apply child_binds_typed|done].
Qed.
End Types.
