(* ===== verification/SafetyTheorems.v ===== *)
(** * Well-typed calls return

    A call of a well-typed lambda on arguments of its types always comes back,
    with a value of its result type or with an error the code raises: it neither
    runs forever nor into behaviour that C leaves undefined.  Function inputs have
    smaller types than the lambda that receives them, so that the nesting of calls
    is bounded.

    Types are those of [Safety.v]: the discipline is that built-in functions are
    called with arguments of types they accept, and that a lambda is passed where
    a lambda of exactly its argument and result types is expected. *)

From S2P Require Import Prelude Bitmapset Nodes NodesFacts Serialize Inject InjectFacts Typing Eval EvalFacts.
From S2P Require Import Semantics HoistFacts NodeText Demo HoistTheorems Safety.

(** a value or an error *)
Definition decided {A} (r : outcome A) : Prop := (∃ v, r = Ok v) ∨ ∃ e, r = Err e.

(** NULL is a value of every type *)
Definition opt_has `{Catalog} (t : Oid) (v : option Datum) : Prop := match v with Some d => has_type t d | None => True end.

(** a value of type [t] or an error *)
Definition returns `{Catalog} (t : Oid) (r : outcome (option Datum)) : Prop := decided r ∧ ∀ v, r = Ok v → opt_has t v.

(** what the executor relies on from the code it calls.  A function that is called
    with values of types it accepts, none of them NULL if it is strict, returns a
    value of its result type or raises an error; likewise comparisons, the
    construction of arrays, the selection of fields and the attributes of the
    current tuple.  Constant folding keeps the type of an expression. *)
Class TypedParams `{ExecParams} `{Catalog} : Prop := {
  fn_call_typed f ts r coll vs :
    proc_type f ts r → Forall2 opt_has ts vs → (fn_strict f = true → Forall is_Some vs) → returns r (fn_call f coll vs);
  cmp_proc_typed t coll a b : has_type t a → has_type t b → decided (cmp_proc t coll a b);
  field_select_typed k row t v : field_type row k t → opt_has row v → returns t (field_select k t v);
  make_array_typed t el vs : array_elem t el → Forall (opt_has el) vs → returns t (make_array t vs);
  var_value_typed v : returns (vartype v) (var_value v);
  relabel_typed s t d : binary_coercible s t → has_type s d → has_type t d;
  bool_typed b : has_type BOOLOID (BoolGetDatum b);
  fold_typed Γ e e' t : has_ty Γ e (RAtom t) → eval_const_expressions e = Ok e' → has_ty Γ e' (RAtom t)
}.

Lemma decided_Ok {A} (v : A) : decided (Ok v).
Proof. left. by exists v. Qed.

Lemma decided_Err {A} e : decided (Err e : outcome A).
Proof. right. by exists e. Qed.

Lemma decided_fuel {A} (r : outcome A) : decided r → r ≠ OutOfFuel.
Proof. by intros [[? ->]|[? ->]]. Qed.

Lemma decided_ereport {A} code msg : decided (ereport code msg : outcome A).
Proof. apply decided_Err. Qed.

Lemma decided_elog {A} msg : decided (elog msg : outcome A).
Proof. apply decided_Err. Qed.

Lemma decided_bind {A B} (r : outcome A) (k : A → outcome B) :
  decided r → (∀ v, r = Ok v → decided (k v)) → decided (r ≫= k).
Proof. intros [[v ->]|[e ->]] Hk; [by apply Hk|apply decided_Err]. Qed.

Lemma decided_omapM {A B} (f : A → outcome B) l : (∀ x, x ∈ l → decided (f x)) → decided (omapM f l).
Proof.
  induction l as [|x l IH]; intros Hf; [apply decided_Ok|]. simpl. apply decided_bind; [apply Hf; set_solver|]. intros y _.
  apply decided_bind; [apply IH; set_solver|]. intros ys _. apply decided_Ok.
Qed.

Lemma decided_fuel_le {A} (r r' : outcome A) : fuel_le r r' → decided r → decided r'.
Proof. by intros [->| ->] [[? H]|[? H]]; [..|left; eexists|right; eexists]. Qed.

#[local] Hint Resolve decided_Ok decided_Err decided_ereport decided_elog : core.

Section Safe.
Context `{NIO : NodeIO} `{TC : TypeCache} `{EP : ExecParams} `{CT : Catalog} `{!TypedParams}.

Lemma returns_Ok t v : opt_has t v → returns t (Ok v).
Proof. intros Hv. split; [auto|]. by intros w [= <-]. Qed.

Lemma returns_Err t e : returns t (Err e).
Proof. split; [auto|done]. Qed.

Lemma returns_bind {A} t (r : outcome A) (k : A → outcome (option Datum)) : decided r → (∀ v, r = Ok v → returns t (k v)) → returns t (r ≫= k).
Proof. intros [[v ->]|[e ->]] Hk; [by apply Hk|apply returns_Err]. Qed.

Lemma returns_then t u r (k : option Datum → outcome (option Datum)) : returns u r → (∀ v, opt_has u v → returns t (k v)) → returns t (r ≫= k).
Proof. intros [Hd Hv] Hk. apply returns_bind; [done|]. intros v Hr. by apply Hk, Hv. Qed.

Lemma returns_fuel_le t r r' : fuel_le r r' → returns t r → returns t r'.
Proof. intros Hle [Hd Hv]. assert (r' = r) as ->; [|done]. destruct Hle as [->| ->]; [by destruct Hd as [[? ?]|[? ?]]|done]. Qed.

Lemma returns_null t : returns t (Ok None).
Proof. by apply returns_Ok. Qed.

Lemma returns_bool b : returns BOOLOID (Ok (Some (BoolGetDatum b))).
Proof. apply returns_Ok. by apply bool_typed. Qed.

#[local] Hint Resolve returns_Ok returns_Err returns_null returns_bool : core.

(** ** One node *)

Section Node.
Context (ev : Node → outcome (option Datum)).

(** every expression of a list returns a value of its type *)
Abbreviation all_return := (Forall2 (fun c t => returns t (ev c))).

Lemma args_return cs ts t (k : list (option Datum) → outcome (option Datum)) :
  all_return cs ts → (∀ vs, Forall2 opt_has ts vs → returns t (k vs)) → returns t (omapM ev cs ≫= k).
Proof.
  intros HF. revert k. induction HF as [|c u cs ts Hc _ IH]; intros k Hk; simpl; [by apply Hk|].
  destruct Hc as [[[v Hv]|[e He]] Hty]; [|rewrite He; apply returns_Err]. rewrite Hv. cbn [mbind outcome_bind].
  specialize (IH (fun vs => k (v :: vs))). destruct (omapM ev cs) as [vs| | |]; cbn [mbind outcome_bind] in *; apply IH; intros; apply Hk; constructor; auto.
Qed.

Lemma func_returns f coll ts r vs : proc_type f ts r → Forall2 opt_has ts vs → returns r (eval_func f coll vs).
Proof.
  intros Hp Hvs. unfold eval_func. destruct (fn_strict f) eqn:Hs; [|by eapply fn_call_typed; [| |congruence]]. cbn [andb].
  destruct (bool_decide (Forall is_Some vs)) eqn:Hn.
  - apply bool_decide_eq_true in Hn. rewrite andb_false_r. by eapply fn_call_typed.
  - rewrite andb_true_r. destruct vs; [by destruct (bool_decide_eq_false_1 _ Hn)|]. rewrite bool_decide_eq_false_2 by done. by apply returns_Ok.
Qed.

Lemma and_returns b args ts : args ≠ [] → Forall (eq BOOLOID) ts → all_return args ts → returns BOOLOID (eval_and ev b args).
Proof.
  revert b ts. induction args as [|a [|a' args] IH]; intros b ts Hne Hb HF; [done| |]; inversion HF as [|? t ? ts' Ha HF']; subst;
    apply Forall_cons in Hb as [<- Hb].
  - simpl. apply (returns_then _ _ _ _ Ha). intros [d|] Hd; [|auto]. destruct (negb _); [|destruct b]; auto.
  - rewrite eval_and_cons. apply (returns_then _ _ _ _ Ha). intros [d|] Hd; [destruct (negb _); [auto|]|]; by eapply IH.
Qed.

Lemma or_returns b args ts : args ≠ [] → Forall (eq BOOLOID) ts → all_return args ts → returns BOOLOID (eval_or ev b args).
Proof.
  revert b ts. induction args as [|a [|a' args] IH]; intros b ts Hne Hb HF; [done| |]; inversion HF as [|? t ? ts' Ha HF']; subst;
    apply Forall_cons in Hb as [<- Hb].
  - simpl. apply (returns_then _ _ _ _ Ha). intros [d|] Hd; [|auto]. destruct (DatumGetBool d); [|destruct b]; auto.
  - rewrite eval_or_cons. apply (returns_then _ _ _ _ Ha). intros [d|] Hd; [destruct (DatumGetBool d); [auto|]|]; by eapply IH.
Qed.

Lemma coalesce_returns t args ts : args ≠ [] → Forall (eq t) ts → all_return args ts → returns t (eval_coalesce ev args).
Proof.
  revert ts. induction args as [|a [|a' args] IH]; intros ts Hne Hb HF; [done| |]; inversion HF as [|? u ? ts' Ha HF']; subst;
    apply Forall_cons in Hb as [<- Hb]; [done|].
  rewrite eval_coalesce_cons. apply (returns_then _ _ _ _ Ha). intros [d|] Hd; [auto|by eapply IH].
Qed.

Lemma case_returns t whens d :
  all_return (when_nodes whens ++ [d]) (mjoin (repeat [BOOLOID; t] (length whens)) ++ [t]) → returns t (eval_case ev whens (Some d)).
Proof.
  induction whens as [|[c r] whens IH]; intros HF; simpl in HF; [by inversion HF|]. inversion HF as [|? ? ? ? Hc HF1]; subst.
  inversion HF1 as [|? ? ? ? Hr HF2]; subst. specialize (IH HF2). cbn [eval_case]. apply (returns_then _ _ _ _ Hc).
  intros [v|] _; [|done]. by destruct (DatumGetBool v).
Qed.

Lemma minmax_returns op t coll vs : ∀ res, Forall (opt_has t) vs → opt_has t res → returns t (ExecEvalMinMax op t coll res vs).
Proof.
  induction vs as [|v vs IH]; intros res Hvs Hres; simpl; [auto|]. apply Forall_cons in Hvs as [Hv Hvs].
  destruct v as [v|]; [|auto]. destruct res as [r|]; [|auto]. apply returns_bind; [by apply cmp_proc_typed|].
  intros [c|] _; apply IH; [done| |done|done]. by destruct (match op with IS_GREATEST => _ | IS_LEAST => _ end).
Qed.
Lemma distinct_returns f coll ts vs : length vs = 2%nat → proc_type f ts BOOLOID → Forall2 opt_has ts vs → returns BOOLOID (eval_distinct f coll vs).
Proof.
  intros Hl Hp Hvs. destruct vs as [|a [|b []]]; try done. destruct a as [a|], b as [b|]; cbn [eval_distinct]; auto.
  apply (returns_then _ BOOLOID); [eapply fn_call_typed; [done|done|by repeat constructor]|]. intros [r|] _; cbn [invert_bool]; auto.
Qed.

Lemma nullif_returns f coll ts t vs :
  length vs = 2%nat → head ts = Some t → proc_type f ts BOOLOID → Forall2 opt_has ts vs → returns t (eval_nullif f coll vs).
Proof.
  intros Hl Ht Hp Hvs. destruct vs as [|a [|b []]]; try done. destruct ts as [|t' ts]; [done|]. injection Ht as ->.
  inversion Hvs as [|? ? ? ? Ha Hb]; subst. destruct a as [a|], b as [b|]; cbn [eval_nullif]; auto.
  apply (returns_then _ BOOLOID); [eapply fn_call_typed; [done|done|by repeat constructor]|]. intros [r|] _; [destruct (DatumGetBool r)|]; auto.
Qed.

Lemma same_type t ts vs : Forall (eq t) ts → Forall2 opt_has ts vs → Forall (opt_has t) vs.
Proof. intros Hts. induction 1 as [|u v ts vs Hv _ IH]; [constructor|]. apply Forall_cons in Hts as [<- Hts]. constructor; auto. Qed.

Lemma booltest_has t v : opt_has BOOLOID v → opt_has BOOLOID (eval_booltest t v).
Proof. destruct t, v; intros Hv; first [exact Hv|apply bool_typed]. Qed.

Lemma step_returns e ts r :
  plain e = true → node_shape e = true → node_type e ts r → all_return (children e) ts → returns r (eval_step ev e).
Proof.
  intros Hp Hsh Hnt HF.
  destruct e as [v|c|p| |f args|o args|o args|o args|op args|k t arg|t arg|t whens def|t args|t args|t coll op args|t arg|t arg|h e|h args|h l args];
    try done; cbn [children eval_step node_shape node_type] in *.
  - subst r. apply var_value_typed.
  - destruct Hnt as [-> Hc]. apply returns_Ok. destruct (constisnull c); [done|by apply Hc].
  - destruct Hnt as [-> Hf]. apply (args_return args ts); [done|]. intros vs. by apply func_returns.
  - destruct Hnt as [-> Hf]. apply (args_return args ts); [done|]. intros vs. by apply func_returns.
  - destruct Hnt as (-> & _ & Hf). apply (args_return args ts); [done|]. intros vs Hvs. eapply distinct_returns; [|done|done].
    rewrite <- (Forall2_length _ _ _ Hvs), <- (Forall2_length _ _ _ HF). by apply Nat.eqb_eq.
  - destruct Hnt as (-> & Hh & Hf). apply (args_return args ts); [done|]. intros vs Hvs. eapply nullif_returns; [|done|done|done].
    rewrite <- (Forall2_length _ _ _ Hvs), <- (Forall2_length _ _ _ HF). by apply Nat.eqb_eq.
  - destruct Hnt as [-> Hb]. destruct op; cbn [eval_bool].
    + eapply and_returns; [by intros ->|done..].
    + eapply or_returns; [by intros ->|done..].
    + destruct args as [|a []]; try done. inversion HF as [|? ? ? ? Ha _]; subst. simpl. apply Forall_cons in Hb as [<- _].
      apply (returns_then _ _ _ _ Ha). intros [d|] _; cbn [invert_bool]; auto.
  - destruct Hnt as (-> & row & -> & Hf). inversion HF as [|? ? ? ? Ha _]; subst. apply (returns_then _ _ _ _ Ha). intros v. by apply field_select_typed.
  - destruct Hnt as (-> & s & -> & Hs). inversion HF as [|? ? ? ? [Hd Ha] _]; subst. split; [done|]. intros [d|] Hv; [|done].
    eapply relabel_typed; [done|]. exact (Ha _ Hv).
  - destruct Hnt as [-> ->]. destruct def as [d|]; [|done]. by apply case_returns.
  - destruct Hnt as (-> & el & Hel & Hts). apply (args_return args ts); [done|]. intros vs Hvs. eapply make_array_typed; [done|].
    by eapply same_type.
  - destruct Hnt as [-> Hts]. eapply coalesce_returns; [by intros ->|done|done].
  - destruct Hnt as [-> Hts]. apply (args_return args ts); [done|]. intros vs Hvs. apply minmax_returns; [|done].
    by eapply same_type.
  - subst r. inversion HF as [|? ? ? ? Ha _]; subst. apply (returns_then _ _ _ _ Ha). intros v _. apply returns_bool.
  - destruct Hnt as [-> ->]. inversion HF as [|? ? ? ? Ha _]; subst. apply (returns_then _ _ _ _ Ha). intros v Hv. by apply returns_Ok, booltest_has.
Qed.
End Node.

(** ** Whole expressions *)

Lemma nodes_fuel lamval hoist fr cs ts :
  Forall2 (fun c t => ∃ fuel, returns t (eval_node lamval hoist fuel fr c)) cs ts →
  ∃ fuel, Forall2 (fun c t => returns t (eval_node lamval hoist fuel fr c)) cs ts.
Proof.
  induction 1 as [|c t cs ts [f1 Hf1] _ [f2 Hf2]]; [exists 0%nat; constructor|]. exists (max f1 f2). constructor.
  - eapply returns_fuel_le; [apply eval_fuel_le, Nat.le_max_l|done].
  - eapply Forall2_impl; [exact Hf2|]. intros c' t' Hc. eapply returns_fuel_le; [apply eval_fuel_le, Nat.le_max_r|done].
Qed.

Lemma plain_returns lamval hoist fr e ts r :
  plain e = true → node_shape e = true → node_type e ts r →
  Forall2 (fun c t => ∃ fuel, returns t (eval_node lamval hoist fuel fr c)) (children e) ts →
  ∃ fuel, returns r (eval_node lamval hoist fuel fr e).
Proof. intros Hp Hsh Hnt [fuel HF]%nodes_fuel. exists (S fuel). rewrite eval_plain by done. by eapply step_returns. Qed.

(** ** Values *)

Definition lambda_at (le : LambdaExpr) (ts : list rty) (r : Oid) : Prop :=
  length (argnames (le_hdr le)) = length ts ∧ ∃ b, le_expr le = Some b ∧ has_ty ts b (RAtom r).

(** a value of a type: a Datum of that type, or a lambda of that type in
    serialized form *)
Definition val_has (t : rty) (v : option Datum) : Prop :=
  match t with
  | RAtom t => opt_has t v
  | RFun ts r => ∃ le, lambda_at le ts r ∧ val_lambda v le
  end.

Definition frame_has (Γ : list rty) (fr : list (option Datum)) : Prop := ∀ i t, Γ !! i = Some t → ∃ v, fr !! i = Some v ∧ val_has t v.

Lemma frame_has_params ts vs : Forall2 val_has ts vs → frame_has ts (lambda_params vs).
Proof.
  intros HF i t Hi. destruct (Forall2_lookup_l _ _ _ _ _ HF Hi) as (v & Hv & Ht). exists v. split; [|done].
  by apply lambda_params_lookup.
Qed.

Lemma lambda_at_typed le ts r : lambda_at le ts r → typed_lambda le (map erase ts).
Proof. intros [Hl (b & Hb & Hty)]. split; [by rewrite length_map|]. exists b. split; [done|]. exact (has_ty_check b ts (RAtom r) Hty). Qed.

Lemma vals_has_ok ts vs : Forall2 val_has ts vs → vals_ok (map erase ts) vs.
Proof.
  induction 1 as [|t v ts vs Hv _ IH]; [constructor|]. constructor; [|done]. destruct t as [t|us r]; [done|].
  destruct Hv as (le & Hle & Hvl). exists le. split; [by eapply lambda_at_typed|done].
Qed.

Lemma param_value Γ fr p t :
  has_ty Γ (NParam p) t → frame_has Γ fr → paramkind p = PARAM_EXEC ∧ ∃ v, ExecEvalParamExec fr (paramid p) = Ok v ∧ val_has t v.
Proof.
  intros (Hin & Hi & _)%has_ty_param Hf. apply input_param_range in Hin as (Hk & _ & Hr). split; [done|].
  destruct (Hf _ _ Hi) as (v & Hv & Ht). exists v. split; [|done]. unfold ExecEvalParamExec. by rewrite (proj2 (Z.ltb_ge _ 0)), Hv by lia.
Qed.

(** a body whose inputs are atomic *)
Lemma atoms_return lamval hoist Γ fr e r :
  has_ty Γ e (RAtom r) → check (atoms (map erase Γ)) e TAtom → frame_has Γ fr → ∃ fuel, returns r (eval_node lamval hoist fuel fr e).
Proof.
  revert r. induction e as [e IH] using node_ind'. intros r He Hc Hf. rewrite Forall_forall in IH. destruct (plain e) eqn:Hp.
  { apply has_ty_plain in He as (ts & r' & [= <-] & Hsh & Hnt & _ & HF); [|done]. apply check_plain in Hc as (_ & _ & Hc); [|done].
    rewrite Forall_forall in Hc. apply (plain_returns _ _ _ _ ts); [done..|]. eapply Forall2_impl_in; [exact HF|]. eauto. }
  destruct e; try done.
  - destruct (param_value _ _ _ _ He Hf) as (Hk & v & Hv & Ht). exists 1%nat. cbn [eval_node]. rewrite Hk, Hv. by apply returns_Ok.
  - destruct Hc as (_ & _ & Hc). rewrite atoms_lookup in Hc. by destruct (map erase Γ !! _).
Qed.

(** ** The body of a hoisted call *)

Lemma val_lambda_eq v le le' : val_lambda v le → val_lambda v le' → le' = le.
Proof. intros (d & -> & Hd) (d' & [= <-] & Hd'). congruence. Qed.

(** the bindings of the injector *)
Lemma func_inputs_typed m b ts r vs bs :
  le_expr m = Some b → has_ty ts b (RAtom r) → Forall2 val_has ts vs →
  let n := Z.of_nat (length vs) in
  bind_func_inputs 0 (isFunc (scalar_prescan (Some m) (mkScalarPrescan (palloc0_bools n) None n))) (datum_or_zero <$> vs) (is_null <$> vs) = Ok bs →
  binds_typed ts ts (mkScalarBind bs n None 0).
Proof.
  intros Hb Hty Hvs n. assert (length vs = length ts) as Hl by (symmetry; by eapply Forall2_length).
  destruct (prescan_typed m b (map erase ts) None Hb (has_ty_check b ts (RAtom r) Hty)) as [Hlf Hfs]. rewrite length_map in Hlf, Hfs.
  unfold n. rewrite Hl. set (fs := isFunc _) in *. intros Hbs.
  destruct (bind_func_inputs_spec 0 fs vs) as (bs' & Hbs' & Hlb & Hspec); [congruence| |].
  { intros j v Hj Hv. destruct (Forall2_lookup_r _ _ _ _ _ Hvs Hv) as (t & Ht & Hval).
    apply (Hfs j (erase t) (erase_lookup _ _ _ Ht)) in Hj as [Hf _]. destruct t as [|us u]; [done|]. destruct Hval as (le & _ & Hle). by exists le. }
  assert (bs' = bs) as -> by congruence. split_and!; [done|simpl; congruence|]. intros i t x Hi Hx. cbn [binding] in Hx.
  destruct (Forall2_lookup_l _ _ _ _ _ Hvs Hi) as (v & Hv & Hval). destruct (Hspec i v Hv) as [H1 H2].
  destruct (decide (fs !! i = Some true)) as [Hf|Hf]; [|rewrite (H2 Hf) in Hx; by injection Hx as <-].
  destruct (H1 Hf) as (le & Hle & Hbi). rewrite Hbi in Hx. injection Hx as <-.
  apply (Hfs i (erase t) (erase_lookup _ _ _ Hi)) in Hf as [Hf _]. destruct t as [|us u]; [done|]. destruct Hval as (le' & [Hargs (b' & Hb' & Hty')] & Hle').
  rewrite (val_lambda_eq _ _ _ Hle' Hle) in *. unfold LambdaNode. rewrite Hb'. by apply ty_lambda.
Qed.

Lemma lambda_body_typed fuel key d le ts r vs tree :
  lambda_at le ts r → datum_lambda d = Ok (Some le) → Forall2 val_has ts vs → lambda_body true fuel key d vs = Ok tree → has_ty ts tree (RAtom r).
Proof.
  intros [_ (b & Hb & Hty)] Hd Hvs. unfold lambda_body. rewrite Hd. cbn [mbind outcome_bind]. rewrite Hb. destruct (_ >? _); [done|]. cbn [andb].
  intros (t & Ht & (u & _ & [= <-])%bind_Ok_inv)%bind_Ok_inv. destruct (lambda_body_has_lfa _); [|by injection Ht as <-].
  apply bind_Ok_inv in Ht as (u' & _ & (inj & Hinj & (ie & Hie & Hfold)%bind_Ok_inv)%bind_Ok_inv). eapply fold_typed; [|exact Hfold].
  unfold lambda_injector_scalar in Hinj. rewrite Hb in Hinj. apply bind_Ok_inv in Hinj as (bs & Hbs & Hinj).
  apply bind_Ok_inv in Hinj as (oe & Hoe & [= <-]). apply fmap_Ok_inv in Hoe as (e' & He' & ->). injection Hie as <-.
  eapply inject_typed; [exact Hty| |exact He']. by eapply func_inputs_typed.
Qed.

(** a call of a well-typed lambda comes back *)
Lemma hoisted_call_returns `{!NodeIOLaws} `{!FoldLaws} le ts r vs args d :
  lambda_at le ts r → datum_lambda d = Ok (Some le) → Forall2 val_has ts vs → Forall2 call_arg args (map erase ts) →
  ∃ o fuel0, returns r o ∧ ∀ fuel, (fuel0 ≤ fuel)%nat → ExecEvalCallLambdaExpr (ExecEvalExpr true fuel) true fuel None args (Some d) vs = o.
Proof.
  intros Hle Hd Hv Hargs. pose proof (lambda_at_typed _ _ _ Hle) as Hty. pose proof Hty as [_ (b & Hb & _)].
  destruct (hoisted_body le b (map erase ts) vs args d Hty Hd Hb (vals_has_ok _ _ Hv) Hargs) as (key & f0 & Hkey & Hbody). unfold ExecEvalCallLambdaExpr.
  destruct Hbody as [(tree & Hct & _ & Ht)|(e & err & _ & Herr)].
  - pose proof (lambda_body_typed _ _ _ _ _ _ _ _ Hle Hd Hv (Ht f0 (Nat.le_refl _))) as Htree.
    destruct (atoms_return (fun _ => DNodePtr) true ts (lambda_params vs) tree r Htree Hct (frame_has_params _ _ Hv)) as [f1 Hf1].
    exists (ExecEvalExpr true f1 (lambda_params vs) tree), (max f0 f1). split; [done|]. intros fuel Hf. rewrite Hkey. cbn [mbind outcome_bind].
    rewrite Ht by lia. cbn [mbind outcome_bind]. apply (fuel_le_eq (ExecEvalExpr true f1 (lambda_params vs) tree)); [apply eval_fuel_le; lia|done|].
    by apply decided_fuel, Hf1.
  - exists (Err err), f0. split; [apply returns_Err|]. intros fuel Hf. rewrite Hkey. cbn [mbind outcome_bind]. by rewrite Herr.
Qed.

(** ** Calls that are not hoisted *)

(** compiling a typed body raises an error at most *)
Lemma checked_walk Γ e t : check Γ e t → ∀ s, exec_init_walker e s = (false, s) ∨ ∃ er, exec_init_walker e s = (true, Err er).
Proof.
  revert t. induction e as [e IH] using node_ind'. intros t Hc s.
  assert (∀ l, (∀ c, c ∈ l → c ∈ children e ∧ ∃ t, check Γ c t) →
    list_walk exec_init_walker l s = (false, s) ∨ ∃ er, list_walk exec_init_walker l s = (true, Err er)) as Hl.
  { rewrite Forall_forall in IH. induction l as [|c l IHl]; intros Hin; [by left|]. destruct (Hin c) as [Hch [t' Ht']]; [set_solver|]. simpl.
    destruct (IH c Hch t' Ht' s) as [->|[er ->]]; [|by right; exists er]. apply IHl. set_solver. }
  destruct (plain e) eqn:Hp.
  { apply check_plain in Hc as (_ & Hsh & Hc); [|done]. rewrite Forall_forall in Hc. rewrite init_walk_plain, walker_children by done.
    apply Hl. eauto. }
  destruct e; try done; try (by left).
  - destruct Hc as [(Hk & _)%input_param_range _]. left. simpl. by rewrite Hk.
  - destruct Hc as (_ & _ & Hc). cbn [exec_init_walker]. destruct (_ >? _); [right; by eexists|]. apply Hl.
    destruct (Γ !! _) as [[|ts]|]; try done. apply all2_Forall2 in Hc. intros c Hin. split; [done|].
    apply list_elem_of_lookup in Hin as [i Hi]. destruct (Forall2_lookup_l _ _ _ _ _ Hc Hi) as (t' & _ & Ht'). eauto.
Qed.

Lemma checked_init Γ e t : check Γ e t → decided (exec_init_check e).
Proof.
  intros Hc. unfold exec_init_check. destruct (checked_walk Γ e t Hc (Ok tt)) as [->|[er ->]]; [apply decided_Ok|apply decided_Err].
Qed.

(** nesting of function types *)
Fixpoint sty_depth (t : sty) : nat :=
  match t with
  | TAtom => 0
  | TFun ts => S (foldr (fun t n => max (sty_depth t) n) 0%nat ts)
  end.

Lemma sty_depth_arg t ts : t ∈ ts → (sty_depth t < sty_depth (TFun ts))%nat.
Proof.
  intros Hin. simpl. apply Nat.lt_succ_r. induction ts as [|t' ts IH]; [by apply elem_of_nil in Hin|]. simpl.
  apply elem_of_cons in Hin as [->|Hin]; [lia|]. specialize (IH Hin). lia.
Qed.

(** values whose lambdas do not embed lambdas *)
Definition val_plain (t : rty) (v : option Datum) : Prop :=
  match t with
  | RAtom t => opt_has t v
  | RFun ts r => ∃ le b, lambda_at le ts r ∧ val_lambda v le ∧ le_expr le = Some b ∧ embeds_lambda b = false
  end.

Definition frame_plain (Γ : list rty) (fr : list (option Datum)) : Prop := ∀ i t, Γ !! i = Some t → ∃ v, fr !! i = Some v ∧ val_plain t v.

Definition yields (t : rty) (o : outcome (option Datum)) : Prop := decided o ∧ ∀ v, o = Ok v → val_plain t v.

Lemma frame_plain_params ts vs : Forall2 val_plain ts vs → frame_plain ts (lambda_params vs).
Proof.
  intros HF i t Hi. destruct (Forall2_lookup_l _ _ _ _ _ HF Hi) as (v & Hv & Ht). exists v. split; [|done].
  by apply lambda_params_lookup.
Qed.

Lemma yields_fuel_le t r r' : fuel_le r r' → yields t r → yields t r'.
Proof. intros Hle [Hd Hv]. assert (r' = r) as ->; [|done]. destruct Hle as [->| ->]; [by destruct Hd as [[? ?]|[? ?]]|done]. Qed.

(** the arguments of a call *)
Lemma args_yield fr args ts :
  Forall2 (fun a t => ∃ fuel, yields t (ExecEvalExpr false fuel fr a)) args ts →
  ∃ fuel, (∃ vs, omapM (ExecEvalExpr false fuel fr) args = Ok vs ∧ Forall2 val_plain ts vs) ∨ ∃ er, omapM (ExecEvalExpr false fuel fr) args = Err er.
Proof.
  induction 1 as [|a t args ts [f1 H1] _ [f2 H2]]; [exists 0%nat; left; by exists []|]. exists (max f1 f2).
  assert (yields t (ExecEvalExpr false (max f1 f2) fr a)) as [[[v Hv]|[er Her]] Hty]; simpl.
  { eapply yields_fuel_le; [apply eval_fuel_le, Nat.le_max_l|done]. }
  2:{ right. exists er. by rewrite Her. }
  assert (fuel_le (omapM (ExecEvalExpr false f2 fr) args) (omapM (ExecEvalExpr false (max f1 f2) fr) args)) as Hle.
  { apply fuel_le_omapM. intros. apply eval_fuel_le, Nat.le_max_r. }
  rewrite Hv. cbn [mbind outcome_bind]. destruct H2 as [(vs & Hvs & Hall)|(er & Her)].
  - left. rewrite (fuel_le_eq _ _ _ Hle Hvs) by done. exists (v :: vs). split; [done|]. constructor; auto.
  - right. exists er. by rewrite (fuel_le_eq _ _ _ Hle Her).
Qed.

(** a call of a typed lambda whose body returns *)
Lemma call_returns fuel lv le ts r b args vs :
  val_lambda lv le → lambda_at le ts r → le_expr le = Some b → length vs = length ts → returns r (ExecEvalExpr false fuel (lambda_params vs) b) →
  returns r (ExecEvalCallLambdaExpr (ExecEvalExpr false fuel) false fuel None args lv vs).
Proof.
  intros Hlv Hle Hb Hl Hr. rewrite (call_typed _ _ _ _ _ le (map erase ts) b); [|done|by eapply lambda_at_typed|by rewrite length_map|done].
  destruct (cache_key_total args) as [key ->]. cbn [mbind outcome_bind]. destruct Hle as [_ (b' & Hb' & Hty)]. assert (b' = b) as -> by congruence.
  apply returns_bind; [|done]. eapply checked_init. exact (has_ty_check b ts (RAtom r) Hty).
Qed.

Lemma typed_yields n : ∀ Γ e t fr,
  (∀ t, t ∈ Γ → (sty_depth (erase t) < n)%nat) → has_ty Γ e t → embeds_lambda e = false → frame_plain Γ fr →
  ∃ fuel, yields t (ExecEvalExpr false fuel fr e).
Proof.
  induction n as [n IHn] using lt_wf_ind. intros Γ e. induction e as [e IH] using node_ind'. intros t fr Hd He Hemb Hf.
  rewrite Forall_forall in IH. destruct (plain e) eqn:Hp.
  { apply has_ty_plain in He as (ts & r & -> & Hsh & Hnt & _ & HF); [|done]. apply (plain_returns _ _ _ _ ts); [done..|].
    eapply Forall2_impl_in; [exact HF|]. intros c t Hc Ht. apply (IH c Hc (RAtom t)); [done|done|by eapply embeds_children|done]. }
  destruct e; try done; try (by inversion He).
  - pose proof He as (Hin & Hi & _)%has_ty_param. apply input_param_range in Hin as (Hk & _ & Hr). destruct (Hf _ _ Hi) as (v & Hv & Ht).
    exists 1%nat. unfold ExecEvalExpr. cbn [eval_node]. rewrite Hk. unfold ExecEvalParamExec. rewrite (proj2 (Z.ltb_ge _ 0)), Hv by lia.
    split; [apply decided_Ok|]. by intros w [= <-].
  - apply has_ty_lfa in He as (ts & -> & Hk & Hi & HF). destruct (Hf _ _ Hi) as (lv & Hlv & le & b & Hle & Hvl & Hb & Hembb).
    destruct (args_yield fr args ts) as [f1 Hargs].
    { eapply Forall2_impl_in; [exact HF|]. intros a t Ha Ht. apply IH; [done|done|done|by eapply (embeds_children (NLambdaFuncAliasExpr h args))|done]. }
    unfold ExecEvalParamExec in *. destruct Hargs as [(vs & Hvs & Hall)|[er Her]].
    + pose proof Hle as [_ (b' & Hb' & Hty)]. assert (b' = b) as -> by congruence.
      destruct (IHn (sty_depth (erase (RFun ts (lfa_rettype h)))) (Hd _ (list_elem_of_lookup_2 _ _ _ Hi)) ts b (RAtom (lfa_rettype h)) (lambda_params vs))
        as [f2 Hf2]; [intros t Ht; apply sty_depth_arg, list_elem_of_fmap; by eexists|done|done|by apply frame_plain_params|].
      exists (S (max f1 f2)). unfold ExecEvalExpr. rewrite eval_lfa. unfold ExecEvalParamExec.
      rewrite (proj2 (Z.ltb_ge _ 0)), Hlv by lia. cbn [deref mbind outcome_bind]. fold (ExecEvalExpr false (max f1 f2)).
      rewrite (fuel_le_eq (omapM (ExecEvalExpr false f1 fr) args) _ (Ok vs)); [|apply fuel_le_omapM; intros; apply eval_fuel_le, Nat.le_max_l|done..].
      cbn [mbind outcome_bind]. eapply call_returns; [done|done|done|symmetry; by eapply Forall2_length|].
      eapply returns_fuel_le; [apply eval_fuel_le, Nat.le_max_r|done].
    + exists (S f1). unfold ExecEvalExpr in *. rewrite eval_lfa. unfold ExecEvalParamExec.
      rewrite (proj2 (Z.ltb_ge _ 0)), Hlv by lia. cbn [deref mbind outcome_bind]. rewrite Her. apply returns_Err.
Qed.
End Safe.

(** ** The running example *)

(** literals of the types unknown, numeric and bit have a length, all other types
    are passed by value *)
#[export] Instance demo_catalog : Catalog :=
  {| has_type t d := if existsb (Z.eqb t) [705; 1700; 1560] then ∃ m, d = DVarlena (VRaw m) else ∃ z, d = DByVal z;
     proc_type f ts r := (f = F_PLUS ∨ f = F_DIV) ∧ ts = [701; 701] ∧ r = 701;
     field_type _ _ _ := False; array_elem _ _ := False;
     binary_coercible s t := s = 23 ∧ t = 701 |}.

Lemma demo_safe : TypedParams.
Proof.
  split.
  - intros f ts r coll vs (Hf & -> & ->) Hvs Hnn. specialize (Hnn eq_refl).
    apply Forall2_cons_inv_l in Hvs as (a & vs1 & Ha & Hvs & ->). apply Forall2_cons_inv_l in Hvs as (b & vs2 & Hb & Hvs & ->).
    apply Forall2_nil_inv_l in Hvs as ->. apply Forall_cons in Hnn as [[a' ->] Hnn]. apply Forall_cons in Hnn as [[b' ->] _].
    destruct Ha as [x ->], Hb as [y ->]. unfold fn_call. simpl. destruct Hf as [->| ->]; simpl.
    + apply returns_Ok. by eexists.
    + destruct (y =? 0); [apply returns_Err|]. apply returns_Ok. by eexists.
  - intros t coll a b _ _. simpl. destruct a, b; apply decided_Err || apply decided_Ok.
  - done.
  - done.
  - intros v. apply returns_Err.
  - intros s t d [-> ->] [z ->]. by exists z.
  - intros b. by eexists.
  - intros Γ e e' t He [= <-]. done.
Qed.

Definition twice_rty : list rty := [RFun [RAtom 701] 701; RAtom 701].

Lemma add3_at : lambda_at add3 [RAtom 701] 701.
Proof.
  split; [done|]. eexists. split; [done|]. apply (ty_plain _ _ [701; 701]); [done|done|split; [done|]; by split; [left|]|done|].
  constructor; [by apply ty_param|]. constructor; [|constructor]. apply (ty_plain _ _ []); [done|done|split; [done|by eexists]|done|constructor].
Qed.

Lemma twice_at : lambda_at twice twice_rty 701.
Proof.
  split; [done|]. eexists. split; [done|]. apply ty_call with [RAtom 701]; [done|done|done|]. constructor; [|constructor].
  apply ty_call with [RAtom 701]; [done|done|done|]. constructor; [|constructor]. by apply ty_param.
Qed.

(** C18. Well-typed calls do not go wrong: with hoisting on, calling a lambda whose
    body is well typed, on arguments of the types of its inputs, comes back from
    some fuel on, always in the same way, with a value of the type of its body or
    with an error the code raises; it never runs into undefined behaviour.  The
    types are OIDs and, for function inputs, the types of arguments and result.
    Built-in functions are only relied on for arguments of the types they accept
    and, if they are strict, for arguments that are not NULL. *)
Theorem typed_call_safe `{NodeIO} `{!NodeIOLaws} `{TypeCache} `{ExecParams} `{!FoldLaws} `{Catalog} `{!TypedParams} le ts r vs args d :
  lambda_at le ts r → datum_lambda d = Ok (Some le) → Forall2 val_has ts vs → Forall2 call_arg args (map erase ts) →
  ∃ o fuel0, returns r o ∧ ∀ fuel, (fuel0 ≤ fuel)%nat →
    ExecEvalCallLambdaExpr (ExecEvalExpr true fuel) true fuel None args (Some d) vs = o.
Proof. apply hoisted_call_returns. Qed.

Lemma typed_call_safe_witness :
  ∃ o fuel0, returns 701 o ∧ ∀ fuel, (fuel0 ≤ fuel)%nat →
    ExecEvalCallLambdaExpr (ExecEvalExpr true fuel) true fuel None demo_nodes (Some (lambda_datum twice)) demo_args = o.
Proof.
  refine (@typed_call_safe demo_nodeio demo_laws demo_types demo_exec demo_fold demo_catalog demo_safe twice twice_rty 701 demo_args
            demo_nodes (lambda_datum twice) twice_at _ _ _).
  - apply datum_lambda_datum, text_io_laws.
  - constructor; [exists add3; split; [exact add3_at|apply val_lambda_datum]|]. constructor; [by eexists|constructor].
  - repeat constructor; by eexists.
Defined.

(** C19. With hoisting off, calls nest; they end all the same: calling a lambda
    whose body is well typed, on arguments of the types of its inputs, comes back
    with a value of the type of its body or with an error, provided that neither
    its body nor those of the lambdas passed to it embed a lambda expression. *)
Theorem unhoisted_call_safe `{NodeIO} `{TypeCache} `{ExecParams} `{Catalog} `{!TypedParams} le ts r b vs args d :
  lambda_at le ts r → datum_lambda d = Ok (Some le) → le_expr le = Some b → embeds_lambda b = false →
  Forall2 val_plain ts vs →
  ∃ o fuel0, returns r o ∧ ∀ fuel, (fuel0 ≤ fuel)%nat →
    ExecEvalCallLambdaExpr (ExecEvalExpr false fuel) false fuel None args (Some d) vs = o.
Proof.
  intros Hle Hd Hb Hemb Hv. pose proof Hle as [_ (b' & Hb' & Hty)]. assert (b' = b) as -> by congruence.
  destruct (typed_yields (sty_depth (erase (RFun ts r))) ts b (RAtom r) (lambda_params vs)) as [f0 Hf0];
    [intros t Ht; apply sty_depth_arg, list_elem_of_fmap; by eexists|done|done|by apply frame_plain_params|].
  assert (Hcall := call_returns f0 (Some d) le ts r b args vs (ex_intro _ d (conj eq_refl Hd)) Hle Hb (eq_sym (Forall2_length _ _ _ Hv)) Hf0).
  eexists _, f0. split; [exact Hcall|]. intros fuel Hf. eapply fuel_le_eq; [|done|by apply decided_fuel, Hcall].
  apply call_fuel_le; [done|]. intros. by apply eval_fuel_le.
Qed.

Lemma unhoisted_call_safe_witness :
  ∃ o fuel0, returns 701 o ∧ ∀ fuel, (fuel0 ≤ fuel)%nat →
    ExecEvalCallLambdaExpr (ExecEvalExpr false fuel) false fuel None demo_nodes (Some (lambda_datum twice)) demo_args = o.
Proof.
  refine (@unhoisted_call_safe demo_nodeio demo_types demo_exec demo_catalog demo_safe twice twice_rty 701 _ demo_args demo_nodes
            (lambda_datum twice) twice_at _ eq_refl _ _).
  - apply datum_lambda_datum, text_io_laws.
  - reflexivity.
  - constructor; [|constructor; [by eexists|constructor]]. exists add3. eexists. split_and!; [exact add3_at|apply val_lambda_datum|done|done].
Defined.
