(* ===== verification/PartialFacts.v ===== *)
(** * Facts about partial application

    The positions of a call split into held ones (holes) and filled ones: how
    the residual inputs are numbered, which bindings [lambda_partial_apply]
    makes, and why inlining them gives a well-typed residual body. *)

From S2P Require Import Prelude Bitmapset BitmapsetFacts BitmapsetTheorems Nodes NodesFacts Serialize Inject.
From S2P Require Import InjectFacts Typing Eval EvalFacts Semantics HoistFacts.

(** ** Held and filled positions

    [hs] tells which of the first positions are held. *)

(** the entries at held positions *)
Fixpoint select {A} (hs : list bool) (l : list A) : list A :=
  match hs, l with
  | h :: hs, x :: l => if h then x :: select hs l else select hs l
  | _, _ => []
  end.

(** the residual index of position [i] *)
Fixpoint rank (hs : list bool) (i : nat) : nat :=
  match hs, i with
  | h :: hs, S i => ((if h then 1 else 0) + rank hs i)%nat
  | _, _ => O
  end.

(** all arguments: the filled ones and, in the holes, those of a later call *)
Fixpoint merge_args (hs : list bool) (vs hv : list (option Datum)) : list (option Datum) :=
  match hs, vs with
  | true :: hs, _ :: vs => match hv with v :: hv => v :: merge_args hs vs hv | [] => [] end
  | false :: hs, v :: vs => v :: merge_args hs vs hv
  | _, _ => []
  end.

Lemma select_rank {A} hs (l : list A) i x :
  hs !! i = Some true → l !! i = Some x → select hs l !! rank hs i = Some x.
Proof.
  revert l i; induction hs as [|h hs IH]; intros [|y l] [|i] Hh Hx; try done; simpl in *.
  - injection Hh as ->. done.
  - destruct h; simpl; by apply IH.
Qed.

Lemma merge_held hs vs hv i v :
  hs !! i = Some true → length hs = length vs → hv !! rank hs i = Some v → merge_args hs vs hv !! i = Some v.
Proof.
  revert vs hv i; induction hs as [|h hs IH]; intros [|w vs] hv [|i] Hh Hl Hv; try done; simpl in *.
  - injection Hh as ->. by destruct hv.
  - destruct h; simpl in *; [|apply IH; auto with lia]. destruct hv; [done|]. simpl. apply IH; auto with lia.
Qed.

Lemma select_length {A B} hs (l : list A) (k : list B) :
  length l = length k → length (select hs l) = length (select hs k).
Proof.
  revert l k; induction hs as [|h hs IH]; intros [|x l] [|y k] Hl; try done. simpl in *. injection Hl as Hl.
  destruct h; simpl; [f_equal|]; by apply IH.
Qed.

(** the filled positions keep their value, as long as there are enough later arguments *)
Lemma merge_filled {A} hs vs hv (ts : list A) i v :
  hs !! i = Some false → vs !! i = Some v → length hs = length ts → length hv = length (select hs ts) →
  merge_args hs vs hv !! i = Some v.
Proof.
  revert vs hv ts i; induction hs as [|h hs IH]; intros [|w vs] hv [|t ts] [|i] Hh Hv Hl Hs; try done; simpl in *.
  - injection Hh as ->. by injection Hv as ->.
  - injection Hl as Hl. destruct h; simpl in *; [|by eapply IH].
    destruct hv as [|u hv]; [done|]. simpl in *. eapply IH; [done..|]. by injection Hs.
Qed.

(** [hs] lists the members of [held] from position [k] on *)
Definition flags (held : Bitmapset) (k : Z) (hs : list bool) : Prop :=
  ∀ j h, hs !! j = Some h → bms_is_member (k + Z.of_nat j) held = Ok h.

Lemma flags_cons held k h hs : flags held k (h :: hs) → bms_is_member k held = Ok h ∧ flags held (k + 1) hs.
Proof.
  intros Hf. split; [rewrite <- (Z.add_0_r k); by apply (Hf O)|].
  intros j x Hj. rewrite <- (Hf (S j) x) by done. f_equal. lia.
Qed.

(** the flags of a set of positions *)
Definition held_flags (held : Bitmapset) (n : nat) : list bool :=
  (fun i => bms_in (Z.of_nat i) held) <$> seq 0 n.

Lemma held_flags_ok held n : bms_wf held → flags held 0 (held_flags held n).
Proof.
  intros Hw j h Hj. unfold held_flags in Hj. rewrite list_lookup_fmap in Hj.
  destruct (seq 0 n !! j) as [i|] eqn:Hi; [|done]. apply lookup_seq in Hi as [-> _]. injection Hj as <-.
  pose proof (is_member_spec (0 + Z.of_nat j) held Hw) as Hm.
  rewrite (proj2 (Z.ltb_ge _ 0)) in Hm by lia. rewrite Hm. done.
Qed.

Lemma held_flags_length held n : length (held_flags held n) = n.
Proof. unfold held_flags. by rewrite length_fmap, length_seq. Qed.

(** ** Residual indices *)

Fixpoint ranks (r : Z) (hs : list bool) : list Z :=
  match hs with
  | [] => []
  | h :: hs => (if h then r else 0) :: ranks (if h then r + 1 else r) hs
  end.

Lemma seqZ_cons_S k n : seqZ k (Z.of_nat (S n)) = k :: seqZ (k + 1) (Z.of_nat n).
Proof. rewrite seqZ_cons by lia. f_equal; [..|f_equal]; lia. Qed.

Lemma residual_indices_spec held k hs r :
  flags held k hs → residual_indices held (seqZ k (Z.of_nat (length hs))) r = Ok (ranks r hs).
Proof.
  revert k r; induction hs as [|h hs IH]; intros k r Hf; [done|].
  apply flags_cons in Hf as [Hk Hf]. cbn [length]. rewrite seqZ_cons_S. cbn [residual_indices].
  rewrite Hk. cbn [mbind outcome_bind]. destruct h; cbn [ranks]; by rewrite IH.
Qed.

Lemma ranks_lookup r hs i : hs !! i = Some true → ranks r hs !! i = Some (r + Z.of_nat (rank hs i)).
Proof.
  revert r i; induction hs as [|h hs IH]; intros r [|i] Hi; try done; simpl in *.
  - injection Hi as ->. f_equal. lia.
  - rewrite IH by done. f_equal. destruct h; lia.
Qed.

Lemma ranks_length r hs : length (ranks r hs) = length hs.
Proof. revert r; induction hs as [|h hs IH]; intros r; simpl; [done|]. by rewrite IH. Qed.

(** ** The bindings of a partial application *)

Section Bindings.
Context `{NIO : NodeIO} `{!NodeIOLaws} `{TC : TypeCache} `{EP : ExecParams}.

(** the binding of a position: held ones become inputs of the residual,
    filled function inputs are bound to the lambda, filled atomic inputs to a
    constant *)
Definition part_bound (pr : option Param) (isf : bool) (v : option Datum) (idx : Z) (h : bool) (b : option Node) : Prop :=
  if h then b = Some (NParam (with_paramid (default synth_param pr) idx))
  else if isf then ∃ le, val_lambda v le ∧ b = Some (LambdaNode le)
  else match pr with
       | Some _ => ∃ c, b = Some (NConst c) ∧ (if constisnull c then None else Some (constvalue c)) = v
       | None => b = None
       end.

(** what the loop finds at a position *)
Record position (m : LambdaExpr) (s : ScalarPrescan) (vs : list (option Datum)) (p : nat)
    (pr : option Param) (isf : bool) (v : option Datum) (name : cstr) : Prop := {
  pos_proto : ∃ l, proto s = Some l ∧ l !! p = Some pr;
  pos_isFunc : isFunc s !! p = Some isf;
  pos_val : vs !! p = Some v;
  pos_name : argnames (le_hdr m) !! p = Some name
}.

(** what a filled position needs *)
Definition fillable (pr : option Param) (isf : bool) (v : option Datum) : Prop :=
  if isf then ∃ le, val_lambda v le
  else ∀ pp, pr = Some pp → ∃ r, get_typlenbyval (paramtype pp) = Ok r.

Lemma is_null_some d : is_null (Some d) = false.
Proof. done. Qed.

Lemma partial_bind_spec m s held vs p pr isf v name idx h st :
  position m s vs p pr isf v name → bms_is_member (Z.of_nat p) held = Ok h →
  (h = false → fillable pr isf v) →
  ∃ b sl, partial_bind m s held (datum_or_zero <$> vs) (is_null <$> vs) (Z.of_nat p) idx st
          = Ok (mkPartialState (ps_binding st ++ [b]) (ps_argnames st ++ (if h then [name] else [])) sl)
  ∧ part_bound pr isf v idx h b.
Proof.
  intros [(l & Hl & Hpr) Hisf Hv Hname] Hh Hfill. unfold partial_bind.
  rewrite Hh, Hl, Nat2Z.id, Hpr, Hname, Hisf, !list_lookup_fmap, Hv. cbn [mbind outcome_bind deref fmap option_fmap option_map].
  destruct h; [by eexists _, _|]. specialize (Hfill eq_refl). rewrite app_nil_r. unfold fillable, part_bound in *.
  destruct isf.
  - destruct Hfill as (le & d & -> & Hd). rewrite is_null_some. cbn [datum_or_zero from_option id].
    rewrite Hd. eexists _, _. split; [done|]. exists le. split; [by exists d|done].
  - destruct pr as [pp|]; [|by eexists _, _]. destruct (Hfill pp eq_refl) as [[len byval] Hr].
    rewrite Hr. cbn [mbind outcome_bind]. eexists _, _. split; [done|]. eexists. split; [done|].
    by destruct v.
Qed.

Lemma partial_bind_loop_spec m s held vs hs k r st :
  flags held (Z.of_nat k) hs →
  (∀ j h, hs !! j = Some h → ∃ pr isf v name,
     position m s vs (k + j) pr isf v name ∧ (h = false → fillable pr isf v)) →
  ∃ bs sl, partial_bind_loop m s held (datum_or_zero <$> vs) (is_null <$> vs)
             (seqZ (Z.of_nat k) (Z.of_nat (length hs))) (ranks r hs) st
           = Ok (mkPartialState (ps_binding st ++ bs) (ps_argnames st ++ select hs (drop k (argnames (le_hdr m)))) sl)
  ∧ length bs = length hs
  ∧ ∀ j h, hs !! j = Some h → ∃ pr isf v name b idx,
      position m s vs (k + j) pr isf v name ∧ bs !! j = Some b ∧ ranks r hs !! j = Some idx
      ∧ part_bound pr isf v idx h b.
Proof.
  revert k r st; induction hs as [|h hs IH]; intros k r st Hf Hpos.
  { exists [], (ps_slotnames st). rewrite !app_nil_r. split_and!; [by destruct st|done|done]. }
  apply flags_cons in Hf as [Hk Hf]. destruct (Hpos O h eq_refl) as (pr & isf & v & name & Hp & Hfill).
  rewrite Nat.add_0_r in Hp. cbn [length]. rewrite seqZ_cons_S. cbn [ranks partial_bind_loop].
  destruct (partial_bind_spec m s held vs k pr isf v name (if h then r else 0) h st Hp Hk Hfill) as (b & sl & Hb & Hbound).
  rewrite Hb. cbn [mbind outcome_bind]. replace (Z.of_nat k + 1) with (Z.of_nat (S k)) in * by lia.
  destruct (IH (S k) (if h then r + 1 else r)
              (mkPartialState (ps_binding st ++ [b]) (ps_argnames st ++ (if h then [name] else [])) sl) Hf)
    as (bs & sl' & Hloop & Hlen & Hbs).
  { intros j h' Hj. destruct (Hpos (S j) h' Hj) as (pr' & isf' & v' & name' & Hp' & Hf').
    exists pr', isf', v', name'. by rewrite Nat.add_succ_r in Hp'. }
  exists (b :: bs), sl'. split_and!; [|simpl; congruence|].
  - rewrite Hloop. f_equal. cbn [ps_binding ps_argnames]. f_equal.
    + by rewrite <- app_assoc.
    + rewrite <- app_assoc. f_equal. rewrite (drop_S _ name k) by apply Hp. by destruct h.
  - intros [|j] h' Hj; simpl in Hj.
    + injection Hj as <-. exists pr, isf, v, name, b, (if h then r else 0). by rewrite Nat.add_0_r.
    + destruct (Hbs j h' Hj) as (pr' & isf' & v' & name' & b' & idx' & Hp' & Hrest).
      exists pr', isf', v', name', b', idx'. by rewrite Nat.add_succ_r.
Qed.

(** the prescan of a typed body at an input *)
Record scanned (ts : list sty) (b : Node) (j : nat) (t : sty) (pr : option Param) (isf : bool) : Prop := {
  sc_isFunc : isf = true ↔ is_fun t = true ∧ refs (Z.of_nat (length ts)) j b;
  sc_some q : pr = Some q → RParam q ∈ refs_of b ∧ is_input_param q (Z.of_nat (length ts)) = true
                            ∧ (paramtype q =? LAMBDAOID) = is_fun t;
  sc_none : pr = None → refs (Z.of_nat (length ts)) j b → is_fun t = true
}.

Lemma prescan_scanned m b ts j t :
  le_expr m = Some b → check ts b TAtom → ts !! j = Some t →
  let n := Z.of_nat (length ts) in
  let s := scalar_prescan (Some m) (mkScalarPrescan (palloc0_bools n) (Some (repeat None (Z.to_nat n))) n) in
  ∃ pr isf, (∃ l, proto s = Some l ∧ l !! j = Some pr) ∧ isFunc s !! j = Some isf ∧ scanned ts b j t pr isf.
Proof.
  intros Hb Hc Hj n s. apply lookup_lt_Some in Hj as Hlt.
  destruct (prescan_typed m b ts (Some (repeat None (Z.to_nat n))) Hb Hc) as [Hfl Hfs]. fold n s in Hfl, Hfs.
  destruct (lookup_lt_is_Some_2 (isFunc s) j) as [isf Hisf]; [lia|]. specialize (Hfs j t Hj). rewrite Hisf in Hfs.
  assert (∀ i, (repeat None (Z.to_nat n) : list (option Param)) !! i = Some None
               ∨ (repeat None (Z.to_nat n) : list (option Param)) !! i = None) as Hrep.
  { intros i. destruct (_ !! i) eqn:Hi; [|by right]. left.
    apply list_elem_of_lookup_2, list_elem_of_In, repeat_spec in Hi. by subst. }
  destruct (prescan_proto (refs_of b) (mkScalarPrescan (palloc0_bools n) (Some (repeat None (Z.to_nat n))) n) (repeat None (Z.to_nat n)))
    as (l & Hl & Hll & Hspec); [done|simpl; rewrite repeat_length; lia|].
  rewrite <- (scalar_prescan_refs m b) in Hl by (done || (simpl; lia)). fold s in Hl.
  rewrite repeat_length in Hll. destruct (lookup_lt_is_Some_2 l j) as [pr Hpr]; [lia|].
  destruct (Hspec j) as [Hs1 Hs2]. exists pr, isf. split_and!; [by exists l|done|]. split.
  - fold n. rewrite <- Hfs. naive_solver.
  - intros q ->. destruct (Hs1 q Hpr) as [Hq|[Hin Hidx]]; [destruct (Hrep j); congruence|]. split; [done|].
    destruct (check_refs _ _ _ _ Hc Hin) as (i & t' & Hi & Ht' & Hf). fold n in Hi. simpl sp_nargs in Hidx.
    assert (i = j) as -> by congruence. simpl in Hidx, Hf. fold n. destruct (is_input_param q n); [|done].
    split; [done|]. congruence.
  - intros -> Hr. destruct (Hs2 Hpr) as [_ Hno]. apply refs_elem in Hr as (r & Hin & Hr). fold n in Hr.
    destruct (check_refs _ _ _ _ Hc Hin) as (i & t' & Hi & Ht' & Hf). fold n in Hi.
    assert (i = j) as -> by congruence. destruct r as [q|k]; [|simpl in Hf; congruence].
    by destruct (Hno q Hin).
Qed.

(** ** Typed partial application *)

Section Typed.
Context (m : LambdaExpr) (b : Node) (ts : list sty) (held : Bitmapset) (vs : list (option Datum)).
Context (Hb : le_expr m = Some b) (Hnames : length (argnames (le_hdr m)) = length ts).
Context (Hc : check ts b TAtom) (Hvs : length vs = length ts) (Hheld : bms_wf held).

Let hs := held_flags held (length ts).
Let n := Z.of_nat (length ts).

(** the filled arguments have the types of their positions *)
Definition filled_ok : Prop :=
  ∀ i t v, hs !! i = Some false → ts !! i = Some t → vs !! i = Some v → val_ok t v.

(** the types of the inputs are known to the type cache *)
Definition types_known : Prop :=
  ∀ q, RParam q ∈ refs_of b → ∃ r, get_typlenbyval (paramtype q) = Ok r.

Context (Hfill : filled_ok) (Htypes : types_known).

(** the binding of a referenced input *)
Definition bound_part (i : nat) (t : sty) (x : option Node) : Prop :=
  (hs !! i = Some true
   ∧ ∃ q, x = Some (NParam q) ∧ paramkind q = PARAM_EXEC ∧ param_lambda q = true
     ∧ paramid q = Z.of_nat (rank hs i) ∧ (paramtype q =? LAMBDAOID) = is_fun t)
  ∨ (hs !! i = Some false
     ∧ ∃ v, vs !! i = Some v
       ∧ match t with
         | TAtom => ∃ c, x = Some (NConst c) ∧ (if constisnull c then None else Some (constvalue c)) = v
         | TFun ts' => ∃ le, x = Some (LambdaNode le) ∧ typed_lambda le ts' ∧ val_lambda v le
         end).

Lemma part_bound_typed i t pr isf v idx h x :
  ts !! i = Some t → refs n i b → hs !! i = Some h → scanned ts b i t pr isf → vs !! i = Some v →
  ranks 0 hs !! i = Some idx → part_bound pr isf v idx h x → bound_part i t x.
Proof.
  intros Hi Hr Hh [Hisf Hsome Hnone] Hv Hidx Hbd. destruct h; simpl in Hbd; [left|right].
  - split; [done|]. subst x. rewrite (ranks_lookup 0 hs i Hh) in Hidx. injection Hidx as <-.
    eexists. split; [done|]. destruct pr as [q|]; simpl.
    + destruct (Hsome q eq_refl) as (_ & (Hk & Hl & _)%input_param_range & Ht). done.
    + split_and!; [done..|]. by rewrite Hnone.
  - split; [done|]. exists v. split; [done|]. pose proof (Hfill i t v Hh Hi Hv) as Hok. destruct t as [|ts'].
    + destruct isf; [by destruct (proj1 Hisf eq_refl)|]. destruct pr as [q|]; [done|]. by specialize (Hnone eq_refl Hr).
    + destruct isf; [|naive_solver]. destruct Hbd as (le & Hvl & ->). exists le. split; [done|].
      destruct Hok as (le' & Hty & Hvl' & _). split; [|done].
      destruct Hvl as (d & -> & Hd), Hvl' as (d' & [= <-] & Hd'). congruence.
Qed.

Lemma partial_bindings :
  let s := scalar_prescan (Some m) (mkScalarPrescan (palloc0_bools n) (Some (repeat None (Z.to_nat n))) n) in
  ∃ bs sl, partial_bind_loop m s held (datum_or_zero <$> vs) (is_null <$> vs) (seqZ 0 n) (ranks 0 hs)
             (mkPartialState [] [] (repeat None (Z.to_nat n)))
           = Ok (mkPartialState bs (select hs (argnames (le_hdr m))) sl)
  ∧ length bs = length ts
  ∧ ∀ i t, ts !! i = Some t → refs n i b → ∃ x, bs !! i = Some x ∧ bound_part i t x.
Proof.
  intros s. assert (length hs = length ts) as Hhl by apply held_flags_length.
  assert (∀ j h, hs !! j = Some h → ∃ t pr isf v name, ts !! j = Some t ∧ scanned ts b j t pr isf
            ∧ position m s vs j pr isf v name ∧ (h = false → fillable pr isf v)) as Hpos.
  { intros j h Hj. apply lookup_lt_Some in Hj as Hlt.
    destruct (lookup_lt_is_Some_2 ts j) as [t Ht]; [lia|]. destruct (lookup_lt_is_Some_2 vs j) as [v Hv]; [lia|].
    destruct (lookup_lt_is_Some_2 (argnames (le_hdr m)) j) as [name Hn]; [lia|].
    destruct (prescan_scanned m b ts j t Hb Hc Ht) as (pr & isf & Hpr & Hisf & Hsc).
    exists t, pr, isf, v, name. split_and!; [done..|]. intros ->. unfold fillable. destruct isf.
    - pose proof (Hfill j t v Hj Ht Hv) as Hok. destruct Hsc as [[Hf _] _ _]. destruct (Hf eq_refl) as [Hfun _].
      destruct t; [done|]. destruct Hok as (le & _ & Hvl & _). by exists le.
    - intros pp ->. apply Htypes. by destruct (sc_some _ _ _ _ _ _ Hsc pp eq_refl). }
  destruct (partial_bind_loop_spec m s held vs hs 0 0 (mkPartialState [] [] (repeat None (Z.to_nat n))))
    as (bs & sl & Hloop & Hlen & Hbs).
  - by apply held_flags_ok.
  - intros j h Hj. destruct (Hpos j h Hj) as (t & pr & isf & v & name & _ & _ & Hp & Hf). eauto 10.
  - rewrite Hhl in Hloop. exists bs, sl. split_and!; [exact Hloop|congruence|]. intros i t Hi Hr.
    destruct (lookup_lt_is_Some_2 hs i) as [h Hh]; [rewrite Hhl; by eapply lookup_lt_Some|].
    destruct (Hbs i h Hh) as (pr & isf & v & name & x & idx & Hp & Hx & Hidx & Hbd). exists x. split; [done|].
    destruct (Hpos i h Hh) as (t' & pr' & isf' & v' & name' & Ht' & Hsc & Hp' & _).
    change (0 + i)%nat with i in *. destruct Hp as [(l & Hl & Hpr) Hisf Hv _], Hp' as [(l' & Hl' & Hpr') Hisf' Hv' _].
    assert (pr' = pr ∧ isf' = isf ∧ t' = t) as (-> & -> & ->) by (split_and!; congruence).
    exact (part_bound_typed i t pr isf v idx h x Hi Hr Hh Hsc Hv Hidx Hbd).
Qed.

Lemma hs_length : length hs = length ts.
Proof. apply held_flags_length. Qed.

(** such a binding is reducible in the residual's context *)
Lemma bound_part_red names ns i t x :
  ts !! i = Some t → bound_part i t x → bind_ok (select hs ts) names ns i t x.
Proof.
  intros Hi [(Hh & q & -> & Hk & Hlam & Hid & Hty)|(Hh & v & Hv & Hm)].
  - assert (select hs ts !! rank hs i = Some t) as Hrt by (by apply select_rank).
    assert (check (select hs ts) (NParam q) t) as Hcq.
    { apply lookup_lt_Some in Hrt as Hlt. simpl. rewrite Hid, Nat2Z.id. split_and!; [|done..].
      unfold is_input_param, is_PARAM_EXEC. rewrite Hk, Hlam, Hid. simpl.
      apply andb_true_intro. split; [apply Z.leb_le|apply Z.ltb_lt]; lia. }
    destruct t; [done|]. by split.
  - destruct t as [|ts']; [by destruct Hm as (c & -> & _)|].
    destruct Hm as (le & -> & Hty & _). by apply Red_lambda.
Qed.

(** and stands for the merged argument in a frame of held arguments *)
Lemma bound_part_sem hv i t x :
  vals_ok (select hs ts) hv → ts !! i = Some t → bound_part i t x →
  ∃ v, lambda_params (merge_args hs vs hv) !! i = Some v ∧ bind_sem (lambda_params hv) i t x v.
Proof.
  intros Hhv Hi. assert (length hv = length (select hs ts)) as Hhvl by (symmetry; by eapply Forall2_length).
  pose proof hs_length as Hhl. intros [(Hh & q & -> & Hk & Hlam & Hid & Hty)|(Hh & w & Hw & Hm)].
  - assert (select hs ts !! rank hs i = Some t) as Hrt by (by apply select_rank).
    destruct (Forall2_lookup_l _ _ _ _ _ Hhv Hrt) as (w & Hw & Hok). exists w.
    assert (lambda_params hv !! Z.to_nat (paramid q) = Some w) as Hl
      by (rewrite Hid, Nat2Z.id; by apply lambda_params_lookup).
    split; [apply lambda_params_lookup, merge_held; [done|congruence|done]|]. destruct t as [|ts'].
    + exists 1%nat. unfold reference_eval. cbn [eval_node]. rewrite Hk. unfold ExecEvalParamExec.
      by rewrite (proj2 (Z.ltb_ge _ 0)), Hl by lia.
    + destruct Hok as (le & Hle & Hvl & _). exists le. split_and!; [done..|]. right. exists q.
      split_and!; [done..|lia|done].
  - exists w. split; [apply lambda_params_lookup; eapply (merge_filled hs vs hv ts); done|]. destruct t as [|ts'].
    + destruct Hm as (c & -> & <-). by exists 1%nat.
    + destruct Hm as (le & -> & Hle & Hvl). exists le. eauto.
Qed.

(** the residual lambda is typed by the held positions, and on the held
    arguments its body has the value of the mother's body on all arguments *)
Lemma partial_apply_typed :
  ∃ fuel e', check (select hs ts) e' TAtom
  ∧ (∀ fuel', (fuel ≤ fuel')%nat →
       lambda_partial_apply fuel' (Some m) held (datum_or_zero <$> vs) (is_null <$> vs) n
       = Ok (mkLambdaExpr (residual_hdr m (select hs (argnames (le_hdr m)))) (Some e')))
  ∧ ∀ hv, vals_ok (select hs ts) hv →
    ∀ f v, reference_eval f (lambda_params (merge_args hs vs hv)) b = Ok v →
           ∃ f', reference_eval f' (lambda_params hv) e' = Ok v.
Proof.
  destruct partial_bindings as (bs & sl & Hloop & Hbl & Hbind).
  destruct (inline_total (select hs ts) (Some sl) n ts bs b TAtom Hc) as (fuel & e' & He & Hred).
  { split; [done|]. intros i t Hi Hr. destruct (Hbind i t Hi Hr) as (x & Hx & Hbd). exists x.
    split; [done|]. by apply bound_part_red. }
  assert (residual_indices held (seqZ 0 n) 0 = Ok (ranks 0 hs)) as Hri.
  { unfold n. rewrite <- hs_length. apply residual_indices_spec. by apply held_flags_ok. }
  rewrite Hbl in He. exists fuel, e'. split_and!; [done| |].
  - intros fuel' Hf. unfold lambda_partial_apply. rewrite Hb, Hri.
    cbn [mbind outcome_bind]. rewrite Hloop. cbn [mbind outcome_bind ps_binding ps_slotnames ps_argnames].
    fold n in He. by rewrite (inject_mono _ _ _ _ _ Hf He).
  - intros hv Hhv f v Hev.
    eapply (inject_sound (lambda_params hv) fuel (mkScalarBind bs (Z.of_nat (length ts)) (Some sl) n) ts b TAtom _ e' f v Hc); [|reflexivity|exact He|exact Hev].
    intros i t Hi Hr. destruct (Hbind i t Hi Hr) as (x & Hx & Hbd).
    destruct (bound_part_sem hv i t x Hhv Hi Hbd) as (w & Hw & Hs). by exists x, w.
Qed.
End Typed.
End Bindings.
