(* ===== verification/PartialTheorems.v ===== *)
(** * Partial application is sound

    Calling a lambda with holes returns a residual lambda over the held
    positions.  The residual is a typed lambda value, and calling it on
    arguments for the holes returns what calling the original on all the
    arguments returns. *)

From S2P Require Import Prelude Bitmapset BitmapsetFacts Nodes NodesFacts Serialize Inject InjectFacts Typing Eval.
From S2P Require Import EvalFacts Semantics HoistFacts NodeText Demo PartialFacts HoistTheorems.

(** the filled values at their positions *)
Fixpoint spread_vals (hs : list bool) (fvs : list (option Datum)) : list (option Datum) :=
  match hs with
  | [] => []
  | true :: hs => None :: spread_vals hs fvs
  | false :: hs => match fvs with v :: fvs => v :: spread_vals hs fvs | [] => [] end
  end.

(** the arguments of the full call: filled values and, in the holes, [hv] *)
Definition all_args (hs : list bool) (fvs hv : list (option Datum)) : list (option Datum) :=
  merge_args hs (spread_vals hs fvs) hv.

Section Partial.
Context `{NIO : NodeIO} `{!NodeIOLaws} `{TC : TypeCache} `{EP : ExecParams} `{!FoldLaws}.

Lemma spread_ok (hs : list bool) ts fvs :
  length hs = length ts → vals_ok (select (negb <$> hs) ts) fvs →
  length (spread_vals hs fvs) = length ts
  ∧ ∀ i t v, hs !! i = Some false → ts !! i = Some t → spread_vals hs fvs !! i = Some v → val_ok t v.
Proof.
  revert ts fvs; induction hs as [|h hs IH]; intros [|t ts] fvs Hl Hv; try done.
  simpl in Hl. injection Hl as Hl. rewrite fmap_cons in Hv. simpl in Hv. destruct h; simpl in *.
  - destruct (IH ts fvs Hl Hv) as [IH1 IH2]. split; [congruence|]. intros [|i]; [done|]. apply IH2.
  - inversion Hv as [|? v ? fvs' Hv0 Hv']; subst. destruct (IH ts fvs' Hl Hv') as [IH1 IH2].
    split; [simpl; congruence|]. intros [|i] t' w; simpl; [|apply IH2]. by intros _ [= <-] [= <-].
Qed.

Lemma spread_args_spec held k hs ts fvs :
  flags held k hs → length hs = length ts → vals_ok (select (negb <$> hs) ts) fvs →
  spread_args held (seqZ k (Z.of_nat (length hs))) fvs = Ok (spread_vals hs fvs).
Proof.
  revert k ts fvs; induction hs as [|h hs IH]; intros k [|t ts] fvs Hf Hl Hv; try done.
  apply flags_cons in Hf as [Hk Hf]. simpl in Hl. injection Hl as Hl. rewrite fmap_cons in Hv. simpl in Hv.
  cbn [length]. rewrite seqZ_cons_S. cbn [spread_args]. rewrite Hk. cbn [mbind outcome_bind spread_vals].
  destruct h; simpl in Hv.
  - by rewrite (IH (k + 1) ts fvs).
  - inversion Hv as [|? v ? fvs' Hv0 Hv']; subst. by rewrite (IH (k + 1) ts fvs').
Qed.

(** calling the lambda value [d] on [vs] returns [v] in the reference semantics *)
Definition reference_returns (d : Datum) (vs : list (option Datum)) (v : option Datum) : Prop :=
  ∃ f le b, datum_lambda d = Ok (Some le) ∧ le_expr le = Some b ∧ reference_eval f (lambda_params vs) b = Ok v.
End Partial.

(** C3. Partial application is sound: filling some positions of a well-typed
    lambda with typed values ends, and the result is a lambda value whose type
    lists exactly the held positions.  Whenever the original returns a value
    on the filled values together with arguments for the holes, the residual
    returns that value on the arguments for the holes.  The only other
    outcome is an error of the constant folder. *)
Theorem partial_application_sound `{NodeIO} `{!NodeIOLaws} `{TypeCache} `{ExecParams} `{!FoldLaws} m b ts held d fvs :
  let hs := held_flags held (length ts) in
  typed_lambda m ts → le_expr m = Some b → datum_lambda d = Ok (Some m) → bms_wf held →
  vals_ok (select (negb <$> hs) ts) fvs → types_known b →
  ∃ fuel0,
    (∃ r, val_ok (TFun (select hs ts)) (Some r)
     ∧ (∀ fuel, (fuel0 ≤ fuel)%nat → partial_application fuel held d fvs = Ok (Some r))
     ∧ ∀ hv v, vals_ok (select hs ts) hv → reference_returns d (all_args hs fvs hv) v → reference_returns r hv v)
    ∨ ∃ e err, eval_const_expressions e = Err err
      ∧ ∀ fuel, (fuel0 ≤ fuel)%nat → partial_application fuel held d fvs = Err err.
Proof.
  intros hs [Hl (b' & Hb' & Hc)] Hb Hd Hw Hf Ht. rewrite Hb in Hb'; injection Hb' as <-.
  assert (length hs = length ts) as Hhl by apply held_flags_length.
  destruct (spread_ok hs ts fvs Hhl Hf) as [Hsl Hsv]. set (vs := spread_vals hs fvs) in *.
  assert (spread_args held (seqZ 0 (Z.of_nat (length (argnames (le_hdr m))))) fvs = Ok vs) as Hspread.
  { rewrite Hl, <- Hhl. eapply spread_args_spec; [by apply held_flags_ok|exact Hhl|done]. }
  destruct (partial_apply_typed m b ts held vs Hb Hl Hc Hsl Hw Hsv Ht) as (fuel & e' & Hce & Happ & Hsem).
  fold hs in Hce, Happ, Hsem. exists fuel. unfold partial_application. rewrite Hd. cbn [mbind outcome_bind].
  rewrite Hb, Hspread. cbn [mbind outcome_bind]. rewrite Hl.
  destruct (fold_outcome e') as [[tree Htree]|[err Herr]]; [left|right].
  - set (le := mkLambdaExpr (residual_hdr m (select hs (argnames (le_hdr m)))) (Some tree)).
    assert (typed_lambda le (select hs ts)) as Hty.
    { split; [by apply select_length|]. exists tree. split; [done|by eapply fold_check]. }
    exists (lambda_datum le). split_and!.
    + exists le. split; [done|]. split; apply val_lambda_datum.
    + intros fuel' Hfu. rewrite (Happ _ Hfu). cbn [mbind outcome_bind le_expr deref]. by rewrite Htree.
    + intros hv v Hhv (f & m' & b' & Hm' & Hb' & Hr).
      assert (m' = m) as -> by congruence. assert (b' = b) as -> by congruence.
      destruct (Hsem hv Hhv f v Hr) as [f1 Hf1]. destruct (fold_value _ _ _ _ _ Hf1 Htree) as [f2 Hf2].
      exists f2, le, tree. split_and!; [|done..]. apply datum_lambda_datum, reads_back_all.
  - exists e', err. split; [done|]. intros fuel' Hfu. rewrite (Happ _ Hfu). cbn [mbind outcome_bind le_expr deref].
    by rewrite Herr.
Qed.

(** [twice(add3, ?)]: the second position is held *)
Definition demo_held : Bitmapset := Some [2].

Lemma partial_application_sound_witness :
  let hs := held_flags demo_held 2 in
  ∃ fuel0,
    (∃ r, val_ok (TFun [TAtom]) (Some r)
     ∧ (∀ fuel, (fuel0 ≤ fuel)%nat →
          partial_application fuel demo_held (lambda_datum twice) [Some (lambda_datum add3)] = Ok (Some r))
     ∧ ∀ hv v, vals_ok [TAtom] hv →
         reference_returns (lambda_datum twice) (all_args hs [Some (lambda_datum add3)] hv) v → reference_returns r hv v)
    ∨ ∃ e err, eval_const_expressions e = Err err
      ∧ ∀ fuel, (fuel0 ≤ fuel)%nat →
        partial_application fuel demo_held (lambda_datum twice) [Some (lambda_datum add3)] = Err err.
Proof.
  refine (@partial_application_sound demo_nodeio demo_laws demo_types demo_exec demo_fold twice _ twice_types
            demo_held (lambda_datum twice) [Some (lambda_datum add3)] twice_typed eq_refl _ _ _ _).
  - apply datum_lambda_datum, text_io_laws.
  - split; [|done]. repeat constructor; vm_compute; congruence.
  - constructor; [|constructor]. exists add3. split; [exact add3_typed|]. split; apply val_lambda_datum.
  - intros q _. by eexists.
Defined.

(** [λ(k, f, x). k(f, x)] and [λ(g, z). g(z)] *)
Definition apply_to : LambdaExpr :=
  mkLambdaExpr (demo_names ["k"%string; "f"%string; "x"%string])
    (Some (demo_apply 0 [NParam (demo_param 1 LAMBDAOID); NParam (demo_param 2 701)])).
Definition applier : LambdaExpr :=
  mkLambdaExpr (demo_names ["g"%string; "z"%string]) (Some (demo_apply 0 [NParam (demo_param 1 701)])).

(** A filled function that the body passes on is embedded into the residual as
    a lambda expression.  Calling the residual [apply_to(?, add3, 4)] works
    with hoisting on; with hoisting off the embedded lambda is evaluated to the
    address of its node, which is then read as a serialized lambda. *)
Example embedded_lambda_needs_hoisting :
  ∃ r, partial_application 10 (Some [1]) (lambda_datum apply_to) [Some (lambda_datum add3); Some (DByVal 4)]
       = Ok (Some r)
  ∧ (let call hoist := ExecEvalCallLambdaExpr (ExecEvalExpr hoist 10) hoist 10 None [LambdaNode applier] (Some r)
                         [Some (lambda_datum applier)] in
     call true = Ok (Some (DByVal 7)) ∧ call false = UB).
Proof. eexists. split; [vm_compute; reflexivity|]. split; vm_compute; reflexivity. Qed.
