(* ===== verification/L3Theorems.v ===== *)
(** * The L3 safety analysis

    [lambda_expr_is_l3_safe] decides whether a body only uses operations with
    a hand-written fast path.  The analysis looks at one body at a time;
    flattening safe lambdas into a safe mother gives a safe body, but the
    cached verdict of the mother says nothing about unsafe arguments. *)

From S2P Require Import Prelude Bitmapset Nodes NodesFacts Serialize Inject InjectFacts Typing Eval EvalFacts.
From S2P Require Import Semantics HoistFacts NodeText Demo.

(** what may occur in an L3-safe body *)
#[local] Unset Elimination Schemes.
Inductive L3 : Node → Prop :=
| L3_Const c : L3 (NConst c)
| L3_Param p : paramkind p = PARAM_EXEC → L3 (NParam p)
| L3_FuncExpr f args : funcid f ∈ LAMBDA_L3_FUNC_LIST → Forall L3 args → L3 (NFuncExpr f args)
| L3_OpExpr o args : opfuncid o ∈ LAMBDA_L3_FUNC_LIST → Forall L3 args → L3 (NOpExpr o args)
| L3_DistinctExpr o args : opfuncid o ∈ LAMBDA_L3_FUNC_LIST → Forall L3 args → L3 (NDistinctExpr o args)
| L3_NullIfExpr o args : opfuncid o ∈ LAMBDA_L3_FUNC_LIST → Forall L3 args → L3 (NNullIfExpr o args)
| L3_LambdaFuncAlias h args : Forall L3 args → L3 (NLambdaFuncAliasExpr h args)
| L3_CallLambda h l args : Forall L3 args → L3 (NCallLambdaExpr h l args).
#[local] Set Elimination Schemes.

Definition l3 (e : Node) : bool := negb (fst (lambda_l3_unsafe_walker e tt)).

Lemma has_l3_impl_elem f : lambda_op_has_l3_impl f = true ↔ f ∈ LAMBDA_L3_FUNC_LIST.
Proof.
  unfold lambda_op_has_l3_impl. rewrite existsb_exists, list_elem_of_In. split.
  - intros (x & Hx & ->%Z.eqb_eq). done.
  - intros Hf. exists f. split; [done|]. apply Z.eqb_refl.
Qed.

(** a walk over a list of arguments *)
Lemma l3_list_walk args :
  list_walk lambda_l3_unsafe_walker args tt = (negb (forallb l3 args), tt).
Proof.
  rewrite (list_walk_existsb (fun n => negb (l3 n))).
  - f_equal. induction args as [|a args IH]; simpl; [done|]. by rewrite IH, negb_andb.
  - apply Forall_true. intros n. unfold l3. destruct (lambda_l3_unsafe_walker n tt) as [b []]. simpl. by rewrite negb_involutive.
Qed.

Lemma forallb_L3 args :
  Forall (fun e => l3 e = true ↔ L3 e) args → forallb l3 args = true ↔ Forall L3 args.
Proof.
  intros HF. rewrite forallb_Forall. induction HF as [|e l He _ IH]; [done|]. rewrite !Forall_cons. by rewrite He, IH.
Qed.

Lemma l3_L3 e : l3 e = true ↔ L3 e.
Proof.
  induction e as [e IH] using node_ind'.
  assert (∀ args f, forallb l3 args = true ↔ Forall L3 args →
    l3 (NFuncExpr f args) = true ↔ funcid f ∈ LAMBDA_L3_FUNC_LIST ∧ Forall L3 args) as Hfun.
  { intros args f Ha. rewrite <- has_l3_impl_elem, <- Ha. unfold l3. simpl.
    destruct (lambda_op_has_l3_impl (funcid f)); simpl; [|naive_solver]. rewrite l3_list_walk. simpl.
    rewrite negb_involutive. naive_solver. }
  pose proof IH as IH0. destruct e; cbn [children] in IH, IH0; try (apply forallb_L3 in IH); try (split; [done|by inversion 1]).
  - split; [constructor|done].
  - unfold l3. simpl. split; [|intros HL; inversion HL as [|? Hk|?|?|?|?|?|?]; subst; by rewrite Hk].
    destruct (paramkind p) eqn:Hk; try done. by constructor.
  - rewrite Hfun by done. split; [intros []; by constructor|by inversion 1].
  - change (l3 (NOpExpr o args)) with (l3 (NFuncExpr (mkFuncHdr (opfuncid o) 0 0) args)).
    rewrite Hfun by done. split; [intros []; by constructor|by inversion 1].
  - change (l3 (NDistinctExpr o args)) with (l3 (NFuncExpr (mkFuncHdr (opfuncid o) 0 0) args)).
    rewrite Hfun by done. split; [intros []; by constructor|by inversion 1].
  - change (l3 (NNullIfExpr o args)) with (l3 (NFuncExpr (mkFuncHdr (opfuncid o) 0 0) args)).
    rewrite Hfun by done. split; [intros []; by constructor|by inversion 1].
  - unfold l3. simpl. rewrite l3_list_walk. simpl. rewrite negb_involutive, IH.
    split; [by constructor|by inversion 1].
  - inversion IH0 as [|? ? _ Hargs]; subst. apply forallb_L3 in Hargs. unfold l3. simpl. rewrite l3_list_walk. simpl.
    rewrite negb_involutive, Hargs. split; [by constructor|by inversion 1].
Qed.

(** ** Flattening *)

Section Flatten.
Context `{NIO : NodeIO} `{!NodeIOLaws} `{TC : TypeCache} `{EP : ExecParams}.

(** a binding whose body or expression is safe *)
Definition bind_l3 (t : sty) (b : Node) : Prop :=
  match t with
  | TAtom => L3 b
  | TFun ts =>
      ∃ le body, b = LambdaNode le ∧ le_expr le = Some body ∧ check ts body TAtom ∧ L3 body
  end.

Definition binds_l3 (Γ : list sty) (bs : list (option Node)) (e : Node) : Prop :=
  ∀ i t, Γ !! i = Some t → refs (Z.of_nat (length Γ)) i e →
         ∃ b, bs !! i = Some b ∧ match b with Some b => bind_l3 t b | None => t = TAtom end.

Lemma binds_l3_child Γ bs e c :
  nodeTag e ≠ T_LambdaExpr → c ∈ children e → binds_l3 Γ bs e → binds_l3 Γ bs c.
Proof. intros Ht Hc Hb i t Hi Hr. apply Hb; [done|]. by eapply refs_child. Qed.

(** the parts of a safe plain node are safe, and safe parts make it safe *)
Lemma L3_plain e : plain e = true → L3 e → Forall L3 (children e).
Proof. intros Hp HL. destruct HL; simpl; try done. Qed.

Lemma L3_mutate g e e' :
  plain e = true → L3 e → expression_tree_mutator g e = Ok e' → Forall L3 (children e') → L3 e'.
Proof.
  intros Hp HL Hm Hc. destruct HL; try done; cbn [expression_tree_mutator] in Hm; outcome_inv; by constructor.
Qed.

Lemma inline_l3 fuel ctx Γ e t e' :
  check Γ e t → L3 e → binds_l3 Γ (binding ctx) e → sb_nargs ctx = Z.of_nat (length Γ) →
  scalar_inject_walk fuel ctx e = Ok e' → bind_l3 t e'.
Proof.
  revert ctx Γ e t e'. induction fuel as [|fuel IH]; intros ctx Γ e t e' Hc HL Hb Hn He; [done|].
  destruct (plain e) eqn:Hp.
  { apply check_plain in Hc as (-> & _ & Hc); [|done]. pose proof (L3_plain e Hp HL) as HLc.
    rewrite inject_plain in He by done. apply (L3_mutate _ _ _ Hp HL He).
    apply mutator_children in He as [_ Hm]. rewrite Forall_forall in Hc, HLc. apply Forall_forall. intros c' Hin.
    apply list_elem_of_lookup in Hin as [i Hi]. destruct (Forall2_lookup_r _ _ _ _ _ Hm Hi) as (c & Hci & Hw).
    apply list_elem_of_lookup_2 in Hci. apply (IH ctx Γ c TAtom); auto.
    apply (binds_l3_child Γ _ e); [by destruct e|done|done]. }
  destruct e; try done; [| |]; inversion HL; subst.
  - destruct Hc as (Hpar & Hi & Hf). destruct (Hb _ _ Hi) as (b & Hbi & Hok).
    { unfold refs. simpl. rewrite Hpar. set_solver. }
    cbn [scalar_inject_walk] in He. unfold bound_param in He. rewrite Hn, Hpar, Hbi in He.
    destruct b as [b|]; injection He as <-; [done|]. by subst t.
  - destruct Hc as (-> & Hk & Hc).
    destruct (Γ !! Z.to_nat (lfa_fieldSelect_id h)) as [[|ts]|] eqn:HΓ; try done. apply all2_Forall2 in Hc.
    apply inject_lfa_inv in He as (Hr & es & Hes & He). rewrite Hn in Hr.
    destruct (Hb _ _ HΓ) as (b & Hbk & Hok).
    { unfold refs. simpl. rewrite (proj2 (Z.leb_le 0 _)), (proj2 (Z.ltb_lt _ _)) by lia. set_solver. }
    destruct b as [b|]; [|done]. destruct Hok as (le & body & -> & Hbody & Hcb & HLb).
    destruct He as [(p & Hp' & _)|(ch & cb & Hp' & Hla & He)]; rewrite Hbk in Hp'; [by destruct le|].
    destruct le as [lh lex]. injection Hp' as -> ->. injection Hbody as ->.
    apply omapM_Forall2 in Hes. assert (length es = length ts) as Hel.
    { rewrite <- (Forall2_length _ _ _ Hc). symmetry. by eapply Forall2_length. }
    eapply (IH (child_ctx ctx es) ts body TAtom); [done..| |simpl; congruence|exact He].
    intros i t Hi _. simpl. rewrite list_lookup_fmap.
    destruct (Forall2_lookup_r _ _ _ _ _ Hc Hi) as (a & Ha & Hca).
    destruct (Forall2_lookup_l _ _ _ _ _ Hes Ha) as (a' & Ha' & Hwa). rewrite Ha'. eexists. split; [done|].
    apply list_elem_of_lookup_2 in Ha. apply (IH ctx Γ a t); [done| |by eapply binds_l3_child; [| |exact Hb]|done|done].
    match goal with HF : Forall L3 args |- _ => rewrite Forall_forall in HF; by apply HF end.
Qed.

(** an argument of type [t] that is safe to flatten *)
Definition val_l3 (t : sty) (v : option Datum) : Prop :=
  match t with
  | TAtom => True
  | TFun ts => ∃ le, typed_lambda le ts ∧ val_lambda v le ∧ lambda_expr_is_l3_safe (Some le) = true
  end.

Lemma val_l3_ok ts vs : Forall2 val_l3 ts vs → vals_ok ts vs.
Proof.
  intros Hv. eapply Forall2_impl; [exact Hv|]. intros [|ts'] v; [done|]. intros (le & Hty & Hvl & _). by exists le.
Qed.

Lemma is_l3_safe_L3 le : lambda_expr_is_l3_safe (Some le) = true ↔ ∃ e, le_expr le = Some e ∧ L3 e.
Proof.
  simpl. destruct (le_expr le) as [e|]; [|naive_solver]. change (negb _) with (l3 e). rewrite l3_L3. naive_solver.
Qed.
Lemma injected_l3 m ts vs fuel inj :
  typed_lambda m ts → lambda_expr_is_l3_safe (Some m) = true → Forall2 val_l3 ts vs →
  lambda_injector_scalar fuel (Some m) (datum_or_zero <$> vs) (is_null <$> vs) (Z.of_nat (length vs)) = Ok inj →
  lambda_expr_is_l3_safe (Some inj) = true.
Proof.
  intros [_ (b & Hb & Hc)] Hsafe Hv Hinj. apply is_l3_safe_L3 in Hsafe as (b' & Hb' & HL).
  assert (b' = b) as -> by congruence. pose proof (val_l3_ok _ _ Hv) as Hok.
  destruct (full_bindings m b ts vs Hb Hc Hok) as (bs & Hbs & Hbl & Hbind).
  unfold lambda_injector_scalar in Hinj. rewrite Hbs in Hinj. cbn [mbind outcome_bind] in Hinj. rewrite Hb in Hinj.
  apply bind_Ok_inv in Hinj as (e & (e' & He & ->)%fmap_Ok_inv & [= <-]). apply is_l3_safe_L3. exists e'. split; [done|].
  eapply (inline_l3 fuel (mkScalarBind bs (Z.of_nat (length vs)) None 0) ts b TAtom);
    [done..| |simpl; by rewrite (Forall2_length _ _ _ Hv)|exact He].
  intros i t Hi Hr. destruct (Hbind i t Hi Hr) as (v & x & Hvi & Hx & Hbd). exists x. split; [done|].
  destruct Hbd as [[-> ->]|(ts' & le & -> & [_ (c & Hle & Hcc)] & (d & -> & Hd) & ->)]; [done|].
  destruct (Forall2_lookup_l _ _ _ _ _ Hv Hi) as (v' & Hv' & le' & _ & (d' & -> & Hd') & (c' & Hle' & HLc)%is_l3_safe_L3).
  assert (le' = le) as -> by congruence. exists le, c. split_and!; [done..|congruence].
Qed.
End Flatten.

(** The L3 analysis accepts a lambda exactly if its body is built from
    constants, PARAM_EXEC parameters, whitelisted functions and operators, and
    lambda calls whose arguments are so built. *)
Theorem l3_verdict (le : LambdaExpr) :
  lambda_expr_is_l3_safe (Some le) = true ↔ ∃ e, le_expr le = Some e ∧ L3 e.
Proof. apply is_l3_safe_L3. Qed.

(** C36. Flattening keeps L3 safety: if a well-typed mother and every lambda
    passed to it are L3-safe, then the injector returns a lambda, from some fuel
    on always the same, and this lambda is L3-safe. *)
Theorem l3_flatten `{NodeIO} `{!NodeIOLaws} `{TypeCache} `{ExecParams} m ts vs :
  typed_lambda m ts → lambda_expr_is_l3_safe (Some m) = true → Forall2 val_l3 ts vs →
  ∃ inj fuel0, lambda_expr_is_l3_safe (Some inj) = true ∧ ∀ fuel, (fuel0 ≤ fuel)%nat →
    lambda_injector_scalar fuel (Some m) (datum_or_zero <$> vs) (is_null <$> vs) (Z.of_nat (length vs)) = Ok inj.
Proof.
  intros Hm Hsafe Hv. pose proof Hm as [_ (b & Hb & Hc)].
  destruct (injector_scalar_typed m b ts vs Hb Hc (val_l3_ok _ _ Hv)) as (fuel0 & e & _ & Hinj & _).
  exists (mkLambdaExpr (le_hdr m) (Some e)), fuel0. split; [|done]. by eapply injected_l3, (Hinj fuel0).
Qed.

Lemma l3_flatten_witness :
  ∃ inj fuel0, lambda_expr_is_l3_safe (Some inj) = true ∧ ∀ fuel, (fuel0 ≤ fuel)%nat →
    lambda_injector_scalar fuel (Some twice) (datum_or_zero <$> demo_args) (is_null <$> demo_args) 2 = Ok inj.
Proof.
  refine (l3_flatten twice twice_types demo_args twice_typed eq_refl _).
  constructor; [|by constructor]. exists add3. split_and!; [exact add3_typed|apply val_lambda_datum|reflexivity].
Defined.

(** [λ(y). y ^ 2] through a function without a fast path *)
Definition unsafe_arg : LambdaExpr :=
  mkLambdaExpr (demo_names ["y"%string]) (Some (NFuncExpr (mkFuncHdr 1347000 701 0) [NParam (demo_param 0 701)])).

(** The injector keeps the mother's cached verdict: flattening an unsafe lambda
    into a safe mother returns a lambda that is marked safe and is not. *)
Theorem l3_flag_not_combined :
  ∃ inj, lambda_injector_scalar 10 (Some twice)
           [lambda_datum unsafe_arg; DByVal 4] [false; false] 2 = Ok inj
  ∧ l3_safe (le_hdr inj) = true ∧ lambda_expr_is_l3_safe (Some inj) = false.
Proof. eexists. split; [vm_compute; reflexivity|]. by split. Qed.
