(* ===== verification/RowTheorems.v ===== *)
(** * Injection into row-context lambdas

    [lambda_injector] inlines column-stored lambdas into a lambda whose inputs
    are rows: how call targets are resolved, and which calls are left behind. *)

From S2P Require Import Prelude Bitmapset Nodes NodesFacts Serialize Inject InjectFacts Typing Eval EvalFacts.
From S2P Require Import Semantics HoistFacts NodeText Demo.

(** ** Flat argument positions *)

(** the inputs of a lambda, row by row *)
Definition flat_inputs (le : LambdaExpr) : list LambdaInputParam := concat (argtypes (le_hdr le)).

Lemma find_arg_loop_spec rows r c i acc :
  i ≤ r → 0 ≤ acc →
  match rows !! Z.to_nat (r - i) with
  | Some row =>
      if (0 <=? c) && (c <? Z.of_nat (length row)) then
        find_arg_loop rows r c i acc
        = Ok (acc + Z.of_nat (length (concat (take (Z.to_nat (r - i)) rows))) + c)
      else is_Ok (find_arg_loop rows r c i acc) = false
  | None => is_Ok (find_arg_loop rows r c i acc) = false
  end.
Proof.
  revert i acc; induction rows as [|row rows IH]; intros i acc Hi Hacc; [by rewrite lookup_nil|].
  cbn [find_arg_loop]. destruct (Z.eqb_spec r i) as [->|Hne].
  - rewrite Z.sub_diag. simpl. rewrite Z.geb_leb.
    destruct (Z.leb_spec 0 c), (Z.ltb_spec c (Z.of_nat (length row))), (Z.leb_spec (Z.of_nat (length row)) c),
      (Z.ltb_spec c 0); try lia; simpl; try done. f_equal. lia.
  - specialize (IH (i + 1) (acc + Z.of_nat (length row)) ltac:(lia) ltac:(lia)).
    replace (Z.to_nat (r - i)) with (S (Z.to_nat (r - (i + 1)))) by lia. simpl.
    destruct (rows !! Z.to_nat (r - (i + 1))) as [row'|]; [|done].
    destruct (_ && _); [|done]. rewrite IH. f_equal. rewrite length_app. lia.
Qed.

Lemma concat_take_lookup {A} (rows : list (list A)) r row c :
  rows !! r = Some row → (c < length row)%nat →
  concat rows !! (length (concat (take r rows)) + c)%nat = row !! c.
Proof.
  revert r; induction rows as [|x rows IH]; intros [|r] Hr Hc; try done; simpl in *.
  - injection Hr as ->. by rewrite lookup_app_l.
  - rewrite length_app, lookup_app_r by lia. rewrite <- (IH r Hr Hc). f_equal. lia.
Qed.

(** [find_arg_from_rowAlias_colId] computes the position of column [c] of
    row [r] in the row-by-row list of all inputs, and raises an error exactly
    if there is no such row or column. *)
Theorem find_arg_flat (le : LambdaExpr) (r c : Z) :
  0 ≤ r →
  match argtypes (le_hdr le) !! Z.to_nat r with
  | Some row =>
      if (0 <=? c) && (c <? Z.of_nat (length row)) then
        ∃ k, find_arg_from_rowAlias_colId le r c = Ok (Z.of_nat k) ∧ flat_inputs le !! k = row !! Z.to_nat c
      else is_Ok (find_arg_from_rowAlias_colId le r c) = false
  | None => is_Ok (find_arg_from_rowAlias_colId le r c) = false
  end.
Proof.
  intros Hr. pose proof (find_arg_loop_spec (argtypes (le_hdr le)) r c 0 0 Hr ltac:(lia)) as H.
  rewrite Z.sub_0_r in H. unfold find_arg_from_rowAlias_colId, flat_inputs.
  destruct (_ !! Z.to_nat r) as [row|] eqn:Hrow; [|done].
  destruct ((0 <=? c) && (c <? Z.of_nat (length row))) eqn:Hc; [|done].
  apply andb_prop in Hc as [H0%Z.leb_le H1%Z.ltb_lt]. rewrite H.
  exists (length (concat (take (Z.to_nat r) (argtypes (le_hdr le)))) + Z.to_nat c)%nat.
  split; [f_equal; lia|]. apply concat_take_lookup; [done|lia].
Qed.

Definition demo_input (atomic : bool) (name : string) : LambdaInputParam :=
  mkLambdaInputParam [lit name] 701 atomic [] 0.

(** [λ(a, b). ...] over two rows: [a(x)] and [b(f)], [f] a function *)
Definition row_hdr : LambdaHdr :=
  {| lambdakind := LAMBDA_ROW_CONTEXT; argnames := [lit "a"; lit "b"];
     argtypes := [[demo_input true "x"]; [demo_input false "f"]]; rettype := 701;
     rettypmod := -1; lambdatypmod := -1; is_strict := false; l3_safe := false |}.

Definition row_x : Node := NFieldSelect 1 701 (NParam (mkParam PARAM_EXTERN 1 2249 (-1) 0 true)).
Definition row_f (args : list Node) : Node :=
  NLambdaFuncAliasExpr (mkLfaHdr [lit "b"; lit "f"] 701 2 1 (-1)) args.

Definition row_once : LambdaExpr := mkLambdaExpr row_hdr (Some (row_f [row_x])).
Definition row_nested : LambdaExpr := mkLambdaExpr row_hdr (Some (row_f [row_f [row_x]])).

Lemma find_arg_flat_witness :
  ∃ k, find_arg_from_rowAlias_colId row_once 1 0 = Ok (Z.of_nat k)
       ∧ flat_inputs row_once !! k = Some (demo_input false "f").
Proof. exact (find_arg_flat row_once 1 0 ltac:(lia)). Defined.

(** Nested calls are not flattened: in [b.f(b.f(a.x))] the inner call, an
    argument of the outer one, is copied into the result unchanged, while
    [b.f(a.x)] is flattened completely. *)
Example nested_call_left_behind :
  (∃ inj, lambda_injector 10 (Some row_once) [[]; [lambda_datum add3]] = Ok inj
          ∧ lambda_body_has_lfa (Some inj) = false)
  ∧ ∃ inj, lambda_injector 10 (Some row_nested) [[]; [lambda_datum add3]] = Ok inj
           ∧ le_expr inj = Some (demo_plus (row_f [row_x]) (demo_int 3))
           ∧ lambda_body_has_lfa (Some inj) = true.
Proof.
  split; eexists; (split; [vm_compute; reflexivity|]); [reflexivity|]. split; reflexivity.
Qed.
