(* ===== verification/ParseLambda.v ===== *)
(** * Parse analysis of lambdas and lambda calls

    The parts of [backend/parser] that turn the grammar's output into the
    expression trees the executor runs: lambda literals of a VALUES list
    ([transformLambdaExpr], [transformExpressionList]), references to a
    lambda's inputs ([LambdaColumnRefHookOutsideUDF], [LambdaColumnRefHook]),
    calls of a function input, of a lambda column, and partial applications
    ([transformFuncCall], [ParseFuncOrColumn], [LookUpFuncNameAsLambda]), and
    the expressions around them.

    Looking up functions, operators, columns and casts in the system catalogs
    is a parameter.  Source positions, sublinks, named, variadic and default
    arguments, aggregates and set-returning functions are left out, and
    [transform_null_equals] is off, as by default; the collation fields of the
    nodes are zero, as the parser leaves them to a later pass. *)

From S2P Require Import Prelude LambdaSig Bitmapset Nodes Serialize Inject.

Definition UNKNOWNOID : Oid := 705.
Definition VOIDOID : Oid := 2278.
Definition INT4OID : Oid := 23.
Definition INT8OID : Oid := 20.
Definition NUMERICOID : Oid := 1700.
Definition BITOID : Oid := 1560.
Definition RECORDOID : Oid := 2249.

(** ** The grammar's output *)

Inductive A_Const :=
| ConstNull
| ConstInteger (ival : Z)
| ConstFloat (fval : cstr)
| ConstBoolean (boolval : bool)
| ConstString (sval : cstr)
| ConstBitString (bsval : cstr).

#[local] Unset Elimination Schemes.
Inductive RawExpr :=
| RColumnRef (fields : list cstr)
| RConst (val : A_Const)
| RFuncCall (funcname : list cstr) (args : list RawExpr)
| ROp (name : list cstr) (lexpr : option RawExpr) (rexpr : RawExpr)
| RBoolExpr (boolop : BoolExprType) (args : list RawExpr)
| RNullTest (nulltesttype : NullTestType) (arg : RawExpr)
| RBooleanTest (booltesttype : BoolTestType) (arg : RawExpr)
| RCaseExpr (whens : list (RawExpr * RawExpr)) (defresult : option RawExpr)
| RCoalesceExpr (args : list RawExpr)
| RMinMaxExpr (op : MinMaxOp) (args : list RawExpr).
#[local] Set Elimination Schemes.

(** a [LambdaExpr] before analysis *)
Record RawLambda := mkRawLambda { rl_hdr : LambdaHdr; rl_body : RawExpr }.

Definition makeLambdaExpr (args : list cstr) (types : list (list LambdaInputParam)) (expr : RawExpr) (kind : LambdaKind) : RawLambda :=
  mkRawLambda (mkLambdaHdr kind args types InvalidOid 0 (-1) false false) expr.

(** ** State and environment *)

Record TupleAttr := mkTupleAttr { ta_name : cstr; ta_num : Z; ta_typid : Oid; ta_typmod : Z }.

(** what analysis changes: the catalog of signatures and two flags of the query *)
Record PState := mkPState {
  ps_sigs : pg_lambdasig;
  p_hasLambdaCall : bool;
  p_hasHigherOrderLambda : bool
}.

Inductive ColumnRefHook := HookNone | HookInsideUDF | HookOutsideUDF.

Record LambdaContext := mkLambdaContext { targetattno : Z; targettypmod : Z }.

(** the fields of [ParseState] that are set on the way down *)
Record ParseEnv := mkEnv {
  p_in_lambda : bool;                 (** [p_expr_kind] is [EXPR_KIND_LAMBDA_EXPRESSION] *)
  p_hook : ColumnRefHook;             (** [p_pre_columnref_hook] *)
  p_current_lambda : option (LambdaHdr * list (list TupleAttr));
                                      (** with its [argTypesTupDesc] *)
  p_lambdacontext : option LambdaContext;
  p_target_desc : option (list TupleAttr)
                                      (** of [p_target_relation], if there is one *)
}.

Definition parser (A : Type) : Type := PState → outcome (A * PState).

#[export] Instance parser_ret : MRet parser := fun A a st => Ok (a, st).
#[export] Instance parser_bind : MBind parser := fun A B k m st => r ← m st; k r.1 r.2.

Definition lift {A} (m : outcome A) : parser A := fun st => a ← m; Ok (a, st).

Section MapM.
Context {A B : Type} (f : A → parser B).

Fixpoint pmapM (l : list A) : parser (list B) :=
  match l with
  | [] => mret []
  | x :: l => y ← f x; ys ← pmapM l; mret (y :: ys)
  end.
End MapM.

(** ** Catalog lookups *)

Inductive FuncDetail :=
| FUNCDETAIL_NOTFOUND
| FUNCDETAIL_NORMAL (fd_funcid fd_rettype : Oid) (fd_declared : list Oid)
| FUNCDETAIL_COERCION (fd_rettype : Oid)
| FUNCDETAIL_LAMBDA.

Record OperForm := mkOperForm { oprid : Oid; oprcode : Oid; oprleft : Oid; oprright : Oid; oprresult : Oid }.

Class ParseParams := {
  pg_type : Z → option pg_type_form;
  format_type_be : Z → cstr;
  GetNewOidWithIndex : pg_lambdasig → Z;
  get_typcollation : Oid → Oid;
  (** whether [FuncnameGetCandidates] finds a function of this name and number of arguments *)
  func_candidates : list cstr → Z → bool;
  (** [func_get_detail] from the exact match on *)
  func_detail : list cstr → list Node → list Oid → outcome FuncDetail;
  (** [ParseComplexProjection], where the argument's type allows it *)
  complex_projection : cstr → Node → Oid → outcome (option Node);
  (** [oper], or [left_oper] without a left type; the operator is no shell *)
  oper : list cstr → Oid → Oid → outcome OperForm;
  enforce_generic_type_consistency : list Oid → list Oid → Oid → outcome (list Oid * Oid);
  (** the contexts are explicit, assignment and implicit casts *)
  can_coerce_type : Z → Oid → Oid → bool;
  coerce_type : Z → Node → Oid → Oid → outcome Node;
  select_common_type : list Node → cstr → outcome Oid;
  (** the readers of literals, and the typmod of an expression *)
  pg_strtoint64_safe : cstr → option Z;
  numeric_in : cstr → outcome cstr;
  bit_in : cstr → outcome cstr;
  exprTypmod : Node → Z;
  (** [refnameNamespaceItem] and [scanNSItemForColumn], for a visible column *)
  column_var : cstr → cstr → outcome (option Var);
  (** the rest of [transformColumnRef] *)
  column_ref : list cstr → outcome Node
}.

Definition COERCION_IMPLICIT : Z := 0.
Definition COERCION_ASSIGNMENT : Z := 1.
Definition COERCION_EXPLICIT : Z := 3.

Section Parse.
Context `{NIO : NodeIO} `{PP : ParseParams}.

(** ** Constants and casts *)

Definition make_const (aconst : A_Const) : outcome Const :=
  match aconst with
  | ConstNull => Ok (mkConst UNKNOWNOID (-1) InvalidOid (-2) (DByVal 0) true false)
  | ConstInteger ival => Ok (mkConst INT4OID (-1) InvalidOid 4 (DByVal ival) false true)
  | ConstFloat fval =>
      match pg_strtoint64_safe fval with
      | Some val64 =>
          if val64 =? int32 val64 then Ok (mkConst INT4OID (-1) InvalidOid 4 (DByVal val64) false true)
          else Ok (mkConst INT8OID (-1) InvalidOid 8 (DByVal val64) false true)
      | None => val ← numeric_in fval; Ok (mkConst NUMERICOID (-1) InvalidOid (-1) (DVarlena (VRaw val)) false false)
      end
  | ConstBoolean b => Ok (mkConst BOOLOID (-1) InvalidOid 1 (DByVal (Z.b2z b)) false true)
  | ConstString s => Ok (mkConst UNKNOWNOID (-1) InvalidOid (-2) (DVarlena (VRaw s)) false false)
  | ConstBitString s => val ← bit_in s; Ok (mkConst BITOID (-1) InvalidOid (-1) (DVarlena (VRaw val)) false false)
  end.

(** without a typmod; [None] if there is no cast *)
Definition coerce_to_target_type (expr : Node) (exprtype targettype : Oid) (ccontext : Z) : outcome (option Node) :=
  if can_coerce_type ccontext exprtype targettype
  then result ← coerce_type ccontext expr exprtype targettype; Ok (Some result)
  else Ok None.

Definition coerce_to_boolean (node : Node) (constructName : cstr) : outcome Node :=
  inputTypeId ← exprType node;
  if inputTypeId =? BOOLOID then Ok node
  else
    newnode ← coerce_to_target_type node inputTypeId BOOLOID COERCION_ASSIGNMENT;
    match newnode with
    | Some newnode => Ok newnode
    | None =>
        ereport ERRCODE_DATATYPE_MISMATCH
          (lit "argument of " ++ constructName ++ lit " must be type boolean, not type " ++ format_type_be inputTypeId)
    end.

Definition coerce_to_common_type (targetTypeId : Oid) (context : cstr) (node : Node) : outcome Node :=
  inputTypeId ← exprType node;
  if inputTypeId =? targetTypeId then Ok node
  else if can_coerce_type COERCION_IMPLICIT inputTypeId targetTypeId
  then coerce_type COERCION_IMPLICIT node inputTypeId targetTypeId
  else
    ereport ERRCODE_CANNOT_COERCE
      (context ++ lit " could not convert type " ++ format_type_be inputTypeId ++ lit " to " ++ format_type_be targetTypeId).

(** the arrays are as long as the list of arguments *)
Fixpoint make_fn_arguments (fargs : list Node) (actual declared : list Oid) : outcome (list Node) :=
  match fargs, actual, declared with
  | node :: fargs, a :: actual, d :: declared =>
      node ← (if a =? d then Ok node else coerce_type COERCION_IMPLICIT node a d);
      rest ← make_fn_arguments fargs actual declared;
      Ok (node :: rest)
  | [], _, _ => Ok []
  | _, _, _ => UB
  end.

Definition make_op (opname : list cstr) (ltree : option Node) (rtree : Node) : outcome Node :=
  ltypeId ← (match ltree with None => Ok InvalidOid | Some l => exprType l end);
  rtypeId ← exprType rtree;
  opform ← oper opname ltypeId rtypeId;
  let '(args, actual, declared) :=
    match ltree with
    | None => ([rtree], [rtypeId], [oprright opform])
    | Some l => ([l; rtree], [ltypeId; rtypeId], [oprleft opform; oprright opform])
    end in
  r ← enforce_generic_type_consistency actual declared (oprresult opform);
  args ← make_fn_arguments args actual r.1;
  Ok (NOpExpr (mkOpHdr (oprid opform) (oprcode opform) r.2 InvalidOid) args).

(** ** References to inputs *)

Fixpoint list_index (l : list cstr) (datum : cstr) : option nat :=
  match l with
  | [] => None
  | x :: l => if bool_decide (x = datum) then Some 0%nat else S <$> list_index l datum
  end.

(** the signature of the column that a VALUES item is taken for *)
Definition target_signature (env : ParseEnv) : parser LambdaSignature := fun st =>
  l_ctx ← deref (p_lambdacontext env);
  desc ← deref (p_target_desc env);
  pg_attr ← deref (desc !! Z.to_nat (targetattno l_ctx));
  sig ← LambdaSigGetSignature pg_type (ps_sigs st) (ta_typmod pg_attr);
  Ok (sig, st).

Definition sigtype_is_function (t : LambdaSigType) : bool := let 'mkSigType f _ _ _ := t in f.
Definition sigtype_oid (t : LambdaSigType) : Oid := let 'mkSigType _ oid _ _ := t in oid.
Definition sigtype_signature (t : LambdaSigType) : option LambdaSignature := let 'mkSigType _ _ s _ := t in s.

(** the typmod of an atomic input is left at zero *)
Definition LambdaColumnRefHookOutsideUDF (env : ParseEnv) (fields : list cstr) : parser Node :=
  match fields with
  | [varName] =>
      cur ← lift (deref (p_current_lambda env));
      match list_index (argnames cur.1) varName with
      | None =>
          lift (ereport ERRCODE_INVALID_COLUMN_REFERENCE (lit "variable not found in lambda expressions signature!"))
      | Some idx1 =>
          sig ← target_signature env;
          attr ← lift (deref (LambdaSig.argtypes sig !! idx1));
          mret (NParam (if sigtype_is_function attr
                        then mkParam PARAM_EXEC (Z.of_nat idx1) LAMBDAOID (-1) InvalidOid true
                        else mkParam PARAM_EXEC (Z.of_nat idx1) (sigtype_oid attr) 0 InvalidOid true))
      end
  | _ => lift (ereport ERRCODE_INVALID_COLUMN_REFERENCE (lit "invalid column reference inside lambda expression"))
  end.

Definition quoted (s : cstr) : cstr := [ch 34] ++ s ++ [ch 34].

(** a reference to a column of an input row of a lambda that is passed to a table function *)
Definition LambdaColumnRefHook (env : ParseEnv) (fields : list cstr) : outcome Node :=
  match fields with
  | [rowAlias; colName] =>
      cur ← deref (p_current_lambda env);
      match list_index (argnames cur.1) rowAlias ≫= (fun idx1 => pair idx1 <$> cur.2 !! idx1) with
      | None =>
          ereport ERRCODE_INVALID_COLUMN_REFERENCE
            (lit "[LambdaColumRefHook]: illegal rowAlias " ++ quoted rowAlias ++ lit " in top-level lambda expression")
      | Some (idx1, input_of_lambda) =>
          match list_find (fun a => ta_name a = colName) input_of_lambda with
          | None =>
              ereport ERRCODE_INVALID_COLUMN_REFERENCE
                (lit "[LambdaColumRefHook]: column " ++ quoted colName ++ lit " does not exist")
          | Some (idx2, attr) =>
              arg_type ← get_input_param_from_name (Some (mkLambdaExpr cur.1 None)) fields;
              match arg_type with
              | None =>
                  ereport ERRCODE_INVALID_PARAMETER_VALUE
                    (lit "[LambdaColumRefHook]: input " ++ quoted rowAlias ++ lit "." ++ quoted colName ++ lit " does not exist")
              | Some arg_type =>
                  if negb (lip_isAtomic arg_type) then
                    Ok (NLambdaFuncAliasExpr
                          (mkLfaHdr fields (lip_type arg_type) (Z.of_nat idx1 + 1) (Z.of_nat idx2 + 1) (-1)) [])
                  else
                    Ok (NFieldSelect (ta_num attr) (ta_typid attr)
                          (NParam (mkParam PARAM_EXTERN (Z.of_nat idx1 + 1) RECORDOID 0 InvalidOid true)))
              end
          end
      end
  | _ =>
      ereport ERRCODE_INVALID_COLUMN_REFERENCE
        (lit "[LambdaColumRefHook]: invalid column reference inside lambda expression")
  end.

(** neither hook returns NULL *)
Definition transformColumnRef (env : ParseEnv) (fields : list cstr) : parser Node :=
  match p_hook env with
  | HookOutsideUDF => LambdaColumnRefHookOutsideUDF env fields
  | HookInsideUDF => lift (LambdaColumnRefHook env fields)
  | HookNone => lift (column_ref fields)
  end.

(** ** Function calls *)

Definition LookUpFuncNameAsLambda (funcname : list cstr) : outcome (option Var) :=
  match funcname with
  | [refname; colname] =>
      var ← column_var refname colname;
      match var with
      | None => Ok None
      | Some var =>
          if negb (vartype var =? LAMBDAOID) then Ok None
          else if vartypmod var <? 0 then
            ereport ERRCODE_DATATYPE_MISMATCH
              (lit "lambda column " ++ quoted (refname ++ lit "." ++ colname) ++ lit " has no stored lambda signature")
          else Ok (Some var)
      end
  | _ => Ok None
  end.

Definition LAMBDA_PASS_TO_FUNC_DETAIL : cstr := lit "lambda-prefix-string-check".
Definition LAMBDA_PASS_TO_FUNC_DETAIL_ON_MATCH : cstr := lit "lambda-prefix-string-on-matching-table-name".

Definition pg_tolower (c : ascii) : ascii := if (65 <=? code c) && (code c <=? 90) then ch (code c + 32) else c.
Definition pg_strcaseeq (a b : cstr) : bool := bool_decide (pg_tolower <$> a = pg_tolower <$> b).

(** a prefix of the name tells whether the caller has found a lambda of that
    name; it is deleted from the list, which the caller sees *)
Definition delete_prefix (funcname : list cstr) : (bool * bool) * list cstr :=
  match funcname with
  | prefix :: rest =>
      if pg_strcaseeq LAMBDA_PASS_TO_FUNC_DETAIL prefix then ((true, false), rest)
      else if pg_strcaseeq LAMBDA_PASS_TO_FUNC_DETAIL_ON_MATCH prefix then ((true, true), rest)
      else ((false, false), funcname)
  | [] => ((false, false), [])
  end.

Definition func_get_detail (funcname : list cstr) (fargs : list Node) (argtypes : list Oid) : outcome FuncDetail :=
  let '((in_lambda_ctx, lambda_column_matched), funcname) := delete_prefix funcname in
  let raw_candidates := func_candidates funcname (Z.of_nat (length argtypes)) in
  if in_lambda_ctx && raw_candidates then
    ereport ERRCODE_AMBIGUOUS_FUNCTION
      (lit "[func_get_detail] lambda function name " ++ quoted (NameListToString funcname)
       ++ lit " collides with existing function namespace")
  else if in_lambda_ctx && lambda_column_matched then Ok FUNCDETAIL_LAMBDA
  else func_detail funcname fargs argtypes.

(** arguments with their types; a hole has none *)
Fixpoint farg_types (fargs : list Node) : outcome (list (Node * Oid)) :=
  match fargs with
  | [] => Ok []
  | NHolePlaceholder :: fargs => rest ← farg_types fargs; Ok ((NHolePlaceholder, UNKNOWNOID) :: rest)
  | arg :: fargs =>
      argtype ← exprType arg;
      rest ← farg_types fargs;
      Ok (if (argtype =? VOIDOID) && (match arg with NParam _ => true | _ => false end) then rest else (arg, argtype) :: rest)
  end.

Definition is_hole (n : Node) : bool := match n with NHolePlaceholder => true | _ => false end.

(** a call of one of the current lambda's inputs *)
Inductive InputMatch :=
| NoInput
| MatchingInput (param : LambdaInputParam) (rowIdx colIdx : nat)
| MatchingSigType (attr : LambdaSigType) (idx : nat).

(** the first column of the row with this name; the second part of the name is
    read only when there is a name to compare it with *)
Fixpoint match_row_input (field : option cstr) (params : list LambdaInputParam) (rowIdx colIdx : nat) : outcome InputMatch :=
  match params with
  | [] => Ok NoInput
  | param :: params =>
      match lip_name param with
      | [pname] =>
          field' ← deref field;
          if bool_decide (pname = field') then Ok (MatchingInput param rowIdx colIdx)
          else match_row_input field params rowIdx (S colIdx)
      | _ => match_row_input field params rowIdx (S colIdx)
      end
  end.

Definition match_input (env : ParseEnv) (funcname : list cstr) : parser InputMatch :=
  match p_in_lambda env, p_current_lambda env with
  | true, Some (lambda, _) =>
      name ← lift (deref (head funcname));
      match list_index (argnames lambda) name with
      | None => mret NoInput
      | Some arg_idx =>
          match lambdakind lambda with
          | LAMBDA_ROW_CONTEXT =>
              lift (params ← deref (argtypes lambda !! arg_idx);
                    match_row_input (funcname !! 1%nat) params arg_idx 0)
          | LAMBDA_SCALAR_CONTEXT =>
              sig ← target_signature env;
              attr ← lift (deref (LambdaSig.argtypes sig !! arg_idx));
              mret (MatchingSigType attr arg_idx)
          end
      end
  | _, _ => mret NoInput
  end.

(** the types an input declares, in an array of as many entries as the call has
    arguments *)
Definition declared_array (nargs : nat) (types : list Oid) : outcome (list Oid) :=
  if (length types <=? nargs)%nat then Ok (types ++ repeat InvalidOid (nargs - length types)) else UB.

Definition input_types (m : InputMatch) : outcome (list Oid * Oid) :=
  match m with
  | MatchingInput param _ _ =>
      Ok ((fun input => if lip_isAtomic input then lip_type input else LAMBDAOID) <$> lip_input_types param, lip_type param)
  | MatchingSigType attr _ =>
      sig ← deref (sigtype_signature attr);
      ret ← deref (LambdaSig.rettype sig);
      Ok ((fun input => if sigtype_is_function input then LAMBDAOID else sigtype_oid input) <$> LambdaSig.argtypes sig,
          sigtype_oid ret)
  | NoInput => UB
  end.

(** an input passed by name counts as a lambda *)
Definition by_name_type (arg : Node) (actual declared : Oid) : Oid :=
  match arg with
  | NLambdaFuncAliasExpr _ [] => if declared =? LAMBDAOID then LAMBDAOID else actual
  | _ => actual
  end.

(** ** Calls of a lambda column *)

(** the filled arguments, coerced, and the held positions *)
Fixpoint lambda_call_args (i : Z) (heldargs : Bitmapset) (fargs : list (Node * Oid)) (types : list LambdaSigType)
    : outcome (list Node * Bitmapset) :=
  match fargs, types with
  | (arg, actual) :: fargs, argtyp :: types =>
      if is_hole arg then
        heldargs ← bms_add_member heldargs i;
        lambda_call_args (i + 1) heldargs fargs types
      else
        coerced ←
          (if sigtype_is_function argtyp then
             if negb (actual =? LAMBDAOID) then
               ereport ERRCODE_DATATYPE_MISMATCH (lit "lambda argument " ++ fmt_d (i + 1) ++ lit " expects a lambda value")
             else Ok arg
           else
             r ← coerce_to_target_type arg actual (sigtype_oid argtyp) COERCION_ASSIGNMENT;
             match r with
             | Some coerced => Ok coerced
             | None =>
                 ereport ERRCODE_DATATYPE_MISMATCH
                   (lit "lambda argument " ++ fmt_d (i + 1) ++ lit " cannot be coerced to type " ++ format_type_be (sigtype_oid argtyp))
             end);
        r ← lambda_call_args (i + 1) heldargs fargs types;
        Ok (coerced :: r.1, r.2)
  | _, _ => Ok ([], heldargs)
  end.

(** the argument types at the holes *)
Fixpoint residual_argtypes (fargs : list Node) (types : list LambdaSigType) : list LambdaSigType :=
  match fargs, types with
  | arg :: fargs, t :: types => if is_hole arg then t :: residual_argtypes fargs types else residual_argtypes fargs types
  | _, _ => []
  end.

Definition set_lambda_flags (actual_arg_types : list Oid) : parser () := fun st =>
  Ok ((), mkPState (ps_sigs st) true (p_hasHigherOrderLambda st || existsb (Z.eqb LAMBDAOID) actual_arg_types)).

Definition make_lambda_call (matched : Var) (fargs : list (Node * Oid)) : parser Node :=
  sig_match ← (fun st => s ← LambdaSigGetSignature pg_type (ps_sigs st) (vartypmod matched); Ok (s, st));
  if negb (length (LambdaSig.argtypes sig_match) =? length fargs)%nat then
    lift (ereport ERRCODE_INVALID_PARAMETER_VALUE
            (lit "lambda expects " ++ fmt_d (Z.of_nat (length (LambdaSig.argtypes sig_match))) ++ lit " arguments, got "
             ++ fmt_d (Z.of_nat (length fargs))))
  else
    r ← lift (lambda_call_args 0 None fargs (LambdaSig.argtypes sig_match));
    ret ← lift (deref (LambdaSig.rettype sig_match));
    if existsb is_hole fargs.*1 then
      let residual := mkSignature (residual_argtypes fargs.*1 (LambdaSig.argtypes sig_match)) (LambdaSig.rettype sig_match) 0 in
      restypmod ← (fun st => c ← LambdaSigCreateFromSignature pg_type format_type_be GetNewOidWithIndex (ps_sigs st) (Some residual);
                             Ok (c.1, mkPState c.2 (p_hasLambdaCall st) (p_hasHigherOrderLambda st)));
      _ ← set_lambda_flags fargs.*2;
      mret (NCallLambdaExpr (mkCallHdr r.2 LAMBDAOID restypmod (get_typcollation LAMBDAOID) (vartypmod matched)) (NVar matched) r.1)
    else if sigtype_is_function ret then
      lift (ereport ERRCODE_FEATURE_NOT_SUPPORTED (lit "currently, called lambda functions cannot return lambda functions"))
    else
      _ ← set_lambda_flags fargs.*2;
      mret (NCallLambdaExpr (mkCallHdr None (sigtype_oid ret) (-1) (get_typcollation (sigtype_oid ret)) (vartypmod matched))
              (NVar matched) r.1).

(** ** [ParseFuncOrColumn] *)

Definition too_many_arguments : cstr := lit "cannot pass more than " ++ fmt_d FUNC_MAX_ARGS ++ lit " arguments to a function".

Fixpoint type_names (types : list Oid) : cstr :=
  match types with
  | [] => []
  | [t] => format_type_be t
  | t :: types => format_type_be t ++ lit ", " ++ type_names types
  end.

Definition func_signature_string (funcname : list cstr) (argtypes : list Oid) : cstr :=
  NameListToString funcname ++ lit "(" ++ type_names argtypes ++ lit ")".

(** a hole outside of a lambda call is the column "_" after all *)
Definition reread_hole (env : ParseEnv) (farg : Node * Oid) : parser (Node * Oid) :=
  if is_hole farg.1 then
    arg ← transformColumnRef env [lit "_"];
    t ← lift (exprType arg);
    mret (arg, t)
  else mret farg.

Definition is_matched (m : InputMatch) : bool := match m with NoInput => false | _ => true end.

(** the node of a call, once its arguments are cast *)
Definition call_node (m : InputMatch) (funcname : list cstr) (funcid rettype : Oid) (fargs : list Node) : Node :=
  match m with
  | MatchingInput _ rowIdx colIdx =>
      NLambdaFuncAliasExpr (mkLfaHdr funcname rettype (Z.of_nat rowIdx + 1) (Z.of_nat colIdx + 1) (-1)) fargs
  | MatchingSigType _ idx => NLambdaFuncAliasExpr (mkLfaHdr funcname rettype 1 (Z.of_nat idx) (-1)) fargs
  | NoInput => NFuncExpr (mkFuncHdr funcid rettype InvalidOid) fargs
  end.

(** casts of the arguments of an input or of a function *)
Definition finish_call (m : InputMatch) (funcname : list cstr) (funcid rettype : Oid) (declared : list Oid)
    (fargs : list (Node * Oid)) : outcome Node :=
  let actual := zip_with (fun f d => by_name_type f.1 f.2 d) fargs declared in
  r ← enforce_generic_type_consistency actual declared rettype;
  fargs ← make_fn_arguments fargs.*1 actual r.1;
  Ok (call_node m funcname funcid r.2 fargs).

(** [lcons] prepends to the list in place: the lookup of a lambda column sees the
    prefix of a matching input, and [func_get_detail] deletes a prefix from the
    list of names the rest goes on with *)
Definition ParseFuncOrColumn (env : ParseEnv) (funcname : list cstr) (fargs : list Node) : parser Node :=
  if Z.of_nat (length fargs) >? FUNC_MAX_ARGS then lift (ereport ERRCODE_TOO_MANY_ARGUMENTS too_many_arguments)
  else
    fargs ← lift (farg_types fargs);
    m ← match_input env funcname;
    let one_name := (length funcname =? 1)%nat in
    let funcname := if is_matched m then LAMBDA_PASS_TO_FUNC_DETAIL :: funcname else funcname in
    lambda ← lift (LookUpFuncNameAsLambda funcname);
    let funcname := match lambda with Some _ => LAMBDA_PASS_TO_FUNC_DETAIL_ON_MATCH :: funcname | None => funcname end in
    fargs ← (if existsb is_hole fargs.*1 then
               if is_matched m then
                 lift (ereport ERRCODE_FEATURE_NOT_SUPPORTED (lit "partial application of a lambda function input is not supported"))
               else match lambda with Some _ => mret fargs | None => pmapM (reread_hole env) fargs end
             else mret fargs);
    fdresult ← lift (func_get_detail funcname fargs.*1 fargs.*2);
    let funcname := (delete_prefix funcname).2 in
    match fdresult with
    | FUNCDETAIL_COERCION rettype =>
        first_arg ← lift (deref (head fargs));
        lift (coerce_type COERCION_EXPLICIT first_arg.1 first_arg.2 rettype)
    | FUNCDETAIL_LAMBDA =>
        if is_matched m then
          d ← lift (input_types m);
          declared ← lift (declared_array (length fargs) d.1);
          lift (finish_call m funcname InvalidOid d.2 declared fargs)
        else
          matched ← lift (deref lambda);
          make_lambda_call matched fargs
    | FUNCDETAIL_NORMAL funcid rettype declared =>
        if is_matched m then
          d ← lift (input_types m);
          declared ← lift (declared_array (length fargs) d.1);
          lift (finish_call m funcname funcid d.2 declared fargs)
        else lift (finish_call m funcname funcid rettype declared fargs)
    | FUNCDETAIL_NOTFOUND =>
        proj ← lift (match one_name, fargs with
                     | true, [(arg, t)] => name ← deref (head funcname); complex_projection name arg t
                     | _, _ => Ok None
                     end);
        match proj with
        | Some node => mret node
        | None =>
            if is_matched m then
              d ← lift (input_types m);
              declared ← lift (declared_array (length fargs) d.1);
              lift (finish_call m funcname InvalidOid d.2 declared fargs)
            else
              lift (ereport ERRCODE_UNDEFINED_FUNCTION (lit "function " ++ func_signature_string funcname fargs.*2 ++ lit " does not exist"))
        end
    end.

(** ** Expressions *)

Section Expressions.
Context (env : ParseEnv) (transform : RawExpr → parser Node).

Definition is_underscore (arg : RawExpr) : bool :=
  match arg with RColumnRef [name] => bool_decide (name = lit "_") | _ => false end.

(** the argument "_" is read as a hole *)
Definition transformFuncCall (funcname : list cstr) (args : list RawExpr) : parser Node :=
  targs ← pmapM (fun arg => if is_underscore arg then mret NHolePlaceholder else transform arg) args;
  ParseFuncOrColumn env funcname targs.

Definition transformAExprOp (name : list cstr) (lexpr : option RawExpr) (rexpr : RawExpr) : parser Node :=
  lexpr ← match lexpr with None => mret None | Some lexpr => l ← transform lexpr; mret (Some l) end;
  rexpr ← transform rexpr;
  lift (make_op name lexpr rexpr).

Definition boolop_name (boolop : BoolExprType) : cstr :=
  match boolop with AND_EXPR => lit "AND" | OR_EXPR => lit "OR" | NOT_EXPR => lit "NOT" end.

Definition transformBoolExpr (boolop : BoolExprType) (args : list RawExpr) : parser Node :=
  args ← pmapM (fun arg => arg ← transform arg; lift (coerce_to_boolean arg (boolop_name boolop))) args;
  mret (NBoolExpr boolop args).

Definition clausename (booltesttype : BoolTestType) : cstr :=
  match booltesttype with
  | IS_TRUE => lit "IS TRUE"
  | IS_NOT_TRUE => lit "IS NOT TRUE"
  | IS_FALSE => lit "IS FALSE"
  | IS_NOT_FALSE => lit "IS NOT FALSE"
  | IS_UNKNOWN => lit "IS UNKNOWN"
  | IS_NOT_UNKNOWN => lit "IS NOT UNKNOWN"
  end.

Definition transformBooleanTest (booltesttype : BoolTestType) (arg : RawExpr) : parser Node :=
  arg ← transform arg;
  arg ← lift (coerce_to_boolean arg (clausename booltesttype));
  mret (NBooleanTest booltesttype arg).

Definition transformCaseWhen (w : RawExpr * RawExpr) : parser (Node * Node) :=
  expr ← transform w.1;
  expr ← lift (coerce_to_boolean expr (lit "CASE/WHEN"));
  result ← transform w.2;
  mret (expr, result).

(** the form without a test expression; the default result comes first when
    the type is chosen *)
Definition transformCaseExpr (whens : list (RawExpr * RawExpr)) (defresult : option RawExpr) : parser Node :=
  newargs ← pmapM transformCaseWhen whens;
  newdef ← match defresult with
           | None => n ← lift (make_const ConstNull); mret (NConst n)
           | Some def => transform def
           end;
  ptype ← lift (select_common_type (newdef :: newargs.*2) (lit "CASE"));
  newdef ← lift (coerce_to_common_type ptype (lit "CASE/ELSE") newdef);
  results ← lift (omapM (coerce_to_common_type ptype (lit "CASE/WHEN")) newargs.*2);
  mret (NCaseExpr ptype (zip newargs.*1 results) (Some newdef)).

Definition transformCoalesceExpr (args : list RawExpr) : parser Node :=
  newargs ← pmapM transform args;
  coalescetype ← lift (select_common_type newargs (lit "COALESCE"));
  newcoercedargs ← lift (omapM (coerce_to_common_type coalescetype (lit "COALESCE")) newargs);
  mret (NCoalesceExpr coalescetype newcoercedargs).

Definition minmax_name (op : MinMaxOp) : cstr :=
  match op with IS_GREATEST => lit "GREATEST" | IS_LEAST => lit "LEAST" end.

Definition transformMinMaxExpr (op : MinMaxOp) (args : list RawExpr) : parser Node :=
  newargs ← pmapM transform args;
  minmaxtype ← lift (select_common_type newargs (minmax_name op));
  newcoercedargs ← lift (omapM (coerce_to_common_type minmaxtype (minmax_name op)) newargs);
  mret (NMinMaxExpr minmaxtype InvalidOid op newcoercedargs).
End Expressions.

Fixpoint transformExprRecurse (env : ParseEnv) (expr : RawExpr) {struct expr} : parser Node :=
  match expr with
  | RColumnRef fields => transformColumnRef env fields
  | RConst val => c ← lift (make_const val); mret (NConst c)
  | RFuncCall funcname args => transformFuncCall env (transformExprRecurse env) funcname args
  | ROp name lexpr rexpr => transformAExprOp (transformExprRecurse env) name lexpr rexpr
  | RBoolExpr boolop args => transformBoolExpr (transformExprRecurse env) boolop args
  | RNullTest nulltesttype arg =>
      arg ← transformExprRecurse env arg;
      _ ← lift (exprType arg);
      mret (NNullTest nulltesttype arg)
  | RBooleanTest booltesttype arg => transformBooleanTest (transformExprRecurse env) booltesttype arg
  | RCaseExpr whens defresult => transformCaseExpr (transformExprRecurse env) whens defresult
  | RCoalesceExpr args => transformCoalesceExpr (transformExprRecurse env) args
  | RMinMaxExpr op args => transformMinMaxExpr (transformExprRecurse env) op args
  end.

(** ** Lambda literals *)

Definition makeLambdaConst (expr : LambdaExpr) : Const :=
  mkConst LAMBDAOID (-1) InvalidOid (-1) (lambda_datum expr) false false.

(** the header once the body is analysed *)
Definition analysed_hdr (h : LambdaHdr) (typmod : Z) (body : Node) (bodytype : Oid) : LambdaHdr :=
  let h' := mkLambdaHdr (lambdakind h) (argnames h) (argtypes h) bodytype (exprTypmod body) typmod (is_strict h) (l3_safe h) in
  mkLambdaHdr (lambdakind h) (argnames h) (argtypes h) bodytype (exprTypmod body) typmod (is_strict h)
    (lambda_expr_is_l3_safe (Some (mkLambdaExpr h' (Some body)))).

Definition transformLambdaExpr (env : ParseEnv) (l : RawLambda) : parser Node :=
  if bool_decide (is_Some (p_current_lambda env)) || p_in_lambda env then
    lift (ereport ERRCODE_FEATURE_NOT_SUPPORTED
            (lit "Declaration and definition of new lambda-function inside of another lambda-function!"))
  else
    match p_lambdacontext env with
    | None =>
        lift (ereport ERRCODE_FEATURE_NOT_SUPPORTED
                (lit "Lambda function outside of an UDF found without type information/matchiing colum to provide as such!"))
    | Some l_ctx =>
        body ← transformExprRecurse (mkEnv true HookOutsideUDF (Some (rl_hdr l, [])) (Some l_ctx) (p_target_desc env)) (rl_body l);
        bodytype ← lift (exprType body);
        mret (NConst (makeLambdaConst (mkLambdaExpr (analysed_hdr (rl_hdr l) (targettypmod l_ctx) body bodytype) (Some body))))
    end.

(** an item of a VALUES list: an expression, a lambda literal or DEFAULT *)
Inductive RawItem := ItemExpr (e : RawExpr) | ItemLambda (l : RawLambda) | ItemDefault.

Definition with_context (env : ParseEnv) (c : option LambdaContext) : ParseEnv :=
  mkEnv (p_in_lambda env) (p_hook env) (p_current_lambda env) c (p_target_desc env).

(** the context is reset after each item; DEFAULT stays as it is, the result
    [None] *)
Fixpoint transformExpressionList (env : ParseEnv) (allowDefault : bool) (ctr : Z) (exprlist : list RawItem)
    : parser (list (option Node)) :=
  match exprlist with
  | [] => mret []
  | e :: exprlist =>
      e ← match e with
          | ItemExpr e => n ← transformExprRecurse env e; mret (Some n)
          | ItemLambda l => n ← transformLambdaExpr (with_context env (Some (mkLambdaContext ctr 0))) l; mret (Some n)
          | ItemDefault =>
              if allowDefault then mret None else lift (ereport ERRCODE_SYNTAX_ERROR (lit "DEFAULT is not allowed in this context"))
          end;
      rest ← transformExpressionList (with_context env None) allowDefault (ctr + 1) exprlist;
      mret (e :: rest)
  end.

(** ** Lambda literals passed to a function *)

(** the input rows of the arguments; the last description serves all further
    ones, also those of later lambdas *)
Fixpoint lambda_descs (argnames : list cstr) (seen : list cstr) (ltiList : list (list TupleAttr)) (argCounter pos : nat)
    : outcome (list (list TupleAttr) * (nat * nat)) :=
  match argnames with
  | [] => Ok ([], (argCounter, pos))
  | name :: argnames =>
      if bool_decide (name ∈ seen) then
        ereport ERRCODE_DUPLICATE_ALIAS (lit "duplicate lambda arg name " ++ quoted name)
      else
        desc ← deref (ltiList !! pos);
        r ← lambda_descs argnames (seen ++ [name]) ltiList (S argCounter)
              (if (Z.of_nat argCounter <? Z.of_nat (length ltiList) - 1) then S pos else pos);
        Ok (desc :: r.1, r.2)
  end.

Fixpoint transform_udf_lambdas (env : ParseEnv) (ltiList : list (list TupleAttr)) (argCounter pos : nat) (lambdas : list RawLambda)
    : parser (list LambdaExpr) :=
  match lambdas with
  | [] => mret []
  | lambda :: lambdas =>
      d ← lift (lambda_descs (argnames (rl_hdr lambda)) [] ltiList argCounter pos);
      let '(descs, (argCounter, pos)) := d in
      body ← transformExprRecurse (mkEnv true HookInsideUDF (Some (rl_hdr lambda, descs)) (p_lambdacontext env) (p_target_desc env))
               (rl_body lambda);
      bodytype ← lift (exprType body);
      rest ← transform_udf_lambdas env ltiList argCounter pos lambdas;
      let h := rl_hdr lambda in
      mret (mkLambdaExpr (mkLambdaHdr (lambdakind h) (argnames h) (argtypes h) bodytype (exprTypmod body) (lambdatypmod h)
                            (is_strict h) (l3_safe h)) (Some body) :: rest)
  end.
End Parse.
