(* ===== verification/ParseFacts.v ===== *)
(** * Facts about parse analysis

    Induction over the grammar's expressions, inversion of the parser monad,
    and that analysing an expression with no column in scope leaves the state
    of the analysis alone. *)

From S2P Require Import Prelude LambdaSig Bitmapset Nodes NodesFacts Serialize Inject InjectFacts Typing ParseLambda.

(** ** Induction *)

Fixpoint raw_whens (l : list (RawExpr * RawExpr)) : list RawExpr :=
  match l with [] => [] | (e, r) :: l => e :: r :: raw_whens l end.

Definition raw_children (e : RawExpr) : list RawExpr :=
  match e with
  | RColumnRef _ | RConst _ => []
  | RFuncCall _ args | RBoolExpr _ args | RCoalesceExpr args | RMinMaxExpr _ args => args
  | ROp _ l r => opt_list l ++ [r]
  | RNullTest _ arg | RBooleanTest _ arg => [arg]
  | RCaseExpr whens def => raw_whens whens ++ opt_list def
  end.

Section RawInd.
Context (P : RawExpr → Prop) (step : ∀ e, Forall P (raw_children e) → P e).

Fixpoint raw_ind (e : RawExpr) : P e :=
  let list_all := fix list_all (l : list RawExpr) : Forall P l :=
    match l with
    | [] => Forall_nil_2 P
    | m :: l => Forall_cons_2 P m l (raw_ind m) (list_all l)
    end in
  let opt_all := fun o : option RawExpr =>
    match o return Forall P (opt_list o) with
    | None => Forall_nil_2 P
    | Some m => Forall_cons_2 P m [] (raw_ind m) (Forall_nil_2 P)
    end in
  let whens_all := fix whens_all (l : list (RawExpr * RawExpr)) : Forall P (raw_whens l) :=
    match l return Forall P (raw_whens l) with
    | [] => Forall_nil_2 P
    | (e, r) :: l => Forall_cons_2 P e _ (raw_ind e) (Forall_cons_2 P r _ (raw_ind r) (whens_all l))
    end in
  step e
    (match e return Forall P (raw_children e) with
     | RColumnRef _ | RConst _ => Forall_nil_2 P
     | RFuncCall _ args => list_all args
     | RBoolExpr _ args => list_all args
     | RCoalesceExpr args => list_all args
     | RMinMaxExpr _ args => list_all args
     | ROp _ l r => Forall_app_2 P (opt_list l) _ (opt_all l) (Forall_cons_2 P r [] (raw_ind r) (Forall_nil_2 P))
     | RNullTest _ arg => Forall_cons_2 P arg [] (raw_ind arg) (Forall_nil_2 P)
     | RBooleanTest _ arg => Forall_cons_2 P arg [] (raw_ind arg) (Forall_nil_2 P)
     | RCaseExpr whens def => Forall_app_2 P (raw_whens whens) _ (whens_all whens) (opt_all def)
     end).
End RawInd.

Lemma raw_whens_elem w l : w ∈ l → w.1 ∈ raw_whens l ∧ w.2 ∈ raw_whens l.
Proof. induction l as [|[e r] l IH]; [by intros ?%elem_of_nil|]. intros [->|H]%elem_of_cons; set_solver. Qed.

(** ** The monad *)

Lemma parser_bind_inv {A B} (m : parser A) (k : A → parser B) st r :
  (m ≫= k) st = Ok r → ∃ a st', m st = Ok (a, st') ∧ k a st' = Ok r.
Proof. intros ([a st'] & H & Hk)%bind_Ok_inv. by exists a, st'. Qed.

Lemma parser_bind_Ok {A B} (m : parser A) (k : A → parser B) st a st' : m st = Ok (a, st') → (m ≫= k) st = k a st'.
Proof. intros H. unfold mbind, parser_bind. by rewrite H. Qed.

Lemma lift_inv {A} (m : outcome A) st r : lift m st = Ok r → ∃ a, m = Ok a ∧ r = (a, st).
Proof. intros (a & H & [= <-])%bind_Ok_inv. by exists a. Qed.

Ltac parser_inv :=
  repeat match goal with
    | H : (_ ≫= _) _ = Ok _ |- _ =>
        let a := fresh "a" in let s := fresh "s" in let Ha := fresh "Ha" in
        apply parser_bind_inv in H as (a & s & Ha & H)
    | H : lift _ _ = Ok _ |- _ =>
        let a := fresh "a" in let Ha := fresh "Ha" in let E := fresh "E" in
        apply lift_inv in H as (a & Ha & E); simplify_eq
    | H : mret _ _ = Ok _ |- _ => unfold mret, parser_ret in H; simplify_eq
    end.

(** a computation that leaves the state [st] alone *)
Definition keeps {A} (st : PState) (m : parser A) : Prop := ∀ a st', m st = Ok (a, st') → st' = st.

Lemma keeps_ret {A} st (a : A) : keeps st (mret a).
Proof. by intros ? ? [= _ <-]. Qed.

Lemma keeps_lift {A} st (m : outcome A) : keeps st (lift m).
Proof. intros a st' (b & _ & [= _ <-])%lift_inv. done. Qed.

Lemma keeps_bind {A B} st (m : parser A) (k : A → parser B) :
  keeps st m → (∀ a, keeps st (k a)) → keeps st (m ≫= k).
Proof. intros Hm Hk b st' (a & s & Ha & Hb)%parser_bind_inv. apply Hm in Ha as ->. by eapply Hk. Qed.

Lemma keeps_pmapM {A B} st (f : A → parser B) l : Forall (fun x => keeps st (f x)) l → keeps st (pmapM f l).
Proof.
  induction 1 as [|x l Hx _ IH]; simpl; [apply keeps_ret|].
  apply keeps_bind; [done|]. intros y. apply keeps_bind; [done|]. intros. apply keeps_ret.
Qed.

Lemma pmapM_inv {A B} st (f : A → parser B) l ys st' :
  (∀ x, x ∈ l → keeps st (f x)) → pmapM f l st = Ok (ys, st') → st' = st ∧ Forall2 (fun x y => f x st = Ok (y, st)) l ys.
Proof.
  revert ys st'. induction l as [|x l IH]; simpl; intros ys st' Hk H; [by injection H as <- <-|].
  apply parser_bind_inv in H as (y & s1 & Hy & H). assert (s1 = st) as -> by (eapply Hk; [|done]; set_solver).
  apply parser_bind_inv in H as (ys' & s2 & Hys & H). injection H as <- <-.
  apply IH in Hys as [-> Hall]; [|set_solver]. split; [done|]. by constructor.
Qed.

Create HintDb keeps.
#[export] Hint Resolve keeps_ret keeps_lift : keeps.

Ltac keeps_tac :=
  repeat first [progress intros | solve [eauto 2 with keeps] | apply keeps_bind | apply keeps_pmapM, Forall_forall | case_match].

Lemma lift_bind {A B} (a : A) (k : A → parser B) : lift (Ok a) ≫= k = k a.
Proof. done. Qed.

(** ** Analysis where no column is in scope *)

Section NoColumns.
Context `{NIO : NodeIO} `{PP : ParseParams}.

(** an INSERT ... VALUES has no FROM clause *)
Definition no_columns : Prop := ∀ refname colname, column_var refname colname = Ok None.

Context (Hcol : no_columns).

Lemma lookup_no_columns funcname : LookUpFuncNameAsLambda funcname = Ok None.
Proof. destruct funcname as [|r [|c [|]]]; simpl; try done. by rewrite Hcol. Qed.

Lemma keeps_target env st : keeps st (target_signature env).
Proof. intros sig st'. unfold target_signature. intros H. outcome_inv. by simplify_eq. Qed.

Hint Resolve keeps_target : keeps.

Lemma keeps_column_ref env fields st : keeps st (transformColumnRef env fields).
Proof. unfold transformColumnRef, LambdaColumnRefHookOutsideUDF. keeps_tac. Qed.

Lemma keeps_match_input env funcname st : keeps st (match_input env funcname).
Proof. unfold match_input. keeps_tac. Qed.

Hint Resolve keeps_column_ref keeps_match_input : keeps.

Lemma keeps_reread env f st : keeps st (reread_hole env f).
Proof. unfold reread_hole. keeps_tac. Qed.

Hint Resolve keeps_reread : keeps.

Lemma keeps_no_lambda fargs st : keeps st (matched ← lift (deref None); make_lambda_call matched fargs).
Proof. intros ? ? H. by parser_inv. Qed.

Hint Resolve keeps_no_lambda : keeps.

Lemma keeps_call env funcname fargs st : keeps st (ParseFuncOrColumn env funcname fargs).
Proof.
  unfold ParseFuncOrColumn. case_match; [keeps_tac|].
  do 2 (apply keeps_bind; [keeps_tac|intros]). rewrite lookup_no_columns, lift_bind. keeps_tac.
Qed.

Hint Resolve keeps_call : keeps.

Lemma transform_keeps env e st : keeps st (transformExprRecurse env e).
Proof.
  induction e as [e IH] using raw_ind. rewrite Forall_forall in IH.
  destruct e; cbn [raw_children transformExprRecurse] in *; keeps_tac; apply IH;
    try match goal with H : ?w ∈ _, w : RawExpr * RawExpr |- _ => apply raw_whens_elem in H end; set_solver.
Qed.

Lemma lambda_keeps env l st : keeps st (transformLambdaExpr env l).
Proof. unfold transformLambdaExpr. keeps_tac. by apply transform_keeps. Qed.

(** every lambda literal of a VALUES list is analysed against the column of its
    position *)
Lemma expression_list_lambda env allowDefault ctr items ns st st' :
  transformExpressionList env allowDefault ctr items st = Ok (ns, st') →
  st' = st ∧ ∀ i l, items !! i = Some (ItemLambda l) →
    ∃ n, ns !! i = Some (Some n)
         ∧ transformLambdaExpr (with_context env (Some (mkLambdaContext (ctr + Z.of_nat i) 0))) l st = Ok (n, st).
Proof.
  revert env ctr ns st'. induction items as [|e items IH]; intros env ctr ns st' H; [by injection H as <- <-|].
  apply parser_bind_inv in H as (e' & s1 & He & H). apply parser_bind_inv in H as (rest & s2 & Hrest & H). injection H as <- <-.
  assert (s1 = st) as ->.
  { destruct e; [apply parser_bind_inv in He as (n & s & Hn & He)..|].
    - injection He as <- <-. by eapply transform_keeps.
    - injection He as <- <-. by eapply lambda_keeps.
    - destruct allowDefault; [by injection He as <- <-|by parser_inv]. }
  apply IH in Hrest as [-> Hrest]. split; [done|]. intros [|i] l Hl.
  - injection Hl as ->. apply parser_bind_inv in He as (n & s & Hn & He). pose proof (lambda_keeps _ _ _ _ _ Hn) as ->.
    injection He as <-. exists n. by rewrite Z.add_0_r.
  - destruct (Hrest i l Hl) as (n & Hn & Ht). exists n. split; [done|]. rewrite <- Ht. do 4 f_equal. lia.
Qed.

(** ** Which part of a signature is read *)

Lemma bind_eq {A B} st (m m' : parser A) (k k' : A → parser B) :
  m st = m' st → keeps st m → (∀ a, k a st = k' a st) → (m ≫= k) st = (m' ≫= k') st.
Proof.
  intros Hm Hk Hkk. unfold mbind, parser_bind. rewrite <- Hm. destruct (m st) as [[a s]| | |] eqn:E; try done.
  simpl. pose proof (Hk _ _ E) as ->. apply Hkk.
Qed.

Lemma pmapM_eq {A B} st (f g : A → parser B) l :
  (∀ x, x ∈ l → f x st = g x st) → (∀ x, keeps st (f x)) → pmapM f l st = pmapM g l st.
Proof.
  intros H Hk. induction l as [|x l IH]; [done|]. simpl. apply bind_eq; [apply H; set_solver|done|]. intros y.
  apply bind_eq; [apply IH; set_solver| |done]. apply keeps_pmapM, Forall_forall. auto.
Qed.

(** two environments whose targets have the same argument types *)
Record same_inputs (st : PState) (env env' : ParseEnv) : Prop := {
  si_lambda : p_in_lambda env = p_in_lambda env';
  si_hook : p_hook env = p_hook env';
  si_current : p_current_lambda env = p_current_lambda env';
  si_target : ∃ sig sig', target_signature env st = Ok (sig, st) ∧ target_signature env' st = Ok (sig', st)
              ∧ LambdaSig.argtypes sig = LambdaSig.argtypes sig'
}.

Section SameInputs.
Context (st : PState) (env env' : ParseEnv) (Hsame : same_inputs st env env').

Lemma target_eq {B} (k k' : LambdaSignature → parser B) :
  (∀ s s', LambdaSig.argtypes s = LambdaSig.argtypes s' → k s st = k' s' st) →
  (target_signature env ≫= k) st = (target_signature env' ≫= k') st.
Proof.
  destruct (si_target _ _ _ Hsame) as (s & s' & Hs & Hs' & Ha). intros Hk.
  rewrite (parser_bind_Ok _ _ _ _ _ Hs), (parser_bind_Ok _ _ _ _ _ Hs'). by apply Hk.
Qed.

Lemma column_ref_eq fields : transformColumnRef env fields st = transformColumnRef env' fields st.
Proof.
  unfold transformColumnRef, LambdaColumnRefHookOutsideUDF, LambdaColumnRefHook. rewrite (si_hook _ _ _ Hsame), (si_current _ _ _ Hsame).
  repeat case_match; try done. apply bind_eq; [done|apply keeps_lift|]. intros. case_match; [|done].
  apply target_eq. intros s s' ->. done.
Qed.

Lemma match_input_eq funcname : match_input env funcname st = match_input env' funcname st.
Proof.
  unfold match_input. rewrite (si_lambda _ _ _ Hsame), (si_current _ _ _ Hsame). repeat case_match; try done.
  apply bind_eq; [done|apply keeps_lift|]. intros. repeat case_match; try done. apply target_eq. intros s s' ->. done.
Qed.

Lemma reread_eq f : reread_hole env f st = reread_hole env' f st.
Proof. unfold reread_hole. case_match; [|done]. apply bind_eq; [apply column_ref_eq|apply keeps_column_ref|done]. Qed.

Lemma call_eq funcname fargs : ParseFuncOrColumn env funcname fargs st = ParseFuncOrColumn env' funcname fargs st.
Proof.
  unfold ParseFuncOrColumn. case_match; [done|].
  apply bind_eq; [done|apply keeps_lift|]. intros fs. apply bind_eq; [apply match_input_eq|apply keeps_match_input|]. intros m.
  rewrite lookup_no_columns, !lift_bind. apply bind_eq; [|keeps_tac|done]. repeat case_match; try done.
  apply pmapM_eq; [intros; apply reread_eq|intros; apply keeps_reread].
Qed.

Ltac same_tac IH :=
  repeat first [done | apply IH; set_solver | apply pmapM_eq; [|keeps_tac; by apply transform_keeps]
               | apply bind_eq; [|keeps_tac; by apply transform_keeps|] | progress intros | case_match].

Lemma transform_eq e : transformExprRecurse env e st = transformExprRecurse env' e st.
Proof.
  induction e as [e IH] using raw_ind. rewrite Forall_forall in IH.
  destruct e; cbn [raw_children transformExprRecurse] in *.
  - apply column_ref_eq.
  - done.
  - unfold transformFuncCall. apply bind_eq; [|keeps_tac; by apply transform_keeps|intros; apply call_eq]. same_tac IH.
  - unfold transformAExprOp. same_tac IH.
  - unfold transformBoolExpr. same_tac IH.
  - same_tac IH.
  - unfold transformBooleanTest. same_tac IH.
  - unfold transformCaseExpr, transformCaseWhen. same_tac IH; apply IH; try (apply raw_whens_elem in H as [? ?]); set_solver.
  - unfold transformCoalesceExpr. same_tac IH.
  - unfold transformMinMaxExpr. same_tac IH.
Qed.
End SameInputs.
End NoColumns.
