(* ===== verification/ParseTyping.v ===== *)
(** * Typing of analysed bodies

    The analysis compares the types of arguments one level deep: whether a
    function is passed where a function is expected.  [raw_ok] states what it
    leaves to the author of a lambda; an accepted body that follows it is well
    typed in the sense of [has_ty] at the types of the column's signature, with
    the casts in place that make atomic types agree. *)

From S2P Require Import Prelude LambdaSig LambdaSigFacts Bitmapset BitmapsetFacts Nodes NodesFacts Serialize Inject InjectFacts Typing ParseLambda.
From S2P Require Import ParseFacts Safety.

(** ** Types of a signature *)

(** the declared return type, which is atomic *)
Definition sig_ret (s : LambdaSignature) : Oid := match LambdaSig.rettype s with Some ret => sigtype_oid ret | None => InvalidOid end.

Fixpoint rty_of_sig (s : LambdaSignature) : list rty :=
  let 'mkSignature args _ _ := s in map rty_of args
with rty_of (t : LambdaSigType) : rty :=
  let 'mkSigType is_function oid s _ := t in
  if is_function then match s with Some s => RFun (rty_of_sig s) (sig_ret s) | None => RFun [] InvalidOid end else RAtom oid.

Definition ANYOID : Oid := 2276.

Definition IsPolymorphicType (typid : Oid) : bool :=
  existsb (Z.eqb typid) [2283; 2277; 2776; 3500; 3831; 4537] || existsb (Z.eqb typid) [5077; 5078; 5079; 5080; 4538].

(** a type of values: not [lambda], no pseudo-type *)
Definition value_type (typid : Oid) : bool :=
  negb (typid =? InvalidOid) && negb (typid =? LAMBDAOID) && negb (typid =? VOIDOID) && negb (typid =? ANYOID) && negb (IsPolymorphicType typid).

(** functions take some arguments and return atomic values *)
Fixpoint sig_ok (s : LambdaSignature) : bool :=
  let 'mkSignature args ret _ := s in
  negb (length args =? 0)%nat && forallb sigtype_ok args
  && match ret with Some ret => negb (sigtype_is_function ret) && value_type (sigtype_oid ret) | None => false end
with sigtype_ok (t : LambdaSigType) : bool :=
  let 'mkSigType is_function oid s _ := t in
  if is_function then match s with Some s => sig_ok s | None => false end else value_type oid.

(** ** The discipline *)

(** the input a call refers to *)
Definition called_input (names : list cstr) (funcname : list cstr) : option nat := head funcname ≫= list_index names.

Definition raw_shape (e : RawExpr) : bool :=
  match e with
  | RBoolExpr NOT_EXPR args => (length args =? 1)%nat
  | RBoolExpr _ args | RCoalesceExpr args => negb (length args =? 0)%nat
  | _ => true
  end.

Fixpoint all_raw_whens (P : RawExpr → Prop) (l : list (RawExpr * RawExpr)) : Prop :=
  match l with [] => True | (e, r) :: l => P e ∧ P r ∧ all_raw_whens P l end.

(** a use at an atomic type: the analysis casts; a function is used at its type *)
Definition same_kind (t use : rty) : Prop := match use with RAtom _ => ∃ o, t = RAtom o | RFun _ _ => t = use end.

Definition any_atom : rty := RAtom InvalidOid.

(** [raw_ok names Γ e t]: the inputs in [e] are used at their types, and [e] can
    be used at [t] *)
Fixpoint raw_ok (names : list cstr) (Γ : list rty) (e : RawExpr) (t : rty) {struct e} : Prop :=
  match e with
  | RColumnRef fields =>
      match fields with
      | [x] => match list_index names x with Some i => ∃ u, Γ !! i = Some u ∧ same_kind u t | None => True end
      | _ => True
      end
  | RConst _ => same_kind any_atom t
  | RFuncCall funcname args =>
      same_kind any_atom t
      ∧ match called_input names funcname with
        | Some i => match Γ !! i with Some (RFun ts _) => all2 (fun a t => raw_ok names Γ a t) args ts | _ => False end
        | None => all (fun a => raw_ok names Γ a any_atom) args
        end
  | RBoolExpr _ args | RCoalesceExpr args | RMinMaxExpr _ args =>
      same_kind any_atom t ∧ raw_shape e = true ∧ all (fun a => raw_ok names Γ a any_atom) args
  | ROp _ l r => same_kind any_atom t ∧ all_opt (fun a => raw_ok names Γ a any_atom) l ∧ raw_ok names Γ r any_atom
  | RNullTest _ arg | RBooleanTest _ arg => same_kind any_atom t ∧ raw_ok names Γ arg any_atom
  | RCaseExpr whens def =>
      same_kind any_atom t ∧ all_raw_whens (fun a => raw_ok names Γ a any_atom) whens ∧ all_opt (fun a => raw_ok names Γ a any_atom) def
  end.

(** ** What analysis relies on *)

(** an argument of type [actual] for a declared type *)
Definition accepts (declared actual : Oid) : Prop := actual = declared ∨ declared = ANYOID.

(** [proc_declared]: the argument types and the result type of a function in
    [pg_proc], polymorphic types included *)
Class ParseLaws `{PP : ParseParams} `{CT : Catalog} := {
  proc_declared : Oid → list Oid → Oid → Prop;
  (** a cast gives an expression of the target type; to [any], it keeps the
      expression *)
  coerce_typed ccontext e s t e' Γ :
    coerce_type ccontext e s t = Ok e' → has_ty Γ e (RAtom s) → ∃ t', has_ty Γ e' (RAtom t') ∧ accepts t t';
  (** functions and operators that are found are those of the catalogs *)
  func_declared funcname fargs types f r declared :
    func_detail funcname fargs types = Ok (FUNCDETAIL_NORMAL f r declared) → proc_declared f declared r ∧ length declared = length types;
  oper_declared name l r form :
    oper name l r = Ok form →
    proc_declared (oprcode form) (if l =? InvalidOid then [oprright form] else [oprleft form; oprright form]) (oprresult form);
  (** polymorphic types are resolved to types the function can be called with,
      other types are kept *)
  generic_typed f actual declared ret declared' ret' ts :
    proc_declared f declared ret → enforce_generic_type_consistency actual declared ret = Ok (declared', ret') →
    Forall2 accepts declared' ts → proc_type f ts ret' ∧ ret' ≠ InvalidOid;
  generic_length actual declared ret declared' ret' :
    enforce_generic_type_consistency actual declared ret = Ok (declared', ret') → length declared' = length declared;
  generic_plain actual declared ret r :
    enforce_generic_type_consistency actual declared ret = Ok r →
    forallb (fun t => negb (IsPolymorphicType t)) (ret :: declared) = true → r = (declared, ret);
  (** a projection selects a field; a lambda has none *)
  projection_typed name e t e' Γ : complex_projection name e t = Ok (Some e') → has_ty Γ e (RAtom t) → ∃ t', has_ty Γ e' (RAtom t');
  projection_lambda name e e' : complex_projection name e LAMBDAOID ≠ Ok (Some e');
  (** literals are read as values of their type; a common type is a type of
      expressions *)
  const_typed c k : make_const c = Ok k → constisnull k = false → has_type (consttype k) (constvalue k);
  common_value ns context t : select_common_type ns context = Ok t → t ≠ ANYOID ∧ t ≠ InvalidOid
}.

Section Typing.
Context `{NIO : NodeIO} `{PP : ParseParams} `{CT : Catalog} `{PL : !ParseLaws} (Hcol : no_columns).

(** no input is named like a type *)
Definition inputs_fresh (names : list cstr) : Prop :=
  ∀ funcname i fargs types t, called_input names funcname = Some i → func_detail funcname fargs types ≠ Ok (FUNCDETAIL_COERCION t).

Context (h : LambdaHdr) (ctx : LambdaContext) (desc : option (list TupleAttr)) (sig : LambdaSignature) (st : PState).

Definition lambda_env : ParseEnv := mkEnv true HookOutsideUDF (Some (h, [])) (Some ctx) desc.

Context (Hkind : lambdakind h = LAMBDA_SCALAR_CONTEXT) (Hsig : target_signature lambda_env st = Ok (sig, st)).
Context (Hok : forallb sigtype_ok (LambdaSig.argtypes sig) = true) (Hfresh : inputs_fresh (argnames h)).

Let Γ := map rty_of (LambdaSig.argtypes sig).

(** ** Types of inputs *)

Lemma forallb_lookup_ok {A} (f : A → bool) l i x : forallb f l = true → l !! i = Some x → f x = true.
Proof. rewrite forallb_Forall. intros H Hi. exact (Forall_lookup_1 _ _ _ _ H Hi). Qed.

Lemma value_type_spec t : value_type t = true → t ≠ InvalidOid ∧ t ≠ LAMBDAOID ∧ t ≠ VOIDOID ∧ t ≠ ANYOID ∧ IsPolymorphicType t = false.
Proof.
  unfold value_type. intros [[[[H1 H2]%andb_prop H3]%andb_prop H4]%andb_prop H5]%andb_prop.
  apply negb_true_iff in H1, H2, H3, H4, H5. apply Z.eqb_neq in H1, H2, H3, H4. done.
Qed.

Lemma input_lookup i t : Γ !! i = Some t → ∃ attr, LambdaSig.argtypes sig !! i = Some attr ∧ t = rty_of attr ∧ sigtype_ok attr = true.
Proof.
  unfold Γ. rewrite map_lookup. destruct (LambdaSig.argtypes sig !! i) as [attr|] eqn:Hi; [|done]. intros [= <-]. exists attr.
  split_and!; [done|done|by eapply forallb_lookup_ok].
Qed.

Lemma atom_input i o : Γ !! i = Some (RAtom o) → value_type o = true.
Proof. intros (attr & _ & He & Hok')%input_lookup. destruct attr as [[] oid [s|] loc]; simpl in He; simplify_eq; done. Qed.

(** the function inputs of a signature *)
Lemma fun_input attr ts r :
  rty_of attr = RFun ts r → sigtype_ok attr = true →
  ∃ oid args ret l loc, attr = mkSigType true oid (Some (mkSignature args (Some ret) l)) loc ∧ ts = map rty_of args ∧ r = sigtype_oid ret
    ∧ args ≠ [] ∧ forallb sigtype_ok args = true ∧ value_type r = true.
Proof.
  destruct attr as [[] oid [[args [ret|] l]|] loc]; try done.
  - intros [= <- <-] [[Hne Hargs]%andb_prop [_ Hv]%andb_prop]%andb_prop. eexists _, _, _, _, _. split_and!; try done. by intros ->.
  - intros _ Hs. simpl in Hs. by rewrite andb_false_r in Hs.
Qed.

(** no expression has no type, and no input is of type [void] *)
Lemma typed_valid n t : has_ty Γ n (RAtom t) → t ≠ InvalidOid.
Proof.
  intros Hn. inversion Hn; subst; [done| |].
  - by eapply value_type_spec, atom_input.
  - match goal with Hi : Γ !! _ = Some (RFun _ _) |- _ => apply input_lookup in Hi as (attr & _ & He & Hok') end.
    symmetry in He. destruct (fun_input _ _ _ He Hok') as (? & ? & ? & ? & ? & _ & _ & _ & _ & _ & Hv). by apply value_type_spec.
Qed.

Definition no_void (n : Node) : Prop := match n with NParam p => paramtype p ≠ VOIDOID | _ => True end.

Lemma typed_no_void n t : has_ty Γ n t → no_void n.
Proof.
  destruct n; try done. intros (_ & Hi & Ht & _)%has_ty_param. simpl. rewrite Ht. destruct t as [o|ts r]; [|done].
  by eapply value_type_spec, atom_input.
Qed.

(** inputs passed by name, of which there are none: a call has arguments *)
Lemma by_name_actual n t actual declared : has_ty Γ n t → by_name_type n actual declared = actual.
Proof.
  destruct n; try done. destruct args; [|done]. intros (ts & -> & _ & Hi & HF)%has_ty_lfa. apply Forall2_nil_inv_l in HF as ->.
  apply input_lookup in Hi as (attr & _ & He & Hok'). symmetry in He. destruct (fun_input _ _ _ He Hok') as (? & args & ? & ? & ? & _ & Hts & _ & Hne & _).
  by destruct args.
Qed.

(** ** References to inputs *)

(** an analysed expression that is used at type [t] *)
Definition analysed (t : rty) (n : Node) : Prop := match t with RAtom _ => ∃ o, has_ty Γ n (RAtom o) | RFun _ _ => has_ty Γ n t end.

Lemma analysed_typed t n : analysed t n → ∃ u, has_ty Γ n u ∧ same_kind u t.
Proof. destruct t; [intros [o Ho]; exists (RAtom o); split; [done|by exists o]|intros Hn; by eexists]. Qed.

Lemma alike_analysed u t n : same_kind u t → has_ty Γ n u → analysed t n.
Proof. destruct t; [intros [o ->]; by exists o|by intros ->]. Qed.

Lemma atom_analysed t n o : same_kind any_atom t → has_ty Γ n (RAtom o) → analysed t n.
Proof. destruct t; [by exists o|done]. Qed.

(** a reference to an input *)
Lemma column_ref_analysed fields t n st' :
  raw_ok (argnames h) Γ (RColumnRef fields) t → transformColumnRef lambda_env fields st = Ok (n, st') → analysed t n.
Proof.
  unfold transformColumnRef, LambdaColumnRefHookOutsideUDF. destruct fields as [|x [|]]; simpl; intros Hr H; [by parser_inv| |by parser_inv].
  apply parser_bind_inv in H as (cur & s1 & (c & [= <-] & [= -> ->])%lift_inv & H). simpl in H.
  destruct (list_index (argnames h) x) as [i|]; [|by parser_inv]. destruct Hr as (u & Hu & Hal).
  apply parser_bind_inv in H as (sg & s2 & Hs & H). rewrite Hsig in Hs. injection Hs as <- <-.
  apply parser_bind_inv in H as (attr & s3 & (a & Ha & [= -> ->])%lift_inv & H). injection H as <- <-.
  destruct (input_lookup _ _ Hu) as (attr' & Hi & -> & Hat). rewrite Hi in Ha. injection Ha as ->.
  assert (Hlt := lookup_lt_Some _ _ _ Hu). eapply alike_analysed; [exact Hal|].
  assert (Hin : ∀ o tm, is_input_param (mkParam PARAM_EXEC (Z.of_nat i) o tm InvalidOid true) (Z.of_nat (length Γ)) = true).
  { intros. unfold is_input_param. simpl. apply andb_true_intro. split; [apply Z.leb_le|apply Z.ltb_lt]; lia. }
  destruct a as [[] oid [s|] loc]; try done; cbn [sigtype_is_function sigtype_oid]; (apply ty_param; [apply Hin|cbn [paramid]; by rewrite Nat2Z.id|done|]); try done;
    apply Z.eqb_neq; by destruct (value_type_spec _ Hat) as (_ & Hl & _).
Qed.

(** ** Arguments *)

(** an argument with its type, for an input of type [t] *)
Definition typed_arg (t : rty) (f : Node * Oid) : Prop :=
  match t with RAtom _ => has_ty Γ f.1 (RAtom f.2) | RFun _ _ => has_ty Γ f.1 t ∧ f.2 = LAMBDAOID end.

(** an argument as [transformFuncCall] passes it on *)
Definition passed_arg (a : RawExpr) (t : rty) (n : Node) : Prop :=
  if is_underscore a then n = NHolePlaceholder else analysed t n.

Inductive args_passed : list RawExpr → list rty → list Node → Prop :=
| args_nil : args_passed [] [] []
| args_cons a t n la lt ln :
    raw_ok (argnames h) Γ a t → passed_arg a t n → args_passed la lt ln → args_passed (a :: la) (t :: lt) (n :: ln).

Lemma analysed_not_hole t n : analysed t n → is_hole n = false.
Proof. intros (u & Hn & _)%analysed_typed. destruct n; try done. by inversion Hn. Qed.

Lemma analysed_no_void t n : analysed t n → no_void n.
Proof. intros (u & Hn & _)%analysed_typed. by eapply typed_no_void. Qed.

Lemma analysed_arg t n o : analysed t n → exprType n = Ok o → typed_arg t (n, o).
Proof.
  destruct t as [|ts r]; simpl.
  - intros [o' Ho] He. rewrite (has_ty_exprType _ _ _ Ho) in He. by injection He as <-.
  - intros Hn He. rewrite (has_ty_exprType _ _ _ Hn) in He. by injection He as <-.
Qed.

Lemma farg_types_cons n ns fs :
  is_hole n = false → no_void n → farg_types (n :: ns) = Ok fs →
  ∃ o fs', exprType n = Ok o ∧ farg_types ns = Ok fs' ∧ fs = (n, o) :: fs'.
Proof.
  intros Hh Hv H. assert (H' : (o ← exprType n; rest ← farg_types ns;
    Ok (if (o =? VOIDOID) && (match n with NParam _ => true | _ => false end) then rest else (n, o) :: rest)) = Ok fs) by (by destruct n).
  apply bind_Ok_inv in H' as (o & Ho & (fs' & Hfs & [= <-])%bind_Ok_inv). exists o, fs'. split_and!; [done..|].
  destruct n; rewrite ?andb_false_r; try done. simpl in Ho, Hv. injection Ho as <-. by rewrite (proj2 (Z.eqb_neq _ _) Hv).
Qed.

(** without a hole, all arguments are typed *)
Lemma farg_types_typed la lt ln fs :
  args_passed la lt ln → farg_types ln = Ok fs → existsb is_hole fs.*1 = false → Forall2 typed_arg lt fs.
Proof.
  intros H. revert fs. induction H as [|a t n la lt ln Hr Hp _ IH]; intros fs Hf Hn; [injection Hf as <-; constructor|].
  unfold passed_arg in Hp. destruct (is_underscore a).
  - subst n. simpl in Hf. apply bind_Ok_inv in Hf as (fs' & _ & [= <-]). done.
  - apply farg_types_cons in Hf as (o & fs' & Ho & Hf & ->); [|by eapply analysed_not_hole|by eapply analysed_no_void].
    simpl in Hn. apply orb_false_iff in Hn as [_ Hn]. constructor; [by apply analysed_arg|by apply IH].
Qed.

(** rereading the holes *)
Lemma reread_typed la lt ln fs fs' st' :
  args_passed la lt ln → farg_types ln = Ok fs → pmapM (reread_hole lambda_env) fs st = Ok (fs', st') →
  Forall2 typed_arg lt fs'.
Proof.
  intros H. revert fs fs' st'. induction H as [|a t n la lt ln Hr Hp _ IH]; intros fs fs' st' Hf Hm.
  { injection Hf as <-. injection Hm as <- <-. constructor. }
  unfold passed_arg in Hp. destruct (is_underscore a) eqn:Hu.
  - subst n. apply bind_Ok_inv in Hf as (rest & Hf & [= <-]). simpl in Hm.
    apply parser_bind_inv in Hm as (y & s1 & Hy & Hm). unfold reread_hole in Hy. simpl in Hy.
    apply parser_bind_inv in Hy as (arg & s2 & Harg & Hy). parser_inv.
    pose proof (keeps_column_ref _ _ _ _ _ Harg). subst.
    assert (a = RColumnRef [lit "_"]) as ->.
    { destruct a as [[|x [|]]| | | | | | | | |]; try done. simpl in Hu. by apply bool_decide_eq_true in Hu as ->. }
    constructor; [|by eapply IH]. apply analysed_arg; [|done]. by eapply column_ref_analysed.
  - pose proof (analysed_not_hole _ _ Hp) as Hh. apply farg_types_cons in Hf as (o & rest & Ho & Hf & ->); [|done|by eapply analysed_no_void].
    simpl in Hm. apply parser_bind_inv in Hm as (y & s1 & Hy & Hm). unfold reread_hole in Hy. simpl in Hy. rewrite Hh in Hy.
    parser_inv. constructor; [by apply analysed_arg|by eapply IH].
Qed.

(** ** Casts *)

Lemma fn_arguments_length fargs actual declared args :
  make_fn_arguments fargs actual declared = Ok args → (length fargs ≤ length actual)%nat ∧ (length fargs ≤ length declared)%nat ∧ length args = length fargs.
Proof.
  revert actual declared args. induction fargs as [|n fargs IH]; intros actual declared args.
  { intros [= <-]. simpl. lia. }
  destruct actual as [|a actual]; [done|]. cbn [make_fn_arguments]. destruct declared as [|d declared]; [done|].
  intros (n' & _ & (rest & (Hl & Hd & Hr)%IH & [= <-])%bind_Ok_inv)%bind_Ok_inv. simpl. lia.
Qed.

(** the arguments of a built-in function *)
Lemma fn_arguments_typed fargs actual declared args :
  Forall2 (fun n a => has_ty Γ n (RAtom a)) fargs actual → length declared = length fargs →
  make_fn_arguments fargs actual declared = Ok args →
  ∃ us, Forall2 (fun n u => has_ty Γ n (RAtom u)) args us ∧ Forall2 accepts declared us.
Proof.
  intros H. revert declared args. induction H as [|n a fargs actual Hn _ IH]; intros [|d declared] args Hl Hm; try done.
  { injection Hm as <-. exists []. by split; constructor. }
  cbn [make_fn_arguments] in Hm. apply bind_Ok_inv in Hm as (n' & Hn' & (rest & Hrest & [= <-])%bind_Ok_inv).
  destruct (IH declared rest ltac:(by injection Hl) Hrest) as (us & Hus & Hacc).
  destruct (Z.eqb_spec a d) as [->|Hne].
  - injection Hn' as <-. exists (d :: us). split; constructor; try done. by left.
  - destruct (coerce_typed _ _ _ _ _ _ Hn' Hn) as (u & Hu & Ha). exists (u :: us). by split; constructor.
Qed.

(** the arguments of a function input *)
Lemma input_arguments_typed atts fargs actual args :
  Forall2 typed_arg (map rty_of atts) fargs → forallb sigtype_ok atts = true → actual = fargs.*2 →
  make_fn_arguments fargs.*1 actual (map (fun t => rty_oid (rty_of t)) atts) = Ok args → Forall2 (has_ty Γ) args (map rty_of atts).
Proof.
  revert fargs actual args. induction atts as [|att atts IH]; intros fargs actual args HF Hat -> Hm; inversion HF as [|? f ? fs Hf HF']; subst.
  { injection Hm as <-. constructor. }
  simpl in Hat. apply andb_prop in Hat as [Ha Hat]. cbn [map fmap list_fmap make_fn_arguments] in Hm.
  apply bind_Ok_inv in Hm as (n' & Hn' & (rest & Hrest & [= <-])%bind_Ok_inv). cbn [map]. constructor; [|by eapply IH].
  destruct (rty_of att) as [o|ts r] eqn:Ht; cbn [typed_arg rty_oid] in *.
  - assert (value_type o = true) as Hv.
    { destruct att as [[] oid [s|] loc]; simpl in Ht; simplify_eq; done. }
    destruct (Z.eqb_spec f.2 o) as [<-|Hne]; [by injection Hn' as <-|]. destruct (coerce_typed _ _ _ _ _ _ Hn' Hf) as (u & Hu & [->|Hany]); [done|].
    by destruct (value_type_spec _ Hv) as (_ & _ & _ & Hna & _).
  - destruct Hf as [Hf Ho]. rewrite Ho, Z.eqb_refl in Hn'. by injection Hn' as <-.
Qed.

Lemma actual_types ts fs declared :
  Forall2 typed_arg ts fs → (length fs ≤ length declared)%nat → zip_with (fun f d => by_name_type f.1 f.2 d) fs declared = fs.*2.
Proof.
  intros HF. revert declared. induction HF as [|t f ts fs Hf _ IH]; intros [|d declared] Hl; simpl in *; try done; try lia.
  rewrite IH by lia. destruct t as [o|us r]; [|destruct Hf as [Hf _]]; by rewrite (by_name_actual _ _ _ _ Hf).
Qed.

Lemma finish_call_inv m funcname fid ret declared ts fs n :
  Forall2 typed_arg ts fs → finish_call m funcname fid ret declared fs = Ok n →
  (length fs ≤ length declared)%nat ∧ ∃ declared' ret' args, enforce_generic_type_consistency fs.*2 declared ret = Ok (declared', ret')
    ∧ make_fn_arguments fs.*1 fs.*2 declared' = Ok args ∧ n = call_node m funcname fid ret' args.
Proof.
  intros HF H. unfold finish_call in H. apply bind_Ok_inv in H as ([declared' ret'] & Hg & (args & Hm & [= <-])%bind_Ok_inv). cbn [fst snd] in *.
  assert (length fs ≤ length declared)%nat as Hl.
  { apply fn_arguments_length in Hm as (_ & Hm & _). by rewrite length_fmap, (generic_length _ _ _ _ _ Hg) in Hm. }
  rewrite (actual_types _ _ _ HF Hl) in Hg, Hm. split; [done|]. by eexists _, _, _.
Qed.

(** ** Calls *)

Lemma match_input_spec funcname m st' :
  match_input lambda_env funcname st = Ok (m, st') →
  match called_input (argnames h) funcname with
  | None => m = NoInput
  | Some i => ∃ attr, LambdaSig.argtypes sig !! i = Some attr ∧ m = MatchingSigType attr i
  end.
Proof.
  unfold match_input, called_input. simpl. intros H. apply parser_bind_inv in H as (name & s1 & (nm & Hn & [= -> ->])%lift_inv & H).
  destruct (head funcname) as [nm'|]; [|done]. injection Hn as ->. simpl.
  destruct (list_index (argnames h) nm) as [i|]; [|by parser_inv]. rewrite Hkind in H.
  apply parser_bind_inv in H as (sg & s2 & Hs & H). rewrite Hsig in Hs. injection Hs as <- <-.
  apply parser_bind_inv in H as (attr & s3 & (a & Ha & [= -> ->])%lift_inv & H). injection H as <- <-.
  exists a. destruct (LambdaSig.argtypes sig !! i); [by injection Ha as ->|done].
Qed.

(** the arguments a call goes on with *)
Definition filled_args (m : InputMatch) (fargs : list (Node * Oid)) : parser (list (Node * Oid)) :=
  if existsb is_hole fargs.*1 then
    if is_matched m then
      lift (ereport ERRCODE_FEATURE_NOT_SUPPORTED (lit "partial application of a lambda function input is not supported"))
    else pmapM (reread_hole lambda_env) fargs
  else mret fargs.

Lemma filled_args_typed m la lt ln fs fs' st' :
  args_passed la lt ln → farg_types ln = Ok fs → filled_args m fs st = Ok (fs', st') →
  st' = st ∧ Forall2 typed_arg lt fs'.
Proof.
  intros Hp Hf H. unfold filled_args in H. destruct (existsb _ _) eqn:He.
  - destruct (is_matched m); [by parser_inv|]. split; [|by eapply reread_typed].
    eapply keeps_pmapM; [|exact H]. apply Forall_forall. intros. apply keeps_reread.
  - parser_inv. split; [done|by eapply farg_types_typed].
Qed.

Lemma any_atoms_typed k fs : Forall2 typed_arg (repeat any_atom k) fs → length fs = k ∧ Forall2 (fun n a => has_ty Γ n (RAtom a)) fs.*1 fs.*2.
Proof. revert fs. induction k as [|k IH]; intros fs HF; inversion HF as [|? ? ? ? Hf HF']; subst; [done|]. apply IH in HF' as [<- HF']. split; [done|by constructor]. Qed.

(** a call of a function, a cast or a projection *)
Lemma plain_call_analysed k fs (one_name : bool) funcname qname fdresult n st' :
  Forall2 typed_arg (repeat any_atom k) fs → (Z.of_nat k >? FUNC_MAX_ARGS) = false →
  (∀ f r d, fdresult = FUNCDETAIL_NORMAL f r d → func_detail qname fs.*1 fs.*2 = Ok fdresult) →
  match fdresult with
  | FUNCDETAIL_COERCION rettype =>
      first_arg ← lift (deref (head fs)); lift (coerce_type COERCION_EXPLICIT first_arg.1 first_arg.2 rettype)
  | FUNCDETAIL_LAMBDA => matched ← lift (deref None); make_lambda_call matched fs
  | FUNCDETAIL_NORMAL funcid rettype declared => lift (finish_call NoInput funcname funcid rettype declared fs)
  | FUNCDETAIL_NOTFOUND =>
      proj ← lift (match one_name, fs with
                   | true, [(arg, t)] => name ← deref (head funcname); complex_projection name arg t
                   | _, _ => Ok None
                   end);
      match proj with
      | Some node => mret node
      | None => lift (ereport ERRCODE_UNDEFINED_FUNCTION (lit "function " ++ func_signature_string funcname fs.*2 ++ lit " does not exist"))
      end
  end st = Ok (n, st') → ∃ o, has_ty Γ n (RAtom o).
Proof.
  intros Hfs Hk Hfd H. destruct (any_atoms_typed _ _ Hfs) as [Hl Hty]. destruct fdresult as [|fid ret declared|ret|].
  - apply parser_bind_inv in H as (proj & s1 & (pr & Hpr & [= -> ->])%lift_inv & H). destruct pr as [e|]; [|by parser_inv].
    injection H as <- <-. destruct one_name, fs as [|[arg o] []]; try done. apply bind_Ok_inv in Hpr as (nm & _ & Hpr).
    apply Forall2_cons in Hty as [Harg _]. by eapply projection_typed.
  - apply lift_inv in H as (n' & Hn & [= -> ->]). destruct (func_declared _ _ _ _ _ _ (Hfd _ _ _ eq_refl)) as [Hdecl Hlen]. rewrite length_fmap in Hlen.
    destruct (finish_call_inv _ _ _ _ _ _ _ _ Hfs Hn) as (_ & declared' & ret' & args & Hg & Hm & ->).
    destruct (fn_arguments_typed _ _ declared' args Hty ltac:(by rewrite (generic_length _ _ _ _ _ Hg), length_fmap) Hm) as (us & Hus & Hacc).
    destruct (generic_typed _ _ _ _ _ _ _ Hdecl Hg Hacc) as [Hp Hv]. exists ret'. apply (ty_plain _ _ us); [done| |done|done|done].
    simpl. apply fn_arguments_length in Hm as (_ & _ & ->). by rewrite length_fmap, Hl, Hk.
  - apply parser_bind_inv in H as (f & s1 & (f' & Hf & [= -> ->])%lift_inv & H). apply lift_inv in H as (e' & Ha & [= -> ->]).
    destruct fs as [|[e o] fs]; [done|]. injection Hf as <-. apply Forall2_cons in Hty as [Harg _].
    destruct (coerce_typed _ _ _ _ _ _ Ha Harg) as (u & Hu & _). by exists u.
  - by parser_inv.
Qed.

(** a call of a function input *)
Lemma input_call_analysed i attr ts r fs funcname fid n st' :
  LambdaSig.argtypes sig !! i = Some attr → rty_of attr = RFun ts r → Forall2 typed_arg ts fs →
  (d ← lift (input_types (MatchingSigType attr i));
   declared ← lift (declared_array (length fs) d.1);
   lift (finish_call (MatchingSigType attr i) funcname fid d.2 declared fs)) st = Ok (n, st') →
  has_ty Γ n (RAtom r).
Proof.
  intros Hi Hty Hfs H. pose proof (forallb_lookup_ok _ _ _ _ Hok Hi) as Hat.
  destruct (fun_input _ _ _ Hty Hat) as (oid & args & ret & l & loc & -> & -> & -> & _ & Hargs & Hv).
  apply parser_bind_inv in H as (d & s1 & (d' & Hd & [= -> ->])%lift_inv & H). injection Hd as <-.
  apply parser_bind_inv in H as (dl & s2 & (dl' & Hdl & [= -> ->])%lift_inv & H). apply lift_inv in H as (n' & Hn & [= -> ->]).
  pose proof (Forall2_length _ _ _ Hfs) as Hl. rewrite length_map in Hl. cbn [fst snd] in *. unfold declared_array in Hdl.
  rewrite length_fmap, Hl, Nat.leb_refl, Nat.sub_diag, app_nil_r in Hdl. injection Hdl as <-.
  destruct (finish_call_inv _ _ _ _ _ _ _ _ Hfs Hn) as (_ & declared' & ret' & nargs & Hg & Hm & ->).
  assert (((fun input => if sigtype_is_function input then LAMBDAOID else sigtype_oid input) <$> args) = map (fun t => rty_oid (rty_of t)) args) as Hdecl.
  { apply list_fmap_ext. intros j [[] o [s|] lc] _; done. }
  rewrite Hdecl in Hg. apply generic_plain in Hg as [= -> ->].
  - apply ty_call with (map rty_of args); [simpl; lia| |done|by eapply input_arguments_typed].
    simpl. unfold Γ. by rewrite Nat2Z.id, map_lookup, Hi.
  - cbn [forallb]. apply andb_true_intro. split; [by destruct (value_type_spec _ Hv) as (_ & _ & _ & _ & ->)|]. apply forallb_forall.
    intros t (a & <- & Ha)%in_map_iff. rewrite forallb_forall in Hargs. specialize (Hargs a Ha). destruct a as [[] o [s|] lc]; try done;
      simpl in Hargs |- *; by destruct (value_type_spec _ Hargs) as (_ & _ & _ & _ & ->).
Qed.

Lemma get_detail_normal funcname fargs types fd :
  func_get_detail funcname fargs types = Ok fd → ∃ qname, fd ≠ FUNCDETAIL_LAMBDA → func_detail qname fargs types = Ok fd.
Proof.
  unfold func_get_detail. destruct (delete_prefix funcname) as [[a b] qname]. exists qname. intros Hne.
  destruct (a && func_candidates _ _); [done|]. destruct (a && b); [congruence|done].
Qed.

Lemma get_detail_input funcname fargs types fd :
  func_get_detail (LAMBDA_PASS_TO_FUNC_DETAIL :: funcname) fargs types = Ok fd → func_detail funcname fargs types = Ok fd.
Proof.
  intros H. unfold func_get_detail, delete_prefix in H. rewrite (bool_decide_eq_true_2 _ eq_refl : pg_strcaseeq _ _ = true) in H.
  cbn [andb] in H. by destruct (func_candidates _ _).
Qed.

Lemma input_projection ts name arg o e : Forall2 typed_arg ts [(arg, o)] → complex_projection name arg o = Ok (Some e) → ∃ o, has_ty Γ e (RAtom o).
Proof.
  intros HF He. inversion HF as [|t ? ? ? Hf]; subst. destruct t as [|us r]; simpl in Hf.
  - by eapply projection_typed.
  - destruct Hf as [_ ->]. by apply projection_lambda in He.
Qed.

Lemma call_analysed funcname args ln n st' :
  match called_input (argnames h) funcname with
  | Some i => ∃ ts r, Γ !! i = Some (RFun ts r) ∧ args_passed args ts ln
  | None => args_passed args (repeat any_atom (length ln)) ln
  end →
  ParseFuncOrColumn lambda_env funcname ln st = Ok (n, st') → ∃ o, has_ty Γ n (RAtom o).
Proof.
  intros Hargs H. unfold ParseFuncOrColumn in H. destruct (Z.of_nat (length ln) >? FUNC_MAX_ARGS) eqn:Hmax; [by parser_inv|].
  apply parser_bind_inv in H as (fs & s1 & (fs' & Hfs & [= -> ->])%lift_inv & H).
  apply parser_bind_inv in H as (m & s2 & Hm & H). pose proof (keeps_match_input _ _ _ _ _ Hm) as ->. apply match_input_spec in Hm.
  rewrite (lookup_no_columns Hcol), lift_bind in H.
  apply parser_bind_inv in H as (gs & s3 & Hgs & H). change (filled_args m fs' st = Ok (gs, s3)) in Hgs.
  apply parser_bind_inv in H as (fd & s4 & (fd' & Hfd & [= -> ->])%lift_inv & H).
  destruct (called_input (argnames h) funcname) as [i|] eqn:Hc.
  - destruct Hm as (attr & Hi & ->), Hargs as (ts & r & Hts & Hp). destruct (filled_args_typed _ _ _ _ _ _ _ Hp Hfs Hgs) as [-> Hgt].
    assert (rty_of attr = RFun ts r) as Hty by (unfold Γ in Hts; rewrite map_lookup, Hi in Hts; by injection Hts).
    apply get_detail_input in Hfd. cbn [is_matched] in H. destruct fd' as [|fid rt declared|rt|].
    + apply parser_bind_inv in H as (pr & s5 & (pr' & Hpr & [= -> ->])%lift_inv & H).
      destruct pr' as [e|]; [|exists r; by eapply input_call_analysed]. injection H as <- <-.
      destruct (length funcname =? 1)%nat, gs as [|[arg o] []]; try done. apply bind_Ok_inv in Hpr as (nm & _ & Hpr). by eapply input_projection.
    + exists r. by eapply input_call_analysed.
    + by destruct (Hfresh _ _ _ _ _ Hc Hfd).
    + exists r. by eapply input_call_analysed.
  - subst m. destruct (filled_args_typed _ _ _ _ _ _ _ Hargs Hfs Hgs) as [-> Hgt]. destruct (get_detail_normal _ _ _ _ Hfd) as [qname Hq].
    eapply (plain_call_analysed (length ln) gs (length funcname =? 1)%nat _ qname fd'); [done|done|by intros f r d ->; apply Hq|exact H].
Qed.

(** ** Expressions *)

Definition atom (n : Node) : Prop := ∃ o, has_ty Γ n (RAtom o).
Definition of_type (t : Oid) (n : Node) : Prop := has_ty Γ n (RAtom t).

Lemma coerce_exact ccontext n s t n' : coerce_type ccontext n s t = Ok n' → t ≠ ANYOID → of_type s n → of_type t n'.
Proof. intros Hc Hany Hn. by destruct (coerce_typed _ _ _ _ _ _ Hc Hn) as (t' & Ht & [->|?]). Qed.

Lemma coerce_to_boolean_typed n name n' : coerce_to_boolean n name = Ok n' → atom n → of_type BOOLOID n'.
Proof.
  unfold coerce_to_boolean. intros (o & Ho & H)%bind_Ok_inv [o' Hn]. rewrite (has_ty_exprType _ _ _ Hn) in Ho. injection Ho as <-. cbn [rty_oid] in *.
  destruct (Z.eqb_spec o' BOOLOID) as [E|E]; [rewrite E in Hn; by injection H as <-|].
  apply bind_Ok_inv in H as ([r|] & Hr & H); [|done]. injection H as <-. unfold coerce_to_target_type in Hr.
  destruct (can_coerce_type _ _ _); [|done]. apply bind_Ok_inv in Hr as (r' & Hr & [= <-]). by eapply coerce_exact.
Qed.

Lemma coerce_to_common_typed t name n n' : t ≠ ANYOID → coerce_to_common_type t name n = Ok n' → atom n → of_type t n'.
Proof.
  unfold coerce_to_common_type. intros Ht (o & Ho & H)%bind_Ok_inv [o' Hn]. rewrite (has_ty_exprType _ _ _ Hn) in Ho. injection Ho as <-. cbn [rty_oid] in *.
  destruct (Z.eqb_spec o' t) as [E|E]; [rewrite E in Hn; by injection H as <-|].
  destruct (can_coerce_type _ _ _); [|done]. by eapply coerce_exact.
Qed.

Lemma common_all_typed t name ns ns' :
  t ≠ ANYOID → omapM (coerce_to_common_type t name) ns = Ok ns' → Forall atom ns → length ns' = length ns ∧ Forall (of_type t) ns'.
Proof.
  intros Ht H%omapM_Forall2 Hc. split; [symmetry; by eapply Forall2_length|].
  induction H as [|n n' ns ns' Hn _ IH]; [constructor|]. apply Forall_cons in Hc as [Hc Hcs]. constructor; [|by apply IH].
  by eapply coerce_to_common_typed.
Qed.

Lemma same_types t ns : Forall (of_type t) ns → Forall2 (fun n t => has_ty Γ n (RAtom t)) ns (repeat t (length ns)).
Proof. induction 1; constructor; done. Qed.

Lemma repeat_same {A} (x : A) k : Forall (eq x) (repeat x k).
Proof. induction k; by constructor. Qed.

Definition IH_at (e : RawExpr) : Prop :=
  ∀ t n st', raw_ok (argnames h) Γ e t → transformExprRecurse lambda_env e st = Ok (n, st') → analysed t n.

(** a list of operands *)
Lemma operands_typed {A} (P : Node → Prop) (f : A → parser Node) l ns st' :
  (∀ x, x ∈ l → keeps st (f x)) → (∀ x n, x ∈ l → f x st = Ok (n, st) → P n) →
  pmapM f l st = Ok (ns, st') → st' = st ∧ length ns = length l ∧ Forall P ns.
Proof.
  intros Hk Hf H. apply pmapM_inv in H as [-> H]; [|done]. split; [done|]. split; [symmetry; by eapply Forall2_length|].
  clear Hk. induction H as [|x n l ns Hx _ IH]; [constructor|]. constructor; [refine (Hf x n _ Hx); set_solver|apply IH; set_solver].
Qed.

Lemma func_args_passed args ts ln :
  all2 (fun a t => raw_ok (argnames h) Γ a t) args ts → (∀ a, a ∈ args → IH_at a) →
  Forall2 (fun a n => (if is_underscore a then mret NHolePlaceholder else transformExprRecurse lambda_env a) st = Ok (n, st)) args ln →
  args_passed args ts ln.
Proof.
  intros Hr%all2_Forall2 HIH Hl. revert ts Hr. induction Hl as [|a n args ln Ha _ IH]; intros ts Hr; inversion Hr; subst; [constructor|].
  constructor; [done| |apply IH; [set_solver|done]]. unfold passed_arg. destruct (is_underscore a); [by injection Ha as <-|].
  refine (HIH a _ _ _ _ _ Ha); [set_solver|done].
Qed.

Lemma all_repeat args k : length args = k →
  all (fun a => raw_ok (argnames h) Γ a any_atom) args → all2 (fun a t => raw_ok (argnames h) Γ a t) args (repeat any_atom k).
Proof. intros <-. induction args as [|a args IH]; simpl; [done|]. intros [? ?]. auto. Qed.

Lemma func_call_analysed funcname args t n st' :
  raw_ok (argnames h) Γ (RFuncCall funcname args) t → (∀ a, a ∈ args → IH_at a) →
  transformExprRecurse lambda_env (RFuncCall funcname args) st = Ok (n, st') → atom n.
Proof.
  intros [_ Hr] HIH H. cbn [transformExprRecurse] in H. unfold transformFuncCall in H.
  apply parser_bind_inv in H as (ln & s1 & Hln & H).
  apply pmapM_inv in Hln as [-> Hln]; [|intros a _; destruct (is_underscore a); [apply keeps_ret|by apply transform_keeps]].
  eapply call_analysed; [|exact H]. destruct (called_input _ _) as [i|].
  - destruct (Γ !! i) as [[|ts r]|]; try done. exists ts, r. split; [done|]. by apply func_args_passed.
  - apply func_args_passed; [|done|done]. apply all_repeat; [by eapply Forall2_length|done].
Qed.

Lemma operand e n st' : IH_at e → raw_ok (argnames h) Γ e any_atom → transformExprRecurse lambda_env e st = Ok (n, st') → st' = st ∧ atom n.
Proof. intros HIH Hr H. split; [by eapply transform_keeps|]. by apply (HIH _ _ _ Hr H). Qed.

(** AND, OR, NOT *)
Lemma bool_analysed boolop args t n st' :
  (∀ e, e ∈ args → IH_at e) → raw_ok (argnames h) Γ (RBoolExpr boolop args) t →
  transformBoolExpr (transformExprRecurse lambda_env) boolop args st = Ok (n, st') → atom n.
Proof.
  intros HIH (_ & Hshape & Hargs%all_Forall) H. rewrite Forall_forall in Hargs.
  apply parser_bind_inv in H as (ns & s1 & Hns & H). injection H as <- <-.
  apply (operands_typed (of_type BOOLOID)) in Hns as (-> & Hl & Hns).
  - exists BOOLOID. apply (ty_plain _ _ (repeat BOOLOID (length ns))); [done| |by split; [|apply repeat_same]|done|by apply same_types].
    simpl. rewrite Hl. by destruct boolop.
  - intros e He. apply keeps_bind; [by apply transform_keeps|]. intros. apply keeps_lift.
  - intros e n He H. apply parser_bind_inv in H as (n0 & s2 & Hn0 & H). apply lift_inv in H as (n1 & Hn1 & [= -> <-]).
    eapply coerce_to_boolean_typed; [exact Hn1|]. by eapply operand; [apply HIH|apply Hargs|exact Hn0].
Qed.

(** COALESCE, GREATEST and LEAST *)
Lemma common_args_typed args ns st' :
  (∀ e, e ∈ args → IH_at e) → all (fun a => raw_ok (argnames h) Γ a any_atom) args →
  pmapM (transformExprRecurse lambda_env) args st = Ok (ns, st') → length ns = length args ∧ Forall atom ns.
Proof.
  intros HIH Hargs%all_Forall H. rewrite Forall_forall in Hargs. apply (operands_typed atom) in H as (_ & Hl & Hns); [done|..].
  - intros e _. by apply transform_keeps.
  - intros e n He Hn. by eapply operand; [apply HIH|apply Hargs|exact Hn].
Qed.

Lemma whens_ok (whens : list (RawExpr * RawExpr)) P : all_raw_whens P whens → ∀ w, w ∈ whens → P w.1 ∧ P w.2.
Proof. induction whens as [|[e r] l IH]; [by intros _ w ?%elem_of_nil|]. intros (? & ? & ?) w [->|]%elem_of_cons; auto. Qed.

Lemma whens_typed whens ws st' :
  (∀ e, e ∈ raw_whens whens → IH_at e) → all_raw_whens (fun a => raw_ok (argnames h) Γ a any_atom) whens →
  pmapM (transformCaseWhen (transformExprRecurse lambda_env)) whens st = Ok (ws, st') →
  st' = st ∧ Forall (of_type BOOLOID) ws.*1 ∧ Forall atom ws.*2.
Proof.
  intros HIH Hr H. apply pmapM_inv in H as [-> H].
  2: { intros w _. unfold transformCaseWhen. repeat (apply keeps_bind; [first [by apply transform_keeps|apply keeps_lift]|intros]). apply keeps_ret. }
  split; [done|]. assert (Hw : ∀ w, w ∈ whens → _) by exact (whens_ok whens _ Hr).
  assert (Hi : ∀ w, w ∈ whens → IH_at w.1 ∧ IH_at w.2) by (intros w ?%raw_whens_elem; naive_solver). clear HIH Hr.
  induction H as [|w [e r] l ws Hx _ IH]; [by split|]. destruct IH as [IH1 IH2]; [intros; apply Hw; set_solver|intros; apply Hi; set_solver|].
  apply parser_bind_inv in Hx as (e0 & s1 & He0 & Hx). apply parser_bind_inv in Hx as (e1 & s2 & (e2 & He2 & [= -> ->])%lift_inv & Hx).
  apply parser_bind_inv in Hx as (r0 & s3 & Hr0 & Hx). injection Hx as -> -> Hs.
  destruct (Hi w) as [Hi1 Hi2]; [set_solver|]. destruct (Hw w) as [Hw1 Hw2]; [set_solver|].
  apply operand in He0 as [-> He0]; [|done..]. apply operand in Hr0 as [-> Hr0]; [|done..].
  split; constructor; try done. by eapply coerce_to_boolean_typed.
Qed.

Lemma whens_zip_typed t es rs :
  Forall (of_type BOOLOID) es → Forall (of_type t) rs →
  Forall2 (fun n t => has_ty Γ n (RAtom t)) (when_nodes (zip es rs)) (mjoin (repeat [BOOLOID; t] (length (zip es rs)))).
Proof.
  intros H. revert rs. induction H as [|e es He _ IH]; intros [|r rs] Hr; [constructor..|]. apply Forall_cons in Hr as [Hr Hrs].
  simpl. do 2 (constructor; [done|]). by apply IH.
Qed.

Lemma case_analysed whens def t n st' :
  (∀ e, e ∈ raw_whens whens ++ opt_list def → IH_at e) → raw_ok (argnames h) Γ (RCaseExpr whens def) t →
  transformCaseExpr (transformExprRecurse lambda_env) whens def st = Ok (n, st') → atom n.
Proof.
  intros HIH (_ & Hw & Hd) H. apply parser_bind_inv in H as (ws & s1 & Hws & H).
  apply whens_typed in Hws as (-> & Hws1 & Hws2); [|intros; apply HIH; set_solver|done].
  apply parser_bind_inv in H as (nd & s2 & Hnd & H). assert (s2 = st ∧ atom nd) as [-> Hcd].
  { destruct def as [d|]; [apply (operand d); [apply HIH; set_solver|done|done]|]. injection Hnd as <- <-. split; [done|]. exists UNKNOWNOID.
    by apply (ty_plain _ _ []). }
  apply parser_bind_inv in H as (pt & s3 & (pt' & Hpt & [= -> ->])%lift_inv & H). destruct (common_value _ _ _ Hpt) as [Hany Hval].
  apply parser_bind_inv in H as (nd1 & s4 & (nd2 & Hnd2 & [= -> ->])%lift_inv & H).
  apply parser_bind_inv in H as (rs & s5 & (rs' & Hrs & [= -> ->])%lift_inv & H). injection H as <- <-.
  apply common_all_typed in Hrs as [_ Hrs]; [|done|done]. exists pt'. eapply ty_plain; [done|done|by split|done|].
  apply Forall2_app; [by apply whens_zip_typed|]. constructor; [|constructor]. by eapply coerce_to_common_typed.
Qed.

Lemma op_analysed name l r t n st' :
  (∀ e, e ∈ opt_list l ++ [r] → IH_at e) → raw_ok (argnames h) Γ (ROp name l r) t →
  transformAExprOp (transformExprRecurse lambda_env) name l r st = Ok (n, st') → atom n.
Proof.
  intros HIH (_ & Hl & Hr) H. apply parser_bind_inv in H as (ln & s1 & Hln & H).
  assert (s1 = st ∧ match ln with Some n => atom n | None => True end) as [-> Hcl].
  { destruct l as [l|]; [|by injection Hln as <- <-]. apply parser_bind_inv in Hln as (n1 & s2 & Hn1 & Hln). injection Hln as <- <-.
    apply operand in Hn1 as [-> Hn1]; [done|apply HIH; set_solver|done]. }
  apply parser_bind_inv in H as (rn & s2 & Hrn & H). apply operand in Hrn as [-> [ro Hro]]; [|apply HIH; set_solver|done].
  apply lift_inv in H as (n' & Hop & [= -> ->]). unfold make_op in Hop.
  apply bind_Ok_inv in Hop as (lt & Hlt & (rt & Hrt & (form & Hform & Hop)%bind_Ok_inv)%bind_Ok_inv).
  rewrite (has_ty_exprType _ _ _ Hro) in Hrt. injection Hrt as <-. cbn [rty_oid] in *. pose proof (oper_declared _ _ _ _ Hform) as Hdecl.
  set (q := match ln with None => _ | Some _ => _ end) in Hop. destruct q as [[args actual] declared] eqn:Hq.
  assert (Forall2 (fun n a => has_ty Γ n (RAtom a)) args actual ∧ length declared = length args ∧ (length args ≤ 2)%nat
          ∧ proc_declared (oprcode form) declared (oprresult form)) as (Hargs & Hld & Hl2 & Hd).
  { destruct ln as [l0|]; injection Hq as <- <- <-.
    - destruct Hcl as [lo Hlo]. rewrite (has_ty_exprType _ _ _ Hlo) in Hlt. injection Hlt as <-. cbn [rty_oid] in *.
      rewrite (proj2 (Z.eqb_neq _ _) (typed_valid _ _ Hlo)) in Hdecl.
      split_and!; [do 2 (constructor; [done|]); constructor|done|simpl; lia|done].
    - injection Hlt as <-. split_and!; [constructor; [done|constructor]|done|simpl; lia|done]. }
  apply bind_Ok_inv in Hop as ([declared' ret'] & Hg & (as' & Hm & [= <-])%bind_Ok_inv). cbn [fst snd] in *.
  destruct (fn_arguments_typed _ _ declared' as' Hargs ltac:(by rewrite (generic_length _ _ _ _ _ Hg)) Hm) as (us & Hus & Hacc).
  destruct (generic_typed _ _ _ _ _ _ _ Hd Hg Hacc) as [Hp Hv]. exists ret'. apply (ty_plain _ _ us); [done| |done|done|done].
  apply fn_arguments_length in Hm as (_ & _ & Hlen). simpl. apply negb_true_iff. rewrite Z.gtb_ltb. apply Z.ltb_ge. unfold FUNC_MAX_ARGS. lia.
Qed.

Lemma transform_analysed e : IH_at e.
Proof.
  induction e as [e IH] using raw_ind. rewrite Forall_forall in IH. intros t n st' Hr H.
  assert (match e with RColumnRef _ => False | _ => True end → same_kind any_atom t) as Ht by (destruct e; try done; intros _; apply Hr).
  destruct e; cbn [raw_children] in IH; [by eapply column_ref_analysed|..]; specialize (Ht I);
    (assert (atom n) as [o Ho]; [|by eapply atom_analysed]); cbn [transformExprRecurse] in H.
  - apply parser_bind_inv in H as (c & s1 & (c' & Hc & [= -> ->])%lift_inv & H). injection H as <- <-. exists (consttype c').
    apply (ty_plain _ _ []); [done|done|split; [done|by eapply const_typed]| |constructor].
    destruct val; simpl in Hc; outcome_inv; try done. destruct (pg_strtoint64_safe fval); [destruct (_ =? _)|]; outcome_inv; done.
  - by eapply func_call_analysed.
  - by eapply op_analysed.
  - by eapply bool_analysed.
  - destruct Hr as [_ Hr]. apply parser_bind_inv in H as (a & s1 & Ha & H). apply operand in Ha as [-> [o Ho]]; [|apply IH; set_solver|done].
    apply parser_bind_inv in H as (o' & s2 & _ & H). injection H as <- <-. exists BOOLOID. apply (ty_plain _ _ [o]); [done..|by constructor].
  - destruct Hr as [_ Hr]. apply parser_bind_inv in H as (a & s1 & Ha & H). apply operand in Ha as [-> Ha]; [|apply IH; set_solver|done].
    apply parser_bind_inv in H as (b & s2 & (b' & Hb & [= -> ->])%lift_inv & H). injection H as <- <-.
    exists BOOLOID. apply (ty_plain _ _ [BOOLOID]); [done..|]. constructor; [|constructor]. by eapply coerce_to_boolean_typed.
  - by eapply case_analysed.
  - destruct Hr as (_ & Hshape & Hr). apply parser_bind_inv in H as (ns & s1 & Hns & H). apply common_args_typed in Hns as [Hl Hns]; [|done..].
    apply parser_bind_inv in H as (ty & s2 & (ty' & Hty & [= -> ->])%lift_inv & H). destruct (common_value _ _ _ Hty) as [Hany Hval].
    apply parser_bind_inv in H as (cs & s3 & (cs' & Hcs & [= -> ->])%lift_inv & H). injection H as <- <-.
    apply common_all_typed in Hcs as [Hl' Hcs]; [|done|done]. exists ty'. eapply ty_plain; [done| | |done|by apply same_types].
    + simpl. rewrite Hl', Hl. exact Hshape.
    + split; [done|apply repeat_same].
  - destruct Hr as (_ & _ & Hr). apply parser_bind_inv in H as (ns & s1 & Hns & H). apply common_args_typed in Hns as [Hl Hns]; [|done..].
    apply parser_bind_inv in H as (ty & s2 & (ty' & Hty & [= -> ->])%lift_inv & H). destruct (common_value _ _ _ Hty) as [Hany Hval].
    apply parser_bind_inv in H as (cs & s3 & (cs' & Hcs & [= -> ->])%lift_inv & H). injection H as <- <-.
    apply common_all_typed in Hcs as [Hl' Hcs]; [|done|done]. exists ty'. eapply ty_plain; [done|done| |done|by apply same_types].
    split; [done|apply repeat_same].
Qed.
End Typing.

(** * Analysis of lambda calls

    What the analysis of a call of a lambda column accepts, and the call node
    it builds: the casts of the arguments, the set of held positions and the
    signature of a partial application. *)

Section Call.
Context `{NIO : NodeIO} `{PP : ParseParams}.

(** a filled argument [n] for the declared type [t] *)
Definition filled_arg (ft : (Node * Oid) * LambdaSigType) (n : Node) : Prop :=
  let '((arg, actual), t) := ft in
  if sigtype_is_function t then actual = LAMBDAOID ∧ n = arg
  else coerce_to_target_type arg actual (sigtype_oid t) COERCION_ASSIGNMENT = Ok (Some n).

(** the arguments that are no holes, with their declared types *)
Definition filled (fargs : list (Node * Oid)) (types : list LambdaSigType) : list ((Node * Oid) * LambdaSigType) :=
  filter (fun ft => is_hole ft.1.1 = false) (zip fargs types).

Definition hole_at (fargs : list (Node * Oid)) (i : Z) : bool :=
  match fargs !! Z.to_nat i with Some f => is_hole f.1 | None => false end.

Lemma filled_cons f fargs t types :
  filled (f :: fargs) (t :: types) = if is_hole f.1 then filled fargs types else (f, t) :: filled fargs types.
Proof.
  unfold filled. cbn [zip zip_with]. destruct (is_hole f.1) eqn:Hh; [by rewrite filter_cons_False by (simpl; congruence)|].
  by rewrite filter_cons_True.
Qed.

Lemma hole_at_cons f fargs k i :
  (k <=? i) && hole_at (f :: fargs) (i - k) = (i =? k) && is_hole f.1 || (k + 1 <=? i) && hole_at fargs (i - (k + 1)).
Proof.
  unfold hole_at. destruct (Z.eqb_spec i k) as [->|Hne].
  - rewrite Z.sub_diag, Z.leb_refl, (proj2 (Z.leb_gt (k + 1) k)) by lia. simpl. by rewrite orb_false_r.
  - destruct (Z.leb_spec k i); [|by rewrite (proj2 (Z.leb_gt (k + 1) i)) by lia].
    rewrite (proj2 (Z.leb_le (k + 1) i)) by lia. cbn [andb orb].
    by replace (Z.to_nat (i - k)) with (S (Z.to_nat (i - (k + 1)))) by lia.
Qed.

Lemma call_args_spec k held fargs types :
  0 ≤ k → bms_wf held → length fargs = length types →
  match lambda_call_args k held fargs types with
  | Ok (args, held') =>
      Forall2 filled_arg (filled fargs types) args ∧ bms_wf held'
      ∧ ∀ i, 0 ≤ i → bms_in i held' = bms_in i held || ((k <=? i) && hole_at fargs (i - k))
  | _ => ¬ ∃ args, Forall2 filled_arg (filled fargs types) args
  end.
Proof.
  revert k held types. induction fargs as [|[arg o] fargs IH]; intros k held [|t types] Hk Hwf Hl; try done.
  - simpl. split_and!; [constructor|done|]. intros i Hi. unfold hole_at. simpl. by rewrite andb_false_r, orb_false_r.
  - injection Hl as Hl. cbn [lambda_call_args]. rewrite filled_cons. cbn [fst]. destruct (is_hole arg) eqn:Hh.
    + destruct (add_member_spec held k Hwf Hk) as (held1 & -> & Hwf1 & Hin1). cbn [mbind outcome_bind].
      specialize (IH (k + 1) held1 types ltac:(lia) Hwf1 Hl). destruct (lambda_call_args _ _ _ _) as [[args held']| | |]; try done.
      destruct IH as (Hf & Hwf' & Hin). split_and!; [done|done|]. intros i Hi. rewrite Hin, Hin1, hole_at_cons by done.
      cbn [fst]. by rewrite Hh, andb_true_r, orb_assoc.
    + assert (Hrest : ∀ coerced, filled_arg ((arg, o), t) coerced →
        match (r ← lambda_call_args (k + 1) held fargs types; Ok (coerced :: r.1, r.2)) with
        | Ok (args, held') =>
            Forall2 filled_arg (((arg, o), t) :: filled fargs types) args ∧ bms_wf held'
            ∧ ∀ i, 0 ≤ i → bms_in i held' = bms_in i held || ((k <=? i) && hole_at ((arg, o) :: fargs) (i - k))
        | _ => ¬ ∃ args, Forall2 filled_arg (((arg, o), t) :: filled fargs types) args
        end).
      { intros c Hc. specialize (IH (k + 1) held types ltac:(lia) Hwf Hl). destruct (lambda_call_args _ _ _ _) as [[args held']| | |]; simpl;
          try (intros (args & Hargs); apply IH; inversion Hargs; subst; by eexists).
        destruct IH as (Hf & Hwf' & Hin). split_and!; [by constructor|done|]. intros i Hi. rewrite Hin, hole_at_cons by done.
        cbn [fst]. by rewrite Hh, andb_false_r. }
      assert (Hno : (¬ ∃ c, filled_arg ((arg, o), t) c) → ¬ ∃ args, Forall2 filled_arg (((arg, o), t) :: filled fargs types) args).
      { intros Hn (args & Hargs). apply Hn. inversion Hargs; subst. by eexists. }
      destruct (sigtype_is_function t) eqn:Hf.
      * destruct (Z.eqb_spec o LAMBDAOID) as [->|Hne]; cbn [negb]; [apply Hrest; simpl; by rewrite Hf|].
        apply Hno. intros (c & Hc). simpl in Hc. rewrite Hf in Hc. by destruct Hc.
      * destruct (coerce_to_target_type arg o (sigtype_oid t) COERCION_ASSIGNMENT) as [[c|]| | |] eqn:Hco; cbn [mbind outcome_bind];
          [apply Hrest; simpl; by rewrite Hf|apply Hno; intros (c & Hc); simpl in Hc; rewrite Hf in Hc; congruence..].
Qed.

(** ** The call *)

(** what a call with these arguments needs *)
Definition call_ok (sig : LambdaSignature) (fargs : list (Node * Oid)) : Prop :=
  length fargs = length (LambdaSig.argtypes sig)
  ∧ (∃ args, Forall2 filled_arg (filled fargs (LambdaSig.argtypes sig)) args)
  ∧ (existsb is_hole fargs.*1 = true ∨ ∃ ret, LambdaSig.rettype sig = Some ret ∧ sigtype_is_function ret = false).

(** the result of a call: a value of the return type, or a lambda of the held
    inputs *)
Definition call_result (sig : LambdaSignature) (fargs : list (Node * Oid)) (st st' : PState) (hd : CallHdr) : Prop :=
  if existsb is_hole fargs.*1 then
    cle_rettype hd = LAMBDAOID ∧ catalog_ok pg_type (ps_sigs st')
    ∧ LambdaSigGetSignature pg_type (ps_sigs st') (cle_rettypmod hd)
      = Ok (mkSignature (narrow_args (LambdaSig.argtypes sig) (is_hole <$> fargs.*1)) (LambdaSig.rettype sig) (-1))
  else
    ps_sigs st' = ps_sigs st ∧ cle_rettypmod hd = -1 ∧ LambdaSig.rettype sig = Some (mkSigType false (cle_rettype hd) None (-1)).

Definition call_built (v : Var) (sig : LambdaSignature) (fargs : list (Node * Oid)) (st : PState) (n : Node) (st' : PState) : Prop :=
  ∃ hd args, n = NCallLambdaExpr hd (NVar v) args
  ∧ length fargs = length (LambdaSig.argtypes sig)
  ∧ Forall2 filled_arg (filled fargs (LambdaSig.argtypes sig)) args
  ∧ (∀ i, 0 ≤ i → bms_in i (heldargs hd) = hole_at fargs i)
  ∧ cle_lambdatypmod hd = vartypmod v
  ∧ p_hasLambdaCall st' = true
  ∧ p_hasHigherOrderLambda st' = p_hasHigherOrderLambda st || existsb (Z.eqb LAMBDAOID) fargs.*2
  ∧ call_result sig fargs st st' hd.

Lemma no_hole_at fargs i : existsb is_hole fargs.*1 = false → hole_at fargs i = false.
Proof.
  unfold hole_at. generalize (Z.to_nat i) as k. induction fargs as [|f fargs IH]; intros [|k]; simpl; try done;
    intros [? ?]%orb_false_iff; auto.
Qed.

Lemma wf_null_set : bms_wf None.
Proof. done. Qed.

Lemma residual_narrow fargs types : residual_argtypes fargs types = narrow_args types (is_hole <$> fargs).
Proof. revert types. induction fargs as [|f fargs IH]; intros [|t types]; simpl; try done. rewrite IH. by destruct (is_hole f). Qed.

Lemma get_signature_ret rel typmod sig :
  catalog_ok pg_type rel → LambdaSigGetSignature pg_type rel typmod = Ok sig →
  ∃ ret, LambdaSig.rettype sig = Some ret ∧ (sigtype_is_function ret = false → ret = mkSigType false (sigtype_oid ret) None (-1)).
Proof.
  intros Hok Hg. destruct (get_signature_inv _ _ _ _ Hok Hg) as (i & r & s & _ & _ & _ & Hwf & _ & ->).
  destruct s as [args [[[] o s' l]|] l0]; [by eexists..|]. by simpl in Hwf; rewrite andb_false_r in Hwf.
Qed.

Context (fresh : ∀ rel, GetNewOidWithIndex rel ∉ (oid <$> rel)).

Lemma make_lambda_call_spec v sig fargs st :
  catalog_ok pg_type (ps_sigs st) → Z.of_nat (length (ps_sigs st)) ≤ PG_INT32_MAX →
  LambdaSigGetSignature pg_type (ps_sigs st) (vartypmod v) = Ok sig →
  match make_lambda_call v fargs st with
  | Ok (n, st') => call_built v sig fargs st n st'
  | _ => ¬ call_ok sig fargs
  end.
Proof.
  intros Hok Hlen Hg. unfold make_lambda_call. rewrite (parser_bind_Ok _ _ st sig st) by (by rewrite Hg).
  destruct (Nat.eqb_spec (length (LambdaSig.argtypes sig)) (length fargs)) as [Hl|Hl]; [|intros (Hl' & _); congruence]. cbn [negb].
  pose proof (call_args_spec 0 None fargs _ ltac:(done) wf_null_set (eq_sym Hl)) as Hargs.
  destruct (lambda_call_args _ _ _ _) as [[args held]| | |]; try (intros (_ & ? & _); done). rewrite lift_bind.
  destruct Hargs as (Hf & Hwf & Hin). destruct (get_signature_ret _ _ _ Hok Hg) as (ret & Hret & Hnorm). rewrite Hret.
  cbn [deref]. rewrite lift_bind. assert (Hheld : ∀ i, 0 ≤ i → bms_in i held = hole_at fargs i).
  { intros i Hi. rewrite Hin by done. rewrite (proj2 (Z.leb_le 0 i)), Z.sub_0_r by done. unfold bms_in. simpl bms_big. by rewrite Z.bits_0. }
  destruct (existsb is_hole fargs.*1) eqn:Hh.
  - rewrite residual_narrow. destruct (create_narrowed pg_type format_type_be GetNewOidWithIndex (ps_sigs st) _ sig (is_hole <$> fargs.*1) 0 fresh Hok Hlen Hg)
      as (t & rel' & Hc & Hok' & Hg'). rewrite Hret in Hc, Hg'.
    rewrite (parser_bind_Ok _ _ st t (mkPState rel' (p_hasLambdaCall st) (p_hasHigherOrderLambda st))) by (by rewrite Hc).
    eexists _, args. split_and!; try done. unfold call_result. rewrite Hh. by rewrite Hret.
  - destruct (sigtype_is_function ret) eqn:Hr.
    + intros (_ & _ & [?|(ret' & Hret' & ?)]); congruence.
    + eexists _, args. split_and!; try done.
      * intros i _. rewrite no_hole_at by done. apply Z.bits_0.
      * unfold call_result. rewrite Hh, Hret. split_and!; try done. simpl. f_equal. by apply Hnorm.
Qed.
End Call.
