(* ===== verification/ParseTheorems.v ===== *)
(** * Properties of parse analysis

    Lambda literals of an INSERT become well-typed lambdas of their columns and
    can be called without going wrong; calls of lambda columns are built
    according to the stored signature, partial applications get the signature
    of the inputs they hold; and what the analysis leaves unchecked. *)

From S2P Require Import Prelude LambdaSig LambdaSigFacts Bitmapset BitmapsetFacts Nodes NodesFacts Serialize Inject InjectFacts Typing.
From S2P Require Import Eval EvalFacts Semantics HoistFacts NodeText Demo HoistTheorems Safety SafetyTheorems.
From S2P Require Import ParseLambda ParseFacts ParseTyping.

(** ** Lambda literals *)

(** what the author of a lambda for a column of signature [sig] keeps to, since
    the analysis does not check it: as many arguments as the signature has; the
    types of the signature are types of values, and function inputs take some
    arguments; no input is named like a type; function inputs are called with as
    many arguments as they have, and function inputs are passed for function
    arguments of exactly their type *)
Record follows `{ParseParams} (l : RawLambda) (sig : LambdaSignature) : Prop := {
  fo_kind : lambdakind (rl_hdr l) = LAMBDA_SCALAR_CONTEXT;
  fo_arity : length (argnames (rl_hdr l)) = length (LambdaSig.argtypes sig);
  fo_types : forallb sigtype_ok (LambdaSig.argtypes sig) = true;
  fo_fresh : inputs_fresh (argnames (rl_hdr l));
  fo_body : raw_ok (argnames (rl_hdr l)) (rty_of_sig sig) (rl_body l) any_atom
}.

Section Literals.
Context `{NIO : NodeIO} `{PP : ParseParams} `{CT : Catalog} `{PL : !ParseLaws} (Hcol : no_columns).

Lemma rty_of_sig_map sig : rty_of_sig sig = map rty_of (LambdaSig.argtypes sig).
Proof. by destruct sig. Qed.

Lemma literal_typed env l sig st n st' :
  target_signature env st = Ok (sig, st) → follows l sig → transformLambdaExpr env l st = Ok (n, st') →
  ∃ le, n = NConst (makeLambdaConst le) ∧ lambda_at le (rty_of_sig sig) (rettype (le_hdr le))
        ∧ argnames (le_hdr le) = argnames (rl_hdr l) ∧ l3_safe (le_hdr le) = lambda_expr_is_l3_safe (Some le).
Proof.
  intros Hsig Hf H. unfold transformLambdaExpr in H. destruct (_ || _); [by parser_inv|].
  destruct (p_lambdacontext env) as [ctx|] eqn:Hctx; [|by parser_inv].
  apply parser_bind_inv in H as (body & s1 & Hb & H). apply parser_bind_inv in H as (o & s2 & (o' & Ho & [= -> ->])%lift_inv & H).
  injection H as <- <-. eexists. split; [done|]. split_and!; [|done|done]. split.
  { simpl. rewrite rty_of_sig_map, length_map. apply Hf. }
  exists body. split; [done|]. rewrite rty_of_sig_map.
  assert (Ht : target_signature (lambda_env (rl_hdr l) ctx (p_target_desc env)) st = Ok (sig, st)).
  { rewrite <- Hsig. unfold target_signature. simpl. by rewrite Hctx. }
  destruct (transform_analysed Hcol (rl_hdr l) ctx (p_target_desc env) sig st (fo_kind _ _ Hf) Ht (fo_types _ _ Hf) (fo_fresh _ _ Hf) (rl_body l) any_atom body s1)
    as [t Hty]; [rewrite <- rty_of_sig_map; apply Hf|exact Hb|].
  rewrite (has_ty_exprType _ _ _ Hty) in Ho. by injection Ho as <-.
Qed.

Lemma values_literal env items ns st st' i l desc attr sig :
  transformExpressionList env true 0 items st = Ok (ns, st') → items !! i = Some (ItemLambda l) →
  p_target_desc env = Some desc → desc !! i = Some attr →
  LambdaSigGetSignature pg_type (ps_sigs st) (ta_typmod attr) = Ok sig → follows l sig →
  ∃ le, ns !! i = Some (Some (NConst (makeLambdaConst le))) ∧ lambda_at le (rty_of_sig sig) (rettype (le_hdr le))
        ∧ argnames (le_hdr le) = argnames (rl_hdr l) ∧ l3_safe (le_hdr le) = lambda_expr_is_l3_safe (Some le).
Proof.
  intros H Hi Hd Ha Hg Hf. apply (expression_list_lambda Hcol) in H as [_ H]. destruct (H i l Hi) as (n & Hn & Ht).
  eapply literal_typed in Ht as (le & -> & Hle); [by exists le| |exact Hf].
  unfold target_signature, with_context. cbn [p_lambdacontext p_target_desc deref mbind outcome_bind targetattno].
  rewrite Hd. cbn [deref mbind outcome_bind]. rewrite Z.add_0_l, Nat2Z.id, Ha. cbn [deref mbind outcome_bind]. by rewrite Hg.
Qed.
End Literals.

(** ** A concrete instance *)

Definition demo_raw_oper (name : list cstr) (l r : Oid) : outcome OperForm :=
  if bool_decide (name = [lit "+"]) && negb (l =? InvalidOid) then Ok (mkOperForm 591 F_PLUS 701 701 701)
  else ereport ERRCODE_UNDEFINED_FUNCTION (lit "operator does not exist").

Definition demo_parse (columns : option Var) : ParseParams :=
  {| pg_type := demo_pg_type; format_type_be := demo_format_type; GetNewOidWithIndex := demo_newoid;
     get_typcollation _ := 0; func_candidates _ _ := false; func_detail _ _ _ := Ok FUNCDETAIL_NOTFOUND;
     complex_projection _ _ _ := Ok None; oper := demo_raw_oper;
     enforce_generic_type_consistency _ declared ret := Ok (declared, ret);
     can_coerce_type _ s t := (s =? t) || (s =? 23) && (t =? 701);
     coerce_type _ e s t :=
       if s =? t then Ok e else if (s =? 23) && (t =? 701) then Ok (NRelabelType t e)
       else ereport ERRCODE_CANNOT_COERCE (lit "cannot cast");
     select_common_type _ _ := Ok 701;
     pg_strtoint64_safe _ := None; numeric_in := Ok; bit_in := Ok;
     exprTypmod _ := -1; column_var _ _ := Ok columns;
     column_ref _ := ereport ERRCODE_INVALID_COLUMN_REFERENCE (lit "column does not exist") |}.

#[export] Instance demo_parse_none : ParseParams := demo_parse None.

#[export] Instance demo_parse_laws : ParseLaws.
Proof.
  refine {| proc_declared f declared ret := f = F_PLUS ∧ declared = [701; 701] ∧ ret = 701 |}.
  - intros c e s t e' Γ He Hty. simpl in He. destruct (Z.eqb_spec s t) as [->|Hne]; [injection He as <-; exists t; split; [done|by left]|].
    destruct (_ && _) eqn:Hst; [|done]. injection He as <-. apply andb_prop in Hst as [->%Z.eqb_eq ->%Z.eqb_eq]. exists 701. split; [|by left].
    apply (ty_plain _ _ [23]); [done|done|split; [done|by exists 23]|done|]. constructor; [done|constructor].
  - done.
  - intros name l r form Hf. simpl in Hf. unfold demo_raw_oper in Hf. destruct (_ && negb (l =? InvalidOid)) eqn:E; [|done].
    injection Hf as <-. apply andb_prop in E as [_ ->%negb_true_iff]. done.
  - intros f actual declared ret declared' ret' ts (-> & -> & ->) [= <- <-] Hts. split; [|done]. split; [by left|].
    apply Forall2_cons_inv_l in Hts as (a & ts1 & [->|?] & Hts & ->); [|done]. apply Forall2_cons_inv_l in Hts as (b & ts2 & [->|?] & Hts & ->); [|done].
    by apply Forall2_nil_inv_l in Hts as ->.
  - by intros actual declared ret declared' ret' [= <- <-].
  - by intros actual declared ret r [= <-].
  - done.
  - done.
  - intros [|ival|fval|b|str|str] k Hk Hn; simpl in Hk; outcome_inv; try done; by eexists.
  - by intros ns context t [= <-].
Defined.

(** [lambda((float8 -> float8), float8 -> float8)] *)
Definition float8 : LambdaSigType := mkSigType false 701 None (-1).
Definition twice_sig : LambdaSignature :=
  mkSignature [mkSigType true 0 (Some (mkSignature [float8] (Some float8) (-1))) (-1); float8] (Some float8) (-1).

Definition twice_rows : pg_lambdasig :=
  match LambdaSigCreateFromSignature demo_pg_type demo_format_type demo_newoid [] (Some twice_sig) with Ok (_, rel) => rel | _ => [] end.
Definition twice_desc : list TupleAttr := [mkTupleAttr (lit "id") 1 23 (-1); mkTupleAttr (lit "f") 2 LAMBDAOID 0].
Definition twice_env : ParseEnv := mkEnv false HookNone None None (Some twice_desc).
Definition twice_state : PState := mkPState twice_rows false false.

(** [lambda(f, x) f(f(x))] *)
Definition twice_raw : RawLambda :=
  makeLambdaExpr [lit "f"; lit "x"] [] (RFuncCall [lit "f"] [RFuncCall [lit "f"] [RColumnRef [lit "x"]]]) LAMBDA_SCALAR_CONTEXT.

Definition twice_values : list RawItem := [ItemExpr (RConst (ConstInteger 1)); ItemLambda twice_raw].

Lemma twice_follows : follows twice_raw twice_sig.
Proof.
  constructor; [done..|]. split; [by exists InvalidOid|]. split; [|done]. split; [by exists InvalidOid|]. split; [|done].
  exists (RAtom 701). split; [done|by exists 701].
Qed.

(** C15. Lambda literals are well typed: in an INSERT ... VALUES without a column
    list, a lambda literal that is accepted and keeps to [follows] becomes a
    constant that reads back as a lambda whose body is well typed when its inputs
    have exactly the types of the column's signature: built-in functions are
    called with arguments of types they accept, function inputs with arguments of
    their argument types, after the casts the analysis inserts.  The body has the
    return type that the lambda records; whether it is the one of the signature
    is not checked.  The lambda has the literal's argument names and the verdict
    of the L3 analysis on its body.  [follows] is what the analysis leaves
    unchecked: the literal has as many arguments as the signature, whose types
    are types of values; no input is named like a type; function inputs are only
    called, with as many arguments as they have, or passed on where a function
    of exactly their type is expected. *)
Theorem values_lambda_typed `{NodeIO} `{!NodeIOLaws} `{ParseParams} `{Catalog} `{!ParseLaws} env items ns st st' i l desc attr sig :
  no_columns → transformExpressionList env true 0 items st = Ok (ns, st') → items !! i = Some (ItemLambda l) →
  p_target_desc env = Some desc → desc !! i = Some attr →
  LambdaSigGetSignature pg_type (ps_sigs st) (ta_typmod attr) = Ok sig → follows l sig →
  ∃ c le, ns !! i = Some (Some (NConst c)) ∧ consttype c = LAMBDAOID ∧ datum_lambda (constvalue c) = Ok (Some le)
          ∧ lambda_at le (rty_of_sig sig) (rettype (le_hdr le)) ∧ argnames (le_hdr le) = argnames (rl_hdr l)
          ∧ l3_safe (le_hdr le) = lambda_expr_is_l3_safe (Some le).
Proof.
  intros Hcol Hl Hi Hd Ha Hg Hf. destruct (values_literal Hcol _ _ _ _ _ _ _ _ _ _ Hl Hi Hd Ha Hg Hf) as (le & Hn & Hle & Hargs & Hl3).
  exists (makeLambdaConst le), le. split_and!; try done. apply datum_lambda_datum, reads_back_all.
Qed.

Lemma values_lambda_typed_witness :
  ∃ ns st' c le, transformExpressionList twice_env true 0 twice_values twice_state = Ok (ns, st')
    ∧ ns !! 1%nat = Some (Some (NConst c)) ∧ datum_lambda (constvalue c) = Ok (Some le) ∧ lambda_at le twice_rty (rettype (le_hdr le)).
Proof.
  assert (∃ r, transformExpressionList twice_env true 0 twice_values twice_state = Ok r) as [[ns st'] Hr] by (eexists; vm_compute; reflexivity).
  destruct (@values_lambda_typed demo_nodeio demo_laws demo_parse_none demo_catalog demo_parse_laws twice_env twice_values ns twice_state st' 1
              twice_raw twice_desc (mkTupleAttr (lit "f") 2 LAMBDAOID 0) twice_sig (fun _ _ => eq_refl) Hr eq_refl eq_refl eq_refl
              ltac:(vm_compute; reflexivity) twice_follows) as (c & le & Hn & _ & Hd & Ht & _).
  exists ns, st', c, le. exact (conj Hr (conj Hn (conj Hd Ht))).
Defined.

(** C16. Inserted lambdas can be called: a lambda literal that is accepted and keeps
    to [follows], the conditions the analysis leaves unchecked, stored, and called
    with hoisting on, on values of its column's argument types, comes back with a
    value of the return type that the lambda records or with an error the code
    raises, from some fuel on always in the same way. *)
Theorem inserted_lambda_safe `{NodeIO} `{!NodeIOLaws} `{TypeCache} `{ExecParams} `{!FoldLaws} `{ParseParams} `{Catalog} `{!TypedParams} `{!ParseLaws}
    env items ns st st' i l desc attr sig :
  no_columns → transformExpressionList env true 0 items st = Ok (ns, st') → items !! i = Some (ItemLambda l) →
  p_target_desc env = Some desc → desc !! i = Some attr →
  LambdaSigGetSignature pg_type (ps_sigs st) (ta_typmod attr) = Ok sig → follows l sig →
  ∃ c le, ns !! i = Some (Some (NConst c)) ∧ datum_lambda (constvalue c) = Ok (Some le) ∧
    ∀ vs args, Forall2 val_has (rty_of_sig sig) vs → Forall2 call_arg args (map erase (rty_of_sig sig)) →
    ∃ o fuel0, returns (rettype (le_hdr le)) o ∧ ∀ fuel, (fuel0 ≤ fuel)%nat →
      ExecEvalCallLambdaExpr (ExecEvalExpr true fuel) true fuel None args (Some (constvalue c)) vs = o.
Proof.
  intros Hcol Hl Hi Hd Ha Hg Hf. destruct (values_literal Hcol _ _ _ _ _ _ _ _ _ _ Hl Hi Hd Ha Hg Hf) as (le & Hn & Hle & _).
  assert (datum_lambda (constvalue (makeLambdaConst le)) = Ok (Some le)) as Hdl by apply datum_lambda_datum, reads_back_all.
  exists (makeLambdaConst le), le. split_and!; [done|done|]. intros vs args Hv Hargs. by apply (hoisted_call_returns le (rty_of_sig sig)).
Qed.

Lemma inserted_lambda_safe_witness :
  ∃ c r o fuel0, returns r o ∧ ∀ fuel, (fuel0 ≤ fuel)%nat →
    ExecEvalCallLambdaExpr (ExecEvalExpr true fuel) true fuel None demo_nodes (Some (constvalue c)) demo_args = o.
Proof.
  assert (∃ r, transformExpressionList twice_env true 0 twice_values twice_state = Ok r) as [[ns st'] Hr] by (eexists; vm_compute; reflexivity).
  destruct (@inserted_lambda_safe demo_nodeio demo_laws demo_types demo_exec demo_fold demo_parse_none demo_catalog demo_safe demo_parse_laws
              twice_env twice_values ns twice_state st' 1 twice_raw twice_desc (mkTupleAttr (lit "f") 2 LAMBDAOID 0) twice_sig
              (fun _ _ => eq_refl) Hr eq_refl eq_refl eq_refl ltac:(vm_compute; reflexivity) twice_follows) as (c & le & _ & _ & Hc).
  destruct (Hc demo_args demo_nodes) as (o & fuel0 & Ho).
  - constructor; [exists add3; split; [exact add3_at|apply val_lambda_datum]|]. constructor; [by eexists|constructor].
  - clear. repeat constructor; by eexists.
  - exists c, (rettype (le_hdr le)), o, fuel0. exact Ho.
Defined.

(** ** Calls of lambda columns *)

(** what a call of a lambda column of signature [sig] needs: a number of arguments
    that functions can have, no function of that name and number of arguments,
    and arguments for the signature *)
Definition column_call_ok `{ParseParams} (name : list cstr) (args : list Node) (sig : LambdaSignature) (fargs : list (Node * Oid)) : Prop :=
  Z.of_nat (length args) ≤ FUNC_MAX_ARGS ∧ func_candidates name (Z.of_nat (length fargs)) = false ∧ call_ok sig fargs.

(** where the name is not that of an input, the name of a lambda column decides *)
Lemma column_call `{NodeIO} `{ParseParams} env refname colname v args fargs sig st :
  match_input env [refname; colname] st = Ok (NoInput, st) → column_var refname colname = Ok (Some v) → vartype v = LAMBDAOID →
  LambdaSigGetSignature pg_type (ps_sigs st) (vartypmod v) = Ok sig → farg_types args = Ok fargs →
  ParseFuncOrColumn env [refname; colname] args st
  = if Z.of_nat (length args) >? FUNC_MAX_ARGS then ereport ERRCODE_TOO_MANY_ARGUMENTS too_many_arguments
    else if func_candidates [refname; colname] (Z.of_nat (length fargs)) then
      ereport ERRCODE_AMBIGUOUS_FUNCTION
        (lit "[func_get_detail] lambda function name " ++ quoted (NameListToString [refname; colname])
         ++ lit " collides with existing function namespace")
    else make_lambda_call v fargs st.
Proof.
  intros Hin Hv Hty Hg Hfargs. unfold ParseFuncOrColumn. destruct (_ >? _); [done|]. rewrite Hfargs, lift_bind.
  rewrite (parser_bind_Ok _ _ st NoInput st) by done. cbn [is_matched]. unfold LookUpFuncNameAsLambda. rewrite Hv. cbn [mbind outcome_bind].
  rewrite Hty, Z.eqb_refl. cbn [negb]. assert ((vartypmod v <? 0) = false) as ->.
  { unfold LambdaSigGetSignature in Hg. by destruct (vartypmod v <? 0). }
  rewrite lift_bind. assert (∀ b : bool, (if b then mret fargs else mret fargs : parser _) = mret fargs) as -> by (by intros []).
  rewrite (parser_bind_Ok _ _ st fargs st) by done. unfold func_get_detail, delete_prefix.
  replace (pg_strcaseeq LAMBDA_PASS_TO_FUNC_DETAIL LAMBDA_PASS_TO_FUNC_DETAIL_ON_MATCH) with false by (vm_compute; reflexivity).
  replace (pg_strcaseeq LAMBDA_PASS_TO_FUNC_DETAIL_ON_MATCH LAMBDA_PASS_TO_FUNC_DETAIL_ON_MATCH) with true by (vm_compute; reflexivity).
  rewrite length_fmap. by destruct (func_candidates _ _).
Qed.

(** a call that was built needed nothing more *)
Lemma built_call_ok `{ParseParams} v sig fargs st n st' : call_built v sig fargs st n st' → call_ok sig fargs.
Proof.
  intros (hd & args & _ & Hl & Hf & _ & _ & _ & _ & Hr). split_and!; [done|by exists args|]. unfold call_result in Hr.
  destruct (existsb is_hole _); [by left|]. right. destruct Hr as (_ & _ & Hret). by eexists.
Qed.

(** C17. Calls of lambda columns: where the name is not that of an input of the
    lambda being analysed, a call of a lambda column is accepted exactly if it has
    at most 100 arguments, no function of that name and number of arguments
    exists, the number of arguments is that of the stored signature, functions are
    passed for function inputs, the other arguments can be cast, and the result is
    atomic or some argument is held.  The node has the cast arguments in order and
    the held positions as its set; a full call has the declared return type, a
    partial application a lambda type whose stored signature consists of the held
    argument types and the return type. *)
Theorem lambda_call_analysed `{NodeIO} `{ParseParams} env refname colname v args fargs sig st :
  (∀ rel, GetNewOidWithIndex rel ∉ (oid <$> rel)) → catalog_ok pg_type (ps_sigs st) → Z.of_nat (length (ps_sigs st)) ≤ PG_INT32_MAX →
  match_input env [refname; colname] st = Ok (NoInput, st) → column_var refname colname = Ok (Some v) → vartype v = LAMBDAOID →
  LambdaSigGetSignature pg_type (ps_sigs st) (vartypmod v) = Ok sig → farg_types args = Ok fargs →
  match ParseFuncOrColumn env [refname; colname] args st with
  | Ok (n, st') => column_call_ok [refname; colname] args sig fargs ∧ call_built v sig fargs st n st'
  | _ => ¬ column_call_ok [refname; colname] args sig fargs
  end.
Proof.
  intros Hfresh Hok Hlen Hin Hv Hty Hg Hfargs. rewrite (column_call env refname colname v args fargs sig st Hin Hv Hty Hg Hfargs).
  rewrite Z.gtb_ltb. destruct (Z.ltb_spec FUNC_MAX_ARGS (Z.of_nat (length args))) as [Hmax|Hmax]; [intros [? _]; lia|].
  destruct (func_candidates _ _) eqn:Hcand; [intros (_ & ? & _); congruence|].
  pose proof (make_lambda_call_spec Hfresh v sig fargs st Hok Hlen Hg) as Hspec.
  destruct (make_lambda_call _ _ _) as [[n st']| | |]; [|by intros (_ & _ & ?)..]. split; [|done]. split_and!; [done..|by eapply built_call_ok].
Qed.

Definition twice_column : Var := mkVar 1 2 LAMBDAOID 0.

Lemma twice_rows_ok : catalog_ok demo_pg_type twice_rows.
Proof.
  unfold twice_rows. destruct (create_spec demo_pg_type demo_format_type demo_newoid demo_newoid_fresh [] twice_sig (catalog_ok_nil _))
    as (i & r & rel & -> & Hok & _); [by vm_compute..|exact Hok].
Qed.

(** [t.f(_, 4)] holds the function *)
Lemma lambda_call_analysed_witness :
  ∃ n st', @ParseFuncOrColumn (demo_parse (Some twice_column)) twice_env [lit "t"; lit "f"] [NHolePlaceholder; demo_int 4] twice_state = Ok (n, st')
    ∧ @column_call_ok (demo_parse (Some twice_column)) [lit "t"; lit "f"] [NHolePlaceholder; demo_int 4] twice_sig
        [(NHolePlaceholder, UNKNOWNOID); (demo_int 4, 701)]
    ∧ @call_built (demo_parse (Some twice_column)) twice_column twice_sig [(NHolePlaceholder, UNKNOWNOID); (demo_int 4, 701)] twice_state n st'.
Proof.
  pose proof (@lambda_call_analysed demo_nodeio (demo_parse (Some twice_column)) twice_env (lit "t") (lit "f") twice_column
    [NHolePlaceholder; demo_int 4] [(NHolePlaceholder, UNKNOWNOID); (demo_int 4, 701)] twice_sig twice_state demo_newoid_fresh twice_rows_ok
    ltac:(vm_compute; discriminate) eq_refl eq_refl eq_refl ltac:(vm_compute; reflexivity) eq_refl) as Hw.
  destruct (ParseFuncOrColumn _ _ _ _) as [[n st']| | |] eqn:E; [by exists n, st'|exfalso; vm_compute in E; discriminate E..].
Defined.

(** ** What is not checked *)

Definition with_target (env : ParseEnv) (desc : option (list TupleAttr)) : ParseEnv :=
  mkEnv (p_in_lambda env) (p_hook env) (p_current_lambda env) (p_lambdacontext env) desc.

(** C38. The return type of a signature is never looked at: with target columns
    whose signatures have the same argument types, a lambda literal is accepted
    or refused alike and becomes the same constant, whatever they return. *)
Theorem return_type_unchecked `{NodeIO} `{ParseParams} env desc' l st sig sig' :
  no_columns → target_signature env st = Ok (sig, st) → target_signature (with_target env desc') st = Ok (sig', st) →
  LambdaSig.argtypes sig = LambdaSig.argtypes sig' →
  transformLambdaExpr env l st = transformLambdaExpr (with_target env desc') l st.
Proof.
  intros Hcol Hs Hs' Ha. unfold transformLambdaExpr. cbn [with_target p_current_lambda p_in_lambda p_lambdacontext p_target_desc].
  destruct (_ || _); [done|]. destruct (p_lambdacontext env) as [ctx|] eqn:Hctx; [|done].
  apply bind_eq; [|by apply transform_keeps|done]. apply (transform_eq Hcol). constructor; [done..|]. exists sig, sig'.
  split_and!; [|..|done]; [rewrite <- Hs|rewrite <- Hs']; unfold target_signature; simpl; by rewrite Hctx.
Qed.

(** a column of lambdas from float8 to int4 beside one to float8, and [lambda(x) x] *)
Definition two_rows : pg_lambdasig :=
  [mkRow 16384 0 (lit "(701)->701") (lit ""); mkRow 16385 1 (lit "(701)->23") (lit "")].
Definition target_of (typmod : Z) : option (list TupleAttr) := Some [mkTupleAttr (lit "f") 1 LAMBDAOID typmod].
Definition identity_raw : RawLambda := makeLambdaExpr [lit "x"] [] (RColumnRef [lit "x"]) LAMBDA_SCALAR_CONTEXT.

Lemma return_type_unchecked_witness :
  let env := mkEnv false HookNone None (Some (mkLambdaContext 0 0)) (target_of 0) in
  let st := mkPState two_rows false false in
  is_Ok (transformLambdaExpr env identity_raw st) = true
  ∧ transformLambdaExpr env identity_raw st = transformLambdaExpr (with_target env (target_of 1)) identity_raw st.
Proof.
  intros env st. split; [vm_compute; reflexivity|].
  refine (@return_type_unchecked demo_nodeio demo_parse_none env (target_of 1) identity_raw st (mkSignature [float8] (Some float8) (-1))
            (mkSignature [float8] (Some (mkSigType false 23 None (-1))) (-1)) (fun _ _ => eq_refl) _ _ eq_refl); vm_compute; reflexivity.
Defined.

(** A call of a function input with too few arguments writes past the array
    of declared types: once the name of a call resolves to an input whose
    signature has more arguments than the call, and nothing else goes by that
    name, the analysis runs into undefined behaviour. *)
Theorem input_call_too_few `{NodeIO} `{ParseParams} h ctx desc f i args fargs sig o sg loc st :
  no_columns → lambdakind h = LAMBDA_SCALAR_CONTEXT → list_index (argnames h) f = Some i →
  target_signature (lambda_env h ctx desc) st = Ok (sig, st) →
  LambdaSig.argtypes sig !! i = Some (mkSigType true o (Some sg) loc) → is_Some (LambdaSig.rettype sg) →
  Z.of_nat (length args) ≤ FUNC_MAX_ARGS → farg_types args = Ok fargs → existsb is_hole fargs.*1 = false →
  (length fargs < length (LambdaSig.argtypes sg))%nat →
  func_candidates [f] (Z.of_nat (length fargs)) = false → func_detail [f] fargs.*1 fargs.*2 = Ok FUNCDETAIL_NOTFOUND →
  (∀ arg t, complex_projection f arg t = Ok None) →
  ParseFuncOrColumn (lambda_env h ctx desc) [f] args st = UB.
Proof.
  intros Hcol Hkind Hi Hsig Hat [ret Hret] Hmax Hfargs Hholes Hfew Hcand Hdet Hproj. unfold ParseFuncOrColumn.
  rewrite Z.gtb_ltb, (proj2 (Z.ltb_ge _ _) Hmax), Hfargs, lift_bind.
  rewrite (parser_bind_Ok _ _ st (MatchingSigType (mkSigType true o (Some sg) loc) i) st).
  2: { unfold match_input. simpl. rewrite lift_bind, Hi, Hkind. by rewrite (parser_bind_Ok _ _ _ _ _ Hsig), Hat. }
  cbn [is_matched]. rewrite (lookup_no_columns Hcol), lift_bind, Hholes. rewrite (parser_bind_Ok _ _ st fargs st) by done.
  unfold func_get_detail, delete_prefix.
  replace (pg_strcaseeq LAMBDA_PASS_TO_FUNC_DETAIL LAMBDA_PASS_TO_FUNC_DETAIL) with true by (vm_compute; reflexivity).
  rewrite length_fmap, Hcand. cbn [andb]. rewrite Hdet, lift_bind. rewrite (parser_bind_Ok _ _ st None st).
  2: { destruct fargs as [|[arg t] []]; try done. unfold lift. simpl. by rewrite Hproj. }
  cbn [input_types sigtype_signature deref mbind outcome_bind]. rewrite Hret. cbn [deref mbind outcome_bind]. rewrite lift_bind.
  cbn [fst]. unfold declared_array. by rewrite length_fmap, (proj2 (Nat.leb_gt _ _) Hfew).
Qed.

(** [lambda(f, x) f()] *)
Lemma input_call_too_few_witness :
  ParseFuncOrColumn (lambda_env (rl_hdr twice_raw) (mkLambdaContext 1 0) (Some twice_desc)) [lit "f"] [] twice_state = UB.
Proof.
  refine (@input_call_too_few demo_nodeio demo_parse_none (rl_hdr twice_raw) (mkLambdaContext 1 0) (Some twice_desc) (lit "f") 0 [] [] twice_sig 0
            (mkSignature [float8] (Some float8) (-1)) (-1) twice_state (fun _ _ => eq_refl) eq_refl eq_refl _ eq_refl _ _ eq_refl eq_refl _ eq_refl eq_refl
            (fun _ _ => eq_refl)); [vm_compute; reflexivity|by eexists|done|simpl; lia].
Defined.

(** ** Lambdas passed to a function *)

(** the position of the description of the [c]-th argument *)
Definition desc_pos (ltiList : list (list TupleAttr)) (c : nat) : nat := min c (length ltiList - 1).

Lemma lambda_descs_spec names seen ltiList c ds c' p' :
  ltiList ≠ [] → NoDup seen → lambda_descs names seen ltiList c (desc_pos ltiList c) = Ok (ds, (c', p')) →
  NoDup (seen ++ names) ∧ c' = (c + length names)%nat ∧ p' = desc_pos ltiList c'
  ∧ Forall2 (fun j d => ltiList !! desc_pos ltiList j = Some d) (seq c (length names)) ds.
Proof.
  intros Hne. revert seen c ds. induction names as [|x names IH]; intros seen c ds Hseen H.
  { injection H as <- <- <-. rewrite app_nil_r, Nat.add_0_r. by split_and!. }
  cbn [lambda_descs] in H. case_bool_decide as Hx; [done|]. apply bind_Ok_inv in H as (d & Hd & ([ds' [c1 p1]] & Hr & [= <- <- <-])%bind_Ok_inv).
  assert (Hp : (if Z.of_nat c <? Z.of_nat (length ltiList) - 1 then S (desc_pos ltiList c) else desc_pos ltiList c) = desc_pos ltiList (S c)).
  { unfold desc_pos. destruct (Z.ltb_spec (Z.of_nat c) (Z.of_nat (length ltiList) - 1)); lia. }
  rewrite Hp in Hr. apply IH in Hr as (Hnd & -> & -> & Hds).
  - rewrite <- app_assoc in Hnd. split_and!; [done|simpl; lia|f_equal; simpl; lia|]. simpl. constructor; [|done].
    by destruct (ltiList !! desc_pos ltiList c); [injection Hd as ->|].
  - apply NoDup_app. split_and!; [done|set_solver|apply NoDup_singleton].
Qed.

(** the number of arguments of the lambdas before the [k]-th *)
Definition args_before (lambdas : list RawLambda) (k : nat) : nat :=
  list_sum ((fun l => length (argnames (rl_hdr l))) <$> take k lambdas).

Lemma udf_lambdas_spec `{NIO : NodeIO} `{PP : ParseParams} env ltiList c lambdas les st st' :
  ltiList ≠ [] → transform_udf_lambdas env ltiList c (desc_pos ltiList c) lambdas st = Ok (les, st') →
  ∀ k l, lambdas !! k = Some l →
  ∃ descs le body s s', les !! k = Some le ∧ le_expr le = Some body
    ∧ NoDup (argnames (rl_hdr l))
    ∧ Forall2 (fun j d => ltiList !! desc_pos ltiList j = Some d) (seq (c + args_before lambdas k) (length (argnames (rl_hdr l)))) descs
    ∧ transformExprRecurse (mkEnv true HookInsideUDF (Some (rl_hdr l, descs)) (p_lambdacontext env) (p_target_desc env)) (rl_body l) s = Ok (body, s')
    ∧ exprType body = Ok (rettype (le_hdr le)).
Proof.
  intros Hne. revert c les st. induction lambdas as [|l lambdas IH]; intros c les st H k l0 Hk; [done|].
  cbn [transform_udf_lambdas] in H. apply parser_bind_inv in H as (d0 & s1 & ([descs [c1 p1]] & Hd & [= -> ->])%lift_inv & H).
  apply (lambda_descs_spec _ _ _ _ _ _ _ Hne (NoDup_nil_2)) in Hd as (Hnd & -> & -> & Hds).
  apply parser_bind_inv in H as (body & s2 & Hb & H). apply parser_bind_inv in H as (o & s3 & (o' & Ho & [= -> ->])%lift_inv & H).
  apply parser_bind_inv in H as (rest & s4 & Hrest & H). injection H as <- <-. destruct k as [|k].
  - injection Hk as <-. eexists descs, _, body, _, s2. split_and!; try done. unfold args_before. simpl. by rewrite Nat.add_0_r.
  - destruct (IH _ _ _ Hrest k l0 Hk) as (ds & le & b & s & s' & Hle & Hb' & Hnd' & Hds' & Ht). exists ds, le, b, s, s'. split_and!; try done; [|apply Ht..].
    unfold args_before in *. simpl. by rewrite Nat.add_assoc.
Qed.

(** Lambdas passed to a table function: each is analysed with pairwise
    distinct argument names; counting the arguments of all lambdas of the call,
    the [j]-th argument ranges over the rows of the [j]-th subquery, or of the
    last one when there are fewer. *)
Theorem udf_lambda_rows `{NIO : NodeIO} `{PP : ParseParams} env ltiList lambdas les st st' k l :
  ltiList ≠ [] → transform_udf_lambdas env ltiList 0 0 lambdas st = Ok (les, st') → lambdas !! k = Some l →
  ∃ descs le body s s', les !! k = Some le ∧ le_expr le = Some body
    ∧ NoDup (argnames (rl_hdr l))
    ∧ Forall2 (fun j d => ltiList !! min j (length ltiList - 1) = Some d) (seq (args_before lambdas k) (length (argnames (rl_hdr l)))) descs
    ∧ transformExprRecurse (mkEnv true HookInsideUDF (Some (rl_hdr l, descs)) (p_lambdacontext env) (p_target_desc env)) (rl_body l) s = Ok (body, s')
    ∧ exprType body = Ok (rettype (le_hdr le)).
Proof. intros Hne H Hk. exact (udf_lambdas_spec env ltiList 0 lambdas les st st' Hne H k l Hk). Qed.

Lemma udf_lambda_rows_witness :
  let row name := mkTupleAttr (lit name) 1 701 (-1) in
  let param := mkLambdaInputParam [lit "x"] 701 true [] 0 in
  let lambda a := makeLambdaExpr [lit a] [[param]] (RColumnRef [lit a; lit "x"]) LAMBDA_ROW_CONTEXT in
  ∃ les st', transform_udf_lambdas twice_env [[row "x"%string]] 0 0 [lambda "a"%string; lambda "b"%string] twice_state = Ok (les, st')
    ∧ ∃ le body, les !! 1%nat = Some le ∧ le_expr le = Some body.
Proof.
  intros row param lambda.
  assert (∃ r, transform_udf_lambdas twice_env [[row "x"%string]] 0 0 [lambda "a"%string; lambda "b"%string] twice_state = Ok r)
    as [[les st'] Hr] by (eexists; vm_compute; reflexivity).
  destruct (@udf_lambda_rows demo_nodeio demo_parse_none twice_env [[row "x"%string]] [lambda "a"%string; lambda "b"%string] les twice_state st' 1
              (lambda "b"%string) ltac:(clear; done) Hr eq_refl) as (descs & le & body & s & s' & Hle & Hb & _).
  exists les, st'. split; [exact Hr|]. exists le, body. exact (conj Hle Hb).
Defined.
