(* ===== verification/Steps.v ===== *)
(** * Compiled expressions

    [ExecInitExprRec] of [backend/executor/execExpr.c] turns an expression
    into a list of steps, [ExecInterpExpr] of [execExprInterp.c] runs them.
    A step reads and writes cells, pairs of a [Datum] and a null flag that live
    as long as the [ExprState]: the result of the expression, the arguments of
    a function call, the arguments of a lambda call.  An address is a number,
    cell 0 is [state->resvalue] and [state->resnull], and an allocation takes
    the next addresses; the flag [anynull] of AND and OR is the null flag of a
    cell of its own.

    The checks of [ExecInitFunc] that ask the catalog, the right to execute the
    function and that it does not return a set, and the lookup of a comparison
    function for GREATEST and LEAST, are not modelled: the functions of an
    expression are taken to pass them.

    The fuel of [ExecInterpExpr] bounds the number of steps and of nested
    lambda calls. *)

From stdpp Require Import functions.
From S2P Require Import Prelude Bitmapset Nodes NodesFacts Serialize Inject Eval.

(** ** Cells *)

Record NullableDatum := mkNullable { nd_value : Datum; nd_isnull : bool }.

Abbreviation memory := (nat → NullableDatum) (only parsing).

(** what a cell holds, the value of a NULL being of no interest *)
Definition nd_option (c : NullableDatum) : option Datum := if nd_isnull c then None else Some (nd_value c).

Definition nd_of (v : option Datum) : NullableDatum := mkNullable (datum_or_zero v) (is_null v).

Definition set_value (m : memory) (a : nat) (d : Datum) : memory := <[a := mkNullable d (nd_isnull (m a))]> m.

Definition set_null (m : memory) (a : nat) (b : bool) : memory := <[a := mkNullable (nd_value (m a)) b]> m.

(** [n] cells from an address on *)
Definition cells (m : memory) (base n : nat) : list (option Datum) := (fun i => nd_option (m i)) <$> seq base n.

(** ** Steps *)

Record CallLambdaExprState := mkCallState {
  cls_heldargs : Bitmapset;
  cls_lambda : nat;                   (** [lambda_value], [lambda_isnull] *)
  cls_args : nat;                     (** [argvalues], [argnulls] *)
  cls_nargs : nat;
  cache_key_idx : list Z
}.

(** [fcinfo_data] with the function it calls *)
Record FuncCall := mkFuncCall { fc_fn : Oid; fc_coll : Oid; fc_args : nat; fc_nargs : nat }.

Inductive ExprEvalStep :=
| EEOP_DONE
| EEOP_VAR (res : nat) (v : Var)
| EEOP_CONST (res : nat) (c : NullableDatum)
| EEOP_FUNCEXPR (res : nat) (f : FuncCall)
| EEOP_FUNCEXPR_STRICT (res : nat) (f : FuncCall)
| EEOP_BOOL_AND_STEP_FIRST (res anynull : nat) (jumpdone : Z)
| EEOP_BOOL_AND_STEP (res anynull : nat) (jumpdone : Z)
| EEOP_BOOL_AND_STEP_LAST (res anynull : nat) (jumpdone : Z)
| EEOP_BOOL_OR_STEP_FIRST (res anynull : nat) (jumpdone : Z)
| EEOP_BOOL_OR_STEP (res anynull : nat) (jumpdone : Z)
| EEOP_BOOL_OR_STEP_LAST (res anynull : nat) (jumpdone : Z)
| EEOP_BOOL_NOT_STEP (res : nat) (jumpdone : Z)
| EEOP_JUMP (jumpdone : Z)
| EEOP_JUMP_IF_NOT_NULL (res : nat) (jumpdone : Z)
| EEOP_JUMP_IF_NOT_TRUE (res : nat) (jumpdone : Z)
| EEOP_NULLTEST_ISNULL (res : nat)
| EEOP_NULLTEST_ISNOTNULL (res : nat)
| EEOP_BOOLTEST_IS_TRUE (res : nat)
| EEOP_BOOLTEST_IS_NOT_TRUE (res : nat)
| EEOP_BOOLTEST_IS_FALSE (res : nat)
| EEOP_BOOLTEST_IS_NOT_FALSE (res : nat)
| EEOP_PARAM_EXEC (res : nat) (paramid : Z)
| EEOP_PARAM_EXTERN (res : nat) (p : Param)
| EEOP_DISTINCT (res : nat) (f : FuncCall)
| EEOP_NULLIF (res : nat) (f : FuncCall)
| EEOP_ARRAYEXPR (res : nat) (typ : Oid) (elems nelems : nat)
| EEOP_MINMAX (res : nat) (typ coll : Oid) (op : MinMaxOp) (elems nelems : nat)
| EEOP_FIELDSELECT (res : nat) (fieldnum resulttype : Z)
| EEOP_CALLLAMBDAEXPR (res : nat) (cle_state : CallLambdaExprState).

(** [as->d.*.jumpdone = target] *)
Definition set_jumpdone (target : Z) (op : ExprEvalStep) : ExprEvalStep :=
  match op with
  | EEOP_BOOL_AND_STEP_FIRST r a _ => EEOP_BOOL_AND_STEP_FIRST r a target
  | EEOP_BOOL_AND_STEP r a _ => EEOP_BOOL_AND_STEP r a target
  | EEOP_BOOL_AND_STEP_LAST r a _ => EEOP_BOOL_AND_STEP_LAST r a target
  | EEOP_BOOL_OR_STEP_FIRST r a _ => EEOP_BOOL_OR_STEP_FIRST r a target
  | EEOP_BOOL_OR_STEP r a _ => EEOP_BOOL_OR_STEP r a target
  | EEOP_BOOL_OR_STEP_LAST r a _ => EEOP_BOOL_OR_STEP_LAST r a target
  | EEOP_BOOL_NOT_STEP r _ => EEOP_BOOL_NOT_STEP r target
  | EEOP_JUMP _ => EEOP_JUMP target
  | EEOP_JUMP_IF_NOT_NULL r _ => EEOP_JUMP_IF_NOT_NULL r target
  | EEOP_JUMP_IF_NOT_TRUE r _ => EEOP_JUMP_IF_NOT_TRUE r target
  | op => op
  end.

(** ** Compilation *)

(** [es_next] is the next free cell, [es_consts] are the cells written while
    compiling *)
Record ExprState := mkExprState {
  es_steps : list ExprEvalStep;
  es_next : nat;
  es_consts : list (nat * NullableDatum);
  load_consts_explicitly : bool
}.

Definition steps_len (st : ExprState) : nat := length (es_steps st).

Definition ExprEvalPushStep (st : ExprState) (op : ExprEvalStep) : ExprState :=
  mkExprState (es_steps st ++ [op]) (es_next st) (es_consts st) (load_consts_explicitly st).

Definition palloc_cells (st : ExprState) (n : nat) : ExprState :=
  mkExprState (es_steps st) (es_next st + n) (es_consts st) (load_consts_explicitly st).

Definition write_cell (st : ExprState) (a : nat) (c : NullableDatum) : ExprState :=
  mkExprState (es_steps st) (es_next st) ((a, c) :: es_consts st) (load_consts_explicitly st).

(** the loops over [adjust_jumps] *)
Definition adjust_jumps (jumps : list nat) (target : nat) (st : ExprState) : ExprState :=
  mkExprState (foldr (fun i steps => alter (set_jumpdone (Z.of_nat target)) i steps) (es_steps st) jumps)
    (es_next st) (es_consts st) (load_consts_explicitly st).

Section Compile.
Context `{ExecParams}.

Section Rec.
Context (rec : Node → nat → ExprState → outcome ExprState).

(** expressions into consecutive cells *)
Fixpoint init_args (args : list Node) (base : nat) (st : ExprState) : outcome ExprState :=
  match args with
  | [] => Ok st
  | arg :: args => st ← rec arg base st; init_args args (S base) st
  end.

(** the arguments of a function; constants and lambdas are stored at once *)
Fixpoint init_func_args (args : list Node) (base : nat) (st : ExprState) : outcome ExprState :=
  match args with
  | [] => Ok st
  | arg :: args =>
      st ← match arg with
           | NConst con =>
               if load_consts_explicitly st then rec arg base st
               else Ok (write_cell st base (mkNullable (constvalue con) (constisnull con)))
           | NLambdaExpr _ _ => Ok (write_cell st base (mkNullable DNodePtr false))
           | _ => rec arg base st
           end;
      init_func_args args (S base) st
  end.

Definition ExecInitFunc (args : list Node) (funcid inputcollid : Oid) (st : ExprState) : outcome (FuncCall * ExprState) :=
  if Z.of_nat (length args) >? FUNC_MAX_ARGS then func_max_args
  else
    let base := es_next st in
    st ← init_func_args args base (palloc_cells st (length args));
    Ok (mkFuncCall funcid inputcollid base (length args), st).

Definition func_opcode (res : nat) (f : FuncCall) : ExprEvalStep :=
  if fn_strict (fc_fn f) && (0 <? fc_nargs f)%nat then EEOP_FUNCEXPR_STRICT res f else EEOP_FUNCEXPR res f.

(** the opcode of the [off]-th of [nargs] arguments *)
Definition bool_opcode (boolop : BoolExprType) (nargs off res anynull : nat) : ExprEvalStep :=
  match boolop with
  | AND_EXPR =>
      if (off =? 0)%nat then EEOP_BOOL_AND_STEP_FIRST res anynull (-1)
      else if (off + 1 =? nargs)%nat then EEOP_BOOL_AND_STEP_LAST res anynull (-1)
      else EEOP_BOOL_AND_STEP res anynull (-1)
  | OR_EXPR =>
      if (off =? 0)%nat then EEOP_BOOL_OR_STEP_FIRST res anynull (-1)
      else if (off + 1 =? nargs)%nat then EEOP_BOOL_OR_STEP_LAST res anynull (-1)
      else EEOP_BOOL_OR_STEP res anynull (-1)
  | NOT_EXPR => EEOP_BOOL_NOT_STEP res (-1)
  end.

(** the loop over the arguments of a BoolExpr, with the steps to adjust *)
Fixpoint init_bool (boolop : BoolExprType) (nargs off res anynull : nat) (args : list Node) (st : ExprState)
    : outcome (ExprState * list nat) :=
  match args with
  | [] => Ok (st, [])
  | arg :: args =>
      st ← rec arg res st;
      let step := steps_len st in
      r ← init_bool boolop nargs (S off) res anynull args (ExprEvalPushStep st (bool_opcode boolop nargs off res anynull));
      Ok (r.1, step :: r.2)
  end.

Fixpoint init_coalesce (res : nat) (args : list Node) (st : ExprState) : outcome (ExprState * list nat) :=
  match args with
  | [] => Ok (st, [])
  | arg :: args =>
      st ← rec arg res st;
      let step := steps_len st in
      r ← init_coalesce res args (ExprEvalPushStep st (EEOP_JUMP_IF_NOT_NULL res (-1)));
      Ok (r.1, step :: r.2)
  end.

(** the loop over the WHEN clauses; the test's own jump is set at once *)
Fixpoint init_whens (res : nat) (whens : list (Node * Node)) (st : ExprState) : outcome (ExprState * list nat) :=
  match whens with
  | [] => Ok (st, [])
  | (cond, result) :: whens =>
      st ← rec cond res st;
      let whenstep := steps_len st in
      st ← rec result res (ExprEvalPushStep st (EEOP_JUMP_IF_NOT_TRUE res (-1)));
      let step := steps_len st in
      let st := ExprEvalPushStep st (EEOP_JUMP (-1)) in
      r ← init_whens res whens (adjust_jumps [whenstep] (steps_len st) st);
      Ok (r.1, step :: r.2)
  end.

(** lambda calls: the value of the lambda, the arguments, the call *)
Definition init_call (held : Bitmapset) (load_lambda : nat → ExprState → outcome ExprState) (res : nat)
    (args : list Node) (st : ExprState) : outcome ExprState :=
  key_idx ← ExecInitCallLambdaCacheKey args;
  if Z.of_nat (length args) >? LAMBDA_MAX_ARGS then too_many_args args
  else
    let lambda := es_next st in
    let base := S lambda in
    st ← load_lambda lambda (palloc_cells st (S (length args)));
    st ← init_args args base st;
    Ok (ExprEvalPushStep st (EEOP_CALLLAMBDAEXPR res (mkCallState held lambda base (length args) key_idx))).

Definition ExecInitLambdaFuncAlias (h : LfaHdr) (args : list Node) (res : nat) (st : ExprState) : outcome ExprState :=
  init_call None (fun lambda st => Ok (ExprEvalPushStep st (EEOP_PARAM_EXEC lambda (lfa_fieldSelect_id h)))) res args st.

Definition ExecInitCallLambdaExpr (h : CallHdr) (lambda_expr : Node) (args : list Node) (res : nat) (st : ExprState)
    : outcome ExprState :=
  init_call (heldargs h) (rec lambda_expr) res args st.
End Rec.

Definition booltest_opcode (t : BoolTestType) (res : nat) : ExprEvalStep :=
  match t with
  | IS_TRUE => EEOP_BOOLTEST_IS_TRUE res
  | IS_NOT_TRUE => EEOP_BOOLTEST_IS_NOT_TRUE res
  | IS_FALSE => EEOP_BOOLTEST_IS_FALSE res
  | IS_NOT_FALSE => EEOP_BOOLTEST_IS_NOT_FALSE res
  | IS_UNKNOWN => EEOP_NULLTEST_ISNULL res
  | IS_NOT_UNKNOWN => EEOP_NULLTEST_ISNOTNULL res
  end.

(** [node] into the cell [res] *)
Fixpoint ExecInitExprRec (node : Node) (res : nat) (st : ExprState) {struct node} : outcome ExprState :=
  match node with
  | NVar v => Ok (ExprEvalPushStep st (EEOP_VAR res v))
  | NConst c => Ok (ExprEvalPushStep st (EEOP_CONST res (mkNullable (constvalue c) (constisnull c))))
  | NLambdaExpr _ _ => Ok (ExprEvalPushStep st (EEOP_CONST res (mkNullable DNodePtr false)))
  | NLambdaFuncAliasExpr h args => ExecInitLambdaFuncAlias ExecInitExprRec h args res st
  | NCallLambdaExpr h l args => ExecInitCallLambdaExpr ExecInitExprRec h l args res st
  | NParam p =>
      match paramkind p with
      | PARAM_EXEC => Ok (ExprEvalPushStep st (EEOP_PARAM_EXEC res (paramid p)))
      | PARAM_EXTERN => Ok (ExprEvalPushStep st (EEOP_PARAM_EXTERN res p))
      | _ => elog (lit "unrecognized paramkind: " ++ fmt_d (ParamKind_num (paramkind p)))
      end
  | NFuncExpr f args =>
      '(f, st) ← ExecInitFunc ExecInitExprRec args (funcid f) (func_inputcollid f) st;
      Ok (ExprEvalPushStep st (func_opcode res f))
  | NOpExpr o args =>
      '(f, st) ← ExecInitFunc ExecInitExprRec args (opfuncid o) (op_inputcollid o) st;
      Ok (ExprEvalPushStep st (func_opcode res f))
  | NDistinctExpr o args =>
      '(f, st) ← ExecInitFunc ExecInitExprRec args (opfuncid o) (op_inputcollid o) st;
      Ok (ExprEvalPushStep st (EEOP_DISTINCT res f))
  | NNullIfExpr o args =>
      '(f, st) ← ExecInitFunc ExecInitExprRec args (opfuncid o) (op_inputcollid o) st;
      Ok (ExprEvalPushStep st (EEOP_NULLIF res f))
  | NBoolExpr op args =>
      let anynull := es_next st in
      let st := match op with NOT_EXPR => st | _ => palloc_cells st 1 end in
      r ← init_bool ExecInitExprRec op (length args) 0 res anynull args st;
      Ok (adjust_jumps r.2 (steps_len r.1) r.1)
  | NFieldSelect k t arg =>
      st ← ExecInitExprRec arg res st;
      Ok (ExprEvalPushStep st (EEOP_FIELDSELECT res k t))
  | NRelabelType _ arg => ExecInitExprRec arg res st
  | NCaseExpr _ whens def =>
      r ← init_whens ExecInitExprRec res whens st;
      st ← match def with
           | Some d => ExecInitExprRec d res r.1
           | None => UB
           end;
      Ok (adjust_jumps r.2 (steps_len st) st)
  | NArrayExpr t elements =>
      let base := es_next st in
      st ← init_args ExecInitExprRec elements base (palloc_cells st (length elements));
      Ok (ExprEvalPushStep st (EEOP_ARRAYEXPR res t base (length elements)))
  | NCoalesceExpr _ args =>
      r ← init_coalesce ExecInitExprRec res args st;
      Ok (adjust_jumps r.2 (steps_len r.1) r.1)
  | NMinMaxExpr t coll op args =>
      let base := es_next st in
      st ← init_args ExecInitExprRec args base (palloc_cells st (length args));
      Ok (ExprEvalPushStep st (EEOP_MINMAX res t coll op base (length args)))
  | NNullTest t arg =>
      st ← ExecInitExprRec arg res st;
      Ok (ExprEvalPushStep st (match t with IS_NULL => EEOP_NULLTEST_ISNULL res | IS_NOT_NULL => EEOP_NULLTEST_ISNOTNULL res end))
  | NBooleanTest t arg =>
      st ← ExecInitExprRec arg res st;
      Ok (ExprEvalPushStep st (booltest_opcode t res))
  | NHolePlaceholder => elog (lit "unrecognized node type")
  end.

Definition ExecInitExpr (node : Node) : outcome ExprState :=
  st ← ExecInitExprRec node 0 (mkExprState [] 1 [] false);
  Ok (ExprEvalPushStep st EEOP_DONE).
End Compile.

(** ** Interpretation *)

Section Interp.
Context `{NodeIO} `{TypeCache} `{ExecParams} (hoist : bool).

(** [ExecEvalCallLambdaExpr] on the cells of the call *)
Definition call_lambda (run : list (option Datum) → Node → outcome (option Datum)) (fuel : nat)
    (cle : CallLambdaExprState) (m : memory) : outcome (option Datum) :=
  match nd_option (m (cls_lambda cle)) with
  | None => Ok None
  | Some d =>
      let vs := cells m (cls_args cle) (cls_nargs cle) in
      match cls_heldargs cle with
      | Some _ => partial_application fuel (cls_heldargs cle) d vs
      | None => body ← lambda_body hoist fuel (cache_key_idx cle) d vs; run (lambda_params vs) body
      end
  end.

Definition fc_values (m : memory) (f : FuncCall) : list (option Datum) := cells m (fc_args f) (fc_nargs f).

(** EEOP_BOOL_AND_STEP and EEOP_BOOL_OR_STEP; [stop] says which value decides *)
Definition bool_step (stop : Datum → bool) (res anynull : nat) (jumpdone : Z) (m : memory) : memory * option Z :=
  if nd_isnull (m res) then (set_null m anynull true, None)
  else if stop (nd_value (m res)) then (m, Some jumpdone)
  else (m, None).

Definition bool_step_last (stop : Datum → bool) (res anynull : nat) (m : memory) : memory * option Z :=
  if nd_isnull (m res) then (m, None)
  else if stop (nd_value (m res)) then (m, None)
  else if nd_isnull (m anynull) then (<[res := mkNullable (DByVal 0) true]> m, None)
  else (m, None).

Definition and_stop (d : Datum) : bool := negb (DatumGetBool d).

(** one step: the memory afterwards, and the target if it jumps *)
Definition exec_step (call : CallLambdaExprState → memory → outcome (option Datum)) (frame : list (option Datum))
    (op : ExprEvalStep) (m : memory) : outcome (memory * option Z) :=
  match op with
  | EEOP_DONE => UB
  | EEOP_VAR res v => x ← var_value v; Ok (<[res := nd_of x]> m, None)
  | EEOP_CONST res c => Ok (<[res := c]> m, None)
  | EEOP_FUNCEXPR res f =>
      d ← fn_call (fc_fn f) (fc_coll f) (fc_values m f);
      Ok (<[res := nd_of d]> m, None)
  | EEOP_FUNCEXPR_STRICT res f =>
      if existsb (fun i => nd_isnull (m i)) (seq (fc_args f) (fc_nargs f)) then Ok (set_null m res true, None)
      else d ← fn_call (fc_fn f) (fc_coll f) (fc_values m f); Ok (<[res := nd_of d]> m, None)
  | EEOP_BOOL_AND_STEP_FIRST res anynull j => Ok (bool_step and_stop res anynull j (set_null m anynull false))
  | EEOP_BOOL_AND_STEP res anynull j => Ok (bool_step and_stop res anynull j m)
  | EEOP_BOOL_AND_STEP_LAST res anynull _ => Ok (bool_step_last and_stop res anynull m)
  | EEOP_BOOL_OR_STEP_FIRST res anynull j => Ok (bool_step DatumGetBool res anynull j (set_null m anynull false))
  | EEOP_BOOL_OR_STEP res anynull j => Ok (bool_step DatumGetBool res anynull j m)
  | EEOP_BOOL_OR_STEP_LAST res anynull _ => Ok (bool_step_last DatumGetBool res anynull m)
  | EEOP_BOOL_NOT_STEP res _ => Ok (set_value m res (BoolGetDatum (negb (DatumGetBool (nd_value (m res))))), None)
  | EEOP_JUMP j => Ok (m, Some j)
  | EEOP_JUMP_IF_NOT_NULL res j => Ok (m, if nd_isnull (m res) then None else Some j)
  | EEOP_JUMP_IF_NOT_TRUE res j =>
      Ok (m, if nd_isnull (m res) || negb (DatumGetBool (nd_value (m res))) then Some j else None)
  | EEOP_NULLTEST_ISNULL res => Ok (<[res := mkNullable (BoolGetDatum (nd_isnull (m res))) false]> m, None)
  | EEOP_NULLTEST_ISNOTNULL res => Ok (<[res := mkNullable (BoolGetDatum (negb (nd_isnull (m res)))) false]> m, None)
  | EEOP_BOOLTEST_IS_TRUE res =>
      Ok (if nd_isnull (m res) then <[res := mkNullable (BoolGetDatum false) false]> m else m, None)
  | EEOP_BOOLTEST_IS_NOT_TRUE res =>
      Ok (if nd_isnull (m res) then <[res := mkNullable (BoolGetDatum true) false]> m
          else set_value m res (BoolGetDatum (negb (DatumGetBool (nd_value (m res))))), None)
  | EEOP_BOOLTEST_IS_FALSE res =>
      Ok (if nd_isnull (m res) then <[res := mkNullable (BoolGetDatum false) false]> m
          else set_value m res (BoolGetDatum (negb (DatumGetBool (nd_value (m res))))), None)
  | EEOP_BOOLTEST_IS_NOT_FALSE res =>
      Ok (if nd_isnull (m res) then <[res := mkNullable (BoolGetDatum true) false]> m else m, None)
  | EEOP_PARAM_EXEC res paramid => prm ← ExecEvalParamExec frame paramid; Ok (<[res := nd_of prm]> m, None)
  | EEOP_PARAM_EXTERN res p => prm ← param_extern p; Ok (<[res := nd_of prm]> m, None)
  | EEOP_DISTINCT res f =>
      let a := m (fc_args f) in
      let b := m (S (fc_args f)) in
      if nd_isnull a && nd_isnull b then Ok (<[res := mkNullable (BoolGetDatum false) false]> m, None)
      else if nd_isnull a || nd_isnull b then Ok (<[res := mkNullable (BoolGetDatum true) false]> m, None)
      else
        eqresult ← fn_call (fc_fn f) (fc_coll f) (fc_values m f);
        Ok (<[res := mkNullable (BoolGetDatum (negb (DatumGetBool (datum_or_zero eqresult)))) (is_null eqresult)]> m, None)
  | EEOP_NULLIF res f =>
      let a := m (fc_args f) in
      let b := m (S (fc_args f)) in
      if negb (nd_isnull a) && negb (nd_isnull b) then
        result ← fn_call (fc_fn f) (fc_coll f) (fc_values m f);
        if negb (is_null result) && DatumGetBool (datum_or_zero result)
        then Ok (<[res := mkNullable (DByVal 0) true]> m, None)
        else Ok (<[res := a]> m, None)
      else Ok (<[res := a]> m, None)
  | EEOP_ARRAYEXPR res t base n => d ← make_array t (cells m base n); Ok (<[res := nd_of d]> m, None)
  | EEOP_MINMAX res t coll op base n =>
      d ← ExecEvalMinMax op t coll None (cells m base n);
      Ok (match d with Some d => <[res := mkNullable d false]> m | None => set_null m res true end, None)
  | EEOP_FIELDSELECT res k t => d ← field_select k t (nd_option (m res)); Ok (<[res := nd_of d]> m, None)
  | EEOP_CALLLAMBDAEXPR res cle => d ← call cle m; Ok (<[res := nd_of d]> m, None)
  end.

(** the contents of the cells of a new state *)
Definition es_memory (es : ExprState) : memory :=
  foldr (fun p m => <[p.1 := p.2]> m) (fun _ => mkNullable (DByVal 0) false) (es_consts es).

(** the evaluation function [ExecReadyInterpretedExpr] selects: [ExecJustConst]
    for a constant, the interpreter otherwise *)
Definition exec_state (interp : list (option Datum) → list ExprEvalStep → nat → memory → outcome memory)
    (frame : list (option Datum)) (es : ExprState) (m : memory) : outcome (memory * option Datum) :=
  match es_steps es with
  | [EEOP_CONST _ c; EEOP_DONE] => Ok (m, nd_option c)
  | steps => m ← interp frame steps 0%nat m; Ok (m, nd_option (m 0%nat))
  end.

Fixpoint ExecInterpExpr (fuel : nat) (frame : list (option Datum)) (steps : list ExprEvalStep) (op : nat) (m : memory)
    : outcome memory :=
  match fuel with
  | O => OutOfFuel
  | S fuel =>
      step ← deref (steps !! op);
      match step with
      | EEOP_DONE => Ok m
      | _ =>
          let run frame body :=
            es ← ExecInitExpr body;
            r ← exec_state (ExecInterpExpr fuel) frame es (es_memory es);
            Ok r.2 in
          r ← exec_step (call_lambda run fuel) frame step m;
          match r.2 with
          | None => ExecInterpExpr fuel frame steps (S op) r.1
          | Some j => if j <? 0 then UB else ExecInterpExpr fuel frame steps (Z.to_nat j) r.1
          end
      end
  end.

(** [ExecEvalExpr]: run a compiled expression once *)
Definition ExecEvalExprState (fuel : nat) (frame : list (option Datum)) (es : ExprState) (m : memory)
    : outcome (memory * option Datum) :=
  exec_state (ExecInterpExpr fuel) frame es m.
End Interp.
