(* ===== verification/StepsFacts.v ===== *)
(** * What compilation adds to a state

    Compiling a node appends steps, takes new cells, and leaves the steps and
    cells of the code around it alone; and it raises exactly the errors of
    [exec_init_check]. *)

From stdpp Require Import functions.
From S2P Require Import Prelude Bitmapset Nodes NodesFacts Serialize Inject Eval EvalFacts Steps.

(** ** Growing a state *)

(** [st'] extends [st]; the cells written while compiling are new ones, or in [Q] *)
Record extends (Q : nat → Prop) (st st' : ExprState) : Prop := {
  ext_len : (steps_len st ≤ steps_len st')%nat;
  ext_steps i : (i < steps_len st)%nat → es_steps st' !! i = es_steps st !! i;
  ext_next : (es_next st ≤ es_next st')%nat;
  ext_consts : ∃ new, es_consts st' = new ++ es_consts st ∧
    Forall (fun p => (Q p.1 ∨ es_next st ≤ p.1) ∧ p.1 < es_next st')%nat new;
  ext_load : load_consts_explicitly st' = load_consts_explicitly st
}.

Definition fresh : nat → Prop := fun _ => False.

(** no cell is written twice *)
Definition consts_wf (st : ExprState) : Prop :=
  NoDup (es_consts st).*1 ∧ Forall (fun p => p.1 < es_next st)%nat (es_consts st).

Lemma extends_refl Q st : extends Q st st.
Proof. split; try done. by exists []. Qed.

Lemma extends_trans Q st1 st2 st3 : extends Q st1 st2 → extends Q st2 st3 → extends Q st1 st3.
Proof.
  intros [L1 S1 N1 (new1 & C1 & F1) B1] [L2 S2 N2 (new2 & C2 & F2) B2]. split.
  - lia.
  - intros i Hi. rewrite S2 by lia. by apply S1.
  - lia.
  - exists (new2 ++ new1). split; [by rewrite C2, C1, app_assoc|]. apply Forall_app.
    split; (eapply Forall_impl; [eassumption|]); simpl; intros p [[HQ|Hp] Hn]; (split; [|lia]); auto; right; lia.
  - congruence.
Qed.

Lemma extends_weaken Q Q' st st' : (∀ a, Q a → Q' a ∨ (es_next st ≤ a)%nat) → extends Q st st' → extends Q' st st'.
Proof.
  intros HQ [L S N (new & C & F) B]. split; try done. exists new. split; [done|].
  eapply Forall_impl; [exact F|]. simpl. intros p [[Hp|Hp] Hn]; (split; [|done]); auto.
Qed.

Lemma extends_fresh Q st st' : extends fresh st st' → extends Q st st'.
Proof. apply extends_weaken. by intros a []. Qed.

Lemma extends_push Q st op : extends Q st (ExprEvalPushStep st op).
Proof.
  split; try done.
  - unfold steps_len. simpl. rewrite length_app. lia.
  - intros i Hi. by apply lookup_app_l.
  - by exists [].
Qed.

Lemma extends_palloc Q st n : extends Q st (palloc_cells st n).
Proof. split; try done; simpl; [lia|by exists []]. Qed.

Lemma extends_write (Q : nat → Prop) st a c : Q a → (a < es_next st)%nat → extends Q st (write_cell st a c).
Proof. intros HQ Ha. split; try done. exists [(a, c)]. split; [done|]. constructor; [|done]. by split; [left|]. Qed.

(** a constant of an extension that cannot be new *)
Lemma extends_old Q st st' a :
  extends Q st st' → a ∈ (es_consts st').*1 → ¬ Q a → (a < es_next st)%nat → a ∈ (es_consts st).*1.
Proof.
  intros [_ _ _ (new & -> & F) _] Ha HQ Hn. rewrite fmap_app in Ha. apply elem_of_app in Ha as [Ha|]; [|done].
  apply list_elem_of_fmap in Ha as (p & -> & Hp). rewrite Forall_forall in F. destruct (F p Hp) as [[|] _]; [done|lia].
Qed.

Lemma extends_const Q st st' p : extends Q st st' → p ∈ es_consts st → p ∈ es_consts st'.
Proof. intros [_ _ _ (new & -> & _) _]. set_solver. Qed.

Lemma consts_wf_palloc st n : consts_wf st → consts_wf (palloc_cells st n).
Proof. intros [Hn Hf]. split; [done|]. eapply Forall_impl; [exact Hf|]. simpl. lia. Qed.

Lemma consts_wf_write st a c : consts_wf st → (a < es_next st)%nat → a ∉ (es_consts st).*1 → consts_wf (write_cell st a c).
Proof. intros [Hn Hf] Ha Hni. split; [by constructor|by constructor]. Qed.

Lemma steps_len_push st op : steps_len (ExprEvalPushStep st op) = S (steps_len st).
Proof. unfold steps_len. simpl. rewrite length_app. simpl. lia. Qed.

Lemma lookup_push st op : es_steps (ExprEvalPushStep st op) !! steps_len st = Some op.
Proof. unfold steps_len. simpl. by rewrite lookup_app_r, Nat.sub_diag by lia. Qed.

(** ** Adjusted jumps *)

Lemma set_jumpdone_idem t op : set_jumpdone t (set_jumpdone t op) = set_jumpdone t op.
Proof. by destruct op. Qed.

Lemma adjust_lookup jumps target st i :
  es_steps (adjust_jumps jumps target st) !! i
  = if decide (i ∈ jumps) then set_jumpdone (Z.of_nat target) <$> es_steps st !! i else es_steps st !! i.
Proof.
  induction jumps as [|j jumps IH]; [done|].
  change (es_steps (adjust_jumps (j :: jumps) target st))
    with (alter (set_jumpdone (Z.of_nat target)) j (es_steps (adjust_jumps jumps target st))).
  destruct (decide (i = j)) as [->|Hne].
  - rewrite list_lookup_alter_eq, IH. destruct (decide (j ∈ j :: jumps)) as [_|Hn]; [|set_solver].
    destruct (decide (j ∈ jumps)); [|done]. rewrite <- option_fmap_compose. apply option_fmap_ext. intros op. apply set_jumpdone_idem.
  - rewrite list_lookup_alter_ne, IH by done. destruct (decide (i ∈ jumps)), (decide (i ∈ j :: jumps)); set_solver.
Qed.

Lemma adjust_steps_len jumps target st : steps_len (adjust_jumps jumps target st) = steps_len st.
Proof. unfold steps_len. simpl. induction jumps as [|j jumps IH]; simpl; [done|]. by rewrite length_alter. Qed.

Lemma extends_adjust Q st st' jumps target :
  extends Q st st' → Forall (fun j => steps_len st ≤ j)%nat jumps → extends Q st (adjust_jumps jumps target st').
Proof.
  intros [L S N C B] Hj. split; try done.
  - by rewrite adjust_steps_len.
  - intros i Hi. rewrite adjust_lookup, decide_False; [by apply S|]. intros Hin. rewrite Forall_forall in Hj.
    apply Hj in Hin. lia.
Qed.

(** ** Compilation only extends *)

Section Extends.
Context `{ExecParams}.

Section Loops.
Context (rec : Node → nat → ExprState → outcome ExprState).

(** what holds of [st'] if it holds of [st]; [Q] are cells that are still to
    be written *)
Definition grown (Q : nat → Prop) (st st' : ExprState) : Prop :=
  extends Q st st' ∧ (consts_wf st → (∀ a, Q a → (a < es_next st)%nat ∧ a ∉ (es_consts st).*1) → consts_wf st').

Definition grows (c : Node) : Prop := ∀ res st st', rec c res st = Ok st' → grown fresh st st'.

Lemma grown_refl Q st : grown Q st st.
Proof. split; [apply extends_refl|done]. Qed.

Lemma grown_trans st1 st2 st3 : grown fresh st1 st2 → grown fresh st2 st3 → grown fresh st1 st3.
Proof. intros [Hx1 Hw1] [Hx2 Hw2]. split; [by eapply extends_trans|]. intros Hw _. apply Hw2; [|by intros a []]. by apply Hw1; [|intros a []]. Qed.

Lemma grown_push st st1 op : grown fresh st st1 → grown fresh st (ExprEvalPushStep st1 op).
Proof. intros [Hx Hw]. split; [eapply extends_trans; [exact Hx|apply extends_push]|done]. Qed.

Lemma grown_palloc st n : grown fresh st (palloc_cells st n).
Proof. split; [apply extends_palloc|]. intros Hw _. by apply consts_wf_palloc. Qed.

Lemma grown_adjust st st' jumps target :
  grown fresh st st' → Forall (fun j => steps_len st ≤ j)%nat jumps → grown fresh st (adjust_jumps jumps target st').
Proof. intros [Hx Hw] Hj. split; [by apply extends_adjust|done]. Qed.

Lemma init_args_grown args : ∀ base st st',
  Forall grows args → init_args rec args base st = Ok st' → grown fresh st st'.
Proof.
  induction args as [|a args IH]; intros base st st' Hg Hi; simpl in Hi; [injection Hi as <-; apply grown_refl|].
  apply bind_Ok_inv in Hi as (st1 & H1 & Hi). inversion Hg; subst. eapply grown_trans; [by eauto|]. by eapply IH.
Qed.

Definition func_arg (a : Node) (base : nat) (st : ExprState) : outcome ExprState :=
  match a with
  | NConst con =>
      if load_consts_explicitly st then rec a base st
      else Ok (write_cell st base (mkNullable (constvalue con) (constisnull con)))
  | NLambdaExpr _ _ => Ok (write_cell st base (mkNullable DNodePtr false))
  | _ => rec a base st
  end.

(** the code of an argument, or a constant in its cell *)
Lemma func_arg_cases a base st :
  func_arg a base st = rec a base st
  ∨ ∃ c, func_arg a base st = Ok (write_cell st base c) ∧
      ((∃ con, a = NConst con ∧ c = mkNullable (constvalue con) (constisnull con))
       ∨ (∃ h e, a = NLambdaExpr h e ∧ c = mkNullable DNodePtr false)).
Proof.
  destruct a; try (by left); simpl.
  - destruct (load_consts_explicitly st); [by left|]. right. eexists. split; [done|]. left. eauto.
  - right. eexists. split; [done|]. right. eauto.
Qed.

(** cells of the arguments from the [i]-th on *)
Definition arg_cells (base n : nat) : nat → Prop := fun a => (base ≤ a < base + n)%nat.

Lemma func_arg_grown a base st st' :
  grows a → (base < es_next st)%nat → func_arg a base st = Ok st' → grown (eq base) st st'.
Proof.
  intros Hg Hb Hr. destruct (func_arg_cases a base st) as [Heq|(c & Heq & _)]; rewrite Heq in Hr.
  - destruct (Hg _ _ _ Hr) as [Hx Hw]. split; [by apply extends_fresh|]. intros Hwf _. by apply Hw; [|intros ? []].
  - injection Hr as <-. split; [by apply extends_write|]. intros Hwf HQ. by apply consts_wf_write; [..|apply HQ].
Qed.

Lemma init_func_args_grown args : ∀ base st st',
  Forall grows args → (base + length args ≤ es_next st)%nat →
  init_func_args rec args base st = Ok st' → grown (arg_cells base (length args)) st st'.
Proof.
  induction args as [|a args IH]; intros base st st' Hg Hb Hi; simpl in Hi; [injection Hi as <-; apply grown_refl|].
  apply bind_Ok_inv in Hi as (st1 & H1 & Hi). inversion Hg; subst. simpl in Hb.
  destruct (func_arg_grown a base st st1) as [Hx Hw]; [done|lia|exact H1|]. pose proof (ext_next _ _ _ Hx).
  destruct (IH (S base) st1 st') as [Hx' Hw']; [done|lia|done|]. split.
  - eapply extends_trans; (eapply extends_weaken; [|eassumption]); unfold arg_cells; simpl; intros a' Ha; left; lia.
  - intros Hwf HQ. unfold arg_cells in HQ. apply Hw'; [apply Hw; [done|]; intros a' <-; apply HQ; simpl; lia|].
    intros a' Ha. unfold arg_cells in Ha. destruct (HQ a') as [Hlt Hni]; [simpl; lia|]. split; [lia|]. intros Hin. apply Hni.
    eapply extends_old; [exact Hx|done|lia|done].
Qed.

Lemma ExecInitFunc_grown args fid coll st f st' :
  Forall grows args → ExecInitFunc rec args fid coll st = Ok (f, st') → grown fresh st st'.
Proof.
  intros Hg Hi. unfold ExecInitFunc in Hi. destruct (_ >? _); [done|]. apply bind_Ok_inv in Hi as (st1 & H1 & Hi). injection Hi as _ <-.
  destruct (init_func_args_grown args (es_next st) (palloc_cells st (length args)) st1) as [Hx Hw]; [done..|].
  split.
  - destruct Hx as [L S N (new & C & F) B]. split; try done; [simpl in N; lia|].
    exists new. split; [done|]. eapply Forall_impl; [exact F|]. unfold arg_cells. simpl. lia.
  - intros Hwf _. apply Hw; [by apply consts_wf_palloc|]. unfold arg_cells. intros a Ha. split; [simpl; lia|].
    intros (p & -> & Hp)%list_elem_of_fmap. destruct Hwf as [_ Hf]. rewrite Forall_forall in Hf. specialize (Hf p Hp). lia.
Qed.

(** the steps to adjust are among the new ones *)
Definition new_steps (st st' : ExprState) (jumps : list nat) : Prop :=
  Forall (fun j => steps_len st ≤ j < steps_len st')%nat jumps.

Lemma new_steps_cons st st1 st' j jumps :
  (steps_len st ≤ j < steps_len st1)%nat → (steps_len st1 ≤ steps_len st')%nat → new_steps st1 st' jumps → new_steps st st' (j :: jumps).
Proof. intros Hj Hl Hn. constructor; [lia|]. eapply Forall_impl; [exact Hn|]. simpl. lia. Qed.

(** a loop that pushes a step to adjust behind every argument *)
Lemma loop_grown st st1 op st' jumps :
  grown fresh st st1 → grown fresh (ExprEvalPushStep st1 op) st' → new_steps (ExprEvalPushStep st1 op) st' jumps →
  grown fresh st st' ∧ new_steps st st' (steps_len st1 :: jumps).
Proof.
  intros Hx Hx2 Hn. pose proof (ext_len _ _ _ (proj1 Hx)). pose proof (ext_len _ _ _ (proj1 Hx2)) as Hl2.
  split; [eapply grown_trans; [by eapply grown_push|exact Hx2]|].
  eapply new_steps_cons; [|exact Hl2|exact Hn]. rewrite steps_len_push. lia.
Qed.

Lemma init_bool_grown boolop nargs res anynull args : ∀ off st st' jumps,
  Forall grows args → init_bool rec boolop nargs off res anynull args st = Ok (st', jumps) →
  grown fresh st st' ∧ new_steps st st' jumps.
Proof.
  induction args as [|a args IH]; intros off st st' jumps Hg Hi; simpl in Hi.
  { injection Hi as <- <-. split; [apply grown_refl|constructor]. }
  apply bind_Ok_inv in Hi as (st1 & H1 & ([st2 j2] & H2 & Hi)%bind_Ok_inv). injection Hi as <- <-.
  inversion Hg; subst. eapply loop_grown; [by eauto|..]; by eapply IH.
Qed.

Lemma init_coalesce_grown res args : ∀ st st' jumps,
  Forall grows args → init_coalesce rec res args st = Ok (st', jumps) → grown fresh st st' ∧ new_steps st st' jumps.
Proof.
  induction args as [|a args IH]; intros st st' jumps Hg Hi; simpl in Hi.
  { injection Hi as <- <-. split; [apply grown_refl|constructor]. }
  apply bind_Ok_inv in Hi as (st1 & H1 & ([st2 j2] & H2 & Hi)%bind_Ok_inv). injection Hi as <- <-.
  inversion Hg; subst. eapply loop_grown; [by eauto|..]; by eapply IH.
Qed.

(** the code of one WHEN clause *)
Lemma when_grown res cond result st st1 st2 :
  grows cond → grows result → rec cond res st = Ok st1 →
  rec result res (ExprEvalPushStep st1 (EEOP_JUMP_IF_NOT_TRUE res (-1))) = Ok st2 →
  grown fresh st st1 ∧ grown fresh (ExprEvalPushStep st1 (EEOP_JUMP_IF_NOT_TRUE res (-1))) st2
  ∧ grown fresh st (adjust_jumps [steps_len st1] (S (steps_len st2)) (ExprEvalPushStep st2 (EEOP_JUMP (-1)))).
Proof.
  intros Hg1 Hg2 H1 H2. apply Hg1 in H1 as Hx. apply Hg2 in H2 as Hx2. split_and!; [done..|].
  apply grown_adjust; [|apply Forall_singleton, Hx].
  apply grown_push. eapply grown_trans; [by apply grown_push|exact Hx2].
Qed.

Lemma init_whens_grown res whens : ∀ st st' jumps,
  Forall grows (when_nodes whens) → init_whens rec res whens st = Ok (st', jumps) →
  grown fresh st st' ∧ new_steps st st' jumps.
Proof.
  induction whens as [|[c r] whens IH]; intros st st' jumps Hg Hi; simpl in Hi.
  { injection Hi as <- <-. split; [apply grown_refl|constructor]. }
  apply bind_Ok_inv in Hi as (st1 & H1 & (st2 & H2 & ([st3 j3] & H3 & Hi)%bind_Ok_inv)%bind_Ok_inv). injection Hi as <- <-.
  inversion Hg as [|? ? Hgc Hg']; subst. inversion Hg' as [|? ? Hgr Hg'']; subst. rewrite steps_len_push in H3.
  destruct (when_grown res c r st st1 st2 Hgc Hgr H1 H2) as (Hx1 & Hx2 & Hx).
  destruct (IH _ _ _ Hg'' H3) as [Hx3 Hn]. split; [by eapply grown_trans|].
  pose proof (ext_len _ _ _ (proj1 Hx1)). pose proof (ext_len _ _ _ (proj1 Hx2)) as Hl2. rewrite steps_len_push in Hl2.
  eapply new_steps_cons; [|apply Hx3|exact Hn]. rewrite adjust_steps_len, steps_len_push. lia.
Qed.

Lemma init_call_grown held load res args st st' :
  Forall grows args → (∀ a st st', load a st = Ok st' → grown fresh st st') →
  init_call rec held load res args st = Ok st' → grown fresh st st'.
Proof.
  intros Hg Hload Hi. unfold init_call in Hi. apply bind_Ok_inv in Hi as (key & _ & Hi). destruct (_ >? _); [done|].
  apply bind_Ok_inv in Hi as (st1 & H1 & (st2 & H2 & Hi)%bind_Ok_inv). injection Hi as <-. apply grown_push.
  eapply grown_trans; [eapply grown_trans; [apply grown_palloc|by eapply Hload]|]. by eapply init_args_grown.
Qed.
End Loops.

Lemma init_grows e : grows ExecInitExprRec e.
Proof.
  induction e as [e IH] using node_ind'. intros res st st' Hi.
  destruct e as [v|c|p| |f args|o args|o args|o args|op args|k t arg|t arg|t whens def|t args|t args|t coll op args|t arg|t arg|h e|h args|h l args];
    cbn [ExecInitExprRec children] in Hi, IH; try (injection Hi as <-; apply grown_push, grown_refl);
    try (apply bind_Ok_inv in Hi as ([fc st1] & H1 & Hi); injection Hi as <-; apply grown_push; by eapply ExecInitFunc_grown);
    try (inversion IH as [|? ? Hg _]; subst; apply bind_Ok_inv in Hi as (st1 & H1 & Hi); injection Hi as <-; apply grown_push; by eapply Hg);
    try (apply bind_Ok_inv in Hi as (st1 & H1 & Hi); injection Hi as <-; apply grown_push;
         (eapply grown_trans; [apply grown_palloc|]); by eapply init_args_grown).
  - destruct (paramkind p); try done; injection Hi as <-; apply grown_push, grown_refl.
  - done.
  - apply bind_Ok_inv in Hi as ([st1 j] & H1 & Hi). injection Hi as <-. cbn [fst snd] in *.
    set (st0 := match op with NOT_EXPR => st | _ => _ end) in H1.
    assert (grown fresh st st0) as Hx0 by (unfold st0; destruct op; try apply grown_palloc; apply grown_refl).
    destruct (init_bool_grown ExecInitExprRec op (length args) res (es_next st) args 0 st0 st1 j IH H1) as [Hx Hn].
    apply grown_adjust; [by eapply grown_trans|]. eapply Forall_impl; [exact Hn|]. pose proof (ext_len _ _ _ (proj1 Hx0)). simpl. lia.
  - inversion IH as [|? ? Hg _]; subst. by eapply Hg.
  - apply Forall_app in IH as [IHw IHd]. apply bind_Ok_inv in Hi as ([st1 j] & H1 & (st2 & H2 & Hi)%bind_Ok_inv).
    injection Hi as <-. destruct (init_whens_grown ExecInitExprRec res whens st st1 j IHw H1) as [Hx Hn].
    destruct def as [d|]; [|done]. inversion IHd as [|? ? Hd _]; subst.
    apply grown_adjust; [|eapply Forall_impl; [exact Hn|simpl; lia]]. eapply grown_trans; [exact Hx|by eapply Hd].
  - apply bind_Ok_inv in Hi as ([st1 j] & H1 & Hi). injection Hi as <-.
    destruct (init_coalesce_grown ExecInitExprRec res args st st1 j IH H1) as [Hx Hn].
    apply grown_adjust; [exact Hx|]. eapply Forall_impl; [exact Hn|simpl; lia].
  - eapply (init_call_grown ExecInitExprRec); [exact IH| |exact Hi].
    intros a st1 st2 Hl. injection Hl as <-. apply grown_push, grown_refl.
  - inversion IH as [|? ? Hgl Hga]; subst. eapply (init_call_grown ExecInitExprRec); [exact Hga| |exact Hi].
    intros a st1 st2 Hl. by eapply Hgl.
Qed.
End Extends.

(** ** Errors of the compilation *)

(** a compilation and a walk that fail alike *)
Definition fails_alike {A} (r : outcome A) (s : outcome unit) (w : bool * outcome unit) : Prop :=
  match r with
  | Ok _ => w = (false, s)
  | Err e => w = (true, Err e)
  | UB => w = (true, UB)
  | OutOfFuel => False
  end.

Lemma alike_bind {A B} (r : outcome A) (k : A → outcome B) s w (f : outcome unit → bool * outcome unit) :
  fails_alike r s w → (∀ a, r = Ok a → fails_alike (k a) s (f s)) →
  fails_alike (r ≫= k) s (let '(stop, s') := w in if stop then (true, s') else f s').
Proof. intros Hr Hk. destruct r; simpl in *; subst; auto. Qed.

Lemma alike_last {A B} (r : outcome A) (g : A → B) s w :
  fails_alike r s w → fails_alike (r ≫= fun a => Ok (g a)) s w.
Proof. by destruct r. Qed.

Lemma alike_pair {A B C} (r : outcome (A * B)) (g : A → B → C) s w :
  fails_alike r s w → fails_alike ('(a, b) ← r; Ok (g a b)) s w.
Proof. by destruct r as [[]| | |]. Qed.

Section Errors.
Context `{ExecParams}.
Context (rec : Node → nat → ExprState → outcome ExprState) (walker : Node → outcome unit → bool * outcome unit).

Definition alike (c : Node) : Prop := ∀ res st s, fails_alike (rec c res st) s (walker c s).

Lemma init_args_alike args : ∀ base st s,
  Forall alike args → fails_alike (init_args rec args base st) s (list_walk walker args s).
Proof.
  induction args as [|a args IH]; intros base st s Ha; [done|]. inversion Ha; subst. cbn [init_args list_walk].
  apply alike_bind; auto.
Qed.

Lemma func_arg_alike a base st s :
  alike a → (∀ c, walker (NConst c) s = (false, s)) → (∀ h e, walker (NLambdaExpr h e) s = (false, s)) →
  fails_alike
    match a with
    | NConst con =>
        if load_consts_explicitly st then rec a base st
        else Ok (write_cell st base (mkNullable (constvalue con) (constisnull con)))
    | NLambdaExpr _ _ => Ok (write_cell st base (mkNullable DNodePtr false))
    | _ => rec a base st
    end s (walker a s).
Proof. intros Ha Hc Hl. destruct a; try apply Ha; [|apply Hl]. destruct (load_consts_explicitly st); [apply Ha|apply Hc]. Qed.

Lemma init_func_args_alike args : ∀ base st s,
  (∀ c, walker (NConst c) s = (false, s)) → (∀ h e, walker (NLambdaExpr h e) s = (false, s)) →
  Forall alike args → fails_alike (init_func_args rec args base st) s (list_walk walker args s).
Proof.
  induction args as [|a args IH]; intros base st s Hc Hl Ha; [done|]. inversion Ha; subst. cbn [init_func_args list_walk].
  apply alike_bind; [by apply func_arg_alike|auto].
Qed.

Lemma ExecInitFunc_alike args fid coll st s :
  (∀ c, walker (NConst c) s = (false, s)) → (∀ h e, walker (NLambdaExpr h e) s = (false, s)) → Forall alike args →
  fails_alike (ExecInitFunc rec args fid coll st) s
    (if Z.of_nat (length args) >? FUNC_MAX_ARGS then (true, func_max_args) else list_walk walker args s).
Proof.
  intros Hc Hl Ha. unfold ExecInitFunc. destruct (_ >? _); [done|]. apply alike_last. by apply init_func_args_alike.
Qed.

Lemma init_bool_alike boolop nargs res anynull args : ∀ off st s,
  Forall alike args → fails_alike (init_bool rec boolop nargs off res anynull args st) s (list_walk walker args s).
Proof.
  induction args as [|a args IH]; intros off st s Ha; [done|]. inversion Ha; subst. cbn [init_bool list_walk].
  apply alike_bind; [auto|]. intros st1 _. apply alike_last. auto.
Qed.

Lemma init_coalesce_alike res args : ∀ st s,
  Forall alike args → fails_alike (init_coalesce rec res args st) s (list_walk walker args s).
Proof.
  induction args as [|a args IH]; intros st s Ha; [done|]. inversion Ha; subst. cbn [init_coalesce list_walk].
  apply alike_bind; [auto|]. intros st1 _. apply alike_last. auto.
Qed.

Lemma init_whens_alike res whens : ∀ st s,
  Forall alike (when_nodes whens) → fails_alike (init_whens rec res whens st) s (whens_walk walker whens s).
Proof.
  induction whens as [|[c r] whens IH]; intros st s Ha; [done|].
  inversion Ha as [|? ? Hc Ha']; subst. inversion Ha' as [|? ? Hr Ha'']; subst. cbn [init_whens whens_walk].
  apply alike_bind; [auto|]. intros st1 _. apply alike_bind; [auto|]. intros st2 _. apply alike_last. auto.
Qed.

Lemma init_call_alike held load res args st s w :
  (∀ a st, fails_alike (load a st) s w) → Forall alike args →
  fails_alike (init_call rec held load res args st) s
    (if Z.of_nat (length args) >? LAMBDA_MAX_ARGS then (true, too_many_args args)
     else let '(stop, s') := w in if stop then (true, s') else list_walk walker args s').
Proof.
  intros Hl Ha. unfold init_call. destruct (cache_key_total args) as [key ->]. cbn [mbind outcome_bind].
  destruct (_ >? _); [done|]. apply alike_bind; [apply Hl|]. intros st1 _. apply alike_last. by apply init_args_alike.
Qed.
End Errors.

Lemma init_alike `{ExecParams} e : alike ExecInitExprRec exec_init_walker e.
Proof.
  induction e as [e IH] using node_ind'. intros res st s.
  destruct e as [v|c|p| |f args|o args|o args|o args|op args|k t arg|t arg|t whens def|t args|t args|t coll op args|t arg|t arg|h e|h args|h l args];
    cbn [ExecInitExprRec exec_init_walker expression_tree_walker children] in *; try done;
    try (inversion IH as [|? ? Ha _]; subst; apply alike_last, Ha);
    try (apply alike_pair; by apply ExecInitFunc_alike).
  - by destruct (paramkind p).
  - apply alike_last. by apply init_bool_alike.
  - inversion IH as [|? ? Ha _]; subst. apply Ha.
  - apply Forall_app in IH as [IHw IHd]. destruct def as [d|].
    + inversion IHd as [|? ? Hd _]; subst. apply alike_bind; [by apply init_whens_alike|].
      intros r _. apply alike_last, Hd.
    + apply alike_bind; [by apply init_whens_alike|]. done.
  - apply alike_last. by apply init_args_alike.
  - apply alike_last. by apply init_coalesce_alike.
  - apply alike_last. by apply init_args_alike.
  - by apply (init_call_alike ExecInitExprRec exec_init_walker None _ res args st s (false, s)).
  - inversion IH as [|? ? Hl Ha]; subst.
    exact (init_call_alike ExecInitExprRec exec_init_walker (heldargs h) _ res args st s _ (fun a st => Hl a st s) Ha).
Qed.
