(* ===== verification/StepsRun.v ===== *)
(** * Running compiled expressions

    The code of a node, wherever it stands in a list of steps, computes the
    value of the node into its result cell and changes no other cell of the
    code around it: it runs from its first step to the step behind its last
    one, or raises the error the evaluation raises. *)

From stdpp Require Import functions.
From S2P Require Import Prelude Bitmapset Nodes NodesFacts Serialize Inject InjectFacts Eval EvalFacts Steps StepsFacts.

Section Run.
Context `{NIO : NodeIO} `{TC : TypeCache} `{EP : ExecParams} (hoist : bool).

(** the body of a lambda in a state of its own *)
Definition run_body (fuel : nat) (frame : list (option Datum)) (body : Node) : outcome (option Datum) :=
  es ← ExecInitExpr body;
  r ← exec_state (ExecInterpExpr hoist fuel) frame es (es_memory es);
  Ok r.2.

Section Code.
Context (frame : list (option Datum)) (code : list ExprEvalStep).

(** ** Runs *)

(** [k] steps lead from here to there, given enough fuel for the calls *)
Definition runs (pc : nat) (m : memory) (pc' : nat) (m' : memory) : Prop :=
  ∃ k n, ∀ fuel, (n ≤ fuel)%nat →
    ExecInterpExpr hoist (k + fuel) frame code pc m = ExecInterpExpr hoist fuel frame code pc' m'.

Definition crashes (pc : nat) (m : memory) (e : pg_error) : Prop :=
  ∃ n, ∀ fuel, (n ≤ fuel)%nat → ExecInterpExpr hoist fuel frame code pc m = Err e.

Lemma runs_refl pc m : runs pc m pc m.
Proof. by exists 0%nat, 0%nat. Qed.

Lemma runs_trans pc1 m1 pc2 m2 pc3 m3 : runs pc1 m1 pc2 m2 → runs pc2 m2 pc3 m3 → runs pc1 m1 pc3 m3.
Proof.
  intros (k1 & n1 & H1) (k2 & n2 & H2). exists (k1 + k2)%nat, (max n1 n2). intros fuel Hf.
  rewrite <- Nat.add_assoc, H1, H2 by lia. done.
Qed.

Lemma runs_crashes pc1 m1 pc2 m2 e : runs pc1 m1 pc2 m2 → crashes pc2 m2 e → crashes pc1 m1 e.
Proof.
  intros (k1 & n1 & H1) (n2 & H2). exists (k1 + max n1 n2)%nat. intros fuel Hf.
  replace fuel with (k1 + (fuel - k1))%nat by lia. rewrite H1, H2 by lia. done.
Qed.

Definition target (pc : nat) (j : option Z) : nat := match j with None => S pc | Some t => Z.to_nat t end.

Lemma interp_S fuel pc op m :
  code !! pc = Some op → op ≠ EEOP_DONE →
  ExecInterpExpr hoist (S fuel) frame code pc m =
    (r ← exec_step (call_lambda hoist (run_body fuel) fuel) frame op m;
     match r.2 with
     | None => ExecInterpExpr hoist fuel frame code (S pc) r.1
     | Some j => if j <? 0 then UB else ExecInterpExpr hoist fuel frame code (Z.to_nat j) r.1
     end).
Proof. intros Hop Hd. cbn [ExecInterpExpr]. rewrite Hop. cbn [deref mbind outcome_bind]. by destruct op. Qed.

(** a step that behaves in the same way from some fuel on *)
Definition steps_to (op : ExprEvalStep) (m : memory) (r : outcome (memory * option Z)) : Prop :=
  ∃ n, ∀ fuel, (n ≤ fuel)%nat → exec_step (call_lambda hoist (run_body fuel) fuel) frame op m = r.

Lemma runs_step pc op m m' j :
  code !! pc = Some op → (∀ t, j = Some t → 0 ≤ t) → steps_to op m (Ok (m', j)) → runs pc m (target pc j) m'.
Proof.
  intros Hop Hj [n Hs]. exists 1%nat, n. intros fuel Hf. assert (op ≠ EEOP_DONE) as Hd.
  { intros ->. by specialize (Hs fuel Hf). }
  rewrite (interp_S _ _ op), Hs by done. cbn [mbind outcome_bind fst snd]. destruct j as [t|]; [|done].
  specialize (Hj t eq_refl). by rewrite (proj2 (Z.ltb_ge _ 0)).
Qed.

Lemma crashes_step pc op m e : code !! pc = Some op → steps_to op m (Err e) → crashes pc m e.
Proof.
  intros Hop [n Hs]. exists (S n). intros [|fuel] Hf; [lia|]. assert (op ≠ EEOP_DONE) as Hd.
  { intros ->. by specialize (Hs n (Nat.le_refl n)). }
  by rewrite (interp_S _ _ op), Hs by (done || lia).
Qed.

Lemma steps_now op m r : (∀ call, exec_step call frame op m = r) → steps_to op m r.
Proof. intros Hs. exists 0%nat. intros. apply Hs. Qed.

(** ** Memory *)

(** the constants of the whole expression *)
Context (pool : list (nat * NullableDatum)).

Definition good (m : memory) : Prop := ∀ a c, (a, c) ∈ pool → m a = c.

Definition changes (W : nat → Prop) (m m' : memory) : Prop := ∀ a, ¬ W a → m' a = m a.

(** cells between two states that are no constants *)
Definition between (st st' : ExprState) : nat → Prop := fun a => (es_next st ≤ a < es_next st')%nat ∧ a ∉ pool.*1.

(** what the code of a node may change *)
Definition scratch (res : nat) (st st' : ExprState) : nat → Prop := fun a => a = res ∨ between st st' a.

Lemma changes_refl W m : changes W m m.
Proof. done. Qed.

Lemma changes_trans W m1 m2 m3 : changes W m1 m2 → changes W m2 m3 → changes W m1 m3.
Proof. intros H1 H2 a Ha. by rewrite H2, H1. Qed.

Lemma changes_weaken (W W' : nat → Prop) m m' : (∀ a, W a → W' a) → changes W m m' → changes W' m m'.
Proof. intros HW Hc a Ha. apply Hc. auto. Qed.

Lemma changes_insert (W : nat → Prop) m a c : W a → changes W m (<[a := c]> m).
Proof. intros Ha b Hb. by rewrite fn_lookup_insert_ne by (by intros ->). Qed.

Lemma good_changes W m m' : good m → changes W m m' → (∀ a, W a → a ∉ pool.*1) → good m'.
Proof.
  intros Hg Hc HW a c Hin. rewrite Hc; [by apply Hg|]. intros Ha. apply HW in Ha. apply Ha.
  apply list_elem_of_fmap. by exists (a, c).
Qed.

Lemma scratch_pool res st st' a : res ∉ pool.*1 → scratch res st st' a → a ∉ pool.*1.
Proof. by intros Hr [->|[_ Ha]]. Qed.

(** ** Regions of the code *)

Definition seg (st st' : ExprState) : Prop :=
  ∀ i, (steps_len st ≤ i < steps_len st')%nat → code !! i = es_steps st' !! i.

(** the constants between two states are those of the pool *)
Record fits (st st' : ExprState) : Prop := {
  fit_in p : p ∈ es_consts st' → p ∈ pool;
  fit_below a : a ∈ (es_consts st).*1 → (a < es_next st)%nat;
  fit_closed a : (es_next st ≤ a < es_next st')%nat → a ∈ pool.*1 → a ∈ (es_consts st').*1
}.

Lemma seg_split Q st st1 st2 : extends Q st st1 → extends Q st1 st2 → seg st st2 → seg st st1 ∧ seg st1 st2.
Proof.
  intros Hx1 Hx2 Hs. pose proof (ext_len _ _ _ Hx1). pose proof (ext_len _ _ _ Hx2). split; intros i Hi.
  - rewrite Hs by lia. apply Hx2. lia.
  - apply Hs. lia.
Qed.

Lemma seg_push st st1 op :
  (steps_len st ≤ steps_len st1)%nat → seg st (ExprEvalPushStep st1 op) → seg st st1 ∧ code !! steps_len st1 = Some op.
Proof.
  intros Hl Hs. split.
  - intros i Hi. rewrite Hs by (rewrite steps_len_push; lia). apply (extends_push fresh). lia.
  - rewrite Hs by (rewrite steps_len_push; lia). apply lookup_push.
Qed.

Lemma fits_split (Q : nat → Prop) st st1 st2 :
  extends Q st st1 → extends Q st1 st2 → (∀ a, Q a → (a < es_next st)%nat) → fits st st2 → fits st st1 ∧ fits st1 st2.
Proof.
  intros Hx1 Hx2 HQ [Hin Hb Hcl]. pose proof (ext_next _ _ _ Hx1). pose proof (ext_next _ _ _ Hx2). split; split.
  - intros p Hp. apply Hin. by eapply extends_const.
  - done.
  - intros a Ha Hp. eapply extends_old; [exact Hx2|apply Hcl; [lia|done]| |lia]. intros HQa%HQ. lia.
  - done.
  - intros a Ha. destruct (decide (a < es_next st)%nat) as [|Hge]; [lia|]. destruct Hx1 as [_ _ _ (new & Hnew & F) _].
    rewrite Hnew, fmap_app in Ha. apply elem_of_app in Ha as [Ha|Ha]; [|apply Hb in Ha; lia].
    apply list_elem_of_fmap in Ha as (p & -> & Hp). rewrite Forall_forall in F. by apply F in Hp as [_ Hp].
  - intros a Ha Hp. apply Hcl; [lia|done].
Qed.

Lemma fits_fresh st st1 st2 : extends fresh st st1 → extends fresh st1 st2 → fits st st2 → fits st st1 ∧ fits st1 st2.
Proof. intros H1 H2. by apply (fits_split fresh); [..|intros a []]. Qed.

Lemma between_sub st st1 st2 st3 a :
  (es_next st ≤ es_next st1)%nat → (es_next st2 ≤ es_next st3)%nat → between st1 st2 a → between st st3 a.
Proof. intros H1 H2 [Ha Hp]. split; [lia|done]. Qed.

Lemma scratch_sub res st st1 st2 st3 a :
  (es_next st ≤ es_next st1)%nat → (es_next st2 ≤ es_next st3)%nat → scratch res st1 st2 a → scratch res st st3 a.
Proof. intros H1 H2 [->|Ha]; [by left|right]. by eapply between_sub; [..|exact Ha]. Qed.

(** ** Values *)

(** running from [pc] to [pc'] changes only [W] and leaves the result where
    [read] finds it *)
Definition evaluates {B} (W : nat → Prop) (pc pc' : nat) (read : memory → B) (m : memory) (r : outcome B) : Prop :=
  match r with
  | Ok v => ∃ m', runs pc m pc' m' ∧ read m' = v ∧ changes W m m'
  | Err e => crashes pc m e
  | _ => True
  end.

Definition at_cell (res : nat) (m : memory) : option Datum := nd_option (m res).

(** the code that [comp] produces computes [r] *)
Definition comp_ok (comp : nat → ExprState → outcome ExprState) (r : outcome (option Datum)) : Prop :=
  ∀ res st st' m,
    comp res st = Ok st' → (res < es_next st)%nat → res ∉ pool.*1 → seg st st' → fits st st' → good m →
    evaluates (scratch res st st') (steps_len st) (steps_len st') (at_cell res) m r.

Definition code_ok (c : Node) (r : outcome (option Datum)) : Prop := comp_ok (ExecInitExprRec c) r.

Lemma evaluates_weaken {B} (W W' : nat → Prop) pc pc' (read : memory → B) m r :
  (∀ a, W a → W' a) → evaluates W pc pc' read m r → evaluates W' pc pc' read m r.
Proof.
  intros HW. destruct r as [v| | |]; try done. intros (m' & Hr & Hv & Hc). exists m'. split_and!; [done..|].
  by eapply changes_weaken.
Qed.

Lemma evaluates_now {B} W pc (read : memory → B) m v : read m = v → evaluates W pc pc read m (Ok v).
Proof. intros Hv. exists m. split_and!; [apply runs_refl|done|done]. Qed.

(** first one part, then another that starts with the value of the first *)
Lemma evaluates_bind {A B} (W1 W : nat → Prop) pc pc1 pc' (read1 : memory → A) (read : memory → B) m r (k : A → outcome B) :
  (∀ a, W1 a → W a) → evaluates W1 pc pc1 read1 m r →
  (∀ m1, changes W1 m m1 → evaluates W pc1 pc' read m1 (k (read1 m1))) →
  evaluates W pc pc' read m (r ≫= k).
Proof.
  intros HW Hr Hk. destruct r as [v| | |]; try done. destruct Hr as (m1 & Hrun & Hv & Hc). cbn [mbind outcome_bind].
  specialize (Hk m1 Hc). rewrite Hv in Hk. destruct (k v) as [w|e| |]; try done; cbn [evaluates] in *.
  - destruct Hk as (m2 & Hrun2 & Hw & Hc2). exists m2. split_and!; [by eapply runs_trans|done|].
    eapply changes_trans; [|exact Hc2]. by eapply changes_weaken.
  - by eapply runs_crashes.
Qed.

(** the same run, read in another way *)
Lemma evaluates_map {A B} (W W' : nat → Prop) pc pc' (read : memory → A) (read' : memory → B) (g : A → B) m r :
  (∀ a, W a → W' a) → (∀ m', changes W m m' → read' m' = g (read m')) →
  evaluates W pc pc' read m r → evaluates W' pc pc' read' m (r ≫= fun x => Ok (g x)).
Proof.
  intros HW Hg Hr. eapply evaluates_weaken; [exact HW|]. destruct r as [v| | |]; try done.
  destruct Hr as (m' & Hrun & <- & Hc). exists m'. split_and!; [done|by apply Hg|done].
Qed.

(** a step that computes [r] into [res] *)
Definition stores (op : ExprEvalStep) (res : nat) (m : memory) (r : outcome (option Datum)) : Prop :=
  match r with
  | Ok v => ∃ m', steps_to op m (Ok (m', None)) ∧ at_cell res m' = v ∧ changes (eq res) m m'
  | Err e => steps_to op m (Err e)
  | _ => True
  end.

Lemma stores_insert op res m c v :
  (∀ call, exec_step call frame op m = Ok (<[res := c]> m, None)) → nd_option c = v → stores op res m (Ok v).
Proof.
  intros Hs Hv. exists (<[res := c]> m). split_and!; [by apply steps_now| |by apply changes_insert].
  unfold at_cell. by rewrite fn_lookup_insert.
Qed.

Lemma stores_nothing op res m v :
  (∀ call, exec_step call frame op m = Ok (m, None)) → at_cell res m = v → stores op res m (Ok v).
Proof. intros Hs Hv. exists m. split_and!; [by apply steps_now|done..]. Qed.

Lemma nd_option_of v : nd_option (nd_of v) = v.
Proof. by destruct v. Qed.

Lemma stores_result op res m r :
  (∀ call, exec_step call frame op m = (d ← r; Ok (<[res := nd_of d]> m, None))) → stores op res m r.
Proof.
  intros Hs. destruct r as [v|e| |]; try done; [|by apply steps_now].
  eapply stores_insert; [exact Hs|apply nd_option_of].
Qed.

(** one step that ends a node *)
Lemma evaluates_step (W : nat → Prop) pc op res m r :
  code !! pc = Some op → W res → stores op res m r → evaluates W pc (S pc) (at_cell res) m r.
Proof.
  intros Hop HW Hr. destruct r as [v|e| |]; try done; cbn [evaluates].
  - destruct Hr as (m' & Hs & Hv & Hc). exists m'. split_and!; [|done|by eapply changes_weaken; [|exact Hc]; intros a <-].
    by eapply (runs_step pc op m m' None).
  - by eapply crashes_step.
Qed.

(** ** Single steps *)

Lemma cells_null m n : ∀ base,
  existsb (fun i => nd_isnull (m i)) (seq base n) = negb (bool_decide (Forall is_Some (cells m base n))).
Proof.
  induction n as [|n IH]; intros base; [done|]. change (cells m base (S n)) with (nd_option (m base) :: cells m (S base) n).
  cbn [seq existsb]. rewrite IH. unfold nd_option. destruct (nd_isnull (m base)).
  - rewrite (bool_decide_eq_false_2 (Forall is_Some (None :: _))); [done|]. intros Hall. by inversion Hall as [|? ? [? ?]].
  - simpl. f_equal. apply bool_decide_ext. rewrite Forall_cons. naive_solver.
Qed.

Lemma func_step res f m : stores (func_opcode res f) res m (eval_func (fc_fn f) (fc_coll f) (fc_values m f)).
Proof.
  unfold func_opcode, eval_func. destruct (fn_strict (fc_fn f)); [|by apply stores_result]. destruct (fc_nargs f) as [|n] eqn:Hn.
  - unfold fc_values. rewrite Hn. by apply stores_result; intros; simpl; unfold fc_values; rewrite Hn.
  - rewrite (bool_decide_eq_false_2 (fc_values m f = [])) by (unfold fc_values; by rewrite Hn).
    simpl. pose proof (cells_null m (fc_nargs f) (fc_args f)) as Hnull. fold (fc_values m f) in Hnull.
    destruct (negb _).
    + eapply stores_insert; [intros; simpl; by rewrite Hnull|done].
    + apply stores_result. intros. simpl. by rewrite Hnull.
Qed.

(** the functions of two arguments *)
Lemma fc_values_2 m f : fc_nargs f = 2%nat → fc_values m f = [nd_option (m (fc_args f)); nd_option (m (S (fc_args f)))].
Proof. unfold fc_values. by intros ->. Qed.

Lemma fc_values_not_2 m f : fc_nargs f ≠ 2%nat → length (fc_values m f) ≠ 2%nat.
Proof. unfold fc_values, cells. by rewrite length_fmap, length_seq. Qed.

Lemma distinct_step res f m : stores (EEOP_DISTINCT res f) res m (eval_distinct (fc_fn f) (fc_coll f) (fc_values m f)).
Proof.
  destruct (decide (fc_nargs f = 2%nat)) as [Hn|Hn].
  - pose proof (fc_values_2 m f Hn) as Hv. rewrite Hv. unfold nd_option in *. unfold eval_distinct.
    destruct (nd_isnull (m (fc_args f))) eqn:Ha, (nd_isnull (m (S (fc_args f)))) eqn:Hb;
      try (by eapply stores_insert; [intros; cbn [exec_step]; by rewrite Ha, Hb|done]).
    rewrite <- Hv. destruct (fn_call _ _ _) as [v|e| |] eqn:Hc; try done;
      [eapply stores_insert|apply steps_now]; try (intros; cbn [exec_step]; by rewrite Ha, Hb, Hc). by destruct v.
  - apply (fc_values_not_2 m) in Hn. destruct (fc_values m f) as [|[a|] [|[b|] [|]]]; done.
Qed.

Lemma nullif_step res f m : stores (EEOP_NULLIF res f) res m (eval_nullif (fc_fn f) (fc_coll f) (fc_values m f)).
Proof.
  destruct (decide (fc_nargs f = 2%nat)) as [Hn|Hn].
  - pose proof (fc_values_2 m f Hn) as Hv. rewrite Hv. unfold nd_option in *. unfold eval_nullif.
    destruct (nd_isnull (m (fc_args f))) eqn:Ha, (nd_isnull (m (S (fc_args f)))) eqn:Hb;
      try (by eapply stores_insert; [intros; cbn [exec_step]; by rewrite Ha, Hb|unfold nd_option; by rewrite Ha]).
    rewrite <- Hv. destruct (fn_call _ _ _) as [[d|]|e| |] eqn:Hc; try done;
      [|eapply stores_insert|apply steps_now]; try (intros; cbn [exec_step]; by rewrite Ha, Hb, Hc);
      [|unfold nd_option; by rewrite Ha].
    cbn [mbind outcome_bind]. destruct (DatumGetBool d) eqn:Hd; (eapply stores_insert;
      [intros; cbn [exec_step]; rewrite Ha, Hb, Hc; simpl; by rewrite Hd|unfold nd_option; simpl; by rewrite ?Ha]).
  - apply (fc_values_not_2 m) in Hn. destruct (fc_values m f) as [|[a|] [|[b|] [|]]]; done.
Qed.

Lemma minmax_step res t coll op base n m :
  stores (EEOP_MINMAX res t coll op base n) res m (ExecEvalMinMax op t coll None (cells m base n)).
Proof.
  destruct (ExecEvalMinMax _ _ _ _ _) as [[d|]|e| |] eqn:Hr; try done; [| |apply steps_now; intros; simpl; by rewrite Hr].
  - eapply stores_insert; [intros; simpl; by rewrite Hr|done].
  - eapply stores_insert; [intros; simpl; by rewrite Hr|done].
Qed.

Lemma nulltest_step t res m :
  stores (match t with IS_NULL => EEOP_NULLTEST_ISNULL res | IS_NOT_NULL => EEOP_NULLTEST_ISNOTNULL res end) res m
    (Ok (eval_nulltest t (at_cell res m))).
Proof. destruct t; (eapply stores_insert; [done|]); unfold at_cell, nd_option; simpl; by destruct (nd_isnull (m res)). Qed.

Lemma booltest_step t res m : stores (booltest_opcode t res) res m (Ok (eval_booltest t (at_cell res m))).
Proof.
  destruct t; try apply (nulltest_step IS_NULL); try apply (nulltest_step IS_NOT_NULL); unfold at_cell, nd_option;
    destruct (nd_isnull (m res)) eqn:Hn;
    try (by eapply stores_insert; [intros; simpl; by rewrite Hn|done]);
    try (apply stores_nothing; [intros; simpl; by rewrite Hn|unfold at_cell, nd_option; by rewrite Hn]);
    (eapply stores_insert; [intros; simpl; by rewrite Hn|unfold nd_option; simpl; by rewrite Hn]).
Qed.

(** ** Lists of arguments *)

Lemma cells_S m base n : cells m base (S n) = nd_option (m base) :: cells m (S base) n.
Proof. done. Qed.

Lemma cells_length m base n : length (cells m base n) = n.
Proof. unfold cells. by rewrite length_fmap, length_seq. Qed.

(** what the code of arguments may change *)
Definition args_scratch (base n : nat) (st st' : ExprState) : nat → Prop :=
  fun a => (arg_cells base n a ∧ a ∉ pool.*1) ∨ between st st' a.

(** an argument in front of others *)
Lemma evaluates_cons st st1 st' base n pc pc1 pc' m r rs :
  (es_next st ≤ es_next st1)%nat → (es_next st1 ≤ es_next st')%nat → (base < es_next st)%nat → good m →
  evaluates (args_scratch base 1 st st1) pc pc1 (at_cell base) m r →
  (∀ m1, good m1 → evaluates (args_scratch (S base) n st1 st') pc1 pc' (fun m => cells m (S base) n) m1 rs) →
  evaluates (args_scratch base (S n) st st') pc pc' (fun m => cells m base (S n)) m (y ← r; ys ← rs; Ok (y :: ys)).
Proof.
  intros Hn1 Hn2 Hb Hg Hr Hrs. eapply evaluates_bind; [|exact Hr|].
  - unfold args_scratch, arg_cells. intros a [[Ha Hp]|Ha]; [left; split; [lia|done]|right]. by eapply between_sub; [..|exact Ha].
  - intros m1 Hc. eapply evaluates_map; [..|apply Hrs].
    + unfold args_scratch, arg_cells. intros a [[Ha Hp]|Ha]; [left; split; [lia|done]|right]. by eapply between_sub; [..|exact Ha].
    + intros m2 Hc2. rewrite cells_S. f_equal. unfold at_cell. f_equal. apply Hc2.
      unfold args_scratch, arg_cells, between. intros [[Ha _]|[Ha _]]; lia.
    + eapply good_changes; [exact Hg|exact Hc|]. unfold args_scratch, between. by intros a [[_ Ha]|[_ Ha]].
Qed.

Lemma scratch_args res st st' a : res ∉ pool.*1 → scratch res st st' a → args_scratch res 1 st st' a.
Proof. intros Hr [->|Ha]; [left; split; [unfold arg_cells; lia|done]|by right]. Qed.

Section Args.
Context (ev : Node → outcome (option Datum)).

Lemma init_args_ok args : ∀ base st st' m,
  Forall (fun c => code_ok c (ev c)) args → init_args ExecInitExprRec args base st = Ok st' →
  (base + length args ≤ es_next st)%nat → (∀ a, arg_cells base (length args) a → a ∉ pool.*1) →
  seg st st' → fits st st' → good m →
  evaluates (args_scratch base (length args) st st') (steps_len st) (steps_len st') (fun m => cells m base (length args)) m
    (omapM ev args).
Proof.
  induction args as [|a args IH]; intros base st st' m Hok Hi Hb Hp Hs Hf Hg; simpl in Hi.
  { injection Hi as <-. by apply evaluates_now. }
  apply bind_Ok_inv in Hi as (st1 & H1 & Hi). inversion Hok as [|? ? Ha Hargs]; subst. simpl in Hb.
  destruct (init_grows _ _ _ _ H1) as [Hx1 _].
  destruct (init_args_grown ExecInitExprRec args (S base) st1 st') as [Hx2 _]; [apply Forall_forall; intros; apply init_grows|done|].
  destruct (seg_split _ _ _ _ Hx1 Hx2 Hs) as [Hs1 Hs2]. destruct (fits_fresh _ _ _ Hx1 Hx2 Hf) as [Hf1 Hf2].
  pose proof (ext_next _ _ _ Hx1). pose proof (ext_next _ _ _ Hx2).
  assert (base ∉ pool.*1) as Hbp by (apply Hp; unfold arg_cells; simpl; lia).
  apply (evaluates_cons st st1 st' base (length args) (steps_len st) (steps_len st1)); [done|done|lia|done| |].
  - eapply evaluates_weaken; [by intros a'; apply scratch_args|]. apply (Ha base st st1); try done. lia.
  - intros m1 Hg1. apply IH; try done; [lia|]. unfold arg_cells in *. intros a' Ha'. apply Hp. simpl. lia.
Qed.

(** constants and lambdas have their values at once *)
Context (Hconst : ∀ con, fuel_le (ev (NConst con)) (Ok (if constisnull con then None else Some (constvalue con)))).
Context (Hlambda : ∀ h e, fuel_le (ev (NLambdaExpr h e)) (Ok (Some DNodePtr))).

Lemma func_arg_ok a base st st' m :
  code_ok a (ev a) → func_arg ExecInitExprRec a base st = Ok st' → (base < es_next st)%nat →
  (base ∈ pool.*1 → base ∈ (es_consts st').*1) → base ∉ (es_consts st).*1 → seg st st' → fits st st' → good m →
  evaluates (args_scratch base 1 st st') (steps_len st) (steps_len st') (at_cell base) m (ev a).
Proof.
  intros Ha Hi Hb Hp Hn Hs Hf Hg. destruct (func_arg_cases ExecInitExprRec a base st) as [Heq|(c & Heq & Hc)]; rewrite Heq in Hi.
  - destruct (init_grows _ _ _ _ Hi) as [Hx _]. assert (base ∉ pool.*1) as Hbp.
    { intros Hin%Hp. apply Hn. by eapply extends_old; [exact Hx|..|intros []|]. }
    eapply evaluates_weaken; [by intros a'; apply scratch_args|]. by apply Ha.
  - injection Hi as <-. assert (m base = c) as Hm. { apply Hg, Hf. simpl. set_solver. }
    destruct Hc as [(con & -> & ->)|(h & e & -> & ->)].
    + destruct (Hconst con) as [->| ->]; [done|]. apply evaluates_now. unfold at_cell. rewrite Hm. done.
    + destruct (Hlambda h e) as [->| ->]; [done|]. apply evaluates_now. unfold at_cell. by rewrite Hm.
Qed.

Lemma init_func_args_ok args : ∀ base st st' m,
  Forall (fun c => code_ok c (ev c)) args → init_func_args ExecInitExprRec args base st = Ok st' →
  (base + length args ≤ es_next st)%nat →
  (∀ a, arg_cells base (length args) a → (a ∈ pool.*1 → a ∈ (es_consts st').*1) ∧ a ∉ (es_consts st).*1) →
  seg st st' → fits st st' → good m →
  evaluates (args_scratch base (length args) st st') (steps_len st) (steps_len st') (fun m => cells m base (length args)) m
    (omapM ev args).
Proof.
  induction args as [|a args IH]; intros base st st' m Hok Hi Hb Hp Hs Hf Hg; simpl in Hi.
  { injection Hi as <-. by apply evaluates_now. }
  apply bind_Ok_inv in Hi as (st1 & H1 & Hi). inversion Hok as [|? ? Ha Hargs]; subst. simpl in Hb.
  assert (Hgr : ∀ l, Forall (grows ExecInitExprRec) l) by (intros l; apply Forall_forall; intros; apply init_grows).
  destruct (func_arg_grown ExecInitExprRec a base st st1 (init_grows a)) as [Hx1 _]; [lia|done|].
  destruct (init_func_args_grown ExecInitExprRec args (S base) st1 st' (Hgr _)) as [Hx2 _];
    [pose proof (ext_next _ _ _ Hx1); lia|done|].
  pose proof (ext_next _ _ _ Hx1). pose proof (ext_next _ _ _ Hx2). unfold arg_cells in *.
  assert (Hx1' : extends (arg_cells base (length (a :: args))) st st1).
  { eapply extends_weaken; [|exact Hx1]. intros a' <-. left. unfold arg_cells. simpl. lia. }
  assert (Hx2' : extends (arg_cells base (length (a :: args))) st1 st').
  { eapply extends_weaken; [|exact Hx2]. unfold arg_cells. simpl. intros a' Ha'. left. lia. }
  destruct (seg_split _ _ _ _ Hx1' Hx2' Hs) as [Hs1 Hs2].
  destruct (fits_split _ _ _ _ Hx1' Hx2') as [Hf1 Hf2]; [unfold arg_cells; simpl; lia|done|].
  apply (evaluates_cons st st1 st' base (length args) (steps_len st) (steps_len st1)); [done|done|lia|done| |].
  - apply func_arg_ok; try done; [lia| |apply Hp; simpl; lia].
    intros Hin. eapply extends_old; [exact Hx2|apply Hp; [simpl; lia|done]|simpl; lia..].
  - intros m1 Hg1. apply IH; try done; [lia|]. intros a' Ha'. destruct (Hp a') as [Hp1 Hp2]; [simpl; lia|]. split; [done|].
    intros Hin. apply Hp2. eapply extends_old; [exact Hx1|done|lia|lia].
Qed.

(** ** Nodes of one step *)

Lemma fits_push st st' op : fits st (ExprEvalPushStep st' op) ↔ fits st st'.
Proof. split; intros [H1 H2 H3]; split; done. Qed.

Lemma fits_palloc st st' n : fits st st' → fits (palloc_cells st n) st'.
Proof. intros [H1 H2 H3]. split; [done|..]; simpl; intros a Ha; [apply H2 in Ha; lia|apply H3; lia]. Qed.

Lemma scratch_weaken res st st' a : between st st' a → scratch res st st' a.
Proof. by right. Qed.

(** a node without arguments *)
Lemma leaf_ok (op : nat → ExprEvalStep) r :
  (∀ res m, stores (op res) res m r) → comp_ok (fun res st => Ok (ExprEvalPushStep st (op res))) r.
Proof.
  intros Hop res st st' m [= <-] Hr Hp Hs Hf Hg. rewrite steps_len_push.
  destruct (seg_push st st (op res)) as [_ Hc]; [done..|]. apply (evaluates_step _ _ (op res)); [done|by left|done].
Qed.

(** a step on the value of the argument *)
Lemma unary_ok c (op : nat → ExprEvalStep) (k : option Datum → outcome (option Datum)) :
  code_ok c (ev c) → (∀ res m, stores (op res) res m (k (at_cell res m))) →
  comp_ok (fun res st => st1 ← ExecInitExprRec c res st; Ok (ExprEvalPushStep st1 (op res))) (ev c ≫= k).
Proof.
  intros Hc Hop res st st' m Hi Hr Hp Hs Hf Hg. apply bind_Ok_inv in Hi as (st1 & H1 & [= <-]).
  destruct (init_grows _ _ _ _ H1) as [Hx _]. pose proof (ext_len _ _ _ Hx).
  apply seg_push in Hs as [Hs Hcode]; [|done]. apply fits_push in Hf. rewrite steps_len_push.
  eapply evaluates_bind; [|by apply Hc|]; [done|]. intros m1 _.
  apply (evaluates_step _ _ (op res)); [done|by left|done].
Qed.

(** a step on the values of the arguments in cells of their own *)
Lemma arguments_ok args st st1 op res n base m (k : list (option Datum) → outcome (option Datum)) :
  extends fresh st st1 → seg st (ExprEvalPushStep st1 op) →
  (seg st st1 →
   evaluates (between st st1) (steps_len st) (steps_len st1) (fun m => cells m base n) m (omapM ev args)) →
  (∀ m, stores op res m (k (cells m base n))) →
  evaluates (scratch res st (ExprEvalPushStep st1 op)) (steps_len st) (steps_len (ExprEvalPushStep st1 op)) (at_cell res) m
    (omapM ev args ≫= k).
Proof.
  intros Hx Hs Hargs Hop. pose proof (ext_len _ _ _ Hx). apply seg_push in Hs as [Hs Hcode]; [|done]. rewrite steps_len_push.
  eapply evaluates_bind; [|by apply Hargs|]; [by intros a Ha; right|]. intros m1 _.
  apply (evaluates_step _ _ op); [done|by left|apply Hop].
Qed.

Lemma not_below st st' a : fits st st' → (es_next st ≤ a)%nat → a ∉ (es_consts st).*1.
Proof. intros Hf Ha Hin%(fit_below _ _ Hf). lia. Qed.

(** allocated cells that no constant is written to *)
Lemma palloc_free n st st' a :
  fits st st' → extends fresh (palloc_cells st n) st' → arg_cells (es_next st) n a → a ∉ pool.*1.
Proof.
  intros Hf Hx Ha Hin. unfold arg_cells in Ha. pose proof (ext_next _ _ _ Hx) as Hn. simpl in Hn.
  apply (not_below st st' a Hf); [lia|]. apply (extends_old _ _ _ _ Hx); [apply Hf; [lia|done]|by intros []|simpl; lia].
Qed.

Lemma args_scratch_between n st st' a :
  (es_next st + n ≤ es_next st')%nat → args_scratch (es_next st) n (palloc_cells st n) st' a → between st st' a.
Proof. unfold args_scratch, arg_cells, between. simpl. intros Hn [[Ha Hp]|[Ha Hp]]; (split; [lia|done]). Qed.

Lemma func_ok args fid coll (op : nat → FuncCall → ExprEvalStep) (k : list (option Datum) → outcome (option Datum)) :
  Forall (fun c => code_ok c (ev c)) args →
  (∀ res f m, fc_fn f = fid → fc_coll f = coll → stores (op res f) res m (k (fc_values m f))) →
  comp_ok (fun res st => '(f, st) ← ExecInitFunc ExecInitExprRec args fid coll st; Ok (ExprEvalPushStep st (op res f)))
    (omapM ev args ≫= k).
Proof.
  intros Hok Hop res st st' m Hi Hr Hp Hs Hf Hg. apply bind_Ok_inv in Hi as ([f st1] & H1 & [= <-]).
  apply fits_push in Hf. pose proof H1 as Hgr. apply ExecInitFunc_grown in Hgr as [Hx _]; [|apply Forall_forall; intros; apply init_grows].
  unfold ExecInitFunc in H1. destruct (_ >? _); [done|]. apply bind_Ok_inv in H1 as (st2 & H1 & [= <- <-]).
  pose proof H1 as Hx2. apply init_func_args_grown in Hx2 as [Hx2%ext_next _]; [|apply Forall_forall; intros; apply init_grows|done].
  simpl in Hx2. eapply arguments_ok; [done|done| |].
  - intros Hs2. eapply evaluates_weaken; [intros a; by apply args_scratch_between|].
    apply (init_func_args_ok args (es_next st) (palloc_cells st (length args))); try done; [|by apply fits_palloc]. unfold arg_cells. intros a Ha. split.
    + apply Hf. lia.
    + apply (not_below st st2); [done|lia].
  - intros m1. by apply Hop.
Qed.

Lemma cells_ok args (op : nat → nat → nat → ExprEvalStep) (k : list (option Datum) → outcome (option Datum)) :
  Forall (fun c => code_ok c (ev c)) args →
  (∀ res base n m, stores (op res base n) res m (k (cells m base n))) →
  comp_ok (fun res st => st1 ← init_args ExecInitExprRec args (es_next st) (palloc_cells st (length args));
                         Ok (ExprEvalPushStep st1 (op res (es_next st) (length args))))
    (omapM ev args ≫= k).
Proof.
  intros Hok Hop res st st' m Hi Hr Hp Hs Hf Hg. apply bind_Ok_inv in Hi as (st1 & H1 & [= <-]). apply fits_push in Hf.
  pose proof H1 as Hx. apply init_args_grown in Hx as [Hx _]; [|apply Forall_forall; intros; apply init_grows].
  pose proof (ext_next _ _ _ Hx) as Hn. simpl in Hn.
  eapply arguments_ok; [eapply extends_trans; [apply extends_palloc|exact Hx]|done| |by intros].
  intros Hs2. eapply evaluates_weaken; [intros a; by apply args_scratch_between|].
  apply (init_args_ok args (es_next st) (palloc_cells st (length args))); try done; [|by apply fits_palloc]. intros a. by apply (palloc_free _ st st1).
Qed.

(** ** Regions with jumps that are set later *)

Definition segj (jumps : list nat) (T : nat) (st st' : ExprState) : Prop :=
  ∀ i, (steps_len st ≤ i < steps_len st')%nat →
    code !! i = if decide (i ∈ jumps) then set_jumpdone (Z.of_nat T) <$> es_steps st' !! i else es_steps st' !! i.

Lemma segj_adjust jumps T st st' : seg st (adjust_jumps jumps T st') → segj jumps T st st'.
Proof. intros Hs i Hi. rewrite Hs by (by rewrite adjust_steps_len). apply adjust_lookup. Qed.

Lemma segj_nil T st st' : segj [] T st st' → seg st st'.
Proof. intros Hs i Hi. by rewrite Hs. Qed.

Lemma segj_split Q st st1 st' j jumps T :
  (steps_len st ≤ steps_len st1)%nat → extends Q st1 st' → (j < steps_len st1)%nat → new_steps st1 st' jumps →
  segj (j :: jumps) T st st' → segj [j] T st st1 ∧ segj jumps T st1 st'.
Proof.
  intros Hl Hx Hj Hn Hs. pose proof (ext_len _ _ _ Hx). unfold new_steps in Hn. rewrite Forall_forall in Hn.
  split; intros i Hi; rewrite Hs by lia.
  - rewrite (ext_steps _ _ _ Hx) by lia. destruct (decide (i ∈ jumps)) as [Hin%Hn|]; [lia|].
    destruct (decide (i ∈ j :: jumps)), (decide (i ∈ [j])); set_solver.
  - destruct (decide (i ∈ j :: jumps)) as [Hin|], (decide (i ∈ jumps)); try done; [|set_solver].
    apply elem_of_cons in Hin as [->|]; [lia|done].
Qed.

(** a region behind all the steps to set *)
Lemma segj_parts st st1 st' jumps T :
  extends fresh st st1 → extends fresh st1 st' → new_steps st st1 jumps → segj jumps T st st' →
  segj jumps T st st1 ∧ seg st1 st'.
Proof.
  intros Hx1 Hx2 Hn Hs. pose proof (ext_len _ _ _ Hx1). pose proof (ext_len _ _ _ Hx2). unfold new_steps in Hn. rewrite Forall_forall in Hn.
  split; intros i Hi; rewrite Hs by lia.
  - by rewrite (ext_steps _ _ _ Hx2) by lia.
  - rewrite decide_False; [done|]. intros Hin%Hn. lia.
Qed.

(** a region that ends with the step to set *)
Lemma segj_push st st1 op T :
  (steps_len st ≤ steps_len st1)%nat → segj [steps_len st1] T st (ExprEvalPushStep st1 op) →
  seg st st1 ∧ code !! steps_len st1 = Some (set_jumpdone (Z.of_nat T) op).
Proof.
  intros Hl Hs. split.
  - intros i Hi. rewrite Hs, decide_False by (rewrite ?steps_len_push, ?list_elem_of_singleton; lia).
    apply (extends_push fresh). lia.
  - rewrite Hs, decide_True, lookup_push by (rewrite ?steps_len_push, ?list_elem_of_singleton; lia). done.
Qed.

Lemma segj_loop st st1 op st' jumps T :
  extends fresh st st1 → extends fresh (ExprEvalPushStep st1 op) st' → new_steps (ExprEvalPushStep st1 op) st' jumps →
  segj (steps_len st1 :: jumps) T st st' →
  seg st st1 ∧ code !! steps_len st1 = Some (set_jumpdone (Z.of_nat T) op) ∧ segj jumps T (ExprEvalPushStep st1 op) st'.
Proof.
  intros Hx Hx2 Hn Hs. pose proof (ext_len _ _ _ Hx).
  destruct (segj_split fresh st (ExprEvalPushStep st1 op) st' (steps_len st1) jumps T) as [Hs1 Hs2];
    [rewrite steps_len_push; lia|done|rewrite steps_len_push; lia|done..|].
  apply segj_push in Hs1 as [Hs1 Hc]; done.
Qed.

(** where a loop with one more argument splits *)
Lemma fits_loop st st1 op st' :
  extends fresh st st1 → extends fresh (ExprEvalPushStep st1 op) st' → fits st st' →
  fits st st1 ∧ fits (ExprEvalPushStep st1 op) st'.
Proof.
  intros Hx Hx2 Hf. destruct (fits_fresh st (ExprEvalPushStep st1 op) st') as [H1 H2];
    [eapply extends_trans; [exact Hx|apply extends_push]|done..|]. by rewrite fits_push in H1.
Qed.

(** one more argument and the step behind it *)
Record loop_head (st st1 : ExprState) (op : ExprEvalStep) (st' : ExprState) (jumps : list nat) (T : nat) : Prop := {
  lh_seg : seg st st1;
  lh_fits : fits st st1;
  lh_code : code !! steps_len st1 = Some (set_jumpdone (Z.of_nat T) op);
  lh_rest : segj jumps T (ExprEvalPushStep st1 op) st';
  lh_fits_rest : fits (ExprEvalPushStep st1 op) st';
  lh_next : (es_next st ≤ es_next st1)%nat;
  lh_next_rest : (es_next st1 ≤ es_next st')%nat
}.

Lemma loop_headed c res st st1 op st' jumps T :
  ExecInitExprRec c res st = Ok st1 → extends fresh (ExprEvalPushStep st1 op) st' → new_steps (ExprEvalPushStep st1 op) st' jumps →
  segj (steps_len st1 :: jumps) T st st' → fits st st' → loop_head st st1 op st' jumps T.
Proof.
  intros Hi Hx2 Hn Hs Hf. destruct (init_grows _ _ _ _ Hi) as [Hx _].
  destruct (segj_loop _ _ _ _ _ _ Hx Hx2 Hn Hs) as (Hs1 & Hcode & Hs2). destruct (fits_loop _ _ _ _ Hx Hx2 Hf) as [Hf1 Hf2].
  split; try done; [apply Hx|apply (ext_next _ _ _ Hx2)].
Qed.

(** ** Steps that jump *)

(** a step to [pc1], from where the rest runs *)
Lemma evaluates_goto {B} (W : nat → Prop) pc op (m m' : memory) j pc1 pc' (read : memory → B) r :
  code !! pc = Some op → (∀ call, exec_step call frame op m = Ok (m', option_map Z.of_nat j)) → default (S pc) j = pc1 →
  changes W m m' → evaluates W pc1 pc' read m' r → evaluates W pc pc' read m r.
Proof.
  intros Hop Hs <- Hc Hr. assert (runs pc m (default (S pc) j) m') as Hrun.
  { replace (default (S pc) j) with (target pc (option_map Z.of_nat j)) by (destruct j; simpl; lia).
    eapply runs_step; [exact Hop| |by apply steps_now]. destruct j; simpl; [intros t [= <-]; lia|done]. }
  destruct r as [v|e| |]; try done; cbn [evaluates] in *; [|by eapply runs_crashes].
  destruct Hr as (m2 & Hrun2 & Hv & Hc2). exists m2. split_and!; [by eapply runs_trans|done|by eapply changes_trans].
Qed.

(** ** COALESCE *)

Lemma bind_Ok {A} (r : outcome A) : r ≫= Ok = r.
Proof. by destruct r. Qed.

Lemma coalesce_step T res m call :
  exec_step call frame (set_jumpdone (Z.of_nat T) (EEOP_JUMP_IF_NOT_NULL res (-1))) m
  = Ok (m, option_map Z.of_nat (match at_cell res m with Some _ => Some T | None => None end)).
Proof. unfold at_cell, nd_option. simpl. by destruct (nd_isnull (m res)). Qed.

Lemma init_coalesce_ok res args : ∀ st st' jumps m,
  Forall (fun c => code_ok c (ev c)) args → init_coalesce ExecInitExprRec res args st = Ok (st', jumps) →
  (res < es_next st)%nat → res ∉ pool.*1 → segj jumps (steps_len st') st st' → fits st st' → good m →
  evaluates (scratch res st st') (steps_len st) (steps_len st') (at_cell res) m (eval_coalesce ev args).
Proof.
  induction args as [|a args IH]; intros st st' jumps m Hok Hi Hr Hp Hs Hf Hg; [done|]. simpl in Hi.
  apply bind_Ok_inv in Hi as (st1 & H1 & ([st2 j2] & H2 & [= <- <-])%bind_Ok_inv). cbn [fst snd] in *.
  apply Forall_cons in Hok as [Ha Hargs].
  destruct (init_coalesce_grown ExecInitExprRec res args _ _ _ (Forall_true _ _ init_grows) H2) as [[Hx2 _] Hn].
  destruct (loop_headed _ _ _ _ _ _ _ _ H1 Hx2 Hn Hs Hf) as [Hs1 Hf1 Hcode Hs2 Hf2 Hn1 Hn2].
  assert (Hev : evaluates (scratch res st st1) (steps_len st) (steps_len st1) (at_cell res) m (ev a)) by (by apply Ha).
  assert (Hw : ∀ a, scratch res st st1 a → scratch res st st2 a).
  { intros b. by apply scratch_sub. }
  destruct args as [|a' args].
  - cbn [eval_coalesce]. simpl in H2. injection H2 as <- <-. rewrite steps_len_push in *. rewrite <- (bind_Ok (ev a)).
    eapply evaluates_bind; [exact Hw|exact Hev|]. intros m1 _.
    eapply evaluates_goto; [exact Hcode|intros; apply coalesce_step|by destruct (at_cell res m1)|done|by apply evaluates_now].
  - rewrite eval_coalesce_cons. eapply evaluates_bind; [exact Hw|exact Hev|]. intros m1 Hc1.
    eapply evaluates_goto; [exact Hcode|intros; apply coalesce_step|done|done|].
    destruct (at_cell res m1) eqn:Hv; [by apply evaluates_now|]. simpl. rewrite <- steps_len_push with (op := EEOP_JUMP_IF_NOT_NULL res (-1)).
    eapply evaluates_weaken; [|apply (IH _ _ _ _ Hargs H2); try done; [simpl; lia|]].
    + intros b. by apply scratch_sub.
    + eapply good_changes; [exact Hg|exact Hc1|]. intros b. by apply scratch_pool.
Qed.

(** ** CASE *)

Lemma when_step T res m call :
  exec_step call frame (set_jumpdone (Z.of_nat T) (EEOP_JUMP_IF_NOT_TRUE res (-1))) m
  = Ok (m, option_map Z.of_nat (match at_cell res m with
                                | Some d => if DatumGetBool d then None else Some T
                                | None => Some T
                                end)).
Proof. unfold at_cell, nd_option. simpl. destruct (nd_isnull (m res)); [done|]. simpl. by destruct (DatumGetBool _). Qed.

(** the state behind the code of a WHEN clause *)
Definition after_when (st1 st2 : ExprState) : ExprState :=
  adjust_jumps [steps_len st1] (S (steps_len st2)) (ExprEvalPushStep st2 (EEOP_JUMP (-1))).

Lemma after_when_len st1 st2 : steps_len (after_when st1 st2) = S (steps_len st2).
Proof. unfold after_when. by rewrite adjust_steps_len, steps_len_push. Qed.

(** the regions of a WHEN clause *)
Lemma segj_when res st st1 st2 T :
  let jump := EEOP_JUMP_IF_NOT_TRUE res (-1) in
  extends fresh st st1 → extends fresh (ExprEvalPushStep st1 jump) st2 →
  segj [steps_len st2] T st (after_when st1 st2) →
  seg st st1 ∧ code !! steps_len st1 = Some (set_jumpdone (Z.of_nat (S (steps_len st2))) jump)
  ∧ seg (ExprEvalPushStep st1 jump) st2 ∧ code !! steps_len st2 = Some (EEOP_JUMP (Z.of_nat T)).
Proof.
  intros jump Hx1 Hx2 Hs. pose proof (ext_len _ _ _ Hx1). pose proof (ext_len _ _ _ Hx2) as Hl. rewrite steps_len_push in Hl.
  assert (segj [steps_len st1] (S (steps_len st2)) st st2) as Hs2.
  { intros i Hi. rewrite Hs, (decide_False (P := i ∈ [steps_len st2])) by (rewrite ?after_when_len, ?list_elem_of_singleton; lia).
    unfold after_when. rewrite adjust_lookup. by rewrite (ext_steps _ _ _ (extends_push fresh st2 (EEOP_JUMP (-1)))) by lia. }
  destruct (segj_split fresh st (ExprEvalPushStep st1 jump) st2 (steps_len st1) [] (S (steps_len st2))) as [Hsa Hsb];
    [rewrite steps_len_push; lia|done|rewrite steps_len_push; lia|constructor|done|].
  apply segj_push in Hsa as [Hsa Hca]; [|done]. apply segj_nil in Hsb. split_and!; [done..|].
  rewrite Hs, decide_True by (rewrite ?after_when_len, ?list_elem_of_singleton; lia).
  unfold after_when. rewrite adjust_lookup, lookup_push, decide_False by (rewrite list_elem_of_singleton; lia). done.
Qed.

Lemma fits_after_when st st1 st2 : fits st (after_when st1 st2) ↔ fits st st2.
Proof. split; intros [H1 H2 H3]; split; done. Qed.

Lemma init_whens_ok res T (def : option Node) whens : ∀ st st' jumps m (W : nat → Prop),
  Forall (fun c => code_ok c (ev c)) (when_nodes whens) → init_whens ExecInitExprRec res whens st = Ok (st', jumps) →
  (res < es_next st)%nat → res ∉ pool.*1 → segj jumps T st st' → fits st st' → good m →
  (∀ a, scratch res st st' a → W a) → (∀ a, W a → a ∉ pool.*1) →
  (∀ m1, good m1 → evaluates W (steps_len st') T (at_cell res) m1 (eval_case ev [] def)) →
  evaluates W (steps_len st) T (at_cell res) m (eval_case ev whens def).
Proof.
  induction whens as [|[c r] whens IH]; intros st st' jumps m W Hok Hi Hr Hp Hs Hf Hg HW HWp Hd; simpl in Hi.
  { injection Hi as <- <-. by apply Hd. }
  apply bind_Ok_inv in Hi as (st1 & H1 & (st2 & H2 & ([st3 j3] & H3 & [= <- <-])%bind_Ok_inv)%bind_Ok_inv). cbn [fst snd] in *.
  apply Forall_cons in Hok as [Hc [Hres Hrest]%Forall_cons]. rewrite steps_len_push in H3. fold (after_when st1 st2) in H3.
  destruct (when_grown ExecInitExprRec res c r st st1 st2 (init_grows c) (init_grows r) H1 H2) as ([Hx1 _] & [Hx2 _] & [Hx _]).
  destruct (init_whens_grown ExecInitExprRec res whens _ _ _ (Forall_true _ _ init_grows) H3) as [[Hx3 _] Hn].
  fold (after_when st1 st2) in Hx.
  destruct (segj_split fresh st (after_when st1 st2) st3 (steps_len st2) j3 T) as [Hsw Hs3];
    [by apply Hx|done|rewrite after_when_len; lia|done..|].
  destruct (segj_when res st st1 st2 T Hx1 Hx2 Hsw) as (Hs1 & Hc1 & Hs2 & Hc2).
  destruct (fits_fresh _ _ _ Hx Hx3 Hf) as [Hfw Hf3]. apply fits_after_when in Hfw.
  destruct (fits_loop _ _ _ _ Hx1 Hx2 Hfw) as [Hf1 Hf2].
  pose proof (ext_next _ _ _ Hx1). pose proof (ext_next _ _ _ Hx2) as Hn2. pose proof (ext_next _ _ _ Hx3) as Hn3. simpl in Hn2, Hn3.
  assert (HW1 : ∀ b, scratch res st st1 b → W b).
  { intros b Hb. apply HW. by eapply scratch_sub; [..|exact Hb]; simpl; lia. }
  cbn [eval_case]. eapply evaluates_bind; [exact HW1|by apply Hc|]. intros m1 Hch.
  assert (Hg1 : good m1) by (eapply good_changes; [exact Hg|exact Hch|auto]).
  assert (Hnext : evaluates W (S (steps_len st2)) T (at_cell res) m1 (eval_case ev whens def)).
  { rewrite <- (after_when_len st1). eapply IH; [exact Hrest|exact H3|simpl; lia|done..| |done|done].
    intros b Hb. apply HW. by eapply scratch_sub; [..|exact Hb]; simpl; lia. }
  eapply evaluates_goto; [exact Hc1|intros; apply when_step|done|done|].
  destruct (at_cell res m1) as [d|]; [|exact Hnext]. destruct (DatumGetBool d); [|exact Hnext]. simpl.
  rewrite <- steps_len_push with (op := EEOP_JUMP_IF_NOT_TRUE res (-1)), <- (bind_Ok (ev r)).
  eapply evaluates_bind; [|apply (Hres res _ _ m1 H2); try done; simpl; lia|].
  - intros b Hb. apply HW. by eapply scratch_sub; [..|exact Hb]; simpl; lia.
  - intros m2 _. eapply (evaluates_goto _ _ _ _ _ (Some T)); [exact Hc2|done|done|done|by apply evaluates_now].
Qed.

(** ** AND and OR *)

(** both connectives; [stop] says which value decides *)
Fixpoint eval_junction (stop : Datum → bool) (anynull : bool) (args : list Node) : outcome (option Datum) :=
  match args with
  | [] => UB
  | [a] =>
      v ← ev a;
      match v with
      | None => Ok None
      | Some d => if stop d then Ok v else if anynull then Ok None else Ok v
      end
  | a :: args =>
      v ← ev a;
      match v with
      | None => eval_junction stop true args
      | Some d => if stop d then Ok v else eval_junction stop anynull args
      end
  end.

Lemma eval_junction_cons stop b a a' l :
  eval_junction stop b (a :: a' :: l) =
    (v ← ev a;
     match v with
     | None => eval_junction stop true (a' :: l)
     | Some d => if stop d then Ok v else eval_junction stop b (a' :: l)
     end).
Proof. done. Qed.

Definition junction (boolop : BoolExprType) (stop : Datum → bool) : Prop :=
  boolop = AND_EXPR ∧ stop = and_stop ∨ boolop = OR_EXPR ∧ stop = DatumGetBool.

Lemma eval_junction_bool boolop stop args : junction boolop stop → eval_bool ev boolop args = eval_junction stop false args.
Proof.
  intros [[-> ->]|[-> ->]]; simpl; generalize false; induction args as [|a [|a' args] IH]; intros b; try done.
  - rewrite eval_and_cons, eval_junction_cons, <- !IH. done.
  - rewrite eval_or_cons, eval_junction_cons, <- !IH. done.
Qed.

(** the flag of the NULLs so far, which the first step resets *)
Definition flag_is (off anynull : nat) (m : memory) (b : bool) : Prop :=
  if (off =? 0)%nat then b = false else nd_isnull (m anynull) = b.

Lemma junction_step boolop stop nargs off res anynull T m b :
  junction boolop stop → flag_is off anynull m b → (off = 0 ∨ off + 1 ≠ nargs)%nat → anynull ≠ res →
  ∃ m', (∀ call, exec_step call frame (set_jumpdone (Z.of_nat T) (bool_opcode boolop nargs off res anynull)) m
           = Ok (m', option_map Z.of_nat (match at_cell res m with Some d => if stop d then Some T else None | None => None end)))
    ∧ at_cell res m' = at_cell res m ∧ changes (eq anynull) m m'
    ∧ nd_isnull (m' anynull) = match at_cell res m with None => true | Some _ => b end.
Proof.
  intros Hj Hb Hoff Hne. set (m1 := if (off =? 0)%nat then set_null m anynull false else m).
  assert (∀ call, exec_step call frame (set_jumpdone (Z.of_nat T) (bool_opcode boolop nargs off res anynull)) m
                  = Ok (bool_step stop res anynull (Z.of_nat T) m1)) as Hs.
  { intros call. unfold m1. destruct Hoff as [->|Hl]; [by destruct Hj as [[-> ->]|[-> ->]]|].
    destruct Hj as [[-> ->]|[-> ->]]; unfold bool_opcode; rewrite (proj2 (Nat.eqb_neq _ _) Hl); by destruct (off =? 0)%nat. }
  assert (m1 res = m res ∧ changes (eq anynull) m m1 ∧ nd_isnull (m1 anynull) = b) as (Hr & Hc & Hn).
  { unfold m1, flag_is in *. destruct (off =? 0)%nat; [|done]. subst b. unfold set_null.
    split_and!; [by rewrite fn_lookup_insert_ne|by apply changes_insert|by rewrite fn_lookup_insert]. }
  unfold bool_step in Hs. unfold at_cell, nd_option. rewrite <- Hr. destruct (nd_isnull (m1 res)) eqn:Hnull.
  - exists (set_null m1 anynull true). split_and!; [exact Hs| | |]; unfold set_null.
    + by rewrite fn_lookup_insert_ne, Hnull by done.
    + eapply changes_trans; [exact Hc|by apply changes_insert].
    + by rewrite fn_lookup_insert.
  - exists m1. split_and!; [|by rewrite Hnull|done|done]. intros call. rewrite Hs. by destruct (stop _).
Qed.

(** the step behind the last argument *)
Lemma junction_last boolop stop nargs off res anynull T m b :
  junction boolop stop → flag_is off anynull m b → (off ≠ 0 ∧ off + 1 = nargs)%nat →
  stores (set_jumpdone (Z.of_nat T) (bool_opcode boolop nargs off res anynull)) res m
    (match at_cell res m with
     | None => Ok None
     | Some d => if stop d then Ok (Some d) else if b then Ok None else Ok (Some d)
     end).
Proof.
  intros Hj Hb [Hoff Hl]. unfold flag_is in Hb. rewrite (proj2 (Nat.eqb_neq _ _) Hoff) in Hb. subst b.
  assert (∀ call, exec_step call frame (set_jumpdone (Z.of_nat T) (bool_opcode boolop nargs off res anynull)) m
                  = Ok (bool_step_last stop res anynull m)) as Hs.
  { intros call. destruct Hj as [[-> ->]|[-> ->]]; unfold bool_opcode;
      by rewrite (proj2 (Nat.eqb_neq _ _) Hoff), (proj2 (Nat.eqb_eq _ _) Hl). }
  unfold bool_step_last in Hs. destruct (at_cell res m) as [d|] eqn:Hv; unfold at_cell, nd_option in Hv;
    destruct (nd_isnull (m res)) eqn:Hn; try done.
  - injection Hv as <-. destruct (stop _); [|destruct (nd_isnull (m anynull))]; try by apply stores_nothing; [done|];
      unfold at_cell, nd_option; rewrite Hn.
    by eapply stores_insert.
  - apply stores_nothing; [done|]. unfold at_cell, nd_option. by rewrite Hn.
Qed.

(** what the code of AND and OR may change *)
Definition junction_scratch (res anynull : nat) (st st' : ExprState) : nat → Prop :=
  fun a => a = anynull ∨ scratch res st st' a.

Section Junction.
Context (boolop : BoolExprType) (stop : Datum → bool) (Hj : junction boolop stop).
Context (nargs res anynull : nat) (Hne : anynull ≠ res) (Hp : res ∉ pool.*1) (Hpn : anynull ∉ pool.*1).

(** a step that is followed by the rest of the arguments *)
Lemma junction_rest off b T pc (W : nat → Prop) m rest :
  flag_is off anynull m b → (off = 0 ∨ off + 1 ≠ nargs)%nat → W anynull → good m →
  code !! pc = Some (set_jumpdone (Z.of_nat T) (bool_opcode boolop nargs off res anynull)) →
  (∀ m' b', good m' → flag_is (S off) anynull m' b' → evaluates W (S pc) T (at_cell res) m' (rest b')) →
  evaluates W pc T (at_cell res) m
    (match at_cell res m with
     | None => rest true
     | Some d => if stop d then Ok (Some d) else rest b
     end).
Proof.
  intros Hb Hoff HW Hg Hcode Hrest.
  destruct (junction_step boolop stop nargs off res anynull T m b Hj Hb Hoff Hne) as (m' & Hs & Hv & Hc & Hfl).
  assert (good m') as Hg' by (eapply good_changes; [exact Hg|exact Hc|by intros a <-]).
  eapply evaluates_goto; [exact Hcode|exact Hs|done|eapply changes_weaken; [|exact Hc]; by intros a <-|].
  destruct (at_cell res m) as [d|]; [destruct (stop d)|]; [by apply evaluates_now|by apply Hrest..].
Qed.

(** AND and OR of one argument *)
Lemma junction_single T pc (W : nat → Prop) m :
  nargs = 1%nat → W anynull → T = S pc →
  code !! pc = Some (set_jumpdone (Z.of_nat T) (bool_opcode boolop nargs 0 res anynull)) →
  evaluates W pc T (at_cell res) m (Ok (at_cell res m)).
Proof.
  intros Hl HW HT Hcode.
  destruct (junction_step boolop stop nargs 0 res anynull T m false Hj eq_refl (or_introl eq_refl) Hne) as (m' & Hs & Hv & Hc & _).
  eapply evaluates_goto; [exact Hcode|exact Hs| |eapply changes_weaken; [|exact Hc]; by intros a <-|by apply evaluates_now].
  destruct (at_cell res m) as [d|]; [destruct (stop d)|]; done.
Qed.

Lemma init_bool_ok args : ∀ off b st st' jumps m,
  Forall (fun c => code_ok c (ev c)) args → (off + length args = nargs)%nat →
  init_bool ExecInitExprRec boolop nargs off res anynull args st = Ok (st', jumps) →
  (res < es_next st)%nat → (anynull < es_next st)%nat →
  segj jumps (steps_len st') st st' → fits st st' → good m → flag_is off anynull m b →
  evaluates (junction_scratch res anynull st st') (steps_len st) (steps_len st') (at_cell res) m (eval_junction stop b args).
Proof.
  induction args as [|a args IH]; intros off b st st' jumps m Hok Hlen Hi Hr Hn Hs Hf Hg Hb; [done|]. simpl in Hi, Hlen.
  apply bind_Ok_inv in Hi as (st1 & H1 & ([st2 j2] & H2 & [= <- <-])%bind_Ok_inv). cbn [fst snd] in *.
  apply Forall_cons in Hok as [Ha Hargs].
  destruct (init_bool_grown ExecInitExprRec boolop nargs res anynull args _ _ _ _ (Forall_true _ _ init_grows) H2) as [[Hx2 _] Hnew].
  destruct (loop_headed _ _ _ _ _ _ _ _ H1 Hx2 Hnew Hs Hf) as [Hs1 Hf1 Hcode Hs2 Hf2 Hn1 Hn2].
  assert (Hw : ∀ a, scratch res st st1 a → junction_scratch res anynull st st2 a) by (intros c Hc; right; by eapply scratch_sub; [..|exact Hc]).
  assert (Hm1 : ∀ m1, changes (scratch res st st1) m m1 → good m1 ∧ flag_is off anynull m1 b).
  { intros m1 Hc. split; [eapply good_changes; [exact Hg|exact Hc|intros c; by apply scratch_pool]|]. unfold flag_is in *.
    destruct (off =? 0)%nat; [done|]. rewrite Hc; [done|]. intros [|[? _]]; [done|lia]. }
  destruct args as [|a' args].
  - injection H2 as <- <-. rewrite steps_len_push in *. cbn [eval_junction].
    eapply evaluates_bind; [exact Hw|by apply Ha|]. intros m1 [Hg1 Hb1]%Hm1. destruct (decide (off = 0%nat)) as [->|Hoff].
    + unfold flag_is in Hb. simpl in Hb. subst b. pose proof (junction_single (S (steps_len st1)) (steps_len st1)) as Hsingle.
      destruct (at_cell res m1) as [d|] eqn:Hv; [destruct (stop d)|]; rewrite <- Hv; apply Hsingle; try done; by left.
    + eapply evaluates_step; [exact Hcode|by right; left|]. simpl in Hlen.
      pose proof (junction_last boolop stop nargs off res anynull (S (steps_len st1)) m1 b Hj Hb1 ltac:(lia)) as Hst.
      by destruct (at_cell res m1).
  - rewrite eval_junction_cons. eapply evaluates_bind; [exact Hw|by apply Ha|]. intros m1 [Hg1 Hb1]%Hm1. simpl in Hlen.
    pose proof (junction_rest off b (steps_len st2) (steps_len st1) (junction_scratch res anynull st st2) m1
      (fun b => eval_junction stop b (a' :: args)) Hb1 ltac:(lia) (or_introl eq_refl) Hg1 Hcode) as Hrest.
    rewrite <- (steps_len_push st1 (bool_opcode boolop nargs off res anynull)) in Hrest.
    destruct (at_cell res m1) eqn:Hv; apply Hrest; intros m2 b2 Hg2 Hb2;
      (eapply evaluates_weaken; [|eapply (IH (S off) _ _ _ _ _ Hargs); [simpl; lia|exact H2|simpl; lia|simpl; lia|done..]]); (intros c [Hc|Hc]; [by left|right]);
      (by eapply scratch_sub; [..|exact Hc]; simpl; lia).
Qed.
End Junction.

(** ** Nodes with jumps *)

Lemma fits_adjust jumps T st st' : fits st (adjust_jumps jumps T st') ↔ fits st st'.
Proof. split; intros [H1 H2 H3]; split; done. Qed.

Lemma junction_ok boolop stop args :
  junction boolop stop → Forall (fun c => code_ok c (ev c)) args →
  comp_ok (fun res st => r ← init_bool ExecInitExprRec boolop (length args) 0 res (es_next st) args (palloc_cells st 1);
                         Ok (adjust_jumps r.2 (steps_len r.1) r.1)) (eval_bool ev boolop args).
Proof.
  intros Hj Hok res st st' m Hi Hr Hp Hs Hf Hg. apply bind_Ok_inv in Hi as ([st1 jumps] & H1 & [= <-]). cbn [fst snd] in *.
  destruct (init_bool_grown ExecInitExprRec boolop (length args) res (es_next st) args _ _ _ _ (Forall_true _ _ init_grows) H1) as [[Hx _] _].
  pose proof (ext_next _ _ _ Hx) as Hn. simpl in Hn.
  apply segj_adjust in Hs. apply fits_adjust in Hf. rewrite adjust_steps_len. rewrite (eval_junction_bool boolop stop) by done.
  assert (es_next st ∉ pool.*1) as Hpn by (apply (palloc_free 1 st st1); [done..|unfold arg_cells; lia]).
  eapply evaluates_weaken; [|eapply (init_bool_ok boolop stop Hj (length args) res (es_next st) ltac:(lia) Hp Hpn args 0 false (palloc_cells st 1));
    [done|done|exact H1|simpl; lia|simpl; lia|exact Hs|by apply fits_palloc|done|done]].
  intros a [->|Ha]; [right; split; [simpl; lia|done]|]. by eapply scratch_sub; [..|exact Ha]; simpl; lia.
Qed.

Lemma not_step T res m : stores (set_jumpdone T (EEOP_BOOL_NOT_STEP res (-1))) res m (Ok (invert_bool (at_cell res m))).
Proof. eapply stores_insert; [done|]. unfold at_cell, nd_option. simpl. by destruct (nd_isnull (m res)). Qed.

Lemma not_ok args :
  Forall (fun c => code_ok c (ev c)) args →
  comp_ok (fun res st => r ← init_bool ExecInitExprRec NOT_EXPR (length args) 0 res (es_next st) args st;
                         Ok (adjust_jumps r.2 (steps_len r.1) r.1)) (eval_not ev args).
Proof.
  destruct args as [|a [|]]; [done| |done]. intros [Ha _]%Forall_cons res st st' m Hi Hr Hp Hs Hf Hg.
  apply bind_Ok_inv in Hi as ([st1 jumps] & H1 & [= <-]). simpl in H1.
  apply bind_Ok_inv in H1 as (st2 & H1 & [= <- <-]). cbn [fst snd] in *. apply segj_adjust in Hs. apply fits_adjust, fits_push in Hf.
  destruct (init_grows _ _ _ _ H1) as [Hx%ext_len _]. apply segj_push in Hs as [Hs Hcode]; [|done].
  rewrite adjust_steps_len, steps_len_push in *. unfold eval_not. eapply evaluates_bind; [|by apply Ha|]; [done|]. intros m1 _.
  eapply evaluates_step; [exact Hcode|by left|apply not_step].
Qed.

Lemma coalesce_ok args :
  Forall (fun c => code_ok c (ev c)) args →
  comp_ok (fun res st => r ← init_coalesce ExecInitExprRec res args st; Ok (adjust_jumps r.2 (steps_len r.1) r.1))
    (eval_coalesce ev args).
Proof.
  intros Hok res st st' m Hi Hr Hp Hs Hf Hg. apply bind_Ok_inv in Hi as ([st1 jumps] & H1 & [= <-]). cbn [fst snd] in *.
  apply segj_adjust in Hs. apply fits_adjust in Hf. rewrite adjust_steps_len.
  exact (init_coalesce_ok res args st st1 jumps m Hok H1 Hr Hp Hs Hf Hg).
Qed.

Lemma case_ok whens def :
  Forall (fun c => code_ok c (ev c)) (when_nodes whens ++ opt_list def) →
  comp_ok (fun res st => r ← init_whens ExecInitExprRec res whens st;
                         st ← match def with Some d => ExecInitExprRec d res r.1 | None => UB end;
                         Ok (adjust_jumps r.2 (steps_len st) st))
    (eval_case ev whens def).
Proof.
  intros [Hw Hd]%Forall_app res st st' m Hi Hr Hp Hs Hf Hg.
  apply bind_Ok_inv in Hi as ([st1 jumps] & H1 & (st2 & H2 & [= <-])%bind_Ok_inv). cbn [fst snd] in *.
  destruct def as [d|]; [|done]. apply Forall_cons in Hd as [Hd _].
  destruct (init_whens_grown ExecInitExprRec res whens _ _ _ (Forall_true _ _ init_grows) H1) as [[Hx1 _] Hn].
  destruct (init_grows _ _ _ _ H2) as [Hx2 _]. apply segj_adjust in Hs. apply fits_adjust in Hf. rewrite adjust_steps_len.
  destruct (fits_fresh _ _ _ Hx1 Hx2 Hf) as [Hf1 Hf2]. destruct (segj_parts _ _ _ _ _ Hx1 Hx2 Hn Hs) as [Hs1 Hs2].
  pose proof (ext_next _ _ _ Hx1). pose proof (ext_next _ _ _ Hx2).
  change (scratch res st (adjust_jumps jumps (steps_len st2) st2)) with (scratch res st st2). eapply init_whens_ok; [exact Hw|exact H1|done..| | |].
  - intros a. by apply scratch_sub.
  - intros a. by apply scratch_pool.
  - intros m1 Hg1. cbn [eval_case deref mbind outcome_bind]. eapply evaluates_weaken; [|apply (Hd res st1 st2); try done; lia].
    intros a. by apply scratch_sub.
Qed.

(** ** Nodes other than calls *)

Lemma plain_ok e : plain e = true → Forall (fun c => code_ok c (ev c)) (children e) → code_ok e (eval_step ev e).
Proof.
  intros Hp Hok. unfold code_ok. destruct e as [v|c|p| |f args|o args|o args|o args|op args|k t arg|t arg|t whens def|t args|t args|t coll op args|t arg|t arg|h e|h args|h l args];
    try done; cbn [children eval_step] in *; try (apply Forall_cons in Hok as [Ha _]).
  - apply leaf_ok. intros. by apply stores_result.
  - apply (leaf_ok (fun res => EEOP_CONST res (mkNullable (constvalue c) (constisnull c)))). intros. by eapply stores_insert.
  - apply (func_ok args _ _ func_opcode); [done|]. intros res fc m <- <-. apply func_step.
  - apply (func_ok args _ _ func_opcode); [done|]. intros res fc m <- <-. apply func_step.
  - apply (func_ok args _ _ EEOP_DISTINCT); [done|]. intros res fc m <- <-. apply distinct_step.
  - apply (func_ok args _ _ EEOP_NULLIF); [done|]. intros res fc m <- <-. apply nullif_step.
  - destruct op; [by apply (junction_ok AND_EXPR and_stop); [left|]|by apply (junction_ok OR_EXPR DatumGetBool); [right|]|by apply not_ok].
  - apply (unary_ok arg (fun res => EEOP_FIELDSELECT res k t)); [done|]. intros. by apply stores_result.
  - exact Ha.
  - by apply case_ok.
  - apply (cells_ok args (fun res => EEOP_ARRAYEXPR res t)); [done|]. intros. by apply stores_result.
  - by apply coalesce_ok.
  - apply (cells_ok args (fun res => EEOP_MINMAX res t coll op)); [done|]. intros. apply minmax_step.
  - apply (unary_ok arg (fun res => match t with IS_NULL => EEOP_NULLTEST_ISNULL res | IS_NOT_NULL => EEOP_NULLTEST_ISNOTNULL res end)); [done|].
    intros. apply nulltest_step.
  - apply (unary_ok arg (booltest_opcode t)); [done|]. intros. apply booltest_step.
Qed.

(** ** Lambda calls *)

Lemma call_ok held load r args key (K : option Datum → list (option Datum) → outcome (option Datum)) :
  ExecInitCallLambdaCacheKey args = Ok key → (∀ a st st', load a st = Ok st' → grown fresh st st') → comp_ok load r →
  Forall (fun c => code_ok c (ev c)) args →
  (∀ res lam base n m,
     stores (EEOP_CALLLAMBDAEXPR res (mkCallState held lam base n key)) res m (K (at_cell lam m) (cells m base n))) →
  comp_ok (fun res st => init_call ExecInitExprRec held load res args st) (lv ← r; vs ← omapM ev args; K lv vs).
Proof.
  intros Hkey Hload Hr0 Hok HK res st st' m Hi Hr Hp Hs Hf Hg. unfold init_call in Hi. rewrite Hkey in Hi. cbn [mbind outcome_bind] in Hi.
  destruct (_ >? _); [done|]. apply bind_Ok_inv in Hi as (st1 & H1 & (st2 & H2 & [= <-])%bind_Ok_inv). apply fits_push in Hf.
  destruct (Hload _ _ _ H1) as [Hx1 _]. destruct (init_args_grown _ _ _ _ _ (Forall_true _ _ init_grows) H2) as [Hx2 _].
  pose proof (extends_trans _ _ _ _ Hx1 Hx2) as Hx. pose proof (fun a => palloc_free _ _ _ a Hf Hx) as Hfree. unfold arg_cells in Hfree.
  pose proof (ext_next _ _ _ Hx1) as Hn1. pose proof (ext_next _ _ _ Hx2) as Hn2. simpl in Hn1.
  pose proof (ext_len _ _ _ Hx) as Hl. apply seg_push in Hs as [Hs Hcode]; [|done].
  destruct (seg_split _ _ _ _ Hx1 Hx2 Hs) as [Hs1 Hs2]. destruct (fits_fresh _ _ _ Hx1 Hx2 (fits_palloc _ _ _ Hf)) as [Hf1 Hf2].
  rewrite steps_len_push. eapply (evaluates_bind (scratch (es_next st) (palloc_cells st (S (length args))) st1));
    [|apply (Hr0 _ (palloc_cells st (S (length args))) st1 m H1); try done; [simpl; lia|apply Hfree; lia]|].
  { intros a [->|[Ha Hpa]]; right; (split; [simpl in *; lia|]); [apply Hfree; lia|done]. }
  intros m1 Hc1. assert (good m1) as Hg1.
  { eapply good_changes; [exact Hg|exact Hc1|]. intros a. apply scratch_pool, Hfree. lia. }
  eapply (evaluates_bind (args_scratch (S (es_next st)) (length args) st1 st2));
    [|apply (init_args_ok args (S (es_next st)) st1 st2 m1 Hok H2); try done; [lia|unfold arg_cells; intros a Ha; apply Hfree; lia]|].
  { unfold args_scratch, arg_cells. intros a [[Ha Hpa]|[Ha Hpa]]; right; (split; [simpl; lia|done]). }
  intros m2 Hc2. replace (at_cell (es_next st) m1) with (at_cell (es_next st) m2).
  - eapply evaluates_step; [exact Hcode|by left|apply HK].
  - unfold at_cell. f_equal. apply Hc2. unfold args_scratch, arg_cells. intros [[Ha _]|[Ha _]]; lia.
Qed.
End Args.
End Code.
End Run.
