(* ===== verification/StepsTheorems.v ===== *)
(** * Compiled expressions compute the values of their trees

    The refinement of [ExecEvalExpr], which gives a tree its value directly,
    by compilation and interpretation: [ExecInitExpr] raises the errors that
    [exec_init_check] finds, and running the steps gives the value or the
    error of the tree, on every row. *)

From stdpp Require Import functions.
From S2P Require Import Prelude Bitmapset Nodes NodesFacts Serialize Inject InjectFacts Typing Eval EvalFacts.
From S2P Require Import Semantics HoistFacts NodeText Demo HoistTheorems Steps StepsFacts StepsRun.

Section Program.
Context `{NIO : NodeIO} `{TC : TypeCache} `{EP : ExecParams} (hoist : bool).

(** ** Whole expressions *)

(** the constants are in their cells *)
Definition es_good (es : ExprState) (m : memory) : Prop := good (es_consts es) m.

(** what one evaluation of a state may do *)
Definition state_result (frame : list (option Datum)) (es : ExprState) (m : memory) (r : outcome (option Datum)) : Prop :=
  match r with
  | Ok v => ∃ n m', es_good es m' ∧ ∀ fuel, (n ≤ fuel)%nat → ExecEvalExprState hoist fuel frame es m = Ok (m', v)
  | Err e => ∃ n, ∀ fuel, (n ≤ fuel)%nat → ExecEvalExprState hoist fuel frame es m = Err e
  | _ => True
  end.

Lemma es_memory_good es : consts_wf es → es_good es (es_memory es).
Proof.
  intros [Hnd _]. unfold es_good, good, es_memory. induction (es_consts es) as [|[a c] l IH]; intros b d Hin; [by apply elem_of_nil in Hin|].
  inversion Hnd as [|? ? Hna Hnd']; subst. apply elem_of_cons in Hin as [[= <- <-]|Hin]; simpl; [by rewrite fn_lookup_insert|].
  rewrite fn_lookup_insert_ne; [by apply IH|]. intros <-. apply Hna. simpl. apply list_elem_of_fmap. by exists (a, d).
Qed.

(** the state of a compiled expression *)
Lemma ExecInitExpr_facts node es :
  ExecInitExpr node = Ok es →
  ∃ st, ExecInitExprRec node 0 (mkExprState [] 1 [] false) = Ok st ∧ es = ExprEvalPushStep st EEOP_DONE
    ∧ consts_wf es ∧ 0%nat ∉ (es_consts es).*1.
Proof.
  intros (st & Hst & [= <-])%bind_Ok_inv. exists st. split_and!; [done..| |].
  - apply (init_grows _ _ _ _ Hst); [|by intros a []]. split; simpl; constructor.
  - destruct (init_grows _ _ _ _ Hst) as [Hx _]. intros Hin. apply (extends_old _ _ _ _ Hx) in Hin; [|by intros []|simpl; lia].
    by apply elem_of_nil in Hin.
Qed.

(** the interpreter on the steps of a compiled expression *)
Definition interp_result (frame : list (option Datum)) (es : ExprState) (m : memory) (r : outcome (option Datum)) : Prop :=
  match r with
  | Ok v => ∃ n m', es_good es m' ∧ at_cell 0 m' = v
      ∧ ∀ fuel, (n ≤ fuel)%nat → ExecInterpExpr hoist fuel frame (es_steps es) 0 m = Ok m'
  | Err e => ∃ n, ∀ fuel, (n ≤ fuel)%nat → ExecInterpExpr hoist fuel frame (es_steps es) 0 m = Err e
  | _ => True
  end.

Lemma program_interp frame node es m r :
  ExecInitExpr node = Ok es → code_ok hoist frame (es_steps es) (es_consts es) node r → es_good es m →
  interp_result frame es m r.
Proof.
  intros (st & Hst & -> & _ & H0)%ExecInitExpr_facts Hok Hg.
  assert (Hs : seg (es_steps (ExprEvalPushStep st EEOP_DONE)) (mkExprState [] 1 [] false) st).
  { intros i Hi. apply (extends_push fresh). lia. }
  assert (Hfit : fits (es_consts st) (mkExprState [] 1 [] false) st) by (split; [done|by intros a ?%elem_of_nil|done]).
  pose proof (Hok 0%nat _ st m Hst ltac:(simpl; lia) H0 Hs Hfit Hg) as Hev. destruct r as [v|e| |]; try done. cbn [evaluates] in Hev. destruct Hev as (m' & (k & n & Hrun) & Hv & Hc).
  exists (k + S n)%nat, m'. split_and!; [|done|].
  - eapply good_changes; [exact Hg|exact Hc|]. intros a. by apply scratch_pool.
  - intros fuel Hf. replace fuel with (k + S (fuel - k - 1))%nat by lia. change (steps_len (mkExprState [] 1 [] false)) with 0%nat in Hrun.
    rewrite Hrun by lia. cbn [ExecInterpExpr]. by rewrite lookup_push.
Qed.

Lemma exec_state_cases es :
  (∃ res c, es_steps es = [EEOP_CONST res c; EEOP_DONE] ∧ ∀ interp frame m, exec_state interp frame es m = Ok (m, nd_option c))
  ∨ ∀ interp frame m, exec_state interp frame es m = (m ← interp frame (es_steps es) 0%nat m; Ok (m, nd_option (m 0%nat))).
Proof.
  unfold exec_state. destruct (es_steps es) as [|op [|op' [|op'' ops]]]; [by right|by right; destruct op| |by right; destruct op, op'].
  destruct op; try (by right). destruct op'; try (by right). left. eauto.
Qed.

(** a constant in another cell than the result would leave the result open *)
Lemma const_program frame node es res c r :
  ExecInitExpr node = Ok es → code_ok hoist frame (es_steps es) (es_consts es) node r →
  es_steps es = [EEOP_CONST res c; EEOP_DONE] → ∀ m, es_good es m →
  match r with Ok v => v = nd_option c | Err _ => False | _ => True end.
Proof.
  intros Hes Hok Hsteps m Hg. pose proof (fun m => program_interp frame node es m r Hes Hok) as Hi.
  assert (Hrun : ∀ fuel m, ExecInterpExpr hoist (S (S fuel)) frame (es_steps es) 0 m = Ok (<[res := c]> m)) by (by rewrite Hsteps).
  destruct (ExecInitExpr_facts node es Hes) as (_ & _ & _ & _ & H0).
  assert (Hcell : ∀ d, es_good es (<[0%nat := d]> m)).
  { intros d. eapply good_changes; [exact Hg|by apply (changes_insert (eq 0%nat))|by intros a <-]. }
  destruct r as [v|e| |]; [|destruct (Hi m Hg) as (n & Hf)|done..].
  - assert (∀ d, at_cell 0 (<[res := c]> (<[0%nat := d]> m)) = v) as Hv.
    { intros d. destruct (Hi _ (Hcell d)) as (n & m' & _ & <- & Hf). specialize (Hf (S (S n)) ltac:(lia)). rewrite Hrun in Hf.
      by injection Hf as <-. }
    unfold at_cell in Hv. destruct (decide (res = 0%nat)) as [->|Hne]; [specialize (Hv c); by rewrite fn_lookup_insert in Hv|].
    pose proof (Hv (mkNullable (DByVal 0) true)) as H1. pose proof (Hv (mkNullable (DByVal 0) false)) as H2.
    rewrite fn_lookup_insert_ne, fn_lookup_insert in H1, H2 by done. by rewrite <- H2 in H1.
  - specialize (Hf (S (S n)) ltac:(lia)). by rewrite Hrun in Hf.
Qed.

(** the fast path agrees with the interpreter *)
Lemma program_ok frame node es m r :
  ExecInitExpr node = Ok es → code_ok hoist frame (es_steps es) (es_consts es) node r → es_good es m →
  state_result frame es m r.
Proof.
  intros Hes Hok Hg. unfold state_result, ExecEvalExprState. destruct (exec_state_cases es) as [(res & c & Hsteps & He)|He].
  - pose proof (const_program frame node es res c r Hes Hok Hsteps m Hg) as Hv. destruct r as [v| | |]; try done. subst v.
    exists 0%nat, m. split; [done|]. intros. apply He.
  - pose proof (program_interp frame node es m r Hes Hok Hg) as Hi. destruct r as [v|e| |]; try done.
    + destruct Hi as (n & m' & Hg' & <- & Hf). exists n, m'. split; [done|]. intros fuel Hn. by rewrite He, (Hf fuel Hn).
    + destruct Hi as (n & Hf). exists n. intros fuel Hn. by rewrite He, (Hf fuel Hn).
Qed.

(** ** Calls *)

(** what is decided in the first is the same in the second *)
Definition settled {A} (r r' : outcome A) : Prop := match r with Ok _ | Err _ => r' = r | _ => True end.

Lemma settled_fuel_le {A} (r r' : outcome A) : fuel_le r r' → settled r r'.
Proof. intros [->| ->]; [done|]. by destruct r'. Qed.

(** compiling succeeds when the check does *)
Lemma exec_init_check_compiles node : exec_init_check node = Ok tt → ∃ es, ExecInitExpr node = Ok es.
Proof.
  unfold exec_init_check, ExecInitExpr. intros Hc. pose proof (init_alike node 0%nat (mkExprState [] 1 [] false) (Ok tt)) as Ha.
  destruct (ExecInitExprRec _ _ _) as [st|e| |]; simpl in Ha; [simpl; eauto|by rewrite Ha in Hc|by rewrite Ha in Hc|done].
Qed.

Lemma lambda_body_checked fuel key d vs body : lambda_body hoist fuel key d vs = Ok body → exec_init_check body = Ok tt.
Proof.
  unfold lambda_body. intros Hb. apply bind_Ok_inv in Hb as ([l|] & _ & Hb); [|done]. destruct (le_expr l); [|done].
  destruct (_ >? _); [done|]. apply bind_Ok_inv in Hb as (tree & _ & ([] & Hc & [= <-])%bind_Ok_inv). done.
Qed.

Section Calls.
Context (fuel0 : nat) (IH : ∀ frame code pool e, code_ok hoist frame code pool e (ExecEvalExpr hoist fuel0 frame e)).

Lemma run_body_ok frame body :
  exec_init_check body = Ok tt →
  ∃ n, ∀ fuel, (n ≤ fuel)%nat → settled (ExecEvalExpr hoist fuel0 frame body) (run_body hoist fuel frame body).
Proof.
  intros [es Hes]%exec_init_check_compiles. destruct (ExecInitExpr_facts body es Hes) as (_ & _ & _ & Hwf & _).
  pose proof (program_ok frame body es (es_memory es) _ Hes (IH frame _ _ body) (es_memory_good es Hwf)) as Hp.
  unfold run_body, state_result, ExecEvalExprState in *. rewrite Hes. cbn [mbind outcome_bind].
  destruct (ExecEvalExpr _ _ _ _) as [v|e| |]; [| |by exists 0%nat|by exists 0%nat].
  - destruct Hp as (n & m' & _ & Hf). exists n. intros fuel Hn. by rewrite (Hf fuel Hn).
  - destruct Hp as (n & Hf). exists n. intros fuel Hn. by rewrite (Hf fuel Hn).
Qed.

Lemma call_lambda_ok held lam base nargs key args m :
  ExecInitCallLambdaCacheKey args = Ok key →
  ∃ n, ∀ fuel, (n ≤ fuel)%nat →
    settled (ExecEvalCallLambdaExpr (ExecEvalExpr hoist fuel0) hoist fuel0 held args (at_cell lam m) (cells m base nargs))
      (call_lambda hoist (run_body hoist fuel) fuel (mkCallState held lam base nargs key) m).
Proof.
  intros Hkey. unfold ExecEvalCallLambdaExpr, call_lambda. cbn [cls_lambda cls_heldargs cls_args cls_nargs Steps.cache_key_idx].
  fold (at_cell lam m). destruct (at_cell lam m) as [d|]; [|by exists 0%nat]. destruct held as [bits|].
  { exists fuel0. intros fuel Hf. apply settled_fuel_le. by apply partial_application_fuel_le. }
  rewrite Hkey. cbn [mbind outcome_bind]. pose proof (fun fuel => lambda_body_fuel_le hoist fuel0 fuel key d (cells m base nargs)) as Hle.
  destruct (lambda_body hoist fuel0 key d (cells m base nargs)) as [body|e| |] eqn:Hb; [| |by exists 0%nat..].
  - destruct (run_body_ok (lambda_params (cells m base nargs)) body) as [n Hn]; [by eapply lambda_body_checked|].
    exists (max n fuel0). intros fuel Hf. destruct (Hle fuel) as [|<-]; [lia|done|]. apply Hn. lia.
  - exists fuel0. intros fuel Hf. by destruct (Hle fuel Hf) as [|<-].
Qed.

Lemma call_stores frame held lam base nargs key args m res :
  ExecInitCallLambdaCacheKey args = Ok key →
  stores hoist frame (EEOP_CALLLAMBDAEXPR res (mkCallState held lam base nargs key)) res m
    (ExecEvalCallLambdaExpr (ExecEvalExpr hoist fuel0) hoist fuel0 held args (at_cell lam m) (cells m base nargs)).
Proof.
  intros Hkey. destruct (call_lambda_ok held lam base nargs key args m Hkey) as [n Hn].
  destruct (ExecEvalCallLambdaExpr _ _ _ _ _ _ _) as [v|e| |]; try done; cbn [stores settled] in *.
  - exists (<[res := nd_of v]> m). split_and!; [|unfold at_cell; by rewrite fn_lookup_insert, nd_option_of|by apply changes_insert].
    exists n. intros fuel Hf. cbn [exec_step]. by rewrite Hn.
  - exists n. intros fuel Hf. cbn [exec_step]. by rewrite Hn.
Qed.
End Calls.

(** ** Every node *)

Lemma comp_ok_ext frame code pool comp comp' r :
  (∀ res st, comp res st = comp' res st) → comp_ok hoist frame code pool comp' r → comp_ok hoist frame code pool comp r.
Proof. intros Heq Hok res st st' m Hi. rewrite Heq in Hi. by apply Hok. Qed.

Lemma eval_code_ok fuel0 : ∀ frame code pool e, code_ok hoist frame code pool e (ExecEvalExpr hoist fuel0 frame e).
Proof.
  induction fuel0 as [|fuel0 IH]; intros frame code pool e; [by intros res st st' m|].
  set (ev := ExecEvalExpr hoist fuel0 frame).
  assert (Hok : ∀ l, Forall (fun c => code_ok hoist frame code pool c (ev c)) l) by (intros l; apply Forall_forall; intros; apply IH).
  assert (Hconst : ∀ con, fuel_le (ev (NConst con)) (Ok (if constisnull con then None else Some (constvalue con)))).
  { intros con. destruct fuel0; [by left|by right]. }
  assert (Hlambda : ∀ h e, fuel_le (ev (NLambdaExpr h e)) (Ok (Some DNodePtr))) by (intros h e'; destruct fuel0; [by left|by right]).
  destruct (plain e) eqn:Hp.
  { unfold ExecEvalExpr. rewrite eval_plain by done. by apply plain_ok. }
  destruct e as [| |p| | | | | | | | | | | | | | |h e|h args|h l args]; try done; unfold code_ok.
  - unfold ExecEvalExpr. cbn [eval_node]. destruct (paramkind p) eqn:Hk.
    + eapply comp_ok_ext; [intros; cbn [ExecInitExprRec]; by rewrite Hk|]. apply (leaf_ok hoist frame code pool (fun res => EEOP_PARAM_EXTERN res p)).
      intros. by apply stores_result.
    + eapply comp_ok_ext; [intros; cbn [ExecInitExprRec]; by rewrite Hk|].
      apply (leaf_ok hoist frame code pool (fun res => EEOP_PARAM_EXEC res (paramid p))). intros. by apply stores_result.
    + intros res st st' m. cbn [ExecInitExprRec]. by rewrite Hk.
    + intros res st st' m. cbn [ExecInitExprRec]. by rewrite Hk.
  - apply (leaf_ok hoist frame code pool (fun res => EEOP_CONST res (mkNullable DNodePtr false))). intros. by eapply stores_insert.
  - destruct (cache_key_total args) as [key Hkey]. unfold ExecEvalExpr. rewrite eval_lfa.
    apply (call_ok hoist frame code pool ev None (fun lambda st => Ok (ExprEvalPushStep st (EEOP_PARAM_EXEC lambda (lfa_fieldSelect_id h)))) _
      args key (ExecEvalCallLambdaExpr (ExecEvalExpr hoist fuel0) hoist fuel0 None args)); try done.
    + intros a st st' [= <-]. apply grown_push, grown_refl.
    + apply (leaf_ok hoist frame code pool (fun res => EEOP_PARAM_EXEC res (lfa_fieldSelect_id h))). intros. by apply stores_result.
    + intros. by apply call_stores.
  - destruct (cache_key_total args) as [key Hkey]. unfold ExecEvalExpr. rewrite eval_call.
    apply (call_ok hoist frame code pool ev (heldargs h) (ExecInitExprRec l) _ args key
      (ExecEvalCallLambdaExpr (ExecEvalExpr hoist fuel0) hoist fuel0 (heldargs h) args)); try done.
    + intros a st st'. apply init_grows.
    + apply IH.
    + intros. by apply call_stores.
Qed.

(** ** Many rows *)

(** one compiled expression for a sequence of rows; the cells keep what the
    previous row left in them *)
Fixpoint eval_rows (fuel : nat) (es : ExprState) (m : memory) (frames : list (list (option Datum)))
    : outcome (list (option Datum)) :=
  match frames with
  | [] => Ok []
  | frame :: frames =>
      r ← ExecEvalExprState hoist fuel frame es m;
      vs ← eval_rows fuel es r.1 frames;
      Ok (r.2 :: vs)
  end.

Lemma eval_rows_ok fuel0 node es frames : ∀ m,
  ExecInitExpr node = Ok es → es_good es m →
  ∃ n, ∀ fuel, (n ≤ fuel)%nat →
    settled (omapM (fun frame => ExecEvalExpr hoist fuel0 frame node) frames) (eval_rows fuel es m frames).
Proof.
  induction frames as [|frame frames IH]; intros m Hes Hg; [by exists 0%nat|]. cbn [omapM eval_rows].
  pose proof (program_ok frame node es m _ Hes (eval_code_ok fuel0 frame _ _ node) Hg) as Hp. unfold state_result in Hp.
  destruct (ExecEvalExpr hoist fuel0 frame node) as [v|e| |]; [| |by exists 0%nat..].
  - destruct Hp as (n & m' & Hg' & Hf). destruct (IH m' Hes Hg') as [n2 Hn2]. exists (max n n2). intros fuel Hfuel.
    rewrite Hf by lia. cbn [mbind outcome_bind fst snd]. specialize (Hn2 fuel ltac:(lia)).
    destruct (omapM _ _) as [vs|e| |]; cbn [settled] in Hn2; try done; by rewrite Hn2.
  - destruct Hp as (n & Hf). exists n. intros fuel Hfuel. by rewrite Hf.
Qed.
End Program.

(** ** A concrete expression *)

(** [CASE WHEN x IS NOT NULL AND (f(x) IS NULL OR TRUE) THEN f(f(x)) ELSE COALESCE(x, 7) END],
    [f] being the function input 0 and [x] the input 1 *)
Definition demo_case : Node :=
  let x := NParam (demo_param 1 701) in
  NCaseExpr 701
    [(NBoolExpr AND_EXPR
        [NNullTest IS_NOT_NULL x;
         NBoolExpr OR_EXPR [NNullTest IS_NULL (demo_apply 0 [x]); NConst (mkConst 16 (-1) 0 1 (DByVal 1) false true)]],
      demo_apply 0 [demo_apply 0 [x]])]
    (Some (NCoalesceExpr 701 [x; demo_int 7])).

Definition demo_frames : list (list (option Datum)) :=
  [[Some (lambda_datum add3); Some (DByVal 4)]; [Some (lambda_datum add3); None]; [Some (lambda_datum add3); Some (DByVal 5)]].

Definition demo_state : ExprState :=
  match ExecInitExpr demo_case with Ok es => es | _ => mkExprState [] 0 [] false end.

(** C2. A compiled expression computes its tree: whatever the tree evaluator
    returns for each of a sequence of rows, or the error it stops with, the
    steps that ExecInitExpr emits return when they are compiled once and run
    by the interpreter row after row, in cells that keep the previous row's
    contents, with enough fuel. *)
Theorem compiled_rows_correct `{NodeIO} `{TypeCache} `{ExecParams} hoist node es frames fuel0 r :
  ExecInitExpr node = Ok es → omapM (fun frame => ExecEvalExpr hoist fuel0 frame node) frames = r →
  r ≠ UB → r ≠ OutOfFuel →
  ∃ n, ∀ fuel, (n ≤ fuel)%nat → eval_rows hoist fuel es (es_memory es) frames = r.
Proof.
  intros Hes <- Hub Hfuel. destruct (ExecInitExpr_facts node es Hes) as (_ & _ & _ & Hwf & _).
  destruct (eval_rows_ok hoist fuel0 node es frames (es_memory es) Hes (es_memory_good es Hwf)) as [n Hn].
  exists n. intros fuel Hf. specialize (Hn fuel Hf). by destruct (omapM _ _).
Qed.

Lemma compiled_rows_correct_witness :
  ∃ n, ∀ fuel, (n ≤ fuel)%nat →
    eval_rows false fuel demo_state (es_memory demo_state) demo_frames = Ok [Some (DByVal 10); Some (DByVal 7); Some (DByVal 11)].
Proof.
  apply (compiled_rows_correct false demo_case demo_state demo_frames 20); [vm_compute; reflexivity|vm_compute; reflexivity|discriminate..].
Defined.

(** [ExecInitExpr] fails exactly on the expressions for which [exec_init_check]
    fails, and with the same error. *)
Lemma compile_errors `{ExecParams} node :
  match ExecInitExpr node with
  | Ok _ => exec_init_check node = Ok tt
  | Err e => exec_init_check node = Err e
  | UB => exec_init_check node = UB
  | OutOfFuel => False
  end.
Proof.
  unfold exec_init_check, ExecInitExpr. pose proof (init_alike node 0%nat (mkExprState [] 1 [] false) (Ok tt)) as Ha.
  destruct (ExecInitExprRec _ _ _); simpl in *; by rewrite ?Ha.
Qed.

(** C20. The steps of a call refine the reference semantics end to end: when
    calling a well-typed lambda on typed arguments has a value in the reference
    semantics, the CALLLAMBDAEXPR step that finds the lambda and its arguments
    in its cells flattens the lambda, compiles the flattened body, interprets
    the compiled steps and returns that value, unless constant folding of the
    flattened body raises an error, which the step then raises. *)
Theorem compiled_call_sound `{NodeIO} `{!NodeIOLaws} `{TypeCache} `{ExecParams} `{!FoldLaws}
    le ts vs args d f v (m : memory) lam base key :
  typed_lambda le ts → datum_lambda d = Ok (Some le) → vals_ok ts vs → Forall2 call_arg args ts →
  ExecEvalCallLambdaExpr (reference_eval f) false f None args (Some d) vs = Ok v →
  ExecInitCallLambdaCacheKey args = Ok key → nd_option (m lam) = Some d → cells m base (length vs) = vs →
  ∃ fuel0, ∀ fuel, (fuel0 ≤ fuel)%nat →
    let r := call_lambda true (run_body true fuel) fuel (mkCallState None lam base (length vs) key) m in
    r = Ok v ∨ ∃ e err, eval_const_expressions e = Err err ∧ r = Err err.
Proof.
  intros Hle Hd Hv Hargs Hr Hkey Hlam Hcells. destruct (hoisted_call le ts vs args d f v Hle Hd Hv Hargs Hr) as [f0 Hf0].
  specialize (Hf0 f0 (Nat.le_refl _)).
  destruct (call_lambda_ok true f0 (eval_code_ok true f0) None lam base (length vs) key args m Hkey) as [n Hn].
  exists n. intros fuel Hf. specialize (Hn fuel Hf). unfold at_cell in Hn. rewrite Hlam, Hcells in Hn.
  destruct Hf0 as [Heq|(e & err & He & Heq)]; rewrite Heq in Hn; [by left|right; by exists e, err].
Qed.

(** the cells of the call of the running example *)
Definition demo_memory : memory :=
  fun a => nd_of (default None ((Some (lambda_datum twice) :: demo_args) !! a)).

Lemma compiled_call_sound_witness :
  ∃ fuel0, ∀ fuel, (fuel0 ≤ fuel)%nat →
    let r := call_lambda true (run_body true fuel) fuel (mkCallState None 0 1 (length demo_args) [0]) demo_memory in
    r = Ok (Some (DByVal 10)) ∨ ∃ e err, eval_const_expressions e = Err err ∧ r = Err err.
Proof.
  refine (@compiled_call_sound demo_nodeio demo_laws demo_types demo_exec demo_fold twice twice_types demo_args
            demo_nodes (lambda_datum twice) 10 (Some (DByVal 10)) demo_memory 0 1 [0] twice_typed _ demo_args_ok _ _ _ _ _).
  - apply datum_lambda_datum, text_io_laws.
  - repeat constructor; by eexists.
  - vm_compute. reflexivity.
  - vm_compute. reflexivity.
  - reflexivity.
  - reflexivity.
Defined.
