(* ===== verification/SimpleHash.v ===== *)
(** * Robin-hood hash tables

    [include/lib/simplehash.h] as [lambda_cache.c] instantiates it: an element
    is a key (here of any type [K], the address of an entry) with its stored
    hash, a bucket that is not in use is [None].  A key is compared by the
    predicate [eq], the macro [SH_EQUAL] applied to the key that is searched.

    Buckets are numbered by uint32 values, the array is indexed by them, and an
    access outside of it is [UB].  The loops over the buckets run on fuel, one
    unit per bucket; the restarts of an insertion have one unit per doubling of
    the table.

    The fill factors are doubles that are multiplied by or compared with
    quotients of powers of two.  Such operations are exact, so they are written
    as the integer operations on the significands of 0.9, 0.98 and 0.1. *)

From Stdlib Require Import SpecFloat.
From S2P Require Import Prelude.

Definition SH_MAX_SIZE : Z := PG_UINT32_MAX + 1.
Definition SH_GROW_MAX_DIB : Z := 25.
Definition SH_GROW_MAX_MOVE : Z := 150.

(** [((double) size) * SH_FILLFACTOR], truncated, for a power of two *)
Definition times_fillfactor (size : Z) : Z := 8106479329266893 * size / 2 ^ 53.

(** [((double) size) * SH_MAX_FILLFACTOR], truncated, for a power of two *)
Definition times_max_fillfactor (size : Z) : Z := 2206763817411543 * size / 2 ^ 51.

(** [((double) members / size) >= SH_GROW_MIN_FILLFACTOR], for a power of two *)
Definition filled_enough (members size : Z) : bool := members * 2 ^ 55 >=? 3602879701896397 * size.

(** [((double) nelements) / SH_FILLFACTOR], truncated *)
Definition over_fillfactor (nelements : Z) : Z :=
  match SFdiv 53 1024 (binary_normalize 53 1024 nelements 0 false) (S754_finite false 8106479329266893 (-53)) with
  | S754_finite false m e => Z.shiftl (Z.pos m) e
  | _ => 0
  end.

(** [sizeof(SH_ELEMENT_TYPE)]: a pointer, a uint32 and a char *)
Definition sizeof_element : Z := 16.

(** [pg_nextpower2_64] of [port/pg_bitutils.h] *)
Definition pg_nextpower2_64 (num : Z) : Z :=
  if Z.land num (num - 1) =? 0 then num else Z.shiftl 1 (Z.log2 num + 1).

Definition SH_COMPUTE_SIZE (newsize : Z) : outcome Z :=
  let size := pg_nextpower2_64 (Z.max newsize 2) in
  if sizeof_element * size >=? ULONG_MAX / 2 then elog (lit "hash table too large") else Ok size.

Section SimpleHash.
Context {K : Type}.

Record SH_TYPE := mkSH {
  sh_size : Z;
  sh_members : Z;
  sh_sizemask : Z;
  sh_grow_threshold : Z;
  sh_data : list (option (Z * K))
}.

(** ** Buckets *)

Definition SH_UPDATE_PARAMETERS (tb : SH_TYPE) (newsize : Z) : outcome SH_TYPE :=
  size ← SH_COMPUTE_SIZE newsize;
  Ok (mkSH size (sh_members tb) (uint32 (size - 1))
        (if size =? SH_MAX_SIZE then times_max_fillfactor size else times_fillfactor size)
        (sh_data tb)).

Definition SH_INITIAL_BUCKET (tb : SH_TYPE) (hash : Z) : Z := Z.land hash (sh_sizemask tb).

Definition SH_NEXT (tb : SH_TYPE) (curelem : Z) : Z := Z.land (uint32 (curelem + 1)) (sh_sizemask tb).

Definition SH_PREV (tb : SH_TYPE) (curelem : Z) : Z := Z.land (uint32 (curelem - 1)) (sh_sizemask tb).

Definition SH_DISTANCE_FROM_OPTIMAL (tb : SH_TYPE) (optimal bucket : Z) : Z :=
  if optimal <=? bucket then bucket - optimal else uint32 (sh_size tb + bucket - optimal).

(** [&data[i]], read and written *)
Definition bucket (data : list (option (Z * K))) (i : Z) : outcome (option (Z * K)) := deref (data !! Z.to_nat i).

Definition set_bucket (data : list (option (Z * K))) (i : Z) (e : option (Z * K)) : list (option (Z * K)) :=
  <[Z.to_nat i := e]> data.

Definition set_data (tb : SH_TYPE) (members : Z) (data : list (option (Z * K))) : SH_TYPE :=
  mkSH (sh_size tb) members (sh_sizemask tb) (sh_grow_threshold tb) data.

Definition compare_keys (hash : Z) (eq : K → bool) (e : Z * K) : bool := (hash =? e.1) && eq e.2.

(** a loop meets no bucket twice *)
Definition sh_fuel (tb : SH_TYPE) : nat := Z.to_nat (sh_size tb).

(** ** Creation *)

Definition SH_CREATE (nelements : Z) : outcome SH_TYPE :=
  size ← SH_COMPUTE_SIZE (Z.min SH_MAX_SIZE (over_fillfactor nelements));
  SH_UPDATE_PARAMETERS (mkSH 0 0 0 0 (repeat None (Z.to_nat size))) size.

Definition SH_RESET (tb : SH_TYPE) : SH_TYPE := set_data tb 0 (repeat None (Z.to_nat (sh_size tb))).

(** ** Growing *)

(** the first bucket that is empty or holds an element at its optimal position *)
Fixpoint grow_start (fuel : nat) (tb : SH_TYPE) (olddata : list (option (Z * K))) (i : Z) : outcome Z :=
  match fuel with
  | O => Ok 0
  | S fuel =>
      oldentry ← bucket olddata i;
      match oldentry with
      | None => Ok i
      | Some (hash, _) => if SH_INITIAL_BUCKET tb hash =? i then Ok i else grow_start fuel tb olddata (i + 1)
      end
  end.

(** the first empty bucket from [curelem] on *)
Fixpoint grow_probe (fuel : nat) (tb : SH_TYPE) (curelem : Z) : outcome Z :=
  match fuel with
  | O => OutOfFuel
  | S fuel =>
      newentry ← bucket (sh_data tb) curelem;
      match newentry with
      | None => Ok curelem
      | Some _ => grow_probe fuel tb (SH_NEXT tb curelem)
      end
  end.

(** [n] iterations of the loop that copies the old table *)
Fixpoint grow_copy (n : nat) (oldsize : Z) (olddata : list (option (Z * K))) (copyelem : Z) (tb : SH_TYPE)
    : outcome SH_TYPE :=
  match n with
  | O => Ok tb
  | S n =>
      oldentry ← bucket olddata copyelem;
      tb ← match oldentry with
           | None => Ok tb
           | Some (hash, key) =>
               cur ← grow_probe (sh_fuel tb) tb (SH_INITIAL_BUCKET tb hash);
               Ok (set_data tb (sh_members tb) (set_bucket (sh_data tb) cur (Some (hash, key))))
           end;
      let copyelem := uint32 (copyelem + 1) in
      grow_copy n oldsize olddata (if copyelem >=? oldsize then 0 else copyelem) tb
  end.

Definition SH_GROW (tb : SH_TYPE) (newsize : Z) : outcome SH_TYPE :=
  let oldsize := sh_size tb in
  let olddata := sh_data tb in
  newsize ← SH_COMPUTE_SIZE newsize;
  tb ← SH_UPDATE_PARAMETERS (set_data tb (sh_members tb) (repeat None (Z.to_nat newsize))) newsize;
  startelem ← grow_start (Z.to_nat oldsize) tb olddata 0;
  grow_copy (Z.to_nat oldsize) oldsize olddata startelem tb.

(** ** Insertion *)

(** how the search for a bucket ends *)
Inductive insert_probe_result :=
| InsertAt (curelem : Z)        (** an empty bucket *)
| FoundAt (curelem : Z)         (** the key is there *)
| ShiftAt (curelem : Z)         (** an element closer to its optimal position *)
| Restart.                      (** too many collisions: grow and start again *)

Fixpoint insert_probe (fuel : nat) (tb : SH_TYPE) (hash : Z) (eq : K → bool) (curelem insertdist : Z)
    : outcome insert_probe_result :=
  match fuel with
  | O => OutOfFuel
  | S fuel =>
      entry ← bucket (sh_data tb) curelem;
      match entry with
      | None => Ok (InsertAt curelem)
      | Some e =>
          if compare_keys hash eq e then Ok (FoundAt curelem)
          else
            let curoptimal := SH_INITIAL_BUCKET tb e.1 in
            let curdist := SH_DISTANCE_FROM_OPTIMAL tb curoptimal curelem in
            if insertdist >? curdist then Ok (ShiftAt curelem)
            else
              let curelem := SH_NEXT tb curelem in
              let insertdist := insertdist + 1 in
              if (insertdist >? SH_GROW_MAX_DIB) && filled_enough (sh_members tb) (sh_size tb)
              then Ok Restart
              else insert_probe fuel tb hash eq curelem insertdist
      end
  end.

(** the next empty bucket, unless too many elements would have to move *)
Fixpoint find_empty (fuel : nat) (tb : SH_TYPE) (emptyelem emptydist : Z) : outcome (option Z) :=
  match fuel with
  | O => OutOfFuel
  | S fuel =>
      let emptyelem := SH_NEXT tb emptyelem in
      emptyentry ← bucket (sh_data tb) emptyelem;
      match emptyentry with
      | None => Ok (Some emptyelem)
      | Some _ =>
          let emptydist := emptydist + 1 in
          if (emptydist >? SH_GROW_MAX_MOVE) && filled_enough (sh_members tb) (sh_size tb) then Ok None
          else find_empty fuel tb emptyelem emptydist
      end
  end.

(** shift the elements from [curelem] on up to [moveelem] forward by one *)
Fixpoint shift_forward (fuel : nat) (tb : SH_TYPE) (data : list (option (Z * K))) (moveelem curelem : Z)
    : outcome (list (option (Z * K))) :=
  if moveelem =? curelem then Ok data
  else
    match fuel with
    | O => OutOfFuel
    | S fuel =>
        let lastelem := moveelem in
        let moveelem := SH_PREV tb moveelem in
        moveentry ← bucket data moveelem;
        shift_forward fuel tb (set_bucket data lastelem moveentry) moveelem curelem
    end.

Definition fill_bucket (tb : SH_TYPE) (data : list (option (Z * K))) (curelem hash : Z) (key : K) : SH_TYPE :=
  set_data tb (uint32 (sh_members tb + 1)) (set_bucket data curelem (Some (hash, key))).

(** the grow check at the label [restart] *)
Definition insert_grow (tb : SH_TYPE) : outcome SH_TYPE :=
  if sh_members tb >=? sh_grow_threshold tb then
    if sh_size tb =? SH_MAX_SIZE then elog (lit "hash table size exceeded")
    else SH_GROW tb (sh_size tb * 2)
  else Ok tb.

Definition reset_threshold (tb : SH_TYPE) : SH_TYPE :=
  mkSH (sh_size tb) (sh_members tb) (sh_sizemask tb) 0 (sh_data tb).

(** the table, the bucket of the key, and whether it was there before *)
Fixpoint SH_INSERT_HASH_INTERNAL (fuel : nat) (tb : SH_TYPE) (key : K) (hash : Z) (eq : K → bool)
    : outcome (SH_TYPE * Z * bool) :=
  match fuel with
  | O => OutOfFuel
  | S fuel =>
      tb ← insert_grow tb;
      r ← insert_probe (sh_fuel tb) tb hash eq (SH_INITIAL_BUCKET tb hash) 0;
      match r with
      | InsertAt curelem => Ok (fill_bucket tb (sh_data tb) curelem hash key, curelem, false)
      | FoundAt curelem => Ok (tb, curelem, true)
      | ShiftAt curelem =>
          e ← find_empty (sh_fuel tb) tb curelem 0;
          match e with
          | Some emptyelem =>
              data ← shift_forward (sh_fuel tb) tb (sh_data tb) emptyelem curelem;
              Ok (fill_bucket tb data curelem hash key, curelem, false)
          | None => SH_INSERT_HASH_INTERNAL fuel (reset_threshold tb) key hash eq
          end
      | Restart => SH_INSERT_HASH_INTERNAL fuel (reset_threshold tb) key hash eq
      end
  end.

(** a table doubles at most 32 times *)
Definition SH_INSERT_HASH (tb : SH_TYPE) (key : K) (hash : Z) (eq : K → bool) : outcome (SH_TYPE * Z * bool) :=
  SH_INSERT_HASH_INTERNAL 34 tb key hash eq.

(** ** Lookup *)

Fixpoint SH_LOOKUP_HASH_INTERNAL (fuel : nat) (tb : SH_TYPE) (hash : Z) (eq : K → bool) (curelem : Z)
    : outcome (option Z) :=
  match fuel with
  | O => OutOfFuel
  | S fuel =>
      entry ← bucket (sh_data tb) curelem;
      match entry with
      | None => Ok None
      | Some e =>
          if compare_keys hash eq e then Ok (Some curelem)
          else SH_LOOKUP_HASH_INTERNAL fuel tb hash eq (SH_NEXT tb curelem)
      end
  end.

Definition SH_LOOKUP_HASH (tb : SH_TYPE) (hash : Z) (eq : K → bool) : outcome (option Z) :=
  SH_LOOKUP_HASH_INTERNAL (sh_fuel tb) tb hash eq (SH_INITIAL_BUCKET tb hash).

(** ** Deletion *)

(** the backward shift; [lastelem] is the bucket of [lastentry] *)
Fixpoint shift_backward (fuel : nat) (tb : SH_TYPE) (data : list (option (Z * K))) (lastelem curelem : Z)
    : outcome (list (option (Z * K))) :=
  match fuel with
  | O => OutOfFuel
  | S fuel =>
      let curelem := SH_NEXT tb curelem in
      curentry ← bucket data curelem;
      match curentry with
      | None => Ok (set_bucket data lastelem None)
      | Some e =>
          if SH_INITIAL_BUCKET tb e.1 =? curelem then Ok (set_bucket data lastelem None)
          else shift_backward fuel tb (set_bucket data lastelem (Some e)) curelem curelem
      end
  end.

(** [SH_DELETE_ITEM]: the element in bucket [curelem] *)
Definition SH_DELETE_ITEM (tb : SH_TYPE) (curelem : Z) : outcome SH_TYPE :=
  data ← shift_backward (sh_fuel tb) tb (sh_data tb) curelem curelem;
  Ok (set_data tb (uint32 (sh_members tb - 1)) data).

Fixpoint delete_search (fuel : nat) (tb : SH_TYPE) (hash : Z) (eq : K → bool) (curelem : Z)
    : outcome (SH_TYPE * bool) :=
  match fuel with
  | O => OutOfFuel
  | S fuel =>
      entry ← bucket (sh_data tb) curelem;
      match entry with
      | None => Ok (tb, false)
      | Some e =>
          if compare_keys hash eq e then
            data ← shift_backward (sh_fuel tb) tb (sh_data tb) curelem curelem;
            Ok (set_data tb (uint32 (sh_members tb - 1)) data, true)
          else delete_search fuel tb hash eq (SH_NEXT tb curelem)
      end
  end.

Definition SH_DELETE (tb : SH_TYPE) (hash : Z) (eq : K → bool) : outcome (SH_TYPE * bool) :=
  delete_search (sh_fuel tb) tb hash eq (SH_INITIAL_BUCKET tb hash).

(** ** Iteration *)

Record SH_ITERATOR := mkIter { it_cur : Z; it_end : Z; it_done : bool }.

Fixpoint iterate_start (fuel : nat) (tb : SH_TYPE) (i : Z) : outcome Z :=
  match fuel with
  | O => Ok PG_UINT32_MAX
  | S fuel =>
      entry ← bucket (sh_data tb) i;
      match entry with
      | None => Ok i
      | Some _ => iterate_start fuel tb (i + 1)
      end
  end.

Definition SH_START_ITERATE (tb : SH_TYPE) : outcome SH_ITERATOR :=
  startelem ← iterate_start (sh_fuel tb) tb 0;
  Ok (mkIter startelem startelem false).

Definition SH_START_ITERATE_AT (tb : SH_TYPE) (at_ : Z) : SH_ITERATOR :=
  let cur := Z.land at_ (sh_sizemask tb) in mkIter cur cur false.

(** the next bucket in use *)
Fixpoint SH_ITERATE (fuel : nat) (tb : SH_TYPE) (iter : SH_ITERATOR) : outcome (option Z * SH_ITERATOR) :=
  if it_done iter then Ok (None, iter)
  else
    match fuel with
    | O => OutOfFuel
    | S fuel =>
        let elem := it_cur iter in
        entry ← bucket (sh_data tb) elem;
        let cur := Z.land (uint32 (elem - 1)) (sh_sizemask tb) in
        let iter := mkIter cur (it_end iter)
                      (Z.land cur (sh_sizemask tb) =? Z.land (it_end iter) (sh_sizemask tb)) in
        match entry with
        | Some _ => Ok (Some elem, iter)
        | None => SH_ITERATE fuel tb iter
        end
    end.

(** a loop over the table that deletes some of the elements it meets:
    [while ((e = SH_ITERATE(tb, &iter)) != NULL) if (del(e)) SH_DELETE_ITEM(tb, e)] *)
Fixpoint iterate_delete (fuel : nat) (del : Z * K → bool) (tb : SH_TYPE) (iter : SH_ITERATOR)
    : outcome (SH_TYPE * list (Z * K)) :=
  match fuel with
  | O => OutOfFuel
  | S fuel =>
      r ← SH_ITERATE (sh_fuel tb) tb iter;
      match r with
      | (None, _) => Ok (tb, [])
      | (Some elem, iter) =>
          entry ← bucket (sh_data tb) elem;
          e ← deref entry;
          tb ← (if del e then SH_DELETE_ITEM tb elem else Ok tb);
          r ← iterate_delete fuel del tb iter;
          Ok (r.1, e :: r.2)
      end
  end.
End SimpleHash.
Arguments SH_TYPE : clear implicits.
Arguments mkSH {K}.
