(* ===== verification/SimpleHashFacts.v ===== *)
(** * Facts about the hash table

    The bucket array as a periodic function of a bucket number, the robin-hood
    invariant on it, and how the loops of [SimpleHash.v] read and write it. *)

From S2P Require Import Prelude SimpleHash.

Section Buckets.
Context {K : Type}.
Context (n : Z) (Hn : 0 < n).

Implicit Types (data : list (option (Z * K))) (e : Z * K) (f : Z → option (Z * K)).

(** ** Bucket arrays as periodic functions *)

Definition at_ data (p : Z) : option (Z * K) := mjoin (data !! Z.to_nat (p mod n)).

(** the distance of an element from its optimal bucket, in bucket [p] *)
Definition dist (p : Z) e : Z := (p - e.1) mod n.

Definition elems data : list (Z * K) := omap id data.

(** the robin-hood invariant: along a run, distances grow by one at most *)
Definition rh f : Prop :=
  ∀ p e, f p = Some e → 0 < dist p e → ∃ e', f (p - 1) = Some e' ∧ dist p e ≤ dist (p - 1) e' + 1.

Definition sized data : Prop := Z.of_nat (length data) = n.

Lemma at_periodic data p q : p mod n = q mod n → at_ data p = at_ data q.
Proof. unfold at_. by intros ->. Qed.

Lemma bucket_at data p : sized data → bucket data (p mod n) = Ok (at_ data p).
Proof.
  intros Hs. unfold bucket, at_. pose proof (Z.mod_pos_bound p n Hn).
  destruct (lookup_lt_is_Some_2 data (Z.to_nat (p mod n))) as [x ->]; [unfold sized in Hs; lia|]. by destruct x.
Qed.

Lemma set_sized data p x : sized data → sized (set_bucket data p x).
Proof. unfold sized, set_bucket. by rewrite length_insert. Qed.

Lemma at_set_eq data p q x : sized data → q mod n = p mod n → at_ (set_bucket data (p mod n) x) q = x.
Proof.
  intros Hs Hq. unfold at_, set_bucket. rewrite Hq. pose proof (Z.mod_pos_bound p n Hn).
  rewrite list_lookup_insert_eq; [by destruct x|unfold sized in Hs; lia].
Qed.

Lemma at_set_ne data p q x : q mod n ≠ p mod n → at_ (set_bucket data (p mod n) x) q = at_ data q.
Proof.
  intros Hq. unfold at_, set_bucket. rewrite list_lookup_insert_ne; [done|].
  pose proof (Z.mod_pos_bound p n Hn). pose proof (Z.mod_pos_bound q n Hn). lia.
Qed.

Lemma dist_bound p e : 0 ≤ dist p e < n.
Proof. apply Z.mod_pos_bound, Hn. Qed.

Lemma dist_periodic p q e : p mod n = q mod n → dist p e = dist q e.
Proof. unfold dist. intros H. by rewrite (Zminus_mod p), (Zminus_mod q), H. Qed.

(** moving an element by one bucket *)
Lemma dist_succ p e : dist p e + 1 < n → dist (p + 1) e = dist p e + 1.
Proof.
  unfold dist. intros H. pose proof (dist_bound p e). unfold dist in *.
  replace (p + 1 - e.1) with (p - e.1 + 1) by lia. rewrite <- Zplus_mod_idemp_l. by apply Z.mod_small; lia.
Qed.

Lemma dist_pred p e : 0 < dist p e → dist (p - 1) e = dist p e - 1.
Proof.
  unfold dist. intros H. pose proof (dist_bound p e). unfold dist in *.
  replace (p - 1 - e.1) with (p - e.1 - 1) by lia. rewrite <- Zminus_mod_idemp_l. by apply Z.mod_small; lia.
Qed.

(** indices relative to a bucket *)
Lemma index_of c p : ∃ i, 0 ≤ i < n ∧ p mod n = (c + i) mod n.
Proof.
  exists ((p - c) mod n). split; [apply Z.mod_pos_bound, Hn|]. rewrite Zplus_mod_idemp_r. f_equal. lia.
Qed.

Lemma index_inj c i j : 0 ≤ i < n → 0 ≤ j < n → (c + i) mod n = (c + j) mod n → i = j.
Proof.
  intros Hi Hj H. assert (Hd : (i - j) mod n = 0).
  { replace (i - j) with ((c + i) - (c + j)) by lia. rewrite Zminus_mod, H, Z.sub_diag. apply Z.mod_0_l. lia. }
  apply Z.mod_divide in Hd as [k Hk]; [|lia]. destruct (decide (k = 0)) as [->|]; [lia|]. clear H. nia.
Qed.

Lemma mod_shift p q d : p mod n = q mod n → (p + d) mod n = (q + d) mod n.
Proof. intros H. by rewrite <- Zplus_mod_idemp_l, H, Zplus_mod_idemp_l. Qed.

(** ** Elements *)

Lemma elems_insert data i x y :
  data !! i = Some x → elems (<[i := y]> data) ≡ₚ option_list y ++ elems (<[i := None]> data).
Proof.
  revert i; induction data as [|z data IH]; intros [|i] Hi; try done; simpl.
  - by destruct y.
  - destruct z; rewrite (IH i) by done; [apply Permutation_middle|done].
Qed.

Lemma elems_hole data i x : data !! i = Some x → elems data ≡ₚ option_list x ++ elems (<[i := None]> data).
Proof. intros Hi. rewrite <- (list_insert_id data i x Hi) at 1. by eapply elems_insert. Qed.

Lemma at_lookup data p x : sized data → at_ data p = x → data !! Z.to_nat (p mod n) = Some x.
Proof.
  intros Hs Hx. pose proof (bucket_at data p Hs) as Hb. unfold bucket, deref in Hb.
  destruct (data !! _); [|done]. congruence.
Qed.

(** an empty bucket is filled *)
Lemma elems_fill data p e :
  sized data → elems (set_bucket data (p mod n) (Some e)) ≡ₚ e :: elems (set_bucket data (p mod n) None).
Proof. intros Hs. eapply (elems_insert data _ (at_ data p) (Some e)). by apply at_lookup. Qed.

Lemma elems_clear data p :
  sized data → elems data ≡ₚ option_list (at_ data p) ++ elems (set_bucket data (p mod n) None).
Proof. intros Hs. apply elems_hole. by apply at_lookup. Qed.

(** an element moves into a hole *)
Lemma elems_move data p q :
  sized data → p mod n ≠ q mod n →
  elems (set_bucket (set_bucket data (q mod n) (at_ data p)) (p mod n) None) ≡ₚ elems (set_bucket data (q mod n) None).
Proof.
  intros Hs Hpq. set (hole := set_bucket (set_bucket data (q mod n) None) (p mod n) None).
  assert (Hh : elems (set_bucket data (q mod n) None) ≡ₚ option_list (at_ data p) ++ elems hole).
  { rewrite (elems_clear _ p) by by apply set_sized. by rewrite at_set_ne. }
  rewrite Hh. unfold hole, set_bucket. pose proof (Z.mod_pos_bound p n Hn). pose proof (Z.mod_pos_bound q n Hn).
  rewrite !(list_insert_insert_ne _ (Z.to_nat (p mod n)) (Z.to_nat (q mod n))) by lia.
  eapply (elems_insert _ _ (at_ data q)). rewrite list_lookup_insert_ne by lia. by apply at_lookup.
Qed.

Lemma elems_at data e : sized data → e ∈ elems data ↔ ∃ p, 0 ≤ p < n ∧ at_ data p = Some e.
Proof.
  intros Hs. unfold elems. rewrite list_elem_of_omap. split.
  - intros (x & Hx & He). apply list_elem_of_lookup in Hx as [i Hi]. pose proof (lookup_lt_Some _ _ _ Hi).
    exists (Z.of_nat i). unfold sized in Hs. split; [lia|]. unfold at_. rewrite Z.mod_small, Nat2Z.id, Hi by lia. simpl in He. by subst.
  - intros (p & Hp & He). exists (Some e). split; [|done]. by eapply list_elem_of_lookup_2, at_lookup.
Qed.

(** ** Runs of occupied buckets *)

(** an element's run reaches back to its optimal bucket, and distances in it
    are at least those along the run *)
Lemma rh_chain f p e :
  rh f → f p = Some e →
  ∀ j, 0 ≤ j ≤ dist p e → ∃ e', f (p - j) = Some e' ∧ dist p e - j ≤ dist (p - j) e'.
Proof.
  intros Hrh Hp j [Hj Hle]. revert Hle. pattern j; apply natlike_ind; [|clear j Hj; intros j Hj IH Hle|done].
  - intros _. exists e. rewrite !Z.sub_0_r. split; [done|lia].
  - destruct IH as (e1 & H1 & Hd1); [lia|]. destruct (Hrh _ _ H1) as (e2 & H2 & Hd2); [lia|].
    replace (p - Z.succ j) with (p - j - 1) by lia. exists e2. split; [done|lia].
Qed.

(** with an empty bucket, no distance is the largest possible *)
Lemma rh_not_far f z p e :
  (∀ a b, a mod n = b mod n → f a = f b) → rh f → f z = None → f p = Some e → dist p e + 1 < n.
Proof.
  intros Hf Hrh Hz Hp. pose proof (dist_bound p e). destruct (decide (dist p e + 1 < n)) as [|Hge]; [done|].
  destruct (index_of z p) as (i & Hi & Hpi). destruct (rh_chain f p e Hrh Hp i) as (e' & He' & _); [lia|].
  rewrite (Hf (p - i) z), Hz in He'; [done|]. rewrite <- (Z.add_0_r z), <- (Z.sub_diag i), Z.add_sub_assoc.
  apply (mod_shift p (z + i) (- i)), Hpi.
Qed.

(** the first bucket from [c] on at which a walk stops *)
Lemma first_stop (stop : Z → Prop) `{∀ p, Decision (stop p)} c m :
  0 ≤ m → stop (c + m) → ∃ j, 0 ≤ j ≤ m ∧ stop (c + j) ∧ ∀ i, 0 ≤ i < j → ¬ stop (c + i).
Proof.
  intros Hm. revert c. pattern m; apply natlike_ind; [|clear m Hm; intros m Hm IH|done]; intros c Hs.
  - exists 0. split_and!; [lia..|done|intros; lia].
  - destruct (decide (stop c)) as [Hc|Hc].
    { exists 0. rewrite Z.add_0_r. split_and!; [lia..|done|intros; lia]. }
    destruct (IH (c + 1)) as (j & Hj & Hsj & Hbefore).
    { by replace (c + 1 + m) with (c + Z.succ m) by lia. }
    exists (j + 1). replace (c + (j + 1)) with (c + 1 + j) by lia. split_and!; [lia..|done|].
    intros i Hi. destruct (decide (i = 0)) as [->|]; [by rewrite Z.add_0_r|].
    replace (c + i) with (c + 1 + (i - 1)) by lia. apply Hbefore. lia.
Qed.

(** the first empty bucket from [c] on *)
Lemma first_empty f z c :
  (∀ a b, a mod n = b mod n → f a = f b) → f z = None →
  ∃ j, 0 ≤ j < n ∧ f (c + j) = None ∧ ∀ i, 0 ≤ i < j → ∃ e, f (c + i) = Some e.
Proof.
  intros Hf Hz. destruct (index_of c z) as (m & Hm & Hzm).
  destruct (first_stop (fun p => f p = None) c m) as (j & Hj & Hs & Hb); [lia|by rewrite <- (Hf z)|].
  exists j. split_and!; [lia..|done|]. intros i Hi. specialize (Hb i Hi). by destruct (f (c + i)); [eexists|].
Qed.

(** ** Preservation of the invariant *)

Definition periodic f : Prop := ∀ a b, a mod n = b mod n → f a = f b.

(** it is enough to look at one period *)
Lemma rh_index f c :
  periodic f →
  (∀ i e, 0 ≤ i < n → f (c + i) = Some e → 0 < dist (c + i) e →
     ∃ e', f (c + i - 1) = Some e' ∧ dist (c + i) e ≤ dist (c + i - 1) e' + 1) →
  rh f.
Proof.
  intros Hf Hi p e Hp Hd. destruct (index_of c p) as (i & Hin & Hpi).
  assert (Hp1 : (p - 1) mod n = (c + i - 1) mod n) by exact (mod_shift p (c + i) (-1) Hpi).
  rewrite (Hf _ _ Hpi) in Hp. rewrite (dist_periodic p (c + i) e Hpi) in *.
  destruct (Hi i e Hin Hp Hd) as (e' & He' & Hle). exists e'. by rewrite (Hf _ _ Hp1), (dist_periodic _ _ e' Hp1).
Qed.

Lemma index_wrap c : (c - 1) mod n = (c + (n - 1)) mod n.
Proof. replace (c + (n - 1)) with (c - 1 + 1 * n) by lia. by rewrite Z.mod_add by lia. Qed.

(** a run moved back by one *)
Lemma rh_backward f f' c m :
  periodic f → periodic f' → rh f → 0 < m < n →
  (∃ e, f c = Some e) →
  (∀ i, 0 < i < m → ∃ e, f (c + i) = Some e ∧ 0 < dist (c + i) e) →
  (∀ e, f (c + m) = Some e → dist (c + m) e = 0) →
  (∀ i, 0 ≤ i < n → f' (c + i) = if i <? m - 1 then f (c + i + 1) else if i =? m - 1 then None else f (c + i)) →
  rh f'.
Proof.
  intros Hf Hf' Hrh Hm [e0 He0] Hrun Hend Hspec. apply (rh_index f' c Hf'). intros i e Hi.
  rewrite Hspec by done. destruct (Z.ltb_spec i (m - 1)) as [Hlt|Hge].
  - intros He Hd. replace (c + i + 1) with (c + (i + 1)) in He by lia.
    destruct (Hrun (i + 1) ltac:(lia)) as (e1 & He1 & Hd1). rewrite He in He1. injection He1 as <-.
    assert (Hde : dist (c + (i + 1)) e = dist (c + i) e + 1).
    { replace (c + i) with (c + (i + 1) - 1) by lia. rewrite (dist_pred _ _ Hd1). lia. }
    destruct (Hrh _ _ He Hd1) as (e2 & He2 & Hle2). replace (c + (i + 1) - 1) with (c + i) in * by lia.
    destruct (decide (i = 0)) as [->|Hi0].
    + rewrite Z.add_0_r in *. destruct (Hrh _ _ He2) as (e3 & He3 & Hle3); [lia|]. exists e3. split; [|lia].
      rewrite (Hf' _ _ (index_wrap c)), Hspec by lia. destruct (Z.ltb_spec (n - 1) (m - 1)), (Z.eqb_spec (n - 1) (m - 1)); try lia.
      by rewrite <- (Hf _ _ (index_wrap c)).
    + destruct (Hrun i ltac:(lia)) as (e3 & He3 & Hd3). rewrite He2 in He3. injection He3 as <-. exists e2. split.
      * replace (c + i - 1) with (c + (i - 1)) by lia. rewrite Hspec by lia. destruct (Z.ltb_spec (i - 1) (m - 1)); [|lia].
        by replace (c + (i - 1) + 1) with (c + i) by lia.
      * rewrite (dist_pred _ _ Hd3). lia.
  - destruct (Z.eqb_spec i (m - 1)) as [|Hne]; [done|]. intros He Hd.
    destruct (decide (i = m)) as [->|Him]; [rewrite (Hend e He) in Hd; lia|].
    destruct (Hrh _ _ He Hd) as (e' & He' & Hle). exists e'. split; [|done].
    replace (c + i - 1) with (c + (i - 1)) in * by lia. rewrite Hspec by lia.
    by destruct (Z.ltb_spec (i - 1) (m - 1)), (Z.eqb_spec (i - 1) (m - 1)); try lia.
Qed.

(** a run moved forward by one, and a new element in front of it *)
Lemma rh_forward f f' c m e0 :
  periodic f → periodic f' → rh f → 0 ≤ m < n → f (c + m) = None →
  (∀ i, 0 ≤ i < m → ∃ e, f (c + i) = Some e) →
  (0 < dist c e0 → ∃ e', f (c - 1) = Some e' ∧ dist c e0 ≤ dist (c - 1) e' + 1) →
  (∀ e, 0 < m → f c = Some e → dist c e < dist c e0) →
  (∀ i, 0 ≤ i < n → f' (c + i) = if i =? 0 then Some e0 else if i <=? m then f (c + i - 1) else f (c + i)) →
  rh f'.
Proof.
  intros Hf Hf' Hrh Hm Hz Hrun Hnew Hfirst Hspec. apply (rh_index f' c Hf'). intros i e Hi.
  rewrite Hspec by done. destruct (Z.eqb_spec i 0) as [->|Hi0].
  { intros [= <-] Hd. rewrite Z.add_0_r in *. destruct (Hnew Hd) as (e' & He' & Hle). exists e'. split; [|done].
    rewrite (Hf' _ _ (index_wrap c)), Hspec by lia. destruct (Z.eqb_spec (n - 1) 0); [|].
    - exfalso. rewrite (Hf (c - 1) (c + m)) in He'; [congruence|]. rewrite index_wrap. do 2 f_equal. lia.
    - destruct (Z.leb_spec (n - 1) m); [|by rewrite <- (Hf _ _ (index_wrap c))].
      exfalso. rewrite (Hf (c - 1) (c + m)) in He'; [congruence|]. rewrite index_wrap. do 2 f_equal. lia. }
  destruct (Z.leb_spec i m) as [Hle|Hgt].
  - intros He Hd. destruct (Hrun (i - 1) ltac:(lia)) as (e1 & He1). replace (c + (i - 1)) with (c + i - 1) in He1 by lia.
    rewrite He in He1. injection He1 as <-. pose proof (rh_not_far f _ _ _ Hf Hrh Hz He) as Hfar.
    assert (Hde : dist (c + i) e = dist (c + i - 1) e + 1).
    { replace (c + i) with (c + i - 1 + 1) at 1 by lia. by apply dist_succ. }
    replace (c + i - 1) with (c + (i - 1)) in * by lia. rewrite Hspec by lia.
    destruct (Z.eqb_spec (i - 1) 0) as [Hi1|Hi1].
    + exists e0. split; [done|]. rewrite Hi1, Z.add_0_r in *. specialize (Hfirst e ltac:(lia) He). lia.
    + destruct (Z.leb_spec (i - 1) m); [|lia]. destruct (Hrun (i - 1 - 1) ltac:(lia)) as (e2 & He2).
      replace (c + (i - 1 - 1)) with (c + (i - 1) - 1) in He2 by lia. exists e2. split; [done|].
      pose proof (rh_not_far f _ _ _ Hf Hrh Hz He2) as Hfar2. rewrite Hde.
      replace (c + (i - 1)) with (c + (i - 1) - 1 + 1) at 2 by lia. rewrite dist_succ by done.
      pose proof (dist_bound (c + (i - 1)) e). pose proof (dist_bound (c + (i - 1) - 1) e2).
      destruct (decide (0 < dist (c + (i - 1)) e)) as [Hpos|]; [|lia].
      destruct (Hrh _ _ He Hpos) as (e3 & He3 & Hle3). rewrite He2 in He3. injection He3 as <-. lia.
  - intros He Hd. destruct (Hrh _ _ He Hd) as (e' & He' & Hle). exists e'. split; [|done].
    replace (c + i - 1) with (c + (i - 1)) in * by lia. rewrite Hspec by lia.
    destruct (Z.eqb_spec (i - 1) 0) as [Hi1|Hi1].
    + assert (m = 0) as -> by lia. rewrite Hi1 in He'. congruence.
    + destruct (Z.leb_spec (i - 1) m); [|done]. assert (i - 1 = m) as Heq by lia. rewrite Heq in He'. congruence.
Qed.
End Buckets.

#[global] Arguments rh {K} n f.

(** ** Tables *)

Section Table.
Context {K : Type}.
Implicit Types (tb : SH_TYPE K) (e : Z * K) (data : list (option (Z * K))).

(** sizes and masks *)
Record sh_shape tb : Prop := {
  shape_pow : ∃ k, 1 ≤ k ≤ 32 ∧ sh_size tb = 2 ^ k;
  shape_mask : sh_sizemask tb = sh_size tb - 1;
  shape_len : sized (sh_size tb) (sh_data tb)
}.

(** [grow_threshold] for a size *)
Definition threshold_of (size : Z) : Z :=
  if size =? SH_MAX_SIZE then times_max_fillfactor size else times_fillfactor size.

(** a table between two operations *)
Record sh_wf tb : Prop := {
  wf_shape : sh_shape tb;
  wf_members : sh_members tb = Z.of_nat (length (elems (sh_data tb)));
  wf_room : sh_members tb < sh_size tb;
  wf_threshold : sh_grow_threshold tb = threshold_of (sh_size tb);
  wf_rh : rh (sh_size tb) (at_ (sh_size tb) (sh_data tb))
}.

Definition tat tb (p : Z) : option (Z * K) := at_ (sh_size tb) (sh_data tb) p.

Lemma shape_bounds tb : sh_shape tb → 2 ≤ sh_size tb ≤ 2 ^ 32.
Proof.
  intros [(k & Hk & ->) _ _]. split; [change 2 with (2 ^ 1) at 1|]; apply Z.pow_le_mono_r; lia.
Qed.

Lemma shape_pos tb : sh_shape tb → 0 < sh_size tb.
Proof. intros H%shape_bounds. lia. Qed.

Lemma mask_mod tb x : sh_shape tb → Z.land x (sh_sizemask tb) = x mod sh_size tb.
Proof.
  intros [(k & Hk & Hs) -> _]. rewrite Hs. replace (2 ^ k - 1) with (Z.ones k) by (rewrite Z.ones_equiv; lia).
  apply Z.land_ones. lia.
Qed.

Lemma mask_uint32 tb x : sh_shape tb → Z.land (uint32 x) (sh_sizemask tb) = x mod sh_size tb.
Proof.
  intros Ht. rewrite mask_mod by done. destruct Ht as [(k & Hk & ->) _ _]. unfold uint32.
  replace (2 ^ 32) with (2 ^ k * 2 ^ (32 - k)) by (rewrite <- Z.pow_add_r by lia; f_equal; lia).
  rewrite Z.rem_mul_r by (try apply Z.pow_nonzero; try apply Z.pow_pos_nonneg; lia).
  rewrite Z.mul_comm, Z.mod_add by (apply Z.pow_nonzero; lia). apply Z.mod_mod, Z.pow_nonzero; lia.
Qed.

Lemma initial_mod tb h : sh_shape tb → SH_INITIAL_BUCKET tb h = h mod sh_size tb.
Proof. apply mask_mod. Qed.

Lemma next_mod tb p : sh_shape tb → SH_NEXT tb (p mod sh_size tb) = (p + 1) mod sh_size tb.
Proof. intros Ht. unfold SH_NEXT. rewrite mask_uint32 by done. apply Zplus_mod_idemp_l. Qed.

Lemma prev_mod tb p : sh_shape tb → SH_PREV tb (p mod sh_size tb) = (p - 1) mod sh_size tb.
Proof. intros Ht. unfold SH_PREV. rewrite mask_uint32 by done. apply Zminus_mod_idemp_l. Qed.

Lemma distance_dist tb p e :
  sh_shape tb → SH_DISTANCE_FROM_OPTIMAL tb (SH_INITIAL_BUCKET tb e.1) (p mod sh_size tb) = dist (sh_size tb) p e.
Proof.
  intros Ht. pose proof (shape_bounds tb Ht). rewrite initial_mod by done. unfold SH_DISTANCE_FROM_OPTIMAL, dist.
  pose proof (Z.mod_pos_bound p (sh_size tb) ltac:(lia)). pose proof (Z.mod_pos_bound e.1 (sh_size tb) ltac:(lia)).
  rewrite Zminus_mod. destruct (Z.leb_spec (e.1 mod sh_size tb) (p mod sh_size tb)).
  - symmetry. apply Z.mod_small. lia.
  - unfold uint32. rewrite (Z.mod_small (_ + _ - _)) by lia. apply (Z.mod_unique _ _ (-1)); lia.
Qed.

Lemma tat_periodic tb p q : p mod sh_size tb = q mod sh_size tb → tat tb p = tat tb q.
Proof. apply at_periodic. Qed.

Lemma tbucket tb p : sh_shape tb → bucket (sh_data tb) (p mod sh_size tb) = Ok (tat tb p).
Proof. intros Ht. apply bucket_at; [by apply shape_pos|apply Ht]. Qed.

(** a table with room has an empty bucket *)
Lemma wf_empty tb : sh_wf tb → ∃ z, tat tb z = None.
Proof.
  intros Hw. pose proof (wf_shape _ Hw) as Ht. pose proof (shape_pos _ Ht) as Hp. pose proof (shape_len _ Ht) as Hl.
  assert (Hex : ∃ i, sh_data tb !! i = Some None).
  { pose proof (wf_room _ Hw) as Hr. rewrite (wf_members _ Hw) in Hr. unfold sized in Hl. rewrite <- Hl in Hr.
    apply Nat2Z.inj_lt in Hr. clear -Hr. unfold elems in Hr. induction (sh_data tb) as [|[x|] l IH]; simpl in Hr; [lia| |by exists 0%nat].
    destruct IH as [i Hi]; [apply Nat.succ_lt_mono, Hr|]. by exists (S i). }
  destruct Hex as [i Hi]. exists (Z.of_nat i). unfold tat, at_. apply lookup_lt_Some in Hi as Hlt. unfold sized in Hl.
  by rewrite Z.mod_small, Nat2Z.id, Hi by lia.
Qed.

(** ** Searching *)

(** the buckets at which a search stops *)
Definition stops tb (h : Z) (eq : K → bool) (p : Z) : bool :=
  match tat tb p with None => true | Some e => compare_keys h eq e end.

(** a search from the optimal bucket stops after [j] buckets *)
Definition stops_after tb (h : Z) (eq : K → bool) (j : nat) : Prop :=
  (j < sh_fuel tb)%nat ∧ stops tb h eq (h + Z.of_nat j) = true ∧
  ∀ i, (i < j)%nat → stops tb h eq (h + Z.of_nat i) = false.

Lemma search_stops tb h eq : sh_wf tb → ∃ j, stops_after tb h eq j.
Proof.
  intros Hw. pose proof (shape_pos _ (wf_shape _ Hw)) as Hp. destruct (wf_empty _ Hw) as [z Hz].
  destruct (index_of (sh_size tb) Hp h z) as (m & Hm & Hzm).
  destruct (first_stop (fun p => stops tb h eq p = true) h m) as (j & Hj & Hs & Hb); [lia| |].
  { unfold stops. by rewrite <- (tat_periodic tb z), Hz. }
  exists (Z.to_nat j). unfold stops_after, sh_fuel. rewrite <- (Z2Nat.id j) in Hs by lia. split_and!; [lia|done|].
  intros i Hi. apply not_true_is_false. apply Hb. lia.
Qed.

(** a loop that moves on where [stop] is false reaches the first bucket where
    it is not *)
Lemma search_walk {R} (loop : nat → Z → outcome R) (stop : Z → bool) tb c j :
  (∀ fuel p, stop p = false → loop (S fuel) (p mod sh_size tb) = loop fuel ((p + 1) mod sh_size tb)) →
  (∀ i, (i < j)%nat → stop (c + Z.of_nat i) = false) →
  ∀ fuel, (j < fuel)%nat → ∃ fuel', loop fuel (c mod sh_size tb) = loop (S fuel') ((c + Z.of_nat j) mod sh_size tb).
Proof.
  intros Hloop. revert c. induction j as [|j IH]; intros c Hb fuel Hf.
  - destruct fuel as [|fuel]; [lia|]. exists fuel. by rewrite Z.add_0_r.
  - destruct fuel as [|fuel]; [lia|]. rewrite Hloop by (rewrite <- (Z.add_0_r c); apply (Hb 0%nat); lia).
    replace (c + Z.of_nat (S j)) with (c + 1 + Z.of_nat j) by lia. apply IH; [|lia].
    intros i Hi. replace (c + 1 + Z.of_nat i) with (c + Z.of_nat (S i)) by lia. apply Hb. lia.
Qed.

Lemma lookup_result tb h eq j :
  sh_shape tb → stops_after tb h eq j →
  SH_LOOKUP_HASH tb h eq =
    Ok (match tat tb (h + Z.of_nat j) with None => None | Some _ => Some ((h + Z.of_nat j) mod sh_size tb) end).
Proof.
  intros Ht (Hj & Hs & Hb). unfold SH_LOOKUP_HASH. rewrite initial_mod by done.
  destruct (search_walk (fun fuel => SH_LOOKUP_HASH_INTERNAL fuel tb h eq) (stops tb h eq) tb h j) with (sh_fuel tb)
    as [fuel' ->]; [|done..|].
  - intros fuel p Hp. cbn [SH_LOOKUP_HASH_INTERNAL]. rewrite tbucket by done. cbn [mbind outcome_bind].
    unfold stops in Hp. destruct (tat tb p) as [e|]; [|done]. by rewrite Hp, next_mod.
  - cbn [SH_LOOKUP_HASH_INTERNAL]. rewrite tbucket by done. cbn [mbind outcome_bind]. unfold stops in Hs.
    destruct (tat tb (h + Z.of_nat j)) as [e|]; [by rewrite Hs|done].
Qed.

(** an element lies in front of every bucket that is empty, or whose element is
    closer to its optimal bucket than the element would be there *)
Lemma home_complete tb h k j :
  sh_wf tb → 0 ≤ j → (∀ e, tat tb (h + j) = Some e → dist (sh_size tb) (h + j) e < j) →
  (h, k) ∈ elems (sh_data tb) → ∃ d, 0 ≤ d < j ∧ tat tb (h + d) = Some (h, k).
Proof.
  intros Hw Hj Hend Hin. pose proof (wf_shape _ Hw) as Ht. pose proof (shape_pos _ Ht) as Hp.
  apply (elems_at (sh_size tb)) in Hin as (p & Hpr & Hpe); [|done|apply Ht].
  pose proof (dist_bound (sh_size tb) Hp p (h, k)) as Hd. set (d := dist (sh_size tb) p (h, k)) in *.
  assert (Hpd : p mod sh_size tb = (h + d) mod sh_size tb).
  { unfold d, dist. simpl. rewrite Zplus_mod_idemp_r. f_equal. lia. }
  assert (Hmod : ∀ i, (p - i) mod sh_size tb = (h + (d - i)) mod sh_size tb).
  { intros i. replace (h + (d - i)) with (h + d + - i) by lia. by apply (mod_shift _ p (h + d) (- i)). }
  destruct (Z.le_gt_cases j d) as [Hle|Hgt].
  - destruct (rh_chain (sh_size tb) (tat tb) p (h, k) (wf_rh _ Hw) Hpe (d - j)) as (e & He & Hde); [lia|].
    rewrite (dist_periodic _ _ _ e (Hmod (d - j))) in Hde. rewrite (tat_periodic _ _ _ (Hmod (d - j))) in He.
    replace (d - (d - j)) with j in * by lia. specialize (Hend e He). fold d in Hde. lia.
  - exists d. split; [lia|]. by rewrite <- (tat_periodic _ _ _ Hpd).
Qed.

(** a search that ends at an empty bucket has missed nothing *)
Lemma search_complete tb h eq j k :
  sh_wf tb → stops_after tb h eq j → tat tb (h + Z.of_nat j) = None → (h, k) ∈ elems (sh_data tb) → eq k = false.
Proof.
  intros Hw (Hj & _ & Hb) Hn Hin.
  destruct (home_complete tb h k (Z.of_nat j) Hw ltac:(lia)) as (d & Hd & He); [by rewrite Hn|done|].
  specialize (Hb (Z.to_nat d) ltac:(lia)). rewrite Z2Nat.id in Hb by lia. unfold stops in Hb. rewrite He in Hb.
  unfold compare_keys in Hb. simpl in Hb. by rewrite Z.eqb_refl in Hb.
Qed.

(** ** Deleting *)

Lemma initial_dist tb p e :
  sh_shape tb → (SH_INITIAL_BUCKET tb e.1 =? p mod sh_size tb) = (dist (sh_size tb) p e =? 0).
Proof.
  intros Ht. pose proof (shape_pos _ Ht). rewrite initial_mod by done. apply eq_true_iff_eq. rewrite !Z.eqb_eq.
  unfold dist. split; intros H'.
  - by rewrite Zminus_mod, H', Z.sub_diag, Zmod_0_l.
  - apply Z.mod_divide in H' as [q Hq]; [|lia]. replace p with (e.1 + q * sh_size tb) by lia. by rewrite Z.mod_add by lia.
Qed.

(** the buckets at which the backward shift stops *)
Definition settled tb (x : option (Z * K)) (p : Z) : bool :=
  match x with None => true | Some e => dist (sh_size tb) p e =? 0 end.

Lemma index_ne tb c i j :
  sh_shape tb → 0 ≤ i < sh_size tb → 0 ≤ j < sh_size tb → i ≠ j → (c + i) mod sh_size tb ≠ (c + j) mod sh_size tb.
Proof. intros Ht Hi Hj Hne Heq. apply Hne. by eapply index_inj; [apply shape_pos|..]. Qed.

Lemma at_set_other tb data c i x :
  sh_shape tb → 0 < i < sh_size tb →
  at_ (sh_size tb) (set_bucket data (c mod sh_size tb) x) (c + i) = at_ (sh_size tb) data (c + i).
Proof.
  intros Ht Hi. apply at_set_ne; [by apply shape_pos|]. rewrite <- (Z.add_0_r c) at 2. apply (index_ne tb); [done|lia..].
Qed.

(** [data'] is [data] with the [m] buckets behind [c] moved back by one *)
Definition moved_back tb data data' (c m : Z) : Prop :=
  ∀ i, 0 ≤ i < sh_size tb →
    at_ (sh_size tb) data' (c + i) =
      if i <? m - 1 then at_ (sh_size tb) data (c + i + 1)
      else if i =? m - 1 then None else at_ (sh_size tb) data (c + i).

Lemma moved_back_one tb data c :
  sh_shape tb → sized (sh_size tb) data → moved_back tb data (set_bucket data (c mod sh_size tb) None) c 1.
Proof.
  intros Ht Hsz i Hi. pose proof (shape_pos _ Ht). change (1 - 1) with 0. destruct (Z.ltb_spec i 0); [lia|].
  destruct (Z.eqb_spec i 0) as [->|]; [|apply at_set_other; [done|lia]]. apply at_set_eq; [done..|]. by rewrite Z.add_0_r.
Qed.

Lemma moved_back_step tb data data' c m e :
  sh_shape tb → sized (sh_size tb) data → 0 < m < sh_size tb - 1 → at_ (sh_size tb) data (c + 1) = Some e →
  moved_back tb (set_bucket data (c mod sh_size tb) (Some e)) data' (c + 1) m → moved_back tb data data' c (m + 1).
Proof.
  intros Ht Hsz Hm He Hat i Hi. pose proof (shape_pos _ Ht) as Hp. replace (m + 1 - 1) with m by lia.
  destruct (decide (i = 0)) as [->|Hi0].
  - assert ((c + 0) mod sh_size tb = (c + 1 + (sh_size tb - 1)) mod sh_size tb) as Hmod.
    { replace (c + 1 + (sh_size tb - 1)) with (c + 0 + 1 * sh_size tb) by lia. by rewrite Z.mod_add by lia. }
    rewrite (at_periodic _ data' _ _ Hmod), Hat by lia. destruct (Z.ltb_spec (sh_size tb - 1) (m - 1)); [lia|].
    destruct (Z.eqb_spec (sh_size tb - 1) (m - 1)); [lia|]. destruct (Z.ltb_spec 0 m); [|lia].
    rewrite Z.add_0_r in *. rewrite He. by apply at_set_eq.
  - replace (c + i) with (c + 1 + (i - 1)) by lia. rewrite Hat by lia.
    replace (c + 1 + (i - 1) + 1) with (c + (i + 1)) by lia. replace (c + 1 + (i - 1)) with (c + i) by lia.
    destruct (Z.ltb_spec (i - 1) (m - 1)), (Z.ltb_spec i m); try lia; [apply at_set_other; [done|lia]|].
    destruct (Z.eqb_spec (i - 1) (m - 1)), (Z.eqb_spec i m); try lia; [done|]. apply at_set_other; [done|lia].
Qed.

(** [shift_backward] moves the run behind [c] back by one *)
Lemma shift_backward_spec tb m : ∀ data c fuel,
  sh_shape tb → sized (sh_size tb) data → (0 < m < sh_fuel tb)%nat → (m ≤ fuel)%nat →
  (∀ i, 0 < i < Z.of_nat m → settled tb (at_ (sh_size tb) data (c + i)) (c + i) = false) →
  settled tb (at_ (sh_size tb) data (c + Z.of_nat m)) (c + Z.of_nat m) = true →
  ∃ data', shift_backward fuel tb data (c mod sh_size tb) (c mod sh_size tb) = Ok data' ∧
    sized (sh_size tb) data' ∧ elems data' ≡ₚ elems (set_bucket data (c mod sh_size tb) None) ∧
    moved_back tb data data' c (Z.of_nat m).
Proof.
  induction m as [|m IH]; intros data c fuel Ht Hsz Hm Hf Hrun Hend; [lia|].
  pose proof (shape_pos _ Ht) as Hp. unfold sh_fuel in Hm. destruct fuel as [|fuel]; [lia|].
  cbn [shift_backward]. rewrite next_mod, bucket_at by done. cbn [mbind outcome_bind].
  destruct (decide (m = 0%nat)) as [->|Hm0].
  - exists (set_bucket data (c mod sh_size tb) None). change (Z.of_nat 1) with 1 in *.
    split_and!; [|by apply set_sized|done|by apply moved_back_one].
    destruct (at_ (sh_size tb) data (c + 1)) as [e|]; [|done]. simpl in Hend. rewrite initial_dist by done. by rewrite Hend.
  - assert (Hs1 := Hrun 1 ltac:(lia)). destruct (at_ (sh_size tb) data (c + 1)) as [e|] eqn:He; [|done].
    simpl in Hs1. rewrite initial_dist, Hs1 by done.
    set (data1 := set_bucket data (c mod sh_size tb) (Some e)).
    destruct (IH data1 (c + 1) fuel) as (data' & Hrun' & Hsz' & Hperm & Hat); try done.
    + by apply set_sized.
    + unfold sh_fuel. lia.
    + lia.
    + intros i Hi. replace (c + 1 + i) with (c + (i + 1)) by lia. unfold data1. rewrite at_set_other by (done || lia).
      apply Hrun. lia.
    + replace (c + 1 + Z.of_nat m) with (c + Z.of_nat (S m)) by lia. unfold data1. by rewrite at_set_other by (done || lia).
    + exists data'. split_and!; [done..| |].
      * rewrite Hperm. unfold data1. rewrite <- He. apply elems_move; [done..|].
        rewrite <- (Z.add_0_r c) at 2. apply (index_ne tb); [done|lia..].
      * replace (Z.of_nat (S m)) with (Z.of_nat m + 1) by lia. by apply (moved_back_step tb data data' c _ e); [done|done|lia|..].
Qed.

(** behind every bucket there is one where the backward shift stops *)
Lemma settled_stops tb c :
  sh_wf tb → (∃ e, tat tb c = Some e) →
  ∃ m, (0 < m < sh_fuel tb)%nat ∧ settled tb (tat tb (c + Z.of_nat m)) (c + Z.of_nat m) = true ∧
    ∀ i, 0 < i < Z.of_nat m → settled tb (tat tb (c + i)) (c + i) = false.
Proof.
  intros Hw [e He]. pose proof (shape_pos _ (wf_shape _ Hw)) as Hp. destruct (wf_empty _ Hw) as [z Hz].
  destruct (index_of (sh_size tb) Hp (c + 1) z) as (j & Hj & Hzj).
  assert (j ≠ sh_size tb - 1).
  { intros ->. rewrite (tat_periodic tb z c), He in Hz; [done|]. rewrite Hzj.
    replace (c + 1 + (sh_size tb - 1)) with (c + 1 * sh_size tb) by lia. by rewrite Z.mod_add by lia. }
  destruct (first_stop (fun q => settled tb (tat tb q) q = true) (c + 1) j) as (k & Hk & Hs & Hb); [lia| |].
  { by rewrite <- (tat_periodic tb z), Hz. }
  exists (Z.to_nat (k + 1)). unfold sh_fuel. rewrite Z2Nat.id by lia.
  replace (c + (k + 1)) with (c + 1 + k) by lia. split_and!; [lia..|done|].
  intros i Hi. apply not_true_is_false. replace (c + i) with (c + 1 + (i - 1)) by lia. apply Hb. lia.
Qed.

Lemma set_data_shape tb members data :
  sh_shape tb → sized (sh_size tb) data → sh_shape (set_data tb members data).
Proof. intros [Hp Hm _] Hs. by split. Qed.

Lemma members_uint32 tb d : sh_wf tb → 0 ≤ sh_members tb + d ≤ sh_size tb - 1 → uint32 (sh_members tb + d) = sh_members tb + d.
Proof. intros Hw Hd. pose proof (shape_bounds _ (wf_shape _ Hw)). apply Z.mod_small. lia. Qed.

Lemma delete_at tb c e :
  sh_wf tb → tat tb c = Some e →
  ∃ data, shift_backward (sh_fuel tb) tb (sh_data tb) (c mod sh_size tb) (c mod sh_size tb) = Ok data ∧
    sh_wf (set_data tb (uint32 (sh_members tb - 1)) data) ∧ elems (sh_data tb) ≡ₚ e :: elems data ∧
    ∀ i j, 0 < i → tat tb (c + i) = None → i ≤ j < sh_size tb → at_ (sh_size tb) data (c + j) = tat tb (c + j).
Proof.
  intros Hw He. pose proof (wf_shape _ Hw) as Ht. pose proof (shape_pos _ Ht) as Hp.
  destruct (settled_stops tb c Hw (ex_intro _ e He)) as (m & Hm & Hend & Hrun).
  destruct (shift_backward_spec tb m (sh_data tb) c (sh_fuel tb)) as (data & Hd & Hsz & Hperm & Hat); try done.
  { apply Ht. } { lia. }
  exists data. split; [done|].
  assert (Hel : elems (sh_data tb) ≡ₚ e :: elems data).
  { rewrite Hperm, (elems_clear (sh_size tb) Hp (sh_data tb) c) by apply Ht. unfold tat in He. by rewrite He. }
  split_and!; [|done|].
  2: { intros i j Hi Hz Hj. assert (Z.of_nat m ≤ i).
       { destruct (decide (i < Z.of_nat m)) as [Hlt|]; [|lia]. specialize (Hrun i ltac:(lia)). by rewrite Hz in Hrun. }
       rewrite Hat by lia. destruct (Z.ltb_spec j (Z.of_nat m - 1)); [lia|]. by destruct (Z.eqb_spec j (Z.of_nat m - 1)); [lia|]. }
  pose proof (wf_members _ Hw) as Hmem. rewrite Hel in Hmem. simpl in Hmem.
  pose proof (wf_room _ Hw). rewrite <- Z.add_opp_r, members_uint32 by (try done; lia). split.
  - by apply set_data_shape.
  - cbn [set_data sh_members sh_data]. lia.
  - cbn [set_data sh_members sh_size]. lia.
  - apply (wf_threshold _ Hw).
  - cbn [set_data sh_size sh_data]. unfold sh_fuel in Hm.
    eapply (rh_backward (sh_size tb) Hp (tat tb) _ c (Z.of_nat m));
      [intros a b; apply at_periodic|intros a b; apply at_periodic|apply Hw|lia|by exists e| | |exact Hat].
    + intros i Hi. specialize (Hrun i Hi). destruct (tat tb (c + i)) as [e'|]; [|done]. exists e'. split; [done|].
      simpl in Hrun. apply Z.eqb_neq in Hrun. pose proof (dist_bound (sh_size tb) Hp (c + i) e'). lia.
    + intros e' He'. rewrite He' in Hend. simpl in Hend. by apply Z.eqb_eq in Hend.
Qed.

Lemma delete_result tb h eq j :
  sh_wf tb → stops_after tb h eq j →
  match tat tb (h + Z.of_nat j) with
  | None => SH_DELETE tb h eq = Ok (tb, false)
  | Some e => ∃ tb', SH_DELETE tb h eq = Ok (tb', true) ∧ sh_wf tb' ∧ elems (sh_data tb) ≡ₚ e :: elems (sh_data tb')
                     ∧ compare_keys h eq e = true
  end.
Proof.
  intros Hw (Hj & Hs & Hb). pose proof (wf_shape _ Hw) as Ht. unfold SH_DELETE. rewrite initial_mod by done.
  destruct (search_walk (fun fuel => delete_search fuel tb h eq) (stops tb h eq) tb h j) with (sh_fuel tb)
    as [fuel' ->]; [|done..|].
  - intros fuel p Hp. cbn [delete_search]. rewrite tbucket by done. cbn [mbind outcome_bind].
    unfold stops in Hp. destruct (tat tb p) as [e|]; [|done]. by rewrite Hp, next_mod.
  - cbn [delete_search]. rewrite tbucket by done. cbn [mbind outcome_bind]. unfold stops in Hs.
    destruct (tat tb (h + Z.of_nat j)) as [e|] eqn:He; [|done]. rewrite Hs.
    destruct (delete_at tb _ e Hw He) as (data & -> & Hw' & Hel & _). by eexists.
Qed.

(** ** Inserting *)

(** a bucket the search for a place passes, [i] buckets behind the optimal one *)
Definition passed tb (h : Z) (eq : K → bool) (i : Z) : Prop :=
  ∃ e, tat tb (h + i) = Some e ∧ compare_keys h eq e = false ∧ i ≤ dist (sh_size tb) (h + i) e.

Definition probe_post tb (h : Z) (eq : K → bool) (j : Z) (r : insert_probe_result) : Prop :=
  match r with
  | InsertAt q => q = (h + j) mod sh_size tb ∧ tat tb (h + j) = None
  | FoundAt q => q = (h + j) mod sh_size tb ∧ ∃ e, tat tb (h + j) = Some e ∧ compare_keys h eq e = true
  | ShiftAt q => q = (h + j) mod sh_size tb ∧
      ∃ e, tat tb (h + j) = Some e ∧ compare_keys h eq e = false ∧ dist (sh_size tb) (h + j) e < j
  | Restart => filled_enough (sh_members tb) (sh_size tb) = true
  end.

Lemma insert_probe_from tb h eq m k : ∀ j fuel,
  sh_shape tb → tat tb (h + m) = None → (∀ i, 0 ≤ i < m → ∃ e, tat tb (h + i) = Some e) →
  0 ≤ j → j + Z.of_nat k = m → (k < fuel)%nat → (∀ i, 0 ≤ i < j → passed tb h eq i) →
  ∃ j' r, insert_probe fuel tb h eq ((h + j) mod sh_size tb) j = Ok r ∧ 0 ≤ j' ≤ m ∧
    (∀ i, 0 ≤ i < j' → passed tb h eq i) ∧ probe_post tb h eq j' r.
Proof.
  induction k as [|k IH]; intros j fuel Ht Hz Hocc Hj Hjk Hf Hpass; (destruct fuel as [|fuel]; [lia|]);
    cbn [insert_probe]; rewrite tbucket by done; cbn [mbind outcome_bind].
  { replace j with m in * by lia. rewrite Hz. exists m, (InsertAt ((h + m) mod sh_size tb)). by split_and!; [|lia..| |]. }
  destruct (Hocc j) as [e He]; [lia|]. rewrite He.
  destruct (compare_keys h eq e) eqn:Hc.
  { exists j, (FoundAt ((h + j) mod sh_size tb)). split_and!; [done|lia..|done|split; [done|by exists e]]. }
  rewrite distance_dist by done. destruct (Z.gtb_spec j (dist (sh_size tb) (h + j) e)) as [Hgt|Hle].
  { exists j, (ShiftAt ((h + j) mod sh_size tb)). split_and!; [done|lia..|done|split; [done|by exists e]]. }
  assert (Hpass' : ∀ i, 0 ≤ i < j + 1 → passed tb h eq i).
  { intros i Hi. destruct (decide (i = j)) as [->|]; [by exists e|]. apply Hpass. lia. }
  destruct ((j + 1 >? SH_GROW_MAX_DIB) && filled_enough (sh_members tb) (sh_size tb)) eqn:Hr.
  { exists (j + 1), Restart. split_and!; [done|lia..|done|]. by apply andb_prop in Hr as [_ ?]. }
  rewrite next_mod by done. replace (h + j + 1) with (h + (j + 1)) by lia. apply IH; [done..|lia|lia|lia|done].
Qed.

Lemma insert_probe_spec tb h eq :
  sh_wf tb →
  ∃ j r, insert_probe (sh_fuel tb) tb h eq (SH_INITIAL_BUCKET tb h) 0 = Ok r ∧ 0 ≤ j < sh_size tb ∧
    (∀ i, 0 ≤ i < j → passed tb h eq i) ∧ probe_post tb h eq j r.
Proof.
  intros Hw. pose proof (wf_shape _ Hw) as Ht. pose proof (shape_pos _ Ht) as Hp. destruct (wf_empty _ Hw) as [z Hz].
  destruct (first_empty (sh_size tb) Hp (tat tb) z h) as (m & Hm & Hmz & Hocc); [intros a b; apply tat_periodic|done|].
  rewrite initial_mod by done. replace (h mod sh_size tb) with ((h + 0) mod sh_size tb) by by rewrite Z.add_0_r.
  destruct (insert_probe_from tb h eq m (Z.to_nat m) 0 (sh_fuel tb)) as (j & r & Hr & Hj & Hpass & Hpost);
    [done..|lia|lia|unfold sh_fuel; lia|intros; lia|].
  exists j, r. split_and!; [done|lia..|done|done].
Qed.

Lemma find_empty_spec tb c k : ∀ fuel d m,
  sh_shape tb → 0 < m → Z.of_nat k = m → (k ≤ fuel)%nat →
  tat tb (c + m) = None → (∀ i, 0 < i < m → ∃ e, tat tb (c + i) = Some e) →
  ∃ r, find_empty fuel tb (c mod sh_size tb) d = Ok r ∧
    match r with
    | Some q => q = (c + m) mod sh_size tb
    | None => filled_enough (sh_members tb) (sh_size tb) = true
    end.
Proof.
  revert c; induction k as [|k IH]; intros c fuel d m Ht Hm Hk Hf Hz Hocc; [lia|]. destruct fuel as [|fuel]; [lia|].
  cbn [find_empty]. rewrite next_mod, tbucket by done. cbn [mbind outcome_bind].
  destruct (decide (m = 1)) as [->|Hm1]; [rewrite Hz; by eexists|].
  destruct (Hocc 1) as [e ->]; [lia|].
  destruct ((d + 1 >? SH_GROW_MAX_MOVE) && filled_enough (sh_members tb) (sh_size tb)) eqn:Hr.
  { exists None. split; [done|]. by apply andb_prop in Hr as [_ ?]. }
  destruct (IH (c + 1) fuel (d + 1) (m - 1)) as (r & Hrun & Hpost); [done|lia..| | |].
  - by replace (c + 1 + (m - 1)) with (c + m) by lia.
  - intros i Hi. replace (c + 1 + i) with (c + (i + 1)) by lia. apply Hocc. lia.
  - exists r. split; [done|]. destruct r; [|done]. rewrite Hpost. f_equal. lia.
Qed.

Lemma shift_forward_spec tb c m : ∀ data fuel,
  sh_shape tb → sized (sh_size tb) data → (m < sh_fuel tb)%nat → (m ≤ fuel)%nat →
  ∃ data', shift_forward fuel tb data ((c + Z.of_nat m) mod sh_size tb) (c mod sh_size tb) = Ok data' ∧
    sized (sh_size tb) data' ∧
    elems (set_bucket data' (c mod sh_size tb) None) ≡ₚ elems (set_bucket data ((c + Z.of_nat m) mod sh_size tb) None) ∧
    ∀ i, 0 < i < sh_size tb →
      at_ (sh_size tb) data' (c + i) =
        if i <=? Z.of_nat m then at_ (sh_size tb) data (c + i - 1) else at_ (sh_size tb) data (c + i).
Proof.
  induction m as [|m IH]; intros data fuel Ht Hsz Hm Hf; pose proof (shape_pos _ Ht) as Hp; unfold sh_fuel in Hm.
  - exists data. rewrite Z.add_0_r. split_and!; [by destruct fuel; cbn [shift_forward]; rewrite Z.eqb_refl|done..|].
    intros i Hi. by destruct (Z.leb_spec i (Z.of_nat 0)); [lia|].
  - destruct fuel as [|fuel]; [lia|]. cbn [shift_forward].
    assert (Hne : ∀ i j, 0 ≤ i < sh_size tb → 0 ≤ j < sh_size tb → i ≠ j → (c + i) mod sh_size tb ≠ (c + j) mod sh_size tb)
      by (intros; by apply (index_ne tb)).
    destruct (Z.eqb_spec ((c + Z.of_nat (S m)) mod sh_size tb) (c mod sh_size tb)) as [Heq|_].
    { rewrite <- (Z.add_0_r c) in Heq at 2. by destruct (Hne (Z.of_nat (S m)) 0 ltac:(lia) ltac:(lia) ltac:(lia)). }
    rewrite prev_mod, bucket_at by done. cbn [mbind outcome_bind].
    replace (c + Z.of_nat (S m) - 1) with (c + Z.of_nat m) by lia.
    set (data1 := set_bucket data ((c + Z.of_nat (S m)) mod sh_size tb) (at_ (sh_size tb) data (c + Z.of_nat m))).
    destruct (IH data1 fuel) as (data' & Hrun & Hsz' & Hperm & Hat); [done|by apply set_sized|unfold sh_fuel; lia|lia|].
    exists data'. split_and!; [done..| |].
    + rewrite Hperm. apply elems_move; [done..|]. apply Hne; lia.
    + assert (Hkeep : ∀ i, 0 ≤ i < sh_size tb → i ≠ Z.of_nat (S m) → at_ (sh_size tb) data1 (c + i) = at_ (sh_size tb) data (c + i)).
      { intros i Hi Hi'. apply at_set_ne; [done|]. apply Hne; lia. }
      intros i Hi. rewrite Hat by done. destruct (Z.leb_spec i (Z.of_nat m)), (Z.leb_spec i (Z.of_nat (S m))); try lia.
      * replace (c + i - 1) with (c + (i - 1)) by lia. apply Hkeep; lia.
      * replace i with (Z.of_nat (S m)) by lia. replace (c + Z.of_nat (S m) - 1) with (c + Z.of_nat m) by lia. by apply at_set_eq.
      * apply Hkeep; lia.
Qed.

(** the new element in front of a shifted run of [m] buckets *)
Lemma place_spec tb h k eq j (m : nat) data :
  sh_wf tb → sh_members tb + 1 < sh_size tb → 0 ≤ j < sh_size tb → (∀ i, 0 ≤ i < j → passed tb h eq i) →
  (m < sh_fuel tb)%nat → tat tb (h + j + Z.of_nat m) = None →
  (∀ i, 0 ≤ i < Z.of_nat m → ∃ e, tat tb (h + j + i) = Some e) →
  (∀ e, (0 < m)%nat → tat tb (h + j) = Some e → dist (sh_size tb) (h + j) e < j) →
  shift_forward (sh_fuel tb) tb (sh_data tb) ((h + j + Z.of_nat m) mod sh_size tb) ((h + j) mod sh_size tb) = Ok data →
  let tb' := fill_bucket tb data ((h + j) mod sh_size tb) h k in
  sh_wf tb' ∧ elems (sh_data tb') ≡ₚ (h, k) :: elems (sh_data tb) ∧ sh_size tb' = sh_size tb
  ∧ sh_members tb' = sh_members tb + 1.
Proof.
  intros Hw Hroom Hj Hpass Hm Hz Hocc Hfirst Hsh tb'. pose proof (wf_shape _ Hw) as Ht. pose proof (shape_pos _ Ht) as Hp.
  destruct (shift_forward_spec tb (h + j) m (sh_data tb) (sh_fuel tb)) as (data' & Hsh' & Hsz & Hperm & Hat);
    [done|apply Ht|done|lia|]. rewrite Hsh in Hsh'. injection Hsh' as <-.
  assert (Hel : elems (sh_data tb') ≡ₚ (h, k) :: elems (sh_data tb)).
  { cbn [tb' fill_bucket set_data sh_data]. rewrite elems_fill, Hperm by done. f_equiv.
    rewrite (elems_clear (sh_size tb) Hp (sh_data tb) (h + j + Z.of_nat m)) by apply Ht. unfold tat in Hz. by rewrite Hz. }
  pose proof (wf_members _ Hw) as Hmem.
  assert (Hmem' : sh_members tb' = sh_members tb + 1).
  { cbn [tb' fill_bucket set_data sh_members]. apply members_uint32; [done|lia]. }
  split_and!; [|done..]. split.
  - by apply set_data_shape, set_sized.
  - rewrite Hel, Hmem'. simpl. lia.
  - rewrite Hmem'. cbn [tb' fill_bucket set_data sh_size]. lia.
  - apply (wf_threshold _ Hw).
  - cbn [tb' fill_bucket set_data sh_size sh_data]. unfold sh_fuel in Hm.
    assert (Hdist : dist (sh_size tb) (h + j) (h, k) = j).
    { unfold dist. simpl. replace (h + j - h) with j by lia. by apply Z.mod_small. }
    eapply (rh_forward (sh_size tb) Hp (tat tb) _ (h + j) (Z.of_nat m) (h, k));
      [intros a b; apply tat_periodic|intros a b; apply at_periodic|apply Hw|lia|done|done| | |].
    + rewrite Hdist. intros Hj0. destruct (Hpass (j - 1)) as (e & He & _ & Hle); [lia|].
      replace (h + (j - 1)) with (h + j - 1) in * by lia. exists e. split; [done|lia].
    + rewrite Hdist. intros e Hm0 He. apply Hfirst; [lia|done].
    + intros i Hi. destruct (Z.eqb_spec i 0) as [->|Hi0]; [by apply at_set_eq; [..|by rewrite Z.add_0_r]|].
      rewrite at_set_ne; [apply Hat; lia|done|]. rewrite <- (Z.add_0_r (h + j)) at 2. apply (index_ne tb); [done|lia..].
Qed.

(** the run that has to be shifted *)
Lemma run_behind tb c :
  sh_wf tb → (∃ e, tat tb c = Some e) →
  ∃ m, 0 < m < sh_size tb ∧ tat tb (c + m) = None ∧ ∀ i, 0 ≤ i < m → ∃ e, tat tb (c + i) = Some e.
Proof.
  intros Hw [e He]. pose proof (shape_pos _ (wf_shape _ Hw)) as Hp. destruct (wf_empty _ Hw) as [z Hz].
  destruct (first_empty (sh_size tb) Hp (tat tb) z c) as (m & Hm & Hmz & Hocc); [intros a b; apply tat_periodic|done|].
  exists m. split_and!; [|lia|done..]. destruct (decide (m = 0)) as [->|]; [|lia]. rewrite Z.add_0_r in Hmz. congruence.
Qed.

(** what an insertion does: the key is there, or is added *)
Definition insert_post tb (h : Z) (k : K) (eq : K → bool) (r : SH_TYPE K * Z * bool) : Prop :=
  let '(tb', q, found) := r in
  sh_wf tb' ∧
  if found : bool then
    elems (sh_data tb') ≡ₚ elems (sh_data tb) ∧ ∃ k', bucket (sh_data tb') q = Ok (Some (h, k')) ∧ eq k' = true
  else
    elems (sh_data tb') ≡ₚ (h, k) :: elems (sh_data tb) ∧ bucket (sh_data tb') q = Ok (Some (h, k))
    ∧ ∀ k', (h, k') ∈ elems (sh_data tb) → eq k' = false.

(** a key that is in the table would have been met by the search *)
Lemma probe_complete tb h eq j k :
  sh_wf tb → 0 ≤ j → (∀ i, 0 ≤ i < j → passed tb h eq i) →
  (∀ e, tat tb (h + j) = Some e → dist (sh_size tb) (h + j) e < j) →
  (h, k) ∈ elems (sh_data tb) → eq k = false.
Proof.
  intros Hw Hj Hpass Hend Hin. destruct (home_complete tb h k j Hw Hj Hend Hin) as (d & Hd & He).
  destruct (Hpass d Hd) as (e & He' & Hc & _). rewrite He in He'. injection He' as <-.
  unfold compare_keys in Hc. simpl in Hc. by rewrite Z.eqb_refl in Hc.
Qed.

Lemma fill_at tb data c h k :
  sh_shape tb → sized (sh_size tb) data →
  bucket (sh_data (fill_bucket tb data (c mod sh_size tb) h k)) (c mod sh_size tb) = Ok (Some (h, k)).
Proof.
  intros Ht Hs. pose proof (shape_pos _ Ht). cbn [fill_bucket set_data sh_size sh_data].
  rewrite (bucket_at (sh_size tb)) by (try done; by apply set_sized). by rewrite at_set_eq.
Qed.

(** one round of an insertion, behind the check for growing *)
Lemma insert_round tb0 tb h k eq fuel :
  insert_grow tb0 = Ok tb → sh_wf tb → sh_members tb + 1 < sh_size tb →
  (∃ r, SH_INSERT_HASH_INTERNAL (S fuel) tb0 k h eq = Ok r ∧ insert_post tb h k eq r) ∨
  (filled_enough (sh_members tb) (sh_size tb) = true ∧
   SH_INSERT_HASH_INTERNAL (S fuel) tb0 k h eq = SH_INSERT_HASH_INTERNAL fuel (reset_threshold tb) k h eq).
Proof.
  intros Hgrow Hw Hroom. pose proof (wf_shape _ Hw) as Ht. cbn [SH_INSERT_HASH_INTERNAL]. rewrite Hgrow. cbn [mbind outcome_bind].
  destruct (insert_probe_spec tb h eq Hw) as (j & r & -> & Hj & Hpass & Hpost). cbn [mbind outcome_bind].
  destruct r as [q|q|q|]; simpl in Hpost; [left|left| |by right].
  - destruct Hpost as [-> Hz]. eexists. split; [done|].
    destruct (place_spec tb h k eq j 0 (sh_data tb)) as (Hw' & Hel & _); try done.
    + unfold sh_fuel. lia.
    + by rewrite Z.add_0_r.
    + intros i Hi. lia.
    + intros; lia.
    + rewrite Z.add_0_r. destruct (sh_fuel tb); cbn [shift_forward]; by rewrite Z.eqb_refl.
    + split_and!; [done..|apply fill_at; [done|apply Ht]|]. intros k'. apply (probe_complete tb h eq j); try done; [lia|congruence].
  - destruct Hpost as [-> ([h' k'] & He & Hc)]. eexists. split; [done|]. split; [done|]. split; [done|].
    apply andb_prop in Hc as [Hh%Z.eqb_eq Hc]. simpl in Hh. subst h'. exists k'. by rewrite tbucket, He.
  - destruct Hpost as [-> (e & He & Hc & Hd)]. destruct (run_behind tb (h + j) Hw (ex_intro _ e He)) as (m & Hm & Hmz & Hocc).
    destruct (find_empty_spec tb (h + j) (Z.to_nat m) (sh_fuel tb) 0 m) as (x & -> & Hx);
      [done|lia..|unfold sh_fuel; lia|done|intros; apply Hocc; lia|].
    cbn [mbind outcome_bind]. destruct x as [q|]; [|right; done]. subst q. left.
    destruct (shift_forward_spec tb (h + j) (Z.to_nat m) (sh_data tb) (sh_fuel tb)) as (data & Hsh & Hsz & _);
      [done|apply Ht|unfold sh_fuel; lia..|]. rewrite Z2Nat.id in Hsh by lia. rewrite Hsh. cbn [mbind outcome_bind].
    eexists. split; [done|].
    destruct (place_spec tb h k eq j (Z.to_nat m) data) as (Hw' & Hel & _); rewrite ?Z2Nat.id by lia; try done.
    + unfold sh_fuel. lia.
    + intros e' _ He'. congruence.
    + split_and!; [done..|by apply fill_at|]. intros k'. apply (probe_complete tb h eq j); try done; [lia|congruence].
Qed.
End Table.

(** * Growing the hash table

    The elements are copied in the order of the old buckets, each into the
    first empty bucket from its optimal one on.  Bucket numbers of the new
    table are related to those of the old one by their shadow: the number in
    the period that starts at the first bucket that is copied.  An element
    never gets behind the shadow of its old bucket, and the copied elements are
    ordered by their optimal buckets, hence the invariant holds again. *)

Section Copy.
Context {K : Type}.
Context (n N s : Z) (Hn : 0 < n) (HN : 0 < N) (Hdiv : (n | N)).
Context (f : Z → option (Z * K)).
Context (Hf : periodic n f) (Hrh : rh n f).
(** the first bucket is empty or holds an element at its optimal position *)
Context (Hstart : ∀ e, f s = Some e → dist n s e = 0).

Implicit Types (e : Z * K) (g : Z → option (Z * K)).

Definition shadow (q : Z) : Z := s + (q - s) mod n.

Lemma shadow_bound q : s ≤ shadow q < s + n.
Proof. unfold shadow. pose proof (Z.mod_pos_bound (q - s) n Hn). lia. Qed.

Lemma mod_N_n a b : a mod N = b mod N → a mod n = b mod n.
Proof.
  intros Hab. destruct Hdiv as [q Hq]. rewrite (Z.div_mod a N), (Z.div_mod b N), Hab by lia.
  rewrite Hq, !(Z.mul_comm (q * n)), !Z.mul_assoc, !(Z.add_comm (_ * n)), !Z.mod_add by lia. done.
Qed.

Lemma shadow_periodic a b : a mod N = b mod N → shadow a = shadow b.
Proof. intros Hab%mod_N_n. unfold shadow. by rewrite (Zminus_mod a), (Zminus_mod b), Hab. Qed.

Lemma shadow_add q i : 0 ≤ i → shadow q + i < s + n → shadow (q + i) = shadow q + i.
Proof.
  unfold shadow. intros Hi Hlt. pose proof (Z.mod_pos_bound (q - s) n Hn).
  replace (q + i - s) with (q - s + i) by lia. rewrite <- Zplus_mod_idemp_l. rewrite Z.mod_small; lia.
Qed.

(** the optimal bucket of the element in bucket [p] *)
Definition home (p : Z) e : Z := p - dist n p e.

(** the old elements do not reach back behind the first bucket *)
Lemma home_start p e : s ≤ p < s + n → f p = Some e → s ≤ home p e ≤ p.
Proof.
  intros Hp He. unfold home. pose proof (dist_bound n Hn p e). split; [|lia].
  destruct (Z.le_gt_cases (dist n p e) (p - s)) as [|Hgt]; [lia|].
  destruct (rh_chain n f p e Hrh He (p - s)) as (e' & He' & Hd); [lia|]. replace (p - (p - s)) with s in * by lia.
  specialize (Hstart e' He'). lia.
Qed.

(** and are ordered by their optimal buckets *)
Lemma home_mono p p' e e' : p ≤ p' → f p = Some e → f p' = Some e' → home p e ≤ home p' e'.
Proof.
  intros Hp He He'. unfold home. pose proof (dist_bound n Hn p e).
  destruct (Z.le_gt_cases (p' - p) (dist n p' e')) as [Hle|Hgt]; [|lia].
  destruct (rh_chain n f p' e' Hrh He' (p' - p)) as (e2 & He2 & Hd); [lia|]. replace (p' - (p' - p)) with p in * by lia.
  rewrite He in He2. injection He2 as <-. lia.
Qed.

(** ** The loop *)

(** the new table when the old buckets from [s] up to [c] have been copied *)
Record copied (c : Z) g : Prop := {
  co_periodic : periodic N g;
  co_rh : rh N g;
  co_lane q e : g q = Some e → s ≤ shadow q - dist N q e ∧ shadow q < c;
  co_sorted q e p e' : g q = Some e → c ≤ p < s + n → f p = Some e' → shadow q - dist N q e ≤ home p e'
}.

Lemma copied_start : copied s (fun _ => None).
Proof. by split. Qed.

Lemma copied_skip c g : copied c g → copied (c + 1) g.
Proof.
  intros [Hp Hr Hl Hs]. split; [done..| |].
  - intros q e Hq. destruct (Hl q e Hq). lia.
  - intros q e p e' Hq Hpr. apply (Hs q e p e' Hq). lia.
Qed.

Lemma shadow_home c e : s ≤ c < s + n → f c = Some e → shadow e.1 = home c e.
Proof.
  intros Hc He. pose proof (home_start c e Hc He) as Hh. unfold shadow. unfold home, dist in *.
  enough (c - (c - e.1) mod n - s = (e.1 - s) mod n) by lia.
  pose proof (Z.div_mod (c - e.1) n ltac:(lia)). apply (Z.mod_unique _ _ (- ((c - e.1) / n))); lia.
Qed.

(** the first empty bucket for the element of bucket [c] *)
Lemma copy_place c g e :
  copied c g → s ≤ c < s + n → f c = Some e →
  ∃ j, 0 ≤ j < n ∧ g (e.1 + j) = None ∧ (∀ i, 0 ≤ i < j → ∃ e', g (e.1 + i) = Some e') ∧ home c e + j ≤ c.
Proof.
  intros Hg Hc He. pose proof (home_start c e Hc He) as Hh.
  destruct (first_stop (fun p => g p = None) e.1 (c - home c e)) as (j & Hj & Hs & Hb); [lia| |].
  { destruct (g (e.1 + (c - home c e))) as [e'|] eqn:He'; [|done]. exfalso.
    destruct (co_lane _ _ Hg _ _ He') as [_ Hlt]. rewrite shadow_add, (shadow_home c e Hc He) in Hlt; [lia..|].
    rewrite (shadow_home c e Hc He). lia. }
  exists j. split_and!; [lia|lia|done| |lia].
  intros i Hi. specialize (Hb i Hi). by destruct (g (e.1 + i)); [eexists|].
Qed.

Lemma copy_step c g g' e j :
  copied c g → s ≤ c < s + n → f c = Some e → n ≤ N →
  0 ≤ j < n → g (e.1 + j) = None → (∀ i, 0 ≤ i < j → ∃ e', g (e.1 + i) = Some e') → home c e + j ≤ c →
  periodic N g' → (∀ q, q mod N = (e.1 + j) mod N → g' q = Some e) →
  (∀ q, q mod N ≠ (e.1 + j) mod N → g' q = g q) →
  copied (c + 1) g'.
Proof.
  intros Hg Hc He HnN Hj Hz Hocc Hle Hper Hnew Hold. pose proof (home_start c e Hc He) as Hh.
  assert (Hsh : ∀ i, 0 ≤ i ≤ j → shadow (e.1 + i) = home c e + i).
  { intros i Hi. by rewrite shadow_add, (shadow_home c e Hc He); rewrite ?(shadow_home c e Hc He); lia. }
  assert (Hdist : dist N (e.1 + j) e = j).
  { unfold dist. replace (e.1 + j - e.1) with j by lia. apply Z.mod_small. lia. }
  assert (Hlane : ∀ q e', g' q = Some e' →
            (g q = Some e') ∨ (e' = e ∧ shadow q = home c e + j ∧ dist N q e' = j)).
  { intros q e' Hq. destruct (decide (q mod N = (e.1 + j) mod N)) as [Hqe|Hqe].
    - right. rewrite Hnew in Hq by done. injection Hq as <-. rewrite (shadow_periodic _ _ Hqe), (dist_periodic _ _ _ e Hqe).
      split_and!; [done|apply Hsh; lia|done].
    - left. by rewrite <- Hold. }
  split; [done| | |].
  - eapply (rh_forward N HN g g' (e.1 + j) 0 e); [apply Hg|done|apply Hg|lia|by rewrite Z.add_0_r|intros; lia| |intros; lia|].
    + rewrite Hdist. intros Hj0. destruct (Hocc (j - 1)) as [e' He']; [lia|]. exists e'.
      replace (e.1 + j - 1) with (e.1 + (j - 1)) by lia. split; [done|].
      pose proof (co_sorted _ _ Hg _ _ c e He' ltac:(lia) He) as Hs. rewrite Hsh in Hs by lia. lia.
    + intros i Hi. destruct (Z.eqb_spec i 0) as [->|Hi0]; [apply Hnew; by rewrite Z.add_0_r|].
      destruct (Z.leb_spec i 0); [lia|]. apply Hold. intros Heq. apply Hi0.
      apply (index_inj N HN (e.1 + j) i 0); [lia..|]. by rewrite Z.add_0_r.
  - intros q e' Hq. destruct (Hlane q e' Hq) as [Hgq|(-> & -> & ->)]; [destruct (co_lane _ _ Hg q e' Hgq)|]; lia.
  - intros q e' p e'' Hq Hp Hfp. destruct (Hlane q e' Hq) as [Hgq|(-> & -> & ->)].
    + apply (co_sorted _ _ Hg q e' p e'' Hgq); [lia|done].
    + pose proof (home_mono c p e e'' ltac:(lia) He Hfp). lia.
Qed.
End Copy.

(** ** The elements in the order of the buckets *)

Section Elements.
Context {K : Type} (n : Z) (Hn : 0 < n).

Lemma omap_fmap {A B C} (g : B → option C) (h : A → B) (l : list A) : omap g (h <$> l) = omap (g ∘ h) l.
Proof. induction l as [|x l IH]; [done|]. cbn. rewrite <- IH. done. Qed.

Lemma elems_empty m : elems (repeat (@None (Z * K)) m) = [].
Proof. by induction m. Qed.

Lemma elems_seqZ (data : list (option (Z * K))) : sized n data → elems data = omap (at_ n data) (seqZ 0 n).
Proof.
  intros Hs. unfold elems. transitivity (omap id ((fun p => at_ n data p) <$> seqZ 0 n)); [|by rewrite omap_fmap].
  f_equal. apply list_eq. intros i. rewrite list_lookup_fmap. unfold sized in Hs.
  destruct (decide (Z.of_nat i < n)) as [Hi|Hi].
  - rewrite lookup_seqZ_lt by done. cbn [fmap option_fmap option_map]. unfold at_. rewrite Z.add_0_l, Z.mod_small, Nat2Z.id by lia.
    destruct (lookup_lt_is_Some_2 data i) as [x ->]; [lia|]. by destruct x.
  - rewrite lookup_seqZ_ge by lia. apply lookup_ge_None. lia.
Qed.

Lemma elems_rotate (data : list (option (Z * K))) s :
  sized n data → 0 ≤ s < n → elems data ≡ₚ omap (at_ n data) (seqZ s n).
Proof.
  intros Hd Hs. rewrite elems_seqZ by done.
  replace n with (s + (n - s)) at 2 by lia. replace n with ((n - s) + s) at 4 by lia.
  rewrite !seqZ_app by lia. rewrite !omap_app, (Permutation_app_comm (omap _ (seqZ 0 s))). rewrite Z.add_0_l. f_equiv.
  replace (s + (n - s)) with (n + 0) by lia. rewrite <- fmap_add_seqZ, omap_fmap. apply reflexive_eq, list_omap_ext.
  apply Forall2_same_length_lookup. split; [done|]. intros i x y Hx Hy. rewrite Hx in Hy. injection Hy as <-. cbn.
  apply at_periodic. replace (n + x) with (x + 1 * n) by lia. by rewrite Z.mod_add by lia.
Qed.
End Elements.

(** ** The table *)

Section Grow.
Context {K : Type}.
Implicit Types (tb : SH_TYPE K).

Lemma compute_size_pow k : 1 ≤ k ≤ 32 → SH_COMPUTE_SIZE (2 ^ k) = Ok (2 ^ k).
Proof.
  intros Hk. unfold SH_COMPUTE_SIZE, pg_nextpower2_64.
  assert (Hb : 2 ≤ 2 ^ k ≤ 2 ^ 32) by (split; [change 2 with (2 ^ 1) at 1|]; apply Z.pow_le_mono_r; lia).
  rewrite Z.max_l by lia. replace (2 ^ k - 1) with (Z.ones k) by (rewrite Z.ones_equiv; lia).
  rewrite Z.land_ones, Z.mod_same by lia. cbn [Z.eqb].
  destruct (Z.geb_spec (sizeof_element * 2 ^ k) (ULONG_MAX / 2)) as [Hge|]; [|done].
  unfold sizeof_element in Hge. change (ULONG_MAX / 2) with 9223372036854775807 in Hge. lia.
Qed.

Lemma update_parameters tb k :
  1 ≤ k ≤ 32 →
  SH_UPDATE_PARAMETERS tb (2 ^ k) = Ok (mkSH (2 ^ k) (sh_members tb) (2 ^ k - 1) (threshold_of (2 ^ k)) (sh_data tb)).
Proof.
  intros Hk. unfold SH_UPDATE_PARAMETERS. rewrite compute_size_pow by done. cbn [mbind outcome_bind].
  assert (Hb : 2 ≤ 2 ^ k ≤ 2 ^ 32) by (split; [change 2 with (2 ^ 1) at 1|]; apply Z.pow_le_mono_r; lia).
  unfold uint32. by rewrite Z.mod_small by lia.
Qed.

(** where copying starts *)
Lemma grow_start_spec tb tbn k : ∀ i,
  sh_shape tb → sh_shape tbn → (sh_size tb | sh_size tbn) → 0 ≤ i →
  i + Z.of_nat k = sh_size tb → (∃ z, i ≤ z < sh_size tb ∧ tat tb z = None) →
  ∃ s, grow_start k tbn (sh_data tb) i = Ok s ∧ 0 ≤ s < sh_size tb ∧
    ∀ e, tat tb s = Some e → dist (sh_size tb) s e = 0.
Proof.
  induction k as [|k IH]; intros i Ht Htn Hdiv Hi Hk (z & Hz & Hze); [lia|]. pose proof (shape_pos _ Ht) as Hp.
  pose proof (tbucket tb i Ht) as Hb. rewrite Z.mod_small in Hb by lia.
  cbn [grow_start]. rewrite Hb. cbn [mbind outcome_bind].
  destruct (tat tb i) as [[h key]|] eqn:Hi'; [|exists i; split_and!; [done|lia..|congruence]].
  rewrite initial_mod by done. destruct (Z.eqb_spec (h mod sh_size tbn) i) as [Heq|Hne].
  - exists i. split_and!; [done|lia..|]. intros e He. rewrite Hi' in He. injection He as <-.
    unfold dist. simpl. assert (Hm : i mod sh_size tb = h mod sh_size tb).
    { apply (mod_N_n (sh_size tb) (sh_size tbn) Hp (shape_pos _ Htn) Hdiv). rewrite <- Heq. apply Z.mod_mod.
      pose proof (shape_pos _ Htn). lia. }
    by rewrite Zminus_mod, Hm, Z.sub_diag, Zmod_0_l.
  - apply IH; try done; [lia..|]. exists z. split; [|done]. destruct (decide (z = i)) as [->|]; [congruence|lia].
Qed.

Lemma grow_probe_spec tb h j :
  sh_shape tb → 0 ≤ j < sh_size tb → tat tb (h + j) = None → (∀ i, 0 ≤ i < j → ∃ e, tat tb (h + i) = Some e) →
  grow_probe (sh_fuel tb) tb (SH_INITIAL_BUCKET tb h) = Ok ((h + j) mod sh_size tb).
Proof.
  intros Ht Hj Hz Hocc. rewrite initial_mod by done.
  destruct (search_walk (fun fuel => grow_probe fuel tb) (fun p => bool_decide (tat tb p = None)) tb h (Z.to_nat j))
    with (sh_fuel tb) as [fuel' ->].
  - intros fuel p Hp%bool_decide_eq_false. cbn [grow_probe]. rewrite tbucket by done. cbn [mbind outcome_bind].
    destruct (tat tb p); [|done]. by rewrite next_mod.
  - intros i Hi. apply bool_decide_eq_false. destruct (Hocc (Z.of_nat i)) as [e ->]; [lia|done].
  - unfold sh_fuel. lia.
  - cbn [grow_probe]. rewrite tbucket, Z2Nat.id by (done || lia). cbn [mbind outcome_bind]. by rewrite Hz.
Qed.

Lemma next_copyelem n c :
  0 < n < 2 ^ 32 →
  (if uint32 (c mod n + 1) >=? n then 0 else uint32 (c mod n + 1)) = (c + 1) mod n.
Proof.
  intros Hn. pose proof (Z.mod_pos_bound c n ltac:(lia)). unfold uint32. rewrite (Z.mod_small (c mod n + 1)) by lia.
  rewrite <- Zplus_mod_idemp_l. rewrite Z.geb_leb. destruct (Z.leb_spec n (c mod n + 1)).
  - replace (c mod n + 1) with n by lia. by rewrite Z.mod_same by lia.
  - by rewrite (Z.mod_small (c mod n + 1) n) by lia.
Qed.

(** the parameters of a table *)
Definition same_params tb tb' : Prop :=
  sh_size tb' = sh_size tb ∧ sh_members tb' = sh_members tb ∧ sh_grow_threshold tb' = sh_grow_threshold tb.

Section Loop.
Context (tb : SH_TYPE K) (N s : Z).
Context (Hw : sh_wf tb) (Hsmall : sh_size tb < 2 ^ 32) (HnN : sh_size tb ≤ N) (Hdiv : (sh_size tb | N)).
Context (Hs : 0 ≤ s < sh_size tb) (Hstart : ∀ e, tat tb s = Some e → dist (sh_size tb) s e = 0).

(** one element *)
Lemma grow_copy_one c h k tbn :
  s ≤ c < s + sh_size tb → sh_shape tbn → sh_size tbn = N →
  copied (sh_size tb) N s (tat tb) c (tat tbn) → tat tb c = Some (h, k) →
  ∃ cur, grow_probe (sh_fuel tbn) tbn (SH_INITIAL_BUCKET tbn h) = Ok cur ∧
    let tbn' := set_data tbn (sh_members tbn) (set_bucket (sh_data tbn) cur (Some (h, k))) in
    sh_shape tbn' ∧ copied (sh_size tb) N s (tat tb) (c + 1) (tat tbn') ∧
    elems (sh_data tbn') ≡ₚ (h, k) :: elems (sh_data tbn).
Proof.
  intros Hc Htn HN Hco He. pose proof (shape_pos _ (wf_shape _ Hw)) as Hp. pose proof (shape_pos _ Htn) as Hpn.
  destruct (copy_place (sh_size tb) N s Hp (tat tb) (wf_rh _ Hw) Hstart c (tat tbn) (h, k) Hco Hc He)
    as (j & Hj & Hz & Hocc & Hle). cbn [fst] in *.
  exists ((h + j) mod sh_size tbn). split; [apply grow_probe_spec; try done; lia|]. cbn [set_data sh_data]. split_and!.
  - apply set_data_shape; [done|]. apply set_sized, Htn.
  - rewrite <- HN in *. unfold tat at 2. cbn [set_data sh_size sh_data].
    eapply (copy_step (sh_size tb) (sh_size tbn) s Hp Hpn Hdiv (tat tb) (wf_rh _ Hw) Hstart c (tat tbn) _ (h, k) j);
      try done; [intros a b; apply at_periodic| |].
    + intros q Hq. apply at_set_eq; [done|apply Htn|done].
    + intros q Hq. by apply at_set_ne.
  - rewrite elems_fill by (try done; apply Htn). f_equiv.
    rewrite (elems_clear (sh_size tbn) Hpn (sh_data tbn) (h + j)) by apply Htn. unfold tat in Hz. by rewrite Hz.
Qed.

Lemma grow_copy_spec k : ∀ c tbn,
  s ≤ c → c + Z.of_nat k = s + sh_size tb → sh_shape tbn → sh_size tbn = N →
  copied (sh_size tb) N s (tat tb) c (tat tbn) → elems (sh_data tbn) ≡ₚ omap (tat tb) (seqZ s (c - s)) →
  ∃ tb', grow_copy k (sh_size tb) (sh_data tb) (c mod sh_size tb) tbn = Ok tb' ∧ sh_shape tb' ∧ same_params tbn tb' ∧
    rh N (tat tb') ∧ elems (sh_data tb') ≡ₚ omap (tat tb) (seqZ s (sh_size tb)).
Proof.
  pose proof (wf_shape _ Hw) as Ht. pose proof (shape_pos _ Ht) as Hp.
  induction k as [|k IH]; intros c tbn Hc Hk Htn HN Hco Hel.
  { exists tbn. split_and!; [done..|apply Hco|]. by replace (sh_size tb) with (c - s) by lia. }
  cbn [grow_copy]. rewrite tbucket by done. cbn [mbind outcome_bind]. rewrite next_copyelem by lia.
  assert (Hseq : seqZ s (c + 1 - s) = seqZ s (c - s) ++ [c]).
  { replace (c + 1 - s) with ((c - s) + 1) by lia. rewrite seqZ_app by lia. f_equal. rewrite seqZ_cons by lia.
    simpl. f_equal. lia. }
  destruct (tat tb c) as [[h key]|] eqn:He.
  - destruct (grow_copy_one c h key tbn) as (cur & -> & Hsh & Hco' & Hel'); [lia|done..|]. cbn [mbind outcome_bind].
    destruct (IH (c + 1) _ ltac:(lia) ltac:(lia) Hsh HN Hco') as (tb' & Hrun & Hrest); [|by exists tb'].
    rewrite Hel', Hel, Hseq, omap_app. simpl. rewrite He. by rewrite Permutation_cons_append.
  - destruct (IH (c + 1) tbn) as (tb' & Hrun & Hrest); [lia|lia|done|done|by apply copied_skip| |by exists tb'].
    rewrite Hel, Hseq, omap_app. simpl. by rewrite He, app_nil_r.
Qed.
End Loop.

(** a table of empty buckets *)
Lemma empty_table k members :
  1 ≤ k ≤ 32 →
  let tb := mkSH (2 ^ k) members (2 ^ k - 1) (threshold_of (2 ^ k)) (repeat (@None (Z * K)) (Z.to_nat (2 ^ k))) in
  sh_shape tb ∧ ∀ p, tat tb p = None.
Proof.
  intros Hk tb. split.
  - split; [by exists k|done|]. unfold sized. cbn [tb sh_size sh_data]. rewrite repeat_length, Z2Nat.id; [done|].
    apply Z.pow_nonneg. lia.
  - intros p. unfold tat, at_. cbn [tb sh_data sh_size]. destruct (repeat None _ !! _) as [x|] eqn:Hx; [|done].
    apply list_elem_of_lookup_2, list_elem_of_In, repeat_spec in Hx. by subst.
Qed.

Lemma grow_spec tb :
  sh_wf tb → sh_size tb < SH_MAX_SIZE →
  ∃ tb', SH_GROW tb (sh_size tb * 2) = Ok tb' ∧ sh_wf tb' ∧ sh_size tb' = sh_size tb * 2 ∧
    sh_members tb' = sh_members tb ∧ elems (sh_data tb') ≡ₚ elems (sh_data tb).
Proof.
  intros Hw Hmax. pose proof (wf_shape _ Hw) as Ht. pose proof (shape_pos _ Ht) as Hp.
  destruct (shape_pow _ Ht) as (k & Hk & Hsz).
  assert (Hk32 : k < 32). { destruct (decide (k = 32)) as [->|]; [|lia]. rewrite Hsz in Hmax. done. }
  assert (Hdbl : sh_size tb * 2 = 2 ^ (k + 1)) by (rewrite Z.pow_add_r by lia; lia).
  unfold SH_GROW. rewrite Hdbl, compute_size_pow by lia. cbn [mbind outcome_bind]. rewrite update_parameters by lia.
  cbn [mbind outcome_bind set_data sh_members sh_data].
  set (tbn := mkSH (2 ^ (k + 1)) _ _ _ _).
  destruct (empty_table (k + 1) (sh_members tb) ltac:(lia)) as [Htn Hempty]. fold tbn in Htn, Hempty.
  assert (Hdiv : (sh_size tb | sh_size tbn)) by (exists 2; cbn [tbn sh_size]; lia).
  destruct (wf_empty _ Hw) as [z Hz].
  destruct (grow_start_spec tb tbn (Z.to_nat (sh_size tb)) 0) as (s & -> & Hs & Hstart); [done..|lia|lia| |].
  { exists (z mod sh_size tb). pose proof (Z.mod_pos_bound z _ Hp). split; [lia|]. rewrite <- Hz. apply tat_periodic, Z.mod_mod. lia. }
  cbn [mbind outcome_bind].
  destruct (grow_copy_spec tb (sh_size tbn) s Hw) with (Z.to_nat (sh_size tb)) s tbn
    as (tb' & Hrun & Hsh & (Hsz' & Hmem' & Hthr') & Hrh & Hel); try done; [cbn [tbn sh_size]; lia|lia| | |].
  - split; [intros a b; apply tat_periodic|intros p e Hpe|intros q e Hq|intros q e p e' Hq]; by rewrite Hempty in *.
  - rewrite Z.sub_diag. cbn [tbn sh_data]. by rewrite elems_empty.
  - rewrite (Z.mod_small s) in Hrun by lia. exists tb'. split; [done|].
    assert (Hel' : elems (sh_data tb') ≡ₚ elems (sh_data tb)) by (rewrite Hel; symmetry; apply elems_rotate; [done|apply Ht|done]).
    split_and!; [|done..]. split; [done| | | |].
    + rewrite Hmem', Hel'. apply (wf_members _ Hw).
    + rewrite Hmem', Hsz'. cbn [tbn sh_members sh_size]. pose proof (wf_room _ Hw). lia.
    + by rewrite Hthr', Hsz'.
    + rewrite <- Hsz' in Hrh. exact Hrh.
Qed.
End Grow.
