(* ===== verification/SimpleHashTheorems.v ===== *)
(** * The hash table is a finite multiset

    Every operation of the hash table keeps its invariant and ends, however
    its buckets are filled: a lookup finds an element with the key if there is
    one, an insertion adds the element unless its key is there, a deletion
    removes the element it finds, and an iteration meets every element once. *)

From S2P Require Import Prelude SimpleHash SimpleHashFacts.

(** the table never has to grow beyond its maximal size below this number of
    elements *)
Definition SH_LIMIT : Z := 429496729.

Section Insert.
Context {K : Type}.
Implicit Types (tb : SH_TYPE K).

Lemma threshold_bound k : 1 ≤ k ≤ 32 → 0 ≤ threshold_of (2 ^ k) < 2 ^ k.
Proof.
  intros Hk. assert (Hp : 0 < 2 ^ k) by (apply Z.pow_pos_nonneg; lia).
  unfold threshold_of, times_max_fillfactor, times_fillfactor.
  destruct (_ =? _); (split; [apply Z.div_pos; lia|apply Z.div_lt_upper_bound; lia]).
Qed.

Lemma filled_limit tb : sh_members tb < SH_LIMIT → filled_enough (sh_members tb) (sh_size tb) = true → sh_size tb < SH_MAX_SIZE.
Proof.
  unfold filled_enough, SH_LIMIT, SH_MAX_SIZE, PG_UINT32_MAX. rewrite Z.geb_leb, Z.leb_le. lia.
Qed.

(** behind the check for growing there is room for one more *)
Lemma insert_grow_spec tb :
  sh_wf tb → sh_members tb < SH_LIMIT →
  ∃ tb', insert_grow tb = Ok tb' ∧ sh_wf tb' ∧ sh_members tb' + 1 < sh_size tb' ∧ sh_size tb ≤ sh_size tb' ∧
    sh_members tb' = sh_members tb ∧ elems (sh_data tb') ≡ₚ elems (sh_data tb).
Proof.
  intros Hw Hl. pose proof (wf_shape _ Hw) as Ht. destruct (shape_pow _ Ht) as (k & Hk & Hsz).
  pose proof (threshold_bound k Hk) as Hth. rewrite <- Hsz, <- (wf_threshold _ Hw) in Hth. pose proof (wf_room _ Hw).
  unfold insert_grow. rewrite Z.geb_leb. destruct (Z.leb_spec (sh_grow_threshold tb) (sh_members tb)) as [Hge|Hlt].
  - destruct (Z.eqb_spec (sh_size tb) SH_MAX_SIZE) as [Hmax|Hmax].
    + exfalso. rewrite (wf_threshold _ Hw), Hmax in Hge. unfold SH_LIMIT in Hl. vm_compute (threshold_of SH_MAX_SIZE) in Hge. lia.
    + destruct (grow_spec tb Hw) as (tb' & -> & Hw' & Hs' & Hm' & Hel).
      { pose proof (shape_bounds _ Ht). unfold SH_MAX_SIZE, PG_UINT32_MAX in *. lia. }
      exists tb'. pose proof (shape_pos _ Ht). split_and!; [done..|lia|lia|done|done].
  - exists tb. split_and!; [done..|lia|lia|done|done].
Qed.

Lemma insert_post_mono tb tb1 h k eq r :
  elems (sh_data tb1) ≡ₚ elems (sh_data tb) → insert_post tb1 h k eq r → insert_post tb h k eq r.
Proof.
  intros Hel. destruct r as [[tb' q] found]. unfold insert_post. destruct found; setoid_rewrite Hel; done.
Qed.

(** a restart doubles the table, so there are few *)
Lemma insert_restart h key eq fuel : ∀ tb k,
  sh_wf tb → sh_members tb < SH_LIMIT → sh_size tb = 2 ^ k → 1 ≤ k → 33 - k ≤ Z.of_nat fuel →
  filled_enough (sh_members tb) (sh_size tb) = true →
  ∃ r, SH_INSERT_HASH_INTERNAL fuel (reset_threshold tb) key h eq = Ok r ∧ insert_post tb h key eq r.
Proof.
  induction fuel as [|fuel IH]; intros tb k Hw Hl Hsz Hk1 Hk Hfill; pose proof (filled_limit tb Hl Hfill) as Hmax.
  { rewrite Hsz in Hmax. change SH_MAX_SIZE with (2 ^ 32) in Hmax. apply Z.pow_lt_mono_r_iff in Hmax; lia. }
  destruct (grow_spec tb Hw Hmax) as (tb1 & Hg & Hw1 & Hs1 & Hm1 & Hel1). pose proof (wf_room _ Hw).
  pose proof (wf_members _ Hw).
  destruct (insert_round (reset_threshold tb) tb1 h key eq fuel) as [(r & Hr & Hpost)|[Hfill1 Hr]]; try done.
  - unfold insert_grow. cbn [reset_threshold sh_members sh_grow_threshold sh_size]. rewrite Z.geb_leb.
    destruct (Z.leb_spec 0 (sh_members tb)); [|lia]. destruct (Z.eqb_spec (sh_size tb) SH_MAX_SIZE); [lia|]. exact Hg.
  - lia.
  - exists r. split; [done|]. by eapply insert_post_mono.
  - rewrite Hr. destruct (IH tb1 (k + 1)) as (r & Hr' & Hpost); [done|lia|rewrite Hs1, Hsz, Z.pow_add_r by lia; lia|lia..|done|].
    exists r. split; [done|]. by eapply insert_post_mono.
Qed.

Lemma insert_spec tb key h eq :
  sh_wf tb → sh_members tb < SH_LIMIT → ∃ r, SH_INSERT_HASH tb key h eq = Ok r ∧ insert_post tb h key eq r.
Proof.
  intros Hw Hl. destruct (insert_grow_spec tb Hw Hl) as (tb1 & Hg & Hw1 & Hroom & Hs1 & Hm1 & Hel1).
  unfold SH_INSERT_HASH. destruct (insert_round tb tb1 h key eq 33 Hg Hw1 Hroom) as [(r & Hr & Hpost)|[Hfill Hr]].
  - exists r. split; [done|]. by eapply insert_post_mono.
  - rewrite Hr. destruct (shape_pow _ (wf_shape _ Hw1)) as (k & Hk & Hsz).
    destruct (insert_restart h key eq 33 tb1 k) as (r & Hr' & Hpost); [done|lia|done|lia..|done|].
    exists r. split; [done|]. by eapply insert_post_mono.
Qed.

(** ** Iterating *)

Definition iter_at tb (s i : Z) : SH_ITERATOR := mkIter ((s - i) mod sh_size tb) s (bool_decide (i = sh_size tb)).

Lemma iterate_step tb s i fuel :
  sh_shape tb → 0 ≤ s < sh_size tb → 0 ≤ i < sh_size tb →
  SH_ITERATE (S fuel) tb (iter_at tb s i) =
    match tat tb (s - i) with
    | Some _ => Ok (Some ((s - i) mod sh_size tb), iter_at tb s (i + 1))
    | None => SH_ITERATE fuel tb (iter_at tb s (i + 1))
    end.
Proof.
  intros Ht Hs Hi. pose proof (shape_pos _ Ht) as Hp. cbn [SH_ITERATE iter_at it_done it_cur it_end].
  rewrite bool_decide_eq_false_2 by lia. rewrite tbucket by done. cbn [mbind outcome_bind].
  rewrite mask_uint32, !mask_mod, Zminus_mod_idemp_l by done. replace (s - i - 1) with (s - (i + 1)) by lia.
  unfold iter_at. rewrite Z.mod_mod, (Z.mod_small s) by lia.
  replace ((s - (i + 1)) mod sh_size tb =? s) with (bool_decide (i + 1 = sh_size tb)); [done|].
  apply eq_true_iff_eq. rewrite bool_decide_eq_true, Z.eqb_eq. split; intros Heq.
  - rewrite Heq. replace (s - sh_size tb) with (s + (-1) * sh_size tb) by lia. rewrite Z.mod_add, Z.mod_small; lia.
  - destruct (decide (i + 1 = sh_size tb)) as [|Hne]; [done|]. exfalso.
    assert (i + 1 = 0); [|lia]. apply (index_inj (sh_size tb) Hp (s - (i + 1))); [lia..|].
    rewrite Z.add_0_r, Heq. replace (s - (i + 1) + (i + 1)) with s by lia. by rewrite Z.mod_small by lia.
Qed.

(** the next element, from the [i]-th bucket on *)
Lemma iterate_next tb s k : ∀ i f,
  sh_shape tb → 0 ≤ s < sh_size tb → 0 ≤ i → i + Z.of_nat k = sh_size tb → (k ≤ f)%nat →
  (∃ it, SH_ITERATE f tb (iter_at tb s i) = Ok (None, it) ∧ omap (fun j => tat tb (s - j)) (seqZ i (Z.of_nat k)) = [])
  ∨ ∃ j e, i ≤ j < sh_size tb ∧ SH_ITERATE f tb (iter_at tb s i) = Ok (Some ((s - j) mod sh_size tb), iter_at tb s (j + 1))
      ∧ tat tb (s - j) = Some e
      ∧ omap (fun j => tat tb (s - j)) (seqZ i (Z.of_nat k))
        = e :: omap (fun j => tat tb (s - j)) (seqZ (j + 1) (sh_size tb - (j + 1))).
Proof.
  induction k as [|k IH]; intros i f Ht Hs Hi Hk Hf.
  { left. exists (iter_at tb s i). split; [|done]. unfold iter_at. rewrite bool_decide_eq_true_2 by lia. by destruct f. }
  destruct f as [|f]; [lia|]. rewrite iterate_step by (done || lia). rewrite (seqZ_cons i) by lia. cbn [omap list_omap].
  replace (Z.pred (Z.of_nat (S k))) with (Z.of_nat k) by lia. change (Z.succ i) with (i + 1).
  destruct (tat tb (s - i)) as [e|] eqn:He.
  - right. exists i, e. split_and!; [lia..|done|done|]. by replace (sh_size tb - (i + 1)) with (Z.of_nat k) by lia.
  - destruct (IH (i + 1) f) as [?|(j & e & Hj & H1 & H2 & H3)]; [done|lia..| |]; [by left|right].
    exists j, e. split_and!; [lia..|done|done|done].
Qed.

(** deleting an element already met changes nothing in front of it *)
Lemma delete_met tb s j e :
  sh_wf tb → 0 ≤ s < sh_size tb → 0 ≤ j < sh_size tb → tat tb s = None → tat tb (s - j) = Some e →
  ∃ tb', SH_DELETE_ITEM tb ((s - j) mod sh_size tb) = Ok tb' ∧ sh_wf tb' ∧ sh_size tb' = sh_size tb ∧ tat tb' s = None ∧
    elems (sh_data tb) ≡ₚ e :: elems (sh_data tb') ∧ ∀ i, j < i < sh_size tb → tat tb' (s - i) = tat tb (s - i).
Proof.
  intros Hw Hs Hj Hz He. pose proof (shape_pos _ (wf_shape _ Hw)) as Hp.
  assert (j ≠ 0). { intros ->. rewrite Z.sub_0_r in He. congruence. }
  destruct (delete_at tb (s - j) e Hw He) as (data & Hd & Hw' & Hel & Hat).
  unfold SH_DELETE_ITEM. rewrite Hd. cbn [mbind outcome_bind]. eexists. split; [done|].
  assert (Hkeep : ∀ i, j ≤ i < sh_size tb → at_ (sh_size tb) data (s - j + i) = tat tb (s - j + i)).
  { intros i Hi. apply (Hat j); [lia| |lia]. by replace (s - j + j) with s by lia. }
  split_and!; [done..| |done|].
  - unfold tat. cbn [set_data sh_size sh_data]. specialize (Hkeep j). replace (s - j + j) with s in Hkeep by lia.
    by rewrite Hkeep by lia.
  - intros i Hi. unfold tat. cbn [set_data sh_size sh_data].
    assert ((s - i) mod sh_size tb = (s - j + (sh_size tb + j - i)) mod sh_size tb) as Hmod.
    { replace (s - j + (sh_size tb + j - i)) with (s - i + 1 * sh_size tb) by lia. by rewrite Z.mod_add by lia. }
    rewrite (at_periodic _ _ _ _ Hmod), (at_periodic _ (sh_data tb) _ _ Hmod). apply Hkeep. lia.
Qed.

Lemma iterate_from (del : Z * K → bool) s F : ∀ tb i,
  sh_wf tb → 0 ≤ s < sh_size tb → tat tb s = None → 0 ≤ i ≤ sh_size tb → sh_size tb - i < Z.of_nat F →
  let l := omap (fun j => tat tb (s - j)) (seqZ i (sh_size tb - i)) in
  ∃ tb', iterate_delete F del tb (iter_at tb s i) = Ok (tb', l) ∧ sh_wf tb' ∧
    elems (sh_data tb) ≡ₚ filter del l ++ elems (sh_data tb').
Proof.
  induction F as [|F IH]; intros tb i Hw Hs Hz Hi HF; [lia|]. cbn [iterate_delete].
  destruct (iterate_next tb s (Z.to_nat (sh_size tb - i)) i (sh_fuel tb)) as [(it & -> & Hl)|(j & e & Hj & -> & He & Hl)];
    [apply Hw|done|lia|lia|unfold sh_fuel; lia|rewrite Z2Nat.id in Hl by lia..]; cbn [mbind outcome_bind].
  { exists tb. by rewrite Hl. }
  rewrite Hl, tbucket, He by apply Hw. cbn [deref mbind outcome_bind]. destruct (del e) eqn:Hdel.
  - destruct (delete_met tb s j e) as (tb1 & -> & Hw1 & Hsz & Hz1 & Hel & Hkeep); try done; [lia|]. cbn [mbind outcome_bind].
    destruct (IH tb1 (j + 1)) as (tb' & Hrun & Hw' & Hel'); try done; [rewrite Hsz; lia..|].
    assert (omap (fun j => tat tb1 (s - j)) (seqZ (j + 1) (sh_size tb1 - (j + 1)))
            = omap (fun j => tat tb (s - j)) (seqZ (j + 1) (sh_size tb - (j + 1)))) as Hsame.
    { rewrite Hsz. apply list_omap_ext, Forall_Forall2_diag, Forall_forall. intros x Hx%elem_of_seqZ. apply Hkeep. lia. }
    rewrite Hsame in Hrun, Hel'. unfold iter_at in *. rewrite Hsz in Hrun. rewrite Hrun. cbn [mbind outcome_bind]. exists tb'.
    split_and!; [done..|]. rewrite Hel, filter_cons_True by (by rewrite Hdel). simpl. by rewrite Hel'.
  - cbn [mbind outcome_bind]. destruct (IH tb (j + 1)) as (tb' & Hrun & Hw' & Hel'); try done; [lia..|].
    rewrite Hrun. cbn [mbind outcome_bind]. exists tb'. split_and!; [done..|].
    by rewrite filter_cons_False by (rewrite Hdel; by intros []).
Qed.

(** backwards around the table *)
Lemma elems_backwards tb s :
  sh_shape tb → 0 ≤ s < sh_size tb →
  omap (fun j => tat tb (s - j)) (seqZ 0 (sh_size tb)) ≡ₚ elems (sh_data tb).
Proof.
  intros Ht Hs. pose proof (shape_pos _ Ht) as Hp. rewrite (elems_seqZ (sh_size tb)) by (done || apply Ht).
  assert (Hperm : (fun j => (s - j) mod sh_size tb) <$> seqZ 0 (sh_size tb) ≡ₚ seqZ 0 (sh_size tb)).
  { apply submseteq_length_Permutation; [|by rewrite length_fmap].
    apply NoDup_submseteq.
    - apply NoDup_fmap_2_strong; [|apply NoDup_seqZ]. intros x y Hx%elem_of_seqZ Hy%elem_of_seqZ Heq.
      apply (index_inj (sh_size tb) Hp (s - x - y)); [lia..|]. by replace (s - x - y + x) with (s - y) by lia;
        replace (s - x - y + y) with (s - x) by lia.
    - intros x (j & -> & Hj)%list_elem_of_fmap. apply elem_of_seqZ. pose proof (Z.mod_pos_bound (s - j) _ Hp). lia. }
  rewrite <- Hperm at 2. rewrite omap_fmap. apply reflexive_eq, list_omap_ext, Forall2_same_length_lookup.
  split; [done|]. intros i x y Hx Hy. rewrite Hx in Hy. injection Hy as <-. apply tat_periodic. symmetry. apply Z.mod_mod. lia.
Qed.

Lemma iterate_start_spec tb k : ∀ i,
  sh_shape tb → 0 ≤ i → i + Z.of_nat k = sh_size tb → (∃ z, i ≤ z < sh_size tb ∧ tat tb z = None) →
  ∃ s, iterate_start k tb i = Ok s ∧ 0 ≤ s < sh_size tb ∧ tat tb s = None.
Proof.
  induction k as [|k IH]; intros i Ht Hi Hk (z & Hz & Hze); [lia|]. pose proof (tbucket tb i Ht) as Hb.
  rewrite Z.mod_small in Hb by lia. cbn [iterate_start]. rewrite Hb. cbn [mbind outcome_bind].
  destruct (tat tb i) eqn:He; [|exists i; split_and!; [done|lia..|done]].
  apply IH; [done|lia..|]. exists z. split; [|done]. destruct (decide (z = i)) as [->|]; [congruence|lia].
Qed.
End Insert.

(** ** The operations as operations on a multiset *)

Section Operations.
Context {K : Type}.
Implicit Types (tb : SH_TYPE K) (eq : K → bool).

Lemma table_create_spec nelements k :
  1 ≤ k ≤ 32 → SH_COMPUTE_SIZE (Z.min SH_MAX_SIZE (over_fillfactor nelements)) = Ok (2 ^ k) →
  ∃ tb, SH_CREATE (K := K) nelements = Ok tb ∧ sh_wf tb ∧ elems (sh_data tb) = [].
Proof.
  intros Hk Hs. unfold SH_CREATE. rewrite Hs. cbn [mbind outcome_bind]. rewrite update_parameters by done.
  eexists. split; [done|]. cbn [sh_data sh_members].
  destruct (empty_table (K := K) k 0 Hk) as [Ht Hempty]. assert (0 < 2 ^ k) by (apply Z.pow_pos_nonneg; lia).
  split; [|apply elems_empty]. split; cbn [sh_members sh_size sh_data].
  - done.
  - by rewrite elems_empty.
  - lia.
  - done.
  - intros p e Hp. specialize (Hempty p). unfold tat in Hempty. cbn [sh_size sh_data] in Hempty. congruence.
Qed.

(** what a search says about the elements *)
Definition slot_post tb (h : Z) eq (r : option Z) : Prop :=
  match r with
  | Some q => ∃ k, bucket (sh_data tb) q = Ok (Some (h, k)) ∧ (h, k) ∈ elems (sh_data tb) ∧ eq k = true
  | None => ∀ k, (h, k) ∈ elems (sh_data tb) → eq k = false
  end.

Lemma bucket_elem data q (e : Z * K) : bucket data q = Ok (Some e) → e ∈ elems data.
Proof.
  unfold bucket. destruct (data !! Z.to_nat q) as [x|] eqn:Hx; [|done]. intros [= ->]. apply list_elem_of_omap.
  exists (Some e). split; [by eapply list_elem_of_lookup_2|done].
Qed.

Lemma filter_split (del : Z * K → bool) l : l ≡ₚ filter del l ++ filter (fun e => del e = false) l.
Proof.
  induction l as [|e l IH]; [done|]. destruct (del e) eqn:He.
  - rewrite filter_cons_True by (by rewrite He). rewrite filter_cons_False by (by rewrite He). simpl. by rewrite <- IH.
  - rewrite filter_cons_False by (rewrite He; by intros []). rewrite filter_cons_True by done. by rewrite <- Permutation_middle, <- IH.
Qed.

Lemma compare_keys_true h eq (e : Z * K) : compare_keys h eq e = true → e = (h, e.2) ∧ eq e.2 = true.
Proof. destruct e as [h' k]. unfold compare_keys. simpl. intros [->%Z.eqb_eq Heq]%andb_prop. done. Qed.

Lemma lookup_spec tb h eq : sh_wf tb → ∃ r, SH_LOOKUP_HASH tb h eq = Ok r ∧ slot_post tb h eq r.
Proof.
  intros Hw. pose proof (wf_shape _ Hw) as Ht. destruct (search_stops tb h eq Hw) as [j Hj].
  rewrite (lookup_result tb h eq j Ht Hj). eexists. split; [done|].
  destruct (tat tb (h + Z.of_nat j)) as [e|] eqn:He; [|intros k; by eapply search_complete].
  destruct Hj as (_ & Hs & _). unfold stops in Hs. rewrite He in Hs. apply compare_keys_true in Hs as [Heq Hk].
  exists e.2. rewrite tbucket, He, <- Heq by done. split_and!; [done|apply (bucket_elem _ ((h + Z.of_nat j) mod sh_size tb)); by rewrite tbucket, He|done].
Qed.

Lemma delete_spec tb h eq :
  sh_wf tb →
  (SH_DELETE tb h eq = Ok (tb, false) ∧ ∀ k, (h, k) ∈ elems (sh_data tb) → eq k = false)
  ∨ ∃ tb' k, SH_DELETE tb h eq = Ok (tb', true) ∧ sh_wf tb' ∧ eq k = true ∧
      elems (sh_data tb) ≡ₚ (h, k) :: elems (sh_data tb').
Proof.
  intros Hw. destruct (search_stops tb h eq Hw) as [j Hj]. pose proof (delete_result tb h eq j Hw Hj) as Hd.
  destruct (tat tb (h + Z.of_nat j)) as [e|] eqn:He.
  - destruct Hd as (tb' & Hd & Hw' & Hel & [Heq Hk]%compare_keys_true). right. exists tb', e.2. by rewrite <- Heq.
  - left. split; [done|]. intros k. by eapply search_complete.
Qed.

Lemma iterate_spec tb (del : Z * K → bool) :
  sh_wf tb →
  ∃ it tb' l, SH_START_ITERATE tb = Ok it ∧ iterate_delete (S (sh_fuel tb)) del tb it = Ok (tb', l) ∧ sh_wf tb' ∧
    l ≡ₚ elems (sh_data tb) ∧ elems (sh_data tb') ≡ₚ filter (fun e => del e = false) (elems (sh_data tb)).
Proof.
  intros Hw. pose proof (wf_shape _ Hw) as Ht. pose proof (shape_pos _ Ht) as Hp. destruct (wf_empty _ Hw) as [z Hz].
  destruct (iterate_start_spec tb (sh_fuel tb) 0) as (s & Hs & Hb & Hsz); [done|lia|unfold sh_fuel; lia| |].
  { exists (z mod sh_size tb). split; [pose proof (Z.mod_pos_bound z _ Hp); lia|].
    rewrite <- Hz. apply tat_periodic, Z.mod_mod. lia. }
  unfold SH_START_ITERATE. rewrite Hs. cbn [mbind outcome_bind].
  assert (mkIter s s false = iter_at tb s 0) as ->.
  { unfold iter_at. rewrite Z.sub_0_r, Z.mod_small, bool_decide_eq_false_2 by lia. done. }
  destruct (iterate_from del s (S (sh_fuel tb)) tb 0) as (tb' & Hrun & Hw' & Hel); [done..|lia|unfold sh_fuel; lia|].
  rewrite Z.sub_0_r in Hrun, Hel. pose proof (elems_backwards tb s Ht Hb) as Hback.
  eexists _, tb', _. split_and!; [done|exact Hrun|done|done|]. rewrite Hback in Hel.
  apply (Permutation_app_inv_l (filter del (elems (sh_data tb)))). rewrite <- Hel. apply filter_split.
Qed.
End Operations.

(** ** Programs over a table, and over a list of keys *)

Section Programs.
Context {K : Type} (hash_key : K → Z) (equal : K → K → bool).

Inductive sh_op := OpInsert (k : K) | OpLookup (k : K) | OpDelete (k : K).

(** the answer: whether the key was there, and the key in the bucket returned *)
Definition sh_step (tb : SH_TYPE K) (op : sh_op) : outcome (SH_TYPE K * (bool * option K)) :=
  match op with
  | OpInsert k =>
      r ← SH_INSERT_HASH tb k (hash_key k) (fun k' => equal k' k);
      let '(tb, q, found) := r : SH_TYPE K * Z * bool in
      e ← bucket (sh_data tb) q;
      Ok (tb, (found, option_map snd e))
  | OpLookup k =>
      r ← SH_LOOKUP_HASH tb (hash_key k) (fun k' => equal k' k);
      match r with
      | None => Ok (tb, (false, None))
      | Some q => e ← bucket (sh_data tb) q; Ok (tb, (true, option_map snd e))
      end
  | OpDelete k =>
      r ← SH_DELETE tb (hash_key k) (fun k' => equal k' k);
      let '(tb, found) := r : SH_TYPE K * bool in
      Ok (tb, (found, None))
  end.

Fixpoint sh_run (tb : SH_TYPE K) (ops : list sh_op) : outcome (SH_TYPE K * list (bool * option K)) :=
  match ops with
  | [] => Ok (tb, [])
  | op :: ops =>
      r ← sh_step tb op;
      let '(tb, a) := r : SH_TYPE K * (bool * option K) in
      r ← sh_run tb ops;
      let '(tb, l) := r : SH_TYPE K * list (bool * option K) in
      Ok (tb, a :: l)
  end.

(** the reference: a list of keys, no two of them equal *)
Definition ref_step (ks : list K) (op : sh_op) : list K * (bool * option K) :=
  match op with
  | OpInsert k =>
      match List.find (fun k' => equal k' k) ks with
      | Some k' => (ks, (true, Some k'))
      | None => (k :: ks, (false, Some k))
      end
  | OpLookup k =>
      match List.find (fun k' => equal k' k) ks with
      | Some k' => (ks, (true, Some k'))
      | None => (ks, (false, None))
      end
  | OpDelete k => (filter (fun k' => equal k' k = false) ks, (existsb (fun k' => equal k' k) ks, None))
  end.

Fixpoint ref_run (ks : list K) (ops : list sh_op) : list K * list (bool * option K) :=
  match ops with
  | [] => (ks, [])
  | op :: ops => let '(ks, a) := ref_step ks op in let '(ks, l) := ref_run ks ops in (ks, a :: l)
  end.

(** keys are compared by an equivalence, and equal keys have equal hashes *)
Class KeyLaws : Prop := {
  equal_refl k : equal k k = true;
  equal_sym k k' : equal k k' = true → equal k' k = true;
  equal_trans k1 k2 k3 : equal k1 k2 = true → equal k2 k3 = true → equal k1 k3 = true;
  equal_hash k k' : equal k k' = true → hash_key k = hash_key k'
}.
Context `{KeyLaws}.

(** the table holds these keys *)
Record holds (tb : SH_TYPE K) (ks : list K) : Prop := {
  holds_wf : sh_wf tb;
  holds_keys : (elems (sh_data tb)).*2 ≡ₚ ks;
  holds_hash h k : (h, k) ∈ elems (sh_data tb) → h = hash_key k;
  holds_nodup : NoDup ks;
  holds_inj k k' : k ∈ ks → k' ∈ ks → equal k k' = true → k = k'
}.

Lemma holds_nil tb : sh_wf tb → elems (sh_data tb) = [] → holds tb [].
Proof.
  intros Hw Hel. split.
  - done.
  - by rewrite Hel.
  - rewrite Hel. by intros h k ?%not_elem_of_nil.
  - apply NoDup_nil_2.
  - by intros k k' ?%not_elem_of_nil.
Qed.

Lemma holds_elem tb ks k : holds tb ks → k ∈ ks ↔ (hash_key k, k) ∈ elems (sh_data tb).
Proof.
  intros Hh. rewrite <- (holds_keys _ _ Hh), list_elem_of_fmap. split; [|by exists (hash_key k, k)].
  intros ([h k'] & -> & Hin). simpl. by rewrite <- (holds_hash _ _ Hh h k').
Qed.

Lemma holds_members tb ks : holds tb ks → sh_members tb = Z.of_nat (length ks).
Proof. intros Hh. by rewrite (wf_members _ (holds_wf _ _ Hh)), <- (holds_keys _ _ Hh), length_fmap. Qed.

Lemma holds_find tb ks k k' :
  holds tb ks → (hash_key k, k') ∈ elems (sh_data tb) → equal k' k = true → List.find (fun x => equal x k) ks = Some k'.
Proof.
  intros Hh Hin Heq. pose proof (holds_hash _ _ Hh _ _ Hin) as Hk. rewrite Hk in Hin.
  apply (holds_elem _ _ _ Hh) in Hin. destruct (List.find _ ks) as [k2|] eqn:Hf.
  - apply find_some in Hf as [Hk2%list_elem_of_In He2]. f_equal.
    apply (holds_inj _ _ Hh); [done..|]. by eapply equal_trans, equal_sym.
  - apply list_elem_of_In in Hin. pose proof (find_none _ _ Hf _ Hin) as Hn. simpl in Hn. congruence.
Qed.

Lemma holds_not_equal tb ks k :
  holds tb ks → (∀ k', (hash_key k, k') ∈ elems (sh_data tb) → equal k' k = false) → ∀ k', k' ∈ ks → equal k' k = false.
Proof.
  intros Hh Hno k' Hk'. destruct (equal k' k) eqn:Heq; [|done]. rewrite <- Heq. apply Hno.
  rewrite <- (equal_hash k' k) by done. by apply (holds_elem _ _ _ Hh).
Qed.

Lemma find_not_equal (ks : list K) k : (∀ k', k' ∈ ks → equal k' k = false) → List.find (fun x => equal x k) ks = None.
Proof.
  intros Hno. destruct (List.find _ ks) as [k2|] eqn:Hf; [|done].
  apply find_some in Hf as [Hk2%list_elem_of_In He2]. by rewrite Hno in He2.
Qed.

Lemma existsb_not_equal (ks : list K) k : (∀ k', k' ∈ ks → equal k' k = false) → existsb (fun x => equal x k) ks = false.
Proof.
  intros Hno. apply not_true_is_false. intros (k' & Hk'%list_elem_of_In & Heq)%existsb_exists. by rewrite Hno in Heq.
Qed.

Lemma filter_not_equal (ks : list K) k : (∀ k', k' ∈ ks → equal k' k = false) → filter (fun x => equal x k = false) ks = ks.
Proof.
  intros Hno. induction ks as [|x l IH]; [done|]. rewrite filter_cons_True by (apply Hno; set_solver).
  f_equal. apply IH. intros; apply Hno; set_solver.
Qed.

Lemma holds_perm tb tb' ks : holds tb ks → sh_wf tb' → elems (sh_data tb') ≡ₚ elems (sh_data tb) → holds tb' ks.
Proof.
  intros [Hw Hk Hh Hn Hi] Hw' Hel. split; [done|by rewrite Hel|intros h k; rewrite Hel; apply Hh|done..].
Qed.

Lemma holds_insert tb tb' ks k :
  holds tb ks → sh_wf tb' → elems (sh_data tb') ≡ₚ (hash_key k, k) :: elems (sh_data tb) →
  (∀ k', k' ∈ ks → equal k' k = false) → holds tb' (k :: ks).
Proof.
  intros [Hw Hk Hh Hn Hi] Hw' Hel Hno. split.
  - done.
  - rewrite Hel, fmap_cons. by rewrite Hk.
  - intros h k'. rewrite Hel, elem_of_cons. intros [[= -> ->]|Hin]; [done|by apply Hh].
  - constructor; [|done]. intros Hin. apply Hno in Hin. by rewrite equal_refl in Hin.
  - intros k1 k2 [->|H1]%elem_of_cons [->|H2]%elem_of_cons Heq; try done.
    + apply equal_sym in Heq. by rewrite Hno in Heq.
    + by rewrite Hno in Heq.
    + by apply Hi.
Qed.

Lemma holds_delete tb tb' ks k k' :
  holds tb ks → sh_wf tb' → elems (sh_data tb) ≡ₚ (hash_key k, k') :: elems (sh_data tb') → equal k' k = true →
  holds tb' (filter (fun x => equal x k = false) ks) ∧ existsb (fun x => equal x k) ks = true.
Proof.
  intros [Hw Hk Hh Hn Hi] Hw' Hel Heq. set (rest := (elems (sh_data tb')).*2).
  assert (Hperm : ks ≡ₚ k' :: rest) by (by rewrite <- Hk, Hel, fmap_cons).
  assert (Hsub : ∀ x, x ∈ rest → equal x k = false).
  { intros x Hx. destruct (equal x k) eqn:Hxk; [|done]. rewrite Hperm in Hn. apply NoDup_cons in Hn as [Hnin _].
    assert (x = k') as ->; [|done]. apply Hi; [rewrite Hperm; set_solver..|]. by eapply equal_trans, equal_sym. }
  assert (Hfil : filter (fun x => equal x k = false) ks ≡ₚ rest).
  { rewrite Hperm, filter_cons_False by (by rewrite Heq). clear -Hsub. induction rest as [|x l IH]; [done|].
    rewrite filter_cons_True by (apply Hsub; set_solver). rewrite IH; [done|]. intros y Hy. apply Hsub. set_solver. }
  split; [|apply existsb_exists; exists k'; rewrite <- list_elem_of_In, Hperm; split; [set_solver|done]].
  rewrite Hperm in Hn. apply NoDup_cons in Hn as [_ Hn]. split; [done| | | |].
  - by rewrite Hfil.
  - intros h x Hx. apply Hh. rewrite Hel. set_solver.
  - by rewrite Hfil.
  - intros x y. rewrite Hfil. intros Hx Hy. apply Hi; rewrite Hperm; set_solver.
Qed.

Lemma step_spec tb ks op :
  holds tb ks → Z.of_nat (length ks) < SH_LIMIT →
  ∃ tb', sh_step tb op = Ok (tb', (ref_step ks op).2) ∧ holds tb' (ref_step ks op).1.
Proof.
  intros Hh Hl. pose proof (holds_wf _ _ Hh) as Hw. rewrite <- (holds_members _ _ Hh) in Hl.
  destruct op as [k|k|k]; cbn [sh_step ref_step].
  - destruct (insert_spec tb k (hash_key k) (fun k' => equal k' k) Hw Hl) as ([[tb' q] []] & -> & Hw' & Hpost);
      cbn [mbind outcome_bind].
    + destruct Hpost as (Hel & k' & Hq & Hk'). rewrite Hq. exists tb'.
      rewrite (holds_find tb ks k k' Hh) by (first [done|rewrite <- Hel; exact (bucket_elem _ _ _ Hq)]).
      split; [done|]. by apply (holds_perm tb).
    + destruct Hpost as (Hel & Hq & Hno). pose proof (holds_not_equal tb ks k Hh Hno) as Hne. rewrite Hq. exists tb'.
      rewrite find_not_equal by done. split; [done|]. by apply (holds_insert tb).
  - destruct (lookup_spec tb (hash_key k) (fun k' => equal k' k) Hw) as (r & -> & Hpost). cbn [mbind outcome_bind].
    exists tb. destruct r as [q|]; cbn [slot_post] in Hpost.
    + destruct Hpost as (k' & -> & Hin & Hk'). by rewrite (holds_find tb ks k k' Hh).
    + pose proof (holds_not_equal tb ks k Hh Hpost) as Hne. by rewrite find_not_equal.
  - destruct (delete_spec tb (hash_key k) (fun k' => equal k' k) Hw) as [[-> Hno]|(tb' & k' & -> & Hw' & Hk' & Hel)];
      cbn [mbind outcome_bind].
    + pose proof (holds_not_equal tb ks k Hh Hno) as Hne. exists tb. rewrite existsb_not_equal, filter_not_equal by done. done.
    + destruct (holds_delete tb tb' ks k k' Hh Hw' Hel Hk') as [Hh' Hex]. exists tb'. by rewrite Hex.
Qed.

Lemma step_length ks op : (length (ref_step ks op).1 ≤ S (length ks))%nat.
Proof.
  destruct op as [k|k|k]; simpl; [destruct (List.find _ ks); simpl; lia..|]. pose proof (length_filter (fun x => equal x k = false) ks). lia.
Qed.

Lemma run_spec ops : ∀ tb ks,
  holds tb ks → Z.of_nat (length ks + length ops) ≤ SH_LIMIT →
  ∃ tb', sh_run tb ops = Ok (tb', (ref_run ks ops).2) ∧ holds tb' (ref_run ks ops).1.
Proof.
  induction ops as [|op ops IH]; intros tb ks Hh Hl; [by exists tb|]. simpl in Hl.
  destruct (step_spec tb ks op Hh ltac:(lia)) as (tb1 & Hs & Hh1). pose proof (step_length ks op) as Hlen.
  cbn [sh_run ref_run]. rewrite Hs. cbn [mbind outcome_bind]. destruct (ref_step ks op) as [ks1 a]. cbn [fst snd] in *.
  destruct (IH tb1 ks1 Hh1) as (tb' & Hr & Hh'); [lia|]. rewrite Hr. cbn [mbind outcome_bind].
  destruct (ref_run ks1 ops) as [ks' l]. by exists tb'.
Qed.
End Programs.
Arguments sh_op : clear implicits.
Arguments KeyLaws {K}.

(** C5. The hash table of the lambda cache is a set of keys: for every
    equivalence on keys and every hash function that respects it, however badly
    it spreads them, any program of at most [SH_LIMIT] = 429496729 insertions,
    lookups and deletions on a new table ends, within the fuel given to its loops and without an error or an
    access outside of the table, and answers what the same program answers on a
    plain list of keys. *)
Theorem simplehash_is_a_set {K} hash_key equal `{!KeyLaws (K := K) hash_key equal} (ops : list (sh_op K)) :
  Z.of_nat (length ops) ≤ SH_LIMIT →
  ∃ tb tb', SH_CREATE 16 = Ok tb ∧ sh_run hash_key equal tb ops = Ok (tb', (ref_run equal [] ops).2)
    ∧ sh_wf tb' ∧ (elems (sh_data tb')).*2 ≡ₚ (ref_run equal [] ops).1.
Proof.
  intros Hl. destruct (table_create_spec (K := K) 16 5) as (tb & Htb & Hw & Hel); [lia|done|]. exists tb.
  destruct (run_spec hash_key equal ops tb []) as (tb' & Hr & Hh); [by apply holds_nil|done|].
  exists tb'. split_and!; [done..|apply Hh|apply Hh].
Qed.

(** An iteration over a table may delete the element it has just met, as
    the comment at [SH_ITERATE] promises: although deletions move elements,
    the loop ends, meets every element of the table exactly once, and leaves
    exactly the elements that were not to be deleted. *)
Theorem simplehash_iterates_once {K} (tb : SH_TYPE K) (del : Z * K → bool) :
  sh_wf tb →
  ∃ iter tb' l, SH_START_ITERATE tb = Ok iter
    ∧ iterate_delete (S (Z.to_nat (sh_size tb))) del tb iter = Ok (tb', l)
    ∧ sh_wf tb' ∧ l ≡ₚ elems (sh_data tb)
    ∧ elems (sh_data tb') ≡ₚ filter (fun e => del e = false) (elems (sh_data tb)).
Proof. exact (iterate_spec tb del). Qed.

(** ** A table whose keys collide *)

#[export] Instance demo_keys : KeyLaws (fun k : Z => k mod 3) Z.eqb.
Proof.
  split.
  - apply Z.eqb_refl.
  - intros k k'. by rewrite Z.eqb_sym.
  - intros k1 k2 k3 ->%Z.eqb_eq ->%Z.eqb_eq. apply Z.eqb_refl.
  - by intros k k' ->%Z.eqb_eq.
Qed.

(** forty insertions make the table grow, then every third key is removed *)
Definition demo_ops : list (sh_op Z) :=
  (OpInsert <$> seqZ 0 40) ++ ((fun k => OpDelete (3 * k)) <$> seqZ 0 10) ++ (OpLookup <$> seqZ 0 41).

Lemma simplehash_is_a_set_witness :
  ∃ tb tb', SH_CREATE 16 = Ok tb
    ∧ sh_run (fun k : Z => k mod 3) Z.eqb tb demo_ops = Ok (tb', (ref_run Z.eqb [] demo_ops).2)
    ∧ sh_wf tb' ∧ (elems (sh_data tb')).*2 ≡ₚ (ref_run Z.eqb [] demo_ops).1.
Proof. apply (simplehash_is_a_set (fun k : Z => k mod 3) Z.eqb demo_ops). vm_compute. discriminate. Defined.

Lemma demo_table : ∃ tb : SH_TYPE Z, sh_wf tb ∧ length (elems (sh_data tb)) = 30%nat.
Proof.
  destruct (table_create_spec (K := Z) 16 5) as (tb & _ & Hw & Hel); [lia|done|].
  destruct (run_spec (fun k : Z => k mod 3) Z.eqb demo_ops tb []) as (tb' & _ & Hh); [by apply holds_nil|done|].
  exists tb'. split; [apply Hh|]. rewrite <- (length_fmap snd), (holds_keys _ _ _ _ Hh). reflexivity.
Qed.

Lemma simplehash_iterates_once_witness :
  ∃ (tb tb' : SH_TYPE Z) iter l, SH_START_ITERATE tb = Ok iter
    ∧ iterate_delete (S (Z.to_nat (sh_size tb))) (fun e => Z.odd e.2) tb iter = Ok (tb', l)
    ∧ sh_wf tb' ∧ length l = 30%nat.
Proof.
  destruct demo_table as (tb & Hw & Hlen).
  destruct (simplehash_iterates_once tb (fun e => Z.odd e.2) Hw) as (iter & tb' & l & H1 & H2 & H3 & H4 & _).
  exists tb, tb', iter, l. split_and!; [exact H1|exact H2|exact H3|by rewrite H4].
Defined.
