(* ===== verification/Cache.v ===== *)
(** * The cache of built lambda bodies

    [backend/utils/adt/lambda_cache.c]: every call site keeps the bodies it
    built, keyed by the raw bytes of the called lambda and of the lambda-typed
    arguments, in a hash table with a least-recently-used list of bounded
    length.

    Entries are heap objects that the hash table, the list and the [last]
    pointer share: [c_heap] maps addresses to entries, deleting an entry's
    memory context removes it, and following a dangling pointer is [UB].  The
    hash table is used through its interface ([LCacheTable]), whose contents
    are the addresses it holds with their hash.  An operation returns the cache
    it leaves behind also when it raises an error. *)

From S2P Require Import Prelude Bitmapset Nodes NodesFacts Serialize Inject InjectFacts Eval.

(** ** The hash table interface *)

(** [lcache_*]: an element is an entry's address with the stored hash; a
    search compares the hash and then the keys, by the predicate [eq] *)
Class LCacheTable (T : Type) := {
  lcache_create : outcome T;
  lcache_elems : T → list (Z * nat);
  lcache_insert_hash : T → nat → Z → (nat → bool) → outcome (T * bool);
  lcache_lookup_hash : T → Z → (nat → bool) → outcome (option nat);
  lcache_delete : T → Z → (nat → bool) → outcome T
}.

(** the laws hold of well-formed tables; an insertion succeeds below a number
    of elements *)
Class LCacheLaws T `{LCacheTable T} := {
  lcache_wf : T → Prop;
  lcache_limit : Z;
  lcache_limit_pos : 0 < lcache_limit;
  lcache_create_ok : ∃ t, lcache_create = Ok t ∧ lcache_wf t ∧ lcache_elems t = [];
  lcache_lookup_ok t h eq :
    lcache_wf t →
    ∃ r, lcache_lookup_hash t h eq = Ok r ∧
      match r with
      | Some i => (h, i) ∈ lcache_elems t ∧ eq i = true
      | None => ∀ i, (h, i) ∈ lcache_elems t → eq i = false
      end;
  lcache_insert_ok t i h eq :
    lcache_wf t → Z.of_nat (length (lcache_elems t)) < lcache_limit →
    (∀ j, (h, j) ∈ lcache_elems t → eq j = false) →
    ∃ t', lcache_insert_hash t i h eq = Ok (t', false) ∧ lcache_wf t' ∧ lcache_elems t' ≡ₚ (h, i) :: lcache_elems t;
  lcache_delete_ok t h eq i l :
    lcache_wf t → lcache_elems t ≡ₚ (h, i) :: l → eq i = true → (∀ j, (h, j) ∈ l → eq j = false) →
    ∃ t', lcache_delete t h eq = Ok t' ∧ lcache_wf t' ∧ lcache_elems t' ≡ₚ l
}.

(** ** Entries and caches *)

(** [ce_key]: the raw varlenas, [None] where [keynull] is set *)
Record LambdaCacheEntry := mkEntry {
  ce_key : list (option varlena);
  ce_hash : Z;
  ce_tree : Node;
  ce_body : Node;
  ce_jit_done : bool;
  ce_uses : Z
}.

Record LambdaCache (T : Type) := mkCache {
  c_heap : gmap nat LambdaCacheEntry;
  c_fresh : nat;
  c_table : T;
  c_lru : list nat;
  c_nentries : Z;
  c_evictions : Z;
  c_last : option nat
}.
Arguments mkCache {T}.
Arguments c_heap {T}.
Arguments c_fresh {T}.
Arguments c_table {T}.
Arguments c_lru {T}.
Arguments c_nentries {T}.
Arguments c_evictions {T}.
Arguments c_last {T}.

Definition lambda_cache_key_equal (a b : list (option varlena)) : bool := bool_decide (a = b).

(** [hash_combine] of [common/hashfn.h] *)
Definition hash_combine (a b : Z) : Z :=
  Z.lxor a (uint32 (b + 0x9e3779b9 + uint32 (Z.shiftl a 6) + Z.shiftr a 2)).

(** settings, the query's JIT flags, and [hash_bytes] on a whole varlena *)
Record CacheConfig := mkConfig {
  custom_lambda_cache_size : Z;
  custom_lambda_jit_after_uses : Z;
  has_estate : bool;
  jit_perform : bool;
  hash_varlena : varlena → Z;
  hoisting : bool
}.

Definition lambda_cache_hash_key (cfg : CacheConfig) (key : list (option varlena)) : Z :=
  foldl (fun hash v => hash_combine hash (match v with None => 0 | Some v => hash_varlena cfg v end)) 0 key.

Section Cache.
Context `{NodeIO} `{TypeCache} `{ExecParams} {T : Type} `{LCacheTable T}.
Context (cfg : CacheConfig).

Definition lambda_cache_create : outcome (LambdaCache T) :=
  table ← lcache_create; Ok (mkCache ∅ 0 table [] 0 0 None).

(** go on with the result of a call, or leave the cache as it is and fail *)
Definition on_ok {A B} (m : outcome A) (c : LambdaCache T) (k : A → LambdaCache T * outcome B) : LambdaCache T * outcome B :=
  match m with
  | Ok a => k a
  | Err e => (c, Err e)
  | UB => (c, UB)
  | OutOfFuel => (c, OutOfFuel)
  end.

(** the part of a key a value contributes; anything but a varlena cannot be read *)
Definition key_part (v : option Datum) : outcome (option varlena) :=
  match v with
  | None => Ok None
  | Some (DVarlena v) => Ok (Some v)
  | Some _ => UB
  end.

(** [cache->probe]: the called lambda and the lambda-typed arguments *)
Definition probe_key (key_idx : list Z) (lambda_value : Datum) (vs : list (option Datum))
  : outcome (list (option varlena)) :=
  k0 ← key_part (Some lambda_value);
  ks ← omapM (fun i => v ← deref (vs !! Z.to_nat i); key_part v) key_idx;
  Ok (k0 :: ks).

(** the key predicate handed to the table: the entry at an address has this key *)
Definition entry_is (c : LambdaCache T) (key : list (option varlena)) (i : nat) : bool :=
  match c_heap c !! i with
  | Some e => lambda_cache_key_equal (ce_key e) key
  | None => false
  end.

Definition dlist_delete (i : nat) (l : list nat) : list nat := filter (fun j => j ≠ i) l.

(** one round of the eviction loop *)
Definition lambda_cache_evict (c : LambdaCache T) : outcome (LambdaCache T) :=
  victim ← deref (last (c_lru c));
  e ← deref (c_heap c !! victim);
  table ← lcache_delete (c_table c) (ce_hash e) (entry_is c (ce_key e));
  Ok (mkCache (delete victim (c_heap c)) (c_fresh c) table
        (dlist_delete victim (c_lru c)) (c_nentries c - 1) (uint64 (c_evictions c + 1))
        (if bool_decide (c_last c = Some victim) then None else c_last c)).

Fixpoint lambda_cache_make_room (fuel : nat) (c : LambdaCache T) : outcome (LambdaCache T) :=
  if (c_nentries c >? 0) && (c_nentries c >=? custom_lambda_cache_size cfg) then
    match fuel with
    | O => OutOfFuel
    | S fuel => c ← lambda_cache_evict c; lambda_cache_make_room fuel c
    end
  else Ok c.

(** the entry [lambda_cache_build] returns, once its body [tree] is built *)
Definition new_entry (key : list (option varlena)) (h : Z) (tree : Node) : LambdaCacheEntry :=
  mkEntry key h tree tree (negb (has_estate cfg && negb (custom_lambda_jit_after_uses cfg =? 0))) 0.

Definition lambda_cache_insert (fuel : nat) (key_idx : list Z) (d : Datum) (vs : list (option Datum))
    (key : list (option varlena)) (h : Z) (c : LambdaCache T) : LambdaCache T * outcome nat :=
  on_ok (lambda_cache_make_room (length (c_lru c)) c) c (fun c =>
  on_ok (lambda_body (hoisting cfg) fuel key_idx d vs) c (fun tree =>
  let i := c_fresh c in
  on_ok (lcache_insert_hash (c_table c) i h (entry_is c key)) c (fun '(table, _) =>
  (mkCache (<[i := new_entry key h tree]> (c_heap c)) (S i) table (i :: c_lru c)
     (c_nentries c + 1) (c_evictions c) (c_last c), Ok i)))).

(** a compiled body computes what the interpreted one does: it is rebuilt from
    the same tree *)
Definition lambda_cache_jit (c : LambdaCache T) (e : LambdaCacheEntry) : LambdaCacheEntry :=
  if negb (has_estate cfg) || negb (jit_perform cfg) || (c_evictions c >? custom_lambda_cache_size cfg)
  then mkEntry (ce_key e) (ce_hash e) (ce_tree e) (ce_body e) true (ce_uses e)
  else mkEntry (ce_key e) (ce_hash e) (ce_tree e) (ce_tree e) true (ce_uses e).

(** [entry->uses++], the JIT decision, and the body *)
Definition lambda_cache_use (c : LambdaCache T) (i : nat) : LambdaCache T * outcome Node :=
  match c_heap c !! i with
  | None => (c, UB)
  | Some e =>
      let uses := uint64 (ce_uses e + 1) in
      let e := mkEntry (ce_key e) (ce_hash e) (ce_tree e) (ce_body e) (ce_jit_done e) uses in
      let e := if negb (ce_jit_done e) && (custom_lambda_jit_after_uses cfg >? 0)
                  && (uses >=? custom_lambda_jit_after_uses cfg)
               then lambda_cache_jit c e else e in
      (mkCache (<[i := e]> (c_heap c)) (c_fresh c) (c_table c) (c_lru c) (c_nentries c)
         (c_evictions c) (c_last c), Ok (ce_body e))
  end.

Definition set_last (c : LambdaCache T) (lru : list nat) (i : nat) : LambdaCache T :=
  mkCache (c_heap c) (c_fresh c) (c_table c) lru (c_nentries c) (c_evictions c) (Some i).

(** search the table, and build an entry if there is none *)
Definition lambda_cache_search (fuel : nat) (key_idx : list Z) (d : Datum) (vs : list (option Datum))
    (key : list (option varlena)) (c : LambdaCache T) : LambdaCache T * outcome nat :=
  let h := lambda_cache_hash_key cfg key in
  on_ok (lcache_lookup_hash (c_table c) h (entry_is c key)) c (fun slot =>
  match slot with
  | Some i => (set_last c (i :: dlist_delete i (c_lru c)) i, Ok i)
  | None =>
      let '(c, r) := lambda_cache_insert fuel key_idx d vs key h c in
      on_ok r c (fun i => (set_last c (c_lru c) i, Ok i))
  end).

(** the previous row's entry is checked before hashing *)
Definition lambda_cache_find (fuel : nat) (key_idx : list Z) (d : Datum) (vs : list (option Datum))
    (key : list (option varlena)) (c : LambdaCache T) : LambdaCache T * outcome nat :=
  match c_last c with
  | Some i => if entry_is c key i then (c, Ok i) else lambda_cache_search fuel key_idx d vs key c
  | None => lambda_cache_search fuel key_idx d vs key c
  end.

(** [clestate->cache] is [None] before the first call *)
Definition lambda_cache_body (fuel : nat) (key_idx : list Z) (cache : option (LambdaCache T)) (d : Datum)
    (vs : list (option Datum)) : option (LambdaCache T) * outcome Node :=
  match (match cache with Some c => Ok c | None => lambda_cache_create end) with
  | Ok c =>
      let '(c, r) :=
        on_ok (probe_key key_idx d vs) c (fun key =>
        let '(c, r) := lambda_cache_find fuel key_idx d vs key c in
        on_ok r c (fun i => lambda_cache_use c i)) in
      (Some c, r)
  | Err e => (None, Err e)
  | UB => (None, UB)
  | OutOfFuel => (None, OutOfFuel)
  end.

(** a call site over a sequence of rows *)
Fixpoint lambda_cache_rows (fuel : nat) (key_idx : list Z) (cache : option (LambdaCache T))
    (rows : list (Datum * list (option Datum))) : option (LambdaCache T) * list (outcome Node) :=
  match rows with
  | [] => (cache, [])
  | (d, vs) :: rows =>
      let '(c, r) := lambda_cache_body fuel key_idx cache d vs in
      let '(c, rs) := lambda_cache_rows fuel key_idx c rows in
      (c, r :: rs)
  end.
End Cache.
