(* ===== verification/CacheFacts.v ===== *)
(** * Facts about the lambda cache

    A body depends on its cache key only; the invariant of a cache and its
    preservation by eviction, insertion, lookup and use. *)

From S2P Require Import Prelude Bitmapset Nodes NodesFacts Serialize Inject InjectFacts Eval Cache.

(** ** The body is determined by the key *)

Section KeyDetermined.
Context `{NodeIO} `{TypeCache} `{ExecParams}.

Lemma bind_func_inputs_agree i fs vals vals' nulls nulls' :
  (∀ j, fs !! j = Some true → vals !! j = vals' !! j ∧ nulls !! j = nulls' !! j) →
  bind_func_inputs i fs vals nulls = bind_func_inputs i fs vals' nulls'.
Proof.
  revert i vals vals' nulls nulls'; induction fs as [|f fs IH]; intros i vals vals' nulls nulls' Hag; [done|].
  cbn [bind_func_inputs]. rewrite (IH (i + 1) (tail vals) (tail vals') (tail nulls) (tail nulls')).
  2:{ intros j Hj. rewrite !lookup_tail. by apply (Hag (S j)). }
  destruct f; [|done]. destruct (Hag O eq_refl) as [Hv Hn].
  rewrite <- !head_lookup in Hv. rewrite <- !head_lookup in Hn. by rewrite Hv, Hn.
Qed.

Lemma true_indices_in i0 fs j : fs !! j = Some true → i0 + Z.of_nat j ∈ true_indices i0 fs.
Proof.
  revert i0 j; induction fs as [|f fs IH]; intros i0 [|j] Hj; try done; simpl in *.
  - injection Hj as ->. rewrite Z.add_0_r. set_solver.
  - specialize (IH (i0 + 1) j Hj). replace (i0 + Z.of_nat (S j)) with (i0 + 1 + Z.of_nat j) by lia.
    destruct f; set_solver.
Qed.

Lemma check_embedded_inv l key x : check_embedded l key = Ok tt → x ∈ l → x ∈ key.
Proof.
  induction l as [|y l IH]; intros Hc Hx; [set_solver|]. simpl in Hc.
  destruct (existsb (Z.eqb y) key) eqn:He; [|done]. apply elem_of_cons in Hx as [->|Hx]; [|by apply IH].
  apply existsb_exists in He as (z & Hz & ->%Z.eqb_eq). by apply list_elem_of_In.
Qed.

(** the inputs the injector binds are those [lambda_scalar_func_inputs] reports *)
Lemma prescan_reported m n j :
  isFunc (scalar_prescan (Some m) (mkScalarPrescan (palloc0_bools n) None n)) !! j = Some true →
  Z.of_nat j ∈ lambda_scalar_func_inputs (Some m) n.
Proof.
  intros Hj. unfold lambda_scalar_func_inputs. destruct (le_expr m) as [e|] eqn:He.
  - destruct (Z.leb_spec n 0) as [Hn|Hn]; [|by apply (true_indices_in 0)].
    unfold scalar_prescan in Hj. rewrite He in Hj. cbn [sp_nargs] in Hj.
    rewrite Z.gtb_ltb, (proj2 (Z.ltb_ge _ _)) in Hj by lia. unfold palloc0_bools in Hj. simpl in Hj.
    replace (Z.to_nat n) with O in Hj by lia. done.
  - unfold scalar_prescan in Hj. rewrite He in Hj. simpl in Hj.
    apply list_elem_of_lookup_2, list_elem_of_In, repeat_spec in Hj. done.
Qed.

Lemma injector_agree fuel m vs vs' key :
  length vs = length vs' → (∀ k, k ∈ key → vs !! Z.to_nat k = vs' !! Z.to_nat k) →
  check_embedded (lambda_scalar_func_inputs (Some m) (Z.of_nat (length vs))) key = Ok tt →
  lambda_injector_scalar fuel (Some m) (datum_or_zero <$> vs) (is_null <$> vs) (Z.of_nat (length vs))
  = lambda_injector_scalar fuel (Some m) (datum_or_zero <$> vs') (is_null <$> vs') (Z.of_nat (length vs)).
Proof.
  intros Hl Hag Hc. unfold lambda_injector_scalar. erewrite bind_func_inputs_agree; [done|].
  intros j Hj. apply prescan_reported in Hj. apply (check_embedded_inv _ _ _ Hc) in Hj.
  apply Hag in Hj. rewrite Nat2Z.id in Hj. by rewrite !list_lookup_fmap, Hj.
Qed.

Lemma lambda_body_agree hoist fuel key d vs vs' :
  length vs = length vs' → (∀ k, k ∈ key → vs !! Z.to_nat k = vs' !! Z.to_nat k) →
  lambda_body hoist fuel key d vs = lambda_body hoist fuel key d vs'.
Proof.
  intros Hl Hag. unfold lambda_body. destruct (datum_lambda d) as [[m|]| | |]; try done. cbn [mbind outcome_bind].
  destruct (le_expr m) as [e|]; [|done]. rewrite <- Hl. destruct (_ >? _); [done|]. f_equal.
  destruct (hoist && _); [|done].
  destruct (check_embedded _ key) as [[]| | |] eqn:Hc; try done. cbn [mbind outcome_bind].
  by rewrite (injector_agree fuel m vs vs' key Hl Hag Hc).
Qed.
End KeyDetermined.

Lemma key_part_inj v v' k : key_part v = Ok k → key_part v' = Ok k → v = v'.
Proof. destruct v as [[]|], v' as [[]|]; simpl; congruence. Qed.

Lemma probe_key_inj key_idx d d' vs vs' key :
  probe_key key_idx d vs = Ok key → probe_key key_idx d' vs' = Ok key →
  d = d' ∧ ∀ k, k ∈ key_idx → vs !! Z.to_nat k = vs' !! Z.to_nat k.
Proof.
  intros (k0 & H0 & (ks & Hks & [= <-])%bind_Ok_inv)%bind_Ok_inv
         (k0' & H0' & (ks' & Hks' & [= -> ->])%bind_Ok_inv)%bind_Ok_inv.
  pose proof (key_part_inj _ _ _ H0 H0') as Hd. injection Hd as ->. split; [done|].
  clear H0 H0'. revert ks Hks Hks'. induction key_idx as [|k l IH]; intros ks Hks Hks' x Hx; [set_solver|].
  cbn [omapM] in Hks, Hks'.
  apply bind_Ok_inv in Hks as (a & (v & Hv & Ha)%bind_Ok_inv & (r & Hr & [= <-])%bind_Ok_inv).
  apply bind_Ok_inv in Hks' as (a' & (v' & Hv' & Ha')%bind_Ok_inv & (r' & Hr' & [= -> ->])%bind_Ok_inv).
  apply elem_of_cons in Hx as [->|Hx]; [|by eapply IH]. pose proof (key_part_inj _ _ _ Ha Ha') as ->.
  destruct (vs !! Z.to_nat k), (vs' !! Z.to_nat k); try done. simpl in *. congruence.
Qed.

(** ** The invariant *)

Section Invariant.
Context `{NodeIO} `{TypeCache} `{ExecParams} {T : Type} `{LT : LCacheTable T} `{!LCacheLaws T}.
(** one call site: its settings, key positions and number of arguments *)
Context (cfg : CacheConfig) (fuel : nat) (key_idx : list Z) (nargs : nat).
Context (Hlimit : custom_lambda_cache_size cfg ≤ lcache_limit (T := T)).

(** [tree] is the body of the call that [key] describes *)
Definition built (key : list (option varlena)) (tree : Node) : Prop :=
  ∃ d vs, length vs = nargs ∧ probe_key key_idx d vs = Ok key
          ∧ lambda_body (hoisting cfg) fuel key_idx d vs = Ok tree.

Definition key_at (c : LambdaCache T) (i : nat) : list (option varlena) :=
  match c_heap c !! i with Some e => ce_key e | None => [] end.

Definition hash_at (c : LambdaCache T) (i : nat) : Z * nat :=
  (match c_heap c !! i with Some e => ce_hash e | None => 0 end, i).

(** the cached keys, most recently used first *)
Definition cache_keys (c : LambdaCache T) : list (list (option varlena)) := key_at c <$> c_lru c.

(** what holds of every entry: its hash, and its body *)
Record entry_ok (e : LambdaCacheEntry) : Prop := {
  eo_hash : ce_hash e = lambda_cache_hash_key cfg (ce_key e);
  eo_body : ce_body e = ce_tree e;
  eo_built : built (ce_key e) (ce_tree e)
}.

Record cache_inv (c : LambdaCache T) : Prop := {
  ci_nodup : NoDup (c_lru c);
  ci_dom i : i ∈ c_lru c ↔ is_Some (c_heap c !! i);
  ci_fresh i : i ∈ c_lru c → (i < c_fresh c)%nat;
  ci_count : c_nentries c = Z.of_nat (length (c_lru c));
  ci_wf : lcache_wf (c_table c);
  ci_table : lcache_elems (c_table c) ≡ₚ hash_at c <$> c_lru c;
  ci_keys i j e e' : c_heap c !! i = Some e → c_heap c !! j = Some e' → ce_key e = ce_key e' → i = j;
  ci_entries i e : c_heap c !! i = Some e → entry_ok e
}.

(** the last used entry, if it still exists, is the most recently used one *)
Definition last_ok (c : LambdaCache T) : Prop := c_last c = None ∨ c_last c = head (c_lru c).

Definition cache_ok (c : LambdaCache T) : Prop := cache_inv c ∧ last_ok c.

Lemma create_ok : ∃ c, lambda_cache_create = Ok c ∧ cache_ok c ∧ c_lru c = [].
Proof.
  destruct lcache_create_ok as (t & Ht & Hwf & Hel). unfold lambda_cache_create. rewrite Ht. cbn [mbind outcome_bind].
  eexists. split; [done|]. split; [|done]. split; [|by left]. split; simpl.
  - constructor.
  - intros i. rewrite lookup_empty. split; [set_solver|by intros [? ?]].
  - set_solver.
  - done.
  - done.
  - by rewrite Hel.
  - intros i j e e'. by rewrite lookup_empty.
  - intros i e. by rewrite lookup_empty.
Qed.

Lemma entry_is_true (c : LambdaCache T) key i : entry_is c key i = true ↔ ∃ e, c_heap c !! i = Some e ∧ ce_key e = key.
Proof.
  unfold entry_is, lambda_cache_key_equal. destruct (c_heap c !! i) as [e|]; [|naive_solver].
  rewrite bool_decide_eq_true. naive_solver.
Qed.

Lemma entry_is_other (c : LambdaCache T) i j e :
  cache_inv c → c_heap c !! i = Some e → i ≠ j → entry_is c (ce_key e) j = false.
Proof.
  intros Hc Hi Hne. destruct (entry_is c (ce_key e) j) eqn:Hj; [|done].
  apply entry_is_true in Hj as (e' & He' & Hk). destruct Hne. by eapply (ci_keys c Hc).
Qed.

Lemma dlist_delete_notin i l : i ∉ l → dlist_delete i l = l.
Proof.
  induction l as [|x l IH]; intros Hi; [done|]. unfold dlist_delete. rewrite filter_cons.
  destruct (decide (x ≠ i)); [|set_solver]. f_equal. apply IH. set_solver.
Qed.

Lemma dlist_delete_app i l k : dlist_delete i (l ++ k) = dlist_delete i l ++ dlist_delete i k.
Proof. apply filter_app. Qed.

(** ** Eviction *)

Lemma evict_ok c l v :
  cache_ok c → c_lru c = l ++ [v] →
  ∃ c', lambda_cache_evict c = Ok c' ∧ cache_ok c' ∧ c_lru c' = l ∧ cache_keys c' = key_at c <$> l.
Proof.
  intros [Hc Hlast] Hl. pose proof (ci_nodup c Hc) as Hnd. rewrite Hl in Hnd.
  apply NoDup_app in Hnd as (Hndl & Hdis & _). assert (v ∉ l) as Hv by set_solver.
  destruct (proj1 (ci_dom c Hc v)) as [e He]; [rewrite Hl; set_solver|].
  unfold lambda_cache_evict. rewrite Hl, last_snoc. cbn [deref mbind outcome_bind]. rewrite He.
  assert (dlist_delete v (l ++ [v]) = l) as Hdel.
  { rewrite dlist_delete_app, (dlist_delete_notin v l Hv). unfold dlist_delete. rewrite filter_cons_False by (by intros []).
    by rewrite app_nil_r. }
  assert (∀ i, i ∈ l → delete v (c_heap c) !! i = c_heap c !! i) as Hheap.
  { intros i Hi. apply lookup_delete_ne. set_solver. }
  assert (hash_at c <$> l = (fun i => (match delete v (c_heap c) !! i with Some e => ce_hash e | None => 0 end, i)) <$> l) as Hhash.
  { apply list_fmap_ext. intros k i Hi. unfold hash_at. rewrite Hheap; [done|]. by eapply list_elem_of_lookup_2. }
  destruct (lcache_delete_ok (c_table c) (ce_hash e) (entry_is c (ce_key e)) v (hash_at c <$> l)) as (t & Htd & Htw & Htel).
  { apply (ci_wf c Hc). }
  { rewrite (ci_table c Hc), Hl, fmap_app. simpl. rewrite Permutation_app_comm. simpl. unfold hash_at at 1. by rewrite He. }
  { apply entry_is_true. by exists e. }
  { intros j (i & [= _ ->] & Hi)%list_elem_of_fmap. apply (entry_is_other c v i e Hc He). set_solver. }
  cbn [deref mbind outcome_bind]. rewrite Htd. cbn [mbind outcome_bind].
  eexists. split; [done|]. rewrite Hdel. split_and!; [split|done|].
  - split; cbn [c_heap c_lru c_nentries c_table c_fresh].
    + done.
    + intros i. rewrite lookup_delete_is_Some, <- (ci_dom c Hc), Hl. set_solver.
    + intros i Hi. apply (ci_fresh c Hc). rewrite Hl. set_solver.
    + rewrite (ci_count c Hc), Hl, length_app. simpl. lia.
    + done.
    + change (hash_at _) with (fun i => (match delete v (c_heap c) !! i with Some e => ce_hash e | None => 0 end, i)).
      by rewrite <- Hhash.
    + intros i j e1 e2 [_ He1]%lookup_delete_Some [_ He2]%lookup_delete_Some. by apply (ci_keys c Hc).
    + intros i e1 [_ He1]%lookup_delete_Some. by apply (ci_entries c Hc i).
  - unfold last_ok. cbn [c_last c_lru]. case_bool_decide as Hlv; [by left|].
    destruct Hlast as [->|Hh]; [by left|]. right. rewrite Hh, Hl in *. destruct l; [by simpl in Hlv|done].
  - unfold cache_keys. cbn [c_lru]. apply list_fmap_ext. intros k i Hi. unfold key_at. cbn [c_heap].
    rewrite Hheap; [done|]. by eapply list_elem_of_lookup_2.
Qed.

(** how many entries remain when room is made for another one *)
Definition room : nat := Z.to_nat (custom_lambda_cache_size cfg - 1).

Lemma cache_keys_length c : length (cache_keys c) = length (c_lru c).
Proof. apply length_fmap. Qed.

(** the least recently used entries are dropped *)
Lemma make_room_ok n c :
  cache_ok c → (length (c_lru c) ≤ n)%nat →
  ∃ c', lambda_cache_make_room cfg n c = Ok c' ∧ cache_ok c' ∧ cache_keys c' = take room (cache_keys c).
Proof.
  revert c; induction n as [|n IH]; intros c Hc Hn.
  - exists c. simpl. rewrite (ci_count c (proj1 Hc)). replace (length (c_lru c)) with O by lia. simpl.
    split_and!; [done..|]. rewrite take_ge; [done|]. rewrite cache_keys_length. lia.
  - cbn [lambda_cache_make_room]. rewrite (ci_count c (proj1 Hc)). rewrite Z.gtb_ltb, Z.geb_leb.
    destruct (Z.ltb_spec 0 (Z.of_nat (length (c_lru c)))) as [Hpos|Hpos]; simpl.
    2:{ exists c. split_and!; [done..|]. rewrite take_ge; [done|]. rewrite cache_keys_length. lia. }
    destruct (Z.leb_spec (custom_lambda_cache_size cfg) (Z.of_nat (length (c_lru c)))) as [Hs|Hs].
    2:{ exists c. split_and!; [done..|]. rewrite take_ge; [done|]. rewrite cache_keys_length. unfold room. lia. }
    destruct (exists_last (l := c_lru c)) as (l & v & Hl); [by intros Hnil; rewrite Hnil in Hpos|].
    destruct (evict_ok c l v Hc Hl) as (c1 & He & Hc1 & Hl1 & Hk1). rewrite He. cbn [mbind outcome_bind].
    rewrite Hl, length_app in Hn, Hs. simpl in Hn, Hs.
    destruct (IH c1 Hc1) as (c' & Hc' & Hok & Hk); [rewrite Hl1; lia|].
    exists c'. split_and!; [done..|]. rewrite Hk, Hk1. unfold cache_keys. rewrite Hl, fmap_app, take_app_le; [done|].
    rewrite length_fmap. unfold room. lia.
Qed.

(** ** Lookup *)

Lemma lookup_found c key h i :
  cache_inv c → (h, i) ∈ lcache_elems (c_table c) → entry_is c key i = true →
  i ∈ c_lru c ∧ ∃ e, c_heap c !! i = Some e ∧ ce_key e = key.
Proof.
  intros Hc Hin He%entry_is_true. split; [|done].
  rewrite (ci_table c Hc) in Hin. by apply list_elem_of_fmap in Hin as (j & [= _ ->] & Hj).
Qed.

Lemma lookup_missing c key :
  cache_inv c → (∀ i, (lambda_cache_hash_key cfg key, i) ∈ lcache_elems (c_table c) → entry_is c key i = false) →
  key ∉ cache_keys c.
Proof.
  intros Hc Hn (i & Hk & Hi)%list_elem_of_fmap. destruct (proj1 (ci_dom c Hc i) Hi) as [e He].
  assert (ce_key e = key) as Hek by (unfold key_at in Hk; by rewrite He in Hk).
  assert (entry_is c key i = false) as Hf.
  { apply Hn. rewrite (ci_table c Hc). apply list_elem_of_fmap. exists i.
    split; [|done]. unfold hash_at. rewrite He. f_equal. rewrite (eo_hash e (ci_entries c Hc i e He)). by rewrite Hek. }
  rewrite (proj2 (entry_is_true c key i)) in Hf; [done|]. by exists e.
Qed.

(** moving an entry to the front *)
Lemma move_head_ok c i :
  cache_inv c → i ∈ c_lru c → cache_ok (set_last c (i :: dlist_delete i (c_lru c)) i).
Proof.
  intros Hc Hi. assert (i :: dlist_delete i (c_lru c) ≡ₚ c_lru c) as Hperm.
  { pose proof (ci_nodup c Hc) as Hnd. apply list_elem_of_split in Hi as (l1 & l2 & Hl).
    rewrite Hl in Hnd |- *.
    apply NoDup_app in Hnd as (_ & Hd & [Hi2 _]%NoDup_cons). rewrite dlist_delete_app.
    assert (i ∉ l1) as Hi1 by set_solver. rewrite (dlist_delete_notin i l1 Hi1). unfold dlist_delete at 1.
    rewrite filter_cons_False by (by intros []). fold (dlist_delete i l2). rewrite (dlist_delete_notin i l2 Hi2).
    apply Permutation_middle. }
  split; [|by right]. destruct Hc as [Hnd Hdom Hfr Hct Hwf Htb Hk He]. split; cbn [set_last c_heap c_lru c_fresh c_nentries c_table].
  - by rewrite Hperm.
  - intros j. by rewrite <- Hdom, Hperm.
  - intros j. rewrite Hperm. apply Hfr.
  - by rewrite Hperm.
  - done.
  - rewrite Htb. change (hash_at (set_last _ _ _)) with (hash_at c). by rewrite Hperm.
  - done.
  - done.
Qed.

(** ** A whole call *)

(** the keys after a successful call *)
Definition touch (key : list (option varlena)) (ks : list (list (option varlena))) : list (list (option varlena)) :=
  if decide (key ∈ ks) then key :: filter (fun k => k ≠ key) ks else key :: take room ks.

Lemma keys_delete c i e :
  cache_inv c → c_heap c !! i = Some e →
  key_at c <$> dlist_delete i (c_lru c) = filter (fun k => k ≠ ce_key e) (cache_keys c).
Proof.
  intros Hc Hi. unfold cache_keys. assert (∀ j, j ∈ c_lru c → is_Some (c_heap c !! j)) as Hdom by (intros; by apply (ci_dom c Hc)).
  induction (c_lru c) as [|j l IH]; [done|]. specialize (IH ltac:(set_solver)). unfold dlist_delete in *.
  rewrite fmap_cons, !filter_cons. destruct (Hdom j) as [e' He']; [set_solver|].
  assert (key_at c j = ce_key e') as Hk by (unfold key_at; by rewrite He').
  destruct (decide (j ≠ i)) as [Hne|Heq], (decide (key_at c j ≠ ce_key e)) as [Hkn|Hke].
  - by rewrite fmap_cons, IH.
  - destruct Hke. intros Hkk. apply Hne. eapply (ci_keys c Hc); [done|done|congruence].
  - destruct Hkn. assert (j = i) as -> by (by destruct (decide (j = i))). congruence.
  - done.
Qed.

(** inserting a new entry at the front *)
Lemma insert_ok c key tree :
  cache_ok c → key ∉ cache_keys c → built key tree → Z.of_nat (length (c_lru c)) < lcache_limit (T := T) →
  let h := lambda_cache_hash_key cfg key in
  let i := c_fresh c in
  ∃ table, lcache_insert_hash (c_table c) i h (entry_is c key) = Ok (table, false) ∧
  let c' := mkCache (<[i := new_entry cfg key h tree]> (c_heap c)) (S i) table (i :: c_lru c)
              (c_nentries c + 1) (c_evictions c) (c_last c) in
  cache_ok (set_last c' (c_lru c') i) ∧ cache_keys c' = key :: cache_keys c.
Proof.
  intros [Hc _] Hkey Hbuilt Hlim h i. destruct Hc as [Hnd Hdom Hfr Hct Hwf Htb Hk He].
  assert (∀ j e, c_heap c !! j = Some e → ce_key e ≠ key) as Hne.
  { intros j e Hj Heq. apply Hkey. apply list_elem_of_fmap. exists j. split; [unfold key_at; by rewrite Hj|by apply Hdom]. }
  destruct (lcache_insert_ok (c_table c) i h (entry_is c key) Hwf) as (table & Hins & Hwf' & Hel).
  { by rewrite Htb, length_fmap. }
  { intros j _. destruct (entry_is c key j) eqn:Hj; [|done]. apply entry_is_true in Hj as (e & Hej & Hek). by destruct (Hne j e). }
  exists table. split; [done|]. intros c'.
  assert (i ∉ c_lru c) as Hi by (intros Hin; apply Hfr in Hin; unfold i in Hin; lia).
  assert (∀ j, j ∈ c_lru c → c_heap c' !! j = c_heap c !! j) as Hheap.
  { intros j Hj. simpl. apply lookup_insert_ne. intros <-. done. }
  assert (c_heap c' !! i = Some (new_entry cfg key h tree)) as Hnew by apply lookup_insert_eq.
  split; [split; [|by right]|].
  - split; cbn [set_last c_heap c_lru c_fresh c_nentries c_table].
    + by constructor.
    + intros j. simpl. rewrite elem_of_cons, lookup_insert_is_Some. rewrite Hdom. destruct (decide (i = j)); naive_solver.
    + simpl. intros j [->|Hj]%elem_of_cons; [lia|]. apply Hfr in Hj. unfold i. lia.
    + unfold c'. cbn [c_nentries c_lru length]. rewrite Hct. lia.
    + done.
    + change (hash_at (set_last _ _ _)) with (hash_at c'). cbn [c' c_lru c_table].
      assert (hash_at c' <$> c_lru c = hash_at c <$> c_lru c) as Hsame.
      { apply list_fmap_ext. intros k j Hj. unfold hash_at. rewrite Hheap; [done|]. by eapply list_elem_of_lookup_2. }
      rewrite Hel, Htb, fmap_cons, Hsame. unfold hash_at at 2. by rewrite Hnew.
    + unfold c'. cbn [c_heap]. intros j1 j2 e1 e2 [[<- <-]|[Hn1 He1]]%lookup_insert_Some [[<- <-]|[Hn2 He2]]%lookup_insert_Some Hkk; try done.
      * by destruct (Hne j2 e2).
      * by destruct (Hne j1 e1).
      * by eapply Hk.
    + unfold c'. cbn [c_heap]. intros j e [[<- <-]|[_ Hej]]%lookup_insert_Some; [by split|by apply (He j)].
  - unfold cache_keys at 1. cbn [c' c_lru]. rewrite fmap_cons. f_equal; [unfold key_at; by rewrite Hnew|].
    apply list_fmap_ext. intros k j Hj. unfold key_at. rewrite Hheap; [done|]. by eapply list_elem_of_lookup_2.
Qed.

(** the same error, or the same undefined behaviour *)
Definition same_failure {A B} (a : outcome A) (b : outcome B) : Prop :=
  match a, b with
  | Err e, Err e' => e = e'
  | UB, UB | OutOfFuel, OutOfFuel => True
  | _, _ => False
  end.

(** what finding the entry for a probe does: on success the entry holds the
    body of this call and is the most recently used one; on failure the cache
    has room for it *)
Definition found (c : LambdaCache T) (key : list (option varlena)) (body : outcome Node)
    (p : LambdaCache T * outcome nat) : Prop :=
  cache_ok (p.1)
  ∧ ((∃ i e, p.2 = Ok i ∧ c_heap (p.1) !! i = Some e ∧ ce_key e = key ∧ body = Ok (ce_body e)
             ∧ cache_keys (p.1) = touch key (cache_keys c))
     ∨ (same_failure body (p.2) ∧ ¬ (key ∈ cache_keys c) ∧ cache_keys (p.1) = take room (cache_keys c))).

(** an entry with the key of this call has the body of this call *)
Lemma entry_body c i e d vs key :
  cache_inv c → c_heap c !! i = Some e → ce_key e = key → length vs = nargs → probe_key key_idx d vs = Ok key →
  lambda_body (hoisting cfg) fuel key_idx d vs = Ok (ce_body e).
Proof.
  intros Hc Hi Hk Hl Hp. destruct (ci_entries c Hc i e Hi) as [_ -> (d' & vs' & Hl' & Hp' & Hb)]. rewrite Hk in Hp'.
  destruct (probe_key_inj _ _ _ _ _ _ Hp Hp') as [-> Hag]. rewrite <- Hb. apply lambda_body_agree; [congruence|done].
Qed.

(** with room made, the table takes one more *)
Lemma room_limit c ks : cache_keys c = take room ks → Z.of_nat (length (c_lru c)) < lcache_limit (T := T).
Proof.
  intros Hk. assert (length (c_lru c) ≤ room)%nat as Hl.
  { rewrite <- cache_keys_length, Hk, length_take. lia. }
  pose proof (lcache_limit_pos (T := T)). unfold room in Hl. lia.
Qed.

Lemma search_ok c d vs key :
  cache_ok c → length vs = nargs → probe_key key_idx d vs = Ok key →
  found c key (lambda_body (hoisting cfg) fuel key_idx d vs) (lambda_cache_search cfg fuel key_idx d vs key c).
Proof.
  intros Hc Hl Hp. unfold lambda_cache_search, found. pose proof (proj1 Hc) as Hinv.
  destruct (lcache_lookup_ok (c_table c) (lambda_cache_hash_key cfg key) (entry_is c key) (ci_wf c Hinv)) as ([i|] & -> & Hlook);
    cbn [on_ok].
  - destruct Hlook as [Hin Heq]. destruct (lookup_found c key _ i Hinv Hin Heq) as (Hi & e & He & Hk).
    split; [by apply move_head_ok|]. left.
    exists i, e. cbn [fst snd set_last c_heap]. split_and!; [done..|by eapply entry_body|].
    unfold cache_keys at 1. cbn [c_lru set_last]. rewrite fmap_cons. change (key_at (set_last _ _ _)) with (key_at c).
    rewrite (keys_delete c i e Hinv He), Hk. unfold touch. unfold key_at at 1. rewrite He, Hk.
    rewrite decide_True; [done|]. apply list_elem_of_fmap. exists i. split; [unfold key_at; by rewrite He|done].
  - pose proof (lookup_missing c key Hinv Hlook) as Hmiss. unfold lambda_cache_insert.
    destruct (make_room_ok (length (c_lru c)) c Hc ltac:(lia)) as (c1 & -> & Hc1 & Hk1). cbn [on_ok].
    assert (key ∉ cache_keys c1) as Hmiss1 by (rewrite Hk1; intros (j & Hj & _)%elem_of_take; by apply list_elem_of_lookup_2 in Hj).
    destruct (lambda_body _ _ _ _ _) as [tree| | |] eqn:Hb; cbn [on_ok]; try (split; [done|]; right; done).
    destruct (insert_ok c1 key tree Hc1 Hmiss1) as (table & -> & Hok & Hkeys); [by exists d, vs|by eapply room_limit|].
    split; [exact Hok|]. left.
    eexists _, _. split_and!; [done|apply lookup_insert_eq|done|done|].
    etransitivity; [exact Hkeys|]. unfold touch. by rewrite decide_False, Hk1.
Qed.

Lemma find_ok c d vs key :
  cache_ok c → length vs = nargs → probe_key key_idx d vs = Ok key →
  found c key (lambda_body (hoisting cfg) fuel key_idx d vs) (lambda_cache_find cfg fuel key_idx d vs key c).
Proof.
  intros Hc Hl Hp. unfold lambda_cache_find. destruct (c_last c) as [i|] eqn:Hlast; [|by apply search_ok].
  destruct (entry_is c key i) eqn:Hi; [|by apply search_ok]. apply entry_is_true in Hi as (e & He & Hk).
  split; [done|]. left. exists i, e. split_and!; [done..|by eapply entry_body; first apply Hc|].
  destruct Hc as [Hinv [Hn|Hh]]; [congruence|]. rewrite Hlast in Hh. simpl.
  destruct (c_lru c) as [|j l] eqn:Hlru; [done|]. injection Hh as <-.
  assert (cache_keys c = key :: (key_at c <$> l)) as Hks.
  { unfold cache_keys. rewrite Hlru, fmap_cons. f_equal. unfold key_at. by rewrite He. }
  pose proof (keys_delete c i e Hinv He) as Hdel. rewrite Hk, Hlru in Hdel. unfold touch.
  rewrite decide_True by (rewrite Hks; set_solver). rewrite <- Hdel, Hks. f_equal.
  pose proof (ci_nodup c Hinv) as Hnd. rewrite Hlru in Hnd. apply NoDup_cons in Hnd as [Hnin _].
  unfold dlist_delete. rewrite filter_cons_False by (by intros []). fold (dlist_delete i l). by rewrite dlist_delete_notin.
Qed.

(** using an entry changes neither its body nor the keys *)
Lemma use_ok c i e :
  cache_ok c → c_heap c !! i = Some e →
  cache_ok (lambda_cache_use cfg c i).1 ∧ (lambda_cache_use cfg c i).2 = Ok (ce_body e)
  ∧ cache_keys (lambda_cache_use cfg c i).1 = cache_keys c.
Proof.
  intros [Hc Hlast] Hi. unfold lambda_cache_use. rewrite Hi.
  set (e1 := mkEntry _ _ _ _ _ _). set (e' := if _ : bool then _ else _).
  pose proof (ci_entries c Hc i e Hi) as Heok.
  assert (ce_key e' = ce_key e ∧ ce_hash e' = ce_hash e ∧ ce_tree e' = ce_tree e ∧ ce_body e' = ce_body e) as (Hk & Hh & Ht & Hb).
  { unfold e'. destruct (negb (ce_jit_done e1) && _ && _); [|done]. unfold lambda_cache_jit.
    destruct (negb (has_estate cfg) || _ || _); [done|].
    split_and!; [done..|]. simpl. by rewrite (eo_body e Heok). }
  assert (∀ j, match <[i := e']> (c_heap c) !! j with Some e => ce_hash e | None => 0 end
               = match c_heap c !! j with Some e => ce_hash e | None => 0 end) as Hhash.
  { intros j. destruct (decide (i = j)) as [<-|Hne]; [by rewrite lookup_insert_eq, Hi|by rewrite lookup_insert_ne]. }
  assert (∀ j e2, <[i := e']> (c_heap c) !! j = Some e2 → ∃ e0, c_heap c !! j = Some e0 ∧ ce_key e2 = ce_key e0
            ∧ ce_hash e2 = ce_hash e0 ∧ ce_tree e2 = ce_tree e0 ∧ ce_body e2 = ce_body e0) as Hold.
  { intros j e2 [[<- <-]|[_ Hj]]%lookup_insert_Some; [by exists e|by exists e2]. }
  split; [split|split; [by rewrite <- Hb|]].
  - destruct Hc as [Hnd Hdom Hfr Hct Hwf Htb Hkeys He]. split; cbn [fst c_heap c_lru c_fresh c_nentries c_table]; try done.
    + intros j. rewrite Hdom, lookup_insert_is_Some. destruct (decide (i = j)) as [<-|]; naive_solver.
    + rewrite Htb. erewrite list_fmap_ext; [done|]. intros k j Hj. unfold hash_at. cbn [c_heap]. by rewrite Hhash.
    + intros j1 j2 e1' e2' (f1 & Hf1 & Hk1 & _)%Hold (f2 & Hf2 & Hk2 & _)%Hold Hkk. eapply Hkeys; [done..|congruence].
    + intros j e2 (e0 & He0 & Hk0 & Hh0 & Ht0 & Hb0)%Hold. destruct (He j e0 He0) as [? ? ?].
      split; [congruence|congruence|by rewrite Hk0, Ht0].
  - done.
  - unfold cache_keys. cbn [fst c_lru]. apply list_fmap_ext. intros k j Hj. unfold key_at. cbn [c_heap].
    destruct (decide (i = j)) as [<-|Hne]; [by rewrite lookup_insert_eq, Hi|by rewrite lookup_insert_ne].
Qed.

(** a call through the cache *)
Lemma body_ok c d vs key :
  cache_ok c → length vs = nargs → probe_key key_idx d vs = Ok key →
  ∃ c', lambda_cache_body cfg fuel key_idx (Some c) d vs = (Some c', lambda_body (hoisting cfg) fuel key_idx d vs)
  ∧ cache_ok c'
  ∧ cache_keys c' = if is_Ok (lambda_body (hoisting cfg) fuel key_idx d vs)
                    then touch key (cache_keys c) else take room (cache_keys c).
Proof.
  intros Hc Hl Hp. unfold lambda_cache_body. rewrite Hp. cbn [on_ok].
  destruct (find_ok c d vs key Hc Hl Hp) as [Hc' Hf].
  destruct (lambda_cache_find cfg fuel key_idx d vs key c) as [c' r]. cbn [fst snd] in *.
  destruct Hf as [(i & e & -> & Hi & Hk & -> & Hkeys)|(Hfail & _ & Hkeys)].
  - destruct (use_ok c' i e Hc' Hi) as (Hu1 & Hu2 & Hu3). cbn [on_ok].
    destruct (lambda_cache_use cfg c' i) as [c2 r2]. cbn [fst snd] in *. subst r2. exists c2.
    split_and!; [done..|]. by rewrite Hu3.
  - exists c'. destruct (lambda_body _ _ _ _ _), r; try done; cbn [on_ok same_failure] in *; subst; done.
Qed.

Lemma touch_length key ks : (length ks ≤ max 1 (S room) → length (touch key ks) ≤ max 1 (S room))%nat.
Proof.
  intros Hl. unfold touch. destruct (decide (key ∈ ks)) as [Hin|Hin]; simpl.
  - pose proof (length_filter_lt (fun k => k ≠ key) ks key Hin ltac:(by intros [])). lia.
  - rewrite length_take. lia.
Qed.
End Invariant.
