(* ===== verification/CacheTheorems.v ===== *)
(** * The lambda cache is transparent, on its hash table

    [lambda_cache.c] includes [lib/simplehash.h] with the prefix [lcache]: the
    key of an element is the address of an entry, the stored hash is the
    entry's.  The operations the cache calls keep the laws it relies on. *)

From S2P Require Import Prelude Bitmapset Nodes NodesFacts Serialize Inject InjectFacts Typing Eval EvalFacts Semantics HoistFacts NodeText Demo.
From S2P Require Import SimpleHash SimpleHashFacts SimpleHashTheorems Cache CacheFacts.

(** [slot->entry] *)
Definition slot_entry (table : SH_TYPE nat) (slot : Z) : outcome nat :=
  e ← bucket (sh_data table) slot;
  match e with
  | Some (_, entry) => Ok entry
  | None => UB
  end.

Definition lcache_lookup (table : SH_TYPE nat) (hash : Z) (eq : nat → bool) : outcome (option nat) :=
  slot ← SH_LOOKUP_HASH table hash eq;
  match slot with
  | None => Ok None
  | Some slot => entry ← slot_entry table slot; Ok (Some entry)
  end.

Definition lcache_insert (table : SH_TYPE nat) (entry : nat) (hash : Z) (eq : nat → bool) : outcome (SH_TYPE nat * bool) :=
  r ← SH_INSERT_HASH table entry hash eq;
  let '(table, _, found) := r : SH_TYPE nat * Z * bool in Ok (table, found).

Definition lcache_remove (table : SH_TYPE nat) (hash : Z) (eq : nat → bool) : outcome (SH_TYPE nat) :=
  r ← SH_DELETE table hash eq; Ok (r : SH_TYPE nat * bool).1.

#[export] Instance lcache_table : LCacheTable (SH_TYPE nat) := {
  lcache_create := SH_CREATE 16;
  lcache_elems table := elems (sh_data table);
  lcache_insert_hash := lcache_insert;
  lcache_lookup_hash := lcache_lookup;
  lcache_delete := lcache_remove
}.

#[export] Program Instance lcache_laws : LCacheLaws (SH_TYPE nat) := {
  lcache_wf := sh_wf;
  lcache_limit := SH_LIMIT
}.
Next Obligation. done. Qed.
Next Obligation. apply (table_create_spec 16 5); [lia|done]. Qed.
Next Obligation.
  intros t h eq Hw. cbn [lcache_lookup_hash lcache_table lcache_elems]. unfold lcache_lookup, slot_entry.
  destruct (lookup_spec t h eq Hw) as ([q|] & -> & Hpost); cbn [mbind outcome_bind].
  - destruct Hpost as (i & -> & Hin & Heq). by exists (Some i).
  - by exists None.
Qed.
Next Obligation.
  intros t i h eq Hw Hl Hno. cbn [lcache_insert_hash lcache_table lcache_elems] in *. unfold lcache_insert.
  rewrite <- (wf_members _ Hw) in Hl.
  destruct (insert_spec t i h eq Hw Hl) as ([[t' q] []] & -> & Hw' & Hpost); cbn [mbind outcome_bind].
  - destruct Hpost as (Hel & j & Hq%bucket_elem & Hj). rewrite Hel in Hq. by rewrite Hno in Hj.
  - destruct Hpost as (Hel & _). by exists t'.
Qed.
Next Obligation.
  intros t h eq i l Hw Hel Hi Hno. cbn [lcache_delete lcache_table lcache_elems] in *. unfold lcache_remove.
  destruct (delete_spec t h eq Hw) as [[_ Hn]|(t' & j & -> & Hw' & Hj & Hel')]; cbn [mbind outcome_bind].
  - rewrite Hn in Hi; [done|]. rewrite Hel. set_solver.
  - exists t'. split_and!; [done..|]. rewrite Hel in Hel'.
    destruct (decide (i = j)) as [<-|Hne]; [by apply Permutation_cons_inv in Hel'|].
    rewrite Hno in Hj; [done|]. assert ((h, j) ∈ (h, i) :: l) as Hin by (rewrite Hel'; set_solver). set_solver.
Qed.

(** * The lambda cache is transparent

    Over any sequence of rows, a call site that caches its bodies runs the
    bodies it would have built afresh for every row; the number of cached
    bodies is bounded, and the least recently used ones are dropped first. *)

(** rows of one call site: the same number of arguments, and lambda values
    where the key expects them *)
Definition row_ok (key_idx : list Z) (nargs : nat) (row : Datum * list (option Datum)) : Prop :=
  length row.2 = nargs ∧ ∃ key, probe_key key_idx row.1 row.2 = Ok key.

Section Rows.
Context `{NodeIO} `{TypeCache} `{ExecParams} {T : Type} `{LT : LCacheTable T} `{!LCacheLaws T}.
Context (cfg : CacheConfig) (fuel : nat) (key_idx : list Z) (nargs : nat).
Context (Hlimit : custom_lambda_cache_size cfg ≤ lcache_limit (T := T)).

Lemma take_bound (ks : list (list (option varlena))) n : (length ks ≤ n → length (take (room cfg) ks) ≤ n)%nat.
Proof. rewrite length_take. lia. Qed.

Lemma rows_ok rows c :
  cache_ok cfg fuel key_idx nargs c → (length (cache_keys c) ≤ max 1 (S (room cfg)))%nat →
  Forall (row_ok key_idx nargs) rows →
  ∃ c', lambda_cache_rows cfg fuel key_idx (Some c) rows
        = (Some c', (fun row => lambda_body (hoisting cfg) fuel key_idx row.1 row.2) <$> rows)
  ∧ cache_ok cfg fuel key_idx nargs c' ∧ (length (cache_keys c') ≤ max 1 (S (room cfg)))%nat.
Proof.
  revert c; induction rows as [|[d vs] rows IH]; intros c Hc Hb Hrows; [by exists c|].
  apply Forall_cons in Hrows as [[Hl [key Hkey]] Hrows']. cbn [fst snd] in Hl, Hkey.
  destruct (body_ok cfg fuel key_idx nargs Hlimit c d vs key Hc Hl Hkey) as (c1 & Hr & Hc1 & Hk).
  cbn [lambda_cache_rows fmap list_fmap fst snd]. rewrite Hr.
  destruct (IH c1 Hc1) as (c' & Hrun & Hc' & Hb'); [|done|].
  - rewrite Hk. destruct (is_Ok _); [by apply touch_length|by apply take_bound].
  - exists c'. by rewrite Hrun.
Qed.
End Rows.

(** C4. The cache is transparent and bounded: running any sequence of rows
    through the cache of a call site yields, row by row, exactly the outcomes
    of building every body afresh, errors included; and afterwards the site
    holds at most [custom_lambda_cache_size] bodies (one if the setting is
    smaller), each of them the body its key describes.  The table is any that
    keeps the laws of [LCacheLaws] up to that many elements, as the hash table
    of [SimpleHash.v] does. *)
Theorem cache_transparent `{NodeIO} `{TypeCache} `{ExecParams} {T} `{LCacheTable T} `{!LCacheLaws T}
    (cfg : CacheConfig) fuel key_idx nargs rows :
  custom_lambda_cache_size cfg ≤ lcache_limit (T := T) → rows ≠ [] → Forall (row_ok key_idx nargs) rows →
  ∃ c : LambdaCache T,
    lambda_cache_rows cfg fuel key_idx None rows
    = (Some c, (fun row => lambda_body (hoisting cfg) fuel key_idx row.1 row.2) <$> rows)
  ∧ cache_ok cfg fuel key_idx nargs c ∧ c_nentries c ≤ Z.max 1 (custom_lambda_cache_size cfg).
Proof.
  intros Hlim Hne Hrows. destruct (create_ok (T := T) cfg fuel key_idx nargs Hlim) as (c0 & Hcr & Hc0 & Hlru).
  destruct (rows_ok cfg fuel key_idx nargs Hlim rows c0) as (c & Hrun & Hc & Hb);
    [done|rewrite cache_keys_length, Hlru; simpl; lia|done|].
  exists c. split_and!; [|done|].
  - rewrite <- Hrun. destruct rows as [|[d vs] rows]; [done|]. cbn [lambda_cache_rows].
    unfold lambda_cache_body. by rewrite Hcr.
  - rewrite (ci_count _ _ _ _ _ (proj1 Hc)), <- cache_keys_length. unfold room in Hb. lia.
Qed.

(** C37. The replacement policy is least recently used: a call whose body can be
    built moves its key to the front of the cached keys; if the key is new, the
    keys at the end of the list are dropped until there is room for it.  A call
    whose body cannot be built only makes room. *)
Theorem cache_lru_policy `{NodeIO} `{TypeCache} `{ExecParams} {T} `{LCacheTable T} `{!LCacheLaws T}
    (cfg : CacheConfig) fuel key_idx nargs (c : LambdaCache T) d vs key :
  custom_lambda_cache_size cfg ≤ lcache_limit (T := T) →
  cache_ok cfg fuel key_idx nargs c → length vs = nargs → probe_key key_idx d vs = Ok key →
  let body := lambda_body (hoisting cfg) fuel key_idx d vs in
  let kept := take (Z.to_nat (custom_lambda_cache_size cfg - 1)) (cache_keys c) in
  ∃ c', lambda_cache_body cfg fuel key_idx (Some c) d vs = (Some c', body)
  ∧ cache_ok cfg fuel key_idx nargs c'
  ∧ cache_keys c' = if is_Ok body
                    then (if decide (key ∈ cache_keys c) then key :: filter (fun k => k ≠ key) (cache_keys c)
                          else key :: kept)
                    else kept.
Proof.
  intros Hlim Hc Hl Hp. exact (body_ok cfg fuel key_idx nargs Hlim c d vs key Hc Hl Hp).
Qed.

(** a site that caches one body, called on three rows *)
Definition demo_cfg : CacheConfig :=
  {| custom_lambda_cache_size := 1; custom_lambda_jit_after_uses := 2; has_estate := true; jit_perform := true;
     hash_varlena _ := 7; hoisting := true |}.

Definition demo_rows : list (Datum * list (option Datum)) :=
  [(lambda_datum twice, demo_args); (lambda_datum add3, demo_args); (lambda_datum twice, demo_args)].

Lemma demo_rows_ok : Forall (row_ok [0] 2) demo_rows.
Proof. repeat constructor; by eexists. Qed.

Lemma demo_limit : custom_lambda_cache_size demo_cfg ≤ lcache_limit (T := SH_TYPE nat).
Proof. by vm_compute. Qed.

Lemma cache_transparent_witness :
  ∃ c : LambdaCache (SH_TYPE nat),
    lambda_cache_rows demo_cfg 10 [0] None demo_rows
    = (Some c, (fun row => lambda_body true 10 [0] row.1 row.2) <$> demo_rows)
  ∧ cache_ok demo_cfg 10 [0] 2 c ∧ c_nentries c ≤ 1.
Proof. exact (cache_transparent (T := SH_TYPE nat) demo_cfg 10 [0] 2 demo_rows demo_limit ltac:(done) demo_rows_ok). Defined.

Lemma cache_lru_policy_witness :
  ∃ c c' : LambdaCache (SH_TYPE nat),
    lambda_cache_create = Ok c
    ∧ lambda_cache_body demo_cfg 10 [0] (Some c) (lambda_datum twice) demo_args
      = (Some c', lambda_body true 10 [0] (lambda_datum twice) demo_args)
    ∧ cache_ok demo_cfg 10 [0] 2 c'.
Proof.
  destruct (create_ok (T := SH_TYPE nat) demo_cfg 10 [0] 2 demo_limit) as (c & Hcr & Hc & _).
  destruct (cache_lru_policy (T := SH_TYPE nat) demo_cfg 10 [0] 2 c (lambda_datum twice) demo_args _ demo_limit Hc eq_refl eq_refl)
    as (c' & H1 & H2 & _).
  exists c, c'. exact (conj Hcr (conj H1 H2)).
Defined.
