(* ===== verification/LambdaPrint.v ===== *)
(** * Display names of lambda columns

    [utils/adt/lambda_print.c]: a target column that holds lambdas is shown
    with the typmod of its signature, ["f(id:3)"], and name resolution strips
    the suffix again.  The typmod is the value of [exprTypmod] on the column's
    expression, a column name a string or NULL. *)

From S2P Require Import Prelude.

(** [psprintf("(id:%d)", typmod)] *)
Definition id_suffix (typmod : Z) : cstr := lit "(id:" ++ fmt_d typmod ++ lit ")".

(** the comparison of the end of [colname] with the suffix *)
Definition ends_with (colname suffix : cstr) : bool :=
  bool_decide (drop (length colname - length suffix) colname = suffix).

Definition lambdaDecorateTargetName (typmod : Z) (colname : option cstr) : option cstr :=
  match colname with
  | None => None
  | Some colname =>
      if typmod <? 0 then Some colname
      else
        let suffix := id_suffix typmod in
        if (length suffix <=? length colname)%nat && ends_with colname suffix then Some colname
        else Some (colname ++ lit "(id:" ++ fmt_d typmod ++ lit ")")
  end.

Definition lambdaUndecorateName (typmod : Z) (colname : option cstr) : option cstr :=
  match colname with
  | None => None
  | Some colname =>
      if typmod <? 0 then Some colname
      else
        let suffix := id_suffix typmod in
        if (length suffix <? length colname)%nat && ends_with colname suffix
        then Some (take (length colname - length suffix) colname)
        else Some colname
  end.

Lemma ends_with_app c suffix : ends_with (c ++ suffix) suffix = true.
Proof. apply bool_decide_eq_true. rewrite length_app, Nat.add_sub. apply drop_app_length. Qed.

Lemma decorate_app typmod c :
  0 ≤ typmod → ends_with c (id_suffix typmod) = false →
  lambdaDecorateTargetName typmod (Some c) = Some (c ++ id_suffix typmod).
Proof.
  intros Ht He. cbn [lambdaDecorateTargetName]. destruct (Z.ltb_spec typmod 0); [lia|]. rewrite He, andb_false_r. done.
Qed.

Lemma undecorate_app typmod c :
  0 ≤ typmod → c ≠ [] → lambdaUndecorateName typmod (Some (c ++ id_suffix typmod)) = Some c.
Proof.
  intros Ht Hc. cbn [lambdaUndecorateName]. destruct (Z.ltb_spec typmod 0); [lia|].
  rewrite ends_with_app, length_app, Nat.add_sub, take_app_length.
  destruct (Nat.ltb_spec (length (id_suffix typmod)) (length c + length (id_suffix typmod))); [done|].
  destruct c; [done|]. simpl in *. lia.
Qed.

Lemma decorate_negative typmod c : typmod < 0 → lambdaDecorateTargetName typmod c = c.
Proof. intros Hn. destruct c; [|done]. cbn [lambdaDecorateTargetName]. by destruct (Z.ltb_spec typmod 0); [|lia]. Qed.

Lemma undecorate_negative typmod c : typmod < 0 → lambdaUndecorateName typmod c = c.
Proof. intros Hn. destruct c; [|done]. cbn [lambdaUndecorateName]. by destruct (Z.ltb_spec typmod 0); [|lia]. Qed.

(** a decorated name carries the suffix *)
Lemma decorate_ends typmod c :
  0 ≤ typmod → (length (id_suffix typmod) ≤ length c)%nat → ends_with c (id_suffix typmod) = true →
  lambdaDecorateTargetName typmod (Some c) = Some c.
Proof.
  intros Ht Hl He. cbn [lambdaDecorateTargetName]. destruct (Z.ltb_spec typmod 0); [lia|]. rewrite He.
  by destruct (Nat.leb_spec (length (id_suffix typmod)) (length c)); [|lia].
Qed.

(** a name that is too short does not end with the suffix *)
Lemma ends_with_long c suffix : ends_with c suffix = true → (length suffix ≤ length c)%nat.
Proof. intros He%bool_decide_eq_true. rewrite <- He at 1. rewrite length_drop. lia. Qed.

(** The display name of a lambda column resolves back: decorating is
    idempotent, so that a re-expanded column gets one suffix only, and
    stripping the display name of a column recovers its name, unless the name
    itself ended in that very suffix. *)
Theorem decorate_roundtrip typmod c :
  c ≠ [] →
  lambdaDecorateTargetName typmod (lambdaDecorateTargetName typmod (Some c)) = lambdaDecorateTargetName typmod (Some c) ∧
  (typmod < 0 ∨ ends_with c (id_suffix typmod) = false →
   lambdaUndecorateName typmod (lambdaDecorateTargetName typmod (Some c)) = Some c).
Proof.
  intros Hc. destruct (Z.ltb_spec typmod 0) as [Hn|Ht]; [by rewrite !decorate_negative, undecorate_negative by done|].
  destruct (ends_with c (id_suffix typmod)) eqn:He.
  - pose proof (ends_with_long _ _ He). rewrite !decorate_ends by done. split; [done|]. intros [?|?]; [lia|done].
  - rewrite decorate_app, undecorate_app by done. split; [|done].
    apply decorate_ends; [done|rewrite length_app; lia|apply ends_with_app].
Qed.

Lemma decorate_roundtrip_witness :
  lambdaDecorateTargetName 12 (Some (lit "f")) = Some (lit "f(id:12)") ∧
  lambdaDecorateTargetName 12 (Some (lit "f(id:12)")) = Some (lit "f(id:12)") ∧
  lambdaUndecorateName 12 (Some (lit "f(id:12)")) = Some (lit "f").
Proof.
  destruct (decorate_roundtrip 12 (lit "f")) as (Hi & Hu); [discriminate|].
  split_and!; [reflexivity|exact Hi|exact (Hu (or_intror eq_refl))].
Defined.
