(* ===== verification/JobQueue.v ===== *)
(** * The job queue of the thread pool

    The linked list of [ext/threadpool.c]: nodes are heap cells that are
    linked by address; a node is allocated by [qnode_create_copy], appended by
    [q_enqueue] and taken from the front by [q_dequeue].  The class [JobQueue]
    states what the pool relies on, [linked_queue] is the linked list, and
    [linked_queue_laws] proves that it behaves as a first-in first-out list. *)

From S2P Require Import Prelude.

(** ** What the pool relies on *)

Class JobQueue (Q J : Type) := {
  jq_init : Q;
  jq_enqueue : Q → J → outcome Q;
  jq_is_empty : Q → bool;
  jq_dequeue : Q → outcome (J * Q)
}.

(** [jq_rel q l]: the queue [q] holds the jobs [l], oldest first *)
Class JobQueueLaws (Q J : Type) `{JobQueue Q J} := {
  jq_rel : Q → list J → Prop;
  jq_init_rel : jq_rel jq_init [];
  jq_enqueue_rel q l j : jq_rel q l → ∃ q', jq_enqueue q j = Ok q' ∧ jq_rel q' (l ++ [j]);
  jq_empty_rel q l : jq_rel q l → jq_is_empty q = bool_decide (l = []);
  jq_dequeue_rel q j l : jq_rel q (j :: l) → ∃ q', jq_dequeue q = Ok (j, q') ∧ jq_rel q' l
}.

(** ** The linked list *)

Section LinkedQueue.
Context {J : Type}.

Record TP_QNode := mkQNode { qn_next : option nat; qn_data : J }.

Record TP_Queue := mkQueue {
  qq_head : option nat;
  qq_tail : option nat;
  qq_count : Z;
  qq_nodes : gmap nat TP_QNode
}.

Definition q_init : TP_Queue := mkQueue None None 0 ∅.

(** a node with a copy of the job at a new address; [None] is a job of length 0
    or a NULL pointer *)
Definition qnode_create_copy (q : TP_Queue) (job : option J) : outcome (nat * TP_Queue) :=
  match job with
  | None => ereport ERRCODE_INVALID_PARAMETER_VALUE (lit "threadpool job must be non-empty")
  | Some job =>
      let n := fresh (dom (qq_nodes q)) in
      Ok (n, mkQueue (qq_head q) (qq_tail q) (qq_count q) (<[n := mkQNode None job]> (qq_nodes q)))
  end.

(** [q->tail->next = n] or [q->head = n]; writing through a dangling tail is undefined *)
Definition q_enqueue (q : TP_Queue) (n : nat) : outcome TP_Queue :=
  match qq_tail q with
  | Some t =>
      node ← deref (qq_nodes q !! t);
      Ok (mkQueue (qq_head q) (Some n) (uint64 (qq_count q + 1))
            (<[t := mkQNode (Some n) (qn_data node)]> (qq_nodes q)))
  | None => Ok (mkQueue (Some n) (Some n) (uint64 (qq_count q + 1)) (qq_nodes q))
  end.

(** the part of [q_dequeue] that takes the first node *)
Definition q_dequeue (q : TP_Queue) : outcome (J * TP_Queue) :=
  n ← deref (qq_head q);
  node ← deref (qq_nodes q !! n);
  let tail := match qn_next node with None => None | Some _ => qq_tail q end in
  Ok (qn_data node, mkQueue (qn_next node) tail (uint64 (qq_count q - 1)) (qq_nodes q)).

#[export] Instance linked_queue : JobQueue TP_Queue J := {
  jq_init := q_init;
  jq_enqueue q j := '(n, q) ← qnode_create_copy q (Some j); q_enqueue q n;
  jq_is_empty q := match qq_head q with None => true | Some _ => false end;
  jq_dequeue := q_dequeue
}.

(** ** The list a linked queue represents *)

(** the nodes from [p] on are at the addresses [ns] and hold [l] *)
Fixpoint chain (h : gmap nat TP_QNode) (p : option nat) (ns : list nat) (l : list J) : Prop :=
  match ns, l with
  | [], [] => p = None
  | n :: ns, j :: l => p = Some n ∧ ∃ next, h !! n = Some (mkQNode next j) ∧ chain h next ns l
  | _, _ => False
  end.

Definition repr (q : TP_Queue) (l : list J) : Prop :=
  ∃ ns, chain (qq_nodes q) (qq_head q) ns l ∧ NoDup ns ∧ qq_tail q = last ns
        ∧ qq_count q = uint64 (Z.of_nat (length l)).

Lemma chain_insert h p ns l a x : a ∉ ns → chain h p ns l → chain (<[a := x]> h) p ns l.
Proof.
  revert p l; induction ns as [|n ns IH]; intros p [|j l] Ha Hc; try done; simpl in *.
  destruct Hc as (-> & nx & Hn & Hc). split; [done|]. exists nx.
  split; [rewrite lookup_insert_ne by set_solver; done|]. apply IH; [set_solver|done].
Qed.

Lemma chain_length h p ns l : chain h p ns l → length ns = length l.
Proof.
  revert p l; induction ns as [|n ns IH]; intros p [|j l] Hc; try done. simpl in *.
  destruct Hc as (_ & nx & _ & Hc). by rewrite (IH nx l).
Qed.

Lemma chain_dom h p ns l n : chain h p ns l → n ∈ ns → n ∈ dom h.
Proof.
  revert p l; induction ns as [|m ns IH]; intros p [|j l] Hc Hn; try done; [set_solver|].
  destruct Hc as (_ & nx & Hm & Hc). apply elem_of_cons in Hn as [->|Hn]; [|by eapply IH].
  apply elem_of_dom. by eexists.
Qed.

(** linking a new last node *)
Lemma chain_snoc h p ns l t j n jn :
  chain h p (ns ++ [t]) (l ++ [j]) → t ∉ ns → n ∉ ns ++ [t] → h !! n = Some (mkQNode None jn) →
  chain (<[t := mkQNode (Some n) j]> h) p ((ns ++ [t]) ++ [n]) ((l ++ [j]) ++ [jn]).
Proof.
  revert p l; induction ns as [|m ns IH]; intros p [|j' l] Hc Ht Hn Hnew; simpl in *.
  - destruct Hc as (-> & nx & Hx & ->). split; [done|]. exists (Some n). rewrite lookup_insert_eq. split; [done|].
    split; [done|]. exists None. rewrite lookup_insert_ne by set_solver. done.
  - destruct Hc as (_ & nx & _ & Hc). by destruct l.
  - destruct Hc as (_ & nx & _ & Hc). by destruct ns.
  - destruct Hc as (-> & nx & Hx & Hc). split; [done|]. exists nx. split; [rewrite lookup_insert_ne by set_solver; done|].
    apply IH; [done|set_solver|set_solver|done].
Qed.

Lemma chain_last h p ns l t j : chain h p (ns ++ [t]) (l ++ [j]) → ∃ next, h !! t = Some (mkQNode next j).
Proof.
  revert p l; induction ns as [|m ns IH]; intros p [|j' l] Hc; simpl in Hc; destruct Hc as (_ & nx & Hx & Hc).
  - eauto.
  - by destruct l.
  - by destruct ns.
  - by eapply IH.
Qed.

Lemma repr_enqueue q l j :
  repr q l → ∃ q', ('(n, q) ← qnode_create_copy q (Some j); q_enqueue q n) = Ok q' ∧ repr q' (l ++ [j]).
Proof.
  intros (ns & Hc & Hnd & Ht & Hn). unfold qnode_create_copy. cbn [mbind outcome_bind]. set (n := fresh _).
  assert (n ∉ ns) as Hfresh.
  { intros Hin. apply (is_fresh (dom (qq_nodes q))). fold n. by eapply chain_dom. }
  apply (chain_insert _ _ _ _ n (mkQNode None j) Hfresh) in Hc.
  unfold q_enqueue. cbn [qq_tail qq_nodes qq_head qq_count]. rewrite Ht.
  assert (uint64 (qq_count q + 1) = uint64 (Z.of_nat (length (l ++ [j])))) as Hcount.
  { rewrite Hn, length_app. simpl. unfold uint64. rewrite Zplus_mod_idemp_l. f_equal. lia. }
  destruct (decide (ns = [])) as [->|Hne].
  - destruct l; [|done]. simpl. eexists. split; [done|]. exists [n]. simpl.
    split_and!; [done|exists None; by rewrite lookup_insert_eq|apply NoDup_singleton|done|done].
  - destruct (exists_last Hne) as (ns0 & t & ->). pose proof (chain_length _ _ _ _ Hc) as Hlen.
    rewrite last_snoc. destruct (exists_last (l := l)) as (l0 & jt & ->); [by intros ->; rewrite length_app in Hlen; simpl in Hlen; lia|].
    apply NoDup_app in Hnd as (Hnd0 & Hdis & _). assert (t ∉ ns0) as Ht0 by set_solver.
    destruct (chain_last _ _ _ _ _ _ Hc) as [nx Hnode]. rewrite Hnode.
    cbn [deref mbind outcome_bind qn_data]. eexists. split; [done|].
    exists ((ns0 ++ [t]) ++ [n]). cbn [qq_nodes qq_head qq_tail qq_count]. split_and!.
    + apply chain_snoc; [done|done|done|by rewrite lookup_insert_eq].
    + apply NoDup_app. split_and!; [apply NoDup_app; split_and!; [done|done|apply NoDup_singleton]|set_solver|apply NoDup_singleton].
    + by rewrite last_snoc.
    + done.
Qed.

Lemma repr_dequeue q j l : repr q (j :: l) → ∃ q', q_dequeue q = Ok (j, q') ∧ repr q' l.
Proof.
  intros ([|n ns] & Hc & Hnd & Ht & Hn); [done|]. destruct Hc as (Hh & nx & Hx & Hc).
  unfold q_dequeue. rewrite Hh. cbn [deref mbind outcome_bind]. rewrite Hx. cbn [deref mbind outcome_bind qn_data qn_next].
  eexists. split; [done|]. exists ns. apply NoDup_cons in Hnd as [_ Hnd]. cbn [qq_nodes qq_head qq_tail qq_count].
  split_and!; [done|done| |].
  - destruct ns as [|m ns]; [destruct l; [by rewrite Hc|done]|].
    destruct l; [done|]. destruct Hc as (-> & _). by rewrite Ht.
  - rewrite Hn. unfold uint64. rewrite Zminus_mod_idemp_l. f_equal. cbn [length]. lia.
Qed.

#[export] Instance linked_queue_laws : JobQueueLaws TP_Queue J.
Proof.
  refine {| jq_rel := repr |}.
  - exists []. split_and!; [done|constructor|done|done].
  - apply repr_enqueue.
  - intros q l (ns & Hc & _). simpl. destruct ns as [|n ns], l as [|j l]; try done; simpl in Hc.
    + by rewrite Hc.
    + destruct Hc as (-> & _). done.
  - apply repr_dequeue.
Defined.
End LinkedQueue.
Arguments TP_QNode : clear implicits.
Arguments TP_Queue : clear implicits.
