(* ===== verification/ThreadPool.v ===== *)
(** * The thread pool

    [ext/threadpool.c] as a transition system: the workers run
    [tp_worker_main], the submitting thread calls [tp_submit] for a list of
    jobs and then [tp_finish_and_destroy].  Every program point between two
    operations on shared state is a control state, so that the interleavings
    of the threads are the runs of the system; the mutex and the condition
    variable are explicit.

    The worker function is a sequence of atomic actions on a shared memory.
    [pthread_cond_wait] may also return without a signal; these spurious
    wakeups are a transition of their own. *)

From S2P Require Import Prelude JobQueue.

Section ThreadPool.
Context {J A M Q : Type} `{JobQueue Q J}.
(** the actions of the worker function on a job, and their effect *)
Context (fn : J → list A) (act : A → M → M).

(** control states of [tp_worker_main] and the [q_dequeue] it calls *)
Inductive worker :=
| WLock                                 (** before [pthread_mutex_lock] *)
| WTest                                 (** at the test of the while loop, holding the mutex *)
| WWait                                 (** inside [pthread_cond_wait] *)
| WWake                                 (** woken up, acquiring the mutex again *)
| WUnlock (r : option J)                (** before [pthread_mutex_unlock]; the result of [q_dequeue] *)
| WRun (rest : list A)                  (** inside [p->fn], with the actions to go *)
| WExit.

(** control states of the submitting thread; [js] are the jobs to go *)
Inductive submitter :=
| MSubmit (js : list J)                 (** before a call of [tp_submit], or of the shutdown if there is none *)
| MCheck (js : list J)                  (** reading [shutdown], holding the mutex *)
| MChecked (js : list J) (sd : bool)
| MEnqLock (js : list J)                (** in [q_enqueue] *)
| MEnq (js : list J)
| MEnqUnlock (js : list J)
| MFin                                  (** setting [shutdown], holding the mutex *)
| MFinUnlock
| MJoin (i : nat)                       (** in [pthread_join] of worker [i] *)
| MDone.

Inductive tid := Main | Worker (i : nat).

Record pool := mkPool {
  p_queue : Q;
  p_shutdown : bool;
  p_mutex : option tid;
  p_workers : list worker;
  p_main : submitter;
  p_mem : M;
  (** history: the jobs taken from the queue, and the actions performed *)
  p_taken : list J;
  p_log : list A
}.

(** [tp_create]: at least one thread *)
Definition tp_nthreads (nthreads : Z) : nat := if nthreads <=? 0 then 1%nat else Z.to_nat nthreads.

Definition tp_create (nthreads : Z) (jobs : list J) (mem : M) : pool :=
  mkPool jq_init false None (repeat WLock (tp_nthreads nthreads)) (MSubmit jobs) mem [] [].

(** ** Updates *)

Definition set_worker (p : pool) (i : nat) (w : worker) (mu : option tid) : pool :=
  mkPool (p_queue p) (p_shutdown p) mu (<[i := w]> (p_workers p)) (p_main p) (p_mem p) (p_taken p) (p_log p).

Definition set_main (p : pool) (m : submitter) (mu : option tid) : pool :=
  mkPool (p_queue p) (p_shutdown p) mu (p_workers p) m (p_mem p) (p_taken p) (p_log p).

(** a worker takes a job *)
Definition take_job (p : pool) (i : nat) (j : J) (q : Q) : pool :=
  mkPool q (p_shutdown p) (p_mutex p) (<[i := WUnlock (Some j)]> (p_workers p)) (p_main p) (p_mem p)
    (p_taken p ++ [j]) (p_log p).

(** a worker performs an action *)
Definition perform (p : pool) (i : nat) (a : A) (rest : list A) : pool :=
  mkPool (p_queue p) (p_shutdown p) (p_mutex p) (<[i := WRun rest]> (p_workers p)) (p_main p)
    (act a (p_mem p)) (p_taken p) (p_log p ++ [a]).

Definition wake (w : worker) : worker := match w with WWait => WWake | _ => w end.

(** [pthread_cond_signal]: one waiting worker is woken up, if there is one *)
Inductive signal : list worker → list worker → Prop :=
| signal_one ws i : ws !! i = Some WWait → signal ws (<[i := WWake]> ws)
| signal_none ws : (∀ i, ws !! i ≠ Some WWait) → signal ws ws.

(** ** Transitions *)

(** a transition of worker [i] *)
Inductive wstep (i : nat) (p : pool) : pool → Prop :=
| ws_lock : p_workers p !! i = Some WLock → p_mutex p = None →
    wstep i p (set_worker p i WTest (Some (Worker i)))
| ws_wait : p_workers p !! i = Some WTest → jq_is_empty (p_queue p) = true → p_shutdown p = false →
    wstep i p (set_worker p i WWait None)
| ws_stop : p_workers p !! i = Some WTest → jq_is_empty (p_queue p) = true → p_shutdown p = true →
    wstep i p (set_worker p i (WUnlock None) (p_mutex p))
| ws_take j q : p_workers p !! i = Some WTest → jq_is_empty (p_queue p) = false →
    jq_dequeue (p_queue p) = Ok (j, q) →
    wstep i p (take_job p i j q)
| ws_unlock r : p_workers p !! i = Some (WUnlock r) →
    wstep i p (set_worker p i (match r with Some j => WRun (fn j) | None => WExit end) None)
| ws_act a rest : p_workers p !! i = Some (WRun (a :: rest)) → wstep i p (perform p i a rest)
| ws_next : p_workers p !! i = Some (WRun []) → wstep i p (set_worker p i WLock (p_mutex p))
| ws_wake : p_workers p !! i = Some WWake → p_mutex p = None →
    wstep i p (set_worker p i WTest (Some (Worker i))).

(** a transition of the submitting thread *)
Inductive mstep (p : pool) : pool → Prop :=
| ms_check_lock j js : p_main p = MSubmit (j :: js) → p_mutex p = None →
    mstep p (set_main p (MCheck (j :: js)) (Some Main))
| ms_check js : p_main p = MCheck js → mstep p (set_main p (MChecked js (p_shutdown p)) (p_mutex p))
| ms_check_unlock js sd : p_main p = MChecked js sd →
    mstep p (set_main p (if sd then MSubmit (tail js) else MEnqLock js) None)
| ms_enq_lock js : p_main p = MEnqLock js → p_mutex p = None → mstep p (set_main p (MEnq js) (Some Main))
| ms_enq_refused js : p_main p = MEnq js → p_shutdown p = true →
    mstep p (set_main p (MEnqUnlock (tail js)) (p_mutex p))
| ms_enq j js q ws : p_main p = MEnq (j :: js) → p_shutdown p = false →
    jq_enqueue (p_queue p) j = Ok q → signal (p_workers p) ws →
    mstep p (mkPool q false (p_mutex p) ws (MEnqUnlock js) (p_mem p) (p_taken p) (p_log p))
| ms_enq_unlock js : p_main p = MEnqUnlock js → mstep p (set_main p (MSubmit js) None)
| ms_fin_lock : p_main p = MSubmit [] → p_mutex p = None → mstep p (set_main p MFin (Some Main))
| ms_fin : p_main p = MFin →
    mstep p (mkPool (p_queue p) true (p_mutex p) (wake <$> p_workers p) MFinUnlock (p_mem p) (p_taken p) (p_log p))
| ms_fin_unlock : p_main p = MFinUnlock → mstep p (set_main p (MJoin 0) None)
| ms_join i : p_main p = MJoin i → p_workers p !! i = Some WExit → mstep p (set_main p (MJoin (S i)) (p_mutex p))
| ms_done i : p_main p = MJoin i → length (p_workers p) = i → mstep p (set_main p MDone (p_mutex p)).

(** a transition of the program *)
Inductive tp_step (p p' : pool) : Prop :=
| step_main : mstep p p' → tp_step p p'
| step_worker i : wstep i p p' → tp_step p p'.

(** [pthread_cond_wait] returning without a signal *)
Inductive tp_spurious (p : pool) : pool → Prop :=
| spurious i : p_workers p !! i = Some WWait → tp_spurious p (set_worker p i WWake (p_mutex p)).

(** the states a pool can reach, spurious wakeups included *)
Inductive tp_reachable (p0 : pool) : pool → Prop :=
| reach_init : tp_reachable p0 p0
| reach_step p p' : tp_reachable p0 p → tp_step p p' → tp_reachable p0 p'
| reach_spurious p p' : tp_reachable p0 p → tp_spurious p p' → tp_reachable p0 p'.

(** ** Runs under a given schedule *)

Definition wnext (i : nat) (p : pool) : option pool :=
  match p_workers p !! i, p_mutex p with
  | Some WLock, None | Some WWake, None => Some (set_worker p i WTest (Some (Worker i)))
  | Some WTest, _ =>
      if jq_is_empty (p_queue p) then
        if p_shutdown p then Some (set_worker p i (WUnlock None) (p_mutex p)) else Some (set_worker p i WWait None)
      else match jq_dequeue (p_queue p) with
           | Ok (j, q) => Some (take_job p i j q)
           | _ => None
           end
  | Some (WUnlock r), _ => Some (set_worker p i (match r with Some j => WRun (fn j) | None => WExit end) None)
  | Some (WRun (a :: rest)), _ => Some (perform p i a rest)
  | Some (WRun []), _ => Some (set_worker p i WLock (p_mutex p))
  | _, _ => None
  end.

(** the first waiting worker is the one that is woken up *)
Fixpoint signal_first (ws : list worker) : list worker :=
  match ws with
  | [] => []
  | WWait :: ws => WWake :: ws
  | w :: ws => w :: signal_first ws
  end.

Definition mnext (p : pool) : option pool :=
  match p_main p, p_mutex p with
  | MSubmit (j :: js), None => Some (set_main p (MCheck (j :: js)) (Some Main))
  | MSubmit [], None => Some (set_main p MFin (Some Main))
  | MCheck js, mu => Some (set_main p (MChecked js (p_shutdown p)) mu)
  | MChecked js sd, _ => Some (set_main p (if sd then MSubmit (tail js) else MEnqLock js) None)
  | MEnqLock js, None => Some (set_main p (MEnq js) (Some Main))
  | MEnq js, mu =>
      if p_shutdown p then Some (set_main p (MEnqUnlock (tail js)) mu)
      else match js with
           | j :: js =>
               match jq_enqueue (p_queue p) j with
               | Ok q => Some (mkPool q false mu (signal_first (p_workers p)) (MEnqUnlock js)
                                 (p_mem p) (p_taken p) (p_log p))
               | _ => None
               end
           | [] => None
           end
  | MEnqUnlock js, _ => Some (set_main p (MSubmit js) None)
  | MFin, mu => Some (mkPool (p_queue p) true mu (wake <$> p_workers p) MFinUnlock (p_mem p) (p_taken p) (p_log p))
  | MFinUnlock, _ => Some (set_main p (MJoin 0) None)
  | MJoin i, mu =>
      match p_workers p !! i with
      | Some WExit => Some (set_main p (MJoin (S i)) mu)
      | Some _ => None
      | None => if decide (length (p_workers p) = i) then Some (set_main p MDone mu) else None
      end
  | _, _ => None
  end.

(** run a schedule; a thread that cannot move is passed over *)
Fixpoint run_schedule (sched : list tid) (p : pool) : pool :=
  match sched with
  | [] => p
  | t :: sched =>
      let next := match t with Main => mnext p | Worker i => wnext i p end in
      run_schedule sched (default p next)
  end.
End ThreadPool.
Arguments worker : clear implicits.
Arguments submitter : clear implicits.
Arguments pool : clear implicits.
