(* ===== verification/ThreadPoolFacts.v ===== *)
(** * Facts about the thread pool

    The invariant of the transition system, its preservation, progress, and
    a measure that every transition of the program decreases. *)

From S2P Require Import Prelude JobQueue ThreadPool.

Section Facts.
Context {J A M Q : Type} `{QO : JobQueue Q J} `{!JobQueueLaws Q J}.
Context (fn : J → list A) (act : A → M → M) (jobs : list J) (mem0 : M).

Implicit Types (p : pool J A M Q) (w : worker J A) (ws : list (worker J A)).

(** control states inside a critical section *)
Definition holds (w : worker J A) : bool :=
  match w with WTest | WUnlock _ => true | _ => false end.

Definition mholds (m : submitter J) : bool :=
  match m with MCheck _ | MChecked _ _ | MEnq _ | MEnqUnlock _ | MFin | MFinUnlock => true | _ => false end.

(** jobs that are still to be submitted *)
Definition pending (m : submitter J) : list J :=
  match m with
  | MSubmit js | MCheck js | MChecked js _ | MEnqLock js | MEnq js | MEnqUnlock js => js
  | _ => []
  end.

(** the submitting thread has announced the shutdown *)
Definition announced (m : submitter J) : bool :=
  match m with MFinUnlock | MJoin _ | MDone => true | _ => false end.

(** the submitting thread is working on a job *)
Definition submitting (m : submitter J) : bool :=
  match m with MCheck _ | MChecked _ _ | MEnqLock _ | MEnq _ => true | _ => false end.

(** a worker that found the queue empty and shut down *)
Definition stopping (w : worker J A) : bool :=
  match w with WUnlock None | WExit => true | _ => false end.

(** actions of taken jobs that are still to be performed *)
Definition todo (w : worker J A) : list A :=
  match w with WUnlock (Some j) => fn j | WRun rest => rest | _ => [] end.

Definition run_log (log : list A) : M := foldl (fun m a => act a m) mem0 log.

Record pool_inv (p : pool J A M Q) : Prop := {
  pi_holds i w : p_workers p !! i = Some w → holds w = true → p_mutex p = Some (Worker i);
  pi_mholds : mholds (p_main p) = true → p_mutex p = Some Main;
  pi_owner : match p_mutex p with
             | None => True
             | Some Main => mholds (p_main p) = true
             | Some (Worker i) => ∃ w, p_workers p !! i = Some w ∧ holds w = true
             end;
  pi_queue : ∃ l, jq_rel (p_queue p) l ∧ jobs = p_taken p ++ l ++ pending (p_main p)
             ∧ ∀ i w, p_workers p !! i = Some w → stopping w = true → p_shutdown p = true ∧ l = [];
  pi_shutdown : p_shutdown p = announced (p_main p);
  pi_awake : p_shutdown p = true → ∀ i, p_workers p !! i ≠ Some WWait;
  pi_checked js sd : p_main p = MChecked js sd → sd = false;
  pi_submitting : submitting (p_main p) = true → pending (p_main p) ≠ [];
  pi_joined i : p_main p = MJoin i → ∀ k, (k < i)%nat → p_workers p !! k = Some WExit;
  pi_done : p_main p = MDone → ∀ k w, p_workers p !! k = Some w → w = WExit;
  pi_log : p_log p ++ concat (todo <$> p_workers p) ≡ₚ concat (fn <$> p_taken p);
  pi_mem : p_mem p = run_log (p_log p)
}.

Lemma repeat_lookup {B} (x : B) n i y : repeat x n !! i = Some y → y = x.
Proof. intros Hi%list_elem_of_lookup_2%list_elem_of_In. by apply repeat_spec in Hi. Qed.

Lemma create_inv n : pool_inv (tp_create n jobs mem0).
Proof.
  split; simpl; try done.
  - by intros i w ->%repeat_lookup.
  - exists []. split_and!; [apply jq_init_rel|done|]. by intros i w ->%repeat_lookup.
  - induction (tp_nthreads n); done.
Qed.

(** replacing one worker *)
Lemma todo_insert ws i w0 w1 :
  ws !! i = Some w0 → concat (todo <$> <[i := w1]> ws) ++ todo w0 ≡ₚ concat (todo <$> ws) ++ todo w1.
Proof.
  revert i; induction ws as [|w ws IH]; intros [|i] Hi; try done; simpl in *.
  - injection Hi as ->. rewrite (Permutation_app_comm (todo w1)), (Permutation_app_comm (todo w0)). solve_Permutation.
  - rewrite <- !app_assoc. f_equiv. by apply IH.
Qed.

(** what a thread may do with the mutex: nothing, acquire it, or release it *)
Definition mutex_move (t : tid) (old new : option tid) (before after : bool) : Prop :=
  (new = old ∧ after = before) ∨ (old = None ∧ new = Some t ∧ after = true)
  ∨ (old = Some t ∧ new = None ∧ after = false).

(** ** Transitions of a worker *)

(** a transition of worker [i] from [w0] to [w1] that touches no job *)
Lemma inv_set_worker p i w0 w1 mu :
  pool_inv p → p_workers p !! i = Some w0 → mutex_move (Worker i) (p_mutex p) mu (holds w0) (holds w1) →
  todo w1 = todo w0 → w0 ≠ WExit → (w1 = WWait → p_shutdown p = false) →
  (stopping w1 = true → stopping w0 = true ∨ p_shutdown p = true ∧ jq_is_empty (p_queue p) = true) →
  pool_inv (set_worker p i w1 mu).
Proof.
  intros [Hh Hmh Ho (l & Hl & Hj & Hst) Hsd Haw Hck Hsub Hjn Hdn Hlog Hmem] Hi Hmu Htodo Hex Hwait Hstop.
  pose proof (Hh i w0 Hi) as Hhi. apply lookup_lt_Some in Hi as Hlt.
  split; unfold set_worker; cbn [p_workers p_mutex p_main p_queue p_shutdown p_taken p_log p_mem]; try done.
  - intros j w [(<- & <- & _)|[Hne Hj']]%list_lookup_insert_Some Hw.
    + destruct Hmu as [[-> Heq]|[(_ & -> & _)|(_ & _ & Hf)]]; [|done|congruence]. apply Hhi. congruence.
    + pose proof (Hh j w Hj' Hw) as Hown. destruct Hmu as [[-> _]|[(Hn & _)|(Hn & _)]]; [done|congruence|].
      rewrite Hn in Hown. by injection Hown as ->.
  - intros Hm. pose proof (Hmh Hm) as Hown. destruct Hmu as [[-> _]|[(Hn & _)|(Hn & _)]]; congruence.
  - destruct Hmu as [[-> Heq]|[(_ & -> & Ht)|(_ & -> & _)]]; [|by exists w1; rewrite list_lookup_insert_eq|done].
    destruct (p_mutex p) as [[|k]|]; [done| |done]. destruct Ho as (w & Hk & Hw).
    destruct (decide (i = k)) as [<-|Hne]; [exists w1; rewrite list_lookup_insert_eq by done; split; [done|congruence]|].
    exists w. by rewrite list_lookup_insert_ne.
  - exists l. split_and!; [done..|]. intros j w [(<- & <- & _)|[Hne Hj']]%list_lookup_insert_Some Hw; [|by eapply Hst].
    destruct (Hstop Hw) as [H0|[H0 Hq]]; [by eapply Hst|]. split; [done|].
    rewrite (jq_empty_rel _ _ Hl) in Hq. by apply bool_decide_eq_true in Hq.
  - intros Hs j [(<- & Hw & _)|[Hne Hj']]%list_lookup_insert_Some; [|by apply (Haw Hs j)].
    rewrite (Hwait Hw) in Hs. done.
  - intros k Hm j Hjk. assert (i ≠ j) as Hne by (intros <-; apply Hex; specialize (Hjn k Hm i Hjk); congruence).
    rewrite list_lookup_insert_ne by done. by eapply Hjn.
  - intros Hm j w [(<- & <- & _)|[Hne Hj']]%list_lookup_insert_Some; [|by eapply Hdn]. by destruct (Hex (Hdn Hm i w0 Hi)).
  - rewrite <- Hlog. f_equiv. apply (Permutation_app_inv_r (todo w0)). rewrite (todo_insert _ _ _ w1 Hi). by rewrite Htodo.
Qed.

Lemma inv_take p i j q :
  pool_inv p → p_workers p !! i = Some WTest → jq_is_empty (p_queue p) = false →
  jq_dequeue (p_queue p) = Ok (j, q) → pool_inv (take_job p i j q).
Proof.
  intros [Hh Hmh Ho (l & Hl & Hj & Hst) Hsd Haw Hck Hsub Hjn Hdn Hlog Hmem] Hi He Hd.
  rewrite (jq_empty_rel _ _ Hl) in He. destruct l as [|j0 l]; [done|].
  destruct (jq_dequeue_rel _ _ _ Hl) as (q' & Hq & Hl'). rewrite Hd in Hq. injection Hq as -> ->.
  pose proof (Hh i WTest Hi eq_refl) as Hown. apply lookup_lt_Some in Hi as Hlt.
  split; unfold take_job; cbn [p_workers p_mutex p_main p_queue p_shutdown p_taken p_log p_mem]; try done.
  - intros k w [(<- & <- & _)|[Hne Hk]]%list_lookup_insert_Some Hw; [done|by eapply Hh].
  - rewrite Hown. eexists. by rewrite list_lookup_insert_eq.
  - exists l. split_and!; [done|by rewrite <- app_assoc|].
    intros k w [(<- & <- & _)|[Hne Hk]]%list_lookup_insert_Some Hw; [done|]. by destruct (Hst k w Hk Hw).
  - intros Hs k [(<- & Hw & _)|[Hne Hk]]%list_lookup_insert_Some; [done|by apply (Haw Hs k)].
  - intros k Hm n Hn. assert (i ≠ n) as Hne by (intros <-; specialize (Hjn k Hm i Hn); congruence).
    rewrite list_lookup_insert_ne by done. by eapply Hjn.
  - intros Hm k w [(<- & <- & _)|[Hne Hk]]%list_lookup_insert_Some; [|by eapply Hdn]. by pose proof (Hdn Hm i _ Hi).
  - rewrite fmap_app, concat_app, <- Hlog, <- app_assoc. f_equiv.
    pose proof (todo_insert _ _ _ (WUnlock (Some j0)) Hi) as Ht. simpl in Ht. rewrite app_nil_r in Ht. rewrite Ht. simpl.
    by rewrite app_nil_r.
Qed.

Lemma inv_perform p i a rest :
  pool_inv p → p_workers p !! i = Some (WRun (a :: rest)) → pool_inv (perform act p i a rest).
Proof.
  intros [Hh Hmh Ho (l & Hl & Hj & Hst) Hsd Haw Hck Hsub Hjn Hdn Hlog Hmem] Hi.
  split; unfold perform; cbn [p_workers p_mutex p_main p_queue p_shutdown p_taken p_log p_mem]; try done.
  - intros k w [(<- & <- & _)|[Hne Hk]]%list_lookup_insert_Some Hw; [done|by eapply Hh].
  - destruct (p_mutex p) as [[|k]|]; [done| |done]. destruct Ho as (w & Hk & Hw). exists w.
    rewrite list_lookup_insert_ne; [done|]. intros <-. rewrite Hi in Hk. by injection Hk as <-.
  - exists l. split_and!; [done..|]. intros k w [(<- & <- & _)|[Hne Hk]]%list_lookup_insert_Some Hw; [done|by eapply Hst].
  - intros Hs k [(<- & Hw & _)|[Hne Hk]]%list_lookup_insert_Some; [done|by apply (Haw Hs k)].
  - intros k Hm n Hn. assert (i ≠ n) as Hne by (intros <-; specialize (Hjn k Hm i Hn); congruence).
    rewrite list_lookup_insert_ne by done. by eapply Hjn.
  - intros Hm k w [(<- & <- & _)|[Hne Hk]]%list_lookup_insert_Some; [|by eapply Hdn]. by pose proof (Hdn Hm i _ Hi).
  - rewrite <- Hlog, <- app_assoc. f_equiv.
    pose proof (todo_insert _ _ _ (WRun rest) Hi) as Ht. simpl in Ht.
    apply (Permutation_app_inv_r rest). rewrite <- Ht. simpl. by rewrite <- Permutation_middle.
  - unfold run_log. rewrite foldl_snoc. by rewrite Hmem.
Qed.

Lemma inv_wstep p i p' : pool_inv p → wstep fn act i p p' → pool_inv p'.
Proof.
  intros Hp Hs. destruct Hs as [Hi Hm|Hi He Hd|Hi He Hd|j q Hi He Hd|r Hi|a rest Hi|Hi|Hi Hm].
  - apply (inv_set_worker p i WLock); [done..| |done|done|done|done]. right; left. done.
  - apply (inv_set_worker p i WTest); [done..| |done|done|done|done]. right; right. by rewrite (pi_holds _ Hp i WTest).
  - apply (inv_set_worker p i WTest); [done..| |done|done|done|naive_solver]. by left.
  - by apply inv_take.
  - pose proof (pi_holds _ Hp i _ Hi eq_refl) as Hown. apply (inv_set_worker p i (WUnlock r)); [done..| | |done| |].
    + right; right. by destruct r.
    + by destruct r.
    + by destruct r.
    + destruct r; [done|by left].
  - by apply inv_perform.
  - apply (inv_set_worker p i (WRun [])); [done..| |done|done|done|done]. by left.
  - apply (inv_set_worker p i WWake); [done..| |done|done|done|done]. right; left. done.
Qed.

Lemma inv_spurious p p' : pool_inv p → tp_spurious p p' → pool_inv p'.
Proof.
  intros Hp Hs. destruct Hs as [i Hi]. apply (inv_set_worker p i WWait); [done..| |done|done|done|done]. by left.
Qed.

(** ** Transitions of the submitting thread *)

(** a transition of the submitting thread that touches neither queue nor workers *)
Lemma inv_set_main p m mu :
  pool_inv p → mutex_move Main (p_mutex p) mu (mholds (p_main p)) (mholds m) →
  pending m = pending (p_main p) → announced m = announced (p_main p) →
  (∀ js sd, m = MChecked js sd → sd = false) → (submitting m = true → pending m ≠ []) →
  (∀ i, m = MJoin i → ∀ k, (k < i)%nat → p_workers p !! k = Some WExit) →
  (m = MDone → ∀ k w, p_workers p !! k = Some w → w = WExit) →
  pool_inv (set_main p m mu).
Proof.
  intros [Hh Hmh Ho (l & Hl & Hj & Hst) Hsd Haw Hck Hsub Hjn Hdn Hlog Hmem] Hmu Hpend Hann Hck' Hsub' Hjn' Hdn'.
  split; unfold set_main; cbn [p_workers p_mutex p_main p_queue p_shutdown p_taken p_log p_mem]; try done.
  - intros j w Hj' Hw. pose proof (Hh j w Hj' Hw) as Hown.
    destruct Hmu as [[-> _]|[(Hn & _)|(Hn & _)]]; [done|congruence..].
  - intros Hm. destruct Hmu as [[-> Heq]|[(_ & -> & _)|(_ & _ & Hf)]]; [|done|congruence]. apply Hmh. congruence.
  - destruct Hmu as [[-> Heq]|[(_ & -> & Ht)|(_ & -> & _)]]; [|done|done].
    destruct (p_mutex p) as [[|k]|]; [congruence|done|done].
  - exists l. by rewrite Hpend.
  - by rewrite Hann.
Qed.

(** waking up workers changes nothing the invariant depends on *)
Definition woken (ws ws' : list (worker J A)) : Prop :=
  Forall2 (fun w w' => w' = w ∨ w = WWait ∧ w' = WWake) ws ws'.

Lemma signal_woken ws ws' : signal ws ws' → woken ws ws'.
Proof.
  intros [ws0 i Hi|ws0 _]; [|apply Forall_Forall2_diag, Forall_true; by left].
  apply Forall2_same_length_lookup. split; [by rewrite length_insert|]. intros j w w' Hw Hw'.
  apply list_lookup_insert_Some in Hw' as [(<- & <- & _)|[_ Hj]]; [right|left]; [|congruence].
  split; [congruence|done].
Qed.

Lemma wake_woken ws : woken ws (wake <$> ws).
Proof. induction ws as [|w ws IH]; constructor; [destruct w; auto|done]. Qed.

Lemma woken_todo ws ws' : woken ws ws' → concat (todo <$> ws') = concat (todo <$> ws).
Proof.
  induction 1 as [|w w' ws ws' Hw _ IH]; [done|]. rewrite !fmap_cons. cbn [concat]. rewrite IH.
  by destruct Hw as [->|[-> ->]].
Qed.

(** a worker of interest after a wakeup was there before *)
Lemma woken_back ws ws' i w' :
  woken ws ws' → ws' !! i = Some w' →
  ∃ w, ws !! i = Some w ∧ holds w = holds w' ∧ stopping w = stopping w' ∧ (w = WExit ↔ w' = WExit)
       ∧ (w' = WWait → w = WWait).
Proof.
  intros Hw Hi. destruct (Forall2_lookup_r _ _ _ _ _ Hw Hi) as (w & Hwi & Hr). exists w. split; [done|].
  destruct Hr as [->|[-> ->]]; done.
Qed.

Lemma woken_there ws ws' i w :
  woken ws ws' → ws !! i = Some w → holds w = true ∨ w = WExit → ws' !! i = Some w.
Proof.
  intros Hw Hi Hh. destruct (Forall2_lookup_l _ _ _ _ _ Hw Hi) as (w' & Hwi & [->|[-> ->]]); [done|].
  by destruct Hh.
Qed.

Lemma inv_enq p j js q ws :
  pool_inv p → p_main p = MEnq (j :: js) → p_shutdown p = false → jq_enqueue (p_queue p) j = Ok q →
  signal (p_workers p) ws →
  pool_inv (mkPool q false (p_mutex p) ws (MEnqUnlock js) (p_mem p) (p_taken p) (p_log p)).
Proof.
  intros [Hh Hmh Ho (l & Hl & Hj & Hst) Hsd Haw Hck Hsub Hjn Hdn Hlog Hmem] Hm Hs Hq Hsig%signal_woken.
  destruct (jq_enqueue_rel _ _ j Hl) as (q' & Hq' & Hl'). rewrite Hq in Hq'. injection Hq' as <-.
  rewrite Hm in *. pose proof (Hmh eq_refl) as Hown.
  split; cbn [p_workers p_mutex p_main p_queue p_shutdown p_taken p_log p_mem]; try done.
  - intros i w Hi Hw. destruct (woken_back _ _ _ _ Hsig Hi) as (w0 & Hi0 & Hh0 & _). apply (Hh i w0 Hi0). congruence.
  - by rewrite Hown.
  - exists (l ++ [j]). split_and!; [done|rewrite Hj; simpl; by rewrite <- app_assoc|].
    intros i w Hi Hw. destruct (woken_back _ _ _ _ Hsig Hi) as (w0 & Hi0 & _ & Hs0 & _).
    destruct (Hst i w0 Hi0); congruence.
  - by rewrite (woken_todo _ _ Hsig).
Qed.

Lemma inv_fin p :
  pool_inv p → p_main p = MFin →
  pool_inv (mkPool (p_queue p) true (p_mutex p) (wake <$> p_workers p) MFinUnlock (p_mem p) (p_taken p) (p_log p)).
Proof.
  intros [Hh Hmh Ho (l & Hl & Hj & Hst) Hsd Haw Hck Hsub Hjn Hdn Hlog Hmem] Hm.
  rewrite Hm in *. pose proof (Hmh eq_refl) as Hown. pose proof (wake_woken (p_workers p)) as Hwk.
  split; cbn [p_workers p_mutex p_main p_queue p_shutdown p_taken p_log p_mem]; try done.
  - intros i w Hi Hw. destruct (woken_back _ _ _ _ Hwk Hi) as (w0 & Hi0 & Hh0 & _). apply (Hh i w0 Hi0). congruence.
  - by rewrite Hown.
  - exists l. split_and!; [done..|]. intros i w Hi Hw. destruct (woken_back _ _ _ _ Hwk Hi) as (w0 & Hi0 & _ & Hs0 & _).
    destruct (Hst i w0 Hi0) as [_ ->]; [congruence|done].
  - intros _ i Hi. rewrite list_lookup_fmap in Hi. destruct (p_workers p !! i) as [[]|]; done.
  - by rewrite (woken_todo _ _ Hwk).
Qed.

Lemma inv_mstep p p' : pool_inv p → mstep p p' → pool_inv p'.
Proof.
  intros Hp Hs.
  destruct Hs as [j js Hm Hmu|js Hm|js sd Hm|js Hm Hmu|js Hm Hsd|j js q ws Hm Hsd Hq Hsig|js Hm|Hm Hmu|Hm|Hm|i Hm Hi|i Hm Hi];
    try (pose proof (pi_mholds _ Hp) as Hown; rewrite Hm in Hown);
    try (pose proof (pi_shutdown _ Hp) as Hann; rewrite Hm in Hann; simpl in Hann);
    try (pose proof (pi_submitting _ Hp) as Hsub; rewrite Hm in Hsub; simpl in Hsub).
  - apply inv_set_main; rewrite ?Hm; try done. right; left. done.
  - apply inv_set_main; rewrite ?Hm; try done; try (by left). by intros ? ? [= _ <-].
  - assert (sd = false) as -> by (by eapply (pi_checked _ Hp)).
    apply inv_set_main; rewrite ?Hm; try done. right; right. by rewrite Hown.
  - apply inv_set_main; rewrite ?Hm; try done. right; left. done.
  - congruence.
  - by eapply inv_enq.
  - apply inv_set_main; rewrite ?Hm; try done. right; right. by rewrite Hown.
  - apply inv_set_main; rewrite ?Hm; try done. right; left. done.
  - by apply inv_fin.
  - apply inv_set_main; rewrite ?Hm; try done; try (right; right; by rewrite Hown). intros i [= <-]. lia.
  - apply inv_set_main; rewrite ?Hm; try done; try (by left). intros i' [= <-] k Hk.
    destruct (decide (k = i)) as [->|]; [done|]. apply (pi_joined _ Hp i Hm). lia.
  - apply inv_set_main; rewrite ?Hm; try done; try (by left). intros _ k w Hk.
    rewrite (pi_joined _ Hp i Hm k) in Hk; [by injection Hk|]. rewrite <- Hi. by eapply lookup_lt_Some.
Qed.

Lemma reachable_inv n p : tp_reachable fn act (tp_create n jobs mem0) p → pool_inv p.
Proof.
  induction 1 as [|p p' _ IH [Hm|i Hw]|p p' _ IH Hs]; [apply create_inv|by eapply inv_mstep|by eapply inv_wstep|by eapply inv_spurious].
Qed.

(** ** Progress *)

#[local] Instance waiting_dec (w : worker J A) : Decision (w = WWait).
Proof. by destruct w; (left; done) || (right; done). Defined.

Lemma signal_total ws : ∃ ws', signal ws ws'.
Proof.
  destruct (decide (Exists (fun w => w = WWait) ws)) as [He|Hne].
  - apply Exists_exists in He as (w & Hin & ->). apply list_elem_of_lookup in Hin as [i Hi]. eexists. by apply (signal_one _ i).
  - exists ws. apply signal_none. intros i Hi. apply Hne, Exists_exists. exists WWait. split; [by eapply list_elem_of_lookup_2|done].
Qed.

(** the owner of the mutex can move *)
Lemma progress_owner p i : pool_inv p → p_mutex p = Some (Worker i) → ∃ p', wstep fn act i p p'.
Proof.
  intros Hp Hmu. pose proof (pi_owner _ Hp) as Ho. rewrite Hmu in Ho. destruct Ho as (w & Hi & Hw).
  destruct (pi_queue _ Hp) as (l & Hl & _). destruct w; try done; [|eexists; by eapply ws_unlock].
  pose proof (jq_empty_rel _ _ Hl) as He. destruct l as [|j l].
  - destruct (p_shutdown p) eqn:Hs; eexists; [by eapply ws_stop|by eapply ws_wait].
  - destruct (jq_dequeue_rel _ _ _ Hl) as (q' & Hq & _). eexists. by eapply ws_take.
Qed.

Lemma progress_main p : pool_inv p → p_mutex p = Some Main → ∃ p', mstep p p'.
Proof.
  intros Hp Hmu. pose proof (pi_owner _ Hp) as Ho. rewrite Hmu in Ho.
  destruct (p_main p) as [js|js|js sd|js|js|js| | |i|] eqn:Hm; try done.
  - eexists. by eapply ms_check.
  - eexists. by eapply ms_check_unlock.
  - pose proof (pi_submitting _ Hp) as Hs. rewrite Hm in Hs. destruct js as [|j js]; [by specialize (Hs eq_refl)|].
    pose proof (pi_shutdown _ Hp) as Hsd. rewrite Hm in Hsd.
    destruct (pi_queue _ Hp) as (l & Hl & _). destruct (jq_enqueue_rel _ _ j Hl) as (q & Hq & _).
    destruct (signal_total (p_workers p)) as [ws Hsig]. eexists. by eapply ms_enq.
  - eexists. by eapply ms_enq_unlock.
  - eexists. by eapply ms_fin.
  - eexists. by eapply ms_fin_unlock.
Qed.

(** waiting in a join: the joined worker can move, or has exited *)
Lemma progress_join p i :
  pool_inv p → p_mutex p = None → p_main p = MJoin i → ∃ p', tp_step fn act p p'.
Proof.
  intros Hp Hmu Hm. destruct (p_workers p !! i) as [w|] eqn:Hi.
  - destruct w as [| | | |r|[|a rest]|].
    + eexists. apply (step_worker _ _ _ _ i). by apply ws_lock.
    + by rewrite (pi_holds _ Hp i WTest Hi) in Hmu.
    + pose proof (pi_shutdown _ Hp) as Hs. rewrite Hm in Hs. by destruct (pi_awake _ Hp Hs i).
    + eexists. apply (step_worker _ _ _ _ i). by apply ws_wake.
    + by rewrite (pi_holds _ Hp i (WUnlock r) Hi) in Hmu.
    + eexists. apply (step_worker _ _ _ _ i). by apply ws_next.
    + eexists. apply (step_worker _ _ _ _ i). by apply ws_act.
    + eexists. apply step_main. by eapply ms_join.
  - apply lookup_ge_None in Hi. destruct (decide (length (p_workers p) = i)) as [Hl|Hl].
    + eexists. apply step_main. by eapply ms_done.
    + pose proof (pi_joined _ Hp i Hm (length (p_workers p)) ltac:(lia)) as Hx. apply lookup_lt_Some in Hx. lia.
Qed.

Lemma progress p : pool_inv p → p_main p ≠ MDone → ∃ p', tp_step fn act p p'.
Proof.
  intros Hp Hd. destruct (p_mutex p) as [[|i]|] eqn:Hmu.
  - destruct (progress_main p Hp Hmu) as [p' Hs]. eexists. by apply step_main.
  - destruct (progress_owner p i Hp Hmu) as [p' Hs]. eexists. by apply (step_worker _ _ _ _ i).
  - pose proof (pi_mholds _ Hp) as Hno. destruct (p_main p) as [js|js|js sd|js|js|js| | |i|] eqn:Hm;
      try (by rewrite Hno in Hmu).
    + destruct js as [|j js]; eexists; apply step_main; [by apply ms_fin_lock|by eapply ms_check_lock].
    + eexists. apply step_main. by eapply ms_enq_lock.
    + by eapply progress_join.
Qed.

(** ** Termination *)

Definition wweight (w : worker J A) : nat :=
  match w with
  | WLock | WWake => 3
  | WTest => 2
  | WWait | WExit => 0
  | WUnlock None => 1
  | WUnlock (Some j) => length (fn j) + 5
  | WRun rest => length rest + 4
  end.

(** jobs that are not yet taken *)
Definition jweight (taken : list J) : nat :=
  sum_list ((fun j => length (fn j) + 4)%nat <$> drop (length taken) jobs).

(** steps to go for the submitting thread, with [n] workers *)
Definition mweight (n : nat) (m : submitter J) : nat :=
  match m with
  | MSubmit js => 6 * length js + n + 6
  | MCheck js => 6 * length js + n + 5
  | MChecked js _ => 6 * length js + n + 4
  | MEnqLock js => 6 * length js + n + 3
  | MEnq js => 6 * length js + n + 2
  | MEnqUnlock js => 6 * length js + n + 7
  | MFin => n + 5
  | MFinUnlock => n + 4
  | MJoin i => (n - i) + 2
  | MDone => 0
  end%nat.

Definition measure (p : pool J A M Q) : nat :=
  let n := length (p_workers p) in
  ((3 * n + 1) * mweight n (p_main p) + sum_list (wweight <$> p_workers p) + jweight (p_taken p))%nat.

Lemma wweight_insert ws i w0 w1 :
  ws !! i = Some w0 →
  (sum_list (wweight <$> <[i := w1]> ws) + wweight w0 = sum_list (wweight <$> ws) + wweight w1)%nat.
Proof.
  revert i; induction ws as [|w ws IH]; intros [|i] Hi; try done.
  - injection Hi as ->. simpl. lia.
  - change (<[S i := w1]> (w :: ws)) with (w :: <[i := w1]> ws). rewrite !fmap_cons. cbn [sum_list_with].
    specialize (IH i Hi). lia.
Qed.

Lemma woken_weight ws ws' :
  woken ws ws' → length ws' = length ws ∧ (sum_list (wweight <$> ws') ≤ sum_list (wweight <$> ws) + 3 * length ws)%nat.
Proof.
  induction 1 as [|w w' ws ws' Hw _ [IH1 IH2]]; [done|]. rewrite !fmap_cons. cbn [sum_list sum_list_with length].
  split; [by f_equal|]. destruct Hw as [->|[-> ->]]; simpl in *; lia.
Qed.

Lemma jweight_take taken j l :
  jobs = taken ++ j :: l → (jweight (taken ++ [j]) + length (fn j) + 4 = jweight taken)%nat.
Proof.
  intros Hj. unfold jweight. rewrite Hj, drop_app_length.
  replace (taken ++ j :: l) with ((taken ++ [j]) ++ l) by (by rewrite <- app_assoc).
  rewrite drop_app_length. rewrite fmap_cons. cbn [sum_list_with id]. lia.
Qed.

(** a worker's step from [w0] to [w1] *)
Lemma worker_decreases p p' i w0 w1 :
  p_workers p !! i = Some w0 → p_workers p' = <[i := w1]> (p_workers p) → p_main p' = p_main p →
  (wweight w1 + jweight (p_taken p') < wweight w0 + jweight (p_taken p))%nat →
  (measure p' < measure p)%nat.
Proof.
  intros Hi Hw Hm Hlt. unfold measure. rewrite Hw, Hm, length_insert. pose proof (wweight_insert _ _ _ w1 Hi). lia.
Qed.

Lemma wstep_decreases p p' i : pool_inv p → wstep fn act i p p' → (measure p' < measure p)%nat.
Proof.
  intros Hp Hs. destruct Hs as [Hi _|Hi _ _|Hi _ _|j q Hi Hne Hq|r Hi|a rest Hi|Hi|Hi _].
  1-3, 5-8: eapply worker_decreases; [exact Hi|reflexivity..|]; try destruct r; simpl; lia.
  destruct (pi_queue _ Hp) as (l & Hl & Hj & _). pose proof (jq_empty_rel _ _ Hl) as He. destruct l as [|j' l]; [by rewrite He in Hne|].
  destruct (jq_dequeue_rel _ _ _ Hl) as (q' & Hq' & _). rewrite Hq in Hq'. injection Hq' as <- <-.
  eapply worker_decreases; [exact Hi|reflexivity..|]. pose proof (jweight_take _ _ _ Hj). simpl in *. lia.
Qed.

(** a step of the submitting thread, which may wake workers up *)
Lemma main_decreases p p' :
  woken (p_workers p) (p_workers p') → p_taken p' = p_taken p →
  (mweight (length (p_workers p)) (p_main p') < mweight (length (p_workers p)) (p_main p))%nat →
  (measure p' < measure p)%nat.
Proof.
  intros Hw Ht Hlt. unfold measure. destruct (woken_weight _ _ Hw) as [-> Hle]. rewrite Ht. nia.
Qed.

Lemma woken_refl ws : woken ws ws.
Proof. apply Forall_Forall2_diag, Forall_true. by left. Qed.

Lemma mstep_decreases p p' : pool_inv p → mstep p p' → (measure p' < measure p)%nat.
Proof.
  intros Hp Hs. apply main_decreases.
  1: { destruct Hs; try apply woken_refl; [by apply signal_woken|apply wake_woken]. }
  1: { by destruct Hs. }
  pose proof (pi_checked _ Hp) as Hc. pose proof (pi_shutdown _ Hp) as Hsd.
  destruct Hs as [j js Hm _|js Hm|js sd Hm|js Hm _|js Hm Ht|j js q ws Hm _ _ _|js Hm|Hm _|Hm|Hm|i Hm Hx|i Hm Hl]; rewrite Hm in *; simpl; try lia.
  - rewrite (Hc js sd eq_refl). simpl. lia.
  - simpl in Hsd. congruence.
  - apply lookup_lt_Some in Hx. lia.
Qed.

Lemma step_decreases p p' : pool_inv p → tp_step fn act p p' → (measure p' < measure p)%nat.
Proof. intros Hp [Hs|i Hs]; [by apply mstep_decreases|by eapply wstep_decreases]. Qed.

Lemma inv_step p p' : pool_inv p → tp_step fn act p p' → pool_inv p'.
Proof. intros Hp [Hs|i Hs]; [by eapply inv_mstep|by eapply inv_wstep]. Qed.

(** ** Scheduled runs are runs *)

Lemma wnext_step i p p' : wnext fn act i p = Some p' → wstep fn act i p p'.
Proof.
  unfold wnext. destruct (p_workers p !! i) as [[| | | |r|[|a rest]|]|] eqn:Hi; try done.
  - destruct (p_mutex p) eqn:Hmu; [done|]. intros [= <-]. by apply ws_lock.
  - destruct (jq_is_empty (p_queue p)) eqn:He.
    + destruct (p_shutdown p) eqn:Hs; intros [= <-]; [by apply ws_stop|by apply ws_wait].
    + destruct (jq_dequeue (p_queue p)) as [[j q]| | |] eqn:Hq; try done. intros [= <-]. by apply ws_take.
  - destruct (p_mutex p) eqn:Hmu; [done|]. intros [= <-]. by apply ws_wake.
  - intros [= <-]. by apply ws_unlock.
  - intros [= <-]. by apply ws_next.
  - intros [= <-]. by apply ws_act.
Qed.

Lemma signal_first_signal ws : signal ws (signal_first ws).
Proof.
  induction ws as [|w ws IH]; [by apply signal_none|].
  destruct (decide (w = WWait)) as [->|Hw]; [by apply (signal_one (WWait :: ws) 0)|].
  replace (signal_first (w :: ws)) with (w :: signal_first ws) by by destruct w.
  destruct IH as [ws i Hi|ws Hn].
  - by apply (signal_one (w :: ws) (S i)).
  - apply signal_none. intros [|i]; [simpl; congruence|apply Hn].
Qed.

Lemma mnext_step p p' : mnext p = Some p' → mstep p p'.
Proof.
  unfold mnext. destruct (p_main p) as [[|j js]|js|js sd|js|js|js| | |i|] eqn:Hm; try done.
  - destruct (p_mutex p) eqn:Hmu; [done|]. intros [= <-]. by apply ms_fin_lock.
  - destruct (p_mutex p) eqn:Hmu; [done|]. intros [= <-]. by apply ms_check_lock.
  - intros [= <-]. by apply ms_check.
  - intros [= <-]. by apply ms_check_unlock.
  - destruct (p_mutex p) eqn:Hmu; [done|]. intros [= <-]. by apply ms_enq_lock.
  - destruct (p_shutdown p) eqn:Hs; [intros [= <-]; by apply ms_enq_refused|]. destruct js as [|j js]; [done|].
    destruct (jq_enqueue (p_queue p) j) as [q| | |] eqn:Hq; try done. intros [= <-].
    by eapply ms_enq, signal_first_signal.
  - intros [= <-]. by apply ms_enq_unlock.
  - intros [= <-]. by apply ms_fin.
  - intros [= <-]. by apply ms_fin_unlock.
  - destruct (p_workers p !! i) as [w|] eqn:Hi.
    + destruct w; try done. intros [= <-]. by apply ms_join.
    + case_decide; [|done]. intros [= <-]. by eapply ms_done.
Qed.

Lemma run_schedule_reachable sched p0 p :
  tp_reachable fn act p0 p → tp_reachable fn act p0 (run_schedule fn act sched p).
Proof.
  revert p; induction sched as [|t sched IH]; intros p Hp; [done|]. apply IH.
  destruct t as [|i]; [destruct (mnext p) eqn:Hn|destruct (wnext fn act i p) eqn:Hn]; try done; eapply reach_step; try done.
  - by apply step_main, mnext_step.
  - by eapply step_worker, wnext_step.
Qed.

(** ** Consequences *)

Definition in_critical (p : pool J A M Q) (t : tid) : Prop :=
  match t with
  | Main => mholds (p_main p) = true
  | Worker i => ∃ w, p_workers p !! i = Some w ∧ holds w = true
  end.

Lemma critical_owner p t : pool_inv p → in_critical p t → p_mutex p = Some t.
Proof. intros Hp. destruct t as [|i]; [apply (pi_mholds _ Hp)|]. intros (w & Hi & Hw). by apply (pi_holds _ Hp i w). Qed.

Lemma decide_done (m : submitter J) : {m = MDone} + {m ≠ MDone}.
Proof. destruct m; (left; done) || (right; done). Defined.

Lemma inv_rtc p p' : pool_inv p → rtc (tp_step fn act) p p' → pool_inv p'.
Proof. intros Hp Hs. induction Hs as [|p p' p'' Hs _ IH]; [done|]. by eapply IH, inv_step. Qed.

Lemma inv_acc p : pool_inv p → Acc (flip (tp_step fn act)) p.
Proof.
  intros Hp. remember (measure p) as k eqn:Hk. revert p Hp Hk.
  induction k as [k IH] using lt_wf_ind; intros p Hp ->. constructor; intros p' Hs.
  by eapply IH; [by apply step_decreases|by eapply inv_step|].
Qed.

(** the pool never loses a thread *)
Lemma step_workers p p' : tp_step fn act p p' → length (p_workers p') = length (p_workers p).
Proof.
  intros [Hs|i Hs]; destruct Hs; cbn [p_workers set_main set_worker take_job perform]; rewrite ?length_insert, ?length_fmap; try done.
  by destruct (woken_weight _ _ (signal_woken _ _ ltac:(eassumption))).
Qed.

Lemma reachable_workers n p :
  tp_reachable fn act (tp_create n jobs mem0) p → length (p_workers p) = tp_nthreads n.
Proof.
  induction 1 as [|p p' _ IH Hs|p p' _ IH Hs]; [apply repeat_length|by rewrite (step_workers _ _ Hs)|].
  destruct Hs. by cbn [p_workers set_worker]; rewrite length_insert.
Qed.

Lemma tp_nthreads_pos n : (0 < tp_nthreads n)%nat.
Proof. unfold tp_nthreads. destruct (Z.leb_spec n 0); lia. Qed.

Lemma done_facts n p :
  tp_reachable fn act (tp_create n jobs mem0) p → p_main p = MDone →
  p_taken p = jobs ∧ jq_is_empty (p_queue p) = true ∧ Forall (eq WExit) (p_workers p) ∧
  p_log p ≡ₚ concat (fn <$> jobs) ∧ p_mem p = run_log (p_log p).
Proof.
  intros Hr Hm. pose proof (reachable_inv _ _ Hr) as Hp. pose proof (pi_done _ Hp Hm) as Hx.
  destruct (pi_queue _ Hp) as (l & Hl & Hj & Hst).
  destruct (lookup_lt_is_Some_2 (p_workers p) 0) as [w Hw].
  { rewrite (reachable_workers _ _ Hr). apply tp_nthreads_pos. }
  destruct (Hst 0%nat w Hw) as [_ ->]; [by rewrite (Hx _ _ Hw)|].
  rewrite Hm in Hj. cbn [pending] in Hj. rewrite !app_nil_r in Hj.
  assert (HF : Forall (eq WExit) (p_workers p)) by (apply Forall_lookup; intros k w' Hk; by rewrite (Hx _ _ Hk)).
  split_and!; [done|by rewrite (jq_empty_rel _ _ Hl)|done| |apply (pi_mem _ Hp)].
  rewrite Hj, <- (pi_log _ Hp). clear -HF. induction HF as [|w ws <- _ IH]; [by rewrite app_nil_r|done].
Qed.

(** some run is complete *)
Lemma reaches_done n : ∃ p, tp_reachable fn act (tp_create n jobs mem0) p ∧ p_main p = MDone.
Proof.
  cut (∀ p, tp_reachable fn act (tp_create n jobs mem0) p →
            ∃ p', tp_reachable fn act (tp_create n jobs mem0) p' ∧ p_main p' = MDone).
  { intros Hc. apply (Hc _ (reach_init _ _ _)). }
  intros p Hr. pose proof (inv_acc _ (reachable_inv _ _ Hr)) as Ha. induction Ha as [p _ IH].
  destruct (decide_done (p_main p)) as [Hd|Hd]; [by exists p|].
  destruct (progress _ (reachable_inv _ _ Hr) Hd) as [p' Hs]. apply (IH p' Hs). by eapply reach_step.
Qed.
End Facts.
