(* ===== verification/ThreadPoolTheorems.v ===== *)
(** * Properties of the thread pool

    For every interleaving of the workers and the submitting thread, spurious
    wakeups of the condition variable included: at most one thread is in a
    critical section, no reachable state is stuck, the program's steps run
    out, and once the pool is destroyed every submitted job has been taken
    once, in the order of submission, and run to its end.

    The theorems are about any queue with the laws of [JobQueueLaws]; the
    witnesses run the linked list of [threadpool.c]. *)

From S2P Require Import Prelude JobQueue ThreadPool ThreadPoolFacts.

(** ** A run *)

(** two jobs, of one and of two actions, each adding a number *)
Definition demo_fn (j : bool) : list Z := if j then [1; 2] else [10].

Definition demo_pool : pool bool Z Z (TP_Queue bool) := tp_create 1 [true; false] 0.

(** the worker waits first, is signalled, and is run to its end before the
    submitting thread joins it *)
Definition demo_schedule : list tid :=
  repeat (Worker 0) 2 ++ repeat Main 16 ++ repeat (Worker 0) 20 ++ repeat Main 3.

Definition demo_end : pool bool Z Z (TP_Queue bool) := run_schedule demo_fn Z.add demo_schedule demo_pool.

(** in the middle of the run: the worker waits, the first job is being queued *)
Definition demo_middle : pool bool Z Z (TP_Queue bool) :=
  run_schedule demo_fn Z.add (repeat (Worker 0) 2 ++ repeat Main 4) demo_pool.

Lemma demo_reachable sched :
  tp_reachable demo_fn Z.add (tp_create 1 [true; false] 0) (run_schedule demo_fn Z.add sched demo_pool).
Proof. apply run_schedule_reachable, reach_init. Qed.

Section Theorems.
Context {J A M Q : Type} `{QO : JobQueue Q J} `{!JobQueueLaws Q J}.
Context (fn : J → list A) (act : A → M → M).

(** C25. Once [tp_finish_and_destroy] returns, the jobs have been taken from
    the queue exactly once each and in the order they were submitted, the
    queue is empty, every worker has exited, and the actions the workers
    performed are those of the jobs, interleaved; the shared memory is the
    effect of that interleaving. *)
Theorem pool_runs_every_job n jobs mem0 p :
  tp_reachable fn act (tp_create n jobs mem0) p → p_main p = MDone →
  p_taken p = jobs ∧ jq_is_empty (p_queue p) = true ∧ Forall (eq WExit) (p_workers p) ∧
  p_log p ≡ₚ concat (fn <$> jobs) ∧ p_mem p = run_log act mem0 (p_log p).
Proof.
  intros Hr Hm. exact (done_facts _ _ _ _ _ _ Hr Hm).
Qed.

(** No deadlock: in every reachable state in which the pool is not yet
    destroyed, some thread can take a step. *)
Theorem pool_progress n jobs mem0 p :
  tp_reachable fn act (tp_create n jobs mem0) p → p_main p ≠ MDone → ∃ p', tp_step fn act p p'.
Proof. intros Hr. by eapply progress, reachable_inv. Qed.

(** C26. Termination: from every reachable state, every sequence of steps of
    the program is finite, and one that cannot be extended ends with the pool
    destroyed. *)
Theorem pool_terminates n jobs mem0 p :
  tp_reachable fn act (tp_create n jobs mem0) p →
  Acc (flip (tp_step fn act)) p ∧
  ∀ p', rtc (tp_step fn act) p p' → (∀ p'', ¬ tp_step fn act p' p'') → p_main p' = MDone.
Proof.
  intros Hp%reachable_inv. split; [by eapply inv_acc|]. intros p' Hs Hn.
  pose proof (inv_rtc _ _ _ _ _ _ Hp Hs) as Hp'. destruct (decide_done (p_main p')) as [Hd|Hd]; [done|].
  by destruct (progress _ _ _ _ _ Hp' Hd) as [p'' ?%Hn].
Qed.

(** Mutual exclusion: two threads inside critical sections are the same
    thread. *)
Theorem pool_mutex n jobs mem0 p :
  tp_reachable fn act (tp_create n jobs mem0) p →
  ∀ t1 t2, in_critical p t1 → in_critical p t2 → t1 = t2.
Proof. intros Hp%reachable_inv t1 t2 Hc1%(critical_owner _ _ _ _ _ _ Hp) Hc2%(critical_owner _ _ _ _ _ _ Hp). congruence. Qed.
End Theorems.

Lemma pool_runs_every_job_witness :
  p_main demo_end = MDone ∧ p_taken demo_end = [true; false] ∧ p_mem demo_end = 13.
Proof.
  assert (Hm : p_main demo_end = MDone) by (vm_compute; reflexivity).
  destruct (pool_runs_every_job demo_fn Z.add 1 [true; false] 0 demo_end (demo_reachable _) Hm) as (Ht & _).
  split_and!; [exact Hm|exact Ht|vm_compute; reflexivity].
Defined.

Lemma pool_progress_witness :
  p_main demo_middle = MEnq [true; false] ∧ ∃ p', tp_step demo_fn Z.add demo_middle p'.
Proof.
  split; [vm_compute; reflexivity|].
  apply (pool_progress demo_fn Z.add 1 [true; false] 0 demo_middle (demo_reachable _)). vm_compute. discriminate.
Defined.

Lemma pool_terminates_witness :
  Acc (flip (tp_step demo_fn Z.add)) demo_middle.
Proof. exact (proj1 (pool_terminates demo_fn Z.add 1 [true; false] 0 demo_middle (demo_reachable _))). Defined.

Lemma pool_mutex_witness :
  in_critical (run_schedule demo_fn Z.add [Worker 0] demo_pool) (Worker 0) ∧
  ∀ t, in_critical (run_schedule demo_fn Z.add [Worker 0] demo_pool) t → t = Worker 0.
Proof.
  assert (Hc : in_critical (run_schedule demo_fn Z.add [Worker 0] demo_pool) (Worker 0))
    by (exists WTest; vm_compute; split; reflexivity).
  split; [exact Hc|]. intros t Ht.
  exact (pool_mutex demo_fn Z.add 1 [true; false] 0 _ (demo_reachable [Worker 0]) t (Worker 0) Ht Hc).
Defined.
