(* ===== verification/ApplyMt.v ===== *)
(** * Parallel application of lambdas

    [apply_mt_internal] of [ext/apply_mt_ext.c]: every lambda of the second
    relation is applied to every row of the first.  The rows are copied into
    one array, each lambda's rows are split into one chunk per thread, each
    chunk is a job of the thread pool, and the jobs write into one result
    array.  The lambdas are compiled by the JIT before they are submitted;
    the compiled function is a parameter, called with a pointer to the row's
    first column (the array from there on).  A row is its Datums, as the code
    copies them: it ignores the NULL flags of the rows, and the array of flags
    it gives to the result is always false.  What a Datum by reference points to
    is not modelled. *)

From S2P Require Import Prelude JobQueue ThreadPool.

Definition MaxAllocSize : Z := 0x3fffffff.

(** a product of two ints *)
Definition int_mul (a b : Z) : outcome Z :=
  if (- 2 ^ 31 <=? a * b) && (a * b <? 2 ^ 31) then Ok (a * b) else UB.

(** a sum of two ints *)
Definition int_add (a b : Z) : outcome Z :=
  if (- 2 ^ 31 <=? a + b) && (a + b <? 2 ^ 31) then Ok (a + b) else UB.

(** [palloc] of [count] Datums, the count being an int *)
Definition palloc_datums (count : Z) : outcome unit :=
  let size := uint64 (uint64 count * 8) in
  if size <=? MaxAllocSize then Ok tt
  else elog (lit "invalid memory alloc request size " ++ fmt_d size).

Record WorkItem := mkWorkItem {
  id_lambda : Z;
  wi_start : Z;
  wi_end : Z;
  num_cols : Z;
  num_tuples : Z;
  in_data : list Z;
  wi_eval_func : list Z → Z
}.

(** ** The worker function *)

Fixpoint eval_loop (fuel : nat) (args : WorkItem) (i : Z) : list (Z * Z) :=
  match fuel with
  | O => []
  | S fuel =>
      if (i <? wi_end args) && (i <? num_tuples args) then
        let row_in := drop (Z.to_nat (uint64 (i * num_cols args))) (in_data args) in
        (uint64 (uint64 (id_lambda args * num_tuples args) + i), wi_eval_func args row_in)
          :: eval_loop fuel args (i + 1)
      else []
  end.

(** [eval_lambda]: the stores of a job into the result array, in order, each a
    slot and a value *)
Definition eval_lambda (args : WorkItem) : list (Z * Z) :=
  eval_loop (Z.to_nat (wi_end args - wi_start args)) args (wi_start args).

(** the effect of a store; outside of the array it is undefined *)
Definition do_store (s : Z * Z) (mem : outcome (list Z)) : outcome (list Z) :=
  l ← mem;
  if (0 <=? s.1) && (s.1 <? Z.of_nat (length l)) then Ok (<[Z.to_nat s.1 := s.2]> l) else UB.

(** ** [apply_mt_internal] *)

Definition apply_mt_nthreads (nthreads n : Z) : Z :=
  if (n <? nthreads) && (0 <? n) then n else nthreads.

(** copying the tuples, one after the other *)
Fixpoint copy_tuples (cols idx_tup : Z) (rows : list (list Z)) : outcome (list Z) :=
  match rows with
  | [] => Ok []
  | row :: rows =>
      _ ← int_mul idx_tup cols;
      rest ← copy_tuples cols (idx_tup + 1) rows;
      Ok (take (Z.to_nat cols) row ++ rest)
  end.

(** the job of chunk [i] for one lambda *)
Definition work_item (nthreads n cols : Z) (data : list Z) (lambda_ctr : nat) (compiled_func : list Z → Z)
    (i : Z) : WorkItem :=
  {| id_lambda := Z.of_nat lambda_ctr;
     in_data := data;
     wi_start := uint64 (n * i) / nthreads;
     wi_end := uint64 (n * (i + 1)) / nthreads;
     num_cols := cols;
     num_tuples := n;
     wi_eval_func := compiled_func |}.

(** the jobs that are submitted, in order *)
Definition apply_mt_jobs (nthreads n cols : Z) (data : list Z) (funcs : list (list Z → Z)) : list WorkItem :=
  concat (imap (fun lambda_ctr f => work_item nthreads n cols data lambda_ctr f <$> seqZ 0 nthreads) funcs).

Record apply_mt_setup := mkSetup {
  am_nthreads : Z;
  am_data : list Z;
  am_jobs : list WorkItem;
  am_result : list Z
}.

(** up to the start of the threads: the copied data, the jobs, and the zeroed
    result array *)
Definition apply_mt_prepare (nthreads cols : Z) (rows : list (list Z)) (funcs : list (list Z → Z)) :
    outcome apply_mt_setup :=
  let n := int32 (Z.of_nat (length rows)) in
  size ← int_mul cols n;
  _ ← palloc_datums size;
  let nthreads := apply_mt_nthreads nthreads n in
  data ← copy_tuples cols 0 rows;
  num_tuples_result ← int_mul n (int32 (Z.of_nat (length funcs)));
  _ ← palloc_datums num_tuples_result;
  Ok (mkSetup nthreads data (apply_mt_jobs nthreads n cols data funcs)
        (repeat 0 (Z.to_nat num_tuples_result))).

(** the pool at the start of the run *)
Definition apply_mt_pool `{JobQueue Q WorkItem} (s : apply_mt_setup) : pool WorkItem (Z * Z) (outcome (list Z)) Q :=
  tp_create (am_nthreads s) (am_jobs s) (Ok (am_result s)).

(** one row of the output *)
Definition emit_row (cols n : Z) (data result : list Z) (i : Z) : outcome (list Z) :=
  offset ← int_mul (Z.rem i n) cols;
  v ← deref (result !! Z.to_nat i);
  Ok (take (Z.to_nat cols) (drop (Z.to_nat offset) data) ++ [v]).

(** after the threads have finished: the output relation *)
Definition apply_mt_emit (cols n : Z) (data result : list Z) (num_tuples_result : Z) : outcome (list (list Z)) :=
  omapM (emit_row cols n data result) (seqZ 0 num_tuples_result).
