(* ===== verification/ApplyMtFacts.v ===== *)
(** * Facts about the parallel application of lambdas

    The chunks of a lambda cover its rows once; the stores of all jobs cover
    the result array once; stores that agree with an array they cover produce
    it in every order. *)

From S2P Require Import Prelude JobQueue ThreadPool ThreadPoolFacts ApplyMt.

(** ** Rows of equal length *)

Lemma concat_lookup_uniform {B} (ls : list (list B)) n i k :
  Forall (fun l => length l = n) ls → (k < n)%nat →
  concat ls !! (i * n + k)%nat = ls !! i ≫= (fun l => l !! k).
Proof.
  intros HF Hk. revert i; induction HF as [|l ls Hl _ IH]; intros i; [done|]. cbn [concat].
  destruct i as [|i].
  - rewrite lookup_app_l by lia. done.
  - rewrite lookup_app_r by lia. replace (S i * n + k - length l)%nat with (i * n + k)%nat by lia. apply IH.
Qed.

Lemma concat_length_uniform {B} (ls : list (list B)) n :
  Forall (fun l => length l = n) ls → length (concat ls) = (length ls * n)%nat.
Proof. induction 1 as [|l ls Hl _ IH]; [done|]. cbn [concat length]. rewrite length_app, IH. lia. Qed.

Lemma drop_concat_uniform {B} (ls : list (list B)) n i :
  Forall (fun l => length l = n) ls → drop (i * n) (concat ls) = concat (drop i ls).
Proof.
  intros HF. revert i; induction HF as [|l ls Hl _ IH]; intros i; [by destruct i, n; simpl; rewrite ?drop_nil|].
  destruct i as [|i]; [done|]. cbn [concat drop]. rewrite drop_app_ge by lia.
  replace (S i * n - length l)%nat with (i * n)%nat by lia. apply IH.
Qed.

Lemma fmap_concat {B C} (g : B → C) (ls : list (list B)) : g <$> concat ls = concat (fmap (M:=list) g <$> ls).
Proof. induction ls as [|l ls IH]; [done|]. cbn [concat]. rewrite fmap_app, IH. done. Qed.

(** the row at index [i] of the copied data *)
Lemma row_at {B} (rows : list (list B)) cols i row :
  Forall (fun r => length r = cols) rows → rows !! i = Some row →
  take cols (drop (i * cols) (concat rows)) = row.
Proof.
  intros HF Hi. rewrite drop_concat_uniform by done. rewrite (drop_S _ _ _ Hi). cbn [concat].
  apply take_app_length'. eapply Forall_lookup_1 in HF; [|done]. simpl in HF. lia.
Qed.

(** ** Chunks *)

Lemma eval_loop_spec fuel w i :
  i + Z.of_nat fuel ≤ wi_end w → wi_end w ≤ num_tuples w →
  eval_loop fuel w i =
    (fun k => (uint64 (uint64 (id_lambda w * num_tuples w) + k),
               wi_eval_func w (drop (Z.to_nat (uint64 (k * num_cols w))) (in_data w)))) <$> seqZ i (Z.of_nat fuel).
Proof.
  revert i; induction fuel as [|fuel IH]; intros i Hle Hn; [done|].
  cbn [eval_loop]. rewrite (seqZ_cons i (Z.of_nat (S fuel))) by lia. rewrite fmap_cons.
  destruct (Z.ltb_spec i (wi_end w)), (Z.ltb_spec i (num_tuples w)); try lia. cbn [andb]. f_equal.
  rewrite IH by lia. f_equal. f_equal; lia.
Qed.

Lemma eval_lambda_spec w :
  wi_end w ≤ num_tuples w →
  eval_lambda w =
    (fun k => (uint64 (uint64 (id_lambda w * num_tuples w) + k),
               wi_eval_func w (drop (Z.to_nat (uint64 (k * num_cols w))) (in_data w))))
      <$> seqZ (wi_start w) (wi_end w - wi_start w).
Proof.
  intros Hn. unfold eval_lambda. destruct (Z.le_gt_cases (wi_start w) (wi_end w)) as [Hle|Hgt].
  - rewrite eval_loop_spec by lia. f_equal. f_equal. lia.
  - rewrite seqZ_nil by lia. by replace (Z.to_nat (wi_end w - wi_start w)) with O by lia.
Qed.

(** consecutive ranges make one range *)
Lemma concat_ranges (b : Z → Z) (k : nat) :
  (∀ t, 0 ≤ t → b t ≤ b (t + 1)) → 
  concat ((fun t => seqZ (b t) (b (t + 1) - b t)) <$> seqZ 0 (Z.of_nat k)) = seqZ (b 0) (b (Z.of_nat k) - b 0)
  ∧ b 0 ≤ b (Z.of_nat k).
Proof.
  intros Hb. induction k as [|k [IH Hk]]; [change (Z.of_nat 0) with 0; by rewrite Z.sub_diag|].
  rewrite seqZ_S, fmap_app, concat_app, IH, Z.add_0_l. cbn [fmap list_fmap concat]. rewrite app_nil_r.
  pose proof (Hb (Z.of_nat k) ltac:(lia)) as Hs. rewrite Nat2Z.inj_succ. unfold Z.succ. split; [|lia].
  replace (b (Z.of_nat k + 1) - b 0) with ((b (Z.of_nat k) - b 0) + (b (Z.of_nat k + 1) - b (Z.of_nat k))) by lia.
  rewrite seqZ_app by lia. do 2 f_equal. lia.
Qed.

(** the stores of one lambda *)
Definition lambda_stores (n cols : Z) (data : list Z) (id : nat) (f : list Z → Z) : list (Z * Z) :=
  (fun k => (Z.of_nat id * n + k, f (drop (Z.to_nat (k * cols)) data))) <$> seqZ 0 n.

Definition small (n : Z) : Prop := 0 ≤ n < 2 ^ 31.

Lemma uint64_id z : 0 ≤ z < 2 ^ 64 → uint64 z = z.
Proof. intros. by apply Z.mod_small. Qed.

Lemma chunk_bounds nthreads n t :
  0 < nthreads → small n → small nthreads → 0 ≤ t < nthreads →
  uint64 (n * t) / nthreads = n * t / nthreads ∧ uint64 (n * (t + 1)) / nthreads = n * (t + 1) / nthreads
  ∧ 0 ≤ n * t / nthreads ∧ n * (t + 1) / nthreads ≤ n.
Proof.
  unfold small. intros Hp Hn Ht Hlt. rewrite !uint64_id by nia. split_and!; [done..| |].
  - apply Z.div_pos; nia.
  - apply Z.div_le_upper_bound; nia.
Qed.

Lemma store_wraps n cols id k :
  small n → small (n * cols) → 0 ≤ cols → small id → 0 ≤ k < n →
  uint64 (uint64 (id * n) + k) = id * n + k ∧ uint64 (k * cols) = k * cols.
Proof.
  unfold small. intros Hn Hc Hc0 Hid Hk. assert (k * cols ≤ n * cols) by nia. rewrite (uint64_id (id * n)) by nia.
  split; apply uint64_id; nia.
Qed.

Lemma jobs_of_lambda nthreads n cols data id f :
  0 < nthreads → small n → small nthreads → small (n * cols) → 0 ≤ cols → small (Z.of_nat id) →
  concat (eval_lambda <$> (work_item nthreads n cols data id f <$> seqZ 0 nthreads)) = lambda_stores n cols data id f.
Proof.
  intros Hp Hn Hnt Hc Hc0 Hid. unfold lambda_stores.
  set (g := fun k => (Z.of_nat id * n + k, f (drop (Z.to_nat (k * cols)) data))).
  set (b := fun t => n * t / nthreads).
  transitivity (concat ((fmap g ∘ (fun t => seqZ (b t) (b (t + 1) - b t))) <$> seqZ 0 nthreads)).
  - f_equal. rewrite <- list_fmap_compose. apply list_fmap_ext; intros i t Ht. apply lookup_seqZ in Ht as [-> Ht].
    destruct (chunk_bounds nthreads n (0 + Z.of_nat i)) as (Hs & He & H0 & H1); [done..|lia|].
    unfold compose at 1. rewrite eval_lambda_spec; cbn [work_item wi_start wi_end num_tuples id_lambda num_cols in_data wi_eval_func];
      rewrite He; [|done].
    rewrite Hs. apply list_fmap_ext; intros j k Hk. apply lookup_seqZ in Hk as [-> Hk].
    fold (b (0 + Z.of_nat i)) (b (0 + Z.of_nat i + 1)) in *. unfold g.
    destruct (store_wraps n cols (Z.of_nat id) (b (0 + Z.of_nat i) + Z.of_nat j)) as [-> ->]; [done..|lia|done].
  - rewrite list_fmap_compose, <- fmap_concat.
    destruct (concat_ranges b (Z.to_nat nthreads)) as [Hr _].
    { intros t Ht. apply Z.div_le_mono; unfold small in *; nia. }
    rewrite Z2Nat.id in Hr by lia. rewrite Hr. unfold b. f_equal.
    rewrite Z.mul_0_r, Z.div_0_l, Z.div_mul by lia. by rewrite Z.sub_0_r.
Qed.

(** ** The stores of all jobs *)

Lemma imap_concat_fmap {B C D} (F : nat → B → list C) (g : C → list D) (l : list B) :
  concat (g <$> concat (imap F l)) = concat (imap (fun i x => concat (g <$> F i x)) l).
Proof.
  revert F; induction l as [|x l IH]; intros F; [done|]. cbn [imap concat]. rewrite fmap_app, concat_app. f_equal. apply IH.
Qed.

Section Stores.
Context (nthreads n cols : Z) (data : list Z) (funcs : list (list Z → Z)).
Context (Hpos : 0 < nthreads) (Hn : small n) (Hnt : small nthreads) (Hsz : small (n * cols)) (Hcols : 0 ≤ cols).
Context (Hfs : small (Z.of_nat (length funcs))).

Lemma jobs_stores :
  concat (eval_lambda <$> apply_mt_jobs nthreads n cols data funcs) = concat (imap (lambda_stores n cols data) funcs).
Proof.
  unfold apply_mt_jobs. rewrite imap_concat_fmap. f_equal. apply imap_ext. intros id f Hid.
  apply jobs_of_lambda; try done. apply lookup_lt_Some in Hid. unfold small in *. lia.
Qed.

(** the slots, in the order of submission *)
Lemma stores_slots k (fs : list (list Z → Z)) :
  fst <$> concat (imap (fun id => lambda_stores n cols data (k + id)) fs)
    = seqZ (Z.of_nat k * n) (n * Z.of_nat (length fs)).
Proof.
  revert k; induction fs as [|f fs IH]; intros k; [by rewrite Z.mul_0_r|].
  cbn [imap concat length]. rewrite fmap_app. unfold lambda_stores at 1.
  rewrite <- list_fmap_compose, Nat.add_0_r.
  replace (n * Z.of_nat (S (length fs))) with (n + n * Z.of_nat (length fs)) by lia.
  destruct Hn. rewrite seqZ_app by nia. f_equal.
  - rewrite <- (Z.add_0_r (Z.of_nat k * n)), <- fmap_add_seqZ. apply list_fmap_ext. intros i x _. cbn. lia.
  - replace (Z.of_nat k * n + n) with (Z.of_nat (S k) * n) by lia. rewrite <- IH. f_equal. f_equal.
    apply imap_ext. intros i x _. cbn. f_equal. lia.
Qed.

(** each store is the value of its lambda on its row *)
Lemma stores_values s :
  s ∈ concat (imap (lambda_stores n cols data) funcs) →
  ∃ id f (k : nat), funcs !! id = Some f ∧ Z.of_nat k < n ∧ s.1 = Z.of_nat (id * Z.to_nat n + k) ∧
    s.2 = f (drop (k * Z.to_nat cols) data).
Proof.
  intros (l & Hl%list_elem_of_In & Hs%list_elem_of_In)%list_elem_of_In%in_concat. apply elem_of_lookup_imap in Hl as (id & f & -> & Hf).
  apply list_elem_of_fmap in Hs as (k & -> & Hk%elem_of_seqZ). destruct Hn.
  exists id, f, (Z.to_nat k). split_and!; [done|lia|cbn; lia|cbn; do 2 f_equal; lia].
Qed.
End Stores.

(** ** Any order of the stores *)

Lemma run_stores (T : list Z) log init :
  length init = length T →
  (∀ s, s ∈ log → 0 ≤ s.1 ∧ T !! Z.to_nat s.1 = Some s.2) →
  ∃ l, run_log do_store (Ok init) log = Ok l ∧ length l = length T ∧
    ∀ k : nat, (Z.of_nat k ∈ fst <$> log → l !! k = T !! k) ∧ (¬ (Z.of_nat k ∈ fst <$> log) → l !! k = init !! k).
Proof.
  revert init; induction log as [|s log IH]; intros init Hlen Hs.
  { exists init. split_and!; [done..|]. intros k. split; [by intros ?%elem_of_nil|done]. }
  destruct (Hs s) as [H0 HT]; [by left|]. pose proof (lookup_lt_Some _ _ _ HT) as Hlt.
  destruct (IH (<[Z.to_nat s.1 := s.2]> init)) as (l & Hl & Hll & Hk).
  { by rewrite length_insert. }
  { intros s' Hs'. apply Hs. by right. }
  exists l. split_and!; [|done|].
  - cbn [run_log foldl] in *. unfold do_store at 2. cbn [mbind outcome_bind].
    destruct (Z.leb_spec 0 s.1), (Z.ltb_spec s.1 (Z.of_nat (length init))); try lia. done.
  - intros k. destruct (Hk k) as [Hin Hout]. rewrite fmap_cons, elem_of_cons.
    destruct (decide (Z.of_nat k ∈ fst <$> log)) as [Hd|Hd]; [split; [auto|naive_solver]|].
    rewrite (Hout Hd). split.
    + intros [Heq|]; [|done]. rewrite <- Heq, Nat2Z.id in *. rewrite HT. apply list_lookup_insert_eq. lia.
    + intros Hne. apply list_lookup_insert_ne. intros <-. apply Hne. left. lia.
Qed.

(** stores that agree with [T] and cover it leave [T], whatever their order *)
Lemma run_stores_all (T : list Z) log init :
  length init = length T →
  (∀ s, s ∈ log → 0 ≤ s.1 ∧ T !! Z.to_nat s.1 = Some s.2) →
  (∀ k, (k < length T)%nat → Z.of_nat k ∈ fst <$> log) →
  run_log do_store (Ok init) log = Ok T.
Proof.
  intros Hlen Hs Hc. destruct (run_stores T log init Hlen Hs) as (l & -> & Hll & Hk). f_equal.
  apply list_eq. intros k. destruct (decide (k < length T)%nat) as [Hlt|Hge]; [by apply Hk, Hc|].
  rewrite !lookup_ge_None_2 by lia. done.
Qed.

(** ** Setup and output *)

Lemma int_mul_small a b : 0 ≤ a * b < 2 ^ 31 → int_mul a b = Ok (a * b).
Proof. intros H. unfold int_mul. destruct (Z.leb_spec (- 2 ^ 31) (a * b)), (Z.ltb_spec (a * b) (2 ^ 31)); try lia. done. Qed.

Lemma palloc_small c : 0 ≤ c → c * 8 ≤ MaxAllocSize → palloc_datums c = Ok tt.
Proof.
  unfold palloc_datums, MaxAllocSize. intros H0 Hc. rewrite (uint64_id c), (uint64_id (c * 8)) by lia.
  destruct (Z.leb_spec (c * 8) 0x3fffffff); [done|lia].
Qed.

Lemma int32_small z : small z → int32 z = z.
Proof. unfold small, int32. intros H. rewrite Z.mod_small by lia. lia. Qed.

Lemma copy_tuples_spec cols k rows :
  0 ≤ k → 0 ≤ cols → (k + Z.of_nat (length rows)) * cols < 2 ^ 31 →
  Forall (fun r => length r = Z.to_nat cols) rows →
  copy_tuples cols k rows = Ok (concat rows).
Proof.
  intros Hk Hc Hsz HF. revert k Hk Hsz; induction HF as [|r rows Hr _ IH]; intros k Hk Hsz; [done|].
  cbn [copy_tuples length concat] in *. rewrite int_mul_small by nia. cbn [mbind outcome_bind].
  rewrite IH by nia. cbn [mbind outcome_bind]. rewrite <- Hr, firstn_all. done.
Qed.

(** the inputs fit the arrays *)
Record fits (cols : Z) (rows : list (list Z)) (funcs : list (list Z → Z)) : Prop := {
  fits_cols : 0 ≤ cols;
  fits_rows : Forall (fun r => length r = Z.to_nat cols) rows;
  fits_nrows : small (Z.of_nat (length rows));
  fits_nfuncs : small (Z.of_nat (length funcs));
  fits_data : cols * Z.of_nat (length rows) * 8 ≤ MaxAllocSize;
  fits_result : Z.of_nat (length rows) * Z.of_nat (length funcs) * 8 ≤ MaxAllocSize
}.

(** the compiled function reads the columns of its row only *)
Definition row_local (cols : Z) (f : list Z → Z) : Prop := ∀ d, f d = f (take (Z.to_nat cols) d).

(** for each lambda, for each row *)
Definition apply_all {F R B} (g : F → R → B) (rows : list R) (funcs : list F) : list B :=
  concat ((fun f => g f <$> rows) <$> funcs).

Section ApplyAll.
Context {F R : Type} {rows : list R} {funcs : list F}.

Lemma apply_all_uniform {B} (g : F → R → B) :
  Forall (fun l => length l = length rows) ((fun f => g f <$> rows) <$> funcs).
Proof. apply Forall_fmap, Forall_true. intros f. cbn. apply length_fmap. Qed.

Lemma apply_all_length {B} (g : F → R → B) :
  length (apply_all g rows funcs) = (length rows * length funcs)%nat.
Proof. unfold apply_all. rewrite (concat_length_uniform _ _ (apply_all_uniform g)), length_fmap. lia. Qed.

Lemma apply_all_lookup {B} (g : F → R → B) id k f r :
  funcs !! id = Some f → rows !! k = Some r → apply_all g rows funcs !! (id * length rows + k)%nat = Some (g f r).
Proof.
  intros Hf Hr. unfold apply_all. rewrite (concat_lookup_uniform _ _ _ _ (apply_all_uniform g)) by by eapply lookup_lt_Some.
  rewrite list_lookup_fmap, Hf. cbn [fmap option_fmap option_map mbind option_bind]. by rewrite list_lookup_fmap, Hr.
Qed.

(** the index of a result splits into a lambda and a row *)
Lemma result_index i :
  (i < length rows * length funcs)%nat →
  ∃ id k f r, i = (id * length rows + k)%nat ∧ funcs !! id = Some f ∧ rows !! k = Some r.
Proof.
  intros Hi. assert (Hne : length rows ≠ 0%nat) by (intros Hz; rewrite Hz in Hi; lia).
  pose proof (Nat.div_mod_eq i (length rows)). pose proof (Nat.mod_upper_bound i _ Hne).
  destruct (lookup_lt_is_Some_2 funcs (i / length rows)) as [f Hf]; [apply Nat.Div0.div_lt_upper_bound; lia|].
  destruct (lookup_lt_is_Some_2 rows (i mod length rows)) as [r Hr]; [done|].
  exists (i / length rows)%nat, (i mod length rows)%nat, f, r. split_and!; [lia|done..].
Qed.

End ApplyAll.

Section Apply.
Context (nthreads cols : Z) (rows : list (list Z)) (funcs : list (list Z → Z)).
Context (Hfits : fits cols rows funcs) (Hlocal : Forall (row_local cols) funcs).

Lemma prepare_spec :
  apply_mt_prepare nthreads cols rows funcs =
    Ok (mkSetup (apply_mt_nthreads nthreads (Z.of_nat (length rows))) (concat rows)
          (apply_mt_jobs (apply_mt_nthreads nthreads (Z.of_nat (length rows))) (Z.of_nat (length rows)) cols (concat rows) funcs)
          (repeat 0 (length rows * length funcs))).
Proof.
  destruct Hfits as [Hc HF Hr Hf Hd Hs]. unfold apply_mt_prepare. rewrite (int32_small (Z.of_nat (length rows))), (int32_small (Z.of_nat (length funcs))) by done.
  unfold MaxAllocSize in *. rewrite int_mul_small by nia. cbn [mbind outcome_bind]. rewrite palloc_small by (unfold MaxAllocSize; nia).
  cbn [mbind outcome_bind]. rewrite copy_tuples_spec by (done || nia). cbn [mbind outcome_bind].
  rewrite int_mul_small by nia. cbn [mbind outcome_bind]. rewrite palloc_small by (unfold MaxAllocSize; nia). cbn [mbind outcome_bind].
  do 3 f_equal. lia.
Qed.

(** the value of a store *)
Lemma store_value id f k :
  funcs !! id = Some f → (k < length rows)%nat →
  ∃ r, rows !! k = Some r ∧ f (drop (k * Z.to_nat cols) (concat rows)) = f r.
Proof.
  intros Hf Hk. destruct (lookup_lt_is_Some_2 rows k Hk) as [r Hr]. exists r. split; [done|].
  rewrite (Forall_lookup_1 _ _ _ _ Hlocal Hf). f_equal. by apply row_at, Hr; apply fits_rows in Hfits.
Qed.

Lemma nthreads_small :
  0 < nthreads → small nthreads →
  0 < apply_mt_nthreads nthreads (Z.of_nat (length rows)) ∧ small (apply_mt_nthreads nthreads (Z.of_nat (length rows))).
Proof.
  intros Hpos Hsm. unfold apply_mt_nthreads, small in *.
  destruct (Z.ltb_spec (Z.of_nat (length rows)) nthreads), (Z.ltb_spec 0 (Z.of_nat (length rows))); cbn; lia.
Qed.

Lemma jobs_all_stores :
  0 < nthreads → small nthreads →
  concat (eval_lambda <$> apply_mt_jobs (apply_mt_nthreads nthreads (Z.of_nat (length rows))) (Z.of_nat (length rows))
                            cols (concat rows) funcs)
    = concat (imap (lambda_stores (Z.of_nat (length rows)) cols (concat rows)) funcs).
Proof.
  intros Hpos Hsm. destruct Hfits as [Hc _ Hr Hf Hd _]. unfold MaxAllocSize in *. destruct (nthreads_small Hpos Hsm) as [Hnt0 Hnt].
  apply jobs_stores; try done. unfold small in *; nia.
Qed.

Lemma jobs_slots :
  0 < nthreads → small nthreads →
  fst <$> concat (eval_lambda <$> apply_mt_jobs (apply_mt_nthreads nthreads (Z.of_nat (length rows)))
                                    (Z.of_nat (length rows)) cols (concat rows) funcs)
    = seqZ 0 (Z.of_nat (length rows * length funcs)).
Proof.
  intros Hpos Hsm. rewrite jobs_all_stores by done. rewrite Nat2Z.inj_mul.
  exact (stores_slots _ cols (concat rows) (fits_nrows _ _ _ Hfits) 0 funcs).
Qed.

(** with at least one thread, every order of the stores of the jobs computes
    the value of every lambda on every row *)
Lemma stores_compute log :
  0 < nthreads → small nthreads →
  log ≡ₚ concat (eval_lambda <$> apply_mt_jobs (apply_mt_nthreads nthreads (Z.of_nat (length rows)))
                                   (Z.of_nat (length rows)) cols (concat rows) funcs) →
  run_log do_store (Ok (repeat 0 (length rows * length funcs))) log = Ok (apply_all (fun f => f) rows funcs).
Proof.
  intros Hpos Hsm Hlog. apply run_stores_all.
  - by rewrite apply_all_length, repeat_length.
  - intros s Hin. rewrite Hlog, jobs_all_stores in Hin by done.
    apply stores_values in Hin as (i & f & k & Hi & Hk & H1 & H2); [|apply (fits_nrows _ _ _ Hfits)].
    rewrite H1, H2. split; [lia|]. destruct (store_value i f k Hi) as (r & Hrk & ->); [lia|].
    rewrite !Nat2Z.id. by apply (apply_all_lookup (fun f => f)).
  - intros k Hk. rewrite Hlog, jobs_slots, elem_of_seqZ by done. rewrite apply_all_length in Hk. lia.
Qed.

(** without threads there are no jobs *)
Lemma no_jobs n data : nthreads ≤ 0 → apply_mt_jobs (apply_mt_nthreads nthreads (Z.of_nat (length rows))) n cols data funcs = [].
Proof.
  intros Hle. unfold apply_mt_nthreads. destruct (Z.ltb_spec (Z.of_nat (length rows)) nthreads); [lia|].
  unfold apply_mt_jobs. cbn [andb]. rewrite seqZ_nil by done.
  clear. induction funcs as [|f fs IH]; [done|exact IH].
Qed.

Lemma emit_spec :
  apply_mt_emit cols (Z.of_nat (length rows)) (concat rows) (apply_all (fun f => f) rows funcs) (Z.of_nat (length rows * length funcs))
    = Ok (apply_all (fun f r => r ++ [f r]) rows funcs).
Proof.
  destruct Hfits as [Hc HF Hr Hf Hd Hs]. unfold MaxAllocSize in *. apply omapM_Forall2, Forall2_same_length_lookup.
  split; [by rewrite length_seqZ, apply_all_length, Nat2Z.id|].
  intros i z row Hz Hrow. apply lookup_seqZ in Hz as [-> Hi]. rewrite Z.add_0_l.
  destruct (result_index (rows:=rows) (funcs:=funcs) i) as (j & k & f & r & -> & Hj & Hk); [lia|].
  pose proof (lookup_lt_Some _ _ _ Hk) as Hlt.
  rewrite (apply_all_lookup (fun f r => r ++ [f r]) j k f r Hj Hk) in Hrow. injection Hrow as <-. unfold emit_row.
  rewrite Z.rem_mod_nonneg, Nat2Z.inj_add, Nat2Z.inj_mul, Z.add_comm, Z.mod_add, Z.mod_small by lia.
  rewrite int_mul_small by nia. cbn [mbind outcome_bind].
  replace (Z.to_nat (Z.of_nat k + Z.of_nat j * Z.of_nat (length rows))) with (j * length rows + k)%nat by lia.
  rewrite (apply_all_lookup (fun f => f) j k f r Hj Hk). cbn [deref mbind outcome_bind].
  replace (Z.to_nat (Z.of_nat k * cols)) with (k * Z.to_nat cols)%nat by lia. by rewrite (row_at rows _ k r).
Qed.
End Apply.
