(* ===== verification/ApplyMtTheorems.v ===== *)
(** * Properties of the parallel application of lambdas

    For every interleaving of the worker threads, the output relation of
    [apply_mt] is the one a sequential loop over the lambdas and the rows
    computes, and no two jobs write the same result. *)

From S2P Require Import Prelude JobQueue ThreadPool ThreadPoolFacts ApplyMt ApplyMtFacts.

(** ** An application *)

(** three rows of two columns, two lambdas *)
Definition mt_rows : list (list Z) := [[1; 10]; [2; 20]; [3; 30]].

Definition mt_funcs : list (list Z → Z) :=
  [fun d => default 0 (d !! 0%nat) + default 0 (d !! 1%nat); fun d => default 0 (d !! 1%nat)].

Lemma mt_fits : fits 2 mt_rows mt_funcs.
Proof. split; try (vm_compute; done). unfold mt_rows. by repeat constructor. Qed.

Lemma mt_local : Forall (row_local 2) mt_funcs.
Proof. repeat constructor; intros [|x [|y d]]; reflexivity. Qed.

Section Theorems.
Context {Q : Type} `{QO : JobQueue Q WorkItem} `{!JobQueueLaws Q WorkItem}.

(** C6. [apply_mt] with at least one thread: a run of the threads finishes,
    and every run that finishes, whatever the interleaving of the workers,
    leaves a result array from which the output relation is, lambda by lambda
    and row by row, the row extended by the lambda's value on it.  The inputs
    have to fit the arrays that are allocated for them. *)
Theorem apply_mt_correct nthreads cols rows funcs :
  0 < nthreads → small nthreads → fits cols rows funcs → Forall (row_local cols) funcs →
  ∃ s, apply_mt_prepare nthreads cols rows funcs = Ok s ∧
    (∃ p, tp_reachable eval_lambda do_store (apply_mt_pool (Q:=Q) s) p ∧ p_main p = MDone) ∧
    ∀ p, tp_reachable eval_lambda do_store (apply_mt_pool (Q:=Q) s) p → p_main p = MDone →
    ∃ result, p_mem p = Ok result ∧
      apply_mt_emit cols (Z.of_nat (length rows)) (am_data s) result (Z.of_nat (length (am_result s)))
        = Ok (apply_all (fun f r => r ++ [f r]) rows funcs).
Proof.
  intros Hpos Hsm Hf Hl. eexists. split; [by apply prepare_spec|]. split; [apply reaches_done|].
  intros p Hr Hd. destruct (done_facts _ _ _ _ _ _ Hr Hd) as (_ & _ & _ & Hlog & Hmem).
  exists (apply_all (fun f => f) rows funcs). cbn [am_data am_result am_jobs] in *. split.
  - rewrite Hmem. by eapply stores_compute.
  - rewrite repeat_length. by apply emit_spec.
Qed.

(** The jobs of [apply_mt] write every slot of the result array exactly
    once, so that no two jobs race on a result. *)
Theorem apply_mt_one_writer nthreads cols rows funcs :
  0 < nthreads → small nthreads → fits cols rows funcs →
  ∃ s, apply_mt_prepare nthreads cols rows funcs = Ok s ∧
    fst <$> concat (eval_lambda <$> am_jobs s) = seqZ 0 (Z.of_nat (length (am_result s))) ∧
    NoDup (fst <$> concat (eval_lambda <$> am_jobs s)).
Proof.
  intros Hpos Hsm Hf. eexists. split; [by apply prepare_spec|]. cbn [am_jobs am_result].
  rewrite (jobs_slots nthreads cols rows funcs Hf Hpos Hsm), repeat_length. split; [done|apply NoDup_seqZ].
Qed.

(** With no thread asked for, no job is submitted although the pool starts a
    worker: every lambda's value is reported as zero. *)
Theorem apply_mt_no_threads nthreads cols rows funcs :
  nthreads ≤ 0 → fits cols rows funcs →
  ∃ s, apply_mt_prepare nthreads cols rows funcs = Ok s ∧
    ∀ p, tp_reachable eval_lambda do_store (apply_mt_pool (Q:=Q) s) p → p_main p = MDone →
    p_mem p = Ok (repeat 0 (length rows * length funcs)).
Proof.
  intros Hle Hf. eexists. split; [by apply prepare_spec|]. intros p Hr Hd.
  destruct (done_facts _ _ _ _ _ _ Hr Hd) as (_ & _ & _ & Hlog & Hmem). rewrite Hmem.
  cbn [am_jobs am_result] in *. rewrite no_jobs in Hlog by done. by apply Permutation_nil_r in Hlog as ->.
Qed.
End Theorems.

Lemma apply_mt_correct_witness :
  ∃ s, apply_mt_prepare 2 2 mt_rows mt_funcs = Ok s ∧
    ∀ p, tp_reachable eval_lambda do_store (apply_mt_pool (Q:=TP_Queue WorkItem) s) p → p_main p = MDone →
    ∃ result, p_mem p = Ok result ∧
      apply_mt_emit 2 3 (am_data s) result 6
        = Ok [[1; 10; 11]; [2; 20; 22]; [3; 30; 33]; [1; 10; 10]; [2; 20; 20]; [3; 30; 30]].
Proof.
  destruct (apply_mt_correct (Q:=TP_Queue WorkItem) 2 2 mt_rows mt_funcs) as (s & Hs & _ & Hr);
    [reflexivity|split; [discriminate|reflexivity]|exact mt_fits|exact mt_local|].
  exists s. split; [exact Hs|]. injection Hs as <-. exact Hr.
Defined.

Lemma apply_mt_one_writer_witness :
  ∃ s, apply_mt_prepare 2 2 mt_rows mt_funcs = Ok s ∧
    fst <$> concat (eval_lambda <$> am_jobs s) = [0; 1; 2; 3; 4; 5].
Proof.
  destruct (apply_mt_one_writer 2 2 mt_rows mt_funcs) as (s & Hs & Hw & _);
    [reflexivity|split; [discriminate|reflexivity]|exact mt_fits|].
  exists s. split; [exact Hs|]. injection Hs as <-. exact Hw.
Defined.

Lemma apply_mt_no_threads_witness :
  ∃ s, apply_mt_prepare 0 2 mt_rows mt_funcs = Ok s ∧
    ∀ p, tp_reachable eval_lambda do_store (apply_mt_pool (Q:=TP_Queue WorkItem) s) p → p_main p = MDone →
    p_mem p = Ok [0; 0; 0; 0; 0; 0].
Proof. exact (apply_mt_no_threads (Q:=TP_Queue WorkItem) 0 2 mt_rows mt_funcs ltac:(lia) mt_fits). Defined.
