(* ===== verification/HeapTuple.v ===== *)
(** * Tuples

    [backend/access/common/heaptuple.c] and [include/access/tupmacs.h]: the rows
    that tuplestores hold and that lambdas are called with, built from the values
    of their columns and taken apart again; the slots of
    [backend/executor/execTuples.c] that hold them.  Little-endian, 64 bits.

    A value is a Datum passed by value, or the bytes of the object that a Datum
    points to.  A tuple is its bytes from [t_infomask2] on, which are the same for
    a MinimalTuple and a HeapTuple.  Its data area starts at a multiple of 8, so
    that aligning a pointer into it is aligning the offset.

    The descriptor caches the offsets of columns in [attcacheoff]; this cache is
    passed around. *)

From S2P Require Import Prelude ApplyMt.

(** ** Memory *)

Definition peek (m : list Z) (off n : Z) : outcome (list Z) :=
  if (0 <=? off) && (0 <=? n) && (off + n <=? Z.of_nat (length m)) then Ok (take (Z.to_nat n) (drop (Z.to_nat off) m)) else UB.

Definition poke (m : list Z) (off : Z) (bs : list Z) : outcome (list Z) :=
  if (0 <=? off) && (off + Z.of_nat (length bs) <=? Z.of_nat (length m))
  then Ok (take (Z.to_nat off) m ++ bs ++ drop (Z.to_nat off + length bs) m) else UB.

Definition peek_byte (m : list Z) (off : Z) : outcome Z := bs ← peek m off 1; deref (head bs).

Definition zeros (n : Z) : list Z := replicate (Z.to_nat n) 0.

Definition TYPEALIGN (alignval len : Z) : Z := (len + (alignval - 1)) / alignval * alignval.
Definition MAXALIGN : Z → Z := TYPEALIGN 8.

(** ** Variable length values *)

Definition VARATT_IS_1B (b : Z) : bool := Z.land b 1 =? 1.
Definition VARATT_IS_1B_E (b : Z) : bool := b =? 1.
Definition VARATT_IS_4B_U (b : Z) : bool := Z.land b 3 =? 0.

Definition VARTAG_IS_EXPANDED (tag : Z) : bool := (tag =? 2) || (tag =? 3).
Definition VARTAG_SIZE (tag : Z) : Z := if tag =? 1 then 8 else if VARTAG_IS_EXPANDED tag then 8 else if tag =? 18 then 16 else 0.

Definition VARSIZE_4B (m : list Z) : outcome Z := h ← peek m 0 4; Ok (Z.land (Z.shiftr (le_value h) 2) 0x3FFFFFFF).
Definition VARSIZE_1B (m : list Z) : outcome Z := b ← peek_byte m 0; Ok (Z.land (Z.shiftr b 1) 0x7F).
Definition VARSIZE_EXTERNAL (m : list Z) : outcome Z := tag ← peek_byte m 1; Ok (2 + VARTAG_SIZE tag).

Definition VARSIZE_ANY (m : list Z) : outcome Z :=
  b ← peek_byte m 0;
  if VARATT_IS_1B_E b then VARSIZE_EXTERNAL m else if VARATT_IS_1B b then VARSIZE_1B m else VARSIZE_4B m.

Definition VARATT_IS_SHORT (m : list Z) : outcome bool := b ← peek_byte m 0; Ok (VARATT_IS_1B b).
Definition VARATT_IS_EXTERNAL (m : list Z) : outcome bool := b ← peek_byte m 0; Ok (VARATT_IS_1B_E b).

Definition VARATT_IS_EXTERNAL_EXPANDED (m : list Z) : outcome bool :=
  e ← VARATT_IS_EXTERNAL m;
  if (e : bool) then tag ← peek_byte m 1; Ok (VARTAG_IS_EXPANDED tag) else Ok false.

(** a header of 4 bytes, and short enough for one of 1 byte *)
Definition VARATT_CAN_MAKE_SHORT (m : list Z) : outcome bool :=
  b ← peek_byte m 0;
  if VARATT_IS_4B_U b then size ← VARSIZE_4B m; Ok (size - 4 + 1 <=? 0x7F) else Ok false.

Definition VARATT_CONVERTED_SHORT_SIZE (m : list Z) : outcome Z := size ← VARSIZE_4B m; Ok (size - 4 + 1).

Definition SET_VARSIZE_SHORT (len : Z) : Z := Z.lor (Z.shiftl len 1 mod 256) 1.

Fixpoint c_strlen (m : list Z) : outcome Z :=
  match m with [] => UB | b :: m => if b =? 0 then Ok 0 else n ← c_strlen m; Ok (n + 1) end.

(** ** Descriptors and values *)

Inductive tdatum :=
| TByVal (z : Z)
| TPtr (m : list Z).

Inductive typalign := TYPALIGN_CHAR | TYPALIGN_SHORT | TYPALIGN_INT | TYPALIGN_DOUBLE.

Record attribute := mkAttribute {
  attlen : Z;
  attbyval : bool;
  attalign : typalign;
  (** [attstorage == TYPSTORAGE_PLAIN] *)
  attplain : bool;
  (** the value of tuples that are older than the column *)
  attmissing : option tdatum
}.

Abbreviation tupdesc := (list attribute).

Definition att_align_nominal (cur_offset : Z) (align : typalign) : Z :=
  match align with
  | TYPALIGN_INT => TYPEALIGN 4 cur_offset
  | TYPALIGN_CHAR => cur_offset
  | TYPALIGN_DOUBLE => TYPEALIGN 8 cur_offset
  | TYPALIGN_SHORT => TYPEALIGN 2 cur_offset
  end.

Definition datum_ptr (d : tdatum) : outcome (list Z) := match d with TPtr m => Ok m | TByVal _ => UB end.

Definition att_align_datum (cur_offset : Z) (att : attribute) (d : tdatum) : outcome Z :=
  if attlen att =? -1 then
    m ← datum_ptr d;
    s ← VARATT_IS_SHORT m;
    Ok (if (s : bool) then cur_offset else att_align_nominal cur_offset (attalign att))
  else Ok (att_align_nominal cur_offset (attalign att)).

(** the length of the object at [m] *)
Definition att_length (att : attribute) (m : list Z) : outcome Z :=
  if 0 <? attlen att then Ok (attlen att) else if attlen att =? -1 then VARSIZE_ANY m else n ← c_strlen m; Ok (n + 1).

Definition att_addlength_datum (cur_offset : Z) (att : attribute) (d : tdatum) : outcome Z :=
  if 0 <? attlen att then Ok (cur_offset + attlen att) else m ← datum_ptr d; n ← att_length att m; Ok (cur_offset + n).

Definition ATT_IS_PACKABLE (att : attribute) : bool := (attlen att =? -1) && negb (attplain att).

Definition byval_lengths : list Z := [1; 2; 4; 8].

Definition unsupported_byval {A} (len : Z) : outcome A := elog (lit "unsupported byval length: " ++ fmt_d len).

Definition store_att_byval (d : tdatum) (len : Z) : outcome (list Z) :=
  match d with
  | TByVal z => if existsb (Z.eqb len) byval_lengths then Ok (le_bytes (Z.to_nat len) z) else unsupported_byval len
  | TPtr _ => UB
  end.

(** a signed integer of [len] bytes, extended to a Datum *)
Definition sign_extend (len : Z) (v : Z) : Z := if v <? 2 ^ (8 * len - 1) then v else uint64 (v - 2 ^ (8 * len)).

Definition fetch_att (att : attribute) (m : list Z) : outcome tdatum :=
  if attbyval att then
    if existsb (Z.eqb (attlen att)) byval_lengths
    then bs ← peek m 0 (attlen att); Ok (TByVal (sign_extend (attlen att) (le_value bs)))
    else unsupported_byval (attlen att)
  else n ← att_length att m; bs ← peek m 0 n; Ok (TPtr bs).

Definition att_isnull (att : Z) (bits : list Z) : outcome bool :=
  b ← peek_byte bits (Z.shiftr att 3);
  Ok (Z.land b (Z.shiftl 1 (Z.land att 7)) =? 0).

(** ** Forming tuples *)

Definition HEAP_HASNULL : Z := 1.
Definition HEAP_HASVARWIDTH : Z := 2.
Definition HEAP_HASEXTERNAL : Z := 4.
Definition HEAP_NATTS_MASK : Z := 0x7FF.
Definition HIGHBIT : Z := 0x80.
Definition MaxTupleAttributeNumber : Z := 1664.
Definition BITMAPLEN (natts : Z) : Z := (natts + 7) / 8.

Section Form.
(** [EOH_get_flat_size] and [EOH_flatten_into]: the flat form of an expanded
    object, which is made by functions of its own *)
Context (EOH_flatten : list Z → list Z).

Definition EOH_get_flat_size (m : list Z) : Z := Z.of_nat (length (EOH_flatten m)).

(** the columns with their values, [None] for NULL *)
Abbreviation columns := (list (attribute * option tdatum)).

(** the end of a value that is put behind [data_length] bytes *)
Definition add_data_size (att : attribute) (val : tdatum) (data_length : Z) : outcome Z :=
  short ← (if ATT_IS_PACKABLE att then m ← datum_ptr val; VARATT_CAN_MAKE_SHORT m else Ok false);
  if (short : bool) then m ← datum_ptr val; n ← VARATT_CONVERTED_SHORT_SIZE m; Ok (data_length + n)
  else
    expanded ← (if attlen att =? -1 then m ← datum_ptr val; VARATT_IS_EXTERNAL_EXPANDED m else Ok false);
    if (expanded : bool) then m ← datum_ptr val; Ok (att_align_nominal data_length (attalign att) + EOH_get_flat_size m)
    else n ← att_align_datum data_length att val; att_addlength_datum n att val.

Fixpoint heap_compute_data_size (cols : columns) (data_length : Z) : outcome Z :=
  match cols with
  | [] => Ok data_length
  | (_, None) :: cols => heap_compute_data_size cols data_length
  | (att, Some val) :: cols => n ← add_data_size att val data_length; heap_compute_data_size cols n
  end.

(** the state of [heap_fill_tuple]: the null bitmap with the position and the
    mask of the current bit, the data area with the current offset *)
Record fill := mkFill {
  fl_bits : option (list Z * Z * Z);
  fl_area : list Z;
  fl_off : Z;
  fl_infomask : Z
}.

(** the next bit of the bitmap *)
Definition fill_bit (bits : list Z) (bit bitmask : Z) (isnull : bool) : outcome (list Z * Z * Z) :=
  '(bits, bit, bitmask) ← (if bitmask =? HIGHBIT then bits ← poke bits (bit + 1) [0]; Ok (bits, bit + 1, 1) else Ok (bits, bit, Z.shiftl bitmask 1));
  if isnull then Ok (bits, bit, bitmask)
  else b ← peek_byte bits bit; bits ← poke bits bit [Z.lor b bitmask]; Ok (bits, bit, bitmask).

(** what is stored for a value: whether it is aligned, its bytes, flags *)
Definition store_val (att : attribute) (d : tdatum) : outcome (bool * list Z * Z) :=
  if attbyval att then bs ← store_att_byval d (attlen att); Ok (true, bs, 0)
  else
    m ← datum_ptr d;
    if attlen att =? -1 then
      external ← VARATT_IS_EXTERNAL m;
      short ← VARATT_IS_SHORT m;
      if (external : bool) then
        expanded ← VARATT_IS_EXTERNAL_EXPANDED m;
        if (expanded : bool) then Ok (true, EOH_flatten m, HEAP_HASVARWIDTH)
        else n ← VARSIZE_EXTERNAL m; bs ← peek m 0 n; Ok (false, bs, Z.lor HEAP_HASVARWIDTH HEAP_HASEXTERNAL)
      else if (short : bool) then n ← VARSIZE_1B m; bs ← peek m 0 n; Ok (false, bs, HEAP_HASVARWIDTH)
      else
        convert ← VARATT_CAN_MAKE_SHORT m;
        if negb (attplain att) && (convert : bool) then
          n ← VARATT_CONVERTED_SHORT_SIZE m;
          bs ← peek m 4 (n - 1);
          Ok (false, SET_VARSIZE_SHORT n :: bs, HEAP_HASVARWIDTH)
        else n ← VARSIZE_4B m; bs ← peek m 0 n; Ok (true, bs, HEAP_HASVARWIDTH)
    else if attlen att =? -2 then n ← c_strlen m; bs ← peek m 0 (n + 1); Ok (false, bs, HEAP_HASVARWIDTH)
    else bs ← peek m 0 (attlen att); Ok (true, bs, 0).

Definition fill_val (att : attribute) (val : option tdatum) (s : fill) : outcome fill :=
  bits ← match fl_bits s with
         | Some (bits, bit, bitmask) => r ← fill_bit bits bit bitmask (match val with None => true | _ => false end); Ok (Some r)
         | None => Ok None
         end;
  match val, bits with
  | None, Some _ => Ok (mkFill bits (fl_area s) (fl_off s) (Z.lor (fl_infomask s) HEAP_HASNULL))
  | None, None => UB
  | Some d, _ =>
      '(aligned, bs, flags) ← store_val att d;
      let data := if (aligned : bool) then att_align_nominal (fl_off s) (attalign att) else fl_off s in
      area ← poke (fl_area s) data bs;
      Ok (mkFill bits area (data + Z.of_nat (length bs)) (Z.lor (fl_infomask s) flags))
  end.

Fixpoint heap_fill_tuple (cols : columns) (s : fill) : outcome fill :=
  match cols with [] => Ok s | (att, val) :: cols => s ← fill_val att val s; heap_fill_tuple cols s end.

Definition palloc0 (size : Z) : outcome unit :=
  if size <=? MaxAllocSize then Ok tt else elog (lit "invalid memory alloc request size " ++ fmt_d size).

Definition too_many_columns {A} (n : Z) : outcome A :=
  ereport ERRCODE_TOO_MANY_COLUMNS
    (lit "number of columns (" ++ fmt_d n ++ lit ") exceeds limit (" ++ fmt_d MaxTupleAttributeNumber ++ lit ")").

(** [header]: the size of the fixed part; [before]: what precedes the header in
    memory; [hoff_extra]: added to the offset that the tuple records *)
Definition form_tuple (header before hoff_extra : Z) (cols : columns) : outcome (list Z) :=
  let natts := Z.of_nat (length cols) in
  if MaxTupleAttributeNumber <? natts then too_many_columns natts
  else
    let hasnull := existsb (fun c => match c.2 with None => true | Some _ => false end) cols in
    let bitmap := if hasnull then BITMAPLEN natts else 0 in
    let hoff := MAXALIGN (header + bitmap) in
    data_len ← heap_compute_data_size cols 0;
    _ ← palloc0 (before + hoff + data_len);
    s ← heap_fill_tuple cols (mkFill (if hasnull then Some (zeros bitmap, -1, HIGHBIT) else None) (zeros data_len) 0 0);
    let bits := match fl_bits s with Some (bits, _, _) => bits | None => [] end in
    Ok (le_bytes 2 natts ++ le_bytes 2 (fl_infomask s) ++ [(hoff + hoff_extra) mod 256] ++ bits
        ++ zeros (hoff - header - bitmap) ++ fl_area s).

Definition heap_form_minimal_tuple : columns → outcome (list Z) := form_tuple 15 0 8.
Definition heap_form_tuple : columns → outcome (list Z) := form_tuple 23 24 0.
End Form.

(** ** Taking tuples apart *)

Definition t_infomask2 (tup : list Z) : outcome Z := bs ← peek tup 0 2; Ok (le_value bs).
Definition t_infomask (tup : list Z) : outcome Z := bs ← peek tup 2 2; Ok (le_value bs).
Definition t_hoff (tup : list Z) : outcome Z := peek_byte tup 4.

Definition HeapTupleHeaderGetNatts (tup : list Z) : outcome Z := i ← t_infomask2 tup; Ok (Z.land i HEAP_NATTS_MASK).
Definition HeapTupleHasNulls (tup : list Z) : outcome bool := i ← t_infomask tup; Ok (negb (Z.land i HEAP_HASNULL =? 0)).

(** the data area: [t_infomask2] is 18 bytes behind the start of the header *)
Definition tuple_data (tup : list Z) : outcome (list Z) := hoff ← t_hoff tup; Ok (drop (Z.to_nat (hoff - 18)) tup).

Definition tuple_bits (tup : list Z) : list Z := drop 5 tup.

(** the state of the loop *)
Record deform := mkDeform {
  df_off : Z;
  df_slow : bool;
  df_cache : list Z;
  df_values : list (option tdatum)
}.

(** where attribute [attnum] starts *)
Definition deform_align (att : attribute) (attnum : nat) (tp : list Z) (s : deform) : outcome (Z * bool * list Z) :=
  cached ← deref (df_cache s !! attnum);
  if negb (df_slow s) && (0 <=? cached) then Ok (cached, df_slow s, df_cache s)
  else if attlen att =? -1 then
    if negb (df_slow s) && (df_off s =? att_align_nominal (df_off s) (attalign att))
    then Ok (df_off s, df_slow s, <[attnum := df_off s]> (df_cache s))
    else
      b ← peek_byte tp (df_off s);
      Ok (if b =? 0 then att_align_nominal (df_off s) (attalign att) else df_off s, true, df_cache s)
  else
    let off := att_align_nominal (df_off s) (attalign att) in
    Ok (off, df_slow s, if df_slow s then df_cache s else <[attnum := off]> (df_cache s)).

Definition deform_att (hasnulls : bool) (bits tp : list Z) (att : attribute) (attnum : nat) (s : deform) : outcome deform :=
  isnull ← (if hasnulls then att_isnull (Z.of_nat attnum) bits else Ok false);
  if (isnull : bool) then Ok (mkDeform (df_off s) true (df_cache s) (df_values s ++ [None]))
  else
    '(off, slow, cache) ← deform_align att attnum tp s;
    let p := drop (Z.to_nat off) tp in
    v ← fetch_att att p;
    n ← att_length att p;
    Ok (mkDeform (off + n) (slow || (attlen att <=? 0)) cache (df_values s ++ [Some v])).

Fixpoint deform_loop (hasnulls : bool) (bits tp : list Z) (atts : tupdesc) (attnum : nat) (s : deform) : outcome deform :=
  match atts with
  | [] => Ok s
  | att :: atts => s ← deform_att hasnulls bits tp att attnum s; deform_loop hasnulls bits tp atts (S attnum) s
  end.

(** the values, and the cache; columns that the tuple does not have are read as
    missing *)
Definition heap_deform_tuple (tup : list Z) (desc : tupdesc) (cache : list Z) : outcome (list (option tdatum) * list Z) :=
  hasnulls ← HeapTupleHasNulls tup;
  natts ← HeapTupleHeaderGetNatts tup;
  tp ← tuple_data tup;
  let natts := Z.to_nat (Z.min natts (Z.of_nat (length desc))) in
  s ← deform_loop hasnulls (tuple_bits tup) tp (take natts desc) 0 (mkDeform 0 false cache []);
  Ok (df_values s ++ (attmissing <$> drop natts desc), df_cache s).

(** ** Slots *)

(** what a slot knows of its tuple: the values so far, where they end, and
    whether the cache can still be used *)
Record slot_state := mkSlot {
  tts_tuple : list Z;
  tts_values : list (option tdatum);
  tts_off : Z;
  tts_slow : bool
}.

Definition tts_minimal_store_tuple (tup : list Z) : slot_state := mkSlot tup [] 0 false.

(** the first [natts] attributes, going on where the last call stopped *)
Definition slot_deform_heap_tuple (desc : tupdesc) (natts : nat) (slot : slot_state) (cache : list Z) : outcome (slot_state * list Z) :=
  let tup := tts_tuple slot in
  hasnulls ← HeapTupleHasNulls tup;
  n ← HeapTupleHeaderGetNatts tup;
  tp ← tuple_data tup;
  let natts := Z.to_nat (Z.min n (Z.of_nat natts)) in
  let attnum := length (tts_values slot) in
  let start := if (attnum =? 0)%nat then (0, false) else (tts_off slot, tts_slow slot) in
  s ← deform_loop hasnulls (tuple_bits tup) tp (drop attnum (take natts desc)) attnum (mkDeform start.1 start.2 cache (tts_values slot));
  Ok (mkSlot tup (df_values s) (df_off s) (df_slow s), df_cache s).

Definition slot_getsomeattrs (desc : tupdesc) (attnum : nat) (slot : slot_state) (cache : list Z) : outcome (slot_state * list Z) :=
  if (attnum <=? length (tts_values slot))%nat then Ok (slot, cache)
  else if (length desc <? attnum)%nat then elog (lit "invalid attribute number " ++ fmt_d (Z.of_nat attnum))
  else
    r ← slot_deform_heap_tuple desc attnum slot cache;
    let values := tts_values r.1 in
    Ok (mkSlot (tts_tuple slot) (values ++ (attmissing <$> drop (length values) (take attnum desc))) (tts_off r.1) (tts_slow r.1), r.2).

Definition slot_getallattrs (desc : tupdesc) (slot : slot_state) (cache : list Z) : outcome (slot_state * list Z) :=
  slot_getsomeattrs desc (length desc) slot cache.
