(* ===== verification/HeapTupleTheorems.v ===== *)
(** * Tuples keep the values of their columns *)

From S2P Require Import Prelude ApplyMt HeapTuple.

(** ** Memory *)

Definition byte_ok (b : Z) : Prop := 0 ≤ b < 256.

Lemma peek_ok m off n : 0 ≤ off → 0 ≤ n → off + n ≤ Z.of_nat (length m) → peek m off n = Ok (take (Z.to_nat n) (drop (Z.to_nat off) m)).
Proof. intros H1 H2 H3. unfold peek. by rewrite (proj2 (Z.leb_le 0 off) H1), (proj2 (Z.leb_le 0 n) H2), (proj2 (Z.leb_le _ _) H3). Qed.

Lemma peek_inv m off n bs :
  peek m off n = Ok bs → 0 ≤ off ∧ 0 ≤ n ∧ off + n ≤ Z.of_nat (length m) ∧ bs = take (Z.to_nat n) (drop (Z.to_nat off) m).
Proof.
  unfold peek. intros Hp. destruct ((0 <=? off) && (0 <=? n) && (off + n <=? Z.of_nat (length m))) eqn:E; [|done]. injection Hp as <-.
  apply andb_prop in E as [[E1%Z.leb_le E2%Z.leb_le]%andb_prop E3%Z.leb_le]. done.
Qed.

Lemma peek_mid (pre m post : list Z) off n :
  off = Z.of_nat (length pre) → n = Z.of_nat (length m) → peek (pre ++ m ++ post) off n = Ok m.
Proof.
  intros -> ->. rewrite peek_ok by (rewrite ?length_app; lia). by rewrite !Nat2Z.id, drop_app_length, take_app_length.
Qed.

Lemma peek_app (m rest : list Z) n : n = Z.of_nat (length m) → peek (m ++ rest) 0 n = Ok m.
Proof. by apply (peek_mid []). Qed.

Lemma peek_byte_mid (pre : list Z) b post off : off = Z.of_nat (length pre) → peek_byte (pre ++ b :: post) off = Ok b.
Proof. intros Ho. unfold peek_byte. change (b :: post) with ([b] ++ post). by rewrite (peek_mid pre [b] post off 1 Ho ltac:(done)). Qed.

(** what can be read of a part can be read of the whole *)
Lemma peek_more (m rest : list Z) off n bs : peek m off n = Ok bs → peek (m ++ rest) off n = Ok bs.
Proof.
  intros (H1 & H2 & H3 & ->)%peek_inv. rewrite peek_ok by (rewrite ?length_app; lia).
  rewrite drop_app_le by lia. rewrite take_app_le by (rewrite length_drop; lia). done.
Qed.

Lemma peek_length m off n bs : peek m off n = Ok bs → Z.of_nat (length bs) = n.
Proof. intros (H1 & H2 & H3 & ->)%peek_inv. rewrite length_take, length_drop. lia. Qed.

Lemma peek_byte_more m rest off b : peek_byte m off = Ok b → peek_byte (m ++ rest) off = Ok b.
Proof. unfold peek_byte. intros Hp. outcome_inv. erewrite peek_more by eassumption. done. Qed.

Lemma poke_zeros (w bs : list Z) off start rest :
  off = Z.of_nat (length w) → off ≤ start → 0 ≤ rest →
  poke (w ++ zeros (start - off + Z.of_nat (length bs) + rest)) start bs = Ok ((w ++ zeros (start - off) ++ bs) ++ zeros rest).
Proof.
  intros -> Hs Hr. unfold poke, zeros. rewrite length_app, length_replicate, (proj2 (Z.leb_le 0 _)), (proj2 (Z.leb_le _ _)) by lia. cbn. f_equal.
  rewrite take_app_ge, drop_app_ge by lia. rewrite <- !app_assoc. f_equal. rewrite take_replicate, drop_replicate. f_equal; [f_equal; lia|].
  f_equal. f_equal. lia.
Qed.

Lemma zeros_length n : 0 ≤ n → Z.of_nat (length (zeros n)) = n.
Proof. unfold zeros. rewrite length_replicate. lia. Qed.

Lemma typealign_ge a off : 0 < a → off ≤ TYPEALIGN a off.
Proof. intros Ha. unfold TYPEALIGN. pose proof (Z.div_mod (off + (a - 1)) a ltac:(lia)). pose proof (Z.mod_pos_bound (off + (a - 1)) a Ha). nia. Qed.

Lemma align_ge off al : off ≤ att_align_nominal off al.
Proof. destruct al; cbn; [lia|apply typealign_ge; lia..]. Qed.

Lemma le_value_bytes n z : le_value (le_bytes n z) = z mod 256 ^ Z.of_nat n.
Proof.
  revert z. induction n as [|n IH]; intros z; [cbn; by rewrite Z.mod_1_r|]. cbn [le_bytes le_value]. rewrite IH, Nat2Z.inj_succ, Z.pow_succ_r by lia.
  symmetry. apply Z.rem_mul_r; [lia|]. apply Z.pow_pos_nonneg; lia.
Qed.

(** ** Variable length values *)

Definition varlena_ok (m : list Z) : Prop := VARSIZE_ANY m = Ok (Z.of_nat (length m)) ∧ Forall byte_ok m.

Lemma varsize_more m rest n : VARSIZE_ANY m = Ok n → VARSIZE_ANY (m ++ rest) = Ok n.
Proof.
  unfold VARSIZE_ANY, VARSIZE_EXTERNAL, VARSIZE_1B, VARSIZE_4B. intros Hs. apply bind_Ok_inv in Hs as (b & Hb & Hs).
  rewrite (peek_byte_more _ _ _ _ Hb). cbn [mbind outcome_bind]. destruct (VARATT_IS_1B_E b); [|destruct (VARATT_IS_1B b)].
  - apply bind_Ok_inv in Hs as (t & Ht & Hs). by rewrite (peek_byte_more _ _ _ _ Ht).
  - by rewrite Hb in Hs.
  - apply bind_Ok_inv in Hs as (h & Hh & Hs). by rewrite (peek_more _ _ _ _ _ Hh).
Qed.

Lemma strlen_more m rest n : c_strlen m = Ok n → c_strlen (m ++ rest) = Ok n.
Proof.
  revert n. induction m as [|b m IH]; intros n Hn; [done|]. cbn in *. destruct (b =? 0); [done|]. apply bind_Ok_inv in Hn as (k & Hk & Hn).
  by rewrite (IH k Hk).
Qed.

(** values that a column can have *)
Section Values.
Context (flatten : list Z → list Z).

Definition expanded (m : list Z) : bool := match VARATT_IS_EXTERNAL_EXPANDED m with Ok b => b | _ => false end.
Definition convertible (m : list Z) : bool := match VARATT_CAN_MAKE_SHORT m with Ok b => b | _ => false end.

Inductive value_ok (att : attribute) : tdatum → Prop :=
| byval_ok z : attbyval att = true → attlen att ∈ byval_lengths → 0 ≤ z < 2 ^ 64 →
    sign_extend (attlen att) (z mod 2 ^ (8 * attlen att)) = z → value_ok att (TByVal z)
| varlena_value_ok m : attbyval att = false → attlen att = -1 → varlena_ok m →
    (expanded m = true → varlena_ok (flatten m)) → value_ok att (TPtr m)
| cstring_ok m : attbyval att = false → attlen att = -2 → attalign att = TYPALIGN_CHAR → c_strlen m = Ok (Z.of_nat (length m) - 1) → value_ok att (TPtr m)
| fixed_ok m : attbyval att = false → 0 < attlen att → Z.of_nat (length m) = attlen att → value_ok att (TPtr m).

(** the value that is read back: expanded objects are flat, values of a column
    that need not be stored plain get a header of one byte if they fit *)
Definition repack (att : attribute) (d : tdatum) : tdatum :=
  match d with
  | TByVal z => TByVal z
  | TPtr m =>
      if attlen att =? -1 then
        if expanded m then TPtr (flatten m)
        else if negb (attplain att) && convertible m then TPtr (SET_VARSIZE_SHORT (Z.of_nat (length m) - 3) :: drop 4 m)
        else TPtr m
      else TPtr m
  end.

(** [bs], at offset [start], is an object that is read as [v] *)
Record object (att : attribute) (v : tdatum) (aligned : bool) (bs : list Z) : Prop := {
  ob_fetch rest : fetch_att att (bs ++ rest) = Ok v;
  ob_length rest : att_length att (bs ++ rest) = Ok (Z.of_nat (length bs));
  ob_nonempty : bs ≠ [];
  ob_fixed : 0 < attlen att → aligned = true;
  ob_varlena : attlen att = -1 → aligned = false → head bs ≠ Some 0;
  ob_cstring : attlen att ≠ -1 → aligned = false → attalign att = TYPALIGN_CHAR
}.

Lemma byval_object att z :
  attbyval att = true → attlen att ∈ byval_lengths → 0 ≤ z < 2 ^ 64 → sign_extend (attlen att) (z mod 2 ^ (8 * attlen att)) = z →
  object att (TByVal z) true (le_bytes (Z.to_nat (attlen att)) z).
Proof.
  intros Hb Hl Hz Hs. assert (existsb (Z.eqb (attlen att)) byval_lengths = true) as He.
  { apply existsb_exists. exists (attlen att). split; [by apply list_elem_of_In|apply Z.eqb_refl]. }
  assert (0 < attlen att) as Hp by (unfold byval_lengths in Hl; rewrite !elem_of_cons in Hl; naive_solver lia).
  assert (Z.of_nat (length (le_bytes (Z.to_nat (attlen att)) z)) = attlen att) as Hlen by (rewrite length_le_bytes; lia).
  split.
  - intros rest. unfold fetch_att. rewrite Hb, He. rewrite (peek_app (le_bytes _ z) rest) by done. cbn [mbind outcome_bind]. do 2 f_equal.
    rewrite <- Hs at 2. f_equal. rewrite le_value_bytes. f_equal. rewrite Z2Nat.id by lia. change 256 with (2 ^ 8). by rewrite <- Z.pow_mul_r by lia.
  - intros rest. unfold att_length. rewrite (proj2 (Z.ltb_lt _ _) Hp). by rewrite Hlen.
  - intros E. rewrite E in Hlen. cbn in Hlen. lia.
  - done.
  - done.
  - done.
Qed.

Lemma varlena_nonempty m : varlena_ok m → m ≠ [].
Proof. by intros [Hs _] ->. Qed.

Lemma varlena_object att m aligned :
  attbyval att = false → attlen att = -1 → varlena_ok m → (aligned = false → head m ≠ Some 0) → object att (TPtr m) aligned m.
Proof.
  intros Hb Hl Hm Hh. pose proof (varlena_nonempty m Hm) as Hne. destruct Hm as [Hs Hbytes].
  assert (∀ rest, att_length att (m ++ rest) = Ok (Z.of_nat (length m))) as Hlen.
  { intros rest. unfold att_length. rewrite Hl. cbn. by apply varsize_more. }
  split; [|done|done|lia|done|done]. intros rest. unfold fetch_att. rewrite Hb, Hlen. cbn [mbind outcome_bind]. by rewrite peek_app.
Qed.

Lemma cstring_object att m :
  attbyval att = false → attlen att = -2 → attalign att = TYPALIGN_CHAR → c_strlen m = Ok (Z.of_nat (length m) - 1) → object att (TPtr m) false m.
Proof.
  intros Hb Hl Ha Hs. assert (∀ rest, att_length att (m ++ rest) = Ok (Z.of_nat (length m))) as Hlen.
  { intros rest. unfold att_length. rewrite Hl. cbn. rewrite (strlen_more _ rest _ Hs). cbn. f_equal. lia. }
  split; [|done|by intros ->|lia|lia|done]. intros rest. unfold fetch_att. rewrite Hb, Hlen. cbn [mbind outcome_bind]. by rewrite peek_app.
Qed.

Lemma fixed_object att m : attbyval att = false → 0 < attlen att → Z.of_nat (length m) = attlen att → object att (TPtr m) true m.
Proof.
  intros Hb Hl Hm. assert (∀ rest, att_length att (m ++ rest) = Ok (Z.of_nat (length m))) as Hlen.
  { intros rest. unfold att_length. by rewrite (proj2 (Z.ltb_lt _ _) Hl), Hm. }
  split; [|done|intros ->; cbn in Hm; lia|done|done|done]. intros rest. unfold fetch_att. rewrite Hb, Hlen. cbn [mbind outcome_bind]. by rewrite peek_app.
Qed.

(** ** Short headers *)

Lemma land_1 b : Z.land b 1 = b mod 2.
Proof. apply (Z.land_ones b 1). lia. Qed.

Lemma land_3 b : Z.land b 3 = b mod 4.
Proof. apply (Z.land_ones b 2). lia. Qed.

Lemma short_header n : 1 ≤ n ≤ 127 → SET_VARSIZE_SHORT n = 2 * n + 1.
Proof.
  intros Hn. unfold SET_VARSIZE_SHORT. rewrite Z.shiftl_mul_pow2 by lia. rewrite Z.mod_small by lia. rewrite <- Z.add_nocarry_lor; [lia|].
  rewrite land_1. apply Z.mod_mul. lia.
Qed.

Lemma peek_byte_cons b m : peek_byte (b :: m) 0 = Ok b.
Proof. by apply (peek_byte_mid []). Qed.

Lemma peek_head m b : peek_byte m 0 = Ok b → ∃ r, m = b :: r.
Proof. destruct m as [|x m]; [done|]. rewrite peek_byte_cons. intros [= <-]. by exists m. Qed.

Lemma convert_short m :
  varlena_ok m → convertible m = true →
  let n := Z.of_nat (length m) - 3 in
  let bs := SET_VARSIZE_SHORT n :: drop 4 m in
  VARATT_CAN_MAKE_SHORT m = Ok true ∧ VARATT_CONVERTED_SHORT_SIZE m = Ok n ∧ peek m 4 (n - 1) = Ok (drop 4 m)
  ∧ varlena_ok bs ∧ head bs ≠ Some 0 ∧ Z.of_nat (length bs) = n ∧ VARATT_IS_EXTERNAL m = Ok false ∧ VARATT_IS_SHORT m = Ok false.
Proof.
  intros [Hs Hb] Hc n bs. unfold convertible in Hc. destruct (VARATT_CAN_MAKE_SHORT m) as [c| | |] eqn:Ec; try done. subst c.
  unfold VARATT_CAN_MAKE_SHORT in Ec. apply bind_Ok_inv in Ec as (b & Hh & Ec). destruct (VARATT_IS_4B_U b) eqn:E4; [|done].
  unfold VARATT_IS_4B_U in E4. apply Z.eqb_eq in E4. rewrite land_3 in E4.
  assert (b mod 2 = 0) as E2 by (rewrite (Z.div_mod b 4) by lia; rewrite E4; replace (4 * (b / 4) + 0) with (2 * (b / 4) * 2) by lia; apply Z.mod_mul; lia).
  assert (VARATT_IS_1B_E b = false) as Ee by (apply Z.eqb_neq; intros ->; done).
  assert (VARATT_IS_1B b = false) as E1 by (unfold VARATT_IS_1B; rewrite land_1, E2; done).
  unfold VARSIZE_ANY in Hs. rewrite Hh in Hs. cbn [mbind outcome_bind] in Hs. rewrite Ee, E1 in Hs.
  rewrite Hs in Ec. cbn [mbind outcome_bind] in Ec. injection Ec as Hle%Z.leb_le.
  assert (4 ≤ Z.of_nat (length m)) as H4.
  { unfold VARSIZE_4B in Hs. apply bind_Ok_inv in Hs as (h & Hh4 & _). apply peek_inv in Hh4. lia. }
  assert (1 ≤ n ≤ 127) as Hn by (unfold n; lia). assert (Z.of_nat (length bs) = n) as Hlen by (unfold bs; cbn [length]; rewrite length_drop; unfold n; lia).
  split_and!.
  - done.
  - unfold VARATT_CONVERTED_SHORT_SIZE. rewrite Hs. cbn. f_equal. unfold n. lia.
  - rewrite peek_ok by (unfold n; lia). f_equal. rewrite take_ge; [done|]. rewrite length_drop. unfold n. lia.
  - split.
    + unfold VARSIZE_ANY, bs. rewrite short_header by done. rewrite peek_byte_cons.
      cbn [mbind outcome_bind]. unfold VARATT_IS_1B_E. rewrite (proj2 (Z.eqb_neq _ 1)) by lia. unfold VARATT_IS_1B. rewrite land_1.
      replace (2 * n + 1) with (1 + n * 2) by lia. rewrite Z.mod_add by lia. cbn -[Z.mul]. rewrite Z.eqb_refl. unfold VARSIZE_1B.
      rewrite peek_byte_cons. cbn [mbind outcome_bind]. f_equal.
      rewrite Z.shiftr_div_pow2, Z.pow_1_r, Z.div_add by lia. change (1 / 2) with 0. rewrite Z.add_0_l. change 127 with (Z.ones 7).
      rewrite Z.land_ones, Z.mod_small by lia. rewrite <- Hlen at 1. unfold bs. cbn [length]. done.
    + unfold bs. constructor; [rewrite short_header by done; unfold byte_ok; lia|]. by apply Forall_drop.
  - unfold bs. cbn. rewrite short_header by done. intros [= E]. lia.
  - done.
  - unfold VARATT_IS_EXTERNAL. rewrite Hh. cbn. by rewrite Ee.
  - unfold VARATT_IS_SHORT. rewrite Hh. cbn. by rewrite E1.
Qed.

Lemma peek_all m : peek m 0 (Z.of_nat (length m)) = Ok m.
Proof. rewrite <- (app_nil_r m) at 1. by apply peek_app. Qed.

(** what is stored, and where it ends *)
Definition stored att d aligned bs flags : Prop :=
  store_val flatten att d = Ok (aligned, bs, flags) ∧ object att (repack att d) aligned bs ∧ flags ∈ [0; 2; 6]
  ∧ ∀ off, add_data_size flatten att d off = Ok ((if aligned : bool then att_align_nominal off (attalign att) else off) + Z.of_nat (length bs)).

Lemma odd_not_short m b : peek_byte m 0 = Ok b → Z.land b 1 = 1 → VARATT_CAN_MAKE_SHORT m = Ok false.
Proof.
  intros Hh H1. unfold VARATT_CAN_MAKE_SHORT. rewrite Hh. cbn [mbind outcome_bind]. unfold VARATT_IS_4B_U.
  rewrite (proj2 (Z.eqb_neq _ 0)); [done|]. intros H0. assert (Z.land (Z.land b 3) 1 = Z.land b 1) as E by (by rewrite <- Z.land_assoc).
  by rewrite H0, H1 in E.
Qed.

Lemma odd_head m b : peek_byte m 0 = Ok b → Z.land b 1 = 1 → head m ≠ Some 0.
Proof. intros Hh H1. destruct (peek_head m b Hh) as [r ->]. cbn. by intros [= ->]. Qed.

Section Varlena.
Context (att : attribute) (m : list Z) (Hb : attbyval att = false) (Hl : attlen att = -1) (Hm : varlena_ok m) (b : Z) (Hh : peek_byte m 0 = Ok b).

Lemma external_stored :
  b = 1 → (expanded m = true → varlena_ok (flatten m)) → ∃ aligned bs flags, stored att (TPtr m) aligned bs flags.
Proof.
  intros -> Hf. pose proof (odd_not_short m 1 Hh eq_refl) as Hc.
  assert (VARATT_IS_EXTERNAL m = Ok true) as He by (unfold VARATT_IS_EXTERNAL; by rewrite Hh).
  assert (VARATT_IS_SHORT m = Ok true) as Hsh by (unfold VARATT_IS_SHORT; by rewrite Hh).
  assert (VARSIZE_EXTERNAL m = Ok (Z.of_nat (length m))) as Hse.
  { destruct Hm as [Hs _]. unfold VARSIZE_ANY in Hs. by rewrite Hh in Hs. }
  assert (∃ x, VARATT_IS_EXTERNAL_EXPANDED m = Ok x) as [x Hx].
  { unfold VARATT_IS_EXTERNAL_EXPANDED. rewrite He. cbn. unfold VARSIZE_EXTERNAL in Hse. apply bind_Ok_inv in Hse as (t & -> & _). by eexists. }
  assert (expanded m = x) as Hex by (unfold expanded; by rewrite Hx). unfold stored, store_val, repack, add_data_size, ATT_IS_PACKABLE.
  rewrite Hb, Hl. cbn [datum_ptr mbind outcome_bind Z.eqb Pos.eqb andb]. rewrite Hex, He, Hsh. cbn [mbind outcome_bind]. destruct x.
  - exists true, (flatten m), 2. rewrite Hx. split_and!; [done| |set_solver|].
    + apply varlena_object; [done|done|by apply Hf|done].
    + intros off. destruct (negb (attplain att)); rewrite ?Hc; cbn [mbind outcome_bind]; by rewrite ?Hx.
  - exists false, m, 6. rewrite Hx. cbn [mbind outcome_bind]. rewrite Hse. cbn [mbind outcome_bind]. rewrite peek_all. split_and!; [done| |set_solver|].
    + unfold convertible. rewrite Hc, andb_false_r. apply varlena_object; [done|done|done|]. intros _. by apply (odd_head m 1).
    + intros off. destruct (negb (attplain att)); rewrite ?Hc; cbn [mbind outcome_bind]; rewrite ?Hx; cbn [mbind outcome_bind];
        unfold att_align_datum, att_addlength_datum, att_length; rewrite Hl; cbn; rewrite ?Hsh; cbn; by rewrite (proj1 Hm).
Qed.

Lemma plain_not_expanded : b ≠ 1 → VARATT_IS_EXTERNAL m = Ok false ∧ VARATT_IS_EXTERNAL_EXPANDED m = Ok false ∧ expanded m = false.
Proof.
  intros H1. assert (VARATT_IS_EXTERNAL m = Ok false) as He.
  { unfold VARATT_IS_EXTERNAL. rewrite Hh. cbn. unfold VARATT_IS_1B_E. by rewrite (proj2 (Z.eqb_neq _ _)). }
  unfold expanded, VARATT_IS_EXTERNAL_EXPANDED. by rewrite He.
Qed.

Lemma short_stored : b ≠ 1 → Z.land b 1 = 1 → ∃ aligned bs flags, stored att (TPtr m) aligned bs flags.
Proof.
  intros H1 Ho. pose proof (odd_not_short m b Hh Ho) as Hc. destruct (plain_not_expanded H1) as (He & Hx & Hex).
  assert (VARATT_IS_1B b = true) as Eb by (unfold VARATT_IS_1B; by rewrite Ho).
  assert (VARATT_IS_SHORT m = Ok true) as Hsh by (unfold VARATT_IS_SHORT; rewrite Hh; cbn; by rewrite Eb).
  assert (VARSIZE_1B m = Ok (Z.of_nat (length m))) as Hs1.
  { destruct Hm as [Hs _]. unfold VARSIZE_ANY in Hs. rewrite Hh in Hs. cbn [mbind outcome_bind] in Hs. unfold VARATT_IS_1B_E in Hs.
    by rewrite (proj2 (Z.eqb_neq _ _) H1), Eb in Hs. }
  exists false, m, 2. unfold stored, store_val, repack, add_data_size, ATT_IS_PACKABLE. rewrite Hb, Hl.
  cbn [datum_ptr mbind outcome_bind Z.eqb Pos.eqb andb]. rewrite Hex, He, Hsh. cbn [mbind outcome_bind]. rewrite Hs1. cbn [mbind outcome_bind]. rewrite peek_all.
  split_and!; [done| |set_solver|].
  - unfold convertible. rewrite Hc, andb_false_r. apply varlena_object; [done|done|done|]. intros _. by apply (odd_head m b).
  - intros off. destruct (negb (attplain att)); rewrite ?Hc; cbn [mbind outcome_bind]; rewrite ?Hx; cbn [mbind outcome_bind];
      unfold att_align_datum, att_addlength_datum, att_length; rewrite Hl; cbn; rewrite ?Hsh; cbn; by rewrite (proj1 Hm).
Qed.

Lemma long_stored : Z.land b 1 ≠ 1 → ∃ aligned bs flags, stored att (TPtr m) aligned bs flags.
Proof.
  intros Ho. assert (b ≠ 1) as H1 by (by intros ->). destruct (plain_not_expanded H1) as (He & Hx & Hex).
  assert (VARATT_IS_1B b = false) as Eb by (unfold VARATT_IS_1B; by rewrite (proj2 (Z.eqb_neq _ _))).
  assert (VARATT_IS_SHORT m = Ok false) as Hsh by (unfold VARATT_IS_SHORT; rewrite Hh; cbn; by rewrite Eb).
  assert (VARSIZE_4B m = Ok (Z.of_nat (length m))) as Hs4.
  { destruct Hm as [Hs _]. unfold VARSIZE_ANY in Hs. rewrite Hh in Hs. cbn [mbind outcome_bind] in Hs. unfold VARATT_IS_1B_E in Hs.
    by rewrite (proj2 (Z.eqb_neq _ _) H1), Eb in Hs. }
  assert (∃ c, VARATT_CAN_MAKE_SHORT m = Ok c) as [c Hc].
  { unfold VARATT_CAN_MAKE_SHORT. rewrite Hh. cbn [mbind outcome_bind]. destruct (VARATT_IS_4B_U b); [rewrite Hs4|]; by eexists. }
  assert (convertible m = c) as Hcv by (unfold convertible; by rewrite Hc).
  unfold stored, store_val, repack, add_data_size, ATT_IS_PACKABLE. rewrite Hb, Hl. cbn [datum_ptr mbind outcome_bind Z.eqb Pos.eqb andb].
  rewrite Hex, He, Hsh, Hcv, Hc. cbn [mbind outcome_bind]. destruct (negb (attplain att) && c) eqn:Ec.
  - apply andb_prop in Ec as [Ep ->]. destruct (convert_short m Hm Hcv) as (_ & Hn & Hp & Hok & Hhd & Hlen & _ & _).
    exists false, (SET_VARSIZE_SHORT (Z.of_nat (length m) - 3) :: drop 4 m), 2. rewrite Hn. cbn [mbind outcome_bind]. rewrite Hp. cbn [mbind outcome_bind].
    split_and!; [done|by apply varlena_object|set_solver|]. intros off. rewrite Ep, Hlen. cbn [mbind outcome_bind]. done.
  - exists true, m, 2. rewrite Hs4. cbn [mbind outcome_bind]. rewrite peek_all. split_and!; [done|by apply varlena_object|set_solver|].
    intros off. assert ((if negb (attplain att) then Ok c else Ok false) = Ok false) as ->.
    { destruct (negb (attplain att)); [|done]. cbn in Ec. by rewrite Ec. }
    cbn [mbind outcome_bind]. rewrite ?Hx. cbn [mbind outcome_bind]. unfold att_align_datum, att_addlength_datum, att_length. rewrite Hl. cbn.
    rewrite ?Hsh. cbn. by rewrite (proj1 Hm).
Qed.
End Varlena.

Lemma store_ok att d : value_ok att d → ∃ aligned bs flags, stored att d aligned bs flags.
Proof.
  intros [z Hb Hl Hz Hs|m Hb Hl Hm Hf|m Hb Hl Ha Hs|m Hb Hl Hm].
  - pose proof (byval_object att z Hb Hl Hz Hs) as Ho. exists true, (le_bytes (Z.to_nat (attlen att)) z), 0.
    assert (existsb (Z.eqb (attlen att)) byval_lengths = true) as He.
    { apply existsb_exists. exists (attlen att). split; [by apply list_elem_of_In|apply Z.eqb_refl]. }
    assert (0 < attlen att) as Hp by (unfold byval_lengths in Hl; rewrite !elem_of_cons in Hl; naive_solver lia).
    unfold stored, store_val, store_att_byval. rewrite Hb, He. split_and!; [done|done|set_solver|]. intros off.
    unfold add_data_size, ATT_IS_PACKABLE, att_align_datum, att_addlength_datum. rewrite (proj2 (Z.eqb_neq _ (-1))), (proj2 (Z.ltb_lt _ _) Hp) by lia.
    cbn. rewrite length_le_bytes, Z2Nat.id by lia. done.
  - destruct Hm as [Hs Hby]. pose proof Hs as Hs'. unfold VARSIZE_ANY in Hs'. apply bind_Ok_inv in Hs' as (b & Hh & _).
    destruct (decide (b = 1)) as [->|H1]; [by apply (external_stored att m Hb Hl ltac:(by split) 1)|].
    destruct (decide (Z.land b 1 = 1)) as [Ho|Ho]; [by apply (short_stored att m Hb Hl ltac:(by split) b)|by apply (long_stored att m Hb Hl ltac:(by split) b)].
  - exists false, m, 2. pose proof (cstring_object att m Hb Hl Ha Hs) as Ho. unfold stored, store_val, repack. rewrite Hb, Hl.
    cbn [datum_ptr mbind outcome_bind Z.eqb Pos.eqb]. rewrite Hs. cbn [mbind outcome_bind]. replace (Z.of_nat (length m) - 1 + 1) with (Z.of_nat (length m)) by lia.
    rewrite peek_all. split_and!; [done|done|set_solver|]. intros off. unfold add_data_size, ATT_IS_PACKABLE, att_align_datum, att_addlength_datum, att_length.
    rewrite Hl, Ha. cbn. rewrite Hs. cbn. f_equal. lia.
  - exists true, m, 0. pose proof (fixed_object att m Hb Hl Hm) as Ho. unfold stored, store_val, repack. rewrite Hb.
    rewrite (proj2 (Z.eqb_neq _ (-1))), (proj2 (Z.eqb_neq _ (-2))) by lia. cbn [datum_ptr mbind outcome_bind]. rewrite <- Hm at 1. rewrite peek_all.
    split_and!; [done|done|set_solver|]. intros off. unfold add_data_size, ATT_IS_PACKABLE, att_align_datum, att_addlength_datum.
    rewrite (proj2 (Z.eqb_neq _ (-1))), (proj2 (Z.ltb_lt _ _) Hl) by lia. cbn. by rewrite Hm.
Qed.
End Values.

(** ** The data area *)

Section Layout.
Context (flatten : list Z → list Z).
Abbreviation columns := (list (attribute * option tdatum)).

Definition cols_ok (cols : columns) : Prop := Forall (fun c => match c.2 with Some d => value_ok flatten c.1 d | None => True end) cols.

Definition store_of (att : attribute) (d : tdatum) : bool * list Z := match store_val flatten att d with Ok (aligned, bs, _) => (aligned, bs) | _ => (false, []) end.

Definition start_of (att : attribute) (aligned : bool) (off : Z) : Z := if aligned then att_align_nominal off (attalign att) else off.

(** one value behind [off] bytes *)
Definition lay (att : attribute) (d : tdatum) (off : Z) : list Z :=
  let r := store_of att d in zeros (start_of att r.1 off - off) ++ r.2.

Fixpoint layout (cols : columns) (off : Z) : list Z :=
  match cols with
  | [] => []
  | (_, None) :: cols => layout cols off
  | (att, Some d) :: cols => lay att d off ++ layout cols (off + Z.of_nat (length (lay att d off)))
  end.

Lemma start_ge att aligned off : off ≤ start_of att aligned off.
Proof. unfold start_of. destruct aligned; [apply align_ge|lia]. Qed.

Lemma layout_app c1 c2 off : layout (c1 ++ c2) off = layout c1 off ++ layout c2 (off + Z.of_nat (length (layout c1 off))).
Proof.
  revert off. induction c1 as [|[att [d|]] c1 IH]; intros off; cbn [app layout].
  - cbn. by rewrite Z.add_0_r.
  - rewrite IH, <- app_assoc, length_app. do 3 f_equal. lia.
  - apply IH.
Qed.

Lemma stored_lay att d aligned bs flags off :
  stored flatten att d aligned bs flags → store_of att d = (aligned, bs) ∧ lay att d off = zeros (start_of att aligned off - off) ++ bs
  ∧ off + Z.of_nat (length (lay att d off)) = start_of att aligned off + Z.of_nat (length bs).
Proof.
  intros (Hs & _ & _ & _). assert (store_of att d = (aligned, bs)) as E by (unfold store_of; by rewrite Hs). split_and!; [done|unfold lay; by rewrite E|].
  unfold lay. rewrite E. cbn [fst snd]. rewrite length_app, Nat2Z.inj_add, zeros_length; [lia|]. pose proof (start_ge att aligned off). lia.
Qed.

Lemma compute_layout cols : ∀ off, cols_ok cols → heap_compute_data_size flatten cols off = Ok (off + Z.of_nat (length (layout cols off))).
Proof.
  induction cols as [|[att [d|]] cols IH]; intros off HF; cbn [heap_compute_data_size layout].
  - cbn. f_equal. lia.
  - apply Forall_cons in HF as [Hd HF]. destruct (store_ok flatten att d Hd) as (aligned & bs & flags & Hs).
    destruct (stored_lay att d aligned bs flags off Hs) as (_ & _ & He). destruct Hs as (_ & _ & _ & Hsz). rewrite Hsz. cbn [mbind outcome_bind].
    change (if aligned then _ else _) with (start_of att aligned off). rewrite <- He, IH by done. rewrite length_app. f_equal. lia.
  - apply Forall_cons in HF as [_ HF]. by apply IH.
Qed.

(** ** The null bitmap *)

Definition nonnull (cols : columns) (i : Z) : bool := match cols !! Z.to_nat i with Some (_, None) => false | _ => true end.

Definition bit_at (bits : list Z) (i : Z) : bool := Z.testbit (default 0 (bits !! Z.to_nat (i / 8))) (i mod 8).

(** the bits of the first [k] columns are set, those behind are clear *)
Definition bits_ok (f : Z → bool) (k : Z) (bits : list Z) : Prop :=
  (∀ i, 0 ≤ i < k → bit_at bits i = f i) ∧ ∀ i, k ≤ i → i / 8 = (k - 1) / 8 → bit_at bits i = false.

Lemma poke_byte (bits : list Z) j v : 0 ≤ j < Z.of_nat (length bits) → poke bits j [v] = Ok (<[Z.to_nat j := v]> bits).
Proof.
  intros Hj. unfold poke. cbn [length]. rewrite (proj2 (Z.leb_le 0 j)), (proj2 (Z.leb_le _ _)) by lia. cbn [andb]. f_equal.
  rewrite insert_take_drop by lia. by rewrite Nat.add_1_r.
Qed.

Lemma peek_byte_lookup (bits : list Z) j : 0 ≤ j < Z.of_nat (length bits) → peek_byte bits j = Ok (default 0 (bits !! Z.to_nat j)).
Proof.
  intros Hj. unfold peek_byte. rewrite peek_ok by lia. cbn [mbind outcome_bind]. destruct (lookup_lt_is_Some_2 bits (Z.to_nat j) ltac:(lia)) as [b Hb].
  rewrite (drop_S bits b _ Hb), Hb. done.
Qed.

Lemma bit_at_insert bits j v i :
  0 ≤ i → 0 ≤ j < Z.of_nat (length bits) → bit_at (<[Z.to_nat j := v]> bits) i = if decide (i / 8 = j) then Z.testbit v (i mod 8) else bit_at bits i.
Proof.
  intros Hi Hj. unfold bit_at. pose proof (Z.div_pos i 8 Hi ltac:(lia)). destruct (decide (i / 8 = j)) as [->|Hne].
  - by rewrite list_lookup_insert_eq by lia.
  - by rewrite list_lookup_insert_ne by lia.
Qed.

Lemma fill_bit_ok f k bits :
  0 ≤ k → k / 8 < Z.of_nat (length bits) → bits_ok f k bits →
  ∃ bits', fill_bit bits ((k - 1) / 8) (2 ^ ((k - 1) mod 8)) (negb (f k)) = Ok (bits', k / 8, 2 ^ (k mod 8))
    ∧ length bits' = length bits ∧ bits_ok f (k + 1) bits'.
Proof.
  intros Hk Hl [Hset Hclear].
  assert (∃ bits1, (if 2 ^ ((k - 1) mod 8) =? HIGHBIT then bits ← poke bits ((k - 1) / 8 + 1) [0]; Ok (bits, (k - 1) / 8 + 1, 1)
                    else Ok (bits, (k - 1) / 8, Z.shiftl (2 ^ ((k - 1) mod 8)) 1)) = Ok (bits1, k / 8, 2 ^ (k mod 8))
          ∧ length bits1 = length bits ∧ (∀ i, 0 ≤ i < k → bit_at bits1 i = f i) ∧ ∀ i, k ≤ i → i / 8 = k / 8 → bit_at bits1 i = false) as (bits1 & E1 & L1 & S1 & C1).
  { pose proof (Z.mod_pos_bound (k - 1) 8 ltac:(lia)) as Hm. destruct (decide ((k - 1) mod 8 = 7)) as [H7|H7].
    - assert (k / 8 = (k - 1) / 8 + 1 ∧ k mod 8 = 0) as [Hd Hmod] by (split; [symmetry; apply (Z.div_unique k 8 _ 0)|symmetry; apply (Z.mod_unique k 8 ((k - 1) / 8 + 1))]; pose proof (Z.div_mod (k - 1) 8 ltac:(lia)); lia).
      rewrite H7. change (2 ^ 7 =? HIGHBIT) with true. pose proof (Z.div_pos k 8 Hk ltac:(lia)). rewrite poke_byte by lia. cbn [mbind outcome_bind]. exists (<[Z.to_nat ((k - 1) / 8 + 1) := 0]> bits).
      rewrite Hd, Hmod. split_and!; [done|by rewrite length_insert| |].
      + intros i Hi. rewrite bit_at_insert by lia. rewrite decide_False; [by apply Hset|]. intros E. pose proof (Z.div_le_mono i (k - 1) 8 ltac:(lia) ltac:(lia)). lia.
      + intros i Hi E. rewrite bit_at_insert by lia. rewrite decide_True by lia. apply Z.testbit_0_l.
    - assert (k / 8 = (k - 1) / 8 ∧ k mod 8 = (k - 1) mod 8 + 1) as [Hd Hmod] by (split; [symmetry; apply (Z.div_unique k 8 _ ((k - 1) mod 8 + 1))|symmetry; apply (Z.mod_unique k 8 ((k - 1) / 8))]; pose proof (Z.div_mod (k - 1) 8 ltac:(lia)); lia).
      rewrite (proj2 (Z.eqb_neq _ HIGHBIT)).
      2:{ change HIGHBIT with (2 ^ 7). intros E. apply Z.pow_inj_r in E; lia. }
      exists bits. rewrite Hd, Hmod, Z.shiftl_mul_pow2, <- Z.pow_add_r by lia. split_and!; [done|done|done|]. intros i Hi E. apply Hclear; [done|lia]. }
  unfold fill_bit. rewrite E1. cbn [mbind outcome_bind]. pose proof (Z.mod_pos_bound k 8 ltac:(lia)) as Hm. pose proof (Z.div_pos k 8 Hk ltac:(lia)) as Hd.
  assert (bit_at bits1 k = false) as Hbk by (apply C1; lia). replace (k + 1 - 1) with k by lia. destruct (f k) eqn:Ef; cbn [negb].
  - rewrite peek_byte_lookup by lia. cbn [mbind outcome_bind]. rewrite poke_byte by lia. cbn [mbind outcome_bind]. eexists. split_and!; [done|by rewrite length_insert|split].
    + intros i Hi. rewrite bit_at_insert by lia. destruct (decide (i / 8 = k / 8)) as [E|E].
      * rewrite Z.lor_spec, Z.pow2_bits_eqb by lia. change (Z.testbit _ (i mod 8)) with (Z.testbit (default 0 (bits1 !! Z.to_nat (k / 8))) (i mod 8)).
        rewrite <- E. change (Z.testbit (default 0 (bits1 !! Z.to_nat (i / 8))) (i mod 8)) with (bit_at bits1 i).
        destruct (decide (i = k)) as [->|Hne]; [by rewrite Z.eqb_refl, orb_true_r|]. rewrite S1 by lia. rewrite (proj2 (Z.eqb_neq _ _)); [by rewrite orb_false_r|].
        intros E2. pose proof (Z.div_mod i 8 ltac:(lia)). pose proof (Z.div_mod k 8 ltac:(lia)). lia.
      * apply S1. destruct (decide (i = k)) as [->|]; [done|lia].
    + intros i Hi E. rewrite bit_at_insert by lia. replace (k + 1 - 1) with k in E by lia. rewrite decide_True by done. rewrite Z.lor_spec, Z.pow2_bits_eqb by lia.
      rewrite <- E. change (Z.testbit (default 0 (bits1 !! Z.to_nat (i / 8))) (i mod 8)) with (bit_at bits1 i). rewrite C1 by lia. cbn. apply Z.eqb_neq.
      intros E2. pose proof (Z.div_mod i 8 ltac:(lia)). pose proof (Z.div_mod k 8 ltac:(lia)). lia.
  - exists bits1. split_and!; [done|done|split].
    + intros i Hi. destruct (decide (i = k)) as [->|]; [by rewrite Ef|]. apply S1. lia.
    + intros i Hi E. apply C1; [lia|]. by replace (k + 1 - 1) with k in E by lia.
Qed.

(** ** Filling *)

Definition isnull_col (c : attribute * option tdatum) : bool := match c.2 with None => true | Some _ => false end.

(** the flags of the columns so far *)
Definition infomask_ok (anynull : bool) (infomask : Z) : Prop :=
  infomask ∈ [0; 1; 2; 3; 4; 5; 6; 7] ∧ (Z.land infomask HEAP_HASNULL =? 0) = negb anynull.

Lemma infomask_flags anynull i flags : infomask_ok anynull i → flags ∈ [0; 2; 6] → infomask_ok anynull (Z.lor i flags).
Proof.
  intros [Hi Hn] Hf. rewrite !elem_of_cons in Hf. rewrite !elem_of_cons in Hi.
  destruct Hf as [->|[->|[->|Hf%elem_of_nil]]]; [..|done]; destruct Hi as [->|[->|[->|[->|[->|[->|[->|[->|Hi%elem_of_nil]]]]]]]]; try done;
    (split; [cbn; set_solver|exact Hn]).
Qed.

Lemma infomask_null anynull i : infomask_ok anynull i → infomask_ok true (Z.lor i HEAP_HASNULL).
Proof.
  intros [Hi Hn]. rewrite !elem_of_cons in Hi.
  destruct Hi as [->|[->|[->|[->|[->|[->|[->|[->|Hi%elem_of_nil]]]]]]]]; try done; (split; [cbn; set_solver|done]).
Qed.

Section Fill.
Context (cols : columns) (Hcols : cols_ok cols).
Let size := Z.of_nat (length (layout cols 0)).
Let hasnull := existsb isnull_col cols.

Record fill_ok (k : nat) (s : fill) : Prop := {
  fo_off : fl_off s = Z.of_nat (length (layout (take k cols) 0));
  fo_area : fl_area s = layout (take k cols) 0 ++ zeros (size - fl_off s);
  fo_bits : if hasnull then ∃ bits, fl_bits s = Some (bits, (Z.of_nat k - 1) / 8, 2 ^ ((Z.of_nat k - 1) mod 8))
                                   ∧ length bits = Z.to_nat (BITMAPLEN (Z.of_nat (length cols))) ∧ bits_ok (nonnull cols) (Z.of_nat k) bits
            else fl_bits s = None;
  fo_mask : infomask_ok (existsb isnull_col (take k cols)) (fl_infomask s)
}.

Lemma layout_take k c : cols !! k = Some c → layout (take (S k) cols) 0 = layout (take k cols) 0 ++ layout [c] (Z.of_nat (length (layout (take k cols) 0))).
Proof. intros Hc. by rewrite (take_S_r cols k c Hc), layout_app. Qed.

Lemma layout_rest k : layout cols 0 = layout (take k cols) 0 ++ layout (drop k cols) (Z.of_nat (length (layout (take k cols) 0))).
Proof. rewrite <- (take_drop k cols) at 1. by rewrite layout_app. Qed.

Lemma fill_bits_step k c s :
  cols !! k = Some c → fill_ok k s →
  ∃ bits, match fl_bits s with Some (bits, bit, bitmask) => r ← fill_bit bits bit bitmask (isnull_col c); Ok (Some r) | None => Ok None end = Ok bits
  ∧ (if hasnull then ∃ b, bits = Some (b, (Z.of_nat (S k) - 1) / 8, 2 ^ ((Z.of_nat (S k) - 1) mod 8))
                          ∧ length b = Z.to_nat (BITMAPLEN (Z.of_nat (length cols))) ∧ bits_ok (nonnull cols) (Z.of_nat (S k)) b
     else bits = None).
Proof.
  intros Hc [_ _ Hbits _]. destruct hasnull; [|rewrite Hbits; by eexists]. destruct Hbits as (bits & -> & Hlen & Hok).
  pose proof (lookup_lt_Some _ _ _ Hc) as Hk. assert (isnull_col c = negb (nonnull cols (Z.of_nat k))) as ->.
  { unfold nonnull. rewrite Nat2Z.id, Hc. destruct c as [att [d|]]; done. }
  destruct (fill_bit_ok (nonnull cols) (Z.of_nat k) bits ltac:(lia)) as (bits' & E & L & Hok').
  { rewrite Hlen. unfold BITMAPLEN. pose proof (Z.div_le_mono (Z.of_nat k + 1 * 8) (Z.of_nat (length cols) + 7) 8 ltac:(lia) ltac:(lia)) as Hd.
    rewrite Z.div_add in Hd by lia. pose proof (Z.div_pos (Z.of_nat k) 8 ltac:(lia) ltac:(lia)). lia. }
  { done. }
  rewrite E. cbn [mbind outcome_bind]. eexists. split; [done|]. exists bits'. replace (Z.of_nat (S k) - 1) with (Z.of_nat k) by lia.
  replace (Z.of_nat (S k)) with (Z.of_nat k + 1) by lia. split_and!; [done|by rewrite L|done].
Qed.

Lemma anynull_S k c : cols !! k = Some c → existsb isnull_col (take (S k) cols) = existsb isnull_col (take k cols) || isnull_col c.
Proof. intros Hc. rewrite (take_S_r cols k c Hc), existsb_app. cbn. by rewrite orb_false_r. Qed.

Lemma fill_step k att v s : cols !! k = Some (att, v) → fill_ok k s → ∃ s', fill_val flatten att v s = Ok s' ∧ fill_ok (S k) s'.
Proof.
  intros Hc Hs. destruct (fill_bits_step k _ s Hc Hs) as (bits & Eb & Hbits). destruct Hs as [Hoff Harea _ Hmask].
  unfold fill_val. change (match v with Some _ => false | None => true end) with (isnull_col (att, v)). rewrite Eb. cbn [mbind outcome_bind].
  pose proof (layout_take k _ Hc) as Hl. pose proof (anynull_S k _ Hc) as Ha. destruct v as [d|].
  - assert (value_ok flatten att d) as Hd by (by apply (Forall_lookup_1 _ _ _ _ Hcols Hc)). destruct (store_ok flatten att d Hd) as (aligned & bs & flags & Hst).
    destruct (stored_lay att d aligned bs flags (fl_off s) Hst) as (_ & Hlay & Hend). destruct Hst as (Hval & _ & Hfl & _). rewrite Hval. cbn [mbind outcome_bind].
    change (if aligned then _ else _) with (start_of att aligned (fl_off s)). pose proof (start_ge att aligned (fl_off s)) as Hge.
    assert (layout (take (S k) cols) 0 = layout (take k cols) 0 ++ zeros (start_of att aligned (fl_off s) - fl_off s) ++ bs) as Hl'.
    { rewrite Hl, <- Hoff. cbn [layout]. by rewrite app_nil_r, Hlay. }
    assert (Z.of_nat (length (layout (take (S k) cols) 0)) = start_of att aligned (fl_off s) + Z.of_nat (length bs)) as Hlen.
    { rewrite Hl', !length_app, !Nat2Z.inj_add, zeros_length by lia. lia. }
    assert (start_of att aligned (fl_off s) + Z.of_nat (length bs) ≤ size) as Hsz.
    { unfold size. rewrite <- Hlen. rewrite (layout_rest (S k)), length_app. lia. }
    rewrite Harea. replace (size - fl_off s) with (start_of att aligned (fl_off s) - fl_off s + Z.of_nat (length bs) + (size - (start_of att aligned (fl_off s) + Z.of_nat (length bs)))) by lia.
    rewrite (poke_zeros _ bs (fl_off s)) by (done || lia). cbn [mbind outcome_bind]. eexists. split; [done|]. split; cbn [fl_off fl_area fl_bits fl_infomask].
    + by rewrite Hlen.
    + by rewrite Hl'.
    + done.
    + rewrite Ha. cbn [isnull_col snd]. rewrite orb_false_r. by apply infomask_flags.
  - cbn in Hbits. assert (hasnull = true) as Hn.
    { unfold hasnull. apply existsb_exists. exists (att, None). split; [|done]. apply list_elem_of_In. by eapply list_elem_of_lookup_2. }
    rewrite Hn in Hbits. destruct Hbits as (b & -> & Hb). eexists. split; [done|].
    assert (layout (take (S k) cols) 0 = layout (take k cols) 0) as Hl' by (rewrite Hl; cbn; by rewrite app_nil_r).
    split; cbn [fl_off fl_area fl_bits fl_infomask]; [by rewrite Hl'|by rewrite Hl'|rewrite Hn; eauto|]. rewrite Ha. cbn. rewrite orb_true_r. by eapply infomask_null.
Qed.

Lemma fill_all n : ∀ k s, (k + n = length cols)%nat → fill_ok k s → ∃ s', heap_fill_tuple flatten (drop k cols) s = Ok s' ∧ fill_ok (length cols) s'.
Proof.
  induction n as [|n IH]; intros k s Hk Hs.
  - rewrite drop_ge by lia. exists s. split; [done|]. by replace (length cols) with k by lia.
  - destruct (lookup_lt_is_Some_2 cols k ltac:(lia)) as [[att v] Hc]. rewrite (drop_S cols _ k Hc). cbn [heap_fill_tuple].
    destruct (fill_step k att v s Hc Hs) as (s1 & E & Hs1). rewrite E. cbn [mbind outcome_bind]. apply IH; [lia|done].
Qed.

Lemma fill_start : fill_ok 0 (mkFill (if hasnull then Some (zeros (BITMAPLEN (Z.of_nat (length cols))), -1, HIGHBIT) else None) (zeros size) 0 0).
Proof.
  split; cbn [fl_off fl_area fl_bits fl_infomask].
  - by rewrite take_0.
  - rewrite take_0. cbn. by rewrite Z.sub_0_r.
  - destruct hasnull; [|done]. eexists. split_and!; [done|unfold zeros; by rewrite length_replicate|]. split; [lia|]. intros i Hi E.
    change ((Z.of_nat 0 - 1) / 8) with (-1) in E. pose proof (Z.div_pos i 8 ltac:(lia) ltac:(lia)). lia.
  - rewrite take_0. split; [set_solver|done].
Qed.
End Fill.
End Layout.

(** ** The cache of offsets *)

(** the offset behind the first [k] attributes, if they have fixed lengths and no
    column is NULL *)
Fixpoint pre_off (desc : tupdesc) (k : nat) (off : Z) {struct k} : option Z :=
  match k, desc with
  | O, _ => Some off
  | S k, att :: desc => if 0 <? attlen att then pre_off desc k (att_align_nominal off (attalign att) + attlen att) else None
  | S _, [] => None
  end.

Lemma pre_off_S desc k att : ∀ off0 off, pre_off desc k off0 = Some off → desc !! k = Some att → 0 < attlen att →
  pre_off desc (S k) off0 = Some (att_align_nominal off (attalign att) + attlen att).
Proof.
  revert k. induction desc as [|a desc IH]; intros [|k] off0 off Hp Hk Hl; try done.
  - injection Hk as ->. injection Hp as ->. cbn. by rewrite (proj2 (Z.ltb_lt _ _) Hl).
  - cbn [pre_off] in Hp |- *. destruct (0 <? attlen a); [|done]. by apply IH.
Qed.

(** a cached offset is that of the attribute in every tuple in which the columns
    before it have fixed lengths and are not NULL *)
Definition offsets_ok (desc : tupdesc) (cache : list Z) : Prop :=
  length cache = length desc
  ∧ ∀ i c att, cache !! i = Some c → 0 ≤ c → desc !! i = Some att →
      ∃ off, pre_off desc i 0 = Some off ∧ c = att_align_nominal off (attalign att) ∧ (attlen att = -1 → c = off).

Lemma cache_insert desc cache i att off c :
  offsets_ok desc cache → desc !! i = Some att → pre_off desc i 0 = Some off → c = att_align_nominal off (attalign att) → (attlen att = -1 → c = off) →
  offsets_ok desc (<[i := c]> cache).
Proof.
  intros [Hl Hc] Hi Hp He Hv. split; [by rewrite length_insert|]. intros j c' att' Hj Hc' Ha.
  destruct (decide (j = i)) as [->|Hne]; [|rewrite list_lookup_insert_ne in Hj by done; by eapply Hc].
  rewrite list_lookup_insert_eq in Hj by (rewrite Hl; by eapply lookup_lt_Some). injection Hj as <-. rewrite Hi in Ha. injection Ha as <-. by exists off.
Qed.

(** an empty cache *)
Lemma cache_fresh desc : offsets_ok desc (replicate (length desc) (-1)).
Proof. split; [apply length_replicate|]. intros i c att Hi Hc. apply lookup_replicate in Hi as [-> _]. lia. Qed.

(** ** Taking apart *)

Section Deform.
Context (flatten : list Z → list Z) (cols : list (attribute * option tdatum)) (Hcols : cols_ok flatten cols).
Context (hasnulls : bool) (bits : list Z).
Context (Hnulls : ∀ k c, cols !! k = Some c → (if hasnulls then att_isnull (Z.of_nat k) bits else Ok false) = Ok (isnull_col c)).
Let desc := cols.*1.
Let tp := layout flatten cols 0.

(** the values that are read *)
Definition kept (c : attribute * option tdatum) : option tdatum := match c.2 with Some d => Some (repack flatten c.1 d) | None => None end.

Record deform_ok (k : nat) (s : deform) : Prop := {
  do_off : df_off s = Z.of_nat (length (layout flatten (take k cols) 0));
  do_values : df_values s = kept <$> take k cols;
  do_cache : offsets_ok desc (df_cache s);
  do_fast : df_slow s = false → pre_off desc k 0 = Some (df_off s)
}.

Lemma desc_lookup k att v : cols !! k = Some (att, v) → desc !! k = Some att.
Proof. intros Hc. unfold desc. by rewrite list_lookup_fmap, Hc. Qed.

Lemma tp_at k att d :
  cols !! k = Some (att, Some d) → let off := Z.of_nat (length (layout flatten (take k cols) 0)) in
  tp = layout flatten (take k cols) 0 ++ lay flatten att d off ++ layout flatten (drop (S k) cols) (off + Z.of_nat (length (lay flatten att d off))).
Proof. intros Hc off. unfold tp. by rewrite (layout_rest flatten cols k), (drop_S cols _ k Hc). Qed.

(** the first byte tells a value from padding *)
Lemma peek_start k att d s aligned bs flags :
  cols !! k = Some (att, Some d) → deform_ok k s → stored flatten att d aligned bs flags → attlen att = -1 →
  ∃ b, peek_byte tp (df_off s) = Ok b ∧ (if b =? 0 then att_align_nominal (df_off s) (attalign att) else df_off s) = start_of att aligned (df_off s).
Proof.
  intros Hc [Hoff _ _ _] Hst Hv. destruct (stored_lay flatten att d aligned bs flags (df_off s) Hst) as (_ & Hlay & _). destruct Hst as (_ & Ho & _ & _).
  pose proof (ob_nonempty _ _ _ _ Ho) as Hne. rewrite (tp_at k att d Hc), <- Hoff, Hlay. destruct bs as [|b0 bs]; [done|].
  destruct (Z.eq_dec (start_of att aligned (df_off s)) (df_off s)) as [E|E].
  - rewrite E, Z.sub_diag. exists b0. split; [by apply peek_byte_mid|]. destruct (Z.eqb_spec b0 0) as [->|_]; [|done].
    destruct aligned; [done|]. exfalso. by apply (ob_varlena _ _ _ _ Ho).
  - destruct aligned; [|done]. pose proof (start_ge att true (df_off s)). unfold zeros.
    replace (Z.to_nat (start_of att true (df_off s) - df_off s)) with (S (Z.to_nat (start_of att true (df_off s) - df_off s - 1))) by lia.
    exists 0. split; [by apply peek_byte_mid|done].
Qed.

(** the attribute is found where it was stored *)
Lemma align_step k att d s aligned bs flags :
  cols !! k = Some (att, Some d) → deform_ok k s → stored flatten att d aligned bs flags →
  ∃ slow cache, deform_align att k tp s = Ok (start_of att aligned (df_off s), slow, cache) ∧ offsets_ok desc cache
    ∧ (slow = false → df_slow s = false).
Proof.
  intros Hc Hs Hst. pose proof (peek_start k att d s aligned bs flags Hc Hs Hst) as Hpeek. destruct Hs as [Hoff _ Hcache Hfast]. destruct Hst as (_ & Ho & _ & _).
  assert (attlen att ≠ -1 → att_align_nominal (df_off s) (attalign att) = start_of att aligned (df_off s)) as Hnom.
  { intros Hv. unfold start_of. destruct aligned; [done|]. by rewrite (ob_cstring _ _ _ _ Ho Hv eq_refl). }
  pose proof (desc_lookup k att _ Hc) as Hd. assert (∃ c, df_cache s !! k = Some c) as [c Hk].
  { apply lookup_lt_is_Some_2. destruct Hcache as [-> _]. by eapply lookup_lt_Some. }
  unfold deform_align. rewrite Hk. cbn [deref mbind outcome_bind]. destruct (df_slow s) eqn:Eslow; cbn [negb andb].
  - destruct (Z.eqb_spec (attlen att) (-1)) as [Hv|Hv].
    + destruct (Hpeek Hv) as (b & -> & He). cbn [mbind outcome_bind]. rewrite He. by eexists _, _.
    + rewrite Hnom by done. by eexists _, _.
  - specialize (Hfast eq_refl). destruct (Z.leb_spec 0 c) as [Hc0|Hc0]; cbn [andb].
    + destruct Hcache as [Hlen Hcache]. destruct (Hcache k c att Hk Hc0 Hd) as (off & Hp & -> & Hv). rewrite Hfast in Hp. injection Hp as <-.
      assert (att_align_nominal (df_off s) (attalign att) = start_of att aligned (df_off s)) as ->; [|by eexists _, _].
      destruct (Z.eq_dec (attlen att) (-1)) as [E|E]; [|by apply Hnom]. unfold start_of. destruct aligned; [done|by apply Hv].
    + destruct (Z.eqb_spec (attlen att) (-1)) as [Hv|Hv].
      * destruct (Z.eqb_spec (df_off s) (att_align_nominal (df_off s) (attalign att))) as [Ea|Ea].
        -- assert (df_off s = start_of att aligned (df_off s)) as Es by (unfold start_of; by destruct aligned). rewrite <- Es.
           eexists _, _. split_and!; [done|by eapply cache_insert|done].
        -- destruct (Hpeek Hv) as (b & -> & He). cbn [mbind outcome_bind]. rewrite He. by eexists _, _.
      * rewrite <- Hnom by done. eexists _, _. split_and!; [done|by eapply cache_insert|done].
Qed.

Lemma deform_step k att v s : cols !! k = Some (att, v) → deform_ok k s → ∃ s', deform_att hasnulls bits tp att k s = Ok s' ∧ deform_ok (S k) s'.
Proof.
  intros Hc Hs. unfold deform_att. rewrite (Hnulls k _ Hc). cbn [mbind outcome_bind]. pose proof (layout_take flatten cols k _ Hc) as Hl.
  assert (kept <$> take (S k) cols = (kept <$> take k cols) ++ [kept (att, v)]) as Hval by (by rewrite (take_S_r cols k _ Hc), fmap_app).
  destruct v as [d|]; cbn [isnull_col snd].
  - assert (value_ok flatten att d) as Hd by (by apply (Forall_lookup_1 _ _ _ _ Hcols Hc)). destruct (store_ok flatten att d Hd) as (aligned & bs & flags & Hst).
    destruct (align_step k att d s aligned bs flags Hc Hs Hst) as (slow & cache & E & Hcache & Hslow). destruct Hs as [Hoff Hv _ Hfast]. rewrite E. cbn [mbind outcome_bind].
    destruct (stored_lay flatten att d aligned bs flags (df_off s) Hst) as (_ & Hlay & Hend). destruct Hst as (_ & Ho & _ & _).
    assert (∃ rest, drop (Z.to_nat (start_of att aligned (df_off s))) tp = bs ++ rest) as [rest ->].
    { pose proof (start_ge att aligned (df_off s)). rewrite (tp_at k att d Hc), <- Hoff, Hlay. rewrite <- !app_assoc, app_assoc. eexists. rewrite drop_app_length'; [done|].
      rewrite length_app. apply Nat2Z.inj. rewrite Nat2Z.inj_add, zeros_length by lia. lia. }
    rewrite (ob_fetch _ _ _ _ Ho). cbn [mbind outcome_bind]. rewrite (ob_length _ _ _ _ Ho). cbn [mbind outcome_bind]. eexists. split; [done|].
    assert (start_of att aligned (df_off s) + Z.of_nat (length bs) = Z.of_nat (length (layout flatten (take (S k) cols) 0))) as Hlen.
    { rewrite <- Hend, Hl, length_app, <- Hoff. cbn [layout]. rewrite app_nil_r. lia. }
    split; cbn [df_off df_values df_cache df_slow].
    + done.
    + by rewrite Hv, Hval.
    + done.
    + intros [Hs Hle%Z.leb_gt]%orb_false_elim. assert (Z.of_nat (length bs) = attlen att) as ->.
      { pose proof (ob_length _ _ _ _ Ho []) as L. unfold att_length in L. rewrite (proj2 (Z.ltb_lt _ _) Hle) in L. by injection L. }
      rewrite (ob_fixed _ _ _ _ Ho Hle). eapply pre_off_S; [by apply Hfast, Hslow|by eapply desc_lookup|done].
  - destruct Hs as [Hoff Hv Hcache _]. eexists. split; [done|]. split; cbn [df_off df_values df_cache df_slow]; [|by rewrite Hv, Hval|done|done].
    rewrite Hl. cbn. by rewrite app_nil_r.
Qed.

Lemma deform_ok_loop n : ∀ k s, (k + n ≤ length cols)%nat → deform_ok k s →
  ∃ s', deform_loop hasnulls bits tp (take n (drop k desc)) k s = Ok s' ∧ deform_ok (k + n) s'.
Proof.
  induction n as [|n IH]; intros k s Hk Hs.
  - exists s. rewrite take_0, Nat.add_0_r. done.
  - destruct (lookup_lt_is_Some_2 cols k ltac:(lia)) as [[att v] Hc]. rewrite (drop_S desc att k) by (by eapply desc_lookup). cbn [take deform_loop].
    destruct (deform_step k att v s Hc Hs) as (s1 & E & Hs1). rewrite E. cbn [mbind outcome_bind].
    destruct (IH (S k) s1 ltac:(lia) Hs1) as (s2 & E2 & Hs2). exists s2. split; [done|]. by rewrite Nat.add_succ_r.
Qed.

Lemma deform_start cache : offsets_ok desc cache → deform_ok 0 (mkDeform 0 false cache []).
Proof. intros Hc. by split. Qed.
End Deform.

(** ** Whole tuples *)

Lemma land_pow2_zero b n : 0 ≤ n → (Z.land b (2 ^ n) =? 0) = negb (Z.testbit b n).
Proof.
  intros Hn. destruct (Z.testbit b n) eqn:Hb; cbn.
  - apply Z.eqb_neq. intros E. assert (Z.testbit (Z.land b (2 ^ n)) n = true) as Ht by (by rewrite Z.land_spec, Hb, Z.pow2_bits_true by lia).
    by rewrite E, Z.testbit_0_l in Ht.
  - apply Z.eqb_eq, Z.bits_inj'. intros i Hi. rewrite Z.land_spec, Z.testbit_0_l, Z.pow2_bits_eqb by lia.
    destruct (Z.eqb_spec n i) as [->|]; [by rewrite Hb|apply andb_false_r].
Qed.

Section Tuples.
Context (flatten : list Z → list Z) (cols : list (attribute * option tdatum)) (Hcols : cols_ok flatten cols).
Context (Hnatts : Z.of_nat (length cols) ≤ MaxTupleAttributeNumber).
Let desc := cols.*1.
Let natts := Z.of_nat (length cols).
Let hasnull := existsb isnull_col cols.
Let bitmap := if hasnull then BITMAPLEN natts else 0.
Let hoff := MAXALIGN (23 + bitmap).

(** the bytes of the tuple, from [t_infomask2] on *)
Definition tuple_image (infomask : Z) (bits : list Z) : list Z :=
  le_bytes 2 natts ++ le_bytes 2 infomask ++ [hoff mod 256] ++ bits ++ zeros (hoff - 23 - bitmap) ++ layout flatten cols 0.

Record image_ok (infomask : Z) (bits : list Z) : Prop := {
  im_mask : infomask_ok hasnull infomask;
  im_length : Z.of_nat (length bits) = bitmap;
  im_bits : hasnull = true → bits_ok (nonnull cols) natts bits
}.

Lemma bitmap_bound : 0 ≤ bitmap ≤ 208.
Proof.
  unfold bitmap, BITMAPLEN. destruct hasnull; [|lia]. unfold MaxTupleAttributeNumber in Hnatts.
  pose proof (Z.div_pos (natts + 7) 8 ltac:(lia) ltac:(lia)). pose proof (Z.div_le_mono (natts + 7) (1664 + 7) 8 ltac:(lia) ltac:(lia)) as Hd.
  change ((1664 + 7) / 8) with 208 in Hd. lia.
Qed.

Lemma hoff_bound : 23 + bitmap ≤ hoff ≤ 232.
Proof.
  pose proof bitmap_bound. unfold hoff, MAXALIGN, TYPEALIGN. pose proof (Z.div_mod (23 + bitmap + (8 - 1)) 8 ltac:(lia)).
  pose proof (Z.mod_pos_bound (23 + bitmap + (8 - 1)) 8 ltac:(lia)). pose proof (Z.div_le_mono (23 + bitmap + (8 - 1)) 239 8 ltac:(lia) ltac:(lia)) as Hd.
  change (239 / 8) with 29 in Hd. lia.
Qed.

Lemma minimal_hoff : MAXALIGN (15 + bitmap) + 8 = hoff.
Proof.
  unfold hoff, MAXALIGN, TYPEALIGN. replace (23 + bitmap + (8 - 1)) with (15 + bitmap + (8 - 1) + 1 * 8) by lia. rewrite Z.div_add by lia. lia.
Qed.

(** both kinds of tuple have the same bytes *)
Lemma form_image :
  Z.of_nat (length (layout flatten cols 0)) ≤ MaxAllocSize - 256 →
  ∃ infomask bits, image_ok infomask bits ∧ heap_form_minimal_tuple flatten cols = Ok (tuple_image infomask bits)
    ∧ heap_form_tuple flatten cols = Ok (tuple_image infomask bits).
Proof.
  intros Hsize. destruct (fill_all flatten cols Hcols (length cols) 0 _ eq_refl (fill_start flatten cols Hcols)) as (s & Hfill & [Hoff Harea Hbits Hmask]).
  rewrite firstn_all in *. set (bits := match fl_bits s with Some (bits, _, _) => bits | None => [] end).
  exists (fl_infomask s), bits. rewrite Hoff, Z.sub_diag in Harea. rewrite app_nil_r in Harea. pose proof hoff_bound as Hb. pose proof minimal_hoff as Hm.
  split; [split; [done| |]|].
  - unfold bits, bitmap, hasnull. destruct (existsb isnull_col cols); [destruct Hbits as (b & -> & -> & _)|by rewrite Hbits]. unfold natts.
    rewrite Z2Nat.id; [done|]. unfold BITMAPLEN. apply Z.div_pos; lia.
  - unfold hasnull, bits. intros Hn. rewrite Hn in Hbits. by destruct Hbits as (b & -> & _ & ?).
  - assert (∀ header before extra, MAXALIGN (header + bitmap) + extra = hoff → hoff - 23 = MAXALIGN (header + bitmap) - header → before ≤ 24 → 0 ≤ extra →
              form_tuple flatten header before extra cols = Ok (tuple_image (fl_infomask s) bits)) as Hform.
    { intros header before extra H1 H2 H3 H4. unfold form_tuple. rewrite (proj2 (Z.ltb_ge _ _) Hnatts).
      change (existsb _ cols) with hasnull. change (if hasnull then BITMAPLEN _ else 0) with bitmap. rewrite compute_layout by done. cbn [mbind outcome_bind].
      unfold palloc0. rewrite (proj2 (Z.leb_le _ _)) by lia. cbn [mbind outcome_bind]. rewrite Z.add_0_l.
      assert ((if hasnull then Some (zeros bitmap, -1, HIGHBIT) else None) = (if hasnull then Some (zeros (BITMAPLEN natts), -1, HIGHBIT) else None)) as ->.
      { unfold bitmap. by destruct hasnull. }
      rewrite drop_0 in Hfill. unfold hasnull, natts. rewrite Hfill. cbn [mbind outcome_bind]. fold bits. unfold tuple_image. rewrite H1, H2, Harea. done. }
    split; apply Hform; lia.
Qed.

Lemma infomask_small anynull i : infomask_ok anynull i → 0 ≤ i < 8.
Proof. intros [Hi _]. rewrite !elem_of_cons, elem_of_nil in Hi. lia. Qed.

Section Image.
Context (infomask : Z) (bits : list Z) (Him : image_ok infomask bits).
Let tup := tuple_image infomask bits.

Lemma image_natts : HeapTupleHeaderGetNatts tup = Ok natts.
Proof.
  unfold HeapTupleHeaderGetNatts, t_infomask2, tup, tuple_image. rewrite peek_app by (by rewrite length_le_bytes). cbn [mbind outcome_bind]. f_equal.
  rewrite le_value_bytes. unfold MaxTupleAttributeNumber in Hnatts. rewrite Z.mod_small by lia. change HEAP_NATTS_MASK with (Z.ones 11).
  rewrite Z.land_ones by lia. apply Z.mod_small. lia.
Qed.

Lemma image_hasnulls : HeapTupleHasNulls tup = Ok hasnull.
Proof.
  destruct Him as [Hm _ _]. pose proof (infomask_small _ _ Hm). unfold HeapTupleHasNulls, t_infomask, tup, tuple_image.
  rewrite (peek_mid (le_bytes 2 natts) (le_bytes 2 infomask)) by (by rewrite length_le_bytes). cbn [mbind outcome_bind]. f_equal.
  rewrite le_value_bytes, Z.mod_small by lia. destruct Hm as [_ ->]. apply negb_involutive.
Qed.

Lemma image_data : tuple_data tup = Ok (layout flatten cols 0).
Proof.
  destruct Him as [_ Hl _]. pose proof hoff_bound as Hb. pose proof bitmap_bound as Hp. unfold tuple_data, t_hoff, tup, tuple_image.
  rewrite (app_assoc (le_bytes 2 natts)). cbn [app]. rewrite peek_byte_mid by (by rewrite length_app, !length_le_bytes). cbn [mbind outcome_bind].
  rewrite Z.mod_small by lia. f_equal. rewrite (app_assoc bits), app_comm_cons, app_assoc. apply drop_app_length'.
  rewrite !length_app, !length_le_bytes. cbn [length]. rewrite length_app. unfold zeros. rewrite length_replicate. lia.
Qed.

Lemma image_nulls k c : cols !! k = Some c → (if hasnull then att_isnull (Z.of_nat k) (tuple_bits tup) else Ok false) = Ok (isnull_col c).
Proof.
  intros Hc. destruct (sumbool_of_bool hasnull) as [Hn|Hn]; rewrite Hn.
  - destruct Him as [_ Hl Hbits]. destruct (Hbits Hn) as [Hset _]. pose proof (lookup_lt_Some _ _ _ Hc) as Hk.
    assert (Z.of_nat k / 8 < Z.of_nat (length bits)) as Hb.
    { rewrite Hl. unfold bitmap. rewrite Hn. unfold BITMAPLEN. pose proof (Z.div_le_mono (Z.of_nat k + 1 * 8) (natts + 7) 8 ltac:(lia) ltac:(lia)) as Hd.
      rewrite Z.div_add in Hd by lia. lia. }
    pose proof (Z.div_pos (Z.of_nat k) 8 ltac:(lia) ltac:(lia)) as Hp. unfold att_isnull. rewrite Z.shiftr_div_pow2 by lia. change (2 ^ 3) with 8.
    change (tuple_bits tup) with (bits ++ zeros (hoff - 23 - bitmap) ++ layout flatten cols 0).
    rewrite (peek_byte_more _ _ _ _ (peek_byte_lookup bits (Z.of_nat k / 8) ltac:(lia))). cbn [mbind outcome_bind]. f_equal.
    change 7 with (Z.ones 3). rewrite Z.land_ones, Z.shiftl_1_l by lia. change (2 ^ 3) with 8.
    specialize (Hset (Z.of_nat k) ltac:(lia)). unfold bit_at, nonnull in Hset. rewrite Nat2Z.id, Hc in Hset.
    pose proof (Z.mod_pos_bound (Z.of_nat k) 8 ltac:(lia)) as Hm. rewrite land_pow2_zero by lia. rewrite Hset. by destruct c as [att [d|]].
  - destruct (isnull_col c) eqn:E; [|done]. assert (hasnull = true) as H; [|by rewrite Hn in H]. apply existsb_exists. exists c.
    split; [|done]. apply list_elem_of_In. by eapply list_elem_of_lookup_2.
Qed.

Lemma length_desc : length desc = length cols.
Proof. apply length_fmap. Qed.

Lemma deform_image cache :
  offsets_ok desc cache → ∃ cache', heap_deform_tuple tup desc cache = Ok (kept flatten <$> cols, cache') ∧ offsets_ok desc cache'.
Proof.
  intros Hc. destruct (deform_ok_loop flatten cols Hcols hasnull (tuple_bits tup) image_nulls (length cols) 0 _ (Nat.le_refl _) (deform_start flatten cols cache Hc)) as (s & E & [_ Hv Hs _]).
  unfold heap_deform_tuple. rewrite image_hasnulls, image_natts. cbn [mbind outcome_bind]. rewrite image_data. cbn [mbind outcome_bind].
  rewrite length_desc, Z.min_id, Nat2Z.id. rewrite drop_0 in E. fold desc in E. rewrite E. cbn [mbind outcome_bind]. exists (df_cache s).
  rewrite Hv. cbn [Nat.add]. rewrite firstn_all, drop_ge by (by rewrite length_desc). by rewrite app_nil_r.
Qed.

(** a slot that has taken apart the first [k] columns; the cache may have been
    changed since by other tuples *)
Definition slot_ok (k : nat) (slot : slot_state) : Prop :=
  tts_tuple slot = tup ∧ ∀ cache, offsets_ok desc cache → deform_ok flatten cols k (mkDeform (tts_off slot) (tts_slow slot) cache (tts_values slot)).

Lemma slot_start : slot_ok 0 (tts_minimal_store_tuple tup).
Proof. split; [done|]. intros cache Hc. by apply deform_start. Qed.

Lemma slot_step j k slot cache :
  (j ≤ k ≤ length cols)%nat → slot_ok j slot → offsets_ok desc cache →
  ∃ slot' cache', slot_getsomeattrs desc k slot cache = Ok (slot', cache') ∧ slot_ok k slot' ∧ offsets_ok desc cache'
    ∧ tts_values slot' = take k (kept flatten <$> cols).
Proof.
  intros Hjk [Ht Hslot] Hc. pose proof (Hslot cache Hc) as Hj. pose proof (do_values _ _ _ _ Hj) as Hv. cbn in Hv.
  assert (length (tts_values slot) = j) as Hlen by (rewrite Hv, length_fmap, length_take; lia). unfold slot_getsomeattrs. rewrite Hlen.
  destruct (Nat.leb_spec k j) as [Hle|Hgt].
  - assert (k = j) as -> by lia. exists slot, cache. split_and!; [done|by split|done|by rewrite Hv, fmap_take].
  - rewrite (proj2 (Nat.ltb_ge _ _)) by (rewrite length_desc; lia).
    unfold slot_deform_heap_tuple. rewrite Ht, image_hasnulls, image_natts. cbn [mbind outcome_bind]. rewrite image_data. cbn [mbind outcome_bind].
    rewrite Z.min_r, Nat2Z.id, Hlen by lia. set (start := if (j =? 0)%nat then _ else _).
    assert (deform_ok flatten cols j (mkDeform start.1 start.2 cache (tts_values slot))) as Hst.
    { unfold start. destruct (Nat.eqb_spec j 0) as [->|]; [|done]. rewrite Hv, take_0. by apply deform_start. }
    destruct (deform_ok_loop flatten cols Hcols hasnull (tuple_bits tup) image_nulls (k - j) j _ ltac:(lia) Hst) as (s & E & Hs).
    replace (j + (k - j))%nat with k in Hs by lia. fold desc in E. rewrite take_drop_commute in E. replace (j + (k - j))%nat with k in E by lia.
    rewrite E. cbn [mbind outcome_bind fst snd tts_values tts_off tts_slow]. destruct Hs as [Ho Hvs Hcs Hfs].
    assert (length (df_values s) = k) as Hls by (rewrite Hvs, length_fmap, length_take; lia).
    rewrite drop_ge by (rewrite length_take; lia). cbn [fmap list_fmap]. rewrite app_nil_r. eexists _, _. split; [done|]. split_and!; [|done|by rewrite <- fmap_take].
    split; [done|]. intros cache' Hc'. by split.
Qed.
End Image.
End Tuples.

(** C14. A tuple keeps its columns. For at most 1664 columns whose values belong to
    the types of the columns, and whose data, with 256 bytes for the header, are
    within the limit of an allocation, forming a MinimalTuple and forming a
    HeapTuple succeed and give the same bytes from [t_infomask2] on. Taking these
    apart gives every column back, NULLs included: values passed by value as they
    were, other objects byte for byte, except that expanded objects are flat and
    values that fit a header of one byte have one. This holds with whatever correct
    offsets other tuples have left in the cache of the descriptor, which stays
    correct. A slot that is asked for some columns and later for all of them, with
    other tuples being taken apart in between, gives the same values. *)
Theorem tuple_roundtrip flatten cols size :
  cols_ok flatten cols → Z.of_nat (length cols) ≤ MaxTupleAttributeNumber →
  heap_compute_data_size flatten cols 0 = Ok size → size ≤ MaxAllocSize - 256 →
  let desc := cols.*1 in
  let values := kept flatten <$> cols in
  ∃ tup, heap_form_minimal_tuple flatten cols = Ok tup ∧ heap_form_tuple flatten cols = Ok tup
    ∧ (∀ cache, offsets_ok desc cache → ∃ cache', heap_deform_tuple tup desc cache = Ok (values, cache') ∧ offsets_ok desc cache')
    ∧ ∀ k cache, (k ≤ length cols)%nat → offsets_ok desc cache →
      ∃ slot cache1, slot_getsomeattrs desc k (tts_minimal_store_tuple tup) cache = Ok (slot, cache1)
        ∧ tts_values slot = take k values ∧ offsets_ok desc cache1
        ∧ ∀ cache2, offsets_ok desc cache2 →
          ∃ slot' cache3, slot_getallattrs desc slot cache2 = Ok (slot', cache3) ∧ tts_values slot' = values ∧ offsets_ok desc cache3.
Proof.
  intros Hcols Hnatts Hsize Hle desc values. rewrite compute_layout in Hsize by done. injection Hsize as <-.
  destruct (form_image flatten cols Hcols Hnatts ltac:(lia)) as (infomask & bits & Him & Hmin & Hheap).
  exists (tuple_image flatten cols infomask bits). split_and!; [done|done|intros cache Hc; by apply deform_image|]. intros k cache Hk Hc.
  destruct (slot_step flatten cols Hcols Hnatts infomask bits Him 0 k _ cache ltac:(lia) (slot_start flatten cols infomask bits) Hc) as (slot & cache1 & E & Hslot & Hc1 & Hv).
  exists slot, cache1. split_and!; [done|done|done|]. intros cache2 Hc2.
  destruct (slot_step flatten cols Hcols Hnatts infomask bits Him k (length cols) slot cache2 ltac:(lia) Hslot Hc2) as (slot' & cache3 & E' & _ & Hc3 & Hv').
  exists slot', cache3. split_and!; [unfold slot_getallattrs, desc; by rewrite length_fmap| |done]. rewrite Hv'. apply take_ge. unfold values. by rewrite length_fmap.
Qed.

(** an int4, a text that is NULL, a text with a long header, a float8 *)
Definition example_columns : list (attribute * option tdatum) :=
  [(mkAttribute 4 true TYPALIGN_INT true None, Some (TByVal 7));
   (mkAttribute (-1) false TYPALIGN_INT false None, None);
   (mkAttribute (-1) false TYPALIGN_INT false None, Some (TPtr [28; 0; 0; 0; 97; 98; 99]));
   (mkAttribute 8 true TYPALIGN_DOUBLE true None, Some (TByVal 4607182418800017408))].

Lemma tuple_roundtrip_witness :
  let cache := [-1; -1; -1; -1] in
  let values := [Some (TByVal 7); None; Some (TPtr [9; 97; 98; 99]); Some (TByVal 4607182418800017408)] in
  ∃ tup, heap_form_minimal_tuple (fun m => m) example_columns = Ok tup ∧ ∃ cache', heap_deform_tuple tup (example_columns.*1) cache = Ok (values, cache').
Proof.
  destruct (tuple_roundtrip (fun m => m) example_columns 16) as (tup & Hm & _ & Hd & _).
  - repeat constructor; try done; try (vm_compute; set_solver).
  - vm_compute. discriminate.
  - reflexivity.
  - vm_compute. discriminate.
  - exists tup. split; [exact Hm|]. destruct (Hd _ (cache_fresh _)) as (cache' & E & _). exists cache'. exact E.
Defined.
