(* ===== verification/ApplyPw.v ===== *)
(** * Application of lambdas on parallel workers

    [ext/apply_mt_pw_ext.c]: the leader packs the serialized lambdas into
    shared memory, launches the workers, copies the rows while they compile,
    publishes them, and waits.  The workers claim jobs, a lambda and a range of
    rows each, from one atomic counter, and write finished results (or, for the
    average, one sum per job) into shared memory.

    Leader and workers are processes; a run is an interleaving of their steps.
    A worker's step is one access to the shared state together with the local
    work around it.  The condition variable is modelled by its wait list
    ([backend/storage/lmgr/condition_variable.c]): who prepares to sleep is on
    the list, a broadcast takes everybody off it, and a sleeper wakes up when it
    is off the list.

    Compiling and evaluating a lambda, and the arithmetic of float8, are
    parameters; a float8 is a Datum, that is, its bits.  The compiled function
    of the fast modes, [eval_fast], is total: a run in which it raises an error
    is not modelled. *)

From S2P Require Import Prelude Bitmapset Nodes NodesFacts Serialize ApplyMt.

Definition APPLY_PW_CHECKED : Z := 0.
Definition APPLY_PW_FAST : Z := 1.
Definition APPLY_PW_FAST_TUPLE : Z := 2.

(** ** Memory images *)

Definition byte_of (z : Z) : ascii := ch (Z.land z 255).

(** a 32-bit integer, least significant byte first *)
Definition store32 (z : Z) : list ascii :=
  [byte_of z; byte_of (Z.shiftr z 8); byte_of (Z.shiftr z 16); byte_of (Z.shiftr z 24)].

Definition load32 (p : list ascii) : outcome Z :=
  match p with
  | b0 :: b1 :: b2 :: b3 :: _ => Ok (code b0 + 2 ^ 8 * code b1 + 2 ^ 16 * code b2 + 2 ^ 24 * code b3)
  | _ => UB
  end.

Definition VARSIZE (p : list ascii) : outcome Z :=
  va_header ← load32 p;
  Ok (Z.land (Z.shiftr va_header 2) 0x3FFFFFFF).

(** the bytes of a serialized lambda; its length is the [SET_VARSIZE] header *)
Definition lambda_image (sl : SerializedLambda) : list ascii :=
  store32 (uint32 (Z.shiftl (SIZEOF_SERIALIZED_LAMBDA + Z.of_nat (length (sl_data sl))) 2))
  ++ store32 (sl_nargs sl) ++ store32 (sl_magic sl) ++ sl_data sl.

(** a pointer to such bytes read as a [SerializedLambda] *)
Definition image_lambda (p : list ascii) : outcome SerializedLambda :=
  nargs ← load32 (drop 4 p);
  magic ← load32 (drop 8 p);
  Ok (mkSerializedLambda (int32 nargs) magic (drop 12 p)).

(** [memcpy] into a region; outside of it it is undefined *)
Definition memcpy_at {A} (region : list A) (off : Z) (src : list A) : outcome (list A) :=
  if (0 <=? off) && (off + Z.of_nat (length src) <=? Z.of_nat (length region))
  then Ok (take (Z.to_nat off) region ++ src ++ drop (Z.to_nat off + length src) region)
  else UB.

(** ** The pack of lambdas *)

Record LambdaPack := mkPack {
  lp_num_lambdas : Z;
  lp_total_blob_size : Z;
  lp_offsets : list Z;
  lp_blob : list ascii
}.

(** the loop that fills offsets and blob; both counters are 32-bit *)
Fixpoint pack_loop (cur_off : Z) (serialized : list (list ascii)) (blob : list ascii)
    : outcome (list Z * list ascii) :=
  match serialized with
  | [] => Ok ([], blob)
  | s :: serialized =>
      size ← VARSIZE s;
      let sz := uint32 size in
      blob ← memcpy_at blob cur_off (take (Z.to_nat sz) s);
      r ← pack_loop (uint32 (cur_off + sz)) serialized blob;
      Ok (cur_off :: r.1, r.2)
  end.

Fixpoint blob_size (serialized : list (list ascii)) : outcome Z :=
  match serialized with
  | [] => Ok 0
  | s :: serialized => size ← VARSIZE s; rest ← blob_size serialized; Ok (size + rest)
  end.

(** the pack, in shared memory of the size that was estimated for it *)
Definition build_pack (serialized : list (list ascii)) : outcome LambdaPack :=
  total ← blob_size serialized;
  r ← pack_loop 0 serialized (repeat NUL (Z.to_nat total));
  Ok (mkPack (Z.of_nat (length serialized)) (uint32 total) r.1 r.2).

(** a worker's private copy of lambda [l] *)
Definition pack_lambda (pack : LambdaPack) (l : Z) : outcome SerializedLambda :=
  off ← deref (lp_offsets pack !! Z.to_nat l);
  let ser_shm := drop (Z.to_nat off) (lp_blob pack) in
  size ← VARSIZE ser_shm;
  if size <=? Z.of_nat (length ser_shm) then image_lambda (take (Z.to_nat size) ser_shm) else UB.

(** ** Jobs *)

Record PwJob := mkPwJob { pj_lambda : Z; pj_start : Z; pj_end : Z }.

Definition chunks_per_lambda (mode nworkers num_lambdas num_tuples : Z) : outcome Z :=
  c ← (if (mode =? APPLY_PW_CHECKED) && (0 <? num_lambdas) && (num_lambdas <? nworkers)
       then s ← int_add nworkers num_lambdas; Ok (Z.quot (s - 1) num_lambdas)
       else Ok 1);
  let c := if num_tuples <? c then num_tuples else c in
  Ok (if c <? 1 then 1 else c).

Definition pw_jobs (chunks num_lambdas num_tuples : Z) : list PwJob :=
  concat ((fun l => (fun c => mkPwJob l (uint64 (num_tuples * c) / chunks) (uint64 (num_tuples * (c + 1)) / chunks))
                      <$> seqZ 0 chunks) <$> seqZ 0 num_lambdas).

(** ** Shared state *)

(** [ApplyPwHeader] without the counters, and the regions that do not change *)
Record pw_config := mkPwConfig {
  pw_mode : Z;
  pw_agg : bool;
  pw_flat : bool;                     (** [tup_len] is not 0 *)
  pw_num_cols : Z;
  pw_num_tuples : Z;
  pw_num_lambdas : Z;
  pw_job_array : list PwJob;
  pw_pack : LambdaPack
}.

(** the counters, and the regions that leader and workers write.  [sh_out] is
    the output region: the sum of a job, a finished tuple, or a result *)
Record pw_shared := mkShared {
  next_job : Z;
  data_ready : bool;
  sh_data : list Z;
  sh_out : list (list Z)
}.

Class PwParams (C : Type) := {
  (** [ExecInitLambdaExpr], and the JIT for the fast modes *)
  pw_compile : Z → LambdaExpr → pg_error + C;
  (** the checked evaluation of a row tuple *)
  eval_checked : C → list Z → pg_error + Z;
  (** the compiled function on a pointer to the first column *)
  eval_fast : C → list Z → Z;
  float8_pl : Z → Z → Z;
  (** division by an int64 *)
  float8_div_int : Z → Z → Z
}.

(** ** Workers *)

Section Workers.
Context `{NIO : NodeIO} `{PP : PwParams C} (cfg : pw_config).

(** where a worker is; the numbers are the job, the row, the sum so far *)
Inductive worker_pc :=
| WClaim
| WCompile (job_id : Z)
| WReady (job_id : Z)
| WWait (job_id : Z)
| WSleep (job_id : Z)
| WRow (job_id i sum : Z)
| WFinish (job_id sum : Z)
| WExit
| WError (job_id : Z) (e : pg_error)
| WUndefined.

Record pw_worker := mkWorker {
  ww_pc : worker_pc;
  ww_lambdas : list (option C);       (** compiled bodies, NULL at first *)
  have_data : bool;
  ww_listed : bool                    (** on the wait list of [data_cv] *)
}.

Definition set_pc (w : pw_worker) (pc : worker_pc) : pw_worker :=
  mkWorker pc (ww_lambdas w) (have_data w) (ww_listed w).

(** deserialize and compile lambda [l] *)
Definition compile_lambda (l : Z) : outcome (pg_error + C) :=
  ser ← pack_lambda (pw_pack cfg) l;
  le ← lambda_deserialize ser;
  le ← deref le;
  Ok (pw_compile (pw_mode cfg) le).

(** the first job on a lambda *)
Definition worker_compile (w : pw_worker) (job_id : Z) : pw_worker :=
  match pw_job_array cfg !! Z.to_nat job_id with
  | None => set_pc w WUndefined
  | Some job =>
      match ww_lambdas w !! Z.to_nat (pj_lambda job) with
      | None => set_pc w WUndefined
      | Some (Some _) => set_pc w (WReady job_id)
      | Some None =>
          match compile_lambda (pj_lambda job) with
          | Ok (inr c) =>
              mkWorker (WReady job_id) (<[Z.to_nat (pj_lambda job) := Some c]> (ww_lambdas w)) (have_data w) (ww_listed w)
          | Ok (inl e) | Err e => set_pc w (WError job_id e)
          | _ => set_pc w WUndefined
          end
      end
  end.

(** before the first row of job [job_id] *)
Definition start_rows (w : pw_worker) (job_id : Z) : pw_worker :=
  match pw_job_array cfg !! Z.to_nat job_id with
  | None => set_pc w WUndefined
  | Some job => mkWorker (WRow job_id (pj_start job) 0) (ww_lambdas w) true false
  end.

(** the value of a compiled lambda on the row that starts at [row_in] *)
Definition eval_row (c : C) (row_in : list Z) : pg_error + Z :=
  if pw_mode cfg =? APPLY_PW_CHECKED then eval_checked c (take (Z.to_nat (pw_num_cols cfg)) row_in)
  else inr (eval_fast c row_in).

(** a store into the output region; outside of it it is undefined *)
Definition store_out (s : pw_shared) (slot : Z) (v : list Z) : option pw_shared :=
  if (0 <=? slot) && (slot <? Z.of_nat (length (sh_out s)))
  then Some (mkShared (next_job s) (data_ready s) (sh_data s) (<[Z.to_nat slot := v]> (sh_out s)))
  else None.

(** one iteration of the loop over the rows *)
Definition worker_row (s : pw_shared) (w : pw_worker) (job_id i sum : Z) : pw_shared * pw_worker :=
  match pw_job_array cfg !! Z.to_nat job_id with
  | None => (s, set_pc w WUndefined)
  | Some job =>
      if (i <? pj_end job) && (i <? pw_num_tuples cfg) then
        let row_in := drop (Z.to_nat (uint64 (i * pw_num_cols cfg))) (sh_data s) in
        match ww_lambdas w !! Z.to_nat (pj_lambda job) with
        | Some (Some c) =>
            match eval_row c row_in with
            | inl e => (s, set_pc w (WError job_id e))
            | inr result =>
                if pw_agg cfg then (s, set_pc w (WRow job_id (i + 1) (float8_pl sum result)))
                else
                  let slot := uint64 (uint64 (pj_lambda job * pw_num_tuples cfg) + i) in
                  let v := if pw_flat cfg then take (Z.to_nat (pw_num_cols cfg)) row_in ++ [result] else [result] in
                  match store_out s slot v with
                  | Some s => (s, set_pc w (WRow job_id (i + 1) sum))
                  | None => (s, set_pc w WUndefined)
                  end
            end
        | _ => (s, set_pc w WUndefined)
        end
      else (s, set_pc w (WFinish job_id sum))
  end.

(** the next step of a worker, if it has one *)
Definition worker_step (s : pw_shared) (w : pw_worker) : option (pw_shared * pw_worker) :=
  match ww_pc w with
  | WClaim =>
      let job_id := next_job s in
      let s := mkShared (uint32 (next_job s + 1)) (data_ready s) (sh_data s) (sh_out s) in
      Some (s, set_pc w (if Z.of_nat (length (pw_job_array cfg)) <=? job_id then WExit else WCompile job_id))
  | WCompile job_id => Some (s, worker_compile w job_id)
  | WReady job_id =>
      if have_data w || data_ready s then Some (s, start_rows w job_id)
      else Some (s, mkWorker (WWait job_id) (ww_lambdas w) (have_data w) true)
  | WWait job_id => Some (s, if data_ready s then start_rows w job_id else set_pc w (WSleep job_id))
  | WSleep job_id =>
      if ww_listed w then None else Some (s, mkWorker (WWait job_id) (ww_lambdas w) (have_data w) true)
  | WRow job_id i sum => Some (worker_row s w job_id i sum)
  | WFinish job_id sum =>
      if pw_agg cfg then
        match store_out s job_id [sum] with
        | Some s => Some (s, set_pc w WClaim)
        | None => Some (s, set_pc w WUndefined)
        end
      else Some (s, set_pc w WClaim)
  | WExit | WError _ _ | WUndefined => None
  end.

Definition new_worker : pw_worker :=
  mkWorker WClaim (repeat None (Z.to_nat (pw_num_lambdas cfg))) false false.
End Workers.
Arguments pw_worker C : clear implicits.

(** ** The leader *)

Inductive leader_pc :=
| LCopy (idx_tup : Z) (rest : list (list (option Z)))
| LPublish
| LBroadcast
| LWaitWorkers
| LDone
| LError (e : pg_error)
| LUndefined.

(** the workers run until the leader is done or raises an error *)
Definition running (l : leader_pc) : Prop :=
  match l with LDone | LError _ | LUndefined => False | _ => True end.

Record pw_state (C : Type) := mkPwState {
  ps_shared : pw_shared;
  ps_leader : leader_pc;
  ps_workers : list (pw_worker C)
}.
Arguments mkPwState {C}.
Arguments ps_shared {C}.
Arguments ps_leader {C}.
Arguments ps_workers {C}.

(** the first column that is NULL *)
Fixpoint null_column (attnames : list cstr) (row : list (option Z)) : option cstr :=
  match attnames, row with
  | name :: attnames, v :: row => match v with None => Some name | Some _ => null_column attnames row end
  | _, _ => None
  end.

Definition null_error (attname : cstr) : pg_error :=
  PgError ERRCODE_NULL_VALUE_NOT_ALLOWED
    (lit "apply_mt_pw: data column " ++ [ch 34] ++ attname ++ [ch 34] ++ lit " contains a NULL").

(** copy one tuple into the data region *)
Definition copy_row (cols : Z) (s : pw_shared) (idx_tup : Z) (row : list (option Z)) : outcome pw_shared :=
  data ← memcpy_at (sh_data s) (uint64 (idx_tup * cols)) (take (Z.to_nat cols) (default 0 <$> row));
  Ok (mkShared (next_job s) (data_ready s) data (sh_out s)).

Section Leader.
Context `{NIO : NodeIO} `{PP : PwParams C} (cfg : pw_config) (attnames : list cstr).

(** taken off the wait list *)
Definition signal_worker (w : pw_worker C) : pw_worker C := mkWorker (ww_pc w) (ww_lambdas w) (have_data w) false.

(** one step of the leader or of a worker *)
Inductive pw_step : pw_state C → pw_state C → Prop :=
| step_copy s ws idx row rest s' :
    null_column attnames row = None → copy_row (pw_num_cols cfg) s idx row = Ok s' →
    pw_step (mkPwState s (LCopy idx (row :: rest)) ws) (mkPwState s' (LCopy (idx + 1) rest) ws)
| step_copy_null s ws idx row rest name :
    null_column attnames row = Some name →
    pw_step (mkPwState s (LCopy idx (row :: rest)) ws) (mkPwState s (LError (null_error name)) ws)
| step_copy_undefined s ws idx row rest :
    null_column attnames row = None → copy_row (pw_num_cols cfg) s idx row = UB →
    pw_step (mkPwState s (LCopy idx (row :: rest)) ws) (mkPwState s LUndefined ws)
| step_copied s ws idx :
    pw_step (mkPwState s (LCopy idx []) ws) (mkPwState s LPublish ws)
| step_publish s ws :
    pw_step (mkPwState s LPublish ws)
      (mkPwState (mkShared (next_job s) true (sh_data s) (sh_out s)) LBroadcast ws)
| step_broadcast s ws :
    pw_step (mkPwState s LBroadcast ws) (mkPwState s LWaitWorkers (signal_worker <$> ws))
| step_rethrow s ws w job_id e :
    w ∈ ws → ww_pc w = WError job_id e →
    pw_step (mkPwState s LWaitWorkers ws) (mkPwState s (LError e) ws)
| step_finished s ws :
    Forall (fun w => ww_pc w = WExit) ws →
    pw_step (mkPwState s LWaitWorkers ws) (mkPwState s LDone ws)
| step_worker s l ws k w s' w' :
    running l → ws !! k = Some w → worker_step cfg s w = Some (s', w') →
    pw_step (mkPwState s l ws) (mkPwState s' l (<[k := w']> ws)).

(** [k] steps *)
Inductive pw_steps : nat → pw_state C → pw_state C → Prop :=
| pw_steps_0 p : pw_steps 0 p p
| pw_steps_S k p q r : pw_steps k p q → pw_step q r → pw_steps (S k) p r.
End Leader.

(** ** [apply_mt_pw_internal] *)

(** what the function reads of a column *)
Record pw_column := mkColumn {
  attname : cstr;
  attbyval : bool;
  att8byte : bool                     (** 8 bytes long, aligned like a double *)
}.

(** the checks before anything is allocated *)
Definition pw_check (mode : Z) (jit_enabled : bool) (cols : list pw_column) (result : pw_column) : outcome unit :=
  if negb ((mode =? APPLY_PW_CHECKED) || (mode =? APPLY_PW_FAST) || (mode =? APPLY_PW_FAST_TUPLE)) then
    ereport ERRCODE_INVALID_PARAMETER_VALUE
      (lit "apply_mt_pw: mode must be 0 (checked), 1 (fast) or 2 (fast+tuple), got " ++ fmt_d mode)
  else if negb (mode =? APPLY_PW_CHECKED) && negb jit_enabled then
    ereport ERRCODE_FEATURE_NOT_SUPPORTED
      (lit "apply_mt_pw: mode " ++ fmt_d mode ++ lit " needs the fast-path JIT, but jit is off")
  else
    match list_find (fun c => attbyval c = false) cols with
    | Some (_, c) =>
        ereport ERRCODE_FEATURE_NOT_SUPPORTED
          (lit "apply_mt_pw: data column " ++ [ch 34] ++ attname c ++ [ch 34] ++ lit " is pass-by-reference")
    | None =>
        if attbyval result then Ok tt
        else ereport ERRCODE_FEATURE_NOT_SUPPORTED (lit "apply_mt_pw: lambda returns a pass-by-reference type")
    end.

(** all columns of the output are 8 bytes by value *)
Definition result_flat (agg : bool) (cols : list pw_column) (result : pw_column) : bool :=
  negb agg && forallb (fun c => attbyval c && att8byte c) (cols ++ [result]).

Section Internal.
Context `{NIO : NodeIO} `{PP : PwParams C}.

(** up to the launch: the number of workers asked for, and what they share;
    the lambdas are those after injection and folding.  Without data or without
    lambdas there is no segment, and nothing is packed *)
Definition pw_prepare (mode nworkers : Z) (agg jit_enabled : bool) (cols : list pw_column) (result : pw_column)
    (num_rows : Z) (lambdas : list LambdaExpr) : outcome (Z * pw_config) :=
  _ ← pw_check mode jit_enabled cols result;
  let num_tuples := int32 num_rows in
  let num_lambdas := int32 (Z.of_nat (length lambdas)) in
  let serialized := lambda_image ∘ lambdaExprToSerialLambda <$> lambdas in
  let nworkers := if nworkers <? 1 then 1 else nworkers in
  chunks ← chunks_per_lambda mode nworkers num_lambdas num_tuples;
  num_jobs ← int_mul num_lambdas chunks;
  let nworkers := if (num_jobs <? nworkers) && (0 <? num_jobs) then num_jobs else nworkers in
  pack ← (if (0 <? num_jobs) && (0 <? num_tuples * num_lambdas) then build_pack serialized else Ok (mkPack 0 0 [] []));
  Ok (nworkers,
      mkPwConfig mode agg (result_flat agg cols result) (Z.of_nat (length cols)) num_tuples num_lambdas
        (pw_jobs chunks num_lambdas num_tuples) pack).

Definition num_tuples_result (cfg : pw_config) : Z := pw_num_tuples cfg * pw_num_lambdas cfg.

(** the slots of the output region *)
Definition out_size (cfg : pw_config) : Z :=
  if pw_agg cfg then Z.of_nat (length (pw_job_array cfg)) else num_tuples_result cfg.

(** after the launch of [launched] workers; what the regions hold is arbitrary *)
Definition pw_start (cfg : pw_config) (rows : list (list (option Z))) (data : list Z) (out : list (list Z))
    (launched : nat) : pw_state C :=
  mkPwState (mkShared 0 false data out) (LCopy 0 rows) (repeat (new_worker cfg) launched).

Definition pw_emit_row (cfg : pw_config) (s : pw_shared) (i : Z) : outcome (list Z) :=
  v ← deref (sh_out s !! Z.to_nat i);
  if pw_flat cfg then Ok v
  else Ok (take (Z.to_nat (pw_num_cols cfg))
             (drop (Z.to_nat (Z.rem i (pw_num_tuples cfg) * pw_num_cols cfg)) (sh_data s)) ++ v).

(** the sum of the jobs' sums, in job order *)
Definition pw_average (cfg : pw_config) (s : pw_shared) : Z :=
  float8_div_int (foldl (fun acc v => float8_pl acc (default 0 (head v))) 0 (sh_out s)) (num_tuples_result cfg).

Definition pw_output (cfg : pw_config) (s : pw_shared) : outcome (list (list Z)) :=
  if pw_agg cfg then Ok [[pw_average cfg s]]
  else omapM (pw_emit_row cfg s) (seqZ 0 (num_tuples_result cfg)).

Definition no_worker_error : pg_error :=
  PgError ERRCODE_INSUFFICIENT_RESOURCES (lit "apply_mt_pw: no parallel worker could be launched").

(** what a run can return: the regions hold anything at first, and a run in
    which a process does something undefined may return anything *)
Inductive pw_run (cfg : pw_config) (attnames : list cstr) (rows : list (list (option Z))) (launched : nat)
    : outcome (list (list Z)) → Prop :=
| run_no_segment :
    length (pw_job_array cfg) = 0%nat ∨ num_tuples_result cfg <= 0 →
    pw_run cfg attnames rows launched (pw_output cfg (mkShared 0 false [] []))
| run_not_launched :
    length (pw_job_array cfg) ≠ 0%nat → 0 < num_tuples_result cfg → launched = 0%nat →
    pw_run cfg attnames rows launched (Err no_worker_error)
| run_ends data out k p r :
    length (pw_job_array cfg) ≠ 0%nat → 0 < num_tuples_result cfg → launched ≠ 0%nat →
    Z.of_nat (length data) = pw_num_cols cfg * pw_num_tuples cfg → Z.of_nat (length out) = out_size cfg →
    pw_steps cfg attnames k (pw_start cfg rows data out launched) p →
    match ps_leader p with
    | LDone => r = pw_output cfg (ps_shared p)
    | LError e => r = Err e
    | LUndefined => r = UB
    | _ => False
    end ∨ Exists (fun w => ww_pc w = WUndefined) (ps_workers p) ∧ r = UB →
    pw_run cfg attnames rows launched r.

(** at most as many workers are launched as were asked for *)
Definition apply_mt_pw_internal (mode nworkers : Z) (agg jit_enabled : bool) (cols : list pw_column) (result : pw_column)
    (rows : list (list (option Z))) (lambdas : list LambdaExpr) (r : outcome (list (list Z))) : Prop :=
  match pw_prepare mode nworkers agg jit_enabled cols result (Z.of_nat (length rows)) lambdas with
  | Ok (nworkers, cfg) => ∃ launched, Z.of_nat launched <= nworkers ∧ pw_run cfg (attname <$> cols) rows launched r
  | Err e => r = Err e
  | UB => r = UB
  | OutOfFuel => r = OutOfFuel
  end.

Definition apply_mt_pw (mode nworkers : Z) := apply_mt_pw_internal mode nworkers false.

Definition apply_mt_agg_pw (mode nworkers : Z) := apply_mt_pw_internal mode nworkers true.
End Internal.
