(* ===== verification/ApplyPwFacts.v ===== *)
(** * Facts about the application on parallel workers

    The pack of lambdas is read back by the workers; the jobs cover every
    lambda and every row; an invariant of leader and workers, which says what
    each unfinished job still owes. *)

From S2P Require Import Prelude Bitmapset Nodes NodesFacts Serialize Inject ApplyMt ApplyMtFacts ApplyPw.

(** ** Memory images *)

Lemma code_byte z : code (byte_of z) = z mod 2 ^ 8.
Proof.
  unfold byte_of. change 255 with (Z.ones 8). rewrite Z.land_ones by lia. apply code_ch.
  pose proof (Z.mod_pos_bound z (2 ^ 8)). lia.
Qed.

Lemma load_store32 z rest : load32 (store32 z ++ rest) = Ok (uint32 z).
Proof.
  unfold load32, store32, uint32. cbn [app]. f_equal. rewrite !code_byte, !Z.shiftr_div_pow2 by lia.
  Z.to_euclidean_division_equations. lia.
Qed.

Definition lambda_fits (sl : SerializedLambda) : Prop :=
  SIZEOF_SERIALIZED_LAMBDA + Z.of_nat (length (sl_data sl)) < 2 ^ 30
  ∧ - 2 ^ 31 ≤ sl_nargs sl < 2 ^ 31 ∧ 0 ≤ sl_magic sl < 2 ^ 32.

Definition image_size (sl : SerializedLambda) : Z := SIZEOF_SERIALIZED_LAMBDA + Z.of_nat (length (sl_data sl)).

Lemma lambda_image_length sl : Z.of_nat (length (lambda_image sl)) = image_size sl.
Proof. unfold lambda_image, image_size, SIZEOF_SERIALIZED_LAMBDA. rewrite !length_app. simpl. lia. Qed.

Lemma VARSIZE_image sl rest : lambda_fits sl → VARSIZE (lambda_image sl ++ rest) = Ok (image_size sl).
Proof.
  intros (Hl & _ & _). unfold VARSIZE, lambda_image, image_size. unfold SIZEOF_SERIALIZED_LAMBDA in *.
  rewrite <- app_assoc, load_store32. cbn [mbind outcome_bind]. f_equal.
  rewrite Z.shiftl_mul_pow2, !uint32_small by (unfold PG_UINT32_MAX; try rewrite uint32_small; unfold PG_UINT32_MAX; lia).
  change 0x3FFFFFFF with (Z.ones 30).
  rewrite Z.shiftr_div_pow2, Z.div_mul, Z.land_ones, Z.mod_small by lia. done.
Qed.

Lemma int32_uint32 z : - 2 ^ 31 ≤ z < 2 ^ 31 → int32 (uint32 z) = z.
Proof. unfold int32, uint32. intros H. Z.to_euclidean_division_equations. lia. Qed.

Lemma image_lambda_image sl : lambda_fits sl → image_lambda (lambda_image sl) = Ok sl.
Proof.
  intros (_ & Hn & Hm). unfold image_lambda, lambda_image.
  change (drop 4 (store32 ?a ++ ?r)) with r. change (drop 8 (store32 ?a ++ store32 ?b ++ ?r)) with r.
  change (drop 12 (store32 ?a ++ store32 ?b ++ store32 ?c ++ ?r)) with r.
  rewrite !load_store32. cbn [mbind outcome_bind]. rewrite int32_uint32, (uint32_small (sl_magic sl)) by (unfold PG_UINT32_MAX; lia).
  by destruct sl.
Qed.

(** ** The pack *)

Definition blob_total (sls : list SerializedLambda) : Z := foldr (fun sl n => image_size sl + n) 0 sls.

Lemma image_size_pos sl : 0 < image_size sl.
Proof. unfold image_size, SIZEOF_SERIALIZED_LAMBDA. lia. Qed.

Lemma blob_total_nonneg sls : 0 ≤ blob_total sls.
Proof. induction sls as [|sl sls IH]; simpl; [lia|]. pose proof (image_size_pos sl). lia. Qed.

Lemma blob_total_length sls : Z.of_nat (length (concat (lambda_image <$> sls))) = blob_total sls.
Proof.
  induction sls as [|sl sls IH]; [done|]. cbn [fmap list_fmap concat]. rewrite length_app, Nat2Z.inj_add, IH, lambda_image_length. done.
Qed.

Lemma blob_size_images sls : Forall lambda_fits sls → blob_size (lambda_image <$> sls) = Ok (blob_total sls).
Proof.
  induction 1 as [|sl sls Hsl _ IH]; [done|]. cbn [fmap list_fmap blob_size].
  rewrite <- (app_nil_r (lambda_image sl)), VARSIZE_image by done. cbn [mbind outcome_bind].
  change (list_fmap _ _ lambda_image sls) with (lambda_image <$> sls). rewrite IH. done.
Qed.

(** offsets of consecutive images *)
Fixpoint image_offsets (off : Z) (sls : list SerializedLambda) : list Z :=
  match sls with
  | [] => []
  | sl :: sls => off :: image_offsets (off + image_size sl) sls
  end.

Lemma memcpy_middle {A} (pre src old post : list A) :
  length old = length src →
  memcpy_at (pre ++ old ++ post) (Z.of_nat (length pre)) src = Ok (pre ++ src ++ post).
Proof.
  intros Hl. unfold memcpy_at. rewrite !length_app.
  destruct (Z.leb_spec 0 (Z.of_nat (length pre))), (Z.leb_spec (Z.of_nat (length pre) + Z.of_nat (length src)) (Z.of_nat (length pre + (length old + length post)))); try lia.
  cbn [andb]. rewrite Nat2Z.id, take_app_length. f_equal. f_equal. f_equal. rewrite <- Hl, app_assoc.
  rewrite drop_app_length' by (rewrite length_app; lia). done.
Qed.

Lemma pack_loop_spec sls : ∀ pre old,
  Forall lambda_fits sls → Z.of_nat (length pre) + blob_total sls < 2 ^ 32 →
  Z.of_nat (length old) = blob_total sls →
  pack_loop (Z.of_nat (length pre)) (lambda_image <$> sls) (pre ++ old)
  = Ok (image_offsets (Z.of_nat (length pre)) sls, pre ++ concat (lambda_image <$> sls)).
Proof.
  induction sls as [|sl sls IH]; intros pre old HF Hb Hl; cbn [fmap list_fmap pack_loop blob_total foldr concat image_offsets] in *.
  { destruct old; [by rewrite app_nil_r|simpl in Hl; lia]. }
  apply Forall_cons in HF as [Hsl HF]. pose proof (image_size_pos sl). pose proof (blob_total_nonneg sls) as Hnn. unfold blob_total in Hnn.
  rewrite <- (app_nil_r (lambda_image sl)) at 1. rewrite VARSIZE_image by done. cbn [mbind outcome_bind].
  rewrite (uint32_small (image_size sl)) by (unfold PG_UINT32_MAX; lia).
  rewrite take_ge by (rewrite <- (lambda_image_length sl); lia).
  rewrite <- (take_drop (length (lambda_image sl)) old) at 1.
  rewrite memcpy_middle by (rewrite length_take; pose proof (lambda_image_length sl); lia). cbn [mbind outcome_bind].
  rewrite uint32_small by (unfold PG_UINT32_MAX; lia). rewrite <- (lambda_image_length sl), <- Nat2Z.inj_add, <- length_app.
  rewrite app_assoc, IH; [|done| |].
  - cbn [mbind outcome_bind fst snd]. by rewrite <- app_assoc.
  - rewrite length_app, Nat2Z.inj_add, lambda_image_length. fold (blob_total sls) in *. lia.
  - rewrite length_drop. pose proof (lambda_image_length sl). fold (blob_total sls) in *. lia.
Qed.

Lemma image_offsets_lookup sls : ∀ off l sl,
  sls !! l = Some sl → image_offsets off sls !! l = Some (off + blob_total (take l sls)).
Proof.
  induction sls as [|sl' sls IH]; intros off l sl Hl; [done|]. destruct l as [|l]; simpl in *; [f_equal; lia|].
  rewrite (IH _ _ _ Hl). f_equal. unfold blob_total. lia.
Qed.

(** the pack that is built, and what a worker reads from it *)
Lemma pack_roundtrip sls :
  Forall lambda_fits sls → blob_total sls < 2 ^ 32 →
  ∃ pack, build_pack (lambda_image <$> sls) = Ok pack ∧ ∀ l sl, sls !! l = Some sl → pack_lambda pack (Z.of_nat l) = Ok sl.
Proof.
  intros HF Hb. unfold build_pack. rewrite blob_size_images by done. cbn [mbind outcome_bind].
  pose proof (blob_total_nonneg sls).
  pose proof (pack_loop_spec sls [] (repeat NUL (Z.to_nat (blob_total sls))) HF) as Hp.
  cbn [length app] in Hp. change (Z.of_nat 0) with 0 in Hp.
  rewrite Hp; [|lia|rewrite repeat_length; lia]. cbn [mbind outcome_bind fst snd]. eexists. split; [done|]. intros l sl Hl.
  unfold pack_lambda. cbn [lp_offsets lp_blob]. rewrite Nat2Z.id, (image_offsets_lookup _ _ _ _ Hl). cbn [deref mbind outcome_bind].
  rewrite <- blob_total_length, Z.add_0_l, Nat2Z.id.
  assert (drop (length (concat (lambda_image <$> take l sls))) (concat (lambda_image <$> sls))
          = lambda_image sl ++ concat (lambda_image <$> drop (S l) sls)) as ->.
  { rewrite <- (take_drop_middle sls l sl Hl) at 2. rewrite fmap_app, concat_app, fmap_cons. cbn [concat]. apply drop_app_length. }
  rewrite VARSIZE_image by (by eapply Forall_lookup_1). cbn [mbind outcome_bind].
  rewrite length_app, Nat2Z.inj_add, lambda_image_length, (proj2 (Z.leb_le _ _)) by lia.
  rewrite <- lambda_image_length, Nat2Z.id, take_app_length. apply image_lambda_image. by eapply Forall_lookup_1.
Qed.

(** ** Jobs *)

Lemma chunks_spec mode nworkers nl n :
  0 ≤ nl → 0 ≤ n → 1 ≤ nworkers → nworkers + nl < 2 ^ 31 →
  ∃ chunks, chunks_per_lambda mode nworkers nl n = Ok chunks ∧ 1 ≤ chunks ∧ chunks ≤ Z.max 1 n ∧ nl * chunks < 2 ^ 31.
Proof.
  intros Hnl Hn Hw Hs. unfold chunks_per_lambda, int_add.
  set (c := if (mode =? APPLY_PW_CHECKED) && (0 <? nl) && (nl <? nworkers) then Z.quot (nworkers + nl - 1) nl else 1).
  assert (1 ≤ c ∧ nl * c < 2 ^ 31) as [Hc1 Hc2].
  { unfold c. destruct (mode =? APPLY_PW_CHECKED); cbn [andb]; [|lia]. destruct (Z.ltb_spec 0 nl); cbn [andb]; [|lia].
    destruct (Z.ltb_spec nl nworkers); [|lia]. rewrite Z.quot_div_nonneg by lia.
    pose proof (Z.mul_div_le (nworkers + nl - 1) nl ltac:(lia)). split; [apply Z.div_le_lower_bound; lia|lia]. }
  assert ((if (mode =? APPLY_PW_CHECKED) && (0 <? nl) && (nl <? nworkers)
           then s ← if (- 2 ^ 31 <=? nworkers + nl) && (nworkers + nl <? 2 ^ 31) then Ok (nworkers + nl) else UB; Ok (Z.quot (s - 1) nl)
           else Ok 1) = Ok c) as ->.
  { unfold c. destruct ((mode =? APPLY_PW_CHECKED) && (0 <? nl) && (nl <? nworkers)); [|done].
    destruct (Z.leb_spec (- 2 ^ 31) (nworkers + nl)), (Z.ltb_spec (nworkers + nl) (2 ^ 31)); try lia. done. }
  cbn [mbind outcome_bind]. eexists. split; [done|].
  destruct (Z.ltb_spec n c), (Z.ltb_spec n 1), (Z.ltb_spec c 1); nia.
Qed.

(** what the workers rely on: every job is a lambda and a range of rows, and
    every lambda meets every row in some job *)
Record jobs_ok (n nl : Z) (jobs : list PwJob) : Prop := {
  jobs_range job : job ∈ jobs → 0 ≤ pj_lambda job < nl ∧ 0 ≤ pj_start job ≤ pj_end job ∧ pj_end job ≤ n;
  jobs_cover l i : 0 ≤ l < nl → 0 ≤ i < n → ∃ job, job ∈ jobs ∧ pj_lambda job = l ∧ pj_start job ≤ i < pj_end job
}.

Lemma pw_jobs_elem chunks nl n job :
  0 < chunks → small chunks → small n →
  job ∈ pw_jobs chunks nl n ↔
    ∃ l c, 0 ≤ l < nl ∧ 0 ≤ c < chunks ∧ job = mkPwJob l (n * c / chunks) (n * (c + 1) / chunks).
Proof.
  intros Hc Hsc Hsn. unfold pw_jobs. rewrite list_elem_of_In, in_concat. split.
  - intros (js & Hjs & Hin). apply list_elem_of_In, list_elem_of_fmap in Hjs as (l & -> & Hl%elem_of_seqZ).
    apply list_elem_of_In, list_elem_of_fmap in Hin as (c & -> & Hc'%elem_of_seqZ). exists l, c.
    destruct (chunk_bounds chunks n c) as (-> & -> & _); [done..|lia|]. split_and!; (done || lia).
  - intros (l & c & Hl & Hc' & ->). eexists. split.
    + apply list_elem_of_In, list_elem_of_fmap. exists l. split; [done|]. by apply elem_of_seqZ.
    + apply list_elem_of_In, list_elem_of_fmap. exists c. split; [|by apply elem_of_seqZ].
      by destruct (chunk_bounds chunks n c) as (-> & -> & _).
Qed.

Lemma pw_jobs_ok chunks nl n : 0 < chunks → small chunks → small n → jobs_ok n nl (pw_jobs chunks nl n).
Proof.
  intros Hc Hsc Hsn. split.
  - intros job (l & c & Hl & Hc' & ->)%pw_jobs_elem; [|done..]. cbn [pj_lambda pj_start pj_end].
    destruct (chunk_bounds chunks n c) as (_ & _ & H0 & H1); [done..|lia|]. split_and!; try lia.
    apply Z.div_le_mono; unfold small in *; nia.
  - intros l i Hl Hi. destruct (concat_ranges (fun t => n * t / chunks) (Z.to_nat chunks)) as [Hr _].
    { intros t Ht. apply Z.div_le_mono; unfold small in *; nia. }
    rewrite Z2Nat.id, Z.mul_0_r, Z.div_0_l, Z.div_mul, Z.sub_0_r in Hr by lia.
    assert (i ∈ seqZ 0 n) as Hin by (by apply elem_of_seqZ). rewrite <- Hr in Hin.
    apply list_elem_of_In, in_concat in Hin as (r & Hrin & Hir). apply list_elem_of_In, list_elem_of_fmap in Hrin as (c & -> & Hcin%elem_of_seqZ).
    apply list_elem_of_In, elem_of_seqZ in Hir. eexists. split; [apply pw_jobs_elem; [done..|]; exists l, c; split_and!; [lia..|done]|].
    cbn [pj_lambda pj_start pj_end]. lia.
Qed.

Lemma pw_jobs_length chunks nl n : 0 ≤ chunks → 0 ≤ nl → Z.of_nat (length (pw_jobs chunks nl n)) = nl * chunks.
Proof.
  intros Hc Hl. unfold pw_jobs. rewrite (concat_length_uniform _ (Z.to_nat chunks)).
  - rewrite length_fmap, length_seqZ. lia.
  - apply Forall_fmap, Forall_true. intros l. cbn. by rewrite length_fmap, length_seqZ.
Qed.
