(* ===== verification/ApplyPwRun.v ===== *)
(** * Runs of leader and workers

    The invariant of [pw_step]: data that a worker reads has been published in
    full, every slot of the output that belongs to a claimed job has its value
    or is owed by a worker that holds the job, and no worker sleeps once the
    rows are published. *)

From S2P Require Import Prelude Bitmapset Nodes NodesFacts Serialize Inject ApplyMt ApplyMtFacts ApplyPw ApplyPwFacts.

(** the values of a row without NULLs *)
Definition row_vals (row : list (option Z)) : list Z := default 0 <$> row.

Definition no_nulls (row : list (option Z)) : Prop := Forall is_Some row.

Lemma drop_head {A} (x : A) rest k l : x :: rest = drop k l → l !! k = Some x.
Proof. intros Hd. rewrite <- (Nat.add_0_r k), <- lookup_drop. by rewrite <- Hd. Qed.

Lemma sum_with_insert {A} (f : A → nat) l k x x' :
  l !! k = Some x → (sum_list_with f (<[k := x']> l) + f x = sum_list_with f l + f x')%nat.
Proof. revert k. induction l as [|y l IH]; intros [|k] Hk; simplify_eq/=; [lia|]. specialize (IH k Hk). lia. Qed.

(** the value of a lambda on a row *)
Definition row_value `{PP : PwParams C} (mode : Z) (le : LambdaExpr) (row : list (option Z)) : pg_error + Z :=
  match pw_compile mode le with
  | inl e => inl e
  | inr c => if mode =? APPLY_PW_CHECKED then eval_checked c (row_vals row) else inr (eval_fast c (row_vals row))
  end.

(** an error that the code is right to raise: a NULL, or what a lambda raises *)
Definition justified `{PP : PwParams C} (mode : Z) (attnames : list cstr) (rows : list (list (option Z)))
    (lambdas : list LambdaExpr) (e : pg_error) : Prop :=
  (∃ row name, row ∈ rows ∧ null_column attnames row = Some name ∧ e = null_error name)
  ∨ ∃ le row, le ∈ lambdas ∧ row ∈ rows ∧ row_value mode le row = inl e.

Section Run.
Context `{NIO : NodeIO} `{PP : PwParams C} (cfg : pw_config) (attnames : list cstr).
Context (rows : list (list (option Z))) (lambdas : list LambdaExpr).

Let n := pw_num_tuples cfg.
Let cols := pw_num_cols cfg.
Let jobs := pw_job_array cfg.

(** the setup is that of the rows and lambdas *)
Record pw_ok (launched : nat) : Prop := {
  ok_cols : length attnames = Z.to_nat cols ∧ 0 ≤ cols;
  ok_rows : Forall (fun r => length r = Z.to_nat cols) rows;
  ok_num_rows : n = Z.of_nat (length rows);
  ok_num_lambdas : pw_num_lambdas cfg = Z.of_nat (length lambdas);
  ok_jobs : jobs_ok n (Z.of_nat (length lambdas)) jobs;
  ok_compile l le : lambdas !! l = Some le → compile_lambda cfg (Z.of_nat l) = Ok (pw_compile (pw_mode cfg) le);
  ok_local c d : pw_mode cfg ≠ APPLY_PW_CHECKED → eval_fast c d = eval_fast c (take (Z.to_nat cols) d);
  ok_data_size : n * cols < 2 ^ 63;
  ok_result_size : Z.of_nat (length lambdas) * n < 2 ^ 63;
  ok_counter : Z.of_nat (length jobs) + Z.of_nat launched < 2 ^ 32
}.

(** ** The invariant *)

Definition complete (s : pw_shared) : Prop := Forall no_nulls rows ∧ sh_data s = concat (row_vals <$> rows).

Definition leader_ok (s : pw_shared) (l : leader_pc) (ws : list (pw_worker C)) : Prop :=
  match l with
  | LCopy idx rest =>
      data_ready s = false ∧ 0 ≤ idx ∧ rest = drop (Z.to_nat idx) rows ∧ Forall no_nulls (take (Z.to_nat idx) rows)
      ∧ take (Z.to_nat (idx * cols)) (sh_data s) = concat (row_vals <$> take (Z.to_nat idx) rows)
  | LPublish => data_ready s = false ∧ complete s
  | LBroadcast | LWaitWorkers => data_ready s = true ∧ complete s
  | LDone => complete s ∧ Forall (fun w => ww_pc w = WExit) ws
  | LError e => justified (pw_mode cfg) attnames rows lambdas e
  | LUndefined => False
  end.

(** the rows of a job up to row [i], with their values *)
Definition job_values (job : PwJob) (i : Z) (vs : list Z) : Prop :=
  ∃ le, lambdas !! Z.to_nat (pj_lambda job) = Some le
  ∧ Forall2 (fun row v => row_value (pw_mode cfg) le row = inr v) (take (Z.to_nat (i - pj_start job)) (drop (Z.to_nat (pj_start job)) rows)) vs.

Definition compiled (w : pw_worker C) (job : PwJob) : Prop := ∃ c, ww_lambdas w !! Z.to_nat (pj_lambda job) = Some (Some c).

Definition sum_of (vs : list Z) : Z := foldl float8_pl 0 vs.

Definition pc_ok (s : pw_shared) (w : pw_worker C) : Prop :=
  match ww_pc w with
  | WClaim => True
  | WCompile j => 0 ≤ j < Z.of_nat (length jobs)
  | WReady j | WWait j | WSleep j => 0 ≤ j ∧ ∃ job, jobs !! Z.to_nat j = Some job ∧ compiled w job
  | WRow j i sum =>
      0 ≤ j ∧ data_ready s = true ∧ ∃ job vs, jobs !! Z.to_nat j = Some job ∧ compiled w job ∧ pj_start job ≤ i ≤ pj_end job
      ∧ job_values job i vs ∧ (pw_agg cfg = true → sum = sum_of vs)
  | WFinish j sum =>
      0 ≤ j ∧ data_ready s = true ∧ ∃ job vs, jobs !! Z.to_nat j = Some job ∧ job_values job (pj_end job) vs
      ∧ (pw_agg cfg = true → sum = sum_of vs)
  | WExit => Z.of_nat (length jobs) ≤ next_job s
  | WError j e => 0 ≤ j < Z.of_nat (length jobs) ∧ justified (pw_mode cfg) attnames rows lambdas e
  | WUndefined => False
  end.

Record worker_ok (s : pw_shared) (w : pw_worker C) : Prop := {
  wo_table : length (ww_lambdas w) = length lambdas;
  wo_compiled l c : ww_lambdas w !! l = Some (Some c) → ∃ le, lambdas !! l = Some le ∧ pw_compile (pw_mode cfg) le = inr c;
  wo_have : have_data w = true → data_ready s = true;
  wo_pc : pc_ok s w
}.

(** once the rows are published, nobody is left on the wait list asleep *)
Definition awake (l : leader_pc) (w : pw_worker C) : Prop :=
  match l, ww_pc w with
  | (LWaitWorkers | LDone), WSleep _ => ww_listed w = false
  | _, _ => True
  end.

(** the job a worker has claimed and not finished *)
Definition holds (w : pw_worker C) (j : Z) : Prop :=
  match ww_pc w with
  | WCompile j' | WReady j' | WWait j' | WSleep j' | WRow j' _ _ | WFinish j' _ | WError j' _ => j' = j
  | _ => False
  end.

(** and has not got to row [i] of *)
Definition owes (w : pw_worker C) (j i : Z) : Prop :=
  match ww_pc w with
  | WRow j' i' _ => j' = j ∧ i' ≤ i
  | WFinish _ _ => False
  | _ => holds w j
  end.

Definition slot_value (le : LambdaExpr) (row : list (option Z)) (v : list Z) : Prop :=
  ∃ x, row_value (pw_mode cfg) le row = inr x ∧ v = if pw_flat cfg then row_vals row ++ [x] else [x].

(** the result of row [i] is in its place *)
Definition result_done (out : list (list Z)) (job : PwJob) (i : Z) : Prop :=
  ∃ le row v, lambdas !! Z.to_nat (pj_lambda job) = Some le ∧ rows !! Z.to_nat i = Some row
    ∧ out !! Z.to_nat (pj_lambda job * n + i) = Some v ∧ slot_value le row v.

(** the sum of job [j] is in its place *)
Definition sum_done (out : list (list Z)) (j : nat) (job : PwJob) : Prop :=
  ∃ vs, job_values job (pj_end job) vs ∧ out !! j = Some [sum_of vs].

(** the output of a claimed job *)
Definition job_done (out : list (list Z)) (ws : list (pw_worker C)) (j : nat) (job : PwJob) : Prop :=
  if pw_agg cfg then sum_done out j job ∨ ∃ w, w ∈ ws ∧ holds w (Z.of_nat j)
  else ∀ i, pj_start job ≤ i < pj_end job → result_done out job i ∨ ∃ w, w ∈ ws ∧ owes w (Z.of_nat j) i.

Definition exits (w : pw_worker C) : nat := match ww_pc w with WExit => 1 | _ => 0 end.

Record pw_inv (p : pw_state C) : Prop := {
  inv_data : length (sh_data (ps_shared p)) = (length rows * Z.to_nat cols)%nat;
  inv_out : Z.of_nat (length (sh_out (ps_shared p))) = out_size cfg;
  inv_next : 0 ≤ next_job (ps_shared p) ≤ Z.of_nat (length jobs) + Z.of_nat (sum_list_with exits (ps_workers p));
  inv_leader : leader_ok (ps_shared p) (ps_leader p) (ps_workers p);
  inv_workers : Forall (worker_ok (ps_shared p)) (ps_workers p);
  inv_awake : Forall (awake (ps_leader p)) (ps_workers p);
  inv_jobs j job : jobs !! j = Some job → Z.of_nat j < next_job (ps_shared p) →
    job_done (sh_out (ps_shared p)) (ps_workers p) j job
}.

(** ** Steps of the leader *)

Lemma null_column_none names row : length names = length row → null_column names row = None → no_nulls row.
Proof.
  revert row. induction names as [|name names IH]; intros [|[v|] row] Hl Hn; try done; [constructor|].
  constructor; [by eexists|]. apply IH; [by injection Hl|done].
Qed.

Lemma null_column_some names row : no_nulls row → null_column names row = None.
Proof. intros Hr. revert names. induction Hr as [|v row [x ->] _ IH]; intros [|name names]; simpl; auto. Qed.

Section Steps.
Context (launched : nat) (Hok : pw_ok launched).

Lemma rows_uniform k : Forall (fun r => length r = Z.to_nat cols) (row_vals <$> take k rows).
Proof.
  apply Forall_fmap, Forall_take. eapply Forall_impl; [apply (ok_rows _ Hok)|]. intros row Hl. cbn. unfold row_vals. by rewrite length_fmap.
Qed.

Lemma copy_row_ok s idx row rest :
  length (sh_data s) = (length rows * Z.to_nat cols)%nat → 0 ≤ idx → row :: rest = drop (Z.to_nat idx) rows →
  take (Z.to_nat (idx * cols)) (sh_data s) = concat (row_vals <$> take (Z.to_nat idx) rows) →
  ∃ data, copy_row cols s idx row = Ok (mkShared (next_job s) (data_ready s) data (sh_out s))
  ∧ length data = (length rows * Z.to_nat cols)%nat
  ∧ take (Z.to_nat ((idx + 1) * cols)) data = concat (row_vals <$> take (Z.to_nat (idx + 1)) rows).
Proof.
  intros Hl Hi Hd Ht. destruct (ok_cols _ Hok) as [_ Hc]. pose proof (ok_num_rows _ Hok) as Hn. pose proof (ok_data_size _ Hok) as Hsz.
  pose proof (drop_head _ _ _ _ Hd) as Hrow.
  pose proof (lookup_lt_Some _ _ _ Hrow) as Hlt.
  assert (length row = Z.to_nat cols) as Hlr by exact (Forall_lookup_1 _ _ _ _ (ok_rows _ Hok) Hrow).
  set (k := (Z.to_nat idx * Z.to_nat cols)%nat). assert (Z.to_nat (idx * cols) = k) as Hk by (unfold k; lia).
  assert (k + Z.to_nat cols ≤ length (sh_data s))%nat as Hkl by (rewrite Hl; unfold k; nia).
  unfold copy_row. rewrite uint64_id by (rewrite Hn in Hsz; nia). rewrite (take_ge (default 0 <$> row)) by (rewrite length_fmap; lia).
  unfold memcpy_at. rewrite length_fmap, Hlr, Hk.
  destruct (Z.leb_spec 0 (idx * cols)); [|nia].
  destruct (Z.leb_spec (idx * cols + Z.of_nat (Z.to_nat cols)) (Z.of_nat (length (sh_data s)))); [|lia]. cbn [andb mbind outcome_bind].
  eexists. split; [done|]. split.
  - rewrite !length_app, length_take, length_drop, length_fmap. lia.
  - replace (Z.to_nat ((idx + 1) * cols)) with (k + Z.to_nat cols)%nat by (unfold k; lia).
    rewrite app_assoc, take_app_length' by (rewrite length_app, length_take, length_fmap; lia).
    replace (Z.to_nat (idx + 1)) with (S (Z.to_nat idx)) by lia. rewrite (take_S_r _ _ _ Hrow), fmap_app, concat_app, <- Ht, Hk.
    cbn [fmap list_fmap concat]. by rewrite app_nil_r.
Qed.

Lemma copied_complete s idx :
  length (sh_data s) = (length rows * Z.to_nat cols)%nat → 0 ≤ idx → [] = drop (Z.to_nat idx) rows →
  Forall no_nulls (take (Z.to_nat idx) rows) →
  take (Z.to_nat (idx * cols)) (sh_data s) = concat (row_vals <$> take (Z.to_nat idx) rows) → complete s.
Proof.
  intros Hl Hi Hd Hn Ht. destruct (ok_cols _ Hok) as [_ Hc].
  assert (length rows ≤ Z.to_nat idx)%nat as Hlen. { pose proof (f_equal length Hd) as H. rewrite length_drop in H. simpl in H. lia. }
  rewrite take_ge in Hn by done. rewrite (take_ge rows), take_ge in Ht by (done || nia). by split.
Qed.

Lemma worker_ok_later s s' w :
  (data_ready s = true → data_ready s' = true) → next_job s ≤ next_job s' → worker_ok s w → worker_ok s' w.
Proof.
  intros Hr Hn [H1 H2 H3 H4]. split; [done..|auto|]. unfold pc_ok in *. destruct (ww_pc w); try done; [| |lia].
  - destruct H4 as (? & ? & ?). auto.
  - destruct H4 as (? & ? & ?). auto.
Qed.

Lemma workers_later s s' ws :
  (data_ready s = true → data_ready s' = true) → next_job s ≤ next_job s' → Forall (worker_ok s) ws → Forall (worker_ok s') ws.
Proof. intros Hr Hn Hw. eapply Forall_impl; [exact Hw|]. intros w. by apply worker_ok_later. Qed.

(** steps of the leader that leave the workers alone *)
Lemma leader_keeps s l ws s' l' :
  pw_inv (mkPwState s l ws) → next_job s' = next_job s → sh_out s' = sh_out s → length (sh_data s') = length (sh_data s) →
  (data_ready s = true → data_ready s' = true) → leader_ok s' l' ws → Forall (awake l') ws → pw_inv (mkPwState s' l' ws).
Proof.
  intros [H1 H2 H3 H4 H5 H6 H7] Hn Ho Hd Hr Hl Ha. cbn [ps_shared ps_leader ps_workers] in *. split; cbn [ps_shared ps_leader ps_workers]; try done.
  - by rewrite Hd.
  - by rewrite Ho.
  - by rewrite Hn.
  - eapply workers_later; [exact Hr|lia|done].
  - rewrite Hn, Ho. done.
Qed.

Lemma awake_any l ws : match l with LWaitWorkers | LDone => False | _ => True end → Forall (awake l) ws.
Proof. intros Hl. apply Forall_true. intros w. unfold awake. by destruct l. Qed.

Lemma signal_holds w j : holds (signal_worker w) j = holds w j.
Proof. done. Qed.

Lemma inv_broadcast s ws : pw_inv (mkPwState s LBroadcast ws) → pw_inv (mkPwState s LWaitWorkers (signal_worker <$> ws)).
Proof.
  intros [H1 H2 H3 H4 H5 H6 H7]. cbn [ps_shared ps_leader ps_workers] in *. split; cbn [ps_shared ps_leader ps_workers]; try done.
  - replace (sum_list_with exits (signal_worker <$> ws)) with (sum_list_with exits ws); [done|].
    clear. induction ws as [|w ws IH]; [done|]. simpl. by rewrite IH.
  - apply Forall_fmap. eapply Forall_impl; [exact H5|]. intros w [Ha Hb Hc Hd]. by split.
  - apply Forall_fmap, Forall_true. intros w. unfold awake. cbn. by destruct (ww_pc w).
  - intros j job Hj Hn. specialize (H7 j job Hj Hn). unfold job_done in *. destruct (pw_agg cfg).
    + destruct H7 as [|(w & Hin & Hw)]; [by left|right]. exists (signal_worker w). split; [by apply list_elem_of_fmap_2|done].
    + intros i Hi. destruct (H7 i Hi) as [|(w & Hin & Hw)]; [by left|right]. exists (signal_worker w). split; [by apply list_elem_of_fmap_2|done].
Qed.

Lemma inv_leader_step s l ws s' l' ws' :
  pw_inv (mkPwState s l ws) → pw_step cfg attnames (mkPwState s l ws) (mkPwState s' l' ws') →
  pw_inv (mkPwState s' l' ws') ∨ ∃ k w w', ws !! k = Some w ∧ worker_step cfg s w = Some (s', w') ∧ l' = l
    ∧ ws' = <[k := w']> ws ∧ running l.
Proof.
  intros Hinv Hstep. pose proof (inv_leader _ Hinv) as Hl. pose proof (inv_data _ Hinv) as Hd. cbn [ps_shared ps_leader ps_workers] in Hl, Hd.
  inversion Hstep as [? ? idx row rest ? Hnull Hcopy|? ? idx row rest name Hnull|? ? idx row rest Hnull Hcopy|? ? idx|? ?|? ?|? ? w j e Hin Hpc|? ? Hall|? ? ? k w ? w' Hrun Hk Hw]; subst.
  - left. destruct Hl as (Hr & Hi & Hrest & Hnn & Ht). destruct (copy_row_ok s idx row rest Hd Hi Hrest Ht) as (data & Hc & Hlen & Ht').
    fold cols in Hcopy. rewrite Hc in Hcopy. injection Hcopy as <-. eapply leader_keeps; [exact Hinv|done|done|simpl; congruence|done| |by apply awake_any].
    pose proof (drop_head _ _ _ _ Hrest) as Hrow.
    assert (Z.to_nat (idx + 1) = S (Z.to_nat idx)) as Hs by lia. split_and!; [done|lia| | |done].
    + rewrite Hs. rewrite (drop_S _ _ _ Hrow) in Hrest. by injection Hrest.
    + rewrite Hs, (take_S_r _ _ _ Hrow). apply Forall_app. split; [done|]. apply Forall_singleton.
      eapply null_column_none; [|exact Hnull]. destruct (ok_cols _ Hok) as [-> _].
      symmetry. exact (Forall_lookup_1 _ _ _ _ (ok_rows _ Hok) Hrow).
  - left. destruct Hl as (Hr & Hi & Hrest & Hnn & Ht). eapply leader_keeps; [exact Hinv|done..| |by apply awake_any].
    left. exists row, name. split_and!; [|done|done]. by eapply list_elem_of_lookup_2, drop_head.
  - exfalso. destruct Hl as (Hr & Hi & Hrest & Hnn & Ht). destruct (copy_row_ok s' idx row rest Hd Hi Hrest Ht) as (data & Hc & _).
    fold cols in Hcopy. by rewrite Hc in Hcopy.
  - left. destruct Hl as (Hr & Hi & Hrest & Hnn & Ht). eapply leader_keeps; [exact Hinv|done..| |by apply awake_any].
    split; [done|]. by eapply copied_complete.
  - left. destruct Hl as [Hr Hc]. eapply leader_keeps; [exact Hinv|done..| |by apply awake_any]. by split.
  - left. by apply inv_broadcast.
  - left. eapply leader_keeps; [exact Hinv|done..| |by apply awake_any].
    pose proof (inv_workers _ Hinv) as Hw. cbn [ps_workers] in Hw. rewrite Forall_forall in Hw. specialize (Hw w Hin).
    destruct Hw as [_ _ _ Hw]. unfold pc_ok in Hw. rewrite Hpc in Hw. apply Hw.
  - left. eapply leader_keeps; [exact Hinv|done..| |exact (inv_awake _ Hinv)]. split; [apply Hl|done].
  - right. exists k, w, w'. done.
Qed.

(** ** Steps of a worker *)

Lemma sum_exits_length ws : (sum_list_with exits ws ≤ length ws)%nat.
Proof. induction ws as [|w ws IH]; simpl; [lia|]. unfold exits at 1. destruct (ww_pc w); lia. Qed.

Lemma elem_insert (ws : list (pw_worker C)) k w w' w0 : ws !! k = Some w → w0 ∈ ws → w0 = w ∨ w0 ∈ <[k := w']> ws.
Proof.
  intros Hk [k0 Hk0]%list_elem_of_lookup. destruct (decide (k = k0)) as [->|Hne]; [left; congruence|right].
  apply list_elem_of_lookup. exists k0. by rewrite list_lookup_insert_ne.
Qed.

Lemma elem_inserted (ws : list (pw_worker C)) k w w' : ws !! k = Some w → w' ∈ <[k := w']> ws.
Proof. intros Hk. apply list_elem_of_lookup. exists k. apply list_lookup_insert_eq. by eapply lookup_lt_Some. Qed.

Lemma worker_keeps s l ws k w s' w' :
  pw_inv (mkPwState s l ws) → running l → ws !! k = Some w →
  data_ready s' = data_ready s → sh_data s' = sh_data s → length (sh_out s') = length (sh_out s) →
  next_job s ≤ next_job s' → next_job s' + Z.of_nat (exits w) ≤ next_job s + Z.of_nat (exits w') ∨ next_job s' ≤ Z.of_nat (length jobs) ∧ exits w = exits w' →
  worker_ok s' w' → awake l w' →
  (∀ j job, jobs !! j = Some job → Z.of_nat j < next_job s' → job_done (sh_out s') (<[k := w']> ws) j job) →
  pw_inv (mkPwState s' l (<[k := w']> ws)).
Proof.
  intros [H1 H2 H3 H4 H5 H6 H7] Hl Hk Hr Hd Ho Hn Hx Hw Ha Hj. cbn [ps_shared ps_leader ps_workers] in *.
  pose proof (sum_with_insert exits ws k w w' Hk) as Hs. split; cbn [ps_shared ps_leader ps_workers]; try done.
  - by rewrite Hd.
  - by rewrite Ho.
  - destruct Hx as [Hx|[Hx Hx']]; [lia|]. split; [lia|]. lia.
  - unfold leader_ok, complete in *. rewrite Hr, Hd. by destruct l.
  - apply Forall_insert; [|done]. eapply workers_later; [|exact Hn|exact H5]. by rewrite Hr.
  - by apply Forall_insert.
Qed.

(** a step that changes nothing but the worker, which keeps its debts *)
Lemma worker_local s l ws k w w' :
  pw_inv (mkPwState s l ws) → running l → ws !! k = Some w →
  exits w = exits w' → worker_ok s w' → awake l w' →
  (pw_agg cfg = true → ∀ j, holds w j → holds w' j) →
  (pw_agg cfg = false → ∀ j job i, jobs !! j = Some job → pj_start job ≤ i < pj_end job → owes w (Z.of_nat j) i → owes w' (Z.of_nat j) i) →
  pw_inv (mkPwState s l (<[k := w']> ws)).
Proof.
  intros Hinv Hl Hk Hx Hw Ha Hh Ho. eapply worker_keeps; try done; [left; lia|]. intros j job Hj Hn.
  pose proof (inv_jobs _ Hinv j job Hj Hn) as Hd. cbn [ps_shared ps_workers] in Hd. unfold job_done in *. destruct (pw_agg cfg).
  - destruct Hd as [|(w0 & Hin & Hw0)]; [by left|right]. destruct (elem_insert ws k w w' w0 Hk Hin) as [->|Hin']; [|eauto].
    exists w'. split; [by eapply elem_inserted|auto].
  - intros i Hi. destruct (Hd i Hi) as [|(w0 & Hin & Hw0)]; [by left|right]. destruct (elem_insert ws k w w' w0 Hk Hin) as [->|Hin']; [|eauto].
    exists w'. split; [by eapply elem_inserted|eauto].
Qed.

(** the counter does not wrap around *)
Lemma claim_no_wrap s l ws k w :
  (length ws ≤ launched)%nat → pw_inv (mkPwState s l ws) → ws !! k = Some w → ww_pc w = WClaim →
  0 ≤ next_job s ∧ uint32 (next_job s + 1) = next_job s + 1.
Proof.
  intros Hlen Hinv Hk Hpc. pose proof (inv_next _ Hinv) as Hn. cbn [ps_shared ps_workers] in Hn.
  pose proof (sum_with_insert exits ws k w (set_pc w WExit) Hk) as Hs. pose proof (sum_exits_length (<[k := set_pc w WExit]> ws)) as Hsl.
  rewrite length_insert in Hsl. unfold exits at 2 4 in Hs. rewrite Hpc in Hs. cbn [set_pc ww_pc] in Hs.
  pose proof (ok_counter _ Hok). rewrite uint32_small by (unfold PG_UINT32_MAX; lia). lia.
Qed.

Lemma inv_claim s l ws k w :
  (length ws ≤ launched)%nat →
  pw_inv (mkPwState s l ws) → running l → ws !! k = Some w →
  ww_pc w = WClaim →
  pw_inv (mkPwState (mkShared (uint32 (next_job s + 1)) (data_ready s) (sh_data s) (sh_out s)) l
    (<[k := set_pc w (if Z.of_nat (length jobs) <=? next_job s then WExit else WCompile (next_job s))]> ws)).
Proof.
  intros Hlen Hinv Hl Hk Hpc. pose proof (inv_next _ Hinv) as Hn. cbn [ps_shared ps_workers] in Hn.
  destruct (claim_no_wrap s l ws k w Hlen Hinv Hk Hpc) as [_ ->].
  pose proof (proj1 (Forall_lookup _ _) (inv_workers _ Hinv) k w Hk) as Hwo. cbn [ps_shared] in Hwo.
  eapply worker_keeps; try done; cbn [next_job data_ready sh_data sh_out].
  - lia.
  - unfold exits. rewrite Hpc. destruct (Z.leb_spec (Z.of_nat (length jobs)) (next_job s)); cbn [set_pc ww_pc]; lia.
  - destruct Hwo as [Ha Hb' Hc Hd]. split; try done. unfold pc_ok. cbn [set_pc ww_pc next_job].
    destruct (Z.leb_spec (Z.of_nat (length jobs)) (next_job s)); lia.
  - unfold awake. cbn [set_pc ww_pc]. by destruct (_ <=? _), l.
  - intros j job Hj Hjn. assert (Z.of_nat j < next_job s ∨ Z.of_nat j = next_job s) as [Hlt|Heq] by lia.
    + pose proof (inv_jobs _ Hinv j job Hj Hlt) as Hd. cbn [ps_shared ps_workers] in Hd. unfold job_done in *.
      assert (∀ w0, w0 ∈ ws → w0 = w ∨ w0 ∈ <[k := set_pc w (if Z.of_nat (length jobs) <=? next_job s then WExit else WCompile (next_job s))]> ws) as Hel.
      { intros w0. by apply elem_insert. }
      destruct (pw_agg cfg).
      * destruct Hd as [|(w0 & Hin & Hw0)]; [by left|right]. destruct (Hel w0 Hin) as [->|]; [|by eauto]. unfold holds in Hw0. by rewrite Hpc in Hw0.
      * intros i Hi. destruct (Hd i Hi) as [|(w0 & Hin & Hw0)]; [by left|right]. destruct (Hel w0 Hin) as [->|]; [|by eauto].
        unfold owes, holds in Hw0. by rewrite Hpc in Hw0.
    + pose proof (lookup_lt_Some _ _ _ Hj). rewrite (proj2 (Z.leb_gt (Z.of_nat (length jobs)) (next_job s))) by lia.
      assert (set_pc w (WCompile (next_job s)) ∈ <[k := set_pc w (WCompile (next_job s))]> ws) as Hin by (by eapply elem_inserted).
      unfold job_done. destruct (pw_agg cfg); [right|intros i Hi; right]; (eexists; split; [exact Hin|done]).
Qed.

Lemma job_at j : 0 ≤ j < Z.of_nat (length jobs) → ∃ job, jobs !! Z.to_nat j = Some job.
Proof. intros Hj. apply lookup_lt_is_Some_2. lia. Qed.

Lemma job_lambda j job : jobs !! j = Some job →
  ∃ le, lambdas !! Z.to_nat (pj_lambda job) = Some le ∧ 0 ≤ pj_lambda job ∧ 0 ≤ pj_start job ≤ pj_end job ∧ pj_end job ≤ n.
Proof.
  intros Hj%list_elem_of_lookup_2. destruct (jobs_range _ _ _ (ok_jobs _ Hok) job Hj) as (Hl & Hs & He).
  destruct (lookup_lt_is_Some_2 lambdas (Z.to_nat (pj_lambda job))) as [le Hle]; [lia|]. exists le. split_and!; (done || lia).
Qed.

(** a worker compiles its lambda *)
Lemma compile_worker_ok s w j :
  rows ≠ [] → worker_ok s w → ww_pc w = WCompile j → worker_ok s (worker_compile cfg w j) ∧ holds (worker_compile cfg w j) j
    ∧ (∀ i, owes (worker_compile cfg w j) j i) ∧ exits (worker_compile cfg w j) = 0%nat ∧ ∀ l, awake l (worker_compile cfg w j).
Proof.
  intros Hne [Ha Hb Hc Hd] Hpc. unfold pc_ok in Hd. rewrite Hpc in Hd. destruct (job_at j Hd) as [job Hj].
  destruct (job_lambda _ _ Hj) as (le & Hle & Hl0 & _). unfold worker_compile. fold jobs. rewrite Hj.
  pose proof (lookup_lt_Some _ _ _ Hle) as Hlt. destruct (lookup_lt_is_Some_2 (ww_lambdas w) (Z.to_nat (pj_lambda job))) as [[c|] Hw]; [lia| |]; rewrite Hw.
  - assert (∀ l, awake l (set_pc w (WReady j))) as Hawake by (intros []; done).
    split_and!; try done. split; try done. unfold pc_ok. cbn [set_pc ww_pc]. split; [lia|]. exists job. split; [done|]. by exists c.
  - pose proof (ok_compile _ Hok _ _ Hle) as Hcomp. rewrite Z2Nat.id in Hcomp by lia. rewrite Hcomp.
    destruct (pw_compile (pw_mode cfg) le) as [e|c] eqn:Hcl.
    + assert (∀ l, awake l (set_pc w (WError j e))) as Hawake by (intros []; done).
      split_and!; try done. split; try done. unfold pc_ok. cbn [set_pc ww_pc]. split; [done|]. right.
      destruct rows as [|row rows']; [done|]. exists le, row. split_and!; [by eapply list_elem_of_lookup_2|by left|]. unfold row_value. by rewrite Hcl.
    + split_and!; try done; [|by intros []]. split; cbn [ww_lambdas have_data ww_pc]; try done; [by rewrite length_insert| |].
      * intros l c' Hl. destruct (decide (l = Z.to_nat (pj_lambda job))) as [->|Hne'].
        -- rewrite list_lookup_insert_eq in Hl by lia. injection Hl as <-. eauto.
        -- rewrite list_lookup_insert_ne in Hl by done. eauto.
      * split; [lia|]. exists job. split; [done|]. exists c. apply list_lookup_insert_eq. lia.
Qed.

(** the rows are there: a worker starts with its rows *)
Lemma start_worker_ok s w j :
  worker_ok s w → data_ready s = true → 0 ≤ j → (∃ job, jobs !! Z.to_nat j = Some job ∧ compiled w job) →
  worker_ok s (start_rows cfg w j) ∧ holds (start_rows cfg w j) j ∧ exits (start_rows cfg w j) = 0%nat
  ∧ (∀ l, awake l (start_rows cfg w j)) ∧ ∀ job i, jobs !! Z.to_nat j = Some job → pj_start job ≤ i → owes (start_rows cfg w j) j i.
Proof.
  intros [Ha Hb Hc Hd] Hr Hj0 (job & Hj & Hcomp). unfold start_rows. fold jobs. rewrite Hj.
  destruct (job_lambda _ _ Hj) as (le & Hle & _ & Hse & _). split_and!; try done.
  - split; try done. unfold pc_ok. cbn [ww_pc]. split_and!; [done..|]. exists job, []. split_and!; [done|done|lia|lia| |done].
    exists le. split; [done|]. by rewrite Z.sub_diag.
  - by intros [].
  - intros job' i Hj' Hi. split; [done|]. congruence.
Qed.

(** published data is complete *)
Lemma ready_complete s l ws : pw_inv (mkPwState s l ws) → running l → data_ready s = true → complete s.
Proof.
  intros Hinv Hl Hr. pose proof (inv_leader _ Hinv) as H. cbn [ps_shared ps_leader ps_workers] in H.
  destruct l as [idx rest| | | | | |]; try done; try apply H; destruct H as [H _]; congruence.
Qed.

(** a worker reads the row it is about to evaluate *)
Lemma eval_row_value s i row le c :
  complete s → 0 ≤ i → rows !! Z.to_nat i = Some row → pw_compile (pw_mode cfg) le = inr c →
  let row_in := drop (Z.to_nat (uint64 (i * cols))) (sh_data s) in
  eval_row cfg c row_in = row_value (pw_mode cfg) le row ∧ take (Z.to_nat cols) row_in = row_vals row.
Proof.
  intros [_ Hd] Hi Hrow Hc row_in. destruct (ok_cols _ Hok) as [_ Hc0]. pose proof (ok_num_rows _ Hok) as Hn. pose proof (ok_data_size _ Hok) as Hsz.
  pose proof (lookup_lt_Some _ _ _ Hrow) as Hlt.
  assert (take (Z.to_nat cols) row_in = row_vals row) as Ht.
  { unfold row_in. rewrite uint64_id by (rewrite Hn in Hsz; nia). rewrite Hd.
    replace (Z.to_nat (i * cols)) with (Z.to_nat i * Z.to_nat cols)%nat by lia. apply row_at.
    - rewrite <- (take_ge rows (length rows)) by done. apply rows_uniform.
    - by rewrite list_lookup_fmap, Hrow. }
  split; [|done]. unfold eval_row, row_value. rewrite Hc. fold cols. destruct (Z.eqb_spec (pw_mode cfg) APPLY_PW_CHECKED); [by rewrite Ht|].
  f_equal. by rewrite (ok_local _ Hok), Ht.
Qed.

Lemma job_values_snoc job i vs row le v :
  job_values job i vs → 0 ≤ pj_start job ≤ i → rows !! Z.to_nat i = Some row → lambdas !! Z.to_nat (pj_lambda job) = Some le →
  row_value (pw_mode cfg) le row = inr v → job_values job (i + 1) (vs ++ [v]).
Proof.
  intros (le' & Hle' & HF) Hi Hrow Hle Hv. assert (le' = le) as -> by congruence. exists le. split; [done|].
  replace (Z.to_nat (i + 1 - pj_start job)) with (S (Z.to_nat (i - pj_start job))) by lia.
  rewrite (take_S_r _ _ row); [apply Forall2_app; [done|by repeat constructor]|]. rewrite lookup_drop, <- Hrow. f_equal. lia.
Qed.

(** the slots of two results are different *)
Lemma slot_inj job job' i i' :
  0 ≤ pj_lambda job → 0 ≤ pj_lambda job' → 0 ≤ i < n → 0 ≤ i' < n →
  Z.to_nat (pj_lambda job * n + i) = Z.to_nat (pj_lambda job' * n + i') → pj_lambda job = pj_lambda job' ∧ i = i'.
Proof. intros. assert (pj_lambda job = pj_lambda job') by nia. nia. Qed.

Lemma store_result s job i row le x :
  0 ≤ pj_lambda job → 0 ≤ i < n → lambdas !! Z.to_nat (pj_lambda job) = Some le → rows !! Z.to_nat i = Some row →
  row_value (pw_mode cfg) le row = inr x → pw_agg cfg = false → Z.of_nat (length (sh_out s)) = out_size cfg →
  let v := if pw_flat cfg then row_vals row ++ [x] else [x] in
  ∃ s', store_out s (uint64 (uint64 (pj_lambda job * n) + i)) v = Some s'
  ∧ next_job s' = next_job s ∧ data_ready s' = data_ready s ∧ sh_data s' = sh_data s ∧ length (sh_out s') = length (sh_out s)
  ∧ result_done (sh_out s') job i
  ∧ ∀ job' i', 0 ≤ pj_lambda job' → 0 ≤ i' < n → result_done (sh_out s) job' i' → result_done (sh_out s') job' i'.
Proof.
  intros Hl Hi Hle Hrow Hv Hagg Hlen v. pose proof (ok_result_size _ Hok) as Hsz. pose proof (lookup_lt_Some _ _ _ Hle) as Hlt.
  unfold out_size, num_tuples_result in Hlen. rewrite Hagg, (ok_num_lambdas _ Hok) in Hlen. fold n in Hlen.
  assert (0 ≤ pj_lambda job * n + i < Z.of_nat (length (sh_out s))) as Hslot by nia.
  rewrite (uint64_id (pj_lambda job * n)), uint64_id by nia. unfold store_out.
  destruct (Z.leb_spec 0 (pj_lambda job * n + i)), (Z.ltb_spec (pj_lambda job * n + i) (Z.of_nat (length (sh_out s)))); try lia. cbn [andb].
  eexists. split; [done|]. cbn [next_job data_ready sh_data sh_out]. rewrite length_insert. split_and!; try done.
  - exists le, row, v. split_and!; [done..| |by exists x]. apply list_lookup_insert_eq. lia.
  - intros job' i' Hl' Hi' (le' & row' & v' & Hle' & Hrow' & Hout & Hv').
    destruct (decide (Z.to_nat (pj_lambda job * n + i) = Z.to_nat (pj_lambda job' * n + i'))) as [Heq|Hne].
    + apply slot_inj in Heq as [Hjl ->]; [|done..]. rewrite <- Hjl in *. exists le, row, v. rewrite Hle in Hle'. rewrite Hrow in Hrow'. simplify_eq.
      rewrite <- Hjl. split_and!; [done..| |by exists x]. apply list_lookup_insert_eq. lia.
    + exists le', row', v'. split_and!; [done..| |done]. by rewrite list_lookup_insert_ne.
Qed.

(** a worker's step that keeps its job *)
Lemma inv_same_job s l ws k w w' j :
  pw_inv (mkPwState s l ws) → running l → ws !! k = Some w → (∀ j', holds w j' → j' = j) → exits w = 0%nat →
  worker_ok s w' → holds w' j → exits w' = 0%nat → awake l w' →
  (pw_agg cfg = false → ∀ job i, jobs !! Z.to_nat j = Some job → pj_start job ≤ i < pj_end job → owes w j i → owes w' j i) →
  pw_inv (mkPwState s l (<[k := w']> ws)).
Proof.
  intros Hinv Hl Hk Hj Hx Hw Hh Hx' Ha Ho. eapply worker_local; try done; [congruence|intros _ j' Hj'; apply Hj in Hj' as ->; done|].
  intros Hagg j' job i Hjob Hi How. assert (Z.of_nat j' = j) as <-.
  { apply Hj. unfold owes in How. unfold holds in *. destruct (ww_pc w); try done. by destruct How. }
  apply (Ho Hagg job); [by rewrite Nat2Z.id|done|done].
Qed.

Lemma inv_row s l ws k w j i sum :
  pw_inv (mkPwState s l ws) → running l → ws !! k = Some w → ww_pc w = WRow j i sum →
  pw_inv (mkPwState (worker_row cfg s w j i sum).1 l (<[k := (worker_row cfg s w j i sum).2]> ws)).
Proof.
  intros Hinv Hl Hk Hpc. pose proof (proj1 (Forall_lookup _ _) (inv_workers _ Hinv) k w Hk) as Hwo. cbn [ps_shared] in Hwo.
  pose proof Hwo as [Ha Hb Hc Hd]. unfold pc_ok in Hd. rewrite Hpc in Hd. destruct Hd as (Hj0 & Hr & job & vs & Hj & [c Hcl] & Hi & Hvs & Hsum).
  destruct (job_lambda _ _ Hj) as (le & Hle & Hl0 & Hse & Hen). destruct (Hb _ _ Hcl) as (le' & Hle' & Hcomp). assert (le' = le) as -> by congruence.
  pose proof (ready_complete _ _ _ Hinv Hl Hr) as Hcomplete.
  assert (Hxw : exits w = 0%nat) by (unfold exits; by rewrite Hpc).
  assert (Hhw : ∀ j', holds w j' → j' = j) by (unfold holds; rewrite Hpc; by intros ? <-).
  assert (Hsame : ∀ pc, holds (set_pc w pc) j → exits (set_pc w pc) = 0%nat → pc_ok s (set_pc w pc) → awake l (set_pc w pc) →
    (pw_agg cfg = false → ∀ i', i' < pj_end job → i ≤ i' → owes (set_pc w pc) j i') → pw_inv (mkPwState s l (<[k := set_pc w pc]> ws))).
  { intros pc H1 H2 H3 H4 H5. apply (inv_same_job s l ws k w _ j); try done. intros Hagg job' i' Hj' Hi' How. rewrite Hj in Hj'. injection Hj' as <-.
    unfold owes in How. rewrite Hpc in How. apply H5; [done|lia|apply How]. }
  unfold worker_row. fold jobs n cols. rewrite Hj. destruct (Z.ltb_spec i (pj_end job)) as [Hlt|Hge]; cbn [andb].
  2:{ apply Hsame; try done; [|by destruct l|lia]. split_and!; [done..|]. exists job, vs. split_and!; [done| |done].
      by replace (pj_end job) with i by lia. }
  destruct (Z.ltb_spec i n); [|lia]. destruct (lookup_lt_is_Some_2 rows (Z.to_nat i)) as [row Hrow]; [pose proof (ok_num_rows _ Hok); lia|].
  rewrite Hcl. destruct (eval_row_value s i row le c Hcomplete ltac:(lia) Hrow Hcomp) as [Hev Htake]. fold cols in Hev, Htake. rewrite Hev.
  destruct (row_value (pw_mode cfg) le row) as [e|x] eqn:Hv.
  { apply Hsame; try done; [|by destruct l].
    split; [pose proof (lookup_lt_Some _ _ _ Hj); lia|]. right. exists le, row. split_and!; [by eapply list_elem_of_lookup_2..|done]. }
  pose proof (job_values_snoc job i vs row le x Hvs ltac:(lia) Hrow Hle Hv) as Hvs'.
  destruct (pw_agg cfg) eqn:Hagg.
  { apply Hsame; try done; [|by destruct l]. split_and!; [done..|]. exists job, (vs ++ [x]).
    split_and!; [done|by exists c|lia|lia|done|]. intros _. unfold sum_of. rewrite foldl_app. cbn [foldl]. f_equal. by apply Hsum. }
  rewrite Htake. destruct (store_result s job i row le x) as (s' & -> & Hn' & Hr' & Hd' & Ho' & Hres & Hold); try done; [lia|exact (inv_out _ Hinv)|].
  cbn [fst snd]. apply (worker_keeps s l ws k w s'); try done; [lia|left; unfold exits; rewrite Hpc; cbn [set_pc ww_pc]; lia| |by destruct l|].
  - apply (worker_ok_later s); [by rewrite Hr'|lia|]. split; try done. split_and!; [done..|]. exists job, (vs ++ [x]).
    split_and!; [done|by exists c|lia|lia|done|]. by rewrite Hagg.
  - intros j' job' Hj' Hjn. rewrite Hn' in Hjn. pose proof (inv_jobs _ Hinv j' job' Hj' Hjn) as Hjd. cbn [ps_shared ps_workers] in Hjd.
    unfold job_done in *. rewrite Hagg in *. intros i' Hi'. destruct (job_lambda _ _ Hj') as (_ & _ & Hl0' & Hse' & Hen').
    destruct (Hjd i' Hi') as [Hdone|(w0 & Hin & How)]; [left; apply Hold; [done|lia|done]|].
    destruct (elem_insert ws k w (set_pc w (WRow j (i + 1) sum)) w0 Hk Hin) as [->|Hin']; [|right; by exists w0].
    unfold owes in How. rewrite Hpc in How. destruct How as [-> Hii].
    rewrite Nat2Z.id in Hj. assert (job' = job) as -> by congruence. destruct (decide (i' = i)) as [->|Hne]; [by left|right].
    exists (set_pc w (WRow (Z.of_nat j') (i + 1) sum)). split; [by eapply elem_inserted|]. split; [done|lia].
Qed.

Lemma inv_finish s l ws k w j sum s' w' :
  pw_inv (mkPwState s l ws) → running l → ws !! k = Some w → ww_pc w = WFinish j sum → worker_step cfg s w = Some (s', w') →
  pw_inv (mkPwState s' l (<[k := w']> ws)).
Proof.
  intros Hinv Hl Hk Hpc Hstep. pose proof (proj1 (Forall_lookup _ _) (inv_workers _ Hinv) k w Hk) as Hwo. cbn [ps_shared] in Hwo.
  pose proof Hwo as [Ha Hb Hc Hd]. unfold pc_ok in Hd. rewrite Hpc in Hd. destruct Hd as (Hj0 & Hr & job & vs & Hj & Hvs & Hsum).
  unfold worker_step in Hstep. rewrite Hpc in Hstep. assert (worker_ok s (set_pc w WClaim)) as Hw' by (by split).
  assert (awake l (set_pc w WClaim)) as Haw by (by destruct l).
  destruct (pw_agg cfg) eqn:Hagg.
  - pose proof (inv_out _ Hinv) as Hlen. cbn [ps_shared] in Hlen. unfold out_size in Hlen. rewrite Hagg in Hlen. fold jobs in Hlen.
    pose proof (lookup_lt_Some _ _ _ Hj) as Hlt. unfold store_out in Hstep.
    destruct (Z.leb_spec 0 j), (Z.ltb_spec j (Z.of_nat (length (sh_out s)))); try lia. cbn [andb] in Hstep. injection Hstep as <- <-.
    eapply worker_keeps; try done; cbn [next_job data_ready sh_data sh_out]; [by rewrite length_insert|left; unfold exits; rewrite Hpc; done|].
    intros j' job' Hj' Hjn. pose proof (inv_jobs _ Hinv j' job' Hj' Hjn) as Hjd. cbn [ps_shared ps_workers] in Hjd.
    unfold job_done in *. rewrite Hagg in *. destruct (decide (j' = Z.to_nat j)) as [->|Hne].
    + left. assert (job' = job) as -> by congruence. exists vs. split; [done|]. rewrite list_lookup_insert_eq by lia. by rewrite Hsum.
    + destruct Hjd as [(vs' & Hvs' & Ho)|(w0 & Hin & Hh)].
      * left. exists vs'. split; [done|]. by rewrite list_lookup_insert_ne.
      * destruct (elem_insert ws k w (set_pc w WClaim) w0 Hk Hin) as [->|Hin']; [|right; by exists w0]. unfold holds in Hh. rewrite Hpc in Hh. lia.
  - injection Hstep as <- <-. eapply worker_local; try done; [unfold exits; by rewrite Hpc|by rewrite Hagg|].
    intros _ j' job' i' _ _ How. unfold owes in How. by rewrite Hpc in How.
Qed.

(** a worker waits for the rows *)
Lemma inv_wait s l ws k w j w' :
  pw_inv (mkPwState s l ws) → running l → ws !! k = Some w → ww_pc w = WReady j ∨ ww_pc w = WWait j ∨ ww_pc w = WSleep j →
  worker_step cfg s w = Some (s, w') → pw_inv (mkPwState s l (<[k := w']> ws)).
Proof.
  intros Hinv Hl Hk Hpc Hstep. pose proof (proj1 (Forall_lookup _ _) (inv_workers _ Hinv) k w Hk) as Hwo. cbn [ps_shared] in Hwo.
  pose proof Hwo as [Ha Hb Hc Hd].
  assert (0 ≤ j ∧ ∃ job, jobs !! Z.to_nat j = Some job ∧ compiled w job) as [Hj0 Hjob] by (unfold pc_ok in Hd; by destruct Hpc as [Hp|[Hp|Hp]]; rewrite Hp in Hd).
  assert (exits w = 0%nat ∧ ∀ j', holds w j' → j' = j) as [Hx Hh] by (unfold exits, holds; destruct Hpc as [Hp|[Hp|Hp]]; rewrite Hp; by split; [|intros ? <-]).
  assert (∀ w', ww_pc w' = WWait j ∨ ww_pc w' = WSleep j ∧ (l = LWaitWorkers → False) → ww_lambdas w' = ww_lambdas w → have_data w' = have_data w →
    pw_inv (mkPwState s l (<[k := w']> ws))) as Hkeep.
  { intros v Hv Hvl Hvh. apply (inv_same_job s l ws k w v j); try done; unfold holds, exits, awake, owes.
    - split; [by rewrite Hvl|by rewrite Hvl|by rewrite Hvh|]. unfold pc_ok, compiled. rewrite Hvl. destruct Hv as [->|[-> _]]; done.
    - destruct Hv as [->|[-> _]]; done.
    - destruct Hv as [->|[-> _]]; done.
    - destruct Hv as [->|[-> Hne]]; [by destruct l|destruct l; try done; by destruct Hne].
    - intros _ job i _ _ _. unfold holds. destruct Hv as [->|[-> _]]; done. }
  assert (data_ready s = true → pw_inv (mkPwState s l (<[k := start_rows cfg w j]> ws))) as Hstart.
  { intros Hr. destruct (start_worker_ok s w j Hwo Hr Hj0 Hjob) as (H1 & H2 & H3 & H4 & H5).
    apply (inv_same_job s l ws k w _ j); try done. intros _ job i Hj Hi _. eapply H5; [done|lia]. }
  unfold worker_step in Hstep. destruct Hpc as [Hp|[Hp|Hp]]; rewrite Hp in Hstep.
  - destruct (have_data w || data_ready s) eqn:Hd'; injection Hstep as <-; [apply Hstart|apply Hkeep; auto].
    apply orb_true_iff in Hd' as [Hd'|Hd']; auto.
  - destruct (data_ready s) eqn:Hr; injection Hstep as <-; [auto|]. apply Hkeep; try done. right. split; [done|].
    intros ->. pose proof (inv_leader _ Hinv) as [Hd' _]. cbn [ps_shared] in Hd'. congruence.
  - destruct (ww_listed w); [done|]. injection Hstep as <-. apply Hkeep; auto.
Qed.

Lemma inv_worker_step s l ws k w s' w' :
  rows ≠ [] → (length ws ≤ launched)%nat → pw_inv (mkPwState s l ws) → running l → ws !! k = Some w →
  worker_step cfg s w = Some (s', w') → pw_inv (mkPwState s' l (<[k := w']> ws)).
Proof.
  intros Hne Hlen Hinv Hl Hk Hstep. pose proof (proj1 (Forall_lookup _ _) (inv_workers _ Hinv) k w Hk) as Hwo. cbn [ps_shared] in Hwo.
  assert (∀ j, ww_pc w = WReady j ∨ ww_pc w = WWait j ∨ ww_pc w = WSleep j → pw_inv (mkPwState s' l (<[k := w']> ws))) as Hwait.
  { intros j Hpc. assert (s' = s) as ->; [|by eapply inv_wait]. unfold worker_step in Hstep.
    destruct Hpc as [Hp|[Hp|Hp]]; rewrite Hp in Hstep; repeat case_match; congruence. }
  destruct (ww_pc w) as [|j|j|j|j|j i sum|j sum| |j e|] eqn:Hpc; eauto; try (by unfold worker_step in Hstep; rewrite Hpc in Hstep).
  - unfold worker_step in Hstep. rewrite Hpc in Hstep. injection Hstep as <- <-. by apply inv_claim.
  - unfold worker_step in Hstep. rewrite Hpc in Hstep. injection Hstep as <- <-.
    destruct (compile_worker_ok s w j Hne Hwo Hpc) as (H1 & H2 & H3 & H4 & H5). apply (inv_same_job s l ws k w _ j); try done.
    + unfold holds. rewrite Hpc. by intros ? <-.
    + unfold exits. by rewrite Hpc.
  - unfold worker_step in Hstep. rewrite Hpc in Hstep. injection Hstep as Hstep. pose proof (inv_row s l ws k w j i sum Hinv Hl Hk Hpc) as H.
    by rewrite Hstep in H.
  - by eapply inv_finish.
Qed.

Lemma pw_inv_step p q :
  rows ≠ [] → (length (ps_workers p) ≤ launched)%nat → pw_inv p → pw_step cfg attnames p q →
  pw_inv q ∧ length (ps_workers q) = length (ps_workers p).
Proof.
  intros Hne Hlen Hinv Hstep. split.
  - destruct p as [s l ws], q as [s' l' ws']. destruct (inv_leader_step _ _ _ _ _ _ Hinv Hstep) as [|(k & w & w' & Hk & Hw & -> & -> & Hl)]; [done|].
    by eapply inv_worker_step.
  - inversion Hstep; subst; cbn [ps_workers]; rewrite ?length_fmap, ?length_insert; done.
Qed.

Lemma sum_exits_new k : sum_list_with exits (repeat (new_worker (C := C) cfg) k) = 0%nat.
Proof. by induction k. Qed.

Lemma inv_start data out :
  length data = (length rows * Z.to_nat cols)%nat → Z.of_nat (length out) = out_size cfg → pw_inv (pw_start cfg rows data out launched).
Proof.
  intros Hd Ho. unfold pw_start. split; cbn [ps_shared ps_leader ps_workers sh_data sh_out next_job data_ready]; try done.
  - rewrite sum_exits_new. lia.
  - apply Forall_forall. intros w ->%list_elem_of_In%repeat_spec. split; cbn [new_worker ww_lambdas have_data]; try done.
    + rewrite repeat_length, (ok_num_lambdas _ Hok). lia.
    + intros l c Hl. apply list_elem_of_lookup_2, list_elem_of_In, repeat_spec in Hl. done.
  - by apply awake_any.
  - lia.
Qed.

Lemma inv_steps k data out p :
  rows ≠ [] → length data = (length rows * Z.to_nat cols)%nat → Z.of_nat (length out) = out_size cfg →
  pw_steps cfg attnames k (pw_start cfg rows data out launched) p → pw_inv p ∧ length (ps_workers p) = launched.
Proof.
  intros Hne Hd Ho Hs. remember (pw_start cfg rows data out launched) as p0 eqn:Hp. induction Hs as [p|k p q r Hpq IH Hqr].
  - subst p. split; [by apply inv_start|apply repeat_length].
  - destruct (IH Hp) as [Hq Hlen]. destruct (pw_inv_step q r Hne) as [Hr Hl]; [lia|done..|]. split; [done|congruence].
Qed.
End Steps.
End Run.

(** * Progress and termination of the parallel workers

    A run that is not over can go on: in particular no worker sleeps through
    the publication of the rows.  And every step decreases a measure, so that
    no run is longer than the measure of its first state. *)

Section Progress.
Context `{NIO : NodeIO} `{PP : PwParams C} (cfg : pw_config) (attnames : list cstr).
Context (rows : list (list (option Z))) (lambdas : list LambdaExpr) (launched : nat).
Context (Hok : pw_ok cfg attnames rows lambdas launched).

Let n := pw_num_tuples cfg.
Let jobs := pw_job_array cfg.

(** ** Progress *)

(** only a sleeper on the wait list and a worker that is over have no step *)
Lemma worker_stuck s (w : pw_worker C) :
  worker_step cfg s w = None →
  match ww_pc w with WSleep _ => ww_listed w = true | WExit | WError _ _ | WUndefined => True | _ => False end.
Proof. unfold worker_step. destruct (ww_pc w); intros H; repeat case_match; done. Qed.

Lemma all_exit_or (ws : list (pw_worker C)) : Forall (fun w => ww_pc w = WExit) ws ∨ ∃ w, w ∈ ws ∧ ww_pc w ≠ WExit.
Proof.
  induction ws as [|w ws IH]; [by left|]. destruct (ww_pc w) eqn:Hpc; [right..| |right|right]; try (exists w; split; [left|congruence]).
  destruct IH as [IH|(w' & Hin & Hw')]; [left; by constructor|right; exists w'; split; [by right|done]].
Qed.

Lemma pw_progress p : pw_inv cfg attnames rows lambdas p → running (ps_leader p) → ∃ q, pw_step cfg attnames p q.
Proof.
  destruct p as [s l ws]. cbn [ps_leader]. intros Hinv Hl. pose proof (inv_leader _ _ _ _ _ Hinv) as Hlo. pose proof (inv_data _ _ _ _ _ Hinv) as Hd.
  cbn [ps_shared ps_leader ps_workers] in Hlo, Hd. destruct l as [idx rest| | | | | |]; try done; [|eexists; constructor|eexists; constructor|].
  - destruct rest as [|row rest]; [eexists; constructor|]. destruct (null_column attnames row) as [name|] eqn:Hnull; [eexists; by eapply step_copy_null|].
    destruct Hlo as (_ & Hi & Hrest & _ & Ht). destruct (copy_row_ok _ _ _ _ _ Hok s idx row rest Hd Hi Hrest Ht) as (data & Hc & _).
    eexists. by eapply step_copy.
  - destruct (all_exit_or ws) as [Hall|(w & Hin & Hne)]; [eexists; by apply step_finished|].
    apply list_elem_of_lookup in Hin as [k Hk]. destruct (worker_step cfg s w) as [[s' w']|] eqn:Hw; [eexists; by eapply step_worker|].
    pose proof (proj1 (Forall_lookup _ _) (inv_workers _ _ _ _ _ Hinv) k w Hk) as [_ _ _ Hpc]. pose proof (proj1 (Forall_lookup _ _) (inv_awake _ _ _ _ _ Hinv) k w Hk) as Haw.
    cbn [ps_leader ps_shared] in *. pose proof (worker_stuck _ _ Hw) as Hst. unfold pc_ok in Hpc. unfold awake in Haw.
    destruct (ww_pc w) as [| | | | | | | |j e|] eqn:Hp; try done; [congruence|]. eexists. eapply step_rethrow; [by eapply list_elem_of_lookup_2|done].
Qed.

(** ** Termination *)

(** who is about to sleep, or sleeps, is on the wait list until the rows are published *)
Definition wait_listed (s : pw_shared) (w : pw_worker C) : Prop :=
  match ww_pc w with WWait _ | WSleep _ => ww_listed w = false → data_ready s = true | _ => True end.

Definition waits_listed (p : pw_state C) : Prop := Forall (wait_listed (ps_shared p)) (ps_workers p).

Definition leader_measure (l : leader_pc) : nat :=
  match l with LCopy _ rest => length rest + 4 | LPublish => 3 | LBroadcast => 2 | LWaitWorkers => 1 | _ => 0 end.

Definition worker_measure (w : pw_worker C) : nat :=
  let m := Z.to_nat n in
  match ww_pc w with
  | WClaim => 1
  | WCompile _ => m + 8
  | WReady _ => m + 7
  | WWait _ => m + 5
  | WSleep _ => if ww_listed w then m + 4 else m + 6
  | WRow _ i _ => Z.to_nat (n - i) + 3
  | WFinish _ _ => 2
  | WExit | WError _ _ | WUndefined => 0
  end.

(** a broadcast wakes every sleeper, which raises the measure of each by 2 *)
Definition pw_measure (p : pw_state C) : nat :=
  leader_measure (ps_leader p) * (2 * length (ps_workers p) + 1)
  + Z.to_nat (Z.of_nat (length jobs) - next_job (ps_shared p)) * (Z.to_nat n + 8)
  + sum_list_with worker_measure (ps_workers p).

Lemma sum_measure_signal ws :
  (sum_list_with worker_measure (signal_worker <$> ws) ≤ sum_list_with worker_measure ws + 2 * length ws)%nat.
Proof.
  induction ws as [|w ws IH]; [done|]. rewrite fmap_cons. cbn [sum_list_with length]. assert (worker_measure (signal_worker w) ≤ worker_measure w + 2)%nat; [|lia].
  unfold worker_measure, signal_worker. cbn [ww_pc ww_listed]. destruct (ww_pc w); try lia. destruct (ww_listed w); lia.
Qed.

Lemma compile_measure w j : (worker_measure (worker_compile cfg w j) ≤ Z.to_nat n + 7)%nat.
Proof. unfold worker_compile. repeat case_match; cbn [set_pc worker_measure ww_pc]; lia. Qed.

Lemma start_measure w j : (worker_measure (start_rows cfg w j) ≤ Z.to_nat n + 3)%nat.
Proof.
  unfold start_rows. case_match eqn:Hj; cbn [set_pc worker_measure ww_pc]; [|lia].
  destruct (job_lambda _ _ _ _ _ Hok _ _ Hj) as (le & _ & _ & Hs & _). lia.
Qed.

Lemma row_measure s w j i sum :
  (worker_measure (worker_row cfg s w j i sum).2 < Z.to_nat (n - i) + 3)%nat ∧ next_job (worker_row cfg s w j i sum).1 = next_job s.
Proof.
  unfold worker_row, store_out. repeat case_match; simplify_eq; cbn [fst snd set_pc worker_measure ww_pc next_job]; try (split; [lia|done]).
  all: match goal with H : (_ <? _) && (_ <? _) = true |- _ => apply andb_true_iff in H as [_ H%Z.ltb_lt]; fold n in H end; split; [lia|done].
Qed.

(** a worker's step, which leaves the leader alone *)
Lemma pw_worker_decreases s l ws k w s' w' :
  (length ws ≤ launched)%nat → pw_inv cfg attnames rows lambdas (mkPwState s l ws) → waits_listed (mkPwState s l ws) →
  ws !! k = Some w → worker_step cfg s w = Some (s', w') →
  (Z.to_nat (Z.of_nat (length jobs) - next_job s') * (Z.to_nat n + 8) + worker_measure w'
   < Z.to_nat (Z.of_nat (length jobs) - next_job s) * (Z.to_nat n + 8) + worker_measure w)%nat.
Proof.
  intros Hlen Hinv Hwl Hk Hstep. pose proof (proj1 (Forall_lookup _ _) Hwl k w Hk) as Hlisted. unfold wait_listed in Hlisted. cbn [ps_shared] in Hlisted.
  unfold worker_step in Hstep. unfold worker_measure at 2. destruct (ww_pc w) as [|j|j|j|j|j i sum|j sum| |j e|] eqn:Hpc; try done.
  - destruct (claim_no_wrap _ _ _ _ _ Hok s l ws k w Hlen Hinv Hk Hpc) as [H0 Hu]. rewrite Hu in Hstep. injection Hstep as <- <-. cbn [next_job].
    fold jobs. destruct (Z.leb_spec (Z.of_nat (length jobs)) (next_job s)); cbn [set_pc worker_measure ww_pc]; [nia|].
    replace (Z.to_nat (Z.of_nat (length jobs) - next_job s)) with (S (Z.to_nat (Z.of_nat (length jobs) - (next_job s + 1)))) by lia. lia.
  - injection Hstep as <- <-. pose proof (compile_measure w j). lia.
  - destruct (_ || _); injection Hstep as <- <-; [pose proof (start_measure w j); lia|cbn [worker_measure ww_pc]; lia].
  - destruct (data_ready s); injection Hstep as <- <-; [pose proof (start_measure w j); lia|cbn [set_pc worker_measure ww_pc ww_listed]].
    destruct (ww_listed w); [lia|by specialize (Hlisted eq_refl)].
  - destruct (ww_listed w); [done|]. injection Hstep as <- <-. cbn [worker_measure ww_pc]. lia.
  - injection Hstep as Hstep. pose proof (row_measure s w j i sum) as [Hm Hn]. rewrite Hstep in Hm, Hn. cbn [fst snd] in *. rewrite Hn. lia.
  - unfold store_out in Hstep. repeat case_match; simplify_eq; cbn [set_pc worker_measure ww_pc next_job]; lia.
Qed.

Lemma pw_decreases p q :
  (length (ps_workers p) ≤ launched)%nat → pw_inv cfg attnames rows lambdas p → waits_listed p →
  pw_step cfg attnames p q → (pw_measure q < pw_measure p)%nat.
Proof.
  intros Hlen Hinv Hwl Hstep.
  destruct Hstep as [s ws idx row rest s' Hnull Hcopy|s ws idx row rest name Hnull|s ws idx row rest Hnull Hcopy|s ws idx|s ws|s ws|s ws w j e Hin Hpc|s ws Hall|s l ws k w s' w' Hrun Hk Hw];
    unfold pw_measure; cbn [ps_leader ps_shared ps_workers leader_measure length next_job] in *; try lia.
  - assert (next_job s' = next_job s) as ->; [|lia]. unfold copy_row in Hcopy. destruct (memcpy_at _ _ _); try done. by injection Hcopy as <-.
  - pose proof (sum_measure_signal ws). rewrite length_fmap. lia.
  - pose proof (pw_worker_decreases s l ws k w s' w' Hlen Hinv Hwl Hk Hw). pose proof (sum_with_insert worker_measure ws k w w' Hk). rewrite length_insert. lia.
Qed.

Lemma listed_later s s' ws : (data_ready s = true → data_ready s' = true) → Forall (wait_listed s) ws → Forall (wait_listed s') ws.
Proof. intros Hr Hw. eapply Forall_impl; [exact Hw|]. intros w. unfold wait_listed. destruct (ww_pc w); auto. Qed.

Lemma listed_worker s w s' w' : worker_step cfg s w = Some (s', w') → wait_listed s w → wait_listed s' w' ∧ data_ready s' = data_ready s.
Proof.
  unfold worker_step, worker_compile, start_rows, worker_row, store_out, wait_listed.
  destruct (ww_pc w) eqn:Hpc; intros Hstep Hw; repeat case_match; simplify_eq; try done. split; [|done]. intros Hl. by specialize (Hw Hl).
Qed.

Lemma listed_step p q :
  pw_inv cfg attnames rows lambdas p → waits_listed p → pw_step cfg attnames p q → waits_listed q.
Proof.
  unfold waits_listed. intros Hinv Hwl Hstep.
  destruct Hstep as [s ws idx row rest s' Hnull Hcopy|s ws idx row rest name Hnull|s ws idx row rest Hnull Hcopy|s ws idx|s ws|s ws|s ws w j e Hin Hpc|s ws Hall|s l ws k w s' w' Hrun Hk Hw];
    cbn [ps_shared ps_workers] in *; try done.
  - eapply listed_later; [|exact Hwl]. unfold copy_row in Hcopy. destruct (memcpy_at _ _ _); try done. by injection Hcopy as <-.
  - by eapply listed_later.
  - apply Forall_fmap, Forall_true. intros w. unfold compose, wait_listed, signal_worker. cbn [ww_pc ww_listed]. pose proof (inv_leader _ _ _ _ _ Hinv) as [Hr _]. cbn [ps_shared] in Hr. by destruct (ww_pc w).
  - destruct (listed_worker s w s' w' Hw (proj1 (Forall_lookup _ _) Hwl k w Hk)) as [Hw' Hr].
    apply Forall_insert; [|done]. eapply listed_later; [|exact Hwl]. by rewrite Hr.
Qed.

(** a run is at most as long as the measure of its first state *)
Lemma pw_steps_bounded k data out p :
  rows ≠ [] → length data = (length rows * Z.to_nat (pw_num_cols cfg))%nat → Z.of_nat (length out) = out_size cfg →
  pw_steps cfg attnames k (pw_start cfg rows data out launched) p →
  (k + pw_measure p ≤ pw_measure (pw_start cfg rows data out launched))%nat ∧ waits_listed p.
Proof.
  intros Hne Hd Ho Hs. pose proof (inv_steps _ _ _ _ _ Hok) as Hinv.
  remember (pw_start cfg rows data out launched) as p0 eqn:Hp. induction Hs as [p|k p q r Hpq IH Hqr].
  - split; [lia|]. subst p. apply Forall_forall. by intros w ->%list_elem_of_In%repeat_spec.
  - destruct (IH Hp) as [Hk Hwl]. subst p. destruct (Hinv _ _ _ _ Hne Hd Ho Hpq) as [Hq Hlen].
    split; [|by eapply listed_step]. pose proof (pw_decreases q r ltac:(lia) Hq Hwl Hqr). lia.
Qed.

Lemma sum_measure_new m : sum_list_with worker_measure (repeat (new_worker (C := C) cfg) m) = m.
Proof. induction m as [|m IH]; [done|]. cbn [repeat sum_list_with]. by rewrite IH. Qed.

(** the measure of the first state *)
Lemma start_bound data out :
  pw_measure (pw_start cfg rows data out launched)
  = ((length rows + 4) * (2 * launched + 1) + length jobs * (Z.to_nat n + 8) + launched)%nat.
Proof.
  unfold pw_measure, pw_start. cbn [ps_leader ps_shared ps_workers leader_measure next_job]. rewrite repeat_length, Z.sub_0_r, Nat2Z.id.
  by rewrite sum_measure_new.
Qed.
End Progress.
