(* ===== verification/ApplyPwResult.v ===== *)
(** * The result of a run on parallel workers

    What the output region holds when the workers are done, and that the setup
    of the run is the one the invariant asks for. *)

From S2P Require Import Prelude Bitmapset Nodes NodesFacts Serialize Inject Typing Eval Semantics ApplyMt ApplyMtFacts ApplyPw ApplyPwFacts ApplyPwRun.

(** the value of a lambda on a row, where it has one *)
Definition row_result `{PP : PwParams C} (mode : Z) (le : LambdaExpr) (row : list (option Z)) : Z :=
  match row_value mode le row with inr v => v | inl _ => 0 end.

(** every lambda has a value on every row *)
Definition all_values `{PP : PwParams C} (mode : Z) (rows : list (list (option Z))) (lambdas : list LambdaExpr) : Prop :=
  ∀ le row, le ∈ lambdas → row ∈ rows → row_value mode le row = inr (row_result mode le row).

(** the values of the rows from [start] to [end] *)
Definition slice {A} (start stop : Z) (vs : list A) : list A := take (Z.to_nat (stop - start)) (drop (Z.to_nat start) vs).

(** the sums of a lambda's values, chunk by chunk of the rows *)
Definition chunk_sums `{PP : PwParams C} (chunks n : Z) (vs : list Z) : list Z :=
  (fun c => sum_of (slice (n * c / chunks) (n * (c + 1) / chunks) vs)) <$> seqZ 0 chunks.

Lemma slice_fmap {A B} (f : A → B) start stop vs : slice start stop (f <$> vs) = f <$> slice start stop vs.
Proof. unfold slice. by rewrite skipn_map, firstn_map. Qed.

Lemma fmap_seqZ_lookup {A B} (f : Z → B) (g : A → B) (l : list A) :
  (∀ i x, l !! i = Some x → f (Z.of_nat i) = g x) → f <$> seqZ 0 (Z.of_nat (length l)) = g <$> l.
Proof.
  intros H. apply list_eq. intros i. rewrite !list_lookup_fmap. destruct (l !! i) as [x|] eqn:Hi.
  - pose proof (lookup_lt_Some _ _ _ Hi). rewrite lookup_seqZ_lt by lia. simpl. f_equal. by apply H.
  - apply lookup_ge_None in Hi. by rewrite lookup_seqZ_ge by lia.
Qed.

Lemma foldl_head {A} (f : Z → Z → Z) (g : A → Z) vs l acc :
  Forall2 (fun v x => v = [g x]) vs l → foldl (fun acc v => f acc (default 0 (head v))) acc vs = foldl f acc (g <$> l).
Proof. intros HF. revert acc. induction HF as [|v x vs l -> _ IH]; intros acc; [done|]. apply IH. Qed.

Section Done.
Context `{NIO : NodeIO} `{PP : PwParams C} (cfg : pw_config) (attnames : list cstr).
Context (rows : list (list (option Z))) (lambdas : list LambdaExpr) (launched : nat).
Context (Hok : pw_ok cfg attnames rows lambdas launched).

Let n := pw_num_tuples cfg.
Let cols := pw_num_cols cfg.
Let jobs := pw_job_array cfg.
Let val := row_result (pw_mode cfg).

Context (s : pw_shared) (ws : list (pw_worker C)).
Context (Hinv : pw_inv cfg attnames rows lambdas (mkPwState s LDone ws)) (Hws : ws ≠ []).

Lemma done_exit w : w ∈ ws → ww_pc w = WExit.
Proof. pose proof (inv_leader _ _ _ _ _ Hinv) as [_ HF]. cbn [ps_workers] in HF. rewrite Forall_forall in HF. apply HF. Qed.

(** nobody is left to owe anything *)
Lemma done_job j job :
  jobs !! j = Some job →
  if pw_agg cfg then sum_done cfg rows lambdas (sh_out s) j job
  else ∀ i, pj_start job ≤ i < pj_end job → result_done cfg rows lambdas (sh_out s) job i.
Proof.
  intros Hj. assert (Z.of_nat (length jobs) ≤ next_job s) as Hn.
  { assert (∃ w, w ∈ ws) as [w Hin] by (clear Hinv; destruct ws as [|w ?]; [done|exists w; left]).
    pose proof (inv_workers _ _ _ _ _ Hinv) as HF. cbn [ps_workers ps_shared] in HF. rewrite Forall_forall in HF.
    pose proof (wo_pc _ _ _ _ _ _ (HF w Hin)) as Hpc. unfold pc_ok in Hpc. by rewrite (done_exit w Hin) in Hpc. }
  pose proof (lookup_lt_Some _ _ _ Hj). pose proof (inv_jobs _ _ _ _ _ Hinv j job Hj ltac:(cbn [ps_shared]; lia)) as Hd.
  cbn [ps_shared ps_workers] in Hd. unfold job_done in Hd. destruct (pw_agg cfg).
  - destruct Hd as [|(w & Hin & Hh)]; [done|]. unfold holds in Hh. by rewrite (done_exit w Hin) in Hh.
  - intros i Hi. destruct (Hd i Hi) as [|(w & Hin & Hh)]; [done|]. unfold owes, holds in Hh. by rewrite (done_exit w Hin) in Hh.
Qed.

(** the values of the rows of a job *)
Lemma job_values_result job vs :
  job_values cfg rows lambdas job (pj_end job) vs →
  ∃ le, lambdas !! Z.to_nat (pj_lambda job) = Some le
  ∧ vs = val le <$> take (Z.to_nat (pj_end job - pj_start job)) (drop (Z.to_nat (pj_start job)) rows)
  ∧ Forall (fun row => row_value (pw_mode cfg) le row = inr (val le row)) (take (Z.to_nat (pj_end job - pj_start job)) (drop (Z.to_nat (pj_start job)) rows)).
Proof.
  intros (le & Hle & HF). exists le. split; [done|]. induction HF as [|row v rs vs Hv HF IH]; [done|]. destruct IH as [-> IH].
  assert (val le row = v) as Hval by (unfold val, row_result; by rewrite Hv). split; [by rewrite fmap_cons, Hval|]. constructor; [by rewrite Hval|done].
Qed.

Lemma done_values : all_values (pw_mode cfg) rows lambdas.
Proof.
  intros le row [l Hl]%list_elem_of_lookup [i Hi]%list_elem_of_lookup. pose proof (lookup_lt_Some _ _ _ Hl). pose proof (lookup_lt_Some _ _ _ Hi).
  pose proof (ok_num_rows _ _ _ _ _ Hok) as Hn.
  destruct (jobs_cover _ _ _ (ok_jobs _ _ _ _ _ Hok) (Z.of_nat l) (Z.of_nat i)) as (job & [j Hj]%list_elem_of_lookup & Hjl & Hji); [lia..|].
  pose proof (done_job j job Hj) as Hd. destruct (pw_agg cfg).
  - destruct Hd as (vs & Hvs & _). destruct (job_values_result job vs Hvs) as (le' & Hle' & _ & HF). rewrite Hjl, Nat2Z.id in Hle'.
    assert (le' = le) as -> by congruence. refine (Forall_lookup_1 _ _ (i - Z.to_nat (pj_start job)) row HF _).
    destruct (job_lambda _ _ _ _ _ Hok _ _ Hj) as (_ & _ & _ & Hs & He). rewrite lookup_take_lt, lookup_drop by lia. rewrite <- Hi. f_equal. lia.
  - destruct (Hd _ Hji) as (le' & row' & v & Hle' & Hrow' & _ & x & Hx & _). rewrite Hjl, Nat2Z.id in Hle'. rewrite Nat2Z.id in Hrow'.
    simplify_eq. unfold row_result. by rewrite Hx.
Qed.

(** the rows as the leader copied them *)
Lemma done_data : Forall no_nulls rows ∧ sh_data s = concat (row_vals <$> rows).
Proof. apply (inv_leader _ _ _ _ _ Hinv). Qed.

Lemma done_rows :
  pw_agg cfg = false → pw_output cfg s = Ok (apply_all (fun le row => row_vals row ++ [val le row]) rows lambdas).
Proof.
  intros Hagg. unfold pw_output, num_tuples_result. rewrite Hagg. destruct (ok_cols _ _ _ _ _ Hok) as [_ Hc0].
  pose proof (ok_num_rows _ _ _ _ _ Hok) as Hn. pose proof (ok_num_lambdas _ _ _ _ _ Hok) as Hnl. fold n in Hn. fold n. rewrite Hn, Hnl.
  apply omapM_Forall2, Forall2_same_length_lookup. split; [rewrite length_seqZ, apply_all_length; lia|].
  intros i z out Hz Hout. apply lookup_seqZ in Hz as [-> Hi]. rewrite Z.add_0_l.
  destruct (result_index (rows:=rows) (funcs:=lambdas) i) as (l & k & le & row & -> & Hl & Hk); [lia|].
  pose proof (lookup_lt_Some _ _ _ Hk). pose proof (lookup_lt_Some _ _ _ Hl).
  rewrite (apply_all_lookup _ l k le row Hl Hk) in Hout. injection Hout as <-.
  destruct (jobs_cover _ _ _ (ok_jobs _ _ _ _ _ Hok) (Z.of_nat l) (Z.of_nat k)) as (job & [j Hj]%list_elem_of_lookup & Hjl & Hji); [fold n; lia..|].
  pose proof (done_job j job Hj) as Hd. rewrite Hagg in Hd. destruct (Hd _ Hji) as (le' & row' & v & Hle' & Hrow' & Hv & x & Hx & ->).
  rewrite Hjl, Nat2Z.id in Hle'. rewrite Nat2Z.id in Hrow'. rewrite Hjl in Hv. fold n in Hv. rewrite Hn in Hv.
  rewrite Hl in Hle'. injection Hle' as <-. rewrite Hk in Hrow'. injection Hrow' as <-.
  replace (Z.to_nat (Z.of_nat l * Z.of_nat (length rows) + Z.of_nat k)) with (l * length rows + k)%nat in Hv by lia.
  unfold pw_emit_row. rewrite Nat2Z.id, Hv. cbn [deref mbind outcome_bind]. unfold val, row_result. rewrite Hx.
  destruct (pw_flat cfg); [done|]. f_equal. f_equal. fold n cols. rewrite Hn, Z.rem_mod_nonneg, Nat2Z.inj_add, Nat2Z.inj_mul, Z.add_comm, Z.mod_add, Z.mod_small by lia.
  replace (Z.to_nat (Z.of_nat k * cols)) with (k * Z.to_nat cols)%nat by lia. destruct done_data as [_ ->]. apply row_at.
  - apply Forall_fmap. eapply Forall_impl; [exact (ok_rows _ _ _ _ _ Hok)|]. intros r Hr. unfold compose, row_vals. by rewrite length_fmap.
  - by rewrite list_lookup_fmap, Hk.
Qed.

Lemma done_sums :
  pw_agg cfg = true →
  Forall2 (fun v job => ∃ le, lambdas !! Z.to_nat (pj_lambda job) = Some le
             ∧ v = [sum_of (slice (pj_start job) (pj_end job) (val le <$> rows))]) (sh_out s) jobs.
Proof.
  intros Hagg. apply Forall2_same_length_lookup. pose proof (inv_out _ _ _ _ _ Hinv) as Hlen. cbn [ps_shared] in Hlen. unfold out_size in Hlen.
  rewrite Hagg in Hlen. fold jobs in Hlen. split; [lia|]. intros j v job Hv Hj. pose proof (done_job j job Hj) as Hd. rewrite Hagg in Hd.
  destruct Hd as (vs & Hvs & Hout). destruct (job_values_result job vs Hvs) as (le & Hle & -> & _). exists le. split; [done|].
  rewrite slice_fmap. unfold slice. congruence.
Qed.

Lemma done_average chunks :
  pw_agg cfg = true → 0 < chunks → small chunks → small n → jobs = pw_jobs chunks (Z.of_nat (length lambdas)) n →
  pw_average cfg s = float8_div_int
    (foldl float8_pl 0 (concat ((fun le => chunk_sums chunks n (val le <$> rows)) <$> lambdas))) (n * Z.of_nat (length lambdas)).
Proof.
  intros Hagg Hc Hsc Hsn Hjobs. unfold pw_average, num_tuples_result. rewrite (ok_num_lambdas _ _ _ _ _ Hok). fold n. f_equal.
  set (job_sum job := sum_of (slice (pj_start job) (pj_end job) (default [] ((fun le => val le <$> rows) <$> lambdas !! Z.to_nat (pj_lambda job))))).
  transitivity (foldl float8_pl 0 (job_sum <$> jobs)).
  - apply foldl_head. eapply Forall2_impl; [exact (done_sums Hagg)|]. intros v job (le & Hle & ->). unfold job_sum. by rewrite Hle.
  - f_equal. rewrite Hjobs. unfold pw_jobs. rewrite fmap_concat. f_equal. rewrite <- list_fmap_compose. apply fmap_seqZ_lookup.
    intros l le Hl. unfold compose, chunk_sums. rewrite <- list_fmap_compose. apply list_fmap_ext. intros i c [-> Hi]%lookup_seqZ. unfold compose, job_sum.
    cbn [pj_start pj_end pj_lambda]. rewrite Nat2Z.id, Hl. cbn [fmap option_fmap option_map default].
    destruct (chunk_bounds chunks n (0 + Z.of_nat i)) as (-> & -> & _); [done..|lia|]. done.
Qed.
End Done.

(** ** The setup *)

(** inputs that fit the integers and the memory that are used for them *)
Record pw_fits `{NIO : NodeIO} (nworkers : Z) (cols : list pw_column) (rows : list (list (option Z))) (lambdas : list LambdaExpr) : Prop := {
  pf_rows : Forall (fun r => length r = length cols) rows;
  pf_num_rows : small (Z.of_nat (length rows));
  pf_num_cols : small (Z.of_nat (length cols));
  pf_workers : Z.max 1 nworkers + Z.of_nat (length lambdas) < 2 ^ 31;
  pf_lambdas : Forall lambda_fits (lambdaExprToSerialLambda <$> lambdas);
  pf_pack : blob_total (lambdaExprToSerialLambda <$> lambdas) < 2 ^ 32
}.

Section Setup.
Context `{NIO : NodeIO} `{!NodeIOLaws} `{PP : PwParams C}.
Context (mode nworkers : Z) (agg jit_enabled : bool) (cols : list pw_column) (result : pw_column).
Context (rows : list (list (option Z))) (lambdas : list LambdaExpr) (Hfits : pw_fits nworkers cols rows lambdas).

Let n := Z.of_nat (length rows).
Let nl := Z.of_nat (length lambdas).

(** what the setup looks like *)
Definition pw_setup (chunks nw : Z) (cfg : pw_config) : Prop :=
  ∃ pack, chunks_per_lambda mode (Z.max 1 nworkers) nl n = Ok chunks ∧ 1 ≤ chunks ∧ small chunks ∧ nl * chunks < 2 ^ 31
  ∧ 1 ≤ nw ≤ Z.max 1 nworkers
  ∧ cfg = mkPwConfig mode agg (result_flat agg cols result) (Z.of_nat (length cols)) n nl (pw_jobs chunks nl n) pack
  ∧ (rows ≠ [] → lambdas ≠ [] → ∀ l le, lambdas !! l = Some le → pack_lambda pack (Z.of_nat l) = Ok (lambdaExprToSerialLambda le)).

Lemma prepare_setup :
  pw_check mode jit_enabled cols result = Ok tt →
  ∃ chunks nw cfg, pw_prepare mode nworkers agg jit_enabled cols result n lambdas = Ok (nw, cfg) ∧ pw_setup chunks nw cfg.
Proof.
  intros Hcheck. destruct Hfits as [Hr Hn Hc Hw Hl Hp]. unfold small in *. unfold pw_prepare. rewrite Hcheck. cbn [mbind outcome_bind]. fold n nl.
  rewrite (int32_small n), (int32_small nl) by (unfold small, n, nl; lia).
  replace (if nworkers <? 1 then 1 else nworkers) with (Z.max 1 nworkers) by (destruct (Z.ltb_spec nworkers 1); lia).
  destruct (chunks_spec mode (Z.max 1 nworkers) nl n) as (chunks & Hch & H1 & Hm & Hj); [unfold n, nl; lia..|].
  rewrite Hch. cbn [mbind outcome_bind]. rewrite int_mul_small by (unfold nl in *; nia). cbn [mbind outcome_bind].
  rewrite list_fmap_compose. destruct (pack_roundtrip (lambdaExprToSerialLambda <$> lambdas) Hl Hp) as (pack & Hpack & Hlk). rewrite Hpack.
  assert (∃ pk, (if (0 <? nl * chunks) && (0 <? n * nl) then Ok pack else Ok (mkPack 0 0 [] [])) = Ok pk
    ∧ (rows ≠ [] → lambdas ≠ [] → pk = pack)) as (pk & -> & Hpk).
  { destruct rows as [|r0 rows'], lambdas as [|l0 ls]; destruct (_ && _) eqn:Hb; eexists; split; try done. intros _ _. exfalso.
    apply andb_false_iff in Hb as [Hb%Z.ltb_ge|Hb%Z.ltb_ge]; unfold n, nl in Hb; cbn [length] in *; nia. }
  cbn [mbind outcome_bind]. eexists chunks, _, _. split; [done|]. exists pk. split_and!; try done; try (unfold small, n in *; lia).
  - destruct (_ && _) eqn:Hb; [|lia]. apply andb_true_iff in Hb as [_ Hb%Z.ltb_lt]. lia.
  - destruct (Z.ltb_spec (nl * chunks) (Z.max 1 nworkers)), (0 <? nl * chunks); cbn [andb]; lia.
  - intros Hr0 Hl0 l le Hle. rewrite (Hpk Hr0 Hl0). apply Hlk. by rewrite list_lookup_fmap, Hle.
Qed.

(** the compiled functions of the fast modes read only the row *)
Definition fast_local : Prop := mode ≠ APPLY_PW_CHECKED → ∀ c : C, row_local (Z.of_nat (length cols)) (eval_fast c).

Lemma setup_ok chunks nw cfg launched :
  pw_setup chunks nw cfg → rows ≠ [] → lambdas ≠ [] → fast_local → Z.of_nat launched ≤ nw →
  pw_ok cfg (attname <$> cols) rows lambdas launched.
Proof.
  intros (pack & _ & Hc1 & Hcs & Hj & Hnw & -> & Hlk) Hr0 Hl0 Hloc Hlau. destruct Hfits as [Hr Hn Hc Hw Hl Hp]. unfold small in *.
  split; cbn [pw_num_cols pw_num_tuples pw_num_lambdas pw_job_array pw_mode]; try done.
  - rewrite length_fmap. lia.
  - eapply Forall_impl; [exact Hr|]. intros r Hr'. cbn beta in Hr' |- *. by rewrite Hr', Nat2Z.id.
  - apply pw_jobs_ok; unfold small; lia.
  - intros l le Hle. unfold compile_lambda. cbn [pw_pack pw_mode]. rewrite (Hlk Hr0 Hl0 l le Hle). cbn [mbind outcome_bind].
    pose proof (datum_lambda_datum le (reads_back_all le)) as Hd. unfold datum_lambda, lambda_datum in Hd. cbn [PG_DETOAST_DATUM mbind outcome_bind] in Hd.
    by rewrite Hd.
  - intros c d Hm. by apply Hloc.
  - unfold n. nia.
  - unfold n. nia.
  - unfold nl in *. rewrite pw_jobs_length by lia. lia.
Qed.

(** without data or without lambdas *)
Lemma setup_empty chunks nw cfg :
  pw_setup chunks nw cfg →
  (length (pw_job_array cfg) = 0%nat ∨ num_tuples_result cfg ≤ 0 ↔ rows = [] ∨ lambdas = []) ∧ num_tuples_result cfg = n * nl.
Proof.
  intros (pack & _ & Hc1 & _ & _ & _ & -> & _). unfold num_tuples_result. cbn [pw_job_array pw_num_tuples pw_num_lambdas]. split; [|done].
  assert (Z.of_nat (length (pw_jobs chunks nl n)) = nl * chunks) as Hlen by (apply pw_jobs_length; unfold nl; lia).
  unfold n, nl in *. rewrite <- (length_zero_iff_nil rows), <- (length_zero_iff_nil lambdas). split; intros [Hz|Hz]; try nia; rewrite Hz in *; nia.
Qed.
End Setup.

(** ** The expected result *)

(** the rows with the values of the lambdas, lambda by lambda; or the average of
    the values, summed up chunk by chunk.  The average of nothing is zero over
    zero *)
Definition pw_expected `{PP : PwParams C} (mode : Z) (agg : bool) (chunks : Z) (rows : list (list (option Z)))
    (lambdas : list LambdaExpr) : list (list Z) :=
  let n := Z.of_nat (length rows) in
  if agg then
    let sums := if decide (rows = []) then [] else concat ((fun le => chunk_sums chunks n (row_result mode le <$> rows)) <$> lambdas) in
    [[float8_div_int (foldl float8_pl 0 sums) (n * Z.of_nat (length lambdas))]]
  else apply_all (fun le row => row_vals row ++ [row_result mode le row]) rows lambdas.
