(* ===== verification/ApplyPwTheorems.v ===== *)
(** * Properties of the application of lambdas on parallel workers

    Whatever the interleaving of leader and workers, [apply_mt_pw] returns the
    result of a sequential loop, or an error that some row or lambda gives
    cause for; and it returns. *)

From S2P Require Import Prelude Bitmapset Nodes NodesFacts Serialize Inject Typing Eval Semantics ApplyMt ApplyMtFacts ApplyPw ApplyPwFacts ApplyPwRun ApplyPwResult.
From S2P Require Import NodeText Demo.

Section Theorems.
Context `{NIO : NodeIO} `{!NodeIOLaws} `{PP : PwParams C}.
Context (mode nworkers : Z) (agg jit_enabled : bool) (cols : list pw_column) (result : pw_column).
Context (rows : list (list (option Z))) (lambdas : list LambdaExpr).

(** an outcome of a call is right *)
Definition pw_right (r : outcome (list (list Z))) : Prop :=
  match r with
  | Ok out =>
      (lambdas ≠ [] → Forall no_nulls rows) ∧ all_values mode rows lambdas
      ∧ ∃ chunks, chunks_per_lambda mode (Z.max 1 nworkers) (Z.of_nat (length lambdas)) (Z.of_nat (length rows)) = Ok chunks
        ∧ out = pw_expected mode agg chunks rows lambdas
  | Err e =>
      pw_check mode jit_enabled cols result = Err e ∨ e = no_worker_error
      ∨ justified mode (attname <$> cols) rows lambdas e
  | UB | OutOfFuel => False
  end.

Lemma check_cases : pw_check mode jit_enabled cols result = Ok tt ∨ ∃ e, pw_check mode jit_enabled cols result = Err e.
Proof. unfold pw_check. repeat case_match; by (left + (right; eexists)). Qed.

Lemma empty_right chunks nw cfg :
  pw_setup mode nworkers agg cols result rows lambdas chunks nw cfg → rows = [] ∨ lambdas = [] →
  pw_right (pw_output cfg (mkShared 0 false [] [])).
Proof.
  intros Hs He. destruct (setup_empty _ _ _ _ _ _ _ _ _ _ Hs) as [_ Hres]. destruct Hs as (pack & Hch & Hs). 
  assert (cfg_agg : pw_agg cfg = agg) by (by destruct Hs as (_ & _ & _ & _ & -> & _)).
  unfold pw_output, pw_average. rewrite Hres, cfg_agg. cbn [sh_out foldl].
  assert (Z.of_nat (length rows) * Z.of_nat (length lambdas) = 0) as Hz by (destruct He as [-> | ->]; cbn [length]; lia).
  assert (all_values mode rows lambdas) as Hv by (intros le row Hle Hrow; destruct He as [-> | ->]; set_solver).
  assert (lambdas ≠ [] → Forall no_nulls rows) as Hn by (intros Hl; destruct He as [-> |]; done).
  rewrite Hz. destruct agg eqn:Ha; (split; [done|]; split; [done|]; exists chunks; split; [done|]); unfold pw_expected; rewrite ?Hz, Ha.
  - destruct (decide (rows = [])) as [|Hne]; [done|]. by destruct He as [| ->].
  - unfold apply_all. destruct He as [-> | ->]; [|done]. clear. by induction lambdas.
Qed.

Lemma done_right chunks nw cfg launched s ws :
  pw_setup mode nworkers agg cols result rows lambdas chunks nw cfg → pw_ok cfg (attname <$> cols) rows lambdas launched →
  rows ≠ [] → ws ≠ [] → pw_fits nworkers cols rows lambdas →
  pw_inv cfg (attname <$> cols) rows lambdas (mkPwState s LDone ws) → pw_right (pw_output cfg s).
Proof.
  intros (pack & Hch & Hc1 & Hcs & _ & _ & -> & _) Hok Hr0 Hws Hfits Hinv.
  pose proof (done_values _ _ _ _ _ Hok _ _ Hinv Hws) as Hv. destruct (done_data _ _ _ _ _ _ Hinv) as [Hn _]. cbn [pw_mode] in Hv.
  assert (∃ out, pw_output (mkPwConfig mode agg (result_flat agg cols result) (Z.of_nat (length cols)) (Z.of_nat (length rows))
    (Z.of_nat (length lambdas)) (pw_jobs chunks (Z.of_nat (length lambdas)) (Z.of_nat (length rows))) pack) s = Ok out
    ∧ out = pw_expected mode agg chunks rows lambdas) as (out & -> & ->); [|split; [done|]; split; [done|]; by exists chunks].
  unfold pw_expected. rewrite decide_False by done. destruct agg eqn:Hagg.
  - unfold pw_output. cbn [pw_agg]. eexists. split; [done|]. do 2 f_equal.
    apply (done_average _ _ _ _ _ Hok _ _ Hinv Hws chunks); try done; [lia|apply Hfits].
  - eexists. split; [exact (done_rows _ _ _ _ _ Hok _ _ Hinv Hws eq_refl)|done].
Qed.

Lemma run_right chunks nw cfg launched r :
  pw_fits nworkers cols rows lambdas → fast_local mode cols → pw_setup mode nworkers agg cols result rows lambdas chunks nw cfg →
  Z.of_nat launched ≤ nw → pw_run cfg (attname <$> cols) rows launched r → pw_right r.
Proof.
  intros Hfits Hloc Hs Hlau Hrun. destruct (setup_empty _ _ _ _ _ _ _ _ _ _ Hs) as [He Hres].
  destruct Hrun as [Hno|H1 H2 ->|data out k p r H1 H2 H3 Hd Ho Hsteps Hr]; [eapply empty_right; [done|by apply He]|by right; left|].
  assert (rows ≠ [] ∧ lambdas ≠ []) as [Hr0 Hl0] by (split; intros Hnil; (destruct (proj2 He) as [?|?]; [auto|done|lia])).
  pose proof (setup_ok _ _ _ _ _ _ _ Hfits _ _ _ launched Hs Hr0 Hl0 Hloc Hlau) as Hok.
  destruct (inv_steps _ _ _ _ _ Hok k data out p Hr0) as [Hinv Hlen]; [|done..|].
  { destruct Hs as (pack & _ & _ & _ & _ & _ & -> & _). cbn [pw_num_cols pw_num_tuples] in *. nia. }
  destruct p as [s l ws]. cbn [ps_leader ps_shared ps_workers] in *.
  destruct Hr as [Hr|[Hx _]].
  - destruct l as [idx rest| | | | |e|]; try done; subst r.
    + eapply (done_right chunks nw cfg launched); try done. intros ->. by subst launched.
    + right. right. pose proof (inv_leader _ _ _ _ _ Hinv) as Hj. destruct Hs as (pack & _ & _ & _ & _ & _ & -> & _). exact Hj.
    + by pose proof (inv_leader _ _ _ _ _ Hinv).
  - exfalso. apply Exists_exists in Hx as (w & Hin & Hpc). pose proof (inv_workers _ _ _ _ _ Hinv) as HF. rewrite Forall_forall in HF.
    pose proof (wo_pc _ _ _ _ _ _ (HF w Hin)) as Hp. unfold pc_ok in Hp. by rewrite Hpc in Hp.
Qed.

(** C7. [apply_mt_pw] and [apply_mt_agg_pw] on inputs that fit: whatever the
    number of workers that are launched, whatever the interleaving of leader
    and workers, and whatever the shared memory held before, a call that returns
    rows returns what a sequential loop over the lambdas and the rows computes
    (or the average, summed up in an order that does not depend on the
    interleaving); a call that raises an error has a reason in its arguments, in
    a row or in a lambda, or could launch no worker; and no process reads or
    writes outside of the shared memory. *)
Theorem apply_pw_correct r :
  pw_fits nworkers cols rows lambdas → fast_local mode cols →
  apply_mt_pw_internal mode nworkers agg jit_enabled cols result rows lambdas r → pw_right r.
Proof.
  intros Hfits Hloc Hrun. unfold apply_mt_pw_internal in Hrun. destruct (check_cases) as [Hc|[e Hc]].
  - destruct (prepare_setup mode nworkers agg jit_enabled cols result rows lambdas Hfits Hc) as (chunks & nw & cfg & Hp & Hs).
    rewrite Hp in Hrun. destruct Hrun as (launched & Hl & Hrun). by eapply run_right.
  - unfold pw_prepare in Hrun. rewrite Hc in Hrun. cbn [mbind outcome_bind] in Hrun. subst r. by left.
Qed.

(** C27. A run of leader and workers ends: it takes at most a number of steps
    that the sizes of the inputs determine, and as long as the leader is not
    done somebody can make a step.  In particular no worker that waits for the
    rows misses the leader's broadcast, and the job counter does not wrap
    around. *)
Theorem apply_pw_terminates nw cfg launched data out k p :
  pw_fits nworkers cols rows lambdas → fast_local mode cols →
  pw_prepare mode nworkers agg jit_enabled cols result (Z.of_nat (length rows)) lambdas = Ok (nw, cfg) →
  rows ≠ [] → lambdas ≠ [] → Z.of_nat launched ≤ nw →
  length data = (length rows * length cols)%nat → Z.of_nat (length out) = out_size cfg →
  pw_steps cfg (attname <$> cols) k (pw_start cfg rows data out launched) p →
  (k ≤ (length rows + 4) * (2 * launched + 1) + length (pw_job_array cfg) * (length rows + 8) + launched)%nat
  ∧ (running (ps_leader p) → ∃ q, pw_step cfg (attname <$> cols) p q).
Proof.
  intros Hfits Hloc Hprep Hr0 Hl0 Hl Hd Ho Hs. destruct (check_cases) as [Hc|[e Hc]];
    [|by unfold pw_prepare in Hprep; rewrite Hc in Hprep].
  destruct (prepare_setup mode nworkers agg jit_enabled cols result rows lambdas Hfits Hc) as (chunks & nw' & cfg' & Hp & Hset).
  rewrite Hprep in Hp. injection Hp as <- <-. pose proof (setup_ok _ _ _ _ _ _ _ Hfits _ _ _ launched Hset Hr0 Hl0 Hloc Hl) as Hok.
  assert (length data = (length rows * Z.to_nat (pw_num_cols cfg))%nat ∧ Z.to_nat (pw_num_tuples cfg) = length rows) as [Hd' Hn].
  { destruct Hset as (pack & _ & _ & _ & _ & _ & -> & _). cbn [pw_num_cols pw_num_tuples]. by rewrite !Nat2Z.id. }
  destruct (inv_steps _ _ _ _ _ Hok k data out p Hr0 Hd' Ho Hs) as [Hinv _].
  pose proof (pw_steps_bounded _ _ _ _ _ Hok k data out p Hr0 Hd' Ho Hs) as [Hk _]. rewrite start_bound, Hn in Hk.
  split; [lia|]. by eapply pw_progress.
Qed.
End Theorems.

(** ** A run *)

(** a compiled lambda is its number of arguments; it adds it to the first
    column, unless that is zero *)
#[local] Instance demo_pw : PwParams Z :=
  {| pw_compile _ le := inr (Z.of_nat (length (argnames (le_hdr le))));
     eval_checked c d := match d with
                         | x :: _ => if x =? 0 then inl (PgError ERRCODE_DIVISION_BY_ZERO (lit "division by zero")) else inr (c + x)
                         | [] => inr c
                         end;
     eval_fast c d := c + default 0 (head d);
     float8_pl := Z.add; float8_div_int := Z.div |}.

Definition pw_demo_cols : list pw_column := [mkColumn (lit "x") true true].
Definition pw_demo_result : pw_column := mkColumn (lit "result") true true.
Definition pw_demo_rows : list (list (option Z)) := [[Some 5]; [Some 7]].
Definition pw_demo_lambdas : list LambdaExpr := [add3].

(** two workers, each with a chunk of one row *)
Definition pw_demo_cfg : pw_config :=
  match pw_prepare 0 2 false false pw_demo_cols pw_demo_result 2 pw_demo_lambdas with
  | Ok (_, cfg) => cfg
  | _ => mkPwConfig 0 false false 0 0 0 [] (mkPack 0 0 [] [])
  end.

Definition pw_demo_start : pw_state Z := pw_start pw_demo_cfg pw_demo_rows [9; 9] [[]; []] 2.

Lemma pw_steps_cons `{NIO : NodeIO} `{PP : PwParams C} cfg attnames k p q r :
  pw_step (C := C) cfg attnames p q → pw_steps cfg attnames k q r → pw_steps cfg attnames (S k) p r.
Proof.
  intros Hpq Hqr. induction Hqr as [q|k q r r' _ IH Hrr']; [exact (pw_steps_S _ _ _ _ _ _ (pw_steps_0 _ _ _) Hpq)|].
  exact (pw_steps_S _ _ _ _ _ _ (IH Hpq) Hrr').
Qed.

Ltac by_worker k := eapply pw_steps_cons; [eapply (step_worker _ _ _ _ _ k); [exact I|reflexivity|vm_compute; reflexivity]|cbn [insert list_insert]].
Ltac by_leader c := eapply pw_steps_cons; [eapply c; vm_compute; reflexivity|].

(** the first worker falls asleep before the rows are there, and is woken up *)
Lemma pw_demo_run :
  ∃ k p, pw_steps pw_demo_cfg [lit "x"] k pw_demo_start p ∧ ps_leader p = LDone
    ∧ pw_output pw_demo_cfg (ps_shared p) = Ok [[5; 6]; [7; 8]].
Proof.
  eexists _, _. split.
  - unfold pw_demo_start, pw_start. cbn [repeat]. by_worker 0%nat. by_worker 0%nat. by_worker 0%nat. by_worker 0%nat.
    by_leader @step_copy. by_leader @step_copy. by_leader @step_copied. by_leader @step_publish. by_leader @step_broadcast.
    do 5 by_worker 0%nat. do 6 by_worker 1%nat. by_worker 0%nat. by_worker 1%nat.
    eapply pw_steps_cons; [apply step_finished; by repeat constructor|]. apply pw_steps_0.
  - by vm_compute.
Qed.

Lemma pw_demo_fits : pw_fits 2 pw_demo_cols pw_demo_rows pw_demo_lambdas.
Proof.
  split.
  - by repeat constructor.
  - done.
  - done.
  - done.
  - apply Forall_singleton. unfold lambda_fits. split_and!; by vm_compute.
  - by vm_compute.
Qed.

Lemma pw_demo_local : fast_local (C := Z) 0 pw_demo_cols.
Proof. intros Hm. by destruct Hm. Qed.

Lemma pw_demo_prepare : pw_prepare 0 2 false false pw_demo_cols pw_demo_result 2 pw_demo_lambdas = Ok (2, pw_demo_cfg).
Proof. by vm_compute. Qed.

Lemma pw_demo_returns :
  apply_mt_pw_internal 0 2 false false pw_demo_cols pw_demo_result pw_demo_rows pw_demo_lambdas (Ok [[5; 6]; [7; 8]]).
Proof.
  unfold apply_mt_pw_internal. change (Z.of_nat (length pw_demo_rows)) with 2. rewrite pw_demo_prepare. exists 2%nat. split; [done|].
  destruct pw_demo_run as (k & p & Hs & Hd & Ho). eapply (run_ends _ _ _ _ [9; 9] [[]; []]); [by vm_compute..|exact Hs|]. left. by rewrite Hd, Ho.
Qed.

Lemma apply_pw_correct_witness :
  ∃ chunks, chunks_per_lambda 0 2 1 2 = Ok chunks ∧ [[5; 6]; [7; 8]] = pw_expected 0 false chunks pw_demo_rows pw_demo_lambdas.
Proof.
  exact (proj2 (proj2 (apply_pw_correct 0 2 false false pw_demo_cols pw_demo_result pw_demo_rows pw_demo_lambdas
    (Ok [[5; 6]; [7; 8]]) pw_demo_fits pw_demo_local pw_demo_returns))).
Defined.

Lemma apply_pw_terminates_witness :
  ∃ k p, pw_steps pw_demo_cfg [lit "x"] k pw_demo_start p ∧ ps_leader p = LDone ∧ (k ≤ 52)%nat.
Proof.
  destruct pw_demo_run as (k & p & Hs & Hd & _). exists k, p. split; [exact Hs|]. split; [exact Hd|].
  refine (proj1 (apply_pw_terminates 0 2 false false pw_demo_cols pw_demo_result pw_demo_rows pw_demo_lambdas 2 pw_demo_cfg 2
    [9; 9] [[]; []] k p pw_demo_fits pw_demo_local pw_demo_prepare _ _ _ _ _ Hs)); by vm_compute.
Defined.
