(* ===== verification/Hashfn.v ===== *)
(** * Hash functions

    Models [common/hashfn.c] and [include/common/hashfn.h]: Bob Jenkins' hash
    in its four code paths (aligned or not, little or big endian), the 64-bit
    variants with a seed, the shortcuts for 32-bit keys, the hash functions for
    tables, and the hash of bitmap sets ([backend/nodes/bitmapset.c]).  A key is
    the list of the bytes at its address; reading past its end is undefined.
    The lemmas compare every path with one reference definition. *)

From S2P Require Import Prelude Bitmapset.

(** ** Words *)

Definition pg_rotate_left32 (word n : Z) : Z := Z.lor (uint32 (Z.shiftl word n)) (Z.shiftr word (32 - n)).

Abbreviation rot := pg_rotate_left32.

Definition mix (t : Z * Z * Z) : Z * Z * Z :=
  let '(a, b, c) := t in
  let a := uint32 (a - c) in let a := Z.lxor a (rot c 4) in let c := uint32 (c + b) in
  let b := uint32 (b - a) in let b := Z.lxor b (rot a 6) in let a := uint32 (a + c) in
  let c := uint32 (c - b) in let c := Z.lxor c (rot b 8) in let b := uint32 (b + a) in
  let a := uint32 (a - c) in let a := Z.lxor a (rot c 16) in let c := uint32 (c + b) in
  let b := uint32 (b - a) in let b := Z.lxor b (rot a 19) in let a := uint32 (a + c) in
  let c := uint32 (c - b) in let c := Z.lxor c (rot b 4) in let b := uint32 (b + a) in
  (a, b, c).

Definition final (t : Z * Z * Z) : Z * Z * Z :=
  let '(a, b, c) := t in
  let c := Z.lxor c b in let c := uint32 (c - rot b 14) in
  let a := Z.lxor a c in let a := uint32 (a - rot c 11) in
  let b := Z.lxor b a in let b := uint32 (b - rot a 25) in
  let c := Z.lxor c b in let c := uint32 (c - rot b 16) in
  let a := Z.lxor a c in let a := uint32 (a - rot c 4) in
  let b := Z.lxor b a in let b := uint32 (b - rot a 14) in
  let c := Z.lxor c b in let c := uint32 (c - rot b 24) in
  (a, b, c).

(** ** Reading the key *)

Section Endian.
Context (bigendian : bool).

Definition byte_at (k : list Z) (i : nat) : outcome Z := deref (k !! i).

(** [ka[i]]: four bytes as the processor reads them *)
Definition word_at (k : list Z) (i : nat) : outcome Z :=
  b0 ← byte_at k (4 * i); b1 ← byte_at k (4 * i + 1); b2 ← byte_at k (4 * i + 2); b3 ← byte_at k (4 * i + 3);
  Ok (if bigendian then b3 + 256 * (b2 + 256 * (b1 + 256 * b0)) else b0 + 256 * (b1 + 256 * (b2 + 256 * b3))).

(** the same four bytes, one by one *)
Definition bytes_at (k : list Z) (i : nat) : outcome Z :=
  b0 ← byte_at k (4 * i); b1 ← byte_at k (4 * i + 1); b2 ← byte_at k (4 * i + 2); b3 ← byte_at k (4 * i + 3);
  Ok (if bigendian
      then uint32 (b3 + uint32 (Z.shiftl b2 8) + uint32 (Z.shiftl b1 16) + uint32 (Z.shiftl b0 24))
      else uint32 (b0 + uint32 (Z.shiftl b1 8) + uint32 (Z.shiftl b2 16) + uint32 (Z.shiftl b3 24))).

(** [while (len >= 12)] *)
Fixpoint hash_loop (aligned : bool) (fuel : nat) (k : list Z) (len : Z) (t : Z * Z * Z) : outcome (list Z * Z * (Z * Z * Z)) :=
  if 12 <=? len then
    match fuel with
    | O => OutOfFuel
    | S fuel =>
        let read := if aligned then word_at else bytes_at in
        let '(a, b, c) := t in
        w0 ← read k 0%nat; w1 ← read k 1%nat; w2 ← read k 2%nat;
        hash_loop aligned fuel (drop 12 k) (len - 12) (mix (uint32 (a + w0), uint32 (b + w1), uint32 (c + w2)))
    end
  else Ok (k, len, t).

(** one case label of the switch: from [len = i + 1] on, add byte [i] *)
Definition add_byte (k : list Z) (len : Z) (i : nat) (little big : Z) (x : Z) : outcome Z :=
  if Z.of_nat i <? len then v ← byte_at k i; Ok (uint32 (x + uint32 (Z.shiftl v (if bigendian then big else little)))) else Ok x.

Definition add_word (k : list Z) (i : nat) (x : Z) : outcome Z := w ← word_at k i; Ok (uint32 (x + w)).

(** the last 11 bytes of an aligned key; the lowest byte of [c] is left for the
    length *)
Definition aligned_tail (k : list Z) (len : Z) (t : Z * Z * Z) : outcome (Z * Z * Z) :=
  let '(a, b, c) := t in
  if 8 <=? len then
    c ← add_byte k len 10 24 8 c; c ← add_byte k len 9 16 16 c; c ← add_byte k len 8 8 24 c;
    b ← add_word k 1 b; a ← add_word k 0 a; Ok (a, b, c)
  else if 4 <=? len then
    b ← add_byte k len 6 16 8 b; b ← add_byte k len 5 8 16 b; b ← add_byte k len 4 0 24 b;
    a ← add_word k 0 a; Ok (a, b, c)
  else
    a ← add_byte k len 2 16 8 a; a ← add_byte k len 1 8 16 a; a ← add_byte k len 0 0 24 a; Ok (a, b, c).

Definition unaligned_tail (k : list Z) (len : Z) (t : Z * Z * Z) : outcome (Z * Z * Z) :=
  let '(a, b, c) := t in
  c ← add_byte k len 10 24 8 c; c ← add_byte k len 9 16 16 c; c ← add_byte k len 8 8 24 c;
  b ← add_byte k len 7 24 0 b; b ← add_byte k len 6 16 8 b; b ← add_byte k len 5 8 16 b; b ← add_byte k len 4 0 24 b;
  a ← add_byte k len 3 24 0 a; a ← add_byte k len 2 16 8 a; a ← add_byte k len 1 8 16 a; a ← add_byte k len 0 0 24 a;
  Ok (a, b, c).

Definition hash_key (aligned : bool) (k : list Z) (len : Z) (t : Z * Z * Z) : outcome (Z * Z * Z) :=
  r ← hash_loop aligned (Z.to_nat (len / 12)) k len t;
  let '(k, len, t) := r in
  t ← (if aligned then aligned_tail k len t else unaligned_tail k len t);
  Ok (final t).

Definition initial (len : Z) : Z * Z * Z := let a := uint32 (0x9e3779b9 + len + 3923095) in (a, a, a).

Definition perturb (seed : Z) (t : Z * Z * Z) : Z * Z * Z :=
  if seed =? 0 then t
  else let '(a, b, c) := t in mix (uint32 (a + uint32 (Z.shiftr seed 32)), uint32 (b + uint32 seed), c).

Definition hash_bytes (aligned : bool) (k : list Z) (keylen : Z) : outcome Z :=
  let len := uint32 keylen in
  t ← hash_key aligned k len (initial len); Ok t.2.

Definition hash_bytes_extended (aligned : bool) (k : list Z) (keylen seed : Z) : outcome Z :=
  let len := uint32 keylen in
  t ← hash_key aligned k len (perturb seed (initial len));
  let '(a, b, c) := t in Ok (Z.lor (Z.shiftl b 32) c).

(** ** Keys of 32 bits *)

Definition hash_bytes_uint32 (k : Z) : Z :=
  let '(a, b, c) := initial 4 in (final (uint32 (a + k), b, c)).2.

Definition hash_bytes_uint32_extended (k seed : Z) : Z :=
  let '(a, b, c) := perturb seed (initial 4) in
  let '(a, b, c) := final (uint32 (a + k), b, c) in
  Z.lor (Z.shiftl b 32) c.

(** ** Hash functions of dynahash *)

Fixpoint strlen (s : list Z) : outcome Z :=
  match s with
  | [] => UB
  | c :: s => if c =? 0 then Ok 0 else n ← strlen s; Ok (n + 1)
  end.

Definition string_hash (aligned : bool) (key : list Z) (keysize : Z) : outcome Z :=
  s_len ← strlen key;
  hash_bytes aligned key (int32 (Z.min s_len (uint64 (keysize - 1)))).

Definition tag_hash (aligned : bool) (key : list Z) (keysize : Z) : outcome Z := hash_bytes aligned key (int32 keysize).

Definition uint32_hash (key : list Z) : outcome Z := k ← word_at key 0; Ok (hash_bytes_uint32 k).

(** ** Bitmap sets as keys *)

(** the [n] bytes of an integer in memory *)
Definition memory_of (n : nat) (w : Z) : list Z := if bigendian then rev (le_bytes n w) else le_bytes n w.

Definition bms_hash_value (aligned : bool) (a : Bitmapset) : outcome Z :=
  match a with
  | None => Ok 0
  | Some ws => hash_bytes aligned (ws ≫= memory_of 8) (int32 (nwords ws * 8))
  end.

Definition bitmap_hash (aligned : bool) (key : Bitmapset) : outcome Z := bms_hash_value aligned key.
End Endian.

Definition bitmap_match (key1 key2 : Bitmapset) : Z := if bms_equal key1 key2 then 0 else 1.

(** ** Mixing single words *)

Definition hash_combine64 (a b : Z) : Z :=
  Z.lxor a (uint64 (b + 0x49a0f4dd15e5a8e3 + uint64 (Z.shiftl a 54) + Z.shiftr a 7)).

Definition murmurhash32 (data : Z) : Z :=
  let h := data in
  let h := Z.lxor h (Z.shiftr h 16) in let h := uint32 (h * 0x85ebca6b) in
  let h := Z.lxor h (Z.shiftr h 13) in let h := uint32 (h * 0xc2b2ae35) in
  Z.lxor h (Z.shiftr h 16).

Definition murmurhash64 (data : Z) : Z :=
  let h := data in
  let h := Z.lxor h (Z.shiftr h 33) in let h := uint64 (h * 0xff51afd7ed558ccd) in
  let h := Z.lxor h (Z.shiftr h 33) in let h := uint64 (h * 0xc4ceb9fe1a85ec53) in
  Z.lxor h (Z.shiftr h 33).

(** rotates both halves of a 64-bit word by one *)
Definition ROTATE_HIGH_AND_LOW_32BITS (v : Z) : Z :=
  Z.lor (Z.land (uint64 (Z.shiftl v 1)) 0xfffffffefffffffe) (Z.land (Z.shiftr v 31) 0x100000001).

(** ** Reference

    The key is cut into blocks of 12 bytes, each added to the state as three
    words and mixed; the rest is padded with zeros, with the last word moved by
    one byte. *)

(** the value of up to four bytes, padded *)
Definition value32 (bigendian : bool) (bs : list Z) : Z :=
  if bigendian then le_value (rev (take 4 (bs ++ [0; 0; 0; 0]))) else le_value bs.

Section Reference.
Context (bigendian : bool).

Definition add_block (t : Z * Z * Z) (bs : list Z) : Z * Z * Z :=
  let '(a, b, c) := t in
  (uint32 (a + value32 bigendian (take 4 bs)), uint32 (b + value32 bigendian (take 4 (drop 4 bs))),
   uint32 (c + value32 bigendian (take 4 (drop 8 bs)))).

Definition add_rest (t : Z * Z * Z) (bs : list Z) : Z * Z * Z :=
  let '(a, b, c) := t in
  (uint32 (a + value32 bigendian (take 4 bs)), uint32 (b + value32 bigendian (take 4 (drop 4 bs))),
   uint32 (c + value32 bigendian (if bigendian then drop 8 bs else 0 :: drop 8 bs))).

Fixpoint absorb (blocks : nat) (k : list Z) (t : Z * Z * Z) : Z * Z * Z :=
  match blocks with
  | O => add_rest t k
  | S blocks => absorb blocks (drop 12 k) (mix (add_block t (take 12 k)))
  end.

Definition hash_reference (k : list Z) (t : Z * Z * Z) : Z * Z * Z := final (absorb (length k / 12) k t).
End Reference.

(** ** Ranges *)

Definition u32 (x : Z) : Prop := 0 ≤ x < 2 ^ 32.
Definition state_ok (t : Z * Z * Z) : Prop := u32 t.1.1 ∧ u32 t.1.2 ∧ u32 t.2.

Lemma u32_uint32 x : u32 (uint32 x).
Proof. apply Z.mod_pos_bound. lia. Qed.

Lemma u32_id x : u32 x → uint32 x = x.
Proof. apply Z.mod_small. Qed.

Lemma u32_bits x : 0 ≤ x → (∀ i, 32 ≤ i → Z.testbit x i = false) → u32 x.
Proof.
  intros Hx Hb. split; [done|]. assert (x = x mod 2 ^ 32) as ->; [|apply Z.mod_pos_bound; lia].
  apply Z.bits_inj'. intros i Hi. destruct (Z.lt_ge_cases i 32); [by rewrite Z.mod_pow2_bits_low|].
  by rewrite Hb, Z.mod_pow2_bits_high by lia.
Qed.

Lemma u32_high x i : u32 x → 32 ≤ i → Z.testbit x i = false.
Proof. intros Hx Hi. rewrite <- (u32_id x Hx). apply Z.mod_pow2_bits_high. lia. Qed.

Lemma u32_lxor x y : u32 x → u32 y → u32 (Z.lxor x y).
Proof.
  intros Hx Hy. apply u32_bits; [apply Z.lxor_nonneg; unfold u32 in *; lia|]. intros i Hi.
  by rewrite Z.lxor_spec, !u32_high by done.
Qed.

Lemma u32_rot x n : u32 x → 0 ≤ n ≤ 32 → u32 (rot x n).
Proof.
  intros Hx Hn. unfold rot. apply u32_bits.
  - apply Z.lor_nonneg. split; [apply u32_uint32|]. apply Z.shiftr_nonneg. apply Hx.
  - intros i Hi. rewrite Z.lor_spec, (u32_high (uint32 _)), Z.shiftr_spec by (apply u32_uint32 || lia). simpl. apply u32_high; [done|lia].
Qed.

Lemma mix_ok t : state_ok t → state_ok (mix t).
Proof.
  destruct t as [[a b] c]. intros (Ha & Hb & Hc). unfold state_ok, mix. cbn [fst snd] in *.
  split; [apply u32_uint32|]. split; [apply u32_uint32|].
  repeat first [done | apply u32_uint32 | apply u32_lxor | apply u32_rot; [|lia]].
Qed.

(** ** The four paths *)

Lemma uint32_add_r x y : uint32 (x + uint32 y) = uint32 (x + y).
Proof. apply Zplus_mod_idemp_r. Qed.

Lemma uint32_add_l x y : uint32 (uint32 x + y) = uint32 (x + y).
Proof. apply Zplus_mod_idemp_l. Qed.

Lemma uint32_add_mid x y z : uint32 (x + uint32 y + z) = uint32 (x + y + z).
Proof. by rewrite <- uint32_add_l, uint32_add_r, uint32_add_l. Qed.

Lemma uint32_add_mid2 x y z w : uint32 (x + uint32 y + z + w) = uint32 (x + y + z + w).
Proof. by rewrite <- uint32_add_l, uint32_add_mid, uint32_add_l. Qed.

Lemma uint32_add_in x y z : uint32 (x + (y + uint32 z)) = uint32 (x + (y + z)).
Proof. rewrite <- (uint32_add_r x), (uint32_add_r y z). apply uint32_add_r. Qed.

Lemma shiftl_0 v : Z.shiftl v 0 = v.
Proof. apply Z.shiftl_0_r. Qed.

Lemma shiftl_8 v : Z.shiftl v 8 = v * 256.
Proof. by rewrite Z.shiftl_mul_pow2 by lia. Qed.

Lemma shiftl_16 v : Z.shiftl v 16 = v * 65536.
Proof. by rewrite Z.shiftl_mul_pow2 by lia. Qed.

Lemma shiftl_24 v : Z.shiftl v 24 = v * 16777216.
Proof. by rewrite Z.shiftl_mul_pow2 by lia. Qed.

(** sums of wrapped words *)
Ltac sum32 :=
  rewrite ?shiftl_0, ?shiftl_8, ?shiftl_16, ?shiftl_24, ?uint32_add_mid2, ?uint32_add_mid, ?uint32_add_r, ?uint32_add_in;
  repeat match goal with
    | |- context [uint32 (uint32 ?x + ?y)] => lazymatch x with context [uint32] => fail | _ => rewrite (uint32_add_l x y) end
    end;
  f_equal; lia.

Section Paths.
Context (bigendian : bool).

Lemma read_block (aligned : bool) k i x :
  (4 * i + 4 ≤ length k)%nat →
  ∃ w, (if aligned then word_at bigendian else bytes_at bigendian) k i = Ok w
       ∧ uint32 (x + w) = uint32 (x + value32 bigendian (take 4 (drop (4 * i) k))).
Proof.
  intros Hl.
  assert (∃ b0 b1 b2 b3 rest, drop (4 * i) k = b0 :: b1 :: b2 :: b3 :: rest) as (b0 & b1 & b2 & b3 & rest & Hd).
  { assert (length (drop (4 * i) k) ≥ 4)%nat as H by (rewrite length_drop; lia).
    destruct (drop (4 * i) k) as [|b0 [|b1 [|b2 [|b3 rest]]]]; simpl in H; try lia. by exists b0, b1, b2, b3, rest. }
  assert (Hb : ∀ j, byte_at k (4 * i + j) = deref ((b0 :: b1 :: b2 :: b3 :: rest) !! j)) by (intros j; unfold byte_at; by rewrite <- lookup_drop, Hd).
  pose proof (Hb 0%nat) as H0. rewrite Nat.add_0_r in H0.
  destruct aligned; unfold word_at, bytes_at; rewrite H0, (Hb 1%nat), (Hb 2%nat), (Hb 3%nat), Hd; simpl; eexists; (split; [done|]);
    destruct bigendian; unfold value32; simpl; sum32.
Qed.


(** one case label: the byte is among those left, or the switch starts later *)
Lemma add_byte_some k len i j little big x v :
  take (len - i) (drop i k) !! j = Some v →
  add_byte bigendian k (Z.of_nat len) (i + j) little big x = Ok (uint32 (x + uint32 (Z.shiftl v (if bigendian then big else little)))).
Proof.
  intros H. pose proof (lookup_lt_Some _ _ _ H) as Hl. rewrite length_take in Hl. rewrite lookup_take_lt, lookup_drop in H by lia.
  unfold add_byte, byte_at. rewrite (proj2 (Z.ltb_lt _ _)) by lia. by rewrite H.
Qed.

Lemma add_byte_none k len i j little big x : (len - i ≤ j)%nat → add_byte bigendian k (Z.of_nat len) (i + j) little big x = Ok x.
Proof. intros H. unfold add_byte. by rewrite (proj2 (Z.ltb_ge _ _)) by lia. Qed.

Ltac add_step Hbs :=
  first [rewrite add_byte_none by lia | erewrite add_byte_some by (rewrite Hbs; reflexivity)]; cbn [mbind outcome_bind].

(** the bytes of one word of the rest, followed by anything *)
Lemma add_four_ref {B} k len i x (f : Z → outcome B) :
  u32 x → (len ≤ length k)%nat →
  (x ← add_byte bigendian k (Z.of_nat len) (i + 3) 24 0 x; x ← add_byte bigendian k (Z.of_nat len) (i + 2) 16 8 x;
   x ← add_byte bigendian k (Z.of_nat len) (i + 1) 8 16 x; x ← add_byte bigendian k (Z.of_nat len) (i + 0) 0 24 x; f x)
  = f (uint32 (x + value32 bigendian (take 4 (drop i (take len k))))).
Proof.
  intros Hx Hl. rewrite skipn_firstn_comm.
  assert (length (take (len - i) (drop i k)) = len - i)%nat as Hb by (rewrite length_take, length_drop; lia).
  destruct (take (len - i) (drop i k)) as [|b0 [|b1 [|b2 [|b3 rest]]]] eqn:Hbs; simpl in Hb; do 4 add_step Hbs;
    f_equal; unfold value32; destruct bigendian; simpl.
  all: first [sum32|rewrite <- (u32_id x Hx) at 1; sum32].
Qed.

(** the last three bytes, which leave out the lowest byte of the word *)
Lemma add_three_ref {B} k len x (f : Z → outcome B) :
  u32 x → (len ≤ length k)%nat → (len < 12)%nat →
  (x ← add_byte bigendian k (Z.of_nat len) (8 + 2) 24 8 x; x ← add_byte bigendian k (Z.of_nat len) (8 + 1) 16 16 x;
   x ← add_byte bigendian k (Z.of_nat len) (8 + 0) 8 24 x; f x)
  = f (uint32 (x + value32 bigendian (if bigendian then drop 8 (take len k) else 0 :: drop 8 (take len k)))).
Proof.
  intros Hx Hl Hlt. rewrite skipn_firstn_comm.
  assert (length (take (len - 8) (drop 8 k)) = len - 8)%nat as Hb by (rewrite length_take, length_drop; lia).
  destruct (take (len - 8) (drop 8 k)) as [|b0 [|b1 [|b2 [|]]]] eqn:Hbs; simpl in Hb; try lia; do 3 add_step Hbs;
    f_equal; unfold value32; destruct bigendian; simpl.
  all: first [sum32|rewrite <- (u32_id x Hx) at 1; sum32].
Qed.

(** a whole word of the rest *)
Lemma add_word_ref k len i x :
  (4 * i + 4 ≤ len ≤ length k)%nat →
  add_word bigendian k i x = Ok (uint32 (x + value32 bigendian (take 4 (drop (4 * i) (take len k))))).
Proof.
  intros Hl. destruct (read_block true k i x) as (w & Hw & Hs); [lia|]. unfold add_word. rewrite Hw. cbn [mbind outcome_bind].
  by rewrite Hs, skipn_firstn_comm, take_take, Nat.min_l by lia.
Qed.

Lemma value_nil : value32 bigendian (take 4 []) = 0.
Proof. by destruct bigendian. Qed.

Lemma rest_c len x k :
  u32 x → (len ≤ 8)%nat → uint32 (x + value32 bigendian (if bigendian then drop 8 (take len k) else 0 :: drop 8 (take len k))) = x.
Proof.
  intros Hx Hl. rewrite drop_ge by (rewrite length_take; lia). destruct bigendian; simpl; rewrite Z.add_0_r; by apply u32_id.
Qed.

Lemma tail_ref (aligned : bool) k len t :
  (len < 12)%nat → (len ≤ length k)%nat → state_ok t →
  (if aligned then aligned_tail bigendian k (Z.of_nat len) t else unaligned_tail bigendian k (Z.of_nat len) t)
  = Ok (add_rest bigendian t (take len k)).
Proof.
  intros Hlt Hl Ht. destruct t as [[a b] c], Ht as (Ha & Hb & Hc). cbn [fst snd] in *.
  assert (Hun : unaligned_tail bigendian k (Z.of_nat len) (a, b, c) = Ok (add_rest bigendian (a, b, c) (take len k))).
  { unfold unaligned_tail. etransitivity; [by apply (add_three_ref k len c)|]. cbv beta.
    etransitivity; [by apply (add_four_ref k len 4 b)|]. cbv beta. etransitivity; [by apply (add_four_ref k len 0 a)|]. done. }
  destruct aligned; [|exact Hun]. unfold aligned_tail, add_rest.
  destruct (Z.leb_spec 8 (Z.of_nat len)) as [H8|H8]; [|destruct (Z.leb_spec 4 (Z.of_nat len)) as [H4|H4]].
  - etransitivity; [by apply (add_three_ref k len c)|]. cbv beta.
    rewrite (add_word_ref k len 1) by lia. cbn [mbind outcome_bind]. by rewrite (add_word_ref k len 0) by lia.
  - rewrite (rest_c len c k) by (done || lia). etransitivity; [etransitivity; [|apply (add_four_ref k len 4 b (fun b => a ← add_word bigendian k 0 a; Ok (a, b, c)) Hb Hl)]|].
    + rewrite add_byte_none by lia. done.
    + cbv beta. by rewrite (add_word_ref k len 0) by lia.
  - rewrite (rest_c len c k) by (done || lia). assert (drop 4 (take len k) = []) as -> by (apply drop_ge; rewrite length_take; lia).
    etransitivity; [etransitivity; [|apply (add_four_ref k len 0 a (fun a => Ok (a, b, c)) Ha Hl)]; by rewrite add_byte_none by lia|]. cbv beta.
    rewrite value_nil, Z.add_0_r, drop_0. by rewrite (u32_id b).
Qed.

Lemma loop_ref (aligned : bool) n r k t :
  (r < 12)%nat → (12 * n + r ≤ length k)%nat → state_ok t →
  (s ← hash_loop bigendian aligned n k (Z.of_nat (12 * n + r)) t;
   let '(k, len, t) := s in
   t ← (if aligned then aligned_tail bigendian k len t else unaligned_tail bigendian k len t); Ok (final t))
  = Ok (final (absorb bigendian n (take (12 * n + r) k) t)).
Proof.
  intros Hr. revert k t. induction n as [|n IH]; intros k t Hl Ht.
  - unfold hash_loop. rewrite (proj2 (Z.leb_gt _ _)) by lia. cbn [mbind outcome_bind]. by rewrite (tail_ref aligned) by done.
  - cbn [hash_loop absorb]. rewrite (proj2 (Z.leb_le _ _)) by lia. destruct t as [[a b] c].
    destruct (read_block aligned k 0 a) as (w0 & H0 & Hs0); [lia|]. destruct (read_block aligned k 1 b) as (w1 & H1 & Hs1); [lia|].
    destruct (read_block aligned k 2 c) as (w2 & H2 & Hs2); [lia|]. rewrite H0, H1, H2. cbn [mbind outcome_bind].
    replace (Z.of_nat (12 * S n + r) - 12) with (Z.of_nat (12 * n + r)) by lia. rewrite IH.
    + rewrite Hs0, Hs1, Hs2, skipn_firstn_comm, take_take, Nat.min_l by lia.
      replace (12 * S n + r - 12)%nat with (12 * n + r)%nat by lia. unfold add_block. rewrite take_take, !skipn_firstn_comm, !take_take. done.
    + rewrite length_drop. lia.
    + apply mix_ok. repeat split; apply u32_uint32.
Qed.

(** every path computes the reference *)
Lemma hash_key_ref (aligned : bool) k len t :
  0 ≤ len ≤ Z.of_nat (length k) → state_ok t →
  hash_key bigendian aligned k len t = Ok (hash_reference bigendian (take (Z.to_nat len) k) t).
Proof.
  intros Hl Ht. unfold hash_key, hash_reference. set (n := Z.to_nat (len / 12)). set (r := Z.to_nat (len mod 12)).
  assert (len = Z.of_nat (12 * n + r) ∧ (r < 12)%nat) as [Hlen Hr].
  { pose proof (Z.div_mod len 12). pose proof (Z.mod_pos_bound len 12). pose proof (Z.div_pos len 12). lia. }
  assert (Z.to_nat len = (12 * n + r)%nat) as -> by lia.
  rewrite length_take, Nat.min_l by lia.
  assert ((12 * n + r) / 12 = n)%nat as -> by (rewrite Nat.mul_comm, Nat.div_add_l, Nat.div_small by lia; lia).
  rewrite Hlen at 1. apply loop_ref; [done|lia|done].
Qed.
End Paths.
