(* ===== verification/HashfnTheorems.v ===== *)
(** * Hash functions: theorems

    All code paths of [common/hashfn.c] compute one function of the bytes of the
    key and read nothing else, the shortcuts agree with the general functions,
    and keys that a table takes for equal have equal hashes. *)

From S2P Require Import Prelude Bitmapset BitmapsetFacts BitmapsetTheorems Hashfn.

(** ** State *)

Lemma initial_ok len : state_ok (initial len).
Proof. repeat split; apply Z.mod_pos_bound; lia. Qed.

Lemma perturb_ok seed t : state_ok t → state_ok (perturb seed t).
Proof.
  intros Ht. unfold perturb. destruct (seed =? 0); [done|]. destruct t as [[a b] c]. apply mix_ok.
  repeat split; [apply u32_uint32..|apply Ht|apply Ht].
Qed.

Lemma final_ok t : state_ok t → state_ok (final t).
Proof. destruct t as [[a b] c]. intros _. unfold state_ok, final. cbn [fst snd]. repeat split; apply Z.mod_pos_bound; lia. Qed.

Definition reference32 (bigendian : bool) (k : list Z) : Z :=
  (hash_reference bigendian k (initial (Z.of_nat (length k)))).2.

(** with a seed, the hash starts from a perturbed state and has 64 bits *)
Definition reference64 (bigendian : bool) (k : list Z) (seed : Z) : Z :=
  let t := hash_reference bigendian k (perturb seed (initial (Z.of_nat (length k)))) in t.1.2 * 2 ^ 32 + t.2.

Lemma join_halves b c : u32 c → Z.lor (Z.shiftl b 32) c = b * 2 ^ 32 + c.
Proof.
  intros Hc. rewrite Z.shiftl_mul_pow2 by lia. symmetry. rewrite <- Z.lxor_lor, <- Z.add_nocarry_lxor; [done|..];
    apply Z.bits_inj'; intros i Hi; rewrite Z.land_spec, Z.bits_0; destruct (Z.lt_ge_cases i 32);
    rewrite ?(Z.mul_pow2_bits_low b 32 i), ?(u32_high c i) by done; by rewrite ?andb_false_r.
Qed.

Lemma uint32_len (k : list Z) n : 0 ≤ n < 2 ^ 31 → n ≤ Z.of_nat (length k) → uint32 n = n ∧ Z.of_nat (length (take (Z.to_nat n) k)) = n.
Proof. intros Hn Hk. split; [apply Z.mod_small; lia|]. rewrite length_take. lia. Qed.

Section Endianness.
Context (bigendian : bool).

Lemma hash_bytes_ref (aligned : bool) k keylen :
  0 ≤ keylen < 2 ^ 31 → keylen ≤ Z.of_nat (length k) →
  hash_bytes bigendian aligned k keylen = Ok (reference32 bigendian (take (Z.to_nat keylen) k)).
Proof.
  intros Hn Hk. destruct (uint32_len k keylen Hn Hk) as [Hu Hl]. unfold hash_bytes, reference32. rewrite Hu, Hl.
  by rewrite hash_key_ref by (apply initial_ok || lia).
Qed.

Lemma hash_bytes_extended_ref (aligned : bool) k keylen seed :
  0 ≤ keylen < 2 ^ 31 → keylen ≤ Z.of_nat (length k) →
  hash_bytes_extended bigendian aligned k keylen seed = Ok (reference64 bigendian (take (Z.to_nat keylen) k) seed).
Proof.
  intros Hn Hk. destruct (uint32_len k keylen Hn Hk) as [Hu Hl]. unfold hash_bytes_extended, reference64. rewrite Hu, Hl.
  rewrite hash_key_ref by (apply perturb_ok, initial_ok || lia). cbn [mbind outcome_bind].
  destruct (hash_reference _ _ _) as [[a b] c] eqn:Hr. f_equal. apply join_halves.
  change c with (a, b, c).2. rewrite <- Hr. unfold hash_reference. destruct (absorb _ _ _ _) as [[x y] z]. apply Z.mod_pos_bound. lia.
Qed.

Lemma reference64_seed0 k : reference64 bigendian k 0 mod 2 ^ 32 = reference32 bigendian k.
Proof.
  unfold reference64, reference32. cbn [perturb Z.eqb]. rewrite Z.add_comm, Z.mod_add by lia. apply Z.mod_small.
  unfold hash_reference. destruct (absorb _ _ _ _) as [[x y] z]. apply Z.mod_pos_bound. lia.
Qed.

(** ** Words in memory *)

Lemma length_memory_of n w : length (memory_of bigendian n w) = n.
Proof. unfold memory_of. destruct bigendian; by rewrite ?length_rev, length_le_bytes. Qed.

Lemma value_memory k : u32 k → value32 bigendian (memory_of bigendian 4 k) = k.
Proof.
  intros Hk. unfold value32, memory_of. destruct bigendian; [|by apply value_le_bytes].
  rewrite <- (value_le_bytes 4 k Hk) at 2. done.
Qed.

Lemma word_at_memory k rest : u32 k → word_at bigendian (memory_of bigendian 4 k ++ rest) 0 = Ok k.
Proof.
  intros Hk. rewrite <- (value_memory k Hk) at 2. unfold word_at, value32, memory_of. destruct bigendian; simpl; f_equal; lia.
Qed.

(** a key of one word is the rest of an empty sequence of blocks *)
Lemma reference_word k t :
  u32 k → state_ok t →
  hash_reference bigendian (memory_of bigendian 4 k) t = final (uint32 (t.1.1 + k), t.1.2, t.2).
Proof.
  intros Hk. destruct t as [[a b] c]. intros (Ha & Hb & Hc). cbn [fst snd] in *.
  unfold hash_reference. rewrite length_memory_of. change (4 / 12)%nat with 0%nat. unfold absorb, add_rest.
  rewrite (take_ge _ 4) by (rewrite length_memory_of; lia). rewrite value_memory by done.
  rewrite (drop_ge _ 4), (drop_ge _ 8), value_nil by (rewrite length_memory_of; lia).
  assert (value32 bigendian (if bigendian then [] else [0]) = 0) as -> by by destruct bigendian.
  by rewrite !Z.add_0_r, (u32_id b), (u32_id c).
Qed.

Lemma hash_uint32_ref k : u32 k → hash_bytes_uint32 k = reference32 bigendian (memory_of bigendian 4 k).
Proof. intros Hk. unfold reference32. rewrite reference_word by (done || apply initial_ok). by rewrite length_memory_of. Qed.

Lemma hash_uint32_extended_ref k seed :
  u32 k → hash_bytes_uint32_extended k seed = reference64 bigendian (memory_of bigendian 4 k) seed.
Proof.
  intros Hk. unfold reference64, hash_bytes_uint32_extended. rewrite reference_word by (done || apply perturb_ok, initial_ok).
  rewrite length_memory_of. change (Z.of_nat 4) with 4. destruct (perturb seed (initial 4)) as [[a b] c]. cbn [fst snd].
  destruct (final _) as [[x y] z] eqn:Hf. apply join_halves. change z with (x, y, z).2. rewrite <- Hf. apply Z.mod_pos_bound. lia.
Qed.

(** ** Strings *)

Lemma strlen_app s rest : (∀ c, c ∈ s → c ≠ 0) → strlen (s ++ 0 :: rest) = Ok (Z.of_nat (length s)).
Proof.
  induction s as [|c s IH]; intros Hs; [done|]. cbn [app strlen]. destruct (Z.eqb_spec c 0) as [->|]; [by destruct (Hs 0); [left|]|].
  rewrite IH by (intros x Hx; apply Hs; by right). cbn [mbind outcome_bind length]. f_equal. lia.
Qed.

Lemma string_hash_ref (aligned : bool) s rest keysize :
  (∀ c, c ∈ s → c ≠ 0) → 1 ≤ keysize ≤ 2 ^ 31 →
  string_hash bigendian aligned (s ++ 0 :: rest) keysize = Ok (reference32 bigendian (take (Z.to_nat (keysize - 1)) s)).
Proof.
  intros Hs Hk. unfold string_hash. rewrite strlen_app by done. cbn [mbind outcome_bind].
  assert (uint64 (keysize - 1) = keysize - 1) as -> by (apply Z.mod_small; lia).
  set (n := Z.min _ _). assert (0 ≤ n < 2 ^ 31 ∧ n ≤ Z.of_nat (length s)) as [Hn Hl] by lia.
  assert (int32 n = n) as -> by (unfold int32; rewrite Z.mod_small by lia; lia).
  rewrite hash_bytes_ref by (rewrite ?length_app; lia). do 2 f_equal.
  rewrite take_app_le by lia. unfold n. destruct (Z.min_spec (Z.of_nat (length s)) (keysize - 1)) as [[? ->]|[? ->]]; [|done].
  by rewrite !take_ge by lia.
Qed.

(** ** Bitmap sets *)

Lemma bms_hash_ref a :
  (∀ ws, a = Some ws → nwords ws < 2 ^ 28) → ∃ h, ∀ aligned : bool, bms_hash_value bigendian aligned a = Ok h.
Proof.
  intros Hn. destruct a as [ws|]; [|by exists 0]. specialize (Hn ws eq_refl).
  assert (Hl : Z.of_nat (length (ws ≫= memory_of bigendian 8)) = nwords ws * 8).
  { unfold nwords. clear. induction ws as [|w ws IH]; [done|]. rewrite bind_cons, length_app, length_memory_of. simpl. lia. }
  assert (0 ≤ nwords ws) by (unfold nwords; lia).
  eexists. intros al. unfold bms_hash_value, int32. rewrite (Z.mod_small (nwords ws * 8 + 2 ^ 31)), Z.add_simpl_r by lia.
  apply hash_bytes_ref; lia.
Qed.
End Endianness.

(** ** Information kept by the mixers *)

(** one line of [mix], which then goes on with the next of the three words, and
    its inverse *)
Definition mix_line (s : Z) (t : Z * Z * Z) : Z * Z * Z :=
  let '(x, y, z) := t in (y, uint32 (z + y), Z.lxor (uint32 (x - z)) (rot z s)).

Definition unmix_line (s : Z) (t : Z * Z * Z) : Z * Z * Z :=
  let '(y, z, x) := t in let z := uint32 (z - y) in (uint32 (Z.lxor x (rot z s) + z), y, z).

Definition unmix (t : Z * Z * Z) : Z * Z * Z := foldr unmix_line t [4; 6; 8; 16; 19; 4].

Lemma undo_add x y : u32 x → uint32 (uint32 (x + y) - y) = x.
Proof. intros Hx. unfold uint32. rewrite Zminus_mod_idemp_l, Z.add_simpl_r. by apply Z.mod_small. Qed.

Lemma unmix_mix_line s t : 0 ≤ s ≤ 32 → state_ok t → unmix_line s (mix_line s t) = t ∧ state_ok (mix_line s t).
Proof.
  destruct t as [[x y] z]. intros Hs (Hx & Hy & Hz). cbn [fst snd] in *. split.
  - unfold mix_line, unmix_line. rewrite undo_add, Z.lxor_assoc, Z.lxor_nilpotent, Z.lxor_0_r by done.
    rewrite uint32_add_l, Z.sub_add. by rewrite u32_id.
  - split; [done|]. split; [apply u32_uint32|]. apply u32_lxor; [apply u32_uint32|by apply u32_rot].
Qed.

Lemma unmix_lines l t :
  Forall (fun s => 0 ≤ s ≤ 32) l → state_ok t → foldr unmix_line (foldl (fun t s => mix_line s t) t l) l = t.
Proof.
  intros Hl. revert t. induction Hl as [|s l Hs _ IH]; intros t Ht; [done|]. simpl.
  destruct (unmix_mix_line s t Hs Ht) as [Hu Hok]. by rewrite IH.
Qed.

(** both halves of [x ^ (x >> s)] and [x * m] for an odd [m] can be undone *)
Lemma xorshift_inj x y s : 0 ≤ x → 0 ≤ y → 0 < s → Z.lxor x (Z.shiftr x s) = Z.lxor y (Z.shiftr y s) → x = y.
Proof.
  intros Hx Hy Hs Heq. apply Z.lxor_eq. set (d := Z.lxor x y).
  assert (Hd : d = Z.shiftr d s).
  { unfold d. rewrite Z.shiftr_lxor. apply Z.lxor_eq.
    transitivity (Z.lxor (Z.lxor x (Z.shiftr x s)) (Z.lxor y (Z.shiftr y s))); [|rewrite Heq; apply Z.lxor_nilpotent].
    apply Z.bits_inj'. intros i _. rewrite !Z.lxor_spec. by repeat destruct (Z.testbit _ _). }
  assert (0 ≤ d) as Hpos by (apply Z.lxor_nonneg; lia). destruct (decide (d = 0)) as [|Hne]; [done|].
  rewrite Z.shiftr_div_pow2 in Hd by lia. assert (d / 2 ^ s < d); [|lia].
  apply Z.div_lt; [lia|]. apply Z.pow_gt_1; lia.
Qed.

Lemma mul_mod_inj x y m n : 0 ≤ n → Z.gcd (2 ^ n) m = 1 → 0 ≤ x < 2 ^ n → 0 ≤ y < 2 ^ n → (x * m) mod 2 ^ n = (y * m) mod 2 ^ n → x = y.
Proof.
  intros Hn Hg Hx Hy Heq. assert (2 ^ n | m * (x - y)) as Hd.
  { apply Z.mod_divide; [lia|]. rewrite Z.mul_sub_distr_l, !(Z.mul_comm m), Zminus_mod, Heq, Z.sub_diag. done. }
  apply Z.gauss in Hd as [q Hq]; [|done]. assert (q = 0) by nia. lia.
Qed.

Lemma xorshift_range x s n : 0 ≤ n → 0 ≤ s → 0 ≤ x < 2 ^ n → 0 ≤ Z.lxor x (Z.shiftr x s) < 2 ^ n.
Proof.
  intros Hn Hs Hx. assert (Hb : ∀ i, n ≤ i → Z.testbit x i = false)
    by (intros i Hi; rewrite <- (Z.mod_small x (2 ^ n)) by done; apply Z.mod_pow2_bits_high; lia).
  assert (Z.lxor x (Z.shiftr x s) = Z.lxor x (Z.shiftr x s) mod 2 ^ n) as ->; [|apply Z.mod_pos_bound; lia].
  apply Z.bits_inj'. intros i Hi. destruct (Z.lt_ge_cases i n); [by rewrite Z.mod_pow2_bits_low|].
  by rewrite Z.mod_pow2_bits_high, Z.lxor_spec, Z.shiftr_spec, !Hb by lia.
Qed.

(** three rounds of shifting and two odd factors *)
Lemma murmur_inj n s1 s2 s3 m1 m2 x y :
  0 ≤ n → 0 < s1 → 0 < s2 → 0 < s3 → Z.gcd (2 ^ n) m1 = 1 → Z.gcd (2 ^ n) m2 = 1 → 0 ≤ x < 2 ^ n → 0 ≤ y < 2 ^ n →
  let round1 h := (Z.lxor h (Z.shiftr h s1) * m1) mod 2 ^ n in
  let round2 h := (Z.lxor h (Z.shiftr h s2) * m2) mod 2 ^ n in
  let h1 := round2 (round1 x) in let h2 := round2 (round1 y) in
  Z.lxor h1 (Z.shiftr h1 s3) = Z.lxor h2 (Z.shiftr h2 s3) → x = y.
Proof.
  intros Hn H1 H2 H3 Hm1 Hm2 Hx Hy round1 round2 h1 h2 Heq.
  assert (Hr : ∀ z, 0 ≤ z mod 2 ^ n < 2 ^ n) by (intros z; apply Z.mod_pos_bound; lia).
  apply xorshift_inj in Heq; [|apply Hr|apply Hr|done].
  apply mul_mod_inj in Heq; [|done|done|apply xorshift_range; (done || lia || apply Hr)..].
  apply xorshift_inj in Heq; [|apply Hr|apply Hr|done].
  apply mul_mod_inj in Heq; [|done|done|apply xorshift_range; (done || lia)..].
  by apply xorshift_inj in Heq; [|lia..].
Qed.

(** ** Theorems *)

(** C35. One hash for all paths: whether the key is aligned or not, and on
    processors of either byte order, [hash_bytes] and [hash_bytes_extended]
    return and give the reference value of the first [keylen] bytes, so that the
    loop over blocks and the last switch, which reads words on aligned keys and
    bytes on others, agree, and no byte beyond [keylen] is read or matters. *)
Theorem hash_bytes_reference bigendian (aligned : bool) k more keylen seed :
  keylen = Z.of_nat (length k) → keylen < 2 ^ 31 →
  hash_bytes bigendian aligned (k ++ more) keylen = Ok (reference32 bigendian k)
  ∧ hash_bytes_extended bigendian aligned (k ++ more) keylen seed = Ok (reference64 bigendian k seed).
Proof.
  intros Hl Hlt. rewrite hash_bytes_ref, hash_bytes_extended_ref by (rewrite ?length_app; lia).
  by rewrite take_app_length' by lia.
Qed.

Lemma hash_bytes_reference_witness :
  hash_bytes false true [104; 101; 108; 108; 111; 32; 119; 111; 114; 108; 100; 33; 33] 13
  = hash_bytes false false [104; 101; 108; 108; 111; 32; 119; 111; 114; 108; 100; 33; 33; 7] 13.
Proof.
  pose (k := [104; 101; 108; 108; 111; 32; 119; 111; 114; 108; 100; 33; 33]).
  destruct (hash_bytes_reference false true k [] 13 0) as [H1 _]; [done|done|].
  destruct (hash_bytes_reference false false k [7] 13 0) as [H2 _]; [done|done|].
  exact (eq_trans H1 (eq_sym H2)).
Defined.

(** The shortcuts are what their comments say: hashing a 32-bit value, with
    or without a seed, is hashing its four bytes in memory, so that
    [uint32_hash] and [tag_hash] agree; and with the seed 0 the low half of the
    64-bit hash is the 32-bit hash. *)
Theorem hash_shortcuts bigendian (aligned : bool) k more keylen key seed :
  0 ≤ key < 2 ^ 32 → keylen = Z.of_nat (length k) → keylen < 2 ^ 31 →
  hash_bytes bigendian aligned (memory_of bigendian 4 key ++ more) 4 = Ok (hash_bytes_uint32 key)
  ∧ hash_bytes_extended bigendian aligned (memory_of bigendian 4 key ++ more) 4 seed = Ok (hash_bytes_uint32_extended key seed)
  ∧ uint32_hash bigendian (memory_of bigendian 4 key ++ more) = tag_hash bigendian aligned (memory_of bigendian 4 key ++ more) 4
  ∧ (h ← hash_bytes_extended bigendian aligned (k ++ more) keylen 0; Ok (uint32 h)) = hash_bytes bigendian aligned (k ++ more) keylen.
Proof.
  intros Hkey Hl Hlt.
  assert (Hm : hash_bytes bigendian aligned (memory_of bigendian 4 key ++ more) 4 = Ok (hash_bytes_uint32 key)).
  { rewrite (hash_uint32_ref bigendian) by done. rewrite hash_bytes_ref by (rewrite ?length_app, ?length_memory_of; lia).
    by rewrite take_app_length' by by rewrite length_memory_of. }
  split_and!.
  - done.
  - rewrite (hash_uint32_extended_ref bigendian) by done. rewrite hash_bytes_extended_ref by (rewrite ?length_app, ?length_memory_of; lia).
    by rewrite take_app_length' by by rewrite length_memory_of.
  - unfold uint32_hash, tag_hash. rewrite word_at_memory by done. symmetry. exact Hm.
  - rewrite hash_bytes_ref, hash_bytes_extended_ref by (rewrite ?length_app; lia). cbn [mbind outcome_bind].
    f_equal. apply reference64_seed0.
Qed.

Lemma hash_shortcuts_witness : hash_bytes true true [0; 0; 1; 2; 9] 4 = Ok (hash_bytes_uint32 258).
Proof. destruct (hash_shortcuts true true [] [9] 0 258 5) as [H _]; [done|done|done|exact H]. Defined.

(** Equal keys have equal hashes.  For string keys, the key a caller passes
    and the copy that the table keeps, cut after [keysize - 1] bytes, have the
    same hash, whatever follows the terminating NUL.  For bitmap sets,
    [bitmap_match] reports a match exactly for sets with the same members, and
    [bitmap_hash] returns a value, the same for such sets. *)
Theorem table_keys_hash bigendian (aligned aligned' : bool) s more more' keysize a b :
  (∀ c, c ∈ s → c ≠ 0) → 1 ≤ keysize ≤ 2 ^ 31 →
  bms_wf a → bms_wf b → (∀ ws, a = Some ws → nwords ws < 2 ^ 28) →
  string_hash bigendian aligned (s ++ 0 :: more) keysize
  = string_hash bigendian aligned' (take (Z.to_nat (keysize - 1)) s ++ 0 :: more') keysize
  ∧ is_Ok (string_hash bigendian aligned (s ++ 0 :: more) keysize) = true
  ∧ (bitmap_match a b = 0 ↔ ∀ x, 0 ≤ x → bms_in x a = bms_in x b)
  ∧ (∃ h, bitmap_hash bigendian aligned a = Ok h ∧ (bitmap_match a b = 0 → bitmap_hash bigendian aligned' b = Ok h)).
Proof.
  intros Hs Hk Ha Hb Hn. split_and!.
  - rewrite (string_hash_ref bigendian aligned s), (string_hash_ref bigendian aligned'); try done.
    + by rewrite take_take, Nat.min_id.
    + intros c Hc. apply Hs. rewrite <- (take_drop (Z.to_nat (keysize - 1)) s). by apply elem_of_app; left.
  - by rewrite string_hash_ref.
  - unfold bitmap_match. transitivity (bms_equal a b = true); [by destruct (bms_equal a b)|].
    rewrite equal_spec, <- big_eq_ext by done. split; [by intros ->|by apply wf_big_eq].
  - destruct (bms_hash_ref bigendian a) as [h Hh]; [done|]. exists h. split; [apply Hh|]. unfold bitmap_match.
    destruct (bms_equal a b) eqn:He; [|done]. apply equal_spec in He as <-; [|done..]. intros _. apply Hh.
Qed.

Lemma table_keys_hash_witness :
  string_hash false true [108; 97; 109; 0; 77] 3 = string_hash false false [108; 97; 0] 3
  ∧ ∃ h, bitmap_hash false true (Some [5]) = Ok h ∧ bitmap_hash false false (Some [5]) = Ok h.
Proof.
  assert (bms_wf (Some [5])) as Ha by (split; [by repeat constructor|done]).
  destruct (table_keys_hash false true false [108; 97; 109] [77] [] 3 (Some [5]) (Some [5])) as (H1 & _ & _ & h & H2 & H3).
  - intros c Hc Hz. rewrite Hz in Hc. clear Hz. by repeat (apply elem_of_cons in Hc as [Hc|Hc]; [discriminate Hc|]); apply elem_of_nil in Hc.
  - done.
  - exact Ha.
  - exact Ha.
  - intros ws [= <-]. done.
  - split; [exact H1|]. exists h. split; [exact H2|]. apply H3. reflexivity.
Defined.

(** [mix] is reversible, as its comment says *)
Theorem mix_reversible t : state_ok t → unmix (mix t) = t.
Proof.
  intros Ht. assert (mix t = foldl (fun t s => mix_line s t) t [4; 6; 8; 16; 19; 4]) as -> by by destruct t as [[a b] c].
  apply unmix_lines; [by repeat constructor|done].
Qed.

(** the finishers of single words lose nothing *)
Theorem murmurhash32_injective x y : 0 ≤ x < 2 ^ 32 → 0 ≤ y < 2 ^ 32 → murmurhash32 x = murmurhash32 y → x = y.
Proof. intros Hx Hy. apply (murmur_inj 32 16 13 16 0x85ebca6b 0xc2b2ae35 x y); done. Qed.

Theorem murmurhash64_injective x y : 0 ≤ x < 2 ^ 64 → 0 ≤ y < 2 ^ 64 → murmurhash64 x = murmurhash64 y → x = y.
Proof. intros Hx Hy. apply (murmur_inj 64 33 33 33 0xff51afd7ed558ccd 0xc4ceb9fe1a85ec53 x y); done. Qed.

(** the extended functions rotate the low half as the others rotate the hash *)
Lemma rotate_masks n : (n < 31)%nat → Z.testbit 0xfffffffefffffffe (Z.of_nat n + 1) = true ∧ Z.testbit 0x100000001 (Z.of_nat n + 1) = false.
Proof. intros Hn. do 31 (destruct n as [|n]; [done|]). lia. Qed.

Theorem rotate_low_half v : 0 ≤ v < 2 ^ 64 → uint32 (ROTATE_HIGH_AND_LOW_32BITS v) = pg_rotate_left32 (uint32 v) 1.
Proof.
  intros Hv. unfold ROTATE_HIGH_AND_LOW_32BITS, pg_rotate_left32, uint32, uint64. apply Z.bits_inj'. intros i Hi.
  destruct (Z.lt_ge_cases i 32) as [Hlt|Hge].
  - rewrite Z.mod_pow2_bits_low, !Z.lor_spec, !Z.land_spec, !Z.shiftr_spec, !Z.mod_pow2_bits_low, !Z.shiftl_spec by lia.
    destruct (decide (i = 0)) as [->|Hne].
    + rewrite (Z.mod_pow2_bits_low v 32 (0 + (32 - 1))), !Z.testbit_neg_r by lia. apply andb_true_r.
    + rewrite (Z.mod_pow2_bits_low v 32 (i - 1)), (Z.mod_pow2_bits_high v 32 (i + (32 - 1))) by lia.
      destruct (rotate_masks (Z.to_nat (i - 1))) as [H1 H2]; [lia|]. replace (Z.of_nat (Z.to_nat (i - 1)) + 1) with i in H1, H2 by lia.
      by rewrite H1, H2, andb_true_r, andb_false_r.
  - rewrite Z.mod_pow2_bits_high, Z.lor_spec, Z.mod_pow2_bits_high, Z.shiftr_spec, Z.mod_pow2_bits_high by lia. done.
Qed.
