(* ===== verification/Float8.v ===== *)
(** * Double precision

    [float8], the C type [double], with IEEE 754 arithmetic as the standard
    library specifies it.  NaNs are not told apart. *)

From Stdlib Require Import Floats.SpecFloat.
From S2P Require Import Prelude.

Abbreviation float8 := spec_float.

Definition fadd : float8 → float8 → float8 := SFadd 53 1024.
Definition fdiv : float8 → float8 → float8 := SFdiv 53 1024.
Definition flt : float8 → float8 → bool := SFltb.
Definition isnan (f : float8) : bool := match f with S754_nan => true | _ => false end.
Definition float8_of_int (n : Z) : float8 := binary_normalize 53 1024 n 0 false.
Definition fzero : float8 := S754_zero false.
Definition DBL_MAX : float8 := SFmax_float 53 1024.
Definition fmul : float8 → float8 → float8 := SFmul 53 1024.

(** conversion to an integer type, towards zero; [None] where there is no
    result *)
Definition float8_to_int (f : float8) : option Z :=
  match f with
  | S754_zero _ => Some 0
  | S754_finite s m e => Some (let n := if 0 <=? e then Z.pos m * 2 ^ e else Z.pos m / 2 ^ (- e) in if s then - n else n)
  | _ => None
  end.

(** ** The order of floats *)

(** floats that are not NaN are ordered by a triple *)
Definition float_key (f : float8) : Z * Z * Z :=
  match f with
  | S754_zero _ | S754_nan => (0, 0, 0)
  | S754_infinity s => (if s then -2 else 2, 0, 0)
  | S754_finite s m e => if s then (-1, - e, - Z.pos m) else (1, e, Z.pos m)
  end.

Definition key_lt (x y : Z * Z * Z) : Prop :=
  x.1.1 < y.1.1 ∨ (x.1.1 = y.1.1 ∧ (x.1.2 < y.1.2 ∨ (x.1.2 = y.1.2 ∧ x.2 < y.2))).

Lemma flt_key x y : isnan x = false → isnan y = false → flt x y = true ↔ key_lt (float_key x) (float_key y).
Proof.
  unfold flt, SFltb, key_lt. destruct x as [s|s| |s m e], y as [s'|s'| |s' m' e']; try done; intros _ _;
    try (destruct s); try (destruct s'); cbn; try (split; [done|lia]); try (split; [lia|done]).
  - destruct (Z.compare_spec e e') as [He|He|He]; cbn; [|split; [done|lia]|split; [lia|done]].
    fold (Pos.compare m m'). destruct (Pos.compare_spec m m'); cbn; split; (done || lia).
  - destruct (Z.compare_spec e e') as [He|He|He]; cbn; [|split; [lia|done]|split; [done|lia]].
    fold (Pos.compare m m'). destruct (Pos.compare_spec m m'); cbn; split; (done || lia).
Qed.

Lemma flt_nan_r x y : isnan y = true → flt x y = false.
Proof. destruct y; try done. by destruct x. Qed.

Lemma flt_trans x y z : isnan x = false → isnan y = false → isnan z = false → flt x y = true → flt y z = true → flt x z = true.
Proof. intros Hx Hy Hz. rewrite !flt_key by done. unfold key_lt. lia. Qed.

Lemma flt_irrefl x : flt x x = false.
Proof.
  destruct (isnan x) eqn:Hx; [by apply flt_nan_r|]. apply not_true_iff_false. rewrite flt_key by done. unfold key_lt. lia.
Qed.

(** what is not smaller than [y] is not smaller than anything below [y] *)
Lemma flt_below x y z : isnan x = false → isnan y = false → isnan z = false → flt x y = false → flt z y = true → flt x z = false.
Proof.
  intros Hx Hy Hz. rewrite <- !not_true_iff_false, !flt_key by done. unfold key_lt. lia.
Qed.

Lemma flt_ge_trans x y z : isnan x = false → isnan y = false → isnan z = false → flt x y = false → flt y z = false → flt x z = false.
Proof.
  intros Hx Hy Hz. rewrite <- !not_true_iff_false, !flt_key by done. unfold key_lt. lia.
Qed.

(** ** Signs *)

(** NaN, or a clear sign bit *)
Definition fnonneg (f : float8) : bool :=
  match f with S754_zero s | S754_infinity s | S754_finite s _ _ => negb s | S754_nan => true end.

Lemma round_nonneg m e l : fnonneg (binary_round_aux 53 1024 false m e l) = true.
Proof.
  unfold binary_round_aux. destruct (shr_fexp _ _ m e l) as [mrs e']. destruct (shr_fexp _ _ _ e' loc_Exact) as [mrs'' e''].
  destruct (shr_m mrs''); [done| |done]. by destruct (_ <=? _).
Qed.

Lemma fdiv_nonneg x y : fnonneg x = true → fnonneg y = true → fnonneg (fdiv x y) = true.
Proof.
  destruct x as [[]|[]| |[] m e], y as [[]|[]| |[] m' e']; try done; intros _ _.
  unfold fdiv, SFdiv. destruct (SFdiv_core_binary _ _ _ _ _ _) as [[mz ez] lz]. apply round_nonneg.
Qed.

Lemma fmul_nonneg x y : fnonneg x = true → fnonneg y = true → fnonneg (fmul x y) = true.
Proof.
  destruct x as [[]|[]| |[] m e], y as [[]|[]| |[] m' e']; try done; intros _ _. unfold fmul, SFmul. apply round_nonneg.
Qed.

Lemma float8_of_int_nonneg n : 0 ≤ n → fnonneg (float8_of_int n) = true.
Proof.
  intros Hn. destruct n as [|p|p]; [done| |lia]. unfold float8_of_int, binary_normalize, binary_round.
  destruct (shl_align _ _ _) as [mz ez]. apply round_nonneg.
Qed.

(** a float that is not negative and below another number has an integer part *)
Lemma float8_to_int_nonneg f g : fnonneg f = true → flt f g = true → ∃ n, float8_to_int f = Some n ∧ 0 ≤ n.
Proof.
  destruct f as [s|[]| |[] m e]; try done; intros _ H.
  - by exists 0.
  - by destruct g as [[]|[]| |[] ? ?].
  - eexists. split; [done|]. cbn. destruct (Z.leb_spec 0 e); [apply Z.mul_nonneg_nonneg; lia|].
    apply Z.div_pos; [lia|]. apply Z.pow_pos_nonneg; lia.
Qed.
