(* ===== verification/Kmeans.v ===== *)
(** * K-means clustering

    [ext/kmeans_v2_ext.c]: points and centroids are copied into flat arrays;
    every iteration compiles one distance function per centroid, lets the
    threads assign each point of their range to its nearest centroid and add up
    the coordinates per cluster, and merges the sums into new centroids.

    The arrays hold [float8] values with IEEE 754 arithmetic in double
    precision, up to the payload of a NaN.  The function that injection of a
    centroid, constant folding and the JIT compiler make of the distance lambda
    is a parameter, as in [ApplyMt.v]; it is called with a pointer to the first
    coordinate of a point.  The threads interleave at every access to memory. *)

From Stdlib Require Import Floats.SpecFloat.
From S2P Require Import Prelude Float8 ApplyMt.

(** ** Memory and ints *)

Definition palloc (size : Z) : outcome unit :=
  if uint64 size <=? MaxAllocSize then Ok tt else elog (lit "invalid memory alloc request size " ++ fmt_u (uint64 size)).

(** element [i] of an array *)
Definition load {A} (l : list A) (i : Z) : outcome A := if 0 <=? i then deref (l !! Z.to_nat i) else UB.

Definition store {A} (l : list A) (i : Z) (x : A) : outcome (list A) :=
  if (0 <=? i) && (i <? Z.of_nat (length l)) then Ok (<[Z.to_nat i := x]> l) else UB.

Fixpoint ofoldl {A B} (f : B → A → outcome B) (b : B) (l : list A) : outcome B :=
  match l with
  | [] => Ok b
  | x :: l => b ← f b x; ofoldl f b l
  end.

(** ** The worker thread *)

(** the control state of a worker: at the test of its loop, about to change an
    assignment, or adding coordinate [d] of a point to the sums of its cluster *)
Inductive wpc :=
| AtPoint (pi : Z)
| Assign (pi best_ci : Z)
| Accumulate (pi best_ci d : Z)
| Exited.

#[export] Instance wpc_eq_dec : EqDecision wpc.
Proof. solve_decision. Defined.

(** [points], [dist_funcs] and the other fields that are set before the threads
    start are read only; [assignments] is shared and not part of the item *)
Record KMeansV2WorkItem := mkKItem {
  k_start : Z;
  k_end : Z;
  k_num_points : Z;
  k_natts_point : Z;
  k_points : list float8;
  k_num_centroids : Z;
  k_coordsAgg : list float8;
  k_assignCount : list Z;
  k_changesMade : bool;
  k_dist_funcs : list (list float8 → float8);
  k_pc : wpc
}.

Definition with_pc (a : KMeansV2WorkItem) (pc : wpc) : KMeansV2WorkItem :=
  mkKItem (k_start a) (k_end a) (k_num_points a) (k_natts_point a) (k_points a) (k_num_centroids a) (k_coordsAgg a) (k_assignCount a)
    (k_changesMade a) (k_dist_funcs a) pc.

Definition with_sums (a : KMeansV2WorkItem) (coordsAgg : list float8) (assignCount : list Z) : KMeansV2WorkItem :=
  mkKItem (k_start a) (k_end a) (k_num_points a) (k_natts_point a) (k_points a) (k_num_centroids a) coordsAgg assignCount
    (k_changesMade a) (k_dist_funcs a) (k_pc a).

Definition with_changes (a : KMeansV2WorkItem) (changesMade : bool) : KMeansV2WorkItem :=
  mkKItem (k_start a) (k_end a) (k_num_points a) (k_natts_point a) (k_points a) (k_num_centroids a) (k_coordsAgg a) (k_assignCount a)
    changesMade (k_dist_funcs a) (k_pc a).

(** the loop over the centroids *)
Fixpoint best_loop (dist_funcs : list (list float8 → float8)) (p : list float8) (ci best_ci : Z) (best_d : float8) (first : bool) : Z :=
  match dist_funcs with
  | [] => best_ci
  | f :: dist_funcs =>
      let d := f p in
      if first || (negb (isnan d) && flt d best_d) then best_loop dist_funcs p (ci + 1) ci d false
      else best_loop dist_funcs p (ci + 1) best_ci best_d first
  end.

(** a pointer to point [pi] *)
Definition point_at (a : KMeansV2WorkItem) (pi : Z) : list float8 := drop (Z.to_nat (uint64 (pi * k_natts_point a))) (k_points a).

(** one step of [kmeans_v2_worker]; [None] when the thread has exited *)
Definition kmeans_v2_worker (a : KMeansV2WorkItem) (assignments : list Z) : option (outcome (KMeansV2WorkItem * list Z)) :=
  match k_pc a with
  | AtPoint pi =>
      Some (
        if (pi <? k_end a) && (pi <? k_num_points a) then
          let best_ci := best_loop (k_dist_funcs a) (point_at a pi) 0 0 DBL_MAX true in
          old ← load assignments pi;
          if old =? best_ci then Ok (with_pc a (Accumulate pi best_ci 0), assignments)
          else Ok (with_pc a (Assign pi best_ci), assignments)
        else Ok (with_pc a Exited, assignments))
  | Assign pi best_ci =>
      Some (assignments ← store assignments pi best_ci; Ok (with_pc (with_changes a true) (Accumulate pi best_ci 0), assignments))
  | Accumulate pi best_ci d =>
      Some (
        if d <? k_natts_point a then
          x ← load (point_at a pi) d;
          i ← int_mul best_ci (k_natts_point a); i ← int_add i d;
          old ← load (k_coordsAgg a) i; coordsAgg ← store (k_coordsAgg a) i (fadd old x);
          Ok (with_pc (with_sums a coordsAgg (k_assignCount a)) (Accumulate pi best_ci (d + 1)), assignments)
        else
          old ← load (k_assignCount a) best_ci; new ← int_add old 1; assignCount ← store (k_assignCount a) best_ci new;
          Ok (with_pc (with_sums a (k_coordsAgg a) assignCount) (AtPoint (uint64 (pi + 1))), assignments))
  | Exited => None
  end.

(** the threads between [pthread_create] and [pthread_join] *)
Record kconfig := mkKConfig { kc_threads : list KMeansV2WorkItem; kc_assignments : list Z }.

Inductive kmeans_step (c : kconfig) : outcome kconfig → Prop :=
| kmeans_step_thread i a r :
    kc_threads c !! i = Some a → kmeans_v2_worker a (kc_assignments c) = Some r →
    kmeans_step c (s ← r; Ok (mkKConfig (<[i := s.1]> (kc_threads c)) s.2)).

Definition kmeans_reach (c c' : kconfig) : Prop := rtc (fun c c' => kmeans_step c (Ok c')) c c'.

Definition all_exited (c : kconfig) : Prop := Forall (fun a => k_pc a = Exited) (kc_threads c).

(** ** [kmeans_v2] *)

Record kmeans_args := mkKArgs {
  ka_nthreads : Z;
  ka_maxit : Z;
  ka_natts_point : Z;
  ka_natts_centroid : Z;
  (** the rows of the two relations; [None] for NULL *)
  ka_points : list (list (option float8));
  ka_centroids : list (list (option float8))
}.

(** the coordinates of a point start at its pointer: injection of the row at a
    pointer into the distance lambda, folding, compilation *)
Abbreviation kmeans_compile := (list float8 → outcome (list float8 → float8)).

Definition kmeans_nthreads (nthreads num_points : Z) : Z :=
  let nthreads := if (num_points <? nthreads) && (0 <? num_points) then num_points else nthreads in
  if nthreads <? 1 then 1 else nthreads.

(** the loop that copies the attributes of the tuples into an array of [size]
    values; an attribute that is NULL has the Datum 0 *)
Fixpoint copy_rows (size natts idx : Z) (rows : list (list (option float8))) : outcome (list float8) :=
  match rows with
  | [] => Ok []
  | row :: rows =>
      if uint64 (idx * natts) + natts <=? size then
        rest ← copy_rows size natts (idx + 1) rows;
        Ok ((default fzero <$> take (Z.to_nat natts) row) ++ rest)
      else UB
  end.

(** [sizeof(KMeansV2WorkItem)] *)
Definition SIZEOF_KMEANS_ITEM : Z := 88.

Definition kmeans_item (num_points num_centroids natts_point nthreads : Z) (points : list float8) (t : Z) : KMeansV2WorkItem :=
  {| k_start := uint64 (uint64 num_points * t) / nthreads;
     k_end := uint64 (uint64 num_points * (t + 1)) / nthreads;
     k_num_points := uint64 num_points;
     k_natts_point := natts_point;
     k_points := points;
     k_num_centroids := num_centroids;
     k_coordsAgg := repeat fzero (Z.to_nat (num_centroids * natts_point));
     k_assignCount := repeat 0 (Z.to_nat num_centroids);
     k_changesMade := false;
     k_dist_funcs := [];
     k_pc := Exited |}.

Record kmeans_state := mkKState {
  ks_num_points : Z;
  ks_num_centroids : Z;
  ks_points : list float8;
  ks_centroids : list float8;
  ks_assignments : list Z;
  ks_threads : list KMeansV2WorkItem
}.

(** up to the main loop *)
Definition kmeans_setup (k : kmeans_args) : outcome kmeans_state :=
  let num_points := int32 (Z.of_nat (length (ka_points k))) in
  let num_centroids := int32 (Z.of_nat (length (ka_centroids k))) in
  let nthreads := kmeans_nthreads (ka_nthreads k) num_points in
  let np := ka_natts_point k in
  let nc := ka_natts_centroid k in
  _ ← palloc (uint64 num_points * np * 8);
  points ← copy_rows (num_points * np) np 0 (ka_points k);
  _ ← palloc (uint64 num_centroids * nc * 8);
  centroids ← copy_rows (num_centroids * nc) nc 0 (ka_centroids k);
  _ ← palloc (uint64 num_points * 4);
  _ ← palloc (nthreads * SIZEOF_KMEANS_ITEM);
  _ ← palloc (nthreads * 8);
  _ ← palloc (uint64 num_centroids * 8);
  _ ← palloc (uint64 num_centroids * np * 8);
  _ ← palloc (uint64 num_centroids * 4);
  Ok (mkKState num_points num_centroids points centroids (repeat (-1) (Z.to_nat num_points))
        (kmeans_item num_points num_centroids np nthreads points <$> seqZ 0 nthreads)).

Section Kmeans.
Context (k : kmeans_args) (compile : kmeans_compile).

Definition compile_funcs (st : kmeans_state) : outcome (list (list float8 → float8)) :=
  omapM (fun ci => compile (drop (Z.to_nat (ci * ka_natts_centroid k)) (ks_centroids st))) (seqZ 0 (ks_num_centroids st)).

(** the reset of the buffers before the threads start *)
Definition reset_item (funcs : list (list float8 → float8)) (a : KMeansV2WorkItem) : KMeansV2WorkItem :=
  {| k_start := k_start a; k_end := k_end a; k_num_points := k_num_points a; k_natts_point := k_natts_point a;
     k_points := k_points a; k_num_centroids := k_num_centroids a;
     k_coordsAgg := repeat fzero (length (k_coordsAgg a));
     k_assignCount := repeat 0 (length (k_assignCount a));
     k_changesMade := false;
     k_dist_funcs := funcs;
     k_pc := AtPoint (k_start a) |}.

Definition launch (funcs : list (list float8 → float8)) (st : kmeans_state) : kconfig :=
  mkKConfig (reset_item funcs <$> ks_threads st) (ks_assignments st).

Definition any_change (threads : list KMeansV2WorkItem) : bool := existsb k_changesMade threads.

(** merging the accumulators of the threads for centroid [ci] *)
Definition total_count (threads : list KMeansV2WorkItem) (ci : Z) : outcome Z :=
  ofoldl (fun total a => n ← load (k_assignCount a) ci; int_add total n) 0 threads.

Definition total_sum (threads : list KMeansV2WorkItem) (ci d : Z) : outcome float8 :=
  ofoldl (fun total a => i ← int_mul ci (ka_natts_point k); i ← int_add i d; x ← load (k_coordsAgg a) i; Ok (fadd total x)) fzero threads.

Definition new_centroid (threads : list KMeansV2WorkItem) (centroids : list float8) (ci : Z) : outcome (list float8) :=
  count ← total_count threads ci;
  sums ← omapM (total_sum threads ci) (seqZ 0 (ka_natts_point k));
  if 0 <? count then
    ofoldl (fun centroids d =>
      i ← int_mul ci (ka_natts_centroid k); i ← int_add i d;
      sum ← load sums d;
      store centroids i (fdiv sum (float8_of_int count))) centroids (seqZ 0 (ka_natts_point k))
  else Ok centroids.

Definition merge (threads : list KMeansV2WorkItem) (st : kmeans_state) : outcome (list float8) :=
  ofoldl (new_centroid threads) (ks_centroids st) (seqZ 0 (ks_num_centroids st)).

Definition after_iteration (c : kconfig) (centroids : list float8) (st : kmeans_state) : kmeans_state :=
  mkKState (ks_num_points st) (ks_num_centroids st) (ks_points st) centroids (kc_assignments c) (kc_threads c).

(** the main loop: the runs from iteration [iter] on, and how they end *)
Inductive kmeans_loop (iter : Z) (changed : bool) (st : kmeans_state) : outcome kmeans_state → Prop :=
| loop_exit : (iter <? ka_maxit k) && changed = false → kmeans_loop iter changed st (Ok st)
| loop_compile_error r :
    (iter <? ka_maxit k) && changed = true → compile_funcs st = r → is_Ok r = false →
    kmeans_loop iter changed st (_ ← r; UB)
| loop_thread_ub funcs c :
    (iter <? ka_maxit k) && changed = true → compile_funcs st = Ok funcs →
    kmeans_reach (launch funcs st) c → kmeans_step c UB →
    kmeans_loop iter changed st UB
| loop_merge_ub funcs c :
    (iter <? ka_maxit k) && changed = true → compile_funcs st = Ok funcs →
    kmeans_reach (launch funcs st) c → all_exited c → merge (kc_threads c) st = UB →
    kmeans_loop iter changed st UB
| loop_next funcs c centroids r :
    (iter <? ka_maxit k) && changed = true → compile_funcs st = Ok funcs →
    kmeans_reach (launch funcs st) c → all_exited c → merge (kc_threads c) st = Ok centroids →
    kmeans_loop (iter + 1) (any_change (kc_threads c)) (after_iteration c centroids st) r →
    kmeans_loop iter changed st r.

(** the output: the columns of a point and its cluster *)
Definition kmeans_emit (st : kmeans_state) : outcome (list (list float8 * Z)) :=
  omapM (fun pi =>
    a ← load (ks_assignments st) pi;
    Ok (take (Z.to_nat (ka_natts_point k)) (drop (Z.to_nat (pi * ka_natts_point k)) (ks_points st)), a)) (seqZ 0 (ks_num_points st)).

(** the outcomes of a call *)
Inductive kmeans_v2 : outcome (list (list float8 * Z)) → Prop :=
| kmeans_setup_error r : kmeans_setup k = r → is_Ok r = false → kmeans_v2 (_ ← r; UB)
| kmeans_runs st r : kmeans_setup k = Ok st → kmeans_loop 0 true st r → kmeans_v2 (st ← r; kmeans_emit st).
End Kmeans.
