(* ===== verification/KmeansFacts.v ===== *)
(** * Facts about k-means

    The search for the nearest centroid, the sums of the coordinates per
    cluster, the invariant of the threads of an iteration, and the reference,
    Lloyd's iteration. *)

From Stdlib Require Import Floats.SpecFloat.
From S2P Require Import Prelude ApplyMt ApplyMtFacts Float8 Kmeans.

(** ** The nearest centroid *)

(** [d] is a number, and none of the distances [ds] is a smaller number *)
Definition smallest (ds : list float8) (d : float8) : bool := negb (isnan d) && forallb (fun d' => negb (flt d' d)) ds.

(** The reference for the search: the first centroid whose distance is smallest
    among the distances that are numbers; centroid 0 if its own distance is not
    a number. *)
Definition nearest (funcs : list (list float8 → float8)) (p : list float8) : Z :=
  let ds := (fun f => f p) <$> funcs in
  match ds with
  | [] => 0
  | d0 :: _ => if isnan d0 then 0 else from_option (fun r => Z.of_nat r.1) 0 (list_find (fun d => smallest ds d = true) ds)
  end.

(** the search has found the first of the smallest distances so far *)
Definition best_so_far (ds : list float8) (i : nat) (d : float8) : Prop :=
  ds !! i = Some d ∧ isnan d = false ∧
  ∀ j dj, ds !! j = Some dj → isnan dj = false → flt dj d = false ∧ ((j < i)%nat → flt d dj = true).

Lemma best_loop_spec funcs p pre i d :
  best_so_far pre i d →
  ∃ i' d', best_loop funcs p (Z.of_nat (length pre)) (Z.of_nat i) d false = Z.of_nat i' ∧ best_so_far (pre ++ ((fun f => f p) <$> funcs)) i' d'.
Proof.
  revert pre i d. induction funcs as [|f funcs IH]; intros pre i d Hb; [exists i, d; by rewrite app_nil_r|].
  cbn [best_loop orb fmap list_fmap].
  assert (length (pre ++ [f p]) = S (length pre)) as Hlen by (rewrite length_app; simpl; lia).
  destruct Hb as (Hi & Hnan & Hmin). pose proof (lookup_lt_Some _ _ _ Hi) as Hlt.
  assert (Z.of_nat (length pre) + 1 = Z.of_nat (length (pre ++ [f p]))) as -> by lia.
  rewrite (cons_middle (f p) pre (_ <$> funcs)), (app_assoc pre [f p]).
  destruct (negb (isnan (f p)) && flt (f p) d) eqn:Hc; apply IH.
  - apply andb_prop in Hc as [Hn%negb_true_iff Hfd]. split; [by apply list_lookup_middle|]. split; [done|].
    intros j dj Hj Hdj. apply lookup_app_Some in Hj as [Hj|[Hge Hj]].
    + destruct (Hmin j dj Hj Hdj) as [Hm _]. split; [by apply (flt_below dj d (f p))|]. intros _.
      destruct (flt (f p) dj) eqn:He; [done|]. by rewrite (flt_ge_trans (f p) dj d) in Hfd.
    + apply list_lookup_singleton_Some in Hj as [Hz <-]. split; [apply flt_irrefl|lia].
  - split; [by apply lookup_app_l_Some|]. split; [done|]. intros j dj Hj Hdj.
    apply lookup_app_Some in Hj as [Hj|[Hge Hj]]; [by apply Hmin|].
    apply list_lookup_singleton_Some in Hj as [Hz <-]. rewrite Hdj in Hc. split; [done|lia].
Qed.

Lemma best_loop_nan funcs p ci best_ci d : isnan d = true → best_loop funcs p ci best_ci d false = best_ci.
Proof.
  intros Hd. revert ci. induction funcs as [|f funcs IH]; intros ci; [done|]. cbn [best_loop orb].
  rewrite flt_nan_r, andb_false_r by done. apply IH.
Qed.

Lemma smallest_true ds d :
  smallest ds d = true ↔ isnan d = false ∧ ∀ j dj, ds !! j = Some dj → flt dj d = false.
Proof.
  unfold smallest. rewrite andb_true_iff, negb_true_iff, forallb_forall. split; intros [Hn H]; (split; [done|]).
  - intros j dj Hj. apply negb_true_iff, H, list_elem_of_In. by eapply list_elem_of_lookup_2.
  - intros dj [j Hj]%list_elem_of_In%list_elem_of_lookup_1. rewrite (H j dj Hj). done.
Qed.

Lemma best_so_far_find ds i d : best_so_far ds i d → list_find (fun d => smallest ds d = true) ds = Some (i, d).
Proof.
  intros (Hi & Hn & Hm). apply list_find_Some. split_and!; [done| |].
  - apply smallest_true. split; [done|]. intros j dj Hj. destruct (isnan dj) eqn:Hnj; [by destruct dj|by apply (Hm j)].
  - intros j dj Hj Hlt [Hnj Hs]%smallest_true. destruct (Hm j dj Hj Hnj) as [_ Hc]. specialize (Hc Hlt). by rewrite (Hs i d Hi) in Hc.
Qed.

Lemma nearest_spec f funcs p :
  isnan (f p) = false →
  ∃ i d, nearest (f :: funcs) p = Z.of_nat i ∧ best_so_far ((fun f => f p) <$> f :: funcs) i d.
Proof.
  intros Hn. destruct (best_loop_spec funcs p [f p] 0 (f p)) as (i & d & _ & Hb).
  { split; [done|]. split; [done|]. intros [|j] dj [= <-] _. split; [apply flt_irrefl|lia]. }
  exists i, d. split; [|done]. unfold nearest. cbn [fmap list_fmap]. rewrite Hn.
  apply best_so_far_find in Hb. cbn [app fmap list_fmap] in Hb. by rewrite Hb.
Qed.

(** the loop of the code finds the centroid of the reference *)
Lemma best_loop_nearest funcs p : best_loop funcs p 0 0 DBL_MAX true = nearest funcs p.
Proof.
  destruct funcs as [|f funcs]; [done|]. cbn [best_loop orb]. destruct (isnan (f p)) eqn:Hn.
  { rewrite best_loop_nan by done. unfold nearest. cbn [fmap list_fmap]. by rewrite Hn. }
  destruct (best_loop_spec funcs p [f p] 0 (f p)) as (i & d & He & Hb).
  { split; [done|]. split; [done|]. intros [|j] dj [= <-] _. split; [apply flt_irrefl|lia]. }
  etrans; [exact He|]. unfold nearest. cbn [fmap list_fmap]. rewrite Hn. apply best_so_far_find in Hb. cbn [app fmap list_fmap] in Hb. by rewrite Hb.
Qed.

Lemma best_loop_range funcs p ci best_ci d first :
  0 ≤ best_ci ≤ ci → 0 ≤ best_loop funcs p ci best_ci d first ∧ (best_ci < ci ∨ first = true ∧ funcs ≠ [] → best_loop funcs p ci best_ci d first < ci + Z.of_nat (length funcs)).
Proof.
  revert ci best_ci d first. induction funcs as [|f funcs IH]; intros ci best_ci d first Hr.
  { cbn. split; [lia|]. intros [|[_ ?]]; [lia|done]. }
  cbn [best_loop length]. destruct (first || _) eqn:Hc.
  - destruct (IH (ci + 1) ci (f p) false) as [H1 H2]; [lia|]. split; [done|]. intros _. specialize (H2 ltac:(left; lia)). lia.
  - destruct (IH (ci + 1) best_ci d first) as [H1 H2]; [lia|]. split; [done|]. intros H. specialize (H2 ltac:(left; lia)). lia.
Qed.

Lemma nearest_range funcs p : funcs ≠ [] → 0 ≤ nearest funcs p < Z.of_nat (length funcs).
Proof.
  intros Hne. rewrite <- best_loop_nearest. destruct (best_loop_range funcs p 0 0 DBL_MAX true) as [H1 H2]; [lia|].
  split; [done|]. apply H2. by right.
Qed.

Lemma nearest_nonneg funcs p : 0 ≤ nearest funcs p.
Proof. rewrite <- best_loop_nearest. apply best_loop_range. lia. Qed.

(** ** Sums per cluster *)

Lemma lookup_repeat {A} (x : A) n i : (i < n)%nat → repeat x n !! i = Some x.
Proof. revert i. induction n as [|n IH]; intros [|i] Hi; [lia..|done|]. apply IH. lia. Qed.

Definition coord (d : nat) (p : list float8) : float8 := default fzero (p !! d).

(** the points of a list of assigned points that belong to a cluster *)
Definition members (ci : nat) (l : list (list float8 * Z)) : list (list float8) := fst <$> filter (fun pa => pa.2 = Z.of_nat ci) l.

Lemma flat_index_inj np a b a' b' : (a * np + b = a' * np + b')%nat → (b < np)%nat → (b' < np)%nat → a = a' ∧ b = b'.
Proof.
  intros Heq Hb Hb'. assert (a = a') as ->; [|lia]. destruct (Nat.lt_trichotomy a a') as [Hlt|[|Hlt]]; [|done|].
  - assert (S a * np ≤ a' * np)%nat by (apply Nat.mul_le_mono_r; lia). lia.
  - assert (S a' * np ≤ a * np)%nat by (apply Nat.mul_le_mono_r; lia). lia.
Qed.

Section Sums.
Context (np nc : nat).

Definition add_coord (ci : nat) (p : list float8) (acc : list float8) (d : nat) : list float8 :=
  alter (fun x => fadd x (coord d p)) (ci * np + d)%nat acc.

Definition add_point (acc : list float8) (pa : list float8 * Z) : list float8 :=
  foldl (add_coord (Z.to_nat pa.2) pa.1) acc (seq 0 np).

Definition sums (l : list (list float8 * Z)) : list float8 := foldl add_point (repeat fzero (nc * np)) l.

Definition counts (l : list (list float8 * Z)) : list Z := foldl (fun c pa => alter (Z.add 1) (Z.to_nat pa.2) c) (repeat 0 nc) l.

Lemma length_add_coords ci p acc k : length (foldl (add_coord ci p) acc (seq 0 k)) = length acc.
Proof. induction k as [|k IH]; [done|]. rewrite seq_S, foldl_app. cbn [foldl]. unfold add_coord at 1. by rewrite length_alter, IH. Qed.

Lemma length_sums l : length (sums l) = (nc * np)%nat.
Proof.
  unfold sums. induction l as [|pa l IH] using rev_ind; [apply repeat_length|]. rewrite foldl_app. cbn [foldl].
  unfold add_point at 1. by rewrite length_add_coords.
Qed.

Lemma length_counts l : length (counts l) = nc.
Proof. unfold counts. induction l as [|pa l IH] using rev_ind; [apply repeat_length|]. rewrite foldl_app. cbn [foldl]. by rewrite length_alter. Qed.

(** the coordinates of one point are added to the sums of its cluster *)
Lemma add_coords_lookup ci p acc k ci' d' :
  (k ≤ np)%nat → (d' < np)%nat →
  foldl (add_coord ci p) acc (seq 0 k) !! (ci' * np + d')%nat
  = (fun x => if decide (ci' = ci ∧ (d' < k)%nat) then fadd x (coord d' p) else x) <$> acc !! (ci' * np + d')%nat.
Proof.
  intros Hk Hd. induction k as [|k IH].
  { cbn [seq foldl]. destruct (acc !! _); cbn; [|done]. by rewrite decide_False by lia. }
  rewrite seq_S, foldl_app. cbn [foldl]. unfold add_coord at 1. rewrite Nat.add_0_l.
  destruct (decide (ci' = ci ∧ d' = k)) as [[-> ->]|Hne].
  - rewrite list_lookup_alter_eq, IH by lia. destruct (acc !! _); cbn; [|done]. by rewrite decide_False, decide_True by lia.
  - rewrite list_lookup_alter_ne by (intros Heq%flat_index_inj; lia). rewrite IH by lia. destruct (acc !! _); cbn; [|done]. f_equal.
    destruct (decide (ci' = ci ∧ (d' < k)%nat)), (decide (ci' = ci ∧ (d' < S k)%nat)); (done || lia).
Qed.

Definition in_range (l : list (list float8 * Z)) : Prop := Forall (fun pa => 0 ≤ pa.2 < Z.of_nat nc) l.

Lemma members_snoc ci l pa : members ci (l ++ [pa]) = members ci l ++ (if decide (pa.2 = Z.of_nat ci) then [pa.1] else []).
Proof.
  unfold members. rewrite filter_app, fmap_app. f_equal. rewrite filter_cons. by destruct (decide _).
Qed.

Lemma sums_lookup l ci d :
  in_range l → (ci < nc)%nat → (d < np)%nat → sums l !! (ci * np + d)%nat = Some (foldl fadd fzero (coord d <$> members ci l)).
Proof.
  intros Hl Hci Hd. induction l as [|pa l IH] using rev_ind.
  { unfold sums. cbn [foldl]. apply lookup_repeat. nia. }
  apply Forall_app in Hl as [Hl [Hpa _]%Forall_cons]. cbn beta in Hpa. unfold sums in *. rewrite foldl_app. cbn [foldl]. unfold add_point at 1.
  rewrite add_coords_lookup by lia. rewrite (IH Hl), members_snoc, fmap_app, foldl_app. cbn [fmap option_fmap option_map]. f_equal.
  destruct (decide (pa.2 = Z.of_nat ci)), (decide (ci = Z.to_nat pa.2 ∧ (d < np)%nat)); (done || lia).
Qed.

Lemma counts_lookup l ci : in_range l → (ci < nc)%nat → counts l !! ci = Some (Z.of_nat (length (members ci l))).
Proof.
  intros Hl Hci. induction l as [|pa l IH] using rev_ind.
  { unfold counts. cbn [foldl]. apply lookup_repeat. nia. }
  apply Forall_app in Hl as [Hl [Hpa _]%Forall_cons]. cbn beta in Hpa. unfold counts in *. rewrite foldl_app. cbn [foldl].
  rewrite members_snoc, length_app. destruct (decide (ci = Z.to_nat pa.2)) as [->|Hne].
  - rewrite list_lookup_alter_eq, (IH Hl), decide_True by lia. cbn [fmap option_fmap option_map length]. f_equal. lia.
  - rewrite list_lookup_alter_ne, (IH Hl), decide_False by lia. cbn [length]. f_equal. lia.
Qed.
End Sums.

(** * The threads of k-means

    The invariant of the threads of one iteration: what a thread has added up
    and which assignments it has written are determined by its control state,
    whatever the other threads do, since their ranges are disjoint.  So every
    run of the threads ends with the assignments and sums of a sequential loop. *)

(** ** Memory *)

Lemma load_nat {A} (l : list A) i x : l !! i = Some x → load l (Z.of_nat i) = Ok x.
Proof. intros H. unfold load. rewrite (proj2 (Z.leb_le _ _)), Nat2Z.id by lia. by rewrite H. Qed.

Lemma store_nat {A} (l : list A) i x : (i < length l)%nat → store l (Z.of_nat i) x = Ok (<[i := x]> l).
Proof. intros H. unfold store. rewrite (proj2 (Z.leb_le _ _)), (proj2 (Z.ltb_lt _ _)), Nat2Z.id by lia. done. Qed.

Lemma alter_insert_eq {A} (f : A → A) (l : list A) i x : l !! i = Some x → <[i := f x]> l = alter f i l.
Proof.
  intros Hx. pose proof (lookup_lt_Some _ _ _ Hx). apply list_eq. intros j. destruct (decide (i = j)) as [<-|Hne].
  - by rewrite list_lookup_insert_eq, list_lookup_alter_eq, Hx by done.
  - by rewrite list_lookup_insert_ne, list_lookup_alter_ne by done.
Qed.

Lemma int_add_small a b : 0 ≤ a + b < 2 ^ 31 → int_add a b = Ok (a + b).
Proof. intros H. unfold int_add. by rewrite (proj2 (Z.leb_le _ _)), (proj2 (Z.ltb_lt _ _)) by lia. Qed.

(** the compiled function reads the coordinates of its point only *)
Definition fun_local (np : nat) (f : list float8 → float8) : Prop := ∀ d, f d = f (take np d).

Lemma best_loop_local np funcs p ci best d first :
  Forall (fun_local np) funcs → best_loop funcs p ci best d first = best_loop funcs (take np p) ci best d first.
Proof.
  intros Hl. revert ci best d first. induction Hl as [|f funcs Hf _ IH]; intros ci best d first; [done|]. cbn [best_loop]. rewrite (Hf p).
  destruct (first || _); apply IH.
Qed.

Section Iteration.
Context (np nc : nat) (P : list (list float8)) (funcs : list (list float8 → float8)) (old : list Z).
Context (Hrows : Forall (fun p => length p = np) P) (Hfuncs : length funcs = nc) (Hnc : (0 < nc)%nat) (Hlocal : Forall (fun_local np) funcs).
Context (Hn : small (Z.of_nat (length P))) (Hsz : small (Z.of_nat (length P * np))) (Hc : small (Z.of_nat (nc * np))).
Context (Hold : length old = length P).

Definition assigned : list Z := nearest funcs <$> P.

(** the assigned points from [s] to before [i] *)
Definition seg (s i : nat) : list (list float8 * Z) := take (i - s) (drop s (zip P assigned)).

Definition progress (e : nat) (pc : wpc) : nat :=
  match pc with
  | AtPoint pi | Assign pi _ => Z.to_nat pi
  | Accumulate pi _ _ => S (Z.to_nat pi)
  | Exited => e
  end.

Record item_static (s e : nat) (a : KMeansV2WorkItem) : Prop := {
  is_start : k_start a = Z.of_nat s;
  is_end : k_end a = Z.of_nat e;
  is_num : k_num_points a = Z.of_nat (length P);
  is_natts : k_natts_point a = Z.of_nat np;
  is_points : k_points a = concat P;
  is_funcs : k_dist_funcs a = funcs
}.

(** the sums of a thread at a control state *)
Definition pc_inv (s e : nat) (a : KMeansV2WorkItem) : Prop :=
  match k_pc a with
  | AtPoint pi =>
      ∃ i, pi = Z.of_nat i ∧ (s ≤ i ≤ e)%nat ∧ k_coordsAgg a = sums np nc (seg s i) ∧ k_assignCount a = counts nc (seg s i)
  | Assign pi b =>
      ∃ i, pi = Z.of_nat i ∧ (s ≤ i < e)%nat ∧ assigned !! i = Some b ∧ old !! i ≠ Some b
           ∧ k_coordsAgg a = sums np nc (seg s i) ∧ k_assignCount a = counts nc (seg s i)
  | Accumulate pi b d =>
      ∃ i p dd, pi = Z.of_nat i ∧ d = Z.of_nat dd ∧ (dd ≤ np)%nat ∧ (s ≤ i < e)%nat ∧ P !! i = Some p ∧ assigned !! i = Some b
           ∧ k_coordsAgg a = foldl (add_coord np (Z.to_nat b) p) (sums np nc (seg s i)) (seq 0 dd) ∧ k_assignCount a = counts nc (seg s i)
  | Exited => k_coordsAgg a = sums np nc (seg s e) ∧ k_assignCount a = counts nc (seg s e)
  end.

Record thread_inv (s e : nat) (mem : list Z) (a : KMeansV2WorkItem) : Prop := {
  ti_static : item_static s e a;
  ti_mem : ∀ j, (s ≤ j < e)%nat → mem !! j = if decide (j < progress e (k_pc a))%nat then assigned !! j else old !! j;
  ti_changes : k_changesMade a = true ↔ ∃ j, (s ≤ j < progress e (k_pc a))%nat ∧ assigned !! j ≠ old !! j;
  ti_pc : pc_inv s e a
}.

Definition thread_measure (e : nat) (a : KMeansV2WorkItem) : nat :=
  match k_pc a with
  | AtPoint pi => (e - Z.to_nat pi) * (np + 4) + 1
  | Assign pi _ => (e - Z.to_nat pi - 1) * (np + 4) + np + 3
  | Accumulate pi _ d => (e - Z.to_nat pi - 1) * (np + 4) + (np - Z.to_nat d) + 2
  | Exited => 0
  end.

Lemma assigned_lookup i p : P !! i = Some p → assigned !! i = Some (nearest funcs p).
Proof. intros H. unfold assigned. by rewrite list_lookup_fmap, H. Qed.

Lemma zip_lookup i p : P !! i = Some p → zip P assigned !! i = Some (p, nearest funcs p).
Proof. intros H. rewrite lookup_zip_with, H, (assigned_lookup i p H). done. Qed.

Lemma seg_snoc s i p : P !! i = Some p → (s ≤ i)%nat → seg s (S i) = seg s i ++ [(p, nearest funcs p)].
Proof.
  intros Hp Hs. unfold seg. replace (S i - s)%nat with (S (i - s)) by lia. apply take_S_r. rewrite lookup_drop.
  replace (s + (i - s))%nat with i by lia. by apply zip_lookup.
Qed.

Lemma funcs_nonempty : funcs ≠ [].
Proof. clear Hlocal Hn Hsz Hc Hold. intros ->. simpl in Hfuncs. lia. Qed.

Lemma seg_range s i : in_range nc (seg s i).
Proof.
  unfold seg. apply Forall_take, Forall_drop, Forall_forall. intros [p b] Hin. apply list_elem_of_lookup in Hin as [j Hj].
  apply lookup_zip_with_Some in Hj as (p' & b' & [= -> ->] & Hp & Hb). rewrite (assigned_lookup j p' Hp) in Hb. injection Hb as <-. cbn.
  rewrite <- Hfuncs. apply nearest_range, funcs_nonempty.
Qed.

(** the point a thread looks at *)
Lemma point_at_row s e a i p :
  item_static s e a → P !! i = Some p →
  take np (point_at a (Z.of_nat i)) = p ∧ (∀ d, (d < np)%nat → load (point_at a (Z.of_nat i)) (Z.of_nat d) = Ok (coord d p)).
Proof.
  intros [] Hp. pose proof (lookup_lt_Some _ _ _ Hp) as Hlt. unfold point_at. rewrite is_natts0, is_points0.
  assert (uint64 (Z.of_nat i * Z.of_nat np) = Z.of_nat (i * np)) as ->.
  { unfold small in *. rewrite uint64_id; [lia|]. assert (i * np ≤ length P * np)%nat by (apply Nat.mul_le_mono_r; lia). lia. }
  rewrite Nat2Z.id. pose proof (row_at P np i p Hrows Hp) as Hrow. split; [done|]. intros d Hd.
  assert (length p = np) as Hlen by (by eapply Forall_lookup_1 in Hrows).
  destruct (lookup_lt_is_Some_2 p d) as [x Hx]; [lia|]. unfold coord. rewrite Hx. apply load_nat. rewrite <- Hrow in Hx.
  by rewrite lookup_take_lt in Hx by lia.
Qed.

(** ** One step of a thread *)

Definition step_ok (s e : nat) (mem : list Z) (a : KMeansV2WorkItem) (r : outcome (KMeansV2WorkItem * list Z)) : Prop :=
  ∃ a' mem', r = Ok (a', mem') ∧ thread_inv s e mem' a' ∧ (∀ j, ¬ (s ≤ j < e)%nat → mem' !! j = mem !! j) ∧ length mem' = length mem
    ∧ (thread_measure e a' < thread_measure e a)%nat.

Lemma static_pc s e a pc : item_static s e a → item_static s e (with_pc a pc).
Proof. by intros []. Qed.

Section Step.
Context (s e : nat) (mem : list Z) (a : KMeansV2WorkItem).
Context (Hse : (s ≤ e ≤ length P)%nat) (Hmem : length mem = length P) (Hinv : thread_inv s e mem a).

Lemma step_at pi r : k_pc a = AtPoint pi → kmeans_v2_worker a mem = Some r → step_ok s e mem a r.
Proof.
  destruct Hinv as [Hst Hm Hch Hpc]. intros Hk. unfold pc_inv in Hpc. unfold kmeans_v2_worker. rewrite Hk in *.
  destruct Hpc as (i & -> & Hi & Hco & Hcn). cbn [progress] in *. rewrite Nat2Z.id in *. intros [= <-].
  rewrite (is_end _ _ _ Hst), (is_num _ _ _ Hst).
  destruct (Z.ltb_spec (Z.of_nat i) (Z.of_nat e)) as [Hlt|Hge].
  - rewrite (proj2 (Z.ltb_lt _ _)) by lia. cbn [andb].
    destruct (lookup_lt_is_Some_2 P i) as [p Hp]; [lia|]. pose proof (assigned_lookup i p Hp) as Hai.
    rewrite (is_funcs _ _ _ Hst), (best_loop_local np) by done.
    destruct (point_at_row s e a i p Hst Hp) as [-> _]. rewrite best_loop_nearest.
    destruct (lookup_lt_is_Some_2 mem i) as [o Ho]; [lia|]. rewrite (load_nat mem i o Ho). cbn [mbind outcome_bind].
    assert (old !! i = Some o) as Hoi by (rewrite <- Ho, (Hm i), decide_False by lia; done).
    destruct (Z.eqb_spec o (nearest funcs p)) as [->|Hne]; (eexists; eexists; split; [reflexivity|]); (split; [split|]).
    + by apply static_pc.
    + intros j Hj. rewrite Hm by done. cbn [with_pc k_pc progress]. rewrite Nat2Z.id.
      destruct (decide (j = i)) as [->|]; [by rewrite decide_False, decide_True, Hai by lia|].
      destruct (decide (j < i)%nat); [by rewrite decide_True by lia|by rewrite decide_False by lia].
    + cbn [with_pc k_pc k_changesMade progress]. rewrite Hch, Nat2Z.id. split; intros (j & Hj & Hd); [exists j; split; [lia|done]|].
      exists j. split; [|done]. destruct (decide (j = i)) as [->|]; [congruence|lia].
    + cbn [pc_inv with_pc k_pc]. exists i, p, 0%nat. cbn. split_and!; (done || lia).
    + split; [done|]. split; [done|]. unfold thread_measure. rewrite Hk. cbn [with_pc k_pc]. rewrite Nat2Z.id.
      replace (e - i)%nat with (S (e - i - 1)) by lia. lia.
    + by apply static_pc.
    + intros j Hj. rewrite Hm by done. cbn [with_pc k_pc progress]. by rewrite Nat2Z.id.
    + cbn [with_pc k_pc k_changesMade progress]. by rewrite Hch, Nat2Z.id.
    + cbn [pc_inv with_pc k_pc]. exists i. cbn. rewrite Hoi. split_and!; try (done || lia). congruence.
    + split; [done|]. split; [done|]. unfold thread_measure. rewrite Hk. cbn [with_pc k_pc]. rewrite Nat2Z.id.
      replace (e - i)%nat with (S (e - i - 1)) by lia. lia.
  - assert (i = e) as -> by lia. cbn [andb]. eexists. eexists. split; [reflexivity|]. split; [split|].
    + by apply static_pc.
    + done.
    + done.
    + done.
    + split; [done|]. split; [done|]. unfold thread_measure. rewrite Hk. cbn. lia.
Qed.

Lemma step_assign pi b r : k_pc a = Assign pi b → kmeans_v2_worker a mem = Some r → step_ok s e mem a r.
Proof.
  destruct Hinv as [Hst Hm Hch Hpc]. intros Hk. unfold pc_inv in Hpc. unfold kmeans_v2_worker. rewrite Hk in *.
  destruct Hpc as (i & -> & Hi & Hai & Hoi & Hco & Hcn). cbn [progress] in *. rewrite Nat2Z.id in *. intros [= <-].
  destruct (lookup_lt_is_Some_2 P i) as [p Hp]; [lia|].
  rewrite store_nat by lia. cbn [mbind outcome_bind]. eexists. eexists. split; [reflexivity|]. split; [split|].
  - by destruct Hst.
  - intros j Hj. cbn [with_pc k_pc progress]. rewrite Nat2Z.id. destruct (decide (j = i)) as [->|Hne].
    + by rewrite list_lookup_insert_eq, decide_True by lia.
    + rewrite list_lookup_insert_ne, Hm by done.
      destruct (decide (j < i)%nat); [by rewrite decide_True by lia|by rewrite decide_False by lia].
  - cbn. rewrite Nat2Z.id. split; [|done]. intros _. exists i. split; [lia|]. rewrite Hai. congruence.
  - cbn [pc_inv with_pc k_pc]. exists i, p, 0%nat. cbn. split_and!; (done || lia).
  - split; [intros j Hj; apply list_lookup_insert_ne; lia|]. split; [apply length_insert|].
    unfold thread_measure. rewrite Hk. cbn. rewrite Nat2Z.id. lia.
Qed.

Lemma members_le ci l : (length (members ci l) ≤ length l)%nat.
Proof. unfold members. rewrite length_fmap. apply length_filter. Qed.

Lemma step_accumulate pi b d r : k_pc a = Accumulate pi b d → kmeans_v2_worker a mem = Some r → step_ok s e mem a r.
Proof.
  destruct Hinv as [Hst Hm Hch Hpc]. intros Hk. unfold pc_inv in Hpc. unfold kmeans_v2_worker. rewrite Hk in *.
  destruct Hpc as (i & p & dd & -> & -> & Hdd & Hi & Hp & Hai & Hco & Hcn). cbn [progress] in *. rewrite Nat2Z.id in *. intros [= <-].
  assert (b = nearest funcs p) as Hb by (rewrite (assigned_lookup i p Hp) in Hai; congruence).
  assert (0 ≤ b < Z.of_nat nc) as Hbr by (rewrite Hb, <- Hfuncs; apply nearest_range, funcs_nonempty).
  rewrite (is_natts _ _ _ Hst). unfold small in *.
  destruct (Z.ltb_spec (Z.of_nat dd) (Z.of_nat np)) as [Hlt|Hge].
  - destruct (point_at_row s e a i p Hst Hp) as [_ Hload]. rewrite Hload by lia. cbn [mbind outcome_bind].
    assert (Z.to_nat b * np + dd < nc * np)%nat as Hidx.
    { assert (S (Z.to_nat b) * np ≤ nc * np)%nat by (apply Nat.mul_le_mono_r; lia). lia. }
    rewrite int_mul_small by nia. cbn [mbind outcome_bind]. rewrite int_add_small by nia. cbn [mbind outcome_bind].
    replace (b * Z.of_nat np + Z.of_nat dd) with (Z.of_nat (Z.to_nat b * np + dd)) by lia.
    destruct (lookup_lt_is_Some_2 (k_coordsAgg a) (Z.to_nat b * np + dd)) as [x Hx]; [by rewrite Hco, length_add_coords, length_sums|].
    rewrite (load_nat _ _ x Hx). cbn [mbind outcome_bind]. rewrite store_nat by by eapply lookup_lt_Some. cbn [mbind outcome_bind].
    eexists. eexists. split; [reflexivity|]. split; [split|].
    + by destruct Hst.
    + intros j Hj. rewrite Hm by done. cbn. by rewrite Nat2Z.id.
    + cbn. by rewrite Hch, Nat2Z.id.
    + cbn [pc_inv with_pc k_pc]. exists i, p, (S dd). cbn [with_pc with_sums k_coordsAgg k_assignCount]. split_and!; try (done || lia).
      rewrite seq_S, foldl_app. cbn [foldl]. rewrite <- Hco. unfold add_coord. rewrite Nat.add_0_l.
      by apply (alter_insert_eq (fun x => fadd x (coord dd p))).
    + split; [done|]. split; [done|]. unfold thread_measure. rewrite Hk. cbn. lia.
  - assert (dd = np) as -> by lia. pose proof (counts_lookup nc (seg s i) (Z.to_nat b) (seg_range s i)) as Hct.
    rewrite <- Hcn in Hct. specialize (Hct ltac:(lia)).
    assert (length (members (Z.to_nat b) (seg s i)) ≤ i)%nat as Hle.
    { etransitivity; [apply members_le|]. unfold seg. rewrite length_take. lia. }
    replace b with (Z.of_nat (Z.to_nat b)) by lia. rewrite (load_nat _ _ _ Hct). cbn [mbind outcome_bind].
    rewrite int_add_small by lia. cbn [mbind outcome_bind]. rewrite store_nat by by eapply lookup_lt_Some. cbn [mbind outcome_bind].
    rewrite uint64_id by lia. eexists. eexists. split; [reflexivity|]. split; [split|].
    + by destruct Hst.
    + intros j Hj. rewrite Hm by done. cbn [with_pc k_pc progress]. by replace (Z.to_nat (Z.of_nat i + 1)) with (S i) by lia.
    + cbn [with_pc with_sums k_pc k_changesMade progress]. rewrite Hch. by replace (Z.to_nat (Z.of_nat i + 1)) with (S i) by lia.
    + cbn [pc_inv with_pc k_pc]. exists (S i). cbn [with_pc with_sums k_coordsAgg k_assignCount]. rewrite (seg_snoc s i p Hp) by lia. unfold sums, counts. rewrite !foldl_app. cbn [foldl fst snd].
      split_and!; try lia.
      * rewrite Hco, Hb. done.
      * rewrite <- Hb. fold (counts nc (seg s i)). rewrite <- Hcn, <- (alter_insert_eq _ _ _ _ Hct). f_equal. lia.
    + split; [done|]. split; [done|]. unfold thread_measure. rewrite Hk. cbn. rewrite Nat2Z.id.
      replace (Z.to_nat (Z.of_nat i + 1)) with (S i) by lia. lia.
Qed.

(** every step of a thread succeeds and keeps the invariant *)
Lemma thread_step r : kmeans_v2_worker a mem = Some r → step_ok s e mem a r.
Proof.
  intros Hr. destruct (k_pc a) eqn:Hk.
  - by eapply step_at.
  - by eapply step_assign.
  - by eapply step_accumulate.
  - unfold kmeans_v2_worker in Hr. by rewrite Hk in Hr.
Qed.
End Step.

(** ** All threads *)

Section Config.
Context (nt : nat) (bnd : nat → nat).
Context (Hmono : ∀ t, (bnd t ≤ bnd (S t))%nat) (H0 : bnd 0 = 0%nat) (Hend : bnd nt = length P).

Record config_inv (c : kconfig) : Prop := {
  ci_threads : length (kc_threads c) = nt;
  ci_mem : length (kc_assignments c) = length P;
  ci_inv : ∀ t a, kc_threads c !! t = Some a → thread_inv (bnd t) (bnd (S t)) (kc_assignments c) a
}.

Definition config_measure (c : kconfig) : nat := sum_list (imap (fun t a => thread_measure (bnd (S t)) a) (kc_threads c)).

Lemma bnd_le t t' : (t ≤ t')%nat → (bnd t ≤ bnd t')%nat.
Proof. induction 1 as [|t' _ IH]; [done|]. specialize (Hmono t'). lia. Qed.

Lemma bnd_range t : (t < nt)%nat → (bnd t ≤ bnd (S t) ≤ length P)%nat.
Proof. intros Ht. split; [done|]. rewrite <- Hend. apply bnd_le. lia. Qed.

Lemma sum_imap_insert {A} (f : nat → A → nat) l i x y :
  l !! i = Some x → (f i y < f i x)%nat → (sum_list (imap f (<[i := y]> l)) < sum_list (imap f l))%nat.
Proof.
  revert f i. induction l as [|z l IH]; intros f [|i] Hx Hlt; try done.
  - injection Hx as ->. cbn. lia.
  - exact (proj1 (Nat.add_lt_mono_l _ _ (f 0%nat z)) (IH (f ∘ S) i Hx Hlt)).
Qed.

Lemma config_step c r :
  config_inv c → kmeans_step c r → ∃ c', r = Ok c' ∧ config_inv c' ∧ (config_measure c' < config_measure c)%nat.
Proof.
  intros [Hlen Hmem Hi] [i a r' Ha Hr]. pose proof (lookup_lt_Some _ _ _ Ha) as Hlt.
  destruct (thread_step (bnd i) (bnd (S i)) (kc_assignments c) a) with (r := r') as (a' & mem' & -> & Hinv & Hout & Hl & Hdec);
    [apply bnd_range; lia|done|by apply Hi|done|].
  cbn [mbind outcome_bind]. eexists. split; [reflexivity|]. split; [|by apply sum_imap_insert with (x := a)].
  split; cbn [kc_threads kc_assignments fst snd]; [by rewrite length_insert|lia|].
  intros t b Hb. destruct (decide (t = i)) as [->|Hne].
  { rewrite list_lookup_insert_eq in Hb by lia. by injection Hb as <-. }
  rewrite list_lookup_insert_ne in Hb by done. destruct (Hi t b Hb) as [Hst Hm Hch Hpc]. split; [done| |done|done].
  intros j Hj. rewrite Hout; [by apply Hm|]. intros Hji.
  destruct (decide (t < i)%nat) as [Hti|Hti]; [pose proof (bnd_le (S t) i ltac:(lia)); lia|pose proof (bnd_le (S i) t ltac:(lia)); lia].
Qed.

Lemma config_reach c c' : config_inv c → kmeans_reach c c' → config_inv c'.
Proof.
  intros Hi Hr. revert Hi. induction Hr as [|x y z Hs _ IH]; intros Hi; [done|].
  destruct (config_step x _ Hi Hs) as (y' & [= <-] & Hy & _). by apply IH.
Qed.

(** no thread waits for another *)
Lemma config_progress c : all_exited c ∨ ∃ i a r, kc_threads c !! i = Some a ∧ kmeans_v2_worker a (kc_assignments c) = Some r.
Proof.
  destruct (decide (Forall (fun a => k_pc a = Exited) (kc_threads c))) as [|Hnf]; [by left|right].
  apply not_Forall_Exists in Hnf; [|apply _]. apply Exists_exists in Hnf as (a & Hin & Hne). apply list_elem_of_lookup in Hin as [i Hi].
  unfold compose in Hne. exists i, a. unfold kmeans_v2_worker. destruct (k_pc a); [by eexists..|done].
Qed.

Lemma config_finishes c : config_inv c → ∃ c', kmeans_reach c c' ∧ all_exited c'.
Proof.
  remember (config_measure c) as m eqn:Hm. revert c Hm. induction m as [m IH] using lt_wf_ind. intros c -> Hi.
  destruct (config_progress c) as [|(i & a & r & Ha & Hr)]; [by exists c; split; [apply rtc_refl|]|].
  pose proof (kmeans_step_thread c i a r Ha Hr) as Hs. destruct (config_step c _ Hi Hs) as (c1 & Heq & Hi1 & Hlt).
  destruct (IH _ Hlt c1 eq_refl Hi1) as (c' & Hc' & Hd). exists c'. split; [|done]. eapply rtc_l; [|done]. by rewrite <- Heq.
Qed.

(** when the threads have exited *)
Lemma config_final c :
  config_inv c → all_exited c →
  kc_assignments c = assigned
  ∧ (∀ t a, kc_threads c !! t = Some a → k_coordsAgg a = sums np nc (seg (bnd t) (bnd (S t))) ∧ k_assignCount a = counts nc (seg (bnd t) (bnd (S t))))
  ∧ any_change (kc_threads c) = negb (bool_decide (assigned = old)).
Proof.
  intros [Hlen Hmem Hi] Hex.
  assert (Hpc : ∀ t a, kc_threads c !! t = Some a → k_pc a = Exited) by (intros t a Ht; by eapply Forall_lookup_1 in Hex).
  assert (Hcov : ∀ j, (j < length P)%nat → ∃ t, (t < nt)%nat ∧ (bnd t ≤ j < bnd (S t))%nat).
  { intros j Hj. rewrite <- Hend in Hj. clear -Hj H0. induction nt as [|t IH]; [lia|].
    destruct (decide (j < bnd t)%nat) as [Hlt|Hge]; [|exists t; lia]. destruct (IH Hlt) as (t' & ? & ?). exists t'. lia. }
  assert (length assigned = length P) as Hla by apply length_fmap.
  split_and!.
  - apply list_eq. intros j. destruct (decide (j < length P)%nat) as [Hj|Hj]; [|by rewrite !lookup_ge_None_2 by lia].
    destruct (Hcov j Hj) as (t & Ht & Hb). destruct (lookup_lt_is_Some_2 (kc_threads c) t) as [a Ha]; [lia|].
    destruct (Hi t a Ha) as [_ Hm _ _]. rewrite Hm, (Hpc t a Ha) by done. cbn [progress]. by rewrite decide_True by lia.
  - intros t a Ha. destruct (Hi t a Ha) as [_ _ _ Hp]. unfold pc_inv in Hp. by rewrite (Hpc t a Ha) in Hp.
  - assert (any_change (kc_threads c) = true ↔ assigned ≠ old) as Hiff;
      [|case_bool_decide; cbn; [apply not_true_iff_false; naive_solver|by apply Hiff]].
    unfold any_change. rewrite existsb_exists. split.
    + intros (a & Hin & Hch) Heq. apply list_elem_of_In, list_elem_of_lookup in Hin as [t Ht].
      destruct (Hi t a Ht) as [_ _ Hc' _]. apply Hc' in Hch as (j & _ & Hne). by rewrite Heq in Hne.
    + intros Hne. destruct (decide (Exists (fun j => assigned !! j ≠ old !! j) (seq 0 (length P)))) as [Hex'|Hall].
      * apply Exists_exists in Hex' as (j & Hj%elem_of_seq & Hd). destruct (Hcov j) as (t & Ht & Hb); [lia|].
        destruct (lookup_lt_is_Some_2 (kc_threads c) t) as [a Ha]; [lia|]. exists a. split; [by apply list_elem_of_In, (list_elem_of_lookup_2 _ t)|].
        destruct (Hi t a Ha) as [_ _ Hc' _]. apply Hc'. rewrite (Hpc t a Ha). cbn [progress]. by exists j.
      * destruct Hne. apply list_eq. intros j. destruct (decide (j < length P)%nat) as [Hj|Hj]; [|by rewrite !lookup_ge_None_2 by lia].
        destruct (decide (assigned !! j = old !! j)) as [|Hd]; [done|]. destruct Hall. apply Exists_exists. exists j. rewrite elem_of_seq. split; [lia|done].
Qed.
End Config.
End Iteration.

(** * Lloyd's iteration

    The reference for k-means: the points are assigned to their nearest
    centroids, and a centroid that has points moves to their mean.  Sums of
    floats depend on the order, so the reference sums up chunk by chunk.  Merging
    the sums of the threads computes one step of it. *)

(** ** Reference *)

Section Reference.
Context (np nt : nat) (P : list (list float8)) (compile : kmeans_compile).

(** chunk [t] of the points are those from [chunk_bound t] on *)
Definition chunk_bound (t : nat) : nat := (length P * t / nt)%nat.

Definition chunks (A : list Z) : list (list (list float8 * Z)) :=
  (fun t => take (chunk_bound (S t) - chunk_bound t) (drop (chunk_bound t) (zip P A))) <$> seq 0 nt.

Definition cluster_size (chs : list (list (list float8 * Z))) (ci : nat) : Z := Z.of_nat (length (members ci (concat chs))).

Definition cluster_sum (chs : list (list (list float8 * Z))) (ci d : nat) : float8 :=
  foldl fadd fzero ((fun ch => foldl fadd fzero (coord d <$> members ci ch)) <$> chs).

Definition move_centroid (chs : list (list (list float8 * Z))) (ci : nat) (row : list float8) : list float8 :=
  if 0 <? cluster_size chs ci
  then ((fun d => fdiv (cluster_sum chs ci d) (float8_of_int (cluster_size chs ci))) <$> seq 0 np) ++ drop np row
  else row.

Definition move_centroids (A : list Z) (C : list (list float8)) : list (list float8) := imap (move_centroid (chunks A)) C.

(** at most [m] iterations; the assignments, the centroids, and whether the last
    iteration has changed no assignment *)
Fixpoint lloyd (m : nat) (A : list Z) (C : list (list float8)) : outcome (list Z * list (list float8) * bool) :=
  match m with
  | O => Ok (A, C, false)
  | S m =>
      funcs ← omapM compile C;
      let A' := nearest funcs <$> P in
      let C' := move_centroids A' C in
      if bool_decide (A' = A) then Ok (A', C', true) else lloyd m A' C'
  end.

(** ** Convergence *)

Lemma move_centroid_idem chs ci row : (np ≤ length row)%nat → move_centroid chs ci (move_centroid chs ci row) = move_centroid chs ci row.
Proof.
  intros Hr. unfold move_centroid. destruct (0 <? cluster_size chs ci); [|done].
  f_equal. apply drop_app_length'. by rewrite length_fmap, length_seq.
Qed.

Lemma move_centroid_length chs ci row : (np ≤ length row)%nat → length (move_centroid chs ci row) = length row.
Proof.
  intros Hr. unfold move_centroid. destruct (0 <? _); [|done]. rewrite length_app, length_fmap, length_seq, length_drop. lia.
Qed.

Lemma move_centroids_uniform A C nc : (np ≤ nc)%nat → Forall (fun r => length r = nc) C → Forall (fun r => length r = nc) (move_centroids A C).
Proof.
  intros Hle HC. apply Forall_lookup_2. intros i row Hi. apply list_lookup_imap_Some in Hi as (r & Hr & ->).
  eapply Forall_lookup_1 in HC; [|done]. cbn in HC. rewrite move_centroid_length; lia.
Qed.

Lemma move_centroids_idem A C nc :
  (np ≤ nc)%nat → Forall (fun r => length r = nc) C → move_centroids A (move_centroids A C) = move_centroids A C.
Proof.
  intros Hle HC. apply list_eq. intros i. unfold move_centroids. rewrite !list_lookup_imap.
  destruct (C !! i) as [row|] eqn:Hi; [|done]. cbn. f_equal. apply move_centroid_idem.
  eapply Forall_lookup_1 in HC; [|done]. cbn in HC. lia.
Qed.

(** an iteration that changes no assignment is at a fixed point *)
Lemma lloyd_fixpoint m A C nc A' C' :
  (np ≤ nc)%nat → Forall (fun r => length r = nc) C →
  (∃ Cp, Forall (fun r => length r = nc) Cp ∧ C = move_centroids A Cp) ∨ (∀ funcs, nearest funcs <$> P ≠ A) →
  lloyd m A C = Ok (A', C', true) →
  ∃ funcs, omapM compile C' = Ok funcs ∧ nearest funcs <$> P = A' ∧ move_centroids A' C' = C'.
Proof.
  intros Hle. revert A C. induction m as [|m IH]; intros A C HC HQ Hl; [done|]. cbn [lloyd] in Hl.
  apply bind_Ok_inv in Hl as (funcs & Hf & Hl). case_bool_decide as Heq.
  - injection Hl as <- <-. destruct HQ as [(Cp & HCp & ->)|HQ]; [|by destruct (HQ funcs)].
    exists funcs. rewrite Heq, (move_centroids_idem A Cp nc Hle HCp). split_and!; [done..|by apply (move_centroids_idem A Cp nc)].
  - apply IH in Hl; [done|by apply move_centroids_uniform|]. left. by exists C.
Qed.
End Reference.

(** ** Loops *)

Lemma ofoldl_inv {A B} (f : B → A → outcome B) (I : list A → B → Prop) l b :
  (∀ pre x post b, l = pre ++ x :: post → I pre b → ∃ b', f b x = Ok b' ∧ I (pre ++ [x]) b') →
  I [] b → ∃ b', ofoldl f b l = Ok b' ∧ I l b'.
Proof.
  intros Hs HI. cut (∀ post pre b, l = pre ++ post → I pre b → ∃ b', ofoldl f b post = Ok b' ∧ I l b').
  { intros Hc. by apply (Hc l []). }
  induction post as [|x post IH]; intros pre c Heq Hc.
  - exists c. rewrite app_nil_r in Heq. by subst.
  - destruct (Hs pre x post c Heq Hc) as (c' & Hf & Hc'). cbn [ofoldl]. rewrite Hf. cbn [mbind outcome_bind].
    apply (IH (pre ++ [x])); [by rewrite <- app_assoc|done].
Qed.

Lemma concat_insert {B} (ls : list (list B)) n i l d x :
  Forall (fun l => length l = n) ls → ls !! i = Some l → (d < n)%nat →
  <[(i * n + d)%nat := x]> (concat ls) = concat (<[i := <[d := x]> l]> ls).
Proof.
  intros HF. revert i. induction HF as [|l' ls Hl _ IH]; intros [|i] Hi Hd; [done..| |].
  - injection Hi as ->. cbn [concat]. rewrite insert_app_l by lia. done.
  - cbn [concat]. replace (S i * n + d)%nat with (length l' + (i * n + d))%nat by lia. rewrite insert_app_r. rewrite (IH i Hi Hd). done.
Qed.

Lemma insert_take_drop {B} (vals row : list B) m v :
  vals !! m = Some v → (m < length row)%nat → <[m := v]> (take m vals ++ drop m row) = take (S m) vals ++ drop (S m) row.
Proof.
  intros Hv Hm. pose proof (lookup_lt_Some _ _ _ Hv). rewrite (take_S_r _ _ _ Hv), <- app_assoc.
  destruct (lookup_lt_is_Some_2 row m Hm) as [y Hy]. rewrite (drop_S _ _ _ Hy).
  rewrite (insert_app_r_alt _ _ m) by (rewrite length_take; lia). rewrite length_take, Nat.min_l, Nat.sub_diag by lia. done.
Qed.

Lemma members_app ci l1 l2 : members ci (l1 ++ l2) = members ci l1 ++ members ci l2.
Proof. unfold members. by rewrite filter_app, fmap_app. Qed.

(** ** Merging *)

Section Merge.
Context (k : kmeans_args) (np ncols nc : nat) (threads : list KMeansV2WorkItem) (chs : list (list (list float8 * Z))).
Context (Hnp : ka_natts_point k = Z.of_nat np) (Hncols : ka_natts_centroid k = Z.of_nat ncols) (Hle : (np ≤ ncols)%nat).
Context (Hsz : small (Z.of_nat (nc * ncols))).
Context (Hth : Forall2 (fun a ch => k_coordsAgg a = sums np nc ch ∧ k_assignCount a = counts nc ch) threads chs).
Context (Hrange : Forall (in_range nc) chs) (Hlen : small (Z.of_nat (length (concat chs)))).

Lemma total_count_ok ci : (ci < nc)%nat → total_count threads (Z.of_nat ci) = Ok (cluster_size chs ci).
Proof.
  intros Hci. unfold total_count, cluster_size, small in *.
  cut (∀ b, 0 ≤ b → b + Z.of_nat (length (concat chs)) < 2 ^ 31 →
    ofoldl (fun total a => n ← load (k_assignCount a) (Z.of_nat ci); int_add total n) b threads = Ok (b + Z.of_nat (length (members ci (concat chs)))));
    [intros Hcut; apply (Hcut 0); lia|]. clear Hlen.
  revert Hrange. induction Hth as [|a ch l chs' [_ Ha] Hth' IH]; intros Hr b Hb Hs; [cbn; f_equal; lia|].
  apply Forall_cons in Hr as [Hr Hr']. cbn [ofoldl concat] in *. rewrite length_app in Hs. pose proof (members_le ci ch).
  rewrite (load_nat _ ci (Z.of_nat (length (members ci ch)))) by (rewrite Ha; by apply counts_lookup). cbn [mbind outcome_bind].
  rewrite int_add_small by lia. cbn [mbind outcome_bind]. rewrite (IH Hth' Hr') by lia. rewrite members_app, length_app. f_equal. lia.
Qed.

Lemma total_sum_ok ci d : (ci < nc)%nat → (d < np)%nat → total_sum k threads (Z.of_nat ci) (Z.of_nat d) = Ok (cluster_sum chs ci d).
Proof.
  intros Hci Hd. unfold total_sum, cluster_sum. generalize fzero at 1 2 as b. revert Hrange. clear Hlen.
  assert (ci * np + d < nc * np)%nat as Hi by (assert (S ci * np ≤ nc * np)%nat by (apply Nat.mul_le_mono_r; lia); lia).
  assert (nc * np ≤ nc * ncols)%nat as Hm by (apply Nat.mul_le_mono_l; lia). unfold small in *.
  rewrite Hnp, int_mul_small by lia. cbn [mbind outcome_bind]. rewrite int_add_small by lia. cbn [mbind outcome_bind].
  replace (Z.of_nat ci * Z.of_nat np + Z.of_nat d) with (Z.of_nat (ci * np + d)) by lia.
  induction Hth as [|a ch l chs' [Ha _] Hth' IH]; intros Hr b; [done|].
  apply Forall_cons in Hr as [Hr Hr']. cbn [ofoldl fmap list_fmap foldl].
  rewrite (load_nat _ _ (foldl fadd fzero (coord d <$> members ci ch))) by (rewrite Ha; by apply sums_lookup). cbn [mbind outcome_bind].
  apply (IH Hth' Hr').
Qed.

Definition moved (ci : nat) (row : list float8) : list float8 := move_centroid np chs ci row.

Lemma new_centroid_ok C ci row :
  length C = nc → Forall (fun r => length r = ncols) C → C !! ci = Some row →
  new_centroid k threads (concat C) (Z.of_nat ci) = Ok (concat (<[ci := moved ci row]> C)).
Proof.
  intros HlC HC Hrow. pose proof (lookup_lt_Some _ _ _ Hrow) as Hci. rewrite HlC in Hci.
  assert (length row = ncols) as Hlr by (by eapply Forall_lookup_1 in HC).
  unfold new_centroid. rewrite total_count_ok by done. cbn [mbind outcome_bind].
  set (sms := (fun d => cluster_sum chs ci d) <$> seq 0 np).
  assert (omapM (total_sum k threads (Z.of_nat ci)) (seqZ 0 (ka_natts_point k)) = Ok sms) as ->.
  { apply omapM_Forall2, Forall2_same_length_lookup. split; [unfold sms; by rewrite length_seqZ, length_fmap, length_seq, Hnp, Nat2Z.id|].
    intros i z v Hz Hv. apply lookup_seqZ in Hz as [-> Hi]. rewrite Z.add_0_l. rewrite Hnp in Hi. unfold sms in Hv.
    rewrite list_lookup_fmap, lookup_seq_lt in Hv by lia. injection Hv as <-. apply total_sum_ok; lia. }
  cbn [mbind outcome_bind]. unfold moved, move_centroid. destruct (0 <? cluster_size chs ci); [|by rewrite list_insert_id].
  set (vals := (fun d => fdiv (cluster_sum chs ci d) (float8_of_int (cluster_size chs ci))) <$> seq 0 np).
  assert (length vals = np) as Hlv by (unfold vals; by rewrite length_fmap, length_seq).
  destruct (ofoldl_inv (fun centroids d =>
      i ← int_mul (Z.of_nat ci) (ka_natts_centroid k); i ← int_add i d; sum ← load sms d;
      store centroids i (fdiv sum (float8_of_int (cluster_size chs ci))))
    (fun pre l => l = concat (<[ci := take (length pre) vals ++ drop (length pre) row]> C)) (seqZ 0 (ka_natts_point k)) (concat C)) as (l & Hl & ->).
  - intros pre x post b Heq ->. assert (length pre < np)%nat as Hpre.
    { assert (length (seqZ 0 (ka_natts_point k)) = np) as Hq by (rewrite length_seqZ, Hnp; lia). rewrite Heq, length_app in Hq. simpl in Hq. lia. }
    assert (x = Z.of_nat (length pre)) as ->.
    { assert (seqZ 0 (ka_natts_point k) !! length pre = Some x) as Hx by (rewrite Heq; by apply list_lookup_middle).
      apply lookup_seqZ in Hx as [-> _]. lia. }
    unfold small in *. assert (ci * ncols + length pre < nc * ncols)%nat as Hidx.
    { assert (S ci * ncols ≤ nc * ncols)%nat by (apply Nat.mul_le_mono_r; lia). lia. }
    rewrite Hncols, int_mul_small by lia. cbn [mbind outcome_bind]. rewrite int_add_small by lia. cbn [mbind outcome_bind].
    rewrite (load_nat sms (length pre) (cluster_sum chs ci (length pre))) by (unfold sms; rewrite list_lookup_fmap, lookup_seq_lt by lia; done).
    cbn [mbind outcome_bind]. replace (Z.of_nat ci * Z.of_nat ncols + Z.of_nat (length pre)) with (Z.of_nat (ci * ncols + length pre)) by lia.
    set (row' := take (length pre) vals ++ drop (length pre) row).
    assert (length row' = ncols) as Hlr' by (unfold row'; rewrite length_app, length_take, length_drop; lia).
    assert (Forall (fun r => length r = ncols) (<[ci := row']> C)) as HC' by by apply Forall_insert.
    rewrite store_nat by (rewrite (concat_length_uniform _ ncols HC'), length_insert; lia). eexists. split; [reflexivity|].
    rewrite (concat_insert _ ncols ci row') by first [done | by rewrite list_lookup_insert_eq by lia | lia].
    rewrite list_insert_insert_eq. f_equal. f_equal. rewrite length_app, Nat.add_1_r. apply insert_take_drop; [|lia].
    unfold vals. rewrite list_lookup_fmap, lookup_seq_lt by lia. done.
  - cbn [length take drop app]. by rewrite list_insert_id.
  - rewrite Hl. do 2 f_equal. f_equal. rewrite length_seqZ, Hnp, Nat2Z.id. by rewrite take_ge by lia.
Qed.

(** the centroids before [m] have moved *)
Definition moved_until (m : nat) (C : list (list float8)) : list (list float8) :=
  imap (fun ci row => if decide (ci < m)%nat then moved ci row else row) C.

Lemma moved_until_S m C row : C !! m = Some row → <[m := moved m row]> (moved_until m C) = moved_until (S m) C.
Proof.
  intros Hrow. pose proof (lookup_lt_Some _ _ _ Hrow). apply list_eq. intros i. unfold moved_until. destruct (decide (i = m)) as [->|Hne].
  - rewrite list_lookup_insert_eq by (rewrite length_imap; lia). rewrite list_lookup_imap, Hrow. cbn. by rewrite decide_True by lia.
  - rewrite list_lookup_insert_ne, !list_lookup_imap by done. destruct (C !! i); [|done]. cbn. f_equal.
    destruct (decide (i < m)%nat); [by rewrite decide_True by lia|by rewrite decide_False by lia].
Qed.

Lemma merge_ok st C :
  ks_centroids st = concat C → ks_num_centroids st = Z.of_nat nc → length C = nc → Forall (fun r => length r = ncols) C →
  merge k threads st = Ok (concat (imap moved C)).
Proof.
  intros Hst Hnum HlC HC. unfold merge. rewrite Hst, Hnum.
  destruct (ofoldl_inv (new_centroid k threads) (fun pre l => l = concat (moved_until (length pre) C)) (seqZ 0 (Z.of_nat nc)) (concat C))
    as (l & Hl & ->).
  - intros pre x post b Heq ->. assert (length pre < nc)%nat as Hpre.
    { assert (length (seqZ 0 (Z.of_nat nc)) = nc) as Hq by (rewrite length_seqZ; lia). rewrite Heq, length_app in Hq. simpl in Hq. lia. }
    assert (seqZ 0 (Z.of_nat nc) !! length pre = Some x) as Hx by (rewrite Heq; by apply list_lookup_middle).
    apply lookup_seqZ in Hx as [-> _]. rewrite Z.add_0_l. destruct (lookup_lt_is_Some_2 C (length pre)) as [row Hrow]; [lia|].
    eexists. split.
    + apply (new_centroid_ok _ _ row).
      * unfold moved_until. by rewrite length_imap.
      * apply Forall_lookup_2. intros i r Hi. apply list_lookup_imap_Some in Hi as (r' & Hr' & ->).
        eapply Forall_lookup_1 in HC; [|done]. cbn in HC. destruct (decide _); [|done]. unfold moved. rewrite move_centroid_length; lia.
      * unfold moved_until. rewrite list_lookup_imap, Hrow. cbn. by rewrite decide_False by lia.
    + rewrite (moved_until_S _ _ _ Hrow), length_app. cbn [length]. by rewrite Nat.add_1_r.
  - f_equal. unfold moved_until. apply list_eq. intros i. rewrite list_lookup_imap. destruct (C !! i); [|done]. cbn. by rewrite decide_False by lia.
  - rewrite Hl. do 2 f_equal. unfold moved_until. apply imap_ext. intros i r Hi%lookup_lt_Some.
    rewrite length_seqZ, Nat2Z.id. by rewrite decide_True by lia.
Qed.
End Merge.
