(* ===== verification/KmeansTheorems.v ===== *)
(** * Properties of k-means

    Whatever the interleaving of the threads, [kmeans_v2] returns the result of
    Lloyd's iteration; if it stops early, at a fixed point. *)

From Stdlib Require Import Floats.SpecFloat.
From S2P Require Import Prelude Float8 ApplyMt ApplyMtFacts Kmeans KmeansFacts.

(** ** Inputs *)

(** the inputs fit the arrays, there is a centroid, and centroids have at least
    the columns of a point *)
Record kmeans_fits (k : kmeans_args) : Prop := {
  kf_np : 0 ≤ ka_natts_point k ≤ ka_natts_centroid k;
  kf_points : Forall (fun r => length r = Z.to_nat (ka_natts_point k)) (ka_points k);
  kf_centroids : Forall (fun r => length r = Z.to_nat (ka_natts_centroid k)) (ka_centroids k);
  kf_some : 0 < Z.of_nat (length (ka_centroids k));
  kf_nthreads : ka_nthreads k * SIZEOF_KMEANS_ITEM ≤ MaxAllocSize;
  kf_points_size : Z.of_nat (length (ka_points k)) * ka_natts_point k * 8 ≤ MaxAllocSize;
  kf_npoints : Z.of_nat (length (ka_points k)) * 4 ≤ MaxAllocSize;
  kf_centroids_size : Z.of_nat (length (ka_centroids k)) * ka_natts_centroid k * 8 ≤ MaxAllocSize;
  kf_ncentroids : Z.of_nat (length (ka_centroids k)) * 8 ≤ MaxAllocSize
}.

(** the rows as the arrays have them *)
Definition float_rows (rows : list (list (option float8))) : list (list float8) := fmap (M:=list) (default fzero) <$> rows.

(** compilation looks at the row of its centroid only, and the compiled function
    at the coordinates of its point *)
Definition compile_local (np nc : nat) (compile : kmeans_compile) : Prop :=
  (∀ d, compile d = compile (take nc d)) ∧ ∀ d f, compile d = Ok f → fun_local np f.

Section Correct.
Context (k : kmeans_args) (compile : kmeans_compile).

Let np : nat := Z.to_nat (ka_natts_point k).
Let ncols : nat := Z.to_nat (ka_natts_centroid k).
Let nc : nat := length (ka_centroids k).
Let P : list (list float8) := float_rows (ka_points k).
Let nt : nat := Z.to_nat (kmeans_nthreads (ka_nthreads k) (Z.of_nat (length (ka_points k)))).

Context (Hfits : kmeans_fits k) (Hcomp : compile_local np ncols compile).

Lemma length_P : length P = length (ka_points k).
Proof. apply length_fmap. Qed.

Lemma rows_P : Forall (fun p => length p = np) P.
Proof. apply Forall_fmap. eapply Forall_impl; [apply Hfits|]. intros r Hr. cbn. by rewrite length_fmap. Qed.

Lemma sizes :
  ka_natts_point k = Z.of_nat np ∧ ka_natts_centroid k = Z.of_nat ncols ∧ (np ≤ ncols)%nat ∧ (0 < nc)%nat ∧ (0 < nt)%nat
  ∧ small (Z.of_nat (length P)) ∧ small (Z.of_nat (length P * np)) ∧ small (Z.of_nat (nc * ncols)) ∧ small (Z.of_nat (nc * np)) ∧ small (Z.of_nat nt)
  ∧ small (Z.of_nat nc).
Proof.
  destruct Hfits as [Hnp _ _ Hsome Hnt Hps Hn Hcs Hncs]. unfold np, ncols, nc, nt, small, kmeans_nthreads, MaxAllocSize, SIZEOF_KMEANS_ITEM in *.
  rewrite length_P. set (n := length (ka_points k)) in *. set (m := length (ka_centroids k)) in *.
  assert (Z.of_nat m * ka_natts_point k ≤ Z.of_nat m * ka_natts_centroid k) by nia.
  destruct ((Z.of_nat n <? ka_nthreads k) && (0 <? Z.of_nat n)) eqn:Hb; [apply andb_prop in Hb as [?%Z.ltb_lt ?%Z.ltb_lt]|];
    (destruct (Z.ltb_spec (if true then Z.of_nat n else ka_nthreads k) 1); destruct (Z.ltb_spec (ka_nthreads k) 1)); split_and!; lia.
Qed.

Lemma bound_mono t : (chunk_bound nt P t ≤ chunk_bound nt P (S t))%nat.
Proof. unfold chunk_bound. apply Nat.Div0.div_le_mono. lia. Qed.

Lemma bound_0 : chunk_bound nt P 0 = 0%nat.
Proof. unfold chunk_bound. by rewrite Nat.mul_0_r, Nat.Div0.div_0_l. Qed.

Lemma bound_end : chunk_bound nt P nt = length P.
Proof. destruct sizes as (_ & _ & _ & _ & Hnt & _). unfold chunk_bound. apply Nat.div_mul. lia. Qed.

Lemma concat_slices {B} (b : nat → nat) (l : list B) m :
  (∀ t, (b t ≤ b (S t))%nat) → b 0%nat = 0%nat → concat ((fun t => take (b (S t) - b t) (drop (b t) l)) <$> seq 0 m) = take (b m) l.
Proof.
  intros Hmono Hb0. induction m as [|m IH]; [by rewrite Hb0|]. rewrite seq_S, fmap_app, concat_app, IH. cbn [fmap list_fmap concat Nat.add].
  rewrite app_nil_r, take_take_drop. f_equal. specialize (Hmono m). lia.
Qed.

Lemma concat_chunks A : length A = length P → concat (chunks nt P A) = zip P A.
Proof.
  intros HA. unfold chunks. rewrite (concat_slices (chunk_bound nt P)) by (apply bound_mono || apply bound_0).
  rewrite bound_end. apply take_ge. rewrite length_zip_with. lia.
Qed.

(** ** One iteration *)

Record state_rep (st : kmeans_state) (A : list Z) (C : list (list float8)) : Prop := {
  sr_num_points : ks_num_points st = Z.of_nat (length P);
  sr_num_centroids : ks_num_centroids st = Z.of_nat nc;
  sr_points : ks_points st = concat P;
  sr_centroids : ks_centroids st = concat C;
  sr_length : length C = nc;
  sr_uniform : Forall (fun r => length r = ncols) C;
  sr_assignments : ks_assignments st = A;
  sr_assigned : length A = length P;
  sr_threads : length (ks_threads st) = nt;
  sr_items t a : ks_threads st !! t = Some a →
    (∀ funcs, item_static np P funcs (chunk_bound nt P t) (chunk_bound nt P (S t)) (reset_item funcs a))
    ∧ length (k_coordsAgg a) = (nc * np)%nat ∧ length (k_assignCount a) = nc
}.

Section Iterate.
Context (st : kmeans_state) (A : list Z) (C : list (list float8)) (Hst : state_rep st A C).

Lemma compile_rows : compile_funcs k compile st = omapM compile C.
Proof.
  destruct sizes as (_ & Hnc & _). destruct Hst as [_ Hn _ HC HlC Hu _ _ _ _]. unfold compile_funcs. rewrite Hn, HC, Hnc, <- HlC.
  assert (∀ l i, C = take i C ++ l → (i + length l = length C)%nat →
    omapM (fun ci => compile (drop (Z.to_nat (ci * Z.of_nat ncols)) (concat C))) (seqZ (Z.of_nat i) (Z.of_nat (length l))) = omapM compile l) as Hind.
  { induction l as [|row l IH]; intros i Heq Hl; [done|]. cbn [length] in *. rewrite seqZ_cons by lia. cbn [omapM].
    assert (C !! i = Some row) as Hrow by (rewrite Heq; apply list_lookup_middle; rewrite length_take; lia).
    replace (Z.to_nat (Z.of_nat i * Z.of_nat ncols)) with (i * ncols)%nat by lia.
    rewrite (proj1 Hcomp), (row_at C ncols i row Hu Hrow). f_equal.
    replace (Z.succ (Z.of_nat i)) with (Z.of_nat (S i)) by lia. replace (Z.pred (Z.of_nat (S (length l)))) with (Z.of_nat (length l)) by lia.
    rewrite IH; [done| |lia]. rewrite (take_S_r _ _ _ Hrow), <- app_assoc. done. }
  by apply (Hind C 0%nat).
Qed.

Context (funcs : list (list float8 → float8)) (Hfuncs : omapM compile C = Ok funcs).

Lemma funcs_length : length funcs = nc.
Proof. rewrite (omapM_length _ _ _ Hfuncs). apply Hst. Qed.

Lemma funcs_local : Forall (fun_local np) funcs.
Proof.
  apply omapM_Forall2 in Hfuncs. apply Forall_lookup_2. intros i f Hf.
  eapply Forall2_lookup_r in Hfuncs as (d & _ & Hd); [|done]. by eapply (proj2 Hcomp).
Qed.

Lemma launch_inv : config_inv np nc P funcs A nt (chunk_bound nt P) (launch funcs st).
Proof.
  destruct Hst as [_ _ _ _ _ _ HA HlA Hth Hit]. split; cbn [launch kc_threads kc_assignments].
  - by rewrite length_fmap.
  - by rewrite HA.
  - intros t a Ha. rewrite list_lookup_fmap in Ha. destruct (ks_threads st !! t) as [a0|] eqn:Ha0; [|done]. injection Ha as <-.
    destruct (Hit t a0 Ha0) as (Hs & Hco & Hcn). specialize (Hs funcs). pose proof (is_start _ _ _ _ _ _ Hs) as Hstart. cbn in Hstart.
    split; [done|..]; cbn [reset_item k_pc progress k_changesMade pc_inv].
    + intros j Hj. rewrite Hstart, Nat2Z.id, decide_False by lia. by rewrite HA.
    + rewrite Hstart, Nat2Z.id. split; [done|]. intros (j & Hj & _). lia.
    + exists (chunk_bound nt P t). rewrite Hstart. pose proof (bound_mono t). cbn [reset_item k_coordsAgg k_assignCount].
      unfold seg. rewrite Nat.sub_diag. cbn [take]. rewrite Hco, Hcn. split_and!; (done || lia).
Qed.

Lemma reach_inv c : kmeans_reach (launch funcs st) c → config_inv np nc P funcs A nt (chunk_bound nt P) c.
Proof.
  destruct sizes as (_ & _ & _ & Hnc & _ & Hn & Hsz & _ & Hcs & _). intros Hr.
  eapply config_reach; [apply rows_P|apply funcs_length|done|apply funcs_local|done|done|done|apply Hst|apply bound_mono|apply bound_0|apply bound_end|apply launch_inv|done].
Qed.

(** the threads never step into undefined behaviour *)
Lemma threads_safe c : kmeans_reach (launch funcs st) c → ¬ kmeans_step c UB.
Proof.
  destruct sizes as (_ & _ & _ & Hnc & _ & Hn & Hsz & _ & Hcs & _). intros Hr Hub.
  pose proof (reach_inv c Hr) as Hc.
  eapply config_step in Hub as (c' & ? & _); [done|apply rows_P|apply funcs_length|done|apply funcs_local|done|done|done|apply Hst|apply bound_mono|apply bound_0|apply bound_end|done].
Qed.

Lemma threads_finish : ∃ c, kmeans_reach (launch funcs st) c ∧ all_exited c.
Proof.
  destruct sizes as (_ & _ & _ & Hnc & _ & Hn & Hsz & _ & Hcs & _).
  eapply config_finishes; [apply rows_P|apply funcs_length|done|apply funcs_local|done|done|done|apply Hst|apply bound_mono|apply bound_0|apply bound_end|apply launch_inv].
Qed.

(** when they have exited, one step of Lloyd's iteration is done *)
Lemma iteration_ok c :
  kmeans_reach (launch funcs st) c → all_exited c →
  let A' := nearest funcs <$> P in let C' := move_centroids np nt P A' C in
  merge k (kc_threads c) st = Ok (concat C')
  ∧ any_change (kc_threads c) = negb (bool_decide (A' = A))
  ∧ state_rep (after_iteration c (concat C') st) A' C'.
Proof.
  destruct sizes as (Hnp & Hncols & Hle & Hnc & Hnt & Hn & Hsz & Hcs & Hcs' & _). intros Hr Hex A' C'.
  pose proof (reach_inv c Hr) as Hc.
  destruct (config_final np nc P funcs A funcs_length Hnc (sr_assigned _ _ _ Hst) nt (chunk_bound nt P) bound_0 bound_end c Hc Hex) as (Hmem & Hsums & Hch).
  assert (length A' = length P) as HlA' by apply length_fmap.
  assert (Forall2 (fun a ch => k_coordsAgg a = sums np nc ch ∧ k_assignCount a = counts nc ch) (kc_threads c) (chunks nt P A')) as Hth.
  { apply Forall2_same_length_lookup. split; [unfold chunks; rewrite length_fmap, length_seq; apply Hc|].
    intros t a ch Ha Hch'. unfold chunks in Hch'. rewrite list_lookup_fmap in Hch'.
    pose proof (lookup_lt_Some _ _ _ Ha) as Ht. rewrite (ci_threads _ _ _ _ _ _ _ _ Hc) in Ht. rewrite lookup_seq_lt in Hch' by done.
    injection Hch' as <-. by apply Hsums. }
  assert (Forall (in_range nc) (chunks nt P A')) as Hrange.
  { apply Forall_fmap, Forall_true. intros t. apply (seg_range nc P funcs funcs_length Hnc (chunk_bound nt P t)). }
  assert (small (Z.of_nat (length (concat (chunks nt P A'))))) as Hlen.
  { rewrite concat_chunks by done. rewrite length_zip_with, HlA', Nat.min_id. done. }
  destruct Hst as [H1 H2 H3 H4 H5 H6 H7 H8 H9 H10]. split_and!.
  - by apply (merge_ok k np ncols nc (kc_threads c) (chunks nt P A')).
  - exact Hch.
  - split; cbn [after_iteration ks_num_points ks_num_centroids ks_points ks_centroids ks_assignments ks_threads]; try done.
    + unfold C', move_centroids. by rewrite length_imap.
    + by apply move_centroids_uniform.
    + apply Hc.
    + intros t a Ha. destruct (ci_inv _ _ _ _ _ _ _ _ Hc t a Ha) as [[] _ _ _]. destruct (Hsums t a Ha) as [-> ->].
      rewrite length_sums, length_counts. done.
Qed.
End Iterate.

(** ** The main loop *)

Lemma loop_ok m iter st A C r :
  state_rep st A C → m = Z.to_nat (ka_maxit k - iter) → kmeans_loop k compile iter true st r →
  match r with
  | Ok st' => ∃ A' C' b, lloyd np nt P compile m A C = Ok (A', C', b) ∧ state_rep st' A' C'
  | _ => (_ ← lloyd np nt P compile m A C; Ok st) = r
  end.
Proof.
  revert iter st A C. induction m as [|m IH]; intros iter st A C Hst Hm Hl; destruct Hl as [Hg|e Hg Hc He|funcs c Hg Hc Hr Hub|funcs c Hg Hc Hr Hex Hmg|funcs c cs r Hg Hc Hr Hex Hmg Hl];
    rewrite andb_true_r in Hg; apply Z.ltb_lt in Hg || apply Z.ltb_ge in Hg; try lia.
  { by exists A, C, false. }
  - rewrite (compile_rows st A C Hst) in Hc. cbn [lloyd]. rewrite Hc. by destruct e.
  - rewrite (compile_rows st A C Hst) in Hc. by destruct (threads_safe st A C Hst funcs Hc c).
  - rewrite (compile_rows st A C Hst) in Hc. destruct (iteration_ok st A C Hst funcs Hc c Hr Hex) as [Hok _]. by rewrite Hok in Hmg.
  - rewrite (compile_rows st A C Hst) in Hc. destruct (iteration_ok st A C Hst funcs Hc c Hr Hex) as (Hok & Hch & Hst').
    rewrite Hok in Hmg. injection Hmg as <-. cbn [lloyd]. rewrite Hc. cbn [mbind outcome_bind]. rewrite Hch in Hl.
    case_bool_decide as Heq; cbn [negb] in Hl.
    + inversion Hl as [| | | |? ? ? ? Hg']; subst; try (by rewrite andb_false_r in *). by eexists _, _, true.
    + specialize (IH (iter + 1) _ _ _ Hst' ltac:(lia) Hl). destruct r; [done|..]; destruct (lloyd _ _ _ _ _ _ _); done.
Qed.

Lemma loop_exists m iter st A C :
  state_rep st A C → m = Z.to_nat (ka_maxit k - iter) → ∃ r, kmeans_loop k compile iter true st r.
Proof.
  revert iter st A C. induction m as [|m IH]; intros iter st A C Hst Hm.
  { exists (Ok st). apply loop_exit. rewrite andb_true_r. apply Z.ltb_ge. lia. }
  assert ((iter <? ka_maxit k) && true = true) as Hg by (rewrite andb_true_r; apply Z.ltb_lt; lia).
  destruct (omapM compile C) as [funcs|e| |] eqn:Hc; rewrite <- (compile_rows st A C Hst) in Hc.
  2-4: eexists; by eapply loop_compile_error.
  pose proof Hc as Hc'. rewrite (compile_rows st A C Hst) in Hc'.
  destruct (threads_finish st A C Hst funcs Hc') as (c & Hr & Hex).
  destruct (iteration_ok st A C Hst funcs Hc' c Hr Hex) as (Hok & Hch & Hst').
  assert (∃ r, kmeans_loop k compile (iter + 1) (any_change (kc_threads c)) (after_iteration c (concat (move_centroids np nt P (nearest funcs <$> P) C)) st) r) as [r Hl].
  { destruct (any_change (kc_threads c)); [apply (IH _ _ _ _ Hst'); lia|]. eexists. apply loop_exit. apply andb_false_r. }
  exists r. by eapply loop_next.
Qed.

Lemma palloc_ok size : 0 ≤ size ≤ MaxAllocSize → palloc size = Ok tt.
Proof. unfold palloc, MaxAllocSize. intros H. rewrite uint64_id by lia. by rewrite (proj2 (Z.leb_le _ _)) by lia. Qed.

Lemma copy_rows_ok natts rows i size :
  0 ≤ natts → 0 ≤ i → Forall (fun r => length r = Z.to_nat natts) rows → (i + Z.of_nat (length rows)) * natts ≤ size → size < 2 ^ 64 →
  copy_rows size natts i rows = Ok (concat (float_rows rows)).
Proof.
  intros Hn Hi HF. revert i Hi. induction HF as [|r rows Hr _ IH]; intros i Hi Hs Hb; [done|]. cbn [copy_rows length] in *.
  rewrite uint64_id by nia. rewrite (proj2 (Z.leb_le _ _)) by nia. rewrite IH by nia. cbn [mbind outcome_bind]. by rewrite take_ge by lia.
Qed.

Lemma item_ok t :
  (t < nt)%nat →
  let a := kmeans_item (Z.of_nat (length (ka_points k))) (Z.of_nat nc) (ka_natts_point k) (Z.of_nat nt) (concat P) (Z.of_nat t) in
  (∀ funcs, item_static np P funcs (chunk_bound nt P t) (chunk_bound nt P (S t)) (reset_item funcs a))
  ∧ length (k_coordsAgg a) = (nc * np)%nat ∧ length (k_assignCount a) = nc.
Proof.
  intros Ht a. destruct sizes as (Hnp & _ & _ & _ & _ & Hn & _ & _ & _ & Hnt & _). rewrite length_P in Hn. unfold small in *.
  split.
  - intros funcs. unfold chunk_bound. rewrite length_P. assert (uint64 (Z.of_nat (length (ka_points k))) = Z.of_nat (length (ka_points k))) as Hu by (apply uint64_id; lia).
    split; cbn [reset_item a kmeans_item k_start k_end k_num_points k_natts_point k_points k_dist_funcs]; rewrite ?Hu, ?length_P; try done.
    + rewrite uint64_id by nia. rewrite Nat2Z.inj_div. f_equal. lia.
    + rewrite uint64_id by nia. rewrite Nat2Z.inj_div. f_equal. lia.
  - cbn. rewrite !repeat_length. rewrite Hnp. split; lia.
Qed.

Lemma nthreads_range nthreads n : 1 ≤ kmeans_nthreads nthreads n ≤ Z.max 1 nthreads.
Proof.
  unfold kmeans_nthreads. destruct (Z.ltb_spec n nthreads), (Z.ltb_spec 0 n); cbn [andb].
  all: match goal with |- context [?x <? 1] => destruct (Z.ltb_spec x 1) end; lia.
Qed.

Lemma kmeans_setup_ok : ∃ st, kmeans_setup k = Ok st ∧ state_rep st (repeat (-1) (length P)) (float_rows (ka_centroids k)).
Proof.
  destruct sizes as (Hnp & Hncols & Hle & Hnc & Hnt0 & Hn & Hsz & Hcs & Hcs' & Hnt & Hnc').
  pose proof length_P as HlP. rewrite HlP in *. destruct Hfits as [Hf1 Hf2 Hf3 Hf4 Hf5 Hf6 Hf7 Hf8 Hf9].
  assert (0 ≤ Z.of_nat nc * ka_natts_point k ≤ Z.of_nat nc * ka_natts_centroid k) as Hmul by nia.
  assert (kmeans_nthreads (ka_nthreads k) (Z.of_nat (length (ka_points k))) = Z.of_nat nt) as Hk by (unfold nt; rewrite Z2Nat.id; [done|]; pose proof (nthreads_range (ka_nthreads k) (Z.of_nat (length (ka_points k)))); lia).
  assert (Z.of_nat nt * 88 ≤ MaxAllocSize) as Hnt88.
  { rewrite <- Hk. unfold SIZEOF_KMEANS_ITEM, MaxAllocSize in *. pose proof (nthreads_range (ka_nthreads k) (Z.of_nat (length (ka_points k)))). lia. }
  unfold kmeans_setup. fold nc. rewrite !(int32_small (Z.of_nat _)) by done. rewrite Hk. unfold small, SIZEOF_KMEANS_ITEM in *.
  rewrite !(uint64_id (Z.of_nat _)) by lia. unfold nc in *.
  rewrite (palloc_ok (Z.of_nat (length (ka_points k)) * ka_natts_point k * 8)) by nia. cbn [mbind outcome_bind].
  rewrite copy_rows_ok by (done || nia). cbn [mbind outcome_bind].
  rewrite (palloc_ok (Z.of_nat (length (ka_centroids k)) * ka_natts_centroid k * 8)) by nia. cbn [mbind outcome_bind].
  rewrite copy_rows_ok by (done || nia). cbn [mbind outcome_bind].
  do 6 (rewrite palloc_ok by (unfold MaxAllocSize in *; nia); cbn [mbind outcome_bind]).
  eexists. split; [reflexivity|]. split; cbn [ks_num_points ks_num_centroids ks_points ks_centroids ks_assignments ks_threads]; rewrite ?HlP; try done.
  - apply length_fmap.
  - apply Forall_fmap. eapply Forall_impl; [apply Hf3|]. intros r Hr. cbn. by rewrite length_fmap.
  - by rewrite Nat2Z.id.
  - apply repeat_length.
  - rewrite length_fmap, length_seqZ. lia.
  - intros t a Ha. rewrite list_lookup_fmap in Ha. destruct (seqZ 0 (Z.of_nat nt) !! t) as [z|] eqn:Hz; [|done]. injection Ha as <-.
    apply lookup_seqZ in Hz as [-> Hz]. rewrite Z.add_0_l. apply item_ok. lia.
Qed.

Lemma emit_ok st A C : state_rep st A C → kmeans_emit k st = Ok (zip P A).
Proof.
  destruct sizes as (Hnp & _). intros [H1 _ H3 _ _ _ H7 H8 _ _]. unfold kmeans_emit. rewrite H1, H3, H7, Hnp.
  apply omapM_Forall2, Forall2_same_length_lookup. split; [rewrite length_seqZ, length_zip_with; lia|].
  intros i z [p a] Hz Hp. apply lookup_seqZ in Hz as [-> Hi]. rewrite Z.add_0_l.
  apply lookup_zip_with_Some in Hp as (p' & a' & [= -> ->] & Hp & Ha). rewrite (load_nat _ _ _ Ha). cbn [mbind outcome_bind]. do 2 f_equal.
  rewrite Nat2Z.id. replace (Z.to_nat (Z.of_nat i * Z.of_nat np)) with (i * np)%nat by lia. by apply row_at; [apply rows_P|].
Qed.
End Correct.

(** the result of Lloyd's iteration on the inputs of a call, with the chunks of
    its threads *)
Definition kmeans_reference (k : kmeans_args) (compile : kmeans_compile) : outcome (list Z * list (list float8) * bool) :=
  let P := float_rows (ka_points k) in
  lloyd (Z.to_nat (ka_natts_point k)) (Z.to_nat (kmeans_nthreads (ka_nthreads k) (Z.of_nat (length (ka_points k))))) P compile
    (Z.to_nat (ka_maxit k)) (repeat (-1) (length P)) (float_rows (ka_centroids k)).

(** ** An instance *)

Definition sq_dist (a b : float8) : float8 := let d := SFsub 53 1024 a b in SFmul 53 1024 d d.

Definition demo_compile : kmeans_compile := fun row => Ok (fun p => sq_dist (coord 0 p) (coord 0 row)).

Lemma demo_compile_local : compile_local 1 1 demo_compile.
Proof. split; [by intros [|]|]. intros d f [= <-] [|]; done. Qed.

Definition demo_kmeans : kmeans_args :=
  mkKArgs 2 10 1 1 [[Some (float8_of_int 0)]; [Some (float8_of_int 1)]; [Some (float8_of_int 10)]] [[Some (float8_of_int 9)]; [Some (float8_of_int 10)]].

Lemma demo_kmeans_fits : kmeans_fits demo_kmeans.
Proof. split; try (vm_compute; done). all: by repeat constructor. Qed.

(** its final centroids: a half, and 10 *)
Definition demo_final : list (list float8) := [[SFdiv 53 1024 (float8_of_int 1) (float8_of_int 2)]; [float8_of_int 10]].

(** ** Theorems *)

(** C8. K-means is Lloyd's iteration: on inputs that fit, with at least one
    centroid, a call of [kmeans_v2] returns, and every outcome, whatever the
    interleaving of the threads, is the points with the assignments that at
    most [maxit] rounds of assigning every point to its nearest centroid and
    moving the centroids to the means of their points lead to, or the error of
    compiling a distance function.  The nearest centroid is the first one whose
    distance is smallest among the distances that are numbers; where the
    distance to centroid 0 is not a number, the point is assigned to centroid 0.
    No thread reads or writes outside its arrays. *)
Theorem kmeans_correct k compile :
  kmeans_fits k → compile_local (Z.to_nat (ka_natts_point k)) (Z.to_nat (ka_natts_centroid k)) compile →
  (∃ r, kmeans_v2 k compile r) ∧
  ∀ r, kmeans_v2 k compile r → r = (x ← kmeans_reference k compile; Ok (zip (float_rows (ka_points k)) x.1.1)).
Proof.
  intros Hf Hc. destruct (kmeans_setup_ok k Hf) as (st & Hs & Hst). split.
  - destruct (loop_exists k compile Hf Hc _ 0 st _ _ Hst eq_refl) as [r Hr]. eexists. by eapply kmeans_runs.
  - intros r Hr. destruct Hr as [e He Hn|st' r He Hl]; [by rewrite Hs in He; subst e|].
    rewrite Hs in He. injection He as <-. apply (loop_ok k compile Hf Hc _ 0 st _ _ r Hst eq_refl) in Hl. unfold kmeans_reference.
    rewrite Z.sub_0_r in Hl. destruct r as [st'|e| |].
    + destruct Hl as (A' & C' & b & -> & Hst'). cbn [mbind outcome_bind]. by eapply emit_ok.
    + destruct (lloyd _ _ _ _ _ _ _); [done|by injection Hl as ->|done|done].
    + by destruct (lloyd _ _ _ _ _ _ _).
    + by destruct (lloyd _ _ _ _ _ _ _).
Qed.

Lemma kmeans_correct_witness : kmeans_v2 demo_kmeans demo_compile (Ok [([float8_of_int 0], 0); ([float8_of_int 1], 0); ([float8_of_int 10], 1)]).
Proof.
  destruct (kmeans_correct demo_kmeans demo_compile demo_kmeans_fits demo_compile_local) as [[r Hr] H].
  pose proof (H r Hr) as Heq. vm_compute in Heq. rewrite Heq in Hr. exact Hr.
Defined.

(** The result is stable and each point is at its nearest centroid: if the
    iteration stops because no assignment has changed, then compiling the final
    centroids and assigning the points again gives the same assignments, and
    moving the centroids again leaves them where they are; and the cluster of a
    point is the first of those whose distance is smallest among the distances
    that are numbers, provided the distance to centroid 0 is a number. *)
Theorem kmeans_stable k compile A C :
  kmeans_fits k → ka_points k ≠ [] → kmeans_reference k compile = Ok (A, C, true) →
  ∃ funcs, omapM compile C = Ok funcs
    ∧ move_centroids (Z.to_nat (ka_natts_point k)) (Z.to_nat (kmeans_nthreads (ka_nthreads k) (Z.of_nat (length (ka_points k)))))
        (float_rows (ka_points k)) A C = C
    ∧ ∀ i p a, float_rows (ka_points k) !! i = Some p → A !! i = Some a →
        a = nearest funcs p ∧
        ∀ f fs, funcs = f :: fs → isnan (f p) = false → ∃ ci d, a = Z.of_nat ci ∧ best_so_far ((fun f => f p) <$> funcs) ci d.
Proof.
  intros Hf Hne Hr. destruct (sizes k Hf) as (_ & _ & Hle & _). unfold kmeans_reference in Hr.
  apply (lloyd_fixpoint _ _ _ _ _ _ _ (Z.to_nat (ka_natts_centroid k))) in Hr as (funcs & Hfs & HA & HC); [|done| |].
  - exists funcs. split_and!; [done..|]. intros i p a Hp Ha. rewrite <- HA, list_lookup_fmap, Hp in Ha. injection Ha as <-.
    split; [done|]. intros f fs -> Hn. by apply nearest_spec.
  - apply Forall_fmap. eapply Forall_impl; [apply Hf|]. intros r Hlr. cbn. by rewrite length_fmap.
  - right. intros funcs Heq. destruct (ka_points k) as [|row rows]; [done|]. injection Heq as Heq _.
    pose proof (nearest_nonneg funcs (default fzero <$> row)). lia.
Qed.

Lemma kmeans_stable_witness :
  ∃ funcs, omapM demo_compile demo_final = Ok funcs ∧ move_centroids 1 2 (float_rows (ka_points demo_kmeans)) [0; 0; 1] demo_final = demo_final.
Proof.
  destruct (kmeans_stable demo_kmeans demo_compile [0; 0; 1] demo_final demo_kmeans_fits) as (funcs & H1 & H2 & _);
    [discriminate|vm_compute; reflexivity|exists funcs; split; [exact H1|exact H2]].
Defined.

(** A NaN that comes first hides all other centroids: if the distance to
    centroid 0 is not a number, the point goes there, however near another
    centroid is. *)
Theorem nearest_nan_first f funcs p : isnan (f p) = true → nearest (f :: funcs) p = 0.
Proof. intros Hn. unfold nearest. cbn [fmap list_fmap]. by rewrite Hn. Qed.

Lemma thread_steps c i a a' mem' :
  kc_threads c !! i = Some a → kmeans_v2_worker a (kc_assignments c) = Some (Ok (a', mem')) →
  kmeans_step c (Ok (mkKConfig (<[i := a']> (kc_threads c)) mem')).
Proof. apply kmeans_step_thread. Qed.

Lemma thread_crashes c i a : kc_threads c !! i = Some a → kmeans_v2_worker a (kc_assignments c) = Some UB → kmeans_step c UB.
Proof. intros Ha Hr. exact (kmeans_step_thread c i a UB Ha Hr). Qed.

(** Without centroids the first point is added to the sums of a cluster that
    does not exist, outside of the array. *)
Theorem kmeans_no_centroids maxit x compile :
  0 < maxit → kmeans_v2 (mkKArgs 1 maxit 1 1 [[Some x]] []) compile UB.
Proof.
  intros Hm. eapply (kmeans_runs _ _ _ UB); [vm_compute; reflexivity|].
  eapply loop_thread_ub; [cbn; by rewrite (proj2 (Z.ltb_lt _ _))|reflexivity| |].
  - do 2 (eapply rtc_l; [eapply (thread_steps _ 0); reflexivity|]). apply rtc_refl.
  - eapply (thread_crashes _ 0); reflexivity.
Qed.
