(* ===== verification/TempFile.v ===== *)
(** * Temporary files

    What the tuplestores need of [backend/storage/file/buffile.c]: a sequence of
    bytes with a position, which is written at its end.  A position is a pair of
    the number of a segment and an offset, as [BufFileTell] returns it. *)

From S2P Require Import Prelude.

Definition MAX_PHYSICAL_FILESIZE : Z := 0x40000000.

Inductive seek_whence := SEEK_SET | SEEK_CUR | SEEK_END.

Definition short_read {A} : outcome A := ereport ERRCODE_SYSTEM_ERROR (lit "could not read from temporary file").

(** [BufFileCreateTemp], [BufFileTell], [BufFileSeek] (false for EOF),
    [BufFileWrite] and [BufFileReadCommon] *)
Class TempFile (F : Type) := {
  tmp_create : F;
  tmp_tell : F → Z * Z;
  tmp_seek : F → Z → Z → seek_whence → outcome (bool * F);
  tmp_write : F → list Z → outcome F;
  tmp_read : F → Z → bool → bool → outcome (list Z * F)
}.

(** a pair that stands for a position of the whole file *)
Definition points_to (q : Z * Z) (p : Z) : Prop := 0 ≤ q.1 ∧ 0 ≤ q.2 ∧ q.1 * MAX_PHYSICAL_FILESIZE + q.2 = p.

Class TempFileLaws (F : Type) `{TempFile F} := {
  (** the contents and the position of a file *)
  file_at : F → list Z → Z → Prop;
  file_create : file_at tmp_create [] 0;
  file_range f bs p : file_at f bs p → 0 ≤ p ≤ Z.of_nat (length bs);
  file_tell f bs p : file_at f bs p → points_to (tmp_tell f) p;
  file_seek f bs p q o :
    file_at f bs p → points_to q o → o ≤ Z.of_nat (length bs) → ∃ f', tmp_seek f q.1 q.2 SEEK_SET = Ok (true, f') ∧ file_at f' bs o;
  file_seek_cur f bs p d :
    file_at f bs p → 0 ≤ p + d ≤ Z.of_nat (length bs) → ∃ f', tmp_seek f 0 d SEEK_CUR = Ok (true, f') ∧ file_at f' bs (p + d);
  file_seek_before f bs p d : file_at f bs p → p + d < 0 → ∃ f', tmp_seek f 0 d SEEK_CUR = Ok (false, f') ∧ file_at f' bs p;
  file_write f bs data :
    file_at f bs (Z.of_nat (length bs)) → ∃ f', tmp_write f data = Ok f' ∧ file_at f' (bs ++ data) (Z.of_nat (length (bs ++ data)));
  (** a read returns what is there, and fails where less is there than [exact] and [eofOK] allow *)
  file_read f bs p n exact eofOK :
    file_at f bs p → 0 ≤ n →
    let data := take (Z.to_nat n) (drop (Z.to_nat p) bs) in
    let got := Z.of_nat (length data) in
    if exact && negb (got =? n) && negb ((got =? 0) && eofOK) then tmp_read f n exact eofOK = short_read
    else ∃ f', tmp_read f n exact eofOK = Ok (data, f') ∧ file_at f' bs (p + got)
}.
