(* ===== verification/Buffile.v ===== *)
(** * Buffered temporary files

    [backend/storage/file/buffile.c]: a file of any size as a sequence of physical
    files of one gigabyte, with a buffer of one block.  A physical file is its
    bytes.  Reading and writing succeed, and the operating system may transfer
    fewer bytes than it is asked for ([Disk]).  Files of a [FileSet] are not
    modelled. *)

From S2P Require Import Prelude TempFile.

Definition BLCKSZ : Z := 8192.

(** ** Physical files *)

(** how many of [n] bytes are transferred *)
Class Disk := {
  disk_read : Z → Z;
  disk_write : Z → Z
}.

Class DiskLaws `{Disk} := {
  disk_read_some n : 0 < n → 0 < disk_read n ≤ n;
  disk_write_some n : 0 < n → 0 < disk_write n ≤ n
}.

(** the bytes from position [p] on become [data]; a gap is filled with zeros *)
Definition overwrite (l : list Z) (p : nat) (data : list Z) : list Z :=
  take p l ++ repeat 0 (p - length l) ++ data ++ drop (p + length data) l.

Section Buffile.
Context `{Disk}.

(** pread, pwrite *)
Definition FileRead (file : list Z) (amount offset : Z) : list Z :=
  let data := take (Z.to_nat amount) (drop (Z.to_nat offset) file) in
  if bool_decide (data = []) then [] else take (Z.to_nat (disk_read (Z.of_nat (length data)))) data.

Definition FileWrite (file data : list Z) (offset : Z) : Z * list Z :=
  let n := disk_write (Z.of_nat (length data)) in (n, overwrite file (Z.to_nat offset) (take (Z.to_nat n) data)).

Definition FileSize (file : list Z) : Z := Z.of_nat (length file).

(** ** State *)

(** [bf_buffer] has the [nbytes] valid bytes of the buffer *)
Record BufFile := mkBufFile {
  bf_files : list (list Z);
  bf_dirty : bool;
  bf_curFile : nat;
  bf_curOffset : Z;
  bf_pos : Z;
  bf_buffer : list Z
}.

Definition bf_numFiles (f : BufFile) : nat := length (bf_files f).
Definition bf_nbytes (f : BufFile) : Z := Z.of_nat (length (bf_buffer f)).

Definition makeBufFileCommon (files : list (list Z)) : BufFile := mkBufFile files false 0 0 0 [].
Definition makeBufFile (firstfile : list Z) : BufFile := makeBufFileCommon [firstfile].
Definition BufFileCreateTemp : BufFile := makeBufFile [].

Definition extendBufFile (f : BufFile) : BufFile :=
  mkBufFile (bf_files f ++ [[]]) (bf_dirty f) (bf_curFile f) (bf_curOffset f) (bf_pos f) (bf_buffer f).

(** the logical position, with an empty buffer *)
Definition move_to (f : BufFile) (curFile : nat) (curOffset : Z) : BufFile := mkBufFile (bf_files f) (bf_dirty f) curFile curOffset 0 [].

(** ** The buffer *)

Definition BufFileLoadBuffer (f : BufFile) : outcome BufFile :=
  let '(curFile, curOffset) :=
    if (MAX_PHYSICAL_FILESIZE <=? bf_curOffset f) && (S (bf_curFile f) <? bf_numFiles f)%nat then (S (bf_curFile f), 0)
    else (bf_curFile f, bf_curOffset f) in
  thisfile ← deref (bf_files f !! curFile);
  Ok (mkBufFile (bf_files f) (bf_dirty f) curFile curOffset (bf_pos f) (FileRead thisfile BLCKSZ curOffset)).

(** the inner loop of [BufFileDumpBuffer] *)
Fixpoint extend_past (missing : nat) (f : BufFile) : BufFile :=
  match missing with
  | O => f
  | S missing => if (bf_numFiles f <=? S (bf_curFile f))%nat then extend_past missing (extendBufFile f) else f
  end.

Definition write_failed {A} : outcome A := ereport ERRCODE_SYSTEM_ERROR (lit "could not write to file").

Definition next_segment (f : BufFile) : BufFile :=
  if MAX_PHYSICAL_FILESIZE <=? bf_curOffset f then
    let f := extend_past (S (S (bf_curFile f)) - bf_numFiles f) f in
    mkBufFile (bf_files f) (bf_dirty f) (S (bf_curFile f)) 0 (bf_pos f) (bf_buffer f)
  else f.

Fixpoint dump_writes (fuel : nat) (f : BufFile) (wpos : Z) : outcome BufFile :=
  if wpos <? bf_nbytes f then
    match fuel with
    | O => OutOfFuel
    | S fuel =>
        let f := next_segment f in
        let bytestowrite := Z.min (bf_nbytes f - wpos) (MAX_PHYSICAL_FILESIZE - bf_curOffset f) in
        thisfile ← deref (bf_files f !! bf_curFile f);
        let '(written, thisfile) := FileWrite thisfile (take (Z.to_nat bytestowrite) (drop (Z.to_nat wpos) (bf_buffer f))) (bf_curOffset f) in
        if written <=? 0 then write_failed
        else
          dump_writes fuel
            (mkBufFile (<[bf_curFile f := thisfile]> (bf_files f)) (bf_dirty f) (bf_curFile f) (bf_curOffset f + written) (bf_pos f) (bf_buffer f))
            (wpos + written)
    end
  else Ok f.

Definition BufFileDumpBuffer (f : BufFile) : outcome BufFile :=
  f ← dump_writes (length (bf_buffer f)) f 0;
  let curOffset := bf_curOffset f - (bf_nbytes f - bf_pos f) in
  if curOffset <? 0 then
    match bf_curFile f with
    | O => UB
    | S curFile => Ok (mkBufFile (bf_files f) false curFile (curOffset + MAX_PHYSICAL_FILESIZE) 0 [])
    end
  else Ok (mkBufFile (bf_files f) false (bf_curFile f) curOffset 0 []).

Definition BufFileFlush (f : BufFile) : outcome BufFile := if bf_dirty f then BufFileDumpBuffer f else Ok f.

(** ** Reading and writing *)

Fixpoint read_loop (fuel : nat) (f : BufFile) (size : Z) (data : list Z) : outcome (list Z * BufFile) :=
  if 0 <? size then
    match fuel with
    | O => OutOfFuel
    | S fuel =>
        f ← (if bf_nbytes f <=? bf_pos f then BufFileLoadBuffer (move_to f (bf_curFile f) (bf_curOffset f + bf_pos f)) else Ok f);
        if bf_nbytes f <=? bf_pos f then Ok (data, f)
        else
          let nthistime := Z.min size (bf_nbytes f - bf_pos f) in
          read_loop fuel (mkBufFile (bf_files f) (bf_dirty f) (bf_curFile f) (bf_curOffset f) (bf_pos f + nthistime) (bf_buffer f))
            (size - nthistime) (data ++ take (Z.to_nat nthistime) (drop (Z.to_nat (bf_pos f)) (bf_buffer f)))
    end
  else Ok (data, f).

Definition BufFileReadCommon (f : BufFile) (size : Z) (exact eofOK : bool) : outcome (list Z * BufFile) :=
  f ← BufFileFlush f;
  r ← read_loop (Z.to_nat size) f size [];
  let nread := Z.of_nat (length r.1) in
  if exact && negb (nread =? size) && negb ((nread =? 0) && eofOK) then short_read else Ok r.

Fixpoint write_loop (fuel : nat) (f : BufFile) (data : list Z) : outcome BufFile :=
  match data with
  | [] => Ok f
  | _ =>
      match fuel with
      | O => OutOfFuel
      | S fuel =>
          f ← (if BLCKSZ <=? bf_pos f then
                 if bf_dirty f then BufFileDumpBuffer f else Ok (move_to f (bf_curFile f) (bf_curOffset f + bf_pos f))
               else Ok f);
          let nthistime := Z.to_nat (Z.min (BLCKSZ - bf_pos f) (Z.of_nat (length data))) in
          write_loop fuel
            (mkBufFile (bf_files f) true (bf_curFile f) (bf_curOffset f) (bf_pos f + Z.of_nat nthistime)
               (overwrite (bf_buffer f) (Z.to_nat (bf_pos f)) (take nthistime data)))
            (drop nthistime data)
      end
  end.

Definition BufFileWrite (f : BufFile) (data : list Z) : outcome BufFile := write_loop (length data) f data.

(** ** Seeking *)

Fixpoint seek_down (newFile : nat) (newOffset : Z) : option (nat * Z) :=
  if newOffset <? 0 then match newFile with O => None | S newFile => seek_down newFile (newOffset + MAX_PHYSICAL_FILESIZE) end
  else Some (newFile, newOffset).

(** [rest] segments follow [newFile] *)
Fixpoint seek_up (rest newFile : nat) (newOffset : Z) : option (nat * Z) :=
  if MAX_PHYSICAL_FILESIZE <? newOffset then match rest with O => None | S rest => seek_up rest (S newFile) (newOffset - MAX_PHYSICAL_FILESIZE) end
  else Some (newFile, newOffset).

(** the part of [BufFileSeek] behind [switch (whence)] *)
Definition seek_position (f : BufFile) (newFile : nat) (newOffset : Z) : outcome (bool * BufFile) :=
  match seek_down newFile newOffset with
  | None => Ok (false, f)
  | Some (newFile, newOffset) =>
      if bool_decide (newFile = bf_curFile f) && (bf_curOffset f <=? newOffset) && (newOffset <=? bf_curOffset f + bf_nbytes f)
      then Ok (true, mkBufFile (bf_files f) (bf_dirty f) (bf_curFile f) (bf_curOffset f) (newOffset - bf_curOffset f) (bf_buffer f))
      else
        f ← BufFileFlush f;
        let '(newFile, newOffset) :=
          if bool_decide (newFile = bf_numFiles f) && (newOffset =? 0) then ((newFile - 1)%nat, MAX_PHYSICAL_FILESIZE) else (newFile, newOffset) in
        match seek_up (bf_numFiles f - 1 - newFile) newFile newOffset with
        | None => Ok (false, f)
        | Some (newFile, newOffset) =>
            if (bf_numFiles f <=? newFile)%nat then Ok (false, f) else Ok (true, move_to f newFile newOffset)
        end
  end.

Definition BufFileSeek (f : BufFile) (fileno offset : Z) (whence : seek_whence) : outcome (bool * BufFile) :=
  match whence with
  | SEEK_SET => if fileno <? 0 then Ok (false, f) else seek_position f (Z.to_nat fileno) offset
  | SEEK_CUR => seek_position f (bf_curFile f) (bf_curOffset f + bf_pos f + offset)
  | SEEK_END =>
      last ← deref (bf_files f !! (bf_numFiles f - 1)%nat);
      seek_position f (bf_numFiles f - 1) (FileSize last)
  end.

Definition BufFileTell (f : BufFile) : Z * Z := (Z.of_nat (bf_curFile f), bf_curOffset f + bf_pos f).

Definition BUFFILE_SEG_SIZE : Z := MAX_PHYSICAL_FILESIZE / BLCKSZ.

Definition BufFileSeekBlock (f : BufFile) (blknum : Z) : outcome (bool * BufFile) :=
  BufFileSeek f (Z.quot blknum BUFFILE_SEG_SIZE) (Z.rem blknum BUFFILE_SEG_SIZE * BLCKSZ) SEEK_SET.
End Buffile.

#[export] Instance buffile_temp `{Disk} : TempFile BufFile := {|
  tmp_create := BufFileCreateTemp;
  tmp_tell := BufFileTell;
  tmp_seek := BufFileSeek;
  tmp_write := BufFileWrite;
  tmp_read := BufFileReadCommon
|}.
