(* ===== verification/BuffileTheorems.v ===== *)
(** * Buffered files are files

    Segments and the buffer of a temporary file, and that it behaves as an array
    of bytes with a position. *)

From S2P Require Import Prelude TempFile Buffile.

#[local] Opaque MAX_PHYSICAL_FILESIZE.

Lemma max_size : BLCKSZ ≤ MAX_PHYSICAL_FILESIZE.
Proof. by vm_compute. Qed.

(** ** Overwriting *)

Lemma overwrite_in l p d : (p ≤ length l)%nat → overwrite l p d = take p l ++ d ++ drop (p + length d) l.
Proof. intros Hp. unfold overwrite. by replace (p - length l)%nat with 0%nat by lia. Qed.

Lemma overwrite_nil l p : (p ≤ length l)%nat → overwrite l p [] = l.
Proof. intros Hp. rewrite overwrite_in, Nat.add_0_r by done. apply take_drop. Qed.

Lemma length_overwrite l p d : (p ≤ length l)%nat → length (overwrite l p d) = Nat.max (length l) (p + length d).
Proof. intros Hp. rewrite overwrite_in, !length_app, length_take, length_drop by done. lia. Qed.

Lemma overwrite_end l d : overwrite l (length l) d = l ++ d.
Proof. rewrite overwrite_in, firstn_all, drop_ge, app_nil_r by lia. done. Qed.

Lemma overwrite_app l p d1 d2 : (p ≤ length l)%nat → overwrite (overwrite l p d1) (p + length d1) d2 = overwrite l p (d1 ++ d2).
Proof.
  intros Hp. rewrite (overwrite_in (overwrite l p d1)) by (rewrite length_overwrite by done; lia). rewrite !overwrite_in, length_app by done.
  rewrite (app_assoc (take p l)), take_app_le, firstn_all2 by (rewrite length_app, length_take; lia). rewrite <- !app_assoc. do 3 f_equal.
  rewrite (app_assoc (take p l)), drop_app_ge, drop_drop by (rewrite length_app, length_take; lia). f_equal.
  rewrite length_app, length_take. lia.
Qed.

Lemma lookup_overwrite l p d i :
  (p ≤ length l)%nat → overwrite l p d !! i = if bool_decide (p ≤ i < p + length d)%nat then d !! (i - p)%nat else l !! i.
Proof.
  intros Hp. rewrite overwrite_in by done. case_bool_decide as Hi.
  - rewrite lookup_app_r, length_take, Nat.min_l by (rewrite ?length_take; lia). by rewrite lookup_app_l by lia.
  - destruct (decide (i < p)%nat) as [Hlt|Hge]; [by rewrite lookup_app_l, lookup_take_lt by (rewrite ?length_take; lia)|].
    rewrite lookup_app_r, length_take, Nat.min_l by (rewrite ?length_take; lia). rewrite lookup_app_r, lookup_drop by lia. f_equal. lia.
Qed.

(** overwriting in what is written *)
Lemma overwrite_nested l p b o d :
  (p ≤ length l)%nat → (o ≤ length b)%nat → overwrite l p (overwrite b o d) = overwrite (overwrite l p b) (p + o) d.
Proof.
  intros Hp Ho. apply list_eq. intros i. rewrite !lookup_overwrite, !length_overwrite by (rewrite ?length_overwrite; lia).
  destruct (decide (p + o ≤ i < p + o + length d)%nat) as [Hin|Hout].
  - rewrite !bool_decide_true by lia. f_equal. lia.
  - rewrite (bool_decide_false (p + o ≤ i < _)%nat) by lia. destruct (decide (p ≤ i < p + length b)%nat).
    + rewrite !(bool_decide_true (p ≤ i < _)%nat) by lia. by rewrite bool_decide_false by lia.
    + rewrite (bool_decide_false (p ≤ i < p + length b)%nat) by lia. case_bool_decide; [|done]. rewrite bool_decide_false by lia.
      rewrite !lookup_ge_None_2; [done|lia|lia].
Qed.

(** overwriting inside the middle of a list *)
Lemma overwrite_middle a s b o d :
  (o ≤ length s)%nat → (o + length d ≤ length s)%nat ∨ b = [] → overwrite (a ++ s ++ b) (length a + o) d = a ++ overwrite s o d ++ b.
Proof.
  intros Ho Hb. rewrite !overwrite_in by (rewrite ?length_app; lia). rewrite take_app_add', <- !app_assoc by done. f_equal.
  rewrite take_app_le by done. do 2 f_equal. rewrite <- Nat.add_assoc, drop_app_add' by done.
  destruct Hb as [Hb| ->]; [by rewrite drop_app_le|by rewrite !app_nil_r].
Qed.

(** ** Segments *)

(** all files except the last have the maximal size *)
Definition seg_ok (files : list (list Z)) : Prop :=
  ∀ i s, files !! i = Some s →
    Z.of_nat (length s) ≤ MAX_PHYSICAL_FILESIZE ∧ ((S i < length files)%nat → Z.of_nat (length s) = MAX_PHYSICAL_FILESIZE).

Section Segments.
Context (files : list (list Z)) (Hok : seg_ok files).

Lemma seg_prefix i : (i < length files)%nat → Z.of_nat (length (concat (take i files))) = Z.of_nat i * MAX_PHYSICAL_FILESIZE.
Proof.
  induction i as [|i IH]; intros Hi; [done|]. destruct (lookup_lt_is_Some_2 files i) as [s Hs]; [lia|].
  erewrite take_S_r by done. rewrite concat_app, length_app, Nat2Z.inj_add, IH by lia. cbn. rewrite app_nil_r.
  destruct (Hok i s Hs) as [_ Hl]. rewrite Hl by done. lia.
Qed.

Lemma segment_split i s : files !! i = Some s → concat files = concat (take i files) ++ s ++ concat (drop (S i) files).
Proof. intros Hs. rewrite <- (take_drop_middle _ _ _ Hs) at 1. by rewrite concat_app. Qed.

Lemma seg_length i s :
  files !! i = Some s →
  Z.of_nat (length (concat files)) = Z.of_nat i * MAX_PHYSICAL_FILESIZE + Z.of_nat (length s) + Z.of_nat (length (concat (drop (S i) files))).
Proof. intros Hs. rewrite (segment_split i s Hs), !length_app, !Nat2Z.inj_add, seg_prefix by (by eapply lookup_lt_Some). lia. Qed.

Lemma seg_total : files ≠ [] → Z.of_nat (length (concat files)) ≤ Z.of_nat (length files) * MAX_PHYSICAL_FILESIZE.
Proof.
  intros Hne. destruct (lookup_lt_is_Some_2 files (length files - 1)) as [s Hs]; [destruct files; [done|cbn; lia]|].
  pose proof (lookup_lt_Some _ _ _ Hs). rewrite (seg_length _ s Hs), drop_ge by lia. destruct (Hok _ s Hs) as [Hl _]. cbn.
  replace (Z.of_nat (length files - 1)) with (Z.of_nat (length files) - 1) by lia. lia.
Qed.

(** a position of the whole file lies in its segment *)
Lemma seg_offset i s o :
  files !! i = Some s → o ≤ MAX_PHYSICAL_FILESIZE → Z.of_nat i * MAX_PHYSICAL_FILESIZE + o ≤ Z.of_nat (length (concat files)) → o ≤ Z.of_nat (length s).
Proof.
  intros Hs Ho Hp. destruct (Hok i s Hs) as [_ Hl]. rewrite (seg_length i s Hs) in Hp. apply lookup_lt_Some in Hs as Hi.
  destruct (decide (S i < length files)%nat) as [Hlt|Hge]; [rewrite Hl; [done|done]|]. rewrite drop_ge in Hp by lia. cbn in Hp. lia.
Qed.

Lemma seg_drop i s o :
  files !! i = Some s → 0 ≤ o ≤ Z.of_nat (length s) →
  drop (Z.to_nat (Z.of_nat i * MAX_PHYSICAL_FILESIZE + o)) (concat files) = drop (Z.to_nat o) s ++ concat (drop (S i) files).
Proof.
  intros Hs Ho. rewrite (segment_split i s Hs). pose proof (seg_prefix i (lookup_lt_Some _ _ _ Hs)) as Hp.
  rewrite drop_app_ge by lia. replace (_ - _)%nat with (Z.to_nat o) by lia. by rewrite drop_app_le by lia.
Qed.

(** writing into a segment *)
Lemma seg_write i s o d :
  files !! i = Some s → 0 ≤ o → o + Z.of_nat (length d) ≤ MAX_PHYSICAL_FILESIZE →
  Z.of_nat i * MAX_PHYSICAL_FILESIZE + o ≤ Z.of_nat (length (concat files)) →
  seg_ok (<[i := overwrite s (Z.to_nat o) d]> files)
  ∧ concat (<[i := overwrite s (Z.to_nat o) d]> files) = overwrite (concat files) (Z.to_nat (Z.of_nat i * MAX_PHYSICAL_FILESIZE + o)) d.
Proof.
  intros Hs Ho Hd Hp. pose proof (seg_offset i s o Hs ltac:(lia) Hp) as Hos. destruct (Hok i s Hs) as [Hl Hfull]. pose proof (lookup_lt_Some _ _ _ Hs) as Hi.
  pose proof (seg_prefix i Hi) as Hpre. split.
  - intros j s' Hj. rewrite length_insert. apply list_lookup_insert_Some in Hj as [(<- & <- & _)|[_ Hj]]; [|by apply Hok].
    rewrite length_overwrite by lia. split; [lia|]. intros Hlt. specialize (Hfull Hlt). lia.
  - rewrite insert_take_drop, concat_app by done. cbn. rewrite (segment_split i s Hs).
    replace (Z.to_nat (Z.of_nat i * MAX_PHYSICAL_FILESIZE + o)) with (length (concat (take i files)) + Z.to_nat o)%nat by lia.
    symmetry. apply overwrite_middle; [lia|]. destruct (decide (S i < length files)%nat) as [Hlt|Hge]; [left; specialize (Hfull Hlt); lia|].
    right. by rewrite drop_ge by lia.
Qed.

(** a new segment behind a full one *)
Lemma seg_extend : files ≠ [] → Z.of_nat (length files) * MAX_PHYSICAL_FILESIZE ≤ Z.of_nat (length (concat files)) →
  seg_ok (files ++ [[]]) ∧ concat (files ++ [[]]) = concat files.
Proof.
  intros Hne Hfull. split; [|rewrite concat_app; cbn; by rewrite app_nil_r]. intros i s Hs. rewrite length_app. cbn.
  apply lookup_app_Some in Hs as [Hs|[? Hs]].
  - destruct (Hok i s Hs) as [Hl Hf]. split; [done|]. intros _. pose proof (lookup_lt_Some _ _ _ Hs) as Hi.
    destruct (decide (S i < length files)%nat) as [Hlt|Hge]; [by apply Hf|]. rewrite (seg_length i s Hs), drop_ge in Hfull by lia. cbn in Hfull.
    replace (length files) with (S i) in Hfull by lia. lia.
  - apply list_lookup_singleton_Some in Hs as [? <-]. pose proof max_size. unfold BLCKSZ in *. cbn. lia.
Qed.
End Segments.

(** ** Buffered files are files *)

#[local] Opaque MAX_PHYSICAL_FILESIZE.

Lemma take_overwrite l p d : (p ≤ length l)%nat → take (length d) (drop p (overwrite l p d)) = d.
Proof. intros Hp. rewrite overwrite_in, drop_app_length' by (done || rewrite length_take; lia). apply take_app_length. Qed.

Lemma overwrite_same l p d : (p ≤ length l)%nat → take (length d) (drop p l) = d → overwrite l p d = l.
Proof.
  intros Hp Hd. rewrite overwrite_in by done. rewrite <- (take_drop p l) at 3. f_equal. rewrite <- Hd at 1. rewrite <- drop_drop. apply take_drop.
Qed.

Lemma take_length_take {A} n (l : list A) : take (length (take n l)) l = take n l.
Proof. rewrite length_take. destruct (decide (n ≤ length l)%nat); [by rewrite Nat.min_l|]. by rewrite Nat.min_r, firstn_all, take_ge by lia. Qed.

Section Buf.
Context `{DiskLaws}.
Implicit Types (f : BufFile) (bs : list Z).

Definition phys f : list Z := concat (bf_files f).

(** the position of the buffer *)
Definition start f : Z := Z.of_nat (bf_curFile f) * MAX_PHYSICAL_FILESIZE + bf_curOffset f.

Record buf_ok f : Prop := {
  bo_seg : seg_ok (bf_files f);
  bo_cur : (bf_curFile f < bf_numFiles f)%nat;
  bo_off : 0 ≤ bf_curOffset f ≤ MAX_PHYSICAL_FILESIZE;
  bo_start : 0 ≤ start f ≤ Z.of_nat (length (phys f))
}.

(** the file has the contents [bs] and the position [p] *)
Record buf_at f bs (p : Z) : Prop := {
  ba_ok : buf_ok f;
  ba_pos : 0 ≤ bf_pos f ≤ bf_nbytes f;
  ba_size : bf_nbytes f ≤ BLCKSZ;
  ba_bytes : bs = overwrite (phys f) (Z.to_nat (start f)) (bf_buffer f);
  ba_clean : bf_dirty f = false → bs = phys f ∧ bf_curOffset f + bf_nbytes f ≤ MAX_PHYSICAL_FILESIZE;
  ba_p : p = start f + bf_pos f
}.

Lemma buf_range f bs p : buf_at f bs p → 0 ≤ p ≤ Z.of_nat (length bs).
Proof.
  intros [Hok Hpos Hsize Hbs Hclean Hp]. pose proof (bo_start f Hok). unfold bf_nbytes in *. rewrite Hbs, length_overwrite by lia. lia.
Qed.

(** ** Writing the buffer *)

Lemma next_segment_spec f :
  buf_ok f → buf_ok (next_segment f) ∧ phys (next_segment f) = phys f ∧ start (next_segment f) = start f
             ∧ bf_curOffset (next_segment f) < MAX_PHYSICAL_FILESIZE ∧ bf_pos (next_segment f) = bf_pos f ∧ bf_buffer (next_segment f) = bf_buffer f.
Proof.
  intros Hok. pose proof Hok as [Hseg Hcur Hoff Hst]. pose proof max_size. unfold next_segment, BLCKSZ in *.
  destruct (Z.leb_spec MAX_PHYSICAL_FILESIZE (bf_curOffset f)) as [Hge|Hlt]; [|done]. unfold start, phys in *. unfold bf_numFiles in Hcur.
  assert (∀ g, g = extend_past (S (S (bf_curFile f)) - bf_numFiles f) f →
    seg_ok (bf_files g) ∧ concat (bf_files g) = concat (bf_files f) ∧ (S (bf_curFile f) < bf_numFiles g)%nat
    ∧ bf_pos g = bf_pos f ∧ bf_buffer g = bf_buffer f ∧ bf_curFile g = bf_curFile f) as Hext.
  { intros g ->. unfold bf_numFiles. destruct (decide (S (bf_curFile f) < length (bf_files f))%nat) as [Hlt|Hlast].
    { replace (_ - _)%nat with 0%nat by lia. cbn. done. }
    replace (S (S (bf_curFile f)) - length (bf_files f))%nat with 1%nat by lia. cbn [extend_past]. unfold bf_numFiles.
    replace (length (bf_files f) <=? S (bf_curFile f))%nat with true by (symmetry; apply Nat.leb_le; lia). cbn. rewrite length_app. cbn.
    destruct (seg_extend (bf_files f) Hseg) as [Hs Hc]; [by destruct (bf_files f); cbn in *; [lia|]|replace (length (bf_files f)) with (S (bf_curFile f)) by lia; lia|].
    split_and!; [done|done|lia|done..]. }
  remember (extend_past _ f) as g eqn:Hg. destruct (Hext g eq_refl) as (Hs & Hc & Hn & Hp & Hb & Hcf). cbn. rewrite Hcf, Hc, Hp, Hb. split; [|split_and!; first [done|lia]].
  constructor; cbn; [done|exact Hn|lia|]. unfold start, phys. cbn. rewrite Hc. lia.
Qed.

Lemma dump_writes_spec fuel : ∀ f wpos,
  buf_ok f → 0 ≤ wpos ≤ bf_nbytes f → bf_nbytes f - wpos ≤ Z.of_nat fuel →
  ∃ f', dump_writes fuel f wpos = Ok f' ∧ buf_ok f' ∧ phys f' = overwrite (phys f) (Z.to_nat (start f)) (drop (Z.to_nat wpos) (bf_buffer f))
        ∧ start f' = start f + (bf_nbytes f - wpos) ∧ bf_pos f' = bf_pos f ∧ bf_buffer f' = bf_buffer f.
Proof.
  induction fuel as [|fuel IH]; intros f wpos Hok Hw Hfuel; cbn [dump_writes]; unfold bf_nbytes in *.
  { replace (_ <? _) with false by (symmetry; apply Z.ltb_ge; lia). exists f. split; [done|]. split; [done|].
    rewrite drop_ge, overwrite_nil by (pose proof (bo_start f Hok); lia). split_and!; [done|lia|done..]. }
  destruct (Z.ltb_spec wpos (Z.of_nat (length (bf_buffer f)))) as [Hlt|Hge]; cycle 1.
  { exists f. split; [done|]. split; [done|]. rewrite drop_ge, overwrite_nil by (pose proof (bo_start f Hok); lia). split_and!; [done|lia|done..]. }
  destruct (next_segment_spec f Hok) as (Hok1 & Hph & Hst & Hlt1 & Hp1 & Hb1). set (g := next_segment f) in *. rewrite Hb1.
  pose proof Hok1 as [Hseg1 Hcur1 Hoff1 Hst1]. destruct (lookup_lt_is_Some_2 _ _ Hcur1) as [s Hs]. rewrite Hs. cbn [deref mbind outcome_bind].
  set (d := take _ (drop _ (bf_buffer f))). assert (Z.of_nat (length d) = Z.min (Z.of_nat (length (bf_buffer f)) - wpos) (MAX_PHYSICAL_FILESIZE - bf_curOffset g)) as Hd.
  { unfold d. rewrite length_take, length_drop. lia. }
  unfold FileWrite. destruct (disk_write_some (Z.of_nat (length d))) as [Hn Hle]; [lia|]. set (n := disk_write _) in *. cbn zeta.
  replace (n <=? 0) with false by (symmetry; apply Z.leb_gt; lia).
  set (d1 := take (Z.to_nat n) d). assert (Z.of_nat (length d1) = n) as Hd1 by (unfold d1; rewrite length_take; lia).
  destruct (seg_write (bf_files g) Hseg1 (bf_curFile g) s (bf_curOffset g) d1 Hs) as [Hseg2 Hcat]; [lia|lia|apply Hst1|].
  match goal with |- context [dump_writes fuel ?x _] => set (h := x) end.
  assert (phys h = overwrite (phys f) (Z.to_nat (start f)) d1) as Hph2 by (rewrite <- Hph, <- Hst; exact Hcat).
  assert (start h = start f + n) as Hst2 by (rewrite <- Hst; unfold start, h; cbn; lia).
  destruct (IH h (wpos + n)) as (f' & Hdw & Hok' & Hph' & Hst' & Hp' & Hb').
  - constructor; [done|unfold bf_numFiles, h; cbn; by rewrite length_insert|unfold h; cbn; lia|].
    rewrite Hst2, Hph2, length_overwrite; lia || rewrite <- Hph; lia.
  - unfold h. cbn. lia.
  - unfold h. cbn. lia.
  - exists f'. split; [done|]. split; [done|]. rewrite Hph', Hst', Hph2, Hst2, Hb', Hp'. unfold h. cbn. rewrite ?Hp1. split; [|split_and!; first [done|lia]].
    replace (Z.to_nat (start f + n)) with (Z.to_nat (start f) + length d1)%nat by lia. rewrite overwrite_app by (rewrite <- Hph; lia). f_equal.
    unfold d1, d. rewrite take_take. replace (Z.to_nat (wpos + n)) with (Z.to_nat wpos + Z.to_nat n)%nat by lia.
    rewrite <- drop_drop. replace (Nat.min _ _) with (Z.to_nat n) by lia. apply take_drop.
Qed.

Lemma flush_spec f bs p : buf_at f bs p → ∃ f', BufFileFlush f = Ok f' ∧ buf_at f' bs p ∧ bf_dirty f' = false.
Proof.
  intros HA. pose proof HA as [Hok Hpos Hsize Hbs Hclean Hp]. unfold BufFileFlush. destruct (bf_dirty f) eqn:Hdirty; [|by exists f].
  unfold BufFileDumpBuffer. destruct (dump_writes_spec (length (bf_buffer f)) f 0 Hok) as (g & -> & Hok' & Hph & Hst & Hpg & Hbg); [unfold bf_nbytes in *; lia..|].
  cbn [mbind outcome_bind]. change (Z.to_nat 0) with 0%nat in Hph. rewrite drop_0, <- Hbs in Hph. unfold bf_nbytes in *. rewrite Hpg, Hbg.
  pose proof Hok' as [Hseg Hcur Hoff Hst']. pose proof (bo_start f Hok) as Hsf. pose proof max_size.
  assert (∀ i o, Z.of_nat i * MAX_PHYSICAL_FILESIZE + o = p → 0 ≤ o ≤ MAX_PHYSICAL_FILESIZE → (i < bf_numFiles g)%nat →
    buf_at (mkBufFile (bf_files g) false i o 0 []) bs p) as Hat.
  { intros i o Hio Ho Hi. assert (buf_ok (mkBufFile (bf_files g) false i o 0 [])) as Hok2.
    { constructor; [done|done|done|]. unfold start. cbn. unfold phys in *. cbn. rewrite Hio. lia. }
    constructor; cbn; [done|unfold bf_nbytes; cbn; lia|unfold bf_nbytes, BLCKSZ; cbn; lia| |unfold bf_nbytes; cbn; split; [by rewrite <- Hph|lia]|unfold start; cbn; lia].
    rewrite overwrite_nil; [by rewrite <- Hph|]. pose proof (bo_start _ Hok2) as Hs2. unfold start, phys in *. cbn in *. lia. }
  unfold start in Hst, Hst', Hp, Hsf. unfold BLCKSZ in *. destruct (Z.ltb_spec (bf_curOffset g - (Z.of_nat (length (bf_buffer f)) - bf_pos f)) 0) as [Hneg|Hnn].
  - destruct (bf_curFile g) as [|i] eqn:Hi; [lia|]. eexists. split; [done|]. split; [|done]. apply Hat; [lia|lia|]. lia.
  - eexists. split; [done|]. split; [|done]. apply Hat; [lia|lia|done].
Qed.

(** ** Reading *)

(** an empty buffer at a position *)
Lemma move_spec f bs i o :
  buf_ok f → bf_dirty f = false → bs = phys f → (i < bf_numFiles f)%nat → 0 ≤ o ≤ MAX_PHYSICAL_FILESIZE →
  0 ≤ Z.of_nat i * MAX_PHYSICAL_FILESIZE + o ≤ Z.of_nat (length bs) → buf_at (move_to f i o) bs (Z.of_nat i * MAX_PHYSICAL_FILESIZE + o).
Proof.
  intros [Hseg Hcur Hoff Hst] Hd -> Hi Ho Hp. pose proof max_size. unfold BLCKSZ in *. assert (buf_ok (move_to f i o)) as Hok by (by constructor).
  constructor; unfold bf_nbytes, BLCKSZ, start; cbn; [done|lia|lia| |split; [done|lia]|lia]. rewrite overwrite_nil; [done|].
  unfold phys in *. cbn in *. lia.
Qed.

Lemma slice_spec f bs p : buf_at f bs p → drop (Z.to_nat p) bs = drop (Z.to_nat (bf_pos f)) (bf_buffer f) ++ drop (Z.to_nat (start f) + length (bf_buffer f)) bs.
Proof.
  intros [Hok Hpos Hsize Hbs Hclean Hp]. pose proof (bo_start f Hok) as Hst. unfold bf_nbytes in *.
  assert (drop (Z.to_nat (start f)) bs = bf_buffer f ++ drop (Z.to_nat (start f) + length (bf_buffer f)) bs) as Hd.
  { rewrite <- drop_drop. rewrite <- (take_drop (length (bf_buffer f)) (drop (Z.to_nat (start f)) bs)) at 1. f_equal.
    rewrite Hbs. apply take_overwrite. lia. }
  replace (Z.to_nat p) with (Z.to_nat (start f) + Z.to_nat (bf_pos f))%nat by lia. rewrite <- drop_drop, Hd, drop_app_le by lia. done.
Qed.

(** the buffer is filled unless the file is at its end *)
Lemma load_spec f bs p :
  buf_at f bs p → bf_dirty f = false → bf_buffer f = [] →
  ∃ f', BufFileLoadBuffer f = Ok f' ∧ buf_at f' bs p ∧ bf_dirty f' = false ∧ bf_pos f' = bf_pos f ∧ (bf_buffer f' = [] → p = Z.of_nat (length bs)).
Proof.
  intros [Hok Hpos Hsize Hbs Hclean Hp] Hd Hb. destruct (Hclean Hd) as [Hbs' _]. unfold bf_nbytes in *. rewrite Hb in Hpos. cbn in Hpos.
  unfold BufFileLoadBuffer. destruct Hok as [Hseg Hcur Hoff Hst]. set (c := _ && _).
  assert (∃ i o, (if c then (S (bf_curFile f), 0) else (bf_curFile f, bf_curOffset f)) = (i, o) ∧ (i < bf_numFiles f)%nat
    ∧ 0 ≤ o ≤ MAX_PHYSICAL_FILESIZE ∧ Z.of_nat i * MAX_PHYSICAL_FILESIZE + o = p ∧ (o = MAX_PHYSICAL_FILESIZE → S i = bf_numFiles f)) as (i & o & -> & Hi & Ho & Hio & Hlast).
  { pose proof max_size. unfold BLCKSZ in *. unfold c, start in *.
    destruct (Z.leb_spec MAX_PHYSICAL_FILESIZE (bf_curOffset f)), (Nat.ltb_spec (S (bf_curFile f)) (bf_numFiles f)); cbn [andb];
      eexists _, _; (split; [done|]); split_and!; lia. }
  destruct (lookup_lt_is_Some_2 _ _ Hi) as [s Hs]. rewrite Hs. cbn [deref mbind outcome_bind]. eexists. split; [done|].
  assert (o ≤ Z.of_nat (length s)) as Hos by (apply (seg_offset _ Hseg i s o Hs); [lia|]; unfold phys in *; lia).
  destruct (Hseg i s Hs) as [Hls Hfull]. pose proof (seg_drop _ Hseg i s o Hs ltac:(lia)) as Hdrop. rewrite Hio in Hdrop.
  set (b := FileRead s BLCKSZ o). assert (∃ n, b = take n (drop (Z.to_nat o) s) ∧ (n ≤ Z.to_nat BLCKSZ)%nat ∧ (b = [] → o = Z.of_nat (length s))) as (n & Hbn & Hn & Hempty).
  { unfold b, FileRead. set (d := take _ (drop _ s)). assert (length d = Nat.min (Z.to_nat BLCKSZ) (length s - Z.to_nat o)) as Hld by (unfold d; by rewrite length_take, length_drop).
    unfold BLCKSZ in *. destruct (bool_decide_reflect (d = [])) as [Hnil|Hne].
    - exists 0%nat. split; [done|]. split; [lia|]. intros _. rewrite Hnil in Hld. cbn in Hld. lia.
    - assert (0 < Z.of_nat (length d)) as Hlt by (destruct d; [done|cbn; lia]). destruct (disk_read_some _ Hlt) as [Hr Hr'].
      eexists. split; [unfold d; apply take_take|]. split; [lia|]. intros Hnil. apply (f_equal length) in Hnil. rewrite length_take in Hnil. cbn in Hnil. lia. }
  assert (length b ≤ length s - Z.to_nat o)%nat as Hlb by (rewrite Hbn, length_take, length_drop; lia).
  assert (overwrite (phys f) (Z.to_nat p) b = phys f) as Hsame.
  { apply overwrite_same; [unfold phys in *; lia|]. unfold phys. rewrite Hdrop, take_app_le by (rewrite length_drop; lia).
    rewrite Hbn. apply take_length_take. }
  assert (buf_ok (mkBufFile (bf_files f) (bf_dirty f) i o (bf_pos f) b)) as Hok'.
  { constructor; [done|done|done|]. unfold start, phys in *. cbn. lia. }
  split; [|split; [done|]; split; [done|]].
  - constructor; unfold bf_nbytes, start, BLCKSZ in *; cbn; [done|lia| | |split; [done|lia]|lia].
    + rewrite Hbn, length_take. lia.
    + unfold phys in *. cbn. by rewrite Hio, Hsame.
  - cbn. intros Hnil. specialize (Hempty Hnil). rewrite Hbs'. unfold phys. destruct (decide (S i < bf_numFiles f)%nat) as [Hlt|Hge].
    + specialize (Hfull Hlt). lia.
    + rewrite (seg_length _ Hseg i s Hs), drop_ge by (unfold bf_numFiles in *; lia). cbn. lia.
Qed.

Lemma read_loop_spec fuel : ∀ f bs p size data,
  buf_at f bs p → bf_dirty f = false → 0 ≤ size ≤ Z.of_nat fuel →
  let got := take (Z.to_nat size) (drop (Z.to_nat p) bs) in
  ∃ f', read_loop fuel f size data = Ok (data ++ got, f') ∧ buf_at f' bs (p + Z.of_nat (length got)).
Proof.
  induction fuel as [|fuel IH]; intros f bs p size data HA Hd Hsize got; cbn [read_loop].
  { replace (0 <? size) with false by (symmetry; apply Z.ltb_ge; lia). exists f. unfold got. replace size with 0 by lia. by rewrite app_nil_r, Z.add_0_r. }
  destruct (Z.ltb_spec 0 size) as [Hlt|Hge]; cycle 1.
  { exists f. unfold got. replace size with 0 by lia. by rewrite app_nil_r, Z.add_0_r. }
  assert (∃ g, (if bf_nbytes f <=? bf_pos f then BufFileLoadBuffer (move_to f (bf_curFile f) (bf_curOffset f + bf_pos f)) else Ok f) = Ok g
    ∧ buf_at g bs p ∧ bf_dirty g = false ∧ (bf_nbytes g ≤ bf_pos g → p = Z.of_nat (length bs))) as (g & Hg & HA' & Hd' & Hend).
  { destruct (Z.leb_spec (bf_nbytes f) (bf_pos f)) as [Hle|Hgt]; [|exists f; split_and!; [done..|lia]].
    pose proof HA as [Hok Hpos Hs Hbs Hclean Hp]. destruct (Hclean Hd) as [Hbs' Hm].
    destruct (load_spec (move_to f (bf_curFile f) (bf_curOffset f + bf_pos f)) bs p) as (g & Hl & HA' & Hd' & Hg0 & He); [|done|done|].
    - pose proof (buf_range f bs p HA) as Hr. unfold start in Hp.
      replace p with (Z.of_nat (bf_curFile f) * MAX_PHYSICAL_FILESIZE + (bf_curOffset f + bf_pos f)) by lia.
      destruct Hok as [Hseg Hcur Hoff Hst]. apply move_spec; [by constructor|done|done|done|lia|lia].
    - exists g. split_and!; [done..|]. intros Hle'. apply He. cbn in Hg0. unfold bf_nbytes in Hle'. rewrite Hg0 in Hle'. destruct (bf_buffer g); [done|cbn in Hle'; lia]. }
  rewrite Hg. cbn [mbind outcome_bind]. destruct (Z.leb_spec (bf_nbytes g) (bf_pos g)) as [Hle|Hgt].
  { exists g. unfold got. specialize (Hend Hle). rewrite drop_ge, take_nil, app_nil_r by lia. cbn. by rewrite Z.add_0_r. }
  pose proof (slice_spec g bs p HA') as Hslice. pose proof HA' as [Hok Hpos Hs Hbs Hclean Hp]. set (n := Z.min size _). unfold bf_nbytes in *.
  match goal with |- context [read_loop fuel ?x _ ?d] => set (h := x); set (chunk := d) end.
  assert (take (Z.to_nat n) (drop (Z.to_nat (bf_pos g)) (bf_buffer g)) = take (Z.to_nat n) (drop (Z.to_nat p) bs)) as Hchunk.
  { rewrite Hslice, take_app_le by (rewrite length_drop; lia). done. }
  assert (length (take (Z.to_nat n) (drop (Z.to_nat p) bs)) = Z.to_nat n) as Hln by (rewrite <- Hchunk, length_take, length_drop; lia).
  destruct (IH h bs (p + n) (size - n) chunk) as (f' & Hr & HA2).
  - destruct Hok as [Hseg Hcur Hoff Hst]. constructor; unfold bf_nbytes, start in *; cbn; [by constructor|lia|lia|done|done|lia].
  - done.
  - lia.
  - exists f'. rewrite Hr. unfold chunk. rewrite Hchunk, <- app_assoc.
    assert (got = take (Z.to_nat n) (drop (Z.to_nat p) bs) ++ take (Z.to_nat (size - n)) (drop (Z.to_nat (p + n)) bs)) as Hgot.
    { unfold got. pose proof (buf_range g bs p HA'). replace (Z.to_nat (p + n)) with (Z.to_nat p + Z.to_nat n)%nat by lia. rewrite <- drop_drop.
      replace (Z.to_nat size) with (Z.to_nat n + Z.to_nat (size - n))%nat by lia.
      rewrite <- (take_drop (Z.to_nat n) (take _ _)), take_take, Nat.min_l by lia. f_equal. by rewrite skipn_firstn_comm, Nat.add_sub_swap, Nat.sub_diag by lia. }
    rewrite Hgot. split; [done|]. rewrite length_app, Hln. replace (p + _) with (p + n + Z.of_nat (length (take (Z.to_nat (size - n)) (drop (Z.to_nat (p + n)) bs)))) by lia.
    exact HA2.
Qed.

Lemma read_spec f bs p n exact eofOK :
  buf_at f bs p → 0 ≤ n →
  let data := take (Z.to_nat n) (drop (Z.to_nat p) bs) in
  let got := Z.of_nat (length data) in
  if exact && negb (got =? n) && negb ((got =? 0) && eofOK) then BufFileReadCommon f n exact eofOK = short_read
  else ∃ f', BufFileReadCommon f n exact eofOK = Ok (data, f') ∧ buf_at f' bs (p + got).
Proof.
  intros HA Hn data got. unfold BufFileReadCommon. destruct (flush_spec f bs p HA) as (g & -> & HA' & Hd). cbn [mbind outcome_bind].
  destruct (read_loop_spec (Z.to_nat n) g bs p n [] HA' Hd) as (f' & Hr & HA2); [lia|]. rewrite Hr. cbn [mbind outcome_bind fst app].
  fold data. fold got. destruct (_ && _); [done|]. by exists f'.
Qed.

(** ** Writing *)

Lemma fill_spec f bs p data :
  buf_at f bs p → bf_pos f + Z.of_nat (length data) ≤ BLCKSZ →
  buf_at (mkBufFile (bf_files f) true (bf_curFile f) (bf_curOffset f) (bf_pos f + Z.of_nat (length data)) (overwrite (bf_buffer f) (Z.to_nat (bf_pos f)) data))
    (overwrite bs (Z.to_nat p) data) (p + Z.of_nat (length data)).
Proof.
  intros [Hok Hpos Hsize Hbs Hclean Hp] Hle. pose proof (bo_start f Hok) as Hst. unfold bf_nbytes in *.
  destruct Hok as [Hseg Hcur Hoff _].
  constructor; unfold bf_nbytes; cbn [bf_files bf_dirty bf_pos bf_buffer]; [by constructor|rewrite length_overwrite; lia|rewrite length_overwrite; lia| |done|unfold start in *; cbn; lia].
  change (phys _) with (phys f). change (start _) with (start f). rewrite overwrite_nested, <- Hbs by lia. f_equal. lia.
Qed.

Lemma write_loop_spec fuel : ∀ f bs p data,
  buf_at f bs p → (length data ≤ fuel)%nat →
  ∃ f', write_loop fuel f data = Ok f' ∧ buf_at f' (overwrite bs (Z.to_nat p) data) (p + Z.of_nat (length data)).
Proof.
  induction fuel as [|fuel IH]; intros f bs p data HA Hfuel; pose proof (buf_range f bs p HA) as Hr; destruct data as [|x data]; cbn [write_loop];
    try (exists f; rewrite overwrite_nil, Z.add_0_r by lia; done).
  { cbn in Hfuel. lia. }
  set (l := x :: data) in *.
  assert (∃ g, (if BLCKSZ <=? bf_pos f then if bf_dirty f then BufFileDumpBuffer f else Ok (move_to f (bf_curFile f) (bf_curOffset f + bf_pos f)) else Ok f) = Ok g
    ∧ buf_at g bs p ∧ bf_pos g < BLCKSZ) as (g & -> & HA' & Hlt).
  { destruct (Z.leb_spec BLCKSZ (bf_pos f)) as [Hge|Hlt]; [|by exists f]. pose proof HA as [Hok Hpos Hsize Hbs Hclean Hp]. destruct (bf_dirty f) eqn:Hd.
    - destruct (flush_spec f bs _ HA) as (g & Hg & HA' & Hd'). unfold BufFileFlush in Hg. rewrite Hd in Hg. exists g. split_and!; [done..|].
      unfold BufFileDumpBuffer in Hg. destruct (dump_writes _ _ _) as [g0| | |]; try done. cbn in Hg. unfold BLCKSZ.
      destruct (_ <? 0); [destruct (bf_curFile g0); [done|]|]; injection Hg as <-; cbn; lia.
    - destruct (Hclean eq_refl) as [Hbs' Hm]. eexists. split; [done|]. split; [|unfold BLCKSZ; cbn; lia]. unfold start in Hp.
      replace p with (Z.of_nat (bf_curFile f) * MAX_PHYSICAL_FILESIZE + (bf_curOffset f + bf_pos f)) by lia.
      destruct Hok as [Hseg Hcur Hoff Hst]. apply move_spec; [by constructor|done|done|done|lia|lia]. }
  cbn [mbind outcome_bind]. set (n := Z.to_nat (Z.min _ _)). pose proof (ba_pos g bs p HA') as Hpos.
  assert (0 < n ≤ length l)%nat as Hn by (unfold n, l; cbn [length]; lia). assert (length (take n l) = n) as Htl by (rewrite length_take; lia).
  pose proof (fill_spec g bs p (take n l) HA') as HA2. rewrite Htl in HA2.
  destruct (IH _ _ _ (drop n l) (HA2 ltac:(unfold n; lia))) as (f' & Hw & HA3).
  { rewrite length_drop. unfold l in *. cbn [length] in *. lia. }
  exists f'. split; [exact Hw|]. replace (Z.to_nat (p + Z.of_nat n)) with (Z.to_nat p + length (take n l))%nat in HA3 by lia.
  rewrite overwrite_app, take_drop in HA3 by lia. rewrite length_drop in HA3. by replace (p + Z.of_nat (length l)) with (p + Z.of_nat n + Z.of_nat (length l - n)) by lia.
Qed.

(** ** Seeking *)

Lemma seek_down_spec i : ∀ x,
  match seek_down i x with
  | Some (j, y) => 0 ≤ y ∧ Z.of_nat j * MAX_PHYSICAL_FILESIZE + y = Z.of_nat i * MAX_PHYSICAL_FILESIZE + x
  | None => Z.of_nat i * MAX_PHYSICAL_FILESIZE + x < 0
  end.
Proof.
  induction i as [|i IH]; intros x; cbn [seek_down]; destruct (Z.ltb_spec x 0) as [Hneg|Hnn]; try lia.
  specialize (IH (x + MAX_PHYSICAL_FILESIZE)). destruct (seek_down _ _) as [[j y]|]; lia.
Qed.

Lemma seek_up_spec rest : ∀ i x o n,
  0 ≤ x → Z.of_nat i * MAX_PHYSICAL_FILESIZE + x = o → o ≤ Z.of_nat n * MAX_PHYSICAL_FILESIZE → (i + rest + 1 = n)%nat →
  ∃ j y, seek_up rest i x = Some (j, y) ∧ (j < n)%nat ∧ 0 ≤ y ≤ MAX_PHYSICAL_FILESIZE ∧ Z.of_nat j * MAX_PHYSICAL_FILESIZE + y = o.
Proof.
  pose proof max_size. unfold BLCKSZ in *. induction rest as [|rest IH]; intros i x o n Hx Hio Ho Hn; cbn [seek_up];
    destruct (Z.ltb_spec MAX_PHYSICAL_FILESIZE x) as [Hgt|Hle]; try (exists i, x; split_and!; [done|lia..]).
  - replace n with (S i) in Ho by lia. lia.
  - apply (IH (S i)); lia.
Qed.

Lemma seek_position_spec f bs p i x o :
  buf_at f bs p → Z.of_nat i * MAX_PHYSICAL_FILESIZE + x = o →
  (o < 0 → seek_position f i x = Ok (false, f)) ∧ (0 ≤ o ≤ Z.of_nat (length bs) → ∃ f', seek_position f i x = Ok (true, f') ∧ buf_at f' bs o).
Proof.
  intros HA Hio. unfold seek_position. pose proof (seek_down_spec i x) as Hdown. rewrite Hio in Hdown.
  pose proof max_size. unfold BLCKSZ in *. destruct (seek_down i x) as [[j y]|]; (split; [try done; nia|]); intros Ho; [|lia].
  destruct Hdown as [Hy Hjy]. destruct (_ && _ && _) eqn:Hin.
  { apply andb_true_iff in Hin as [[Hj%bool_decide_eq_true Hlo%Z.leb_le]%andb_true_iff Hhi%Z.leb_le]. eexists. split; [done|].
    destruct HA as [[Hseg Hcur Hoff Hst] Hpos Hsize Hbs Hclean Hp]. subst j. constructor; unfold bf_nbytes, start in *; cbn; [by constructor|lia|lia|done|done|lia]. }
  destruct (flush_spec f bs p HA) as (g & -> & HA' & Hd). cbn [mbind outcome_bind]. destruct HA' as [Hok Hpos Hsize Hbs Hclean Hp].
  destruct (Hclean Hd) as [Hbs' _]. pose proof Hok as [Hseg Hcur Hoff Hst]. unfold bf_numFiles in *.
  assert (Z.of_nat (length bs) ≤ Z.of_nat (length (bf_files g)) * MAX_PHYSICAL_FILESIZE) as Htot.
  { rewrite Hbs'. apply seg_total; [done|]. intros E. rewrite E in Hcur. cbn in Hcur. lia. }
  set (n := length (bf_files g)) in *.
  assert (∃ j' y', (if bool_decide (j = n) && (y =? 0) then ((j - 1)%nat, MAX_PHYSICAL_FILESIZE) else (j, y)) = (j', y') ∧ 0 ≤ y'
    ∧ Z.of_nat j' * MAX_PHYSICAL_FILESIZE + y' = o ∧ (j' < n)%nat) as (j' & y' & -> & Hy' & Hjy' & Hj').
  { destruct (bool_decide_reflect (j = n)) as [->|Hne], (Z.eqb_spec y 0) as [->|Hy0]; cbn [andb]; eexists _, _; (split; [done|]).
    - replace (Z.of_nat (n - 1)) with (Z.of_nat n - 1) by lia. split_and!; lia.
    - lia.
    - split_and!; [lia|lia|]. nia.
    - split_and!; [lia|lia|]. nia. }
  destruct (seek_up_spec (n - 1 - j') j' y' o n) as (k & z & -> & Hk & Hz & Hkz); [done|done|lia|lia|].
  replace (n <=? k)%nat with false by (symmetry; apply Nat.leb_gt; lia). eexists. split; [done|]. rewrite <- Hkz. apply move_spec; try done. lia.
Qed.
End Buf.

(** ** The interface *)

Lemma buf_create `{DiskLaws} : buf_at BufFileCreateTemp [] 0.
Proof.
  pose proof max_size. unfold BLCKSZ in *. constructor; unfold bf_nbytes, start, BLCKSZ; cbn; [|lia|lia|done|split; [done|lia]|lia].
  constructor; unfold bf_numFiles, start, phys; cbn; [|lia..]. intros [|i] s Hs; [|done]. cbn in Hs. simplify_eq. cbn. lia.
Qed.

#[export] Instance buffile_laws `{DiskLaws} : TempFileLaws BufFile.
Proof.
  refine {| file_at := buf_at |}; cbn -[MAX_PHYSICAL_FILESIZE].
  - apply buf_create.
  - intros f bs p. apply buf_range.
  - intros f bs p [Hok Hpos _ _ _ Hp]. pose proof (bo_off f Hok). unfold points_to, BufFileTell, start in *. cbn. lia.
  - intros f bs p [i x] o HA (Hi & Hx & Ho) Hle. cbn [fst snd] in *. replace (i <? 0) with false by (symmetry; apply Z.ltb_ge; lia).
    pose proof max_size. unfold BLCKSZ in *. apply (seek_position_spec f bs p (Z.to_nat i) x o HA); [rewrite Z2Nat.id by lia; lia|nia].
  - intros f bs p d HA Hd. apply (seek_position_spec f bs p (bf_curFile f) (bf_curOffset f + bf_pos f + d) (p + d) HA); [|done].
    destruct HA as [_ _ _ _ _ Hp]. unfold start in Hp. lia.
  - intros f bs p d HA Hd. exists f. split; [|done]. apply (seek_position_spec f bs p (bf_curFile f) (bf_curOffset f + bf_pos f + d) (p + d) HA); [|done].
    destruct HA as [_ _ _ _ _ Hp]. unfold start in Hp. lia.
  - intros f bs data HA. destruct (write_loop_spec (length data) f bs _ data HA) as (f' & Hw & HA'); [done|]. exists f'. split; [done|].
    by rewrite Nat2Z.id, overwrite_end, <- Nat2Z.inj_add, <- length_app in HA'.
  - intros f bs p n exact eofOK. apply read_spec.
Defined.

(** ** Sequences of operations *)

Inductive file_op :=
| OpRead (size : Z) (exact eofOK : bool)
| OpWrite (data : list Z)
| OpSeek (fileno offset : Z)
| OpMove (offset : Z)
| OpTell.

Inductive file_result :=
| ResBytes (data : list Z)
| ResDone
| ResSeek (ok : bool)
| ResPos (p : Z).

Definition buf_run `{Disk} (f : BufFile) (op : file_op) : outcome (file_result * BufFile) :=
  match op with
  | OpRead n exact eofOK => r ← BufFileReadCommon f n exact eofOK; Ok (ResBytes r.1, r.2)
  | OpWrite data => f ← BufFileWrite f data; Ok (ResDone, f)
  | OpSeek i x => r ← BufFileSeek f i x SEEK_SET; Ok (ResSeek r.1, r.2)
  | OpMove d => r ← BufFileSeek f 0 d SEEK_CUR; Ok (ResSeek r.1, r.2)
  | OpTell => let q := BufFileTell f in Ok (ResPos (q.1 * MAX_PHYSICAL_FILESIZE + q.2), f)
  end.

(** a file without buffers and segments: its bytes and a position *)
Definition plain_run (s : list Z * Z) (op : file_op) : outcome (file_result * (list Z * Z)) :=
  let '(bs, p) := s in
  match op with
  | OpRead n exact eofOK =>
      let data := take (Z.to_nat n) (drop (Z.to_nat p) bs) in
      let got := Z.of_nat (length data) in
      if exact && negb (got =? n) && negb ((got =? 0) && eofOK) then short_read else Ok (ResBytes data, (bs, p + got))
  | OpWrite data => Ok (ResDone, (overwrite bs (Z.to_nat p) data, p + Z.of_nat (length data)))
  | OpSeek i x => Ok (ResSeek true, (bs, i * MAX_PHYSICAL_FILESIZE + x))
  | OpMove d => if p + d <? 0 then Ok (ResSeek false, s) else Ok (ResSeek true, (bs, p + d))
  | OpTell => Ok (ResPos p, s)
  end.

(** positions inside the file *)
Definition plain_admissible (s : list Z * Z) (op : file_op) : Prop :=
  match op with
  | OpRead n _ _ => 0 ≤ n
  | OpSeek i x => 0 ≤ i ∧ 0 ≤ x ∧ i * MAX_PHYSICAL_FILESIZE + x ≤ Z.of_nat (length s.1)
  | OpMove d => s.2 + d ≤ Z.of_nat (length s.1)
  | _ => True
  end.

Fixpoint file_ops {S} (run : S → file_op → outcome (file_result * S)) (s : S) (ops : list file_op) : outcome (list file_result) :=
  match ops with
  | [] => Ok []
  | op :: ops => r ← run s op; rs ← file_ops run r.2 ops; Ok (r.1 :: rs)
  end.

Fixpoint plain_admissible_ops (s : list Z * Z) (ops : list file_op) : Prop :=
  match ops with
  | [] => True
  | op :: ops => plain_admissible s op ∧ match plain_run s op with Ok (_, s) => plain_admissible_ops s ops | _ => True end
  end.

Lemma buf_run_sim `{DiskLaws} f bs p op :
  buf_at f bs p → plain_admissible (bs, p) op →
  match plain_run (bs, p) op with
  | Ok (r, s) => ∃ f', buf_run f op = Ok (r, f') ∧ buf_at f' s.1 s.2
  | Err e => buf_run f op = Err e
  | _ => False
  end.
Proof.
  intros HA Hadm. destruct op as [n exact eofOK|data|i x|d|]; cbn [plain_run buf_run plain_admissible fst snd] in *.
  - pose proof (file_read f bs p n exact eofOK HA Hadm) as Hr. cbn zeta in Hr. change (tmp_read f n exact eofOK) with (BufFileReadCommon f n exact eofOK) in Hr.
    destruct (_ && _); [by rewrite Hr|]. destruct Hr as (f' & -> & HA'). by exists f'.
  - unfold BufFileWrite. destruct (write_loop_spec (length data) f bs p data HA) as (f' & -> & HA'); [done|]. by exists f'.
  - destruct Hadm as (Hi & Hx & Ho). destruct (@file_seek _ _ buffile_laws f bs p (i, x) (i * MAX_PHYSICAL_FILESIZE + x) HA) as (f' & Hs & HA'); [done|done|].
    change (tmp_seek f _ _ _) with (BufFileSeek f i x SEEK_SET) in Hs. rewrite Hs. by exists f'.
  - destruct (Z.ltb_spec (p + d) 0) as [Hneg|Hnn].
    + destruct (@file_seek_before _ _ buffile_laws f bs p d HA Hneg) as (f' & Hs & HA'). change (tmp_seek f _ _ _) with (BufFileSeek f 0 d SEEK_CUR) in Hs. rewrite Hs. by exists f'.
    + destruct (@file_seek_cur _ _ buffile_laws f bs p d HA) as (f' & Hs & HA'); [lia|]. change (tmp_seek f _ _ _) with (BufFileSeek f 0 d SEEK_CUR) in Hs. rewrite Hs. by exists f'.
  - destruct (@file_tell _ _ buffile_laws f bs p HA) as (_ & _ & Hp). change (tmp_tell f) with (BufFileTell f) in Hp. rewrite Hp. by exists f.
Qed.

Lemma file_ops_sim `{DiskLaws} ops : ∀ f bs p, buf_at f bs p → plain_admissible_ops (bs, p) ops → file_ops buf_run f ops = file_ops plain_run (bs, p) ops.
Proof.
  induction ops as [|op ops IH]; intros f bs p HA Hadm; cbn [file_ops]; [done|]. destruct Hadm as [Hop Hadm].
  pose proof (buf_run_sim f bs p op HA Hop) as Hs. destruct (plain_run (bs, p) op) as [[r [bs' p']]| | |]; [|by rewrite Hs|done|done].
  destruct Hs as (f' & -> & HA'). cbn [mbind outcome_bind fst snd]. by rewrite (IH f' bs' p').
Qed.

(** C13. A buffered temporary file behaves as an array of bytes with a position:
    for every sequence of reads, writes and seeks inside the file, the block
    buffer, the segments of one gigabyte and transfers of fewer bytes than asked
    for cannot be seen from outside. *)
Theorem buffile_refines `{DiskLaws} ops :
  plain_admissible_ops ([], 0) ops → file_ops buf_run BufFileCreateTemp ops = file_ops plain_run ([], 0) ops.
Proof. intros Hadm. apply file_ops_sim; [apply buf_create|done]. Qed.

(** a disk that writes a few bytes at a time *)
Definition slow_disk : Disk := {| disk_read n := n; disk_write n := Z.min n 5 |}.

Lemma slow_disk_laws : @DiskLaws slow_disk.
Proof. constructor; cbn; intros n Hn; lia. Qed.

Lemma buffile_refines_witness :
  let ops := [OpWrite [1; 2; 3; 4; 5; 6; 7]; OpMove (-4); OpWrite [9]; OpRead 2 true false; OpSeek 0 1; OpRead 10 false false; OpTell; OpMove (-100); OpRead 1 true true] in
  plain_admissible_ops ([], 0) ops ∧ file_ops (@buf_run slow_disk) BufFileCreateTemp ops
    = Ok [ResDone; ResSeek true; ResDone; ResBytes [5; 6]; ResSeek true; ResBytes [2; 3; 9; 5; 6; 7]; ResPos 7; ResSeek false; ResBytes []].
Proof.
  intros ops. assert (plain_admissible_ops ([], 0) ops) as Hadm by (vm_compute; split_and!; done).
  split; [exact Hadm|]. exact (eq_trans (@buffile_refines slow_disk slow_disk_laws ops Hadm) eq_refl).
Defined.
