(* ===== verification/Tuplestore.v ===== *)
(** * Tuplestores

    [backend/utils/sort/tuplestore.c], in which the table functions read their
    input relations and return their results: an append-only sequence of tuples
    with several read pointers, kept in an array until it exceeds its memory and
    in a temporary file from then on.

    A tuple is the part of a MinimalTuple from [MINIMAL_TUPLE_DATA_OFFSET] on.
    Temporary files are the interface [TempFile] ([backend/storage/file/buffile.c]).
    [GetMemoryChunkSpace] of a chunk is a
    function of the size it was requested with; allocation succeeds. *)

From S2P Require Import Prelude Float8 TempFile.

(** ** State *)

Inductive TupStoreStatus := TSS_INMEM | TSS_WRITEFILE | TSS_READFILE.

#[export] Instance TupStoreStatus_eq_dec : EqDecision TupStoreStatus.
Proof. solve_decision. Defined.

Definition EXEC_FLAG_REWIND : Z := 0x4.
Definition EXEC_FLAG_BACKWARD : Z := 0x8.
Definition MINIMAL_TUPLE_DATA_OFFSET : Z := 10.
Definition INT_MAX : Z := 2147483647.
Definition MaxAllocHugeSize : Z := (2 ^ 64 - 1) / 2.

Definition has_flag (eflags flag : Z) : bool := negb (Z.land eflags flag =? 0).

Record TSReadPointer := mkReadPtr {
  rp_eflags : Z;
  rp_eof : bool;
  rp_current : Z;
  (** [file] and [offset] *)
  rp_offset : Z * Z
}.

Definition with_eof (p : TSReadPointer) (eof : bool) := mkReadPtr (rp_eflags p) eof (rp_current p) (rp_offset p).
Definition with_current (p : TSReadPointer) (current : Z) := mkReadPtr (rp_eflags p) (rp_eof p) current (rp_offset p).
Definition with_offset (p : TSReadPointer) (offset : Z * Z) := mkReadPtr (rp_eflags p) (rp_eof p) (rp_current p) offset.

(** an entry of [memtuples]: whether the tuple lies in the block, and the tuple;
    [None] for NULL *)
Abbreviation memtuple := (option (bool * list Z)).

Record Tuplestorestate (F : Type) := mkTS {
  ts_status : TupStoreStatus;
  ts_eflags : Z;
  ts_backward : bool;
  ts_truncated : bool;
  ts_availMem : Z;
  ts_allowedMem : Z;
  ts_tuples : Z;
  ts_myfile : option F;
  ts_memtuples : list memtuple;
  ts_memtupdeleted : Z;
  ts_memtupsize : Z;
  ts_growmemtuples : bool;
  (** the space of the block if it belongs to the store, 0 if it does not *)
  ts_block : option Z;
  ts_readptrs : list TSReadPointer;
  ts_activeptr : nat;
  (** [writepos_file] and [writepos_offset] *)
  ts_writepos : Z * Z
}.
Arguments mkTS {F}.
Arguments ts_status {F}.
Arguments ts_eflags {F}.
Arguments ts_backward {F}.
Arguments ts_truncated {F}.
Arguments ts_availMem {F}.
Arguments ts_allowedMem {F}.
Arguments ts_tuples {F}.
Arguments ts_myfile {F}.
Arguments ts_memtuples {F}.
Arguments ts_memtupdeleted {F}.
Arguments ts_memtupsize {F}.
Arguments ts_growmemtuples {F}.
Arguments ts_block {F}.
Arguments ts_readptrs {F}.
Arguments ts_activeptr {F}.
Arguments ts_writepos {F}.

Section Setters.
Context {F : Type}.
Implicit Types st : Tuplestorestate F.

Definition ts_memtupcount st : Z := Z.of_nat (length (ts_memtuples st)).

Definition set_readptrs st (ptrs : list TSReadPointer) : Tuplestorestate F :=
  mkTS (ts_status st) (ts_eflags st) (ts_backward st) (ts_truncated st) (ts_availMem st) (ts_allowedMem st) (ts_tuples st) (ts_myfile st)
    (ts_memtuples st) (ts_memtupdeleted st) (ts_memtupsize st) (ts_growmemtuples st) (ts_block st) ptrs (ts_activeptr st) (ts_writepos st).

Definition set_file st (f : F) : Tuplestorestate F :=
  mkTS (ts_status st) (ts_eflags st) (ts_backward st) (ts_truncated st) (ts_availMem st) (ts_allowedMem st) (ts_tuples st) (Some f)
    (ts_memtuples st) (ts_memtupdeleted st) (ts_memtupsize st) (ts_growmemtuples st) (ts_block st) (ts_readptrs st) (ts_activeptr st) (ts_writepos st).

Definition set_status st (status : TupStoreStatus) (writepos : Z * Z) : Tuplestorestate F :=
  mkTS status (ts_eflags st) (ts_backward st) (ts_truncated st) (ts_availMem st) (ts_allowedMem st) (ts_tuples st) (ts_myfile st)
    (ts_memtuples st) (ts_memtupdeleted st) (ts_memtupsize st) (ts_growmemtuples st) (ts_block st) (ts_readptrs st) (ts_activeptr st) writepos.

Definition set_availMem st (availMem : Z) : Tuplestorestate F :=
  mkTS (ts_status st) (ts_eflags st) (ts_backward st) (ts_truncated st) availMem (ts_allowedMem st) (ts_tuples st) (ts_myfile st)
    (ts_memtuples st) (ts_memtupdeleted st) (ts_memtupsize st) (ts_growmemtuples st) (ts_block st) (ts_readptrs st) (ts_activeptr st) (ts_writepos st).

Definition USEMEM st (amt : Z) := set_availMem st (ts_availMem st - amt).
Definition FREEMEM st (amt : Z) := set_availMem st (ts_availMem st + amt).
Definition LACKMEM st : bool := ts_availMem st <? 0.

(** the array of tuples, its size, and whether it may still grow *)
Definition set_memtuples st (memtuples : list memtuple) (deleted size : Z) (grow : bool) : Tuplestorestate F :=
  mkTS (ts_status st) (ts_eflags st) (ts_backward st) (ts_truncated st) (ts_availMem st) (ts_allowedMem st) (ts_tuples st) (ts_myfile st)
    memtuples deleted size grow (ts_block st) (ts_readptrs st) (ts_activeptr st) (ts_writepos st).

Definition set_block st (block : option Z) : Tuplestorestate F :=
  mkTS (ts_status st) (ts_eflags st) (ts_backward st) (ts_truncated st) (ts_availMem st) (ts_allowedMem st) (ts_tuples st) (ts_myfile st)
    (ts_memtuples st) (ts_memtupdeleted st) (ts_memtupsize st) (ts_growmemtuples st) block (ts_readptrs st) (ts_activeptr st) (ts_writepos st).

Definition set_tuples st (tuples : Z) : Tuplestorestate F :=
  mkTS (ts_status st) (ts_eflags st) (ts_backward st) (ts_truncated st) (ts_availMem st) (ts_allowedMem st) tuples (ts_myfile st)
    (ts_memtuples st) (ts_memtupdeleted st) (ts_memtupsize st) (ts_growmemtuples st) (ts_block st) (ts_readptrs st) (ts_activeptr st) (ts_writepos st).

Definition set_eflags st (eflags : Z) : Tuplestorestate F :=
  mkTS (ts_status st) eflags (ts_backward st) (ts_truncated st) (ts_availMem st) (ts_allowedMem st) (ts_tuples st) (ts_myfile st)
    (ts_memtuples st) (ts_memtupdeleted st) (ts_memtupsize st) (ts_growmemtuples st) (ts_block st) (ts_readptrs st) (ts_activeptr st) (ts_writepos st).

Definition set_truncated st (truncated : bool) : Tuplestorestate F :=
  mkTS (ts_status st) (ts_eflags st) (ts_backward st) truncated (ts_availMem st) (ts_allowedMem st) (ts_tuples st) (ts_myfile st)
    (ts_memtuples st) (ts_memtupdeleted st) (ts_memtupsize st) (ts_growmemtuples st) (ts_block st) (ts_readptrs st) (ts_activeptr st) (ts_writepos st).

Definition set_activeptr st (ptr : nat) : Tuplestorestate F :=
  mkTS (ts_status st) (ts_eflags st) (ts_backward st) (ts_truncated st) (ts_availMem st) (ts_allowedMem st) (ts_tuples st) (ts_myfile st)
    (ts_memtuples st) (ts_memtupdeleted st) (ts_memtupsize st) (ts_growmemtuples st) (ts_block st) (ts_readptrs st) ptr (ts_writepos st).

(** the switch to a file: [backward] is fixed *)
Definition begin_file st (f : F) : Tuplestorestate F :=
  mkTS TSS_WRITEFILE (ts_eflags st) (has_flag (ts_eflags st) EXEC_FLAG_BACKWARD) (ts_truncated st) (ts_availMem st) (ts_allowedMem st)
    (ts_tuples st) (Some f) (ts_memtuples st) (ts_memtupdeleted st) (ts_memtupsize st) (ts_growmemtuples st) (ts_block st) (ts_readptrs st)
    (ts_activeptr st) (ts_writepos st).

(** the active read pointer *)
Definition active st : outcome TSReadPointer := deref (ts_readptrs st !! ts_activeptr st).
Definition set_active st (p : TSReadPointer) : Tuplestorestate F := set_readptrs st (<[ts_activeptr st := p]> (ts_readptrs st)).
End Setters.

Section Tuplestore.
Context {F : Type} `{TempFile F}.
Context (chunk_space : Z → Z).

Implicit Types st : Tuplestorestate F.

(** [GetMemoryChunkSpace] of a tuple *)
Definition tuple_space (t : list Z) : Z := chunk_space (Z.of_nat (length t) + MINIMAL_TUPLE_DATA_OFFSET).

Definition file_of st : outcome F := deref (ts_myfile st).

Definition seek_failed {A} : outcome A := ereport ERRCODE_SYSTEM_ERROR (lit "could not seek in tuplestore temporary file").

(** a seek that has to succeed *)
Definition seek_to st (pos : Z * Z) : outcome (Tuplestorestate F) :=
  f ← file_of st;
  r ← tmp_seek f pos.1 pos.2 SEEK_SET;
  if (r : bool * F).1 then Ok (set_file st r.2) else seek_failed.

(** ** Creation *)

Definition tuplestore_begin_common (eflags maxKBytes : Z) : Tuplestorestate F :=
  let memtupsize := Z.max (16384 / 8) (8192 / 8 + 1) in
  {| ts_status := TSS_INMEM; ts_eflags := eflags; ts_backward := false; ts_truncated := false;
     ts_availMem := maxKBytes * 1024 - chunk_space (memtupsize * 8); ts_allowedMem := maxKBytes * 1024;
     ts_tuples := 0; ts_myfile := None; ts_memtuples := []; ts_memtupdeleted := 0; ts_memtupsize := memtupsize;
     ts_growmemtuples := true; ts_block := None; ts_readptrs := [mkReadPtr eflags false 0 (0, 0)]; ts_activeptr := 0; ts_writepos := (0, 0) |}.

Definition tuplestore_begin_heap (randomAccess : bool) (maxKBytes : Z) : Tuplestorestate F :=
  tuplestore_begin_common (if randomAccess then Z.lor EXEC_FLAG_BACKWARD EXEC_FLAG_REWIND else EXEC_FLAG_REWIND) maxKBytes.

(** whether data has been inserted *)
Definition has_data st : bool := negb (bool_decide (ts_status st = TSS_INMEM)) || negb (ts_memtupcount st =? 0).

Definition tuplestore_set_eflags st (eflags : Z) : outcome (Tuplestorestate F) :=
  if has_data st then elog (lit "too late to call tuplestore_set_eflags")
  else
    match ts_readptrs st with
    | [] => UB
    | p :: ptrs =>
        Ok (set_eflags (set_readptrs st (mkReadPtr eflags (rp_eof p) (rp_current p) (rp_offset p) :: ptrs))
              (foldl Z.lor eflags (rp_eflags <$> ptrs)))
    end.

Definition tuplestore_alloc_read_pointer st (eflags : Z) : outcome (nat * Tuplestorestate F) :=
  if has_data st && negb (Z.lor (ts_eflags st) eflags =? ts_eflags st) then elog (lit "too late to require new tuplestore eflags")
  else
    p ← deref (head (ts_readptrs st));
    Ok (length (ts_readptrs st),
        set_eflags (set_readptrs st (ts_readptrs st ++ [mkReadPtr eflags (rp_eof p) (rp_current p) (rp_offset p)])) (Z.lor (ts_eflags st) eflags)).

(** ** Freeing *)

Definition free_tuple st (e : memtuple) : Tuplestorestate F :=
  match e with Some (false, t) => FREEMEM st (tuple_space t) | _ => st end.

Definition free_block st : Tuplestorestate F :=
  match ts_block st with Some space => set_block (FREEMEM st space) None | None => st end.

Definition tuplestore_clear st : Tuplestorestate F :=
  let st := free_block (foldl free_tuple st (drop (Z.to_nat (ts_memtupdeleted st)) (ts_memtuples st))) in
  {| ts_status := TSS_INMEM; ts_eflags := ts_eflags st; ts_backward := ts_backward st; ts_truncated := false;
     ts_availMem := ts_availMem st; ts_allowedMem := ts_allowedMem st; ts_tuples := 0; ts_myfile := None; ts_memtuples := [];
     ts_memtupdeleted := 0; ts_memtupsize := ts_memtupsize st; ts_growmemtuples := ts_growmemtuples st; ts_block := ts_block st;
     ts_readptrs := (fun p => with_current (with_eof p false) 0) <$> ts_readptrs st; ts_activeptr := ts_activeptr st;
     ts_writepos := ts_writepos st |}.

(** ** Tape interface *)

Definition getlen st (eofOK : bool) : outcome (Z * Tuplestorestate F) :=
  f ← file_of st;
  r ← tmp_read f 4 true eofOK;
  Ok (if Z.of_nat (length r.1) =? 0 then 0 else le_value r.1, set_file st r.2).

Definition writetup_heap st (inblock : bool) (tuple : list Z) : outcome (Tuplestorestate F) :=
  let tupbodylen := uint32 (Z.of_nat (length tuple)) in
  let tuplen := uint32 (tupbodylen + 4) in
  f ← file_of st;
  f ← tmp_write f (le_bytes 4 tuplen);
  f ← tmp_write f tuple;
  f ← (if ts_backward st then tmp_write f (le_bytes 4 tuplen) else Ok f);
  let st := set_file st f in
  Ok (if inblock then st else FREEMEM st (tuple_space tuple)).

Definition readtup_heap st (len : Z) : outcome (list Z * Tuplestorestate F) :=
  let tupbodylen := uint32 (len - 4) in
  let tuplen := uint32 (tupbodylen + MINIMAL_TUPLE_DATA_OFFSET) in
  let st := USEMEM st (chunk_space tuplen) in
  f ← file_of st;
  r ← tmp_read f tupbodylen true false;
  if ts_backward st then
    r' ← tmp_read r.2 4 true false;
    Ok (r.1, set_file st r'.2)
  else Ok (r.1, set_file st r.2).

(** ** Growing the array *)

Definition grow_memtuples st : outcome (bool * Tuplestorestate F) :=
  let memtupsize := ts_memtupsize st in
  let memNowUsed := ts_allowedMem st - ts_availMem st in
  let noalloc st := Ok (false, set_memtuples st (ts_memtuples st) (ts_memtupdeleted st) (ts_memtupsize st) false) in
  if negb (ts_growmemtuples st) then Ok (false, st)
  else
    r ← (if memNowUsed <=? ts_availMem st then
           Ok (if memtupsize <? INT_MAX / 2 then (memtupsize * 2, true) else (INT_MAX, false))
         else
           let grow_ratio := fdiv (float8_of_int (ts_allowedMem st)) (float8_of_int memNowUsed) in
           let new := fmul (float8_of_int memtupsize) grow_ratio in
           n ← (if flt new (float8_of_int INT_MAX) then
                  n ← deref (float8_to_int new);
                  if - 2 ^ 31 <=? n then Ok n else UB
                else Ok INT_MAX);
           Ok (n, false));
    let '(newmemtupsize, grow) := r in
    let st := set_memtuples st (ts_memtuples st) (ts_memtupdeleted st) memtupsize grow in
    if newmemtupsize <=? memtupsize then noalloc st
    else
      let '(newmemtupsize, grow) :=
        if MaxAllocHugeSize / 8 <=? newmemtupsize then (MaxAllocHugeSize / 8, false) else (newmemtupsize, grow) in
      let st := set_memtuples st (ts_memtuples st) (ts_memtupdeleted st) memtupsize grow in
      if ts_availMem st <? (newmemtupsize - memtupsize) * 8 then noalloc st
      else
        let st := FREEMEM st (chunk_space (memtupsize * 8)) in
        let st := set_memtuples st (ts_memtuples st) (ts_memtupdeleted st) newmemtupsize grow in
        let st := USEMEM st (chunk_space (newmemtupsize * 8)) in
        if LACKMEM st then elog (lit "unexpected out-of-memory situation in tuplestore") else Ok (true, st).

(** ** Writing *)

(** the read positions that are equal to tuple [i] become the file position *)
Definition tell_readptrs st (i : Z) : outcome (Tuplestorestate F) :=
  f ← file_of st;
  Ok (set_readptrs st ((fun p => if (i =? rp_current p) && negb (rp_eof p) then with_offset p (tmp_tell f) else p) <$> ts_readptrs st)).

Fixpoint dump_loop (entries : list memtuple) (i : Z) st : outcome (Tuplestorestate F) :=
  st ← tell_readptrs st i;
  match entries with
  | [] => Ok st
  | e :: entries =>
      t ← deref e;
      st ← writetup_heap st t.1 t.2;
      dump_loop entries (i + 1) st
  end.

Definition dumptuples st : outcome (Tuplestorestate F) :=
  st ← dump_loop (drop (Z.to_nat (ts_memtupdeleted st)) (ts_memtuples st)) (ts_memtupdeleted st) st;
  let st := free_block st in
  Ok (set_memtuples st [] 0 (ts_memtupsize st) (ts_growmemtuples st)).

(** read pointers at the end that are not active stay where they are *)
Definition leave_eof st (leave : TSReadPointer → TSReadPointer) : Tuplestorestate F :=
  set_readptrs st (imap (fun i p => if rp_eof p && negb (bool_decide (i = ts_activeptr st)) then leave (with_eof p false) else p) (ts_readptrs st)).

Definition tuplestore_puttuple_common st (tuple : list Z) : outcome (Tuplestorestate F) :=
  let st := set_tuples st (ts_tuples st + 1) in
  match ts_status st with
  | TSS_INMEM =>
      let st := leave_eof st (fun p => with_current p (ts_memtupcount st)) in
      st ← (if ts_memtupsize st - 1 <=? ts_memtupcount st then r ← grow_memtuples st; Ok r.2 else Ok st);
      if ts_memtupcount st <? ts_memtupsize st then
        let st := set_memtuples st (ts_memtuples st ++ [Some (false, tuple)]) (ts_memtupdeleted st) (ts_memtupsize st) (ts_growmemtuples st) in
        if (ts_memtupcount st <? ts_memtupsize st) && negb (LACKMEM st) then Ok st
        else dumptuples (begin_file st tmp_create)
      else UB
  | TSS_WRITEFILE =>
      f ← file_of st;
      writetup_heap (leave_eof st (fun p => with_offset p (tmp_tell f))) false tuple
  | TSS_READFILE =>
      p ← active st;
      f ← file_of st;
      let st := if rp_eof p then st else set_active st (with_offset p (tmp_tell f)) in
      st ← seek_to st (ts_writepos st);
      let st := set_status st TSS_WRITEFILE (ts_writepos st) in
      writetup_heap (leave_eof st (fun p => with_offset p (ts_writepos st))) false tuple
  end.

(** [tuplestore_puttupleslot], [tuplestore_puttuple] and [tuplestore_putvalues]
    differ in how they form the tuple *)
Definition tuplestore_puttuple st (tuple : list Z) : outcome (Tuplestorestate F) :=
  tuplestore_puttuple_common (USEMEM st (tuple_space tuple)) tuple.

(** the tuples of a block; [space] is that of its chunk *)
Definition tuplestore_putblock st (tuples : list (list Z)) (owned : bool) (space : Z) : outcome (Tuplestorestate F) :=
  let ntuples := Z.of_nat (length tuples) in
  let blocksize := if owned then space else 0 in
  if negb (bool_decide (ts_status st = TSS_INMEM)) || bool_decide (is_Some (ts_block st)) || (INT_MAX - ts_memtupcount st <=? ntuples)
     || (ts_availMem st <? blocksize + ntuples * 8)
  then
    (fix loop ts st {struct ts} :=
       match ts with
       | [] => Ok st
       | t :: ts => st ← tuplestore_puttuple_common (USEMEM st (tuple_space t)) t; loop ts st
       end) tuples st
  else
    let st := leave_eof st (fun p => with_current p (ts_memtupcount st)) in
    let st :=
      if ts_memtupsize st <=? ts_memtupcount st + ntuples then
        let st := FREEMEM st (chunk_space (ts_memtupsize st * 8)) in
        let size := ts_memtupcount st + ntuples + 1 in
        let st := set_memtuples st (ts_memtuples st) (ts_memtupdeleted st) size (ts_growmemtuples st) in
        USEMEM st (chunk_space (size * 8))
      else st in
    let st := USEMEM st blocksize in
    let st := set_memtuples st (ts_memtuples st ++ ((fun t => Some (true, t)) <$> tuples)) (ts_memtupdeleted st) (ts_memtupsize st) (ts_growmemtuples st) in
    let st := set_tuples st (ts_tuples st + ntuples) in
    Ok (set_block st (Some blocksize)).

(** ** Reading *)

(** a tuple, and whether the caller has to free it *)
Abbreviation fetched := (outcome (option (list Z * bool) * Tuplestorestate F)).

(** reads the tuple of length [tuplen] whose closing length word has been read *)
Definition read_back st (tuplen : Z) : fetched :=
  f ← file_of st;
  r ← tmp_seek f 0 (- tuplen) SEEK_CUR;
  if (r : bool * F).1 then t ← readtup_heap (set_file st r.2) tuplen; Ok (Some (t.1, true), t.2) else seek_failed.

(** the tuple before the one whose closing length word has been read *)
Definition read_before st (tuplen : Z) : fetched :=
  f ← file_of st;
  r ← tmp_seek f 0 (- (tuplen + 8)) SEEK_CUR;
  if (r : bool * F).1 then r ← getlen (set_file st r.2) false; read_back r.2 r.1
  else
    r ← tmp_seek r.2 0 (- (tuplen + 4)) SEEK_CUR;
    if (r : bool * F).1 then Ok (None, set_file st r.2) else seek_failed.

(** case [TSS_READFILE] *)
Definition gettuple_file st (forward : bool) : fetched :=
  readptr ← active st;
  if forward then
    r ← getlen st true;
    let '(tuplen, st) := r in
    if negb (tuplen =? 0) then t ← readtup_heap st tuplen; Ok (Some (t.1, true), t.2)
    else Ok (None, set_active st (with_eof readptr true))
  else
    f ← file_of st;
    r ← tmp_seek f 0 (- 4) SEEK_CUR;
    let st := set_file st r.2 in
    if (r : bool * F).1 then
      r ← getlen st false;
      let '(tuplen, st) := r in
      if rp_eof readptr then read_back (set_active st (with_eof readptr false)) tuplen
      else read_before st tuplen
    else Ok (None, set_active st (with_eof readptr false)).

(** [memtuples[i]]; a NULL entry is no tuple *)
Definition memtuple_at st (i : Z) : outcome (option (list Z * bool)) :=
  if i <? 0 then UB
  else e ← deref (ts_memtuples st !! Z.to_nat i); Ok (match e with Some (_, t) => Some (t, false) | None => None end).

(** case [TSS_INMEM] *)
Definition gettuple_mem st (forward : bool) : fetched :=
  readptr ← active st;
  if forward then
    if rp_eof readptr then Ok (None, st)
    else if rp_current readptr <? ts_memtupcount st then
      t ← memtuple_at st (rp_current readptr);
      Ok (t, set_active st (with_current readptr (rp_current readptr + 1)))
    else Ok (None, set_active st (with_eof readptr true))
  else if negb (rp_eof readptr) && (rp_current readptr <=? ts_memtupdeleted st) then Ok (None, st)
  else
    let readptr :=
      if rp_eof readptr then with_current (with_eof readptr false) (ts_memtupcount st) else with_current readptr (rp_current readptr - 1) in
    let st := set_active st readptr in
    if rp_current readptr <=? ts_memtupdeleted st then Ok (None, st)
    else t ← memtuple_at st (rp_current readptr - 1); Ok (t, st).

Definition tuplestore_gettuple st (forward : bool) : fetched :=
  match ts_status st with
  | TSS_INMEM => gettuple_mem st forward
  | TSS_WRITEFILE =>
      readptr ← active st;
      if rp_eof readptr && forward then Ok (None, st)
      else
        f ← file_of st;
        let writepos := tmp_tell f in
        st ← (if rp_eof readptr then Ok st else seek_to st (rp_offset readptr));
        gettuple_file (set_status st TSS_READFILE writepos) forward
  | TSS_READFILE => gettuple_file st forward
  end.

(** the tuple that the slot gets *)
Definition tuplestore_gettupleslot st (forward : bool) : outcome (option (list Z) * Tuplestorestate F) :=
  r ← tuplestore_gettuple st forward;
  Ok (match r.1 with Some (t, _) => Some t | None => None end, r.2).

(** freeing the tuple does not change the store *)
Definition tuplestore_advance st (forward : bool) : outcome (bool * Tuplestorestate F) :=
  r ← tuplestore_gettuple st forward;
  Ok (match r.1 with Some _ => true | None => false end, r.2).

Fixpoint skip_loop (ntuples : nat) st (forward : bool) : outcome (bool * Tuplestorestate F) :=
  match ntuples with
  | O => Ok (true, st)
  | S ntuples =>
      r ← tuplestore_gettuple st forward;
      match r.1 with None => Ok (false, r.2) | Some _ => skip_loop ntuples r.2 forward end
  end.

Definition tuplestore_skiptuples st (ntuples : Z) (forward : bool) : outcome (bool * Tuplestorestate F) :=
  if ntuples <=? 0 then Ok (true, st)
  else
    readptr ← active st;
    match ts_status st with
    | TSS_INMEM =>
        if forward then
          if rp_eof readptr then Ok (false, st)
          else if ntuples <=? ts_memtupcount st - rp_current readptr then Ok (true, set_active st (with_current readptr (rp_current readptr + ntuples)))
          else Ok (false, set_active st (with_eof (with_current readptr (ts_memtupcount st)) true))
        else
          let '(readptr, ntuples) :=
            if rp_eof readptr then (with_eof (with_current readptr (ts_memtupcount st)) false, ntuples - 1) else (readptr, ntuples) in
          if ntuples <? rp_current readptr - ts_memtupdeleted st then Ok (true, set_active st (with_current readptr (rp_current readptr - ntuples)))
          else Ok (false, set_active st (with_current readptr (ts_memtupdeleted st)))
    | _ => skip_loop (Z.to_nat ntuples) st forward
    end.

(** ** Read pointers *)

Definition tuplestore_rescan st : outcome (Tuplestorestate F) :=
  readptr ← active st;
  match ts_status st with
  | TSS_INMEM => Ok (set_active st (with_current (with_eof readptr false) 0))
  | TSS_WRITEFILE => Ok (set_active st (with_offset (with_eof readptr false) (0, 0)))
  | TSS_READFILE => seek_to (set_active st (with_eof readptr false)) (0, 0)
  end.

Definition tuplestore_select_read_pointer st (ptr : nat) : outcome (Tuplestorestate F) :=
  if bool_decide (ptr = ts_activeptr st) then Ok st
  else
    readptr ← deref (ts_readptrs st !! ptr);
    oldptr ← active st;
    st ← match ts_status st with
         | TSS_READFILE =>
             f ← file_of st;
             let st := if rp_eof oldptr then st else set_active st (with_offset oldptr (tmp_tell f)) in
             seek_to st (if rp_eof readptr then ts_writepos st else rp_offset readptr)
         | _ => Ok st
         end;
    Ok (set_activeptr st ptr).

Definition tuplestore_copy_read_pointer st (srcptr destptr : nat) : outcome (Tuplestorestate F) :=
  if bool_decide (srcptr = destptr) then Ok st
  else
    sptr ← deref (ts_readptrs st !! srcptr);
    dptr ← deref (ts_readptrs st !! destptr);
    let ptrs := <[destptr := sptr]> (ts_readptrs st) in
    let st := set_readptrs (if rp_eflags dptr =? rp_eflags sptr then st else set_eflags st (foldl Z.lor 0 (rp_eflags <$> ptrs))) ptrs in
    match ts_status st with
    | TSS_READFILE =>
        if bool_decide (destptr = ts_activeptr st) then seek_to st (if rp_eof sptr then ts_writepos st else rp_offset sptr)
        else if bool_decide (srcptr = ts_activeptr st) then
          f ← file_of st;
          Ok (if rp_eof sptr then st else set_readptrs st (<[destptr := with_offset sptr (tmp_tell f)]> (ts_readptrs st)))
        else Ok st
    | _ => Ok st
    end.

Definition tuplestore_ateof st : outcome bool := p ← active st; Ok (rp_eof p).

(** ** Trimming *)

Definition oldest_current st : Z := foldl (fun oldest p => if rp_eof p then oldest else Z.min oldest (rp_current p)) (ts_memtupcount st) (ts_readptrs st).

Definition tuplestore_trim st : Tuplestorestate F :=
  if has_flag (ts_eflags st) EXEC_FLAG_REWIND then st
  else if negb (bool_decide (ts_status st = TSS_INMEM)) then st
  else
    let nremove := oldest_current st - 1 in
    if nremove <=? 0 then st
    else
      let released := take (Z.to_nat nremove - Z.to_nat (ts_memtupdeleted st)) (drop (Z.to_nat (ts_memtupdeleted st)) (ts_memtuples st)) in
      let st := foldl free_tuple st released in
      let st := set_memtuples st (repeat None (Z.to_nat nremove) ++ drop (Z.to_nat nremove) (ts_memtuples st)) nremove (ts_memtupsize st) (ts_growmemtuples st) in
      let st := set_truncated st true in
      if nremove <? ts_memtupcount st / 8 then st
      else
        let st := set_memtuples st (drop (Z.to_nat nremove) (ts_memtuples st)) 0 (ts_memtupsize st) (ts_growmemtuples st) in
        set_readptrs st ((fun p => if rp_eof p then p else with_current p (rp_current p - nremove)) <$> ts_readptrs st).

Definition tuplestore_in_memory st : bool := bool_decide (ts_status st = TSS_INMEM).
End Tuplestore.
