(* ===== verification/TuplestoreSpec.v ===== *)
(** * What a tuplestore promises

    The abstract store: the tuples that have been added, and for each read
    pointer whether it is at the end of the store or which tuple it reads next.
    Trimming does not remove tuples here; it forbids to move back behind the
    floor.  [admissible] are the operations the refinement is about. *)

From S2P Require Import Prelude TempFile Tuplestore.

Record aptr := mkAPtr {
  ap_eflags : Z;
  ap_eof : bool;
  ap_pos : nat
}.

Record astore := mkAStore {
  as_tuples : list (list Z);
  as_eflags : Z;
  as_floor : nat;
  as_ptrs : list aptr;
  as_active : nat
}.

Definition a_begin (randomAccess : bool) : astore :=
  let eflags := if randomAccess then Z.lor EXEC_FLAG_BACKWARD EXEC_FLAG_REWIND else EXEC_FLAG_REWIND in
  mkAStore [] eflags 0 [mkAPtr eflags false 0] 0.

Definition a_set_ptrs (a : astore) (ptrs : list aptr) : astore := mkAStore (as_tuples a) (as_eflags a) (as_floor a) ptrs (as_active a).

Definition a_set_ptr (a : astore) (p : aptr) : astore := a_set_ptrs a (<[as_active a := p]> (as_ptrs a)).

(** added tuples follow the active read pointer if it is at the end, and no other *)
Definition a_put (a : astore) (ts : list (list Z)) : astore :=
  mkAStore (as_tuples a ++ ts) (as_eflags a) (as_floor a)
    (imap (fun i p => if ap_eof p && negb (bool_decide (i = as_active a)) then mkAPtr (ap_eflags p) false (length (as_tuples a)) else p) (as_ptrs a))
    (as_active a).

Definition a_get_forward (a : astore) (p : aptr) : option (list Z) * astore :=
  if ap_eof p then (None, a)
  else match as_tuples a !! ap_pos p with
       | Some t => (Some t, a_set_ptr a (mkAPtr (ap_eflags p) false (S (ap_pos p))))
       | None => (None, a_set_ptr a (mkAPtr (ap_eflags p) true (ap_pos p)))
       end.

(** the position after a step back: from the end to behind the last tuple *)
Definition a_back (a : astore) (p : aptr) : aptr := mkAPtr (ap_eflags p) false (if ap_eof p then length (as_tuples a) else ap_pos p - 1).

(** the tuple before a position *)
Definition a_before (a : astore) (i : nat) : option (list Z) := match i with O => None | S i => as_tuples a !! i end.

Definition a_get (a : astore) (p : aptr) (forward : bool) : option (list Z) * astore :=
  if forward then a_get_forward a p else let p := a_back a p in (a_before a (ap_pos p), a_set_ptr a p).

(** repeated fetches up to the first that finds no tuple *)
Fixpoint a_skip (n : nat) (a : astore) (forward : bool) : bool * astore :=
  match n with
  | O => (true, a)
  | S n =>
      match as_ptrs a !! as_active a with
      | None => (false, a)
      | Some p => match a_get a p forward with (None, a) => (false, a) | (Some _, a) => a_skip n a forward end
      end
  end.

Definition a_rescan (a : astore) (p : aptr) : astore := a_set_ptr a (mkAPtr (ap_eflags p) false 0).

(** the oldest position of a read pointer *)
Definition a_oldest (a : astore) : nat := foldl (fun oldest p => if ap_eof p then oldest else Nat.min oldest (ap_pos p)) (length (as_tuples a)) (as_ptrs a).

Definition a_trim (a : astore) : astore :=
  if has_flag (as_eflags a) EXEC_FLAG_REWIND then a
  else mkAStore (as_tuples a) (as_eflags a) (Nat.max (as_floor a) (a_oldest a - 1)) (as_ptrs a) (as_active a).

Definition a_clear (a : astore) : astore :=
  mkAStore [] (as_eflags a) 0 ((fun p => mkAPtr (ap_eflags p) false 0) <$> as_ptrs a) (as_active a).

Definition a_set_eflags (a : astore) (eflags : Z) : outcome astore :=
  if bool_decide (as_tuples a = []) then
    match as_ptrs a with
    | [] => UB
    | p :: ptrs =>
        Ok (mkAStore (as_tuples a) (foldl Z.lor eflags (ap_eflags <$> ptrs)) (as_floor a) (mkAPtr eflags (ap_eof p) (ap_pos p) :: ptrs) (as_active a))
    end
  else elog (lit "too late to call tuplestore_set_eflags").

Definition a_alloc (a : astore) (eflags : Z) : outcome (nat * astore) :=
  if negb (bool_decide (as_tuples a = [])) && negb (Z.lor (as_eflags a) eflags =? as_eflags a)
  then elog (lit "too late to require new tuplestore eflags")
  else
    p ← deref (head (as_ptrs a));
    Ok (length (as_ptrs a),
        mkAStore (as_tuples a) (Z.lor (as_eflags a) eflags) (as_floor a) (as_ptrs a ++ [mkAPtr eflags (ap_eof p) (ap_pos p)]) (as_active a)).

Definition a_select (a : astore) (i : nat) : astore := mkAStore (as_tuples a) (as_eflags a) (as_floor a) (as_ptrs a) i.

Definition a_copy (a : astore) (src dst : nat) (s d : aptr) : astore :=
  if bool_decide (src = dst) then a
  else
    let ptrs := <[dst := s]> (as_ptrs a) in
    mkAStore (as_tuples a) (if ap_eflags d =? ap_eflags s then as_eflags a else foldl Z.lor 0 (ap_eflags <$> ptrs)) (as_floor a) ptrs (as_active a).

(** ** Operations *)

Inductive ts_op :=
| Put (t : list Z)
| PutBlock (ts : list (list Z)) (owned : bool) (space : Z)
| Get (forward : bool)
| Advance (forward : bool)
| Skip (n : Z) (forward : bool)
| Rescan
| Select (i : nat)
| Copy (src dst : nat)
| SetEflags (eflags : Z)
| Alloc (eflags : Z)
| Trim
| Clear
| AtEof
| Count.

Inductive ts_result :=
| RDone
| RTuple (t : option (list Z))
| RBool (b : bool)
| RPointer (i : nat)
| RNumber (n : Z).

Definition a_run (a : astore) (op : ts_op) : outcome (ts_result * astore) :=
  p ← deref (as_ptrs a !! as_active a);
  match op with
  | Put t => Ok (RDone, a_put a [t])
  | PutBlock ts _ _ => Ok (RDone, a_put a ts)
  | Get forward => let '(t, a) := a_get a p forward in Ok (RTuple t, a)
  | Advance forward => let '(t, a) := a_get a p forward in Ok (RBool (match t with Some _ => true | None => false end), a)
  | Skip n forward => let '(b, a) := a_skip (Z.to_nat n) a forward in Ok (RBool b, a)
  | Rescan => Ok (RDone, a_rescan a p)
  | Select i => Ok (RDone, a_select a i)
  | Copy src dst => s ← deref (as_ptrs a !! src); d ← deref (as_ptrs a !! dst); Ok (RDone, a_copy a src dst s d)
  | SetEflags eflags => a ← a_set_eflags a eflags; Ok (RDone, a)
  | Alloc eflags => r ← a_alloc a eflags; Ok (RPointer r.1, r.2)
  | Trim => Ok (RDone, a_trim a)
  | Clear => Ok (RDone, a_clear a)
  | AtEof => Ok (RBool (ap_eof p), a)
  | Count => Ok (RNumber (Z.of_nat (length (as_tuples a))), a)
  end.

(** a tuple has the size of a chunk *)
Definition tuple_ok (t : list Z) : Prop := Z.of_nat (length t) + MINIMAL_TUPLE_DATA_OFFSET < 2 ^ 32.

(** moving back by [n] tuples stays above the floor, if there is one *)
Definition back_ok (a : astore) (p : aptr) (n : nat) : Prop :=
  has_flag (ap_eflags p) EXEC_FLAG_BACKWARD = true
  ∧ (as_floor a = 0 ∨ as_floor a + n < if ap_eof p then S (length (as_tuples a)) else ap_pos p)%nat.

(** The operations the refinement is about.  The code asserts the flags of the
    pointers, that they exist, and that moving back stays above what has been
    trimmed.  It does not check that a block has a tuple, nor that pointer 0 is
    up to date when it is copied by [Alloc]; without these two conditions what
    the store returns depends on whether it is in memory or in a file. *)
Definition admissible (a : astore) (op : ts_op) : Prop :=
  match op with
  | Put t => tuple_ok t
  | PutBlock ts _ _ => ts ≠ [] ∧ Forall tuple_ok ts
  | Get forward | Advance forward => forward = false → ∀ p, as_ptrs a !! as_active a = Some p → back_ok a p 1
  | Skip n forward => forward = false → ∀ p, as_ptrs a !! as_active a = Some p → back_ok a p (Z.to_nat n)
  | Rescan => ∀ p, as_ptrs a !! as_active a = Some p → has_flag (ap_eflags p) EXEC_FLAG_REWIND = true
  | Select i => (i < length (as_ptrs a))%nat
  | Copy src dst => (src < length (as_ptrs a))%nat ∧ (dst < length (as_ptrs a))%nat
  | Alloc _ => as_tuples a = [] ∨ as_active a ≠ 0%nat ∨ ∃ p, as_ptrs a !! 0%nat = Some p ∧ ap_eof p = true
  | _ => True
  end.

(** ** The implementation *)

Section Concrete.
Context {F : Type} `{TempFile F} (chunk_space : Z → Z).

Definition ts_run (st : Tuplestorestate F) (op : ts_op) : outcome (ts_result * Tuplestorestate F) :=
  match op with
  | Put t => st ← tuplestore_puttuple chunk_space st t; Ok (RDone, st)
  | PutBlock ts owned space => st ← tuplestore_putblock chunk_space st ts owned space; Ok (RDone, st)
  | Get forward => r ← tuplestore_gettupleslot chunk_space st forward; Ok (RTuple r.1, r.2)
  | Advance forward => r ← tuplestore_advance chunk_space st forward; Ok (RBool r.1, r.2)
  | Skip n forward => r ← tuplestore_skiptuples chunk_space st n forward; Ok (RBool r.1, r.2)
  | Rescan => st ← tuplestore_rescan st; Ok (RDone, st)
  | Select i => st ← tuplestore_select_read_pointer st i; Ok (RDone, st)
  | Copy src dst => st ← tuplestore_copy_read_pointer st src dst; Ok (RDone, st)
  | SetEflags eflags => st ← tuplestore_set_eflags st eflags; Ok (RDone, st)
  | Alloc eflags => r ← tuplestore_alloc_read_pointer st eflags; Ok (RPointer r.1, r.2)
  | Trim => Ok (RDone, tuplestore_trim chunk_space st)
  | Clear => Ok (RDone, tuplestore_clear chunk_space st)
  | AtEof => b ← tuplestore_ateof st; Ok (RBool b, st)
  | Count => Ok (RNumber (ts_tuples st), st)
  end.
End Concrete.

(** a sequence of operations, up to the first error *)
Fixpoint run_ops {S} (run : S → ts_op → outcome (ts_result * S)) (s : S) (ops : list ts_op) : outcome (list ts_result) :=
  match ops with
  | [] => Ok []
  | op :: ops => r ← run s op; rs ← run_ops run r.2 ops; Ok (r.1 :: rs)
  end.

Fixpoint admissible_ops (a : astore) (ops : list ts_op) : Prop :=
  match ops with
  | [] => True
  | op :: ops => admissible a op ∧ match a_run a op with Ok (_, a') => admissible_ops a' ops | _ => True end
  end.
