(* ===== verification/TuplestoreFile.v ===== *)
(** * Tuples in a temporary file

    The contents of the file of a tuplestore, and what reading at the boundary
    of a tuple does, forward and backward; then the invariant of the abstract
    store. *)

From S2P Require Import Prelude Float8 TempFile Tuplestore TuplestoreSpec.

(** ** Encoding *)

(** the length word of a tuple counts itself *)
Definition tuple_word (t : list Z) : Z := Z.of_nat (length t) + 4.

(** a tuple in a file; the length is repeated if the file can be read backward *)
Definition enc (b : bool) (t : list Z) : list Z :=
  le_bytes 4 (tuple_word t) ++ t ++ (if b then le_bytes 4 (tuple_word t) else []).

Definition encode (b : bool) (ts : list (list Z)) : list Z := concat (enc b <$> ts).

(** the position of tuple [i] *)
Definition off (b : bool) (ts : list (list Z)) (i : nat) : Z := Z.of_nat (length (encode b (take i ts))).

Lemma encode_app b ts us : encode b (ts ++ us) = encode b ts ++ encode b us.
Proof. unfold encode. by rewrite fmap_app, concat_app. Qed.

Lemma encode_single b t : encode b [t] = enc b t.
Proof. unfold encode. cbn. by rewrite app_nil_r. Qed.

Lemma encode_split b ts i t :
  ts !! i = Some t → encode b ts = encode b (take i ts) ++ enc b t ++ encode b (drop (S i) ts).
Proof. intros Hi. rewrite <- encode_single, <- !encode_app. f_equal. symmetry. by apply take_drop_middle. Qed.

Lemma off_0 b ts : off b ts 0 = 0.
Proof. done. Qed.

Lemma off_nonneg b ts i : 0 ≤ off b ts i.
Proof. unfold off. lia. Qed.

Lemma off_S b ts i t : ts !! i = Some t → off b ts (S i) = off b ts i + Z.of_nat (length (enc b t)).
Proof. intros Hi. unfold off. erewrite take_S_r by done. rewrite encode_app, encode_single, length_app. lia. Qed.

Lemma off_end b ts i : (length ts ≤ i)%nat → off b ts i = Z.of_nat (length (encode b ts)).
Proof. intros Hi. unfold off. by rewrite take_ge. Qed.

Lemma off_le b ts i : off b ts i ≤ Z.of_nat (length (encode b ts)).
Proof. unfold off. rewrite <- (take_drop i ts) at 2. rewrite encode_app, length_app. lia. Qed.

(** positions before the end do not move when tuples are added *)
Lemma off_app b ts us i : (i ≤ length ts)%nat → off b (ts ++ us) i = off b ts i.
Proof. intros Hi. unfold off. by rewrite take_app_le. Qed.

Lemma length_enc b t : Z.of_nat (length (enc b t)) = Z.of_nat (length t) + if b then 8 else 4.
Proof. unfold enc. rewrite !length_app, length_le_bytes. destruct b; rewrite ?length_le_bytes; cbn; lia. Qed.

(** ** Reading *)

Section Read.
Context {F : Type} `{TempFileLaws F} (chunk_space : Z → Z).
Implicit Types (st : Tuplestorestate F) (f : F).

(** reading changes the file position and the memory account *)
Definition with_file st (m : Z) f : Tuplestorestate F := set_file (set_availMem st m) f.

(** reading what the file has at its position *)
Lemma read_at f bs pre data post eofOK :
  bs = pre ++ data ++ post → file_at f bs (Z.of_nat (length pre)) →
  ∃ f', tmp_read f (Z.of_nat (length data)) true eofOK = Ok (data, f') ∧ file_at f' bs (Z.of_nat (length pre + length data)).
Proof.
  intros Hb Ht. pose proof (file_read f bs _ (Z.of_nat (length data)) true eofOK Ht ltac:(lia)) as Hr. cbn zeta in Hr.
  rewrite Hb, !Nat2Z.id, drop_app_length, take_app_length, Z.eqb_refl in Hr. cbn in Hr. by rewrite Hb, Nat2Z.inj_add.
Qed.

Lemma getlen_word st f bs pre w post eofOK :
  ts_myfile st = Some f → bs = pre ++ le_bytes 4 w ++ post → file_at f bs (Z.of_nat (length pre)) → 0 ≤ w < 2 ^ 32 →
  ∃ f', getlen st eofOK = Ok (w, set_file st f') ∧ file_at f' bs (Z.of_nat (length pre) + 4).
Proof.
  intros Hf Hb Ht Hw. destruct (read_at f bs pre _ post eofOK Hb Ht) as (f' & Hr & Ht'). rewrite length_le_bytes in Hr, Ht'.
  change (Z.of_nat 4) with 4 in Hr. exists f'. unfold getlen, file_of. rewrite Hf. cbn [deref mbind outcome_bind]. rewrite Hr. cbn [mbind outcome_bind fst snd].
  rewrite length_le_bytes, value_le_bytes by (change (256 ^ Z.of_nat 4) with (2 ^ 32); lia). cbn. rewrite Nat2Z.inj_add in Ht'. done.
Qed.

Lemma getlen_end st f bs p :
  ts_myfile st = Some f → file_at f bs p → p = Z.of_nat (length bs) → ∃ f', getlen st true = Ok (0, set_file st f') ∧ file_at f' bs p.
Proof.
  intros Hf Ht ->. pose proof (file_read f bs _ 4 true true Ht ltac:(lia)) as Hr. cbn zeta in Hr.
  rewrite Nat2Z.id, drop_all, take_nil in Hr. cbn in Hr. destruct Hr as (f' & Hr & Ht'). rewrite Z.add_0_r in Ht'.
  exists f'. unfold getlen, file_of. rewrite Hf. cbn [deref mbind outcome_bind]. rewrite Hr. done.
Qed.

Lemma readtup_at st f bs pre t post :
  ts_myfile st = Some f → tuple_ok t → file_at f bs (Z.of_nat (length pre)) →
  bs = pre ++ t ++ (if ts_backward st then le_bytes 4 (tuple_word t) else []) ++ post →
  ∃ m f', readtup_heap chunk_space st (tuple_word t) = Ok (t, with_file st m f')
          ∧ file_at f' bs (Z.of_nat (length pre) + Z.of_nat (length t) + if ts_backward st then 4 else 0).
Proof.
  intros Hf Hok Ht Hb. unfold tuple_ok, MINIMAL_TUPLE_DATA_OFFSET in Hok. unfold readtup_heap, tuple_word.
  replace (Z.of_nat (length t) + 4 - 4) with (Z.of_nat (length t)) by lia. rewrite (uint32_small (Z.of_nat (length t))) by (unfold PG_UINT32_MAX; lia).
  unfold file_of. cbn [USEMEM set_availMem ts_myfile ts_backward]. rewrite Hf. cbn [deref mbind outcome_bind].
  destruct (read_at f bs pre t _ false Hb Ht) as (f1 & Hr1 & Ht1). rewrite Hr1. cbn [mbind outcome_bind fst snd].
  destruct (ts_backward st) eqn:Hback.
  - rewrite app_assoc in Hb. rewrite <- length_app in Ht1.
    destruct (read_at f1 bs (pre ++ t) _ _ false Hb Ht1) as (f2 & Hr2 & Ht2).
    rewrite length_le_bytes in Hr2, Ht2. change (Z.of_nat 4) with 4 in Hr2. rewrite Hr2. cbn [mbind outcome_bind].
    eexists _, f2. split; [reflexivity|]. rewrite length_app in Ht2. by replace (_ + 4) with (Z.of_nat (length pre + length t + 4)) by lia.
  - eexists _, f1. split; [reflexivity|]. by replace (_ + 0) with (Z.of_nat (length pre + length t)) by lia.
Qed.

(** ** Fetching at a tuple boundary *)

Context (st : Tuplestorestate F) (f : F) (p : TSReadPointer) (ts : list (list Z)).
Context (Hfile : ts_myfile st = Some f) (Hactive : ts_readptrs st !! ts_activeptr st = Some p) (Hok : Forall tuple_ok ts).

Abbreviation pos i := (off (ts_backward st) ts i).
Abbreviation bytes := (encode (ts_backward st) ts).

Lemma tuple_word_range t : tuple_ok t → 0 ≤ tuple_word t < 2 ^ 32.
Proof. unfold tuple_ok, MINIMAL_TUPLE_DATA_OFFSET, tuple_word. lia. Qed.

Lemma fetch_forward i t :
  file_at f bytes (pos i) → ts !! i = Some t →
  ∃ m f', gettuple_file chunk_space st true = Ok (Some (t, true), with_file st m f') ∧ file_at f' bytes (pos (S i)).
Proof.
  intros Ht Hi. pose proof (Forall_lookup_1 _ _ _ _ Hok Hi) as Hti. pose proof (tuple_word_range t Hti) as Hw.
  pose proof (encode_split (ts_backward st) ts i t Hi) as He. unfold enc in He. rewrite <- !app_assoc in He.
  unfold gettuple_file, active. rewrite Hactive. cbn [deref mbind outcome_bind].
  destruct (getlen_word st f bytes _ (tuple_word t) _ true Hfile He Ht Hw) as (f1 & Hg & Ht1).
  rewrite Hg. cbn [mbind outcome_bind]. replace (tuple_word t =? 0) with false by (symmetry; apply Z.eqb_neq; unfold tuple_word; lia). cbn [negb].
  edestruct (readtup_at (set_file st f1) f1 bytes (encode (ts_backward st) (take i ts) ++ le_bytes 4 (tuple_word t)) t) as (m & f2 & Hr & Ht2).
  { done. } { done. } { rewrite length_app, length_le_bytes, Nat2Z.inj_add. exact Ht1. } { rewrite <- app_assoc. exact He. }
  rewrite Hr. exists m, f2. split; [done|]. rewrite (off_S _ _ _ t), length_enc by done. cbn [set_file ts_backward] in Ht2. unfold off.
  rewrite length_app, length_le_bytes in Ht2.
  match goal with H : file_at f2 _ ?x |- file_at f2 _ ?y => replace y with x; [done|destruct (ts_backward st); lia] end.
Qed.

Lemma fetch_forward_end i :
  file_at f bytes (pos i) → (length ts ≤ i)%nat →
  ∃ f', gettuple_file chunk_space st true = Ok (None, set_active (set_file st f') (with_eof p true)) ∧ file_at f' bytes (pos i).
Proof.
  intros Ht Hi. unfold gettuple_file, active. rewrite Hactive. cbn [deref mbind outcome_bind].
  destruct (getlen_end st f bytes _ Hfile Ht) as (f1 & Hg & Ht1); [by apply off_end|]. rewrite Hg. cbn. by exists f1.
Qed.

(** stepping back over the closing length word of a tuple *)
Lemma closing_word i t g q d :
  ts_backward st = true → ts !! i = Some t → file_at g bytes q → q + d = pos (S i) - 4 →
  ∃ g1, tmp_seek g 0 d SEEK_CUR = Ok (true, g1) ∧
    ∀ st', ts_myfile st' = Some g1 → ∃ g2, getlen st' false = Ok (tuple_word t, set_file st' g2) ∧ file_at g2 bytes (pos (S i)).
Proof.
  intros Hb Hi Hg Hd. pose proof (Forall_lookup_1 _ _ _ _ Hok Hi) as Hti. pose proof (tuple_word_range t Hti) as Hw.
  pose proof (off_S (ts_backward st) ts i t Hi) as HS. rewrite length_enc, Hb in HS. pose proof (off_nonneg true ts i).
  pose proof (off_le true ts (S i)) as Hle. rewrite Hb in Hd, Hg |- *.
  destruct (file_seek_cur g _ q d Hg) as (g1 & Hs & Ht1); [lia|]. exists g1. split; [done|]. intros st' Hst'.
  pose proof (encode_split true ts i t Hi) as He. unfold enc in He.
  edestruct (getlen_word st' g1 (encode true ts) (encode true (take i ts) ++ le_bytes 4 (tuple_word t) ++ t) (tuple_word t)) as (g2 & Hr & Ht2);
    [done|rewrite He, <- !app_assoc; done| |done|].
  { match goal with H : file_at g1 _ ?x |- file_at g1 _ ?y => replace y with x; [done|] end.
    rewrite Hd, HS. unfold off. rewrite !length_app, length_le_bytes. lia. }
  exists g2. split; [exact Hr|]. match goal with H : file_at g2 _ ?x |- file_at g2 _ ?y => replace y with x; [done|] end.
  rewrite !length_app, length_le_bytes, HS. unfold off. lia.
Qed.

(** reading the tuple before a position *)
Lemma read_back_at st' g i t :
  ts_backward st' = true → ts_backward st = true → ts_myfile st' = Some g → ts !! i = Some t → file_at g bytes (pos (S i)) →
  ∃ m g', read_back chunk_space st' (tuple_word t) = Ok (Some (t, true), with_file st' m g') ∧ file_at g' bytes (pos (S i)).
Proof.
  intros Hb' Hb Hf Hi Ht. pose proof (Forall_lookup_1 _ _ _ _ Hok Hi) as Hti.
  pose proof (off_S (ts_backward st) ts i t Hi) as HS. rewrite length_enc, Hb in HS. pose proof (off_nonneg true ts i).
  pose proof (off_le true ts (S i)) as Hle. rewrite Hb in Ht |- *. unfold read_back, file_of. rewrite Hf. cbn [deref mbind outcome_bind].
  destruct (file_seek_cur g _ _ (- tuple_word t) Ht) as (g1 & Hs & Ht1); [unfold tuple_word; lia|].
  rewrite Hs. cbn [mbind outcome_bind fst snd]. pose proof (encode_split true ts i t Hi) as He. unfold enc in He.
  edestruct (readtup_at (set_file st' g1) g1 (encode true ts) (encode true (take i ts) ++ le_bytes 4 (tuple_word t)) t) as (m & g2 & Hr & Ht2).
  { done. } { done. }
  { match goal with H : file_at g1 _ ?x |- file_at g1 _ ?y => replace y with x; [done|] end.
    rewrite HS, length_app, length_le_bytes. unfold off, tuple_word. lia. }
  { cbn [set_file ts_backward]. rewrite Hb', He, <- !app_assoc. done. }
  cbn [set_file ts_backward] in Ht2. rewrite Hb' in Ht2. rewrite Hr. exists m, g2. split; [done|].
  match goal with H : file_at g2 _ ?x |- file_at g2 _ ?y => replace y with x; [done|] end.
  rewrite length_app, length_le_bytes, HS. unfold off. lia.
Qed.

Lemma set_active_id : set_active st p = st.
Proof. unfold set_active. rewrite list_insert_id by done. by destruct st. Qed.

Lemma with_eof_id : with_eof p (rp_eof p) = p.
Proof. by destruct p. Qed.

(** what a fetch at boundary [i] returns, whether the pointer is at the end
    afterwards, and the boundary where it stands then *)
Definition fetch_at (forward eof : bool) (i : nat) : option (list Z) * bool * nat :=
  if forward then match ts !! i with Some t => (Some t, eof, S i) | None => (None, true, i) end
  else
    let i := if eof then i else (i - 1)%nat in
    (match i with O => None | S j => ts !! j end, false, i).

Lemma fetch_backward_eof i :
  ts_backward st = true → rp_eof p = true → file_at f bytes (pos i) → i = length ts →
  ∃ m f', gettuple_file chunk_space st false
          = Ok (match i with O => None | S j => (fun t => (t, true)) <$> ts !! j end, with_file (set_active st (with_eof p false)) m f')
          ∧ file_at f' bytes (pos i).
Proof.
  intros Hb Heof Ht Hi. unfold gettuple_file, active, file_of. rewrite Hactive, Hfile. cbn [deref mbind outcome_bind].
  destruct i as [|j].
  - destruct (file_seek_before f _ _ (- 4) Ht) as (f1 & -> & Ht1); [rewrite off_0; lia|]. by exists (ts_availMem st), f1.
  - destruct (lookup_lt_is_Some_2 ts j) as [t Hj]; [lia|]. rewrite Hj. cbn [fmap option_fmap option_map].
    destruct (closing_word j t f _ (- 4) Hb Hj Ht) as (g1 & Hs & Hg); [lia|]. rewrite Hs. cbn [mbind outcome_bind fst snd].
    destruct (Hg (set_file st g1)) as (g2 & Hr & Ht2); [done|]. rewrite Hr. cbn [mbind outcome_bind]. rewrite Heof.
    match goal with |- context [read_back _ ?s _] => destruct (read_back_at s g2 j t) as (m & g3 & Hrb & Ht3); try done end.
    rewrite Hrb. by exists m, g3.
Qed.

Lemma fetch_backward i :
  ts_backward st = true → rp_eof p = false → file_at f bytes (pos i) → (i ≤ length ts)%nat →
  ∃ m f', gettuple_file chunk_space st false
          = Ok (match (i - 1)%nat with O => None | S j => (fun t => (t, true)) <$> ts !! j end, with_file st m f')
          ∧ file_at f' bytes (pos (i - 1)).
Proof.
  intros Hb Heof Ht Hi. unfold gettuple_file, active, file_of. rewrite Hactive, Hfile. cbn [deref mbind outcome_bind].
  destruct i as [|j].
  { destruct (file_seek_before f _ _ (- 4) Ht) as (f1 & -> & Ht1); [rewrite off_0; lia|]. exists (ts_availMem st), f1. split; [|done].
    cbn [mbind outcome_bind fst snd Nat.sub]. rewrite <- Heof, with_eof_id. pose proof set_active_id as Hid.
    change (set_active (set_file st f1) p) with (set_file (set_active st p) f1). rewrite Hid. by destruct st. }
  destruct (lookup_lt_is_Some_2 ts j) as [t Hj]; [lia|]. pose proof (off_S (ts_backward st) ts j t Hj) as HS. rewrite length_enc, Hb in HS.
  destruct (closing_word j t f _ (- 4) Hb Hj Ht) as (g1 & Hs & Hg); [lia|]. rewrite Hs. cbn [mbind outcome_bind fst snd].
  destruct (Hg (set_file st g1)) as (g2 & Hr & Ht2); [done|]. rewrite Hr. cbn [mbind outcome_bind]. rewrite Heof.
  unfold read_before, file_of. cbn [set_file ts_myfile deref mbind outcome_bind]. replace (S j - 1)%nat with j by lia. destruct j as [|j].
  - destruct (file_seek_before g2 _ _ (- (tuple_word t + 8)) Ht2) as (g3 & -> & Ht3); [rewrite Hb, HS, off_0; unfold tuple_word; lia|].
    cbn [mbind outcome_bind fst snd]. destruct (file_seek_cur g3 _ _ (- (tuple_word t + 4)) Ht3) as (g4 & -> & Ht4).
    { rewrite Hb, HS, off_0. pose proof (off_le true ts 1). rewrite HS, off_0 in *. unfold tuple_word. lia. }
    exists (ts_availMem st), g4. split; [by destruct st|]. rewrite off_0. rewrite Hb in Ht4 |- *. rewrite HS, off_0 in Ht4.
    match goal with H : file_at g4 _ ?x |- file_at g4 _ ?y => replace y with x; [done|] end. unfold tuple_word. lia.
  - destruct (lookup_lt_is_Some_2 ts j) as [u Hu]; [lia|]. rewrite Hu. cbn [fmap option_fmap option_map].
    destruct (closing_word j u g2 _ (- (tuple_word t + 8)) Hb Hu Ht2) as (g3 & Hs3 & Hg3); [rewrite Hb, HS; unfold tuple_word; lia|].
    rewrite Hs3. cbn [mbind outcome_bind fst snd]. match goal with |- context [getlen ?s _] => destruct (Hg3 s) as (g4 & Hr4 & Ht4); [done|] end.
    rewrite Hr4. cbn [mbind outcome_bind fst snd].
    match goal with |- context [read_back _ ?s _] => destruct (read_back_at s g4 j u) as (m & g5 & Hrb & Ht5); try done end.
    rewrite Hrb. by exists m, g5.
Qed.

Lemma fetch_spec forward i :
  file_at f bytes (pos i) → (i ≤ length ts)%nat → (rp_eof p = true → i = length ts) → (forward = false → ts_backward st = true) →
  ∃ m f', gettuple_file chunk_space st forward
          = Ok ((fun t => (t, true)) <$> (fetch_at forward (rp_eof p) i).1.1, with_file (set_active st (with_eof p (fetch_at forward (rp_eof p) i).1.2)) m f')
          ∧ file_at f' bytes (pos (fetch_at forward (rp_eof p) i).2).
Proof.
  intros Ht Hi Heof Hback. unfold fetch_at. destruct forward.
  - destruct (ts !! i) as [t|] eqn:Hti; cbn [fst snd].
    + rewrite with_eof_id, set_active_id. destruct (fetch_forward i t Ht Hti) as (m & f' & -> & ?). by exists m, f'.
    + destruct (fetch_forward_end i Ht) as (f' & Hr & Ht'); [by apply lookup_ge_None_1|]. exists (ts_availMem st), f'. by rewrite Hr.
  - destruct (rp_eof p) eqn:He; cbn [fst snd].
    + destruct (fetch_backward_eof i) as (m & f' & Hr & ?); [by apply Hback|done|done|by apply Heof|]. exists m, f'. rewrite Hr. destruct i; done.
    + destruct (fetch_backward i) as (m & f' & Hr & ?); [by apply Hback|done|done|done|].
      exists m, f'. rewrite Hr, <- He, with_eof_id, set_active_id. destruct (i - 1)%nat; done.
Qed.
End Read.

(** ** Writing *)

Section WriteFile.
Context {F : Type} `{TempFileLaws F} (chunk_space : Z → Z).
Implicit Types (st : Tuplestorestate F) (f : F).

(** the file has these bytes and is at its end *)
Abbreviation at_end f bs := (file_at f bs (Z.of_nat (length bs))).

Lemma writetup_spec st f bs inblock t :
  ts_myfile st = Some f → at_end f bs → tuple_ok t →
  ∃ m f', writetup_heap chunk_space st inblock t = Ok (with_file st m f') ∧ at_end f' (bs ++ enc (ts_backward st) t).
Proof.
  intros Hf Ht Hok. unfold tuple_ok, MINIMAL_TUPLE_DATA_OFFSET in Hok. unfold writetup_heap.
  rewrite (uint32_small (Z.of_nat (length t))), (uint32_small (Z.of_nat (length t) + 4)) by (unfold PG_UINT32_MAX; lia).
  fold (tuple_word t). unfold file_of. rewrite Hf. cbn [deref mbind outcome_bind].
  destruct (file_write f bs (le_bytes 4 (tuple_word t)) Ht) as (f1 & -> & Ht1). cbn [mbind outcome_bind].
  destruct (file_write f1 _ t Ht1) as (f2 & -> & Ht2). cbn [mbind outcome_bind].
  destruct (file_write f2 _ (le_bytes 4 (tuple_word t)) Ht2) as (f3 & -> & Ht3). unfold enc. rewrite <- app_assoc in Ht2. rewrite <- !app_assoc in Ht3.
  destruct (ts_backward st); cbn [mbind outcome_bind]; rewrite ?app_nil_r;
    (eexists (if inblock then ts_availMem st else _), _; split; [destruct inblock; [by destruct st|reflexivity]|done]).
Qed.

(** a read position in the array becomes one in the file *)
Definition dumped (b : bool) (base : Z) (ts : list (list Z)) (i : Z) (p p' : TSReadPointer) : Prop :=
  ∃ o, p' = with_offset p o ∧
    if negb (rp_eof p) && (i <=? rp_current p) && (rp_current p <=? i + Z.of_nat (length ts))
    then points_to o (base + off b ts (Z.to_nat (rp_current p - i))) else o = rp_offset p.

Lemma dumped_here b base i p o :
  points_to o base → dumped b base [] i p (if (i =? rp_current p) && negb (rp_eof p) then with_offset p o else p).
Proof.
  intros Ho. unfold dumped. cbn [length]. rewrite Z.add_0_r, andb_comm. destruct p as [e eof c o']. destruct eof; cbn [negb andb rp_eof rp_current].
  { by eexists. }
  destruct (Z.eqb_spec i c) as [<-|Hne].
  - rewrite Z.leb_refl, Z.sub_diag. change (off b [] (Z.to_nat 0)) with 0. rewrite Z.add_0_r. by exists o.
  - exists o'. split; [done|]. destruct (Z.leb_spec i c), (Z.leb_spec c i); cbn; try done. lia.
Qed.

Lemma dumped_step b base t ts i p p' o :
  points_to o base →
  dumped b (base + Z.of_nat (length (enc b t))) ts (i + 1) (if (i =? rp_current p) && negb (rp_eof p) then with_offset p o else p) p' →
  dumped b base (t :: ts) i p p'.
Proof.
  intros Ho. unfold dumped. destruct p as [e eof c o']. destruct eof; cbn [negb andb rp_eof rp_current rp_offset].
  { rewrite andb_false_r. cbn. intros (o1 & -> & ->). by eexists. }
  rewrite andb_true_r. destruct (Z.eqb_spec i c) as [<-|Hne]; cbn [with_offset rp_eof rp_current rp_offset rp_eflags negb andb].
  - intros (o1 & -> & Ho1). replace (i + 1 <=? i) with false in Ho1 by (symmetry; apply Z.leb_gt; lia). cbn in Ho1. subst o1.
    exists o. split; [done|]. rewrite Z.leb_refl. replace (i <=? i + _) with true by (symmetry; apply Z.leb_le; lia).
    rewrite Z.sub_diag. change (off b (t :: ts) (Z.to_nat 0)) with 0. by rewrite Z.add_0_r.
  - replace (i + 1 <=? c) with (i <=? c) by (destruct (Z.leb_spec i c), (Z.leb_spec (i + 1) c); lia).
    replace (c <=? i + Z.of_nat (length (t :: ts))) with (c <=? i + 1 + Z.of_nat (length ts)) by (f_equal; cbn [length]; lia).
    intros (o1 & -> & Ho1). exists o1. split; [done|]. destruct (Z.leb_spec i c); [|done]. destruct (_ <=? _); [|done]. cbn [andb] in *.
    replace (Z.to_nat (c - i)) with (S (Z.to_nat (c - (i + 1)))) by lia. unfold off, encode in *. cbn [take].
    rewrite fmap_cons. cbn [concat]. rewrite (length_app (enc b t)), Nat2Z.inj_add, Z.add_assoc. done.
Qed.

Lemma dump_loop_spec es : ∀ st f bs i,
  ts_myfile st = Some f → at_end f bs → Forall tuple_ok es.*2 →
  ∃ m f' ps, dump_loop chunk_space (Some <$> es) i st = Ok (with_file (set_readptrs st ps) m f')
    ∧ Forall2 (dumped (ts_backward st) (Z.of_nat (length bs)) es.*2 i) (ts_readptrs st) ps ∧ at_end f' (bs ++ encode (ts_backward st) es.*2).
Proof.
  induction es as [|[blk t] es IH]; intros st f bs i Hf Ht Hok; rewrite ?fmap_nil, ?fmap_cons in *; cbn [dump_loop]; unfold tell_readptrs, file_of; rewrite Hf;
    cbn [deref mbind outcome_bind]; pose proof (file_tell f bs _ Ht) as Hpt.
  - eexists (ts_availMem st), f, _. split; [|split; [|by rewrite app_nil_r]].
    + do 2 f_equal. unfold with_file, set_file, set_availMem, set_readptrs. cbn. by rewrite Hf.
    + apply Forall2_fmap_r, Forall2_same_length_lookup. split; [done|]. intros j p p' Hp Hp'. simplify_eq. by apply dumped_here.
  - apply Forall_cons in Hok as [Hok1 Hok]. cbn [fst snd].
    match goal with |- context [writetup_heap _ ?s _ _] => destruct (writetup_spec s f bs blk t) as (m1 & f1 & Hw & Ht1); [done..|] end.
    rewrite Hw. cbn [mbind outcome_bind].
    match goal with |- context [dump_loop _ _ _ ?s] => destruct (IH s f1 _ (i + 1) eq_refl Ht1 Hok) as (m2 & f2 & ps & Hd & Hps & Ht2) end.
    rewrite Hd. exists m2, f2, ps. cbn [with_file set_file set_availMem set_readptrs ts_backward ts_readptrs] in *. split; [done|]. split.
    + rewrite Forall2_fmap_l in Hps. eapply Forall2_impl; [exact Hps|]. intros p p' Hd'. cbn beta in Hd'. rewrite length_app, Nat2Z.inj_add in Hd'. by eapply dumped_step.
    + by rewrite <- app_assoc in Ht2.
Qed.
End WriteFile.

(** * The invariant of the abstract store *)

(** ** Flags *)

(** the flags [e] are among [f] *)
Definition sub_flags (e f : Z) : Prop := Z.lor f e = f.

Lemma sub_flags_trans d e f : sub_flags d e → sub_flags e f → sub_flags d f.
Proof. unfold sub_flags. intros Hde Hef. rewrite <- Hef, <- Z.lor_assoc, Hde. done. Qed.

Lemma sub_flags_lor_l e f : sub_flags e (Z.lor e f).
Proof. unfold sub_flags. rewrite Z.lor_comm, Z.lor_assoc, Z.lor_diag. done. Qed.

Lemma sub_flags_lor_r e f : sub_flags f (Z.lor e f).
Proof. unfold sub_flags. rewrite <- Z.lor_assoc, Z.lor_diag. done. Qed.

Lemma sub_flags_refl e : sub_flags e e.
Proof. apply Z.lor_diag. Qed.

Lemma sub_flags_has e f x : sub_flags e f → has_flag e x = true → has_flag f x = true.
Proof.
  unfold sub_flags, has_flag. intros Hs. rewrite !negb_true_iff, !Z.eqb_neq. intros He Hf. apply He.
  assert (Z.land (Z.lor f e) x = 0) as E by (by rewrite Hs). rewrite Z.land_lor_distr_l, Hf in E. done.
Qed.

Lemma sub_flags_has_not e f x : sub_flags e f → has_flag f x = false → has_flag e x = false.
Proof. intros Hs Hf. destruct (has_flag e x) eqn:He; [|done]. pose proof (sub_flags_has _ _ _ Hs He). congruence. Qed.

Lemma foldl_lor_elem es : ∀ e0, sub_flags e0 (foldl Z.lor e0 es) ∧ Forall (fun e => sub_flags e (foldl Z.lor e0 es)) es.
Proof.
  induction es as [|e es IH]; intros e0; cbn; [split; [apply sub_flags_refl|done]|].
  destruct (IH (Z.lor e0 e)) as [H0 Hes]. split; [by eapply sub_flags_trans; [apply sub_flags_lor_l|]|].
  constructor; [by eapply sub_flags_trans; [apply sub_flags_lor_r|]|done].
Qed.

Lemma foldl_lor_bound es f : ∀ e0, sub_flags e0 f → Forall (fun e => sub_flags e f) es → sub_flags (foldl Z.lor e0 es) f.
Proof.
  induction es as [|e es IH]; intros e0 H0 Hes; cbn; [done|]. apply Forall_cons in Hes as [He Hes]. apply IH; [|done].
  unfold sub_flags in *. by rewrite Z.lor_assoc, H0.
Qed.

(** ** The invariant *)

Definition pos_ok (a : astore) (q : aptr) : Prop :=
  ap_eof q = false → (ap_pos q ≤ length (as_tuples a) ∧ (as_floor a = 0 ∨ as_floor a < ap_pos q))%nat.

Record a_inv (a : astore) : Prop := {
  ai_active : (as_active a < length (as_ptrs a))%nat;
  ai_tuples : Forall tuple_ok (as_tuples a);
  ai_pos : Forall (pos_ok a) (as_ptrs a);
  ai_flags : Forall (fun q => sub_flags (ap_eflags q) (as_eflags a)) (as_ptrs a);
  ai_floor : as_floor a = 0%nat ∨ ((as_floor a < length (as_tuples a))%nat ∧ has_flag (as_eflags a) EXEC_FLAG_REWIND = false)
}.

Lemma a_inv_begin ra : a_inv (a_begin ra).
Proof. constructor; cbn; auto; repeat constructor; cbn; auto; apply sub_flags_refl. Qed.

Section Ops.
Context (a : astore) (HI : a_inv a).

Lemma a_inv_active : ∃ p, as_ptrs a !! as_active a = Some p ∧ pos_ok a p ∧ sub_flags (ap_eflags p) (as_eflags a).
Proof.
  destruct HI as [Ha _ Hpos Hfl _]. destruct (lookup_lt_is_Some_2 _ _ Ha) as [p Hp]. exists p. split; [done|].
  split; [by eapply Forall_lookup_1 in Hpos|by eapply Forall_lookup_1 in Hfl].
Qed.

Lemma a_inv_set_ptr q : pos_ok a q → sub_flags (ap_eflags q) (as_eflags a) → a_inv (a_set_ptr a q).
Proof.
  intros Hp Hf. destruct HI as [Ha Ht Hpos Hfl Hfloor]. constructor; cbn; auto.
  - by rewrite length_insert.
  - by apply Forall_insert.
  - by apply Forall_insert.
Qed.

Lemma a_inv_put ts : Forall tuple_ok ts → a_inv (a_put a ts).
Proof.
  intros Hts. destruct HI as [Ha Ht Hpos Hfl Hfloor]. constructor; cbn.
  - by rewrite length_imap.
  - by apply Forall_app.
  - apply Forall_lookup. intros i q Hq. rewrite list_lookup_imap in Hq. apply fmap_Some in Hq as (p & Hp & ->).
    pose proof (Forall_lookup_1 _ _ _ _ Hpos Hp) as Hpp. unfold pos_ok in *. cbn. rewrite length_app. case_match; cbn; [lia|].
    intros He. specialize (Hpp He). lia.
  - apply Forall_lookup. intros i q Hq. rewrite list_lookup_imap in Hq. apply fmap_Some in Hq as (p & Hp & ->).
    pose proof (Forall_lookup_1 _ _ _ _ Hfl Hp) as Hpp. by case_match.
  - rewrite length_app. destruct Hfloor as [?|[??]]; [auto|right; split; [lia|done]].
Qed.

Lemma a_inv_get_forward p : as_ptrs a !! as_active a = Some p → a_inv (a_get_forward a p).2.
Proof.
  intros Hp. destruct a_inv_active as (p' & Hp' & Hpos & Hfl). simplify_eq. unfold a_get_forward, pos_ok in *.
  destruct (ap_eof p) eqn:He; [done|]. destruct (as_tuples a !! ap_pos p) eqn:Ht; apply a_inv_set_ptr; try done.
  intros _. cbn. apply lookup_lt_Some in Ht. specialize (Hpos eq_refl). lia.
Qed.

Lemma a_back_pos p n : as_ptrs a !! as_active a = Some p → (0 < n)%nat → back_ok a p n → pos_ok a (a_back a p).
Proof.
  intros Hp Hn [_ Hb]. destruct a_inv_active as (p' & Hp' & Hpos & _). simplify_eq. intros _. unfold a_back, pos_ok in *. cbn.
  pose proof (ai_floor a HI). destruct (ap_eof p); [lia|]. specialize (Hpos eq_refl). lia.
Qed.

Lemma a_inv_get p forward n :
  as_ptrs a !! as_active a = Some p → (0 < n)%nat → (forward = false → back_ok a p n) → a_inv (a_get a p forward).2.
Proof.
  intros Hp Hn Hb. destruct forward; [by apply a_inv_get_forward|]. destruct a_inv_active as (p' & Hp' & _ & Hfl). simplify_eq.
  apply a_inv_set_ptr; [|done]. by eapply a_back_pos; [..|by apply Hb].
Qed.

(** the next step back is admissible too *)
Lemma a_get_back_ok p n :
  as_ptrs a !! as_active a = Some p → back_ok a p (S n) → back_ok (a_get a p false).2 (a_back a p) n.
Proof.
  intros Hp [Hf Hb]. split; [done|]. cbn. destruct (ap_eof p); [lia|]. lia.
Qed.

Lemma a_inv_rescan p : as_ptrs a !! as_active a = Some p → has_flag (ap_eflags p) EXEC_FLAG_REWIND = true → as_floor a = 0%nat ∧ a_inv (a_rescan a p).
Proof.
  intros Hp Hr. destruct a_inv_active as (p' & Hp' & _ & Hfl). simplify_eq. pose proof (sub_flags_has _ _ _ Hfl Hr).
  assert (as_floor a = 0%nat) as H0 by (destruct (ai_floor a HI) as [?|[??]]; [done|congruence]).
  split; [done|]. apply a_inv_set_ptr; [|done]. intros _. cbn. lia.
Qed.

Lemma a_oldest_le : (a_oldest a ≤ length (as_tuples a))%nat ∧ Forall (fun q => ap_eof q = false → (a_oldest a ≤ ap_pos q)%nat) (as_ptrs a).
Proof.
  unfold a_oldest. generalize (length (as_tuples a)) as n. induction (as_ptrs a) as [|q qs IH]; intros n; cbn; [done|].
  destruct (IH (if ap_eof q then n else Nat.min n (ap_pos q))) as [Hn Hqs]. split; [destruct (ap_eof q); lia|].
  constructor; [|done]. intros He. rewrite He in Hn |- *. lia.
Qed.

Lemma a_inv_trim : a_inv (a_trim a).
Proof.
  unfold a_trim. destruct (has_flag _ _) eqn:Hr; [done|]. destruct HI as [Ha Ht Hpos Hfl Hfloor]. destruct a_oldest_le as [Hn Hq].
  constructor; cbn; auto; [|rewrite Hr; lia].
  apply Forall_forall. intros q Hin. rewrite Forall_forall in Hpos, Hq. specialize (Hpos q Hin). specialize (Hq q Hin).
  unfold pos_ok in *. cbn. intros He. specialize (Hpos He). specialize (Hq He). lia.
Qed.

Lemma a_inv_clear : a_inv (a_clear a).
Proof.
  destruct HI as [Ha Ht Hpos Hfl Hfloor]. constructor; cbn; auto; [by rewrite length_fmap|..]; apply Forall_fmap.
  - apply Forall_true. intros q _. cbn. lia.
  - exact Hfl.
Qed.

Lemma a_inv_select i : (i < length (as_ptrs a))%nat → a_inv (a_select a i).
Proof. intros Hi. destruct HI. by constructor. Qed.

Lemma a_inv_set_eflags eflags a' : a_set_eflags a eflags = Ok a' → a_inv a'.
Proof.
  unfold a_set_eflags. destruct (bool_decide_reflect (as_tuples a = [])) as [Hnil|]; [|done]. destruct HI as [Ha Ht Hpos Hfl Hfloor].
  destruct (as_ptrs a) as [|q qs]; [done|]. intros [= <-]. destruct (foldl_lor_elem (ap_eflags <$> qs) eflags) as [He Hes].
  rewrite Hnil in Hfloor. cbn in Hfloor. apply Forall_cons in Hpos as [Hq Hqs]. constructor; cbn; [done|done|by constructor| |left; lia].
  constructor; [exact He|]. by apply Forall_fmap in Hes.
Qed.

Lemma a_inv_alloc eflags i a' : a_alloc a eflags = Ok (i, a') → a_inv a'.
Proof.
  unfold a_alloc. destruct (negb _ && _) eqn:Hc; [done|]. destruct HI as [Ha Ht Hpos Hfl Hfloor].
  destruct (as_ptrs a) as [|q qs] eqn:Hq; [done|]. cbn [head deref mbind outcome_bind]. intros [= <- <-].
  constructor; cbn; [rewrite length_app; cbn in *; lia|done|..].
  - change (Forall (pos_ok a) ((q :: qs) ++ [mkAPtr eflags (ap_eof q) (ap_pos q)])). apply Forall_app. split; [done|].
    apply Forall_cons in Hpos as [Hpos _]. constructor; [|done]. exact Hpos.
  - change (Forall (fun p => sub_flags (ap_eflags p) (Z.lor (as_eflags a) eflags)) ((q :: qs) ++ [mkAPtr eflags (ap_eof q) (ap_pos q)])).
    apply Forall_app. split.
    + eapply Forall_impl; [exact Hfl|]. intros p Hp. cbn in Hp. eapply sub_flags_trans; [exact Hp|]. apply sub_flags_lor_l.
    + constructor; [|done]. apply sub_flags_lor_r.
  - destruct Hfloor as [?|[Hlt Hr]]; [auto|]. right. split; [done|]. apply andb_false_iff in Hc as [Hc|Hc].
    + apply negb_false_iff, bool_decide_eq_true in Hc. rewrite Hc in Hlt. cbn in Hlt. lia.
    + apply negb_false_iff, Z.eqb_eq in Hc. by rewrite Hc.
Qed.

Lemma copy_flags s d dst :
  s ∈ as_ptrs a →
  let ptrs := <[dst := s]> (as_ptrs a) in
  let e := if ap_eflags d =? ap_eflags s then as_eflags a else foldl Z.lor 0 (ap_eflags <$> ptrs) in
  sub_flags e (as_eflags a) ∧ Forall (fun q => sub_flags (ap_eflags q) e) ptrs.
Proof.
  intros Hs ptrs e. destruct HI as [_ _ _ Hfl _]. assert (Forall (fun q => sub_flags (ap_eflags q) (as_eflags a)) ptrs) as Hfl'.
  { apply Forall_insert; [done|]. rewrite Forall_forall in Hfl. by apply Hfl. }
  unfold e. destruct (_ =? _); [split; [apply sub_flags_refl|done]|]. split.
  - apply foldl_lor_bound; [apply Z.lor_0_r|]. by apply Forall_fmap.
  - destruct (foldl_lor_elem (ap_eflags <$> ptrs) 0) as [_ Hel]. by apply Forall_fmap in Hel.
Qed.

Lemma a_inv_copy src dst s d : as_ptrs a !! src = Some s → a_inv (a_copy a src dst s d).
Proof.
  intros Hs. unfold a_copy. destruct (bool_decide _); [done|]. apply list_elem_of_lookup_2 in Hs.
  destruct (copy_flags s d dst Hs) as [Hsub Hel]. destruct HI as [Ha Ht Hpos Hfl Hfloor]. constructor; cbn.
  - by rewrite length_insert.
  - done.
  - change (Forall (pos_ok a) (<[dst := s]> (as_ptrs a))). apply Forall_insert; [done|]. rewrite Forall_forall in Hpos. by apply Hpos.
  - exact Hel.
  - destruct Hfloor as [?|[Hlt Hr]]; [auto|]. right. split; [done|]. eapply sub_flags_has_not; [exact Hsub|done].
Qed.
End Ops.

Lemma a_inv_skip n : ∀ a forward,
  a_inv a → (forward = false → ∀ p, as_ptrs a !! as_active a = Some p → back_ok a p n) → a_inv (a_skip n a forward).2.
Proof.
  induction n as [|n IH]; intros a forward HI Hb; cbn [a_skip]; [done|].
  destruct (a_inv_active a HI) as (p & Hp & _). rewrite Hp. pose proof (a_inv_get a HI p forward (S n) Hp) as Hinv.
  destruct (a_get a p forward) as [[t|] a'] eqn:Hg; (apply Hinv; [lia|auto]) || apply IH; [apply Hinv; [lia|auto]|].
  intros -> q Hq. change a' with (None : option (list Z), a').2 in Hq |- *. assert (a' = (a_get a p false).2) as -> by (by rewrite Hg).
  pose proof (a_get_back_ok a p n Hp (Hb eq_refl p Hp)) as Hok. cbn in Hq. rewrite list_lookup_insert_eq in Hq by by eapply lookup_lt_Some.
  by simplify_eq.
Qed.

Lemma a_inv_run a op r a' : a_inv a → admissible a op → a_run a op = Ok (r, a') → a_inv a'.
Proof.
  intros HI Hadm. unfold a_run. destruct (a_inv_active a HI) as (p & Hp & _). rewrite Hp. cbn [deref mbind outcome_bind].
  destruct op as [t|ts ? ?|forward|forward|n forward| |i|src dst|eflags|eflags| | | |]; cbn [admissible] in Hadm.
  - intros [= _ <-]. apply a_inv_put; [done|]. by constructor.
  - intros [= _ <-]. by apply a_inv_put, Hadm.
  - pose proof (a_inv_get a HI p forward 1 Hp) as Hg. destruct (a_get a p forward). intros [= _ <-]. apply Hg; [lia|auto].
  - pose proof (a_inv_get a HI p forward 1 Hp) as Hg. destruct (a_get a p forward). intros [= _ <-]. apply Hg; [lia|auto].
  - pose proof (a_inv_skip (Z.to_nat n) a forward HI Hadm) as Hs. destruct (a_skip _ _ _). intros [= _ <-]. exact Hs.
  - intros [= _ <-]. by apply a_inv_rescan; [..|apply Hadm].
  - intros [= _ <-]. by apply a_inv_select.
  - destruct Hadm as [Hs Hd]. destruct (lookup_lt_is_Some_2 _ _ Hs) as [s Hls], (lookup_lt_is_Some_2 _ _ Hd) as [d Hld].
    rewrite Hls, Hld. cbn. intros [= _ <-]. by apply a_inv_copy.
  - destruct (a_set_eflags a eflags) as [b| | |] eqn:He; try done. cbn. intros [= _ <-]. by eapply a_inv_set_eflags.
  - destruct (a_alloc a eflags) as [[i b]| | |] eqn:He; try done. cbn. intros [= _ <-]. by eapply a_inv_alloc.
  - intros [= _ <-]. by apply a_inv_trim.
  - intros [= _ <-]. by apply a_inv_clear.
  - by intros [= _ <-].
  - by intros [= _ <-].
Qed.
