(* ===== verification/TuplestoreSim.v ===== *)
(** * The relation between a tuplestore and the abstract store

    Tuples that trimming has removed are missing in the array and in the file:
    both have the tuples of the abstract store from some index on, which is at
    most the floor. *)

From S2P Require Import Prelude Float8 TempFile Tuplestore TuplestoreSpec TuplestoreFile.

(** ** Lists of read pointers *)

Definition ptrs_rel (R : nat → TSReadPointer → aptr → Prop) (ps : list TSReadPointer) (qs : list aptr) : Prop :=
  length ps = length qs ∧ ∀ i p q, ps !! i = Some p → qs !! i = Some q → R i p q.

Section Ptrs.
Context (R R' : nat → TSReadPointer → aptr → Prop) (ps : list TSReadPointer) (qs : list aptr) (HR : ptrs_rel R ps qs).

Lemma ptrs_lookup i q : qs !! i = Some q → ∃ p, ps !! i = Some p ∧ R i p q.
Proof.
  intros Hq. destruct HR as [Hl Hi]. destruct (lookup_lt_is_Some_2 ps i) as [p Hp]; [rewrite Hl; by eapply lookup_lt_Some|].
  exists p. split; [done|]. by eapply Hi.
Qed.

Lemma ptrs_mono : (∀ i p q, qs !! i = Some q → R i p q → R' i p q) → ptrs_rel R' ps qs.
Proof. intros H. destruct HR as [Hl Hi]. split; [done|]. intros i p q Hp Hq. apply H; [done|]. by apply Hi. Qed.

Lemma ptrs_insert i p q :
  (∀ j p q, qs !! j = Some q → j ≠ i → R j p q → R' j p q) → R' i p q → ptrs_rel R' (<[i := p]> ps) (<[i := q]> qs).
Proof.
  intros Hne Hi. destruct HR as [Hl Hj]. split; [by rewrite !length_insert|]. intros j p' q' Hp Hq.
  apply list_lookup_insert_Some in Hp as [(<- & <- & ?)|[? Hp]], Hq as [(? & ? & ?)|[? Hq]]; try done.
  - by subst.
  - apply Hne; [done|by apply not_eq_sym|]. by apply Hj.
Qed.

Lemma ptrs_imap f g : (∀ i p q, qs !! i = Some q → R i p q → R' i (f i p) (g i q)) → ptrs_rel R' (imap f ps) (imap g qs).
Proof.
  intros H. destruct HR as [Hl Hi]. split; [by rewrite !length_imap|]. intros i p q. rewrite !list_lookup_imap.
  intros (p' & Hp & ->)%fmap_Some (q' & Hq & ->)%fmap_Some. apply H; [done|]. by apply Hi.
Qed.

Lemma ptrs_fmap f g : (∀ i p q, qs !! i = Some q → R i p q → R' i (f p) (g q)) → ptrs_rel R' (f <$> ps) (g <$> qs).
Proof.
  intros H. destruct HR as [Hl Hi]. split; [by rewrite !length_fmap|]. intros i p q. rewrite !list_lookup_fmap.
  intros (p' & Hp & ->)%fmap_Some (q' & Hq & ->)%fmap_Some. apply H; [done|]. by apply Hi.
Qed.

Lemma ptrs_snoc p q : (∀ j p q, qs !! j = Some q → R j p q → R' j p q) → R' (length qs) p q → ptrs_rel R' (ps ++ [p]) (qs ++ [q]).
Proof.
  intros Hj Hn. destruct HR as [Hl Hi]. split; [rewrite !length_app; cbn; lia|]. intros j p' q' Hp Hq.
  apply lookup_app_Some in Hp as [Hp|[? Hp]], Hq as [Hq|[? Hq]].
  - apply Hj; [done|]. by apply Hi.
  - apply lookup_lt_Some in Hp. lia.
  - apply lookup_lt_Some in Hq. lia.
  - apply list_lookup_singleton_Some in Hp as [? <-], Hq as [? <-]. by replace j with (length qs) by lia.
Qed.
End Ptrs.

(** ** The relation *)

Section Rel.
Context {F : Type} `{TempFileLaws F}.
Implicit Types (st : Tuplestorestate F) (a : astore) (k : nat).

Definition same_ptr (p : TSReadPointer) (q : aptr) : Prop := rp_eflags p = ap_eflags q ∧ rp_eof p = ap_eof q.

(** a read position in the array, of which [d] entries are deleted *)
Definition at_mem k (d : Z) (_ : nat) (p : TSReadPointer) (q : aptr) : Prop :=
  same_ptr p q ∧ (ap_eof q = false → rp_current p = d + Z.of_nat (ap_pos q) - Z.of_nat k).

(** a read position in the file, except that of the pointer whose position the
    file has *)
Definition at_file k (b : bool) (ts : list (list Z)) (skip : option nat) (i : nat) (p : TSReadPointer) (q : aptr) : Prop :=
  same_ptr p q ∧ (ap_eof q = false → skip ≠ Some i → points_to (rp_offset p) (off b ts (ap_pos q - k))).

Definition kept a k : list (list Z) := drop k (as_tuples a).

Record array_rel st a k : Prop := {
  ar_deleted : 0 ≤ ts_memtupdeleted st ≤ Z.of_nat k;
  ar_tuples : ∃ es, ts_memtuples st = repeat None (Z.to_nat (ts_memtupdeleted st)) ++ (Some <$> es) ∧ es.*2 = kept a k;
  ar_ptrs : ptrs_rel (at_mem k (ts_memtupdeleted st)) (ts_readptrs st) (as_ptrs a)
}.

Record mem_rel st a k : Prop := {
  mr_status : ts_status st = TSS_INMEM;
  mr_array : array_rel st a k;
  mr_size : ts_memtupcount st < ts_memtupsize st
}.

(** the boundary where the active read pointer stands *)
Definition boundary a k (q : aptr) : nat := if ap_eof q then length (kept a k) else ap_pos q - k.

(** the contents of the file *)
Definition contents st a k : list Z := encode (ts_backward st) (kept a k).

Record file_rel st a k (f : F) : Prop := {
  fr_file : ts_myfile st = Some f;
  fr_back : has_flag (ts_eflags st) EXEC_FLAG_BACKWARD = true → ts_backward st = true;
  fr_data : as_tuples a ≠ []
}.

Record write_rel st a k (f : F) : Prop := {
  wr_status : ts_status st = TSS_WRITEFILE;
  wr_file : file_rel st a k f;
  wr_at : file_at f (contents st a k) (Z.of_nat (length (contents st a k)));
  wr_ptrs : ptrs_rel (at_file k (ts_backward st) (kept a k) None) (ts_readptrs st) (as_ptrs a)
}.

Record read_rel st a k (f : F) : Prop := {
  rr_status : ts_status st = TSS_READFILE;
  rr_file : file_rel st a k f;
  rr_writepos : points_to (ts_writepos st) (Z.of_nat (length (contents st a k)));
  rr_at : ∀ q, as_ptrs a !! as_active a = Some q → file_at f (contents st a k) (off (ts_backward st) (kept a k) (boundary a k q));
  rr_ptrs : ptrs_rel (at_file k (ts_backward st) (kept a k) (Some (as_active a))) (ts_readptrs st) (as_ptrs a)
}.

Record common st a k : Prop := {
  cm_eflags : ts_eflags st = as_eflags a;
  cm_active : ts_activeptr st = as_active a;
  cm_tuples : ts_tuples st = Z.of_nat (length (as_tuples a));
  cm_mem : 0 ≤ ts_allowedMem st;
  cm_size : 2048 ≤ ts_memtupsize st ≤ MaxAllocHugeSize / 8;
  cm_floor : (k ≤ as_floor a)%nat
}.

Inductive rel st a : Prop :=
| rel_mem k (C : common st a k) (R : mem_rel st a k)
| rel_write k f (C : common st a k) (R : write_rel st a k f)
| rel_read k f (C : common st a k) (R : read_rel st a k f).

(** ** Consequences *)

Lemma rel_ptrs st a : rel st a → ptrs_rel (fun _ => same_ptr) (ts_readptrs st) (as_ptrs a).
Proof.
  intros [k C R|k f C R|k f C R]; [eapply (ptrs_mono _ _ _ _ (ar_ptrs _ _ _ (mr_array _ _ _ R)))|eapply (ptrs_mono _ _ _ _ (wr_ptrs _ _ _ _ R))|
    eapply (ptrs_mono _ _ _ _ (rr_ptrs _ _ _ _ R))]; by intros ???? [? _].
Qed.

Lemma rel_common st a : rel st a → ∃ k, common st a k.
Proof. intros [k C R|k f C R|k f C R]; by exists k. Qed.

Lemma rel_active st a q : rel st a → as_ptrs a !! as_active a = Some q → ∃ p, active st = Ok p ∧ same_ptr p q.
Proof.
  intros HR Hq. destruct (rel_common _ _ HR) as [k C]. destruct (ptrs_lookup _ _ _ (rel_ptrs _ _ HR) _ _ Hq) as (p & Hp & Hs).
  exists p. split; [|done]. unfold active. rewrite (cm_active _ _ _ C), Hp. done.
Qed.

Section Bounds.
Context (st : Tuplestorestate F) (a : astore) (k : nat) (HI : a_inv a) (C : common st a k).

Lemma dropped_le : (k ≤ length (as_tuples a))%nat.
Proof. pose proof (cm_floor _ _ _ C). destruct (ai_floor a HI) as [?|[? _]]; lia. Qed.

Lemma dropped_lt : k = 0%nat ∨ (k < length (as_tuples a))%nat.
Proof. pose proof (cm_floor _ _ _ C). destruct (ai_floor a HI) as [?|[? _]]; lia. Qed.

Lemma length_kept : length (kept a k) = (length (as_tuples a) - k)%nat.
Proof. apply length_drop. Qed.

Lemma kept_ok : Forall tuple_ok (kept a k).
Proof. apply Forall_drop, (ai_tuples a HI). Qed.

Lemma kept_lookup i : (k ≤ i)%nat → kept a k !! (i - k)%nat = as_tuples a !! i.
Proof. intros Hi. unfold kept. rewrite lookup_drop. f_equal. lia. Qed.

(** a read position is behind the tuples that are missing *)
Lemma ptr_pos i q : as_ptrs a !! i = Some q → ap_eof q = false → (k ≤ ap_pos q ≤ length (as_tuples a))%nat ∧ (k = 0 ∨ k < ap_pos q)%nat.
Proof.
  intros Hq He. pose proof (Forall_lookup_1 _ _ _ _ (ai_pos a HI) Hq He) as [? ?]. pose proof (cm_floor _ _ _ C). lia.
Qed.
End Bounds.

Lemma array_count st a k : a_inv a → common st a k → array_rel st a k →
  ts_memtupcount st = ts_memtupdeleted st + Z.of_nat (length (as_tuples a)) - Z.of_nat k.
Proof.
  intros HI C [Hd (es & He & Hk) _]. unfold ts_memtupcount. rewrite He, length_app, repeat_length, length_fmap.
  rewrite <- (length_fmap snd es), Hk, length_kept. pose proof (dropped_le st a k HI C). lia.
Qed.

(** the entry at a read position *)
Lemma array_lookup st a k i :
  array_rel st a k → (k ≤ i)%nat →
  ∃ e, ts_memtuples st !! Z.to_nat (ts_memtupdeleted st + Z.of_nat i - Z.of_nat k) = Some <$> e ∧ snd <$> e = as_tuples a !! i.
Proof.
  intros [Hd (es & He & Hk) _] Hi. exists (es !! (i - k)%nat). rewrite He, <- (kept_lookup a k i Hi), <- Hk, list_lookup_fmap. split; [|done].
  rewrite lookup_app_r, repeat_length, list_lookup_fmap by (rewrite repeat_length; lia).
  replace (Z.to_nat (ts_memtupdeleted st + Z.of_nat i - Z.of_nat k) - Z.to_nat (ts_memtupdeleted st))%nat with (i - k)%nat by lia.
  done.
Qed.

Lemma rel_availMem st a m : rel st a → rel (set_availMem st m) a.
Proof.
  intros [k [] [? [] ?]|k f [] [? [] ? ?]|k f [] [? [] ? ? ?]]; [apply (rel_mem _ _ k)|apply (rel_write _ _ k f)|apply (rel_read _ _ k f)];
    repeat (constructor; try done).
Qed.

(** saving the position of the active pointer *)
Lemma save_position st a k f p :
  read_rel st a k f → common st a k → a_inv a → active st = Ok p →
  ptrs_rel (at_file k (ts_backward st) (kept a k) None)
    (ts_readptrs (if rp_eof p then st else set_active st (with_offset p (tmp_tell f)))) (as_ptrs a).
Proof.
  intros [_ _ _ Ht Hp] C HI Ha. destruct (a_inv_active a HI) as (q & Hq & _). destruct (ptrs_lookup _ _ _ Hp _ _ Hq) as (p' & Hlp & [Hs _]).
  unfold active in Ha. rewrite (cm_active _ _ _ C), Hlp in Ha. cbn in Ha. simplify_eq. destruct (rp_eof p) eqn:He; cbn.
  - apply (ptrs_mono _ _ _ _ Hp). intros j p1 q1 Hq1 [Hs1 Hc1]. split; [done|]. intros He1 _. apply Hc1; [done|]. intros [= <-].
    destruct Hs. congruence.
  - rewrite (cm_active _ _ _ C), <- (list_insert_id (as_ptrs a) (as_active a) q) by done. apply (ptrs_insert _ _ _ _ Hp).
    + intros j p1 q1 _ Hj [Hs1 Hc1]. split; [done|]. intros He1 _. apply Hc1; [done|]. by intros [= <-].
    + split; [done|]. intros He1 _. cbn. pose proof (file_tell _ _ _ (Ht q Hq)) as Hpt. unfold boundary in Hpt. by rewrite He1 in Hpt.
Qed.
End Rel.
