(* ===== verification/TuplestorePut.v ===== *)
(** * Adding and fetching tuples simulates the abstract store *)

From S2P Require Import Prelude Float8 TempFile Tuplestore TuplestoreSpec TuplestoreFile TuplestoreSim.

(** the space of a chunk of the size of the array is its size and a constant,
    as the comment in [grow_memtuples] expects of [palloc] *)
Class ArraySpace (chunk_space : Z → Z) := {
  array_overhead : Z;
  array_space n : 2048 ≤ n → chunk_space (n * 8) = n * 8 + array_overhead
}.

Section Grow.
Context {F : Type} (chunk_space : Z → Z) `{!ArraySpace chunk_space}.
Implicit Types st : Tuplestorestate F.

Definition grown_array st (m size : Z) (grow : bool) : Tuplestorestate F :=
  set_memtuples (set_availMem st m) (ts_memtuples st) (ts_memtupdeleted st) size grow.

(** the array grows or keeps its size; there is no error *)
Lemma grow_memtuples_spec st :
  0 ≤ ts_allowedMem st → 2048 ≤ ts_memtupsize st ≤ MaxAllocHugeSize / 8 →
  ∃ b m size grow, grow_memtuples chunk_space st = Ok (b, grown_array st m size grow) ∧ ts_memtupsize st ≤ size ≤ MaxAllocHugeSize / 8.
Proof.
  intros Hmem Hsize. unfold grow_memtuples. destruct (negb (ts_growmemtuples st)).
  { exists false, (ts_availMem st), (ts_memtupsize st), (ts_growmemtuples st). split; [by destruct st|lia]. }
  match goal with |- context [mbind _ ?r] => assert (∃ n g, r = Ok (n, g)) as (n & g & ->) end.
  { destruct (Z.leb_spec (ts_allowedMem st - ts_availMem st) (ts_availMem st)) as [_|Hlt]; [by case_match; eauto|].
    match goal with |- context [flt ?f ?g] => pose proof (float8_to_int_nonneg f g) as Hf; destruct (flt f g); [|cbn; eauto] end.
    destruct Hf as (n & Hn & Hpos); [|done|]; cycle 1.
    { rewrite Hn. cbn [deref mbind outcome_bind]. replace (- 2 ^ 31 <=? n) with true by (symmetry; apply Z.leb_le; lia). by eexists _, _. }
    apply fmul_nonneg; [apply float8_of_int_nonneg; lia|]. apply fdiv_nonneg; apply float8_of_int_nonneg; lia. }
  cbn [mbind outcome_bind]. destruct (Z.leb_spec n (ts_memtupsize st)) as [_|Hn].
  { exists false, (ts_availMem st), (ts_memtupsize st), false. split; [by destruct st|lia]. }
  destruct (if MaxAllocHugeSize / 8 <=? n then _ else _) as [n' g'] eqn:Hn'.
  assert (ts_memtupsize st ≤ n' ≤ MaxAllocHugeSize / 8) as Hn2. { destruct (Z.leb_spec (MaxAllocHugeSize / 8) n); simplify_eq; lia. }
  cbn [set_memtuples ts_availMem]. destruct (Z.ltb_spec (ts_availMem st) ((n' - ts_memtupsize st) * 8)) as [_|Hav].
  { exists false, (ts_availMem st), (ts_memtupsize st), false. split; [by destruct st|lia]. }
  match goal with |- context [LACKMEM ?s] => replace (LACKMEM s) with false end.
  - eexists true, _, n', g'. split; [reflexivity|done].
  - symmetry. apply Z.ltb_ge. cbn. rewrite !array_space by lia. lia.
Qed.
End Grow.

Section Put.
Context {F : Type} `{TempFileLaws F} (chunk_space : Z → Z) `{!ArraySpace chunk_space}.
Implicit Types (st : Tuplestorestate F) (a : astore) (k : nat).

Lemma kept_put a k ts : (k ≤ length (as_tuples a))%nat → kept (a_put a ts) k = kept a k ++ ts.
Proof. intros Hk. unfold kept. cbn. by rewrite drop_app_le. Qed.

(** ** Leaving memory *)

Lemma free_block_spec st : ∃ m b, free_block st = set_block (set_availMem st m) b.
Proof. unfold free_block. destruct (ts_block st) eqn:Hb; [by eexists _, None|]. exists (ts_availMem st), None. rewrite <- Hb. by destruct st. Qed.

(** the read positions move to the file *)
Lemma dump_ptrs a k d b ps ps' :
  ptrs_rel (at_mem k d) ps (as_ptrs a) → Forall2 (dumped b 0 (kept a k) d) ps ps' → a_inv a → (k ≤ as_floor a)%nat →
  ptrs_rel (at_file k b (kept a k) None) ps' (as_ptrs a).
Proof.
  intros [Hl HR] Hd HI Hk. apply Forall2_same_length_lookup in Hd as [Hl' Hd]. split; [congruence|]. intros i p' q Hp' Hq.
  destruct (lookup_lt_is_Some_2 ps i) as [p Hp]; [rewrite Hl'; by eapply lookup_lt_Some|].
  destruct (HR i p q Hp Hq) as [[He Heof] Hc]. destruct (Hd i p p' Hp Hp') as (o & -> & Ho). split; [done|].
  intros Hq' _. pose proof (Forall_lookup_1 _ _ _ _ (ai_pos a HI) Hq Hq') as [Hpos Hfl].
  rewrite Heof, Hq', Hc, length_kept in Ho by done. cbn [negb andb] in Ho.
  replace (d <=? d + Z.of_nat (ap_pos q) - Z.of_nat k) with true in Ho by (symmetry; apply Z.leb_le; lia).
  replace (d + Z.of_nat (ap_pos q) - Z.of_nat k <=? _) with true in Ho by (symmetry; apply Z.leb_le; lia). cbn [andb] in Ho.
  cbn [rp_offset with_offset]. by replace (ap_pos q - k)%nat with (Z.to_nat (d + Z.of_nat (ap_pos q) - Z.of_nat k - d)) by lia.
Qed.

Lemma dump_sim st a k :
  array_rel st a k → common st a k → a_inv a → as_tuples a ≠ [] → ∃ st', dumptuples chunk_space (begin_file st tmp_create) = Ok st' ∧ rel st' a.
Proof.
  intros HA HC HI Hne. destruct HA as [Hd (es & He & Hk) Hp]. destruct HC as [C1 C2 C3 C4 C5 C6].
  unfold dumptuples. cbn [begin_file ts_memtupdeleted ts_memtuples].
  rewrite He, drop_app_length' by (by rewrite repeat_length).
  destruct (dump_loop_spec chunk_space es (begin_file st tmp_create) tmp_create [] (ts_memtupdeleted st)) as (m & f & ps & Hl & Hps & Ht);
    [done|apply file_create|rewrite Hk; by apply kept_ok|].
  rewrite Hl. cbn [mbind outcome_bind]. match goal with |- context [free_block ?s] => destruct (free_block_spec s) as (m' & b' & ->) end.
  eexists. split; [done|]. rewrite Hk in *. apply (rel_write _ _ k f); [by constructor|]. constructor; [done|by constructor|done|].
  by eapply dump_ptrs.
Qed.

(** ** Pointers at the end that are left behind *)

Lemma leave_mem a k d ps ts :
  ptrs_rel (at_mem k d) ps (as_ptrs a) →
  ptrs_rel (at_mem k d)
    (imap (fun i p => if rp_eof p && negb (bool_decide (i = as_active a))
                      then with_current (with_eof p false) (d + Z.of_nat (length (as_tuples a)) - Z.of_nat k) else p) ps)
    (as_ptrs (a_put a ts)).
Proof.
  intros HR. apply (ptrs_imap _ _ _ _ HR). intros i p q Hq [[He Heof] Hc]. rewrite <- Heof. case_match; [|by split; [split|]].
  split; [done|]. intros _. cbn. done.
Qed.

Lemma leave_file a k b ps ts skip pos :
  ptrs_rel (at_file k b (kept a k) skip) ps (as_ptrs a) → (skip = None ∨ skip = Some (as_active a)) → a_inv a → (k ≤ as_floor a)%nat →
  points_to pos (Z.of_nat (length (encode b (kept a k)))) →
  ptrs_rel (at_file k b (kept (a_put a ts) k) skip)
    (imap (fun i p => if rp_eof p && negb (bool_decide (i = as_active a)) then with_offset (with_eof p false) pos else p) ps)
    (as_ptrs (a_put a ts)).
Proof.
  intros HR Hskip HI Hk Hpos. assert (k ≤ length (as_tuples a))%nat as Hkl by (destruct (ai_floor a HI) as [?|[? _]]; lia).
  apply (ptrs_imap _ _ _ _ HR). intros i p q Hq [[He Heof] Hc]. rewrite <- Heof, kept_put by done. case_match.
  - split; [done|]. intros _ _. cbn. rewrite off_app, off_end; [done|rewrite length_kept; lia..].
  - split; [done|]. intros Hq' Hs. pose proof (Forall_lookup_1 _ _ _ _ (ai_pos a HI) Hq Hq') as [Hpos' _].
    rewrite off_app; [by apply Hc|rewrite length_kept; lia].
Qed.

(** ** Adding a tuple *)

Lemma put_mem st a k t :
  mem_rel st a k → common st a k → a_inv a → tuple_ok t →
  ∃ st', tuplestore_puttuple_common chunk_space st t = Ok st' ∧ rel st' (a_put a [t]).
Proof.
  intros HM HC HI Ht. pose proof (array_count st a k HI HC (mr_array _ _ _ HM)) as Hcount. destruct HM as [Hst [Hd (es & He & Hk) Hp] Hsize].
  pose proof (dropped_le st a k HI HC) as Hkl. pose proof (a_inv_put a HI [t] ltac:(by constructor)) as HI'.
  pose proof HC as [C1 C2 C3 C4 C5 C6]. unfold tuplestore_puttuple_common. cbn [set_tuples ts_status]. rewrite Hst.
  match goal with |- context [leave_eof ?s ?l] => set (st1 := leave_eof s l) end.
  match goal with |- context [mbind _ ?r] => assert (∃ m size grow, r = Ok (grown_array st1 m size grow) ∧ ts_memtupsize st ≤ size ≤ MaxAllocHugeSize / 8)
    as (m & size & grow & -> & Hs) end.
  { destruct (_ <=? _).
    - destruct (grow_memtuples_spec chunk_space st1) as (b & m & size & grow & -> & Hs); [done|done|]. by exists m, size, grow.
    - exists (ts_availMem st1), (ts_memtupsize st1), (ts_growmemtuples st1). split; [done|]. cbn. lia. }
  cbn [mbind outcome_bind]. change (ts_memtupcount (grown_array st1 m size grow)) with (ts_memtupcount st).
  cbn [grown_array set_memtuples ts_memtupsize]. replace (ts_memtupcount st <? size) with true by (symmetry; apply Z.ltb_lt; lia).
  match goal with |- context [LACKMEM ?s] => set (st2 := s) end.
  assert (array_rel st2 (a_put a [t]) k) as HA.
  { constructor; cbn; [done| |].
    - exists (es ++ [(false, t)]). rewrite He, !fmap_app, app_assoc, kept_put, Hk by done. done.
    - pose proof (leave_mem a k (ts_memtupdeleted st) _ [t] Hp) as Hl. rewrite <- Hcount, <- C2 in Hl. exact Hl. }
  assert (common st2 (a_put a [t]) k) as HC2.
  { constructor; cbn; [done|done| |done|lia|done]. rewrite length_app. cbn. lia. }
  destruct ((ts_memtupcount st2 <? size) && negb (LACKMEM st2)) eqn:Hfit.
  - exists st2. split; [done|]. apply (rel_mem _ _ k HC2). constructor; [done|done|]. apply andb_true_iff in Hfit as [Hfit _]. by apply Z.ltb_lt in Hfit.
  - apply dump_sim with k; [done..|]. cbn. by destruct (as_tuples a).
Qed.

Lemma put_write st a k f t pos :
  write_rel st a k f → common st a k → a_inv a → tuple_ok t → points_to pos (Z.of_nat (length (contents st a k))) →
  ∃ st', writetup_heap chunk_space (leave_eof (set_tuples st (ts_tuples st + 1)) (fun p => with_offset p pos)) false t = Ok st'
         ∧ rel st' (a_put a [t]).
Proof.
  intros [Hst [Hf Hback Hdata] Hat Hp] HC HI Ht Hpos. pose proof (dropped_le st a k HI HC) as Hkl. destruct HC as [C1 C2 C3 C4 C5 C6].
  match goal with |- context [writetup_heap _ ?s] => destruct (writetup_spec chunk_space s f (contents st a k) false t) as (m & f' & -> & Ht'); [done..|] end.
  eexists. split; [done|]. cbn [leave_eof set_readptrs set_tuples ts_backward] in Ht'.
  apply (rel_write _ _ k f'); constructor; cbn; try done.
  - rewrite length_app. cbn. lia.
  - constructor; cbn; [done|done|by destruct (as_tuples a)].
  - unfold contents in *. cbn. by rewrite kept_put, encode_app, encode_single.
  - rewrite C2. apply leave_file; auto.
Qed.

(** reading stops: the position of the active pointer is saved *)
Lemma stop_reading st a k f :
  read_rel st a k f → common st a k → a_inv a →
  ∃ p f', active st = Ok p ∧ file_of st = Ok f
    ∧ seek_to (if rp_eof p then st else set_active st (with_offset p (tmp_tell f))) (ts_writepos st)
      = Ok (set_file (if rp_eof p then st else set_active st (with_offset p (tmp_tell f))) f')
    ∧ write_rel (set_status (set_file (if rp_eof p then st else set_active st (with_offset p (tmp_tell f))) f') TSS_WRITEFILE (ts_writepos st)) a k f'.
Proof.
  intros HR HC HI. destruct (a_inv_active a HI) as (q & Hq & _). pose proof HR as [Hst [Hf Hback Hdata] Hw Hat Hp].
  destruct (ptrs_lookup _ _ _ Hp _ _ Hq) as (p & Hlp & _). destruct (file_seek f _ _ (ts_writepos st) _ (Hat q Hq) Hw) as (f' & Hs & Ht'); [lia|].
  assert (active st = Ok p) as Ha by (unfold active; by rewrite (cm_active _ _ _ HC), Hlp).
  pose proof (save_position st a k f p HR HC HI Ha) as Hp'. exists p, f'. unfold file_of, seek_to. split; [done|]. split; [by rewrite Hf|].
  split. { destruct (rp_eof p); cbn; unfold file_of; cbn; rewrite Hf; cbn; by rewrite Hs. }
  constructor; [done|constructor|..]; try (destruct (rp_eof p); done).
Qed.

Lemma put_sim st a t : rel st a → a_inv a → tuple_ok t → ∃ st', tuplestore_puttuple_common chunk_space st t = Ok st' ∧ rel st' (a_put a [t]).
Proof.
  intros [k C R|k f C R|k f C R] HI Ht.
  - by eapply put_mem.
  - destruct (put_write st a k f t _ R C HI Ht (file_tell _ _ _ (wr_at _ _ _ _ R))) as (st' & Hw & HR). exists st'. split; [|done].
    unfold tuplestore_puttuple_common, file_of. cbn [set_tuples ts_status ts_myfile]. rewrite (wr_status _ _ _ _ R), (fr_file _ _ _ _ (wr_file _ _ _ _ R)). exact Hw.
  - destruct (stop_reading st a k f R C HI) as (p & f' & Ha & Hf & Hs & HW).
    unfold tuplestore_puttuple_common. cbn [set_tuples ts_status]. rewrite (rr_status _ _ _ _ R).
    change (active (set_tuples st _)) with (active st). rewrite Ha. cbn [mbind outcome_bind].
    change (file_of (set_tuples st _)) with (file_of st). rewrite Hf. cbn [mbind outcome_bind].
    destruct (put_write _ a k f' t (ts_writepos st) HW) as (st' & Hw & HR); [by destruct C, (rp_eof p)|done|done|by destruct (rp_eof p); apply (rr_writepos _ _ _ _ R)|].
    exists st'. split; [|done]. rewrite <- Hw. revert Hs. unfold file_of in Hf. destruct (rp_eof p); unfold seek_to, file_of; cbn;
      (destruct (ts_myfile st) as [g|]; [|done]; cbn; destruct (tmp_seek _ _ _ _) as [[[] ?]| | |]; try done; cbn; intros [= ->]; done).
Qed.

(** ** Adding a block *)

Lemma a_put_cons a t ts : a_put (a_put a [t]) ts = a_put a (t :: ts).
Proof.
  unfold a_put. cbn. rewrite <- app_assoc. f_equal. apply list_eq. intros i. rewrite !list_lookup_imap.
  destruct (as_ptrs a !! i) as [p|]; [|done]. cbn. f_equal. destruct (ap_eof p) eqn:He; cbn; [|by rewrite He].
  destruct (bool_decide _); cbn; [by rewrite He|done].
Qed.

Lemma putblock_mem st a k ts space :
  mem_rel st a k → common st a k → a_inv a → Z.of_nat (length ts) < INT_MAX - ts_memtupcount st →
  ∀ owned, ts_status st = TSS_INMEM → ts_block st = None →
  (ts_availMem st <? (if owned : bool then space else 0) + Z.of_nat (length ts) * 8) = false →
  ∃ st', tuplestore_putblock chunk_space st ts owned space = Ok st' ∧ rel st' (a_put a ts).
Proof.
  intros HM HC HI Hn owned Hst Hblock Hmem. pose proof (array_count st a k HI HC (mr_array _ _ _ HM)) as Hcount.
  destruct HM as [_ [Hd (es & He & Hk) Hp] Hsize]. pose proof (dropped_le st a k HI HC) as Hkl. destruct HC as [C1 C2 C3 C4 C5 C6].
  unfold tuplestore_putblock. rewrite Hst, Hblock, Hmem, bool_decide_true, bool_decide_false by (done || by intros []).
  replace (_ <=? _) with false by (symmetry; apply Z.leb_gt; lia). cbn [negb orb].
  eexists. split; [done|]. set (big := ts_memtupsize (leave_eof st _) <=? _).
  assert (big = true → 2048 ≤ ts_memtupcount st + Z.of_nat (length ts) + 1 ≤ MaxAllocHugeSize / 8) as Hbig.
  { unfold big. cbn. intros Hb%Z.leb_le. change (ts_memtupcount (leave_eof st _)) with (ts_memtupcount st) in Hb.
    change (MaxAllocHugeSize / 8) with 1152921504606846975. unfold INT_MAX in Hn. lia. }
  apply (rel_mem _ _ k).
  - destruct big; constructor; cbn; try done; rewrite ?length_app; try lia. by apply Hbig.
  - constructor; [by destruct big| |].
    + constructor; [by destruct big| |].
      * exists (es ++ ((fun t => (true, t)) <$> ts)). rewrite !fmap_app, kept_put, Hk by done. split.
        -- destruct big; cbn; by rewrite He, <- app_assoc, <- list_fmap_compose.
        -- f_equal. rewrite <- list_fmap_compose. apply list_fmap_id.
      * pose proof (leave_mem a k (ts_memtupdeleted st) _ ts Hp) as Hl. rewrite <- Hcount, <- C2 in Hl. by destruct big.
    + unfold ts_memtupcount. destruct big eqn:Hb; cbn; rewrite length_app, length_fmap.
      * unfold ts_memtupcount. cbn. lia.
      * unfold big in Hb. apply Z.leb_gt in Hb. unfold ts_memtupcount in Hb. cbn in Hb. lia.
Qed.

Lemma putblock_sim st a ts owned space :
  rel st a → a_inv a → ts ≠ [] → Forall tuple_ok ts →
  ∃ st', tuplestore_putblock chunk_space st ts owned space = Ok st' ∧ rel st' (a_put a ts).
Proof.
  intros HR HI Hne Hok.
  assert (∀ us st a, rel st a → a_inv a → us ≠ [] → Forall tuple_ok us →
    ∃ st', (fix loop ts st {struct ts} :=
       match ts with
       | [] => Ok st
       | t :: ts => st ← tuplestore_puttuple_common chunk_space (USEMEM st (tuple_space chunk_space t)) t; loop ts st
       end) us st = Ok st' ∧ rel st' (a_put a us)) as Hloop.
  { clear - ArraySpace0. induction us as [|t us IH]; intros st a HR HI Hne Hok; [done|]. apply Forall_cons in Hok as [Ht Hok].
    destruct (put_sim (USEMEM st (tuple_space chunk_space t)) a t) as (st1 & Hp & HR1); [by apply rel_availMem|done|done|].
    rewrite Hp. cbn [mbind outcome_bind]. destruct us as [|u us]; [by exists st1|].
    rewrite <- a_put_cons. apply IH; try done. apply a_inv_put; [done|by constructor]. }
  unfold tuplestore_putblock at 1.
  match goal with |- context [if ?c then _ else _] => destruct c eqn:Hc end; [by apply Hloop|].
  apply orb_false_iff in Hc as [[[Hst Hb]%orb_false_iff Hn]%orb_false_iff Hmem].
  apply negb_false_iff, bool_decide_eq_true in Hst. apply Z.leb_gt in Hn.
  destruct HR as [k C R|k f C R|k f C R]; [|pose proof (wr_status _ _ _ _ R); congruence|pose proof (rr_status _ _ _ _ R); congruence].
  destruct (putblock_mem st a k ts space R C HI ltac:(lia) owned Hst) as (st' & Heq & HR'); [|done|].
  { destruct (ts_block st); [|done]. by rewrite bool_decide_true in Hb by eauto. }
  exists st'. split; [|done]. rewrite <- Heq. unfold tuplestore_putblock. rewrite Hmem, Hst, Hb, bool_decide_true by done.
  apply Z.leb_gt in Hn. rewrite Hn. done.
Qed.
End Put.

(** * Reading simulates the abstract store *)

Lemma a_set_ptr_id a q : as_ptrs a !! as_active a = Some q → a_set_ptr a q = a.
Proof. intros Hq. unfold a_set_ptr, a_set_ptrs. rewrite list_insert_id by done. by destruct a. Qed.

Lemma a_set_ptr_twice a q q' : a_set_ptr (a_set_ptr a q) q' = a_set_ptr a q'.
Proof. unfold a_set_ptr, a_set_ptrs. cbn. by rewrite list_insert_insert_eq. Qed.

Lemma a_set_ptr_lookup a q : a_inv a → as_ptrs (a_set_ptr a q) !! as_active (a_set_ptr a q) = Some q.
Proof. intros HI. cbn. apply list_lookup_insert_eq, (ai_active a HI). Qed.

Section Get.
Context {F : Type} `{TempFileLaws F} (chunk_space : Z → Z).
Implicit Types (st : Tuplestorestate F) (a : astore) (k : nat).

(** ** Moving the active pointer *)

Lemma mem_set_active st a k p q :
  mem_rel st a k → common st a k → at_mem k (ts_memtupdeleted st) (as_active a) p q → rel (set_active st p) (a_set_ptr a q).
Proof.
  intros [Hst [Hd Ht Hp] Hs] [C1 C2 C3 C4 C5 C6] Hat. apply (rel_mem _ _ k); [by constructor|]. constructor; [done| |done].
  constructor; [done|done|]. cbn. rewrite C2. by apply (ptrs_insert _ _ _ _ Hp).
Qed.

Lemma read_set_active st a k f f' m p q :
  read_rel st a k f → common st a k → a_inv a → same_ptr p q →
  file_at f' (contents st a k) (off (ts_backward st) (kept a k) (boundary a k q)) → rel (with_file (set_active st p) m f') (a_set_ptr a q).
Proof.
  intros [Hst [Hf Hback Hdata] Hw Ht Hp] [C1 C2 C3 C4 C5 C6] HI Hs Ht'. apply (rel_read _ _ k f'); [by constructor|]. constructor; [done|by constructor|done|..].
  - intros q' Hq'. rewrite a_set_ptr_lookup in Hq' by done. by simplify_eq.
  - cbn. rewrite C2. apply (ptrs_insert _ _ _ _ Hp); [done|]. split; [done|]. by intros ? [].
Qed.

(** ** The array *)

Lemma memtuple_spec st a k i t :
  array_rel st a k → (k ≤ i)%nat → as_tuples a !! i = Some t →
  memtuple_at st (ts_memtupdeleted st + Z.of_nat i - Z.of_nat k) = Ok (Some (t, false)).
Proof.
  intros HA Hi Ht. destruct (array_lookup st a k i HA Hi) as ([[b t']|] & He & Hs); rewrite Ht in Hs; [|done]. cbn in He, Hs. simplify_eq.
  unfold memtuple_at. replace (_ <? 0) with false by (symmetry; apply Z.ltb_ge; pose proof (ar_deleted _ _ _ HA); lia). rewrite He. done.
Qed.

Lemma get_mem_forward st a k q :
  mem_rel st a k → common st a k → a_inv a → as_ptrs a !! as_active a = Some q →
  ∃ r st', gettuple_mem st true = Ok (r, st') ∧ fst <$> r = (a_get a q true).1 ∧ rel st' (a_get a q true).2.
Proof.
  intros HM HC HI Hq. destruct (ptrs_lookup _ _ _ (ar_ptrs _ _ _ (mr_array _ _ _ HM)) _ _ Hq) as (p & Hp & [[Hfl Heof] Hc]).
  pose proof (array_count st a k HI HC (mr_array _ _ _ HM)) as Hcount. unfold gettuple_mem, active. rewrite (cm_active _ _ _ HC), Hp.
  cbn [deref mbind outcome_bind a_get]. unfold a_get_forward. rewrite Heof. destruct (ap_eof q) eqn:Hqe.
  { exists None, st. split; [done|]. split; [done|]. by apply (rel_mem _ _ k). }
  destruct (ptr_pos st a k HI HC _ _ Hq Hqe) as [Hpos _]. specialize (Hc eq_refl). rewrite Hcount.
  destruct (as_tuples a !! ap_pos q) as [t|] eqn:Ht.
  - apply lookup_lt_Some in Ht as Hlt. replace (_ <? _) with true by (symmetry; apply Z.ltb_lt; lia).
    rewrite Hc, (memtuple_spec st a k _ t (mr_array _ _ _ HM)) by (done || lia). cbn [mbind outcome_bind].
    eexists _, _. split; [done|]. split; [done|]. apply (mem_set_active st a k _ _ HM HC). split; [by split|]. intros _. cbn. lia.
  - apply lookup_ge_None_1 in Ht. replace (_ <? _) with false by (symmetry; apply Z.ltb_ge; lia).
    eexists _, _. split; [done|]. split; [done|]. apply (mem_set_active st a k _ _ HM HC). split; [by split|]. done.
Qed.

Lemma get_mem_backward st a k q :
  mem_rel st a k → common st a k → a_inv a → as_ptrs a !! as_active a = Some q → back_ok a q 1 →
  ∃ r st', gettuple_mem st false = Ok (r, st') ∧ fst <$> r = (a_get a q false).1 ∧ rel st' (a_get a q false).2.
Proof.
  intros HM HC HI Hq [_ Hb]. destruct (ptrs_lookup _ _ _ (ar_ptrs _ _ _ (mr_array _ _ _ HM)) _ _ Hq) as (p & Hp & [[Hfl Heof] Hc]).
  pose proof (array_count st a k HI HC (mr_array _ _ _ HM)) as Hcount. unfold gettuple_mem, active. rewrite (cm_active _ _ _ HC), Hp.
  cbn [deref mbind outcome_bind a_get fst snd]. pose proof (dropped_le st a k HI HC) as Hkl. pose proof (dropped_lt st a k HI HC) as Hkl'.
  pose proof (cm_floor _ _ _ HC) as Hk. pose proof (ar_deleted _ _ _ (mr_array _ _ _ HM)) as Hd.
  destruct (negb (rp_eof p) && (rp_current p <=? ts_memtupdeleted st)) eqn:Hfirst.
  { apply andb_true_iff in Hfirst as [Hn%negb_true_iff Hle%Z.leb_le]. rewrite Heof in Hn. specialize (Hc Hn). rewrite Hn in Hb.
    assert (ap_pos q = 0%nat) as Hz by lia. exists None, st. split; [done|]. unfold a_back. rewrite Hn, Hz. split; [done|].
    replace (mkAPtr _ _ _) with q by (destruct q; cbn in *; congruence). rewrite a_set_ptr_id by done. by apply (rel_mem _ _ k). }
  set (p' := if rp_eof p then _ else _).
  assert (at_mem k (ts_memtupdeleted st) (as_active a) p' (a_back a q)) as Hat.
  { unfold p', a_back. rewrite Heof in *. destruct (ap_eof q) eqn:Hqe; (split; [split; [by destruct p|by cbn]|]); cbn; intros _; [lia|].
    specialize (Hc eq_refl). cbn in Hfirst. apply Z.leb_gt in Hfirst. lia. }
  assert ((k ≤ ap_pos (a_back a q) ≤ length (as_tuples a))%nat ∧ (k = 0 ∨ k < ap_pos (a_back a q))%nat) as Hpos.
  { unfold a_back. cbn. rewrite Heof in *. destruct (ap_eof q) eqn:Hqe; [lia|]. destruct (ptr_pos st a k HI HC _ _ Hq Hqe). lia. }
  destruct Hat as [Hs Hat]. specialize (Hat eq_refl). change (ts_memtupdeleted (set_active st p')) with (ts_memtupdeleted st).
  assert (rel (set_active st p') (a_set_ptr a (a_back a q))) as HR by (apply (mem_set_active st a k _ _ HM HC); split; [done|by intros _]).
  unfold a_before. destruct (ap_pos (a_back a q)) as [|j].
  - replace (_ <=? _) with true by (symmetry; apply Z.leb_le; lia). by eexists _, _.
  - replace (_ <=? _) with false by (symmetry; apply Z.leb_gt; lia). rewrite Hat.
    destruct (lookup_lt_is_Some_2 (as_tuples a) j) as [t Ht]; [lia|].
    replace (ts_memtupdeleted st + Z.of_nat (S j) - Z.of_nat k - 1) with (ts_memtupdeleted st + Z.of_nat j - Z.of_nat k) by lia.
    change (memtuple_at (set_active st p')) with (memtuple_at st). rewrite (memtuple_spec st a k j t (mr_array _ _ _ HM)) by (done || lia).
    eexists _, _. split; [done|]. by rewrite Ht.
Qed.

(** ** The file *)

(** a fetch at a boundary of the file is a fetch of the abstract store *)
Lemma fetch_abstract st a k q forward :
  common st a k → a_inv a → as_ptrs a !! as_active a = Some q → (forward = false → back_ok a q 1) →
  let r := fetch_at (kept a k) forward (ap_eof q) (boundary a k q) in
  ∃ q', a_get a q forward = (r.1.1, a_set_ptr a q') ∧ ap_eflags q' = ap_eflags q ∧ ap_eof q' = r.1.2 ∧ boundary a k q' = r.2.
Proof.
  intros HC HI Hq Hback. cbn zeta. pose proof (dropped_le st a k HI HC) as Hkl. pose proof (dropped_lt st a k HI HC) as Hkl'.
  pose proof (cm_floor _ _ _ HC) as Hk. pose proof (length_kept a k) as Hlen. unfold fetch_at, boundary, a_get. destruct forward.
  - unfold a_get_forward. destruct (ap_eof q) eqn:Hqe.
    + rewrite lookup_ge_None_2 by done. exists q. cbn. by rewrite a_set_ptr_id, Hqe.
    + destruct (ptr_pos st a k HI HC _ _ Hq Hqe) as [Hpos _]. rewrite kept_lookup by lia.
      destruct (as_tuples a !! ap_pos q) eqn:Ht; (eexists; split; [done|]; cbn; split; [done|]; split; [done|]).
      * lia.
      * apply lookup_ge_None_1 in Ht. lia.
  - destruct (Hback eq_refl) as [_ Hb]. exists (a_back a q). unfold a_back. cbn [ap_eof ap_eflags ap_pos fst snd].
    destruct (ap_eof q) eqn:Hqe; [|destruct (ptr_pos st a k HI HC _ _ Hq Hqe) as [Hpos _]]; (split; [|split; [done|]; split; [done|lia]]); f_equal;
      unfold a_before.
    + rewrite Hlen. destruct (length (as_tuples a) - k)%nat as [|j] eqn:Hj; [by replace (length (as_tuples a)) with 0%nat by lia|].
      replace (length (as_tuples a)) with (S (k + j)) by lia. unfold kept. by rewrite lookup_drop.
    + destruct (ap_pos q - k - 1)%nat as [|j] eqn:Hj; [by replace (ap_pos q - 1)%nat with 0%nat by lia|].
      replace (ap_pos q - 1)%nat with (S (k + j)) by lia. unfold kept. by rewrite lookup_drop.
Qed.

Lemma get_read st a k f q forward :
  read_rel st a k f → common st a k → a_inv a → as_ptrs a !! as_active a = Some q → (forward = false → back_ok a q 1) →
  ∃ r st', gettuple_file chunk_space st forward = Ok (r, st') ∧ fst <$> r = (a_get a q forward).1 ∧ rel st' (a_get a q forward).2.
Proof.
  intros HR HC HI Hq Hback. destruct (ptrs_lookup _ _ _ (rr_ptrs _ _ _ _ HR) _ _ Hq) as (p & Hp & [[Hfl Heof] _]).
  destruct (fetch_abstract st a k q forward HC HI Hq Hback) as (q' & Hg & Hfl' & He' & Hb'). rewrite Hg.
  pose proof (rr_at _ _ _ _ HR q Hq) as Htell. destruct (rr_file _ _ _ _ HR) as [Hf Hbk _].
  destruct (fetch_spec chunk_space st f p (kept a k)) with forward (boundary a k q) as (m & f' & Hr & Ht2).
  { done. } { by rewrite (cm_active _ _ _ HC). } { by eapply kept_ok. } { done. }
  { unfold boundary. destruct (ap_eof q) eqn:Hqe; [done|]. rewrite length_kept. destruct (ptr_pos st a k HI HC _ _ Hq Hqe). lia. }
  { unfold boundary. rewrite Heof. by intros ->. }
  { intros ->. destruct (Hback eq_refl) as [Hflag _]. apply Hbk. rewrite (cm_eflags _ _ _ HC). eapply sub_flags_has; [|exact Hflag].
    by apply (Forall_lookup_1 _ _ _ _ (ai_flags a HI) Hq). }
  rewrite Heof in Hr, Ht2. eexists _, _. split; [exact Hr|]. split; [cbn [fst]; by destruct (fetch_at _ _ _ _) as [[[]]]|].
  eapply (read_set_active st a k f); try done; [by split; [cbn; congruence|cbn; congruence]|]. by rewrite Hb'.
Qed.

(** reading starts: the file moves to the position of the active pointer *)
Lemma start_reading st a k f q p :
  write_rel st a k f → common st a k → a_inv a → as_ptrs a !! as_active a = Some q → active st = Ok p →
  ∃ f', (if rp_eof p then Ok st else seek_to st (rp_offset p)) = Ok (set_file st f')
        ∧ read_rel (set_status (set_file st f') TSS_READFILE (tmp_tell f)) a k f'.
Proof.
  intros [Hst [Hf Hback Hdata] Ht Hp] HC HI Hq Ha. unfold active in Ha. rewrite (cm_active _ _ _ HC) in Ha.
  destruct (ptrs_lookup _ _ _ Hp _ _ Hq) as (p' & Hp' & [[Hfl Heof] Hoff]). rewrite Hp' in Ha. cbn in Ha. simplify_eq.
  assert (ptrs_rel (at_file k (ts_backward st) (kept a k) (Some (as_active a))) (ts_readptrs st) (as_ptrs a)) as Hp2.
  { apply (ptrs_mono _ _ _ _ Hp). intros i p' q' _ [Hs Hc]. split; [done|]. intros He _. by apply Hc. }
  pose proof (file_tell _ _ _ Ht) as Hpt. destruct (rp_eof p) eqn:Hpe.
  - exists f. split; [f_equal; destruct st; cbn in *; by rewrite Hf|]. constructor; try done; cbn.
    intros q' Hq'. simplify_eq. unfold boundary. rewrite <- Heof, off_end; done.
  - specialize (Hoff (eq_sym Heof) ltac:(done)).
    destruct (file_seek f _ _ _ _ Ht Hoff) as (f' & Hs & Ht'); [apply off_le|].
    exists f'. unfold seek_to, file_of. rewrite Hf. cbn. rewrite Hs. split; [done|]. constructor; cbn; try done.
    intros q' Hq'. simplify_eq. unfold boundary. by rewrite <- Heof.
Qed.

Lemma get_sim st a q forward :
  rel st a → a_inv a → as_ptrs a !! as_active a = Some q → (forward = false → back_ok a q 1) →
  ∃ r st', tuplestore_gettuple chunk_space st forward = Ok (r, st') ∧ fst <$> r = (a_get a q forward).1 ∧ rel st' (a_get a q forward).2.
Proof.
  intros HR HI Hq Hback. destruct (rel_active _ _ _ HR Hq) as (p & Ha & Hfl & Heof). unfold tuplestore_gettuple.
  destruct HR as [k C R|k f C R|k f C R].
  - rewrite (mr_status _ _ _ R). destruct forward; [by eapply get_mem_forward|]. by eapply get_mem_backward; [..|apply Hback].
  - rewrite (wr_status _ _ _ _ R), Ha. cbn [mbind outcome_bind]. destruct (rp_eof p && forward) eqn:Hef.
    + apply andb_true_iff in Hef as [He ->]. exists None, st. split; [done|]. cbn. unfold a_get_forward. rewrite <- Heof, He.
      split; [done|]. by apply (rel_write _ _ k f).
    + destruct (start_reading st a k f q p R C HI Hq Ha) as (f' & Hs & HR'). unfold file_of. rewrite (fr_file _ _ _ _ (wr_file _ _ _ _ R)).
      cbn [deref mbind outcome_bind]. rewrite Hs. cbn [mbind outcome_bind]. eapply get_read; [exact HR'|by destruct C|done..].
  - rewrite (rr_status _ _ _ _ R). by eapply get_read.
Qed.
End Get.
