(* ===== verification/TuplestorePtr.v ===== *)
(** * Skipping, moving read pointers and trimming simulate the abstract store *)

From S2P Require Import Prelude Float8 TempFile Tuplestore TuplestoreSpec TuplestoreFile TuplestoreSim TuplestorePut.

(** ** Skipping in closed form *)

Lemma a_skip_S n a forward :
  a_skip (S n) a forward =
    match as_ptrs a !! as_active a with
    | None => (false, a)
    | Some p => match a_get a p forward with (None, a) => (false, a) | (Some _, a) => a_skip n a forward end
    end.
Proof. done. Qed.

Lemma a_skip_forward m : ∀ a q,
  a_inv a → as_ptrs a !! as_active a = Some q → ap_eof q = false →
  a_skip m a true =
    if bool_decide (m ≤ length (as_tuples a) - ap_pos q)%nat then (true, a_set_ptr a (mkAPtr (ap_eflags q) false (ap_pos q + m)))
    else (false, a_set_ptr a (mkAPtr (ap_eflags q) true (length (as_tuples a)))).
Proof.
  induction m as [|m IH]; intros a q HI Hq He; cbn [a_skip].
  { rewrite bool_decide_true, Nat.add_0_r by lia. replace (mkAPtr _ _ _) with q by (destruct q; cbn in *; congruence). by rewrite a_set_ptr_id. }
  rewrite Hq. pose proof (a_inv_get_forward a HI q Hq) as HI'. cbn [a_get]. unfold a_get_forward in *. rewrite He in *.
  pose proof (Forall_lookup_1 _ _ _ _ (ai_pos a HI) Hq He) as [Hpos _].
  destruct (as_tuples a !! ap_pos q) eqn:Ht.
  - apply lookup_lt_Some in Ht. cbn in HI'. erewrite IH; [|done|by apply a_set_ptr_lookup|done]. cbn [ap_pos ap_eflags].
    rewrite !a_set_ptr_twice. cbn [a_set_ptr a_set_ptrs as_tuples]. rewrite Nat.add_succ_comm.
    destruct (decide (m ≤ length (as_tuples a) - S (ap_pos q))%nat); [rewrite !bool_decide_true by lia|rewrite !bool_decide_false by lia]; done.
  - apply lookup_ge_None_1 in Ht. rewrite bool_decide_false by lia. by replace (ap_pos q) with (length (as_tuples a)) by lia.
Qed.

Lemma a_skip_backward m : ∀ a q,
  a_inv a → as_ptrs a !! as_active a = Some q → ap_eof q = false → back_ok a q (S m) →
  a_skip (S m) a false =
    if bool_decide (S m < ap_pos q)%nat then (true, a_set_ptr a (mkAPtr (ap_eflags q) false (ap_pos q - S m)))
    else (false, a_set_ptr a (mkAPtr (ap_eflags q) false 0)).
Proof.
  induction m as [|m IH]; intros a q HI Hq He Hb; 
    rewrite a_skip_S, Hq; cbn [a_get];
    pose proof (Forall_lookup_1 _ _ _ _ (ai_pos a HI) Hq He) as [Hpos _]; unfold a_back, a_before; rewrite He; cbn [ap_pos].
  - destruct (ap_pos q) as [|[|j]] eqn:Hp; cbn; [done|done|].
    destruct (lookup_lt_is_Some_2 (as_tuples a) j) as [t ->]; [lia|]. by rewrite bool_decide_true by lia.
  - destruct (ap_pos q) as [|[|j]] eqn:Hp; cbn [Nat.sub]; [by rewrite bool_decide_false by lia..|].
    destruct (lookup_lt_is_Some_2 (as_tuples a) j) as [t ->]; [lia|].
    pose proof (a_inv_get a HI q false (S (S m)) Hq ltac:(lia) (fun _ => Hb)) as HI'. pose proof (a_get_back_ok a q _ Hq Hb) as Hb'.
    cbn [a_get snd] in HI', Hb'. unfold a_back in HI', Hb'. rewrite He, Hp in HI', Hb'. cbn [Nat.sub] in HI', Hb'.
    erewrite IH; [|exact HI'|by apply a_set_ptr_lookup|done|exact Hb']. cbn [ap_pos ap_eflags]. rewrite !a_set_ptr_twice.
    destruct (decide (S m < S j)%nat); [rewrite !bool_decide_true by lia|rewrite !bool_decide_false by lia]; done.
Qed.

Lemma a_skip_backward_eof m a q :
  a_inv a → as_ptrs a !! as_active a = Some q → ap_eof q = true → back_ok a q (S m) →
  a_skip (S m) a false =
    if bool_decide (m < length (as_tuples a))%nat then (true, a_set_ptr a (mkAPtr (ap_eflags q) false (length (as_tuples a) - m)))
    else (false, a_set_ptr a (mkAPtr (ap_eflags q) false 0)).
Proof.
  intros HI Hq He Hb. pose proof (a_inv_get a HI q false (S m) Hq ltac:(lia) (fun _ => Hb)) as HI'. pose proof (a_get_back_ok a q _ Hq Hb) as Hb'.
  rewrite a_skip_S, Hq. cbn [a_get snd] in *. unfold a_back, a_before in *. rewrite He in *. cbn [ap_pos] in *.
  destruct (length (as_tuples a)) as [|n] eqn:Hn; [by rewrite bool_decide_false by lia|].
  destruct (lookup_lt_is_Some_2 (as_tuples a) n) as [t ->]; [lia|]. destruct m as [|m].
  - by rewrite bool_decide_true by lia.
  - erewrite a_skip_backward; [|exact HI'|by apply a_set_ptr_lookup|done|exact Hb']. cbn [ap_pos ap_eflags]. by rewrite !a_set_ptr_twice.
Qed.

Section Ptr.
Context {F : Type} `{TempFileLaws F} (chunk_space : Z → Z).
Implicit Types (st : Tuplestorestate F) (a : astore) (k : nat).

(** ** Skipping *)

Lemma skip_loop_sim n : ∀ st a forward,
  rel st a → a_inv a → (forward = false → ∀ q, as_ptrs a !! as_active a = Some q → back_ok a q n) →
  ∃ st', skip_loop chunk_space n st forward = Ok ((a_skip n a forward).1, st') ∧ rel st' (a_skip n a forward).2.
Proof.
  induction n as [|n IH]; intros st a forward HR HI Hb; [by exists st|]. rewrite a_skip_S. cbn [skip_loop].
  destruct (a_inv_active a HI) as (q & Hq & _). rewrite Hq.
  destruct (get_sim chunk_space st a q forward HR HI Hq) as (r & st1 & Hg & Hr & HR1).
  { intros ->. destruct (Hb eq_refl q Hq) as [? Hn]. split; [done|]. lia. }
  pose proof (a_inv_get a HI q forward (S n) Hq ltac:(lia) (fun E => Hb E q Hq)) as HI1. rewrite Hg. cbn [mbind outcome_bind fst snd].
  destruct (a_get a q forward) as [[t|] a1] eqn:Ha; destruct r as [[t' ?]|]; cbn in *; try done; [|by exists st1].
  apply IH; [done|done|]. intros -> q1 Hq1. assert (a1 = (a_get a q false).2) as -> by (by rewrite Ha).
  pose proof (a_get_back_ok a q n Hq (Hb eq_refl q Hq)) as Hok. cbn [a_get snd] in Hq1. rewrite a_set_ptr_lookup in Hq1 by done. by simplify_eq.
Qed.

Lemma skip_mem st a k q m forward :
  mem_rel st a k → common st a k → a_inv a → as_ptrs a !! as_active a = Some q → (forward = false → back_ok a q (S m)) →
  ∃ st', tuplestore_skiptuples chunk_space st (Z.of_nat (S m)) forward = Ok ((a_skip (S m) a forward).1, st') ∧ rel st' (a_skip (S m) a forward).2.
Proof.
  intros HM HC HI Hq Hb. destruct (ptrs_lookup _ _ _ (ar_ptrs _ _ _ (mr_array _ _ _ HM)) _ _ Hq) as (p & Hp & [[Hfl Heof] Hc]).
  pose proof (array_count st a k HI HC (mr_array _ _ _ HM)) as Hcount. unfold tuplestore_skiptuples, active.
  rewrite (cm_active _ _ _ HC), Hp, (mr_status _ _ _ HM). cbn [deref mbind outcome_bind].
  replace (Z.of_nat (S m) <=? 0) with false by (symmetry; apply Z.leb_gt; lia). pose proof (dropped_le st a k HI HC) as Hkl.
  pose proof (cm_floor _ _ _ HC) as Hk. pose proof (ar_deleted _ _ _ (mr_array _ _ _ HM)) as Hd. rewrite Heof.
  assert (∀ (c : bool) (P : Prop) `{Decision P} p1 p2 q1 q2,
    c = bool_decide P → (c = true → at_mem k (ts_memtupdeleted st) (as_active a) p1 q1) → (c = false → at_mem k (ts_memtupdeleted st) (as_active a) p2 q2) →
    ∃ st', (if c then Ok (true, set_active st p1) else Ok (false, set_active st p2))
           = Ok ((if bool_decide P then (true, a_set_ptr a q1) else (false, a_set_ptr a q2)).1, st')
           ∧ rel st' (if bool_decide P then (true, a_set_ptr a q1) else (false, a_set_ptr a q2)).2) as Hcases.
  { intros c P ? p1 p2 q1 q2 <- H1 H2. destruct c; eexists; (split; [done|]); apply (mem_set_active st a k _ _ HM HC); auto. }
  destruct forward.
  - destruct (ap_eof q) eqn:Hqe.
    { rewrite a_skip_S, Hq. cbn [a_get]. unfold a_get_forward. rewrite Hqe. exists st. split; [done|]. by apply (rel_mem _ _ k). }
    rewrite (a_skip_forward (S m) a q) by done. destruct (ptr_pos st a k HI HC _ _ Hq Hqe) as [Hpos _]. specialize (Hc eq_refl).
    apply Hcases; [|intros _; split; [by split|]; intros _; cbn [with_current rp_current ap_pos]; lia|by intros _; split; [by split|]].
    rewrite Hc, Hcount. apply Bool.eq_iff_eq_true. rewrite bool_decide_eq_true, Z.leb_le. lia.
  - specialize (Hb eq_refl). destruct (ap_eof q) eqn:Hqe.
    + rewrite (a_skip_backward_eof m a q) by done. destruct Hb as [_ Hb]. rewrite Hqe in Hb.
      replace (Z.of_nat (S m) - 1) with (Z.of_nat m) by lia.
      apply Hcases; cbn [with_current with_eof rp_current]; [|intros Ht..].
      * rewrite Hcount. apply Bool.eq_iff_eq_true. rewrite bool_decide_eq_true, Z.ltb_lt. lia.
      * split; [by split|]. intros _. cbn [with_current with_eof rp_current ap_pos]. apply Z.ltb_lt in Ht. lia.
      * split; [by split|]. intros _. cbn [with_current with_eof rp_current ap_pos]. apply Z.ltb_ge in Ht. lia.
    + rewrite (a_skip_backward m a q) by done. destruct Hb as [_ Hb]. rewrite Hqe in Hb. specialize (Hc eq_refl).
      destruct (ptr_pos st a k HI HC _ _ Hq Hqe) as [Hpos _].
      apply Hcases; [|intros Ht..].
      * rewrite Hc. apply Bool.eq_iff_eq_true. rewrite bool_decide_eq_true, Z.ltb_lt. lia.
      * split; [by split|]. intros _. cbn [with_current with_eof rp_current ap_pos]. apply Z.ltb_lt in Ht. lia.
      * split; [by split|]. intros _. cbn [with_current with_eof rp_current ap_pos]. apply Z.ltb_ge in Ht. lia.
Qed.

Lemma skip_sim st a q n forward :
  rel st a → a_inv a → as_ptrs a !! as_active a = Some q → (forward = false → back_ok a q (Z.to_nat n)) →
  ∃ st', tuplestore_skiptuples chunk_space st n forward = Ok ((a_skip (Z.to_nat n) a forward).1, st') ∧ rel st' (a_skip (Z.to_nat n) a forward).2.
Proof.
  intros HR HI Hq Hb. destruct (Z.to_nat n) as [|m] eqn:Hn.
  { exists st. split; [|done]. unfold tuplestore_skiptuples. by replace (n <=? 0) with true by (symmetry; apply Z.leb_le; lia). }
  replace n with (Z.of_nat (S m)) by lia. destruct (rel_active _ _ _ HR Hq) as (p & Ha & _).
  destruct HR as [k C R|k f C R|k f C R]; [by eapply skip_mem|..];
    (destruct (skip_loop_sim (S m) st a forward) as (st' & Hs & HR'); [first [by eapply rel_write|by eapply rel_read]|done|intros -> q' Hq'; simplify_eq; by apply Hb|]);
    exists st'; (split; [|done]); rewrite <- Hs; unfold tuplestore_skiptuples; rewrite Ha;
    replace (Z.of_nat (S m) <=? 0) with false by (symmetry; apply Z.leb_gt; lia); cbn [mbind outcome_bind];
    [rewrite (wr_status _ _ _ _ R)|rewrite (rr_status _ _ _ _ R)]; by rewrite Nat2Z.id.
Qed.

(** ** Rescanning *)

Lemma rescan_sim st a q :
  rel st a → a_inv a → as_ptrs a !! as_active a = Some q → has_flag (ap_eflags q) EXEC_FLAG_REWIND = true →
  ∃ st', tuplestore_rescan st = Ok st' ∧ rel st' (a_rescan a q).
Proof.
  intros HR HI Hq Hr. destruct (a_inv_rescan a HI q Hq Hr) as [Hfl0 _]. destruct (rel_active _ _ _ HR Hq) as (p & Ha & Hfl & Heof).
  unfold tuplestore_rescan. rewrite Ha. cbn [mbind outcome_bind].
  destruct HR as [k C R|k f C R|k f C R]; assert (k = 0%nat) as -> by (pose proof (cm_floor _ _ _ C); lia).
  - rewrite (mr_status _ _ _ R). eexists. split; [done|]. apply (mem_set_active st a 0 _ _ R C). split; [by split|].
    intros _. pose proof (ar_deleted _ _ _ (mr_array _ _ _ R)). cbn. lia.
  - rewrite (wr_status _ _ _ _ R). eexists. split; [done|]. destruct R as [Hst Hf Ht Hp], C as [C1 C2 C3 C4 C5 C6].
    apply (rel_write _ _ 0 f); [by constructor|]. constructor; [done|by destruct Hf|done|]. cbn. rewrite C2.
    apply (ptrs_insert _ _ _ _ Hp); [done|]. by split; [by split|].
  - rewrite (rr_status _ _ _ _ R). destruct (file_seek f _ _ (0, 0) 0 (rr_at _ _ _ _ R q Hq)) as (f' & Hs & Ht); [done|lia|].
    unfold seek_to, file_of. cbn. rewrite (fr_file _ _ _ _ (rr_file _ _ _ _ R)). cbn in *. rewrite Hs. eexists. split; [done|].
    apply (read_set_active st a 0 f f' (ts_availMem st) (with_eof p false) (mkAPtr (ap_eflags q) false 0)); done.
Qed.

(** ** Selecting *)

Lemma select_sim st a i :
  rel st a → a_inv a → (i < length (as_ptrs a))%nat → ∃ st', tuplestore_select_read_pointer st i = Ok st' ∧ rel st' (a_select a i).
Proof.
  intros HR HI Hi. unfold tuplestore_select_read_pointer. destruct (rel_common _ _ HR) as [k0 C0]. destruct (bool_decide_reflect (i = ts_activeptr st)) as [->|Hne].
  { exists st. split; [done|]. rewrite (cm_active _ _ _ C0). by destruct a. }
  rewrite (cm_active _ _ _ C0) in Hne. clear k0 C0. destruct (lookup_lt_is_Some_2 _ _ Hi) as [q Hq]. destruct (a_inv_active a HI) as (q0 & Hq0 & _).
  destruct (ptrs_lookup _ _ _ (rel_ptrs _ _ HR) _ _ Hq) as (p & Hp & _ & Heof). rewrite Hp.
  destruct (rel_active _ _ _ HR Hq0) as (p0 & Ha & _ & Heof0). rewrite Ha. cbn [deref mbind outcome_bind].
  destruct HR as [k C R|k f C R|k f C R].
  - rewrite (mr_status _ _ _ R). eexists. split; [done|]. apply (rel_mem _ _ k); [by destruct C|]. by destruct R as [? [] ?].
  - rewrite (wr_status _ _ _ _ R). eexists. split; [done|]. apply (rel_write _ _ k f); [by destruct C|]. by destruct R as [? [] ?].
  - rewrite (rr_status _ _ _ _ R). pose proof (save_position st a k f p0 R C HI Ha) as Hsave.
    destruct R as [Hst [Hf Hback Hdata] Hw Ht Hps]. unfold file_of. rewrite Hf. cbn [deref mbind outcome_bind].
    destruct (proj2 Hps _ _ _ Hp Hq) as [_ Hoff].
    set (o := if rp_eof p then _ else _). assert (points_to o (off (ts_backward st) (kept a k) (boundary a k q))) as Ho.
    { unfold o, boundary. rewrite Heof. destruct (ap_eof q) eqn:Hqe; [by destruct (rp_eof p0); cbn; rewrite off_end|].
      apply Hoff; [done|]. by intros [= <-]. }
    destruct (file_seek f _ _ o _ (Ht q0 Hq0) Ho) as (f' & Hs & Ht'); [apply off_le|].
    set (st1 := if rp_eof p0 then st else _) in *. assert (seek_to st1 o = Ok (set_file st1 f')) as ->.
    { unfold seek_to, file_of, st1. destruct (rp_eof p0); cbn; rewrite Hf; cbn; by rewrite Hs. }
    eexists. split; [done|]. apply (rel_read _ _ k f').
    + destruct C. unfold st1. by destruct (rp_eof p0).
    + unfold st1 in *. constructor; [by destruct (rp_eof p0)|constructor; cbn; by destruct (rp_eof p0)|..].
      * by destruct (rp_eof p0).
      * cbn. intros q' Hq'. simplify_eq. by destruct (rp_eof p0).
      * assert (ts_backward (set_activeptr (set_file st1 f') i) = ts_backward st) as Hbk by (unfold st1; by destruct (rp_eof p0)).
        unfold st1 in Hbk. rewrite Hbk. apply (ptrs_mono _ _ _ _ Hsave). intros j p1 q1 _ [Hs1 Hc1]. split; [done|]. intros He _. by apply Hc1.
Qed.

(** ** Copying *)

Lemma flags_eq ps qs : ptrs_rel (fun _ => same_ptr) ps qs → rp_eflags <$> ps = ap_eflags <$> qs.
Proof.
  intros [Hl Hi]. apply list_eq. intros i. rewrite !list_lookup_fmap. destruct (ps !! i) as [p|] eqn:Hp, (qs !! i) as [q|] eqn:Hq; cbn; try done.
  - f_equal. by apply (Hi i p q).
  - apply lookup_lt_Some in Hp. apply lookup_ge_None_1 in Hq. lia.
  - apply lookup_lt_Some in Hq. apply lookup_ge_None_1 in Hp. lia.
Qed.

(** the copy in the array of read pointers, and the flags *)
Definition copied_ptr st (dst : nat) (sp dp : TSReadPointer) : Tuplestorestate F :=
  let ptrs := <[dst := sp]> (ts_readptrs st) in
  set_readptrs (if rp_eflags dp =? rp_eflags sp then st else set_eflags st (foldl Z.lor 0 (rp_eflags <$> ptrs))) ptrs.

#[local] Arguments copied_ptr : simpl never.

Lemma copied_fields st dst sp dp :
  let st' := copied_ptr st dst sp dp in
  ts_status st' = ts_status st ∧ ts_backward st' = ts_backward st ∧ ts_myfile st' = ts_myfile st ∧ ts_memtuples st' = ts_memtuples st
  ∧ ts_memtupdeleted st' = ts_memtupdeleted st ∧ ts_memtupsize st' = ts_memtupsize st ∧ ts_writepos st' = ts_writepos st
  ∧ ts_activeptr st' = ts_activeptr st.
Proof. unfold copied_ptr. by destruct (_ =? _). Qed.

Section CopyPtr.
Context (st : Tuplestorestate F) (a : astore) (src dst : nat) (s d : aptr) (sp dp : TSReadPointer).
Context (HR : rel st a) (HI : a_inv a) (Hne : src ≠ dst).
Context (Hs : as_ptrs a !! src = Some s) (Hd : as_ptrs a !! dst = Some d) (Hsp : ts_readptrs st !! src = Some sp) (Hdp : ts_readptrs st !! dst = Some dp).

Abbreviation a' := (a_copy a src dst s d).
Abbreviation st' := (copied_ptr st dst sp dp).

Lemma a_copy_fields : as_tuples a' = as_tuples a ∧ as_ptrs a' = <[dst := s]> (as_ptrs a) ∧ as_floor a' = as_floor a ∧ as_active a' = as_active a.
Proof. unfold a_copy. by rewrite bool_decide_false. Qed.

Lemma copied_eflags : ts_eflags st' = as_eflags a'.
Proof.
  destruct (rel_common _ _ HR) as [k C]. pose proof (rel_ptrs _ _ HR) as Hps. unfold copied_ptr, a_copy. rewrite bool_decide_false by done.
  pose proof (proj2 Hps _ _ _ Hsp Hs) as [Hfs _]. pose proof (proj2 Hps _ _ _ Hdp Hd) as [Hfd _]. rewrite <- Hfs, <- Hfd.
  destruct (_ =? _); cbn; [apply (cm_eflags _ _ _ C)|]. f_equal. apply flags_eq, (ptrs_insert _ _ _ _ Hps); [done|].
  by apply (proj2 Hps _ _ _ Hsp Hs).
Qed.

Lemma copied_common k : common st a k → common st' a' k.
Proof.
  intros [C1 C2 C3 C4 C5 C6]. destruct a_copy_fields as (E1 & _ & E3 & E4). constructor; [apply copied_eflags|..]; rewrite ?E1, ?E3, ?E4; try done;
    unfold copied_ptr; by destruct (_ =? _).
Qed.

Lemma copied_back : (has_flag (ts_eflags st) EXEC_FLAG_BACKWARD = true → ts_backward st = true) →
  has_flag (ts_eflags st') EXEC_FLAG_BACKWARD = true → ts_backward st' = true.
Proof.
  intros Hb. destruct (copied_fields st dst sp dp) as (_ & -> & _). rewrite copied_eflags. intros Hf. apply Hb.
  destruct (rel_common _ _ HR) as [k C]. rewrite (cm_eflags _ _ _ C). eapply sub_flags_has; [|exact Hf].
  unfold a_copy. rewrite bool_decide_false by done. apply (copy_flags a HI s d dst). by apply list_elem_of_lookup_2 in Hs.
Qed.

Lemma copied_mem k : mem_rel st a k → common st a k → rel st' a'.
Proof.
  intros [Hst [Hdel Ht Hp] Hsize] C. pose proof (copied_common k C) as C'. destruct a_copy_fields as (E1 & E2 & _ & _).
  destruct (copied_fields st dst sp dp) as (F1 & F2 & F3 & F4 & F5 & F6 & F7 & F8).
  apply (rel_mem _ _ k C'). constructor; [congruence| |unfold ts_memtupcount; by rewrite F4, F6].
  constructor; [by rewrite F5|rewrite F4, F5; unfold kept; by rewrite E1|]. rewrite F5, E2.
  apply (ptrs_insert _ _ _ _ Hp); [done|]. by apply (proj2 Hp _ _ _ Hsp Hs).
Qed.

Lemma copied_contents k : contents st' a' k = contents st a k.
Proof. destruct (copied_fields st dst sp dp) as (_ & F2 & _), a_copy_fields as (E1 & _). unfold contents, kept. by rewrite F2, E1. Qed.

Lemma copied_file k f f' : file_rel st a k f → file_rel (set_file st' f') a' k f'.
Proof.
  intros [Hf Hback Hdata]. destruct a_copy_fields as (E1 & E2 & _ & _). constructor; [done|by apply copied_back|by rewrite E1].
Qed.

Lemma copied_write k f : write_rel st a k f → common st a k → rel st' a'.
Proof.
  intros [Hst Hf Ht Hp] C. pose proof (copied_common k C) as C'. pose proof (copied_file k f f Hf) as Hf'. destruct a_copy_fields as (E1 & E2 & _ & _).
  destruct (copied_fields st dst sp dp) as (F1 & F2 & F3 & F4 & F5 & F6 & F7 & F8).
  apply (rel_write _ _ k f C'). constructor; [congruence| |by rewrite copied_contents|].
  - destruct Hf' as [_ Hback Hdata]. constructor; [rewrite F3; by destruct Hf|done..].
  - rewrite F2, E2. unfold kept. rewrite E1. apply (ptrs_insert _ _ _ _ Hp); [done|].
    destruct (proj2 Hp _ _ _ Hsp Hs) as [Hss Hc]. split; [done|]. intros He _. by apply Hc.
Qed.

(** the file while it is read: the position of the active pointer moves if it is
    the target, and is saved if it is the source *)
Lemma copied_read k f f' sp' :
  read_rel st a k f → common st a k →
  (∀ q, <[dst := s]> (as_ptrs a) !! as_active a = Some q → file_at f' (contents st a k) (off (ts_backward st) (kept a k) (boundary a k q))) →
  at_file k (ts_backward st) (kept a k) (Some (as_active a)) dst sp' s →
  rel (set_file (set_readptrs st' (<[dst := sp']> (ts_readptrs st))) f') a'.
Proof.
  intros [Hst Hf Hw Ht Hp] C Ht' Hat. pose proof (copied_common k C) as C'. pose proof (copied_file k f f' Hf) as Hf'.
  destruct a_copy_fields as (E1 & E2 & E3 & E4). destruct (copied_fields st dst sp dp) as (F1 & F2 & F3 & F4 & F5 & F6 & F7 & F8).
  assert (kept a' k = kept a k) as Ek by (unfold kept; by rewrite E1).
  assert (contents (set_file (set_readptrs st' (<[dst := sp']> (ts_readptrs st))) f') a' k = contents st a k) as Hc by apply copied_contents.
  apply (rel_read _ _ k f'); [by destruct C'|]. constructor.
  - cbn. congruence.
  - by destruct Hf'.
  - rewrite Hc. cbn. by rewrite F7.
  - rewrite Hc. intros q. cbn. rewrite E2, E4, F2, Ek. intros Hq. pose proof (Ht' q Hq) as Hq'. unfold boundary in *. by rewrite Ek.
  - cbn. rewrite F2, E2, E4, Ek. by apply (ptrs_insert _ _ _ _ Hp).
Qed.
End CopyPtr.

Lemma copy_sim st a src dst s d :
  rel st a → a_inv a → as_ptrs a !! src = Some s → as_ptrs a !! dst = Some d →
  ∃ st', tuplestore_copy_read_pointer st src dst = Ok st' ∧ rel st' (a_copy a src dst s d).
Proof.
  intros HR HI Hs Hd. unfold tuplestore_copy_read_pointer. destruct (bool_decide_reflect (src = dst)) as [->|Hne].
  { exists st. unfold a_copy. by rewrite bool_decide_true. }
  destruct (ptrs_lookup _ _ _ (rel_ptrs _ _ HR) _ _ Hs) as (sp & Hsp & Hss), (ptrs_lookup _ _ _ (rel_ptrs _ _ HR) _ _ Hd) as (dp & Hdp & _).
  rewrite Hsp, Hdp. cbn [deref mbind outcome_bind]. fold (copied_ptr st dst sp dp).
  destruct (copied_fields st dst sp dp) as (F1 & F2 & F3 & _ & _ & _ & F7 & F8). rewrite F1, F8.
  pose proof HR as [k C R|k f C R|k f C R].
  - rewrite (mr_status _ _ _ R). eexists. split; [done|]. by apply copied_mem with k.
  - rewrite (wr_status _ _ _ _ R). eexists. split; [done|]. by apply copied_write with k f.
  - rewrite (rr_status _ _ _ _ R), (cm_active _ _ _ C). pose proof (rr_file _ _ _ _ R) as [Hf _ _]. pose proof (rr_at _ _ _ _ R) as Htell.
    pose proof (proj2 (rr_ptrs _ _ _ _ R) _ _ _ Hsp Hs) as [_ Hoff]. destruct Hss as [Hfl Heof].
    assert (∀ sp', set_readptrs (copied_ptr st dst sp dp) (<[dst := sp']> (ts_readptrs (copied_ptr st dst sp dp)))
                   = set_readptrs (copied_ptr st dst sp dp) (<[dst := sp']> (ts_readptrs st))) as Htwice.
    { intros sp'. unfold copied_ptr. cbn. by rewrite list_insert_insert_eq. }
    assert (copied_ptr st dst sp dp = set_readptrs (copied_ptr st dst sp dp) (<[dst := sp]> (ts_readptrs st))) as Hself.
    { unfold copied_ptr. by destruct (_ =? _). }
    destruct (bool_decide_reflect (dst = as_active a)) as [Hda|Hda].
    + set (o := if rp_eof sp then _ else _). assert (points_to o (off (ts_backward st) (kept a k) (boundary a k s))) as Ho.
      { unfold o, boundary. rewrite Heof, F7. destruct (ap_eof s) eqn:He; [by rewrite off_end by done; apply (rr_writepos _ _ _ _ R)|].
        apply Hoff; [done|]. congruence. }
      destruct (a_inv_active a HI) as (q0 & Hq0 & _). destruct (file_seek f _ _ o _ (Htell q0 Hq0) Ho) as (f' & Hsk & Ht'); [apply off_le|].
      unfold seek_to, file_of. rewrite F3, Hf. cbn. rewrite Hsk. eexists. split; [done|]. rewrite Hself. apply (copied_read st a src dst s d sp dp) with k f; try done.
      * intros q Hq. rewrite <- Hda, list_lookup_insert_eq in Hq by (by eapply lookup_lt_Some). by simplify_eq.
      * split; [done|]. congruence.
    + assert (∀ sp', at_file k (ts_backward st) (kept a k) (Some (as_active a)) dst sp' s → 
        rel (set_readptrs (copied_ptr st dst sp dp) (<[dst := sp']> (ts_readptrs st))) (a_copy a src dst s d)) as Hother.
      { intros sp' Hat. assert (set_readptrs (copied_ptr st dst sp dp) (<[dst := sp']> (ts_readptrs st)) =
          set_file (set_readptrs (copied_ptr st dst sp dp) (<[dst := sp']> (ts_readptrs st))) f) as -> by (unfold set_file; cbn; by rewrite <- Hf, <- F3).
        apply (copied_read st a src dst s d sp dp) with k f; try done. intros q Hq. apply Htell. by rewrite list_lookup_insert_ne in Hq. }
      destruct (bool_decide_reflect (src = as_active a)) as [Hsa|Hsa].
      * unfold file_of. rewrite F3, Hf. cbn [deref mbind outcome_bind]. eexists. split; [done|]. destruct (rp_eof sp) eqn:He.
        -- rewrite Hself. apply Hother. split; [by split; congruence|]. congruence.
        -- rewrite Htwice. apply Hother. split; [by split; cbn; congruence|]. intros _ _. cbn. rewrite Hsa in Hs. pose proof (file_tell _ _ _ (Htell s Hs)) as Hpt. unfold boundary in Hpt. by rewrite <- Heof in Hpt.
      * eexists. split; [done|]. rewrite Hself. apply Hother. split; [done|]. intros He _. apply Hoff; [done|]. congruence.
Qed.
End Ptr.

(** * Allocating read pointers, trimming and clearing simulate the abstract store *)

(** the oldest position is above the floor *)
Lemma a_oldest_floor a : a_inv a → as_floor a = 0%nat ∨ (as_floor a < a_oldest a)%nat.
Proof.
  intros HI. destruct (decide (as_floor a = 0%nat)) as [|Hne]; [by left|right]. destruct (ai_floor a HI) as [?|[Hn _]]; [done|].
  assert (Forall (fun q => ap_eof q = false → as_floor a < ap_pos q)%nat (as_ptrs a)) as Hpos.
  { eapply Forall_impl; [apply (ai_pos a HI)|]. intros q Hq He. specialize (Hq He). lia. }
  unfold a_oldest. revert Hn Hpos. generalize (length (as_tuples a)).
  induction (as_ptrs a) as [|q qs IH]; intros n Hn Hpos; cbn; [done|]. apply Forall_cons in Hpos as [Hq Hqs].
  apply IH; [|done]. destruct (ap_eof q); [done|]. specialize (Hq eq_refl). lia.
Qed.

Section Trim.
Context {F : Type} `{TempFileLaws F} (chunk_space : Z → Z).
Implicit Types (st : Tuplestorestate F) (a : astore) (k : nat).

(** ** Allocating *)

Lemma has_data_spec st a : rel st a → a_inv a → has_data st = negb (bool_decide (as_tuples a = [])).
Proof.
  intros [k C R|k f C R|k f C R] HI; unfold has_data.
  - pose proof (array_count st a k HI C (mr_array _ _ _ R)) as Hc. pose proof (ar_deleted _ _ _ (mr_array _ _ _ R)).
    pose proof (dropped_lt st a k HI C). rewrite (mr_status _ _ _ R), bool_decide_true by done. cbn. f_equal. apply Bool.eq_iff_eq_true.
    rewrite Z.eqb_eq, bool_decide_eq_true, Hc. rewrite <- length_zero_iff_nil. lia.
  - rewrite (wr_status _ _ _ _ R), bool_decide_false by done. cbn. rewrite bool_decide_false; [done|]. apply (fr_data _ _ _ _ (wr_file _ _ _ _ R)).
  - rewrite (rr_status _ _ _ _ R), bool_decide_false by done. cbn. rewrite bool_decide_false; [done|]. apply (fr_data _ _ _ _ (rr_file _ _ _ _ R)).
Qed.

Lemma set_eflags_sim st a eflags :
  rel st a → a_inv a →
  match a_set_eflags a eflags with
  | Ok a' => ∃ st', tuplestore_set_eflags st eflags = Ok st' ∧ rel st' a'
  | Err e => tuplestore_set_eflags st eflags = Err e
  | _ => False
  end.
Proof.
  intros HR HI. unfold tuplestore_set_eflags, a_set_eflags. rewrite (has_data_spec st a HR HI). pose proof (ai_active a HI) as Hact.
  case_bool_decide as Hnil; cbn [negb]; [|done]. destruct (rel_ptrs _ _ HR) as [Hl Hps].
  destruct (as_ptrs a) as [|q qs] eqn:Hqs; [cbn in Hact; lia|]. destruct (ts_readptrs st) as [|p ps] eqn:Hrp; [done|]. eexists. split; [done|].
  assert (rp_eflags <$> ps = ap_eflags <$> qs) as Hfl.
  { apply flags_eq. split; [by injection Hl|]. intros i p' q' Hp' Hq'. by apply (Hps (S i)). }
  destruct HR as [k C R|k f C R|k f C R]; [|destruct (fr_data _ _ _ _ (wr_file _ _ _ _ R) Hnil)|destruct (fr_data _ _ _ _ (rr_file _ _ _ _ R) Hnil)].
  apply (rel_mem _ _ k); [destruct C; constructor; cbn; by rewrite ?Hfl|]. destruct R as [Hst [Hd Ht Hp] Hsize]. rewrite Hqs, Hrp in Hp.
  constructor; [done|constructor; [done|done|]|done]. cbn. split; [done|]. intros [|i] p' q' Hp' Hq'; [|by apply (proj2 Hp (S i))].
  cbn in Hp', Hq'. simplify_eq. destruct (proj2 Hp 0%nat p q eq_refl eq_refl) as [[_ He] Hc]. by split.
Qed.

Lemma alloc_sim st a eflags :
  rel st a → a_inv a → admissible a (Alloc eflags) →
  match a_alloc a eflags with
  | Ok (i, a') => ∃ st', tuplestore_alloc_read_pointer st eflags = Ok (i, st') ∧ rel st' a'
  | Err e => tuplestore_alloc_read_pointer st eflags = Err e
  | _ => False
  end.
Proof.
  intros HR HI Hadm. unfold tuplestore_alloc_read_pointer, a_alloc. rewrite (has_data_spec st a HR HI). destruct (rel_common _ _ HR) as [k0 C0].
  rewrite (cm_eflags _ _ _ C0). destruct (_ && _) eqn:Hlate; [done|]. pose proof (rel_ptrs _ _ HR) as Hps.
  assert (∃ q, as_ptrs a !! 0%nat = Some q) as [q Hq] by (apply lookup_lt_is_Some_2; pose proof (ai_active a HI); lia).
  destruct (ptrs_lookup _ _ _ Hps _ _ Hq) as (p & Hp & Hs). 
  rewrite !head_lookup, Hp, Hq. cbn [deref mbind outcome_bind]. eexists. split; [by rewrite (proj1 Hps)|].
  assert (∀ k, common st a k → common (set_eflags (set_readptrs st (ts_readptrs st ++ [mkReadPtr eflags (rp_eof p) (rp_current p) (rp_offset p)])) (Z.lor (as_eflags a) eflags))
    (mkAStore (as_tuples a) (Z.lor (as_eflags a) eflags) (as_floor a) (as_ptrs a ++ [mkAPtr eflags (ap_eof q) (ap_pos q)]) (as_active a)) k) as HC'.
  { intros k []. by constructor. }
  assert (as_tuples a ≠ [] → Z.lor (as_eflags a) eflags = as_eflags a) as Hsame.
  { intros Hne. rewrite bool_decide_false in Hlate by done. cbn in Hlate. by apply negb_false_iff, Z.eqb_eq in Hlate. }
  destruct Hs as [Hfl Heof]. destruct HR as [k C R|k f C R|k f C R].
  - apply (rel_mem _ _ k (HC' k C)). destruct R as [Hst [Hd Ht Hpr] Hsize]. constructor; [done| |done]. constructor; [done|done|].
    cbn. apply (ptrs_snoc _ _ _ _ Hpr); [done|]. split; [by split|]. apply (proj2 Hpr _ _ _ Hp Hq).
  - apply (rel_write _ _ k f (HC' k C)). destruct R as [Hst [Hf Hback Hdata] Ht Hpr]. constructor; [done| |done|].
    + constructor; [done| |done]. cbn. by rewrite Hsame, <- (cm_eflags _ _ _ C).
    + cbn. apply (ptrs_snoc _ _ _ _ Hpr); [done|]. split; [by split|]. intros He _. by apply (proj2 Hpr _ _ _ Hp Hq).
  - apply (rel_read _ _ k f (HC' k C)). destruct R as [Hst [Hf Hback Hdata] Hw Ht Hpr]. constructor; [done| |done| |].
    + constructor; [done| |done]. cbn. by rewrite Hsame, <- (cm_eflags _ _ _ C).
    + cbn. intros q' Hq'. rewrite lookup_app_l in Hq' by apply (ai_active a HI). by apply Ht.
    + cbn. apply (ptrs_snoc _ _ _ _ Hpr); [done|]. split; [by split|]. cbn. intros He _. apply (proj2 Hpr _ _ _ Hp Hq); [done|].
      destruct Hadm as [?|[?|(q' & Hq' & He')]]; [done|congruence|]. congruence.
Qed.

(** ** Trimming *)

Lemma free_tuples_spec es st : ∃ m, foldl (free_tuple chunk_space) st es = set_availMem st m.
Proof.
  revert st. induction es as [|e es IH]; intros st; [exists (ts_availMem st); by destruct st|].
  cbn. destruct (IH (free_tuple chunk_space st e)) as [m ->]. destruct e as [[[] t]|]; eexists; done.
Qed.

Lemma oldest_spec st a k : a_inv a → common st a k → array_rel st a k →
  oldest_current st = ts_memtupdeleted st + Z.of_nat (a_oldest a) - Z.of_nat k.
Proof.
  intros HI C HA. unfold oldest_current, a_oldest. rewrite (array_count st a k HI C HA). destruct HA as [_ _ [Hl Hi]].
  generalize (length (as_tuples a)). revert Hl Hi. generalize (as_ptrs a). induction (ts_readptrs st) as [|p ps IH]; intros [|q qs] Hl Hi n; try done.
  cbn. destruct (Hi 0%nat p q eq_refl eq_refl) as [[_ Heof] Hc]. rewrite Heof.
  replace (if ap_eof q then _ else _) with (ts_memtupdeleted st + Z.of_nat (if ap_eof q then n else Nat.min n (ap_pos q)) - Z.of_nat k).
  - apply IH; [by injection Hl|]. intros i p' q' Hp Hq. by apply (Hi (S i)).
  - destruct (ap_eof q); [done|]. rewrite Hc by done. lia.
Qed.

Lemma drop_entries d (es : list (bool * list Z)) n :
  (d ≤ n)%nat → drop n (repeat None d ++ (Some <$> es)) = Some <$> drop (n - d) es.
Proof. intros Hn. rewrite drop_app, drop_ge, repeat_length, fmap_drop by (rewrite repeat_length; lia). done. Qed.

Lemma floor_mono st a n : (as_floor a ≤ n)%nat → rel st a → rel st (mkAStore (as_tuples a) (as_eflags a) n (as_ptrs a) (as_active a)).
Proof.
  intros Hn [k [] [? [] ?]|k f [] [? [] ? ?]|k f [] [? [] ? ? ?]]; [apply (rel_mem _ _ k)|apply (rel_write _ _ k f)|apply (rel_read _ _ k f)];
    (constructor; try done; first [cbn; lia|by constructor]).
Qed.

Lemma trim_mem st a k : mem_rel st a k → common st a k → a_inv a → has_flag (as_eflags a) EXEC_FLAG_REWIND = false → rel (tuplestore_trim chunk_space st) (a_trim a).
Proof.
  intros HM C HI Hr. unfold tuplestore_trim, a_trim. rewrite (cm_eflags _ _ _ C), Hr, (mr_status _ _ _ HM), bool_decide_true by done. cbn [negb].
  pose proof (oldest_spec st a k HI C (mr_array _ _ _ HM)) as Hold. rewrite Hold. pose proof (a_oldest_floor a HI) as Hfl. pose proof (a_oldest_le a) as [Hon _].
  destruct (Z.leb_spec (ts_memtupdeleted st + Z.of_nat (a_oldest a) - Z.of_nat k - 1) 0) as [_|Hpos].
  { apply floor_mono; [lia|]. by apply (rel_mem _ _ k). }
  set (n := ts_memtupdeleted st + Z.of_nat (a_oldest a) - Z.of_nat k - 1) in *.
  match goal with |- context [foldl _ st ?l] => destruct (free_tuples_spec l st) as [m ->] end.
  destruct HM as [Hst [Hd (es & He & Hk) Hp] Hsize]. destruct C as [C1 C2 C3 C4 C5 C6].
  assert (ts_memtupdeleted st ≤ n) as Hdn by lia. set (k' := (a_oldest a - 1)%nat).
  assert (drop (Z.to_nat n) (ts_memtuples st) = Some <$> drop (k' - k) es) as Hdrop.
  { rewrite He, drop_entries by lia. do 2 f_equal. lia. }
  assert ((drop (k' - k) es).*2 = kept a k') as Hkept.
  { rewrite fmap_drop, Hk. unfold kept. rewrite drop_drop. f_equal. lia. }
  assert (length es = length (as_tuples a) - k)%nat as Hlen by (by rewrite <- (length_fmap snd es), Hk, length_kept).
  assert (length (repeat (None : memtuple) (Z.to_nat n) ++ (Some <$> drop (k' - k) es)) = length (ts_memtuples st)) as Hsame.
  { rewrite He, !length_app, !repeat_length, !length_fmap, length_drop. lia. }
  cbn [set_memtuples set_availMem set_truncated ts_memtuples ts_memtupdeleted ts_memtupsize ts_growmemtuples]. rewrite Hdrop.
  match goal with |- rel (if n <? ts_memtupcount ?s / 8 then _ else _) _ => set (st1 := s); destruct (n <? ts_memtupcount st1 / 8) end.
  - apply (rel_mem _ _ k'); [constructor; try done; cbn; lia|]. constructor; [done|constructor|].
    + cbn. lia.
    + exists (drop (k' - k) es). by split.
    + cbn. apply (ptrs_mono _ _ _ _ Hp). intros i p q _ [Hs Hc]. split; [done|]. intros He'. rewrite Hc by done. lia.
    + unfold ts_memtupcount in *. cbn. by rewrite Hsame.
  - apply (rel_mem _ _ k'); [constructor; try done; cbn; lia|]. constructor; [done|constructor|].
    + cbn. lia.
    + exists (drop (k' - k) es). split; [|done]. cbn. rewrite drop_app_length' by (by rewrite repeat_length). done.
    + cbn. rewrite <- (list_fmap_id (as_ptrs a)). apply (ptrs_fmap _ _ _ _ Hp). intros i p q _ [[Hs1 Hs2] Hc]. unfold id. rewrite Hs2.
      destruct (ap_eof q) eqn:Hqe; (split; [split; cbn; congruence|]); [by rewrite Hqe|]. intros _. cbn. rewrite Hc by done. lia.
    + unfold ts_memtupcount in *. cbn. rewrite length_drop, Hsame. lia.
Qed.

Lemma trim_sim st a : rel st a → a_inv a → rel (tuplestore_trim chunk_space st) (a_trim a).
Proof.
  intros HR HI. destruct (has_flag (as_eflags a) EXEC_FLAG_REWIND) eqn:Hr.
  { destruct (rel_common _ _ HR) as [k C]. unfold tuplestore_trim, a_trim. by rewrite (cm_eflags _ _ _ C), Hr. }
  pose proof HR as [k C R|k f C R|k f C R]; [by eapply trim_mem|..]; unfold tuplestore_trim, a_trim; rewrite (cm_eflags _ _ _ C), Hr;
    [rewrite (wr_status _ _ _ _ R)|rewrite (rr_status _ _ _ _ R)]; (rewrite bool_decide_false by done); cbn [negb]; (apply floor_mono; [lia|done]).
Qed.

(** ** Clearing *)

Lemma clear_sim st a : rel st a → rel (tuplestore_clear chunk_space st) (a_clear a).
Proof.
  intros HR. destruct (rel_common _ _ HR) as [k [C1 C2 C3 C4 C5 C6]]. unfold tuplestore_clear.
  match goal with |- context [foldl _ st ?l] => destruct (free_tuples_spec l st) as [m ->] end.
  match goal with |- context [free_block ?s] => assert (∃ m b, free_block s = set_block (set_availMem st m) b) as (m' & b & ->) end.
  { unfold free_block. destruct (ts_block st) eqn:Hb; cbn; rewrite Hb; [by eexists _, None|]. exists m, None. rewrite <- Hb. by destruct st. }
  apply (rel_mem _ _ 0); [by constructor|]. constructor; [done|constructor|unfold ts_memtupcount; cbn in *; lia].
  - done.
  - by exists [].
  - cbn. apply (ptrs_fmap _ _ _ _ (rel_ptrs _ _ HR)). intros i p q _ [Hs1 Hs2]. by split.
Qed.
End Trim.
