(* ===== verification/TuplestoreTheorems.v ===== *)
(** * Tuplestores implement the abstract store *)

From S2P Require Import Prelude Float8 TempFile Tuplestore TuplestoreSpec TuplestoreFile TuplestoreSim TuplestorePut TuplestorePtr Buffile BuffileTheorems.

Section Simulation.
Context {F : Type} `{TempFileLaws F} (chunk_space : Z → Z) `{!ArraySpace chunk_space}.
Implicit Types (st : Tuplestorestate F) (a : astore).

Lemma begin_rel ra maxKBytes : 0 ≤ maxKBytes → rel (F := F) (tuplestore_begin_heap chunk_space ra maxKBytes) (a_begin ra).
Proof.
  intros Hm. apply (rel_mem _ _ 0).
  - constructor; cbn; [by destruct ra|done|done|lia|done|done].
  - constructor; [done|constructor|done].
    + done.
    + by exists [].
    + split; [done|]. intros [|i] p q Hp Hq; [|done]. cbn in *. simplify_eq. by split.
Qed.

(** one operation: the same result and related stores, or the same error *)
Lemma run_sim st a op :
  rel st a → a_inv a → admissible a op →
  match a_run a op with
  | Ok (r, a') => ∃ st', ts_run chunk_space st op = Ok (r, st') ∧ rel st' a'
  | Err e => ts_run chunk_space st op = Err e
  | _ => False
  end.
Proof.
  intros HR HI Hadm. unfold a_run. destruct (a_inv_active a HI) as (q & Hq & _). rewrite Hq. cbn [deref mbind outcome_bind].
  destruct op as [t|ts owned space|forward|forward|n forward| |i|src dst|eflags|eflags| | | |]; cbn [ts_run admissible] in *.
  - destruct (put_sim chunk_space (USEMEM st (tuple_space chunk_space t)) a t) as (st' & Hp & HR'); [by apply rel_availMem|done|done|].
    unfold tuplestore_puttuple. rewrite Hp. by exists st'.
  - destruct Hadm as [Hne Hok]. destruct (putblock_sim chunk_space st a ts owned space HR HI Hne Hok) as (st' & -> & HR'). by exists st'.
  - destruct (get_sim chunk_space st a q forward HR HI Hq) as (r & st' & Hg & Hr & HR'); [intros ->; by apply Hadm|].
    unfold tuplestore_gettupleslot. rewrite Hg. destruct (a_get a q forward) as [t a']. exists st'. split; [|done].
    cbn in *. subst. by destruct r as [[]|].
  - destruct (get_sim chunk_space st a q forward HR HI Hq) as (r & st' & Hg & Hr & HR'); [intros ->; by apply Hadm|].
    unfold tuplestore_advance. rewrite Hg. destruct (a_get a q forward) as [t a']. exists st'. split; [|done].
    cbn in *. subst. by destruct r as [[]|].
  - destruct (skip_sim chunk_space st a q n forward HR HI Hq) as (st' & Hs & HR'); [intros ->; by apply Hadm|].
    rewrite Hs. destruct (a_skip _ _ _) as [b a']. by exists st'.
  - destruct (rescan_sim st a q HR HI Hq (Hadm q Hq)) as (st' & -> & HR'). by exists st'.
  - destruct (select_sim st a i HR HI Hadm) as (st' & -> & HR'). by exists st'.
  - destruct Hadm as [Hs Hd]. destruct (lookup_lt_is_Some_2 _ _ Hs) as [s Hls], (lookup_lt_is_Some_2 _ _ Hd) as [d Hld].
    rewrite Hls, Hld. cbn. destruct (copy_sim st a src dst s d HR HI Hls Hld) as (st' & -> & HR'). by exists st'.
  - pose proof (set_eflags_sim st a eflags HR HI) as Ha. destruct (a_set_eflags a eflags) as [a'| | |]; cbn; [|by rewrite Ha|done|done].
    destruct Ha as (st' & -> & HR'). by exists st'.
  - pose proof (alloc_sim st a eflags HR HI Hadm) as Ha. destruct (a_alloc a eflags) as [[i a']| | |]; cbn; [|by rewrite Ha|done|done].
    destruct Ha as (st' & -> & HR'). by exists st'.
  - eexists. split; [done|]. by apply trim_sim.
  - eexists. split; [done|]. by apply clear_sim.
  - exists st. split; [|done]. destruct (rel_active st a q HR Hq) as (p & Ha & _ & Heof). unfold tuplestore_ateof. rewrite Ha. cbn. by rewrite Heof.
  - exists st. split; [|done]. destruct (rel_common st a HR) as [k C]. by rewrite (cm_tuples _ _ _ C).
Qed.

Lemma run_ops_sim ops : ∀ st a,
  rel st a → a_inv a → admissible_ops a ops → run_ops (ts_run chunk_space) st ops = run_ops a_run a ops.
Proof.
  induction ops as [|op ops IH]; intros st a HR HI Hadm; cbn [run_ops]; [done|]. destruct Hadm as [Hop Hadm].
  pose proof (run_sim st a op HR HI Hop) as Hs. destruct (a_run a op) as [[r a']| | |] eqn:Ha; [|by rewrite Hs|done|done].
  destruct Hs as (st' & -> & HR'). cbn [mbind outcome_bind fst snd]. rewrite (IH st' a'); [done|done| |done].
  by eapply a_inv_run.
Qed.
End Simulation.

(** chunks with a header of 8 bytes *)
Definition space8 (n : Z) : Z := n + 8.

#[export] Instance space8_array : ArraySpace space8 := {| array_overhead := 8; array_space n _ := eq_refl |}.

Section Refinement.
Context {F : Type} `{TempFileLaws F} (chunk_space : Z → Z) `{!ArraySpace chunk_space}.

(** the refinement, for every implementation of temporary files *)
Lemma store_refines randomAccess maxKBytes ops :
  0 ≤ maxKBytes → admissible_ops (a_begin randomAccess) ops →
  run_ops (ts_run chunk_space) (tuplestore_begin_heap (F := F) chunk_space randomAccess maxKBytes) ops = run_ops a_run (a_begin randomAccess) ops.
Proof. intros Hm Hadm. apply run_ops_sim; [done|by apply begin_rel|apply a_inv_begin|done]. Qed.
End Refinement.

(** C12. A tuplestore on buffered files returns for every sequence of operations
    what the abstract store returns, errors included, for every amount of
    memory: the switch to a file, positions and length words in it, moving read
    pointers between states and trimming cannot be seen from outside.

    This is stated for the sequences that are [admissible].  First, what the
    code asserts or relies on: the pointers exist, a pointer that is moved back
    or rescanned has the flag for it and does not go below what has been trimmed,
    and the size of a tuple fits its length word.  Then two conditions that the
    code does not check.  A block of tuples is not empty: in memory an empty
    block would end the EOF state of the other read pointers, in a file it would
    not.  And a read pointer is allocated only while the store is empty, another
    pointer than 0 is active, or pointer 0 is at EOF: the new pointer is a copy
    of pointer 0, whose position in the file is out of date while it is the
    active one, so that without this condition the result would depend on the
    amount of memory. *)
Theorem tuplestore_correct `{DiskLaws} chunk_space `{!ArraySpace chunk_space} randomAccess maxKBytes ops :
  0 ≤ maxKBytes → admissible_ops (a_begin randomAccess) ops →
  run_ops (ts_run chunk_space) (tuplestore_begin_heap (F := BufFile) chunk_space randomAccess maxKBytes) ops = run_ops a_run (a_begin randomAccess) ops.
Proof. intros Hm Hadm. by apply store_refines. Qed.

Definition store_demo : list ts_op :=
  [Alloc 12; Put [1; 2; 3]; Put [4]; Get true; Get true; Get true; AtEof; Put [5; 6]; Get false; Skip 1 false; Select 1; Rescan; Get true;
   Copy 1 0; Select 0; Skip 2 true; Get true; Get false; Count; Trim; Clear; Get true].

Lemma tuplestore_correct_witness :
  0 ≤ 0 ∧ admissible_ops (a_begin true) store_demo
  ∧ run_ops (ts_run (H := @buffile_temp slow_disk) space8) (tuplestore_begin_heap space8 true 0) store_demo = run_ops a_run (a_begin true) store_demo.
Proof.
  assert (admissible_ops (a_begin true) store_demo) as Hadm.
  { vm_compute. split_and!; try done; intros; simplify_eq; cbn; first [done|lia|by left|split; [done|]; by left]. }
  split; [lia|]. split; [exact Hadm|]. apply (@tuplestore_correct slow_disk slow_disk_laws space8 _ true 0 store_demo); [lia|exact Hadm].
Defined.

(** ** Reading back *)

(** one read pointer, at position [i] *)
Definition one_pointer (eflags : Z) (ts : list (list Z)) (i : nat) : astore := mkAStore ts eflags 0 [mkAPtr eflags false i] 0.

Lemma gets_spec e ts : ∀ us,
  run_ops a_run (one_pointer e (us ++ ts) (length us)) (repeat (Get true) (S (length ts))) = Ok ((RTuple ∘ Some <$> ts) ++ [RTuple None])
  ∧ admissible_ops (one_pointer e (us ++ ts) (length us)) (repeat (Get true) (S (length ts))).
Proof.
  induction ts as [|t ts IH]; intros us.
  - rewrite app_nil_r. cbn. unfold a_get_forward. cbn. rewrite lookup_ge_None_2 by done. cbn. done.
  - destruct (IH (us ++ [t])) as [Hr Ha]. rewrite <- app_assoc, length_app, Nat.add_1_r in Hr, Ha. cbn [app] in Hr, Ha.
    cbn [length repeat]. change (Get true :: repeat (Get true) (length ts)) with (repeat (Get true) (S (length ts))). cbn [run_ops admissible_ops].
    assert (a_run (one_pointer e (us ++ t :: ts) (length us)) (Get true) = Ok (RTuple (Some t), one_pointer e (us ++ t :: ts) (S (length us)))) as ->.
    { cbn. unfold a_get_forward. cbn. rewrite list_lookup_middle by done. done. }
    cbn [mbind outcome_bind fst snd]. rewrite Hr. done.
Qed.

Lemma puts_spec e ts : ∀ us,
  let ops := repeat (Get true) (S (length (us ++ ts))) in
  Forall tuple_ok ts →
  run_ops a_run (one_pointer e us 0) ((Put <$> ts) ++ ops) = Ok ((const RDone <$> ts) ++ (RTuple ∘ Some <$> us ++ ts) ++ [RTuple None])
  ∧ admissible_ops (one_pointer e us 0) ((Put <$> ts) ++ ops).
Proof.
  induction ts as [|t ts IH]; intros us ops Hok.
  - unfold ops. rewrite app_nil_r. apply (gets_spec e us []).
  - apply Forall_cons in Hok as [Ht Hok]. destruct (IH (us ++ [t]) Hok) as [Hr Ha]. rewrite <- app_assoc in Hr, Ha. cbn [app] in Hr, Ha. fold ops in Hr, Ha.
    rewrite !fmap_cons. cbn [app run_ops admissible_ops]. change (a_run (one_pointer e us 0) (Put t)) with (Ok (RDone, one_pointer e (us ++ [t]) 0)).
    cbn [mbind outcome_bind fst snd]. rewrite Hr. done.
Qed.

(** C30. Tuples that are put into a tuplestore are read back in the order in which
    they were put, whether they fit into memory or not. *)
Theorem tuplestore_roundtrip `{DiskLaws} chunk_space `{!ArraySpace chunk_space} randomAccess maxKBytes ts :
  0 ≤ maxKBytes → Forall tuple_ok ts →
  run_ops (ts_run chunk_space) (tuplestore_begin_heap (F := BufFile) chunk_space randomAccess maxKBytes) ((Put <$> ts) ++ repeat (Get true) (S (length ts)))
  = Ok ((const RDone <$> ts) ++ (RTuple ∘ Some <$> ts) ++ [RTuple None]).
Proof.
  intros Hm Hok. destruct (puts_spec (as_eflags (a_begin randomAccess)) ts [] Hok) as [Hr Ha]. by rewrite store_refines.
Qed.

Lemma tuplestore_roundtrip_witness :
  let ts := [[1; 2]; []; [3]] in
  Forall tuple_ok ts ∧ run_ops (ts_run (H := @buffile_temp slow_disk) space8) (tuplestore_begin_heap space8 false 0) ((Put <$> ts) ++ repeat (Get true) 4)
  = Ok [RDone; RDone; RDone; RTuple (Some [1; 2]); RTuple (Some []); RTuple (Some [3]); RTuple None].
Proof.
  intros ts. assert (Forall tuple_ok ts) as Hok by (repeat constructor). split; [exact Hok|].
  exact (@tuplestore_roundtrip slow_disk slow_disk_laws space8 _ false 0 ts ltac:(lia) Hok).
Defined.

(** Read pointer 0 is not up to date while it is in use for reading a file:
    a read pointer that is allocated then starts at an older tuple, although the
    comment says that it copies the position of read pointer 0.  With enough
    memory it starts at the position of read pointer 0. *)
Example stale_read_pointer :
  let ops := [Put [1]; Put [2]; Get true; Alloc EXEC_FLAG_REWIND; Select 1; Get true] in
  let run maxKBytes := run_ops (ts_run (H := @buffile_temp slow_disk) space8) (tuplestore_begin_heap space8 true maxKBytes) ops in
  run 0 = Ok [RDone; RDone; RTuple (Some [1]); RPointer 1; RDone; RTuple (Some [1])]
  ∧ run 1024 = Ok [RDone; RDone; RTuple (Some [1]); RPointer 1; RDone; RTuple (Some [2])].
Proof. vm_compute. done. Qed.
