(* ===== verification/FloatFunc.v ===== *)
(** * Functions on double precision numbers

    The functions of [backend/utils/adt/float.c] and
    [include/utils/float.h] that a lambda can be differentiated through, with
    their error reports.  The arithmetic of the C type [double] and the
    functions of the C library are the class [Float8Ops]: the code is the same
    for IEEE numbers and for the real numbers, over which [DeriveGradient.v]
    verifies the derivatives. *)

From S2P Require Import Prelude Bitmapset Nodes.

(** ** Functions, by their OIDs in [pg_proc.dat] *)

Definition F_NUMERIC_ADD : Oid := 1724.
Definition F_NUMERIC_SUB : Oid := 1725.
Definition F_NUMERIC_MUL : Oid := 1726.
Definition F_NUMERIC_DIV : Oid := 1727.
Definition F_FLOAT8MUL : Oid := 216.
Definition F_FLOAT8DIV : Oid := 217.
Definition F_FLOAT8PL : Oid := 218.
Definition F_FLOAT8MI : Oid := 219.
Definition F_FLOAT8UM : Oid := 220.
Definition F_FLOAT8ABS : Oid := 221.
Definition F_ABS_FLOAT8 : Oid := 1395.
Definition F_DSQRT : Oid := 230.
Definition F_SQRT_FLOAT8 : Oid := 1344.
Definition F_DPOW : Oid := 232.
Definition F_POW_FLOAT8_FLOAT8 : Oid := 1346.
Definition F_EXP_FLOAT8 : Oid := 1347.
Definition F_LN_FLOAT8 : Oid := 1341.
Definition F_DLOG10 : Oid := 1339.
Definition F_ASIN : Oid := 1600.
Definition F_ACOS : Oid := 1601.
Definition F_ATAN : Oid := 1602.
Definition F_ATAN2 : Oid := 1603.
Definition F_SIN : Oid := 1604.
Definition F_COS : Oid := 1605.
Definition F_TAN : Oid := 1606.
Definition F_COT : Oid := 1607.
Definition F_SOFTMAX_CCE : Oid := 7801.
Definition F_SILU : Oid := 7802.
Definition F_SIGMOID : Oid := 7803.
Definition F_TANH : Oid := 7804.
Definition F_RELU : Oid := 7805.
Definition F_MAT_MUL : Oid := 9000.
Definition F_SILU_M : Oid := 9001.
Definition F_SIGMOID_M : Oid := 9002.
Definition F_TANH_M : Oid := 9003.
Definition F_RELU_M : Oid := 9004.
Definition F_MAT_ADD : Oid := 9005.

Definition FLOAT8ARRAYOID : Oid := 1022.

(** one of several case labels *)
Definition one_of (oid : Oid) (l : list Oid) : bool := existsb (Z.eqb oid) l.

Definition EDOM : Z := 33.
Definition ERANGE : Z := 34.

(** C's [double] and [math.h]; [errno_exp] and its like are the values of
    [errno] after a call *)
Class Float8Ops (F : Type) := {
  f8 : Z → F;
  f8_add : F → F → F;
  f8_sub : F → F → F;
  f8_mul : F → F → F;
  f8_div : F → F → F;
  f8_neg : F → F;
  f8_eq : F → F → bool;
  f8_lt : F → F → bool;
  f8_isnan : F → bool;
  f8_isinf : F → bool;
  f8_nan : F;
  f8_floor : F → F;
  f8_fabs : F → F;
  f8_sqrt : F → F;
  f8_exp : F → F;
  f8_log : F → F;
  f8_log10 : F → F;
  f8_pow : F → F → F;
  f8_sin : F → F;
  f8_cos : F → F;
  f8_tan : F → F;
  f8_asin : F → F;
  f8_acos : F → F;
  f8_atan : F → F;
  f8_atan2 : F → F → F;
  f8_tanh : F → F;
  errno_exp : F → Z;
  errno_pow : F → F → Z;
  errno_sin : F → Z;
  errno_cos : F → Z;
  errno_tan : F → Z
}.

Declare Scope f8_scope.
Delimit Scope f8_scope with f8.
Infix "⊕" := f8_add (at level 50, left associativity) : f8_scope.
Infix "⊖" := f8_sub (at level 50, left associativity) : f8_scope.
Infix "⊗" := f8_mul (at level 40, left associativity) : f8_scope.
Infix "⊘" := f8_div (at level 40, left associativity) : f8_scope.
Infix "≟" := f8_eq (at level 70) : f8_scope.
Infix "≺" := f8_lt (at level 70) : f8_scope.
#[global] Open Scope f8_scope.

(** C's [<=], false on NaN *)
Definition f8_le `{Float8Ops F} (x y : F) : bool := (x ≺ y) || (x ≟ y).
Infix "≼" := f8_le (at level 70) : f8_scope.

Definition float_overflow_error {A} : outcome A := ereport ERRCODE_NUMERIC_VALUE_OUT_OF_RANGE (lit "value out of range: overflow").
Definition float_underflow_error {A} : outcome A := ereport ERRCODE_NUMERIC_VALUE_OUT_OF_RANGE (lit "value out of range: underflow").
Definition float_zero_divide_error {A} : outcome A := ereport ERRCODE_DIVISION_BY_ZERO (lit "division by zero").
Definition out_of_range_error {A} : outcome A := ereport ERRCODE_NUMERIC_VALUE_OUT_OF_RANGE (lit "input is out of range").

Section Functions.
Context `{Float8Ops F}.
Implicit Types x y : F.

(** the checks after an operation: [over] and [under] say that the result is
    infinite, or zero, although it should not be *)
Definition check_float8 (over under : bool) (result : F) : outcome F :=
  if over then float_overflow_error else if under then float_underflow_error else Ok result.

(** ** Operators *)

Definition float8pl x y : outcome F :=
  let result := x ⊕ y in
  check_float8 (f8_isinf result && negb (f8_isinf x) && negb (f8_isinf y)) false result.

Definition float8mi x y : outcome F :=
  let result := x ⊖ y in
  check_float8 (f8_isinf result && negb (f8_isinf x) && negb (f8_isinf y)) false result.

Definition float8mul x y : outcome F :=
  let result := x ⊗ y in
  check_float8 (f8_isinf result && negb (f8_isinf x) && negb (f8_isinf y))
    ((result ≟ f8 0) && negb (x ≟ f8 0) && negb (y ≟ f8 0)) result.

Definition float8div x y : outcome F :=
  if (y ≟ f8 0) && negb (f8_isnan x) then float_zero_divide_error
  else
    let result := x ⊘ y in
    check_float8 (f8_isinf result && negb (f8_isinf x)) ((result ≟ f8 0) && negb (x ≟ f8 0) && negb (f8_isinf y)) result.

Definition float8abs x : outcome F := Ok (f8_fabs x).

Definition float8um x : outcome F := Ok (f8_neg x).

(** ** Roots, powers, logarithms *)

Definition dsqrt x : outcome F :=
  if x ≺ f8 0 then ereport ERRCODE_INVALID_ARGUMENT_FOR_POWER_FUNCTION (lit "cannot take square root of a negative number")
  else
    let result := f8_sqrt x in
    check_float8 (f8_isinf result && negb (f8_isinf x)) ((result ≟ f8 0) && negb (x ≟ f8 0)) result.

(** the exponent is infinite *)
Definition dpow_inf_y x y : F :=
  let absx := f8_fabs x in
  if absx ≟ f8 1 then f8 1
  else if f8 0 ≺ y then if f8 1 ≺ absx then y else f8 0
  else if f8 1 ≺ absx then f8 0 else f8_neg y.

(** the base is infinite *)
Definition dpow_inf_x x y : F :=
  if y ≟ f8 0 then f8 1
  else if f8 0 ≺ x then if f8 0 ≺ y then x else f8 0
  else
    let halfy := y ⊘ f8 2 in
    let yisoddinteger := negb (f8_floor halfy ≟ halfy) in
    if f8 0 ≺ y then if yisoddinteger then x else f8_neg x
    else if yisoddinteger then f8_neg (f8 0) else f8 0.

(** both are finite *)
Definition dpow_finite x y : outcome F :=
  let result := f8_pow x y in
  if (errno_pow x y =? EDOM) || f8_isnan result then
    if x ≟ f8 0 then Ok (f8 0)
    else
      let absx := f8_fabs x in
      if absx ≟ f8 1 then Ok (f8 1)
      else if (if f8 0 ≼ y then f8 1 ≺ absx else absx ≺ f8 1) then float_overflow_error
      else float_underflow_error
  else if errno_pow x y =? ERANGE then if negb (result ≟ f8 0) then float_overflow_error else float_underflow_error
  else check_float8 (f8_isinf result) ((result ≟ f8 0) && negb (x ≟ f8 0)) result.

Definition dpow x y : outcome F :=
  if f8_isnan x then Ok (if f8_isnan y || negb (y ≟ f8 0) then f8_nan else f8 1)
  else if f8_isnan y then Ok (if negb (x ≟ f8 1) then f8_nan else f8 1)
  else if (x ≟ f8 0) && (y ≺ f8 0) then
    ereport ERRCODE_INVALID_ARGUMENT_FOR_POWER_FUNCTION (lit "zero raised to a negative power is undefined")
  else if (x ≺ f8 0) && negb (f8_floor y ≟ y) then
    ereport ERRCODE_INVALID_ARGUMENT_FOR_POWER_FUNCTION (lit "a negative number raised to a non-integer power yields a complex result")
  else if f8_isinf y then Ok (dpow_inf_y x y)
  else if f8_isinf x then Ok (dpow_inf_x x y)
  else dpow_finite x y.

Definition dexp x : outcome F :=
  if f8_isnan x then Ok x
  else if f8_isinf x then Ok (if f8 0 ≺ x then x else f8 0)
  else
    let result := f8_exp x in
    if errno_exp x =? ERANGE then if negb (result ≟ f8 0) then float_overflow_error else float_underflow_error
    else check_float8 (f8_isinf result) (result ≟ f8 0) result.

Definition log_check (log : F → F) x : outcome F :=
  if x ≟ f8 0 then ereport ERRCODE_INVALID_ARGUMENT_FOR_LOG (lit "cannot take logarithm of zero")
  else if x ≺ f8 0 then ereport ERRCODE_INVALID_ARGUMENT_FOR_LOG (lit "cannot take logarithm of a negative number")
  else
    let result := log x in
    check_float8 (f8_isinf result && negb (f8_isinf x)) ((result ≟ f8 0) && negb (x ≟ f8 1)) result.

Definition dlog1 : F → outcome F := log_check f8_log.
Definition dlog10 : F → outcome F := log_check f8_log10.

(** ** Trigonometric functions *)

(** [dacos] and [dasin] *)
Definition arc_check (arc : F → F) x : outcome F :=
  if f8_isnan x then Ok f8_nan
  else if (x ≺ f8 (-1)) || (f8 1 ≺ x) then out_of_range_error
  else let result := arc x in check_float8 (f8_isinf result) false result.

Definition dacos : F → outcome F := arc_check f8_acos.
Definition dasin : F → outcome F := arc_check f8_asin.

Definition datan x : outcome F :=
  if f8_isnan x then Ok f8_nan else let result := f8_atan x in check_float8 (f8_isinf result) false result.

Definition datan2 x y : outcome F :=
  if f8_isnan x || f8_isnan y then Ok f8_nan else let result := f8_atan2 x y in check_float8 (f8_isinf result) false result.

Definition dcos x : outcome F :=
  if f8_isnan x then Ok f8_nan
  else if negb (errno_cos x =? 0) || f8_isinf x then out_of_range_error
  else let result := f8_cos x in check_float8 (f8_isinf result) false result.

Definition dsin x : outcome F :=
  if f8_isnan x then Ok f8_nan
  else if negb (errno_sin x =? 0) || f8_isinf x then out_of_range_error
  else let result := f8_sin x in check_float8 (f8_isinf result) false result.

Definition dtan x : outcome F :=
  if f8_isnan x then Ok f8_nan
  else if negb (errno_tan x =? 0) || f8_isinf x then out_of_range_error
  else Ok (f8_tan x).

Definition dcot x : outcome F :=
  if f8_isnan x then Ok f8_nan
  else if negb (errno_tan x =? 0) || f8_isinf x then out_of_range_error
  else Ok (f8 1 ⊘ f8_tan x).

(** ** Activation functions *)

Definition sigmoid x : outcome F :=
  if f8_isnan x then Ok f8_nan else Ok (f8 1 ⊘ (f8 1 ⊕ f8_exp (f8 (-1) ⊗ x))).

Definition tan_h x : outcome F :=
  if f8_isnan x then Ok f8_nan else let result := f8_tanh x in check_float8 (f8_isinf result) false result.

Definition silu x : outcome F :=
  if f8_isnan x then Ok f8_nan else Ok (x ⊘ (f8 1 ⊕ f8_exp (f8 (-1) ⊗ x))).

Definition relu x : outcome F :=
  if f8_isnan x then Ok f8_nan else Ok (if x ≼ f8 0 then f8 0 else x).

(** ** Calls by OID *)

(** the functions of one argument and of two, as [pg_proc.dat] has them *)
Definition float8_call (oid : Oid) (args : list F) : outcome F :=
  match args with
  | [x] =>
      if one_of oid [F_DSQRT; F_SQRT_FLOAT8] then dsqrt x
      else if one_of oid [F_FLOAT8ABS; F_ABS_FLOAT8] then float8abs x
      else if oid =? F_FLOAT8UM then float8um x
      else if oid =? F_EXP_FLOAT8 then dexp x
      else if oid =? F_LN_FLOAT8 then dlog1 x
      else if oid =? F_DLOG10 then dlog10 x
      else if oid =? F_ASIN then dasin x
      else if oid =? F_ACOS then dacos x
      else if oid =? F_ATAN then datan x
      else if oid =? F_SIN then dsin x
      else if oid =? F_COS then dcos x
      else if oid =? F_TAN then dtan x
      else if oid =? F_COT then dcot x
      else if oid =? F_SILU then silu x
      else if oid =? F_SIGMOID then sigmoid x
      else if oid =? F_TANH then tan_h x
      else if oid =? F_RELU then relu x
      else UB
  | [x; y] =>
      if oid =? F_FLOAT8MUL then float8mul x y
      else if oid =? F_FLOAT8DIV then float8div x y
      else if oid =? F_FLOAT8PL then float8pl x y
      else if oid =? F_FLOAT8MI then float8mi x y
      else if one_of oid [F_DPOW; F_POW_FLOAT8_FLOAT8] then dpow x y
      else if oid =? F_ATAN2 then datan2 x y
      else UB
  | _ => UB
  end.
End Functions.

(** ** Integers, for examples with sums and products *)

Definition int_float8 : Float8Ops Z := {|
  f8 := id; f8_add := Z.add; f8_sub := Z.sub; f8_mul := Z.mul; f8_div := Z.div; f8_neg := Z.opp; f8_eq := Z.eqb; f8_lt := Z.ltb;
  f8_isnan _ := false; f8_isinf _ := false; f8_nan := 0; f8_floor := id; f8_fabs := Z.abs; f8_sqrt := Z.sqrt; f8_exp := id; f8_log := id;
  f8_log10 := id; f8_pow := Z.pow; f8_sin := id; f8_cos := id; f8_tan := id; f8_asin := id; f8_acos := id; f8_atan := id;
  f8_atan2 := Z.add; f8_tanh := id; errno_exp _ := 0; errno_pow _ _ := 0; errno_sin _ := 0; errno_cos _ := 0; errno_tan _ := 0
|}.
