(* ===== verification/Matrix.v ===== *)
(** * Matrices

    [backend/utils/adt/matrix_ops.c]: arithmetic on arrays of float8, called
    from SQL and by the differentiation of lambdas.  An array has its
    dimensions, its lower bounds and its elements; one whose first lower bound
    is -1 is a scalar.  A pointer to an array is an [option], NULL is [None].

    A loop marked [#pragma omp parallel for] writes each element in one
    iteration, and is modelled by the sequential loop.  Arrays are values:
    [matrix_add_inplace] and [mat_apply_gradient] return the array they
    change. *)

From S2P Require Import Prelude ApplyMt FloatFunc.

(** ** C arrays and loops *)

(** [body] for [n] values of the counter from [i] on *)
Fixpoint for_loop {S} (n : nat) (i : Z) (body : Z → S → outcome S) (s : S) : outcome S :=
  match n with
  | O => Ok s
  | Datatypes.S n => s ← body i s; for_loop n (i + 1) body s
  end.

(** [for (int i = 0; i < n; i++)] *)
Definition for_to {S} (n : Z) (body : Z → S → outcome S) (s : S) : outcome S := for_loop (Z.to_nat n) 0 body s.

(** outside of the array both are undefined *)
Definition array_get {A} (l : list A) (i : Z) : outcome A := if i <? 0 then UB else deref (l !! Z.to_nat i).

Definition array_set {A} (l : list A) (i : Z) (x : A) : outcome (list A) :=
  if (0 <=? i) && (i <? Z.of_nat (length l)) then Ok (<[Z.to_nat i := x]> l) else UB.

Definition MAT_2D (x y row_size : Z) : Z := x * row_size + y.

(** ** Arrays *)

Record ArrayType (F : Type) := mkArray {
  arr_dims : list Z;
  arr_lbound : list Z;
  arr_data : list F
}.
Arguments mkArray {F}.
Arguments arr_dims {F}.
Arguments arr_lbound {F}.
Arguments arr_data {F}.

Definition MaxArraySize : Z := MaxAllocSize / 8.

Definition array_too_big {A} : outcome A :=
  ereport ERRCODE_PROGRAM_LIMIT_EXCEEDED (lit "array size exceeds the maximum allowed (" ++ fmt_d MaxArraySize ++ lit ")").

Fixpoint nitems_loop (ret : Z) (dims : list Z) : outcome Z :=
  match dims with
  | [] => if MaxArraySize <? ret then array_too_big else Ok ret
  | d :: dims => if d <? 0 then array_too_big else if int32 (ret * d) =? ret * d then nitems_loop (ret * d) dims else array_too_big
  end.

Definition ArrayGetNItems (dims : list Z) : outcome Z :=
  match dims with [] => Ok 0 | _ => nitems_loop 1 dims end.

Definition ARR_OVERHEAD_NONULLS (ndims : Z) : Z := (16 + 8 * ndims + 7) / 8 * 8.

(** the bytes of the chunk that [AllocSetAlloc] returns for a request *)
Definition chunk_bytes (size : Z) : Z := if 8192 <? size then (size + 7) / 8 * 8 else if 8 <? size then 2 ^ Z.log2_up size else 8.

Section Matrix.
Context `{Float8Ops F}.

Abbreviation array := (ArrayType F).

Definition ARR_NDIM (a : array) : Z := Z.of_nat (length (arr_dims a)).

Definition nitems (a : array) : outcome Z := ArrayGetNItems (arr_dims a).

Definition with_data (a : array) (data : list F) : array := mkArray (arr_dims a) (arr_lbound a) data.

(** a pointer that must not be NULL *)
Definition not_null (msg : string) (p : option array) : outcome array := match p with Some a => Ok a | None => elog (lit msg) end.

(** [palloc_extended] of [nbytes] *)
Definition array_alloc (nbytes : Z) : outcome unit :=
  if nbytes <=? MaxAllocSize then Ok tt else elog (lit "invalid memory alloc request size " ++ fmt_d nbytes).

(** a new array of zeros *)
Definition initResult (dims lbs : list Z) : outcome array :=
  nelems ← ArrayGetNItems dims;
  _ ← array_alloc (nelems * 8 + ARR_OVERHEAD_NONULLS (Z.of_nat (length dims)));
  Ok (mkArray dims lbs (repeat (f8 0) (Z.to_nat nelems))).

(** the copy has the size of the whole array, its header included, and goes to
    the elements of the new array: it is undefined where it runs out of the
    chunk.  It reads as many bytes behind the elements of the original, too; an
    array is taken to be in a chunk of its own that has been allocated for its
    size, so that the original and the copy have chunks of the same size. *)
Definition copyArray (p : option array) : outcome array :=
  a ← not_null "Matrix Copy Array: Null pointer passed as Matrix Inputs!" p;
  nelems ← nitems a;
  let overhead := ARR_OVERHEAD_NONULLS (ARR_NDIM a) in
  let nbytes := nelems * 8 + overhead in
  _ ← array_alloc nbytes;
  if (overhead + nbytes <=? chunk_bytes nbytes) && (nelems <=? Z.of_nat (length (arr_data a)))
  then Ok (with_data a (take (Z.to_nat nelems) (arr_data a))) else UB.

Definition isScalar (a : array) : outcome bool := lb ← deref (head (arr_lbound a)); Ok (lb =? -1).

Definition createScalar (value : F) : outcome array := ret ← initResult [1] [-1]; Ok (with_data ret [value]).

(** [data[i] = f(data[i])] for all elements *)
Definition update_loop (n : Z) (f : F → F) (data : list F) : outcome (list F) :=
  for_to n (fun i data => x ← array_get data i; array_set data i (f x)) data.

(** the element of a scalar *)
Definition scalar_elem (a : array) : outcome F := array_get (arr_data a) 0.

(** ** Products *)

(** the shape of a product; [lbs] has -1 for a scalar *)
Definition product_shape (a1 a2 : array) : outcome (Z * Z * Z * list Z * list Z) :=
  dima ← deref (arr_dims a1 !! 0%nat);
  dimb ← deref (arr_dims a2 !! 0%nat);
  dimc ← (if ARR_NDIM a2 =? 2 then deref (arr_dims a2 !! 1%nat) else Ok 1);
  let matrix := (ARR_NDIM a2 =? 2) && negb ((dima =? 1) && (dimc =? 1)) in
  let lbs := if (dima =? 1) && (dimc =? 1) then -1 else 1 in
  Ok (dima, dimb, dimc, if matrix then [dima; dimc] else [dima], if matrix then [lbs; 1] else [lbs]).

Definition two_vectors {A} : outcome A := elog (lit "Matrix Multiplication Internal: Two column vectors can not be multiplied!").

(** the loops of [matrix_mul]: the elements of the result are the accumulators *)
Definition mul_accumulate (dima dimb dimc : Z) (ps1 ps2 ps : list F) : outcome (list F) :=
  for_to dima (fun i => for_to dimb (fun j => for_to dimc (fun k ps =>
    acc ← array_get ps (MAT_2D i k dimc);
    x ← array_get ps1 (MAT_2D i j dimb);
    y ← array_get ps2 (MAT_2D j k dimc);
    array_set ps (MAT_2D i k dimc) (acc ⊕ x ⊗ y)))) ps.

(** the loops of [matrix_mul_internal]: one element after the other *)
Definition mul_dots (dima dimb dimc : Z) (ps1 ps2 ps : list F) : outcome (list F) :=
  for_to dima (fun i => for_to dimc (fun k ps =>
    tmp ← for_to dimb (fun j tmp =>
      x ← array_get ps1 (MAT_2D i j dimb);
      y ← array_get ps2 (MAT_2D j k dimc);
      Ok (tmp ⊕ x ⊗ y)) (f8 0);
    array_set ps (MAT_2D i k dimc) tmp)) ps.

(** a copy, multiplied by the scalar [s] *)
Definition scale_copy (copy : outcome array) (s : array) (n : Z) : outcome array :=
  ret ← copy;
  data ← (if 0 <? n then x ← scalar_elem s; update_loop n (fun y => y ⊗ x) (arr_data ret) else Ok (arr_data ret));
  Ok (with_data ret data).

(** what the two have in common; [copy1] and [copy2] copy an operand if the
    other one is a scalar *)
Definition mul_arrays (loops : Z → Z → Z → list F → list F → list F → outcome (list F)) (copy1 copy2 : outcome array) (a1 a2 : array)
    : outcome array :=
  length1 ← nitems a1;
  length2 ← nitems a2;
  s1 ← isScalar a1;
  if (s1 : bool) then scale_copy copy2 a1 length2
  else
    s2 ← isScalar a2;
    if (s2 : bool) then scale_copy copy1 a2 length1
    else if (ARR_NDIM a1 =? 1) && (ARR_NDIM a2 =? 1) then two_vectors
    else
      '(dima, dimb, dimc, dims, lbs) ← product_shape a1 a2;
      ret ← initResult dims lbs;
      data ← loops dima dimb dimc (arr_data a1) (arr_data a2) (arr_data ret);
      Ok (with_data ret data).

(** [PG_GETARG_ARRAYTYPE_P_COPY] copies the datum by its size *)
Definition matrix_mul (p1 p2 : option array) : outcome array :=
  a1 ← not_null "Matrix Multiplication external: Null pointer passed as Matrix A!" p1;
  a2 ← not_null "Matrix Multiplication external: Null pointer passed as Matrix B!" p2;
  mul_arrays mul_accumulate (Ok a1) (Ok a2) a1 a2.

(** a vector becomes a matrix of one row, a matrix of one row a vector *)
Definition matrix_transpose_internal (p : option array) : outcome array :=
  org ← not_null "Matrix Multiplication Internal: Null pointer passed as Matrix A!" p;
  s ← isScalar org;
  if (s : bool) then copyArray p
  else
    d0 ← deref (arr_dims org !! 0%nat);
    lb0 ← deref (arr_lbound org !! 0%nat);
    if ARR_NDIM org =? 1 then
      ret ← initResult [1; d0] [1; lb0];
      n ← ArrayGetNItems [1; d0];
      if n <=? Z.of_nat (length (arr_data org)) then Ok (with_data ret (take (Z.to_nat n) (arr_data org))) else UB
    else
      d1 ← deref (arr_dims org !! 1%nat);
      lb1 ← deref (arr_lbound org !! 1%nat);
      if (ARR_NDIM org =? 2) && (d0 =? 1) then
        ret ← initResult [d1] [lb1];
        if d1 <=? Z.of_nat (length (arr_data org)) then Ok (with_data ret (take (Z.to_nat d1) (arr_data org))) else UB
      else
        ret ← initResult [d1; d0] [lb1; lb0];
        data ← for_to d0 (fun i => for_to d1 (fun j data =>
          x ← array_get (arr_data org) (MAT_2D i j d1); array_set data (MAT_2D j i d0) x)) (arr_data ret);
        Ok (with_data ret data).

Definition matrix_mul_internal (MatA MatB : option array) (transposeA transposeB : bool) : outcome array :=
  a ← not_null "Matrix Multiplication Internal: Null pointer passed as Matrix A!" MatA;
  b ← not_null "Matrix Multiplication Internal: Null pointer passed as Matrix B!" MatB;
  a1 ← (if transposeA then matrix_transpose_internal MatA else Ok a);
  a2 ← (if transposeB then matrix_transpose_internal MatB else Ok b);
  mul_arrays mul_dots (copyArray MatA) (copyArray MatB) a1 a2.

(** ** Sums and elementwise products *)

(** [msg i] if dimension [i] differs *)
Fixpoint same_dims (msg : Z → cstr) (i : Z) (d1 d2 : list Z) : outcome unit :=
  match d1, d2 with
  | x :: d1, y :: d2 => if x =? y then same_dims msg (i + 1) d1 d2 else elog (msg i)
  | _, _ => Ok tt
  end.

(** [ps[i] = f(ps1[i], ps2[i])] *)
Definition zip_loop (n : Z) (f : F → F → F) (ps1 ps2 ps : list F) : outcome (list F) :=
  for_to n (fun i ps => x ← array_get ps1 i; y ← array_get ps2 i; array_set ps i (f x y)) ps.

Definition matrix_add_inplace (MatA MatB : option array) : outcome array :=
  a1 ← not_null "Matrix add Internal: Null pointer passed as Matrix A!" MatA;
  a2 ← not_null "Matrix add Internal: Null pointer passed as Matrix B!" MatB;
  length1 ← nitems a1;
  length2 ← nitems a2;
  s1 ← isScalar a1;
  if (s1 : bool) then
    elem ← scalar_elem a1;
    ret ← copyArray MatB;
    data ← update_loop length2 (fun x => x ⊕ elem) (arr_data ret);
    Ok (with_data ret data)
  else
    s2 ← isScalar a2;
    if (s2 : bool) then
      elem ← scalar_elem a2;
      data ← update_loop length1 (fun x => x ⊕ elem) (arr_data a1);
      Ok (with_data a1 data)
    else if negb (ARR_NDIM a1 =? ARR_NDIM a2) then elog (lit "Matrix element-wise addition(inplace): Number of dimensions mismatched!")
    else
      _ ← same_dims (fun i => lit "Matrix element-wise addition(inplace): dimension " ++ fmt_d (i + 1) ++ lit " mismatched!") 0 (arr_dims a1) (arr_dims a2);
      data ← for_to length1 (fun i ps1 => x ← array_get ps1 i; y ← array_get (arr_data a2) i; array_set ps1 i (x ⊕ y)) (arr_data a1);
      Ok (with_data a1 data).

(** [matrix_add] and [matrix_add_internal] *)
Definition matrix_add (MatA MatB : option array) : outcome array :=
  copy ← copyArray MatA;
  matrix_add_inplace (Some copy) MatB.

Definition matrix_elem_mult (matA matB : option array) : outcome array :=
  a ← not_null "Matrix Elem-Multiplication Internal: Null pointer passed as Matrix A!" matA;
  b ← not_null "Matrix Elem-Multiplication Internal: Null pointer passed as Matrix B!" matB;
  length1 ← nitems a;
  length2 ← nitems b;
  s1 ← isScalar a;
  if (s1 : bool) then
    elem ← scalar_elem a;
    ret ← copyArray matB;
    data ← update_loop length2 (fun x => elem ⊗ x) (arr_data ret);
    Ok (with_data ret data)
  else
    s2 ← isScalar b;
    if (s2 : bool) then
      elem ← scalar_elem b;
      ret ← copyArray matA;
      data ← update_loop length1 (fun x => elem ⊗ x) (arr_data ret);
      Ok (with_data ret data)
    else if negb (ARR_NDIM a =? ARR_NDIM b) then elog (lit "Matrix element-wise Multiplication: Number of dimensions mismatched!")
    else
      _ ← same_dims (fun _ => lit "Matrix element-wise Multiplication: Matrices are mismatched!") 0 (arr_dims a) (arr_dims b);
      ret ← initResult (arr_dims a) (arr_lbound a);
      data ← zip_loop length1 f8_mul (arr_data a) (arr_data b) (arr_data ret);
      Ok (with_data ret data).

Definition mat_sub_mm (a1 a2 : array) : outcome array :=
  if negb (ARR_NDIM a1 =? ARR_NDIM a2) then elog (lit "Matrix element-wise Subtraction: Number of dimensions mismatched!")
  else
    _ ← same_dims (fun _ => lit "Matrix element-wise Subtraction: Dimensions mismatched!") 0 (arr_dims a1) (arr_dims a2);
    ret ← initResult (arr_dims a1) (arr_lbound a1);
    n ← nitems ret;
    data ← zip_loop n f8_sub (arr_data a1) (arr_data a2) (arr_data ret);
    Ok (with_data ret data).

(** the three functions of a scalar and a matrix update the new array *)
Definition update_new (a1 : array) (f : F → F) : outcome array :=
  ret ← initResult (arr_dims a1) (arr_lbound a1);
  n ← nitems ret;
  data ← update_loop n f (arr_data ret);
  Ok (with_data ret data).

Definition mat_sub_ms (a1 : array) (scalar : F) : outcome array := update_new a1 (fun x => x ⊖ scalar).
Definition mat_sub_sm (scalar : F) (a1 : array) : outcome array := update_new a1 (fun x => scalar ⊖ x).
Definition mat_mul_sm (scalar : F) (a1 : array) : outcome array := update_new a1 (fun x => scalar ⊗ x).

(** ** Training *)

Definition mat_apply_gradient (weights derivatives : option array) (learning_rate : F) (batch_size : Z) : outcome array :=
  w ← not_null "Matrix apply Gradient: Null pointer passed as Matrix weights!" weights;
  d ← not_null "Matrix apply gradient: Null pointer passed as Matrix derivatives!" derivatives;
  s1 ← isScalar w;
  if (s1 : bool) then
    ret ← copyArray derivatives;
    n ← nitems ret;
    data ← update_loop n (fun x => (x ⊗ learning_rate) ⊘ f8 batch_size) (arr_data ret);
    Ok (with_data ret data)
  else
    s2 ← isScalar d;
    if (s2 : bool) then Ok w
    else if negb (ARR_NDIM w =? ARR_NDIM d) then elog (lit "mat_apply_gradient: derivatives and weight matrix do not match!")
    else
      _ ← same_dims (fun _ => lit "mat_apply_gradient: Dimensions do not match in derivatives and weights!") 0 (arr_dims w) (arr_dims d);
      n ← nitems w;
      data ← for_to n (fun i data =>
        x ← array_get data i; y ← array_get (arr_data d) i;
        array_set data i (x ⊖ ((learning_rate ⊗ y) ⊘ f8 batch_size))) (arr_data w);
      Ok (with_data w data).

Definition index_max (input : option array) : outcome Z :=
  a ← not_null "Index_max recieved null input!" input;
  first ← array_get (arr_data a) 0;
  n ← nitems a;
  r ← for_loop (Z.to_nat (n - 1)) 1 (fun i '(max_value, max_index) =>
    x ← array_get (arr_data a) i;
    Ok (if max_value ≺ x then (x, i) else (max_value, max_index))) (first, 0);
  Ok r.2.

(** ** Softmax *)

(** the largest of [max] and [n] elements from [i] on *)
Definition max_loop (n i : Z) (data : list F) (max : F) : outcome F :=
  for_loop (Z.to_nat n) i (fun i max => x ← array_get data i; Ok (if max ≺ x then x else max)) max.

Definition sum_loop (n : Z) (f : F → F) (data : list F) : outcome F :=
  for_to n (fun i sum => x ← array_get data i; Ok (sum ⊕ f x)) (f8 0).

Definition softmax (input : option array) : outcome array :=
  _ ← not_null "Softmax recieved null input!" input;
  a ← copyArray input;
  n ← nitems a;
  max ← max_loop n 0 (arr_data a) (f8 0);
  sum ← sum_loop n (fun x => f8_exp (x ⊖ max)) (arr_data a);
  data ← update_loop n (fun x => f8_exp (x ⊖ max) ⊘ sum) (arr_data a);
  Ok (with_data a data).

(** the test for a vector; its first part never holds *)
Definition is_vector (a : array) : outcome bool :=
  if (2 <? ARR_NDIM a) && (ARR_NDIM a <=? 0) then Ok false
  else if ARR_NDIM a =? 2 then d0 ← deref (arr_dims a !! 0%nat); Ok (d0 =? 1) else Ok true.

Definition vector_or (msg : string) (a : array) : outcome unit :=
  v ← is_vector a;
  if (v : bool) then Ok tt else elog (lit msg).

Definition cce_dims_msg (labels input : array) (i : Z) : cstr :=
  let dim (a : array) := fmt_d (default 0 (arr_dims a !! Z.to_nat i)) in
  lit "Softmax CCE: Dim " ++ fmt_d i ++ lit " does not match (dim in 'labels': " ++ dim labels ++ lit " <-> " ++ dim input ++ lit " :dim in 'input')".

(** the elements minus their maximum and the logarithm of the sum *)
Definition log_softmax (n i : Z) (data : list F) : outcome (list F) :=
  first ← array_get data 0;
  max ← max_loop (n - i) i data first;
  shifted ← zip_loop n (fun x _ => x ⊖ max) data data (repeat (f8 0) (Z.to_nat n));
  sum ← sum_loop n f8_exp shifted;
  update_loop n (fun x => x ⊖ f8_log sum) shifted.

Definition softmax_cce_internal (inputs_in labels_in : option array) : outcome F :=
  input ← not_null "Matrix SoftMax Internal: Null pointer passed as Matrix Inputs!" inputs_in;
  labels ← not_null "Matrix SoftMax Internal: Null pointer passed as Matrix Labels!" labels_in;
  length ← nitems input;
  if negb (ARR_NDIM input =? ARR_NDIM labels) then
    elog (lit "Softmax CCE: Arrays *labels* and *input* do not have same number of dims! (#dims labels: " ++ fmt_d (ARR_NDIM labels)
          ++ lit " <-> " ++ fmt_d (ARR_NDIM input) ++ lit " :#dims input)")
  else
    _ ← same_dims (cce_dims_msg labels input) 0 (arr_dims labels) (arr_dims input);
    _ ← vector_or "Softmax CCE: Array *input* is not a vector!" input;
    _ ← vector_or "Softmax CCE: Array *labels* is not a vector!" labels;
    logs ← log_softmax length 0 (arr_data input);
    result ← zip_loop length f8_mul logs (arr_data labels) logs;
    sum_loop length (fun x => x) result.

Definition softmax_cce_derive (inputs_in labels_in : option array) : outcome array :=
  input ← not_null "Matrix SoftMax Derive: Null pointer passed as Matrix Inputs!" inputs_in;
  labels ← not_null "Matrix SoftMax Derive: Null pointer passed as Matrix Labels!" labels_in;
  length ← nitems input;
  length' ← nitems labels;
  if negb (length =? length') then elog (lit "Softmax Derivation: Arrays *labels* and *input* do not match!")
  else
    _ ← vector_or "Softmax Derivation: Array *input* is not a vector!" input;
    _ ← vector_or "Softmax Derivation: Array *labels* is not a vector!" labels;
    ret ← initResult (arr_dims input) (arr_lbound input);
    logs ← log_softmax length 1 (arr_data input);
    result ← zip_loop length (fun x l => f8_exp x ⊖ l) logs (arr_data labels) logs;
    Ok (with_data ret result).

(** ** Elementwise functions *)

Definition map_copy (msg : string) (f : F → F) (input : option array) : outcome array :=
  _ ← not_null msg input;
  ret ← copyArray input;
  n ← nitems ret;
  data ← update_loop n f (arr_data ret);
  Ok (with_data ret data).

Definition silu_m_internal : option array → outcome array :=
  map_copy "Matrix Silu Internal: Null pointer passed as Matrix Inputs!" (fun x => x ⊘ (f8 1 ⊕ f8_exp (f8 (-1) ⊗ x))).

Definition silu_m_derive : option array → outcome array :=
  map_copy "Matrix Silu Derive: Null pointer passed as Matrix Inputs!"
    (fun x => (f8 1 ⊕ f8_exp (f8 (-1) ⊗ x) ⊕ x ⊗ f8_exp (f8 (-1) ⊗ x)) ⊘ f8_pow (f8 1 ⊕ f8_exp (f8 (-1) ⊗ x)) (f8 2)).

Definition sigmoid_m_internal : option array → outcome array :=
  map_copy "Matrix Sigmoid Internal: Null pointer passed as Matrix Inputs!" (fun x => f8 1 ⊘ (f8 1 ⊕ f8_exp (f8 (-1) ⊗ x))).

Definition sigmoid_m_derive : option array → outcome array :=
  map_copy "Matrix Sigmoid Derive: Null pointer passed as Matrix Inputs!"
    (fun x => let sig_of_x := f8 1 ⊘ (f8 1 ⊕ f8_exp (f8 (-1) ⊗ x)) in sig_of_x ⊗ (f8 1 ⊖ sig_of_x)).

Definition tanh_m_internal : option array → outcome array :=
  map_copy "Matrix tanh Internal: Null pointer passed as Matrix Inputs!" f8_tanh.

Definition tanh_m_derive : option array → outcome array :=
  map_copy "Matrix tanh derive: Null pointer passed as Matrix Inputs!"
    (fun x => let tanh_of_x := f8_tanh x in f8 1 ⊖ tanh_of_x ⊗ tanh_of_x).

(** [Max(x, 0)] *)
Definition relu_m_internal : option array → outcome array :=
  map_copy "Matrix relu Internal: Null pointer passed as Matrix Inputs!" (fun x => if f8 0 ≺ x then x else f8 0).

Definition relu_m_derive : option array → outcome array :=
  map_copy "Matrix relu derive: Null pointer passed as Matrix Inputs!" (fun x => if f8 0 ≺ x then f8 1 else f8 0).

(** ** Construction *)

Definition createArray (dims : list Z) (value : F) (identityMatrix : bool) : outcome array :=
  ret ← initResult (take 2 dims) [1; 1];
  d0 ← deref (dims !! 0%nat);
  d1 ← deref (dims !! 1%nat);
  data ← (if identityMatrix && (d0 =? d1)
          then for_to d0 (fun i => for_to d0 (fun j data => array_set data (MAT_2D i j d0) (if i =? j then f8 1 else f8 0))) (arr_data ret)
          else for_to d0 (fun i => for_to d1 (fun j data => array_set data (MAT_2D i j d1) value)) (arr_data ret));
  Ok (with_data ret data).

Definition matrixSetValue (p : option array) (value : F) : outcome array :=
  a ← not_null "Matrix matrixSetValue(): Null pointer passed to Check!" p;
  n ← nitems a;
  data ← for_to n (fun i data => array_set data i value) (arr_data a);
  Ok (with_data a data).
End Matrix.
