(* ===== verification/MatrixFacts.v ===== *)
(** * Loops over matrices

    Invariants of counting loops, and what the loops of [Matrix.v] compute:
    maps, sums, transposes and products. *)

From S2P Require Import Prelude ApplyMt FloatFunc Matrix.

(** ** Loops *)

Lemma for_loop_inv {S} (P : Z → S → Prop) n : ∀ i body (s : S),
  P i s → (∀ j s, i ≤ j < i + Z.of_nat n → P j s → ∃ s', body j s = Ok s' ∧ P (j + 1) s') →
  ∃ s', for_loop n i body s = Ok s' ∧ P (i + Z.of_nat n) s'.
Proof.
  induction n as [|n IH]; intros i body s Hs Hb.
  { exists s. split; [done|]. by replace (i + Z.of_nat 0) with i by lia. }
  destruct (Hb i s ltac:(lia) Hs) as (s1 & E1 & P1). cbn [for_loop]. rewrite E1. cbn [mbind outcome_bind].
  destruct (IH (i + 1) body s1 P1) as (s2 & E2 & P2).
  { intros j s' Hj. apply Hb. lia. }
  exists s2. split; [done|]. by replace (i + Z.of_nat (Datatypes.S n)) with (i + 1 + Z.of_nat n) by lia.
Qed.

(** the same with a natural number as the counter *)
Lemma for_to_inv {S} (P : nat → S → Prop) n body (s : S) :
  P 0%nat s → (∀ j s, (j < n)%nat → P j s → ∃ s', body (Z.of_nat j) s = Ok s' ∧ P (Datatypes.S j) s') →
  ∃ s', for_to (Z.of_nat n) body s = Ok s' ∧ P n s'.
Proof.
  intros Hs Hb. unfold for_to. rewrite Nat2Z.id.
  destruct (for_loop_inv (fun i s => P (Z.to_nat i) s) n 0 body s Hs) as (s' & E & P').
  - intros j s1 Hj Hp. destruct (Hb (Z.to_nat j) s1 ltac:(lia) Hp) as (s2 & E2 & P2). rewrite Z2Nat.id in E2 by lia.
    exists s2. split; [done|]. by replace (Z.to_nat (j + 1)) with (Datatypes.S (Z.to_nat j)) by lia.
  - exists s'. split; [done|]. cbv beta in P'. by rewrite Z.add_0_l, Nat2Z.id in P'.
Qed.

Lemma array_get_lookup {A} (l : list A) i x : l !! i = Some x → array_get l (Z.of_nat i) = Ok x.
Proof. intros Hx. unfold array_get. rewrite (proj2 (Z.ltb_ge _ 0)) by lia. by rewrite Nat2Z.id, Hx. Qed.

Lemma array_set_insert {A} (l : list A) i x : (i < length l)%nat → array_set l (Z.of_nat i) x = Ok (<[i := x]> l).
Proof. intros Hi. unfold array_set. rewrite (proj2 (Z.leb_le 0 _)), (proj2 (Z.ltb_lt _ _)) by lia. cbn. by rewrite Nat2Z.id. Qed.

(** a loop over the rest of an array is a fold *)
Lemma fold_loop {A S} (l : list A) (g : Z → A → S → S) (i : nat) : ∀ s,
  (i ≤ length l)%nat →
  for_loop (length l - i) (Z.of_nat i) (fun i s => x ← array_get l i; Ok (g i x s)) s
  = Ok (foldl (fun s '(i, x) => g (Z.of_nat i) x s) s (imap (fun k x => (i + k, x)%nat) (drop i l))).
Proof.
  remember (length l - i)%nat as n eqn:Hn. revert i Hn. induction n as [|n IH]; intros i Hn s Hi.
  { by rewrite drop_ge by lia. }
  destruct (lookup_lt_is_Some_2 l i ltac:(lia)) as [x Hx]. cbn [for_loop]. rewrite (array_get_lookup l i x Hx). cbn [mbind outcome_bind].
  replace (Z.of_nat i + 1) with (Z.of_nat (Datatypes.S i)) by lia. rewrite IH by lia. f_equal. rewrite (drop_S l x i Hx). cbn.
  rewrite Nat.add_0_r. f_equal. apply imap_ext. intros k y _. cbn. f_equal. lia.
Qed.

Lemma fold_imap_drop {A S} (l : list A) (g : A → S → S) (h : nat → A → nat * A) s :
  (∀ k x, (h k x).2 = x) → foldl (fun s '(_, x) => g x s) s (imap h l) = foldl (fun s x => g x s) s l.
Proof.
  intros Hh. revert h Hh s. induction l as [|x l IH]; intros h Hh s; [done|]. cbn. specialize (Hh 0%nat x) as Hx.
  destruct (h 0%nat x) as [k y]. cbn in Hx. subst y. apply (IH (h ∘ Datatypes.S)). intros k' y. apply Hh.
Qed.

Lemma same_dims_refl msg i d : same_dims msg i d d = Ok tt.
Proof. revert i. induction d as [|x d IH]; intros i; cbn; [done|]. by rewrite Z.eqb_refl. Qed.

Section Loops.
Context `{Float8Ops F}.

Lemma sum_loop_fold f (l : list F) : sum_loop (Z.of_nat (length l)) f l = Ok (foldl (fun s x => s ⊕ f x)%f8 (f8 0) l).
Proof.
  unfold sum_loop, for_to. rewrite Nat2Z.id. pose proof (fold_loop l (fun _ x s => s ⊕ f x)%f8 0 (f8 0) ltac:(lia)) as E.
  rewrite Nat.sub_0_r in E. change (Z.of_nat 0) with 0 in E. rewrite E. f_equal. by rewrite (fold_imap_drop _ (fun x s => s ⊕ f x)%f8).
Qed.

Lemma max_loop_fold i (l : list F) max : (i ≤ length l)%nat →
  max_loop (Z.of_nat (length l) - Z.of_nat i) (Z.of_nat i) l max = Ok (foldl (fun m x => if m ≺ x then x else m)%f8 max (drop i l)).
Proof.
  intros Hi. unfold max_loop. replace (Z.to_nat _) with (length l - i)%nat by lia.
  rewrite (fold_loop l (fun _ x m => if m ≺ x then x else m)%f8 i max Hi). f_equal.
  by rewrite (fold_imap_drop _ (fun x m => if m ≺ x then x else m)%f8).
Qed.

Lemma insert_app_take {A} (l : list A) (new : list A) j y x :
  length new = j → l !! j = Some x → <[j := y]> (new ++ drop j l) = (new ++ [y]) ++ drop (Datatypes.S j) l.
Proof.
  intros <- Hx. rewrite (drop_S l x _ Hx). rewrite insert_app_r_alt, Nat.sub_diag by lia. by rewrite <- app_assoc.
Qed.

Lemma update_loop_map f (l : list F) : update_loop (Z.of_nat (length l)) f l = Ok (f <$> l).
Proof.
  unfold update_loop.
  destruct (for_to_inv (fun i s => s = (f <$> take i l) ++ drop i l) (length l)
              (fun i data => x ← array_get data i; array_set data i (f x)) l) as (s & E & Hs).
  - done.
  - intros j s Hj ->. destruct (lookup_lt_is_Some_2 l j Hj) as [x Hx].
    assert (length (f <$> take j l) = j) as Hlen by (rewrite length_fmap, length_take; lia).
    rewrite (array_get_lookup _ j x).
    2:{ rewrite lookup_app_r by lia. rewrite Hlen, Nat.sub_diag. by rewrite lookup_drop, Nat.add_0_r. }
    cbn [mbind outcome_bind]. rewrite array_set_insert by (rewrite length_app, Hlen, length_drop; lia). eexists. split; [done|].
    rewrite (insert_app_take l _ j _ x Hlen Hx). by rewrite (take_S_r l j x Hx), fmap_app.
  - rewrite E, Hs. by rewrite drop_ge, app_nil_r, take_ge.
Qed.

Lemma zip_loop_with f (l1 l2 l : list F) n :
  length l1 = n → length l2 = n → length l = n → zip_loop (Z.of_nat n) f l1 l2 l = Ok (zip_with f l1 l2).
Proof.
  intros L1 L2 L. unfold zip_loop.
  destruct (for_to_inv (fun i s => s = zip_with f (take i l1) (take i l2) ++ drop i l) n
              (fun i ps => x ← array_get l1 i; y ← array_get l2 i; array_set ps i (f x y)) l) as (s & E & Hs).
  - by rewrite !take_0.
  - intros j s Hj ->. destruct (lookup_lt_is_Some_2 l1 j ltac:(lia)) as [x Hx]. destruct (lookup_lt_is_Some_2 l2 j ltac:(lia)) as [y Hy].
    destruct (lookup_lt_is_Some_2 l j ltac:(lia)) as [z Hz].
    assert (length (zip_with f (take j l1) (take j l2)) = j) as Hlen by (rewrite length_zip_with, !length_take; lia).
    rewrite (array_get_lookup _ j x Hx). cbn [mbind outcome_bind]. rewrite (array_get_lookup _ j y Hy). cbn [mbind outcome_bind].
    rewrite array_set_insert by (rewrite length_app, Hlen, length_drop; lia). eexists. split; [done|].
    rewrite (insert_app_take l _ j _ z Hlen Hz). f_equal. rewrite (take_S_r l1 j x Hx), (take_S_r l2 j y Hy).
    rewrite zip_with_app; [done|]. rewrite !length_take. lia.
  - rewrite E, Hs. by rewrite drop_ge, app_nil_r, !take_ge by lia.
Qed.
End Loops.

(** * Products and transposes of matrices *)

(** the cases of the tests on positions *)
Ltac decide_cells := repeat case_decide; first [done|exfalso; lia].

Section Product.
Context `{Float8Ops F}.
Implicit Types (g h : nat → nat → F) (l : list F).

(** the rows of [l], one after the other, are those of the matrix [g] *)
Definition entries (m p : nat) g l : Prop := length l = (m * p)%nat ∧ ∀ i k, (i < m)%nat → (k < p)%nat → l !! (i * p + k)%nat = Some (g i k).

Lemma cell_in (m p i k : nat) : (i < m)%nat → (k < p)%nat → (i * p + k < m * p)%nat.
Proof. nia. Qed.

Lemma cell_inj (p i k i' k' : nat) : (k < p)%nat → (k' < p)%nat → (i * p + k = i' * p + k')%nat → i = i' ∧ k = k'.
Proof.
  intros Hk Hk' He. assert (i = i') as ->; [|lia]. destruct (Nat.lt_trichotomy i i') as [|[|]]; [nia|done|nia].
Qed.

Lemma pair_ne (i k i' k' : nat) : (i', k') ≠ (i, k) → i' ≠ i ∨ k' ≠ k.
Proof. intros Hne. destruct (decide (i' = i)) as [->|]; [right; congruence|by left]. Qed.

Lemma cells_get m p g l i k :
  entries m p g l → (i < m)%nat → (k < p)%nat → array_get l (MAT_2D (Z.of_nat i) (Z.of_nat k) (Z.of_nat p)) = Ok (g i k).
Proof.
  intros [_ Hg] Hi Hk. unfold MAT_2D. replace (Z.of_nat i * Z.of_nat p + Z.of_nat k) with (Z.of_nat (i * p + k)) by lia.
  by apply array_get_lookup, Hg.
Qed.

Lemma cells_ext m p g h l : (∀ i k, (i < m)%nat → (k < p)%nat → g i k = h i k) → entries m p g l → entries m p h l.
Proof. intros He [Hl Hg]. split; [done|]. intros i k Hi Hk. rewrite Hg by done. by rewrite He. Qed.

Lemma cells_set m p g h l i k v :
  entries m p g l → (i < m)%nat → (k < p)%nat → h i k = v →
  (∀ i' k', (i' < m)%nat → (k' < p)%nat → (i', k') ≠ (i, k) → h i' k' = g i' k') →
  ∃ l', array_set l (MAT_2D (Z.of_nat i) (Z.of_nat k) (Z.of_nat p)) v = Ok l' ∧ entries m p h l'.
Proof.
  intros [Hl Hg] Hi Hk <- Hh. unfold MAT_2D. replace (Z.of_nat i * Z.of_nat p + Z.of_nat k) with (Z.of_nat (i * p + k)) by lia.
  rewrite array_set_insert by (rewrite Hl; by apply cell_in). eexists. split; [done|]. split; [by rewrite length_insert|].
  intros i' k' Hi' Hk'. destruct (decide ((i', k') = (i, k))) as [[= -> ->]|Hne].
  - by rewrite list_lookup_insert_eq by (rewrite Hl; by apply cell_in).
  - rewrite list_lookup_insert_ne, Hg, Hh; try done. intros He. apply Hne. apply cell_inj in He as [-> ->]; done.
Qed.

Lemma cells_eq m p g l l' : entries m p g l → entries m p g l' → l = l'.
Proof.
  intros [Hl Hg] [Hl' Hg']. apply list_eq. intros j. destruct (decide (j < m * p)%nat) as [Hj|Hj].
  - assert (p ≠ 0%nat) as Hp by (intros ->; lia). pose proof (Nat.div_mod j p Hp) as He. pose proof (Nat.mod_upper_bound j p Hp) as Hm.
    assert (j / p < m)%nat as Hd by (apply Nat.Div0.div_lt_upper_bound; lia).
    rewrite Nat.mul_comm in He. rewrite He. by rewrite Hg, Hg'.
  - by rewrite !lookup_ge_None_2 by lia.
Qed.

Lemma repeat_replicate {A} (x : A) n : repeat x n = replicate n x.
Proof. induction n as [|n IH]; [done|]. cbn. by rewrite IH. Qed.

Lemma cells_zero m p : entries m p (fun _ _ => f8 0) (repeat (f8 0) (m * p)).
Proof. split; [apply repeat_length|]. intros i k Hi Hk. rewrite repeat_replicate. apply lookup_replicate_2. by apply cell_in. Qed.

(** ** The dot product of row [i] and column [k], the first [n] terms *)

Definition dot (n : nat) g h (i k : nat) : F := foldl (fun t j => t ⊕ g i j ⊗ h j k)%f8 (f8 0) (seq 0 n).

Lemma dot_S n g h i k : dot (S n) g h i k = (dot n g h i k ⊕ g i n ⊗ h n k)%f8.
Proof. unfold dot. by rewrite seq_S, foldl_app. Qed.

Lemma dot_loop m n p g h l1 l2 i k :
  entries m n g l1 → entries n p h l2 → (i < m)%nat → (k < p)%nat →
  for_to (Z.of_nat n) (fun j tmp =>
    x ← array_get l1 (MAT_2D (Z.of_nat i) j (Z.of_nat n)); y ← array_get l2 (MAT_2D j (Z.of_nat k) (Z.of_nat p)); Ok (tmp ⊕ x ⊗ y)%f8) (f8 0)
  = Ok (dot n g h i k).
Proof.
  intros C1 C2 Hi Hk. match goal with |- for_to _ ?b _ = _ => destruct (for_to_inv (fun j t => t = dot j g h i k) n b (f8 0)) as (s & E & ->) end.
  - done.
  - intros j s Hj ->. rewrite (cells_get m n g l1 i j C1 Hi Hj), (cells_get n p h l2 j k C2 Hj Hk). eexists. split; [done|]. by rewrite dot_S.
  - done.
Qed.

Lemma mul_dots_spec m n p g h l1 l2 :
  entries m n g l1 → entries n p h l2 →
  ∃ l, mul_dots (Z.of_nat m) (Z.of_nat n) (Z.of_nat p) l1 l2 (repeat (f8 0) (m * p)) = Ok l ∧ entries m p (dot n g h) l.
Proof.
  intros C1 C2. unfold mul_dots.
  match goal with |- ∃ l, for_to _ ?b ?s = _ ∧ _ =>
    destruct (for_to_inv (fun i => entries m p (fun i' k' => if decide (i' < i)%nat then dot n g h i' k' else f8 0)) m b s) as (r & E & Hr) end.
  - eapply cells_ext; [|apply cells_zero]. intros i k _ _. by rewrite decide_False by lia.
  - intros i s Hi Hs.
    match goal with |- ∃ l, for_to _ ?b ?s = _ ∧ _ =>
      destruct (for_to_inv (fun k => entries m p (fun i' k' =>
        if decide (i' < i ∨ i' = i ∧ k' < k)%nat then dot n g h i' k' else f8 0)) p b s) as (r & E & Hr) end.
    + eapply cells_ext; [|exact Hs]. cbn. intros i' k' Hi' Hk'. decide_cells.
    + intros k s' Hk Hs'. rewrite (dot_loop m n p g h l1 l2 i k C1 C2 Hi Hk). cbn [mbind outcome_bind].
      eapply cells_set; [exact Hs'|done..| |].
      * by rewrite decide_True by lia.
      * intros i' k' _ _ Hne. cbn. apply pair_ne in Hne. decide_cells.
    + exists r. split; [done|]. eapply cells_ext; [|exact Hr]. cbn. intros i' k' Hi' Hk'. decide_cells.
  - exists r. split; [done|]. eapply cells_ext; [|exact Hr]. cbn. intros i k Hi _. by rewrite decide_True by lia.
Qed.

(** the sums in the result grow by one term in each round of the middle loop *)
Lemma mul_accumulate_spec m n p g h l1 l2 :
  entries m n g l1 → entries n p h l2 →
  ∃ l, mul_accumulate (Z.of_nat m) (Z.of_nat n) (Z.of_nat p) l1 l2 (repeat (f8 0) (m * p)) = Ok l ∧ entries m p (dot n g h) l.
Proof.
  intros C1 C2. unfold mul_accumulate.
  match goal with |- ∃ l, for_to _ ?b ?s = _ ∧ _ =>
    destruct (for_to_inv (fun i => entries m p (fun i' k' => if decide (i' < i)%nat then dot n g h i' k' else f8 0)) m b s) as (r & E & Hr) end.
  - eapply cells_ext; [|apply cells_zero]. intros i k _ _. by rewrite decide_False by lia.
  - intros i s Hi Hs.
    match goal with |- ∃ l, for_to _ ?b ?s = _ ∧ _ =>
      destruct (for_to_inv (fun j => entries m p (fun i' k' =>
        if decide (i' < i)%nat then dot n g h i' k' else if decide (i' = i) then dot j g h i' k' else f8 0)) n b s) as (r & E & Hr) end.
    + eapply cells_ext; [|exact Hs]. cbn. intros i' k' Hi' Hk'. decide_cells.
    + intros j s' Hj Hs'.
      match goal with |- ∃ l, for_to _ ?b ?s = _ ∧ _ =>
        destruct (for_to_inv (fun k => entries m p (fun i' k' =>
          if decide (i' < i)%nat then dot n g h i' k'
          else if decide (i' = i) then dot (if decide (k' < k)%nat then S j else j) g h i' k' else f8 0)) p b s) as (r & E & Hr) end.
      * eapply cells_ext; [|exact Hs']. cbn. intros i' k' Hi' Hk'. decide_cells.
      * intros k s2 Hk Hs2. rewrite (cells_get m p _ s2 i k Hs2 Hi Hk). cbn [mbind outcome_bind].
        rewrite (cells_get m n g l1 i j C1 Hi Hj). cbn [mbind outcome_bind]. rewrite (cells_get n p h l2 j k C2 Hj Hk). cbn [mbind outcome_bind].
        eapply cells_set; [exact Hs2|done..| |].
        -- cbn. rewrite !(decide_False (P := (i < i)%nat)), !(decide_True (P := i = i)), !(decide_False (P := (k < k)%nat)) by lia.
           by rewrite decide_True, dot_S by lia.
        -- intros i' k' _ _ Hne. cbn. apply pair_ne in Hne. decide_cells.
      * exists r. split; [done|]. eapply cells_ext; [|exact Hr]. cbn. intros i' k' Hi' Hk'. decide_cells.
    + exists r. split; [done|]. eapply cells_ext; [|exact Hr]. cbn. intros i' k' Hi' Hk'. decide_cells.
  - exists r. split; [done|]. eapply cells_ext; [|exact Hr]. cbn. intros i k Hi _. by rewrite decide_True by lia.
Qed.

(** the loops of a transpose *)
Lemma transpose_loops m n g l :
  entries m n g l →
  ∃ r, for_to (Z.of_nat m) (fun i => for_to (Z.of_nat n) (fun j data =>
         x ← array_get l (MAT_2D i j (Z.of_nat n)); array_set data (MAT_2D j i (Z.of_nat m)) x)) (repeat (f8 0) (n * m)) = Ok r
       ∧ entries n m (fun j i => g i j) r.
Proof.
  intros C. match goal with |- ∃ l, for_to _ ?b ?s = _ ∧ _ =>
    destruct (for_to_inv (fun i => entries n m (fun j' i' => if decide (i' < i)%nat then g i' j' else f8 0)) m b s) as (r & E & Hr) end.
  - eapply cells_ext; [|apply cells_zero]. intros i k _ _. by rewrite decide_False by lia.
  - intros i s Hi Hs. match goal with |- ∃ l, for_to _ ?b ?s = _ ∧ _ =>
      destruct (for_to_inv (fun j => entries n m (fun j' i' =>
        if decide (i' < i ∨ i' = i ∧ j' < j)%nat then g i' j' else f8 0)) n b s) as (r & E & Hr) end.
    + eapply cells_ext; [|exact Hs]. cbn. intros j' i' Hj' Hi'. decide_cells.
    + intros j s' Hj Hs'. rewrite (cells_get m n g l i j C Hi Hj). cbn [mbind outcome_bind]. eapply cells_set; [exact Hs'|done..| |].
      * by rewrite decide_True by lia.
      * intros j' i' _ _ Hne. cbn. apply pair_ne in Hne. decide_cells.
    + exists r. split; [done|]. eapply cells_ext; [|exact Hr]. cbn. intros j' i' Hj' Hi'. decide_cells.
  - exists r. split; [done|]. eapply cells_ext; [|exact Hr]. cbn. intros i k _ Hk. by rewrite decide_True by lia.
Qed.

(** ** Arrays as matrices *)

(** the size of an array of [m] by [n] elements is not an error *)
Definition alloc_ok (m n : nat) : Prop := (0 < m)%nat ∧ (0 < n)%nat ∧ Z.of_nat (m * n) * 8 + 32 ≤ MaxAllocSize.

(** [a] holds the matrix [g]; one column may be a vector *)
Record matrix_is (a : ArrayType F) (m n : nat) g : Prop := {
  mi_dims : arr_dims a = [Z.of_nat m; Z.of_nat n] ∨ n = 1%nat ∧ arr_dims a = [Z.of_nat m];
  mi_lbounds : length (arr_lbound a) = length (arr_dims a);
  mi_matrix : Forall (.≠ -1) (arr_lbound a);
  mi_small : alloc_ok m n;
  mi_cells : entries m n g (arr_data a)
}.

Lemma alloc_ok_swap m n : alloc_ok m n → alloc_ok n m.
Proof. unfold alloc_ok. rewrite (Nat.mul_comm n m). tauto. Qed.

Lemma int32_alloc z : 0 ≤ z ≤ MaxAllocSize → int32 z = z.
Proof. unfold int32, MaxAllocSize. intros Hz. rewrite Z.mod_small; lia. Qed.

Lemma small_bounds m n : alloc_ok m n → Z.of_nat m ≤ MaxAllocSize ∧ Z.of_nat m * Z.of_nat n ≤ MaxArraySize ∧ Z.of_nat m * Z.of_nat n ≤ MaxAllocSize.
Proof.
  intros (Hm & Hn & Hs). assert (Z.of_nat m * Z.of_nat n ≤ MaxArraySize) as Hb.
  { unfold MaxArraySize. apply Z.div_le_lower_bound; [lia|]. lia. }
  unfold MaxArraySize in *. pose proof (Z.mul_div_le MaxAllocSize 8 ltac:(lia)). nia.
Qed.

Lemma nitems_2 m n : alloc_ok m n → ArrayGetNItems [Z.of_nat m; Z.of_nat n] = Ok (Z.of_nat (m * n)).
Proof.
  intros Hs. destruct (small_bounds m n Hs) as (B1 & B2 & B3). unfold ArrayGetNItems. cbn [nitems_loop].
  rewrite !(proj2 (Z.ltb_ge (Z.of_nat _) 0)), Z.mul_1_l by lia. rewrite !int32_alloc by lia. rewrite !Z.eqb_refl.
  rewrite (proj2 (Z.ltb_ge _ _)) by lia. f_equal. lia.
Qed.

Lemma nitems_1 m : alloc_ok m 1 → ArrayGetNItems [Z.of_nat m] = Ok (Z.of_nat m).
Proof.
  intros Hs. destruct (small_bounds m 1 Hs) as (B1 & B2 & B3). unfold ArrayGetNItems. cbn [nitems_loop].
  rewrite !(proj2 (Z.ltb_ge (Z.of_nat _) 0)), Z.mul_1_l by lia. rewrite !int32_alloc by lia. rewrite !Z.eqb_refl.
  by rewrite (proj2 (Z.ltb_ge _ _)) by lia.
Qed.

Lemma init_2 m n lbs : alloc_ok m n → initResult [Z.of_nat m; Z.of_nat n] lbs = Ok (mkArray [Z.of_nat m; Z.of_nat n] lbs (repeat (f8 0) (m * n))).
Proof.
  intros Hs. unfold initResult. rewrite nitems_2 by done. cbn [mbind outcome_bind]. unfold array_alloc.
  change (ARR_OVERHEAD_NONULLS _) with 32. destruct Hs as (_ & _ & Hs). rewrite (proj2 (Z.leb_le _ _)) by lia. cbn. by rewrite Nat2Z.id.
Qed.

Lemma init_1 m lbs : alloc_ok m 1 → initResult [Z.of_nat m] lbs = Ok (mkArray [Z.of_nat m] lbs (repeat (f8 0) m)).
Proof.
  intros Hs. unfold initResult. rewrite nitems_1 by done. cbn [mbind outcome_bind]. unfold array_alloc.
  change (ARR_OVERHEAD_NONULLS _) with 24. destruct Hs as (_ & _ & Hs). rewrite (proj2 (Z.leb_le _ _)) by lia. cbn. by rewrite Nat2Z.id.
Qed.

Lemma matrix_nitems a m n g : matrix_is a m n g → nitems a = Ok (Z.of_nat (m * n)).
Proof.
  intros [Hd _ _ Hs _]. unfold nitems. destruct Hd as [->|[-> ->]]; [by apply nitems_2|]. rewrite nitems_1 by done. f_equal. lia.
Qed.

Lemma matrix_not_scalar a m n g : matrix_is a m n g → isScalar a = Ok false.
Proof.
  intros [Hd Hl Hm _ _]. unfold isScalar. destruct (arr_lbound a) as [|lb lbs].
  - cbn in Hl. by destruct Hd as [E|[_ E]]; rewrite E in Hl.
  - cbn. apply Forall_cons in Hm as [Hm _]. by rewrite (proj2 (Z.eqb_neq _ _)).
Qed.

Lemma cells_column m g l : entries m 1 g l → entries 1 m (fun j i => g i j) l.
Proof.
  intros [Hl Hg]. split; [lia|]. intros i k Hi Hk. replace i with 0%nat by lia. cbn. rewrite <- (Hg k 0%nat) by lia. f_equal. lia.
Qed.

Lemma cells_row m g l : entries 1 m g l → entries m 1 (fun j i => g i j) l.
Proof.
  intros [Hl Hg]. split; [lia|]. intros i k Hi Hk. replace k with 0%nat by lia. rewrite <- (Hg 0%nat i) by lia. f_equal. lia.
Qed.

(** as an operand of a product, transposed if [t] says so, the array is a vector *)
Definition vector_arg (t : bool) (a : ArrayType F) : bool :=
  if t then match arr_dims a with [d0; _] => d0 =? 1 | _ => false end else ARR_NDIM a =? 1.

Lemma transpose_is a m n g :
  matrix_is a m n g →
  ∃ a', matrix_transpose_internal (Some a) = Ok a' ∧ matrix_is a' n m (fun i j => g j i) ∧ (ARR_NDIM a' =? 1) = vector_arg true a.
Proof.
  intros Ha. pose proof (matrix_not_scalar _ _ _ _ Ha) as Hs. destruct Ha as [Hd Hl Hm Hsm Hc]. unfold matrix_transpose_internal, vector_arg.
  cbn [not_null mbind outcome_bind]. rewrite Hs. cbn [mbind outcome_bind]. unfold ARR_NDIM. pose proof (proj1 Hc) as Hlen.
  destruct Hd as [Hd|[-> Hd]]; rewrite Hd in Hl |- *.
  - destruct (arr_lbound a) as [|lb0 [|lb1 [|]]]; try done. apply Forall_cons in Hm as [Hm0 [Hm1 _]%Forall_cons].
    cbn [lookup list_lookup deref mbind outcome_bind length Z.of_nat Z.eqb Pos.eqb Pos.of_succ_nat Pos.succ andb].
    destruct (Z.eqb_spec (Z.of_nat m) 1) as [Hm|Hm].
    + assert (m = 1%nat) as -> by lia. rewrite init_1 by (by apply alloc_ok_swap). cbn [mbind outcome_bind]. rewrite (proj2 (Z.leb_le _ _)) by lia.
      eexists. split; [done|]. split; [|done]. split; cbn; [by right|done|by repeat constructor|by apply alloc_ok_swap|].
      rewrite Nat2Z.id, take_ge by lia. by apply (cells_row n g).
    + rewrite init_2 by (by apply alloc_ok_swap). cbn [mbind outcome_bind arr_data]. destruct (transpose_loops m n g _ Hc) as (r & Hr & C).
      rewrite Hr. eexists. split; [done|]. split; [|done]. split; cbn; [by left|done|by repeat constructor|by apply alloc_ok_swap|done].
  - destruct (arr_lbound a) as [|lb0 [|]]; try done. apply Forall_cons in Hm as [Hm0 _].
    cbn [lookup list_lookup deref mbind outcome_bind length Z.of_nat Z.eqb Pos.eqb Pos.of_succ_nat].
    change 1 with (Z.of_nat 1). rewrite init_2, nitems_2 by (by apply alloc_ok_swap). cbn [mbind outcome_bind]. rewrite (proj2 (Z.leb_le _ _)) by lia.
    eexists. split; [done|]. split; [|done]. split; cbn; [by left|done|by repeat constructor|by apply alloc_ok_swap|].
    rewrite Nat2Z.id, take_ge by lia. by apply cells_column.
Qed.

(** a product of one row and one column is a scalar *)
Definition product_is (c : ArrayType F) (m p : nat) g : Prop :=
  if decide (m = 1 ∧ p = 1)%nat then c = mkArray [1] [-1] [g 0%nat 0%nat] else matrix_is c m p g.

Lemma cells_single g l : entries 1 1 g l → l = [g 0%nat 0%nat].
Proof. intros C. apply (cells_eq 1 1 g l _ C). split; [done|]. intros i k Hi Hk. by replace i with 0%nat by lia; replace k with 0%nat by lia. Qed.

(** the shape of the product *)
Lemma product_shape_is a b m n p g h :
  matrix_is a m n g → matrix_is b n p h → alloc_ok m p →
  ∃ dims lbs, product_shape a b = Ok (Z.of_nat m, Z.of_nat n, Z.of_nat p, dims, lbs)
    ∧ initResult dims lbs = Ok (mkArray dims lbs (repeat (f8 0) (m * p)))
    ∧ ∀ g' l, entries m p g' l → product_is (mkArray dims lbs l) m p g'.
Proof.
  intros [Da _ _ _ _] [Db _ _ _ _] Hs. unfold product_shape, ARR_NDIM.
  assert (arr_dims a !! 0%nat = Some (Z.of_nat m)) as -> by (by destruct Da as [->|[-> ->]]). cbn [deref mbind outcome_bind].
  assert (arr_dims b !! 0%nat = Some (Z.of_nat n)) as -> by (by destruct Db as [->|[-> ->]]). cbn [deref mbind outcome_bind].
  destruct (decide (m = 1 ∧ p = 1)%nat) as [[-> ->]|Hmp].
  - destruct Db as [->|[_ ->]]; cbn; exists [1], [-1]; (split_and!; [done|apply (init_1 1); done|]);
      intros g' l C; unfold product_is; rewrite decide_True by done; by rewrite (cells_single g' l C).
  - assert ((Z.of_nat m =? 1) && (Z.of_nat p =? 1) = false) as Hf.
    { destruct (Z.eqb_spec (Z.of_nat m) 1), (Z.eqb_spec (Z.of_nat p) 1); try done. lia. }
    destruct Db as [->|[-> ->]]; cbn [length].
    + change (Z.of_nat 2 =? 2) with true. cbn [lookup list_lookup deref mbind outcome_bind]. rewrite Hf. cbn [andb negb].
      eexists _, _. split_and!; [done|by apply init_2|]. intros g' l C. unfold product_is. rewrite decide_False by done.
      split; cbn; [by left|done|by repeat constructor|done|done].
    + change (Z.of_nat 1 =? 2) with false. change (Z.of_nat 1) with 1 in *. cbn [mbind outcome_bind]. rewrite Hf. cbn [andb].
      eexists _, _. split_and!; [done|rewrite Nat.mul_1_r; by apply init_1|]. intros g' l C. unfold product_is. rewrite decide_False by done.
      split; cbn; [by right|done|by repeat constructor|done|done].
Qed.

(** both versions of the loops give the same array *)
Lemma mul_arrays_is a b m n p g h copy1 copy2 copy1' copy2' :
  matrix_is a m n g → matrix_is b n p h → alloc_ok m p → (ARR_NDIM a =? 1) && (ARR_NDIM b =? 1) = false →
  ∃ c, mul_arrays mul_accumulate copy1 copy2 a b = Ok c ∧ mul_arrays mul_dots copy1' copy2' a b = Ok c ∧ product_is c m p (dot n g h).
Proof.
  intros Ha Hb Hs Hv. destruct (product_shape_is a b m n p g h Ha Hb Hs) as (dims & lbs & Hsh & Hi & Hp).
  destruct (mul_accumulate_spec m n p g h _ _ (mi_cells _ _ _ _ Ha) (mi_cells _ _ _ _ Hb)) as (l1 & E1 & C1).
  destruct (mul_dots_spec m n p g h _ _ (mi_cells _ _ _ _ Ha) (mi_cells _ _ _ _ Hb)) as (l2 & E2 & C2).
  pose proof (cells_eq _ _ _ _ _ C1 C2) as <-. exists (mkArray dims lbs l1). unfold mul_arrays.
  rewrite (matrix_nitems _ _ _ _ Ha), (matrix_nitems _ _ _ _ Hb). cbn [mbind outcome_bind].
  rewrite (matrix_not_scalar _ _ _ _ Ha). cbn [mbind outcome_bind]. rewrite (matrix_not_scalar _ _ _ _ Hb). cbn [mbind outcome_bind].
  rewrite Hv, Hsh. cbn [mbind outcome_bind]. rewrite Hi. cbn [mbind outcome_bind arr_data]. rewrite E1, E2. by split_and!; [..|apply Hp].
Qed.

(** two vectors are refused *)
Lemma mul_arrays_vectors loops copy1 copy2 a b m n p g h :
  matrix_is a m n g → matrix_is b n p h → (ARR_NDIM a =? 1) && (ARR_NDIM b =? 1) = true → mul_arrays loops copy1 copy2 a b = two_vectors.
Proof.
  intros Ha Hb Hv. unfold mul_arrays.
  rewrite (matrix_nitems _ _ _ _ Ha), (matrix_nitems _ _ _ _ Hb). cbn [mbind outcome_bind].
  rewrite (matrix_not_scalar _ _ _ _ Ha). cbn [mbind outcome_bind]. rewrite (matrix_not_scalar _ _ _ _ Hb). cbn [mbind outcome_bind]. by rewrite Hv.
Qed.

(** the matrix, transposed if [t] says so *)
Definition oriented (t : bool) (a : ArrayType F) (m n : nat) g : Prop :=
  if t then matrix_is a n m (fun i j => g j i) else matrix_is a m n g.

Lemma oriented_is t a m n g :
  oriented t a m n g →
  ∃ a', (if t then matrix_transpose_internal (Some a) else Ok a) = Ok a' ∧ matrix_is a' m n g ∧ (ARR_NDIM a' =? 1) = vector_arg t a.
Proof. destruct t; intros Ha; [|by exists a]. by apply transpose_is in Ha. Qed.

Lemma mul_internal_is ta tb a b m n p g h :
  oriented ta a m n g → oriented tb b n p h → alloc_ok m p →
  if vector_arg ta a && vector_arg tb b then matrix_mul_internal (Some a) (Some b) ta tb = two_vectors
  else ∃ c, matrix_mul_internal (Some a) (Some b) ta tb = Ok c ∧ product_is c m p (dot n g h).
Proof.
  intros Ha Hb Hs. destruct (oriented_is ta a m n g Ha) as (a' & Ea & Ha' & <-). destruct (oriented_is tb b n p h Hb) as (b' & Eb & Hb' & <-).
  unfold matrix_mul_internal. cbn [not_null mbind outcome_bind]. rewrite Ea. cbn [mbind outcome_bind]. rewrite Eb. cbn [mbind outcome_bind].
  destruct (_ && _) eqn:Hv; [by eapply mul_arrays_vectors|].
  destruct (mul_arrays_is a' b' m n p g h (copyArray (Some a)) (copyArray (Some b)) (copyArray (Some a)) (copyArray (Some b)) Ha' Hb' Hs Hv) as (c & _ & Hc & Hp).
  by exists c.
Qed.
End Product.
