(* ===== verification/Derive.v ===== *)
(** * Differentiation of lambdas

    [ExecDeriveLambdaExpr] of [backend/executor/execExpr.c]: reverse mode
    automatic differentiation.  A lambda over rows is compiled and evaluated;
    then the array of steps is walked backwards from the last step, each call
    passing to its arguments the derivative of the result with respect to them
    (the seed), computed from the argument values that the evaluation left in
    the cells of the call.

    What the walk reads of the steps is a [dstep]; [V] is the type of a Datum
    that holds a float8 or points to an array ([DeriveValue]): the Datum of the
    executor, or one over idealised numbers. *)

From S2P Require Import Prelude Bitmapset Nodes NodesFacts Serialize Inject Eval Steps ApplyMt FloatFunc Matrix.

(** ** Values *)

Class DeriveValue (F V : Type) := {
  (** reading a pointer as a number is undefined *)
  DatumGetFloat8 : V → outcome F;
  Float8GetDatum : F → V;
  (** [None] for the NULL pointer; reading a number as a pointer is undefined *)
  DatumGetPointer : V → outcome (option (ArrayType F));
  PointerGetDatum : ArrayType F → V
}.

(** a Datum over numbers that need not be machine numbers *)
Inductive mdatum (F : Type) :=
| MFloat (f : F)
| MPtr (p : option (ArrayType F)).
Arguments MFloat {F}.
Arguments MPtr {F}.

#[export] Instance mdatum_value F : DeriveValue F (mdatum F) :=
  {| DatumGetFloat8 v := match v with MFloat f => Ok f | MPtr _ => UB end;
     Float8GetDatum := MFloat;
     DatumGetPointer v := match v with MPtr p => Ok p | MFloat _ => UB end;
     PointerGetDatum a := MPtr (Some a) |}.

Inductive dstep (V : Type) :=
| DField (fieldnum : Z)
| DParam (paramid : Z)
| DConst
| DFunc (fn_oid : Oid) (args : list V)
| DOther (opcode : Z).
Arguments DField {V}.
Arguments DParam {V}.
Arguments DConst {V}.
Arguments DFunc {V}.
Arguments DOther {V}.

Section Rules.
Context `{Float8Ops F} `{!DeriveValue F V}.

Definition arg_float (args : list V) (i : Z) : outcome F := v ← array_get args i; DatumGetFloat8 v.
Definition arg_ptr (args : list V) (i : Z) : outcome (option (ArrayType F)) := v ← array_get args i; DatumGetPointer v.
Definition seed_ptr (seed : V) : outcome (option (ArrayType F)) := DatumGetPointer seed.

(** the seed of a unary function: a factor computed from the argument *)
Definition unary_rule (args : list V) (seed : V) (factor : F → F → outcome F) : outcome (list V) :=
  x ← arg_float args 0;
  s ← DatumGetFloat8 seed;
  r ← factor s x;
  Ok [Float8GetDatum r].

Definition binary_rule (args : list V) (seed : V) (factors : F → F → F → outcome (F * F)) : outcome (list V) :=
  x ← arg_float args 0;
  y ← arg_float args 1;
  s ← DatumGetFloat8 seed;
  r ← factors s x y;
  Ok [Float8GetDatum r.1; Float8GetDatum r.2].

Definition derive_zero_divide {A} (what : string) : outcome A :=
  ereport ERRCODE_DIVISION_BY_ZERO (lit "Derive: " ++ lit what ++ lit ", division by Zero!").

(** the seeds of the arguments, first argument first; [None] if the function is
    not among these cases *)
Definition arithmetic_rule (fn_oid : Oid) (args : list V) (seed : V) : option (outcome (list V)) :=
  if one_of fn_oid [F_NUMERIC_MUL; F_FLOAT8MUL] then
    Some (binary_rule args seed (fun s x y => Ok (s ⊗ y, s ⊗ x)))
  else if one_of fn_oid [F_NUMERIC_DIV; F_FLOAT8DIV] then
    Some (binary_rule args seed (fun s x y =>
      if y ≟ f8 0 then derive_zero_divide "BINARY DIVISION" else Ok (s ⊘ y, (s ⊗ x ⊗ f8 (-1)) ⊘ (y ⊗ y))))
  else if one_of fn_oid [F_NUMERIC_ADD; F_FLOAT8PL] then Some (Ok [seed; seed])
  else if one_of fn_oid [F_NUMERIC_SUB; F_FLOAT8MI] then
    Some (s ← DatumGetFloat8 seed; Ok [seed; Float8GetDatum (s ⊗ f8 (-1))])
  else if one_of fn_oid [F_DPOW; F_POW_FLOAT8_FLOAT8] then
    Some (binary_rule args seed (fun s x y => Ok (s ⊗ y ⊗ f8_pow x (y ⊖ f8 1), s ⊗ f8_pow x y ⊗ f8_log x)))
  else if one_of fn_oid [F_DSQRT; F_SQRT_FLOAT8] then
    Some (unary_rule args seed (fun s x => if x ≟ f8 0 then derive_zero_divide "SQRT" else Ok (s ⊘ (f8 2 ⊗ f8_sqrt x))))
  else if one_of fn_oid [F_FLOAT8ABS; F_ABS_FLOAT8] then
    Some (unary_rule args seed (fun s x =>
      if x ≟ f8 0 then derive_zero_divide "ABS" else Ok (s ⊗ (if x ≺ f8 0 then f8 (-1) else f8 1))))
  else if fn_oid =? F_FLOAT8UM then Some (s ← DatumGetFloat8 seed; Ok [Float8GetDatum (s ⊗ f8 (-1))])
  else None.

Definition trigonometric_rule (fn_oid : Oid) (args : list V) (seed : V) : option (outcome (list V)) :=
  if fn_oid =? F_SIN then Some (unary_rule args seed (fun s x => Ok (s ⊗ f8_cos x)))
  else if fn_oid =? F_COS then Some (unary_rule args seed (fun s x => Ok (s ⊗ f8 (-1) ⊗ f8_sin x)))
  else if fn_oid =? F_EXP_FLOAT8 then Some (unary_rule args seed (fun s x => Ok (s ⊗ f8_exp x)))
  else if fn_oid =? F_ASIN then
    Some (unary_rule args seed (fun s x => Ok (s ⊗ (f8 1 ⊘ (f8_sqrt (f8 1 ⊖ x) ⊗ f8_sqrt (f8 1 ⊕ x))))))
  else if fn_oid =? F_ACOS then
    Some (unary_rule args seed (fun s x => Ok (s ⊗ (f8 1 ⊘ (f8_sqrt (f8 1 ⊖ x) ⊗ f8_sqrt (f8 1 ⊕ x))) ⊗ f8 (-1))))
  else if fn_oid =? F_ATAN then Some (unary_rule args seed (fun s x => Ok (s ⊗ (f8 1 ⊘ (x ⊗ x ⊕ f8 1)))))
  else if fn_oid =? F_ATAN2 then
    Some (binary_rule args seed (fun s x y => Ok (s ⊗ (y ⊘ (x ⊗ x ⊕ y ⊗ y)), s ⊗ (f8_neg x ⊘ (x ⊗ x ⊕ y ⊗ y)))))
  else if fn_oid =? F_TAN then Some (unary_rule args seed (fun s x => Ok (s ⊗ (f8 1 ⊘ (f8_cos x ⊗ f8_cos x)))))
  else if fn_oid =? F_COT then Some (unary_rule args seed (fun s x => Ok (s ⊗ (f8 (-1) ⊘ (f8_sin x ⊗ f8_sin x)))))
  else if fn_oid =? F_DLOG10 then Some (unary_rule args seed (fun s x => Ok (s ⊗ (f8 1 ⊘ (x ⊗ f8_log (f8 10))))))
  else if fn_oid =? F_LN_FLOAT8 then Some (unary_rule args seed (fun s x => Ok (s ⊘ x)))
  else None.

Definition activation_rule (fn_oid : Oid) (args : list V) (seed : V) : option (outcome (list V)) :=
  if fn_oid =? F_SILU then
    Some (unary_rule args seed (fun s x =>
      let e := f8_exp (f8_neg x) in Ok (s ⊗ ((f8 1 ⊕ e ⊕ x ⊗ e) ⊘ ((f8 1 ⊕ e) ⊗ (f8 1 ⊕ e))))))
  else if fn_oid =? F_SIGMOID then
    Some (unary_rule args seed (fun s x =>
      let sigX := f8 1 ⊘ (f8 1 ⊕ f8_exp (f8_neg x)) in Ok (s ⊗ (sigX ⊗ (f8 1 ⊖ sigX)))))
  else if fn_oid =? F_TANH then Some (unary_rule args seed (fun s x => Ok (s ⊗ (f8 1 ⊖ f8_tanh x ⊗ f8_tanh x))))
  else if fn_oid =? F_RELU then
    Some (x ← arg_float args 0; Ok [if x ≼ f8 0 then Float8GetDatum (f8 0) else seed])
  else None.

(** elementwise functions of matrices *)
Definition elementwise_rule (args : list V) (seed : V) (derive : option (ArrayType F) → outcome (ArrayType F)) : outcome (list V) :=
  x ← arg_ptr args 0;
  d ← derive x;
  s ← seed_ptr seed;
  r ← matrix_elem_mult s (Some d);
  Ok [PointerGetDatum r].

Definition matrix_rule (fn_oid : Oid) (args : list V) (seed : V) : option (outcome (list V)) :=
  if fn_oid =? F_SOFTMAX_CCE then
    Some (x ← arg_ptr args 0;
          y ← arg_ptr args 1;
          d ← softmax_cce_derive x y;
          s ← seed_ptr seed;
          newSeedX ← matrix_mul_internal s (Some d) false false;
          newSeedY ← createScalar (f8 0);
          Ok [PointerGetDatum newSeedX; PointerGetDatum newSeedY])
  else if fn_oid =? F_MAT_MUL then
    Some (x ← arg_ptr args 0;
          y ← arg_ptr args 1;
          s ← seed_ptr seed;
          newSeedX ← matrix_mul_internal s y false true;
          newSeedY ← matrix_mul_internal x s true false;
          Ok [PointerGetDatum newSeedX; PointerGetDatum newSeedY])
  else if fn_oid =? F_SILU_M then Some (elementwise_rule args seed silu_m_derive)
  else if fn_oid =? F_SIGMOID_M then Some (elementwise_rule args seed sigmoid_m_derive)
  else if fn_oid =? F_TANH_M then Some (elementwise_rule args seed tanh_m_derive)
  else if fn_oid =? F_RELU_M then Some (elementwise_rule args seed relu_m_derive)
  else if fn_oid =? F_MAT_ADD then Some (Ok [seed; seed])
  else None.

Definition derive_rule (fn_oid : Oid) (args : list V) (seed : V) : outcome (list V) :=
  match arithmetic_rule fn_oid args seed with
  | Some r => r
  | None =>
      match trigonometric_rule fn_oid args seed with
      | Some r => r
      | None =>
          match activation_rule fn_oid args seed with
          | Some r => r
          | None =>
              match matrix_rule fn_oid args seed with
              | Some r => r
              | None => ereport ERRCODE_FEATURE_NOT_SUPPORTED
                          (lit "Derive(Interpreted): current operator " ++ fmt_d fn_oid ++ lit " not supported, aborting...")
              end
          end
      end
  end.

(** ** The walk *)

(** [derivatives[fieldNum] += seed] *)
Definition add_derivative (matrix : bool) (derivatives : list V) (fieldNum : Z) (seed : V) : outcome (list V) :=
  old ← array_get derivatives fieldNum;
  if matrix then
    p ← DatumGetPointer old;
    s ← seed_ptr seed;
    r ← matrix_add_inplace p s;
    array_set derivatives fieldNum (PointerGetDatum r)
  else
    x ← DatumGetFloat8 old;
    s ← DatumGetFloat8 seed;
    array_set derivatives fieldNum (Float8GetDatum (x ⊕ s)).

Section Walk.
Context (matrix : bool) (indexArray : list Z) (steps : list (dstep V)).

(** the subtrees of the arguments, the last argument first *)
Fixpoint derive_args (walk : Z → V → list V → outcome (Z * list V)) (seeds : list V) (fetchIndex : Z) (derivatives : list V)
    : outcome (Z * list V) :=
  match seeds with
  | [] => Ok (fetchIndex, derivatives)
  | seed :: seeds => r ← walk fetchIndex seed derivatives; derive_args walk seeds r.1 r.2
  end.

Definition opcode_unknown {A} (opcode : Z) : outcome A :=
  ereport ERRCODE_FEATURE_NOT_SUPPORTED (lit "Derive(Interpreted): current step-opcode " ++ fmt_d opcode ++ lit " not recognized, aborting...").

Fixpoint ExecLambdaDeriveSubtree (fuel : nat) (fetchIndex : Z) (seed : V) (derivatives : list V) : outcome (Z * list V) :=
  match fuel with
  | O => OutOfFuel
  | S fuel =>
      step ← array_get steps fetchIndex;
      match step with
      | DField fieldnum =>
          arg ← array_get steps (fetchIndex - 1);
          match arg with
          | DParam paramid =>
              index ← array_get indexArray (paramid - 1);
              d ← add_derivative matrix derivatives (index + (fieldnum - 1)) seed;
              Ok (fetchIndex - 2, d)
          | _ => UB
          end
      | DConst => Ok (fetchIndex - 1, derivatives)
      | DFunc fn_oid args =>
          seeds ← derive_rule fn_oid args seed;
          derive_args (ExecLambdaDeriveSubtree fuel) (rev seeds) (fetchIndex - 1) derivatives
      | DParam _ => opcode_unknown 44
      | DOther opcode => opcode_unknown opcode
      end
  end.
End Walk.
End Rules.

(** ** Lambdas *)

(** where the columns of each input start; [natts] are the numbers of columns *)
Fixpoint index_tally (runningTally : Z) (natts : list Z) : list Z :=
  match natts with [] => [] | n :: natts => runningTally :: index_tally (runningTally + n) natts end.

Definition ExecGenerateIndexArray (natts : list Z) : list Z := index_tally 0 natts.

Definition ExecGetLambdaDerivativesLength (natts : list Z) : Z := foldl Z.add 0 natts.

Definition ExecCheckLambdaForMatrix (steps : list ExprEvalStep) : bool :=
  existsb (fun op => match op with EEOP_FIELDSELECT _ _ t => t =? FLOAT8ARRAYOID | _ => false end) steps.

(** the numbers of the opcodes *)
Definition opcode_num (op : ExprEvalStep) : Z :=
  match op with
  | EEOP_DONE => 0
  | EEOP_VAR _ v => if varno v =? -1 then 4 else if varno v =? -2 then 5 else 6
  | EEOP_CONST _ _ => 16
  | EEOP_CALLLAMBDAEXPR _ _ => 18
  | EEOP_FUNCEXPR _ _ => 19
  | EEOP_FUNCEXPR_STRICT _ _ => 20
  | EEOP_BOOL_AND_STEP_FIRST _ _ _ => 23
  | EEOP_BOOL_AND_STEP _ _ _ => 24
  | EEOP_BOOL_AND_STEP_LAST _ _ _ => 25
  | EEOP_BOOL_OR_STEP_FIRST _ _ _ => 26
  | EEOP_BOOL_OR_STEP _ _ _ => 27
  | EEOP_BOOL_OR_STEP_LAST _ _ _ => 28
  | EEOP_BOOL_NOT_STEP _ _ => 29
  | EEOP_JUMP _ => 31
  | EEOP_JUMP_IF_NOT_NULL _ _ => 33
  | EEOP_JUMP_IF_NOT_TRUE _ _ => 34
  | EEOP_NULLTEST_ISNULL _ => 35
  | EEOP_NULLTEST_ISNOTNULL _ => 36
  | EEOP_BOOLTEST_IS_TRUE _ => 39
  | EEOP_BOOLTEST_IS_NOT_TRUE _ => 40
  | EEOP_BOOLTEST_IS_FALSE _ => 41
  | EEOP_BOOLTEST_IS_NOT_FALSE _ => 42
  | EEOP_PARAM_EXEC _ _ => 43
  | EEOP_PARAM_EXTERN _ _ => 44
  | EEOP_DISTINCT _ _ => 50
  | EEOP_NULLIF _ _ => 52
  | EEOP_ARRAYEXPR _ _ _ _ => 56
  | EEOP_MINMAX _ _ _ _ _ _ => 61
  | EEOP_FIELDSELECT _ _ _ => 62
  end.

(** what the walk reads of a step; the argument values are in the cells *)
Definition view_step (m : memory) (op : ExprEvalStep) : dstep Datum :=
  match op with
  | EEOP_FIELDSELECT _ k _ => DField k
  | EEOP_PARAM_EXTERN _ p => DParam (paramid p)
  | EEOP_CONST _ _ => DConst
  | EEOP_FUNCEXPR _ f | EEOP_FUNCEXPR_STRICT _ f => DFunc (fc_fn f) ((fun i => nd_value (m i)) <$> seq (fc_args f) (fc_nargs f))
  | _ => DOther (opcode_num op)
  end.

Section Lambda.
Context `{NodeIO} `{TypeCache} `{ExecParams} `{Float8Ops F} `{!DeriveValue F Datum}.

(** the steps of a lambda's body; constants have steps of their own *)
Definition ExecInitLambdaExpr (body : Node) : outcome ExprState :=
  st ← ExecInitExprRec body 0 (mkExprState [] 1 [] true);
  Ok (ExprEvalPushStep st EEOP_DONE).

(** evaluate once, then walk; [m] are the cells before *)
Definition ExecDeriveLambdaExpr (fuel : nat) (natts : list Z) (es : ExprState) (m : memory) (derivatives : list Datum)
    : outcome (option Datum * list Datum) :=
  r ← ExecEvalExprState false fuel [] es m;
  let matrix := ExecCheckLambdaForMatrix (es_steps es) in
  seed ← (if matrix then s ← createScalar (f8 1); Ok (PointerGetDatum s) else Ok (Float8GetDatum (f8 1)));
  d ← ExecLambdaDeriveSubtree matrix (ExecGenerateIndexArray natts) (view_step r.1 <$> es_steps es) fuel (Z.of_nat (steps_len es) - 2) seed derivatives;
  Ok (r.2, d.2).
End Lambda.
