(* ===== verification/DeriveFacts.v ===== *)
(** * The walk over the steps is a walk over the tree

    The steps of an expression are its nodes in postorder.  [rev_tree] is
    reverse mode differentiation of a tree whose calls carry the values of
    their arguments; the walk of [ExecLambdaDeriveSubtree] finds the subtrees
    of the arguments by counting back. *)

From stdpp Require Import functions.
From S2P Require Import Prelude Bitmapset Nodes NodesFacts Serialize Inject InjectFacts Eval EvalFacts Steps StepsFacts StepsRun ApplyMt FloatFunc.
From S2P Require Import Matrix Derive.

(** ** Trees *)

Inductive atree (V : Type) :=
| AField (paramid fieldnum : Z)
| AConst
| AFunc (fn_oid : Oid) (args : list V) (kids : list (atree V)).
Arguments AField {V}.
Arguments AConst {V}.
Arguments AFunc {V}.

Section Induction.
Context {V : Type} (P : atree V → Prop).
Context (Hfield : ∀ p k, P (AField p k)) (Hconst : P AConst) (Hfunc : ∀ oid args kids, Forall P kids → P (AFunc oid args kids)).

Fixpoint atree_ind' (t : atree V) : P t :=
  match t with
  | AField p k => Hfield p k
  | AConst => Hconst
  | AFunc oid args kids =>
      Hfunc oid args kids ((fix go l : Forall P l := match l with [] => Forall_nil_2 P | k :: l => Forall_cons_2 P k l (atree_ind' k) (go l) end) kids)
  end.
End Induction.

(** the nodes in postorder *)
Fixpoint flatten {V} (t : atree V) : list (dstep V) :=
  match t with
  | AField p k => [DParam p; DField k]
  | AConst => [DConst]
  | AFunc oid args kids => concat (flatten <$> kids) ++ [DFunc oid args]
  end.

(** how many arguments a function has *)
Definition derive_arity (oid : Oid) : nat :=
  if one_of oid [F_NUMERIC_MUL; F_FLOAT8MUL; F_NUMERIC_DIV; F_FLOAT8DIV; F_NUMERIC_ADD; F_FLOAT8PL; F_NUMERIC_SUB; F_FLOAT8MI; F_DPOW;
                 F_POW_FLOAT8_FLOAT8; F_ATAN2; F_SOFTMAX_CCE; F_MAT_MUL; F_MAT_ADD] then 2 else 1.

Fixpoint arity_ok {V} (t : atree V) : bool :=
  match t with AFunc oid _ kids => (length kids =? derive_arity oid)%nat && forallb arity_ok kids | _ => true end.

Section Tree.
Context `{Float8Ops F} `{!DeriveValue F V} (matrix : bool) (indexArray : list Z).
Implicit Types (t : atree V) (seed : V).

(** subtrees with their seeds, the last one first *)
Definition rev_kids (walk : atree V → V → list V → outcome (list V)) : list (atree V) → list V → list V → outcome (list V) :=
  fix go kids seeds derivatives :=
    match kids, seeds with
    | k :: kids, s :: seeds => d ← go kids seeds derivatives; walk k s d
    | [], [] => Ok derivatives
    | _, _ => UB
    end.

Fixpoint rev_tree t seed (derivatives : list V) : outcome (list V) :=
  match t with
  | AField paramid fieldnum =>
      index ← array_get indexArray (paramid - 1);
      add_derivative matrix derivatives (index + (fieldnum - 1)) seed
  | AConst => Ok derivatives
  | AFunc fn_oid args kids => seeds ← derive_rule fn_oid args seed; rev_kids rev_tree kids seeds derivatives
  end.

Lemma unary_rule_length args seed factor r : unary_rule args seed factor = Ok r → length r = 1%nat.
Proof. unfold unary_rule. intros Hr. by outcome_inv. Qed.

Lemma binary_rule_length args seed factors r : binary_rule args seed factors = Ok r → length r = 2%nat.
Proof. unfold binary_rule. intros Hr. by outcome_inv. Qed.

Lemma elementwise_rule_length args seed derive r : elementwise_rule args seed derive = Ok r → length r = 1%nat.
Proof. unfold elementwise_rule. intros Hr. by outcome_inv. Qed.

Lemma one_of_spec oid l : one_of oid l = true ↔ oid ∈ l.
Proof.
  unfold one_of. rewrite existsb_exists. split.
  - intros (x & Hx & ->%Z.eqb_eq). by apply list_elem_of_In.
  - intros Hx. exists oid. split; [by apply list_elem_of_In|apply Z.eqb_refl].
Qed.

(** the branch that a chain of tests takes, with what [oid] is there *)
Ltac rule_cases H :=
  repeat match type of H with
  | context [if ?b then Some _ else _] =>
      let E := fresh "E" in destruct b eqn:E;
      [first [apply Z.eqb_eq in E; subst|apply one_of_spec in E; repeat (apply elem_of_cons in E as [->|E]); [..|by apply elem_of_nil in E]]|]
  end.

Ltac rule_length :=
  match goal with
  | H : Some _ = Some _ |- _ => injection H as H; subst
  end;
  first [eapply unary_rule_length; eassumption|eapply binary_rule_length; eassumption|eapply elementwise_rule_length; eassumption
        |repeat (outcome_inv; try match goal with H : (if ?b then _ else _) = Ok _ |- _ => destruct b end); done].

Lemma arithmetic_rule_length oid args seed r s : arithmetic_rule oid args seed = Some r → r = Ok s → length s = derive_arity oid.
Proof. unfold arithmetic_rule. intros Hr Hs. rule_cases Hr; try done; rule_length. Qed.

Lemma trigonometric_rule_length oid args seed r s : trigonometric_rule oid args seed = Some r → r = Ok s → length s = derive_arity oid.
Proof. unfold trigonometric_rule. intros Hr Hs. rule_cases Hr; try done; rule_length. Qed.

Lemma activation_rule_length oid args seed r s : activation_rule oid args seed = Some r → r = Ok s → length s = derive_arity oid.
Proof. unfold activation_rule. intros Hr Hs. rule_cases Hr; try done; rule_length. Qed.

Lemma matrix_rule_length oid args seed r s : matrix_rule oid args seed = Some r → r = Ok s → length s = derive_arity oid.
Proof. unfold matrix_rule. intros Hr Hs. rule_cases Hr; try done; rule_length. Qed.

(** a rule gives one seed per argument *)
Lemma derive_rule_length oid args seed s : derive_rule oid args seed = Ok s → length s = derive_arity oid.
Proof.
  unfold derive_rule. intros Hr. destruct (arithmetic_rule _ _ _) eqn:E1; [by eapply arithmetic_rule_length|].
  destruct (trigonometric_rule _ _ _) eqn:E2; [by eapply trigonometric_rule_length|].
  destruct (activation_rule _ _ _) eqn:E3; [by eapply activation_rule_length|].
  destruct (matrix_rule _ _ _) eqn:E4; [by eapply matrix_rule_length|done].
Qed.

(** ** The walk *)

Lemma derive_args_app (walk : Z → V → list V → outcome (Z * list V)) s1 s2 i d :
  derive_args walk (s1 ++ s2) i d = (r ← derive_args walk s1 i d; derive_args walk s2 r.1 r.2).
Proof.
  revert i d. induction s1 as [|s s1 IH]; intros i d; [done|]. cbn. destruct (walk i s d) as [[i' d']| | |]; cbn; [apply IH|done..].
Qed.

Lemma array_get_app {A} (pre : list A) x post : array_get (pre ++ x :: post) (Z.of_nat (length pre)) = Ok x.
Proof. unfold array_get. rewrite (proj2 (Z.ltb_ge _ 0)) by lia. by rewrite Nat2Z.id, list_lookup_middle. Qed.

Fixpoint depth t : nat := match t with AFunc _ _ kids => S (foldr Nat.max 0%nat (depth <$> kids)) | _ => 1%nat end.

Definition walk_ok t : Prop :=
  ∀ pre post fuel seed d, arity_ok t = true → (depth t ≤ fuel)%nat →
  ExecLambdaDeriveSubtree matrix indexArray (pre ++ flatten t ++ post) fuel (Z.of_nat (length (pre ++ flatten t)) - 1) seed d
  = (d ← rev_tree t seed d; Ok (Z.of_nat (length pre) - 1, d)).

Lemma walk_kids kids : ∀ pre post fuel seeds d,
  Forall walk_ok kids → forallb arity_ok kids = true → (foldr Nat.max 0 (depth <$> kids) ≤ fuel)%nat → length seeds = length kids →
  derive_args (ExecLambdaDeriveSubtree matrix indexArray (pre ++ concat (flatten <$> kids) ++ post) fuel) (rev seeds)
    (Z.of_nat (length (pre ++ concat (flatten <$> kids))) - 1) d
  = (d ← rev_kids rev_tree kids seeds d; Ok (Z.of_nat (length pre) - 1, d)).
Proof.
  induction kids as [|k kids IH]; intros pre post fuel [|s seeds] d HF Ha Hf Hl; try done.
  { cbn. by rewrite app_nil_r. }
  apply Forall_cons in HF as [Hk HF]. cbn in Ha, Hf, Hl. apply andb_prop in Ha as [Ha Has]. cbn [fmap list_fmap concat rev].
  rewrite derive_args_app. specialize (IH (pre ++ flatten k) post fuel seeds d HF Has ltac:(lia) ltac:(lia)).
  rewrite <- !app_assoc in IH. rewrite <- !app_assoc. cbn [rev_kids]. rewrite IH. destruct (rev_kids rev_tree kids seeds d) as [d'| | |]; [|done..].
  cbn [mbind outcome_bind fst snd derive_args].
  specialize (Hk pre (concat (flatten <$> kids) ++ post) fuel s d' Ha ltac:(lia)). rewrite Hk. by destruct (rev_tree k s d').
Qed.

Lemma derive_walk t : walk_ok t.
Proof.
  induction t as [p k| |oid args kids IH] using atree_ind'; intros pre post [|fuel] seed d Ha Hf; cbn in Hf; try lia.
  - cbn [flatten]. rewrite length_app. cbn [length ExecLambdaDeriveSubtree].
    replace (Z.of_nat (length pre + 2) - 1) with (Z.of_nat (length (pre ++ [DParam p]))) by (rewrite length_app; cbn; lia).
    replace (pre ++ [DParam p; DField k] ++ post) with ((pre ++ [DParam p]) ++ DField k :: post) by (by rewrite <- app_assoc).
    rewrite array_get_app. cbn [mbind outcome_bind].
    replace (Z.of_nat (length (pre ++ [DParam p])) - 1) with (Z.of_nat (length pre)) by (rewrite length_app; cbn; lia).
    rewrite <- app_assoc. cbn [app]. rewrite array_get_app. cbn [mbind outcome_bind rev_tree].
    destruct (array_get indexArray (p - 1)); try done. cbn [mbind outcome_bind].
    replace (Z.of_nat (length (pre ++ [DParam p])) - 2) with (Z.of_nat (length pre) - 1) by (rewrite length_app; cbn; lia). done.
  - cbn [flatten]. rewrite length_app. cbn [length ExecLambdaDeriveSubtree].
    replace (Z.of_nat (length pre + 1) - 1) with (Z.of_nat (length pre)) by lia. cbn [app]. by rewrite array_get_app.
  - cbn [flatten arity_ok] in *. apply andb_prop in Ha as [Hl%Nat.eqb_eq Ha]. cbn [ExecLambdaDeriveSubtree].
    replace (Z.of_nat (length (pre ++ concat (flatten <$> kids) ++ [DFunc oid args])) - 1)
      with (Z.of_nat (length (pre ++ concat (flatten <$> kids)))) by (rewrite !length_app; cbn; lia).
    replace (pre ++ (concat (flatten <$> kids) ++ [DFunc oid args]) ++ post) with ((pre ++ concat (flatten <$> kids)) ++ DFunc oid args :: post)
      by (by rewrite <- !app_assoc).
    rewrite array_get_app. cbn [mbind outcome_bind rev_tree]. destruct (derive_rule oid args seed) as [seeds| | |] eqn:Hr; [|done..].
    cbn [mbind outcome_bind]. apply derive_rule_length in Hr. rewrite <- app_assoc. apply walk_kids; [done|done|lia|lia].
Qed.
End Tree.

(** * Compiled lambdas are differentiated like their trees

    Running the steps of a lambda's body leaves in the cells of each call the
    values of its arguments: seen by the walk, the steps are the nodes of the
    body in postorder, with these values. *)

(** bodies of calls, fields of the inputs and constants, with the number of
    arguments that the functions have *)
Fixpoint derivable (n : Node) : bool :=
  match n with
  | NConst _ => true
  | NFieldSelect _ _ (NParam p) => match paramkind p with PARAM_EXTERN => true | _ => false end
  | NRelabelType _ arg => derivable arg
  | NFuncExpr f args => (length args =? derive_arity (funcid f))%nat && forallb derivable args
  | NOpExpr o args => (length args =? derive_arity (opfuncid o))%nat && forallb derivable args
  | _ => false
  end.

(** the tree of a body, [val] being the values of its expressions *)
Fixpoint annotate {V} (val : Node → V) (n : Node) : atree V :=
  match n with
  | NFieldSelect k _ (NParam p) => AField (paramid p) k
  | NRelabelType _ arg => annotate val arg
  | NFuncExpr f args => AFunc (funcid f) (val <$> args) (annotate val <$> args)
  | NOpExpr o args => AFunc (opfuncid o) (val <$> args) (annotate val <$> args)
  | _ => AConst
  end.

Lemma annotate_arity {V} (val : Node → V) n : derivable n = true → arity_ok (annotate val n) = true.
Proof.
  induction n as [n IH] using node_ind'. destruct n as [| | | |f args|o args| | | |k t arg|t arg| | | | | | | | |]; intros Hd; try done;
    cbn [derivable annotate arity_ok children] in *.
  1,2: apply andb_prop in Hd as [Hl Ha]; rewrite length_fmap, Hl; cbn [andb];
    apply forallb_Forall in Ha; apply forallb_Forall, Forall_fmap; rewrite Forall_forall in *; intros x Hx; by apply IH, Ha.
  - by destruct arg.
  - inversion IH; subst. auto.
Qed.

(** ** Code without jumps *)

Inductive straight `{NodeIO} `{TypeCache} `{ExecParams} : list ExprEvalStep → memory → memory → Prop :=
| straight_nil m : straight [] m m
| straight_cons op ops m m1 m2 : (∀ call, exec_step call [] op m = Ok (m1, None)) → straight ops m1 m2 → straight (op :: ops) m m2.

Section Run.
Context `{NodeIO} `{TypeCache} `{ExecParams}.

Lemma straight_app ops1 ops2 m m1 m2 : straight ops1 m m1 → straight ops2 m1 m2 → straight (ops1 ++ ops2) m m2.
Proof. induction 1; [done|]. intros. econstructor; eauto. Qed.

Lemma straight_one op m m1 : (∀ call, exec_step call [] op m = Ok (m1, None)) → straight [op] m m1.
Proof. intros Hs. econstructor; [exact Hs|constructor]. Qed.

Lemma runs_straight hoist ops m m' : straight ops m m' → ∀ pre post, runs hoist [] (pre ++ ops ++ post) (length pre) m (length pre + length ops) m'.
Proof.
  induction 1 as [m|op ops m m1 m2 Hop _ IH]; intros pre post; [rewrite Nat.add_0_r; apply runs_refl|].
  eapply runs_trans.
  - apply (runs_step _ _ _ _ op _ m1 None); [cbn [app]; by rewrite list_lookup_middle|done|by apply steps_now].
  - specialize (IH (pre ++ [op]) post). rewrite <- app_assoc, length_app in IH. cbn [app length target] in *.
    replace (length pre + 1)%nat with (S (length pre)) in IH by lia. by rewrite Nat.add_succ_r.
Qed.

(** ** The code of a body *)

Context (fuel0 : nat).
Abbreviation ev := (ExecEvalExpr false fuel0 []).

Definition value_of (n : Node) : Datum := match ev n with Ok (Some d) => d | _ => DByVal 0 end.

Definition has_value (n : Node) : bool := match ev n with Ok (Some _) => true | _ => false end.

(** no argument of a call is NULL *)
Fixpoint valued (n : Node) : bool :=
  match n with
  | NRelabelType _ arg => valued arg
  | NFuncExpr _ args | NOpExpr _ args => forallb has_value args && forallb valued args
  | _ => true
  end.

Record compiled_to (read : memory → Prop) (W : nat → Prop) (view : list (dstep Datum)) (st st' : ExprState) (ops : list ExprEvalStep) : Prop := {
  cd_steps : es_steps st' = es_steps st ++ ops;
  cd_load : load_consts_explicitly st' = true;
  cd_next : (es_next st ≤ es_next st')%nat;
  cd_run m : ∃ m', straight ops m m' ∧ read m'
    ∧ (∀ a, ¬ W a → (a < es_next st ∨ es_next st' ≤ a)%nat → m' a = m a)
    ∧ ∀ m'', (∀ a, (es_next st ≤ a < es_next st')%nat → m'' a = m' a) → view_step m'' <$> ops = view
}.

Definition compiles (n : Node) : Prop :=
  ∀ res st st' v, load_consts_explicitly st = true → (res < es_next st)%nat → ExecInitExprRec n res st = Ok st' → ev n = Ok v →
  ∃ ops, compiled_to (fun m => nd_option (m res) = v) (fun a => a = res) (flatten (annotate value_of n)) st st' ops.

(** the cells from [base] on hold the values of [args] *)
Definition holds_values (base : nat) (args : list Node) (m : memory) : Prop :=
  ∀ i a, args !! i = Some a → m (base + i)%nat = mkNullable (value_of a) false.

Lemma has_value_inv n : has_value n = true → ev n = Ok (Some (value_of n)).
Proof. unfold has_value, value_of. by destruct (ev n) as [[]| | |]. Qed.

Lemma nd_option_Some c d : nd_option c = Some d → c = mkNullable d false.
Proof. destruct c as [v []]; cbn; [done|]. by intros [= ->]. Qed.

Lemma init_func_args_cons a args base st :
  load_consts_explicitly st = true → derivable a = true →
  init_func_args ExecInitExprRec (a :: args) base st = (st ← ExecInitExprRec a base st; init_func_args ExecInitExprRec args (S base) st).
Proof. intros Hl Hd. cbn [init_func_args]. destruct a; try done. by rewrite Hl. Qed.

Lemma compiled_args args : ∀ base st st',
  Forall compiles args → forallb derivable args = true → forallb has_value args = true →
  load_consts_explicitly st = true → (base + length args ≤ es_next st)%nat → init_func_args ExecInitExprRec args base st = Ok st' →
  ∃ ops, compiled_to (holds_values base args) (fun a => base ≤ a < base + length args)%nat (concat (flatten ∘ annotate value_of <$> args)) st st' ops.
Proof.
  induction args as [|x args IH]; intros base st st' HF Hd Hv Hl Hb Hi.
  { injection Hi as <-. exists []. split; [by rewrite app_nil_r|done|done|]. intros m. exists m. split_and!; [constructor|done|done|done]. }
  apply Forall_cons in HF as [Hx HF]. cbn in Hd, Hv. apply andb_prop in Hd as [Hdx Hd], Hv as [Hvx Hv]. cbn [length] in Hb.
  rewrite init_func_args_cons in Hi by done. apply bind_Ok_inv in Hi as (st1 & Hx1 & Hi).
  destruct (Hx base st st1 _ Hl ltac:(lia) Hx1 (has_value_inv _ Hvx)) as (ops1 & [S1 L1 N1 R1]).
  destruct (IH (S base) st1 st' HF Hd Hv L1 ltac:(lia) Hi) as (ops2 & [S2 L2 N2 R2]). exists (ops1 ++ ops2).
  split; [by rewrite S2, S1, app_assoc|done|lia|]. intros m. destruct (R1 m) as (m1 & X1 & V1 & F1 & W1). destruct (R2 m1) as (m2 & X2 & V2 & F2 & W2).
  exists m2. split_and!; [by eapply straight_app| | |].
  - intros [|i] a Ha; cbn in Ha.
    + injection Ha as <-. rewrite Nat.add_0_r, F2 by lia. by apply nd_option_Some.
    + rewrite <- (V2 i a Ha). f_equal. lia.
  - intros a Ha Hr. cbn [length] in Ha. rewrite F2, F1 by lia. done.
  - intros m'' Hm. rewrite fmap_app. cbn [fmap list_fmap concat compose]. rewrite W2 by (intros; apply Hm; lia). f_equal.
    apply W1. intros a Ha. rewrite Hm by lia. apply F2; lia.
Qed.

(** the values of arguments that have values, with any fuel that suffices *)
Lemma args_values k args vs :
  (k ≤ fuel0)%nat → forallb has_value args = true → omapM (ExecEvalExpr false k []) args = Ok vs → vs = Some ∘ value_of <$> args.
Proof.
  intros Hk Hv Hm. apply omapM_Forall2 in Hm. induction Hm as [|a v args vs Ha _ IH]; [done|]. cbn in Hv. apply andb_prop in Hv as [Hva Hv].
  cbn. f_equal; [|by apply IH]. pose proof (has_value_inv a Hva) as Hx. unfold ExecEvalExpr in *.
  rewrite (eval_mono _ _ _ _ _ _ _ Hk Ha) in Hx. by injection Hx.
Qed.

Lemma eval_func_values fid coll args v : eval_func fid coll (Some ∘ value_of <$> args) = Ok v → fn_call fid coll (Some ∘ value_of <$> args) = Ok v.
Proof.
  unfold eval_func. rewrite (bool_decide_true (Forall is_Some _)).
  - by rewrite andb_false_r.
  - apply Forall_fmap, Forall_true. by eexists.
Qed.

Lemma holds_cells base args m : holds_values base args m →
  ((fun i => nd_value (m i)) <$> seq base (length args)) = value_of <$> args
  ∧ cells m base (length args) = Some ∘ value_of <$> args
  ∧ existsb (fun i => nd_isnull (m i)) (seq base (length args)) = false.
Proof.
  revert base. induction args as [|a args IH]; intros base Hh; [done|].
  destruct (IH (S base)) as (E1 & E2 & E3). { intros i x Hx. rewrite Nat.add_succ_comm. by apply (Hh (S i)). }
  pose proof (Hh 0%nat a eq_refl) as Ha. rewrite Nat.add_0_r in Ha. unfold cells in *. cbn in *. rewrite Ha. cbn. by rewrite E1, E2, E3.
Qed.

Lemma compiled_func args fid coll res st st1 f v :
  Forall compiles args → forallb derivable args = true → forallb has_value args = true → load_consts_explicitly st = true → (res < es_next st)%nat →
  ExecInitFunc ExecInitExprRec args fid coll st = Ok (f, st1) → fn_call fid coll (Some ∘ value_of <$> args) = Ok v →
  ∃ ops, compiled_to (fun m => nd_option (m res) = v) (fun a => a = res)
           (concat (flatten ∘ annotate value_of <$> args) ++ [DFunc fid (value_of <$> args)]) st (ExprEvalPushStep st1 (func_opcode res f)) ops.
Proof.
  intros HF Hd Hv Hl Hres Hi Hcall. unfold ExecInitFunc in Hi. destruct (_ >? _); [done|]. apply bind_Ok_inv in Hi as (st2 & Hi & [= <- <-]).
  destruct (compiled_args args (es_next st) (palloc_cells st (length args)) st2 HF Hd Hv Hl ltac:(done) Hi) as (ops & [S1 L1 N1 R1]).
  cbn [palloc_cells es_next es_steps] in *. set (f := mkFuncCall fid coll (es_next st) (length args)).
  exists (ops ++ [func_opcode res f]). split; [cbn; by rewrite S1, app_assoc|done|cbn; lia|]. intros m.
  destruct (R1 m) as (m1 & X1 & V1 & F1 & W1). destruct (holds_cells _ _ _ V1) as (_ & Hc & Hn).
  exists (<[res := nd_of v]> m1). split_and!.
  - eapply straight_app; [exact X1|]. apply straight_one. intros call. unfold func_opcode. cbn [fc_fn fc_nargs f].
    destruct (_ && _); cbn [exec_step]; unfold fc_values; cbn [fc_fn fc_coll fc_args fc_nargs f]; rewrite ?Hn, Hc, Hcall; done.
  - by rewrite fn_lookup_insert, nd_option_of.
  - cbn. intros a Ha Hr. rewrite fn_lookup_insert_ne by done. apply F1; lia.
  - cbn. intros m'' Hm. assert (∀ a, (es_next st ≤ a < es_next st2)%nat → m'' a = m1 a) as Hm1.
    { intros a Ha. rewrite Hm by lia. apply fn_lookup_insert_ne. lia. }
    rewrite fmap_app, W1 by (intros a Ha; apply Hm1; lia). f_equal.
    assert (holds_values (es_next st) args m'') as V2.
    { intros i a Ha. rewrite Hm1; [by apply V1|]. apply lookup_lt_Some in Ha. lia. }
    unfold func_opcode. cbn [fc_fn fc_nargs f]. destruct (_ && _); cbn; f_equal; f_equal; by apply holds_cells.
Qed.

(** the value of a call *)
Lemma call_value n args fid coll v :
  (∀ fuel, ExecEvalExpr false (S fuel) [] n = (vs ← omapM (ExecEvalExpr false fuel []) args; eval_func fid coll vs)) →
  forallb has_value args = true → ev n = Ok v → fn_call fid coll (Some ∘ value_of <$> args) = Ok v.
Proof.
  intros Hn Hv He. assert (∃ k vs, (k ≤ fuel0)%nat ∧ omapM (ExecEvalExpr false k []) args = Ok vs ∧ eval_func fid coll vs = Ok v) as (k & vs & Hk & Hvs & Hf).
  { destruct fuel0 as [|k]; [done|]. rewrite Hn in He. apply bind_Ok_inv in He as (vs & Hvs & He). exists k, vs. split_and!; [lia|done|done]. }
  apply args_values in Hvs as ->; [|done|done]. by apply eval_func_values.
Qed.

Lemma compiled_call n args fid coll res st st' v :
  (∀ fuel, ExecEvalExpr false (S fuel) [] n = (vs ← omapM (ExecEvalExpr false fuel []) args; eval_func fid coll vs)) →
  ExecInitExprRec n res st = ('(f, st) ← ExecInitFunc ExecInitExprRec args fid coll st; Ok (ExprEvalPushStep st (func_opcode res f))) →
  Forall (fun c => derivable c = true → valued c = true → compiles c) args →
  forallb derivable args = true → forallb has_value args && forallb valued args = true →
  load_consts_explicitly st = true → (res < es_next st)%nat → ExecInitExprRec n res st = Ok st' → ev n = Ok v →
  ∃ ops, compiled_to (fun m => nd_option (m res) = v) (fun a => a = res) (flatten (AFunc fid (value_of <$> args) (annotate value_of <$> args))) st st' ops.
Proof.
  intros Hn Hc IH Hd [Hv Hval]%andb_prop Hl Hres Hi He. rewrite Hc in Hi. apply bind_Ok_inv in Hi as ([f' st1] & Hi & [= <-]).
  cbn [flatten]. rewrite <- list_fmap_compose. eapply compiled_func; try done; [|by eapply call_value].
  rewrite forallb_Forall, Forall_forall in Hd, Hval. rewrite Forall_forall in *. auto.
Qed.

Lemma compiled_body n : derivable n = true → valued n = true → compiles n.
Proof.
  induction n as [n IH] using node_ind'. intros Hd Hval res st st' v Hl Hres Hi He.
  destruct n as [| con| | |f args|o args| | | |k t arg|t arg| | | | | | | | |]; try done; cbn [children derivable valued annotate] in *.
  - injection Hi as <-. exists [EEOP_CONST res (mkNullable (constvalue con) (constisnull con))]. split; [done|done|done|]. intros m.
    exists (<[res := mkNullable (constvalue con) (constisnull con)]> m). split_and!; [by apply straight_one| | |done].
    + rewrite fn_lookup_insert. unfold ExecEvalExpr in He. destruct fuel0; [done|]. cbn in He. injection He as <-. by destruct (constisnull con).
    + intros a Ha _. by rewrite fn_lookup_insert_ne.
  - apply andb_prop in Hd as [_ Hd]. by eapply (compiled_call (NFuncExpr f args)).
  - apply andb_prop in Hd as [_ Hd]. by eapply (compiled_call (NOpExpr o args)).
  - destruct arg as [| |p| | | | | | | | | | | | | | | | |]; try done. cbn [ExecInitExprRec] in Hi. destruct (paramkind p) eqn:Hp; try done. injection Hi as <-.
    assert (∃ x, param_extern p = Ok x ∧ field_select k t x = Ok v) as (x & Hx & Hf).
    { unfold ExecEvalExpr in He. destruct fuel0 as [|[|n]]; [done|done|]. cbn in He. rewrite Hp in He. apply bind_Ok_inv in He as (x & Hx & He). eauto. }
    exists [EEOP_PARAM_EXTERN res p; EEOP_FIELDSELECT res k t]. split; [cbn; by rewrite <- app_assoc|done|done|]. intros m.
    exists (<[res := nd_of v]> (<[res := nd_of x]> m)). split_and!; [| | |done].
    + eapply (straight_cons _ _ _ (<[res := nd_of x]> m)); [intros; cbn; by rewrite Hx|]. apply straight_one. intros. cbn.
      rewrite fn_lookup_insert, nd_option_of, Hf. done.
    + by rewrite fn_lookup_insert, nd_option_of.
    + intros a Ha _. by rewrite !fn_lookup_insert_ne.
  - inversion IH as [|? ? Harg _]; subst. eapply Harg; try done. unfold ExecEvalExpr in *. destruct fuel0; [done|]. by apply (eval_mono _ _ n (S n)); [lia|].
Qed.
End Run.
