(* ===== verification/DeriveTheorems.v ===== *)
(** * Differentiating compiled lambdas *)

From stdpp Require Import functions.
From S2P Require Import Prelude Bitmapset Nodes NodesFacts Serialize Inject InjectFacts Typing Eval EvalFacts Semantics HoistFacts NodeText Demo.
From S2P Require Import Steps StepsFacts StepsRun HoistTheorems StepsTheorems ApplyMt FloatFunc Matrix Derive DeriveFacts.

(** the seed of the whole expression *)
Definition first_seed `{Float8Ops F} `{!DeriveValue F V} (matrix : bool) : outcome V :=
  if matrix then s ← createScalar (f8 1); Ok (PointerGetDatum s) else Ok (Float8GetDatum (f8 1)).

Section Compiled.
Context `{NodeIO} `{TypeCache} `{ExecParams} `{Float8Ops F} `{!DeriveValue F Datum}.

(** the fast path of a constant reads the cell that the step writes *)
Lemma just_const r c (v : option Datum) :
  (∀ m, ∃ m', straight [EEOP_CONST r c] m m' ∧ nd_option (m' 0%nat) = v) → nd_option c = v.
Proof.
  intros HR. assert (∀ m, nd_option ((<[r := c]> m : memory) 0%nat) = v) as HC.
  { intros m. destruct (HR m) as (m' & X & <-). inversion X as [|? ? ? ? ? Hop Hnil]; subst. inversion Hnil; subst.
    specialize (Hop (fun _ _ => UB)). cbn in Hop. by injection Hop as <-. }
  destruct (decide (r = 0%nat)) as [->|Hr]; [specialize (HC (fun _ => c)); by rewrite fn_lookup_insert in HC|].
  pose proof (HC (fun _ => mkNullable (DByVal 0) true)) as E1. pose proof (HC (fun _ => mkNullable (DByVal 0) false)) as E2.
  rewrite fn_lookup_insert_ne in E1, E2 by done. cbn in E1, E2. congruence.
Qed.

Lemma done_runs ops (m m' : memory) :
  straight ops m m' → ∃ n, ∀ fuel, (n ≤ fuel)%nat → ExecInterpExpr false fuel [] (ops ++ [EEOP_DONE]) 0 m = Ok m'.
Proof.
  intros X. destruct (runs_straight false ops m m' X [] [EEOP_DONE]) as (k & n & Hr). exists (k + S n)%nat. intros fuel Hf.
  replace fuel with (k + S (fuel - k - 1))%nat by lia. cbn [app length Nat.add] in Hr. rewrite Hr by lia. cbn [ExecInterpExpr].
  by rewrite list_lookup_middle.
Qed.

Lemma lambda_evaluates body es m fuel0 v :
  ExecInitLambdaExpr body = Ok es → derivable body = true → valued fuel0 body = true → ExecEvalExpr false fuel0 [] body = Ok v →
  ∃ n m', (∀ fuel, (n ≤ fuel)%nat → ExecEvalExprState false fuel [] es m = Ok (m', v))
  ∧ view_step m' <$> es_steps es = flatten (annotate (value_of fuel0) body) ++ [DOther 0].
Proof.
  unfold ExecInitLambdaExpr. intros Hi Hd Hv He. apply bind_Ok_inv in Hi as (st & Hi & [= <-]).
  destruct (compiled_body fuel0 body Hd Hv 0%nat (mkExprState [] 1 [] true) st v eq_refl ltac:(cbn; lia) Hi He) as (ops & [S1 _ _ R1]).
  cbn in S1. subst ops. unfold ExecEvalExprState. destruct (exec_state_cases (ExprEvalPushStep st EEOP_DONE)) as [(r & c & Hs & Hx)|Hx].
  - cbn in Hs. apply (app_inj_tail _ [_] _ EEOP_DONE) in Hs as [Hs _]. rewrite Hs in R1. exists 0%nat, m. split.
    + intros fuel _. rewrite Hx. do 2 f_equal. apply (just_const r). intros m2. destruct (R1 m2) as (m3 & X3 & V3 & _). by exists m3.
    + destruct (R1 m) as (m1 & _ & _ & _ & W1). cbn. by rewrite Hs, <- (W1 m1 ltac:(done)).
  - destruct (R1 m) as (m1 & X1 & V1 & _ & W1). destruct (done_runs _ m m1 X1) as [n Hn]. exists n, m1. split.
    + intros fuel Hf. rewrite Hx. cbn. rewrite (Hn fuel Hf). cbn. by rewrite V1.
    + cbn. by rewrite fmap_app, W1.
Qed.

(** C9. Differentiating a compiled lambda is reverse mode differentiation of
    its body.  When a body of calls, columns of the inputs and constants
    evaluates to [v], no argument of a call being NULL, [ExecDeriveLambdaExpr]
    runs the steps, returns [v] and leaves in the array of derivatives what
    differentiating the tree of the body leaves there, with the values that the
    evaluation gives the arguments; counting the steps back finds the subtree
    of every argument.  An error of a derivative rule is the error of the call.
    This holds whatever the cells hold before. *)
Theorem derive_compiled natts body es m fuel0 v d :
  ExecInitLambdaExpr body = Ok es → derivable body = true → valued fuel0 body = true → ExecEvalExpr false fuel0 [] body = Ok v →
  let matrix := ExecCheckLambdaForMatrix (es_steps es) in
  ∃ n, ∀ fuel, (n ≤ fuel)%nat →
    ExecDeriveLambdaExpr fuel natts es m d
    = (seed ← first_seed matrix; d ← rev_tree matrix (ExecGenerateIndexArray natts) (annotate (value_of fuel0) body) seed d; Ok (v, d)).
Proof.
  intros Hi Hd Hv He matrix. destruct (lambda_evaluates body es m fuel0 v Hi Hd Hv He) as (n & m' & Hn & Hview).
  set (t := annotate (value_of fuel0) body) in *. exists (max n (depth t)). intros fuel Hf. unfold ExecDeriveLambdaExpr. rewrite Hn by lia.
  cbn [mbind outcome_bind fst snd]. fold matrix. change (if matrix then _ else _) with (first_seed (F := F) (V := Datum) matrix).
  destruct (first_seed matrix) as [seed| | |]; try done. cbn [mbind outcome_bind]. rewrite Hview.
  assert (steps_len es = S (length (flatten t))) as ->.
  { unfold steps_len. by rewrite <- (length_fmap (view_step m') (es_steps es)), Hview, length_app, Nat.add_1_r. }
  replace (Z.of_nat (S (length (flatten t))) - 2) with (Z.of_nat (length ([] ++ flatten t)) - 1) by (cbn; lia).
  rewrite (derive_walk matrix _ t [] [DOther 0] fuel seed d); [|by apply annotate_arity|lia]. by destruct (rev_tree _ _ _ _ _).
Qed.
End Compiled.

(** ** An example: [λ(l, r). l.1 * r.1 + l.1] at [3] and [5] *)

Definition int_datum : DeriveValue Z Datum := {|
  DatumGetFloat8 d := match d with DByVal z => Ok z | _ => UB end;
  Float8GetDatum := DByVal;
  DatumGetPointer _ := UB;
  PointerGetDatum _ := DByVal 0
|}.

Definition derive_exec : ExecParams := {|
  fn_strict _ := true;
  fn_call fid _ vs :=
    match vs with
    | [Some (DByVal a); Some (DByVal b)] => Ok (Some (DByVal (if fid =? F_FLOAT8MUL then a * b else a + b)))
    | _ => elog (lit "invalid argument")
    end;
  cmp_proc _ _ _ _ := Ok None; field_select _ _ v := Ok v; make_array _ _ := elog (lit "no arrays"); var_value _ := elog (lit "no tuple");
  param_extern p := Ok (Some (DByVal (2 * paramid p + 1))); eval_const_expressions := Ok
|}.

Definition derive_body : Node :=
  let col p := NFieldSelect 1 701 (NParam (mkParam PARAM_EXTERN p 2249 (-1) 0 true)) in
  NFuncExpr (mkFuncHdr F_FLOAT8PL 701 0) [NFuncExpr (mkFuncHdr F_FLOAT8MUL 701 0) [col 1; col 2]; col 1].

Definition derive_steps : ExprState :=
  match ExecInitLambdaExpr (H1 := derive_exec) derive_body with Ok es => es | _ => mkExprState [] 0 [] true end.

Lemma derive_compiled_witness :
  ExecInitLambdaExpr (H1 := derive_exec) derive_body = Ok derive_steps
  ∧ ∃ n, ∀ fuel, (n ≤ fuel)%nat →
    ExecDeriveLambdaExpr (H1 := derive_exec) (H2 := int_float8) (DeriveValue0 := int_datum) fuel [1; 1] derive_steps
      (fun _ => mkNullable (DByVal 0) true) [DByVal 0; DByVal 0]
    = Ok (Some (DByVal 18), [DByVal 6; DByVal 3]).
Proof.
  split; [reflexivity|].
  destruct (derive_compiled (H1 := derive_exec) (H2 := int_float8) (DeriveValue0 := int_datum) [1; 1] derive_body derive_steps
              (fun _ => mkNullable (DByVal 0) true) 9 (Some (DByVal 18)) [DByVal 0; DByVal 0] eq_refl eq_refl eq_refl eq_refl) as [n Hn].
  exists n. intros fuel Hf. rewrite (Hn fuel Hf). reflexivity.
Defined.
