(* ===== verification/FloatReal.v ===== *)
(** * The functions over the real numbers

    The real numbers as an instance of [Float8Ops]: no rounding, no infinities,
    no NaN.  What holds around a point, and sums of products. *)

From Stdlib Require Import Reals Lra.
From S2P Require Import Prelude ApplyMt FloatFunc Matrix MatrixFacts.

Definition Reqb (x y : R) : bool := if Req_dec_T x y then true else false.
Definition Rltb (x y : R) : bool := if Rlt_dec x y then true else false.

(** the angle of the point with ordinate [y] and abscissa [x] *)
Definition Ratan2 (y x : R) : R :=
  if Rlt_dec 0 x then atan (y / x)
  else if Rlt_dec x 0 then (if Rlt_dec y 0 then atan (y / x) - PI else atan (y / x) + PI)%R
  else if Rlt_dec 0 y then (PI / 2)%R else if Rlt_dec y 0 then (- (PI / 2))%R else 0%R.

#[export] Instance real_float8 : Float8Ops R := {|
  f8 := IZR;
  f8_add := Rplus; f8_sub := Rminus; f8_mul := Rmult; f8_div := Rdiv; f8_neg := Ropp;
  f8_eq := Reqb; f8_lt := Rltb;
  f8_isnan _ := false; f8_isinf _ := false; f8_nan := 0%R;
  f8_floor x := IZR (Int_part x); f8_fabs := Rabs; f8_sqrt := sqrt; f8_exp := exp;
  f8_log := ln; f8_log10 x := (ln x / ln 10)%R; f8_pow := Rpower;
  f8_sin := sin; f8_cos := cos; f8_tan := tan; f8_asin := asin; f8_acos := acos; f8_atan := atan; f8_atan2 := Ratan2; f8_tanh := tanh;
  errno_exp _ := 0; errno_pow _ _ := 0; errno_sin _ := 0; errno_cos _ := 0; errno_tan _ := 0
|}.

Arguments Reqb : simpl never.
Arguments Rltb : simpl never.
Arguments Ratan2 : simpl never.

Lemma Reqb_true x y : Reqb x y = true ↔ x = y.
Proof. unfold Reqb. by destruct (Req_dec_T x y). Qed.
Lemma Reqb_false x y : Reqb x y = false ↔ x ≠ y.
Proof. unfold Reqb. by destruct (Req_dec_T x y). Qed.
Lemma Rltb_true x y : Rltb x y = true ↔ (x < y)%R.
Proof. unfold Rltb. by destruct (Rlt_dec x y). Qed.
Lemma Rltb_false x y : Rltb x y = false ↔ ¬ (x < y)%R.
Proof. unfold Rltb. by destruct (Rlt_dec x y). Qed.

(** decide the comparisons of a call *)
Ltac real_tests :=
  repeat match goal with
  | |- context [Reqb ?x ?y] =>
      first [rewrite (proj2 (Reqb_false x y)) by (try lra; assumption)|rewrite (proj2 (Reqb_true x y)) by (try lra; assumption)]
  | |- context [Rltb ?x ?y] =>
      first [rewrite (proj2 (Rltb_false x y)) by (try lra; assumption)|rewrite (proj2 (Rltb_true x y)) by (try lra; assumption)]
  end.

(** ** Neighbourhoods *)

Definition near (x : R) (P : R → Prop) : Prop := ∃ e, (0 < e)%R ∧ ∀ t, (Rabs (t - x) < e)%R → P t.

Lemma near_here x P : near x P → P x.
Proof. intros (e & He & HP). apply HP. by rewrite Rminus_diag, Rabs_R0. Qed.

Lemma near_all x (P : R → Prop) : (∀ t, P t) → near x P.
Proof. intros HP. exists 1%R. split; [lra|auto]. Qed.

Lemma near_impl x (P Q : R → Prop) : near x P → (∀ t, P t → Q t) → near x Q.
Proof. intros (e & He & HP) HQ. exists e. auto. Qed.

Lemma near_and x (P Q : R → Prop) : near x P → near x Q → near x (fun t => P t ∧ Q t).
Proof.
  intros (e & He & HP) (e' & He' & HQ). exists (Rmin e e'). split; [by apply Rmin_pos|]. intros t Ht.
  pose proof (Rmin_l e e'). pose proof (Rmin_r e e'). split; [apply HP|apply HQ]; lra.
Qed.

Lemma near_comp f x P : continuity_pt f x → near (f x) P → near x (fun t => P (f t)).
Proof.
  intros Hc (e & He & HP). destruct (Hc e He) as (a & Ha & Hf). exists a. split; [exact Ha|]. intros t Ht. apply HP.
  destruct (Req_dec_T x t) as [->|Hne]; [by rewrite Rminus_diag, Rabs_R0|]. apply (Hf t). split; [done|exact Ht].
Qed.

Lemma near_lt_l a x : (a < x)%R → near x (fun t => a < t)%R.
Proof. intros Hx. exists (x - a)%R. split; [lra|]. intros t Ht%Rabs_def2. lra. Qed.

Lemma near_lt_r b x : (x < b)%R → near x (fun t => t < b)%R.
Proof. intros Hx. exists (b - x)%R. split; [lra|]. intros t Ht%Rabs_def2. lra. Qed.

Lemma near_ne a x : x ≠ a → near x (fun t => t ≠ a).
Proof.
  intros Hx. destruct (Rtotal_order x a) as [Hl|[He|Hg]]; [|done|].
  - eapply near_impl; [apply near_lt_r, Hl|]. simpl. intros. lra.
  - eapply near_impl; [apply near_lt_l, Hg|]. simpl. intros. lra.
Qed.

Lemma derivable_near f g x l : near x (fun t => f t = g t) → derivable_pt_lim f x l → derivable_pt_lim g x l.
Proof.
  intros (e & He & Hfg). apply (derivable_pt_lim_locally_ext f g x (x - e) (x + e)); [lra|]. intros z Hz. apply Hfg. apply Rabs_def1; lra.
Qed.

Lemma derivable_continuous f x l : derivable_pt_lim f x l → continuity_pt f x.
Proof. intros Hd. apply derivable_continuous_pt. by exists l. Qed.

(** * Sums of real numbers, for products of matrices and softmax *)

Section Sums.
Local Open Scope R_scope.

(** [f 0 + ... + f (n - 1)] *)
Fixpoint rsum (n : nat) (f : nat → R) : R := match n with O => 0 | S n => rsum n f + f n end.

Lemma rsum_ext n f f' : (∀ j, (j < n)%nat → f j = f' j) → rsum n f = rsum n f'.
Proof. induction n as [|n IH]; intros He; [done|]. cbn. rewrite IH, He; [done|lia|]. intros j Hj. apply He. lia. Qed.

Lemma rsum_plus n f f' : rsum n (fun j => f j + f' j) = rsum n f + rsum n f'.
Proof. induction n as [|n IH]; cbn; [lra|]. rewrite IH. lra. Qed.

Lemma rsum_scale n c f : rsum n (fun j => c * f j) = c * rsum n f.
Proof. induction n as [|n IH]; cbn; [lra|]. rewrite IH. lra. Qed.

Lemma rsum_zero n : rsum n (fun _ => 0) = 0.
Proof. induction n as [|n IH]; cbn; [done|]. rewrite IH. lra. Qed.

Lemma rsum_swap n m f : rsum n (fun i => rsum m (f i)) = rsum m (fun j => rsum n (fun i => f i j)).
Proof. induction n as [|n IH]; cbn; [by rewrite rsum_zero|]. by rewrite IH, <- rsum_plus. Qed.

Lemma dot_rsum n (g h : nat → nat → R) i k : dot n g h i k = rsum n (fun j => g i j * h j k).
Proof. induction n as [|n IH]; [done|]. rewrite dot_S, IH. done. Qed.

(** the inner product of two matrices *)
Definition inner (m p : nat) (f g : nat → nat → R) : R := rsum m (fun i => rsum p (fun k => f i k * g i k)).

Lemma inner_ext m p f g f' g' : (∀ i k, f i k * g i k = f' i k * g' i k) → inner m p f g = inner m p f' g'.
Proof. intros He. apply rsum_ext. intros i _. apply rsum_ext. auto. Qed.

Lemma inner_plus m p f g g' : inner m p f (fun i k => g i k + g' i k) = inner m p f g + inner m p f g'.
Proof.
  unfold inner. rewrite <- rsum_plus. apply rsum_ext. intros i _. rewrite <- rsum_plus. apply rsum_ext. intros. lra.
Qed.

Lemma inner_scale m p c f g : inner m p f (fun i k => c * g i k) = c * inner m p f g.
Proof. unfold inner. rewrite <- rsum_scale. apply rsum_ext. intros i _. rewrite <- rsum_scale. apply rsum_ext. intros. lra. Qed.

(** [<s, d * h> = <s * h^T, d>] *)
Lemma inner_left m n p s d h : inner m p s (dot n d h) = inner m n (dot p s (fun i j => h j i)) d.
Proof.
  unfold inner. apply rsum_ext. intros i _.
  rewrite (rsum_ext p _ (fun k => rsum n (fun j => s i k * (d i j * h j k)))) by (intros; by rewrite dot_rsum, rsum_scale).
  rewrite rsum_swap. apply rsum_ext. intros j _. rewrite dot_rsum, Rmult_comm, <- rsum_scale. apply rsum_ext. intros. lra.
Qed.

(** [<s, g * d> = <g^T * s, d>] *)
Lemma inner_right m n p s g d : inner m p s (dot n g d) = inner n p (dot m (fun i j => g j i) s) d.
Proof.
  unfold inner.
  rewrite (rsum_ext m _ (fun i => rsum n (fun j => rsum p (fun k => s i k * (g i j * d j k))))).
  2:{ intros i _. rewrite rsum_swap. apply rsum_ext. intros k _. by rewrite dot_rsum, rsum_scale. }
  rewrite rsum_swap. apply rsum_ext. intros j _. rewrite rsum_swap. apply rsum_ext. intros k _.
  rewrite dot_rsum, Rmult_comm, <- rsum_scale. apply rsum_ext. intros. lra.
Qed.

(** a product along a line *)
Lemma dot_line n g h dg dh t i k :
  dot n (fun i j => g i j + t * dg i j) (fun j k => h j k + t * dh j k) i k
  = dot n g h i k + (t * (dot n dg h i k + dot n g dh i k) + t * t * dot n dg dh i k).
Proof.
  rewrite !dot_rsum. rewrite <- rsum_plus, <- !rsum_scale, <- !rsum_plus. apply rsum_ext. intros. lra.
Qed.

Lemma quadratic_derivative a b c : derivable_pt_lim (fun t => a + (t * b + t * t * c)) 0 b.
Proof.
  assert (derivable_pt_lim (fct_cte a + ((id * fct_cte b) + (id * id) * fct_cte c))%F 0 b) as Hd; [|exact Hd].
  replace b with (0 + ((1 * fct_cte b 0 + id 0 * 0) + ((1 * id 0 + id 0 * 1) * fct_cte c 0 + (id * id)%F 0 * 0))) at 2
    by (unfold fct_cte, id, mult_fct; lra).
  repeat first [apply derivable_pt_lim_plus|apply derivable_pt_lim_mult|apply derivable_pt_lim_const|apply derivable_pt_lim_id].
Qed.
End Sums.
