(* ===== verification/DeriveGradient.v ===== *)
(** * The derivatives are right

    Over the real numbers the walk computes the gradient: each rule multiplies
    the seed by the partial derivative of its function, and the chain rule
    adds the products up.  [smooth] describes the points at which a body is
    differentiable. *)

From Stdlib Require Import Reals Lra.
From S2P Require Import Prelude Bitmapset Nodes NodesFacts ApplyMt FloatFunc Matrix Derive DeriveFacts FloatReal.

Abbreviation rdatum := (mdatum R).

(** ** Functions of one argument *)

(** [op], with the derivative [op'], is what the code computes and what it
    differentiates, where [cond] holds *)
Record unary (oid : Oid) (cond : R → Prop) (op op' : R → R) : Prop := {
  un_open u : cond u → near u cond;
  un_call u : cond u → float8_call oid [u] = Ok (op u);
  un_deriv u : cond u → derivable_pt_lim op u (op' u);
  un_rule s u : cond u → derive_rule (V := rdatum) oid [MFloat u] (MFloat s) = Ok [MFloat (s * op' u)%R]
}.

(** reduce a rule or a call of a known function *)
Ltac known :=
  cbv [derive_rule arithmetic_rule trigonometric_rule activation_rule unary_rule binary_rule arg_float array_get float8_call one_of existsb orb
       F_NUMERIC_ADD F_NUMERIC_SUB F_NUMERIC_MUL F_NUMERIC_DIV F_FLOAT8MUL F_FLOAT8DIV F_FLOAT8PL F_FLOAT8MI F_FLOAT8UM F_FLOAT8ABS F_ABS_FLOAT8
       F_DSQRT F_SQRT_FLOAT8 F_DPOW F_POW_FLOAT8_FLOAT8 F_EXP_FLOAT8 F_LN_FLOAT8 F_DLOG10 F_ASIN F_ACOS F_ATAN F_ATAN2 F_SIN F_COS F_TAN F_COT
       F_SILU F_SIGMOID F_TANH F_RELU];
  cbn -[IZR Rplus Rminus Rmult Rdiv Rinv Ropp]; change (Z.to_nat 0) with 0%nat; change (Z.to_nat 1) with 1%nat;
  cbn -[IZR Rplus Rminus Rmult Rdiv Rinv Ropp].

Lemma always_open u : (True : Prop) → near u (fun _ => True).
Proof. intros _. by apply near_all. Qed.

Ltac rule := intros s u Hu; known; real_tests; cbn; do 3 f_equal.

Lemma minus_fn : unary F_FLOAT8UM (fun _ => True) (fun u => - u)%R (fun _ => -1)%R.
Proof.
  split; [apply always_open|done| |by rule].
  intros u _. apply (derivable_pt_lim_opp id), derivable_pt_lim_id.
Qed.

(** the cases of a list of OIDs *)
Ltac oids H := repeat (apply elem_of_cons in H as [->|H]); [..|by apply elem_of_nil in H].

Lemma abs_fn oid : oid ∈ [F_FLOAT8ABS; F_ABS_FLOAT8] → unary oid (fun u => u ≠ 0%R) Rabs (fun u => if Rlt_dec u 0 then -1 else 1)%R.
Proof.
  intros Hoid. split; [apply near_ne| | |].
  - intros u _. by oids Hoid.
  - intros u Hu. destruct (Rlt_dec u 0); [by apply Rabs_derive_2|apply Rabs_derive_1; lra].
  - intros s u Hu. assert (Reqb u 0 = false) as Hz by by apply Reqb_false.
    oids Hoid; known; rewrite Hz; cbn; unfold Rltb; by destruct (Rlt_dec u 0).
Qed.

Lemma sqrt_fn oid : oid ∈ [F_DSQRT; F_SQRT_FLOAT8] → unary oid (fun u => 0 < u)%R sqrt (fun u => / (2 * sqrt u))%R.
Proof.
  intros Hoid. split; [apply near_lt_l| |apply derivable_pt_lim_sqrt|].
  - intros u Hu. pose proof (sqrt_lt_R0 u Hu). oids Hoid; known; unfold dsqrt, check_float8; cbn; by real_tests.
  - intros s u Hu. oids Hoid; known; real_tests; done.
Qed.

Lemma exp_fn : unary F_EXP_FLOAT8 (fun _ => True) exp exp.
Proof.
  split; [apply always_open| |intros; apply derivable_pt_lim_exp|by rule].
  intros u _. known. unfold dexp, check_float8. cbn. pose proof (exp_pos u). by real_tests.
Qed.

Lemma log_check_ok log u : (0 < u)%R → (log u = 0 → u = 1)%R → log_check log u = Ok (log u).
Proof.
  intros Hu Hl. unfold log_check, check_float8. cbn. real_tests. destruct (Reqb (log u) 0) eqn:E; [|done].
  apply Reqb_true in E. by rewrite (proj2 (Reqb_true u 1) (Hl E)).
Qed.

Lemma ln_one u : (0 < u)%R → (ln u = 0 → u = 1)%R.
Proof. intros Hu Hl. apply ln_inv; [done|lra|]. by rewrite ln_1. Qed.

Lemma ln_10 : (0 < ln 10)%R.
Proof. rewrite <- ln_1. apply ln_increasing; lra. Qed.

Lemma ln_fn : unary F_LN_FLOAT8 (fun u => 0 < u)%R ln (fun u => / u)%R.
Proof.
  split; [apply near_lt_l| |apply derivable_pt_lim_ln|by rule].
  intros u Hu. known. apply log_check_ok; [done|by apply ln_one].
Qed.

Lemma log10_fn : unary F_DLOG10 (fun u => 0 < u)%R (fun u => ln u / ln 10)%R (fun u => 1 / (u * ln 10))%R.
Proof.
  pose proof ln_10. split; [apply near_lt_l| | |by rule].
  - intros u Hu. known. apply (log_check_ok (fun x => ln x / ln 10)%R); [done|]. intros Hz. apply ln_one; [done|].
    replace (ln u) with (ln u / ln 10 * ln 10)%R by (field; lra). rewrite Hz. lra.
  - intros u Hu. replace (1 / (u * ln 10))%R with (/ ln 10 * / u)%R by (field; lra).
    apply (derivable_pt_lim_ext (mult_real_fct (/ ln 10) ln)); [intros z; unfold mult_real_fct, Rdiv; lra|].
    by apply derivable_pt_lim_scal, derivable_pt_lim_ln.
Qed.

Lemma sin_fn : unary F_SIN (fun _ => True) sin cos.
Proof. split; [apply always_open|done|intros; apply derivable_pt_lim_sin|by rule]. Qed.

Lemma cos_fn : unary F_COS (fun _ => True) cos (fun u => - sin u)%R.
Proof. split; [apply always_open|done|intros; apply derivable_pt_lim_cos|rule; lra]. Qed.

Lemma atan_fn : unary F_ATAN (fun _ => True) atan (fun u => 1 / (u * u + 1))%R.
Proof.
  split; [apply always_open|done| |by rule]. intros u _. replace (1 / (u * u + 1))%R with (/ (1 + u ^ 2))%R.
  - apply derivable_pt_lim_atan.
  - unfold Rdiv. rewrite Rmult_1_l. f_equal. ring.
Qed.

Lemma near_range u : (-1 < u < 1)%R → near u (fun t => -1 < t < 1)%R.
Proof. intros [Hl Hr]. apply near_and; [by apply near_lt_l|by apply near_lt_r]. Qed.

(** [sqrt (1 - x) * sqrt (1 + x)] *)
Lemma sqrt_factors u : (-1 < u < 1)%R → sqrt (1 - Rsqr u) = (sqrt (1 - u) * sqrt (1 + u))%R.
Proof. intros Hu. rewrite <- sqrt_mult by lra. f_equal. unfold Rsqr. ring. Qed.

Lemma asin_fn : unary F_ASIN (fun u => -1 < u < 1)%R asin (fun u => 1 / (sqrt (1 - u) * sqrt (1 + u)))%R.
Proof.
  split; [apply near_range| | |by rule].
  - intros u Hu. known. unfold dasin, arc_check. cbn. by real_tests.
  - intros u Hu. rewrite <- sqrt_factors by done. apply (derive_pt_eq_1 asin u _ (derivable_pt_asin u Hu)), derive_pt_asin.
Qed.

Lemma acos_fn : unary F_ACOS (fun u => -1 < u < 1)%R acos (fun u => 1 / (sqrt (1 - u) * sqrt (1 + u)) * -1)%R.
Proof.
  split; [apply near_range| | |rule; lra].
  - intros u Hu. known. unfold dacos, arc_check. cbn. by real_tests.
  - intros u Hu. rewrite <- sqrt_factors by done. replace (1 / sqrt (1 - Rsqr u) * -1)%R with (-1 / sqrt (1 - Rsqr u))%R by (unfold Rdiv; lra).
    apply (derive_pt_eq_1 acos u _ (derivable_pt_acos u Hu)), derive_pt_acos.
Qed.

Lemma derivable_quotient f g x f' g' l :
  derivable_pt_lim f x f' → derivable_pt_lim g x g' → g x ≠ 0%R → ((f' * g x - g' * f x) / Rsqr (g x))%R = l →
  derivable_pt_lim (fun t => f t / g t)%R x l.
Proof. intros Hf Hg Hz <-. by apply (derivable_pt_lim_div f g). Qed.

Lemma near_cos u : cos u ≠ 0%R → near u (fun t => cos t ≠ 0%R).
Proof. intros Hu. apply (near_comp cos u (fun v => v ≠ 0%R)); [apply (derivable_continuous _ _ (- sin u)%R), derivable_pt_lim_cos|by apply near_ne]. Qed.

Lemma near_sin u : sin u ≠ 0%R → near u (fun t => sin t ≠ 0%R).
Proof. intros Hu. apply (near_comp sin u (fun v => v ≠ 0%R)); [apply (derivable_continuous _ _ (cos u)), derivable_pt_lim_sin|by apply near_ne]. Qed.

Lemma sin_cos_sqr u : (sin u * sin u + cos u * cos u = 1)%R.
Proof. exact (sin2_cos2 u). Qed.

Lemma tan_fn : unary F_TAN (fun u => cos u ≠ 0%R) tan (fun u => 1 / (cos u * cos u))%R.
Proof.
  split; [apply near_cos|done| |by rule]. intros u Hu. unfold tan.
  eapply derivable_quotient; [apply derivable_pt_lim_sin|apply derivable_pt_lim_cos|done|]. unfold Rsqr. rewrite <- (sin_cos_sqr u). by field.
Qed.

Lemma cot_fn : unary F_COT (fun u => cos u ≠ 0 ∧ sin u ≠ 0)%R (fun u => 1 / tan u)%R (fun u => -1 / (sin u * sin u))%R.
Proof.
  assert (∀ u, cos u ≠ 0 ∧ sin u ≠ 0 → near u (fun t => cos t ≠ 0 ∧ sin t ≠ 0))%R as Hopen.
  { intros u [Hc Hs]. apply near_and; [by apply near_cos|by apply near_sin]. }
  split; [exact Hopen|done| |by rule]. intros u Hu. apply (derivable_near (fun t => cos t / sin t)%R).
  { eapply near_impl; [by apply Hopen|]. simpl. intros t [Hc Hs]. unfold tan. by field. }
  destruct Hu as [Hc Hs]. eapply derivable_quotient; [apply derivable_pt_lim_cos|apply derivable_pt_lim_sin|done|].
  unfold Rsqr. replace (-1)%R with (- (sin u * sin u + cos u * cos u))%R by (rewrite sin_cos_sqr; ring). by field.
Qed.

(** [1 + exp (-1 * x)] *)
Lemma logistic_denominator u : derivable_pt_lim (fun t => 1 + exp (-1 * t))%R u (- exp (- u))%R.
Proof.
  replace (- exp (- u))%R with (0 + exp (-1 * u) * (-1 * 1))%R by (replace (-1 * u)%R with (- u)%R by ring; ring).
  apply (derivable_pt_lim_plus (fun _ => 1%R) (fun t => exp (-1 * t)%R)); [apply derivable_pt_lim_const|].
  apply (derivable_pt_lim_comp (fun t => -1 * t)%R exp); [|apply derivable_pt_lim_exp].
  apply (derivable_pt_lim_scal id), derivable_pt_lim_id.
Qed.

Lemma logistic_pos u : (1 + exp (-1 * u) ≠ 0)%R.
Proof. pose proof (exp_pos (-1 * u)). lra. Qed.

Lemma exp_minus_1 u : (exp (-1 * u) = exp (- u))%R.
Proof. f_equal. ring. Qed.

Lemma silu_fn :
  unary F_SILU (fun _ => True) (fun u => u / (1 + exp (-1 * u)))%R
    (fun u => (1 + exp (- u) + u * exp (- u)) / ((1 + exp (- u)) * (1 + exp (- u))))%R.
Proof.
  split; [apply always_open|done| |by rule]. intros u _.
  eapply derivable_quotient; [apply derivable_pt_lim_id|apply logistic_denominator|apply logistic_pos|].
  pose proof (logistic_pos u) as Hp. rewrite exp_minus_1 in *. unfold Rsqr, id. by field.
Qed.

Lemma sigmoid_fn :
  unary F_SIGMOID (fun _ => True) (fun u => 1 / (1 + exp (-1 * u)))%R
    (fun u => 1 / (1 + exp (- u)) * (1 - 1 / (1 + exp (- u))))%R.
Proof.
  split; [apply always_open|done| |by rule]. intros u _.
  eapply (derivable_quotient (fun _ => 1%R)); [apply derivable_pt_lim_const|apply logistic_denominator|apply logistic_pos|].
  pose proof (logistic_pos u) as Hp. rewrite exp_minus_1 in *. unfold Rsqr. by field.
Qed.

Lemma cosh_pos u : (cosh u ≠ 0)%R.
Proof. unfold cosh. pose proof (exp_pos u). pose proof (exp_pos (- u)). lra. Qed.

Lemma tanh_fn : unary F_TANH (fun _ => True) tanh (fun u => 1 - tanh u * tanh u)%R.
Proof.
  split; [apply always_open|done| |by rule]. intros u _. pose proof (cosh_pos u). unfold tanh.
  eapply derivable_quotient; [apply derivable_pt_lim_sinh|apply derivable_pt_lim_cosh|done|]. unfold Rsqr. by field.
Qed.

Lemma relu_fn : unary F_RELU (fun u => u ≠ 0)%R (fun u => if Rltb u 0 || Reqb u 0 then 0 else u)%R (fun u => if Rlt_dec u 0 then 0 else 1)%R.
Proof.
  split; [apply near_ne|done| |].
  - intros u Hu. destruct (Rlt_dec u 0) as [Hn|Hp].
    + apply (derivable_near (fun _ => 0%R)); [|apply derivable_pt_lim_const].
      eapply near_impl; [by apply (near_lt_r 0)|]. simpl. intros t Ht. by real_tests.
    + apply (derivable_near id); [|apply derivable_pt_lim_id].
      eapply near_impl; [apply (near_lt_l 0); lra|]. simpl. intros t Ht. by real_tests.
  - intros s u Hu. known. unfold f8_le. cbn. destruct (Rlt_dec u 0); real_tests; cbn; do 3 f_equal; lra.
Qed.

(** the points at which a function of one argument is differentiable *)
Definition smooth1 (oid : Oid) (u : R) : Prop :=
  if one_of oid [F_DSQRT; F_SQRT_FLOAT8; F_LN_FLOAT8; F_DLOG10] then (0 < u)%R
  else if one_of oid [F_FLOAT8ABS; F_ABS_FLOAT8; F_RELU] then u ≠ 0%R
  else if one_of oid [F_ASIN; F_ACOS] then (-1 < u < 1)%R
  else if oid =? F_TAN then cos u ≠ 0%R
  else if oid =? F_COT then cos u ≠ 0%R ∧ sin u ≠ 0%R
  else if one_of oid [F_FLOAT8UM; F_EXP_FLOAT8; F_ATAN; F_SIN; F_COS; F_SILU; F_SIGMOID; F_TANH] then True
  else False.

Lemma unary_functions oid u : smooth1 oid u → ∃ op op', unary oid (smooth1 oid) op op'.
Proof.
  unfold smooth1. intros Hs.
  destruct (one_of oid _) eqn:E1 in Hs; [rewrite E1; clear Hs; apply one_of_spec in E1|rewrite E1].
  { oids E1; [by eexists _, _; apply sqrt_fn; set_solver|by eexists _, _; apply sqrt_fn; set_solver|by eexists _, _; apply ln_fn|by eexists _, _; apply log10_fn]. }
  destruct (one_of oid _) eqn:E2 in Hs; [rewrite E2; clear Hs; apply one_of_spec in E2|rewrite E2].
  { oids E2; [by eexists _, _; apply abs_fn; set_solver|by eexists _, _; apply abs_fn; set_solver|by eexists _, _; apply relu_fn]. }
  destruct (one_of oid _) eqn:E3 in Hs; [rewrite E3; clear Hs; apply one_of_spec in E3|rewrite E3].
  { oids E3; [by eexists _, _; apply asin_fn|by eexists _, _; apply acos_fn]. }
  destruct (Z.eqb_spec oid F_TAN) as [->|_] in Hs |- *; [by eexists _, _; apply tan_fn|].
  destruct (Z.eqb_spec oid F_COT) as [->|_] in Hs |- *; [by eexists _, _; apply cot_fn|].
  destruct (one_of oid _) eqn:E4 in Hs; [rewrite E4; clear Hs; apply one_of_spec in E4|done].
  oids E4; [by eexists _, _; apply minus_fn|by eexists _, _; apply exp_fn|by eexists _, _; apply atan_fn|by eexists _, _; apply sin_fn
           |by eexists _, _; apply cos_fn|by eexists _, _; apply silu_fn|by eexists _, _; apply sigmoid_fn|by eexists _, _; apply tanh_fn].
Qed.

(** ** Functions of two arguments *)

Record binary (oid : Oid) (cond : R → R → Prop) (op d1 d2 : R → R → R) : Prop := {
  bi_open f g x : continuity_pt f x → continuity_pt g x → cond (f x) (g x) → near x (fun t => cond (f t) (g t));
  bi_call u v : cond u v → float8_call oid [u; v] = Ok (op u v);
  bi_deriv f g x f' g' :
    derivable_pt_lim f x f' → derivable_pt_lim g x g' → cond (f x) (g x) →
    derivable_pt_lim (fun t => op (f t) (g t)) x (d1 (f x) (g x) * f' + d2 (f x) (g x) * g')%R;
  bi_rule s u v : cond u v → derive_rule (V := rdatum) oid [MFloat u; MFloat v] (MFloat s) = Ok [MFloat (s * d1 u v)%R; MFloat (s * d2 u v)%R]
}.

Lemma always_open2 f g x : continuity_pt f x → continuity_pt g x → (True : Prop) → near x (fun _ => True).
Proof. intros _ _ _. by apply near_all. Qed.

Lemma two_seeds (a b a' b' : R) : a = a' → b = b' → Ok [MFloat a; MFloat b] = Ok [MFloat a'; MFloat b'].
Proof. by intros -> ->. Qed.

Ltac rule2 := intros s u v Huv; known; real_tests; cbn -[IZR Rplus Rminus Rmult Rdiv Rinv Ropp]; apply two_seeds; try lra.

Lemma plus_fn : binary F_FLOAT8PL (fun _ _ => True) Rplus (fun _ _ => 1)%R (fun _ _ => 1)%R.
Proof.
  split; [apply always_open2|done| |by rule2].
  intros f g x f' g' Hf Hg _. rewrite !Rmult_1_l. by apply (derivable_pt_lim_plus f g).
Qed.

Lemma minus2_fn : binary F_FLOAT8MI (fun _ _ => True) Rminus (fun _ _ => 1)%R (fun _ _ => -1)%R.
Proof.
  split; [apply always_open2|done| |by rule2].
  intros f g x f' g' Hf Hg _. replace (1 * f' + -1 * g')%R with (f' - g')%R by ring. by apply (derivable_pt_lim_minus f g).
Qed.

Lemma mul_fn : binary F_FLOAT8MUL (fun _ _ => True) Rmult (fun _ v => v) (fun u _ => u).
Proof.
  split; [apply always_open2| | |by rule2].
  - intros u v _. known. unfold float8mul, check_float8. cbn. destruct (Reqb (u * v) 0) eqn:E; [|done]. apply Reqb_true in E.
    destruct (Req_dec_T u 0) as [Hu|Hu]; real_tests; [done|]. cbn. apply Rmult_integral in E as [|]; [done|]. by real_tests.
  - intros f g x f' g' Hf Hg _. replace (g x * f' + f x * g')%R with (f' * g x + f x * g')%R by ring. by apply (derivable_pt_lim_mult f g).
Qed.

Lemma div_fn : binary F_FLOAT8DIV (fun _ v => v ≠ 0%R) Rdiv (fun _ v => / v)%R (fun u v => u * -1 / (v * v))%R.
Proof.
  split.
  - intros f g x _ Hg Hz. apply (near_comp g x (fun v => v ≠ 0%R)); [done|by apply near_ne].
  - intros u v Hv. known. unfold float8div, check_float8. cbn. real_tests. cbn. destruct (Reqb (u / v) 0) eqn:E; [|done]. apply Reqb_true in E.
    assert (u = 0%R) as ->; [|by real_tests]. replace u with (u / v * v)%R by (by field). rewrite E. ring.
  - intros f g x f' g' Hf Hg Hz. eapply derivable_quotient; [done..|]. unfold Rsqr. by field.
  - rule2; unfold Rdiv; ring.
Qed.

Lemma pow_fn oid :
  oid ∈ [F_DPOW; F_POW_FLOAT8_FLOAT8] →
  binary oid (fun u _ => 0 < u)%R Rpower (fun u v => v * Rpower u (v - 1))%R (fun u v => Rpower u v * ln u)%R.
Proof.
  intros Hoid. split.
  - intros f g x Hf _ Hz. apply (near_comp f x (fun v => 0 < v)%R); [done|by apply near_lt_l].
  - intros u v Hu. assert (0 < Rpower u v)%R by apply exp_pos.
    oids Hoid; known; unfold dpow, dpow_finite, check_float8; cbn; real_tests; cbn; by real_tests.
  - intros f g x f' g' Hf Hg Hz. unfold Rpower.
    replace (g x * exp ((g x - 1) * ln (f x)) * f' + exp (g x * ln (f x)) * ln (f x) * g')%R
      with (exp (g x * ln (f x)) * (g' * ln (f x) + g x * (/ f x * f')))%R.
    + apply (derivable_pt_lim_comp (fun t => g t * ln (f t))%R exp); [|apply derivable_pt_lim_exp].
      apply (derivable_pt_lim_mult g (fun t => ln (f t))); [done|]. apply (derivable_pt_lim_comp f ln); [done|by apply derivable_pt_lim_ln].
    + replace ((g x - 1) * ln (f x))%R with (g x * ln (f x) + - ln (f x))%R by ring. rewrite exp_plus, exp_Ropp, exp_ln by done. field. lra.
  - intros s u v Hu. oids Hoid; known; apply two_seeds; ring.
Qed.

Lemma atan2_fn : binary F_ATAN2 (fun _ v => 0 < v)%R Ratan2 (fun u v => v / (u * u + v * v))%R (fun u v => - u / (u * u + v * v))%R.
Proof.
  assert (∀ f g x, continuity_pt f x → continuity_pt g x → 0 < g x → near x (fun t => 0 < g t))%R as Hopen.
  { intros f g x _ Hg Hz. apply (near_comp g x (fun v => 0 < v)%R); [done|by apply near_lt_l]. }
  split; [exact Hopen|done| |by rule2].
  intros f g x f' g' Hf Hg Hz. apply (derivable_near (fun t => atan (f t / g t))).
  { eapply near_impl; [apply (Hopen f g); [by eapply derivable_continuous|by eapply derivable_continuous|done]|]. simpl. intros t Ht. unfold Ratan2. by destruct (Rlt_dec 0 (g t)). }
  assert (0 < f x * f x + g x * g x)%R by (pose proof (Rle_0_sqr (f x)); unfold Rsqr in *; nra).
  replace (g x / (f x * f x + g x * g x) * f' + - f x / (f x * f x + g x * g x) * g')%R
    with (/ (1 + (f x / g x) ^ 2) * ((f' * g x - g' * f x) / Rsqr (g x)))%R by (unfold Rsqr; field; split; [lra|]; nra).
  apply (derivable_pt_lim_comp (fun t => f t / g t)%R atan); [|apply derivable_pt_lim_atan].
  eapply derivable_quotient; [done|done|lra|done].
Qed.

(** where a function of two arguments is taken to be differentiable: powers of
    a positive base, [atan2] of a positive second argument *)
Definition smooth2 (oid : Oid) (u v : R) : Prop :=
  if one_of oid [F_FLOAT8PL; F_FLOAT8MI; F_FLOAT8MUL] then True
  else if oid =? F_FLOAT8DIV then v ≠ 0%R
  else if one_of oid [F_DPOW; F_POW_FLOAT8_FLOAT8] then (0 < u)%R
  else if oid =? F_ATAN2 then (0 < v)%R
  else False.

Lemma binary_functions oid u v : smooth2 oid u v → ∃ op d1 d2, binary oid (smooth2 oid) op d1 d2.
Proof.
  unfold smooth2. intros Hs.
  destruct (one_of oid _) eqn:E1 in Hs; [rewrite E1; clear Hs; apply one_of_spec in E1|rewrite E1].
  { oids E1; [by eexists _, _, _; apply plus_fn|by eexists _, _, _; apply minus2_fn|by eexists _, _, _; apply mul_fn]. }
  destruct (Z.eqb_spec oid F_FLOAT8DIV) as [->|_] in Hs |- *; [by eexists _, _, _; apply div_fn|].
  destruct (one_of oid _) eqn:E2 in Hs; [rewrite E2; clear Hs; apply one_of_spec in E2|rewrite E2].
  { eexists _, _, _. by apply pow_fn. }
  destruct (Z.eqb_spec oid F_ATAN2) as [->|_] in Hs |- *; [by eexists _, _, _; apply atan2_fn|done].
Qed.

(** * The walk computes the gradient

    With real numbers for floating point numbers: the derivative rules are the
    partial derivatives of the float functions, and the walk applies the chain
    rule to them. *)

Section Gradient.
(** the numbers that constants stand for, and the numbers of columns of the
    inputs *)
Context (const : Datum → R) (natts : list Z).

(** the position of a column in the list of all columns *)
Definition column (paramid fieldnum : Z) : outcome Z :=
  index ← array_get (ExecGenerateIndexArray natts) (paramid - 1);
  Ok (index + (fieldnum - 1)).

(** the value of a body at a point, the values of all columns *)
Fixpoint real_value (x : list R) (n : Node) : outcome R :=
  match n with
  | NConst c => Ok (const (constvalue c))
  | NFieldSelect k _ (NParam p) => i ← column (paramid p) k; array_get x i
  | NRelabelType _ arg => real_value x arg
  | NFuncExpr f args => vs ← omapM (real_value x) args; float8_call (funcid f) vs
  | NOpExpr o args => vs ← omapM (real_value x) args; float8_call (opfuncid o) vs
  | _ => UB
  end.

Definition real_val (x : list R) (n : Node) : R := match real_value x n with Ok r => r | _ => 0%R end.

Definition smooth_call (oid : Oid) (vs : list R) : Prop :=
  match vs with [u] => smooth1 oid u | [u; v] => smooth2 oid u v | _ => False end.

(** every function of the body is differentiable where it is evaluated *)
Fixpoint smooth (x : list R) (n : Node) : Prop :=
  let all := fix all (l : list Node) : Prop := match l with [] => True | a :: l => smooth x a ∧ all l end in
  match n with
  | NConst _ => True
  | NFieldSelect k _ (NParam p) => ∃ i, column (paramid p) k = Ok (Z.of_nat i) ∧ (i < length x)%nat
  | NRelabelType _ arg => smooth x arg
  | NFuncExpr f args => smooth_call (funcid f) (real_val x <$> args) ∧ all args
  | NOpExpr o args => smooth_call (opfuncid o) (real_val x <$> args) ∧ all args
  | _ => False
  end.

(** [D] is the partial derivative of [n] at [x] in the direction of coordinate
    [i]: around [x] the value of [n] is a function that has this derivative *)
Definition partial (x : list R) (n : Node) (i : nat) (D : R) : Prop :=
  ∃ xi f, x !! i = Some xi ∧ near xi (fun t => real_value (<[i := t]> x) n = Ok (f t)) ∧ derivable_pt_lim f xi D.

(** [ds + s * G] *)
Definition add_scaled (s : R) (G : nat → R) (ds : list R) : list R := imap (fun i d => d + s * G i)%R ds.

Abbreviation rev_real := (rev_tree (V := rdatum) false (ExecGenerateIndexArray natts)).
Abbreviation tree x := (annotate (fun n => MFloat (real_val x n))).

(** [G] is the gradient of [n] at [x], and the walk adds it, times the seed *)
Definition has_gradient (x : list R) (n : Node) (G : nat → R) : Prop :=
  (∀ i, (i < length x)%nat → partial x n i (G i))
  ∧ ∀ s ds, length ds = length x → rev_real (tree x n) (MFloat s) (MFloat <$> ds) = Ok (MFloat <$> add_scaled s G ds).

Lemma add_scaled_ext s G s' G' ds : (∀ i, s * G i = s' * G' i)%R → add_scaled s G ds = add_scaled s' G' ds.
Proof. intros He. apply imap_ext. intros i d _. by rewrite He. Qed.

Lemma add_scaled_zero s ds : add_scaled s (fun _ => 0%R) ds = ds.
Proof.
  apply list_eq. intros i. unfold add_scaled. rewrite list_lookup_imap. destruct (ds !! i); cbn; [f_equal; lra|done].
Qed.

Lemma add_scaled_add s1 G1 s2 G2 ds : add_scaled s1 G1 (add_scaled s2 G2 ds) = add_scaled 1 (fun i => s1 * G1 i + s2 * G2 i)%R ds.
Proof.
  apply list_eq. intros i. unfold add_scaled. rewrite !list_lookup_imap. destruct (ds !! i); cbn; [f_equal; lra|done].
Qed.

Lemma add_scaled_length s G ds : length (add_scaled s G ds) = length ds.
Proof. apply length_imap. Qed.

Lemma const_gradient x c : has_gradient x (NConst c) (fun _ => 0%R).
Proof.
  split.
  - intros i Hi. destruct (lookup_lt_is_Some_2 x i Hi) as [xi Hx]. exists xi, (fun _ => const (constvalue c)). split_and!; [done|by apply near_all|].
    apply derivable_pt_lim_const.
  - intros s ds _. by rewrite add_scaled_zero.
Qed.

Lemma array_get_nat {A} (l : list A) i : array_get l (Z.of_nat i) = deref (l !! i).
Proof. unfold array_get. rewrite (proj2 (Z.ltb_ge _ 0)) by lia. by rewrite Nat2Z.id. Qed.

Lemma array_set_nat {A} (l : list A) i y : (i < length l)%nat → array_set l (Z.of_nat i) y = Ok (<[i := y]> l).
Proof. intros Hi. unfold array_set. rewrite (proj2 (Z.leb_le 0 _)), (proj2 (Z.ltb_lt _ _)) by lia. cbn. by rewrite Nat2Z.id. Qed.

Lemma field_gradient x k t p j :
  column (paramid p) k = Ok (Z.of_nat j) → (j < length x)%nat →
  has_gradient x (NFieldSelect k t (NParam p)) (fun i => if decide (i = j) then 1 else 0)%R.
Proof.
  intros Hc Hj. destruct (lookup_lt_is_Some_2 x j Hj) as [xj Hxj]. split.
  - intros i Hi. destruct (lookup_lt_is_Some_2 x i Hi) as [xi Hx]. destruct (decide (i = j)) as [->|Hne].
    + exists xj, id. split_and!; [done| |apply derivable_pt_lim_id]. apply near_all. intros y. cbn [real_value]. rewrite Hc.
      cbn [mbind outcome_bind]. by rewrite array_get_nat, list_lookup_insert_eq.
    + exists xi, (fun _ => xj). split_and!; [done| |apply derivable_pt_lim_const]. apply near_all. intros y. cbn [real_value]. rewrite Hc.
      cbn [mbind outcome_bind]. by rewrite array_get_nat, list_lookup_insert_ne, Hxj.
  - intros s ds Hl. cbn [annotate rev_tree]. unfold column in Hc. apply bind_Ok_inv in Hc as (index & Hindex & [= Hc]). rewrite Hindex.
    cbn [mbind outcome_bind]. rewrite Hc. unfold add_derivative. destruct (lookup_lt_is_Some_2 ds j ltac:(lia)) as [d Hd].
    rewrite array_get_nat, list_lookup_fmap, Hd. cbn [fmap option_fmap option_map deref mbind outcome_bind DatumGetFloat8 mdatum_value].
    rewrite array_set_nat by (rewrite length_fmap; lia). f_equal. change (Float8GetDatum (f8_add d s)) with (MFloat (d + s)%R).
    rewrite <- list_fmap_insert. f_equal. apply list_eq. intros i. unfold add_scaled. rewrite list_lookup_imap.
    destruct (decide (i = j)) as [->|Hne].
    + rewrite list_lookup_insert_eq by lia. rewrite Hd. cbn. f_equal. lra.
    + rewrite list_lookup_insert_ne by done. destruct (ds !! i); cbn; [f_equal; lra|done].
Qed.

(** the function of a partial derivative has the value of the expression *)
Lemma partial_value x n i xi f : x !! i = Some xi → near xi (fun t => real_value (<[i := t]> x) n = Ok (f t)) → f xi = real_val x n.
Proof. intros Hx Hn. apply near_here in Hn. rewrite list_insert_id in Hn by done. unfold real_val. by rewrite Hn. Qed.

Lemma unary_gradient x n oid a Ga :
  (∀ y, real_value y n = (vs ← omapM (real_value y) [a]; float8_call oid vs)) →
  tree x n = AFunc oid [MFloat (real_val x a)] [tree x a] →
  smooth1 oid (real_val x a) → has_gradient x a Ga → ∃ G, has_gradient x n G.
Proof.
  intros Hn Ht Hs [Hp Hr]. destruct (unary_functions oid _ Hs) as (op & op' & U). set (u := real_val x a) in *.
  exists (fun i => op' u * Ga i)%R. split.
  - intros i Hi. destruct (Hp i Hi) as (xi & fa & Hx & Hnear & Hd). pose proof (partial_value x a i xi fa Hx Hnear) as Hu. fold u in Hu.
    exists xi, (fun t => op (fa t)). split_and!; [done| |].
    + eapply near_impl; [apply near_and; [exact Hnear|]|].
      * apply (near_comp fa xi (smooth1 oid)); [by eapply derivable_continuous|]. rewrite Hu. by apply (un_open _ _ _ _ U).
      * simpl. intros t [Ha Hc]. rewrite Hn. cbn [omapM]. rewrite Ha. cbn. by apply (un_call _ _ _ _ U).
    + rewrite <- Hu. apply (derivable_pt_lim_comp fa op); [done|]. apply (un_deriv _ _ _ _ U). by rewrite Hu.
  - intros s ds Hl. rewrite Ht. cbn [rev_tree]. rewrite (un_rule _ _ _ _ U) by done. cbn [mbind outcome_bind rev_kids].
    rewrite Hr by done. do 2 f_equal. apply add_scaled_ext. intros. ring.
Qed.

Lemma binary_gradient x n oid a b Ga Gb :
  (∀ y, real_value y n = (vs ← omapM (real_value y) [a; b]; float8_call oid vs)) →
  tree x n = AFunc oid [MFloat (real_val x a); MFloat (real_val x b)] [tree x a; tree x b] →
  smooth2 oid (real_val x a) (real_val x b) → has_gradient x a Ga → has_gradient x b Gb → ∃ G, has_gradient x n G.
Proof.
  intros Hn Ht Hs [Hpa Hra] [Hpb Hrb]. destruct (binary_functions oid _ _ Hs) as (op & d1 & d2 & B). set (u := real_val x a) in *. set (v := real_val x b) in *.
  exists (fun i => d1 u v * Ga i + d2 u v * Gb i)%R. split.
  - intros i Hi. destruct (Hpa i Hi) as (xi & fa & Hx & Hna & Hda). destruct (Hpb i Hi) as (xi' & fb & Hx' & Hnb & Hdb).
    rewrite Hx in Hx'. injection Hx' as <-.
    pose proof (partial_value x a i xi fa Hx Hna) as Hu. pose proof (partial_value x b i xi fb Hx Hnb) as Hv. fold u in Hu. fold v in Hv.
    exists xi, (fun t => op (fa t) (fb t)). split_and!; [done| |].
    + eapply near_impl; [apply near_and; [exact Hna|apply near_and; [exact Hnb|]]|].
      * apply (bi_open _ _ _ _ _ B fa fb); [by eapply derivable_continuous|by eapply derivable_continuous|by rewrite Hu, Hv].
      * simpl. intros t (Ha & Hb & Hc). rewrite Hn. cbn [omapM]. rewrite Ha. cbn. rewrite Hb. cbn. by apply (bi_call _ _ _ _ _ B).
    + rewrite <- Hu, <- Hv. apply (bi_deriv _ _ _ _ _ B); [done|done|by rewrite Hu, Hv].
  - intros s ds Hl. rewrite Ht. cbn [rev_tree]. rewrite (bi_rule _ _ _ _ _ B) by done. cbn [mbind outcome_bind rev_kids].
    rewrite Hrb by done. cbn [mbind outcome_bind]. rewrite Hra by (by rewrite add_scaled_length). do 2 f_equal. rewrite add_scaled_add.
    apply add_scaled_ext. intros. ring.
Qed.

Lemma call_gradient x n oid args :
  (∀ y, real_value y n = (vs ← omapM (real_value y) args; float8_call oid vs)) →
  tree x n = AFunc oid ((fun a => MFloat (real_val x a)) <$> args) (tree x <$> args) →
  smooth_call oid (real_val x <$> args) → Forall (fun a => ∃ G, has_gradient x a G) args → ∃ G, has_gradient x n G.
Proof.
  intros Hn Ht Hs HF. destruct args as [|a [|b [|]]]; try done.
  - apply Forall_cons in HF as [[Ga Ha] _]. by eapply unary_gradient.
  - apply Forall_cons in HF as [[Ga Ha] [[Gb Hb] _]%Forall_cons]. by eapply (binary_gradient x n oid a b).
Qed.

Lemma smooth_args x args :
  (fix all (l : list Node) : Prop := match l with [] => True | a :: l => smooth x a ∧ all l end) args → Forall (smooth x) args.
Proof. induction args as [|a args IH]; [constructor|]. intros [Ha Hs]. constructor; auto. Qed.

Lemma gradient x n : smooth x n → ∃ G, has_gradient x n G.
Proof.
  induction n as [n IH] using node_ind'. intros Hs.
  destruct n as [|c| | |f args|o args| | | |k t arg|t arg| | | | | | | | |]; try done; cbn [children smooth] in *.
  - eexists. apply const_gradient.
  - destruct Hs as [Hs Ha%smooth_args]. eapply (call_gradient x (NFuncExpr f args)); try done. rewrite Forall_forall in *. auto.
  - destruct Hs as [Hs Ha%smooth_args]. eapply (call_gradient x (NOpExpr o args)); try done. rewrite Forall_forall in *. auto.
  - destruct arg as [| |p| | | | | | | | | | | | | | | | |]; try done. destruct Hs as (j & Hc & Hj). eexists. by apply field_gradient.
  - inversion IH as [|? ? Harg _]; subst. destruct (Harg Hs) as [G HG]. by exists G.
Qed.

(** C10. With exact arithmetic, the walk over the steps of a lambda's body (its
    nodes in postorder, each call with the values of its arguments) adds to the
    array of derivatives the gradient of the body, times the seed: entry [i] of
    the array grows by the partial derivative of the body in column [i] of the
    inputs.  This holds for every body of float functions, columns and
    constants whose functions are differentiable where they are evaluated, as
    [smooth] has it: a power has a positive base and [atan2] a positive second
    argument.  The walk ends at the start of the steps, with fuel for the depth
    of the body. *)
Theorem gradient_correct x body ds s fuel :
  derivable body = true → smooth x body → length ds = length x →
  let steps := flatten (annotate (fun n => MFloat (real_val x n)) body) in
  (depth (annotate (fun n => MFloat (real_val x n)) body) ≤ fuel)%nat →
  ∃ G, (∀ i, (i < length x)%nat → partial x body i (G i))
    ∧ ExecLambdaDeriveSubtree (V := rdatum) false (ExecGenerateIndexArray natts) (steps ++ [DOther 0]) fuel
        (Z.of_nat (length steps) - 1) (MFloat s) (MFloat <$> ds)
      = Ok (-1, MFloat <$> imap (fun i d => d + s * G i)%R ds).
Proof.
  intros Hd Hs Hl steps Hf. destruct (gradient x body Hs) as (G & Hp & Hr). exists G. split; [done|].
  pose proof (derive_walk false (ExecGenerateIndexArray natts) _ [] [DOther 0] fuel (MFloat s) (MFloat <$> ds) (annotate_arity _ body Hd) Hf) as Hw.
  rewrite Hr in Hw by done. exact Hw.
Qed.
End Gradient.

(** [(l, r) ↦ l.1 * exp (r.1)] *)
Definition product_body : Node :=
  let col p := NFieldSelect 1 701 (NParam (mkParam PARAM_EXTERN p 2249 (-1) 0 true)) in
  NFuncExpr (mkFuncHdr F_FLOAT8MUL 701 0) [col 1; NFuncExpr (mkFuncHdr F_EXP_FLOAT8 701 0) [col 2]].

Lemma gradient_correct_witness :
  let steps := flatten (annotate (fun n => MFloat (real_val (fun _ => 0%R) [1; 1] [3; 0]%R n)) product_body) in
  ∃ G, (∀ i, (i < 2)%nat → partial (fun _ => 0%R) [1; 1] [3; 0]%R product_body i (G i))
    ∧ ExecLambdaDeriveSubtree (V := rdatum) false [0; 1] (steps ++ [DOther 0]) 3 5 (MFloat 1%R) [MFloat 0%R; MFloat 0%R]
      = Ok (-1, [MFloat (0 + 1 * G 0%nat)%R; MFloat (0 + 1 * G 1%nat)%R]).
Proof.
  apply (gradient_correct (fun _ => 0%R) [1; 1] [3; 0]%R product_body [0; 0]%R 1%R 3).
  - reflexivity.
  - cbn. split_and!; [done|exists 0%nat; split; [done|lia]|done|exists 1%nat; split; [done|lia]|done|done].
  - done.
  - cbn. lia.
Defined.
