(* ===== verification/MatrixTheorems.v ===== *)
(** * Matrices are multiplied, differentiated and normalised *)

From Stdlib Require Import Reals Lra.
From S2P Require Import Prelude Nodes ApplyMt FloatFunc Matrix MatrixFacts Derive DeriveFacts FloatReal DeriveGradient.

(** ** Products *)

(** C11. Both multiplications compute the product of matrices.  For a matrix of
    [m] rows and [n] columns and one of [n] rows and [p] columns, given as
    they are or, to [matrix_mul_internal], transposed, the result has in row [i]
    and column [k] the sum over [j] of the products, added from [0] on in the
    order of [j]; a product of one row and one column is a scalar.  The SQL
    function, whose loops accumulate in the result, returns the same array, to
    the bit, as the function that differentiation calls, which adds up one
    element after the other.  No element outside of an array is read or
    written.  The exception are two operands that are both vectors, arrays of
    one dimension, which needs [n = p = 1]: both functions refuse them. *)
Theorem matrix_product_correct `{Float8Ops F} ta tb (a b : ArrayType F) m n p g h :
  oriented ta a m n g → oriented tb b n p h → alloc_ok m p →
  if vector_arg ta a && vector_arg tb b
  then matrix_mul_internal (Some a) (Some b) ta tb = two_vectors ∧ (ta = false → tb = false → matrix_mul (Some a) (Some b) = two_vectors)
  else ∃ c, matrix_mul_internal (Some a) (Some b) ta tb = Ok c ∧ product_is c m p (dot n g h)
    ∧ (ta = false → tb = false → matrix_mul (Some a) (Some b) = Ok c).
Proof.
  intros Ha Hb Hs. pose proof (mul_internal_is ta tb a b m n p g h Ha Hb Hs) as Hi. destruct (vector_arg ta a && vector_arg tb b) eqn:Hv.
  { split; [done|]. intros -> ->. by eapply mul_arrays_vectors. }
  destruct Hi as (c & Hc & Hp). exists c. split_and!; [done|done|].
  intros -> ->. destruct (mul_arrays_is a b m n p g h (Ok a) (Ok b) (copyArray (Some a)) (copyArray (Some b)) Ha Hb Hs Hv) as (c' & H1 & H2 & _).
  unfold matrix_mul_internal in Hc. cbn [not_null mbind outcome_bind] in Hc. rewrite H2 in Hc. by injection Hc as <-.
Qed.

(** rows [1 2 3] and [4 5 6], times themselves transposed *)
Definition matrix_2_3 : ArrayType Z := mkArray [2; 3] [1; 1] [1; 2; 3; 4; 5; 6].

Lemma matrix_product_correct_witness :
  ∃ c, matrix_mul_internal (H := int_float8) (Some matrix_2_3) (Some matrix_2_3) false true = Ok c ∧ arr_data c = [14; 32; 32; 77].
Proof.
  destruct (matrix_product_correct (H := int_float8) false true matrix_2_3 matrix_2_3 2 3 2
              (fun i j => Z.of_nat (3 * i + j + 1)) (fun j i => Z.of_nat (3 * i + j + 1))) as (c & Hc & Hp & _).
  - split; [by left|done|by repeat constructor|split_and!; [lia|lia|done]|]. split; [done|]. intros [|[|]] [|[|[|]]]; cbn; intros; try lia; done.
  - split; [by left|done|by repeat constructor|split_and!; [lia|lia|done]|]. split; [done|]. intros [|[|]] [|[|[|]]]; cbn; intros; try lia; done.
  - split_and!; [lia|lia|done].
  - exists c. split; [done|]. apply mi_cells in Hp. destruct Hp as [Hl Hg]. destruct (arr_data c) as [|c0 [|c1 [|c2 [|c3 [|]]]]]; try done.
    pose proof (Hg 0%nat 0%nat ltac:(lia) ltac:(lia)) as G0. pose proof (Hg 0%nat 1%nat ltac:(lia) ltac:(lia)) as G1.
    pose proof (Hg 1%nat 0%nat ltac:(lia) ltac:(lia)) as G2. pose proof (Hg 1%nat 1%nat ltac:(lia) ltac:(lia)) as G3.
    injection G0 as ->. injection G1 as ->. injection G2 as ->. injection G3 as ->. reflexivity.
Defined.

(** ** The derivative of a product *)

(** C23. The derivative rule of the product of matrices is right, with exact
    arithmetic: the seeds it gives the factors [X] and [Y], [S * Y^T] and
    [X^T * S], are the gradients of the inner product of the seed [S] and
    [X * Y].  Along any line, through [X] in the direction of [dX] and through
    [Y] in the direction of [dY], the derivative of that inner product is the
    sum of the inner products of the new seeds and the directions.  [X], [Y] and
    [S] are matrices or vectors, not scalars.  The exception are the shapes for
    which one of the two products multiplies two vectors, arrays of one
    dimension: [S] a vector and [Y] of one row, given with two dimensions, or
    [S] a vector and [X] of one row, given with two dimensions.  There the rule
    raises the error of [matrix_mul_internal]. *)
Theorem matrix_rule_gradient (X Y S : ArrayType R) m n p x y s :
  matrix_is X m n x → matrix_is Y n p y → matrix_is S m p s →
  if (vector_arg false S && vector_arg true Y) || (vector_arg true X && vector_arg false S)
  then derive_rule (V := mdatum R) F_MAT_MUL [MPtr (Some X); MPtr (Some Y)] (MPtr (Some S)) = two_vectors
  else ∃ SX SY sx sy,
    derive_rule (V := mdatum R) F_MAT_MUL [MPtr (Some X); MPtr (Some Y)] (MPtr (Some S)) = Ok [MPtr (Some SX); MPtr (Some SY)]
    ∧ product_is SX m n sx ∧ product_is SY n p sy
    ∧ ∀ dx dy, derivable_pt_lim (fun t => inner m p s (dot n (fun i j => x i j + t * dx i j) (fun j k => y j k + t * dy j k)))%R 0
                 (inner m n sx dx + inner n p sy dy)%R.
Proof.
  intros HX HY HS.
  change (derive_rule _ _ _) with
    (newSeedX ← matrix_mul_internal (Some S) (Some Y) false true; newSeedY ← matrix_mul_internal (Some X) (Some S) true false;
     Ok [MPtr (Some newSeedX); MPtr (Some newSeedY)]).
  pose proof (mul_internal_is false true S Y m p n s (fun i j => y j i) HS HY (mi_small _ _ _ _ HX)) as PX.
  pose proof (mul_internal_is true false X S n m p (fun i j => x j i) s HX HS (mi_small _ _ _ _ HY)) as PY.
  destruct (vector_arg false S && vector_arg true Y); cbn [orb]; [by rewrite PX|]. destruct PX as (SX & EX & PX). rewrite EX. cbn [mbind outcome_bind].
  destruct (vector_arg true X && vector_arg false S); [by rewrite PY|]. destruct PY as (SY & EY & PY). rewrite EY.
  exists SX, SY, (dot p s (fun i j => y j i)), (dot m (fun i j => x j i) s). split_and!; [done|done|done|].
  - intros dx dy. rewrite <- inner_left, <- inner_right, <- inner_plus.
    eapply derivable_pt_lim_ext; [|apply (quadratic_derivative (inner m p s (dot n x y)) _ (inner m p s (dot n dx dy)))]. intros t. cbv beta.
    rewrite <- !inner_scale, <- !inner_plus. apply inner_ext. intros i k. by rewrite dot_line.
Qed.

Lemma matrix_rule_gradient_witness :
  let X := mkArray [1; 2] [1; 1] [1; 2]%R in
  let Y := mkArray [2; 2] [1; 1] [3; 4; 5; 6]%R in
  let S := mkArray [1; 2] [1; 1] [1; 1]%R in
  ∃ SX SY, derive_rule (V := mdatum R) F_MAT_MUL [MPtr (Some X); MPtr (Some Y)] (MPtr (Some S)) = Ok [MPtr (Some SX); MPtr (Some SY)].
Proof.
  intros X Y S.
  destruct (matrix_rule_gradient X Y S 1 2 2 (fun _ j => nth j [1; 2] 0)%R (fun j k => nth (2 * j + k) [3; 4; 5; 6] 0)%R (fun _ k => nth k [1; 1] 0)%R)
    as (SX & SY & _ & _ & Hr & _).
  1-3: split; [by left|done|by repeat constructor|split_and!; [lia|lia|done]|]; split; [done|]; intros [|[|]] [|[|]]; cbn; intros; try lia; done.
  by exists SX, SY.
Defined.

(** ** Elementwise functions *)

Section Elementwise.
Context (a S : ArrayType R) (m n : nat) (g s : nat → nat → R).
Context (Hcopy : copyArray (Some a) = Ok a) (Ha : matrix_is a m n g) (HS : matrix_is S m n s) (Hdims : arr_dims S = arr_dims a).

Lemma matrix_length (b : ArrayType R) h : matrix_is b m n h → length (arr_data b) = (m * n)%nat.
Proof. intros Hb. apply (mi_cells _ _ _ _ Hb). Qed.

Lemma map_copy_is msg f : map_copy msg f (Some a) = Ok (with_data a (f <$> arr_data a)).
Proof.
  unfold map_copy. cbn [not_null mbind outcome_bind]. rewrite Hcopy. cbn [mbind outcome_bind]. rewrite (matrix_nitems _ _ _ _ Ha). cbn [mbind outcome_bind].
  rewrite <- (matrix_length a g Ha). by rewrite update_loop_map.
Qed.

Lemma init_matrix (b : ArrayType R) h : matrix_is b m n h → initResult (arr_dims b) (arr_lbound b) = Ok (with_data b (repeat (f8 0) (m * n))).
Proof.
  intros [Hd _ _ Hs _]. unfold with_data. destruct Hd as [->|[-> ->]]; [by apply init_2|]. rewrite init_1 by done. by rewrite Nat.mul_1_r.
Qed.

Lemma elem_mult_is l : length l = (m * n)%nat → matrix_elem_mult (Some S) (Some (with_data a l)) = Ok (with_data S (zip_with Rmult (arr_data S) l)).
Proof.
  intros Hl. unfold matrix_elem_mult. cbn [not_null mbind outcome_bind]. rewrite (matrix_nitems _ _ _ _ HS). cbn [mbind outcome_bind].
  change (nitems (with_data a l)) with (nitems a). rewrite (matrix_nitems _ _ _ _ Ha). cbn [mbind outcome_bind]. rewrite (matrix_not_scalar _ _ _ _ HS).
  cbn [mbind outcome_bind]. change (isScalar (with_data a l)) with (isScalar a). rewrite (matrix_not_scalar _ _ _ _ Ha). cbn [mbind outcome_bind].
  unfold ARR_NDIM. change (arr_dims (with_data a l)) with (arr_dims a). rewrite Hdims, Z.eqb_refl. cbn [negb]. rewrite same_dims_refl. cbn [mbind outcome_bind].
  rewrite <- Hdims, (init_matrix S s HS). cbn [mbind outcome_bind arr_data with_data].
  rewrite (zip_loop_with _ _ _ _ (m * n)%nat); [done|by apply (matrix_length S s)|done|apply repeat_length].
Qed.

Lemma elementwise_is msg f :
  elementwise_rule (V := rdatum) [MPtr (Some a)] (MPtr (Some S)) (map_copy msg f)
  = Ok [MPtr (Some (with_data S (zip_with Rmult (arr_data S) (f <$> arr_data a))))].
Proof.
  unfold elementwise_rule. change (arg_ptr (V := rdatum) [MPtr (Some a)] 0) with (Ok (Some a) : outcome (option (ArrayType R))). cbn [mbind outcome_bind].
  rewrite map_copy_is. cbn [mbind outcome_bind]. change (seed_ptr (V := rdatum) (MPtr (Some S))) with (Ok (Some S) : outcome (option (ArrayType R))).
  cbn [mbind outcome_bind]. rewrite elem_mult_is; [done|]. rewrite length_fmap. by apply (matrix_length a g).
Qed.
End Elementwise.

Lemma silu_m_deriv x :
  derivable_pt_lim (fun x => x / (1 + exp (-1 * x)))%R x ((1 + exp (-1 * x) + x * exp (-1 * x)) / Rpower (1 + exp (-1 * x)) 2)%R.
Proof.
  pose proof (un_deriv _ _ _ _ silu_fn x I) as Hd. cbv beta in Hd. rewrite exp_minus_1. change 2%R with (INR 2). rewrite Rpower_pow.
  - cbn [pow]. by rewrite Rmult_1_r.
  - pose proof (exp_pos (- x)). lra.
Qed.

Lemma sigmoid_m_deriv x :
  derivable_pt_lim (fun x => 1 / (1 + exp (-1 * x)))%R x (1 / (1 + exp (-1 * x)) * (1 - 1 / (1 + exp (-1 * x))))%R.
Proof. pose proof (un_deriv _ _ _ _ sigmoid_fn x I) as Hd. cbv beta in Hd. by rewrite exp_minus_1. Qed.

Lemma relu_m_deriv x : x ≠ 0%R → derivable_pt_lim (fun x => if Rltb 0 x then x else 0)%R x (if Rltb 0 x then 1 else 0)%R.
Proof.
  intros Hx. destruct (Rlt_dec 0 x) as [Hp|Hp].
  - rewrite (proj2 (Rltb_true 0 x) Hp). apply (derivable_near id); [|apply derivable_pt_lim_id].
    eapply near_impl; [by apply (near_lt_l 0)|]. simpl. intros t Ht. by real_tests.
  - rewrite (proj2 (Rltb_false 0 x)) by lra. apply (derivable_near (fun _ => 0%R)); [|apply derivable_pt_lim_const].
    eapply near_impl; [apply (near_lt_r 0); lra|]. simpl. intros t Ht. by real_tests.
Qed.

(** the four functions of matrices that work on each element *)
Definition elementwise_functions : list (Oid * (option (ArrayType R) → outcome (ArrayType R))) :=
  [(F_SILU_M, silu_m_internal); (F_SIGMOID_M, sigmoid_m_internal); (F_TANH_M, tanh_m_internal); (F_RELU_M, relu_m_internal)].

(** C24. The derivative rules of silu, sigmoid, tanh and relu of a matrix are
    right, with exact arithmetic: the function applies some [op] to every
    element, and the rule multiplies every element of the seed by the
    derivative of [op] at the element of the argument.  Elements of the
    argument of relu are not [0], where it has no derivative.  The argument
    is an array whose copy stays within its memory. *)
Theorem elementwise_rule_gradient oid internal (a S : ArrayType R) m n g s :
  (oid, internal) ∈ elementwise_functions → copyArray (Some a) = Ok a → matrix_is a m n g → matrix_is S m n s → arr_dims S = arr_dims a →
  (oid = F_RELU_M → Forall (λ x, x ≠ 0%R) (arr_data a)) →
  ∃ op op', internal (Some a) = Ok (with_data a (op <$> arr_data a))
    ∧ derive_rule (V := rdatum) oid [MPtr (Some a)] (MPtr (Some S)) = Ok [MPtr (Some (with_data S (zip_with Rmult (arr_data S) (op' <$> arr_data a))))]
    ∧ Forall (λ x, derivable_pt_lim op x (op' x)) (arr_data a).
Proof.
  intros Hin Hc Ha HS Hd Hr. unfold elementwise_functions in Hin. rewrite !elem_of_cons in Hin.
  destruct Hin as [[= -> ->]|[[= -> ->]|[[= -> ->]|[[= -> ->]|Hin%elem_of_nil]]]]; [..|done].
  - eexists _, _. split_and!; [by eapply map_copy_is|by eapply (elementwise_is a S)|]. apply Forall_true. intros x. apply silu_m_deriv.
  - eexists _, _. split_and!; [by eapply map_copy_is|by eapply (elementwise_is a S)|]. apply Forall_true. intros x. apply sigmoid_m_deriv.
  - eexists _, _. split_and!; [by eapply map_copy_is|by eapply (elementwise_is a S)|]. apply Forall_true. intros x. by apply (un_deriv _ _ _ _ tanh_fn).
  - eexists _, _. split_and!; [by eapply map_copy_is|by eapply (elementwise_is a S)|]. eapply Forall_impl; [by apply Hr|]. apply relu_m_deriv.
Qed.

Lemma elementwise_rule_gradient_witness :
  let a := mkArray [2] [1] [1; 2]%R in
  ∃ r, derive_rule (V := rdatum) F_TANH_M [MPtr (Some a)] (MPtr (Some a)) = Ok [MPtr (Some r)].
Proof.
  intros a. destruct (elementwise_rule_gradient F_TANH_M tanh_m_internal a a 2 1 (fun i _ => nth i [1; 2] 0)%R (fun i _ => nth i [1; 2] 0)%R)
    as (op & op' & _ & Hr & _).
  - unfold elementwise_functions. rewrite !elem_of_cons. auto.
  - done.
  - split; [by right|done|by repeat constructor|split_and!; [lia|lia|done]|]. split; [done|]. intros [|[|]] [|]; cbn; intros; try lia; done.
  - split; [by right|done|by repeat constructor|split_and!; [lia|lia|done]|]. split; [done|]. intros [|[|]] [|]; cbn; intros; try lia; done.
  - done.
  - done.
  - by eexists.
Defined.

(** ** A scalar and a matrix *)

Lemma update_new_zero `{Float8Ops F} m n lbs (data : list F) f :
  alloc_ok m n → update_new (mkArray [Z.of_nat m; Z.of_nat n] lbs data) f = Ok (mkArray [Z.of_nat m; Z.of_nat n] lbs (replicate (m * n) (f (f8 0)))).
Proof.
  intros Hs. unfold update_new. cbn [arr_dims arr_lbound]. rewrite init_2 by done. cbn [mbind outcome_bind]. unfold nitems. cbn [arr_dims arr_data].
  rewrite nitems_2 by done. cbn [mbind outcome_bind]. rewrite repeat_replicate.
  pose proof (update_loop_map f (replicate (m * n) (f8 0))) as E. rewrite length_replicate in E. by rewrite E, fmap_replicate.
Qed.

(** C40. The SQL functions of a scalar and a matrix do not read the matrix.
    They allocate the result, an array of zeros, and update that: subtracting
    a scalar [s] from a matrix gives [0 - s] in every element, subtracting a
    matrix from [s] gives [s - 0], and multiplying a matrix by [s] gives
    [s * 0], whatever the elements of the matrix are. *)
Theorem scalar_functions_ignore_matrix `{Float8Ops F} m n (lbs : list Z) data (s : F) :
  alloc_ok m n →
  let dims := [Z.of_nat m; Z.of_nat n] in
  mat_sub_ms (mkArray dims lbs data) s = Ok (mkArray dims lbs (replicate (m * n) (f8 0 ⊖ s)%f8))
  ∧ mat_sub_sm s (mkArray dims lbs data) = Ok (mkArray dims lbs (replicate (m * n) (s ⊖ f8 0)%f8))
  ∧ mat_mul_sm s (mkArray dims lbs data) = Ok (mkArray dims lbs (replicate (m * n) (s ⊗ f8 0)%f8)).
Proof. intros Hs dims. unfold mat_sub_ms, mat_sub_sm, mat_mul_sm, dims. by rewrite !update_new_zero. Qed.

Lemma scalar_functions_ignore_matrix_witness :
  mat_sub_ms (H := int_float8) matrix_2_3 1 = Ok (mkArray [2; 3] [1; 1] [-1; -1; -1; -1; -1; -1]).
Proof. apply (scalar_functions_ignore_matrix (H := int_float8) 2 3 [1; 1] [1; 2; 3; 4; 5; 6] 1). split_and!; [lia|lia|done]. Defined.

(** * Softmax and its derivative, over the real numbers *)

Section Softmax.
Local Open Scope R_scope.

(** ** Sums over lists *)

Fixpoint lsum (f : R → R) (l : list R) : R := match l with [] => 0 | x :: l => f x + lsum f l end.

Lemma lsum_foldl f l s : foldl (fun s x => s + f x) s l = s + lsum f l.
Proof. revert s. induction l as [|x l IH]; intros s; cbn; [lra|]. rewrite IH. lra. Qed.

Lemma lsum_app f l1 l2 : lsum f (l1 ++ l2) = lsum f l1 + lsum f l2.
Proof. induction l1 as [|x l1 IH]; cbn; [lra|]. rewrite IH. lra. Qed.

Lemma lsum_ext f g l : (∀ x, f x = g x) → lsum f l = lsum g l.
Proof. intros He. induction l as [|x l IH]; cbn; [done|]. by rewrite IH, He. Qed.

Lemma lsum_scale f c l : lsum (fun x => f x * c) l = lsum f l * c.
Proof. induction l as [|x l IH]; cbn; [lra|]. rewrite IH. lra. Qed.

Lemma lsum_fmap f g l : lsum f (g <$> l) = lsum (fun x => f (g x)) l.
Proof. induction l as [|x l IH]; cbn; [done|]. by rewrite IH. Qed.

Lemma lsum_exp_pos l : l ≠ [] → 0 < lsum exp l.
Proof.
  assert (∀ l, 0 <= lsum exp l) as Hge.
  { induction l0 as [|x l0 IH]; cbn; [lra|]. pose proof (exp_pos x). lra. }
  destruct l as [|x l]; [done|]. intros _. cbn. pose proof (exp_pos x). specialize (Hge l). lra.
Qed.

(** the maximum that is subtracted cancels out *)
Lemma lsum_shift M l : lsum (fun x => exp (x - M)) l = lsum exp l * exp (- M).
Proof. rewrite <- lsum_scale. apply lsum_ext. intros x. by rewrite <- exp_plus. Qed.

Definition softmax_of (l : list R) : list R := (fun x => exp x / lsum exp l) <$> l.

Lemma softmax_shift M l x : l ≠ [] → exp (x - M) / lsum (fun x => exp (x - M)) l = exp x / lsum exp l.
Proof.
  intros Hl. rewrite lsum_shift. unfold Rminus. rewrite exp_plus. pose proof (lsum_exp_pos l Hl). pose proof (exp_pos (- M)). field. lra.
Qed.

Lemma log_shift M l x : l ≠ [] → x - M - ln (lsum (fun x => exp (x - M)) l) = x - ln (lsum exp l).
Proof.
  intros Hl. rewrite lsum_shift, ln_mult, ln_exp; [lra|by apply lsum_exp_pos|apply exp_pos].
Qed.

(** ** The loops *)

Lemma zip_same {A} (f : A → A → A) (l : list A) : zip_with f l l = (fun x => f x x) <$> l.
Proof. induction l as [|x l IH]; cbn; [done|]. by rewrite IH. Qed.

Lemma log_softmax_spec (l : list R) (i : nat) :
  l ≠ [] → (i ≤ length l)%nat → log_softmax (Z.of_nat (length l)) (Z.of_nat i) l = Ok ((fun x => x - ln (lsum exp l)) <$> l).
Proof.
  intros Hl Hi. unfold log_softmax. destruct l as [|x0 l0] eqn:El; [done|]. rewrite <- El in *. clear El.
  assert (∃ x, array_get l 0 = Ok x) as [first ->] by (destruct l; [done|by eexists]). cbn [mbind outcome_bind].
  rewrite max_loop_fold by done. cbn [mbind outcome_bind]. set (M := foldl _ _ _).
  rewrite Nat2Z.id, (zip_loop_with _ l l _ (length l)) by (done || apply repeat_length). cbn [mbind outcome_bind]. rewrite zip_same.
  set (shifted := _ <$> l). assert (length l = length shifted) as Hlen by (unfold shifted; by rewrite length_fmap). rewrite Hlen.
  rewrite sum_loop_fold. cbn [mbind outcome_bind]. rewrite update_loop_map. f_equal. change (f8_add (F := R)) with Rplus.
  change (f8_exp (F := R)) with exp. change (f8 (F := R) 0) with 0. rewrite lsum_foldl, Rplus_0_l.
  unfold shifted. rewrite lsum_fmap, <- list_fmap_compose. apply list_fmap_ext. intros _ x _. cbn. by apply log_shift.
Qed.

(** ** Cross entropy *)

Lemma zip_lsum (x l : list R) c : length x = length l → lsum id (zip_with Rmult ((fun x => x - c) <$> x) l) = lsum id (zip_with Rmult x l) - c * lsum id l.
Proof. revert l. induction x as [|y x IH]; intros [|z l] Hl; cbn in *; try done; [lra|]. rewrite IH by lia. unfold id. lra. Qed.

Lemma zip_insert (x l : list R) i xi li t :
  x !! i = Some xi → l !! i = Some li → lsum id (zip_with Rmult (<[i := t]> x) l) = lsum id (zip_with Rmult x l) - xi * li + t * li.
Proof.
  revert l i. induction x as [|y x IH]; intros [|z l] [|i] Hx Hl; try done.
  - injection Hx as <-. injection Hl as <-. cbn. unfold id. lra.
  - change (<[S i := t]> (y :: x)) with (y :: <[i := t]> x). cbn [zip_with lsum]. rewrite (IH l i Hx Hl). lra.
Qed.

Lemma lsum_insert f (x : list R) i xi t : x !! i = Some xi → lsum f (<[i := t]> x) = lsum f x - f xi + f t.
Proof.
  revert i. induction x as [|y x IH]; intros [|i] Hx; try done; [injection Hx as <-; cbn; lra|].
  change (<[S i := t]> (y :: x)) with (y :: <[i := t]> x). cbn [lsum]. rewrite (IH i Hx). lra.
Qed.

(** the derivative of [A + t * l - ln (B + exp t)] *)
Lemma cce_derivative A B l x : 0 < B + exp x → derivable_pt_lim (fun t => A + t * l - ln (B + exp t)) x (l - exp x / (B + exp x)).
Proof.
  intros Hp. apply derivable_pt_lim_minus.
  - assert (derivable_pt_lim (fct_cte A + id * fct_cte l)%F x (0 + (1 * fct_cte l x + id x * 0))) as Hd.
    { apply derivable_pt_lim_plus; [apply derivable_pt_lim_const|]. apply derivable_pt_lim_mult; [apply derivable_pt_lim_id|apply derivable_pt_lim_const]. }
    replace (0 + (1 * fct_cte l x + id x * 0)) with l in Hd by (unfold fct_cte, id; lra). exact Hd.
  - replace (exp x / (B + exp x)) with (/ (B + exp x) * (0 + exp x)) by (unfold Rdiv; lra).
    apply (derivable_pt_lim_comp (fct_cte B + exp)%F ln); [|by apply derivable_pt_lim_ln].
    apply derivable_pt_lim_plus; [apply derivable_pt_lim_const|apply derivable_pt_lim_exp].
Qed.

(** arrays of one dimension, or of one row *)
Definition vector_dims (n : nat) (dims : list Z) : Prop := dims = [Z.of_nat n] ∨ dims = [1%Z; Z.of_nat n].

Lemma vector_nitems n dims : alloc_ok 1 n → vector_dims n dims → ArrayGetNItems dims = Ok (Z.of_nat n).
Proof.
  intros Hs [->| ->]; [apply nitems_1; by apply alloc_ok_swap|]. change 1%Z with (Z.of_nat 1). rewrite nitems_2 by done. do 2 f_equal. lia.
Qed.

Lemma vector_or_ok msg (a : ArrayType R) n : vector_dims n (arr_dims a) → vector_or msg a = Ok tt.
Proof. unfold vector_or, is_vector, ARR_NDIM. by intros [->| ->]. Qed.

Section Cce.
Context (dims lbs lbs' : list Z) (n : nat) (labels : list R).
Context (Hdims : vector_dims n dims) (Hn : alloc_ok 1 n) (Hlabels : length labels = n).

Lemma cce_value x : length x = n →
  softmax_cce_internal (Some (mkArray dims lbs x)) (Some (mkArray dims lbs' labels)) = Ok (lsum id (zip_with Rmult x labels) - ln (lsum exp x) * lsum id labels).
Proof.
  intros Hx. assert (x ≠ []) as Hne by (intros ->; cbn in Hx; destruct Hn; lia). unfold softmax_cce_internal. cbn [not_null mbind outcome_bind].
  unfold nitems. cbn [arr_dims]. rewrite (vector_nitems n dims Hn Hdims). cbn [mbind outcome_bind]. unfold ARR_NDIM. cbn [arr_dims].
  rewrite Z.eqb_refl. cbn [negb]. rewrite same_dims_refl. cbn [mbind outcome_bind]. rewrite !(vector_or_ok _ _ n) by done.
  cbn [mbind outcome_bind arr_data]. pose proof (log_softmax_spec x 0 Hne ltac:(lia)) as Hl. rewrite Hx in Hl. change (Z.of_nat 0) with 0%Z in Hl.
  rewrite Hl. cbn [mbind outcome_bind]. rewrite (zip_loop_with _ _ _ _ n) by (done || by rewrite length_fmap). cbn [mbind outcome_bind].
  set (r := zip_with _ _ _). assert (length r = n) as Hr by (unfold r; rewrite length_zip_with, length_fmap; lia).
  rewrite <- Hr at 1. rewrite sum_loop_fold. change (f8_add (F := R)) with Rplus. change (f8 (F := R) 0) with 0. rewrite (lsum_foldl id), Rplus_0_l. f_equal.
  unfold r. rewrite zip_lsum by lia. done.
Qed.

Lemma cce_derive_value x : length x = n →
  softmax_cce_derive (Some (mkArray dims lbs x)) (Some (mkArray dims lbs' labels)) = Ok (mkArray dims lbs (zip_with Rminus (softmax_of x) labels)).
Proof.
  intros Hx. assert (x ≠ []) as Hne by (intros ->; cbn in Hx; destruct Hn; lia). unfold softmax_cce_derive. cbn [not_null mbind outcome_bind].
  unfold nitems. cbn [arr_dims]. rewrite (vector_nitems n dims Hn Hdims). cbn [mbind outcome_bind]. rewrite Z.eqb_refl. cbn [negb].
  rewrite !(vector_or_ok _ _ n) by done. cbn [mbind outcome_bind arr_data arr_lbound].
  assert (∃ d0, initResult dims lbs = Ok (mkArray (F := R) dims lbs d0)) as [d0 ->].
  { destruct Hdims as [->| ->]; eexists; [apply init_1; by apply alloc_ok_swap|by apply (init_2 1)]. }
  cbn [mbind outcome_bind]. pose proof (log_softmax_spec x 1 Hne ltac:(destruct Hn; lia)) as Hl. rewrite Hx in Hl. change (Z.of_nat 1) with 1%Z in Hl.
  rewrite Hl. cbn [mbind outcome_bind]. rewrite (zip_loop_with _ _ _ _ n) by (done || by rewrite length_fmap). cbn [mbind outcome_bind].
  unfold with_data. cbn [arr_dims arr_lbound]. do 2 f_equal. unfold softmax_of. rewrite !zip_with_fmap_l. apply zip_with_ext; [|done..].
  intros y l. cbn. f_equal. unfold Rminus. by rewrite exp_plus, exp_Ropp, exp_ln by (by apply lsum_exp_pos).
Qed.
End Cce.

(** ** Softmax *)

(** With exact arithmetic, softmax maps every element [x] to
    [exp x / (exp x_1 + ... + exp x_n)]: subtracting the maximum first changes
    nothing.  The results add up to [1].  The array is one whose copy stays
    within its memory. *)
Theorem softmax_correct (a : ArrayType R) :
  copyArray (Some a) = Ok a → nitems a = Ok (Z.of_nat (length (arr_data a))) → arr_data a ≠ [] →
  softmax (Some a) = Ok (with_data a (softmax_of (arr_data a))) ∧ lsum id (softmax_of (arr_data a)) = 1.
Proof.
  intros Hc Hn Hne. split.
  - unfold softmax. cbn [not_null mbind outcome_bind]. rewrite Hc. cbn [mbind outcome_bind]. rewrite Hn. cbn [mbind outcome_bind].
    pose proof (max_loop_fold 0 (arr_data a) (f8 0) ltac:(lia)) as Hm. rewrite Z.sub_0_r in Hm. change (Z.of_nat 0) with 0%Z in Hm.
    rewrite Hm. cbn [mbind outcome_bind]. rewrite sum_loop_fold. cbn [mbind outcome_bind]. rewrite update_loop_map. cbn [mbind outcome_bind].
    do 2 f_equal. apply list_fmap_ext. intros _ x _. set (M := foldl _ _ (drop _ _)). change (f8_add (F := R)) with Rplus.
    change (f8_exp (F := R)) with exp. change (f8 (F := R) 0) with 0. rewrite lsum_foldl, Rplus_0_l. by apply softmax_shift.
  - unfold softmax_of. rewrite lsum_fmap. unfold id, Rdiv. rewrite lsum_scale. pose proof (lsum_exp_pos _ Hne). field. lra.
Qed.

Lemma softmax_correct_witness :
  softmax (Some (mkArray [2%Z] [1%Z] [0; 1])) = Ok (mkArray [2%Z] [1%Z] (softmax_of [0; 1])) ∧ lsum id (softmax_of [0; 1]) = 1.
Proof. apply (softmax_correct (mkArray [2%Z] [1%Z] [0; 1])); done. Defined.

(** ** The derivative of the cross entropy *)

(** C39. [softmax_cce_derive] has the opposite sign of the derivative of
    [softmax_cce].  For vectors of inputs and labels of the same shape, the
    labels adding up to [1] as one-hot labels do, and with exact arithmetic,
    [softmax_cce] is a differentiable function of every input [i]; its
    derivative is minus element [i] of the array that [softmax_cce_derive]
    returns.  The cross entropy has a minus that [softmax_cce] leaves out; the
    array is the gradient of the function with it. *)
Theorem softmax_cce_derive_sign dims lbs lbs' n x labels :
  vector_dims n dims → alloc_ok 1 n → length x = n → length labels = n → lsum id labels = 1 →
  ∃ d, softmax_cce_derive (Some (mkArray dims lbs x)) (Some (mkArray dims lbs' labels)) = Ok (mkArray dims lbs d) ∧ length d = n
  ∧ ∀ i xi di, x !! i = Some xi → d !! i = Some di →
    ∃ f, (∀ t, softmax_cce_internal (Some (mkArray dims lbs (<[i := t]> x))) (Some (mkArray dims lbs' labels)) = Ok (f t))
      ∧ derivable_pt_lim f xi (- di).
Proof.
  intros Hd Hn Hx Hl H1. exists (zip_with Rminus (softmax_of x) labels). split_and!.
  - by apply (cce_derive_value dims lbs lbs' n labels).
  - unfold softmax_of. rewrite length_zip_with, length_fmap. lia.
  - intros i xi di Hxi Hdi. apply lookup_zip_with_Some in Hdi as (pi & li & -> & Hpi & Hli). unfold softmax_of in Hpi.
    rewrite list_lookup_fmap, Hxi in Hpi. injection Hpi as <-. eexists. split.
    + intros t. apply (cce_value dims lbs lbs' n labels Hd Hn Hl). by rewrite length_insert.
    + assert (x ≠ []) as Hne by (by intros ->). pose proof (lsum_exp_pos x Hne) as Hp.
      apply (derivable_pt_lim_ext (fun t => (lsum id (zip_with Rmult x labels) - xi * li) + t * li - ln ((lsum exp x - exp xi) + exp t))).
      * intros t. by rewrite (zip_insert x labels i xi li t Hxi Hli), (lsum_insert exp x i xi t Hxi), H1, Rmult_1_r.
      * replace (- (exp xi / lsum exp x - li)) with (li - exp xi / (lsum exp x - exp xi + exp xi)).
        { apply cce_derivative. lra. }
        replace (lsum exp x - exp xi + exp xi) with (lsum exp x) by lra. lra.
Qed.

Lemma softmax_cce_derive_sign_witness :
  ∃ d, softmax_cce_derive (Some (mkArray [2%Z] [1%Z] [0; 1])) (Some (mkArray [2%Z] [1%Z] [1; 0])) = Ok (mkArray [2%Z] [1%Z] d) ∧ length d = 2%nat.
Proof.
  destruct (softmax_cce_derive_sign [2%Z] [1%Z] [1%Z] 2 [0; 1] [1; 0]) as (d & E & Hl & _).
  - by left.
  - split_and!; [lia|lia|done].
  - done.
  - done.
  - cbn. unfold id. lra.
  - by exists d.
Defined.
End Softmax.
